(* ===== verification/_CoqProject ===== *)
-Q . S2P
Prelude.v
JsString.v
JsMap.v
Unicode.v
Decimal.v
Errors.v
Refs.v
Cache.v
CacheProofs.v
CacheSpec.v
StrictJson.v
StrictJsonProofs.v
Canonical.v
DefaultsArtifact.v
Numbers.v
Duration.v
Base64.v
Codecs.v
CodecLaws.v
Watch.v
WatchProofs.v
WatchSpec.v
Release.v
Resolve.v
Loader.v
LoaderProofs.v
LoaderRun.v
LoaderRunProofs.v
LoaderWaits.v
Clone.v
CloneProofs.v
Reports.v
Contract.v
LoaderSetup.v
Managed.v
ManagedSpec.v
LineDiff.v
LineDiffProofs.v
Sse.v
Dispatcher.v
Values.v
ValuesProofs.v
JsInt.v
Zip.v
ZipProofs.v
JsonText.v
JsonTextProofs.v
ClientData.v
Client.v
ClientMoves.v
ClientProofs.v
ClientFresh.v
ClientReads.v
ClientSpec.v
ClientSecrets.v
Publishing.v
PublishingProofs.v
PublishingSpec.v
DefaultsVerify.v
Route.v
RouteSpec.v
NextKms.v
NextKmsSpec.v
NextKmsHooks.v
