(* ===== verification/Prelude.v ===== *)
(** * Verification of the TypeScript SDK of the kms parameter store

    The program is a parameter and secret store: a Go server, and SDKs that
    applications use to read configuration, follow its changes and apply
    configuration releases. This library models the TypeScript SDK under
    [sdk/typescript/src], the part of the repository with the intricate
    client-side logic, and proves the properties an application relies on.

    ** Parts and files

    - Language layer: [Prelude] (results, sorting, tactics, hints), [JsString]
      and [Unicode] (UTF-16 strings, UTF-8, [JSON.stringify] of a string),
      [JsMap] (insertion-ordered [Map] and [Set]), [Decimal] (bigint text).
    - [Errors] ([errors.ts]), [Refs] ([refs.ts]).
    - [Cache], [CacheProofs], [CacheSpec] ([cache.ts], class [ReadCache]): the
      two-level [Map] is a list of lists in insertion order, generation
      objects live in a store and are compared by identity.
    - [StrictJson], [StrictJsonProofs] ([configstore/strict-json.ts]),
      [Canonical] ([configstore/canonical.ts]), [DefaultsArtifact]
      ([configstore/defaults-artifact.ts]).
    - [Numbers], [Duration], [Base64], [Codecs], [CodecLaws]
      ([configstore/codecs.ts]): the codecs are records of functions, as
      [ValueCodec] is; [LawfulCodec] is the interface between them.
    - [Watch], [WatchProofs], [WatchSpec] ([watch.ts], class
      [SubscriptionManager]).
    - [Release] ([releases/types.ts], [digest.ts], [verify.ts]), [Resolve]
      (resolution in [releases/loader.ts]), [Loader], [LoaderProofs] (the
      coordinator of [releases/loader.ts]).
    - [LoaderRun], [LoaderRunProofs], [LoaderWaits]: the tasks around the
      coordinator, the flush chain, [#watchLoop] and the waits for startup
      acknowledgements, which drive its operations; [LoaderSetup]: options,
      session and start of a run.
    - [Clone], [CloneProofs] ([configstore/clone.ts], [secret.ts]): object
      graphs on a heap; [Reports] ([configstore/errors.ts], [snapshot.ts]);
      [Contract] ([contract.ts]); [Managed] ([manager.ts]) and [ManagedSpec],
      the manager composed with the release loader.
    - [Dispatcher] (class [CallbackDispatcher] of [client.ts]): the queue of
      change callbacks, which holds 1024 and drops what exceeds it.
    - [Values], [ValuesProofs] ([values.ts]): declarative secrets and
      parameters, which hand the callbacks of a change to the queue of their
      client, to its [Dispatcher] or to the microtask queue.
    - [ClientData] (the checks and conversions of [client.ts] and
      [models.ts]), [Client] (class [KmsClient]: its calls, the shared
      namespace discovery, the cache around them, [close]); [ClientMoves] and [ClientProofs] (the
      moves a step is made of, typing, runs), [ClientReads], [ClientFresh],
      [ClientSpec] and [ClientSecrets] (its properties).
    - [Publishing], [PublishingProofs], [PublishingSpec] ([publishing.ts]),
      over the heap of [Clone]; [DefaultsVerify] ([configstore/verify.ts]),
      composed with the client.
    - [Route], [RouteSpec] (the GET handler of [next/server.ts], over a
      publisher) and [NextKms], [NextKmsSpec], [NextKmsHooks] (the lifecycle
      of its adapter).
    - Of the web console, [LineDiff], [LineDiffProofs] ([line-diff.ts]),
      [Sse] ([sse.ts]), [Zip], [ZipProofs] ([zip.ts], over the 32-bit
      operators of [JsInt]) and [JsonText], [JsonTextProofs] ([json-text.ts]),
      all of [frontend/lib].

    The client calls the cache around each read, the subscription manager
    invalidates the cache when it hears of a change, the loader resolves a
    release through the transport and hands it to the application in two
    phases, and the managed configuration decodes the release with the codecs.

    ** How code becomes definitions

    Data keep the source's shape: strings are lists of UTF-16 code units,
    bytes are integers, bigints and safe integers are [Z] with the source's
    range checks, [throw] is the [Throw] case of [res]. A class is a record of
    its fields and a method a function from the record to the record and its
    result. Asynchronous code is cut at its [await]s: each synchronous stretch
    is one operation, what a suspended function holds is part of the state,
    and a run is a list of operations, so a theorem about all runs covers all
    interleavings. Calls to the application are recorded in a trace.

    Code outside the repository is a parameter: SHA-256, the generated
    protobuf encoder, the transport's answers, the random draws and clocks.

    ** What is proved

    - Loader: only the newest candidate that is still active is committed, in
      order; prepared releases are disposed of once; acknowledgements are
      kept; after the first commit a run ends only by a callback that breaks
      its contract, a watch error that is not retried or a startup rejection
      already waiting; the last contradicts the class comment.
    - Resolution: a snapshot is exactly what the server pinned; the worker
      pool is bounded and keeps order; the digest is a function of content;
      a comparison is accepted only if complete and consistent.
    - Watch: reference counts and tables are consistent, handlers are never
      behind, stale reconciliation passes write nothing, snapshots are exact,
      delays are bounded.
    - Cache: invariant, refinement of an abstract cache, the fence against
      reads that raced an invalidation, a write is readable.
    - Text formats: the JSON reader is total and inverts the printer, the
      canonical form decides equality, defaults artifacts, groups, durations
      and references round-trip, numbers are compared exactly, integer codecs
      accept exactly the numbers whose value by the JSON grammar is an integer
      of their width.
    - Errors: failures of secret operations disclose nothing.
    - Loader tasks: every run of them is a run of the coordinator; at rest
      every retained acknowledgement is on the current stream; a startup
      rejection is sent before the run ends with it or its timer fired; no
      wait misses its flush; options are accepted exactly when valid, and what
      is made of them is well formed.
    - Managed configuration: copies are isomorphic and isolated; the search
      for secrets is exact for own properties, entries and items, and a value
      of a report leads to none through them, though it may through a
      prototype that the search does not look at and the copy keeps; the
      contract holds of every resolved release, and in every interleaving with
      the loader the published generations are its commits, none but the first
      needs a restart, both statuses agree and divergence was reported.
    - Declarative values: no subscription escapes disposal; every change makes
      one call per callback, none is made twice, all are made in order but for
      a host's own queue, and the only ones lost are those the client's
      dispatcher dropped with 1024 waiting or its [close] discarded; no wiring error hides behind a default; the walk
      over a configuration is exact.
    - Client: in every interleaving of calls, answers, cancellations, changes
      and [close], a value served from the cache is a checked answer that no
      invalidation has overtaken; reads resolve with what was asked for, but
      for parameter metadata, whose reference is not compared; all relative
      keys resolve in one namespace, discovered once; reads release
      their generations; plaintext buffers are wiped; a closed client is
      inert; callbacks run one at a time and in order, and a notification is
      dropped, with a warning, exactly when 1024 wait.
    - Publishing: a public copy is exact and total, every answer of a publisher
      is about one generation, an allowlist bounds what is published, wire
      objects round-trip.
    - Server adapter: conditional requests get 304 exactly for the current
      tag and bodies parse back to the published view; resources are used only
      before, and closed exactly once; a close settles; shutdown hooks run once.
    - Defaults: through the client and a server that compares hashes as
      documented, the failures of a comparison are exactly the parameters
      whose default is not the pinned value, and nothing but hashes is sent.
    - Console: a line diff reads back to both texts and keeps as many lines as
      any diff can; the messages of an event stream do not depend on chunks;
      a stored archive under 4 GiB is read back by a reader that checks every
      header and checksum; the JSON checker accepts exactly the grammar and
      formatting changes white space only.

    ** Fuel

    [StrictJson.parse_fuel] is [MAX_JSON_DEPTH] and one level more, the most
    the parser recurses, and its loops get the length of the text; it is shown
    that neither runs out ([strict_json_total]). [Cache.evict_fuel] counts the
    paths and entries of the cache, and each round of the eviction loop
    removes one of them. [Duration.parse_components] gets the length of the
    text, and each component reads at least one unit.
    [Clone.clone_fuel] is one more than the number of objects: each level of
    the recursion meets an object it has not met before; so does
    [Values.collect_fuel]. The loops of
    [LineDiff], [Sse] and [JsonText] get one unit a line or a code unit, as each round
    consumes one.

    ** Not modelled

    Timers, timestamps and logging; of [client.ts], [watch] and
    [createReleaseLoader], which only hand over to the subscription manager
    and the release loader, and the adapter of the transport the loader gets;
    [transport.ts] and [tls.ts], which are I/O over third-party libraries;
    [generated/kms.ts], generated; the float codec,
    which needs IEEE rounding; the configuration generator, which is glue
    over the compiler API and the file system; the web
    console but for the helpers named above; the Go server, the command line tool and the other
    SDKs. *)
From stdpp Require Import prelude.
From Stdlib Require Import ZArith Lia Sorted.

#[global] Open Scope Z_scope.

(** ** Automation *)

Create HintDb kms.

(** Case analysis on every [match] of the context and the goal, closing the
    branches that are contradictory. *)
Ltac break_match :=
  repeat (case_match; simplify_eq/=; try done).

(** Turn the boolean tests of the code into the propositions they decide. *)
Ltac bool_prop :=
  repeat match goal with
  | H : _ && _ = true |- _ => apply andb_prop in H as [? ?]
  | H : _ || _ = false |- _ => apply orb_false_elim in H as [? ?]
  | H : negb _ = true |- _ => apply negb_true_iff in H
  | H : negb _ = false |- _ => apply negb_false_iff in H
  | H : bool_decide _ = true |- _ => apply bool_decide_eq_true_1 in H
  | H : bool_decide _ = false |- _ => apply bool_decide_eq_false_1 in H
  | H : (_ =? _) = true |- _ => apply Z.eqb_eq in H
  | H : (_ =? _) = false |- _ => apply Z.eqb_neq in H
  | H : (_ <=? _) = true |- _ => apply Z.leb_le in H
  | H : (_ <=? _) = false |- _ => apply Z.leb_gt in H
  | H : (_ <? _) = true |- _ => apply Z.ltb_lt in H
  | H : (_ <? _) = false |- _ => apply Z.ltb_ge in H
  end.

(** ** Results of code that may throw *)

(** A computation of the source that either returns or throws an error
    value of type [E]. *)
Inductive res (E A : Type) : Type :=
| Ok (a : A)
| Throw (e : E).
Arguments Ok {E A} a.
Arguments Throw {E A} e.

Declare Scope res_scope.
Delimit Scope res_scope with res.
Notation "'let*' x ':=' r 'in' k" :=
  (match r with Ok x => k | Throw e => Throw e end)
  (at level 200, x pattern, r at level 100, k at level 200, right associativity) : res_scope.
#[global] Open Scope res_scope.

Definition is_ok {E A} (r : res E A) : bool :=
  match r with Ok _ => true | Throw _ => false end.

Section res_facts.
Context {E A B : Type}.

(** Traversal of an array by a function that may throw: the first element
    that throws wins. *)
Fixpoint res_map (f : A -> res E B) (l : list A) : res E (list B) :=
  match l with
  | [] => Ok []
  | x :: l => let* y := f x in let* ys := res_map f l in Ok (y :: ys)
  end.

Lemma res_map_Ok (f : A -> res E B) l ys :
  res_map f l = Ok ys <-> Forall2 (fun x y => f x = Ok y) l ys.
Proof.
  revert ys; induction l as [|x l IH]; intros ys; simpl.
  - split; [intros [= <-]; constructor | by inversion 1].
  - destruct (f x) as [y|e] eqn:Hx; [|split; [done | inversion 1; congruence]].
    destruct (res_map f l) as [zs|e] eqn:Hl; split.
    + intros [= <-]. constructor; [done|]. by apply IH.
    + inversion 1 as [|? ? ? ? Hy Hr]; subst. apply IH in Hr. congruence.
    + done.
    + inversion 1 as [|? ? ? ? Hy Hr]; subst. apply IH in Hr. congruence.
Qed.
End res_facts.

(** ** Machine integers of the wire protocol *)

Definition UINT64_MAX : Z := 2 ^ 64 - 1.
Definition INT64_MIN : Z := - 2 ^ 63.
Definition INT64_MAX : Z := 2 ^ 63 - 1.
Definition is_uint64 (z : Z) : bool := (0 <=? z) && (z <=? UINT64_MAX).

(** [Number.MAX_SAFE_INTEGER]: the integers a JavaScript number holds exactly. *)
Definition MAX_SAFE_INTEGER : Z := 2 ^ 53 - 1.
Definition isSafeInteger (z : Z) : bool :=
  (- MAX_SAFE_INTEGER <=? z) && (z <=? MAX_SAFE_INTEGER).

(** ** List lemmas *)

Section list_facts.
Context {A : Type}.
Implicit Types (l : list A).

Lemma take_app_cons_drop l i x :
  l !! i = Some x -> l = take i l ++ x :: drop (S i) l.
Proof. intros H. symmetry. by apply take_drop_middle. Qed.

Lemma Forall_sum_le (f g : A -> nat) l :
  Forall (fun x => (f x <= g x)%nat) l ->
  (sum_list_with f l <= sum_list_with g l)%nat.
Proof. induction 1; simpl; lia. Qed.

Lemma sum_list_with_ext (f g : A -> nat) l :
  (forall x, x ∈ l -> f x = g x) -> sum_list_with f l = sum_list_with g l.
Proof. induction l as [|y l IH]; intros H; simpl; [done|]. rewrite H, IH; set_solver. Qed.

Lemma NoDup_app_inv l1 l2 :
  NoDup (l1 ++ l2) -> NoDup l1 /\ NoDup l2.
Proof. rewrite NoDup_app. tauto. Qed.
End list_facts.

(** Members of related lists. *)
Lemma Forall2_elem_r {A B} (R : A -> B -> Prop) l k y : Forall2 R l k -> y ∈ k -> exists x, x ∈ l /\ R x y.
Proof.
  induction 1 as [|x z l k Hxz _ IH]; [set_solver|]. rewrite elem_of_cons.
  intros [->|H]; [exists x; split; [left|done]|]. destruct (IH H) as (x' & ? & ?). exists x'. split; [by right|done].
Qed.

Lemma Forall2_impl_l {A B} (P : A -> Prop) (Q R : A -> B -> Prop) l k :
  Forall P l -> Forall2 Q l k -> (forall x y, P x -> Q x y -> R x y) -> Forall2 R l k.
Proof. intros HP HQ H. induction HQ; inversion HP; subst; constructor; auto. Qed.

Lemma Forall2_elem_l {A B} (R : A -> B -> Prop) l k x : Forall2 R l k -> x ∈ l -> exists y, y ∈ k /\ R x y.
Proof. intros H. apply Forall2_flip in H. exact (Forall2_elem_r _ _ _ _ H). Qed.

(** ** Stable sorting with a comparator, as [Array.prototype.sort] *)

Section sort.
Context {A : Type} (cmp : A -> A -> comparison).

(** [x] goes before the first element it does not exceed, so elements that
    compare equal keep their order. *)
Fixpoint sort_insert (x : A) (l : list A) : list A :=
  match l with
  | [] => [x]
  | y :: l' => match cmp x y with
               | Gt => y :: sort_insert x l'
               | _ => x :: y :: l'
               end
  end.

Definition js_sort (l : list A) : list A := foldr sort_insert [] l.

Lemma sort_insert_perm x l : sort_insert x l ≡ₚ x :: l.
Proof.
  induction l as [|y l IH]; simpl; [done|].
  destruct (cmp x y); try done. rewrite IH. apply Permutation_swap.
Qed.

Lemma js_sort_perm l : js_sort l ≡ₚ l.
Proof. induction l as [|x l IH]; simpl; [done|]. by rewrite sort_insert_perm, IH. Qed.

Lemma js_sort_length l : length (js_sort l) = length l.
Proof. apply Permutation_length, js_sort_perm. Qed.

Lemma elem_of_js_sort x l : x ∈ js_sort l <-> x ∈ l.
Proof. by rewrite js_sort_perm. Qed.

(** The sorted lists of [cmp]: no element exceeds a later one. *)
Definition sorted_by (l : list A) : Prop :=
  StronglySorted (fun x y => cmp x y <> Gt) l.

Context (cmp_flip : forall x y, cmp y x = CompOpp (cmp x y)).
Context (cmp_trans : forall x y z, cmp x y <> Gt -> cmp y z <> Gt -> cmp x z <> Gt).

Lemma sort_insert_sorted x l : sorted_by l -> sorted_by (sort_insert x l).
Proof.
  unfold sorted_by. induction 1 as [|y l Hl IH Hy]; simpl.
  { repeat constructor. }
  destruct (cmp x y) eqn:E.
  - constructor; [by constructor|]. constructor; [congruence|].
    eapply Forall_impl; [exact Hy|]. intros z Hz. eapply cmp_trans; [|exact Hz]. congruence.
  - constructor; [by constructor|]. constructor; [congruence|].
    eapply Forall_impl; [exact Hy|]. intros z Hz. eapply cmp_trans; [|exact Hz]. congruence.
  - constructor; [done|]. rewrite sort_insert_perm. constructor; [|done].
    rewrite cmp_flip, E. done.
Qed.

Lemma js_sort_sorted l : sorted_by (js_sort l).
Proof.
  induction l as [|x l IH]; simpl; [constructor|]. by apply sort_insert_sorted.
Qed.

Lemma sort_insert_head x l :
  Forall (fun y => cmp x y <> Gt) l -> sort_insert x l = x :: l.
Proof. destruct l as [|y l]; [done|]. inversion 1; subst. simpl. by destruct (cmp x y). Qed.

Lemma js_sort_id l : sorted_by l -> js_sort l = l.
Proof.
  unfold sorted_by. induction 1 as [|x l Hl IH Hx]; simpl; [done|].
  rewrite IH. by apply sort_insert_head.
Qed.

(** Two sorted permutations are equal when no two distinct elements
    compare equal. *)
Lemma sorted_by_unique l1 l2 :
  (forall x y, x ∈ l1 -> y ∈ l1 -> cmp x y = Eq -> x = y) ->
  sorted_by l1 -> sorted_by l2 -> l1 ≡ₚ l2 -> l1 = l2.
Proof.
  unfold sorted_by.
  revert l2; induction l1 as [|x l1 IH]; intros l2 Hinj H1 H2 HP.
  { apply Permutation_nil_l in HP. congruence. }
  destruct l2 as [|y l2]; [symmetry in HP; apply Permutation_nil_l in HP; congruence|].
  inversion H1 as [|? ? H1' Hx]; inversion H2 as [|? ? H2' Hy]; subst.
  assert (x = y) as ->.
  { assert (x ∈ y :: l2) as Hxin by (rewrite <- HP; left).
    assert (y ∈ x :: l1) as Hyin by (rewrite HP; left).
    apply elem_of_cons in Hxin as [?|Hxin]; [done|].
    apply elem_of_cons in Hyin as [?|Hyin]; [done|].
    rewrite Forall_forall in Hx, Hy.
    specialize (Hx y Hyin). specialize (Hy x Hxin). rewrite cmp_flip in Hy.
    apply Hinj; [left|by right|]. destruct (cmp x y); done. }
  f_equal. apply IH; [|done|done|].
  - intros a b Ha Hb. apply Hinj; by right.
  - by apply Permutation_cons_inv in HP.
Qed.

Lemma js_sort_unique l1 l2 :
  (forall x y, x ∈ l1 -> y ∈ l1 -> cmp x y = Eq -> x = y) ->
  l1 ≡ₚ l2 -> js_sort l1 = js_sort l2.
Proof.
  intros Hinj HP. apply sorted_by_unique; try apply js_sort_sorted.
  - intros x y Hx Hy. apply Hinj; by apply elem_of_js_sort.
  - by rewrite !js_sort_perm.
Qed.
End sort.

(** Sorting commutes with a map that preserves the comparison. *)
Lemma js_sort_map {A B} (cA : A -> A -> comparison) (cB : B -> B -> comparison)
    (f : A -> B) (l : list A) :
  (forall x y, cB (f x) (f y) = cA x y) ->
  js_sort cB (f <$> l) = f <$> js_sort cA l.
Proof.
  intros Hc. induction l as [|x l IH]; csimpl; [done|]. rewrite IH. clear IH.
  generalize (js_sort cA l). intros l'. induction l' as [|y l' IH]; csimpl; [done|].
  rewrite Hc. destruct (cA x y); csimpl; congruence.
Qed.

#[export] Hint Resolve js_sort_perm js_sort_length : kms.
