(* ===== verification/JsString.v ===== *)
(** * JsString: JavaScript strings.

    A string is the list of its UTF-16 code units, the representation every
    [charCodeAt], [indexOf], [slice] and [length] of the source observes.
    The file models those operations, code-unit ordering ([<] on strings,
    [compareText], [compareUtf16]), well-formedness of surrogate pairs, and
    the UTF-8 encoding [Buffer.from(s, "utf8")] and [TextDecoder] use. *)
From stdpp Require Import prelude strings.
From Stdlib Require Import ZArith Lia.
From S2P Require Import Prelude.

(** A string: its UTF-16 code units, each in [0, 0xffff]. *)
Notation jstr := (list Z).

(** An ASCII literal of the source. *)
Definition js (s : string) : jstr :=
  (fun a => Z.of_N (Ascii.N_of_ascii a)) <$> String.list_ascii_of_string s.

Definition is_unit (c : Z) : Prop := 0 <= c <= 65535.

(** ** Searching and slicing *)

Fixpoint find_index (c : Z) (s : jstr) : option nat :=
  match s with
  | [] => None
  | d :: s => if d =? c then Some 0%nat else S <$> find_index c s
  end.

(** [s.indexOf(c, from)] for a one-unit needle; [-1] when absent. *)
Definition indexOf (s : jstr) (c : Z) (from : Z) : Z :=
  match find_index c (drop (Z.to_nat from) s) with
  | Some i => Z.max 0 from + Z.of_nat i
  | None => -1
  end.

(** [s.slice(a, b)] for indices [0 <= a]. *)
Definition slice (s : jstr) (a b : Z) : jstr :=
  take (Z.to_nat (b - a)) (drop (Z.to_nat a) s).

Definition strlen (s : jstr) : Z := Z.of_nat (length s).

Definition startsWith (p s : jstr) : bool := bool_decide (take (length p) s = p).

Lemma find_index_Some c s i :
  find_index c s = Some i ->
  s = take i s ++ c :: drop (S i) s /\ c ∉ take i s.
Proof.
  revert i; induction s as [|d s IH]; intros i; simpl; [done|].
  destruct (Z.eqb_spec d c) as [->|Hne].
  - intros [= <-]. simpl. split; [done|]. set_solver.
  - destruct (find_index c s) as [j|] eqn:E; [|done]. intros [= <-]. simpl.
    destruct (IH j eq_refl) as [Hs Hn]. split; [by f_equal|]. set_solver.
Qed.

Lemma find_index_None c s : find_index c s = None <-> c ∉ s.
Proof.
  induction s as [|d s IH]; simpl; [set_solver|].
  destruct (Z.eqb_spec d c) as [->|Hne]; [set_solver|].
  destruct (find_index c s); simpl; set_solver.
Qed.

Lemma find_index_app c l r : c ∉ l -> find_index c (l ++ c :: r) = Some (length l).
Proof.
  induction l as [|d l IH]; simpl; intros Hn.
  - by rewrite Z.eqb_refl.
  - destruct (Z.eqb_spec d c); [set_solver|]. rewrite IH; set_solver.
Qed.

Lemma slice_app_mid (a b c : jstr) :
  slice (a ++ b ++ c) (strlen a) (strlen a + strlen b) = b.
Proof.
  unfold slice, strlen. rewrite Nat2Z.id, drop_app_length.
  replace (Z.to_nat (_ - _)) with (length b) by lia. by rewrite take_app_length.
Qed.

Lemma slice_app_tail (a b : jstr) (n : Z) :
  strlen a + strlen b <= n -> slice (a ++ b) (strlen a) n = b.
Proof.
  unfold slice, strlen. intros H. rewrite Nat2Z.id, drop_app_length.
  apply take_ge. lia.
Qed.

(** ** Splitting and joining *)

(** [l.join(sep)] *)
Definition join (sep : jstr) (l : list jstr) : jstr :=
  match l with
  | [] => []
  | x :: l => x ++ concat (app sep <$> l)
  end.

(** [s.split(c)] for a one-unit separator: never empty. *)
Fixpoint split_on (c : Z) (s : jstr) : list jstr :=
  match s with
  | [] => [[]]
  | d :: s => if d =? c then [] :: split_on c s
              else match split_on c s with p :: ps => (d :: p) :: ps | [] => [[d]] end
  end.

Lemma join_cons2 sep x y l : join sep (x :: y :: l) = x ++ sep ++ join sep (y :: l).
Proof. simpl. by rewrite <- !app_assoc. Qed.

Lemma split_on_nonempty c s : split_on c s <> [].
Proof. destruct s as [|d s]; simpl; [done|]. repeat case_match; done. Qed.

Lemma join_split_on c s : join [c] (split_on c s) = s.
Proof.
  induction s as [|d s IH]; [done|]. cbn [split_on]. pose proof (split_on_nonempty c s).
  destruct (split_on c s) as [|p ps] eqn:E; [done|].
  destruct (Z.eqb_spec d c) as [->|]; [rewrite join_cons2, IH; done|].
  rewrite <- IH. by destruct ps.
Qed.

Lemma split_on_app c l r : c ∉ l -> split_on c (l ++ c :: r) = l :: split_on c r.
Proof.
  induction l as [|d l IH]; intros Hn; simpl; [by rewrite Z.eqb_refl|].
  destruct (Z.eqb_spec d c); [set_solver|]. by rewrite IH by set_solver.
Qed.

Lemma split_on_none c s : c ∉ s -> split_on c s = [s].
Proof.
  induction s as [|d s IH]; intros Hn; simpl; [done|].
  destruct (Z.eqb_spec d c); [set_solver|]. by rewrite IH by set_solver.
Qed.

(** ** Code-unit ordering *)

Fixpoint str_compare (a b : jstr) : comparison :=
  match a, b with
  | [], [] => Eq
  | [], _ :: _ => Lt
  | _ :: _, [] => Gt
  | x :: a, y :: b => match x ?= y with Eq => str_compare a b | c => c end
  end.

Lemma str_compare_eq a b : str_compare a b = Eq <-> a = b.
Proof.
  revert b; induction a as [|x a IH]; intros [|y b]; simpl; try done.
  destruct (Z.compare_spec x y) as [->|H|H].
  - rewrite IH. split; [by intros ->|by intros [= ->]].
  - split; [done|]. intros [= -> _]. lia.
  - split; [done|]. intros [= -> _]. lia.
Qed.

Lemma str_compare_flip a b : str_compare b a = CompOpp (str_compare a b).
Proof.
  revert b; induction a as [|x a IH]; intros [|y b]; simpl; try done.
  rewrite (Z.compare_antisym x y). destruct (x ?= y); simpl; auto.
Qed.

Lemma str_compare_trans a b c :
  str_compare a b <> Gt -> str_compare b c <> Gt -> str_compare a c <> Gt.
Proof.
  revert b c; induction a as [|x a IH]; intros [|y b] [|z c]; simpl; try done.
  destruct (Z.compare_spec x y), (Z.compare_spec y z), (Z.compare_spec x z);
    subst; try done; try lia. apply IH.
Qed.

Lemma str_compare_refl a : str_compare a a = Eq.
Proof. by apply str_compare_eq. Qed.

Definition str_ltb (a b : jstr) : bool :=
  match str_compare a b with Lt => true | _ => false end.
