(* ===== verification/JsMap.v ===== *)
(** * JsMap: JavaScript's insertion-ordered [Map] and [Set].

    A [Map] is the list of its entries in iteration order. [set] on a key
    that is present replaces the value in place; on a new key it appends.
    Eviction and iteration in the source depend on that order, so it is part
    of the model. *)
From stdpp Require Import prelude gmap.
From Stdlib Require Import ZArith Lia.
From S2P Require Import Prelude.

Section jsmap.
Context {K V : Type} `{EqDecision K}.
Implicit Types (m : list (K * V)) (k : K) (v : V).

(** [m.get(k)] *)
Fixpoint map_get k m : option V :=
  match m with
  | [] => None
  | (k', v) :: m => if decide (k' = k) then Some v else map_get k m
  end.

(** [m.set(k, v)] *)
Fixpoint map_set k v m : list (K * V) :=
  match m with
  | [] => [(k, v)]
  | (k', v') :: m => if decide (k' = k) then (k, v) :: m else (k', v') :: map_set k v m
  end.

(** [m.delete(k)] *)
Fixpoint map_delete k m : list (K * V) :=
  match m with
  | [] => []
  | (k', v') :: m => if decide (k' = k) then m else (k', v') :: map_delete k m
  end.

Definition map_has k m : bool := bool_decide (is_Some (map_get k m)).

(** A [Map] never holds a key twice. *)
Definition map_wf m : Prop := NoDup m.*1.

Lemma map_get_None k m : map_get k m = None <-> k ∉ m.*1.
Proof.
  induction m as [|[k' v] m IH]; csimpl; [set_solver|].
  case_decide; set_solver.
Qed.

Lemma map_get_Some_elem k v m : map_get k m = Some v -> (k, v) ∈ m.
Proof.
  induction m as [|[k' v'] m IH]; csimpl; [done|].
  case_decide; intros; simplify_eq; set_solver.
Qed.

Lemma map_get_Some k v m : map_wf m -> map_get k m = Some v <-> (k, v) ∈ m.
Proof.
  unfold map_wf. intros Hwf. split; [apply map_get_Some_elem|].
  induction m as [|[k' v'] m IH]; csimpl in *; [set_solver|].
  apply NoDup_cons in Hwf as [Hk' Hwf].
  rewrite elem_of_cons. intros [[= -> ->]|Hin].
  - by rewrite decide_True.
  - case_decide as Hd; [|by apply IH]. subst. exfalso. apply Hk'.
    apply list_elem_of_fmap. by exists (k, v).
Qed.

Lemma map_has_true k m : map_has k m = true <-> k ∈ m.*1.
Proof.
  unfold map_has. rewrite bool_decide_eq_true, <- not_eq_None_Some, map_get_None.
  destruct (decide (k ∈ m.*1)); tauto.
Qed.

Lemma map_get_set k k' v m :
  map_get k' (map_set k v m) = if decide (k = k') then Some v else map_get k' m.
Proof.
  induction m as [|[k2 v2] m IH]; csimpl; [done|].
  repeat (case_decide; csimpl); simplify_eq; rewrite ?IH; repeat case_decide; congruence.
Qed.

Lemma map_get_set_eq k v m : map_get k (map_set k v m) = Some v.
Proof. rewrite map_get_set. by rewrite decide_True. Qed.

Lemma map_get_set_ne k k' v m :
  k <> k' -> map_get k' (map_set k v m) = map_get k' m.
Proof. intros. rewrite map_get_set. by rewrite decide_False. Qed.

Lemma map_get_delete k k' m :
  map_wf m ->
  map_get k' (map_delete k m) = if decide (k = k') then None else map_get k' m.
Proof.
  unfold map_wf. induction m as [|[k2 v2] m IH]; csimpl; [by case_decide|].
  intros [Hn Hwf]%NoDup_cons.
  destruct (decide (k2 = k)) as [->|H1].
  - destruct (decide (k = k')) as [->|H2]; [by apply map_get_None|done].
  - csimpl. rewrite IH by done.
    destruct (decide (k = k')), (decide (k2 = k')); congruence.
Qed.

Lemma map_set_keys k v m :
  (map_set k v m).*1 = if decide (k ∈ m.*1) then m.*1 else m.*1 ++ [k].
Proof.
  induction m as [|[k2 v2] m IH].
  { rewrite decide_False by set_solver. done. }
  cbn [map_set]. destruct (decide (k2 = k)) as [->|H1]; csimpl.
  - by rewrite decide_True by set_solver.
  - rewrite IH. destruct (decide (k ∈ m.*1)).
    + by rewrite decide_True by set_solver.
    + by rewrite decide_False by set_solver.
Qed.

Lemma map_set_fresh k v m : k ∉ m.*1 -> map_set k v m = m ++ [(k, v)].
Proof.
  induction m as [|[k2 v2] m IH]; csimpl; [done|]. intros Hn.
  rewrite decide_False by set_solver. rewrite IH by set_solver. done.
Qed.

Lemma map_delete_sublist k m : map_delete k m `sublist_of` m.
Proof.
  induction m as [|[k2 v2] m IH]; csimpl; [done|].
  case_decide; [by constructor|by constructor].
Qed.

Lemma map_delete_perm k v m : map_get k m = Some v -> m ≡ₚ (k, v) :: map_delete k m.
Proof.
  induction m as [|[k2 v2] m IH]; csimpl; [done|]. case_decide as Hd; [intros [= ->]; by subst|].
  intros H. rewrite (IH H) at 1. apply Permutation_swap.
Qed.

Lemma map_set_wf k v m : map_wf m -> map_wf (map_set k v m).
Proof.
  unfold map_wf. intros H. rewrite map_set_keys. case_decide; [done|].
  apply NoDup_app. split; [done|]. split; [set_solver|]. apply NoDup_singleton.
Qed.

Lemma map_sublist_wf m1 m2 : m1 `sublist_of` m2 -> map_wf m2 -> map_wf m1.
Proof.
  unfold map_wf. intros Hs Hwf. apply (sublist_NoDup _ _ Hwf). clear Hwf.
  induction Hs; csimpl; by constructor.
Qed.

Lemma map_delete_wf k m : map_wf m -> map_wf (map_delete k m).
Proof. apply map_sublist_wf, map_delete_sublist. Qed.

Lemma map_delete_length k m :
  (length (map_delete k m) =
   length m - if decide (k ∈ m.*1) then 1 else 0)%nat.
Proof.
  induction m as [|[k2 v2] m IH].
  { rewrite decide_False by set_solver. done. }
  cbn [map_delete]. destruct (decide (k2 = k)) as [->|H1]; csimpl.
  - rewrite decide_True by set_solver. lia.
  - rewrite IH. destruct (decide (k ∈ m.*1)) as [Hin|].
    + rewrite decide_True by set_solver. destruct m; csimpl in *; [set_solver|lia].
    + rewrite decide_False by set_solver. lia.
Qed.

Lemma map_delete_set k v m : k ∉ m.*1 -> map_delete k (map_set k v m) = m.
Proof.
  induction m as [|[k2 v2] m IH]; csimpl; [by rewrite decide_True|]. intros Hn.
  rewrite !decide_False by set_solver. csimpl. rewrite decide_False by set_solver. by rewrite IH by set_solver.
Qed.

Lemma map_delete_notin k m : k ∉ m.*1 -> map_delete k m = m.
Proof.
  induction m as [|[k2 v2] m IH]; csimpl; [done|]. intros Hn.
  rewrite decide_False by set_solver. f_equal. apply IH. set_solver.
Qed.

Lemma map_set_length k v m :
  (length (map_set k v m) = length m + if decide (k ∈ m.*1) then 0 else 1)%nat.
Proof.
  rewrite <- (length_fmap fst), map_set_keys.
  case_decide; rewrite ?length_app, length_fmap; simpl; lia.
Qed.

Lemma map_set_elem k v m k' v' :
  (k', v') ∈ map_set k v m -> (k' = k /\ v' = v) \/ (k', v') ∈ m.
Proof.
  induction m as [|[k2 v2] m IH]; csimpl; [set_solver|].
  case_decide; subst; rewrite !elem_of_cons; naive_solver.
Qed.

Lemma map_filter_get (P : K * V -> Prop) `{!forall x, Decision (P x)} k m :
  map_wf m ->
  map_get k (filter P m) =
    match map_get k m with Some v => if decide (P (k, v)) then Some v else None | None => None end.
Proof.
  unfold map_wf. induction m as [|[k2 v2] m IH]; csimpl; [done|].
  intros [Hn Hwf]%NoDup_cons. rewrite filter_cons.
  assert (k2 = k -> map_get k (filter P m) = None) as Hk.
  { intros ->. apply map_get_None. contradict Hn.
    apply list_elem_of_fmap in Hn as ([k3 v3] & -> & Hin).
    apply list_elem_of_filter in Hin as [_ Hin].
    apply list_elem_of_fmap. by eexists. }
  destruct (decide (k2 = k)) as [->|Hne]; destruct (decide (P _)) as [HP|HP]; csimpl.
  - by rewrite decide_True.
  - by apply Hk.
  - rewrite decide_False by done. by apply IH.
  - by apply IH.
Qed.

Lemma map_filter_wf (P : K * V -> Prop) `{!forall x, Decision (P x)} m :
  map_wf m -> map_wf (filter P m).
Proof. apply map_sublist_wf, sublist_filter. Qed.
End jsmap.

#[export] Hint Resolve map_set_wf map_delete_wf map_filter_wf : kms.
#[export] Hint Rewrite @map_get_set_eq : kms.
Arguments map_wf {K V} m.

(** ** Sets: the keys in insertion order *)

Section jsset.
Context {K : Type} `{EqDecision K}.
Implicit Types (s : list K).

(** [s.add(k)] *)
Definition set_add (k : K) s : list K := if decide (k ∈ s) then s else s ++ [k].
Definition set_has (k : K) s : bool := bool_decide (k ∈ s).
(** [s.delete(k)] *)
Definition set_delete (k : K) s : list K := filter (fun x => x <> k) s.

Lemma elem_of_set_add k k' s : k' ∈ set_add k s <-> k' = k \/ k' ∈ s.
Proof. unfold set_add. case_decide; set_solver. Qed.

Lemma set_add_NoDup k s : NoDup s -> NoDup (set_add k s).
Proof.
  unfold set_add. case_decide; [done|]. intros Hs.
  apply NoDup_app. split; [done|]. split; [set_solver|]. apply NoDup_singleton.
Qed.

Lemma elem_of_set_delete k k' s : k' ∈ set_delete k s <-> k' ∈ s /\ k' <> k.
Proof. unfold set_delete. rewrite list_elem_of_filter. tauto. Qed.
End jsset.
#[export] Hint Resolve set_add_NoDup : kms.

(** ** Visited sets of graph walks *)

(** A set of indices below [n] has at most [n] elements. *)
Lemma size_below (X : gset nat) n : (forall i, i ∈ X -> (i < n)%nat) -> (size X <= n)%nat.
Proof.
  intros H. transitivity (size (list_to_set (seq 0 n) : gset nat)).
  - apply subseteq_size. intros i Hi. apply elem_of_list_to_set, elem_of_seq. specialize (H i Hi). lia.
  - rewrite size_list_to_set by apply NoDup_seq. by rewrite length_seq.
Qed.
