(* ===== verification/Unicode.v ===== *)
(** * Unicode: the language's own text primitives.

    What the source uses of the ECMAScript and Node text APIs: surrogate
    pairs, the UTF-8 encoding of [Buffer.from(s, "utf8")], the fatal decoder
    of [TextDecoder("utf-8", {fatal: true, ignoreBOM: true})], and the string
    case of [JSON.stringify]. *)
From stdpp Require Import prelude.
From Stdlib Require Import ZArith Lia.
From S2P Require Import Prelude JsString.

(** ** Surrogates *)

Definition is_lead (c : Z) : bool := (0xd800 <=? c) && (c <=? 0xdbff).
Definition is_trail (c : Z) : bool := (0xdc00 <=? c) && (c <=? 0xdfff).

(** Every surrogate of the string is half of a pair. *)
Fixpoint paired (s : jstr) : bool :=
  match s with
  | [] => true
  | c :: s' =>
      if is_lead c then
        match s' with
        | d :: s'' => is_trail d && paired s''
        | [] => false
        end
      else negb (is_trail c) && paired s'
  end.

(** A list of code units with paired surrogates: what a UTF-8 document holds. *)
Definition wf_text (s : jstr) : Prop := Forall is_unit s /\ paired s = true.

(** Induction over the characters (code points) of a well-formed text. *)
Lemma wf_text_ind (P : jstr -> Prop) :
  P [] ->
  (forall c s, is_unit c -> is_lead c = false -> is_trail c = false ->
     wf_text s -> P s -> P (c :: s)) ->
  (forall c d s, is_lead c = true -> is_trail d = true ->
     wf_text s -> P s -> P (c :: d :: s)) ->
  forall s, wf_text s -> P s.
Proof.
  intros Hnil Hone Htwo s. remember (length s) as n eqn:Hn.
  revert s Hn. induction (lt_wf n) as [n _ IH]. intros s -> [Hu Hp].
  destruct s as [|c s]; [done|]. inversion Hu as [|? ? Hc Hs]; subst. simpl in Hp.
  destruct (is_lead c) eqn:Hl.
  - destruct s as [|d s]; [done|]. bool_prop. inversion Hs; subst.
    apply Htwo; [done..| |]; [by split|]. eapply IH; [|done|by split]. simpl; lia.
  - bool_prop. apply Hone; [done..| |]; [by split|]. eapply IH; [|done|by split]. simpl; lia.
Qed.

(** ** UTF-8 *)

(** The encoding of one code point. *)
Definition utf8_point (p : Z) : list Z :=
  if p <? 0x80 then [p]
  else if p <? 0x800 then [0xc0 + p / 64; 0x80 + p mod 64]
  else if p <? 0x10000 then [0xe0 + p / 4096; 0x80 + p / 64 mod 64; 0x80 + p mod 64]
  else [0xf0 + p / 262144; 0x80 + p / 4096 mod 64; 0x80 + p / 64 mod 64; 0x80 + p mod 64].

Definition pair_point (c d : Z) : Z := 0x10000 + (c - 0xd800) * 1024 + (d - 0xdc00).

(** [Buffer.from(s, "utf8")]: a lone surrogate becomes U+FFFD. *)
Fixpoint utf8_encode (s : jstr) : list Z :=
  match s with
  | [] => []
  | c :: s' =>
      if is_lead c then
        match s' with
        | d :: s'' =>
            if is_trail d then utf8_point (pair_point c d) ++ utf8_encode s''
            else utf8_point 0xfffd ++ utf8_encode s'
        | [] => utf8_point 0xfffd
        end
      else (if is_trail c then utf8_point 0xfffd else utf8_point c) ++ utf8_encode s'
  end.

Definition is_cont (b : Z) : bool := (0x80 <=? b) && (b <=? 0xbf).

(** A code point as UTF-16 code units. *)
Definition utf16_point (p : Z) : jstr :=
  if p <? 0x10000 then [p]
  else [0xd800 + (p - 0x10000) / 1024; 0xdc00 + (p - 0x10000) mod 1024].

(** The fatal UTF-8 decoder: overlong forms, surrogate code points, values
    above U+10FFFF and truncated sequences fail. *)
Fixpoint utf8_decode (b : list Z) : option jstr :=
  match b with
  | [] => Some []
  | b0 :: r0 =>
      if b0 <? 0x80 then
        if 0 <=? b0 then app [b0] <$> utf8_decode r0 else None
      else if (0xc2 <=? b0) && (b0 <=? 0xdf) then
        match r0 with
        | b1 :: r1 =>
            if is_cont b1 then
              app (utf16_point ((b0 - 0xc0) * 64 + (b1 - 0x80))) <$> utf8_decode r1
            else None
        | [] => None
        end
      else if (0xe0 <=? b0) && (b0 <=? 0xef) then
        match r0 with
        | b1 :: b2 :: r2 =>
            let p := (b0 - 0xe0) * 4096 + (b1 - 0x80) * 64 + (b2 - 0x80) in
            if is_cont b1 && is_cont b2 && (0x800 <=? p)
               && negb ((0xd800 <=? p) && (p <=? 0xdfff))
            then app (utf16_point p) <$> utf8_decode r2 else None
        | _ => None
        end
      else if (0xf0 <=? b0) && (b0 <=? 0xf4) then
        match r0 with
        | b1 :: b2 :: b3 :: r3 =>
            let p := (b0 - 0xf0) * 262144 + (b1 - 0x80) * 4096 + (b2 - 0x80) * 64 + (b3 - 0x80) in
            if is_cont b1 && is_cont b2 && is_cont b3 && (0x10000 <=? p) && (p <=? 0x10ffff)
            then app (utf16_point p) <$> utf8_decode r3 else None
        | _ => None
        end
      else None
  end.

(** A Unicode scalar value. *)
Definition is_scalar (p : Z) : Prop :=
  0 <= p <= 0x10ffff /\ ~ (0xd800 <= p <= 0xdfff).

Ltac zify_div := Z.div_mod_to_equations; lia.

Lemma utf8_decode_point p r :
  is_scalar p ->
  utf8_decode (utf8_point p ++ r) = app (utf16_point p) <$> utf8_decode r.
Proof.
  intros [Hp Hs]. unfold utf8_point.
  destruct (Z.ltb_spec p 0x80).
  { simpl. replace (p <? 128) with true by lia. replace (0 <=? p) with true by lia.
    unfold utf16_point. by replace (p <? 65536) with true by lia. }
  destruct (Z.ltb_spec p 0x800).
  { cbn -[Z.div Z.modulo Z.add Z.sub Z.mul Z.leb Z.ltb].
    replace (192 + p / 64 <? 128) with false by zify_div.
    replace (194 <=? 192 + p / 64) with true by zify_div.
    replace (192 + p / 64 <=? 223) with true by zify_div.
    unfold is_cont.
    replace (128 <=? 128 + p mod 64) with true by zify_div.
    replace (128 + p mod 64 <=? 191) with true by zify_div. cbn [andb].
    do 2 f_equal. f_equal. zify_div. }
  destruct (Z.ltb_spec p 0x10000).
  { cbn -[Z.div Z.modulo Z.add Z.sub Z.mul Z.leb Z.ltb].
    set (q := (224 + p / 4096 - 224) * 4096 + (128 + p / 64 mod 64 - 128) * 64 + (128 + p mod 64 - 128)).
    assert (q = p) as -> by (unfold q; zify_div).
    replace (224 + p / 4096 <? 128) with false by zify_div.
    replace (224 + p / 4096 <=? 223) with false by zify_div.
    replace (224 <=? 224 + p / 4096) with true by zify_div.
    replace (224 + p / 4096 <=? 239) with true by zify_div.
    rewrite andb_false_r. unfold is_cont.
    replace (128 <=? 128 + p mod 64) with true by zify_div.
    replace (128 + p mod 64 <=? 191) with true by zify_div.
    replace (128 <=? 128 + p / 64 mod 64) with true by zify_div.
    replace (128 + p / 64 mod 64 <=? 191) with true by zify_div.
    replace (2048 <=? p) with true by lia.
    replace ((55296 <=? p) && (p <=? 57343)) with false by lia. done. }
  cbn -[Z.div Z.modulo Z.add Z.sub Z.mul Z.leb Z.ltb].
  set (q := (240 + p / 262144 - 240) * 262144 + (128 + p / 4096 mod 64 - 128) * 4096
            + (128 + p / 64 mod 64 - 128) * 64 + (128 + p mod 64 - 128)).
  assert (q = p) as -> by (unfold q; zify_div).
  replace (240 + p / 262144 <? 128) with false by zify_div.
  replace (240 + p / 262144 <=? 223) with false by zify_div.
  replace (240 + p / 262144 <=? 239) with false by zify_div.
  replace (240 <=? 240 + p / 262144) with true by zify_div.
  replace (240 + p / 262144 <=? 244) with true by zify_div.
  rewrite !andb_false_r. unfold is_cont.
  replace (128 <=? 128 + p mod 64) with true by zify_div.
  replace (128 + p mod 64 <=? 191) with true by zify_div.
  replace (128 <=? 128 + p / 64 mod 64) with true by zify_div.
  replace (128 + p / 64 mod 64 <=? 191) with true by zify_div.
  replace (128 <=? 128 + p / 4096 mod 64) with true by zify_div.
  replace (128 + p / 4096 mod 64 <=? 191) with true by zify_div.
  replace (65536 <=? p) with true by lia. replace (p <=? 1114111) with true by lia. done.
Qed.

Lemma utf8_roundtrip s : wf_text s -> utf8_decode (utf8_encode s) = Some s.
Proof.
  revert s. apply wf_text_ind;
    [done | intros c s Hc Hl Ht Hs IH | intros c d s Hl Ht Hs IH].
  - simpl. rewrite Hl, Ht. rewrite utf8_decode_point, IH.
    + simpl. unfold utf16_point, is_unit in *. by replace (c <? 65536) with true by lia.
    + unfold is_scalar, is_lead, is_trail, is_unit in *. lia.
  - simpl. rewrite Hl, Ht. rewrite utf8_decode_point, IH.
    + simpl. unfold utf16_point, pair_point, is_lead, is_trail in *.
      replace (65536 + (c - 55296) * 1024 + (d - 56320) <? 65536) with false by lia.
      simpl. do 2 f_equal; [zify_div|]. f_equal. zify_div.
    + unfold is_scalar, pair_point, is_lead, is_trail in *. lia.
Qed.

Lemma utf8_encode_inj s1 s2 :
  wf_text s1 -> wf_text s2 -> utf8_encode s1 = utf8_encode s2 -> s1 = s2.
Proof.
  intros H1 H2 He. apply utf8_roundtrip in H1, H2. congruence.
Qed.

(** [Buffer.compare(Buffer.from(a), Buffer.from(b))] *)
Definition utf8_compare (a b : jstr) : comparison :=
  str_compare (utf8_encode a) (utf8_encode b).

Lemma utf8_compare_flip a b : utf8_compare b a = CompOpp (utf8_compare a b).
Proof. apply str_compare_flip. Qed.

Lemma utf8_compare_trans a b c :
  utf8_compare a b <> Gt -> utf8_compare b c <> Gt -> utf8_compare a c <> Gt.
Proof. apply str_compare_trans. Qed.

Lemma utf8_compare_eq a b : wf_text a -> wf_text b -> utf8_compare a b = Eq -> a = b.
Proof. intros Ha Hb H%str_compare_eq. by apply utf8_encode_inj. Qed.

(** ** [JSON.stringify] of a string *)

Definition hex_digit (d : Z) : Z := if d <? 10 then 48 + d else 87 + d.

Definition unicode_escape (c : Z) : jstr :=
  [92; 117; hex_digit (c / 4096 mod 16); hex_digit (c / 256 mod 16);
   hex_digit (c / 16 mod 16); hex_digit (c mod 16)].

Definition quote_unit (c : Z) : jstr :=
  if c =? 8 then [92; 98]
  else if c =? 9 then [92; 116]
  else if c =? 10 then [92; 110]
  else if c =? 12 then [92; 102]
  else if c =? 13 then [92; 114]
  else if c =? 34 then [92; 34]
  else if c =? 92 then [92; 92]
  else if c <? 32 then unicode_escape c
  else [c].

(** The body of the quoted string; a lone surrogate is escaped. *)
Fixpoint quote_body (s : jstr) : jstr :=
  match s with
  | [] => []
  | c :: s' =>
      if is_lead c then
        match s' with
        | d :: s'' =>
            if is_trail d then c :: d :: quote_body s''
            else unicode_escape c ++ quote_body s'
        | [] => unicode_escape c
        end
      else (if is_trail c then unicode_escape c else quote_unit c) ++ quote_body s'
  end.

Definition json_quote (s : jstr) : jstr := 34 :: quote_body s ++ [34].
