(* ===== verification/Decimal.v ===== *)
(** * Decimal: [BigInt] text.

    [bigint.toString()], template-literal rendering of a bigint and
    [BigInt(text)] on a run of decimal digits, with the facts the parsers and
    printers of the SDK need. *)
From stdpp Require Import prelude.
From Stdlib Require Import ZArith Lia.
From S2P Require Import Prelude JsString.

Definition is_digit (c : Z) : bool := (48 <=? c) && (c <=? 57).

(** Decimal digits, least significant first. [fuel] bounds the digits. *)
Fixpoint digits_rev (fuel : nat) (n : Z) : jstr :=
  match fuel with
  | O => []
  | S fuel => if n <? 10 then [48 + n] else (48 + n mod 10) :: digits_rev fuel (n / 10)
  end.

(** Every division by ten removes at least one bit, so the bit length is
    enough fuel. *)
Definition dec_nat (n : Z) : jstr := reverse (digits_rev (S (Z.to_nat (Z.log2 n))) n).

(** [n.toString()] *)
Definition dec (n : Z) : jstr := if n <? 0 then 45 :: dec_nat (- n) else dec_nat n.

(** [BigInt(digits)] for a string of decimal digits. *)
Definition digits_val (l : jstr) : Z := foldl (fun a d => a * 10 + (d - 48)) 0 l.

Lemma foldl_digits a l :
  foldl (fun a d => a * 10 + (d - 48)) a l = a * 10 ^ Z.of_nat (length l) + digits_val l.
Proof.
  unfold digits_val. revert a. induction l as [|d l IH]; intros a.
  { simpl. lia. }
  cbn [foldl length]. rewrite IH, (IH (0 * 10 + _)), Nat2Z.inj_succ, Z.pow_succ_r by lia. lia.
Qed.

Lemma digits_val_app l1 l2 :
  digits_val (l1 ++ l2) = digits_val l1 * 10 ^ Z.of_nat (length l2) + digits_val l2.
Proof. unfold digits_val at 1. rewrite foldl_app. apply foldl_digits. Qed.

Lemma digits_val_snoc l d : digits_val (l ++ [d]) = digits_val l * 10 + (d - 48).
Proof. rewrite digits_val_app. unfold digits_val at 2. simpl. lia. Qed.

Lemma digits_val_cons d l :
  digits_val (d :: l) = (d - 48) * 10 ^ Z.of_nat (length l) + digits_val l.
Proof. rewrite <- (foldl_digits (d - 48) l). unfold digits_val. simpl. f_equal. Qed.

Lemma digits_val_bound l :
  Forall (fun c => is_digit c = true) l -> 0 <= digits_val l < 10 ^ Z.of_nat (length l).
Proof.
  induction 1 as [|d l Hd Hl IH]; [done|].
  rewrite digits_val_cons. cbn [length]. rewrite Nat2Z.inj_succ, Z.pow_succ_r by lia.
  unfold is_digit in Hd. nia.
Qed.

Lemma digits_val_zeros n : digits_val (replicate n 48) = 0.
Proof.
  induction n as [|n IH]; [done|]. cbn [replicate]. rewrite digits_val_cons, IH. lia.
Qed.

Section digits_rev.
Lemma digits_rev_ind (P : Z -> jstr -> Prop) :
  (forall n, 0 <= n < 10 -> P n [48 + n]) ->
  (forall n l, 10 <= n -> P (n / 10) l -> P n ((48 + n mod 10) :: l)) ->
  forall fuel n, 0 <= n < 2 ^ Z.of_nat fuel -> (0 < fuel)%nat -> P n (digits_rev fuel n).
Proof.
  intros H1 H2. induction fuel as [|fuel IH]; intros n Hn Hf; [lia|]. simpl.
  destruct (Z.ltb_spec n 10); [apply H1; lia|].
  rewrite Nat2Z.inj_succ, Z.pow_succ_r in Hn by lia.
  apply H2; [lia|]. apply IH.
  - split; [zify; Z.div_mod_to_equations; lia|]. apply Z.div_lt_upper_bound; lia.
  - destruct fuel; [simpl in Hn; lia|lia].
Qed.

Lemma dec_nat_fuel n : 0 <= n -> 0 <= n < 2 ^ Z.of_nat (S (Z.to_nat (Z.log2 n))).
Proof.
  intros Hn. split; [done|].
  rewrite Nat2Z.inj_succ, Z2Nat.id by apply Z.log2_nonneg.
  destruct (Z.eq_dec n 0) as [->|]; [done|]. apply Z.log2_spec. lia.
Qed.

Lemma dec_nat_ind (P : Z -> jstr -> Prop) :
  (forall n, 0 <= n < 10 -> P n [48 + n]) ->
  (forall n l, 10 <= n -> P (n / 10) l -> P n (l ++ [48 + n mod 10])) ->
  forall n, 0 <= n -> P n (dec_nat n).
Proof.
  intros H1 H2 n Hn. unfold dec_nat.
  apply (digits_rev_ind (fun n l => P n (reverse l))); [..|lia].
  - apply H1.
  - intros m l Hm HP. rewrite reverse_cons. by apply H2.
  - by apply dec_nat_fuel.
Qed.
End digits_rev.

Lemma dec_nat_val n : 0 <= n -> digits_val (dec_nat n) = n.
Proof.
  revert n. apply (dec_nat_ind (fun n l => digits_val l = n)).
  - intros n Hn. unfold digits_val. simpl. lia.
  - intros n l Hn IH. rewrite digits_val_snoc, IH. Z.div_mod_to_equations; lia.
Qed.

Lemma dec_nat_digits n : 0 <= n -> Forall (fun c => is_digit c = true) (dec_nat n).
Proof.
  revert n. apply (dec_nat_ind (fun _ l => Forall (fun c => is_digit c = true) l)).
  - intros n Hn. repeat constructor. unfold is_digit. lia.
  - intros n l Hn IH. apply Forall_app. split; [done|]. repeat constructor.
    unfold is_digit. Z.div_mod_to_equations; lia.
Qed.

(** A positive number has no leading zero; zero is the one digit [0]. *)
Lemma dec_nat_lead n : 0 < n -> exists d l, dec_nat n = d :: l /\ 49 <= d <= 57.
Proof.
  intros Hn.
  assert (0 <= n -> 0 < n -> exists d l, dec_nat n = d :: l /\ 49 <= d <= 57) as H; [|apply H; lia].
  clear Hn. revert n.
  apply (dec_nat_ind (fun n l => 0 < n -> exists d l', l = d :: l' /\ 49 <= d <= 57)).
  - intros n Hn Hp. exists (48 + n), []. split; [done|lia].
  - intros n l Hn IH _. destruct IH as (d & l' & -> & Hd); [Z.div_mod_to_equations; lia|].
    eexists d, _. split; [done|lia].
Qed.

Lemma dec_nat_nonempty n : 0 <= n -> dec_nat n <> [].
Proof.
  intros Hn. destruct (Z.eq_dec n 0) as [->|]; [done|].
  destruct (dec_nat_lead n) as (d & l & -> & _); [lia|done].
Qed.

Lemma dec_inj a b : 0 <= a -> 0 <= b -> dec a = dec b -> a = b.
Proof.
  intros Ha Hb. unfold dec. replace (a <? 0) with false by lia.
  replace (b <? 0) with false by lia. intros H. apply (f_equal digits_val) in H.
  by rewrite !dec_nat_val in H.
Qed.

Lemma dec_length n k : 0 <= n < 10 ^ Z.of_nat k -> (0 < k)%nat -> (length (dec_nat n) <= k)%nat.
Proof.
  intros Hn Hk.
  assert (0 <= n -> forall k, n < 10 ^ Z.of_nat k -> (0 < k)%nat -> (length (dec_nat n) <= k)%nat)
    as H; [|by apply H; lia].
  clear. revert n.
  apply (dec_nat_ind (fun n l => forall k, n < 10 ^ Z.of_nat k -> (0 < k)%nat -> (length l <= k)%nat)).
  - intros n Hn k Hk Hk0. simpl. lia.
  - intros n l Hn IH k Hk Hk0. rewrite length_app. simpl.
    destruct k as [|k]; [lia|]. rewrite Nat2Z.inj_succ, Z.pow_succ_r in Hk by lia.
    destruct k as [|k]; [simpl in Hk; lia|].
    enough (length l <= S k)%nat by lia. apply IH; [|lia].
    apply Z.div_lt_upper_bound; lia.
Qed.

(** [text.padStart(width, "0")] *)
Definition padStart0 (width : nat) (s : jstr) : jstr := replicate (width - length s) 48 ++ s.

Lemma padStart0_length w s : (length s <= w)%nat -> length (padStart0 w s) = w.
Proof. intros. unfold padStart0. rewrite length_app, length_replicate. lia. Qed.

Lemma padStart0_val w s : digits_val (padStart0 w s) = digits_val s.
Proof. unfold padStart0. rewrite digits_val_app, digits_val_zeros. lia. Qed.

Lemma padStart0_digits w s :
  Forall (fun c => is_digit c = true) s -> Forall (fun c => is_digit c = true) (padStart0 w s).
Proof.
  intros. unfold padStart0. apply Forall_app. split; [|done]. by apply Forall_replicate.
Qed.

#[export] Hint Resolve dec_nat_digits dec_nat_nonempty padStart0_digits : kms.
