(* ===== verification/Errors.v ===== *)
(** * Errors: [sdk/typescript/src/errors.ts].

    The SDK's error vocabulary: the stable codes, the [KmsError] classes and
    the normalisation of transport failures. A thrown value is an arbitrary
    JavaScript value; the model keeps what the source reads of it, including
    property getters that throw. *)
From stdpp Require Import prelude strings.
From Stdlib Require Import ZArith Lia.
From S2P Require Import Prelude JsString Unicode.
Set Warnings "-register-all".

Inductive KmsErrorCode :=
| not_found | permission_denied | unauthenticated | failed_precondition
| not_initialized | no_namespace | invalid_argument | cancelled
| deadline_exceeded | already_exists | resource_exhausted | aborted
| out_of_range | unimplemented | internal | unavailable | data_loss
| purge_cleanup_pending | unknown.

#[export] Instance KmsErrorCode_eq_dec : EqDecision KmsErrorCode.
Proof. solve_decision. Defined.

Definition code_text (c : KmsErrorCode) : jstr :=
  js match c with
     | not_found => "not_found"
     | permission_denied => "permission_denied"
     | unauthenticated => "unauthenticated"
     | failed_precondition => "failed_precondition"
     | not_initialized => "not_initialized"
     | no_namespace => "no_namespace"
     | invalid_argument => "invalid_argument"
     | cancelled => "cancelled"
     | deadline_exceeded => "deadline_exceeded"
     | already_exists => "already_exists"
     | resource_exhausted => "resource_exhausted"
     | aborted => "aborted"
     | out_of_range => "out_of_range"
     | unimplemented => "unimplemented"
     | internal => "internal"
     | unavailable => "unavailable"
     | data_loss => "data_loss"
     | purge_cleanup_pending => "purge_cleanup_pending"
     | unknown => "unknown"
     end.

(** Reading a property of a foreign object: a value of the type the source
    tests for, a value of another type (or no value), or a getter that
    throws. *)
Inductive prop (A : Type) :=
| PValue (a : A)
| POther
| PThrows.
Arguments PValue {A} a.
Arguments POther {A}.
Arguments PThrows {A}.

(** A thrown JavaScript value. [JKms] is an instance of [KmsError] with its
    class name, code, message, gRPC status and cause; [JError] is any other
    instance of [Error] with the properties the source reads. *)
Inductive JsError :=
| JUndefined
| JNull
| JKms (name : jstr) (code : KmsErrorCode) (message : jstr)
       (grpcCode : option Z) (cause : option JsError)
| JError (name : prop jstr) (message : jstr) (code : prop Z)
         (details : prop jstr) (metadata_getMap : prop unit) (cause : option JsError)
| JOther.

(** ** The error classes *)

Definition KmsError (code : KmsErrorCode) (message : jstr) (grpcCode : option Z)
    (cause : option JsError) : JsError :=
  JKms (js "KmsError") code message grpcCode cause.

Definition ConfigError (message : jstr) : JsError :=
  JKms (js "ConfigError") invalid_argument message None None.

Definition NoNamespaceError (key : jstr) : JsError :=
  JKms (js "NoNamespaceError") no_namespace
    (js "relative key " ++ json_quote key ++ js " needs a namespace "
     ++ js "(configure a namespace, bind the identity, or use /env/app/key)") None None.

Definition RateLimitedError (message : jstr) (grpcCode : option Z) (cause : option JsError) : JsError :=
  JKms (js "RateLimitedError") resource_exhausted message grpcCode cause.

Definition PURGE_CLEANUP_PENDING_MESSAGE : jstr :=
  js "secret purge committed; database artifact cleanup is pending".

(** The gRPC protocol's status numbers, [OK] to [UNAUTHENTICATED]. *)
Definition status_OK : Z := 0.
Definition status_UNAVAILABLE : Z := 14.
Definition status_UNAUTHENTICATED : Z := 16.

Definition PurgeCleanupPendingError : JsError :=
  JKms (js "PurgeCleanupPendingError") purge_cleanup_pending
    PURGE_CLEANUP_PENDING_MESSAGE (Some status_UNAVAILABLE) None.

Definition NotInitializedError (kind key : jstr) : JsError :=
  JKms (js "NotInitializedError") not_initialized
    (kind ++ js "(" ++ json_quote key ++ js ") was read before initialization") None None.

(** ** Normalisation of transport failures *)

Definition GRPC_CODES (status : Z) : option KmsErrorCode :=
  match status with
  | 1 => Some cancelled
  | 2 => Some unknown
  | 3 => Some invalid_argument
  | 4 => Some deadline_exceeded
  | 5 => Some not_found
  | 6 => Some already_exists
  | 7 => Some permission_denied
  | 8 => Some resource_exhausted
  | 9 => Some failed_precondition
  | 10 => Some aborted
  | 11 => Some out_of_range
  | 12 => Some unimplemented
  | 13 => Some internal
  | 14 => Some unavailable
  | 15 => Some data_loss
  | 16 => Some unauthenticated
  | _ => None
  end.

Definition in_status_range (c : Z) : bool :=
  (status_OK <=? c) && (c <=? status_UNAUTHENTICATED).

(** The properties are read in order and the conjunction stops at the first
    that fails; [None] is a getter that throws. *)
Definition isGrpcErrorLike (error : JsError) : option (option (Z * jstr)) :=
  match error with
  | JError _ _ code details metadata _ =>
      match code with
      | PThrows => None
      | POther => Some None
      | PValue c =>
          if in_status_range c then
            match details with
            | PThrows => None
            | POther => Some None
            | PValue d =>
                match metadata with
                | PThrows => None
                | POther => Some None
                | PValue _ => Some (Some (c, d))
                end
            end
          else Some None
      end
  | _ => Some None
  end.

Definition replaceUnderscores (s : jstr) : jstr :=
  (fun c => if c =? 95 then 32 else c) <$> s.

(** [None] when a getter of the foreign error throws out of the function. *)
Definition mapGrpcError (error : JsError) : option (option JsError) :=
  match error with
  | JUndefined | JNull => Some None
  | JKms _ _ _ _ _ => Some (Some error)
  | JOther =>
      Some (Some (JError (PValue (js "Error")) (js "unknown non-Error failure")
                    POther POther POther (Some error)))
  | JError _ message _ _ _ _ =>
      match isGrpcErrorLike error with
      | None => None
      | Some None => Some (Some error)
      | Some (Some (c, d)) =>
          if c =? status_OK then Some None
          else
            let code := default unknown (GRPC_CODES c) in
            let details := if bool_decide (d = []) then message else d in
            let text := if bool_decide (details = []) then replaceUnderscores (code_text code)
                        else details in
            Some (Some (KmsError code text (Some c) (Some error)))
      end
  end.

Definition safeErrorName (error : JsError) : option jstr :=
  match error with
  | JError (PValue name) _ _ _ _ _ => Some name
  | JKms name _ _ _ _ => Some name
  | _ => None
  end.

Definition grpcCodeOf (error : JsError) : option Z :=
  match error with
  | JError _ _ (PValue c) _ _ _ => if in_status_range c then Some c else None
  | _ => None
  end.

Definition SECRET_FAILED : jstr := js "KMS secret operation failed".

Definition mapSecretGrpcError (error : JsError) : option JsError :=
  match error with
  | JUndefined | JNull => None
  | JKms _ code _ grpcCode _ => Some (KmsError code SECRET_FAILED grpcCode None)
  | _ =>
      if bool_decide (safeErrorName error = Some (js "AbortError")) then
        Some (KmsError cancelled SECRET_FAILED None None)
      else if bool_decide (safeErrorName error = Some (js "TimeoutError")) then
        Some (KmsError deadline_exceeded SECRET_FAILED None None)
      else
        let grpcCode := grpcCodeOf error in
        if bool_decide (grpcCode = Some status_OK) then None
        else
          let code := match grpcCode with
                      | None => unknown
                      | Some c => default unknown (GRPC_CODES c)
                      end in
          Some (KmsError code SECRET_FAILED grpcCode None)
  end.

Definition isPurgeCleanupPending (error : JsError) : bool :=
  match isGrpcErrorLike error with
  | Some (Some (c, d)) =>
      (c =? status_UNAVAILABLE) && bool_decide (d = PURGE_CLEANUP_PENDING_MESSAGE)
  | _ => false
  end.

Definition mapPurgeSecretGrpcError (error : JsError) : option JsError :=
  if isPurgeCleanupPending error then Some PurgeCleanupPendingError
  else mapSecretGrpcError error.

Definition isKmsError (error : JsError) (code : option KmsErrorCode) : bool :=
  match error with
  | JKms _ c _ _ _ => match code with None => true | Some c' => bool_decide (c = c') end
  | _ => false
  end.

Definition wrapError (message : jstr) (error : JsError) : JsError :=
  match error with
  | JKms _ code m grpcCode _ =>
      KmsError code (message ++ js ": " ++ m) grpcCode (Some error)
  | JError _ m _ _ _ _ =>
      JError (PValue (js "Error")) (message ++ js ": " ++ m) POther POther POther (Some error)
  | _ => JError (PValue (js "Error")) message POther POther POther (Some error)
  end.

(** ** Redaction *)

(** What a secret-bearing failure may reveal: the SDK code of a [KmsError],
    the two cancellation names, or the gRPC status. *)
Inductive disclosed :=
| DNothing
| DKms (code : KmsErrorCode) (grpcCode : option Z)
| DAbort
| DTimeout
| DStatus (status : option Z).

Definition disclose (error : JsError) : disclosed :=
  match error with
  | JUndefined | JNull => DNothing
  | JKms _ code _ grpcCode _ => DKms code grpcCode
  | _ =>
      if bool_decide (safeErrorName error = Some (js "AbortError")) then DAbort
      else if bool_decide (safeErrorName error = Some (js "TimeoutError")) then DTimeout
      else DStatus (grpcCodeOf error)
  end.

Definition of_disclosed (d : disclosed) : option JsError :=
  match d with
  | DNothing | DStatus (Some 0) => None
  | DKms code g => Some (KmsError code SECRET_FAILED g None)
  | DAbort => Some (KmsError cancelled SECRET_FAILED None None)
  | DTimeout => Some (KmsError deadline_exceeded SECRET_FAILED None None)
  | DStatus None => Some (KmsError unknown SECRET_FAILED None None)
  | DStatus (Some c) => Some (KmsError (default unknown (GRPC_CODES c)) SECRET_FAILED (Some c) None)
  end.

Lemma mapSecretGrpcError_disclose e : mapSecretGrpcError e = of_disclosed (disclose e).
Proof.
  destruct e; cbn [disclose mapSecretGrpcError]; try done;
    repeat (case_bool_decide; try done); cbn [of_disclosed];
    destruct (grpcCodeOf _) as [[]|]; simpl; try done; congruence.
Qed.

(** A normalised secret failure carries the fixed text and no cause. *)
Lemma mapSecretGrpcError_fixed_text e r :
  mapSecretGrpcError e = Some r -> exists code g, r = KmsError code SECRET_FAILED g None.
Proof.
  rewrite mapSecretGrpcError_disclose.
  destruct (disclose e) as [|c g| | |[[]|]]; simpl; intros; simplify_eq; eauto.
Qed.

(** Every non-OK status of the protocol has a code of its own. *)
Lemma GRPC_CODES_total s : 1 <= s <= 16 -> is_Some (GRPC_CODES s).
Proof.
  intros Hs. assert (s = 1 \/ s = 2 \/ s = 3 \/ s = 4 \/ s = 5 \/ s = 6 \/ s = 7 \/ s = 8 \/ s = 9 \/
    s = 10 \/ s = 11 \/ s = 12 \/ s = 13 \/ s = 14 \/ s = 15 \/ s = 16) as H by lia.
  destruct_or! H; subst; by eexists.
Qed.

Definition status_of (code : KmsErrorCode) : Z :=
  match code with
  | cancelled => 1 | unknown => 2 | invalid_argument => 3 | deadline_exceeded => 4
  | not_found => 5 | already_exists => 6 | permission_denied => 7 | resource_exhausted => 8
  | failed_precondition => 9 | aborted => 10 | out_of_range => 11 | unimplemented => 12
  | internal => 13 | unavailable => 14 | data_loss => 15 | unauthenticated => 16
  | _ => 0
  end.

Lemma GRPC_CODES_status s code : GRPC_CODES s = Some code -> status_of code = s.
Proof. intros H. unfold GRPC_CODES in H. by repeat (case_match; simplify_eq). Qed.

(** ** The properties *)

(** C33: redaction of secret-bearing failures. The normalised error depends
    only on what may be disclosed (the SDK code, a cancellation or timeout
    name, the gRPC status): two failures that agree there are
    indistinguishable, whatever text, details and causes the server supplied;
    the result has the fixed message and no cause, and the purge variant adds
    only its one fixed outcome. *)
Theorem secret_errors_redacted e e' :
  disclose e = disclose e' ->
  mapSecretGrpcError e = mapSecretGrpcError e' /\
  (isPurgeCleanupPending e = isPurgeCleanupPending e' ->
   mapPurgeSecretGrpcError e = mapPurgeSecretGrpcError e') /\
  (forall r, mapPurgeSecretGrpcError e = Some r ->
     r = PurgeCleanupPendingError \/ exists code g, r = KmsError code SECRET_FAILED g None).
Proof.
  intros H. unfold mapPurgeSecretGrpcError.
  assert (mapSecretGrpcError e = mapSecretGrpcError e') as Hs
    by (by rewrite !mapSecretGrpcError_disclose, H).
  split_and!; [done|by rewrite Hs; intros ->|].
  intros r. destruct (isPurgeCleanupPending e); [intros [= <-]; by left|].
  intros Hr. right. by eapply mapSecretGrpcError_fixed_text.
Qed.

Lemma secret_errors_redacted_witness :
  mapSecretGrpcError (JError (PValue (js "Error")) (js "password=hunter2") (PValue 5) (PValue (js "hunter2")) (PValue tt) None)
  = mapSecretGrpcError (JError PThrows (js "x") (PValue 5) PThrows POther (Some JOther)).
Proof. apply secret_errors_redacted. vm_compute. reflexivity. Defined.

(** A gRPC failure keeps its identity. Every non-OK status of the protocol
    maps to a [KmsError] with a code that determines the status, carrying the
    server's details when there are any; mapping again or wrapping with
    context changes neither the code nor the status. *)
Theorem grpc_error_mapped name msg c d cause ctx :
  let e := JError name msg (PValue c) (PValue d) (PValue tt) cause in
  1 <= c <= 16 ->
  exists code text, mapGrpcError e = Some (Some (KmsError code text (Some c) (Some e))) /\
    status_of code = c /\ text <> [] /\ (d <> [] -> text = d) /\
    mapGrpcError (KmsError code text (Some c) (Some e))
      = Some (Some (KmsError code text (Some c) (Some e))) /\
    forall code', isKmsError (wrapError ctx (KmsError code text (Some c) (Some e))) (Some code')
      = bool_decide (code = code').
Proof.
  intros e Hc. destruct (GRPC_CODES_total c Hc) as [code Hcode].
  assert (in_status_range c = true) as Hr
    by (unfold in_status_range, status_OK, status_UNAUTHENTICATED; lia).
  cbn [e mapGrpcError isGrpcErrorLike]. rewrite Hr. replace (c =? status_OK) with false by
    (unfold status_OK; lia). rewrite Hcode. cbn [default].
  eexists code, _. split; [reflexivity|]. split_and!; try done.
  - by apply GRPC_CODES_status.
  - repeat case_bool_decide; try done. by destruct code.
  - intros Hd. by rewrite !(bool_decide_eq_false_2 (d = [])) by done.
Qed.

Lemma grpc_error_mapped_witness :
  exists code text, mapGrpcError (JError POther (js "boom") (PValue 7) (PValue []) (PValue tt) None)
    = Some (Some (KmsError code text (Some 7)
        (Some (JError POther (js "boom") (PValue 7) (PValue []) (PValue tt) None)))) /\ text <> [].
Proof.
  destruct (grpc_error_mapped POther (js "boom") 7 [] None [] ltac:(lia)) as (code & text & H & _ & Hne & _).
  exists code, text. split; assumption.
Defined.
