(* ===== verification/Refs.v ===== *)
(** * Refs: [sdk/typescript/src/refs.ts].

    Namespaces, resource references, version selectors and their display
    forms. *)
From stdpp Require Import prelude strings.
From Stdlib Require Import ZArith Lia.
From S2P Require Import Prelude JsString Unicode Decimal Errors.

Record NamespaceRef := { env : jstr; app : jstr }.
Record ResourceRef := { namespace : NamespaceRef; key : jstr }.
(** Both fields are optional in the source. *)
Record VersionRef := { version : option Z; label : option jstr }.

#[export] Instance NamespaceRef_eq_dec : EqDecision NamespaceRef.
Proof. solve_decision. Defined.
#[export] Instance ResourceRef_eq_dec : EqDecision ResourceRef.
Proof. solve_decision. Defined.

Definition CURRENT_VERSION : VersionRef := {| version := None; label := None |}.

Definition immutableNamespace (e a : jstr) : NamespaceRef := {| env := e; app := a |}.
Definition immutableRef (ns : NamespaceRef) (k : jstr) : ResourceRef :=
  {| namespace := immutableNamespace (env ns) (app ns); key := k |}.

Definition SLASH : Z := 47.
Definition quoted (s : string) : jstr := 34 :: js s ++ [34].

Definition parseNamespace (value : jstr) : res JsError NamespaceRef :=
  let slash := indexOf value SLASH 0 in
  if (slash <=? 0) || (slash =? strlen value - 1)
     || negb (indexOf value SLASH (slash + 1) =? -1)
  then Throw (ConfigError (js "invalid namespace " ++ json_quote value
                           ++ js "; expected " ++ quoted "env/app"))
  else Ok (immutableNamespace (slice value 0 slash) (slice value (slash + 1) (strlen value))).

Definition splitDisplayPath (path : jstr) : res JsError ResourceRef :=
  if negb (startsWith (js "/") path) then
    Throw (ConfigError (js "absolute key " ++ json_quote path ++ js " must start with "
             ++ quoted "/" ++ js " and have the form " ++ quoted "/env/app/key"))
  else
    let first := indexOf path SLASH 1 in
    let second := if first <? 0 then -1 else indexOf path SLASH (first + 1) in
    if (first <=? 1) || (second <=? first + 1) || (second =? strlen path - 1) then
      Throw (ConfigError (js "absolute key " ++ json_quote path
               ++ js " must have the form " ++ quoted "/env/app/key"))
    else Ok (immutableRef
               (immutableNamespace (slice path 1 first) (slice path (first + 1) second))
               (slice path (second + 1) (strlen path))).

Definition displayPath (ref : ResourceRef) : jstr :=
  js "/" ++ env (namespace ref) ++ js "/" ++ app (namespace ref) ++ js "/" ++ key ref.

Definition displayNamespace (ns : NamespaceRef) : jstr := env ns ++ js "/" ++ app ns.

(** The namespace argument: absent, an ["env/app"] string, or a reference. *)
Inductive NamespaceArg :=
| NsNone
| NsText (s : jstr)
| NsRef (ns : NamespaceRef).

Definition resolveRef (k : jstr) (ns : NamespaceArg) : res JsError ResourceRef :=
  if startsWith (js "/") k then splitDisplayPath k
  else match ns with
       | NsNone => Throw (NoNamespaceError k)
       | _ =>
           let* ns := match ns with
                      | NsText s => parseNamespace s
                      | NsRef ns => Ok ns
                      | NsNone => Throw (NoNamespaceError k)
                      end in
           if (strlen (env ns) =? 0) || (strlen (app ns) =? 0) then Throw (NoNamespaceError k)
           else Ok (immutableRef ns k)
       end.

Definition refOf (path : jstr) : option ResourceRef :=
  match splitDisplayPath path with Ok r => Some r | Throw _ => None end.

Definition namespaceEquals (a b : NamespaceRef) : bool :=
  bool_decide (env a = env b) && bool_decide (app a = app b).

Definition namespaceKey (ns : NamespaceRef) : jstr := env ns ++ [0] ++ app ns.

Definition normalizeVersionRef (selector : VersionRef) : res JsError (Z * jstr) :=
  let v := default 0 (version selector) in
  if (v <? 0) || (UINT64_MAX <? v) then
    Throw (ConfigError (js "version must be a bigint in the uint64 range"))
  else Ok (v, if v =? 0 then default [] (label selector) else []).

(** ** Well-formed references *)

(** What the display forms can carry: a non-empty, slash-free environment and
    application, and a non-empty key. *)
Definition valid_namespace (ns : NamespaceRef) : Prop :=
  env ns <> [] /\ app ns <> [] /\ SLASH ∉ env ns /\ SLASH ∉ app ns.
Definition valid_ref (r : ResourceRef) : Prop :=
  valid_namespace (namespace r) /\ key r <> [].

(** ** Lemmas *)

(** A successful search splits the rest of the string at the first occurrence. *)
Lemma indexOf_split a s c :
  0 <= indexOf (a ++ s) c (strlen a) ->
  exists b r, s = b ++ c :: r /\ c ∉ b /\ indexOf (a ++ s) c (strlen a) = strlen a + strlen b.
Proof.
  unfold indexOf, strlen. rewrite Nat2Z.id, drop_app_length.
  destruct (find_index c s) as [j|] eqn:E; [|lia]. intros _.
  apply find_index_Some in E as [Hs Hn].
  exists (take j s), (drop (S j) s). split_and!; [done..|].
  assert (j <= length s)%nat.
  { apply (f_equal length) in Hs. rewrite length_app, length_take in Hs. simpl in Hs. lia. }
  rewrite length_take. lia.
Qed.

Lemma indexOf_app a b c r from :
  from = strlen a -> c ∉ b -> indexOf (a ++ b ++ c :: r) c from = from + strlen b.
Proof.
  intros -> Hn. unfold indexOf, strlen. rewrite Nat2Z.id, drop_app_length, find_index_app by done.
  lia.
Qed.

Lemma indexOf_absent a b c from : from = strlen a -> c ∉ b -> indexOf (a ++ b) c from = -1.
Proof.
  intros -> Hn. unfold indexOf, strlen. rewrite Nat2Z.id, drop_app_length.
  by apply find_index_None in Hn as ->.
Qed.

Lemma strlen_app a b : strlen (a ++ b) = strlen a + strlen b.
Proof. unfold strlen. rewrite length_app. lia. Qed.

Lemma strlen_cons c a : strlen (c :: a) = 1 + strlen a.
Proof. unfold strlen. simpl. lia. Qed.

Lemma strlen_pos a : a <> [] -> 0 < strlen a.
Proof. destruct a; [done|]. rewrite strlen_cons. unfold strlen. lia. Qed.

Lemma strlen_nonneg a : 0 <= strlen a.
Proof. unfold strlen. lia. Qed.
#[export] Hint Resolve strlen_pos strlen_nonneg : kms.

(** The absence of a character in the rest of the string. *)
Lemma indexOf_neg a s c : indexOf (a ++ s) c (strlen a) = -1 -> c ∉ s.
Proof.
  unfold indexOf, strlen. rewrite Nat2Z.id, drop_app_length.
  destruct (find_index c s) eqn:E; [lia|]. by apply find_index_None in E.
Qed.

Lemma startsWith_slash s : startsWith (js "/") s = true <-> exists r, s = SLASH :: r.
Proof.
  unfold startsWith. rewrite bool_decide_eq_true. destruct s as [|c s]; simpl.
  - split; [done|]. by intros [r ?].
  - rewrite take_0. unfold SLASH. split; [intros [= ->]; by eexists|by intros [r [= -> ->]]].
Qed.

Lemma slice_app3 (a b c : jstr) x y :
  x = strlen a -> y = strlen a + strlen b -> slice (a ++ b ++ c) x y = b.
Proof. intros -> ->. apply slice_app_mid. Qed.

Lemma slice_app2 (a b : jstr) x y :
  x = strlen a -> y = strlen (a ++ b) -> slice (a ++ b) x y = b.
Proof. intros -> ->. apply slice_app_tail. rewrite strlen_app. lia. Qed.

Ltac strlen_lia :=
  repeat (rewrite strlen_app in * || rewrite strlen_cons in *); change (strlen []) with 0 in *;
  repeat match goal with
  | H : ?a <> [] |- _ => match goal with
      | _ : 0 < strlen a |- _ => fail 1
      | _ => pose proof (strlen_pos _ H) end
  end;
  repeat match goal with
  | |- context [strlen ?a] => is_var a; match goal with
      | _ : 0 <= strlen a |- _ => fail 1
      | _ => pose proof (strlen_nonneg a) end
  | _ : context [strlen ?a] |- _ => is_var a; match goal with
      | _ : 0 <= strlen a |- _ => fail 1
      | _ => pose proof (strlen_nonneg a) end
  end; lia.

Lemma splitDisplayPath_complete e a k :
  e <> [] -> a <> [] -> k <> [] -> SLASH ∉ e -> SLASH ∉ a ->
  splitDisplayPath (displayPath {| namespace := {| env := e; app := a |}; key := k |}) =
  Ok {| namespace := {| env := e; app := a |}; key := k |}.
Proof.
  intros He Ha Hk Hse Hsa. unfold displayPath. cbn [env app namespace key].
  change (js "/") with [SLASH].
  assert (indexOf ([SLASH] ++ e ++ [SLASH] ++ a ++ [SLASH] ++ k) SLASH 1 = 1 + strlen e) as H1
    by (by apply indexOf_app).
  assert (indexOf ([SLASH] ++ e ++ [SLASH] ++ a ++ [SLASH] ++ k) SLASH (1 + strlen e + 1)
          = 1 + strlen e + 1 + strlen a) as H2.
  { replace ([SLASH] ++ e ++ [SLASH] ++ a ++ [SLASH] ++ k)
      with (([SLASH] ++ e ++ [SLASH]) ++ a ++ SLASH :: k)
      by (by rewrite <- !app_assoc).
    apply indexOf_app; [strlen_lia|done]. }
  unfold splitDisplayPath. rewrite (proj2 (startsWith_slash _)) by (by eexists).
  cbn [negb]. rewrite H1. replace (1 + strlen e <? 0) with false by strlen_lia.
  rewrite H2. replace (1 + strlen e <=? 1) with false by strlen_lia.
  replace (1 + strlen e + 1 + strlen a <=? 1 + strlen e + 1) with false by strlen_lia.
  rewrite (proj2 (Z.eqb_neq (1 + strlen e + 1 + strlen a) _)) by strlen_lia.
  cbn [orb]. unfold immutableRef, immutableNamespace. cbn [env app]. do 3 f_equal.
  - apply slice_app3; done.
  - replace ([SLASH] ++ e ++ [SLASH] ++ a ++ [SLASH] ++ k)
      with (([SLASH] ++ e ++ [SLASH]) ++ a ++ SLASH :: k)
      by (by rewrite <- !app_assoc).
    apply slice_app3; strlen_lia.
  - replace ([SLASH] ++ e ++ [SLASH] ++ a ++ [SLASH] ++ k)
      with (([SLASH] ++ e ++ [SLASH] ++ a ++ [SLASH]) ++ k) by (by rewrite <- !app_assoc).
    apply slice_app2; strlen_lia.
Qed.

Lemma splitDisplayPath_sound path r :
  splitDisplayPath path = Ok r -> displayPath r = path /\ valid_ref r.
Proof.
  unfold splitDisplayPath. destruct (startsWith _ _) eqn:Hst; [|done]. cbn [negb].
  apply startsWith_slash in Hst as [p1 ->]. destruct (_ || _) eqn:Hg; [done|]. bool_prop.
  destruct (indexOf_split [SLASH] p1 SLASH) as (e & r1 & -> & Hne & Hf).
  { change (strlen [SLASH]) with 1. cbn [Datatypes.app]. lia. }
  change (strlen [SLASH]) with 1 in Hf. cbn [Datatypes.app] in Hf. rewrite Hf in *.
  replace (1 + strlen e <? 0) with false in * by strlen_lia.
  assert (SLASH :: e ++ SLASH :: r1 = (SLASH :: e ++ [SLASH]) ++ r1) as Hp
    by (simpl; by rewrite <- app_assoc).
  rewrite Hp in *.
  replace (1 + strlen e + 1) with (strlen (SLASH :: e ++ [SLASH])) in * by strlen_lia.
  destruct (indexOf_split (SLASH :: e ++ [SLASH]) r1 SLASH) as (a & k & -> & Hna & Hs); [strlen_lia|].
  rewrite Hs in *. remember ((SLASH :: e ++ [SLASH]) ++ a ++ SLASH :: k) as P eqn:HP.
  intros [= <-]. unfold displayPath, valid_ref, valid_namespace, immutableRef, immutableNamespace.
  cbn [namespace key env app]. change (js "/") with [SLASH].
  assert (slice P 1 (1 + strlen e) = e) as ->.
  { rewrite <- Hp. by apply (slice_app3 [SLASH] e). }
  assert (slice P (strlen (SLASH :: e ++ [SLASH])) (strlen (SLASH :: e ++ [SLASH]) + strlen a) = a)
    as ->.
  { rewrite HP. by apply slice_app3. }
  assert (slice P (strlen (SLASH :: e ++ [SLASH]) + strlen a + 1) (strlen P) = k) as ->.
  { replace P with ((SLASH :: e ++ [SLASH] ++ a ++ [SLASH]) ++ k)
      by (rewrite HP; simpl; rewrite <- !app_assoc; simpl; by rewrite <- ?app_assoc).
    apply slice_app2; strlen_lia. }
  split; [by rewrite <- Hp|]. subst P.
  split_and!; try done; intros ->; strlen_lia.
Qed.

Lemma parseNamespace_sound value ns :
  parseNamespace value = Ok ns -> displayNamespace ns = value /\ valid_namespace ns.
Proof.
  unfold parseNamespace. destruct (_ || _) eqn:Hg; [done|]. bool_prop.
  destruct (indexOf_split [] value SLASH) as (e & a & -> & Hne & Hi).
  { change (strlen []) with 0. cbn [Datatypes.app]. lia. }
  change (strlen []) with 0 in Hi. cbn [Datatypes.app] in Hi. rewrite Hi in *.
  assert (e ++ SLASH :: a = (e ++ [SLASH]) ++ a) as Hp by (by rewrite <- app_assoc).
  assert (SLASH ∉ a) as Hna.
  { apply (indexOf_neg (e ++ [SLASH])). rewrite <- Hp.
    replace (strlen (e ++ [SLASH])) with (0 + strlen e + 1) by strlen_lia. lia. }
  intros [= <-]. unfold displayNamespace, valid_namespace, immutableNamespace. cbn [env app].
  assert (slice (e ++ SLASH :: a) 0 (0 + strlen e) = e) as ->
    by (by apply (slice_app3 [] e)).
  assert (slice (e ++ SLASH :: a) (0 + strlen e + 1) (strlen (e ++ SLASH :: a)) = a) as ->.
  { rewrite Hp. apply slice_app2; strlen_lia. }
  split; [done|]. split_and!; try done; intros ->; strlen_lia.
Qed.

Lemma parseNamespace_complete ns :
  valid_namespace ns -> parseNamespace (displayNamespace ns) = Ok ns.
Proof.
  destruct ns as [e a]. unfold valid_namespace, displayNamespace. cbn [env app].
  change (js "/") with [SLASH]. intros (He & Ha & Hse & Hsa).
  assert (indexOf (e ++ [SLASH] ++ a) SLASH 0 = 0 + strlen e) as H1
    by (by apply (indexOf_app [] e)).
  assert (e ++ [SLASH] ++ a = (e ++ [SLASH]) ++ a) as Hp by (by rewrite <- app_assoc).
  assert (indexOf (e ++ [SLASH] ++ a) SLASH (0 + strlen e + 1) = -1) as H2.
  { rewrite Hp. apply indexOf_absent; [strlen_lia|done]. }
  unfold parseNamespace. rewrite H1, H2.
  replace (0 + strlen e <=? 0) with false by strlen_lia.
  rewrite (proj2 (Z.eqb_neq (0 + strlen e) _)) by strlen_lia. cbn [orb negb].
  unfold immutableNamespace. do 2 f_equal.
  - by apply (slice_app3 [] e).
  - rewrite Hp. apply slice_app2; strlen_lia.
Qed.

(** The first separator splits a joined pair unambiguously. *)
Lemma app_sep_inj (c : Z) (a1 b1 a2 b2 : jstr) :
  c ∉ a1 -> c ∉ a2 -> a1 ++ c :: b1 = a2 ++ c :: b2 -> a1 = a2 /\ b1 = b2.
Proof.
  revert a2; induction a1 as [|x a1 IH]; intros [|y a2] H1 H2 He; simpl in He.
  - by injection He as ->.
  - injection He as -> He. set_solver.
  - injection He as -> He. set_solver.
  - injection He as -> He. apply IH in He as [-> ->]; [done|set_solver..].
Qed.

(** Map keys of namespaces are injective as long as no environment contains
    the NUL separator. *)
Lemma namespaceKey_inj a b :
  0 ∉ env a -> 0 ∉ env b -> namespaceKey a = namespaceKey b -> a = b.
Proof.
  intros Ha Hb H. apply app_sep_inj in H as [? ?]; [|done..]. destruct a, b; simpl in *; congruence.
Qed.

Lemma refOf_Some path r : refOf path = Some r <-> displayPath r = path /\ valid_ref r.
Proof.
  unfold refOf. split.
  - destruct (splitDisplayPath path) as [r'|] eqn:E; [|done]. intros [= ->].
    by apply splitDisplayPath_sound.
  - intros [<- [(He & Ha & Hse & Hsa) Hk]]. destruct r as [[e a] k]; simpl in *.
    by rewrite splitDisplayPath_complete.
Qed.

Lemma displayPath_inj r1 r2 :
  valid_ref r1 -> valid_ref r2 -> displayPath r1 = displayPath r2 -> r1 = r2.
Proof.
  intros H1 H2 He.
  assert (refOf (displayPath r1) = Some r1) by (by apply refOf_Some).
  assert (refOf (displayPath r2) = Some r2) by (by apply refOf_Some). congruence.
Qed.

(** ** Properties *)

(** C29: [splitDisplayPath] accepts exactly the display paths of well-formed
    references and inverts [displayPath] on them, so parsing and printing
    [/env/app/key] round-trip in both directions. *)
Theorem splitDisplayPath_iff path r :
  splitDisplayPath path = Ok r <-> displayPath r = path /\ valid_ref r.
Proof.
  split; [apply splitDisplayPath_sound|].
  intros [<- [(He & Ha & Hse & Hsa) Hk]]. destruct r as [[e a] k].
  by apply splitDisplayPath_complete.
Qed.

(** C32: [parseNamespace] accepts exactly ["env/app"] with one slash and two
    non-empty parts, and inverts [displayNamespace]. *)
Theorem parseNamespace_iff value ns :
  parseNamespace value = Ok ns <-> displayNamespace ns = value /\ valid_namespace ns.
Proof.
  split; [apply parseNamespace_sound|]. intros [<- H]. by apply parseNamespace_complete.
Qed.
