(* ===== verification/Cache.v ===== *)
(** * Cache: [sdk/typescript/src/cache.ts], class [ReadCache].

    The bounded in-memory TTL cache of parameter reads. The two-level [Map] of
    the source is a list of lists in insertion order, because eviction follows
    that order. [GenerationState] and [ReadGeneration] are mutable objects the
    source shares by reference and compares by identity, so they live in
    stores indexed by an identity, and [epoch: {}] is a fresh identity. The
    clock is an argument of the operations that read it. *)
From stdpp Require Import prelude gmap strings.
From Stdlib Require Import ZArith Lia.
From S2P Require Import Prelude JsString JsMap Unicode Decimal Errors Refs.

Definition DEFAULT_MAX_CACHE_ENTRIES : Z := 4096.

Record CacheEntry := { value : jstr; expiresAt : Z }.

(** Identities of JavaScript objects. *)
Abbreviation ident := nat.

Record GenerationState := { epoch : ident; readers : Z }.

Record ReadGeneration := {
  g_path : jstr;
  g_state : ident;
  g_epoch : ident;
  g_released : bool
}.

Abbreviation EntryMap := (list (jstr * list (jstr * CacheEntry))).

Record ReadCache := {
  ttlMs : Z;
  maxEntries : Z;
  parameters : EntryMap;
  parameterGenerations : list (jstr * ident);
  parameterCount : Z;
  states : gmap ident GenerationState;
  handles : gmap ident ReadGeneration;
  next_ident : ident
}.

(** Record update. *)
Definition with_parameters (c : ReadCache) (p : EntryMap) (n : Z) : ReadCache :=
  {| ttlMs := ttlMs c; maxEntries := maxEntries c; parameters := p;
     parameterGenerations := parameterGenerations c; parameterCount := n;
     states := states c; handles := handles c; next_ident := next_ident c |}.

Definition with_generations (c : ReadCache) (g : list (jstr * ident))
    (s : gmap ident GenerationState) (h : gmap ident ReadGeneration) (n : ident) : ReadCache :=
  {| ttlMs := ttlMs c; maxEntries := maxEntries c; parameters := parameters c;
     parameterGenerations := g; parameterCount := parameterCount c;
     states := s; handles := h; next_ident := n |}.

Definition selectorKey (selector : VersionRef) : res JsError jstr :=
  let* p := normalizeVersionRef selector in Ok (dec p.1 ++ [0] ++ p.2).

Definition positionalSelector (v : Z) (l : jstr) : VersionRef :=
  {| version := Some v; label := Some l |}.

(** [ttl] is [None] when the number is not finite; [max] is [None] when the
    option is absent. A non-integer [max] is outside the model's numbers. *)
Definition new_ReadCache (ttl : option Z) (max : option Z) : res jstr ReadCache :=
  match ttl with
  | None => Throw (js "cache ttlMs must be finite")
  | Some ttl =>
      let max := default DEFAULT_MAX_CACHE_ENTRIES max in
      if negb (isSafeInteger max) || (max <=? 0) then
        Throw (js "cache maxEntries must be a positive safe integer")
      else Ok {| ttlMs := ttl; maxEntries := max; parameters := [];
                 parameterGenerations := []; parameterCount := 0;
                 states := ∅; handles := ∅; next_ident := O |}
  end.

Definition enabled (c : ReadCache) : bool := 0 <? ttlMs c.

Definition parameterSize (c : ReadCache) : Z := parameterCount c.

(** ** Reads *)

Definition getParameter (c : ReadCache) (now : Z) (path : jstr) (selector : VersionRef)
  : ReadCache * res JsError (option jstr) :=
  if negb (enabled c) then (c, Ok None)
  else match map_get path (parameters c) with
  | None => (c, Ok None)
  | Some entries =>
      match selectorKey selector with
      | Throw e => (c, Throw e)
      | Ok k =>
          match map_get k entries with
          | None => (c, Ok None)
          | Some entry =>
              if now <? expiresAt entry then (c, Ok (Some (value entry)))
              else
                let entries' := map_delete k entries in
                let cache := if decide (entries' = [])
                             then map_delete path (parameters c)
                             else map_set path entries' (parameters c) in
                (with_parameters c cache (parameterCount c - 1), Ok None)
          end
      end
  end.

(** ** Writes *)

(** [#set]: the inner map is created before the selector is validated, so a
    selector that throws leaves an empty inner map behind. *)
Definition cache_set (c : ReadCache) (now : Z) (path : jstr) (selector : VersionRef) (v : jstr)
  : ReadCache * res JsError unit :=
  if negb (enabled c) then (c, Ok tt)
  else
    let cache := match map_get path (parameters c) with
                 | None => map_set path [] (parameters c)
                 | Some _ => parameters c
                 end in
    let entries := default [] (map_get path cache) in
    match selectorKey selector with
    | Throw e => (with_parameters c cache (parameterCount c), Throw e)
    | Ok k =>
        let '(entries', count) :=
          if map_has k entries then (map_delete k entries, parameterCount c)
          else (entries, parameterCount c + 1) in
        let entry := {| value := v; expiresAt := now + ttlMs c |} in
        (with_parameters c (map_set path (map_set k entry entries') cache) count, Ok tt)
    end.

Definition entry_total (m : EntryMap) : nat := sum_list_with (fun p => length (snd p)) m.

(** First loop of [#evict]: drop what has expired, and the inner maps this
    (or anything before it) left empty. *)
Definition live (now : Z) (e : jstr * CacheEntry) : Prop := now < expiresAt (snd e).
#[global] Instance live_dec now e : Decision (live now e).
Proof. unfold live. apply _. Defined.

Fixpoint purge_expired (now : Z) (m : EntryMap) : EntryMap :=
  match m with
  | [] => []
  | (path, entries) :: m =>
      let entries' := filter (live now) entries in
      if decide (entries' = []) then purge_expired now m
      else (path, entries') :: purge_expired now m
  end.

(** Second loop of [#evict]. Each round removes an entry or an empty inner
    map, so the number of both is enough fuel. *)
Fixpoint evict_loop (fuel : nat) (max : Z) (m : EntryMap) (count : Z) : EntryMap * Z :=
  match fuel with
  | O => (m, count)
  | S fuel =>
      if max <? count then
        match m with
        | [] => (m, count)
        | (path, entries) :: m' =>
            match entries with
            | [] => evict_loop fuel max m' count
            | _ :: entries' =>
                evict_loop fuel max
                  (if decide (entries' = []) then m' else (path, entries') :: m') (count - 1)
            end
        end
      else (m, count)
  end.

Definition evict_fuel (m : EntryMap) : nat := S (length m + entry_total m).

Definition cache_evict (c : ReadCache) (now : Z) : ReadCache :=
  if parameterCount c <=? maxEntries c then c
  else
    let m := purge_expired now (parameters c) in
    let count := parameterCount c - (Z.of_nat (entry_total (parameters c)) - Z.of_nat (entry_total m)) in
    let '(m, count) := evict_loop (evict_fuel m) (maxEntries c) m count in
    with_parameters c m count.

(** [setParameter]: the clock is read once for the entry and once more when
    the bound is exceeded. *)
Definition setParameter (c : ReadCache) (now1 now2 : Z) (path v : jstr) (selector : VersionRef)
  : ReadCache * res JsError unit :=
  match cache_set c now1 path selector v with
  | (c, Throw e) => (c, Throw e)
  | (c, Ok _) => (cache_evict c now2, Ok tt)
  end.

Definition getParam (c : ReadCache) (now : Z) (path : jstr) (v : Z) (l : jstr) :=
  getParameter c now path (positionalSelector v l).

Definition putParam (c : ReadCache) (now1 now2 : Z) (path : jstr) (v : Z) (l value : jstr) :=
  setParameter c now1 now2 path value (positionalSelector v l).

(** ** Read generations *)

Definition beginParameterRead (c : ReadCache) (path : jstr) : ReadCache * option ident :=
  if negb (enabled c) then (c, None)
  else
    let '(gens, sts, loc, n) :=
      match map_get path (parameterGenerations c) with
      | Some loc => (parameterGenerations c, states c, loc, next_ident c)
      | None =>
          let loc := next_ident c in
          (map_set path loc (parameterGenerations c),
           <[loc := {| epoch := S loc; readers := 0 |}]> (states c), loc, S (S loc))
      end in
    let st := default {| epoch := O; readers := 0 |} (sts !! loc) in
    let sts := <[loc := {| epoch := epoch st; readers := readers st + 1 |}]> sts in
    let h := {| g_path := path; g_state := loc; g_epoch := epoch st; g_released := false |} in
    (with_generations c gens sts (<[n := h]> (handles c)) (S n), Some n).

Definition isCurrent (c : ReadCache) (h : ReadGeneration) : bool :=
  negb (g_released h)
  && bool_decide (map_get (g_path h) (parameterGenerations c) = Some (g_state h))
  && match states c !! g_state h with
     | Some st => bool_decide (epoch st = g_epoch h)
     | None => false
     end.

(** A handle the cache never issued has no object: the call cannot happen. *)
Definition cacheParameterIfUnchanged (c : ReadCache) (now1 now2 : Z) (g : ident)
    (v : Z) (l val : jstr) : ReadCache * res JsError bool :=
  match handles c !! g with
  | None => (c, Ok false)
  | Some h =>
      if negb (isCurrent c h) then (c, Ok false)
      else match putParam c now1 now2 (g_path h) v l val with
           | (c, Ok _) => (c, Ok true)
           | (c, Throw e) => (c, Throw e)
           end
  end.

Definition endRead (c : ReadCache) (generation : option ident) : ReadCache :=
  match generation with
  | None => c
  | Some g =>
      match handles c !! g with
      | None => c
      | Some h =>
          if g_released h then c
          else
            let hs := <[g := {| g_path := g_path h; g_state := g_state h;
                                g_epoch := g_epoch h; g_released := true |}]> (handles c) in
            let st := default {| epoch := O; readers := 0 |} (states c !! g_state h) in
            let r := readers st - 1 in
            let sts := <[g_state h := {| epoch := epoch st; readers := r |}]> (states c) in
            let gens :=
              if (r =? 0) && bool_decide (map_get (g_path h) (parameterGenerations c) = Some (g_state h))
              then map_delete (g_path h) (parameterGenerations c)
              else parameterGenerations c in
            with_generations c gens sts hs (next_ident c)
      end
  end.

(** ** Invalidation *)

(** [state.epoch = {}] *)
Definition renew (c : ReadCache) (loc : ident) : ReadCache :=
  match states c !! loc with
  | None => c
  | Some st =>
      with_generations c (parameterGenerations c)
        (<[loc := {| epoch := next_ident c; readers := readers st |}]> (states c))
        (handles c) (S (next_ident c))
  end.

Definition invalidateGeneration (c : ReadCache) (path : jstr) : ReadCache :=
  match map_get path (parameterGenerations c) with
  | None => c
  | Some loc => renew c loc
  end.

Definition invalidateParameter (c : ReadCache) (path : jstr) : ReadCache :=
  let c := invalidateGeneration c path in
  match map_get path (parameters c) with
  | None => c
  | Some entries =>
      with_parameters c (map_delete path (parameters c))
        (parameterCount c - Z.of_nat (length entries))
  end.

(** The namespaces argument holds references and ["env/app"] strings. *)
Definition namespace_scope (namespaces : list (NamespaceRef + jstr)) : res JsError (list jstr) :=
  res_map (fun n => match n with
                    | inl ns => Ok (namespaceKey ns)
                    | inr s => let* ns := parseNamespace s in Ok (namespaceKey ns)
                    end) namespaces.

Definition in_scope (scope : list jstr) (path : jstr) : bool :=
  match refOf path with
  | Some ref => bool_decide (namespaceKey (namespace ref) ∈ scope)
  | None => false
  end.

Definition invalidateParametersInNamespaces (c : ReadCache)
    (namespaces : list (NamespaceRef + jstr)) : ReadCache * res JsError unit :=
  if negb (enabled c) then (c, Ok tt)
  else match namespace_scope namespaces with
  | Throw e => (c, Throw e)
  | Ok [] => (c, Ok tt)
  | Ok scope =>
      let c := foldl (fun c '(path, loc) => if in_scope scope path then renew c loc else c)
                 c (parameterGenerations c) in
      let kept := filter (fun p => in_scope scope (fst p) = false) (parameters c) in
      let gone := filter (fun p => in_scope scope (fst p) = true) (parameters c) in
      (with_parameters c kept (parameterCount c - Z.of_nat (entry_total gone)), Ok tt)
  end.

Definition clear (c : ReadCache) : ReadCache :=
  let c := foldl (fun c '(_, loc) => renew c loc) c (parameterGenerations c) in
  with_parameters c [] 0.

Definition invalidateParam (c : ReadCache) (path : jstr) : ReadCache := invalidateParameter c path.

(** ** Secrets: compatibility methods that retain nothing *)

Definition secretSize (c : ReadCache) : Z := 0.
Definition getSecret (c : ReadCache) (path : jstr) (selector : VersionRef) : option jstr := None.
Definition setSecret (c : ReadCache) (path secret : jstr) (selector : VersionRef) : ReadCache := c.
Definition getSecretAt (c : ReadCache) (path : jstr) (v : Z) (l : jstr) : option jstr :=
  getSecret c path (positionalSelector v l).
Definition putSecret (c : ReadCache) (path : jstr) (v : Z) (l secret : jstr) : ReadCache :=
  setSecret c path secret (positionalSelector v l).
Definition beginSecretRead (c : ReadCache) (path : jstr) : ReadCache * option ident := (c, None).
Definition cacheSecretIfUnchanged (c : ReadCache) (g : ident) (v : Z) (l secret : jstr) : ReadCache * bool :=
  (c, false).
Definition invalidateSecret (c : ReadCache) (path : jstr) : ReadCache := c.
Definition invalidateSecretsInNamespaces (c : ReadCache) (nss : list (NamespaceRef + jstr)) : ReadCache := c.
