(* ===== verification/CacheProofs.v ===== *)
(** * CacheProofs: what [ReadCache] guarantees.

    A well-formedness invariant kept by every operation, the bound on the
    retained entries, the fencing of reads that raced an invalidation, and a
    refinement of an abstract unbounded cache. *)
From stdpp Require Import prelude gmap strings.
From Stdlib Require Import ZArith Lia.
From S2P Require Import Prelude JsString JsMap Unicode Decimal Errors Refs Cache.

(** ** Operations as data *)

(** One call of the public interface. The clock readings a call makes are
    part of it. *)
Inductive cache_op :=
| OGet (now : Z) (path : jstr) (sel : VersionRef)
| OSet (now1 now2 : Z) (path v : jstr) (sel : VersionRef)
| OBegin (path : jstr)
| OCacheIf (now1 now2 : Z) (g : ident) (v : Z) (l val : jstr)
| OEnd (g : option ident)
| OInvalidate (path : jstr)
| OInvalidateNs (nss : list (NamespaceRef + jstr))
| OClear.

Definition cache_step (c : ReadCache) (o : cache_op) : ReadCache :=
  match o with
  | OGet now path sel => (getParameter c now path sel).1
  | OSet now1 now2 path v sel => (setParameter c now1 now2 path v sel).1
  | OBegin path => (beginParameterRead c path).1
  | OCacheIf now1 now2 g v l val => (cacheParameterIfUnchanged c now1 now2 g v l val).1
  | OEnd g => endRead c g
  | OInvalidate path => invalidateParameter c path
  | OInvalidateNs nss => (invalidateParametersInNamespaces c nss).1
  | OClear => clear c
  end.

Definition cache_run (c : ReadCache) (ops : list cache_op) : ReadCache := foldl cache_step c ops.

(** ** The entries *)

Definition entries_wf (m : EntryMap) : Prop :=
  map_wf m /\ Forall (fun p => map_wf p.2) m.

Record params_wf (c : ReadCache) : Prop := {
  pw_entries : entries_wf (parameters c);
  pw_count : parameterCount c = Z.of_nat (entry_total (parameters c));
  pw_bound : parameterCount c <= maxEntries c;
  pw_max : 0 < maxEntries c
}.

(** The entry a path and a selector key hold. *)
Definition cache_lookup (m : EntryMap) (path k : jstr) : option CacheEntry :=
  map_get path m ≫= map_get k.

Lemma entry_total_delete path m :
  map_wf m ->
  entry_total m =
    (entry_total (map_delete path m) + length (default [] (map_get path m)))%nat.
Proof.
  unfold entry_total, map_wf. induction m as [|[p es] m IH]; csimpl; [done|].
  intros [Hn Hwf]%NoDup_cons. destruct (decide (p = path)) as [->|Hne]; csimpl.
  - lia.
  - rewrite (IH Hwf). lia.
Qed.

Lemma entry_total_set path es m :
  map_wf m ->
  (entry_total (map_set path es m) + length (default [] (map_get path m)) =
   entry_total m + length es)%nat.
Proof.
  unfold entry_total, map_wf. induction m as [|[p es'] m IH]; csimpl; [lia|].
  intros [Hn Hwf]%NoDup_cons. destruct (decide (p = path)) as [->|Hne]; csimpl.
  - lia.
  - specialize (IH Hwf). lia.
Qed.

Lemma entry_total_filter_split (P : jstr -> bool) (m : EntryMap) :
  entry_total m =
    (entry_total (filter (fun p => P p.1 = false) m) +
     entry_total (filter (fun p => P p.1 = true) m))%nat.
Proof.
  unfold entry_total. induction m as [|[p es] m IH]; csimpl; [done|].
  rewrite !filter_cons; csimpl. destruct (P p); csimpl; lia.
Qed.

Lemma entries_wf_get m path es : entries_wf m -> map_get path m = Some es -> map_wf es.
Proof.
  intros [_ Hf] Hg. rewrite Forall_forall in Hf. by apply (Hf (path, es)), map_get_Some_elem.
Qed.

Lemma entries_wf_set m path es : entries_wf m -> map_wf es -> entries_wf (map_set path es m).
Proof.
  intros [Hm Hf] Hes. split; [by apply map_set_wf|]. rewrite Forall_forall in *.
  intros [p x] [[-> ->]|Hin]%map_set_elem; [done|]. by apply (Hf (p, x)).
Qed.

Lemma entries_wf_sublist m m' : m' `sublist_of` m -> entries_wf m -> entries_wf m'.
Proof.
  intros Hs [Hm Hf]. split; [by eapply map_sublist_wf|].
  rewrite Forall_forall in *. intros x Hx. eapply Hf, elem_of_sublist; eauto.
Qed.

Lemma entries_wf_delete m path : entries_wf m -> entries_wf (map_delete path m).
Proof. apply entries_wf_sublist, map_delete_sublist. Qed.

Lemma entries_wf_tail p m : entries_wf (p :: m) -> entries_wf m.
Proof. apply entries_wf_sublist. by constructor. Qed.

(** *** [purge_expired] *)

Lemma purge_expired_keys now m p :
  p ∈ (purge_expired now m).*1 -> p ∈ m.*1.
Proof.
  induction m as [|[q es] m IH]; csimpl; [done|].
  case_decide; csimpl; set_solver.
Qed.

Lemma purge_expired_wf now m : entries_wf m -> entries_wf (purge_expired now m).
Proof.
  unfold entries_wf, map_wf.
  induction m as [|[q es] m IH]; csimpl; [done|].
  intros [[Hn Hwf]%NoDup_cons [Hes Hf]%Forall_cons]. destruct IH as [H1 H2]; [done|].
  case_decide; [done|]. csimpl. split.
  - apply NoDup_cons. split; [|done]. contradict Hn. by eapply purge_expired_keys.
  - constructor; [by apply map_filter_wf|done].
Qed.

Lemma purge_expired_total now m : (entry_total (purge_expired now m) <= entry_total m)%nat.
Proof.
  unfold entry_total. induction m as [|[q es] m IH]; csimpl; [done|].
  pose proof (length_filter (live now) es). case_decide; csimpl; lia.
Qed.

Lemma purge_expired_lookup now m path k :
  entries_wf m ->
  cache_lookup (purge_expired now m) path k =
    match cache_lookup m path k with
    | Some e => if decide (now < expiresAt e) then Some e else None
    | None => None
    end.
Proof.
  unfold cache_lookup, entries_wf, map_wf.
  induction m as [|[q es] m IH]; csimpl; [done|].
  intros [[Hn Hwf]%NoDup_cons [Hes Hf]%Forall_cons].
  assert (Hfil := map_filter_get (live now) k es Hes).
  destruct (decide (q = path)) as [->|Hne].
  - assert (map_get path (purge_expired now m) = None) as Hnone.
    { apply map_get_None. contradict Hn. by eapply purge_expired_keys. }
    case_decide as Hd; csimpl.
    + rewrite Hnone. simpl. rewrite Hd in Hfil. simpl in Hfil.
      destruct (map_get k es) as [e|]; [|done]. unfold live in Hfil. simpl in *.
      by repeat case_decide.
    + rewrite decide_True by done. simpl. rewrite Hfil.
      destruct (map_get k es) as [e|]; [|done]. unfold live. simpl. by repeat case_decide.
  - case_decide; csimpl; rewrite ?decide_False by done; by apply IH.
Qed.

(** *** [evict_loop] *)

Lemma evict_loop_wf fuel max m n : entries_wf m -> entries_wf (evict_loop fuel max m n).1.
Proof.
  revert m n; induction fuel as [|fuel IH]; intros m n Hm; simpl; [done|].
  destruct (max <? n); [|done]. destruct m as [|[p es] m]; [done|].
  assert (entries_wf m) by (by eapply entries_wf_tail).
  destruct es as [|e es]; [by apply IH|]. apply IH. case_decide; [done|].
  destruct Hm as [Hm [Hes Hf]%Forall_cons]. split; [exact Hm|]. constructor; [|done].
  unfold map_wf in *. csimpl in *. by apply NoDup_cons in Hes as [_ Hes].
Qed.

Lemma evict_loop_count fuel max m n :
  n = Z.of_nat (entry_total m) ->
  (evict_loop fuel max m n).2 = Z.of_nat (entry_total (evict_loop fuel max m n).1).
Proof.
  revert m n; induction fuel as [|fuel IH]; intros m n Hn; simpl; [done|].
  destruct (max <? n); [|done]. destruct m as [|[p es] m]; [done|].
  destruct es as [|e es]; apply IH; [done|].
  rewrite Hn. unfold entry_total. case_decide; csimpl; subst; simpl; lia.
Qed.

(** The fuel suffices: the loop ends because the bound holds. *)
Lemma evict_loop_bound fuel max m n :
  n = Z.of_nat (entry_total m) -> 0 <= max -> (length m + entry_total m < fuel)%nat ->
  (evict_loop fuel max m n).2 <= max.
Proof.
  revert m n; induction fuel as [|fuel IH]; intros m n Hn Hmax Hf; [lia|]. simpl.
  destruct (Z.ltb_spec max n); [|done]. destruct m as [|[p es] m]; [simpl in *; lia|].
  unfold entry_total in *.
  destruct es as [|e es]; apply IH; simpl in *; try done; try lia.
  - case_decide; subst; simpl in *; lia.
  - case_decide; subst; simpl in *; lia.
Qed.

(** Eviction only forgets. *)
Lemma evict_loop_lookup fuel max m n path k e :
  entries_wf m ->
  cache_lookup (evict_loop fuel max m n).1 path k = Some e -> cache_lookup m path k = Some e.
Proof.
  revert m n; induction fuel as [|fuel IH]; intros m n Hm; simpl; [done|].
  destruct (max <? n); [|done]. destruct m as [|[p es] m]; [done|].
  assert (Hm' := entries_wf_tail _ _ Hm).
  assert (forall path k e, cache_lookup m path k = Some e ->
            cache_lookup ((p, es) :: m) path k = Some e) as Htl.
  { intros path' k' e'. unfold cache_lookup. csimpl. case_decide; [|done]. subst.
    destruct Hm as [[Hn _]%NoDup_cons _]. simpl in Hn. apply map_get_None in Hn. by rewrite Hn. }
  destruct es as [|[k0 e0] es]; intros Hg.
  { apply IH in Hg; [|done]. by apply Htl. }
  destruct Hm as [Hm [Hes Hf]%Forall_cons].
  apply IH in Hg.
  - case_decide; [by apply Htl|]. unfold cache_lookup in *. csimpl in *.
    case_decide; [|done]. simpl in *.
    unfold map_wf in Hes. csimpl in Hes. apply NoDup_cons in Hes as [Hn Hes].
    case_decide; [|done]. subst. apply map_get_None in Hn. congruence.
  - case_decide; [done|]. split; [exact Hm|]. constructor; [|done].
    unfold map_wf in *. csimpl in *. by apply NoDup_cons in Hes as [_ Hes].
Qed.

Lemma cache_evict_frame c now :
  ttlMs (cache_evict c now) = ttlMs c /\ maxEntries (cache_evict c now) = maxEntries c /\
  parameterGenerations (cache_evict c now) = parameterGenerations c /\
  states (cache_evict c now) = states c /\ handles (cache_evict c now) = handles c /\
  next_ident (cache_evict c now) = next_ident c.
Proof. unfold cache_evict. case_match; [done|]. by destruct (evict_loop _ _ _ _). Qed.

Lemma cache_evict_wf c now :
  entries_wf (parameters c) -> parameterCount c = Z.of_nat (entry_total (parameters c)) ->
  0 < maxEntries c -> params_wf (cache_evict c now).
Proof.
  intros Hwf Hc Hmax. unfold cache_evict. destruct (Z.leb_spec (parameterCount c) (maxEntries c)).
  { by split. }
  pose proof (purge_expired_total now (parameters c)).
  set (m := purge_expired now (parameters c)) in *.
  assert (entries_wf m) as Hm by (by apply purge_expired_wf).
  set (n := parameterCount c - _). assert (n = Z.of_nat (entry_total m)) as Hn by (unfold n; lia).
  pose proof (evict_loop_wf (evict_fuel m) (maxEntries c) m n Hm).
  pose proof (evict_loop_count (evict_fuel m) (maxEntries c) m n Hn).
  pose proof (evict_loop_bound (evict_fuel m) (maxEntries c) m n Hn
                ltac:(lia) ltac:(unfold evict_fuel; lia)).
  destruct (evict_loop _ _ _ _) as [m' n']. simpl in *. by split.
Qed.

(** *** The operations on the entries *)

(** Adding a key that is not there, or replacing one that was deleted first. *)
Definition refreshed (k : jstr) (e : CacheEntry) (es : list (jstr * CacheEntry)) :=
  map_set k e (if map_has k es then map_delete k es else es).

Lemma refreshed_wf k e es : map_wf es -> map_wf (refreshed k e es).
Proof. unfold refreshed. case_match; auto with kms. Qed.

Lemma refreshed_get k e es k' :
  map_wf es ->
  map_get k' (refreshed k e es) = if decide (k = k') then Some e else map_get k' es.
Proof.
  intros Hwf. unfold refreshed. rewrite map_get_set. case_decide; [done|].
  case_match; [|done]. rewrite map_get_delete by done. by rewrite decide_False.
Qed.

Lemma map_delete_gone {V} (k : jstr) (m : list (jstr * V)) :
  map_wf m -> k ∉ (map_delete k m).*1.
Proof. intros Hwf. apply map_get_None. rewrite map_get_delete by done. by rewrite decide_True. Qed.

Lemma refreshed_length k e es :
  map_wf es ->
  (length (refreshed k e es) = if map_has k es then length es else S (length es))%nat.
Proof.
  intros Hwf. unfold refreshed. destruct (map_has k es) eqn:E.
  - apply map_has_true in E. rewrite map_set_length, map_delete_length.
    rewrite decide_True by done. rewrite decide_False by (by apply map_delete_gone).
    destruct es; [set_solver|simpl; lia].
  - rewrite map_set_length, decide_False; [lia|].
    intros Hin%map_has_true. congruence.
Qed.

(** The outer map as [#set] finds it after making sure the path is there. *)
Definition ensured (path : jstr) (m : EntryMap) : EntryMap :=
  match map_get path m with None => map_set path [] m | Some _ => m end.

Lemma ensured_wf path m : entries_wf m -> entries_wf (ensured path m).
Proof.
  intros H. unfold ensured. case_match; [done|]. apply entries_wf_set; [done|]. constructor.
Qed.

Lemma ensured_get path m p :
  map_get p (ensured path m) =
    if decide (path = p) then Some (default [] (map_get path m)) else map_get p m.
Proof.
  unfold ensured. destruct (map_get path m) eqn:E; simpl.
  - by case_decide; subst.
  - apply map_get_set.
Qed.

Lemma ensured_total path m : map_wf m -> entry_total (ensured path m) = entry_total m.
Proof.
  intros H. unfold ensured. destruct (map_get path m) eqn:E; [done|].
  pose proof (entry_total_set path [] m H) as Ht. rewrite E in Ht. simpl in Ht. lia.
Qed.

Lemma ensured_lookup path m p k : cache_lookup (ensured path m) p k = cache_lookup m p k.
Proof.
  unfold cache_lookup. rewrite ensured_get. case_decide; [|done]. subst.
  by destruct (map_get p m).
Qed.

Lemma cache_set_Ok c now path sel v k :
  enabled c = true -> selectorKey sel = Ok k ->
  cache_set c now path sel v =
    (with_parameters c
       (map_set path
          (refreshed k {| value := v; expiresAt := now + ttlMs c |}
             (default [] (map_get path (parameters c)))) (ensured path (parameters c)))
       (parameterCount c +
          if map_has k (default [] (map_get path (parameters c))) then 0 else 1), Ok tt).
Proof.
  intros He Hk. unfold cache_set. rewrite He, Hk. cbn [negb]. fold (ensured path (parameters c)).
  assert (default [] (map_get path (ensured path (parameters c)))
          = default [] (map_get path (parameters c))) as ->.
  { rewrite ensured_get, decide_True by done. done. }
  unfold refreshed. destruct (map_has k _); do 2 f_equal. lia.
Qed.

Lemma cache_set_Throw c now path sel v e :
  enabled c = true -> selectorKey sel = Throw e ->
  cache_set c now path sel v =
    (with_parameters c (ensured path (parameters c)) (parameterCount c), Throw e).
Proof.
  intros He Hk. unfold cache_set. rewrite He, Hk. cbn [negb].
  fold (ensured path (parameters c)). done.
Qed.

Lemma cache_set_disabled c now path sel v :
  enabled c = false -> cache_set c now path sel v = (c, Ok tt).
Proof. intros He. unfold cache_set. by rewrite He. Qed.

Lemma inner_wf m path : entries_wf m -> map_wf (default [] (map_get path m)).
Proof.
  intros H. destruct (map_get path m) as [es|] eqn:E; simpl; [by eapply entries_wf_get|]. constructor.
Qed.

Lemma cache_set_inv c now path sel v :
  params_wf c ->
  let c' := (cache_set c now path sel v).1 in
  entries_wf (parameters c') /\ parameterCount c' = Z.of_nat (entry_total (parameters c')) /\
  maxEntries c' = maxEntries c.
Proof.
  intros [Hw Hc Hb Hm]. destruct (enabled c) eqn:He; [|by rewrite cache_set_disabled].
  destruct (selectorKey sel) as [k|e] eqn:Hk.
  - rewrite (cache_set_Ok _ _ _ _ _ k) by done. simpl.
    set (es := default [] (map_get path (parameters c))).
    assert (map_wf es) by (by apply inner_wf). split_and!; [|..|done].
    + apply entries_wf_set; [by apply ensured_wf|by apply refreshed_wf].
    + pose proof (entry_total_set path (refreshed k {| value := v; expiresAt := now + ttlMs c |} es)
                    (ensured path (parameters c)) (proj1 (ensured_wf path _ Hw))) as Ht.
      rewrite ensured_get, decide_True, ensured_total, refreshed_length in Ht by (done || apply Hw).
      simpl in Ht. fold es in Ht. destruct (map_has k es); lia.
  - rewrite (cache_set_Throw _ _ _ _ _ e) by done. simpl. split_and!; [by apply ensured_wf|..|done].
    rewrite ensured_total by apply Hw. done.
Qed.

Lemma setParameter_wf c now1 now2 path v sel :
  params_wf c -> params_wf (setParameter c now1 now2 path v sel).1.
Proof.
  intros Hw. unfold setParameter.
  pose proof (cache_set_inv c now1 path sel v Hw) as (He & Hc & Hm).
  destruct (enabled c) eqn:Hen.
  - destruct (selectorKey sel) as [k|e] eqn:Hk.
    + rewrite (cache_set_Ok _ _ _ _ _ k) in * by done. simpl in *.
      apply cache_evict_wf; [done..|]. simpl. apply Hw.
    + rewrite (cache_set_Throw _ _ _ _ _ e) in * by done. simpl in *.
      split; [done..|apply Hw|apply Hw].
  - rewrite cache_set_disabled in * by done. simpl.
    apply cache_evict_wf; apply Hw.
Qed.

Lemma getParameter_wf c now path sel : params_wf c -> params_wf (getParameter c now path sel).1.
Proof.
  intros Hw. unfold getParameter. destruct (enabled c); [|done]. simpl.
  destruct (map_get path (parameters c)) as [es|] eqn:Hp; [|done].
  destruct (selectorKey sel) as [k|e]; [|done].
  destruct (map_get k es) as [en|] eqn:Hk; [|done]. destruct (now <? _); [done|].
  destruct Hw as [Hw Hc Hb Hm]. assert (map_wf es) as Hes by (by eapply entries_wf_get).
  assert (k ∈ es.*1) as Hin.
  { destruct (decide (k ∈ es.*1)) as [|Hn]; [done|]. apply map_get_None in Hn. congruence. }
  assert (0 < length es)%nat by (destruct es; [set_solver|simpl; lia]).
  pose proof (map_delete_length k es) as Hl. rewrite decide_True in Hl by done.
  pose proof (entry_total_delete path _ (proj1 Hw)) as Hd. rewrite Hp in Hd. simpl in Hd.
  pose proof (entry_total_set path (map_delete k es) _ (proj1 Hw)) as Hs. rewrite Hp in Hs. simpl in Hs.
  split; simpl; try done; try lia.
  - case_decide; [by apply entries_wf_delete|]. apply entries_wf_set; auto with kms.
  - case_decide as Hd'; [|lia]. rewrite Hd' in Hl. simpl in Hl. lia.
Qed.

(** *** Invalidation of entries *)

Lemma renew_frame c loc :
  ttlMs (renew c loc) = ttlMs c /\ maxEntries (renew c loc) = maxEntries c /\
  parameters (renew c loc) = parameters c /\ parameterCount (renew c loc) = parameterCount c /\
  parameterGenerations (renew c loc) = parameterGenerations c /\
  handles (renew c loc) = handles c.
Proof. unfold renew. by case_match. Qed.

(** A fold of [renew] over part of the generations. *)
Definition renew_all (P : jstr -> bool) (c : ReadCache) (l : list (jstr * ident)) : ReadCache :=
  foldl (fun c '(path, loc) => if P path then renew c loc else c) c l.

Lemma renew_all_frame P c l :
  ttlMs (renew_all P c l) = ttlMs c /\ maxEntries (renew_all P c l) = maxEntries c /\
  parameters (renew_all P c l) = parameters c /\ parameterCount (renew_all P c l) = parameterCount c /\
  parameterGenerations (renew_all P c l) = parameterGenerations c /\
  handles (renew_all P c l) = handles c.
Proof.
  unfold renew_all. revert c. induction l as [|[p loc] l IH]; intros c; simpl; [done|].
  destruct (IH (if P p then renew c loc else c)) as (-> & -> & -> & -> & -> & ->).
  destruct (P p); [apply renew_frame|done].
Qed.

Lemma clear_eq c : clear c = with_parameters (renew_all (fun _ => true) c (parameterGenerations c)) [] 0.
Proof. done. Qed.

(** The namespaces call, on the branches where it has work to do. *)
Lemma invalidateNs_eq c nss scope :
  enabled c = true -> namespace_scope nss = Ok scope -> scope <> [] ->
  invalidateParametersInNamespaces c nss =
    (let c := renew_all (in_scope scope) c (parameterGenerations c) in
     with_parameters c (filter (fun p => in_scope scope (fst p) = false) (parameters c))
       (parameterCount c
        - Z.of_nat (entry_total (filter (fun p => in_scope scope (fst p) = true) (parameters c)))),
     Ok tt).
Proof.
  intros He Hs Hne. unfold invalidateParametersInNamespaces. rewrite He, Hs. cbn [negb].
  by destruct scope.
Qed.

Lemma invalidateNs_noop c nss :
  enabled c = false \/ (exists e, namespace_scope nss = Throw e) \/ namespace_scope nss = Ok [] ->
  (invalidateParametersInNamespaces c nss).1 = c.
Proof.
  unfold invalidateParametersInNamespaces. intros [-> | [[e ->] | ->]]; [done|by case_match..].
Qed.

Lemma invalidateNs_cases c nss :
  (invalidateParametersInNamespaces c nss).1 = c \/
  (enabled c = true /\ exists scope, namespace_scope nss = Ok scope /\ scope <> []).
Proof.
  destruct (enabled c) eqn:He; [|left; apply invalidateNs_noop; eauto].
  destruct (namespace_scope nss) as [[|x l]|e] eqn:Hs.
  - left. apply invalidateNs_noop. eauto.
  - right. split; [done|]. by eexists.
  - left. apply invalidateNs_noop. eauto.
Qed.

Lemma invalidateGeneration_frame c path :
  ttlMs (invalidateGeneration c path) = ttlMs c /\
  maxEntries (invalidateGeneration c path) = maxEntries c /\
  parameters (invalidateGeneration c path) = parameters c /\
  parameterCount (invalidateGeneration c path) = parameterCount c.
Proof.
  unfold invalidateGeneration. destruct (map_get _ _) as [loc|]; [|done].
  destruct (renew_frame c loc); tauto.
Qed.

Lemma params_wf_frame c c' :
  maxEntries c' = maxEntries c -> parameters c' = parameters c ->
  parameterCount c' = parameterCount c -> params_wf c -> params_wf c'.
Proof. intros Hm Hp Hc []. split; rewrite ?Hm, ?Hp, ?Hc; done. Qed.

Lemma invalidateParameter_wf c path : params_wf c -> params_wf (invalidateParameter c path).
Proof.
  intros Hw. unfold invalidateParameter.
  destruct (invalidateGeneration_frame c path) as (_ & Hm & Hp & Hc).
  assert (params_wf (invalidateGeneration c path)) as [Hw1 Hc1 Hb1 Hm1]
    by (by eapply params_wf_frame).
  set (c1 := invalidateGeneration c path) in *.
  destruct (map_get path (parameters c1)) as [es|] eqn:E; [|by split].
  pose proof (entry_total_delete path _ (proj1 Hw1)) as Hd. rewrite E in Hd. simpl in Hd.
  split; simpl; try done; [by apply entries_wf_delete|lia..].
Qed.

Lemma invalidateNs_wf c nss :
  params_wf c -> params_wf (invalidateParametersInNamespaces c nss).1.
Proof.
  intros Hw. destruct (invalidateNs_cases c nss) as [->|(He & scope & Hs & Hne)]; [done|].
  rewrite (invalidateNs_eq _ _ scope) by done. simpl.
  destruct (renew_all_frame (in_scope scope) c (parameterGenerations c)) as (_ & Hm & Hp & Hc & _).
  destruct Hw as [Hw Hcn Hb Hmx].
  pose proof (entry_total_filter_split (in_scope scope) (parameters c)).
  split; simpl; rewrite ?Hm, ?Hp, ?Hc; try done; try lia.
  eapply entries_wf_sublist; [apply sublist_filter|done].
Qed.

Lemma clear_wf c : params_wf c -> params_wf (clear c).
Proof.
  intros [_ _ _ Hm]. rewrite clear_eq.
  destruct (renew_all_frame (fun _ => true) c (parameterGenerations c)) as (_ & Hmx & _).
  split; simpl; rewrite ?Hmx; try done; try lia. split; constructor.
Qed.

Lemma beginParameterRead_frame c path :
  let c' := (beginParameterRead c path).1 in
  ttlMs c' = ttlMs c /\ maxEntries c' = maxEntries c /\ parameters c' = parameters c /\
  parameterCount c' = parameterCount c.
Proof. unfold beginParameterRead. by repeat case_match; simplify_eq/=. Qed.

Lemma endRead_frame c g :
  ttlMs (endRead c g) = ttlMs c /\ maxEntries (endRead c g) = maxEntries c /\
  parameters (endRead c g) = parameters c /\ parameterCount (endRead c g) = parameterCount c.
Proof. unfold endRead. by repeat case_match. Qed.

Lemma cacheIf_cases c now1 now2 g v l val :
  (cacheParameterIfUnchanged c now1 now2 g v l val).1 = c \/
  exists h, handles c !! g = Some h /\ isCurrent c h = true /\
    (cacheParameterIfUnchanged c now1 now2 g v l val).1 =
    (setParameter c now1 now2 (g_path h) val (positionalSelector v l)).1.
Proof.
  unfold cacheParameterIfUnchanged, putParam. destruct (handles c !! g) as [h|]; [|by left].
  destruct (isCurrent c h) eqn:E; [|by left]. right. exists h. split_and!; [done..|]. simpl.
  by destruct (setParameter _ _ _ _ _ _) as [? []].
Qed.

Lemma cache_step_params_wf c o : params_wf c -> params_wf (cache_step c o).
Proof.
  intros Hw. destruct o as [| |path| |g| | |]; simpl.
  - by apply getParameter_wf.
  - by apply setParameter_wf.
  - destruct (beginParameterRead_frame c path) as (? & ? & ? & ?). by eapply params_wf_frame.
  - destruct (cacheIf_cases c now1 now2 g v l val) as [->|(h & _ & _ & ->)]; [done|].
    by apply setParameter_wf.
  - destruct (endRead_frame c g) as (? & ? & ? & ?). by eapply params_wf_frame.
  - by apply invalidateParameter_wf.
  - by apply invalidateNs_wf.
  - by apply clear_wf.
Qed.

(** ** The read generations *)

Definition open_at (loc : ident) (p : ident * ReadGeneration) : Prop :=
  g_released p.2 = false /\ g_state p.2 = loc.
#[global] Instance open_at_dec loc p : Decision (open_at loc p).
Proof. unfold open_at. apply _. Defined.

(** How many unreleased reads refer to a generation object. *)
Definition open_count (hs : gmap ident ReadGeneration) (loc : ident) : Z :=
  Z.of_nat (size (filter (open_at loc) hs)).

Lemma open_count_insert_new hs n h loc :
  hs !! n = None ->
  open_count (<[n := h]> hs) loc =
    open_count hs loc + if decide (open_at loc (n, h)) then 1 else 0.
Proof.
  intros Hn. unfold open_count. rewrite map_filter_insert. case_decide.
  - rewrite map_size_insert_None; [lia|]. apply map_lookup_filter_None. by left.
  - rewrite delete_id by done. lia.
Qed.

Lemma open_count_release hs n h h' loc :
  hs !! n = Some h -> g_released h = false -> g_released h' = true ->
  open_count (<[n := h']> hs) loc = open_count hs loc - if decide (g_state h = loc) then 1 else 0.
Proof.
  intros Hn Hr Hr'. unfold open_count. rewrite map_filter_insert, decide_False.
  2: { intros [? _]. simpl in *. congruence. }
  rewrite map_filter_delete, map_size_delete. destruct (decide (g_state h = loc)) as [He|He].
  - assert (filter (open_at loc) hs !! n = Some h) as Hf
      by (by apply map_lookup_filter_Some).
    rewrite Hf. assert (size (filter (open_at loc) hs) <> 0%nat); [|lia].
    intros Hz%map_size_empty_iff. rewrite Hz in Hf. done.
  - assert (filter (open_at loc) hs !! n = None) as ->; [|simpl; lia].
    apply map_lookup_filter_None. right. intros x Hx [_ Hs]. simpl in *. congruence.
Qed.

Lemma open_count_pos hs loc :
  0 < open_count hs loc -> exists g h, hs !! g = Some h /\ g_released h = false /\ g_state h = loc.
Proof.
  unfold open_count. intros H.
  destruct (map_choose (filter (open_at loc) hs)) as (g & h & Hf).
  { intros He. rewrite He, map_size_empty in H. lia. }
  apply map_lookup_filter_Some in Hf as [? [? ?]]. eauto.
Qed.

Lemma open_count_zero hs loc g h :
  open_count hs loc = 0 -> hs !! g = Some h -> g_released h = false -> g_state h <> loc.
Proof.
  unfold open_count. intros Hz Hg Hr Hs.
  assert (size (filter (open_at loc) hs) = 0%nat) as Hz' by lia.
  apply map_size_empty_iff in Hz'.
  assert (filter (open_at loc) hs !! g = Some h) as Hf by (by apply map_lookup_filter_Some).
  by rewrite Hz' in Hf.
Qed.

(** [skip] is a generation object that may have no reader yet: the state
    inside [#beginRead] between its two halves. *)
Record gens_wf_but (skip : option ident) (c : ReadCache) : Prop := {
  gw_map : map_wf (parameterGenerations c);
  gw_inj : forall p1 p2 loc, map_get p1 (parameterGenerations c) = Some loc ->
    map_get p2 (parameterGenerations c) = Some loc -> p1 = p2;
  gw_mapped : forall path loc, map_get path (parameterGenerations c) = Some loc ->
    exists st, states c !! loc = Some st /\ (skip <> Some loc -> 0 < readers st) /\
      readers st = open_count (handles c) loc;
  gw_open : forall g h, handles c !! g = Some h -> g_released h = false ->
    map_get (g_path h) (parameterGenerations c) = Some (g_state h);
  gw_fresh_states : forall loc st, states c !! loc = Some st ->
    (loc < next_ident c)%nat /\ (epoch st < next_ident c)%nat;
  gw_fresh_handles : forall g h, handles c !! g = Some h ->
    (g < next_ident c)%nat /\ (g_state h < next_ident c)%nat /\ (g_epoch h < next_ident c)%nat
}.

Abbreviation gens_wf := (gens_wf_but None).

Lemma gens_wf_frame c c' :
  parameterGenerations c' = parameterGenerations c -> states c' = states c ->
  handles c' = handles c -> next_ident c' = next_ident c -> gens_wf c -> gens_wf c'.
Proof. intros Hg Hs Hh Hn []. split; rewrite ?Hg, ?Hs, ?Hh, ?Hn; done. Qed.

Lemma renew_gens_wf c loc : gens_wf c -> gens_wf (renew c loc).
Proof.
  intros [Hm Hi Hr Ho Hfs Hfh]. unfold renew. destruct (states c !! loc) as [st|] eqn:E; [|by split].
  split; simpl; try done.
  - intros path loc' Hp. destruct (Hr path loc' Hp) as (st' & Hst & H1 & H2).
    destruct (decide (loc = loc')) as [->|Hne].
    + rewrite lookup_insert_eq. eexists. split; [done|]. simpl. by simplify_eq.
    + rewrite lookup_insert_ne by done. eauto.
  - intros loc' st'. rewrite lookup_insert. case_decide as Hd.
    + intros [= <-]. subst. simpl. apply Hfs in E. lia.
    + intros H%Hfs. lia.
  - intros g h H%Hfh. lia.
Qed.

Lemma renew_all_gens_wf P c l : gens_wf c -> gens_wf (renew_all P c l).
Proof.
  unfold renew_all. revert c. induction l as [|[p loc] l IH]; intros c Hw; simpl; [done|].
  apply IH. destruct (P p); [by apply renew_gens_wf|done].
Qed.

(** The second half of [#beginRead]: one more reader of an existing object. *)
Definition add_reader (c : ReadCache) (path : jstr) (loc : ident) (st : GenerationState) : ReadCache :=
  with_generations c (parameterGenerations c)
    (<[loc := {| epoch := epoch st; readers := readers st + 1 |}]> (states c))
    (<[next_ident c := {| g_path := path; g_state := loc; g_epoch := epoch st; g_released := false |}]>
       (handles c)) (S (next_ident c)).

(** The first half: a fresh object for a path nobody is reading. *)
Definition new_state (c : ReadCache) (path : jstr) : ReadCache :=
  with_generations c (map_set path (next_ident c) (parameterGenerations c))
    (<[next_ident c := {| epoch := S (next_ident c); readers := 0 |}]> (states c))
    (handles c) (S (S (next_ident c))).

Lemma begin_existing c path loc st :
  enabled c = true -> map_get path (parameterGenerations c) = Some loc ->
  states c !! loc = Some st ->
  beginParameterRead c path = (add_reader c path loc st, Some (next_ident c)).
Proof. intros He Hg Hs. unfold beginParameterRead. rewrite He, Hg. cbn [negb]. by rewrite Hs. Qed.

Lemma begin_new c path :
  enabled c = true -> map_get path (parameterGenerations c) = None ->
  beginParameterRead c path =
    (add_reader (new_state c path) path (next_ident c)
       {| epoch := S (next_ident c); readers := 0 |}, Some (S (S (next_ident c)))).
Proof.
  intros He Hg. unfold beginParameterRead. rewrite He, Hg. cbn [negb].
  rewrite lookup_insert_eq. done.
Qed.

Lemma begin_disabled c path : enabled c = false -> beginParameterRead c path = (c, None).
Proof. intros He. unfold beginParameterRead. by rewrite He. Qed.

Lemma open_count_fresh hs loc :
  (forall g h, hs !! g = Some h -> g_state h <> loc) -> open_count hs loc = 0.
Proof.
  intros H. unfold open_count. replace (filter (open_at loc) hs) with (∅ : gmap ident ReadGeneration);
    [by rewrite map_size_empty|].
  symmetry. apply map_empty. intros g. apply map_lookup_filter_None. right.
  intros h Hh [_ Hs]. by eapply H.
Qed.

Lemma new_state_wf c path :
  gens_wf c -> map_get path (parameterGenerations c) = None ->
  gens_wf_but (Some (next_ident c)) (new_state c path).
Proof.
  intros [Hm Hi Hr Ho Hfs Hfh] Hn.
  assert (forall p, map_get p (parameterGenerations c) <> Some (next_ident c)) as Hnot.
  { intros p Hp. destruct (Hr _ _ Hp) as (st & Hst & _). apply Hfs in Hst. lia. }
  split; simpl.
  - by apply map_set_wf.
  - intros p1 p2 loc. rewrite !map_get_set. intros H1 H2.
    destruct (decide (path = p1)), (decide (path = p2)); simplify_eq; try done.
    + by apply Hnot in H2.
    + by apply Hnot in H1.
    + by eapply Hi.
  - intros p loc. rewrite map_get_set. case_decide as Hd.
    + intros [= <-]. rewrite lookup_insert_eq. eexists. split; [done|]. simpl. split; [done|].
      rewrite open_count_fresh; [done|]. intros g h Hh%Hfh. lia.
    + intros Hp. destruct (Hr _ _ Hp) as (st & Hst & Hpos & Hcnt).
      rewrite lookup_insert_ne by (intros <-; by apply Hnot in Hp). naive_solver.
  - intros g h Hh Hrel. rewrite map_get_set. rewrite decide_False.
    + by eapply Ho.
    + intros ->. specialize (Ho _ _ Hh Hrel). congruence.
  - intros loc st. rewrite lookup_insert. case_decide as Hd.
    + intros [= <-]. simpl. lia.
    + intros Hst%Hfs. lia.
  - intros g h Hh%Hfh. lia.
Qed.

Lemma add_reader_wf c path loc st :
  gens_wf_but (Some loc) c -> map_get path (parameterGenerations c) = Some loc ->
  states c !! loc = Some st -> gens_wf (add_reader c path loc st).
Proof.
  intros [Hm Hi Hr Ho Hfs Hfh] Hp Hst.
  assert (handles c !! next_ident c = None) as Hnone.
  { destruct (handles c !! next_ident c) eqn:E; [|done]. apply Hfh in E. lia. }
  split; simpl; try done.
  - intros p loc' Hp'. destruct (Hr _ _ Hp') as (st' & Hst' & Hpos & Hcnt).
    rewrite open_count_insert_new by done.
    destruct (decide (loc = loc')) as [<-|Hne].
    + rewrite lookup_insert_eq. eexists. split; [done|]. simpl.
      rewrite decide_True by (split; done). simplify_eq. split; [|lia]. intros _.
      unfold open_count in *. lia.
    + rewrite lookup_insert_ne by done. rewrite decide_False by (intros [_ ?]; simpl in *; done).
      exists st'. split_and!; [done|..|lia]. intros _. apply Hpos. congruence.
  - intros g h. rewrite lookup_insert. case_decide as Hd; [|by apply Ho].
    by intros [= <-] _.
  - intros loc' st'. rewrite lookup_insert. case_decide as Hd.
    + intros [= <-]. subst. simpl. apply Hfs in Hst. lia.
    + intros Hst'%Hfs. lia.
  - intros g h. rewrite lookup_insert. case_decide as Hd.
    + intros [= <-]. subst. simpl. apply Hfs in Hst. lia.
    + intros Hh%Hfh. lia.
Qed.

Lemma gens_wf_weaken skip c : gens_wf c -> gens_wf_but skip c.
Proof.
  intros [Hm Hi Hr Ho Hfs Hfh]. split; try done. intros p loc Hp.
  destruct (Hr p loc Hp) as (st & ? & ? & ?). exists st. split_and!; [done| |done]. intros _.
  by apply H0.
Qed.

Lemma beginParameterRead_wf c path : gens_wf c -> gens_wf (beginParameterRead c path).1.
Proof.
  intros Hw. destruct (enabled c) eqn:He; [|by rewrite begin_disabled].
  destruct (map_get path (parameterGenerations c)) as [loc|] eqn:Hg.
  - destruct (gw_mapped _ _ Hw _ _ Hg) as (st & Hst & _).
    rewrite (begin_existing _ _ loc st) by done. simpl.
    apply add_reader_wf; [by apply gens_wf_weaken|done..].
  - rewrite begin_new by done. simpl. apply add_reader_wf.
    + by apply new_state_wf.
    + apply map_get_set_eq.
    + apply lookup_insert_eq.
Qed.

Lemma endRead_wf c g : gens_wf c -> gens_wf (endRead c g).
Proof.
  intros Hw. unfold endRead. destruct g as [g|]; [|done].
  destruct (handles c !! g) as [h|] eqn:Hh; [|done].
  destruct (g_released h) eqn:Hrel; [done|].
  destruct Hw as [Hm Hi Hr Ho Hfs Hfh].
  pose proof (Ho _ _ Hh Hrel) as Hmap. destruct (Hr _ _ Hmap) as (st & Hst & Hpos & Hcnt).
  rewrite Hst. simpl. rewrite (bool_decide_eq_true_2 _ Hmap), andb_true_r.
  assert (forall loc, open_count (<[g:={| g_path := g_path h; g_state := g_state h;
              g_epoch := g_epoch h; g_released := true |}]> (handles c)) loc
            = open_count (handles c) loc - if decide (g_state h = loc) then 1 else 0) as Hoc
    by (intros loc; by apply open_count_release).
  assert (forall p loc, map_get p (if readers st - 1 =? 0
             then map_delete (g_path h) (parameterGenerations c) else parameterGenerations c)
             = Some loc ->
           map_get p (parameterGenerations c) = Some loc /\
           (loc = g_state h -> 0 < readers st - 1)) as Hsub.
  { intros p loc. destruct (Z.eqb_spec (readers st - 1) 0).
    - rewrite map_get_delete by done. case_decide as Hd; [done|]. intros Hp. split; [done|].
      intros ->. contradict Hd. by eapply Hi.
    - intros Hp. split; [done|]. intros ->. specialize (Hpos ltac:(done)). lia. }
  split; simpl.
  - case_match; auto with kms.
  - intros p1 p2 loc [H1 _]%Hsub [H2 _]%Hsub. by eapply Hi.
  - intros p loc [Hp Hz]%Hsub. destruct (Hr _ _ Hp) as (st' & Hst' & Hpos' & Hcnt').
    rewrite Hoc. destruct (decide (g_state h = loc)) as [<-|Hne].
    + rewrite lookup_insert_eq. eexists. split; [done|]. simpl. simplify_eq. split; [auto|lia].
    + rewrite lookup_insert_ne by done. exists st'. split_and!; [done..|lia].
  - intros g' h'. rewrite lookup_insert. case_decide as Hd; [intros [= <-]; done|].
    intros Hh' Hrel'. pose proof (Ho _ _ Hh' Hrel') as Hmap'.
    destruct (Z.eqb_spec (readers st - 1) 0) as [Hz|]; [|done].
    rewrite map_get_delete by done. rewrite decide_False; [done|]. intros Hpe.
    (* another open read of the same path would be a second reader *)
    assert (g_state h' = g_state h) as Hse by congruence.
    assert (open_count (<[g:={| g_path := g_path h; g_state := g_state h;
              g_epoch := g_epoch h; g_released := true |}]> (handles c)) (g_state h) = 0) as H0
      by (rewrite Hoc, decide_True by done; lia).
    eapply (open_count_zero _ _ g' h') in H0; [done| |done]. by rewrite lookup_insert_ne.
  - intros loc st'. rewrite lookup_insert. case_decide as Hd.
    + intros [= <-]. subst. simpl. by apply Hfs in Hst.
    + by intros Hst'%Hfs.
  - intros g' h'. rewrite lookup_insert. case_decide as Hd; [|apply Hfh].
    intros [= <-]. subst. simpl. by apply Hfh in Hh.
Qed.

(** The part of the state that entry operations leave alone. *)
Definition same_gens (c c' : ReadCache) : Prop :=
  parameterGenerations c' = parameterGenerations c /\ states c' = states c /\
  handles c' = handles c /\ next_ident c' = next_ident c /\ ttlMs c' = ttlMs c.

Lemma getParameter_gens c now path sel : same_gens c (getParameter c now path sel).1.
Proof. unfold getParameter. by repeat case_match. Qed.

Lemma setParameter_gens c now1 now2 path v sel :
  same_gens c (setParameter c now1 now2 path v sel).1.
Proof.
  unfold setParameter.
  assert (same_gens c (cache_set c now1 path sel v).1) as Hs.
  { unfold cache_set. destruct (enabled c); [|done]. simpl. destruct (selectorKey sel); [|done].
    by repeat case_match. }
  destruct (cache_set c now1 path sel v) as [c1 [u|e]]; simpl in *; [|done].
  destruct (cache_evict_frame c1 now2) as (H1 & _ & H3 & H4 & H5 & H6).
  unfold same_gens in *. by rewrite H1, H3, H4, H5, H6.
Qed.

Lemma same_gens_wf c c' : same_gens c c' -> gens_wf c -> gens_wf c'.
Proof. intros (? & ? & ? & ? & _). by apply gens_wf_frame. Qed.

Lemma invalidateParameter_gens c path :
  same_gens (invalidateGeneration c path) (invalidateParameter c path).
Proof. unfold invalidateParameter. by case_match. Qed.

Lemma invalidateGeneration_wf c path : gens_wf c -> gens_wf (invalidateGeneration c path).
Proof.
  intros Hw. unfold invalidateGeneration. destruct (map_get _ _); [|done]. by apply renew_gens_wf.
Qed.

Definition cache_wf (c : ReadCache) : Prop := params_wf c /\ gens_wf c.

Lemma cache_step_wf c o : cache_wf c -> cache_wf (cache_step c o).
Proof.
  intros [Hp Hg]. split; [by apply cache_step_params_wf|].
  destruct o as [| |path| |g|path|nss|]; simpl.
  - eapply same_gens_wf; [apply getParameter_gens|done].
  - eapply same_gens_wf; [apply setParameter_gens|done].
  - by apply beginParameterRead_wf.
  - destruct (cacheIf_cases c now1 now2 g v l val) as [->|(h & _ & _ & ->)]; [done|].
    eapply same_gens_wf; [apply setParameter_gens|done].
  - by apply endRead_wf.
  - eapply same_gens_wf; [apply invalidateParameter_gens|by apply invalidateGeneration_wf].
  - destruct (invalidateNs_cases c nss) as [->|(He & scope & Hs & Hne)]; [done|].
    rewrite (invalidateNs_eq _ _ scope) by done. simpl.
    eapply same_gens_wf; [|by apply (renew_all_gens_wf (in_scope scope))]. done.
  - rewrite clear_eq. eapply same_gens_wf; [|by apply (renew_all_gens_wf (fun _ => true))]. done.
Qed.

Lemma cache_run_wf c ops : cache_wf c -> cache_wf (cache_run c ops).
Proof.
  revert c; induction ops as [|o ops IH]; intros c Hw; simpl; [done|].
  by apply IH, cache_step_wf.
Qed.

Lemma new_ReadCache_wf ttl max c : new_ReadCache ttl max = Ok c -> cache_wf c.
Proof.
  unfold new_ReadCache. destruct ttl as [ttl|]; [|done]. case_match eqn:E; [done|]. bool_prop.
  intros [= <-]. split; split; simpl; try done; try lia.
  - split; constructor.
  - constructor.
Qed.

(** ** Fencing of reads that raced an invalidation *)

(** The read can no longer fill the cache. *)
Definition fenced (c : ReadCache) (g : ident) : Prop :=
  forall h, handles c !! g = Some h -> isCurrent c h = false.

Lemma isCurrent_true c h :
  isCurrent c h = true <->
  g_released h = false /\ map_get (g_path h) (parameterGenerations c) = Some (g_state h) /\
  exists st, states c !! g_state h = Some st /\ epoch st = g_epoch h.
Proof.
  unfold isCurrent. rewrite !andb_true_iff, negb_true_iff, bool_decide_eq_true.
  destruct (states c !! g_state h) as [st|].
  - rewrite bool_decide_eq_true. naive_solver.
  - naive_solver.
Qed.

(** The evolution of one handle under any operation: its object keeps path,
    state and epoch, and what is current stays explained by the past. *)
Definition handle_le (c c' : ReadCache) : Prop :=
  (next_ident c <= next_ident c')%nat /\
  forall g h', handles c' !! g = Some h' -> (g < next_ident c)%nat ->
    exists h, handles c !! g = Some h /\ g_path h' = g_path h /\ g_state h' = g_state h /\
      g_epoch h' = g_epoch h /\ (isCurrent c' h' = true -> isCurrent c h = true).

Lemma handle_le_refl c : handle_le c c.
Proof. split; [done|]. intros g h' Hh _. by exists h'. Qed.

Lemma handle_le_trans c1 c2 c3 : handle_le c1 c2 -> handle_le c2 c3 -> handle_le c1 c3.
Proof.
  intros [Hn1 H1] [Hn2 H2]. split; [lia|]. intros g h3 Hh3 Hg.
  destruct (H2 g h3 Hh3 ltac:(lia)) as (h2 & Hh2 & E1 & E2 & E3 & Hc2).
  destruct (H1 g h2 Hh2 Hg) as (h1 & Hh1 & F1 & F2 & F3 & Hc1).
  exists h1. split_and!; try congruence. auto.
Qed.

Lemma same_gens_handle_le c c' : same_gens c c' -> handle_le c c'.
Proof.
  intros (Hg & Hs & Hh & Hn & _). split; [by rewrite Hn|]. intros g h' Hh' _. rewrite Hh in Hh'.
  exists h'. split_and!; try done. unfold isCurrent. by rewrite Hg, Hs.
Qed.

Lemma renew_handle_le c loc : gens_wf c -> handle_le c (renew c loc).
Proof.
  intros Hw. unfold renew. destruct (states c !! loc) as [st|] eqn:E; [|apply handle_le_refl].
  split; simpl; [lia|]. intros g h Hh _. exists h. split_and!; try done.
  rewrite !isCurrent_true. simpl. intros (Hr & Hm & st' & Hst & He). split_and!; [done..|].
  revert Hst. rewrite lookup_insert. case_decide as Hd; [|eauto].
  intros [= <-]. simpl in He. apply (gw_fresh_handles _ _ Hw) in Hh. lia.
Qed.

Lemma renew_all_handle_le P c l : gens_wf c -> handle_le c (renew_all P c l).
Proof.
  unfold renew_all. revert c. induction l as [|[p loc] l IH]; intros c Hw; simpl; [apply handle_le_refl|].
  destruct (P p).
  - eapply handle_le_trans; [by apply renew_handle_le|]. by apply IH, renew_gens_wf.
  - by apply IH.
Qed.

Lemma begin_handle_le c path : gens_wf c -> handle_le c (beginParameterRead c path).1.
Proof.
  intros Hw. destruct (enabled c) eqn:He; [|rewrite begin_disabled by done; apply handle_le_refl].
  destruct (map_get path (parameterGenerations c)) as [loc|] eqn:Hg.
  - destruct (gw_mapped _ _ Hw _ _ Hg) as (st & Hst & _).
    rewrite (begin_existing _ _ loc st) by done. split; simpl; [lia|]. intros g h' Hh Hlt.
    rewrite lookup_insert_ne in Hh by lia. exists h'. split_and!; try done.
    rewrite !isCurrent_true. simpl. intros (Hr & Hm & st' & Hst' & Hep). split_and!; [done..|].
    revert Hst'. rewrite lookup_insert. case_decide as Hd; [|eauto].
    intros [= <-]. simpl in *. subst. eauto.
  - rewrite begin_new by done. split; simpl; [lia|]. intros g h' Hh Hlt.
    rewrite lookup_insert_ne in Hh by lia. exists h'. split_and!; try done.
    rewrite !isCurrent_true. simpl. intros (Hr & Hm & st' & Hst' & Hep).
    pose proof (gw_open _ _ Hw _ _ Hh Hr) as Hmo. split_and!; [done..|].
    apply (gw_fresh_handles _ _ Hw) in Hh as Hf.
    rewrite !lookup_insert_ne in Hst' by lia. eauto.
Qed.

Lemma end_handle_le c g : gens_wf c -> handle_le c (endRead c g).
Proof.
  intros Hw. unfold endRead. destruct g as [g|]; [|apply handle_le_refl].
  destruct (handles c !! g) as [h|] eqn:Hh; [|apply handle_le_refl].
  destruct (g_released h) eqn:Hrel; [apply handle_le_refl|].
  split; simpl; [lia|]. intros g' h'. rewrite lookup_insert. case_decide as Hd.
  { intros [= <-] _. subst. exists h. split_and!; try done. }
  intros Hh' _. exists h'. split_and!; try done.
  rewrite !isCurrent_true. simpl. intros (Hr & _ & st' & Hst' & Hep).
  pose proof (gw_open _ _ Hw _ _ Hh' Hr). split_and!; [done..|].
  revert Hst'. rewrite lookup_insert. case_decide as Hd2; [|eauto].
  intros [= <-]. simpl in *.
  destruct (gw_mapped _ _ Hw _ _ (gw_open _ _ Hw _ _ Hh Hrel)) as (st & Hst & _).
  rewrite Hst in Hep. rewrite <- Hd2. eauto.
Qed.

Lemma cache_step_handle_le c o : gens_wf c -> handle_le c (cache_step c o).
Proof.
  intros Hw. destruct o as [| |path| |g|path|nss|]; simpl.
  - apply same_gens_handle_le, getParameter_gens.
  - apply same_gens_handle_le, setParameter_gens.
  - by apply begin_handle_le.
  - destruct (cacheIf_cases c now1 now2 g v l val) as [->|(h & _ & _ & ->)]; [apply handle_le_refl|].
    apply same_gens_handle_le, setParameter_gens.
  - by apply end_handle_le.
  - eapply handle_le_trans; [|apply same_gens_handle_le, invalidateParameter_gens].
    unfold invalidateGeneration. destruct (map_get _ _); [|apply handle_le_refl].
    by apply renew_handle_le.
  - destruct (invalidateNs_cases c nss) as [->|(He & scope & Hs & Hne)]; [apply handle_le_refl|].
    rewrite (invalidateNs_eq _ _ scope) by done. simpl.
    eapply handle_le_trans; [by apply (renew_all_handle_le (in_scope scope))|].
    by apply same_gens_handle_le.
  - rewrite clear_eq. eapply handle_le_trans; [by apply (renew_all_handle_le (fun _ => true))|].
    by apply same_gens_handle_le.
Qed.

Lemma cache_run_handle_le c ops : cache_wf c -> handle_le c (cache_run c ops).
Proof.
  revert c; induction ops as [|o ops IH]; intros c Hw; simpl; [apply handle_le_refl|].
  eapply handle_le_trans; [apply cache_step_handle_le, Hw|]. by apply IH, cache_step_wf.
Qed.

Lemma fenced_run c g ops :
  cache_wf c -> (g < next_ident c)%nat -> fenced c g -> fenced (cache_run c ops) g.
Proof.
  intros Hw Hg Hf h' Hh'. destruct (cache_run_handle_le c ops Hw) as [_ Hle].
  destruct (Hle g h' Hh' Hg) as (h & Hh & _ & _ & _ & Hc).
  destruct (isCurrent _ h') eqn:E; [|done]. rewrite (Hf h Hh) in Hc. naive_solver.
Qed.

(** An object renewed once keeps an epoch no earlier read can have seen. *)
Lemma renew_epoch c loc loc' st n :
  (n <= next_ident c)%nat -> states c !! loc' = Some st ->
  (loc = loc' \/ n <= epoch st)%nat ->
  exists st', states (renew c loc) !! loc' = Some st' /\ (n <= epoch st')%nat.
Proof.
  intros Hn Hst Hor. unfold renew. destruct (states c !! loc) as [st0|] eqn:E; simpl.
  - rewrite lookup_insert. case_decide as Hd; [eexists; split; [done|]; done|].
    destruct Hor; [done|]. eauto.
  - destruct Hor; [congruence|]. eauto.
Qed.

Lemma renew_next c loc : (next_ident c <= next_ident (renew c loc))%nat.
Proof. unfold renew. case_match; simpl; lia. Qed.

Lemma renew_all_epoch P l loc n :
  forall c st, (n <= next_ident c)%nat -> states c !! loc = Some st ->
  ((exists p, (p, loc) ∈ l /\ P p = true) \/ (n <= epoch st)%nat) ->
  exists st', states (renew_all P c l) !! loc = Some st' /\ (n <= epoch st')%nat.
Proof.
  unfold renew_all. induction l as [|[p lo] l IH]; intros c st Hn Hst Hor; simpl.
  { destruct Hor as [(p & Hp & _)|]; [set_solver|]. eauto. }
  destruct (P p) eqn:HP.
  - destruct (decide (lo = loc \/ (n <= epoch st)%nat)) as [Hd|Hd].
    + destruct (renew_epoch c lo loc st n Hn Hst Hd) as (st' & Hst' & He).
      apply (IH _ st'); [pose proof (renew_next c lo); lia|done|by right].
    + assert (exists st', states (renew c lo) !! loc = Some st') as [st' Hst'].
      { unfold renew. case_match; [|eauto]. simpl. rewrite lookup_insert. case_decide; eauto. }
      apply (IH _ st'); [pose proof (renew_next c lo); lia|done|].
      left. destruct Hor as [(q & Hq & HPq)|]; [|tauto]. exists q. split; [|done].
      apply elem_of_cons in Hq as [[= -> ->]|]; [tauto|done].
  - apply (IH c st); [done..|]. destruct Hor as [(q & Hq & HPq)|]; [|by right].
    left. exists q. split; [|done]. apply elem_of_cons in Hq as [[= -> ->]|]; [congruence|done].
Qed.

Lemma renew_all_fenced P c g h :
  gens_wf c -> handles c !! g = Some h -> P (g_path h) = true ->
  fenced (renew_all P c (parameterGenerations c)) g.
Proof.
  intros Hw Hh HP h' Hh'.
  destruct (renew_all_frame P c (parameterGenerations c)) as (_ & _ & _ & _ & Hg & Hhs).
  rewrite Hhs in Hh'. assert (h' = h) as -> by congruence. apply not_true_iff_false. rewrite isCurrent_true, Hg.
  intros (Hr & Hm & st & Hst & He).
  destruct (gw_mapped _ _ Hw _ _ Hm) as (st0 & Hst0 & _).
  destruct (renew_all_epoch P (parameterGenerations c) (g_state h) (next_ident c) c st0)
    as (st' & Hst' & Hle); [done|done| |].
  { left. exists (g_path h). split; [|done]. by apply map_get_Some_elem. }
  simplify_eq. apply (gw_fresh_handles _ _ Hw) in Hh. lia.
Qed.

Lemma renew_fenced c g h :
  gens_wf c -> handles c !! g = Some h -> fenced (invalidateGeneration c (g_path h)) g.
Proof.
  intros Hw Hh. unfold invalidateGeneration.
  destruct (map_get _ _) as [loc|] eqn:Hm.
  - intros h' Hh'. destruct (renew_frame c loc) as (_ & _ & _ & _ & Hg & Hhs).
    rewrite Hhs in Hh'. assert (h' = h) as -> by congruence. apply not_true_iff_false. rewrite isCurrent_true, Hg.
    intros (Hr & Hm' & st & Hst & He). rewrite Hm in Hm'. simplify_eq.
    destruct (gw_mapped _ _ Hw _ _ Hm) as (st0 & Hst0 & _).
    destruct (renew_epoch c (g_state h) (g_state h) st0 (next_ident c))
      as (st' & Hst' & Hle); [done|done|by left|].
    simplify_eq. apply (gw_fresh_handles _ _ Hw) in Hh. lia.
  - intros h' Hh'. assert (h' = h) as -> by congruence.
    apply not_true_iff_false. rewrite isCurrent_true. naive_solver.
Qed.

(** The operation invalidates the cached reads of [path]. *)
Definition invalidates (c : ReadCache) (o : cache_op) (path : jstr) : Prop :=
  match o with
  | OInvalidate p => p = path
  | OClear => True
  | OInvalidateNs nss =>
      enabled c = true /\ exists scope, namespace_scope nss = Ok scope /\ in_scope scope path = true
  | _ => False
  end.

Lemma invalidates_fenced c o g h :
  gens_wf c -> handles c !! g = Some h -> invalidates c o (g_path h) -> fenced (cache_step c o) g.
Proof.
  intros Hw Hh. destruct o as [| |path| |g'|path|nss|]; simpl; try done.
  - intros ->. pose proof (renew_fenced c g h Hw Hh) as Hf.
    destruct (invalidateParameter_gens c (g_path h)) as (E1 & E2 & E3 & _).
    intros h'. rewrite E3. intros Hh'. specialize (Hf h' Hh').
    revert Hf. unfold isCurrent. by rewrite E1, E2.
  - intros (He & scope & Hs & Hi).
    assert (scope <> []) by (intros ->; unfold in_scope in Hi; case_match; bool_prop; set_solver).
    rewrite (invalidateNs_eq _ _ scope) by done. simpl.
    by apply (renew_all_fenced (in_scope scope) c g h).
  - intros _. rewrite clear_eq. by apply (renew_all_fenced (fun _ => true) c g h).
Qed.

(** ** Refinement of an unbounded cache *)

(** The abstract cache: every write that was not invalidated since, and the
    reads in flight that no invalidation of their path has raced. It has no
    bound, no eviction, no generations and no identities. *)
Record cache_spec := {
  sp_entries : gmap (jstr * jstr) CacheEntry;
  sp_reads : gmap ident jstr
}.

Definition sp_put (s : cache_spec) (path : jstr) (sel : VersionRef) (e : CacheEntry) : cache_spec :=
  match selectorKey sel with
  | Ok k => {| sp_entries := <[(path, k) := e]> (sp_entries s); sp_reads := sp_reads s |}
  | Throw _ => s
  end.

Definition sp_invalidate (s : cache_spec) (P : jstr -> bool) : cache_spec :=
  {| sp_entries := filter (fun x => P x.1.1 = false) (sp_entries s);
     sp_reads := filter (fun x => P x.2 = false) (sp_reads s) |}.

(** [on] and [ttl] are the cache's configuration, [g] the identity the next
    read gets. *)
Definition spec_step (on : bool) (ttl : Z) (g : option ident) (s : cache_spec) (o : cache_op)
  : cache_spec :=
  match o with
  | OGet _ _ _ => s
  | OSet now _ path v sel =>
      if on then sp_put s path sel {| value := v; expiresAt := now + ttl |} else s
  | OBegin path =>
      match g with
      | Some g => {| sp_entries := sp_entries s; sp_reads := <[g := path]> (sp_reads s) |}
      | None => s
      end
  | OCacheIf now _ g v l val =>
      match sp_reads s !! g with
      | Some path =>
          if on then sp_put s path (positionalSelector v l) {| value := val; expiresAt := now + ttl |}
          else s
      | None => s
      end
  | OEnd None => s
  | OEnd (Some g) => {| sp_entries := sp_entries s; sp_reads := delete g (sp_reads s) |}
  | OInvalidate path => sp_invalidate s (fun p => bool_decide (p = path))
  | OInvalidateNs nss =>
      if on then match namespace_scope nss with
                 | Ok scope => sp_invalidate s (in_scope scope)
                 | Throw _ => s
                 end
      else s
  | OClear => sp_invalidate s (fun _ => true)
  end.

Definition begin_ident (c : ReadCache) (o : cache_op) : option ident :=
  match o with OBegin path => (beginParameterRead c path).2 | _ => None end.

(** Both caches side by side. *)
Definition pair_step (cs : ReadCache * cache_spec) (o : cache_op) : ReadCache * cache_spec :=
  (cache_step cs.1 o, spec_step (enabled cs.1) (ttlMs cs.1) (begin_ident cs.1 o) cs.2 o).
Definition pair_run (cs : ReadCache * cache_spec) (ops : list cache_op) := foldl pair_step cs ops.

(** The simulation relation: what is retained is what the abstract cache
    holds, and a read may fill the cache exactly when the abstract cache
    still lists it. *)
Definition refines (c : ReadCache) (s : cache_spec) : Prop :=
  (forall path k e, cache_lookup (parameters c) path k = Some e -> sp_entries s !! (path, k) = Some e) /\
  (forall g path, sp_reads s !! g = Some path <->
     exists h, handles c !! g = Some h /\ g_path h = path /\ isCurrent c h = true).

Lemma isCurrent_wf c g h :
  gens_wf c -> handles c !! g = Some h ->
  isCurrent c h = true <->
  g_released h = false /\ exists st, states c !! g_state h = Some st /\ epoch st = g_epoch h.
Proof.
  intros Hw Hh. rewrite isCurrent_true. split; [tauto|]. intros [Hr Hst].
  split_and!; [done| |done]. by apply (gw_open _ _ Hw g).
Qed.

Lemma cache_lookup_delete m p path k e :
  entries_wf m -> cache_lookup (map_delete p m) path k = Some e ->
  cache_lookup m path k = Some e /\ path <> p.
Proof.
  intros [Hw _]. unfold cache_lookup. rewrite map_get_delete by done. case_decide; [done|]. eauto.
Qed.

Lemma getParameter_lookup c now p sel path k e :
  params_wf c -> cache_lookup (parameters (getParameter c now p sel).1) path k = Some e ->
  cache_lookup (parameters c) path k = Some e.
Proof.
  intros [Hw _ _ _]. unfold getParameter. destruct (enabled c); [|done]. simpl.
  destruct (map_get p (parameters c)) as [es|] eqn:Hp; [|done].
  destruct (selectorKey sel) as [k0|]; [|done].
  destruct (map_get k0 es) as [en|] eqn:Hk; [|done]. destruct (now <? _); [done|]. simpl.
  case_decide; [intros H1; by apply cache_lookup_delete in H1 as [? _]|].
  unfold cache_lookup. rewrite map_get_set. destruct (decide (p = path)) as [->|]; [|done].
  rewrite Hp. simpl. assert (map_wf es) by (by eapply entries_wf_get).
  rewrite map_get_delete by done. by case_decide.
Qed.

Lemma cache_evict_lookup c now path k e :
  entries_wf (parameters c) -> cache_lookup (parameters (cache_evict c now)) path k = Some e ->
  cache_lookup (parameters c) path k = Some e.
Proof.
  intros Hw. unfold cache_evict. case_match; [done|].
  set (m := purge_expired now (parameters c)). set (n := parameterCount c - _).
  pose proof (evict_loop_lookup (evict_fuel m) (maxEntries c) m n path k e) as Hl.
  destruct (evict_loop _ _ _ _) as [m' n']. simpl in *. intros Hg.
  apply Hl in Hg; [|by apply purge_expired_wf]. unfold m in Hg.
  rewrite purge_expired_lookup in Hg by done. by repeat case_match; simplify_eq.
Qed.

Lemma setParameter_lookup c now1 now2 p v sel path k e :
  params_wf c -> cache_lookup (parameters (setParameter c now1 now2 p v sel).1) path k = Some e ->
  (enabled c = true /\ path = p /\ selectorKey sel = Ok k /\
     e = {| value := v; expiresAt := now1 + ttlMs c |}) \/
  (cache_lookup (parameters c) path k = Some e /\
     ~ (enabled c = true /\ path = p /\ selectorKey sel = Ok k)).
Proof.
  intros Hw. unfold setParameter. pose proof (cache_set_inv c now1 p sel v Hw) as (Hwf & _).
  destruct (enabled c) eqn:He.
  - destruct (selectorKey sel) as [k0|er] eqn:Hk.
    + rewrite (cache_set_Ok _ _ _ _ _ k0) in * by done. simpl in *.
      intros Hg%cache_evict_lookup; [|done]. simpl in Hg. unfold cache_lookup in Hg.
      rewrite map_get_set in Hg. destruct (decide (p = path)) as [->|Hne].
      * simpl in Hg. rewrite refreshed_get in Hg by apply inner_wf, Hw. case_decide as Hd.
        { left. simplify_eq. done. }
        right. split; [|naive_solver]. unfold cache_lookup.
        by destruct (map_get path (parameters c)).
      * right. split; [|naive_solver].
        by rewrite <- (ensured_lookup p (parameters c)).
    + rewrite (cache_set_Throw _ _ _ _ _ er) in * by done. simpl.
      rewrite ensured_lookup. right. naive_solver.
  - rewrite cache_set_disabled by done. simpl. intros Hg%cache_evict_lookup; [|apply Hw].
    right. naive_solver.
Qed.

(** The reads half of the relation. *)
Definition reads_refine (c : ReadCache) (rs : gmap ident jstr) : Prop :=
  forall g path, rs !! g = Some path <->
    exists h, handles c !! g = Some h /\ g_path h = path /\ isCurrent c h = true.
Definition entries_refine (c : ReadCache) (es : gmap (jstr * jstr) CacheEntry) : Prop :=
  forall path k e, cache_lookup (parameters c) path k = Some e -> es !! (path, k) = Some e.

Lemma same_gens_reads c c' rs : same_gens c c' -> reads_refine c rs -> reads_refine c' rs.
Proof.
  intros (E1 & E2 & E3 & _) Hr g path. rewrite (Hr g path), E3.
  unfold isCurrent. by rewrite E1, E2.
Qed.

Lemma renew_all_other P l loc :
  forall c, (forall p, (p, loc) ∈ l -> P p = false) ->
  states (renew_all P c l) !! loc = states c !! loc.
Proof.
  unfold renew_all. induction l as [|[p lo] l IH]; intros c Hn; simpl; [done|].
  rewrite IH by set_solver. destruct (P p) eqn:HP; [|done].
  unfold renew. case_match; [|done]. simpl. apply lookup_insert_ne.
  intros ->. specialize (Hn p). rewrite HP in Hn. set_solver.
Qed.

Lemma renew_all_reads P c rs :
  gens_wf c -> reads_refine c rs ->
  reads_refine (renew_all P c (parameterGenerations c)) (filter (fun x => P x.2 = false) rs).
Proof.
  intros Hw Hr g path.
  destruct (renew_all_frame P c (parameterGenerations c)) as (_ & _ & _ & _ & Hg & Hhs).
  pose proof (renew_all_gens_wf P c (parameterGenerations c) Hw) as Hw'.
  rewrite map_lookup_filter_Some, (Hr g path), Hhs. simpl. split.
  - intros [(h & Hh & Hp & Hc) HP]. exists h. split_and!; [done..|].
    rewrite (isCurrent_wf _ g) by (rewrite ?Hhs; done).
    apply isCurrent_true in Hc as (Hrel & Hm & st & Hst & He). split; [done|]. exists st.
    split; [|done]. rewrite renew_all_other; [done|]. intros p Hin.
    apply map_get_Some in Hin; [|apply Hw]. rewrite (gw_inj _ _ Hw p (g_path h) (g_state h)) by done.
    congruence.
  - intros (h & Hh & Hp & Hc). destruct (P path) eqn:HP.
    + exfalso. subst path. pose proof (renew_all_fenced P c g h Hw Hh HP) as Hf.
      rewrite (Hf h) in Hc; [done|]. by rewrite Hhs.
    + split; [|done]. exists h. split_and!; [done..|].
      destruct (renew_all_handle_le P c (parameterGenerations c) Hw) as [_ Hle].
      destruct (Hle g h) as (h0 & Hh0 & _ & _ & _ & Hi); [by rewrite Hhs| |].
      { apply (gw_fresh_handles _ _ Hw) in Hh. lia. }
      assert (h0 = h) as -> by congruence. auto.
Qed.

Lemma invalidateGeneration_reads c path rs :
  gens_wf c -> reads_refine c rs ->
  reads_refine (invalidateGeneration c path) (filter (fun x => bool_decide (x.2 = path) = false) rs).
Proof.
  intros Hw Hr. destruct (map_get path (parameterGenerations c)) as [loc|] eqn:Hm.
  - assert (invalidateGeneration c path = renew_all (fun p => bool_decide (p = path)) c
              [(path, loc)]) as Heq.
    { unfold invalidateGeneration, renew_all. rewrite Hm. simpl. by rewrite bool_decide_eq_true_2. }
    rewrite Heq. intros g p.
    destruct (renew_all_frame (fun p => bool_decide (p = path)) c [(path, loc)])
      as (_ & _ & _ & _ & Hg & Hhs).
    rewrite map_lookup_filter_Some, (Hr g p), Hhs, bool_decide_eq_false. cbn [fst snd]. split.
    + intros [(h & Hh & Hp & Hc) HP]. exists h. split_and!; [done..|].
      rewrite (isCurrent_wf _ g); [|by apply renew_all_gens_wf|by rewrite Hhs].
      apply isCurrent_true in Hc as (Hrel & Hmh & st & Hst & He). split; [done|]. exists st.
      split; [|done]. rewrite renew_all_other; [done|]. intros q Hin%list_elem_of_singleton.
      simplify_eq. contradict HP. by rewrite (gw_inj _ _ Hw path (g_path h) (g_state h)).
    + intros (h & Hh & Hp & Hc). split.
      * exists h. split_and!; [done..|].
        destruct (renew_all_handle_le (fun p => bool_decide (p = path)) c [(path, loc)] Hw) as [_ Hle].
        destruct (Hle g h) as (h0 & Hh0 & _ & _ & _ & Hi); [by rewrite Hhs| |].
        { apply (gw_fresh_handles _ _ Hw) in Hh. lia. }
        assert (h0 = h) as -> by congruence. auto.
      * intros ->. subst path. pose proof (renew_fenced c g h Hw Hh) as Hf. rewrite Heq in Hf.
        rewrite (Hf h) in Hc; [done|]. by rewrite Hhs.
  - unfold invalidateGeneration. rewrite Hm. intros g p.
    rewrite map_lookup_filter_Some, (Hr g p), bool_decide_eq_false. simpl. split; [tauto|].
    intros (h & Hh & Hp & Hc). split; [eauto|]. intros ->. subst.
    apply isCurrent_true in Hc as (_ & Hm' & _). congruence.
Qed.

Lemma add_reader_reads c path loc st rs :
  gens_wf (add_reader c path loc st) -> states c !! loc = Some st ->
  (forall g h, handles c !! g = Some h -> (g < next_ident c)%nat) ->
  reads_refine c rs -> reads_refine (add_reader c path loc st) (<[next_ident c := path]> rs).
Proof.
  intros Hw' Hst Hlt Hr g p. simpl. rewrite !lookup_insert. case_decide as Hd.
  - split.
    + intros [= <-]. eexists. split_and!; [done..|].
      rewrite (isCurrent_wf _ g) by (done || (simpl; by rewrite lookup_insert, decide_True)).
      simpl. split; [done|]. rewrite lookup_insert_eq. by eexists.
    + intros (h & [= <-] & Hp & _). simpl in Hp. congruence.
  - rewrite (Hr g p). split; intros (h & Hh & Hp & Hc); exists h; split_and!; try done.
    + rewrite (isCurrent_wf _ g) by (done || (simpl; by rewrite lookup_insert_ne)).
      apply isCurrent_true in Hc as (Hrel & _ & st' & Hst' & He). split; [done|]. simpl.
      rewrite lookup_insert. case_decide as Hl; [|eauto]. eexists. split; [done|]. simpl. congruence.
    + apply isCurrent_true in Hc as (Hrel & Hm & st' & Hst' & He). simpl in *.
      apply isCurrent_true. split_and!; [done..|]. revert Hst'. rewrite lookup_insert.
      case_decide as Hl; [|eauto]. intros [= <-]. simpl in He. subst. eauto.
Qed.

Lemma new_state_reads c path rs :
  gens_wf c -> map_get path (parameterGenerations c) = None ->
  reads_refine c rs -> reads_refine (new_state c path) rs.
Proof.
  intros Hw Hn Hr g p. rewrite (Hr g p). simpl.
  split; intros (h & Hh & Hp & Hc); exists h; split_and!; try done;
    apply isCurrent_true in Hc as (Hrel & Hm & st & Hst & He); apply isCurrent_true;
    pose proof (gw_open _ _ Hw _ _ Hh Hrel) as Hmo;
    pose proof (gw_fresh_handles _ _ Hw _ _ Hh) as (Hf1 & Hf2 & Hf3); simpl in *.
  - rewrite map_get_set, decide_False by congruence. rewrite lookup_insert_ne by lia. eauto.
  - rewrite lookup_insert_ne in Hst by lia. eauto.
Qed.

Lemma begin_reads c path rs :
  gens_wf c -> reads_refine c rs ->
  reads_refine (beginParameterRead c path).1
    (match (beginParameterRead c path).2 with Some g => <[g := path]> rs | None => rs end).
Proof.
  intros Hw Hr. pose proof (beginParameterRead_wf c path Hw) as Hw'.
  destruct (enabled c) eqn:He; [|by rewrite begin_disabled].
  destruct (map_get path (parameterGenerations c)) as [loc|] eqn:Hg.
  - destruct (gw_mapped _ _ Hw _ _ Hg) as (st & Hst & _).
    rewrite (begin_existing _ _ loc st) in * by done. simpl in *.
    apply add_reader_reads; try done. intros g h Hh. apply (gw_fresh_handles _ _ Hw) in Hh. lia.
  - rewrite begin_new in * by done. simpl in *. apply add_reader_reads; try done.
    + apply lookup_insert_eq.
    + intros g h Hh. simpl in *. apply (gw_fresh_handles _ _ Hw) in Hh. lia.
    + by apply new_state_reads.
Qed.

Lemma end_reads c g rs :
  gens_wf c -> reads_refine c rs -> reads_refine (endRead c (Some g)) (delete g rs).
Proof.
  intros Hw Hr. pose proof (endRead_wf c (Some g) Hw) as Hw'.
  pose proof (end_handle_le c (Some g) Hw) as [_ Hle].
  assert (forall h, handles (endRead c (Some g)) !! g = Some h -> g_released h = true) as Hrel.
  { intros h. unfold endRead. destruct (handles c !! g) as [h0|] eqn:E; [|congruence].
    destruct (g_released h0) eqn:E2; simpl; [congruence|]. rewrite lookup_insert_eq. by intros [= <-]. }
  assert (forall g', g' <> g -> handles (endRead c (Some g)) !! g' = handles c !! g') as Hoth.
  { intros g' Hne. unfold endRead. repeat case_match; simpl; rewrite ?lookup_insert_ne; done. }
  intros g' p. rewrite lookup_delete. case_decide as Hd.
  { subst g'. split; [done|]. intros (h & Hh & _ & Hc). apply isCurrent_true in Hc as [Hf _].
    rewrite (Hrel h Hh) in Hf. done. }
  rewrite (Hr g' p), Hoth by done. split; intros (h & Hh & Hp & Hc); exists h; split_and!; try done.
  - rewrite (isCurrent_wf _ g') by (done || by rewrite Hoth).
    apply isCurrent_true in Hc as (Hrl & _ & st & Hst & He). split; [done|].
    unfold endRead. destruct (handles c !! g) as [h0|]; [|eauto].
    destruct (g_released h0); [eauto|]. cbn.
    rewrite lookup_insert. case_decide as Hl; [|eauto]. eexists. split; [done|]. simpl.
    by rewrite Hl, Hst.
  - destruct (Hle g' h) as (h0 & Hh0 & _ & _ & _ & Hi); [by rewrite Hoth| |].
    { apply (gw_fresh_handles _ _ Hw) in Hh. lia. }
    assert (h0 = h) as -> by congruence. auto.
Qed.

(** *** The simulation *)

Lemma in_scope_nil path : in_scope [] path = false.
Proof.
  unfold in_scope. destruct (refOf path); [|done]. apply bool_decide_eq_false_2. set_solver.
Qed.

Lemma set_refines_entries c now1 now2 path v sel s :
  params_wf c -> entries_refine c (sp_entries s) ->
  entries_refine (setParameter c now1 now2 path v sel).1
    (sp_entries (if enabled c then sp_put s path sel {| value := v; expiresAt := now1 + ttlMs c |} else s)).
Proof.
  intros Hw He p k e Hg. apply setParameter_lookup in Hg as [(Hen & -> & Hk & ->)|[Hg Hn]]; [|..|done].
  - rewrite Hen. unfold sp_put. rewrite Hk. apply lookup_insert_eq.
  - apply He in Hg. destruct (enabled c); [|done]. unfold sp_put.
    destruct (selectorKey sel) as [k0|]; [|done]. simpl. rewrite lookup_insert_ne; [done|].
    intros [= -> ->]. by apply Hn.
Qed.

Lemma filter_refines_entries (P : jstr -> bool) (m : EntryMap) (es : gmap (jstr * jstr) CacheEntry) :
  map_wf m ->
  (forall path k e, cache_lookup m path k = Some e -> es !! (path, k) = Some e) ->
  forall path k e, cache_lookup (filter (fun p => P p.1 = false) m) path k = Some e ->
    filter (fun x : jstr * jstr * CacheEntry => P x.1.1 = false) es !! (path, k) = Some e.
Proof.
  intros Hw He path k e. unfold cache_lookup. rewrite map_filter_get by done. intros Hg.
  destruct (map_get path m) as [en|] eqn:E; [|done].
  case_decide as Hd; [|done]. apply map_lookup_filter_Some. split; [|done].
  apply He. unfold cache_lookup. by rewrite E.
Qed.

Lemma delete_refines_entries (path : jstr) (m : EntryMap) (es : gmap (jstr * jstr) CacheEntry) :
  entries_wf m ->
  (forall p k e, cache_lookup m p k = Some e -> es !! (p, k) = Some e) ->
  forall p k e, cache_lookup (map_delete path m) p k = Some e ->
    filter (fun x : jstr * jstr * CacheEntry => bool_decide (x.1.1 = path) = false) es !! (p, k) = Some e.
Proof.
  intros Hw He p k e [Hg Hne]%cache_lookup_delete; [|done].
  apply map_lookup_filter_Some. split; [by apply He|]. by apply bool_decide_eq_false_2.
Qed.

Lemma step_refines_entries c s o :
  cache_wf c -> refines c s ->
  entries_refine (cache_step c o) (sp_entries (pair_step (c, s) o).2).
Proof.
  intros [Hw Hg] [He Hr]. destruct o as [| |path| |g|path|nss|]; simpl.
  - intros p k e Hl. apply He. by eapply getParameter_lookup.
  - by apply set_refines_entries.
  - destruct (beginParameterRead_frame c path) as (_ & _ & Hp & _). unfold entries_refine.
    rewrite Hp. by destruct (beginParameterRead c path).2.
  - unfold cacheParameterIfUnchanged, putParam. destruct (handles c !! g) as [h|] eqn:Hh.
    + destruct (isCurrent c h) eqn:Hc; simpl.
      * assert (sp_reads s !! g = Some (g_path h)) as -> by (apply Hr; eauto).
        pose proof (set_refines_entries c now1 now2 (g_path h) val (positionalSelector v l) s Hw He).
        by destruct (setParameter _ _ _ _ _ _) as [? []].
      * destruct (sp_reads s !! g) as [p|] eqn:Hs; [|done].
        apply Hr in Hs as (h' & Hh' & _ & Hc'). congruence.
    + simpl. destruct (sp_reads s !! g) as [p|] eqn:Hs; [|done].
      apply Hr in Hs as (h' & Hh' & _ & Hc'). congruence.
  - destruct (endRead_frame c g) as (_ & _ & Hp & _). unfold entries_refine. rewrite Hp. by destruct g.
  - destruct (invalidateGeneration_frame c path) as (_ & _ & Hp & _).
    unfold entries_refine, invalidateParameter. rewrite Hp.
    destruct (map_get path (parameters c)) as [es|] eqn:E; simpl.
    + rewrite ?Hp. apply delete_refines_entries; [apply Hw|done].
    + rewrite ?Hp. intros p k e Hl. apply map_lookup_filter_Some. split; [by apply He|].
      apply bool_decide_eq_false_2. simpl. intros ->. unfold cache_lookup in Hl. by rewrite E in Hl.
  - destruct (invalidateNs_cases c nss) as [Hid|(Hen & scope & Hs & Hne)].
    + rewrite Hid. destruct (enabled c) eqn:Hen; [|done].
      destruct (namespace_scope nss) as [[|x scope]|] eqn:Hs; [| |done].
      * intros p k e Hl. apply map_lookup_filter_Some. split; [by apply He|].
        apply in_scope_nil.
      * revert Hid. rewrite (invalidateNs_eq _ _ (x :: scope)) by done. simpl. intros Hid.
        destruct (renew_all_frame (in_scope (x :: scope)) c (parameterGenerations c)) as (_ & _ & Hp & _).
        rewrite <- Hid at 1. unfold entries_refine. simpl. rewrite Hp.
        apply filter_refines_entries; [apply Hw|done].
    + rewrite (invalidateNs_eq _ _ scope) by done. rewrite Hen, Hs. simpl.
      destruct (renew_all_frame (in_scope scope) c (parameterGenerations c)) as (_ & _ & Hp & _).
      unfold entries_refine. simpl. rewrite Hp. apply filter_refines_entries; [apply Hw|done].
  - rewrite clear_eq. intros p k e. simpl. done.
Qed.

Lemma step_refines_reads c s o :
  cache_wf c -> refines c s -> reads_refine (cache_step c o) (sp_reads (pair_step (c, s) o).2).
Proof.
  intros [Hw Hg] [He Hr]. fold (reads_refine c (sp_reads s)) in Hr.
  assert (forall b p sel e, sp_reads (if b : bool then sp_put s p sel e else s) = sp_reads s) as Hput.
  { intros [] p sel e; [|done]. unfold sp_put. by destruct (selectorKey sel). }
  destruct o as [| |path| |g|path|nss|]; simpl.
  - eapply same_gens_reads; [apply getParameter_gens|done].
  - rewrite Hput. eapply same_gens_reads; [apply setParameter_gens|done].
  - pose proof (begin_reads c path _ Hg Hr) as Hb. by destruct (beginParameterRead c path).2.
  - assert (sp_reads (match sp_reads s !! g with
       | Some path => if enabled c then sp_put s path (positionalSelector v l)
            {| value := val; expiresAt := now1 + ttlMs c |} else s
       | None => s end) = sp_reads s) as -> by (destruct (sp_reads s !! g); [apply Hput|done]).
    destruct (cacheIf_cases c now1 now2 g v l val) as [->|(h & _ & _ & ->)]; [done|].
    eapply same_gens_reads; [apply setParameter_gens|done].
  - destruct g as [g|]; [by apply end_reads|done].
  - eapply same_gens_reads; [apply invalidateParameter_gens|]. by apply invalidateGeneration_reads.
  - destruct (enabled c) eqn:Hen.
    + destruct (namespace_scope nss) as [[|x scope]|e] eqn:Hs.
      * rewrite invalidateNs_noop by tauto. intros g p. cbn [sp_reads sp_invalidate]. rewrite map_lookup_filter_Some, (Hr g p).
        simpl. split; [tauto|]. intros H. split; [done|].
        apply in_scope_nil.
      * rewrite (invalidateNs_eq _ _ (x :: scope)) by done. simpl.
        eapply same_gens_reads; [|by apply (renew_all_reads (in_scope (x :: scope)))]. done.
      * rewrite invalidateNs_noop by eauto. done.
    + by rewrite invalidateNs_noop by eauto.
  - rewrite clear_eq. eapply same_gens_reads; [|by apply (renew_all_reads (fun _ => true))]. done.
Qed.

Lemma pair_run_refines c s ops :
  cache_wf c -> refines c s ->
  cache_wf (pair_run (c, s) ops).1 /\ refines (pair_run (c, s) ops).1 (pair_run (c, s) ops).2.
Proof.
  revert c s; induction ops as [|o ops IH]; intros c s Hw Hr; simpl; [done|].
  apply IH; [by apply cache_step_wf|].
  split; [by apply step_refines_entries|by apply step_refines_reads].
Qed.

Lemma pair_run_fst c s ops : (pair_run (c, s) ops).1 = cache_run c ops.
Proof.
  revert c s; induction ops as [|o ops IH]; intros c s; [done|].
  unfold pair_run. simpl. apply (IH (cache_step c o)).
Qed.

