(* ===== verification/CacheSpec.v ===== *)
(** * CacheSpec: what [ReadCache] guarantees to the client.

    The invariant of every run, the fence between a read and an invalidation,
    the refinement of the abstract cache, and that a write is readable. *)
From stdpp Require Import prelude gmap strings.
From Stdlib Require Import ZArith Lia.
From S2P Require Import Prelude JsString JsMap Unicode Decimal Errors Refs Cache CacheProofs.

(** ** No empty inner map

    Only a selector that throws leaves one behind; a run whose writes carry
    valid selectors keeps every inner map populated, which is what makes the
    oldest entry of the first inner map the right victim of an eviction. *)

Definition populated (m : EntryMap) : Prop := Forall (fun p => p.2 <> []) m.

Definition valid_selectors (o : cache_op) : bool :=
  match o with
  | OSet _ _ _ _ sel => is_ok (selectorKey sel)
  | OCacheIf _ _ _ v l _ => is_ok (selectorKey (positionalSelector v l))
  | _ => true
  end.

Lemma populated_sublist m m' : m' `sublist_of` m -> populated m -> populated m'.
Proof. unfold populated. rewrite !Forall_forall. intros Hs H x Hx. eapply H, elem_of_sublist; eauto. Qed.

Lemma populated_set m path es : populated m -> es <> [] -> populated (map_set path es m).
Proof.
  unfold populated. rewrite !Forall_forall. intros H He [p x] [[-> ->]|Hin]%map_set_elem; [done|].
  by apply (H (p, x)).
Qed.

Lemma map_set_nonempty {V} k (v : V) (m : list (jstr * V)) : map_set k v m <> [].
Proof. destruct m as [|[k0 v0] m]; csimpl; [done|]. by case_decide. Qed.

(** Writing over the placeholder [#set] creates is writing directly. *)
Lemma map_set_ensured path es m : map_set path es (ensured path m) = map_set path es m.
Proof.
  unfold ensured. destruct (map_get path m) eqn:E; [done|]. revert E.
  induction m as [|[p x] m IH]; csimpl; intros E; [by rewrite decide_True|].
  destruct (decide (p = path)) as [->|Hne]; [done|]. csimpl. rewrite decide_False by done.
  by rewrite IH.
Qed.

Lemma purge_expired_populated now m : populated (purge_expired now m).
Proof.
  induction m as [|[p es] m IH]; csimpl; [constructor|]. case_decide; [done|]. by constructor.
Qed.

Lemma evict_loop_populated fuel max m n : populated m -> populated (evict_loop fuel max m n).1.
Proof.
  revert m n; induction fuel as [|fuel IH]; intros m n Hm; simpl; [done|].
  destruct (max <? n); [|done]. destruct Hm as [|[p es] m He Hm]; [constructor|].
  destruct es as [|e es]; [done|]. apply IH. case_decide; [done|]. by constructor.
Qed.

Lemma cache_evict_populated c now : populated (parameters c) -> populated (parameters (cache_evict c now)).
Proof.
  intros H. unfold cache_evict. destruct (_ <=? _); [done|].
  pose proof (evict_loop_populated (evict_fuel (purge_expired now (parameters c))) (maxEntries c) _
    (parameterCount c - (Z.of_nat (entry_total (parameters c)) -
       Z.of_nat (entry_total (purge_expired now (parameters c)))))
    (purge_expired_populated now (parameters c))).
  by destruct (evict_loop _ _ _ _).
Qed.

Lemma setParameter_populated c now1 now2 path v sel :
  is_ok (selectorKey sel) = true ->
  populated (parameters c) -> populated (parameters (setParameter c now1 now2 path v sel).1).
Proof.
  intros Hs H. unfold setParameter. destruct (selectorKey sel) as [k|] eqn:Hk; [|done].
  destruct (enabled c) eqn:He.
  - rewrite (cache_set_Ok _ _ _ _ _ k) by done. simpl. apply cache_evict_populated. simpl.
    rewrite map_set_ensured. apply populated_set; [done|]. apply map_set_nonempty.
  - rewrite cache_set_disabled by done. simpl. by apply cache_evict_populated.
Qed.

Lemma getParameter_populated c now path sel :
  populated (parameters c) -> populated (parameters (getParameter c now path sel).1).
Proof.
  intros H. unfold getParameter. break_match; try done.
  - eapply populated_sublist; [apply map_delete_sublist|done].
  - by apply populated_set.
Qed.

Lemma invalidate_populated c o :
  match o with OInvalidate _ | OInvalidateNs _ | OClear | OBegin _ | OEnd _ => True | _ => False end ->
  populated (parameters c) -> populated (parameters (cache_step c o)).
Proof.
  intros Ho H. destruct o as [| |path| |g|path|nss|]; try done; simpl.
  - destruct (beginParameterRead_frame c path) as (_ & _ & -> & _). done.
  - destruct (endRead_frame c g) as (_ & _ & -> & _). done.
  - unfold invalidateParameter. destruct (invalidateGeneration_frame c path) as (_ & _ & Hp & _).
    destruct (map_get _ _); simpl; rewrite Hp; [|done].
    eapply populated_sublist; [apply map_delete_sublist|done].
  - destruct (invalidateNs_cases c nss) as [->|(He & scope & Hs & Hne)]; [done|].
    rewrite (invalidateNs_eq _ _ scope) by done. simpl.
    destruct (renew_all_frame (in_scope scope) c (parameterGenerations c)) as (_ & _ & -> & _).
    eapply populated_sublist; [apply sublist_filter|done].
  - constructor.
Qed.

Lemma cache_run_populated c ops :
  forallb valid_selectors ops = true -> populated (parameters c) ->
  populated (parameters (cache_run c ops)).
Proof.
  revert c; induction ops as [|o ops IH]; intros c Hv Hp; simpl in *; [done|].
  apply andb_prop in Hv as [Ho Hv]. apply IH; [done|].
  destruct o as [| |path|now1 now2 g v l val|g|path|nss|]; try (by apply invalidate_populated).
  - by apply getParameter_populated.
  - by apply setParameter_populated.
  - simpl. destruct (cacheIf_cases c now1 now2 g v l val) as [->|(h & _ & _ & ->)]; [done|].
    by apply setParameter_populated.
Qed.

(** ** A write survives its own eviction *)

Lemma filter_all {A} (P : A -> Prop) `{!forall x, Decision (P x)} (l : list A) :
  (length l <= length (filter P l))%nat -> filter P l = l.
Proof.
  induction l as [|x l IH]; [done|]. rewrite filter_cons. pose proof (length_filter P l).
  case_decide; simpl; intros; [f_equal; apply IH|]; lia.
Qed.

(** A purge that removes no entry changes nothing. *)
Lemma purge_expired_id now m :
  populated m -> (entry_total m <= entry_total (purge_expired now m))%nat -> purge_expired now m = m.
Proof.
  induction 1 as [|[p es] m He Hm IH]; csimpl; [done|]. unfold entry_total in *. simpl in *.
  pose proof (length_filter (live now) es). pose proof (purge_expired_total now m) as Ht.
  unfold entry_total in Ht. case_decide as Hd.
  - intros. destruct es; [done|]. simpl in *. lia.
  - simpl. intros. rewrite filter_all, IH by lia. done.
Qed.

(** Unless it is the oldest of all, an entry survives the removal of one. *)
Lemma evict_loop_keeps fuel max m n path k e :
  populated m -> n <= max + 1 -> cache_lookup m path k = Some e ->
  (max < n -> forall es m' e', m <> (path, (k, e') :: es) :: m') ->
  cache_lookup (evict_loop fuel max m n).1 path k = Some e.
Proof.
  intros Hm Hn Hl Hh. destruct fuel as [|fuel]; simpl; [done|].
  destruct (Z.ltb_spec max n) as [Hlt|]; [|done].
  destruct Hm as [|[p es] m He Hm]; [done|]. destruct es as [|[k0 e0] es]; [done|].
  assert (forall m, (evict_loop fuel max m (n - 1)).1 = m) as ->.
  { intros m1. destruct fuel; simpl; [done|]. destruct (Z.ltb_spec max (n - 1)); [lia|done]. }
  specialize (Hh Hlt). revert Hl. unfold cache_lookup. csimpl.
  destruct (decide (p = path)) as [->|Hp].
  - simpl. rewrite decide_False by (intros ->; by eapply Hh). intros Hl.
    destruct (decide (es = [])) as [->|]; [done|]. csimpl. by rewrite decide_True.
  - intros Hl. case_decide; csimpl; [done|]. by rewrite decide_False.
Qed.

Lemma setParameter_keeps c now1 now2 path v sel k :
  params_wf c -> populated (parameters c) -> enabled c = true ->
  selectorKey sel = Ok k -> now2 < now1 + ttlMs c ->
  cache_lookup (parameters (setParameter c now1 now2 path v sel).1) path k =
    Some {| value := v; expiresAt := now1 + ttlMs c |}.
Proof.
  intros Hw Hp He Hk Hnow. unfold setParameter.
  pose proof (cache_set_inv c now1 path sel v Hw) as (Hwf & Hc & Hm).
  rewrite (cache_set_Ok _ _ _ _ _ k) in * by done. simpl in *. rewrite map_set_ensured in *.
  set (e := {| value := v; expiresAt := now1 + ttlMs c |}) in *.
  set (es := default [] (map_get path (parameters c))) in *.
  set (m := map_set path (refreshed k e es) (parameters c)) in *.
  assert (map_wf es) as Hes by (apply inner_wf, Hw).
  assert (cache_lookup m path k = Some e) as Hl.
  { unfold cache_lookup, m. rewrite map_get_set, decide_True by done. simpl.
    by rewrite refreshed_get, decide_True. }
  unfold cache_evict. cbn [parameterCount maxEntries parameters with_parameters].
  destruct (Z.leb_spec (parameterCount c + if map_has k es then 0 else 1) (maxEntries c)) as [|Hover]; [done|].
  assert (map_has k es = false) as Hk'.
  { destruct (map_has k es); [|done]. destruct Hw. lia. }
  set (n := _ - (_ - _)). assert (n = Z.of_nat (entry_total (purge_expired now2 m))) as Hn by (unfold n; lia).
  pose proof (purge_expired_total now2 m) as Ht.
  pose proof (evict_loop_keeps (evict_fuel (purge_expired now2 m)) (maxEntries c)
    (purge_expired now2 m) n path k e (purge_expired_populated _ _)) as Hkeep.
  destruct (evict_loop _ _ _ _) as [m1 n1]. simpl in *. apply Hkeep.
  - rewrite Hk' in Hc. destruct Hw. lia.
  - rewrite purge_expired_lookup by done. rewrite Hl. by rewrite decide_True.
  - intros Hlt. rewrite Hk' in *.
    assert (populated m) by (apply populated_set; [done|apply map_set_nonempty]).
    rewrite purge_expired_id by (done || (destruct Hw; lia)).
    intros es' m' e' Heq. unfold m in Heq.
    destruct Hp as [|[p0 es0] m0 He0 Hp].
    + destruct Hw as [_ Hcnt _ Hmax]. simpl in *. lia.
    + revert Heq. csimpl. destruct (decide (p0 = path)) as [->|Hne]; [|congruence].
      intros [= Heq _]. unfold es, refreshed in Heq, Hk'. csimpl in *.
      rewrite decide_True in Heq, Hk' by done. simpl in *. rewrite Hk' in Heq.
      destruct es0 as [|[k0 e0] es0]; [done|]. csimpl in *.
      destruct (decide (k0 = k)) as [->|]; [|congruence].
      unfold map_has in Hk'. csimpl in Hk'. by rewrite decide_True in Hk'.
Qed.

Lemma cache_run_ttl c ops : ttlMs (cache_run c ops) = ttlMs c /\ maxEntries (cache_run c ops) = maxEntries c.
Proof.
  revert c; induction ops as [|o ops IH]; intros c; simpl; [done|].
  destruct (IH (cache_step c o)) as [-> ->].
  assert (forall c now1 now2 path v sel, let c' := (setParameter c now1 now2 path v sel).1 in
    ttlMs c' = ttlMs c /\ maxEntries c' = maxEntries c) as Hset.
  { intros c0 now1 now2 path v sel. unfold setParameter. destruct (enabled c0) eqn:He.
    - destruct (selectorKey sel) as [k|e] eqn:Hk.
      + rewrite (cache_set_Ok _ _ _ _ _ k) by done. simpl.
        by destruct (cache_evict_frame (with_parameters c0
          (map_set path (refreshed k {| value := v; expiresAt := now1 + ttlMs c0 |}
             (default [] (map_get path (parameters c0)))) (ensured path (parameters c0)))
          (parameterCount c0 + if map_has k (default [] (map_get path (parameters c0))) then 0 else 1))
          now2) as (-> & -> & _).
      + by rewrite (cache_set_Throw _ _ _ _ _ e) by done.
    - rewrite cache_set_disabled by done. simpl. by destruct (cache_evict_frame c0 now2) as (-> & -> & _). }
  destruct o as [now path sel| |path|now1 now2 g v l val|g|path|nss|]; cbn [cache_step].
  - unfold getParameter. by break_match.
  - apply Hset.
  - by destruct (beginParameterRead_frame c path) as (-> & -> & _).
  - by destruct (cacheIf_cases c now1 now2 g v l val) as [->|(h & _ & _ & ->)].
  - by destruct (endRead_frame c g) as (-> & -> & _).
  - unfold invalidateParameter. destruct (invalidateGeneration_frame c path) as (<- & <- & _).
    by destruct (map_get _ _).
  - destruct (invalidateNs_cases c nss) as [->|(He & scope & Hs & Hne)]; [done|].
    rewrite (invalidateNs_eq _ _ scope) by done. simpl.
    by destruct (renew_all_frame (in_scope scope) c (parameterGenerations c)) as (-> & -> & _).
  - rewrite clear_eq. simpl.
    by destruct (renew_all_frame (fun _ => true) c (parameterGenerations c)) as (-> & -> & _).
Qed.

(** A new cache and the empty abstract cache; a hit is an abstract entry. *)
Lemma refines_new ttl max c : new_ReadCache ttl max = Ok c -> refines c {| sp_entries := ∅; sp_reads := ∅ |}.
Proof.
  unfold new_ReadCache. break_match. intros [= <-]. split; simpl; [done|].
  intros g path. rewrite lookup_empty. split; [done|]. intros (h & Hh & _). by rewrite lookup_empty in Hh.
Qed.

Lemma refined_hit c s now path sel v :
  refines c s -> (getParameter c now path sel).2 = Ok (Some v) ->
  exists k e, selectorKey sel = Ok k /\ sp_entries s !! (path, k) = Some e /\ value e = v /\ now < expiresAt e.
Proof.
  intros [He _]. unfold getParameter. destruct (enabled c); [|done]. simpl.
  destruct (map_get path (parameters c)) as [es|] eqn:Hp; [|done].
  destruct (selectorKey sel) as [k|]; [|done]. destruct (map_get k es) as [e|] eqn:Hk; [|done].
  destruct (Z.ltb_spec now (expiresAt e)); [|done]. intros [= <-]. exists k, e.
  split_and!; try done. apply He. unfold cache_lookup. by rewrite Hp.
Qed.

(** A path has a generation object exactly while a read of it is open. *)
Lemma gens_open c path :
  gens_wf c ->
  path ∈ (parameterGenerations c).*1 <->
  exists g h, handles c !! g = Some h /\ g_path h = path /\ g_released h = false.
Proof.
  intros Hg. split.
  - intros Hin. destruct (map_get path (parameterGenerations c)) as [loc|] eqn:E.
    2: { by apply map_get_None in E. }
    destruct (gw_mapped _ _ Hg _ _ E) as (st & _ & Hr & Ho).
    destruct (open_count_pos (handles c) loc) as (g & h & Hh & Hrel & Hs); [rewrite <- Ho; auto|].
    exists g, h. split_and!; try done.
    pose proof (gw_open _ _ Hg g h Hh Hrel) as Hop. rewrite Hs in Hop. by eapply (gw_inj _ _ Hg).
  - intros (g & h & Hh & <- & Hr). pose proof (gw_open _ _ Hg g h Hh Hr) as Hop.
    apply map_get_Some_elem in Hop. by eapply (list_elem_of_fmap_2 fst) in Hop.
Qed.

(** ** The properties *)

(** Whatever operations run on a new cache, in any order and with any
    clock, the running count equals the number of retained entries and stays
    within [maxEntries], no path and no selector of a path is held twice, and
    a generation object is kept for a path exactly while a read of that path
    is open, with as many readers as there are open reads. *)
Theorem cache_invariant ttl max c ops :
  new_ReadCache ttl max = Ok c ->
  let c' := cache_run c ops in
  parameterSize c' = Z.of_nat (entry_total (parameters c')) /\
  parameterSize c' <= maxEntries c /\
  NoDup (parameters c').*1 /\ Forall (fun p => NoDup p.2.*1) (parameters c') /\
  (forall path, path ∈ (parameterGenerations c').*1 <->
     exists g h, handles c' !! g = Some h /\ g_path h = path /\ g_released h = false) /\
  (forall path loc, map_get path (parameterGenerations c') = Some loc ->
     exists st, states c' !! loc = Some st /\ 0 < readers st /\ readers st = open_count (handles c') loc).
Proof.
  intros Hc c'. apply new_ReadCache_wf in Hc.
  destruct (cache_run_wf c ops Hc) as [Hp Hg]. fold c' in Hp, Hg.
  destruct Hp as [[Hw Hf] Hn Hb _]. destruct (cache_run_ttl c ops) as [_ Hmax]. fold c' in Hmax.
  unfold parameterSize. rewrite <- Hmax. split_and!; try done.
  - intros path. by apply gens_open.
  - intros path loc Hl. destruct (gw_mapped _ _ Hg _ _ Hl) as (st & ? & ? & ?). eauto.
Qed.

Definition sel_latest : VersionRef := {| version := None; label := None |}.

Lemma cache_invariant_witness :
  exists c, new_ReadCache (Some 1000) (Some 2) = Ok c /\
  parameterSize (cache_run c [OSet 0 0 (js "/a/b/c") (js "v") sel_latest; OBegin (js "/a/b/c")]) = 1.
Proof.
  eexists. split; [reflexivity|].
  pose proof (cache_invariant (Some 1000) (Some 2) _
    [OSet 0 0 (js "/a/b/c") (js "v") sel_latest; OBegin (js "/a/b/c")] eq_refl) as (-> & _).
  vm_compute. reflexivity.
Defined.

(** The fence. A read of a path that was begun before an invalidation
    covering that path (by name, by namespace or by [clear]) can never fill
    the cache afterwards, whatever happens in between, a new read of the same
    path included: the fill answers [false] and changes nothing. *)
Theorem invalidated_read_never_fills ttl max c0 before g h o after now1 now2 v l val :
  new_ReadCache ttl max = Ok c0 ->
  let c := cache_run c0 before in
  handles c !! g = Some h -> invalidates c o (g_path h) ->
  let c' := cache_run (cache_step c o) after in
  cacheParameterIfUnchanged c' now1 now2 g v l val = (c', Ok false).
Proof.
  intros Hnew c Hh Hi c'. assert (Hw := cache_run_wf c0 before (new_ReadCache_wf _ _ _ Hnew)).
  fold c in Hw. assert (Hw1 := cache_step_wf c o Hw).
  assert (g < next_ident (cache_step c o))%nat as Hg.
  { pose proof (cache_step_handle_le c o (proj2 Hw)) as [Hle _].
    pose proof (gw_fresh_handles _ _ (proj2 Hw) _ _ Hh). lia. }
  pose proof (fenced_run _ g after Hw1 Hg (invalidates_fenced c o g h (proj2 Hw) Hh Hi)) as Hf.
  fold c' in Hf. unfold cacheParameterIfUnchanged.
  destruct (handles c' !! g) as [h'|] eqn:E; [|done]. by rewrite (Hf h' E).
Qed.

(** A read of [/prod/web/k] in flight, the namespace invalidated, a second
    read begun: the first one may not fill. *)
Lemma invalidated_read_never_fills_witness :
  exists c0 g h, new_ReadCache (Some 1000) None = Ok c0 /\
    handles (cache_run c0 [OBegin (js "/prod/web/k")]) !! g = Some h /\
    let c' := cache_run (cache_step (cache_run c0 [OBegin (js "/prod/web/k")])
                 (OInvalidateNs [inr (js "prod/web")])) [OBegin (js "/prod/web/k")] in
    cacheParameterIfUnchanged c' 5 5 g 0 [] (js "stale") = (c', Ok false).
Proof.
  eexists _, 2%nat, _. split; [reflexivity|]. split; [vm_compute; reflexivity|].
  eapply (invalidated_read_never_fills (Some 1000) None _ [OBegin (js "/prod/web/k")]);
    [reflexivity | vm_compute; reflexivity |].
  split; [reflexivity|]. eexists. split; vm_compute; reflexivity.
Defined.

(** C22: refinement. Along any run the cache simulates an abstract cache (a map
    from path and selector to the last value written and its expiry, and the
    set of reads that may still fill it, both forgetting what an invalidation
    covers). A hit is the abstract entry, not yet expired; a fill succeeds
    for exactly the reads the abstract cache still lists. *)
Theorem cache_refines_spec ttl max c0 ops :
  new_ReadCache ttl max = Ok c0 ->
  let s := (pair_run (c0, {| sp_entries := ∅; sp_reads := ∅ |}) ops).2 in
  let c := cache_run c0 ops in
  (forall now path sel v, (getParameter c now path sel).2 = Ok (Some v) ->
     exists k e, selectorKey sel = Ok k /\ sp_entries s !! (path, k) = Some e /\
       value e = v /\ now < expiresAt e) /\
  (forall now1 now2 g v l val, is_ok (selectorKey (positionalSelector v l)) = true ->
     (cacheParameterIfUnchanged c now1 now2 g v l val).2
       = Ok (bool_decide (is_Some (sp_reads s !! g)))).
Proof.
  intros Hnew s c. pose proof (new_ReadCache_wf _ _ _ Hnew) as Hw.
  pose proof (refines_new _ _ _ Hnew) as Href.
  destruct (pair_run_refines c0 _ ops Hw Href) as [_ Hrun]. rewrite pair_run_fst in Hrun.
  fold s in Hrun. fold c in Hrun. pose proof Hrun as [He Hr]. split.
  - intros now path sel v. by apply refined_hit.
  - intros now1 now2 g v l val Hok. unfold cacheParameterIfUnchanged.
    destruct (handles c !! g) as [h|] eqn:Hh.
    + destruct (isCurrent c h) eqn:Hc; simpl.
      * rewrite bool_decide_true by (eexists; apply Hr; eauto).
        unfold putParam, setParameter. destruct (selectorKey _) as [k|] eqn:Hk; [|done].
        destruct (enabled c) eqn:Hen; [by rewrite (cache_set_Ok _ _ _ _ _ k)|by rewrite cache_set_disabled].
      * rewrite bool_decide_false; [done|]. intros [p (h' & Hh' & _ & Hc')%Hr]. congruence.
    + rewrite bool_decide_false; [done|]. intros [p (h' & Hh' & _)%Hr]. congruence.
Qed.

Lemma cache_refines_spec_witness :
  exists c0, new_ReadCache (Some 1000) None = Ok c0 /\
    (cacheParameterIfUnchanged (cache_run c0 [OBegin (js "/prod/web/k")]) 5 5 2%nat 0 [] (js "v")).2 = Ok true.
Proof.
  eexists. split; [reflexivity|].
  pose proof (cache_refines_spec (Some 1000) None _ [OBegin (js "/prod/web/k")] eq_refl) as [_ ->];
    vm_compute; reflexivity.
Defined.

(** A write can be read back. After any run whose writes carried valid
    selectors, a value stored in an enabled cache is returned for its path and
    selector at every time before its TTL is over, even when storing it
    exceeded the bound and evicted another entry. *)
Theorem set_then_get ttl max c0 ops now1 now2 now path v sel :
  new_ReadCache ttl max = Ok c0 -> enabled c0 = true ->
  forallb valid_selectors ops = true -> is_ok (selectorKey sel) = true ->
  now2 < now1 + ttlMs c0 -> now < now1 + ttlMs c0 ->
  let c := (setParameter (cache_run c0 ops) now1 now2 path v sel).1 in
  getParameter c now path sel = (c, Ok (Some v)).
Proof.
  intros Hnew He Hv Hs H2 H c. pose proof (new_ReadCache_wf _ _ _ Hnew) as Hw.
  destruct (cache_run_ttl c0 ops) as [Ht _].
  destruct (cache_run_wf c0 ops Hw) as [Hp _].
  assert (populated (parameters c0)) as Hpop.
  { revert Hnew. unfold new_ReadCache. break_match. intros [= <-]. constructor. }
  destruct (selectorKey sel) as [k|] eqn:Hk; [|done].
  assert (enabled (cache_run c0 ops) = true) as He1 by (unfold enabled in *; by rewrite Ht).
  pose proof (setParameter_keeps (cache_run c0 ops) now1 now2 path v sel k Hp
    (cache_run_populated _ _ Hv Hpop) He1 Hk) as Hl.
  rewrite Ht in Hl. specialize (Hl H2). fold c in Hl.
  assert (enabled c = true) as Hec.
  { destruct (cache_run_ttl c0 (ops ++ [OSet now1 now2 path v sel])) as [Ht' _].
    unfold cache_run in Ht'. rewrite foldl_app in Ht'. simpl in Ht'. fold (cache_run c0 ops) in Ht'.
    fold c in Ht'. unfold enabled in *. by rewrite Ht'. }
  unfold getParameter. rewrite Hec, Hk. simpl. unfold cache_lookup in Hl.
  destruct (map_get path (parameters c)) as [es|]; [|done]. simpl in Hl. rewrite Hl. simpl.
  by destruct (Z.ltb_spec now (now1 + ttlMs c0)); [|lia].
Qed.

(** A full cache of one entry: the older path gives way. *)
Lemma set_then_get_witness :
  exists c0, new_ReadCache (Some 1000) (Some 1) = Ok c0 /\
    let c := (setParameter (cache_run c0 [OSet 0 0 (js "/a/b/x") (js "1") sel_latest]) 3 3 (js "/a/b/y") (js "2") sel_latest).1 in
    getParameter c 1002 (js "/a/b/y") sel_latest = (c, Ok (Some (js "2"))).
Proof.
  eexists. split; [reflexivity|].
  eapply (set_then_get (Some 1000) (Some 1)); try reflexivity; simpl; lia.
Defined.
