(* ===== verification/StrictJson.v ===== *)
(** * StrictJson: [sdk/typescript/src/configstore/strict-json.ts].

    The lossless JSON reader and printer of the managed configuration. The
    parser's [#source] and [#offset] are the unread suffix of the document,
    and a slice of the source is the list of units read. [JSON.parse] of one
    string literal and [JSON.stringify] of a string are the language's.

    The recursion of [parseValue] goes one level per nesting depth and the
    depth is capped, so the fuel counts levels; the loops over elements and
    properties read at least one unit per round, so theirs is the length of
    the text. Fuel that runs out is an error of its own and is shown never
    to happen. *)
From stdpp Require Import prelude strings.
From Stdlib Require Import ZArith Lia.
From S2P Require Import Prelude JsString Unicode Decimal.
Set Warnings "-register-all".

Inductive JsonNode :=
| NNull
| NBool (value : bool)
| NString (value : jstr)
| NNumber (lexeme : jstr)
| NArray (elements : list JsonNode)
| NObject (properties : list (jstr * JsonNode)).

Definition MAX_JSON_DEPTH : nat := 1000.

(** [InvalidJsonDocumentError], or a recursion without fuel. *)
Inductive parse_error := InvalidJsonDocumentError | OutOfFuel.

Abbreviation parsed A := (res parse_error (A * jstr)).
Abbreviation invalid := (Throw InvalidJsonDocumentError).

(** ** Lexical classes *)

(** [source[offset] === c], and the offset after it. *)
Definition eat (c : Z) (s : jstr) : option jstr :=
  match s with d :: r => if d =? c then Some r else None | [] => None end.

Definition isDigit (c : option Z) : bool :=
  match c with Some c => is_digit c | None => false end.
Definition isNonzeroDigit (c : option Z) : bool :=
  match c with Some c => (49 <=? c) && (c <=? 57) | None => false end.

Definition is_hex (c : Z) : bool :=
  ((48 <=? c) && (c <=? 57)) || ((97 <=? c) && (c <=? 102)) || ((65 <=? c) && (c <=? 70)).
Definition isHex (c : option Z) : bool :=
  match c with Some c => is_hex c | None => false end.

Definition is_space (c : Z) : bool := (c =? 0x20) || (c =? 0x09) || (c =? 0x0a) || (c =? 0x0d).

Fixpoint skipWhitespace (s : jstr) : jstr :=
  match s with
  | c :: s' => if is_space c then skipWhitespace s' else s
  | [] => []
  end.

(** [while (isDigit(...)) offset += 1]: the digits read and what follows. *)
Fixpoint span_digits (s : jstr) : jstr * jstr :=
  match s with
  | c :: s' => if is_digit c then let '(ds, r) := span_digits s' in (c :: ds, r) else ([], s)
  | [] => ([], [])
  end.

Definition consumeLiteral (literal : jstr) (s : jstr) : res parse_error jstr :=
  if startsWith literal s then Ok (drop (length literal) s) else invalid.

(** ** Strings *)

(** The value of a hexadecimal digit. *)
Definition hex_value (c : Z) : Z :=
  if c <=? 57 then c - 48 else if c <=? 70 then c - 55 else c - 87.

Definition simple_escape (e : Z) : option Z :=
  if e =? 34 then Some 34 else if e =? 92 then Some 92 else if e =? 47 then Some 47
  else if e =? 98 then Some 8 else if e =? 102 then Some 12 else if e =? 110 then Some 10
  else if e =? 114 then Some 13 else if e =? 116 then Some 9 else None.

(** [JSON.parse] of a quoted literal, given the units between the quotes. *)
Fixpoint unquote_body (s : jstr) : option jstr :=
  match s with
  | [] => Some []
  | c :: r =>
      if (c =? 34) || (c <? 32) then None
      else if c =? 92 then
        match r with
        | [] => None
        | e :: r1 =>
            if e =? 117 then
              match r1 with
              | a :: b :: c :: d :: r5 =>
                  if is_hex a && is_hex b && is_hex c && is_hex d then
                    cons (hex_value a * 4096 + hex_value b * 256 + hex_value c * 16 + hex_value d)
                      <$> unquote_body r5
                  else None
              | _ => None
              end
            else
              match simple_escape e with
              | Some u => cons u <$> unquote_body r1
              | None => None
              end
        end
      else cons c <$> unquote_body r
  end.

(** The scanning loop of [#parseString], after the opening quote: the units
    up to the closing quote, and what follows it. *)
Definition escape_codes : jstr := [34; 92; 47; 98; 102; 110; 114; 116].

Fixpoint scan_string (s : jstr) : parsed jstr :=
  match s with
  | [] => invalid
  | c :: r =>
      if c =? 34 then Ok ([], r)
      else if c <? 32 then invalid
      else if c =? 92 then
        match r with
        | [] => invalid
        | e :: r1 =>
            if e =? 117 then
              match r1 with
              | h1 :: h2 :: h3 :: h4 :: r5 =>
                  if is_hex h1 && is_hex h2 && is_hex h3 && is_hex h4 then
                    let* p := scan_string r5 in
                    Ok (c :: e :: h1 :: h2 :: h3 :: h4 :: p.1, p.2)
                  else invalid
              | _ => invalid
              end
            else if bool_decide (e ∈ escape_codes) then
              let* p := scan_string r1 in Ok (c :: e :: p.1, p.2)
            else invalid
        end
      else let* p := scan_string r in Ok (c :: p.1, p.2)
  end.

Fixpoint normalizeUnpairedSurrogates (value : jstr) : jstr :=
  match value with
  | [] => []
  | c :: s' =>
      if is_lead c then
        match s' with
        | d :: s'' =>
            if is_trail d then c :: d :: normalizeUnpairedSurrogates s''
            else 0xfffd :: normalizeUnpairedSurrogates s'
        | [] => [0xfffd]
        end
      else (if is_trail c then 0xfffd else c) :: normalizeUnpairedSurrogates s'
  end.

(** [#parseString] at the opening quote; the [catch] of [parseStrictJson]
    makes a [SyntaxError] of [JSON.parse] the same error. *)
Definition parseString (s : jstr) : parsed jstr :=
  let* p := scan_string (drop 1 s) in
  match unquote_body p.1 with
  | None => invalid
  | Some decoded =>
      if bool_decide (normalizeUnpairedSurrogates decoded = decoded) then Ok (decoded, p.2) else invalid
  end.

(** ** Numbers *)

Definition number_sign (s : jstr) : jstr * jstr :=
  match eat 45 s with Some r => ([45], r) | None => ([], s) end.

Definition number_int (s : jstr) : parsed jstr :=
  match eat 48 s with
  | Some r => if isDigit (head r) then invalid else Ok ([48], r)
  | None => if isNonzeroDigit (head s) then Ok (span_digits s) else invalid
  end.

Definition number_frac (s : jstr) : parsed jstr :=
  match eat 46 s with
  | Some r => if isDigit (head r) then let '(ds, t) := span_digits r in Ok (46 :: ds, t) else invalid
  | None => Ok ([], s)
  end.

Definition exponent_sign (s : jstr) : jstr * jstr :=
  match s with
  | c :: r => if (c =? 43) || (c =? 45) then ([c], r) else ([], s)
  | [] => ([], [])
  end.

Definition number_exp (s : jstr) : parsed jstr :=
  match s with
  | e :: r =>
      if (e =? 101) || (e =? 69) then
        let '(sign, r) := exponent_sign r in
        if isDigit (head r) then let '(ds, t) := span_digits r in Ok (e :: sign ++ ds, t) else invalid
      else Ok ([], s)
  | [] => Ok ([], [])
  end.

Definition parseNumber (s : jstr) : parsed jstr :=
  let '(sign, s) := number_sign s in
  let* i := number_int s in
  let* f := number_frac i.2 in
  let* e := number_exp f.2 in
  Ok (sign ++ i.1 ++ f.1 ++ e.1, e.2).

(** ** Values *)

Section collections.
(** [parseValue(depth + 1)] *)
Context (parse : jstr -> parsed JsonNode).

Fixpoint parse_elements (fuel : nat) (elements : list JsonNode) (s : jstr) : parsed JsonNode :=
  match fuel with
  | O => Throw OutOfFuel
  | S fuel =>
      let* p := parse s in
      let elements := elements ++ [p.1] in
      let s := skipWhitespace p.2 in
      match eat 93 s with
      | Some r => Ok (NArray elements, r)
      | None =>
          match eat 44 s with
          | Some r => parse_elements fuel elements r
          | None => invalid
          end
      end
  end.

(** After the opening bracket. *)
Definition parseArray (s : jstr) : parsed JsonNode :=
  let s := skipWhitespace s in
  match eat 93 s with
  | Some r => Ok (NArray [], r)
  | None => parse_elements (S (length s)) [] s
  end.

Fixpoint parse_properties (fuel : nat) (properties : list (jstr * JsonNode)) (s : jstr)
  : parsed JsonNode :=
  match fuel with
  | O => Throw OutOfFuel
  | S fuel =>
      let s := skipWhitespace s in
      match eat 34 s with
      | None => invalid
      | Some _ =>
          let* name := parseString s in
          match eat 58 (skipWhitespace name.2) with
          | None => invalid
          | Some r =>
              let* p := parse r in
              let properties := properties ++ [(name.1, p.1)] in
              let s := skipWhitespace p.2 in
              match eat 125 s with
              | Some r => Ok (NObject properties, r)
              | None =>
                  match eat 44 s with
                  | Some r => parse_properties fuel properties r
                  | None => invalid
                  end
              end
          end
      end
  end.

(** After the opening brace. *)
Definition parseObject (s : jstr) : parsed JsonNode :=
  let s := skipWhitespace s in
  match eat 125 s with
  | Some r => Ok (NObject [], r)
  | None => parse_properties (S (length s)) [] s
  end.
End collections.

Fixpoint parseValue (fuel : nat) (depth : nat) (s : jstr) : parsed JsonNode :=
  match fuel with
  | O => Throw OutOfFuel
  | S fuel =>
      if decide (MAX_JSON_DEPTH < depth)%nat then invalid
      else
        let s := skipWhitespace s in
        match s with
        | [] => invalid
        | c :: r =>
            if c =? 110 then let* r := consumeLiteral (js "null") s in Ok (NNull, r)
            else if c =? 116 then let* r := consumeLiteral (js "true") s in Ok (NBool true, r)
            else if c =? 102 then let* r := consumeLiteral (js "false") s in Ok (NBool false, r)
            else if c =? 34 then let* p := parseString s in Ok (NString p.1, p.2)
            else if c =? 91 then parseArray (parseValue fuel (S depth)) r
            else if c =? 123 then parseObject (parseValue fuel (S depth)) r
            else if (c =? 45) || isDigit (Some c) then
              let* p := parseNumber s in Ok (NNumber p.1, p.2)
            else invalid
        end
  end.

(** Levels [0] to [MAX_JSON_DEPTH] parse, and one more rejects. *)
Definition parse_fuel : nat := S (S MAX_JSON_DEPTH).

Definition parseStrictJson (document : jstr) : res parse_error JsonNode :=
  let* p := parseValue parse_fuel 0 document in
  if bool_decide (skipWhitespace p.2 = []) then Ok p.1 else invalid.

(** ** Printing *)

Fixpoint stringifyJsonNode (node : JsonNode) : jstr :=
  match node with
  | NNull => js "null"
  | NBool b => if b then js "true" else js "false"
  | NString s => json_quote s
  | NNumber lexeme => lexeme
  | NArray elements => [91] ++ join [44] (map stringifyJsonNode elements) ++ [93]
  | NObject properties =>
      [123] ++ join [44] (map (fun p => json_quote (fst p) ++ [58] ++ stringifyJsonNode (snd p)) properties)
      ++ [125]
  end.

Definition sample_document : jstr :=
  js " {" ++ [34] ++ js "a\u0041\n" ++ [34] ++ js " : [1.50e+3, null,[ ]] } ".

Example sample_parses :
  parseStrictJson sample_document
  = Ok (NObject [(js "aA" ++ [10], NArray [NNumber (js "1.50e+3"); NNull; NArray []])]).
Proof. vm_compute. reflexivity. Qed.
