(* ===== verification/StrictJsonProofs.v ===== *)
(** * StrictJsonProofs: the JSON reader always answers, accepts exactly
    well-formed trees, and reads back what the printer writes. *)
From stdpp Require Import prelude strings.
From Stdlib Require Import ZArith Lia.
From S2P Require Import Prelude JsString Unicode Decimal StrictJson.
Set Warnings "-register-all".

Lemma eat_Some c s r : eat c s = Some r <-> s = c :: r.
Proof.
  destruct s as [|d s]; simpl; [done|]. destruct (Z.eqb_spec d c) as [->|Hne].
  - split; [by intros [= ->]|by intros [= ->]].
  - split; [done|]. intros [= -> _]. done.
Qed.

Lemma eat_cons c r : eat c (c :: r) = Some r.
Proof. by apply eat_Some. Qed.

Lemma eat_other c d r : d <> c -> eat c (d :: r) = None.
Proof. intros H. simpl. by destruct (Z.eqb_spec d c). Qed.

Lemma skipWhitespace_length s : (length (skipWhitespace s) <= length s)%nat.
Proof. induction s as [|c s IH]; simpl; [done|]. case_match; simpl; lia. Qed.

Lemma skipWhitespace_cons c s : is_space c = false -> skipWhitespace (c :: s) = c :: s.
Proof. intros H. simpl. by rewrite H. Qed.

(** ** Numbers: the grammar of RFC 8259 *)

Abbreviation all_digits ds := (Forall (fun c => is_digit c = true) ds).

Definition digits1 (ds : jstr) : Prop := ds <> [] /\ all_digits ds.

Definition json_int (i : jstr) : Prop :=
  i = [48] \/ exists c ds, i = c :: ds /\ 49 <= c <= 57 /\ all_digits ds.
Definition json_frac (f : jstr) : Prop :=
  f = [] \/ exists ds, f = 46 :: ds /\ digits1 ds.
Definition json_exp (e : jstr) : Prop :=
  e = [] \/ exists m sign ds, e = m :: sign ++ ds /\ (m = 101 \/ m = 69) /\
    (sign = [] \/ sign = [43] \/ sign = [45]) /\ digits1 ds.

Inductive json_number : jstr -> Prop :=
| json_number_intro sign i f e :
    sign = [] \/ sign = [45] -> json_int i -> json_frac f -> json_exp e ->
    json_number (sign ++ i ++ f ++ e).

(** A unit that could continue a number. *)
Definition number_continues (c : option Z) : bool :=
  match c with
  | Some c => is_digit c || (c =? 46) || (c =? 101) || (c =? 69)
  | None => false
  end.

Lemma span_digits_spec s ds r :
  span_digits s = (ds, r) -> s = ds ++ r /\ all_digits ds /\ isDigit (head r) = false.
Proof.
  revert ds r; induction s as [|c s IH]; intros ds r; simpl; [by intros [= <- <-]|].
  destruct (is_digit c) eqn:E.
  - destruct (span_digits s) as [ds' r'] eqn:Hs. intros [= <- <-].
    destruct (IH _ _ eq_refl) as (-> & ? & ?). split_and!; try done. by constructor.
  - intros [= <- <-]. split_and!; done.
Qed.

Lemma span_digits_app ds r :
  all_digits ds -> isDigit (head r) = false -> span_digits (ds ++ r) = (ds, r).
Proof.
  induction 1 as [|c ds Hc Hds IH]; intros Hr; simpl.
  - destruct r as [|c r]; simpl in *; [done|]. by rewrite Hr.
  - rewrite Hc, IH by done. done.
Qed.

Lemma span_digits1 r ds t :
  isDigit (head r) = true -> span_digits r = (ds, t) -> r = ds ++ t /\ digits1 ds.
Proof.
  intros Hd (-> & Ha & Ht)%span_digits_spec. split; [done|]. split; [|done].
  intros ->. simpl in Hd. congruence.
Qed.

Lemma number_int_spec s i r : number_int s = Ok (i, r) -> s = i ++ r /\ json_int i.
Proof.
  unfold number_int. destruct (eat 48 s) as [r0|] eqn:E.
  - apply eat_Some in E as ->. case_match; [done|]. intros [= <- <-]. split; [done|by left].
  - destruct s as [|c s]; [done|]. destruct (isNonzeroDigit _) eqn:Hn; [|done].
    intros H. assert (span_digits (c :: s) = (i, r)) as Hsp by congruence.
    apply span_digits_spec in Hsp as (Hs & Ha & Hr). split; [done|].
    right. simpl in Hn. destruct i as [|c' i].
    + simpl in Hs. subst r. simpl in Hr. unfold is_digit in Hr. lia.
    + simpl in Hs. injection Hs as -> Hs. exists c', i. inversion Ha; subst. split_and!; [done|lia|lia|done].
Qed.

Lemma number_frac_spec s f r : number_frac s = Ok (f, r) -> s = f ++ r /\ json_frac f.
Proof.
  unfold number_frac. destruct (eat 46 s) as [r0|] eqn:E.
  - apply eat_Some in E as ->. destruct (isDigit (head r0)) eqn:Hd; [|done].
    destruct (span_digits r0) as [ds t] eqn:Hs. intros [= <- <-].
    apply span_digits1 in Hs as [-> H1]; [|done]. split; [done|]. right. eauto.
  - intros [= <- <-]. split; [done|by left].
Qed.

Lemma number_exp_spec s e r : number_exp s = Ok (e, r) -> s = e ++ r /\ json_exp e.
Proof.
  unfold number_exp. destruct s as [|m s]; [intros [= <- <-]; split; [done|by left]|].
  destruct ((m =? 101) || (m =? 69)) eqn:Hm.
  2: { intros [= <- <-]. split; [done|by left]. }
  destruct (exponent_sign s) as [sign r0] eqn:Hsign.
  assert (s = sign ++ r0 /\ (sign = [] \/ sign = [43] \/ sign = [45])) as [-> Hsg].
  { destruct s as [|c s]; simpl in Hsign; [by simplify_eq; auto|].
    destruct ((c =? 43) || (c =? 45)) eqn:Hc; injection Hsign as <- <-; [|by auto].
    split; [done|]. assert (c = 43 \/ c = 45) as [-> | ->] by lia; auto. }
  destruct (isDigit (head r0)) eqn:Hd; [|done].
  destruct (span_digits r0) as [ds t] eqn:Hs. intros [= <- <-].
  apply span_digits1 in Hs as [-> H1]; [|done]. simpl. rewrite <- app_assoc. split; [done|].
  right. exists m, sign, ds. split_and!; try done. lia.
Qed.

(** What the scanner accepts is a number of the grammar. *)
Lemma parseNumber_spec s lex r : parseNumber s = Ok (lex, r) -> s = lex ++ r /\ json_number lex.
Proof.
  unfold parseNumber. destruct (number_sign s) as [sign s0] eqn:Hsign.
  assert (s = sign ++ s0 /\ (sign = [] \/ sign = [45])) as [-> Hsg].
  { unfold number_sign in Hsign. destruct (eat 45 s) eqn:E; injection Hsign as <- <-; [|by auto].
    apply eat_Some in E as ->. auto. }
  destruct (number_int s0) as [[i r1]|] eqn:Hi; [|done]. apply number_int_spec in Hi as [-> Hi]. simpl.
  destruct (number_frac r1) as [[f r2]|] eqn:Hf; [|done]. apply number_frac_spec in Hf as [-> Hf]. simpl.
  destruct (number_exp r2) as [[e r3]|] eqn:He; [|done]. apply number_exp_spec in He as [-> He].
  intros [= <- <-]. simpl. split; [by rewrite !app_assoc|]. by constructor.
Qed.

Lemma number_int_app i r :
  json_int i -> isDigit (head r) = false -> number_int (i ++ r) = Ok (i, r).
Proof.
  intros [->|(c & ds & -> & Hc & Hds)] Hr; unfold number_int.
  - change ([48] ++ r) with (48 :: r). rewrite eat_cons. by rewrite Hr.
  - change ((c :: ds) ++ r) with (c :: ds ++ r). rewrite eat_other by lia.
    unfold isNonzeroDigit, head. replace ((49 <=? c) && (c <=? 57)) with true by lia.
    change (c :: ds ++ r) with ((c :: ds) ++ r). rewrite span_digits_app; [done| |done].
    constructor; [|done]. unfold is_digit. lia.
Qed.

Lemma digits1_head ds r : digits1 ds -> isDigit (head (ds ++ r)) = true.
Proof. intros [Hne Ha]. destruct Ha as [|d ds Hd Ha]; [done|]. exact Hd. Qed.

Lemma number_frac_app f r :
  json_frac f -> isDigit (head r) = false -> (f = [] -> head r <> Some 46) ->
  number_frac (f ++ r) = Ok (f, r).
Proof.
  intros [->|(ds & -> & Hds)] Hr Hdot; unfold number_frac.
  - destruct r as [|c r]; [done|]. cbn [app]. rewrite eat_other; [done|].
    intros ->. by apply Hdot.
  - change ((46 :: ds) ++ r) with (46 :: ds ++ r). rewrite eat_cons, digits1_head by done.
    rewrite span_digits_app by (apply Hds || done). done.
Qed.

Lemma number_exp_app e r :
  json_exp e -> number_continues (head r) = false -> number_exp (e ++ r) = Ok (e, r).
Proof.
  intros [->|(m & sign & ds & -> & Hm & Hsign & Hds)] Hr; unfold number_exp.
  - destruct r as [|c r]; [done|]. simpl in *. by replace ((c =? 101) || (c =? 69)) with false by lia.
  - cbn [app]. replace ((m =? 101) || (m =? 69)) with true by lia. rewrite <- app_assoc.
    assert (exponent_sign (sign ++ ds ++ r) = (sign, ds ++ r)) as ->.
    { destruct Hsign as [->|[->| ->]]; [|done..]. destruct Hds as [Hne Ha].
      destruct Ha as [|d ds Hd Ha]; [done|]. simpl. unfold is_digit in Hd.
      by replace ((d =? 43) || (d =? 45)) with false by lia. }
    rewrite digits1_head by done. rewrite span_digits_app; [done|apply Hds|].
    destruct r as [|c r]; [done|]. simpl in *. destruct (is_digit c); done.
Qed.

Lemma parseNumber_app lex r :
  json_number lex -> number_continues (head r) = false -> parseNumber (lex ++ r) = Ok (lex, r).
Proof.
  intros [sign i f e Hsign Hi Hf He] Hr. unfold parseNumber. rewrite <- !app_assoc.
  assert (number_sign (sign ++ i ++ f ++ e ++ r) = (sign, i ++ f ++ e ++ r)) as ->.
  { unfold number_sign. destruct Hsign as [-> | ->]; [|done].
    destruct Hi as [->|(c & ds & -> & Hc & Hds)]; [done|]. simpl ([] ++ _). cbn [app].
    by rewrite eat_other by lia. }
  assert (isDigit (head r) = false) as Hrd.
  { destruct r as [|c r]; [done|]. simpl in *. by destruct (is_digit c). }
  assert (isDigit (head (e ++ r)) = false /\ (head (e ++ r) <> Some 46)) as [Hed Hedot].
  { destruct He as [->|(m & sg & ds & -> & Hm & _)]; simpl.
    - split; [done|]. destruct r as [|c r]; [done|]. simpl in *. intros [= ->]. done.
    - split; [unfold is_digit; lia|]. intros [= ->]. lia. }
  assert (isDigit (head (f ++ e ++ r)) = false) as Hfd.
  { destruct Hf as [->|(ds & -> & _)]; done. }
  rewrite number_int_app by done. cbn [fst snd].
  rewrite number_frac_app by done. cbn [fst snd]. by rewrite number_exp_app.
Qed.

Lemma json_number_head lex : json_number lex -> exists c r, lex = c :: r /\ (c = 45 \/ 48 <= c <= 57).
Proof.
  intros [sign i f e [-> | ->] Hi _ _]; [|eexists _, _; split; [done|by left]].
  destruct Hi as [->|(c & ds & -> & Hc & _)]; eexists _, _; (split; [done|lia]).
Qed.

(** ** Strings *)

Lemma escape_codes_spec e : e ∈ escape_codes <-> is_Some (simple_escape e).
Proof.
  unfold escape_codes, simple_escape. rewrite !elem_of_cons, elem_of_nil. split.
  - intros H. destruct_or! H; subst; try done; by eexists.
  - repeat (case_match; bool_prop; [tauto|]). by intros [? ?].
Qed.

(** Induction along the units the string scanners consume together. *)
Lemma jstr_strong_ind (P : jstr -> Prop) :
  (forall s, (forall t, (length t < length s)%nat -> P t) -> P s) -> forall s, P s.
Proof.
  intros H s. remember (length s) as n eqn:Hn. revert s Hn.
  induction (lt_wf n) as [n _ IH]. intros s ->. apply H. intros t Ht. by eapply IH.
Qed.

(** The scanner stops at the closing quote, and what it accepts is a string
    literal of the language: [JSON.parse] cannot throw on it. *)
Lemma scan_string_spec s b r :
  scan_string s = Ok (b, r) -> s = b ++ 34 :: r /\ is_Some (unquote_body b).
Proof.
  revert b r. induction s as [s IH] using jstr_strong_ind. intros b r.
  destruct s as [|c s]; [done|]. cbn [scan_string].
  destruct (Z.eqb_spec c 34) as [->|Hq].
  { intros [= <- <-]. split; [done|]. by eexists. }
  destruct (Z.ltb_spec c 32); [done|].
  destruct (Z.eqb_spec c 92) as [->|Hb].
  - destruct s as [|e s]; [done|]. destruct (Z.eqb_spec e 117) as [->|He].
    + destruct s as [|h1 [|h2 [|h3 [|h4 s]]]]; try done.
      destruct (is_hex h1 && _ && _ && _) eqn:Hh; [|done].
      destruct (scan_string s) as [[b0 r0]|] eqn:Hs; [|done]. simpl. intros [= <- <-].
      apply IH in Hs as [-> [d Hd]]; [|simpl; lia]. split; [done|]. simpl. rewrite Hh, Hd. by eexists.
    + destruct (bool_decide _) eqn:Hin; [|done]. bool_prop. apply escape_codes_spec in Hin as [u Hu].
      destruct (scan_string s) as [[b0 r0]|] eqn:Hs; [|done]. simpl. intros [= <- <-].
      apply IH in Hs as [-> [d Hd]]; [|simpl; lia]. split; [done|]. cbn [unquote_body Z.eqb Z.ltb].
      simpl. replace (e =? 117) with false by lia. rewrite Hu, Hd. by eexists.
  - destruct (scan_string s) as [[b0 r0]|] eqn:Hs; [|done]. simpl. intros [= <- <-].
    apply IH in Hs as [-> [d Hd]]; [|simpl; lia]. split; [done|]. simpl.
    replace ((c =? 34) || (c <? 32)) with false by lia. replace (c =? 92) with false by lia.
    rewrite Hd. by eexists.
Qed.

Lemma hex_value_bound c : is_hex c = true -> 0 <= hex_value c <= 15.
Proof.
  unfold is_hex, hex_value. intros H.
  destruct (Z.leb_spec c 57), (Z.leb_spec c 70); lia.
Qed.

Lemma simple_escape_unit e u : simple_escape e = Some u -> is_unit u.
Proof. unfold simple_escape, is_unit. intros. break_match; lia. Qed.

Lemma unquote_body_units b d : Forall is_unit b -> unquote_body b = Some d -> Forall is_unit d.
Proof.
  revert d. induction b as [b IH] using jstr_strong_ind. intros d Hb.
  destruct b as [|c b]; [intros [= <-]; constructor|]. cbn [unquote_body].
  inversion Hb as [|? ? Hc Hb']; subst.
  destruct (_ || _); [done|]. destruct (c =? 92).
  - destruct b as [|e b]; [done|]. inversion Hb'; subst. destruct (e =? 117).
    + destruct b as [|h1 [|h2 [|h3 [|h4 b]]]]; try done.
      destruct (is_hex h1 && _ && _ && _) eqn:Hh; [|done]. bool_prop.
      destruct (unquote_body b) as [d0|] eqn:Hd; [|done]. intros [= <-].
      repeat match goal with H : is_hex _ = true |- _ => apply hex_value_bound in H end.
      constructor; [unfold is_unit; lia|]. eapply IH; [|..|done]; [simpl; lia|].
      by do 4 match goal with H : Forall is_unit (_ :: _) |- _ => inversion H; clear H; subst end.
    + destruct (simple_escape e) as [u|] eqn:Hu; [|done].
      destruct (unquote_body b) as [d0|] eqn:Hd; [|done]. intros [= <-].
      constructor; [by eapply simple_escape_unit|]. eapply IH; [|done..]. simpl; lia.
  - destruct (unquote_body b) as [d0|] eqn:Hd; [|done]. intros [= <-].
    constructor; [done|]. eapply IH; [|done..]. simpl; lia.
Qed.

(** The normalisation is the identity exactly on paired surrogates. *)
Lemma normalizeUnpairedSurrogates_id s : normalizeUnpairedSurrogates s = s <-> paired s = true.
Proof.
  induction s as [s IH] using jstr_strong_ind. destruct s as [|c s]; [done|].
  cbn [normalizeUnpairedSurrogates paired]. destruct (is_lead c) eqn:Hl.
  - destruct s as [|d s]; [split; [|done]; intros [= <-]; done|].
    destruct (is_trail d) eqn:Ht; cbn [andb].
    + rewrite <- IH by (simpl; lia). split; [by intros [= ->]|by intros ->].
    + split; [|done]. intros [= <- _]. done.
  - destruct (is_trail c) eqn:Ht; cbn [negb andb].
    + split; [|done]. intros [= <- _]. done.
    + rewrite <- IH by (simpl; lia). split; [by intros [= ->]|by intros ->].
Qed.

Lemma parseString_spec s v r :
  parseString s = Ok (v, r) ->
  (length r < length s)%nat /\ (Forall is_unit s -> wf_text v /\ Forall is_unit r).
Proof.
  unfold parseString. destruct (scan_string (drop 1 s)) as [[b r0]|] eqn:Hs; [|done]. simpl.
  apply scan_string_spec in Hs as [Hs _].
  destruct (unquote_body b) as [d|] eqn:Hd; [|done]. case_bool_decide as Hn; [|done].
  intros [= <- <-]. split.
  - apply (f_equal length) in Hs. rewrite length_drop, length_app in Hs. simpl in Hs. lia.
  - intros Hu. apply (Forall_drop _ 1) in Hu. rewrite Hs in Hu. apply Forall_app in Hu as [Hb Hr].
    apply Forall_cons in Hr as [_ Hr]. split; [|exact Hr].
    split; [exact (unquote_body_units _ _ Hb Hd)|]. by apply normalizeUnpairedSurrogates_id.
Qed.

Lemma scan_string_fuel s : scan_string s <> Throw OutOfFuel.
Proof.
  induction s as [s IH] using jstr_strong_ind. destruct s as [|c s]; [done|].
  cbn [scan_string]. repeat (case_match; try done);
    intros [= ->]; eapply IH; try eassumption; simpl; lia.
Qed.

Lemma parseString_fuel s : parseString s <> Throw OutOfFuel.
Proof.
  unfold parseString. destruct (scan_string _) as [p|e] eqn:E.
  - repeat case_match; congruence.
  - intros [= ->]. by eapply scan_string_fuel.
Qed.

Lemma parseNumber_fuel s : parseNumber s <> Throw OutOfFuel.
Proof.
  unfold parseNumber, number_int, number_frac, number_exp.
  repeat (case_match; simplify_eq/=; try done).
Qed.

(** *** Printed strings *)

Lemma hex_digit_hex d : 0 <= d < 16 -> is_hex (hex_digit d) = true /\ hex_value (hex_digit d) = d.
Proof.
  intros Hd. unfold is_hex, hex_value, hex_digit. destruct (Z.ltb_spec d 10).
  - split; [lia|]. replace (48 + d <=? 57) with true by lia. lia.
  - split; [lia|]. replace (87 + d <=? 57) with false by lia. replace (87 + d <=? 70) with false by lia. lia.
Qed.

Lemma unicode_escape_scan c t :
  0 <= c < 65536 ->
  scan_string (unicode_escape c ++ t) = (let* p := scan_string t in Ok (unicode_escape c ++ p.1, p.2)) /\
  unquote_body (unicode_escape c ++ t) = cons c <$> unquote_body t.
Proof.
  intros Hc. unfold unicode_escape. cbn [app scan_string unquote_body].
  destruct (hex_digit_hex (c / 4096 mod 16)) as [-> ->]; [zify_div|].
  destruct (hex_digit_hex (c / 256 mod 16)) as [-> ->]; [zify_div|].
  destruct (hex_digit_hex (c / 16 mod 16)) as [-> ->]; [zify_div|].
  destruct (hex_digit_hex (c mod 16)) as [-> ->]; [zify_div|].
  split; [done|]. simpl. f_equal. f_equal. zify_div.
Qed.

Lemma quote_unit_scan c t :
  is_unit c ->
  scan_string (quote_unit c ++ t) = (let* p := scan_string t in Ok (quote_unit c ++ p.1, p.2)) /\
  unquote_body (quote_unit c ++ t) = cons c <$> unquote_body t.
Proof.
  intros Hc. unfold quote_unit, is_unit in *.
  destruct (Z.eqb_spec c 8) as [->|]; [done|]. destruct (Z.eqb_spec c 9) as [->|]; [done|].
  destruct (Z.eqb_spec c 10) as [->|]; [done|]. destruct (Z.eqb_spec c 12) as [->|]; [done|].
  destruct (Z.eqb_spec c 13) as [->|]; [done|]. destruct (Z.eqb_spec c 34) as [->|]; [done|].
  destruct (Z.eqb_spec c 92) as [->|]; [done|].
  destruct (Z.ltb_spec c 32); [by apply unicode_escape_scan; lia|]. cbn [app scan_string unquote_body].
  replace (c =? 34) with false by lia. replace (c =? 92) with false by lia.
  by replace (c <? 32) with false by lia.
Qed.

Lemma surrogate_scan c t :
  55296 <= c -> scan_string (c :: t) = (let* p := scan_string t in Ok (c :: p.1, p.2)) /\
  unquote_body (c :: t) = cons c <$> unquote_body t.
Proof.
  intros Hc. cbn [app scan_string unquote_body].
  replace (c =? 34) with false by lia. replace (c =? 92) with false by lia.
  by replace (c <? 32) with false by lia.
Qed.

Lemma quote_body_scan s r :
  wf_text s ->
  scan_string (quote_body s ++ 34 :: r) = Ok (quote_body s, r) /\ unquote_body (quote_body s) = Some s.
Proof.
  revert s. apply wf_text_ind; [done | intros c s Hc Hl Ht Hs [IH1 IH2] | intros c d s Hl Ht Hs [IH1 IH2]].
  - cbn [quote_body]. rewrite Hl, Ht. rewrite <- app_assoc.
    destruct (quote_unit_scan c (quote_body s ++ 34 :: r) Hc) as [-> _].
    destruct (quote_unit_scan c (quote_body s) Hc) as [_ ->]. by rewrite IH1, IH2.
  - cbn [quote_body]. rewrite Hl, Ht. unfold is_lead, is_trail in *. cbn [app].
    assert (55296 <= c /\ 55296 <= d) as [Hc Hd] by lia.
    rewrite (proj1 (surrogate_scan c _ Hc)), (proj1 (surrogate_scan d _ Hd)), IH1.
    rewrite (proj2 (surrogate_scan c _ Hc)), (proj2 (surrogate_scan d _ Hd)), IH2. done.
Qed.

Lemma parseString_quote s r : wf_text s -> parseString (json_quote s ++ r) = Ok (s, r).
Proof.
  intros Hs. unfold parseString.
  assert (drop 1 (json_quote s ++ r) = quote_body s ++ 34 :: r) as ->.
  { unfold json_quote. simpl. rewrite drop_0. by rewrite <- app_assoc. }
  destruct (quote_body_scan s r Hs) as [-> Hu]. simpl. rewrite Hu.
  rewrite bool_decide_true; [done|]. apply normalizeUnpairedSurrogates_id, Hs.
Qed.

(** ** Values *)

(** A tree with at most [d] levels of non-empty nesting below its root, whose
    strings are well-formed text and whose numbers are of the grammar. *)
Inductive node_wf : nat -> JsonNode -> Prop :=
| wf_null d : node_wf d NNull
| wf_bool d b : node_wf d (NBool b)
| wf_string d s : wf_text s -> node_wf d (NString s)
| wf_number d lex : json_number lex -> node_wf d (NNumber lex)
| wf_array_nil d : node_wf d (NArray [])
| wf_array d els : Forall (node_wf d) els -> node_wf (S d) (NArray els)
| wf_object_nil d : node_wf d (NObject [])
| wf_object d ps :
    Forall (fun p => wf_text p.1 /\ node_wf d p.2) ps -> node_wf (S d) (NObject ps).

(** What a parser of values promises: it never runs out of fuel, it reads at
    least one unit, and what it returns satisfies [P]. *)
Definition parses (P : JsonNode -> Prop) (parse : jstr -> parsed JsonNode) : Prop :=
  forall s, parse s <> Throw OutOfFuel /\
    forall n r, parse s = Ok (n, r) -> (length r < length s)%nat /\
      (Forall is_unit s -> P n /\ Forall is_unit r).

Lemma skipWhitespace_units s : Forall is_unit s -> Forall is_unit (skipWhitespace s).
Proof. induction 1 as [|c s Hc Hs IH]; simpl; [constructor|]. case_match; [done|by constructor]. Qed.

Lemma consumeLiteral_spec l s r :
  consumeLiteral l s = Ok r -> s = l ++ r.
Proof.
  unfold consumeLiteral, startsWith. case_bool_decide as E; [|done]. intros [= <-].
  rewrite <- E at 1. by rewrite take_drop.
Qed.

Lemma eat_skip_length c s r : eat c (skipWhitespace s) = Some r -> (length r < length s)%nat.
Proof.
  intros E%eat_Some. pose proof (skipWhitespace_length s) as H. rewrite E in H. simpl in H. lia.
Qed.

Lemma eat_units c s r : eat c s = Some r -> Forall is_unit s -> Forall is_unit r.
Proof. intros ->%eat_Some. by inversion 1. Qed.

Lemma parse_elements_parses P parse fuel els s :
  parses P parse -> (length s < fuel)%nat ->
  parse_elements parse fuel els s <> Throw OutOfFuel /\
  forall n r, parse_elements parse fuel els s = Ok (n, r) ->
    (length r < length s)%nat /\
    (Forall is_unit s -> Forall P els -> Forall is_unit r /\ exists els', n = NArray els' /\ Forall P els').
Proof.
  intros Hp. revert els s; induction fuel as [|fuel IH]; intros els s Hf; [lia|]. simpl.
  destruct (Hp s) as [Hno Hok]. destruct (parse s) as [[x t]|e] eqn:Hs.
  2: { split; [congruence|done]. }
  destruct (Hok x t eq_refl) as [Hlt HP]. simpl.
  destruct (eat 93 (skipWhitespace t)) as [r0|] eqn:E1.
  { split; [done|]. intros n r [= <- <-]. assert (H1 := eat_skip_length _ _ _ E1). split; [lia|].
    intros Hu Hels. destruct (HP Hu) as [Hx Ht].
    split; [by eapply eat_units, skipWhitespace_units|]. eexists. split; [done|].
    apply Forall_app. split; [done|]. by constructor. }
  destruct (eat 44 (skipWhitespace t)) as [r0|] eqn:E2; [|by split].
  assert (H1 := eat_skip_length _ _ _ E2).
  destruct (IH (els ++ [x]) r0) as [Hn1 Hok1]; [lia|]. split; [done|].
  intros n r Hr. destruct (Hok1 n r Hr) as [Hl1 Hu1]. split; [lia|].
  intros Hu Hels. destruct (HP Hu) as [Hx Ht]. apply Hu1.
  - by eapply eat_units, skipWhitespace_units.
  - apply Forall_app. split; [done|]. by constructor.
Qed.

Lemma parse_properties_parses P parse fuel ps s :
  parses P parse -> (length s < fuel)%nat ->
  parse_properties parse fuel ps s <> Throw OutOfFuel /\
  forall n r, parse_properties parse fuel ps s = Ok (n, r) ->
    (length r < length s)%nat /\
    (Forall is_unit s -> Forall (fun p => wf_text p.1 /\ P p.2) ps ->
     Forall is_unit r /\ exists ps', n = NObject ps' /\ Forall (fun p => wf_text p.1 /\ P p.2) ps').
Proof.
  intros Hp. revert ps s; induction fuel as [|fuel IH]; intros ps s Hf; [lia|]. cbn [parse_properties].
  pose proof (skipWhitespace_length s) as Hws.
  destruct (eat 34 (skipWhitespace s)) as [q|] eqn:Eq; [|by split].
  destruct (parseString (skipWhitespace s)) as [[name t0]|e] eqn:Hname.
  2: { split; [|done]. intros [= ->]. by eapply parseString_fuel. }
  apply parseString_spec in Hname as [Hl0 Hu0]. simpl.
  destruct (eat 58 (skipWhitespace t0)) as [r1|] eqn:E1; [|by split].
  assert (H1 := eat_skip_length _ _ _ E1).
  destruct (Hp r1) as [Hno Hok]. destruct (parse r1) as [[x t]|e] eqn:Hs.
  2: { split; [congruence|done]. }
  destruct (Hok x t eq_refl) as [Hlt HP]. simpl.
  assert (Forall is_unit s -> wf_text name /\ P x /\ Forall is_unit t) as Hall.
  { intros Hu. destruct (Hu0 (skipWhitespace_units _ Hu)) as [? Ht0].
    destruct HP; [|done]. by eapply eat_units, skipWhitespace_units. }
  destruct (eat 125 (skipWhitespace t)) as [r0|] eqn:E2.
  { split; [done|]. intros n r [= <- <-]. assert (H2 := eat_skip_length _ _ _ E2). split; [lia|].
    intros Hu Hps. destruct (Hall Hu) as (? & ? & ?).
    split; [by eapply eat_units, skipWhitespace_units|]. eexists. split; [done|].
    apply Forall_app. split; [done|]. by constructor. }
  destruct (eat 44 (skipWhitespace t)) as [r0|] eqn:E3; [|by split].
  assert (H2 := eat_skip_length _ _ _ E3).
  destruct (IH (ps ++ [(name, x)]) r0) as [Hn1 Hok1]; [lia|]. split; [done|].
  intros n r Hr. destruct (Hok1 n r Hr) as [Hl1 Hu1]. split; [lia|].
  intros Hu Hps. destruct (Hall Hu) as (? & ? & ?). apply Hu1.
  - by eapply eat_units, skipWhitespace_units.
  - apply Forall_app. split; [done|]. by constructor.
Qed.

Lemma parseArray_parses d parse s :
  parses (node_wf d) parse ->
  parseArray parse s <> Throw OutOfFuel /\
  forall n r, parseArray parse s = Ok (n, r) ->
    (length r < length s)%nat /\ (Forall is_unit s -> node_wf (S d) n /\ Forall is_unit r).
Proof.
  intros Hp. unfold parseArray. pose proof (skipWhitespace_length s).
  destruct (eat 93 (skipWhitespace s)) as [r0|] eqn:E.
  - split; [done|]. intros n r [= <- <-]. split; [by eapply eat_skip_length|].
    intros Hu. split; [constructor|]. by eapply eat_units, skipWhitespace_units.
  - destruct (parse_elements_parses _ parse (S (length (skipWhitespace s))) [] (skipWhitespace s) Hp)
      as [Hn Hok]; [lia|]. split; [done|]. intros n r Hr. destruct (Hok n r Hr) as [Hl Hw].
    split; [lia|]. intros Hu. destruct Hw as [? (els & -> & Hels)];
      [by apply skipWhitespace_units|constructor|]. split; [|done]. by constructor.
Qed.

Lemma parseObject_parses d parse s :
  parses (node_wf d) parse ->
  parseObject parse s <> Throw OutOfFuel /\
  forall n r, parseObject parse s = Ok (n, r) ->
    (length r < length s)%nat /\ (Forall is_unit s -> node_wf (S d) n /\ Forall is_unit r).
Proof.
  intros Hp. unfold parseObject. pose proof (skipWhitespace_length s).
  destruct (eat 125 (skipWhitespace s)) as [r0|] eqn:E.
  - split; [done|]. intros n r [= <- <-]. split; [by eapply eat_skip_length|].
    intros Hu. split; [constructor|]. by eapply eat_units, skipWhitespace_units.
  - destruct (parse_properties_parses _ parse (S (length (skipWhitespace s))) [] (skipWhitespace s) Hp)
      as [Hn Hok]; [lia|]. split; [done|]. intros n r Hr. destruct (Hok n r Hr) as [Hl Hw].
    split; [lia|]. intros Hu. destruct Hw as [? (els & -> & Hels)];
      [by apply skipWhitespace_units|constructor|]. split; [|done]. by constructor.
Qed.

(** An array or object without elements fits in any number of levels. *)
Lemma parseArray_empty parse s n r d :
  (forall s, parse s = invalid) -> parseArray parse s = Ok (n, r) -> node_wf d n.
Proof.
  intros Hp. unfold parseArray. destruct (eat _ _); [intros [= <- <-]; constructor|].
  simpl. by rewrite Hp.
Qed.

Lemma parseObject_empty parse s n r d :
  (forall s, parse s = invalid) -> parseObject parse s = Ok (n, r) -> node_wf d n.
Proof.
  intros Hp. unfold parseObject. destruct (eat _ _); [intros [= <- <-]; constructor|].
  cbn [parse_properties]. destruct (eat 34 _); [|done]. destruct (parseString _); [|done].
  destruct (eat _ _); [|done]. by rewrite Hp.
Qed.

(** The outcome of one production on the text [s] after its white space. *)
Definition outcome_ok (d : nat) (s : jstr) (o : parsed JsonNode) : Prop :=
  o <> Throw OutOfFuel /\
  forall n r, o = Ok (n, r) ->
    (length r < length s)%nat /\ (Forall is_unit s -> node_wf d n /\ Forall is_unit r).

Lemma outcome_consumed d s lex n r :
  lex <> [] -> node_wf d n -> s = lex ++ r -> outcome_ok d s (Ok (n, r)).
Proof.
  intros Hl Hn ->. split; [done|]. intros n' r' [= <- <-]. split.
  - rewrite length_app. destruct lex; simpl; [done|lia].
  - intros [_ Hr]%Forall_app. done.
Qed.

Lemma literal_ok d l v s :
  l <> [] -> node_wf d v -> outcome_ok d s (let* r := consumeLiteral l s in Ok (v, r)).
Proof.
  intros Hl Hv. destruct (consumeLiteral l s) as [r0|e] eqn:E.
  - apply consumeLiteral_spec in E. by eapply outcome_consumed.
  - revert E. unfold consumeLiteral. case_match; [done|]. by intros [= <-].
Qed.

Lemma string_ok d s : outcome_ok d s (let* p := parseString s in Ok (NString p.1, p.2)).
Proof.
  destruct (parseString s) as [[v r0]|e] eqn:E; simpl.
  - split; [done|]. intros n r [= <- <-]. apply parseString_spec in E as [Hl Hu].
    split; [done|]. intros H. destruct (Hu H). split; [by constructor|done].
  - split; [|done]. intros [= ->]. by eapply parseString_fuel.
Qed.

Lemma number_ok d s : outcome_ok d s (let* p := parseNumber s in Ok (NNumber p.1, p.2)).
Proof.
  destruct (parseNumber s) as [[lex r0]|e] eqn:E; simpl.
  - apply parseNumber_spec in E as [E Hlex].
    eapply outcome_consumed; [|by constructor|done].
    by destruct (json_number_head lex Hlex) as (c0 & l0 & -> & _).
  - split; [|done]. intros [= ->]. by eapply parseNumber_fuel.
Qed.

(** Arrays and objects: below the last level the inner parser rejects, so
    only an empty collection is accepted there. *)
Lemma collection_ok (pc : (jstr -> parsed JsonNode) -> jstr -> parsed JsonNode) parse d c t :
  (forall d parse s, parses (node_wf d) parse -> outcome_ok (S d) s (pc parse s)) ->
  (forall parse s n r d, (forall s, parse s = invalid) -> pc parse s = Ok (n, r) -> node_wf d n) ->
  (d = O /\ (forall s, parse s = invalid)) \/ (exists d', d = S d' /\ parses (node_wf d') parse) ->
  outcome_ok d (c :: t) (pc parse t).
Proof.
  intros Hpc Hempty [[-> Hinv]|(d' & -> & Hp)].
  - destruct (Hpc 0%nat parse t) as [Hn Hok]; [intros s0; rewrite Hinv; by split|].
    split; [done|]. intros n r Hr. destruct (Hok n r Hr) as [Hl Hw]. split; [simpl; lia|].
    intros [_ Hu]%Forall_cons. split; [by eapply Hempty|by apply Hw].
  - destruct (Hpc d' parse t Hp) as [Hn Hok]. split; [done|]. intros n r Hr.
    destruct (Hok n r Hr) as [Hl Hw]. split; [simpl; lia|]. intros [_ Hu]%Forall_cons. auto.
Qed.

Lemma outcome_skip d s o : outcome_ok d (skipWhitespace s) o -> outcome_ok d s o.
Proof.
  intros [Hn Hok]. split; [done|]. intros n r Hr. destruct (Hok n r Hr) as [Hl Hu].
  pose proof (skipWhitespace_length s). split; [lia|]. intros H1%skipWhitespace_units. auto.
Qed.

Lemma parseValue_parses fuel depth :
  (depth <= MAX_JSON_DEPTH)%nat -> (MAX_JSON_DEPTH + 1 < fuel + depth)%nat ->
  parses (node_wf (MAX_JSON_DEPTH - depth)) (parseValue fuel depth).
Proof.
  revert depth; induction fuel as [|fuel IH]; intros depth Hd Hf s; [lia|]. cbn [parseValue].
  rewrite decide_False by lia. apply outcome_skip. destruct (skipWhitespace s) as [|c t]; [by split|].
  set (d := (MAX_JSON_DEPTH - depth)%nat) in *.
  assert ((d = O /\ (forall s, parseValue fuel (S depth) s = invalid)) \/
    exists d', d = S d' /\ parses (node_wf d') (parseValue fuel (S depth))) as Hin.
  { destruct (decide (depth < MAX_JSON_DEPTH)%nat) as [Hlt|Hge]; [right|left].
    - exists (MAX_JSON_DEPTH - S depth)%nat. split; [lia|]. apply IH; lia.
    - split; [lia|]. intros s0. destruct fuel; [lia|]. cbn [parseValue]. by rewrite decide_True by lia. }
  destruct (c =? 110); [by apply literal_ok; [|constructor]|].
  destruct (c =? 116); [by apply literal_ok; [|constructor]|].
  destruct (c =? 102); [by apply literal_ok; [|constructor]|].
  destruct (c =? 34); [exact (string_ok d (c :: t))|].
  destruct (c =? 91); [exact (collection_ok parseArray _ d c t parseArray_parses parseArray_empty Hin)|].
  destruct (c =? 123); [exact (collection_ok parseObject _ d c t parseObject_parses parseObject_empty Hin)|].
  destruct (_ || _); [exact (number_ok d (c :: t))|by split].
Qed.

(** ** Printing and reading back *)

(** A printed value starts with a unit that no white space, no closing
    bracket and no separator is. *)
Definition starts_value (s : jstr) : Prop :=
  exists c r, s = c :: r /\ is_space c = false /\ c <> 93 /\ c <> 125.

Lemma stringify_starts d n : node_wf d n -> starts_value (stringifyJsonNode n).
Proof.
  intros H. destruct H; try (eexists _, _; split; [reflexivity|]; by split_and!).
  - destruct b; eexists _, _; (split; [reflexivity|]; by split_and!).
  - destruct (json_number_head _ H) as (c & r & -> & Hc). exists c, r. split; [done|].
    unfold is_space. lia.
Qed.

(** The parser [parse] reads the printed form of [n] wherever it stands. *)
Definition reads (parse : jstr -> parsed JsonNode) (n : JsonNode) : Prop :=
  forall r, number_continues (head r) = false -> parse (stringifyJsonNode n ++ r) = Ok (n, r).

Lemma parse_elements_print parse x els acc fuel r :
  Forall (fun n => reads parse n /\ starts_value (stringifyJsonNode n)) (x :: els) ->
  let s := join [44] (map stringifyJsonNode (x :: els)) ++ 93 :: r in
  (length s < fuel)%nat -> parse_elements parse fuel acc s = Ok (NArray (acc ++ x :: els), r).
Proof.
  revert x acc fuel; induction els as [|y els IH]; intros x acc fuel HF;
    inversion HF as [|? ? [Hx Hsx] Hels]; subst; intros s Hf;
    (destruct fuel as [|fuel]; [lia|]); cbn [parse_elements].
  - unfold s. simpl. rewrite app_nil_r. rewrite Hx by done. simpl. done.
  - assert (s = stringifyJsonNode x ++ 44 :: join [44] (map stringifyJsonNode (y :: els)) ++ 93 :: r) as Hs.
    { unfold s. cbn [map]. rewrite join_cons2. by rewrite <- !app_assoc. }
    rewrite Hs in *. rewrite Hx by done. cbn [fst snd].
    rewrite skipWhitespace_cons, eat_other, eat_cons by done.
    rewrite IH; [|done|]. { by rewrite <- app_assoc. }
    rewrite length_app in Hf. cbn [length] in Hf. lia.
Qed.

Lemma parseArray_print parse els r :
  Forall (fun n => reads parse n /\ starts_value (stringifyJsonNode n)) els ->
  parseArray parse (join [44] (map stringifyJsonNode els) ++ 93 :: r) = Ok (NArray els, r).
Proof.
  intros HF. unfold parseArray. destruct els as [|x els]; [done|].
  set (s := join _ _ ++ _). assert (starts_value s) as (c & t & Hc & Hsp & Hb & _).
  { inversion HF as [|? ? [_ (c & t & Hc & ? & ? & ?)] _]; subst. unfold s. cbn [map join]. rewrite Hc.
    eexists _, _. split; [reflexivity|]. done. }
  assert (skipWhitespace s = s) as -> by (rewrite Hc; by apply skipWhitespace_cons).
  assert (eat 93 s = None) as -> by (rewrite Hc; by apply eat_other).
  apply (parse_elements_print parse x els []); [done|apply Nat.lt_succ_diag_r].
Qed.

Abbreviation print_property := (fun p => json_quote (fst p) ++ [58] ++ stringifyJsonNode (snd p)).

Lemma parse_properties_print parse x ps acc fuel r :
  Forall (fun p => wf_text p.1 /\ reads parse p.2) (x :: ps) ->
  let s := join [44] (map print_property (x :: ps)) ++ 125 :: r in
  (length s < fuel)%nat -> parse_properties parse fuel acc s = Ok (NObject (acc ++ x :: ps), r).
Proof.
  revert x acc fuel; induction ps as [|y ps IH]; intros [name v] acc fuel HF;
    inversion HF as [|? ? [Hname Hv] Hps]; subst; intros s Hf;
    (destruct fuel as [|fuel]; [lia|]); cbn [parse_properties].
  - assert (s = json_quote name ++ 58 :: stringifyJsonNode v ++ 125 :: r) as ->.
    { unfold s. simpl. rewrite app_nil_r. by rewrite <- !app_assoc. }
    cbn [skipWhitespace json_quote app is_space Z.eqb Pos.eqb orb]. rewrite eat_cons.
    change (34 :: (quote_body name ++ [34]) ++ ?t) with (json_quote name ++ t).
    rewrite parseString_quote by done. cbn [fst snd]. rewrite skipWhitespace_cons, eat_cons by done.
    rewrite Hv by done. done.
  - assert (s = json_quote name ++ 58 :: stringifyJsonNode v ++ 44 ::
              join [44] (map print_property (y :: ps)) ++ 125 :: r) as Hs.
    { unfold s. cbn [map]. rewrite join_cons2. cbn [fst snd]. by rewrite <- !app_assoc. }
    rewrite Hs in *. cbn [skipWhitespace json_quote app is_space Z.eqb Pos.eqb orb]. rewrite eat_cons.
    change (34 :: (quote_body name ++ [34]) ++ ?t) with (json_quote name ++ t).
    rewrite parseString_quote by done. cbn [fst snd]. rewrite skipWhitespace_cons, eat_cons by done.
    rewrite Hv by done. cbn [fst snd]. rewrite skipWhitespace_cons, eat_other, eat_cons by done.
    rewrite IH; [|done|]. { by rewrite <- app_assoc. }
    rewrite !length_app in Hf. cbn [length] in Hf. rewrite !length_app in Hf. cbn [length] in Hf.
    rewrite !length_app in *. cbn [length] in *. lia.
Qed.

Lemma parseObject_print parse ps r :
  Forall (fun p => wf_text p.1 /\ reads parse p.2) ps ->
  parseObject parse (join [44] (map print_property ps) ++ 125 :: r) = Ok (NObject ps, r).
Proof.
  intros HF. unfold parseObject. destruct ps as [|x ps]; [done|].
  set (s := join _ _ ++ _). assert (exists t, s = 34 :: t) as [t Hc] by (by eexists).
  assert (skipWhitespace s = s) as -> by (by rewrite Hc).
  assert (eat 125 s = None) as -> by (by rewrite Hc).
  apply (parse_properties_print parse x ps []); [done|apply Nat.lt_succ_diag_r].
Qed.

Lemma parseValue_print d n fuel depth :
  node_wf d n -> (depth + d <= MAX_JSON_DEPTH)%nat -> (d < fuel)%nat -> reads (parseValue fuel depth) n.
Proof.
  revert n fuel depth; induction d as [d IH] using lt_wf_ind; intros n fuel depth Hn Hd Hf r Hr.
  destruct fuel as [|fuel]; [lia|]. cbn [parseValue]. rewrite decide_False by lia.
  destruct (stringify_starts d n Hn) as (c & t & Hs & Hsp & _).
  rewrite Hs. cbn [app]. rewrite skipWhitespace_cons by done.
  destruct Hn as [| d b | d s Hw | d lex Hlex | | d els Hels | | d ps Hps].
  - injection Hs as <- <-. done.
  - destruct b; injection Hs as <- <-; done.
  - change (c :: t ++ r) with ((c :: t) ++ r). rewrite <- Hs. cbn [stringifyJsonNode] in *.
    rewrite parseString_quote by done. by injection Hs as <- _.
  - change (c :: t ++ r) with ((c :: t) ++ r). rewrite <- Hs. cbn [stringifyJsonNode] in *.
    rewrite parseNumber_app by done.
    destruct (json_number_head lex Hlex) as (c0 & t0 & Hc0 & Hc). rewrite Hs in Hc0.
    injection Hc0 as -> _.
    replace (c0 =? 110) with false by lia. replace (c0 =? 116) with false by lia.
    replace (c0 =? 102) with false by lia. replace (c0 =? 34) with false by lia.
    replace (c0 =? 91) with false by lia. replace (c0 =? 123) with false by lia.
    cbn [isDigit]. unfold is_digit. replace ((c0 =? 45) || _) with true by lia. done.
  - injection Hs as <- <-. done.
  - cbn [stringifyJsonNode app] in Hs. injection Hs as <- <-. cbn [Z.eqb Pos.eqb].
    rewrite <- app_assoc. apply parseArray_print. eapply Forall_impl; [exact Hels|].
    intros n Hn. split; [apply (IH d); [lia|done|lia..]|by eapply stringify_starts].
  - injection Hs as <- <-. done.
  - cbn [stringifyJsonNode app] in Hs. injection Hs as <- <-. cbn [Z.eqb Pos.eqb].
    rewrite <- app_assoc. apply parseObject_print. eapply Forall_impl; [exact Hps|].
    intros [name n] [Hname Hn]. split; [done|]. apply (IH d); [lia|done|lia..].
Qed.

Lemma parse_of_print n : node_wf MAX_JSON_DEPTH n -> parseStrictJson (stringifyJsonNode n) = Ok n.
Proof.
  intros Hn. unfold parseStrictJson.
  pose proof (parseValue_print _ n parse_fuel 0 Hn ltac:(lia) ltac:(unfold parse_fuel; lia) [] eq_refl) as H.
  rewrite app_nil_r in H. by rewrite H.
Qed.

(** Trailing text after the document is white space only. *)
Lemma parse_accepts doc n : parseStrictJson doc = Ok n ->
  exists r, parseValue parse_fuel 0 doc = Ok (n, r) /\ skipWhitespace r = [].
Proof.
  unfold parseStrictJson. destruct (parseValue _ _ _) as [[m r]|]; [|done]. simpl.
  case_bool_decide; [|done]. intros [= ->]. eauto.
Qed.

(** ** The properties *)

(** C30: the reader terminates on every text: neither the recursion over the
    nesting nor the loops over elements, properties, digits and escapes run
    out of the fuel the model gives them, so the result is a tree or the one
    error [InvalidJsonDocumentError]. *)
Theorem strict_json_total document :
  (exists n, parseStrictJson document = Ok n) \/ parseStrictJson document = invalid.
Proof.
  unfold parseStrictJson.
  destruct (parseValue_parses parse_fuel 0 ltac:(lia) ltac:(unfold parse_fuel; lia) document) as [Hf _].
  destruct (parseValue _ _ _) as [[n r]|[]]; [|by right|done].
  simpl. case_bool_decide; [left; eauto|by right].
Qed.

(** What the reader accepts. Every tree it returns has numbers of the JSON
    grammar with their exact spelling, strings without unpaired surrogates
    and at most [MAX_JSON_DEPTH] levels of nesting; and printing such a tree
    gives a document that reads back to the same tree. *)
Theorem strict_json_sound document n :
  Forall is_unit document -> parseStrictJson document = Ok n ->
  node_wf MAX_JSON_DEPTH n /\ parseStrictJson (stringifyJsonNode n) = Ok n.
Proof.
  intros Hu (r & Hv & _)%parse_accepts.
  destruct (parseValue_parses parse_fuel 0 ltac:(lia) ltac:(unfold parse_fuel; lia) document) as [_ Hok].
  destruct (Hok n r Hv) as [_ Hw]. destruct (Hw Hu) as [Hn _]. rewrite Nat.sub_0_r in Hn.
  split; [done|]. by apply parse_of_print.
Qed.

Lemma strict_json_sound_witness :
  node_wf MAX_JSON_DEPTH (NObject [(js "aA" ++ [10], NArray [NNumber (js "1.50e+3"); NNull; NArray []])]).
Proof.
  refine (proj1 (strict_json_sound sample_document _ _ _)).
  - repeat (constructor; [unfold is_unit; split; vm_compute; discriminate|]). constructor.
  - vm_compute. reflexivity.
Defined.

(** C29: round trip. Every well-formed tree, with duplicate property names and
    any property order, is read back exactly from what the printer writes. *)
Theorem strict_json_roundtrip n :
  node_wf MAX_JSON_DEPTH n -> parseStrictJson (stringifyJsonNode n) = Ok n.
Proof. apply parse_of_print. Qed.

Lemma strict_json_roundtrip_witness :
  parseStrictJson (stringifyJsonNode
    (NObject [(js "k", NNumber (js "-0.5E9")); (js "k", NArray [NString [0; 92; 55357; 56832]])]))
  = Ok (NObject [(js "k", NNumber (js "-0.5E9")); (js "k", NArray [NString [0; 92; 55357; 56832]])]).
Proof.
  apply strict_json_roundtrip.
  assert (forall s, Forall is_unit s -> paired s = true -> wf_text s) as Hw by (intros; split; assumption).
  apply (wf_object 999). constructor; [|constructor; [|constructor]]; split; cbn [fst snd].
  1, 3: apply Hw; [repeat (constructor; [split; vm_compute; discriminate|]); constructor|reflexivity].
  - constructor. apply (json_number_intro [45] [48] (46 :: [53]) (69 :: [] ++ [57])).
    + right; reflexivity.
    + left; reflexivity.
    + right. eexists. repeat split; [discriminate|repeat constructor].
    + right. eexists _, _, _. repeat split; [right; reflexivity|left; reflexivity|discriminate|repeat constructor].
  - apply (wf_array 998). constructor; [|constructor]. constructor.
    apply Hw; [repeat (constructor; [split; vm_compute; discriminate|]); constructor|reflexivity].
Defined.
