(* ===== verification/Canonical.v ===== *)
(** * Canonical: [sdk/typescript/src/configstore/canonical.ts].

    The canonical byte form of a parameter value: JSON is parsed strictly and
    re-encoded with sorted keys, every other content type passes through.
    SHA-256 is a parameter. *)
From stdpp Require Import prelude strings.
From Stdlib Require Import ZArith Lia.
From S2P Require Import Prelude JsString Unicode Decimal StrictJson StrictJsonProofs.
Set Warnings "-register-all".

(** [string | Uint8Array] *)
Inductive payload := PText (s : jstr) | PBytes (b : list Z).

Definition wellFormed (value : jstr) : bool := paired value.

Definition invalid_utf8 : jstr := js "configstore: canonical json: invalid UTF-8".
Definition invalid_document : jstr := js "configstore: canonical json: invalid document".
Definition duplicate_key : jstr := js "configstore: canonical json: duplicate object key".

Definition decodeStrictUtf8 (value : payload) : res jstr jstr :=
  match value with
  | PText s => if wellFormed s then Ok s else Throw invalid_utf8
  | PBytes b => match utf8_decode b with Some s => Ok s | None => Throw invalid_utf8 end
  end.

(** [assertUniqueKeys]: every branch throws the same error, so the check is a
    predicate. *)
Fixpoint uniqueKeys (node : JsonNode) : bool :=
  match node with
  | NArray elements => forallb uniqueKeys elements
  | NObject properties =>
      bool_decide (NoDup (map fst properties)) && forallb (fun p => uniqueKeys (snd p)) properties
  | _ => true
  end.

Definition compare_names {A} (l r : jstr * A) : comparison := utf8_compare (fst l) (fst r).

(** The values are written before the properties are sorted by name; the
    order does not look at them. *)
Fixpoint writeCanonical (node : JsonNode) : jstr :=
  match node with
  | NNull => js "null"
  | NBool b => if b then js "true" else js "false"
  | NNumber lexeme => lexeme
  | NString s => json_quote s
  | NArray elements => [91] ++ join [44] (map writeCanonical elements) ++ [93]
  | NObject properties =>
      let sorted := js_sort compare_names (map (fun p => (fst p, writeCanonical (snd p))) properties) in
      [123] ++ join [44] (map (fun p => json_quote (fst p) ++ [58] ++ snd p) sorted) ++ [125]
  end.

Definition canonicalParameterValue (contentType : jstr) (value : payload) : res jstr (list Z) :=
  if negb (bool_decide (contentType = js "json")) then
    Ok (match value with PText s => utf8_encode s | PBytes b => b end)
  else
    let* text := decodeStrictUtf8 value in
    match parseStrictJson text with
    | Throw _ => Throw invalid_document
    | Ok node => if uniqueKeys node then Ok (utf8_encode (writeCanonical node)) else Throw duplicate_key
    end.

Section hash.
(** [sha256Hex] of [releases/digest.ts]: [node:crypto]'s SHA-256 of bytes. *)
Context (sha256Hex : list Z -> jstr).

Definition parameterHash (contentType : jstr) (value : payload) : res jstr jstr :=
  let* b := canonicalParameterValue contentType value in Ok (sha256Hex b).
End hash.

(** ** Trees up to the order of properties *)

Lemma JsonNode_ind' (P : JsonNode -> Prop) :
  P NNull -> (forall b, P (NBool b)) -> (forall s, P (NString s)) -> (forall l, P (NNumber l)) ->
  (forall els, Forall P els -> P (NArray els)) ->
  (forall ps, Forall (fun p => P (snd p)) ps -> P (NObject ps)) ->
  forall n, P n.
Proof.
  intros H1 H2 H3 H4 H5 H6. fix IH 1. intros [| | | |els|ps]; [done|done|done|done| |].
  - apply H5. induction els; constructor; auto.
  - apply H6. induction ps; constructor; auto.
Qed.

(** The same document: arrays agree in order, objects up to the order of
    their properties. *)
Inductive same_json : JsonNode -> JsonNode -> Prop :=
| same_atom n : match n with NArray _ | NObject _ => False | _ => True end -> same_json n n
| same_array els els' : Forall2 same_json els els' -> same_json (NArray els) (NArray els')
| same_object ps qs ps' :
    ps ≡ₚ qs -> Forall2 (fun p q => p.1 = q.1 /\ same_json p.2 q.2) qs ps' ->
    same_json (NObject ps) (NObject ps').

Fixpoint sort_keys (node : JsonNode) : JsonNode :=
  match node with
  | NArray elements => NArray (map sort_keys elements)
  | NObject properties =>
      NObject (js_sort compare_names (map (fun p => (fst p, sort_keys (snd p))) properties))
  | _ => node
  end.

Lemma writeCanonical_sort n : writeCanonical n = stringifyJsonNode (sort_keys n).
Proof.
  induction n as [| | | |els IH|ps IH] using JsonNode_ind'; simpl; try done.
  - do 2 f_equal. f_equal. rewrite map_map. apply map_ext_Forall, IH.
  - do 2 f_equal. f_equal.
    assert (map (fun p => (p.1, writeCanonical p.2)) ps =
            (fun p => (p.1, stringifyJsonNode p.2)) <$> map (fun p => (p.1, sort_keys p.2)) ps) as ->.
    { unfold fmap. change (list_fmap _ _ ?f ?l) with (map f l). rewrite map_map. apply map_ext_Forall.
      eapply Forall_impl; [exact IH|]. simpl. intros [] ->. done. }
    rewrite (js_sort_map (@compare_names JsonNode) (@compare_names jstr)) by done.
    change (?f <$> ?l) with (map f l). rewrite map_map. done.
Qed.

Section compare_names_facts.
Context {A : Type}.
Implicit Types x y z : jstr * A.

Lemma compare_names_flip x y : compare_names y x = CompOpp (compare_names x y).
Proof. apply utf8_compare_flip. Qed.

Lemma compare_names_trans x y z :
  compare_names x y <> Gt -> compare_names y z <> Gt -> compare_names x z <> Gt.
Proof. apply utf8_compare_trans. Qed.

Lemma sort_names_idem (l : list (jstr * A)) :
  js_sort compare_names (js_sort compare_names l) = js_sort compare_names l.
Proof.
  apply js_sort_id, js_sort_sorted; [apply compare_names_flip|apply compare_names_trans].
Qed.

(** With distinct well-formed names the sorted list depends only on the
    properties, not on their order. *)
Lemma sort_names_perm (l1 l2 : list (jstr * A)) :
  NoDup (map fst l1) -> Forall (fun p => wf_text (fst p)) l1 -> l1 ≡ₚ l2 ->
  js_sort compare_names l1 = js_sort compare_names l2.
Proof.
  intros Hnd Hwf HP. apply js_sort_unique; [apply compare_names_flip|apply compare_names_trans| |done].
  intros [n1 a1] [n2 a2] H1 H2 Heq. rewrite Forall_forall in Hwf.
  assert (n1 = n2) as -> by (eapply utf8_compare_eq; [apply (Hwf _ H1)|apply (Hwf _ H2)|done]).
  f_equal. apply list_elem_of_lookup in H1 as [i Hi], H2 as [j Hj].
  assert (i = j) as ->; [|congruence].
  eapply NoDup_lookup; [exact Hnd| |].
  - apply (list_lookup_fmap_Some_2 fst) in Hi. exact Hi.
  - apply (list_lookup_fmap_Some_2 fst) in Hj. exact Hj.
Qed.
End compare_names_facts.

Lemma sort_keys_wf d n : node_wf d n -> node_wf d (sort_keys n).
Proof.
  revert d. induction n as [| | | |els IH|ps IH] using JsonNode_ind'; intros d Hn; simpl; try done.
  - inversion Hn as [| | | | |? ? Hels| |]; subst; [constructor|]. constructor.
    rewrite Forall_forall in *. intros x (y & <- & Hy)%list_elem_of_In%in_map_iff.
    apply list_elem_of_In in Hy. auto.
  - inversion Hn as [| | | | | | |? ? Hps]; subst; [constructor|]. constructor.
    rewrite js_sort_perm. rewrite Forall_forall in *.
    intros x (y & <- & Hy)%list_elem_of_In%in_map_iff. apply list_elem_of_In in Hy. simpl.
    destruct (Hps y Hy). auto.
Qed.

Lemma sort_keys_idem n : sort_keys (sort_keys n) = sort_keys n.
Proof.
  induction n as [| | | |els IH|ps IH] using JsonNode_ind'; simpl; try done.
  - f_equal. rewrite map_map. by apply map_ext_Forall.
  - f_equal. set (g := fun p : jstr * JsonNode => (p.1, sort_keys p.2)).
    change (js_sort compare_names (g <$> js_sort compare_names (g <$> ps)) = js_sort compare_names (g <$> ps)).
    rewrite (js_sort_map compare_names compare_names g (js_sort compare_names (g <$> ps))) by done.
    rewrite sort_names_idem, <- (js_sort_map compare_names compare_names g) by done. f_equal.
    change (map g (map g ps) = map g ps). rewrite map_map. apply map_ext_Forall.
    eapply Forall_impl; [exact IH|]. unfold g. simpl. intros [] ->. done.
Qed.

Lemma forallb_map {A B} (f : B -> bool) (g : A -> B) l : forallb f (map g l) = forallb (fun x => f (g x)) l.
Proof. induction l as [|x l IH]; simpl; [done|]. by rewrite IH. Qed.

Lemma forallb_ext_Forall {A} (f g : A -> bool) l :
  Forall (fun x => f x = g x) l -> forallb f l = forallb g l.
Proof. induction 1 as [|x l Hx Hl IH]; simpl; [done|]. by rewrite Hx, IH. Qed.

Lemma forallb_perm {A} (f : A -> bool) l1 l2 : l1 ≡ₚ l2 -> forallb f l1 = forallb f l2.
Proof. induction 1; simpl; try congruence. destruct (f x), (f y); done. Qed.

Lemma uniqueKeys_sort n : uniqueKeys (sort_keys n) = uniqueKeys n.
Proof.
  induction n as [| | | |els IH|ps IH] using JsonNode_ind'; simpl; try done.
  - rewrite forallb_map. by apply forallb_ext_Forall.
  - set (qs := map _ ps). f_equal.
    + apply bool_decide_ext. assert (map fst qs = map fst ps) as <- by (unfold qs; by rewrite map_map).
      change (map fst ?l) with (fst <$> l). by rewrite js_sort_perm.
    + rewrite (forallb_perm _ _ qs) by apply js_sort_perm. unfold qs. rewrite forallb_map. simpl.
      by apply forallb_ext_Forall.
Qed.

(** ** Sorting keys decides [same_json] *)

Lemma sort_keys_same n1 n2 : sort_keys n1 = sort_keys n2 -> same_json n1 n2.
Proof.
  revert n2. induction n1 as [| | | |els IH|ps IH] using JsonNode_ind'; intros n2 Heq;
    destruct n2 as [| | | |els2|ps2]; simpl in Heq; try done.
  1, 2, 3, 4: simplify_eq; by constructor.
  - injection Heq as Heq. constructor. revert els2 Heq.
    induction IH as [|x els Hx Hels IH2]; intros [|y els2]; simpl; intros [=]; constructor; auto.
  - injection Heq as Heq. set (g := fun p : jstr * JsonNode => (p.1, sort_keys p.2)) in *.
    assert (map g ps2 ≡ₚ map g ps) as HP.
    { rewrite <- (js_sort_perm compare_names (map g ps)), <- (js_sort_perm compare_names (map g ps2)).
      by rewrite Heq. }
    apply Permutation_map_inv in HP as (qs & Hqs & HP). econstructor; [exact HP|].
    assert (Forall (fun p => forall n2, sort_keys p.2 = sort_keys n2 -> same_json p.2 n2) qs) as IHq
      by (by rewrite <- HP).
    clear -Hqs IHq. revert ps2 Hqs. induction IHq as [|[k v] qs Hx Hqs IH]; intros [|[k2 v2] ps2] Heq;
      simpl in Heq; try done. injection Heq as Hk Hv Hl.
    constructor; [|auto]. split; [done|]. by apply Hx.
Qed.

Lemma same_sort_keys d n1 n2 :
  node_wf d n1 -> uniqueKeys n1 = true -> same_json n1 n2 -> sort_keys n1 = sort_keys n2.
Proof.
  revert d n2. induction n1 as [| | | |els IH|ps IH] using JsonNode_ind'; intros d n2 Hwf Hu Hs;
    inversion Hs as [|? els2 H2|? qs ps2 HP H2]; subst; try done; simpl.
  - f_equal. simpl in Hu. assert (exists d', Forall (node_wf d') els) as [d' Hwf'].
    { inversion Hwf; subst; [exists O; constructor|eauto]. }
    clear Hwf Hs. revert IH Hu Hwf'. induction H2 as [|x y els els2 Hxy Hels IH2];
      intros IH Hu Hwf'; simpl; [done|]. simpl in Hu. apply andb_prop in Hu as [Hux Hu].
    apply Forall_cons in IH as [Hx IH], Hwf' as [Hwx Hwf']. f_equal; [by eapply Hx|by apply IH2].
  - f_equal. simpl in Hu. apply andb_prop in Hu as [Hnd Hu]. apply bool_decide_eq_true_1 in Hnd.
    assert (exists d', Forall (fun p => wf_text p.1 /\ node_wf d' p.2) ps) as [d' Hwf'].
    { inversion Hwf; subst; [exists O; constructor|eauto]. }
    set (g := fun p : jstr * JsonNode => (p.1, sort_keys p.2)).
    assert (map g qs = map g ps2) as Hg.
    { rewrite HP in IH, Hwf'. rewrite (forallb_perm _ _ _ HP) in Hu. clear -H2 IH Hwf' Hu.
      revert IH Hu Hwf'. induction H2 as [|[k v] [k2 v2] qs ps2 [Hk Hxy] Hqs IH2];
        intros IH Hu Hwf'; simpl; [done|]. simpl in *. apply andb_prop in Hu as [Hux Hu].
      apply Forall_cons in IH as [Hx IH], Hwf' as [[_ Hwx] Hwf']. f_equal; [|by apply IH2].
      unfold g. simpl in *. subst. f_equal. by eapply Hx. }
    rewrite <- Hg. apply sort_names_perm.
    + rewrite map_map. exact Hnd.
    + change (map g ?l) with (g <$> l). rewrite Forall_fmap. eapply Forall_impl; [exact Hwf'|].
      intros ? [? _]. done.
    + by apply Permutation_map.
Qed.

(** ** Printed documents are well-formed text *)

Lemma wf_text_app a b : wf_text a -> wf_text b -> wf_text (a ++ b).
Proof.
  intros Ha [Hub Hpb]. split; [apply Forall_app; split; [apply Ha|done]|]. revert a Ha. apply wf_text_ind; [done|..].
  - intros c s Hc Hl Ht Hs IH. cbn [app paired]. by rewrite Hl, Ht.
  - intros c d s Hl Ht Hs IH. cbn [app paired]. by rewrite Hl, Ht.
Qed.

Lemma ascii_wf_text s : Forall (fun c => 0 <= c < 128) s -> wf_text s.
Proof.
  induction 1 as [|c s Hc Hs [IH1 IH2]]; split; [constructor|done|constructor; [unfold is_unit; lia|done]|].
  cbn [paired]. unfold is_lead, is_trail.
  replace ((55296 <=? c) && (c <=? 56319)) with false by lia.
  replace ((56320 <=? c) && (c <=? 57343)) with false by lia. done.
Qed.

Lemma hex_digit_ascii d : 0 <= d < 16 -> 0 <= hex_digit d < 128.
Proof. unfold hex_digit. destruct (Z.ltb_spec d 10); lia. Qed.

Lemma quote_unit_wf c : is_unit c -> is_lead c = false -> is_trail c = false -> wf_text (quote_unit c).
Proof.
  intros Hc Hl Ht. unfold quote_unit, is_unit in *.
  repeat match goal with |- wf_text (if ?c =? ?k then _ else _) =>
    destruct (Z.eqb_spec c k); [apply ascii_wf_text; repeat constructor; lia|] end.
  destruct (Z.ltb_spec c 32).
  - apply ascii_wf_text. unfold unicode_escape.
    repeat (apply List.Forall_cons; [try apply hex_digit_ascii; zify_div|]). constructor.
  - split; [constructor; [unfold is_unit; lia|constructor]|]. cbn [paired]. by rewrite Hl, Ht.
Qed.

Lemma json_quote_wf s : wf_text s -> wf_text (json_quote s).
Proof.
  intros Hs. unfold json_quote. apply (wf_text_app [34]); [apply ascii_wf_text; repeat constructor; lia|].
  apply wf_text_app; [|apply ascii_wf_text; repeat constructor; lia].
  revert s Hs. apply wf_text_ind; [by split|..].
  - intros c s Hc Hl Ht Hs IH. cbn [quote_body]. rewrite Hl, Ht. apply wf_text_app; [by apply quote_unit_wf|done].
  - intros c d s Hl Ht Hs [IH1 IH2]. cbn [quote_body]. rewrite Hl, Ht. split.
    + unfold is_lead, is_trail in *. repeat (constructor; [unfold is_unit; lia|]). done.
    + cbn [paired]. by rewrite Hl, Ht.
Qed.

Lemma digits_ascii ds : all_digits ds -> Forall (fun c => 0 <= c < 128) ds.
Proof. intros H. eapply Forall_impl; [exact H|]. unfold is_digit. intros. lia. Qed.

Lemma json_number_ascii lex : json_number lex -> wf_text lex.
Proof.
  intros [sign i f e Hs Hi Hf He]. apply ascii_wf_text. repeat (apply Forall_app; split).
  - destruct Hs as [-> | ->]; repeat constructor; lia.
  - destruct Hi as [->|(c & ds & -> & Hc & Hds)]; repeat constructor; try lia. by apply digits_ascii.
  - destruct Hf as [->|(ds & -> & _ & Hds)]; repeat constructor; try lia. by apply digits_ascii.
  - destruct He as [->|(m & sg & ds & -> & Hm & Hsg & _ & Hds)]; [constructor|].
    constructor; [lia|]. apply Forall_app. split; [|by apply digits_ascii].
    destruct Hsg as [->|[->| ->]]; repeat constructor; lia.
Qed.

Lemma join_wf l : Forall wf_text l -> wf_text (join [44] l).
Proof.
  destruct 1 as [|x l Hx Hl]; [by split|]. simpl. apply wf_text_app; [done|].
  induction Hl as [|y l Hy Hl IH]; [by split|]. cbn [fmap list_fmap concat].
  apply wf_text_app; [|done]. apply (wf_text_app [44]); [|done]. apply ascii_wf_text. repeat constructor; lia.
Qed.

Ltac ascii := apply ascii_wf_text; repeat (constructor; [split; vm_compute; congruence|]); constructor.

Lemma stringify_wf_text d n : node_wf d n -> wf_text (stringifyJsonNode n).
Proof.
  revert d. induction n as [|b|s|l|els IH|ps IH] using JsonNode_ind'; intros d Hn; cbn [stringifyJsonNode].
  - ascii.
  - destruct b; ascii.
  - inversion Hn; subst. by apply json_quote_wf.
  - inversion Hn; subst. by apply json_number_ascii.
  - apply wf_text_app; [ascii|]. apply wf_text_app; [|ascii]. apply join_wf.
    inversion Hn as [| | | | |? ? Hels| |]; subst; [constructor|].
    change (map ?f ?l) with (f <$> l). rewrite Forall_fmap. rewrite Forall_forall in *.
    intros x Hx. eapply IH; [done|]. by apply Hels.
  - apply wf_text_app; [ascii|]. apply wf_text_app; [|ascii]. apply join_wf.
    inversion Hn as [| | | | | | |? ? Hps]; subst; [constructor|].
    change (map ?f ?l) with (f <$> l). rewrite Forall_fmap. rewrite Forall_forall in *.
    intros x Hx. destruct (Hps x Hx). apply (wf_text_app (json_quote x.1)); [by apply json_quote_wf|].
    apply (wf_text_app [58]); [ascii|]. by eapply IH.
Qed.

Lemma utf16_point_units p : 0 <= p <= 0x10ffff -> Forall is_unit (utf16_point p).
Proof.
  intros Hp. unfold utf16_point. destruct (Z.ltb_spec p 65536);
    repeat (apply List.Forall_cons; [unfold is_unit; zify_div|]); constructor.
Qed.

Lemma utf8_decode_units b s : utf8_decode b = Some s -> Forall is_unit s.
Proof.
  revert s. induction b as [b IH] using jstr_strong_ind. intros s.
  destruct b as [|b0 r0]; [intros [= <-]; constructor|]. cbn [utf8_decode].
  assert (forall p r, 0 <= p <= 0x10ffff -> (length r < S (length r0))%nat ->
    app (utf16_point p) <$> utf8_decode r = Some s -> Forall is_unit s) as Hpt.
  { intros p r Hp Hr. destruct (utf8_decode r) as [t|] eqn:E; [|done]. intros [= <-].
    apply Forall_app. split; [by apply utf16_point_units|]. by eapply IH. }
  destruct (Z.ltb_spec b0 128).
  { destruct (Z.leb_spec 0 b0); [|done]. destruct (utf8_decode r0) as [t|] eqn:E; [|done].
    intros [= <-]. constructor; [unfold is_unit; lia|]. eapply IH; [|done]. simpl; lia. }
  destruct ((194 <=? b0) && (b0 <=? 223)) eqn:E1.
  { destruct r0 as [|b1 r1]; [done|]. destruct (is_cont b1) eqn:C1; [|done].
    apply Hpt; [unfold is_cont in *; lia|simpl; lia]. }
  destruct ((224 <=? b0) && (b0 <=? 239)) eqn:E2.
  { destruct r0 as [|b1 [|b2 r2]]; try done. case_match eqn:C; [|done].
    apply Hpt; [unfold is_cont in *; lia|simpl; lia]. }
  destruct ((240 <=? b0) && (b0 <=? 244)) eqn:E3; [|done].
  destruct r0 as [|b1 [|b2 [|b3 r3]]]; try done. case_match eqn:C; [|done].
  apply Hpt; [lia|simpl; lia].
Qed.

(** ** The properties *)

(** The units of a JavaScript string are 16 bits wide. *)
Definition js_payload (v : payload) : Prop :=
  match v with PText s => Forall is_unit s | PBytes _ => True end.

Lemma decode_units v t : js_payload v -> decodeStrictUtf8 v = Ok t -> Forall is_unit t.
Proof.
  destruct v as [s|b]; simpl.
  - intros Hs. case_match; [|done]. by intros [= <-].
  - intros _. destruct (utf8_decode b) eqn:E; [|done]. intros [= <-]. by eapply utf8_decode_units.
Qed.

(** The tree of an accepted document is well-formed. *)
Lemma accepted_wf v t n :
  js_payload v -> decodeStrictUtf8 v = Ok t -> parseStrictJson t = Ok n -> node_wf MAX_JSON_DEPTH n.
Proof.
  intros Hv Hd (r & Hp & _)%parse_accepts. pose proof (decode_units v t Hv Hd) as Hu.
  destruct (parseValue_parses parse_fuel 0 ltac:(lia) ltac:(unfold parse_fuel; lia) t) as [_ Hok].
  destruct (Hok n r Hp) as [_ Hw]. destruct (Hw Hu) as [Hn _]. by rewrite Nat.sub_0_r in Hn.
Qed.

(** Reading the canonical bytes gives the tree with sorted keys. *)
Lemma canonical_reread n :
  node_wf MAX_JSON_DEPTH n ->
  decodeStrictUtf8 (PBytes (utf8_encode (writeCanonical n))) = Ok (writeCanonical n) /\
  parseStrictJson (writeCanonical n) = Ok (sort_keys n).
Proof.
  intros Hn. pose proof (sort_keys_wf _ _ Hn) as Hs. rewrite writeCanonical_sort. split.
  - unfold decodeStrictUtf8. rewrite utf8_roundtrip; [done|]. by eapply stringify_wf_text.
  - by apply parse_of_print.
Qed.

(** Canonicalisation is idempotent. The canonical bytes of an accepted
    value, of any content type, are their own canonical form. *)
Theorem canonical_idempotent contentType v b :
  js_payload v -> canonicalParameterValue contentType v = Ok b ->
  canonicalParameterValue contentType (PBytes b) = Ok b.
Proof.
  intros Hv. unfold canonicalParameterValue. case_bool_decide; [|done]. cbn [negb].
  destruct (decodeStrictUtf8 v) as [t|] eqn:Hd; [|done].
  destruct (parseStrictJson t) as [n|] eqn:Hp; [|done].
  destruct (uniqueKeys n) eqn:Hu; [|done]. intros [= <-].
  pose proof (accepted_wf v t n Hv Hd Hp) as Hn.
  destruct (canonical_reread n Hn) as [-> ->]. rewrite uniqueKeys_sort, Hu.
  by rewrite !writeCanonical_sort, sort_keys_idem.
Qed.

Definition json_text (s : jstr) : payload := PText ((fun c => if c =? 39 then 34 else c) <$> s).
Definition json_tree (s : jstr) : option JsonNode :=
  match parseStrictJson ((fun c => if c =? 39 then 34 else c) <$> s) with Ok n => Some n | _ => None end.

Lemma canonical_idempotent_witness : exists b,
  canonicalParameterValue (js "json") (json_text (js "{ 'b':1.0, 'a':[ ] }")) = Ok b /\
  canonicalParameterValue (js "json") (PBytes b) = Ok b.
Proof.
  eexists. split; [vm_compute; reflexivity|].
  apply (canonical_idempotent (js "json") (json_text (js "{ 'b':1.0, 'a':[ ] }"))).
  - refine (bool_decide_unpack (Forall is_unit _) _). vm_compute. exact I.
  - vm_compute. reflexivity.
Defined.

Lemma canonical_same_json v1 v2 t1 t2 n1 n2 :
  js_payload v1 -> js_payload v2 ->
  decodeStrictUtf8 v1 = Ok t1 -> decodeStrictUtf8 v2 = Ok t2 ->
  parseStrictJson t1 = Ok n1 -> parseStrictJson t2 = Ok n2 ->
  uniqueKeys n1 = true -> uniqueKeys n2 = true ->
  canonicalParameterValue (js "json") v1 = canonicalParameterValue (js "json") v2 <-> same_json n1 n2.
Proof.
  intros Hv1 Hv2 Hd1 Hd2 Hp1 Hp2 Hu1 Hu2.
  pose proof (accepted_wf v1 t1 n1 Hv1 Hd1 Hp1) as Hn1.
  pose proof (accepted_wf v2 t2 n2 Hv2 Hd2 Hp2) as Hn2.
  unfold canonicalParameterValue. rewrite bool_decide_true by done. cbn [negb].
  rewrite Hd1, Hd2, Hp1, Hp2, Hu1, Hu2. split.
  - intros [= Heq]. apply sort_keys_same.
    assert (writeCanonical n1 = writeCanonical n2) as Hw.
    { apply utf8_encode_inj; [..|done]; rewrite writeCanonical_sort;
        by eapply stringify_wf_text, sort_keys_wf. }
    destruct (canonical_reread n1 Hn1) as [_ H1]. destruct (canonical_reread n2 Hn2) as [_ H2]. congruence.
  - intros Hs. rewrite !writeCanonical_sort. by rewrite (same_sort_keys _ n1 n2 Hn1 Hu1 Hs).
Qed.

(** The canonical form decides equality of documents. Two accepted JSON
    values have the same canonical bytes exactly when they are the same tree
    up to the order of object properties: white space, escapes and key order
    do not matter, number spellings and array order do. *)
Theorem canonical_iff_same_json v1 v2 t1 t2 n1 n2 :
  js_payload v1 -> js_payload v2 ->
  decodeStrictUtf8 v1 = Ok t1 -> decodeStrictUtf8 v2 = Ok t2 ->
  parseStrictJson t1 = Ok n1 -> parseStrictJson t2 = Ok n2 ->
  uniqueKeys n1 = true -> uniqueKeys n2 = true ->
  canonicalParameterValue (js "json") v1 = canonicalParameterValue (js "json") v2 <-> same_json n1 n2.
Proof. apply canonical_same_json. Qed.

Lemma canonical_iff_same_json_witness : exists n1 n2,
  json_tree (js "{'x': [1, 2] ,'a': null}") = Some n1 /\
  json_tree (js "{'a':null,'\u0078':[1,2]}") = Some n2 /\ same_json n1 n2.
Proof.
  eexists _, _. split; [vm_compute; reflexivity|]. split; [vm_compute; reflexivity|].
  eapply (canonical_iff_same_json (json_text (js "{'x': [1, 2] ,'a': null}"))
           (json_text (js "{'a':null,'\u0078':[1,2]}"))).
  3, 4: reflexivity.
  1, 2: refine (bool_decide_unpack (Forall is_unit _) _); vm_compute; exact I.
  all: vm_compute; reflexivity.
Defined.
