(* ===== verification/DefaultsArtifact.v ===== *)
(** * DefaultsArtifact: [sdk/typescript/src/configstore/defaults-artifact.ts].

    The canonical, newline-terminated document that carries a profile's
    default parameter values next to the contract they satisfy: the encoder,
    the strict reader, and that the reader recovers what the encoder wrote. *)
From stdpp Require Import prelude strings.
From Stdlib Require Import ZArith Lia Sorted.
From S2P Require Import Prelude JsString JsMap Unicode Decimal StrictJson StrictJsonProofs Canonical.

Definition DEFAULTS_ARTIFACT_FORMAT : jstr := js "kms-config-defaults/v1".
Definition MAX_DEFAULTS_ARTIFACT_BYTES : Z := 4 * 1024 * 1024.
Definition MAX_DEFAULT_PARAMETER_VALUE_BYTES : Z := 1024 * 1024.

Inductive ContractKind := KParameter | KSecret.
#[export] Instance ContractKind_eq_dec : EqDecision ContractKind.
Proof. solve_decision. Defined.

Definition kind_text (k : ContractKind) : jstr :=
  match k with KParameter => js "parameter" | KSecret => js "secret" end.

(** A contract entry as it arrives, and as the artifact holds it. *)
Record RawEntry := { raw_alias : jstr; raw_kind : jstr; raw_contentType : option jstr }.
Record ArtifactEntry := { ae_alias : jstr; ae_kind : ContractKind; ae_contentType : jstr }.
Record ArtifactParameter := { ap_alias : jstr; ap_contentType : jstr; ap_value : jstr }.

Record DefaultsArtifact := {
  da_profile : jstr;
  da_schemaSHA256 : jstr;
  da_contract : list ArtifactEntry;
  da_parameters : list ArtifactParameter
}.

(** [parameters] is a string record: its properties, no name twice. *)
Record EncodeInput := {
  in_profile : jstr;
  in_schemaSHA256 : jstr;
  in_contract : list RawEntry;
  in_parameters : list (jstr * jstr)
}.

(** [DefaultsArtifactError], by its message. *)
Abbreviation artifact_res := (res jstr).

(** ** Lexical checks *)

Definition hasUnpairedSurrogate (value : jstr) : bool := negb (paired value).

Definition isGoWhitespace (code : Z) : bool :=
  ((0x0009 <=? code) && (code <=? 0x000d)) || (code =? 0x0020) || (code =? 0x0085) || (code =? 0x00a0)
  || (code =? 0x1680) || ((0x2000 <=? code) && (code <=? 0x200a)) || (code =? 0x2028)
  || (code =? 0x2029) || (code =? 0x202f) || (code =? 0x205f) || (code =? 0x3000).

(** [charCodeAt] past the end is [NaN], which no comparison accepts. *)
Definition hasEdgeGoWhitespace (value : jstr) : bool :=
  match head value with Some c => isGoWhitespace c | None => false end
  || match last value with Some c => isGoWhitespace c | None => false end.

(** [SCHEMA_SHA256_PATTERN] *)
Definition is_lower_hex (c : Z) : bool := is_digit c || ((97 <=? c) && (c <=? 102)).
Definition schema_pattern (value : jstr) : bool :=
  (strlen value =? 64) && forallb is_lower_hex value.

(** [ALIAS_PATTERN] *)
Definition is_letter (c : Z) : bool := ((65 <=? c) && (c <=? 90)) || ((97 <=? c) && (c <=? 122)).
Definition alias_pattern (value : jstr) : bool :=
  match value with
  | c :: r => is_letter c && (strlen r <=? 63)
              && forallb (fun c => is_letter c || is_digit c || (c =? 95) || (c =? 45)) r
  | [] => false
  end.

Definition schemaDigest (value : jstr) : artifact_res jstr :=
  if negb (bool_decide (value = [])) && negb (schema_pattern value)
  then Throw (js "schema SHA-256 is invalid") else Ok value.

Definition validateDefaultsProfile (value : jstr) : artifact_res jstr :=
  if bool_decide (value = []) || hasEdgeGoWhitespace value || hasUnpairedSurrogate value
  then Throw (js "profile is invalid") else Ok value.

Definition validAlias (value : jstr) : artifact_res jstr :=
  if alias_pattern value then Ok value else Throw (js "contract alias is invalid").

Definition contractKind (value : jstr) : artifact_res ContractKind :=
  if bool_decide (value = js "parameter") then Ok KParameter
  else if bool_decide (value = js "secret") then Ok KSecret
  else Throw (js "contract kind is invalid").

(** [Buffer.byteLength(value, "utf8")] *)
Definition byteLength (s : jstr) : Z := Z.of_nat (length (utf8_encode s)).

Definition assertValueSize (value : jstr) : artifact_res unit :=
  if hasUnpairedSurrogate value then Throw (js "parameter value is not valid UTF-8")
  else if MAX_DEFAULT_PARAMETER_VALUE_BYTES <? byteLength value
  then Throw (js "parameter value exceeds the maximum size") else Ok tt.

Definition assertArtifactSize (document : jstr) : artifact_res unit :=
  if MAX_DEFAULTS_ARTIFACT_BYTES <? byteLength document
  then Throw (js "artifact exceeds the maximum size") else Ok tt.

Definition compareText (left right : jstr) : comparison := str_compare left right.

(** ** The contract *)

Definition contentTypeInvalid (kind : ContractKind) (contentType : jstr) : bool :=
  hasEdgeGoWhitespace contentType || hasUnpairedSurrogate contentType
  || (bool_decide (kind = KParameter) && bool_decide (contentType = [])).

(** The loop of [normalizeContract]. *)
Fixpoint normalize_entries (requireSorted : bool) (entries : list RawEntry)
    (aliases : list jstr) (previous : jstr) (normalized : list ArtifactEntry)
  : artifact_res (list ArtifactEntry) :=
  match entries with
  | [] => Ok normalized
  | entry :: entries =>
      let* alias := validAlias (raw_alias entry) in
      if bool_decide (alias ∈ aliases) then Throw (js "contract contains a duplicate alias")
      else if requireSorted && negb (bool_decide (normalized = []))
              && negb (bool_decide (compareText previous alias = Lt))
      then Throw (js "contract is not sorted by alias")
      else
        let* kind := contractKind (raw_kind entry) in
        let contentType := default [] (raw_contentType entry) in
        if contentTypeInvalid kind contentType then Throw (js "contract content type is invalid")
        else normalize_entries requireSorted entries (set_add alias aliases) alias
               (normalized ++ [{| ae_alias := alias; ae_kind := kind; ae_contentType := contentType |}])
  end.

Definition compare_entries (l r : ArtifactEntry) : comparison := compareText (ae_alias l) (ae_alias r).

Definition normalizeContract (entries : list RawEntry) (requireSorted : bool)
  : artifact_res (list ArtifactEntry) :=
  if bool_decide (entries = []) then Throw (js "contract must not be empty")
  else
    let* normalized := normalize_entries requireSorted entries [] [] [] in
    Ok (if requireSorted then normalized else js_sort compare_entries normalized).

(** [new Map(contract.filter(parameter).map(alias, entry))] *)
Definition expected_parameters (contract : list ArtifactEntry) : list (jstr * ArtifactEntry) :=
  foldl (fun m e => map_set (ae_alias e) e m) [] (filter (fun e => ae_kind e = KParameter) contract).

(** ** The parameters *)

Definition mismatch : jstr := js "parameters do not exactly match the parameter contract".

(** The loop of [normalizeParameters]. *)
Fixpoint normalize_params (expected : list (jstr * ArtifactEntry)) (entries : list ArtifactParameter)
    (seen : list jstr) (previous : jstr) (normalized : list ArtifactParameter)
  : artifact_res (list ArtifactParameter) :=
  match entries with
  | [] => Ok normalized
  | entry :: entries =>
      let* alias := validAlias (ap_alias entry) in
      if bool_decide (alias ∈ seen) then Throw (js "parameters contain a duplicate alias")
      else if negb (bool_decide (normalized = [])) && negb (bool_decide (compareText previous alias = Lt))
      then Throw (js "parameters are not sorted by alias")
      else
        match map_get alias expected with
        | None => Throw mismatch
        | Some wanted =>
            if negb (bool_decide (ap_contentType entry = ae_contentType wanted)) then Throw mismatch
            else
              let* _ := assertValueSize (ap_value entry) in
              normalize_params expected entries (set_add alias seen) alias (normalized ++ [entry])
        end
  end.

Definition normalizeParameters (entries : list ArtifactParameter) (contract : list ArtifactEntry)
  : artifact_res (list ArtifactParameter) :=
  let expected := expected_parameters contract in
  if negb (bool_decide (length entries = length expected)) then Throw mismatch
  else normalize_params expected entries [] [] [].

(** ** Serialisation: [JSON.stringify] of the artifact's plain object *)

Definition contract_node (e : ArtifactEntry) : JsonNode :=
  NObject [(js "alias", NString (ae_alias e)); (js "kind", NString (kind_text (ae_kind e)));
           (js "content_type", NString (ae_contentType e))].

Definition parameter_node (p : ArtifactParameter) : JsonNode :=
  NObject [(js "alias", NString (ap_alias p)); (js "content_type", NString (ap_contentType p));
           (js "value", NString (ap_value p))].

Definition artifact_node (a : DefaultsArtifact) : JsonNode :=
  NObject [(js "format", NString DEFAULTS_ARTIFACT_FORMAT); (js "profile", NString (da_profile a));
           (js "schema_sha256", NString (da_schemaSHA256 a));
           (js "contract", NArray (map contract_node (da_contract a)));
           (js "parameters", NArray (map parameter_node (da_parameters a)))].

Definition serializeArtifact (a : DefaultsArtifact) : jstr := stringifyJsonNode (artifact_node a) ++ [10].

(** ** Encoding *)

(** The loop over the sorted parameter aliases. *)
Fixpoint encode_params (expected : list (jstr * ArtifactEntry)) (record : list (jstr * jstr))
    (aliases : list jstr) : artifact_res (list ArtifactParameter) :=
  match aliases with
  | [] => Ok []
  | alias :: aliases =>
      match map_get alias expected, map_get alias record with
      | Some contractEntry, Some value =>
          let* _ := assertValueSize value in
          let* rest := encode_params expected record aliases in
          Ok ({| ap_alias := alias; ap_contentType := ae_contentType contractEntry; ap_value := value |} :: rest)
      | _, _ => Throw mismatch
      end
  end.

Definition encode_artifact (input : EncodeInput) : artifact_res DefaultsArtifact :=
  let* profile := validateDefaultsProfile (in_profile input) in
  let* schemaSHA256 := schemaDigest (in_schemaSHA256 input) in
  let* contract := normalizeContract (in_contract input) false in
  let expected := expected_parameters contract in
  let aliases := js_sort compareText (map fst (in_parameters input)) in
  if negb (bool_decide (length aliases = length expected)) then Throw mismatch
  else
    let* parameters := encode_params expected (in_parameters input) aliases in
    Ok {| da_profile := profile; da_schemaSHA256 := schemaSHA256;
          da_contract := contract; da_parameters := parameters |}.

Definition encodeDefaultsArtifact (input : EncodeInput) : artifact_res jstr :=
  let* artifact := encode_artifact input in
  let document := serializeArtifact artifact in
  let* _ := assertArtifactSize document in
  Ok document.

(** ** Parsing *)

Definition structure_invalid : jstr := js "artifact structure is invalid".

Fixpoint exact_properties (names : list jstr) (properties : list (jstr * JsonNode))
    (result : list (jstr * JsonNode)) : artifact_res (list (jstr * JsonNode)) :=
  match properties with
  | [] => Ok result
  | (name, v) :: properties =>
      if negb (bool_decide (name ∈ names)) then Throw (js "artifact contains an unknown property")
      else if map_has name result then Throw (js "artifact contains a duplicate property")
      else exact_properties names properties (map_set name v result)
  end.

Definition exactObject (node : JsonNode) (names : list jstr) : artifact_res (list (jstr * JsonNode)) :=
  match node with
  | NObject properties =>
      let* result := exact_properties names properties [] in
      if negb (bool_decide (length result = length names))
      then Throw (js "artifact is missing a required property") else Ok result
  | _ => Throw structure_invalid
  end.

Definition arrayNode (node : option JsonNode) : artifact_res (list JsonNode) :=
  match node with Some (NArray elements) => Ok elements | _ => Throw structure_invalid end.

Definition stringNode (node : option JsonNode) : artifact_res jstr :=
  match node with Some (NString value) => Ok value | _ => Throw structure_invalid end.

Definition parseContractEntry (node : JsonNode) : artifact_res RawEntry :=
  let* properties := exactObject node [js "alias"; js "kind"; js "content_type"] in
  let* alias := stringNode (map_get (js "alias") properties) in
  let* text := stringNode (map_get (js "kind") properties) in
  let* kind := contractKind text in
  let* contentType := stringNode (map_get (js "content_type") properties) in
  Ok {| raw_alias := alias; raw_kind := kind_text kind; raw_contentType := Some contentType |}.

Definition parseParameterEntry (node : JsonNode) : artifact_res ArtifactParameter :=
  let* properties := exactObject node [js "alias"; js "content_type"; js "value"] in
  let* alias := stringNode (map_get (js "alias") properties) in
  let* contentType := stringNode (map_get (js "content_type") properties) in
  let* value := stringNode (map_get (js "value") properties) in
  Ok {| ap_alias := alias; ap_contentType := contentType; ap_value := value |}.

Definition decodeDocument (document : payload) : artifact_res jstr :=
  match document with
  | PText s => if hasUnpairedSurrogate s then Throw (js "artifact must be UTF-8 JSON") else Ok s
  | PBytes b =>
      if MAX_DEFAULTS_ARTIFACT_BYTES <? Z.of_nat (length b)
      then Throw (js "artifact exceeds the maximum size")
      else match utf8_decode b with
           | Some s => Ok s
           | None => Throw (js "artifact must be UTF-8 JSON")
           end
  end.

Definition parse_root (root : JsonNode) : artifact_res DefaultsArtifact :=
  let* properties := exactObject root
    [js "format"; js "profile"; js "schema_sha256"; js "contract"; js "parameters"] in
  let* format := stringNode (map_get (js "format") properties) in
  if negb (bool_decide (format = DEFAULTS_ARTIFACT_FORMAT)) then Throw (js "format is unsupported")
  else
    let* text := stringNode (map_get (js "profile") properties) in
    let* profile := validateDefaultsProfile text in
    let* text := stringNode (map_get (js "schema_sha256") properties) in
    let* schemaSHA256 := schemaDigest text in
    let* nodes := arrayNode (map_get (js "contract") properties) in
    let* rawContract := res_map parseContractEntry nodes in
    let* contract := normalizeContract rawContract true in
    let* nodes := arrayNode (map_get (js "parameters") properties) in
    let* rawParameters := res_map parseParameterEntry nodes in
    let* parameters := normalizeParameters rawParameters contract in
    Ok {| da_profile := profile; da_schemaSHA256 := schemaSHA256;
          da_contract := contract; da_parameters := parameters |}.

Definition parseDefaultsArtifact (document : payload) : artifact_res DefaultsArtifact :=
  let* source := decodeDocument document in
  let* _ := assertArtifactSize source in
  match parseStrictJson source with
  | Throw _ => Throw (js "artifact is not valid JSON")
  | Ok root => parse_root root
  end.

(** ** What a normalised contract is *)

Definition entry_ok (e : ArtifactEntry) : Prop :=
  alias_pattern (ae_alias e) = true /\ contentTypeInvalid (ae_kind e) (ae_contentType e) = false.

Definition raw_of (e : ArtifactEntry) : RawEntry :=
  {| raw_alias := ae_alias e; raw_kind := kind_text (ae_kind e); raw_contentType := Some (ae_contentType e) |}.

Definition text_lt (a b : jstr) : Prop := compareText a b = Lt.

Lemma contractKind_text k : contractKind (kind_text k) = Ok k.
Proof. by destruct k. Qed.

Lemma normalize_entries_sound rs entries aliases previous normalized out :
  normalize_entries rs entries aliases previous normalized = Ok out ->
  exists new, out = normalized ++ new /\ Forall entry_ok new /\
    NoDup (map ae_alias new) /\ (forall a, a ∈ map ae_alias new -> a ∉ aliases) /\
    length new = length entries /\
    (forall a, a ∈ map ae_alias new -> a ∈ map raw_alias entries) /\
    (Forall (fun e => forall a, raw_contentType e = Some a -> Forall is_unit a) entries ->
     Forall (fun e => Forall is_unit (ae_contentType e)) new).
Proof.
  revert aliases previous normalized; induction entries as [|e entries IH];
    intros aliases previous normalized; cbn [normalize_entries].
  { intros [= <-]. exists []. rewrite app_nil_r. cbn [map]. split_and!; try done; try constructor;
      intros a Ha; by apply not_elem_of_nil in Ha. }
  unfold validAlias. destruct (alias_pattern (raw_alias e)) eqn:Ha; [|done].
  case_bool_decide as Hin; [done|]. case_match; [done|].
  destruct (contractKind (raw_kind e)) as [k|] eqn:Hk; [|done].
  destruct (contentTypeInvalid k _) eqn:Hc; [done|].
  intros (new & -> & Hok & Hnd & Hfresh & Hlen & Hsub & Hu)%IH.
  eexists (_ :: new). rewrite <- app_assoc. split; [done|]. cbn [map].
  assert (raw_alias e ∉ map ae_alias new) as Hne
    by (intros H1%Hfresh; apply H1, elem_of_set_add; by left).
  split_and!.
  - by constructor.
  - by constructor.
  - intros a [->|Hn]%elem_of_cons; [done|]. apply Hfresh in Hn. rewrite elem_of_set_add in Hn. tauto.
  - simpl. lia.
  - intros a [->|Hn]%elem_of_cons; [by left|]. right. auto.
  - intros [He Hes]%Forall_cons. constructor; [|auto]. simpl.
    destruct (raw_contentType e); simpl; [auto|constructor].
Qed.

(** Strictly sorted and valid entries are accepted as they are. *)
Lemma normalize_entries_sorted es aliases previous normalized :
  Forall entry_ok es -> StronglySorted text_lt (map ae_alias es) ->
  (forall e, e ∈ es -> ae_alias e ∉ aliases) ->
  (normalized <> [] -> Forall (text_lt previous) (map ae_alias es)) ->
  normalize_entries true (map raw_of es) aliases previous normalized = Ok (normalized ++ es).
Proof.
  revert aliases previous normalized; induction es as [|[a k ct] es IH];
    intros aliases previous normalized Hok Hs Hf Hp; cbn [map normalize_entries raw_of].
  { by rewrite app_nil_r. }
  apply Forall_cons in Hok as [[Ha Hct] Hok]. cbn [map] in Hs. inversion Hs as [|? ? Hs' Hlt]; subst.
  unfold raw_of at 1 2 3 4. cbn [raw_alias raw_kind raw_contentType ae_alias ae_kind ae_contentType from_option id] in *.
  unfold validAlias. rewrite Ha, contractKind_text, Hct.
  rewrite (bool_decide_eq_false_2 (a ∈ aliases)) by (apply (Hf _ (list_elem_of_here _ _))).
  replace (true && negb (bool_decide (normalized = [])) && negb (bool_decide (compareText previous a = Lt)))
    with false.
  2: { destruct (decide (normalized = [])) as [->|Hne]; [done|].
       specialize (Hp Hne). cbn [map] in Hp. apply Forall_cons in Hp as [Hp _].
       rewrite (bool_decide_eq_true_2 (compareText previous a = Lt)) by done. by rewrite andb_false_r. }
  rewrite IH; [by rewrite <- app_assoc|done|done| |by intros _].
  intros e He. rewrite elem_of_set_add. intros [Heq|Hin]; [|by apply (Hf e); [right|]].
  rewrite Forall_forall in Hlt. specialize (Hlt (ae_alias e)).
  assert (text_lt a (ae_alias e)) as Hl by (apply Hlt; by apply list_elem_of_fmap_2).
  rewrite Heq in Hl. unfold text_lt, compareText in Hl. by rewrite str_compare_refl in Hl.
Qed.

Section sorting.
Context {A : Type} (key : A -> jstr).
Definition by_key (l r : A) : comparison := compareText (key l) (key r).

(** Sorting distinct keys gives a strictly increasing list. *)
Lemma sort_strict l :
  NoDup (map key l) -> StronglySorted text_lt (map key (js_sort by_key l)).
Proof.
  intros Hnd. assert (sorted_by by_key (js_sort by_key l)) as Hs.
  { apply js_sort_sorted; intros; [apply str_compare_flip|by eapply str_compare_trans]. }
  assert (NoDup (map key (js_sort by_key l))) as Hnd'.
  { change (map key ?l) with (key <$> l) in *. by rewrite js_sort_perm. }
  unfold sorted_by in Hs. induction Hs as [|x l' Hl IH Hx]; simpl; [constructor|].
  cbn [map] in Hnd'. apply NoDup_cons in Hnd' as [Hn Hnd']. constructor; [by apply IH|].
  rewrite Forall_forall. intros k Hk. rewrite Forall_forall in Hx.
  apply list_elem_of_In, in_map_iff in Hk as (y & <- & Hy%list_elem_of_In).
  specialize (Hx y Hy). unfold by_key in Hx. unfold text_lt.
  destruct (compareText (key x) (key y)) eqn:E; [|done|done].
  apply str_compare_eq in E. exfalso. apply Hn. rewrite E. by apply list_elem_of_fmap_2.
Qed.
End sorting.

(** ** What the parameters are *)

Definition param_ok (expected : list (jstr * ArtifactEntry)) (p : ArtifactParameter) : Prop :=
  alias_pattern (ap_alias p) = true /\
  (exists e, map_get (ap_alias p) expected = Some e /\ ap_contentType p = ae_contentType e) /\
  assertValueSize (ap_value p) = Ok tt.

Lemma normalize_params_sorted expected ps seen previous normalized :
  Forall (param_ok expected) ps -> StronglySorted text_lt (map ap_alias ps) ->
  (forall p, p ∈ ps -> ap_alias p ∉ seen) ->
  (normalized <> [] -> Forall (text_lt previous) (map ap_alias ps)) ->
  normalize_params expected ps seen previous normalized = Ok (normalized ++ ps).
Proof.
  revert seen previous normalized; induction ps as [|p ps IH];
    intros seen previous normalized Hok Hs Hf Hp; cbn [map normalize_params].
  { by rewrite app_nil_r. }
  apply Forall_cons in Hok as [(Ha & (e & He & Hct) & Hv) Hok]. cbn [map] in Hs.
  inversion Hs as [|? ? Hs' Hlt]; subst. unfold validAlias. rewrite Ha.
  rewrite (bool_decide_eq_false_2 (ap_alias p ∈ seen)) by (apply (Hf _ (list_elem_of_here _ _))).
  replace (negb (bool_decide (normalized = [])) && negb (bool_decide (compareText previous (ap_alias p) = Lt)))
    with false.
  2: { destruct (decide (normalized = [])) as [->|Hne]; [done|].
       specialize (Hp Hne). cbn [map] in Hp. apply Forall_cons in Hp as [Hp _].
       rewrite (bool_decide_eq_true_2 (compareText previous (ap_alias p) = Lt)) by done. by rewrite andb_false_r. }
  rewrite He, Hct, bool_decide_true, Hv by done. cbn [negb].
  rewrite IH; [by rewrite <- app_assoc|done|done| |by intros _].
  intros q Hq. rewrite elem_of_set_add. intros [Heq|Hin]; [|by apply (Hf q); [right|]].
  rewrite Forall_forall in Hlt. specialize (Hlt (ap_alias q)).
  assert (text_lt (ap_alias p) (ap_alias q)) as Hl by (apply Hlt; by apply list_elem_of_fmap_2).
  rewrite Heq in Hl. unfold text_lt, compareText in Hl. by rewrite str_compare_refl in Hl.
Qed.

Lemma encode_params_sound expected record aliases ps :
  encode_params expected record aliases = Ok ps ->
  map ap_alias ps = aliases /\
  Forall (fun p => (exists e, map_get (ap_alias p) expected = Some e /\ ap_contentType p = ae_contentType e) /\
    assertValueSize (ap_value p) = Ok tt /\ map_get (ap_alias p) record = Some (ap_value p)) ps.
Proof.
  revert ps; induction aliases as [|a aliases IH]; intros ps; cbn [encode_params].
  { intros [= <-]. split; [done|constructor]. }
  destruct (map_get a expected) as [e|] eqn:He; [|done].
  destruct (map_get a record) as [v|] eqn:Hv; [|done].
  destruct (assertValueSize v) as [[]|] eqn:Hs; [|done].
  destruct (encode_params _ _ _) as [rest|] eqn:Hr; [|done]. intros [= <-].
  destruct (IH rest eq_refl) as [Hm HF]. split; [simpl; by rewrite Hm|].
  constructor; [|done]. simpl. eauto.
Qed.

Lemma expected_get c a e :
  map_get a (expected_parameters c) = Some e -> ae_alias e = a /\ e ∈ c.
Proof.
  unfold expected_parameters. set (l := filter _ c).
  assert (forall x, x ∈ l -> x ∈ c) as Hl by (intros x [_ ?]%list_elem_of_filter; done).
  enough (forall m, (forall a e, map_get a m = Some e -> ae_alias e = a /\ e ∈ c) ->
    forall a e, map_get a (foldl (fun m e => map_set (ae_alias e) e m) m l) = Some e ->
      ae_alias e = a /\ e ∈ c) as H by (apply H; done).
  clear a e. induction l as [|x l IH]; intros m Hm a e; simpl; [apply Hm|].
  apply IH; [set_solver|]. intros a' e'. rewrite map_get_set. case_decide as Hd; [|apply Hm].
  intros [= <-]. split; [done|]. apply Hl. left.
Qed.

(** ** Reading back *)

Lemma res_map_map {E A B C} (f : B -> res E C) (g : A -> B) (h : A -> C) l :
  (forall x, x ∈ l -> f (g x) = Ok (h x)) -> res_map f (map g l) = Ok (map h l).
Proof.
  induction l as [|x l IH]; intros H; simpl; [done|].
  rewrite H by left. rewrite IH by (intros; apply H; by right). done.
Qed.

Lemma parseContractEntry_node e : parseContractEntry (contract_node e) = Ok (raw_of e).
Proof. destruct e as [a [] ct]; reflexivity. Qed.

Lemma parseParameterEntry_node p : parseParameterEntry (parameter_node p) = Ok p.
Proof. destruct p; reflexivity. Qed.

(** What the encoder guarantees of the artifact it writes. *)
Record artifact_ok (a : DefaultsArtifact) : Prop := {
  ao_profile : validateDefaultsProfile (da_profile a) = Ok (da_profile a);
  ao_schema : schemaDigest (da_schemaSHA256 a) = Ok (da_schemaSHA256 a);
  ao_nonempty : da_contract a <> [];
  ao_entries : Forall entry_ok (da_contract a);
  ao_sorted : StronglySorted text_lt (map ae_alias (da_contract a));
  ao_params : Forall (param_ok (expected_parameters (da_contract a))) (da_parameters a);
  ao_params_sorted : StronglySorted text_lt (map ap_alias (da_parameters a));
  ao_length : length (da_parameters a) = length (expected_parameters (da_contract a))
}.

Lemma parse_root_node a : artifact_ok a -> parse_root (artifact_node a) = Ok a.
Proof.
  intros [Hp Hs Hne Hes Hss Hps Hpss Hlen]. unfold parse_root, artifact_node.
  set (c := NArray (map contract_node _)). set (q := NArray (map parameter_node _)).
  set (m := [(js "format", NString DEFAULTS_ARTIFACT_FORMAT); (js "profile", NString (da_profile a));
    (js "schema_sha256", NString (da_schemaSHA256 a)); (js "contract", c); (js "parameters", q)]).
  assert (exactObject (NObject m)
    [js "format"; js "profile"; js "schema_sha256"; js "contract"; js "parameters"] = Ok m) as -> by reflexivity.
  assert (map_get (js "format") m = Some (NString DEFAULTS_ARTIFACT_FORMAT)) as -> by reflexivity.
  assert (map_get (js "profile") m = Some (NString (da_profile a))) as -> by reflexivity.
  assert (map_get (js "schema_sha256") m = Some (NString (da_schemaSHA256 a))) as -> by reflexivity.
  assert (map_get (js "contract") m = Some c) as -> by reflexivity.
  assert (map_get (js "parameters") m = Some q) as -> by reflexivity.
  cbn [stringNode]. rewrite bool_decide_true by done. cbn [negb].
  rewrite Hp, Hs. unfold c, q. cbn [arrayNode].
  rewrite (res_map_map _ _ raw_of) by (intros; apply parseContractEntry_node).
  unfold normalizeContract. rewrite bool_decide_false by (by destruct (da_contract a)).
  rewrite normalize_entries_sorted; [|done|done|intros; apply not_elem_of_nil|done]. cbn [app].
  rewrite (res_map_map _ _ (fun p => p)) by (intros; apply parseParameterEntry_node).
  rewrite (map_id (da_parameters a)). unfold normalizeParameters.
  rewrite bool_decide_true by done. cbn [negb].
  rewrite normalize_params_sorted; [|done|done|intros; apply not_elem_of_nil|done]. by destruct a.
Qed.

Lemma encode_artifact_ok input a :
  NoDup (map fst (in_parameters input)) -> encode_artifact input = Ok a -> artifact_ok a.
Proof.
  intros Hnd. unfold encode_artifact.
  destruct (validateDefaultsProfile (in_profile input)) as [profile|] eqn:Hp; [|done].
  destruct (schemaDigest (in_schemaSHA256 input)) as [schema|] eqn:Hs; [|done].
  destruct (normalizeContract _ _) as [c|] eqn:Hc; [|done].
  case_bool_decide as Hlen; [|done]. cbn [negb].
  destruct (encode_params _ _ _) as [ps|] eqn:Hps; [|done]. intros [= <-].
  assert (validateDefaultsProfile profile = Ok profile) as Hp'.
  { revert Hp. unfold validateDefaultsProfile. case_match eqn:E; [done|]. intros [= <-]. by rewrite E. }
  assert (schemaDigest schema = Ok schema) as Hs'.
  { revert Hs. unfold schemaDigest. case_match eqn:E; [done|]. intros [= <-]. by rewrite E. }
  revert Hc. unfold normalizeContract. case_bool_decide as Hne; [done|].
  destruct (normalize_entries _ _ _ _ _) as [norm|] eqn:Hn; [|done]. intros [= <-].
  apply normalize_entries_sound in Hn as (new & -> & Hok & Hnda & _ & Hl & _). cbn [app] in *.
  apply encode_params_sound in Hps as [Hal HF].
  assert (Forall entry_ok (js_sort compare_entries new)) as Hok' by (by rewrite js_sort_perm).
  split; cbn [da_profile da_schemaSHA256 da_contract da_parameters]; try done.
  - intros Hnil. apply (f_equal length) in Hnil. rewrite js_sort_length in Hnil.
    destruct (in_contract input); [done|]. simpl in *. lia.
  - by apply (sort_strict ae_alias).
  - eapply Forall_impl; [exact HF|]. intros p ((e & He & Hct) & Hv & _). split_and!; [|eauto|done].
    apply expected_get in He as [<- Hin]. rewrite Forall_forall in Hok'. by apply Hok'.
  - rewrite Hal. pose proof (sort_strict (fun x : jstr => x) (map fst (in_parameters input))) as H.
    rewrite !map_id in H. apply H, Hnd.
  - rewrite <- Hlen, <- Hal. by rewrite length_map.
Qed.

(** ** The document is well-formed text *)

Lemma ascii_forallb (P : Z -> bool) s :
  (forall c, P c = true -> 0 <= c < 128) -> forallb P s = true -> wf_text s.
Proof.
  intros HP Hs. apply ascii_wf_text. rewrite Forall_forall. intros c Hc.
  apply HP. apply forallb_forall with (x := c) in Hs; [done|]. by apply list_elem_of_In.
Qed.

Lemma alias_wf_text a : alias_pattern a = true -> wf_text a.
Proof.
  destruct a as [|c r]; [done|]. cbn [alias_pattern]. intros H. bool_prop.
  apply (wf_text_app [c]).
  - apply ascii_wf_text. constructor; [unfold is_letter in *; lia|constructor].
  - eapply ascii_forallb; [|done]. intros d. unfold is_letter, is_digit. lia.
Qed.

Lemma schema_wf_text s : schemaDigest s = Ok s -> wf_text s.
Proof.
  unfold schemaDigest. case_bool_decide as E; [by subst|]. destruct (schema_pattern s) eqn:Hp; [|done].
  intros _. unfold schema_pattern in Hp. bool_prop. eapply ascii_forallb; [|done].
  intros d. unfold is_lower_hex, is_digit. lia.
Qed.

Lemma paired_wf_text s : Forall is_unit s -> hasUnpairedSurrogate s = false -> wf_text s.
Proof. intros Hu Hs. split; [done|]. unfold hasUnpairedSurrogate in Hs. by apply negb_false_iff. Qed.

Definition units_artifact (a : DefaultsArtifact) : Prop :=
  Forall is_unit (da_profile a) /\ Forall (fun e => Forall is_unit (ae_contentType e)) (da_contract a) /\
  Forall (fun p => Forall is_unit (ap_value p)) (da_parameters a).

Ltac ascii_js := apply ascii_wf_text; repeat (constructor; [split; vm_compute; congruence|]); constructor.

Lemma object_wf d ps :
  Forall (fun p => wf_text p.1 /\ exists s, p.2 = NString s /\ wf_text s) ps -> node_wf (S d) (NObject ps).
Proof.
  intros H. constructor. eapply Forall_impl; [exact H|]. intros [k v] [Hk (s & -> & Hs)].
  split; [done|by constructor].
Qed.

Lemma artifact_node_wf a : artifact_ok a -> units_artifact a -> node_wf MAX_JSON_DEPTH (artifact_node a).
Proof.
  intros [Hp Hs Hne Hes Hss Hps Hpss Hlen] (Hup & Huc & Huv). apply (wf_object 999).
  rewrite Forall_forall in Hes. rewrite Forall_forall in Hps.
  rewrite Forall_forall in Huc. rewrite Forall_forall in Huv.
  repeat (apply List.Forall_cons; [split; [ascii_js|]|]); [..|constructor]; cbn [snd].
  - constructor. ascii_js.
  - constructor. apply paired_wf_text; [done|]. revert Hp. unfold validateDefaultsProfile.
    destruct (hasUnpairedSurrogate (da_profile a)); [|done]. by rewrite orb_true_r.
  - constructor. by apply schema_wf_text.
  - apply (wf_array 998). change (map ?f ?l) with (f <$> l). rewrite Forall_fmap.
    rewrite Forall_forall. intros e He. destruct (Hes e He) as [Ha Hct].
    apply (object_wf 997). repeat (apply List.Forall_cons; [split; [ascii_js|eexists; split; [reflexivity|]]|]);
      [..|constructor].
    + by apply alias_wf_text.
    + destruct (ae_kind e); ascii_js.
    + apply paired_wf_text; [by apply Huc|]. unfold contentTypeInvalid in Hct. bool_prop. done.
  - apply (wf_array 998). change (map ?f ?l) with (f <$> l). rewrite Forall_fmap.
    rewrite Forall_forall. intros p Hin. destruct (Hps p Hin) as (Ha & (e & He & Hct) & Hv).
    apply expected_get in He as [_ He]. destruct (Hes e He) as [_ Hbad].
    apply (object_wf 997). repeat (apply List.Forall_cons; [split; [ascii_js|eexists; split; [reflexivity|]]|]);
      [..|constructor].
    + by apply alias_wf_text.
    + rewrite Hct. apply paired_wf_text; [by apply Huc|]. unfold contentTypeInvalid in Hbad. bool_prop. done.
    + apply paired_wf_text; [by apply Huv|]. revert Hv. unfold assertValueSize. by case_match.
Qed.

(** The strings of an input are JavaScript strings. *)
Definition units_input (i : EncodeInput) : Prop :=
  Forall is_unit (in_profile i) /\
  Forall (fun e => forall t, raw_contentType e = Some t -> Forall is_unit t) (in_contract i) /\
  Forall (fun p => Forall is_unit p.2) (in_parameters i).

Lemma encode_units input a :
  encode_artifact input = Ok a -> units_input input -> units_artifact a.
Proof.
  unfold encode_artifact. intros H (Hup & Huc & Huv).
  destruct (validateDefaultsProfile (in_profile input)) as [profile|] eqn:Hp; [|done].
  destruct (schemaDigest (in_schemaSHA256 input)) as [schema|] eqn:Hs; [|done].
  destruct (normalizeContract _ _) as [c|] eqn:Hc; [|done].
  destruct (negb _); [done|]. destruct (encode_params _ _ _) as [ps|] eqn:Hps; [|done].
  injection H as <-. split_and!; cbn [da_profile da_contract da_parameters].
  - revert Hp. unfold validateDefaultsProfile. case_match; [done|]. by intros [= <-].
  - revert Hc. unfold normalizeContract. case_bool_decide; [done|].
    destruct (normalize_entries _ _ _ _ _) as [norm|] eqn:Hn; [|done]. intros [= <-].
    apply normalize_entries_sound in Hn as (new & -> & _ & _ & _ & _ & _ & Hu). rewrite js_sort_perm. auto.
  - apply encode_params_sound in Hps as [_ HF]. rewrite Forall_forall in HF.
    rewrite Forall_forall in Huv. rewrite Forall_forall. intros p Hin.
    destruct (HF p Hin) as (_ & _ & Hg). apply map_get_Some_elem in Hg. exact (Huv _ Hg).
Qed.

(** ** The properties *)

(** C31: round trip. Whatever the encoder writes, given as text or as UTF-8
    bytes, the strict reader accepts, and recovers the artifact: the profile,
    the schema digest, the contract sorted by alias and every parameter with
    its content type and its exact value. *)
Theorem defaults_roundtrip input document :
  units_input input -> NoDup (map fst (in_parameters input)) ->
  encodeDefaultsArtifact input = Ok document ->
  exists a, encode_artifact input = Ok a /\
    parseDefaultsArtifact (PText document) = Ok a /\
    parseDefaultsArtifact (PBytes (utf8_encode document)) = Ok a.
Proof.
  intros Hu Hnd. unfold encodeDefaultsArtifact.
  destruct (encode_artifact input) as [a|] eqn:Ha; [|done].
  destruct (assertArtifactSize (serializeArtifact a)) as [[]|] eqn:Hsz; [|done]. intros [= <-].
  exists a. split; [done|].
  pose proof (encode_artifact_ok input a Hnd Ha) as Hok.
  pose proof (artifact_node_wf a Hok (encode_units input a Ha Hu)) as Hwf.
  assert (wf_text (serializeArtifact a)) as Htext.
  { unfold serializeArtifact. apply wf_text_app; [by eapply stringify_wf_text|ascii_js]. }
  assert (parseStrictJson (serializeArtifact a) = Ok (artifact_node a)) as Hparse.
  { unfold parseStrictJson, serializeArtifact.
    rewrite (parseValue_print _ _ parse_fuel 0 Hwf ltac:(lia) ltac:(unfold parse_fuel; lia) [10] eq_refl). done. }
  unfold parseDefaultsArtifact, decodeDocument. split.
  - destruct Htext as [_ Ht]. unfold hasUnpairedSurrogate. rewrite Ht. cbn [negb].
    rewrite Hsz, Hparse. by apply parse_root_node.
  - rewrite utf8_roundtrip by done. revert Hsz. unfold assertArtifactSize, byteLength.
    destruct (_ <? _) eqn:E; [done|]. intros _. rewrite E, Hparse. by apply parse_root_node.
Qed.

Definition sample_input : EncodeInput :=
  {| in_profile := js "prod"; in_schemaSHA256 := [];
     in_contract := [{| raw_alias := js "port"; raw_kind := js "parameter"; raw_contentType := Some (js "json") |};
                     {| raw_alias := js "dbPassword"; raw_kind := js "secret"; raw_contentType := None |};
                     {| raw_alias := js "host"; raw_kind := js "parameter"; raw_contentType := Some (js "text") |}];
     in_parameters := [(js "port", js "8080"); (js "host", js "db")] |}.

Lemma defaults_roundtrip_witness : exists document a,
  encodeDefaultsArtifact sample_input = Ok document /\ parseDefaultsArtifact (PText document) = Ok a /\
  map ae_alias (da_contract a) = [js "dbPassword"; js "host"; js "port"].
Proof.
  destruct (encodeDefaultsArtifact sample_input) as [document|e] eqn:E; [|vm_compute in E; discriminate].
  destruct (defaults_roundtrip sample_input document) as (a & Ha & Hp & _).
  - split_and!; [refine (bool_decide_unpack (Forall is_unit _) _); vm_compute; exact I| |
                 refine (bool_decide_unpack (Forall (fun p => Forall is_unit p.2) _) _); vm_compute; exact I].
    repeat constructor; intros t Ht; try discriminate Ht; injection Ht as <-;
      refine (bool_decide_unpack (Forall is_unit _) _); vm_compute; exact I.
  - refine (bool_decide_unpack (NoDup (map fst (in_parameters sample_input))) _). vm_compute. exact I.
  - exact E.
  - exists document, a. split; [reflexivity|]. split; [exact Hp|].
    vm_compute in Ha. injection Ha as <-. reflexivity.
Defined.
