(* ===== verification/Numbers.v ===== *)
(** * Numbers: exact decimal arithmetic of [configstore/codecs.ts].

    [decimalParts], [exactInteger] and [compareDecimalMagnitude]: a JSON
    number lexeme is read as sign, digits and a power of ten, and the integer
    codecs accept it exactly when the number it denotes is an integer in
    range, with no rounding. *)
From stdpp Require Import prelude strings.
From Stdlib Require Import ZArith Lia.
From S2P Require Import Prelude JsString Decimal StrictJson StrictJsonProofs.

Record DecimalParts := { negative : bool; digits : jstr; exponent10 : Z }.

(** [text.replace(/^0+/u, "")] *)
Fixpoint strip_zeros (s : jstr) : jstr :=
  match s with
  | c :: s' => if c =? 48 then strip_zeros s' else s
  | [] => []
  end.

Definition or_zero (s : jstr) : jstr := if bool_decide (s = []) then [48] else s.

(** [BigInt(text)] of an optionally signed run of digits. *)
Definition signed_val (s : jstr) : Z :=
  match s with
  | c :: r => if c =? 45 then - digits_val r else if c =? 43 then digits_val r else digits_val s
  | [] => 0
  end.

(** The regular expression [/^(-)?(\d+)(?:\.(\d+))?(?:[eE]([+-]?\d+))?$/u]
    read from left to right. *)
Definition decimalParts (lexeme : jstr) : option DecimalParts :=
  let '(sign, s) := number_sign lexeme in
  let '(integer, s) := span_digits s in
  if bool_decide (integer = []) then None
  else match number_frac s with
  | Throw _ => None
  | Ok (f, s) =>
      match number_exp s with
      | Throw _ => None
      | Ok (e, s) =>
          if bool_decide (s = []) then
            let fraction := drop 1 f in
            let exponent := signed_val (drop 1 e) in
            Some {| negative := bool_decide (sign = [45]);
                    digits := or_zero (strip_zeros (integer ++ fraction));
                    exponent10 := exponent - strlen fraction |}
          else None
      end
  end.

(** [text.endsWith("0".repeat(count))] *)
Definition endsWithZeros (s : jstr) (count : nat) : bool :=
  (count <=? length s)%nat && bool_decide (drop (length s - count) s = replicate count 48).

Definition exactInteger (lexeme : jstr) : option Z :=
  match decimalParts lexeme with
  | None => None
  | Some parts =>
      if bool_decide (digits parts = [48]) then Some 0
      else
        let ds :=
          if exponent10 parts <? 0 then
            let removed := - exponent10 parts in
            if strlen (digits parts) <? removed then None
            else
              let count := Z.to_nat removed in
              if negb (endsWithZeros (digits parts) count) then None
              else Some (or_zero (take (length (digits parts) - count) (digits parts)))
          else if 0 <? exponent10 parts then
            if 128 <? exponent10 parts then None
            else Some (digits parts ++ replicate (Z.to_nat (exponent10 parts)) 48)
          else Some (digits parts) in
        match ds with
        | None => None
        | Some ds => let value := digits_val ds in Some (if negative parts then - value else value)
        end
  end.

(** [text.padEnd(width, "0")] *)
Definition padEnd0 (width : nat) (s : jstr) : jstr := s ++ replicate (width - length s) 48.

Definition compareDecimalMagnitude (left right : jstr) : Z :=
  match decimalParts left, decimalParts right with
  | Some a, Some b =>
      if bool_decide (digits a = [48]) then (if bool_decide (digits b = [48]) then 0 else -1)
      else if bool_decide (digits b = [48]) then 1
      else
        let aOrder := strlen (digits a) + exponent10 a in
        let bOrder := strlen (digits b) + exponent10 b in
        if negb (aOrder =? bOrder) then (if aOrder <? bOrder then -1 else 1)
        else
          let width := Nat.max (length (digits a)) (length (digits b)) in
          let aDigits := padEnd0 width (digits a) in
          let bDigits := padEnd0 width (digits b) in
          if bool_decide (aDigits = bDigits) then 0
          else if str_ltb aDigits bDigits then -1 else 1
  | _, _ => 1
  end.

(** ** Digits without leading zeros *)

(** The digits of a positive number, or the single digit zero. *)
Definition canonical_digits (ds : jstr) : Prop :=
  all_digits ds /\ ds <> [] /\ (ds = [48] \/ head ds <> Some 48).

Lemma strip_zeros_val ds : digits_val (strip_zeros ds) = digits_val ds.
Proof.
  induction ds as [|c ds IH]; simpl; [done|]. destruct (Z.eqb_spec c 48) as [->|]; [|done].
  rewrite IH, (digits_val_cons 48 ds). lia.
Qed.

Lemma strip_zeros_digits ds : all_digits ds -> all_digits (strip_zeros ds).
Proof. induction 1 as [|c ds Hc Hds IH]; simpl; [constructor|]. case_match; [done|by constructor]. Qed.

Lemma strip_zeros_head ds : head (strip_zeros ds) <> Some 48.
Proof. induction ds as [|c ds IH]; simpl; [done|]. destruct (Z.eqb_spec c 48); [done|]. simpl. congruence. Qed.

Lemma or_zero_val ds : digits_val (or_zero ds) = digits_val ds.
Proof. unfold or_zero. by case_bool_decide; subst. Qed.

Lemma or_zero_strip ds : all_digits ds -> canonical_digits (or_zero (strip_zeros ds)).
Proof.
  intros H. apply strip_zeros_digits in H. pose proof (strip_zeros_head ds) as Hh.
  unfold or_zero, canonical_digits. case_bool_decide; [|by auto].
  split_and!; [by repeat constructor|done|by left].
Qed.

(** A leading digit that is not zero fixes the magnitude. *)
Lemma canonical_digits_bound ds :
  canonical_digits ds -> ds <> [48] ->
  10 ^ (strlen ds - 1) <= digits_val ds < 10 ^ strlen ds.
Proof.
  intros (Ha & Hne & [?|Hh]) H48; [done|]. destruct Ha as [|d ds Hd Hds]; [done|].
  pose proof (digits_val_bound ds Hds). rewrite digits_val_cons. unfold strlen. cbn [length].
  rewrite Nat2Z.inj_succ, Z.pow_succ_r by lia. unfold is_digit in Hd. simpl in Hh.
  assert (d <> 48) by congruence.
  replace (Z.succ (Z.of_nat (length ds)) - 1) with (Z.of_nat (length ds)) by lia. nia.
Qed.

Lemma canonical_digits_zero ds : canonical_digits ds -> digits_val ds = 0 <-> ds = [48].
Proof.
  intros H. split; [|by intros ->]. intros H0. destruct (decide (ds = [48])) as [|Hne]; [done|].
  pose proof (canonical_digits_bound ds H Hne). assert (1 <= strlen ds).
  { destruct H as (_ & Hn & _). destruct ds; [done|]. unfold strlen. simpl. lia. }
  pose proof (Z.pow_pos_nonneg 10 (strlen ds - 1)). lia.
Qed.

Lemma decimalParts_canonical lexeme p : decimalParts lexeme = Some p -> canonical_digits (digits p).
Proof.
  unfold decimalParts. destruct (number_sign lexeme) as [sign s0].
  destruct (span_digits s0) as [i s1] eqn:Hi. apply span_digits_spec in Hi as (_ & Hi & _).
  case_bool_decide; [done|].
  destruct (number_frac s1) as [[f s2]|] eqn:Hf; [|done]. apply number_frac_spec in Hf as [_ Hf].
  destruct (number_exp s2) as [[e s3]|]; [|done]. case_bool_decide; [|done]. intros [= <-]. simpl.
  apply or_zero_strip, Forall_app. split; [done|].
  destruct Hf as [->|(ds & -> & Hds)]; [constructor|]. simpl. rewrite drop_0. apply Hds.
Qed.

(** ** The number a lexeme denotes *)

(** [p] denotes the integer [v]: sign * digits * 10^exponent = v. *)
Definition denotes (p : DecimalParts) (v : Z) : Prop :=
  (if negative p then -1 else 1) * digits_val (digits p) * 10 ^ Z.max 0 (exponent10 p)
  = v * 10 ^ Z.max 0 (- exponent10 p).

Lemma digits_val_trailing ds n : digits_val (ds ++ replicate n 48) = digits_val ds * 10 ^ Z.of_nat n.
Proof. rewrite digits_val_app, digits_val_zeros, length_replicate. lia. Qed.

(** The last [n] digits are zeros exactly when [10^n] divides the number. *)
Lemma endsWithZeros_spec ds n :
  all_digits ds -> (n <= length ds)%nat ->
  endsWithZeros ds n = true <-> (10 ^ Z.of_nat n | digits_val ds).
Proof.
  intros Ha Hn. unfold endsWithZeros. replace (n <=? length ds)%nat with true
    by (symmetry; by apply Nat.leb_le). cbn [andb].
  rewrite bool_decide_eq_true. rewrite <- (take_drop (length ds - n) ds) at 3.
  set (t := drop (length ds - n) ds). assert (length t = n) as Hl by (unfold t; rewrite length_drop; lia).
  assert (all_digits t) as Ht by (by apply Forall_drop).
  rewrite digits_val_app, Hl. pose proof (digits_val_bound t Ht) as Hb. rewrite Hl in Hb. split.
  - intros ->. rewrite digits_val_zeros, Z.add_0_r. apply Z.divide_factor_r.
  - intros Hd. assert (10 ^ Z.of_nat n | digits_val t) as Hd'.
    { eapply Z.divide_add_cancel_r; [|exact Hd]. apply Z.divide_factor_r. }
    assert (digits_val t = 0) as H0.
    { destruct Hd' as [k Hk]. destruct (Z.eq_dec k 0); [nia|]. exfalso. nia. }
    clearbody t. clear -Ht H0 Hl. revert n Hl. induction Ht as [|d t Hd Ht IH]; intros n Hl; simpl in Hl; subst; [done|].
    rewrite digits_val_cons in H0. pose proof (digits_val_bound t Ht). unfold is_digit in Hd.
    cbn [replicate]. assert (d = 48) as -> by nia. f_equal. apply IH; [lia|done].
Qed.

Lemma endsWithZeros_take ds n :
  endsWithZeros ds n = true ->
  digits_val ds = digits_val (take (length ds - n) ds) * 10 ^ Z.of_nat n.
Proof.
  unfold endsWithZeros. intros H. bool_prop. rewrite <- (take_drop (length ds - n) ds) at 1.
  match goal with H : drop _ _ = _ |- _ => rewrite H end. apply digits_val_trailing.
Qed.

Lemma exactInteger_denotes lexeme p v :
  decimalParts lexeme = Some p ->
  exactInteger lexeme = Some v <-> denotes p v /\ (exponent10 p <= 128 \/ digits p = [48]).
Proof.
  intros Hp. unfold exactInteger. rewrite Hp. pose proof (decimalParts_canonical _ _ Hp) as Hc.
  unfold denotes. set (e := exponent10 p) in *. set (D := digits_val (digits p)).
  assert (forall x, (Some (if negative p then - x else x) = Some v) <->
    (if negative p then -1 else 1) * x = v) as Hsign.
  { intros x. destruct (negative p); split; [intros [= <-]|intros <-; f_equal|intros [= <-]|intros <-; f_equal]; lia. }
  case_bool_decide as Hz.
  { unfold D. rewrite Hz. change (digits_val [48]) with 0. rewrite Z.mul_0_r, Z.mul_0_l.
    assert (0 < 10 ^ Z.max 0 (- e)) by (apply Z.pow_pos_nonneg; lia). split.
    - intros [= <-]. split; [lia|by right].
    - intros [H0 _]. f_equal. nia. }
  destruct (Z.ltb_spec e 0) as [Hneg|Hnn].
  { replace (Z.max 0 e) with 0 by lia. replace (Z.max 0 (- e)) with (- e) by lia. rewrite Z.mul_1_r.
    pose proof (canonical_digits_bound _ Hc Hz) as Hb. fold D in Hb.
    destruct (Z.ltb_spec (strlen (digits p)) (- e)) as [Hlong|Hfits].
    { split; [done|]. intros [Hv _]. exfalso.
      assert (10 ^ strlen (digits p) < 10 ^ (- e)) by (apply Z.pow_lt_mono_r; unfold strlen in *; lia).
      assert (0 < 10 ^ (strlen (digits p) - 1)).
      { apply Z.pow_pos_nonneg; [lia|]. destruct Hc as (_ & Hne & _). destruct (digits p); [done|].
        unfold strlen. simpl. lia. }
      assert (D = Z.abs v * 10 ^ (- e)) as HD.
      { rewrite <- (Z.abs_eq (10 ^ (- e))) by lia. rewrite <- Z.abs_mul, <- Hv. destruct (negative p); lia. }
      destruct (Z.eq_dec (Z.abs v) 0) as [Hv0|]; [rewrite Hv0 in HD; lia|]. nia. }
    set (n := Z.to_nat (- e)). assert (Z.of_nat n = - e) as Hn by lia. rewrite <- Hn.
    assert (n <= length (digits p))%nat as Hle by (unfold strlen in Hfits; lia).
    pose proof (endsWithZeros_spec (digits p) n (proj1 Hc) Hle) as Hdiv. fold D in Hdiv.
    destruct (endsWithZeros (digits p) n) eqn:Hends; cbn [negb].
    - apply endsWithZeros_take in Hends. fold D in Hends. rewrite or_zero_val, Hsign, Hends.
      rewrite Z.mul_assoc, Z.mul_cancel_r by (pose proof (Z.pow_pos_nonneg 10 (Z.of_nat n)); lia).
      split; [intros H; split; [done|left; lia]|tauto].
    - split; [done|]. intros [Hv _]. exfalso. destruct Hdiv as [_ Hdiv].
      discriminate Hdiv. exists ((if negative p then -1 else 1) * v).
      destruct (negative p); lia. }
  replace (Z.max 0 (- e)) with 0 by lia. replace (Z.max 0 e) with e by lia. rewrite Z.mul_1_r.
  destruct (Z.ltb_spec 0 e).
  - destruct (Z.ltb_spec 128 e); [split; [done|]; intros [_ [?|?]]; [lia|done]|].
    rewrite digits_val_trailing, Hsign. fold D. rewrite Z2Nat.id by lia. rewrite Z.mul_assoc.
    split; [intros H1; split; [done|left; lia]|tauto].
  - rewrite Hsign. fold D. replace e with 0 by lia. rewrite Z.mul_1_r.
    split; [intros H1; split; [done|left; lia]|tauto].
Qed.

(** Beyond the exponent the code refuses to expand, the number is out of
    every managed integer range. *)
Lemma denotes_large p v :
  canonical_digits (digits p) -> digits p <> [48] -> 128 < exponent10 p -> denotes p v -> 2 ^ 64 < Z.abs v.
Proof.
  intros Hc Hz He. unfold denotes. pose proof (canonical_digits_bound _ Hc Hz) as Hb.
  replace (Z.max 0 (- exponent10 p)) with 0 by lia. rewrite Z.mul_1_r.
  replace (Z.max 0 (exponent10 p)) with (exponent10 p) by lia. intros <-.
  assert (0 < 10 ^ (strlen (digits p) - 1)).
  { apply Z.pow_pos_nonneg; [lia|]. destruct Hc as (_ & Hne & _). destruct (digits p); [done|].
    unfold strlen. simpl. lia. }
  assert (10 ^ 128 <= 10 ^ exponent10 p) by (apply Z.pow_le_mono_r; lia).
  assert (2 ^ 64 < 10 ^ 128) by (vm_compute; done).
  rewrite !Z.abs_mul, (Z.abs_eq (10 ^ _)), (Z.abs_eq (digits_val _)) by lia.
  replace (Z.abs (if negative p then -1 else 1)) with 1 by (by destruct (negative p)). nia.
Qed.

(** ** Comparing magnitudes *)

Lemma str_compare_digits a b :
  length a = length b -> all_digits a -> all_digits b -> str_compare a b = (digits_val a ?= digits_val b).
Proof.
  intros Hl Ha. revert b Hl. induction Ha as [|x a Hx Ha IH]; intros [|y b] Hl Hb; try done.
  inversion Hb as [|? ? Hy Hb']; subst. simpl in Hl. injection Hl as Hl. simpl.
  rewrite !digits_val_cons, Hl. pose proof (digits_val_bound a Ha) as Ba.
  pose proof (digits_val_bound b Hb') as Bb. rewrite Hl in Ba. unfold is_digit in *.
  destruct (Z.compare_spec x y) as [->|Hlt|Hgt].
  - rewrite IH by done. destruct (Z.compare_spec (digits_val a) (digits_val b)); symmetry.
    + apply Z.compare_eq_iff. lia.
    + apply Z.compare_lt_iff. lia.
    + apply Z.compare_gt_iff. lia.
  - symmetry. apply Z.compare_lt_iff. nia.
  - symmetry. apply Z.compare_gt_iff. nia.
Qed.

(** The two magnitudes brought to a common power of ten. *)
Definition scaled (p : DecimalParts) (m : Z) : Z := digits_val (digits p) * 10 ^ (exponent10 p - m).

Definition sign_of (c : comparison) : Z := match c with Lt => -1 | Eq => 0 | Gt => 1 end.

Lemma sign_of_compare a b z :
  (a < b -> z = -1) -> (b < a -> z = 1) -> (a = b -> z = 0) -> z = sign_of (a ?= b).
Proof. intros H1 H2 H3. destruct (Z.compare_spec a b); simpl; auto. Qed.

Lemma scaled_bound p m :
  canonical_digits (digits p) -> digits p <> [48] -> m <= exponent10 p ->
  10 ^ (strlen (digits p) + exponent10 p - m - 1) <= scaled p m < 10 ^ (strlen (digits p) + exponent10 p - m).
Proof.
  intros Hc Hz Hm. pose proof (canonical_digits_bound _ Hc Hz) as [H1 H2]. unfold scaled.
  assert (1 <= strlen (digits p)).
  { destruct Hc as (_ & Hne & _). destruct (digits p); [done|]. unfold strlen. simpl. lia. }
  replace (strlen (digits p) + exponent10 p - m - 1)
    with (strlen (digits p) - 1 + (exponent10 p - m)) by lia.
  replace (strlen (digits p) + exponent10 p - m) with (strlen (digits p) + (exponent10 p - m)) by lia.
  rewrite !Z.pow_add_r by lia. assert (0 < 10 ^ (exponent10 p - m)) by (apply Z.pow_pos_nonneg; lia). nia.
Qed.

Lemma padEnd0_val w ds : digits_val (padEnd0 w ds) = digits_val ds * 10 ^ Z.of_nat (w - length ds).
Proof. apply digits_val_trailing. Qed.

Lemma compare_scale x y k : 0 < k -> (x * k ?= y * k) = (x ?= y).
Proof.
  intros Hk. destruct (Z.compare_spec x y) as [->| |].
  - apply Z.compare_refl.
  - apply Z.compare_lt_iff. nia.
  - apply Z.compare_gt_iff. nia.
Qed.

Lemma compare_same_order a b m w :
  canonical_digits (digits a) -> canonical_digits (digits b) -> m <= exponent10 a -> m <= exponent10 b ->
  strlen (digits a) + exponent10 a = strlen (digits b) + exponent10 b ->
  w = Nat.max (length (digits a)) (length (digits b)) ->
  str_compare (padEnd0 w (digits a)) (padEnd0 w (digits b)) = (scaled a m ?= scaled b m).
Proof.
  intros (Ha & _) (Hb & _) Hma Hmb Ho Hw.
  assert (forall x : jstr, all_digits x -> all_digits (padEnd0 w x)) as Hpad.
  { intros x Hx. apply Forall_app. split; [done|]. by apply Forall_replicate. }
  rewrite str_compare_digits; [|unfold padEnd0; rewrite !length_app, !length_replicate; lia|auto..].
  rewrite !padEnd0_val. unfold scaled. unfold strlen in Ho.
  set (k := Z.of_nat (length (digits a)) + exponent10 a - m - Z.of_nat w).
  assert (forall x y, 0 <= k -> (x * 10 ^ k ?= y * 10 ^ k) = (x ?= y)) as Hk.
  { intros x y Hk0. apply compare_scale. by apply Z.pow_pos_nonneg. }
  assert (forall x y, k < 0 -> (x * 10 ^ (-k) ?= y * 10 ^ (-k)) = (x ?= y)) as Hk'.
  { intros x y Hk0. apply compare_scale, Z.pow_pos_nonneg; lia. }
  destruct (Z.le_gt_cases 0 k) as [Hk0|Hk0].
  - rewrite <- Hk by done. rewrite <- !Z.mul_assoc, <- !Z.pow_add_r by lia.
    f_equal; do 2 f_equal; lia.
  - rewrite <- (Hk' (_ * 10 ^ (exponent10 a - m))) by done.
    rewrite <- !Z.mul_assoc, <- !Z.pow_add_r by lia. f_equal; do 2 f_equal; lia.
Qed.

(** ** Lexemes of the JSON grammar *)

Lemma json_int_digits i : json_int i -> digits1 i.
Proof.
  intros [->|(c & ds & -> & Hc & Hds)]; (split; [done|]); [by repeat constructor|].
  constructor; [unfold is_digit; lia|done].
Qed.

Lemma number_sign_app sign i r :
  sign = [] \/ sign = [45] -> digits1 i -> number_sign (sign ++ i ++ r) = (sign, i ++ r).
Proof.
  intros Hs [Hne Ha]. unfold number_sign. destruct Hs as [-> | ->]; [|done].
  destruct Ha as [|d i Hd Ha]; [done|]. cbn [app]. rewrite eat_other; [done|]. intros ->. done.
Qed.

Lemma decimalParts_parts sign i f e :
  sign = [] \/ sign = [45] -> digits1 i -> json_frac f -> json_exp e ->
  decimalParts (sign ++ i ++ f ++ e) =
    Some {| negative := bool_decide (sign = [45]);
            digits := or_zero (strip_zeros (i ++ drop 1 f));
            exponent10 := signed_val (drop 1 e) - strlen (drop 1 f) |}.
Proof.
  intros Hs Hi Hf He. unfold decimalParts. rewrite number_sign_app by done.
  assert (isDigit (head e) = false /\ head e <> Some 46) as [He1 He2].
  { destruct He as [->|(m & sg & ds & -> & Hm & _)]; [done|]. simpl.
    split; [unfold is_digit; lia|]. intros [= ->]. lia. }
  rewrite span_digits_app; [|apply Hi|by destruct Hf as [->|(ds & -> & _)]].
  rewrite bool_decide_false by apply Hi. rewrite number_frac_app by done.
  pose proof (number_exp_app e [] He eq_refl) as Hexp. rewrite app_nil_r in Hexp. rewrite Hexp.
  by rewrite bool_decide_true.
Qed.

Lemma decimalParts_json lexeme : json_number lexeme -> is_Some (decimalParts lexeme).
Proof.
  intros [sign i f e Hs Hi Hf He]. rewrite decimalParts_parts; eauto using json_int_digits.
Qed.

Lemma strip_zeros_lead d ds : d <> 48 -> strip_zeros (d :: ds) = d :: ds.
Proof. intros H. simpl. by destruct (Z.eqb_spec d 48). Qed.

Lemma or_zero_dec_nat n : 0 <= n -> or_zero (strip_zeros (dec_nat n)) = dec_nat n.
Proof.
  intros Hn. destruct (Z.eq_dec n 0) as [->|]; [done|].
  destruct (dec_nat_lead n) as (d & l & -> & Hd); [lia|]. rewrite strip_zeros_lead by lia. done.
Qed.

(** Every integer is read back from its decimal text. *)
Lemma exactInteger_dec z : exactInteger (dec z) = Some z.
Proof.
  set (s := if z <? 0 then [45] else []).
  assert (dec z = s ++ dec_nat (Z.abs z) ++ [] ++ []) as Hd.
  { unfold dec, s. rewrite app_nil_r. destruct (Z.ltb_spec z 0); [|by rewrite Z.abs_eq].
    by rewrite Z.abs_neq by lia. }
  assert (digits1 (dec_nat (Z.abs z))) as H1 by (split; [apply dec_nat_nonempty|apply dec_nat_digits]; lia).
  unfold exactInteger. rewrite Hd, decimalParts_parts; [|unfold s; destruct (z <? 0); auto|done|by left..].
  cbn [digits exponent10 negative drop]. rewrite app_nil_r, or_zero_dec_nat by lia.
  case_bool_decide as Hz.
  { pose proof (dec_nat_val (Z.abs z) ltac:(lia)) as Hv. rewrite Hz in Hv.
    change (digits_val [48]) with 0 in Hv. f_equal. lia. }
  change (signed_val [] - strlen []) with 0. cbn [Z.ltb Z.compare].
  rewrite dec_nat_val by lia. unfold s. destruct (Z.ltb_spec z 0).
  - rewrite bool_decide_true by done. f_equal. lia.
  - rewrite bool_decide_false by done. f_equal. lia.
Qed.

(** ** The properties *)

(** Integer literals are read exactly. Every JSON number has decimal parts,
    and for every integer of at most 64 bits the reader answers it exactly
    when the literal denotes that integer, in any spelling ([1e3], [10.00],
    [-0]), with no rounding and no effect of the guard on huge exponents. *)
Theorem exact_integer_spec lexeme :
  json_number lexeme ->
  exists p, decimalParts lexeme = Some p /\
    forall v, Z.abs v <= 2 ^ 64 -> (exactInteger lexeme = Some v <-> denotes p v).
Proof.
  intros Hj. destruct (decimalParts_json lexeme Hj) as [p Hp]. exists p. split; [done|].
  intros v Hv. rewrite (exactInteger_denotes lexeme p v Hp). split; [tauto|]. intros Hd. split; [done|].
  destruct (Z.le_gt_cases (exponent10 p) 128) as [|Hgt]; [by left|]. right.
  destruct (decide (digits p = [48])) as [|Hz]; [done|].
  pose proof (denotes_large p v (decimalParts_canonical _ _ Hp) Hz Hgt Hd). lia.
Qed.

Lemma exact_integer_spec_witness : exactInteger (js "-12.50e+3") = Some (-12500).
Proof.
  destruct (exact_integer_spec (js "-12.50e+3")) as (p & Hp & H).
  - apply (json_number_intro [45] [49; 50] [46; 53; 48] (101 :: [43] ++ [51])).
    + right; reflexivity.
    + right. exists 49, [50]. repeat split; try lia; repeat constructor.
    + right. exists [53; 48]. repeat split; [discriminate|repeat constructor].
    + right. exists 101, [43], [51].
      repeat split; [left; reflexivity|right; left; reflexivity|discriminate|repeat constructor].
  - apply H; [vm_compute; discriminate|]. vm_compute in Hp. injection Hp as <-. vm_compute. reflexivity.
Defined.

(** Magnitudes are compared exactly. The three-way result is the order of
    the absolute values the two literals denote, brought to a common power of
    ten, whatever their lengths and exponents. *)
Theorem compare_magnitude_spec left right a b :
  decimalParts left = Some a -> decimalParts right = Some b ->
  let m := Z.min (exponent10 a) (exponent10 b) in
  compareDecimalMagnitude left right = sign_of (scaled a m ?= scaled b m).
Proof.
  intros Ha Hb m. unfold compareDecimalMagnitude. rewrite Ha, Hb.
  pose proof (decimalParts_canonical _ _ Ha) as Ca. pose proof (decimalParts_canonical _ _ Hb) as Cb.
  assert (forall p, digits p = [48] -> scaled p m = 0) as Hz0.
  { intros p Hp. unfold scaled. rewrite Hp. done. }
  assert (forall p, canonical_digits (digits p) -> digits p <> [48] -> m <= exponent10 p -> 0 < scaled p m) as Hpos.
  { intros p Cp Hp Hm. pose proof (scaled_bound p m Cp Hp Hm).
    enough (0 < 10 ^ (strlen (digits p) + exponent10 p - m - 1)) by lia. apply Z.pow_pos_nonneg; [lia|].
    destruct Cp as (_ & Hne & _). destruct (digits p); [done|]. unfold strlen. simpl. lia. }
  case_bool_decide as Za; [case_bool_decide as Zb|case_bool_decide as Zb].
  - by rewrite !Hz0.
  - rewrite (Hz0 a) by done. specialize (Hpos b Cb Zb ltac:(lia)). apply sign_of_compare; lia.
  - rewrite (Hz0 b) by done. specialize (Hpos a Ca Za ltac:(lia)). apply sign_of_compare; lia.
  - pose proof (scaled_bound a m Ca Za ltac:(lia)) as Ba. pose proof (scaled_bound b m Cb Zb ltac:(lia)) as Bb.
    destruct (Z.eqb_spec (strlen (digits a) + exponent10 a) (strlen (digits b) + exponent10 b)) as [Ho|Ho];
      cbn [negb].
    + pose proof (compare_same_order a b m _ Ca Cb ltac:(lia) ltac:(lia) Ho eq_refl) as Hcmp.
      set (w := Nat.max _ _) in *. rewrite <- Hcmp. case_bool_decide as Heq.
      { by rewrite Heq, str_compare_refl. }
      unfold str_ltb. destruct (str_compare _ _) eqn:E; [|done..]. by apply str_compare_eq in E.
    + destruct (Z.ltb_spec (strlen (digits a) + exponent10 a) (strlen (digits b) + exponent10 b)) as [Hlt|Hge].
      * assert (10 ^ (strlen (digits a) + exponent10 a - m) <= 10 ^ (strlen (digits b) + exponent10 b - m - 1))
          by (apply Z.pow_le_mono_r; lia). apply sign_of_compare; lia.
      * assert (10 ^ (strlen (digits b) + exponent10 b - m) <= 10 ^ (strlen (digits a) + exponent10 a - m - 1))
          by (apply Z.pow_le_mono_r; lia). apply sign_of_compare; lia.
Qed.

Lemma compare_magnitude_spec_witness :
  compareDecimalMagnitude (js "-0.00120e3") (js "1.2000000000000000001") = -1.
Proof.
  rewrite (compare_magnitude_spec (js "-0.00120e3") (js "1.2000000000000000001")
    {| negative := true; digits := js "120"; exponent10 := -2 |}
    {| negative := false; digits := js "12000000000000000001"; exponent10 := -19 |});
    vm_compute; reflexivity.
Defined.
