(* ===== verification/Duration.v ===== *)
(** * Duration: Go duration strings of [configstore/codecs.ts].

    [parseDuration] and [formatDuration] over signed 64-bit nanoseconds. *)
From stdpp Require Import prelude strings.
From Stdlib Require Import ZArith Lia.
From S2P Require Import Prelude JsString Decimal StrictJson StrictJsonProofs Numbers.

(** In the order of the alternatives of the regular expression; the two
    spellings of the micro sign are U+00B5 and U+03BC. *)
Definition DURATION_UNITS : list (jstr * Z) :=
  [(js "ns", 1); (js "us", 1000); ([181; 115], 1000); ([956; 115], 1000);
   (js "ms", 1000000); (js "s", 1000000000); (js "m", 60000000000); (js "h", 3600000000000)].

Fixpoint match_unit (units : list (jstr * Z)) (s : jstr) : option (Z * jstr) :=
  match units with
  | [] => None
  | (name, unit) :: units =>
      if startsWith name s then Some (unit, drop (length name) s) else match_unit units s
  end.

(** The component expression of [parseDuration]: digits with an optional
    fraction (which may be empty), or a fraction alone, then a unit. The
    result is the whole part, the fraction, the unit, and what follows. *)
Definition match_component (s : jstr) : option (jstr * jstr * Z * jstr) :=
  let '(whole, r) := span_digits s in
  let '(whole, fraction, r) :=
    match eat 46 r with
    | None => (whole, [], r)
    | Some r' => let '(fraction, r'') := span_digits r' in
                 if bool_decide (whole = []) then
                   (if bool_decide (fraction = []) then ([], [], r) else ([48], fraction, r''))
                 else (whole, fraction, r'')
    end in
  if bool_decide (whole = []) then None
  else match match_unit DURATION_UNITS r with
       | Some (unit, r) => Some (whole, fraction, unit, r)
       | None => None
       end.

Definition component_value (whole fraction : jstr) (unit : Z) : Z :=
  digits_val whole * unit
  + (if bool_decide (fraction = []) then 0 else digits_val fraction * unit / 10 ^ strlen fraction).

(** The [while (remaining)] loop; every round consumes the match. *)
Fixpoint parse_components (fuel : nat) (total : Z) (remaining : jstr) : option Z :=
  match fuel with
  | O => None
  | S fuel =>
      if bool_decide (remaining = []) then Some total
      else match match_component remaining with
           | None => None
           | Some (whole, fraction, unit, r) =>
               let total := total + component_value whole fraction unit in
               if 2 ^ 63 <? total then None else parse_components fuel total r
           end
  end.

Definition parseDuration (text : jstr) : option Z :=
  if bool_decide (text = js "0") then Some 0
  else
    let negative := startsWith (js "-") text in
    let remaining := if negative || startsWith (js "+") text then drop 1 text else text in
    if bool_decide (remaining = []) then None
    else if bool_decide (remaining = js "0") then Some 0
    else match parse_components (S (length remaining)) 0 remaining with
         | None => None
         | Some total =>
             let total := total * (if negative then -1 else 1) in
             if (total <? INT64_MIN) || (INT64_MAX <? total) then None else Some total
         end.

(** [text.replace(/0+$/u, "")] *)
Definition rstrip_zeros (s : jstr) : jstr := reverse (strip_zeros (reverse s)).

Definition formatFraction (nanoseconds unit : Z) (suffix : jstr) (precision : nat) : jstr :=
  let whole := nanoseconds / unit in
  let remainder := nanoseconds mod unit in
  if remainder =? 0 then dec whole ++ suffix
  else dec whole ++ [46] ++ rstrip_zeros (padStart0 precision (dec remainder)) ++ suffix.

Definition formatDuration (value : Z) : jstr :=
  if value =? 0 then js "0s"
  else
    let sign := if value <? 0 then js "-" else [] in
    let magnitude := if value <? 0 then - value else value in
    if magnitude <? 1000 then sign ++ dec magnitude ++ js "ns"
    else if magnitude <? 1000000 then sign ++ formatFraction magnitude 1000 [181; 115] 3
    else if magnitude <? 1000000000 then sign ++ formatFraction magnitude 1000000 (js "ms") 6
    else
      let hours := magnitude / 3600000000000 in
      let magnitude := magnitude mod 3600000000000 in
      let minutes := magnitude / 60000000000 in
      let magnitude := magnitude mod 60000000000 in
      let seconds := magnitude / 1000000000 in
      let nanoseconds := magnitude mod 1000000000 in
      let result := sign ++ (if negb (hours =? 0) then dec hours ++ js "h" else []) in
      let result := result ++ (if negb (minutes =? 0) || negb (hours =? 0) then dec minutes ++ js "m" else []) in
      let result := result ++ dec seconds in
      let result := result ++ (if negb (nanoseconds =? 0)
                               then [46] ++ rstrip_zeros (padStart0 9 (dec nanoseconds)) else []) in
      result ++ js "s".

Example duration_examples :
  formatDuration 5400000000000 = js "1h30m0s" /\ parseDuration (js "-1h2.5m.5s") = Some (-3750500000000) /\
  formatDuration (-1500) = js "-1.5" ++ [181; 115] /\ parseDuration (js "9223372036854775808ns") = None.
Proof. vm_compute. auto. Qed.

(** ** Components *)

(** Text that cannot extend a number or a unit name: the end, or the digits
    of the next component. *)
Definition component_ends (r : jstr) : Prop := r = [] \/ isDigit (head r) = true.

Definition unit_of (name : jstr) (unit : Z) : Prop := (name, unit) ∈ DURATION_UNITS.

Lemma match_unit_app name unit r :
  unit_of name unit -> component_ends r -> match_unit DURATION_UNITS (name ++ r) = Some (unit, r).
Proof.
  unfold unit_of, DURATION_UNITS. rewrite !elem_of_cons, elem_of_nil. intros Hu Hr.
  assert (r = [] \/ exists d t, r = d :: t /\ 48 <= d <= 57) as Hr'.
  { destruct Hr as [->|Hd]; [by left|]. destruct r as [|d t]; [done|]. right. exists d, t.
    simpl in Hd. unfold is_digit in Hd. split; [done|lia]. }
  destruct_or! Hu; try done; injection Hu as -> ->; cbn [app js fmap list_fmap];
    destruct Hr' as [->|(d & t & -> & Hd)]; try reflexivity; unfold match_unit, startsWith; simpl;
    rewrite ?bool_decide_true by done; repeat rewrite bool_decide_false by (intros [= ?]; lia);
    rewrite ?bool_decide_true by done; rewrite ?drop_0; try done.
Qed.

Definition fraction_text (f : jstr) : jstr := if bool_decide (f = []) then [] else 46 :: f.

Lemma unit_head name unit r :
  unit_of name unit -> isDigit (head (name ++ r)) = false /\ eat 46 (name ++ r) = None /\ name <> [].
Proof.
  unfold unit_of, DURATION_UNITS. rewrite !elem_of_cons, elem_of_nil. intros Hu.
  destruct_or! Hu; try done; injection Hu as -> ->; by split_and!.
Qed.

Lemma match_component_app w f name unit r :
  digits1 w -> all_digits f -> unit_of name unit -> component_ends r ->
  match_component (w ++ fraction_text f ++ name ++ r) = Some (w, f, unit, r).
Proof.
  intros [Hne Hw] Hf Hu Hr. destruct (unit_head name unit r Hu) as (Hh & Hdot & _).
  unfold match_component, fraction_text. case_bool_decide as Hfe.
  - subst f. cbn [app]. rewrite span_digits_app by done. rewrite Hdot.
    rewrite bool_decide_false by done. by rewrite (match_unit_app name unit).
  - cbn [app]. rewrite span_digits_app by done. rewrite eat_cons, span_digits_app by done.
    rewrite !(bool_decide_false (w = [])) by done. by rewrite (match_unit_app name unit).
Qed.

(** ** Fractions *)

Lemma strip_zeros_prefix s : exists k, s = replicate k 48 ++ strip_zeros s.
Proof.
  induction s as [|c s [k IH]]; [by exists O|]. simpl. destruct (Z.eqb_spec c 48) as [->|].
  - exists (S k). simpl. by rewrite <- IH.
  - by exists O.
Qed.

Lemma rstrip_zeros_suffix s : exists k, s = rstrip_zeros s ++ replicate k 48.
Proof.
  destruct (strip_zeros_prefix (reverse s)) as [k Hk]. exists k. unfold rstrip_zeros.
  apply (f_equal reverse) in Hk. rewrite reverse_involutive, reverse_app, reverse_replicate in Hk. done.
Qed.

(** The fraction printed for a remainder of [10^p] parts. *)
Definition fraction_digits (p : nat) (rem : Z) : jstr :=
  if rem =? 0 then [] else rstrip_zeros (padStart0 p (dec rem)).

Lemma fraction_digits_spec p rem unit :
  0 <= rem < unit -> unit = 10 ^ Z.of_nat p ->
  all_digits (fraction_digits p rem) /\
  forall w, component_value w (fraction_digits p rem) unit = digits_val w * unit + rem.
Proof.
  intros Hr ->. unfold fraction_digits. destruct (Z.eqb_spec rem 0) as [->|Hne].
  { split; [constructor|]. intros w. unfold component_value. by rewrite bool_decide_true. }
  assert (dec rem = dec_nat rem) as -> by (unfold dec; by replace (rem <? 0) with false by lia).
  set (s := padStart0 p (dec_nat rem)). destruct (rstrip_zeros_suffix s) as [k Hk].
  assert (0 < p)%nat as Hp by (destruct p; [simpl in Hr; lia|lia]).
  assert (length s = p) as Hl by (apply padStart0_length, dec_length; [done|lia]).
  assert (digits_val s = rem) as Hv by (unfold s; rewrite padStart0_val, dec_nat_val; lia).
  assert (all_digits s) as Ha by (apply padStart0_digits, dec_nat_digits; lia).
  set (f := rstrip_zeros s) in *. rewrite Hk in Hl, Hv, Ha. apply Forall_app in Ha as [Ha _].
  rewrite length_app, length_replicate in Hl. rewrite digits_val_trailing in Hv.
  split; [done|]. intros w. unfold component_value.
  assert (f <> []) as Hf by (intros Hn; rewrite Hn in Hv; change (digits_val []) with 0 in Hv; lia).
  rewrite bool_decide_false by done. f_equal. rewrite <- Hv. unfold strlen.
  rewrite <- Hl, Nat2Z.inj_add, Z.pow_add_r by lia.
  rewrite (Z.mul_comm (10 ^ Z.of_nat (length f))), Z.mul_assoc.
  apply Z.div_mul. pose proof (Z.pow_pos_nonneg 10 (Z.of_nat (length f))). lia.
Qed.

(** One printed component: whole part, fraction and unit. *)
Definition component_text (n unit : Z) (name : jstr) (p : nat) : jstr :=
  dec (n / unit) ++ fraction_text (fraction_digits p (n mod unit)) ++ name.

Lemma rstrip_nonempty p rem unit :
  0 < rem < unit -> unit = 10 ^ Z.of_nat p -> rstrip_zeros (padStart0 p (dec rem)) <> [].
Proof.
  intros Hr Hu Hn. destruct (fraction_digits_spec p rem unit ltac:(lia) Hu) as [_ H].
  unfold fraction_digits in H. replace (rem =? 0) with false in H by lia. rewrite Hn in H.
  specialize (H []). unfold component_value in H. rewrite bool_decide_true in H by done. lia.
Qed.

Lemma formatFraction_text n unit name p :
  0 <= n -> unit = 10 ^ Z.of_nat p -> formatFraction n unit name p = component_text n unit name p.
Proof.
  intros Hn Hu. assert (0 < unit) by (rewrite Hu; apply Z.pow_pos_nonneg; lia).
  unfold formatFraction, component_text, fraction_digits, fraction_text.
  pose proof (Z.mod_pos_bound n unit). destruct (Z.eqb_spec (n mod unit) 0) as [E|E]; [done|].
  rewrite bool_decide_false; [done|]. eapply rstrip_nonempty; [|exact Hu]. lia.
Qed.

Lemma match_component_text n unit name p r :
  0 <= n -> unit = 10 ^ Z.of_nat p -> unit_of name unit -> component_ends r ->
  exists w f, match_component (component_text n unit name p ++ r) = Some (w, f, unit, r) /\
    component_value w f unit = n.
Proof.
  intros Hn Hu Hname Hr. assert (0 < unit) by (rewrite Hu; apply Z.pow_pos_nonneg; lia).
  pose proof (Z.mod_pos_bound n unit). assert (0 <= n / unit) by (apply Z.div_pos; lia).
  destruct (fraction_digits_spec p (n mod unit) unit ltac:(lia) Hu) as [Hf Hv].
  assert (dec (n / unit) = dec_nat (n / unit)) as Hd by (unfold dec; by replace (n / unit <? 0) with false by lia).
  eexists _, _. split.
  - unfold component_text. rewrite <- !app_assoc. apply match_component_app; try done.
    rewrite Hd. split; [by apply dec_nat_nonempty|by apply dec_nat_digits].
  - rewrite Hv, Hd, dec_nat_val by done. symmetry. rewrite Z.mul_comm. apply Z.div_mod. lia.
Qed.

(** ** Whole texts *)

Lemma dec_head n : 0 <= n -> exists d t, dec n = d :: t /\ is_digit d = true.
Proof.
  intros Hn. unfold dec. replace (n <? 0) with false by lia.
  pose proof (dec_nat_digits n Hn) as Ha. pose proof (dec_nat_nonempty n Hn).
  destruct (dec_nat n) as [|d t]; [done|]. inversion Ha; subst. eauto.
Qed.

Lemma dec_digits1 n : 0 <= n -> digits1 (dec n) /\ digits_val (dec n) = n.
Proof.
  intros Hn. unfold dec. replace (n <? 0) with false by lia.
  split; [split; [by apply dec_nat_nonempty|by apply dec_nat_digits]|by apply dec_nat_val].
Qed.

Lemma match_component_int n name unit r :
  0 <= n -> unit_of name unit -> component_ends r ->
  match_component ((dec n ++ name) ++ r) = Some (dec n, [], unit, r) /\
  component_value (dec n) [] unit = n * unit.
Proof.
  intros Hn Hu Hr. destruct (dec_digits1 n Hn) as [H1 Hv]. split.
  - rewrite <- app_assoc. apply (match_component_app (dec n) [] name unit r); done.
  - unfold component_value. rewrite Hv, bool_decide_true by done. lia.
Qed.

Lemma parse_components_step fuel total s w f unit r :
  match_component s = Some (w, f, unit, r) -> total + component_value w f unit <= 2 ^ 63 ->
  parse_components (S fuel) total s = parse_components fuel (total + component_value w f unit) r.
Proof.
  intros Hm Hb. cbn [parse_components]. rewrite Hm. rewrite bool_decide_false by (by intros ->).
  by destruct (Z.ltb_spec (2 ^ 63) (total + component_value w f unit)); [lia|].
Qed.

Lemma parse_components_end fuel total : (0 < fuel)%nat -> parse_components fuel total [] = Some total.
Proof. destruct fuel; [lia|done]. Qed.

(** A text of one component. *)
Lemma parse_one s n w f unit :
  match_component s = Some (w, f, unit, []) -> component_value w f unit = n -> n <= 2 ^ 63 ->
  parse_components (S (length s)) 0 s = Some n.
Proof.
  intros Hm Hv Hn. rewrite (parse_components_step _ _ _ _ _ _ _ Hm) by lia.
  rewrite Hv. apply parse_components_end. destruct s; [done|simpl; lia].
Qed.

(** A printed magnitude starts with a digit, is longer than one unit, and
    parses to the magnitude. *)
Definition prints (s : jstr) (n : Z) : Prop :=
  (exists d t, s = d :: t /\ is_digit d = true /\ t <> []) /\
  parse_components (S (length s)) 0 s = Some n.

Lemma starts_digit n (s : jstr) : 0 <= n -> s <> [] -> exists d t, dec n ++ s = d :: t /\ is_digit d = true /\ t <> [].
Proof.
  intros Hn Hs. destruct (dec_head n Hn) as (d & t & -> & Hd). exists d, (t ++ s). split_and!; [done..|].
  destruct t; [done|done].
Qed.

Lemma component_prints n unit name p :
  0 <= n <= 2 ^ 63 -> unit = 10 ^ Z.of_nat p -> unit_of name unit -> prints (component_text n unit name p) n.
Proof.
  intros Hn Hu Hname. split.
  - apply starts_digit; [apply Z.div_pos; [lia|]; rewrite Hu; apply Z.pow_pos_nonneg; lia|].
    destruct (unit_head name unit [] Hname) as (_ & _ & Hne). by destruct (fraction_text _).
  - destruct (match_component_text n unit name p [] ltac:(lia) Hu Hname (or_introl eq_refl)) as (w & f & Hm & Hv).
    rewrite app_nil_r in Hm. eapply parse_one; [done..|lia].
Qed.

(** Hours, minutes and seconds. *)
Lemma hms_prints h m s :
  0 <= h -> 0 <= m -> 0 <= s -> h * 3600000000000 + m * 60000000000 + s <= 2 ^ 63 ->
  prints ((if negb (h =? 0) then dec h ++ js "h" else [])
          ++ (if negb (m =? 0) || negb (h =? 0) then dec m ++ js "m" else [])
          ++ component_text s 1000000000 (js "s") 9)
         (h * 3600000000000 + m * 60000000000 + s).
Proof.
  intros Hh Hm Hs Hb.
  assert (unit_of (js "s") 1000000000 /\ unit_of (js "m") 60000000000 /\ unit_of (js "h") 3600000000000)
    as (Us & Um & Uh) by (unfold unit_of, DURATION_UNITS; set_solver).
  set (ts := component_text s 1000000000 (js "s") 9).
  assert (isDigit (head ts) = true /\ ts <> []) as [Hts Hne].
  { destruct (starts_digit (s / 1000000000) (fraction_text (fraction_digits 9 (s mod 1000000000)) ++ js "s"))
      as (d & t & Heq & Hd & _); [by apply Z.div_pos|by destruct (fraction_text _)|].
    unfold ts, component_text. rewrite Heq. done. }
  destruct (match_component_text s 1000000000 (js "s") 9 [] Hs eq_refl Us (or_introl eq_refl)) as (w & f & Hms & Hvs).
  rewrite app_nil_r in Hms. fold ts in Hms.
  assert (forall fuel total, (1 < fuel)%nat -> total + s <= 2 ^ 63 ->
    parse_components fuel total ts = Some (total + s)) as Hps.
  { intros [|fuel] total Hf Hb'; [lia|]. rewrite (parse_components_step _ _ _ _ _ _ _ Hms) by lia.
    rewrite Hvs. apply parse_components_end. lia. }
  set (tm := if negb (m =? 0) || negb (h =? 0) then dec m ++ js "m" else []).
  assert (forall fuel total, (2 < fuel)%nat -> 0 <= total -> total + m * 60000000000 + s <= 2 ^ 63 ->
    parse_components fuel total (tm ++ ts) = Some (total + m * 60000000000 + s)) as Hpm.
  { intros [|fuel] total Hf Ht Hb'; [lia|]. unfold tm. destruct (negb (m =? 0) || negb (h =? 0)) eqn:E.
    - destruct (match_component_int m (js "m") 60000000000 ts Hm Um (or_intror Hts)) as [Hmm Hvm].
      rewrite (parse_components_step _ _ _ _ _ _ _ Hmm) by lia. rewrite Hvm. apply Hps; lia.
    - assert (m = 0) as -> by lia. cbn [app]. rewrite Hps by lia. f_equal. lia. }
  assert (isDigit (head (tm ++ ts)) = true) as Htm.
  { unfold tm. case_match; [|done]. destruct (starts_digit m (js "m" ++ ts)) as (d & t & Heq & Hd & _); [done..|].
    rewrite <- app_assoc, Heq. done. }
  assert (2 <= length ts)%nat as Hlen.
  { unfold ts, component_text. rewrite !length_app. destruct (dec_head (s / 1000000000)) as (d & t & -> & _);
      [by apply Z.div_pos|]. simpl. lia. }
  split.
  - case_match eqn:E.
    + rewrite <- app_assoc. apply starts_digit; [done|]. by destruct (tm ++ ts).
    + unfold tm. cbn [app]. destruct (negb (m =? 0) || _) eqn:E2.
      * rewrite <- app_assoc. apply starts_digit; [done|]. by destruct ts.
      * cbn [app]. unfold ts, component_text. apply starts_digit; [by apply Z.div_pos|by destruct (fraction_text _)].
  - case_match eqn:E.
    + destruct (match_component_int h (js "h") 3600000000000 (tm ++ ts) Hh Uh (or_intror Htm)) as [Hmh Hvh].
      rewrite (parse_components_step _ _ _ _ _ _ _ Hmh) by lia. rewrite Hvh. rewrite Z.add_0_l. apply Hpm; [|lia..].
      rewrite !length_app. simpl. lia.
    + assert (h = 0) as -> by lia. cbn [app]. rewrite Hpm; [f_equal; lia|rewrite length_app; lia|lia..].
Qed.

(** The text of a positive magnitude. *)
Lemma formatDuration_prints n :
  0 < n <= 2 ^ 63 -> exists body, prints body n /\ formatDuration n = body /\ formatDuration (- n) = js "-" ++ body.
Proof.
  intros Hn. unfold formatDuration.
  replace (n =? 0) with false by lia. replace (- n =? 0) with false by lia.
  replace (n <? 0) with false by lia. replace (- n <? 0) with true by lia. rewrite Z.opp_involutive. cbn [app].
  assert (unit_of (js "ns") 1 /\ unit_of [181; 115] 1000 /\ unit_of (js "ms") 1000000) as (Un & Uu & Um)
    by (unfold unit_of, DURATION_UNITS; set_solver).
  destruct (n <? 1000) eqn:E1.
  { exists (dec n ++ js "ns"). split_and!; [|done..]. split; [apply starts_digit; [lia|done]|].
    destruct (match_component_int n (js "ns") 1 [] ltac:(lia) Un (or_introl eq_refl)) as [Hm Hv].
    rewrite app_nil_r in Hm. eapply parse_one; [done| |apply Hn]. lia. }
  destruct (n <? 1000000) eqn:E2.
  { eexists. split_and!; [|done..]. rewrite formatFraction_text by (lia || done).
    by apply component_prints; [lia|..]. }
  destruct (n <? 1000000000) eqn:E3.
  { eexists. split_and!; [|done..]. rewrite formatFraction_text by (lia || done).
    by apply component_prints; [lia|..]. }
  set (h := n / 3600000000000). set (n1 := n mod 3600000000000).
  set (m := n1 / 60000000000). set (s := n1 mod 60000000000).
  assert (h * 3600000000000 + m * 60000000000 + s = n) as Hsum by
    (unfold h, m, s, n1; Z.div_mod_to_equations; lia).
  pose proof (hms_prints h m s) as Hp. rewrite Hsum in Hp.
  eexists. split; [apply Hp; [unfold h, m, s, n1; Z.div_mod_to_equations; lia..|lia]|].
  assert (component_text s 1000000000 (js "s") 9 =
    dec (s / 1000000000) ++ (if negb (s mod 1000000000 =? 0)
      then [46] ++ rstrip_zeros (padStart0 9 (dec (s mod 1000000000))) else []) ++ js "s") as Hs.
  { rewrite <- formatFraction_text; [|unfold s, n1; Z.div_mod_to_equations; lia|done].
    unfold formatFraction. by destruct (s mod 1000000000 =? 0). }
  rewrite Hs. split; by rewrite <- ?app_assoc.
Qed.

Lemma startsWith_one c d t : startsWith [c] (d :: t) = (d =? c).
Proof.
  unfold startsWith. cbn [length take]. rewrite take_0.
  destruct (Z.eqb_spec d c) as [->|]; [by apply bool_decide_eq_true_2|].
  apply bool_decide_eq_false_2. congruence.
Qed.

Lemma parse_prints body n (negative : bool) :
  prints body n -> (if negative then INT64_MIN <= - n else n <= INT64_MAX) -> 0 <= n ->
  parseDuration ((if negative then js "-" else []) ++ body) = Some (if negative then - n else n).
Proof.
  intros [(d & t & -> & Hd & Ht) Hp] Hr Hn. unfold parseDuration.
  change (js "-") with [45]. change (js "+") with [43]. change (js "0") with [48].
  assert (d <> 45 /\ d <> 43) as [H45 H43] by (unfold is_digit in Hd; lia).
  assert (INT64_MIN < 0 <= INT64_MAX) by (unfold INT64_MIN, INT64_MAX; lia).
  assert (d :: t <> [48]) as Hz by congruence.
  destruct negative; cbn [app]; rewrite startsWith_one.
  - rewrite bool_decide_false by congruence. cbn [Z.eqb Pos.eqb orb drop].
    rewrite bool_decide_false by done. rewrite (bool_decide_false _ Hz), Hp.
    replace ((n * -1 <? INT64_MIN) || (INT64_MAX <? n * -1)) with false by lia. f_equal. lia.
  - rewrite startsWith_one, (bool_decide_false _ Hz).
    replace ((d =? 45) || (d =? 43)) with false by lia. replace (d =? 45) with false by lia.
    rewrite bool_decide_false by done. rewrite ?(bool_decide_false _ Hz), Hp.
    replace ((n * 1 <? INT64_MIN) || (INT64_MAX <? n * 1)) with false by lia. f_equal. lia.
Qed.

(** An accepted duration is a signed 64-bit number. *)
Lemma duration_in_range text v : parseDuration text = Some v -> INT64_MIN <= v <= INT64_MAX.
Proof.
  unfold parseDuration. assert (INT64_MIN <= 0 <= INT64_MAX) by (unfold INT64_MIN, INT64_MAX; lia).
  destruct (bool_decide (text = js "0")); [by intros [= <-]|]. cbv zeta.
  set (remaining := if startsWith (js "-") text || startsWith (js "+") text then drop 1 text else text).
  destruct (bool_decide (remaining = [])); [done|].
  destruct (bool_decide (remaining = js "0")); [by intros [= <-]|].
  destruct (parse_components _ _ _) as [total|]; [|done].
  set (t := total * (if startsWith (js "-") text then -1 else 1)).
  destruct ((t <? INT64_MIN) || (INT64_MAX <? t)) eqn:E; [done|]. intros [= <-]. bool_prop. lia.
Qed.

Lemma format_parse v : INT64_MIN <= v <= INT64_MAX -> parseDuration (formatDuration v) = Some v.
Proof.
  intros Hv. destruct (Z.eq_dec v 0) as [->|Hne]; [vm_compute; done|].
  assert (INT64_MAX = 2 ^ 63 - 1 /\ INT64_MIN = - 2 ^ 63) as [HM Hm] by done.
  destruct (formatDuration_prints (Z.abs v)) as (body & Hb & Hpos & Hneg); [lia|].
  destruct (Z.lt_ge_cases v 0) as [Hlt|Hge].
  - replace v with (- Z.abs v) at 1 by lia. rewrite Hneg.
    rewrite (parse_prints body (Z.abs v) true) by (done || lia). f_equal. lia.
  - replace v with (Z.abs v) at 1 by lia. rewrite Hpos.
    assert (Z.abs v <= INT64_MAX) as Hle by lia.
    pose proof (parse_prints body (Z.abs v) false Hb Hle ltac:(lia)) as Hp.
    cbn [app] in Hp. rewrite Hp. f_equal. lia.
Qed.

(** ** The properties *)

(** Every duration survives the wire. For each signed 64-bit number of
    nanoseconds, [INT64_MIN] included, the text the encoder writes parses
    back to exactly that number. *)
Theorem duration_roundtrip v :
  INT64_MIN <= v <= INT64_MAX -> parseDuration (formatDuration v) = Some v.
Proof. apply format_parse. Qed.

Lemma duration_roundtrip_witness :
  parseDuration (js "-2562047h47m16.854775808s") = Some INT64_MIN.
Proof.
  change (js "-2562047h47m16.854775808s") with (formatDuration INT64_MIN).
  apply (duration_roundtrip INT64_MIN). split; vm_compute; discriminate.
Defined.
