(* ===== verification/Base64.v ===== *)
(** * Base64: the byte strings of [configstore/codecs.ts].

    [Buffer]'s standard base64 and the canonical-form test
    [isCanonicalBase64]. *)
From stdpp Require Import prelude strings.
From Stdlib Require Import ZArith Lia.
From S2P Require Import Prelude JsString Unicode StrictJsonProofs Canonical.

Definition b64_char (n : Z) : Z :=
  if n <? 26 then 65 + n else if n <? 52 then 71 + n else if n <? 62 then n - 4
  else if n =? 62 then 43 else 47.

Definition is_b64 (c : Z) : bool :=
  ((65 <=? c) && (c <=? 90)) || ((97 <=? c) && (c <=? 122)) || ((48 <=? c) && (c <=? 57))
  || (c =? 43) || (c =? 47).

Definition b64_value (c : Z) : Z :=
  if c =? 43 then 62 else if c =? 47 then 63 else if c <=? 57 then c + 4
  else if c <=? 90 then c - 65 else c - 71.

(** [Buffer.from(bytes).toString("base64")] *)
Fixpoint base64_encode (bytes : list Z) : jstr :=
  match bytes with
  | [] => []
  | [a] => [b64_char (a / 4); b64_char (a mod 4 * 16); 61; 61]
  | [a; b] => [b64_char (a / 4); b64_char (a mod 4 * 16 + b / 16); b64_char (b mod 16 * 4); 61]
  | a :: b :: c :: rest =>
      [b64_char (a / 4); b64_char (a mod 4 * 16 + b / 16); b64_char (b mod 16 * 4 + c / 64); b64_char (c mod 64)]
      ++ base64_encode rest
  end.

(** [Buffer.from(text, "base64")] for text of the alphabet with its padding;
    the decoder stops at the padding. *)
Fixpoint base64_decode (s : jstr) : list Z :=
  match s with
  | c1 :: c2 :: c3 :: c4 :: rest =>
      let v1 := b64_value c1 in let v2 := b64_value c2 in
      let v3 := b64_value c3 in let v4 := b64_value c4 in
      if c3 =? 61 then [v1 * 4 + v2 / 16]
      else if c4 =? 61 then [v1 * 4 + v2 / 16; v2 mod 16 * 16 + v3 / 4]
      else [v1 * 4 + v2 / 16; v2 mod 16 * 16 + v3 / 4; v3 mod 4 * 64 + v4] ++ base64_decode rest
  | _ => []
  end.

(** [/^[A-Za-z0-9+/]*={0,2}$/u] *)
Fixpoint b64_pattern (s : jstr) : bool :=
  match s with
  | [] => true
  | c :: r => if is_b64 c then b64_pattern r else bool_decide (s = [61]) || bool_decide (s = [61; 61])
  end.

Definition isCanonicalBase64 (value : jstr) : bool :=
  if bool_decide (value = []) then true
  else if negb (strlen value mod 4 =? 0) || negb (b64_pattern value) then false
  else
    let firstPadding := indexOf value 61 0 in
    if (0 <=? firstPadding) && (firstPadding <? strlen value - 2) then false
    else bool_decide (base64_encode (base64_decode value) = value).

(** ** Facts *)

Definition is_byte (b : Z) : Prop := 0 <= b <= 255.

Lemma b64_char_spec n : 0 <= n < 64 -> is_b64 (b64_char n) = true /\ b64_value (b64_char n) = n /\ b64_char n <> 61.
Proof.
  intros Hn. unfold b64_char, is_b64, b64_value.
  destruct (Z.ltb_spec n 26); [split_and!; repeat case_match; lia|].
  destruct (Z.ltb_spec n 52); [split_and!; repeat case_match; lia|].
  destruct (Z.ltb_spec n 62); [split_and!; repeat case_match; lia|].
  destruct (Z.eqb_spec n 62); split_and!; repeat case_match; lia.
Qed.

(** Induction by groups of three bytes. *)
Lemma three_ind (P : list Z -> Prop) :
  P [] -> (forall a, P [a]) -> (forall a b, P [a; b]) ->
  (forall a b c l, P l -> P (a :: b :: c :: l)) -> forall l, P l.
Proof.
  intros H0 H1 H2 H3 l. induction l as [l IH] using jstr_strong_ind.
  destruct l as [|a [|b [|c l]]]; [done|done|done|]. apply H3, IH. simpl. lia.
Qed.

Ltac b64_chars :=
  repeat match goal with
  | |- context [b64_value (b64_char ?n)] =>
      let H := fresh in assert (0 <= n < 64) as H by zify_div;
      rewrite (proj1 (proj2 (b64_char_spec n H))); clear H
  | |- context [b64_char ?n =? 61] =>
      let H := fresh in assert (0 <= n < 64) as H by zify_div;
      replace (b64_char n =? 61) with false by (symmetry; apply Z.eqb_neq, (b64_char_spec n H)); clear H
  | |- context [is_b64 (b64_char ?n)] =>
      let H := fresh in assert (0 <= n < 64) as H by zify_div;
      rewrite (proj1 (b64_char_spec n H)); clear H
  end.

Lemma base64_decode_encode bytes : Forall is_byte bytes -> base64_decode (base64_encode bytes) = bytes.
Proof.
  induction bytes as [|a|a b|a b c l IH] using three_ind; intros Hb; [done|..];
    repeat match goal with H : Forall is_byte (_ :: _) |- _ => apply Forall_cons in H as [? ?] end;
    unfold is_byte in *; cbn [base64_encode base64_decode app]; b64_chars.
  - f_equal. simpl. zify_div.
  - cbn [Z.eqb Pos.eqb]. repeat (f_equal; try zify_div).
  - rewrite IH by done. repeat (f_equal; try zify_div).
Qed.

Lemma base64_encode_shape bytes :
  Forall is_byte bytes -> exists body pad, base64_encode bytes = body ++ pad /\
    Forall (fun c => is_b64 c = true) body /\ (pad = [] \/ pad = [61] \/ pad = [61; 61]) /\
    strlen (base64_encode bytes) mod 4 = 0.
Proof.
  induction bytes as [|a|a b|a b c l IH] using three_ind; intros Hb;
    repeat match goal with H : Forall is_byte (_ :: _) |- _ => apply Forall_cons in H as [? ?] end;
    unfold is_byte in *; cbn [base64_encode].
  - exists [], []. split_and!; [done|constructor|by left|done].
  - eexists [_; _], [61; 61]. split_and!; [done| |auto|done].
    repeat (apply List.Forall_cons; [b64_chars; done|]); constructor.
  - eexists [_; _; _], [61]. split_and!; [done| |auto|done].
    repeat (apply List.Forall_cons; [b64_chars; done|]); constructor.
  - destruct IH as (body & pad & Heq & Hbody & Hpad & Hlen); [done|]. rewrite Heq in *.
    eexists (_ :: _ :: _ :: _ :: body), pad. split_and!; [done| |done|].
    + repeat (apply List.Forall_cons; [b64_chars; done|]). done.
    + unfold strlen in *. cbn [app length]. rewrite !Nat2Z.inj_succ. zify_div.
Qed.

Lemma b64_pattern_app body pad :
  Forall (fun c => is_b64 c = true) body -> pad = [] \/ pad = [61] \/ pad = [61; 61] -> b64_pattern (body ++ pad) = true.
Proof.
  intros Hb Hp. induction Hb as [|c body Hc Hb IH]; simpl; [destruct_or! Hp; by subst|]. by rewrite Hc.
Qed.

Lemma find_index_body body pad i :
  Forall (fun c => is_b64 c = true) body -> find_index 61 (body ++ pad) = Some i -> (length body <= i)%nat.
Proof.
  intros Hb. revert i. induction Hb as [|c body Hc Hb IH]; intros i; simpl; [lia|].
  destruct (Z.eqb_spec c 61) as [->|]; [done|]. destruct (find_index _ _) as [j|]; [|done].
  intros [= <-]. specialize (IH j eq_refl). lia.
Qed.

Lemma isCanonicalBase64_encode bytes : Forall is_byte bytes -> isCanonicalBase64 (base64_encode bytes) = true.
Proof.
  intros Hb. destruct (base64_encode_shape bytes Hb) as (body & pad & Heq & Hbody & Hpad & Hlen).
  unfold isCanonicalBase64. case_bool_decide; [done|]. rewrite Hlen. cbn [Z.eqb negb orb].
  rewrite Heq at 1. rewrite b64_pattern_app by done. cbn [negb].
  assert ((0 <=? indexOf (base64_encode bytes) 61 0)
          && (indexOf (base64_encode bytes) 61 0 <? strlen (base64_encode bytes) - 2) = false) as Hpos.
  { rewrite Heq. unfold indexOf. change (drop (Z.to_nat 0) (body ++ pad)) with (body ++ pad).
    destruct (find_index 61 (body ++ pad)) as [i|] eqn:Hi; [|done].
    apply find_index_body in Hi; [|done]. apply andb_false_iff. right. apply Z.ltb_ge.
    unfold strlen. rewrite length_app. destruct_or! Hpad; subst; simpl; lia. }
  rewrite Hpos. apply bool_decide_eq_true_2. by rewrite base64_decode_encode.
Qed.

(** The decoder produces bytes from text of the alphabet. *)
Lemma b64_value_bound c : is_b64 c = true -> 0 <= b64_value c < 64.
Proof. unfold is_b64, b64_value. intros. repeat case_match; lia. Qed.

Lemma b64_pattern_cons c r :
  b64_pattern (c :: r) = true ->
  (is_b64 c = true /\ b64_pattern r = true) \/ (c = 61 /\ (r = [] \/ r = [61])).
Proof.
  cbn [b64_pattern]. destruct (is_b64 c); [by left|]. intros [Hp|Hp]%orb_prop; bool_prop; simplify_eq; auto.
Qed.

Lemma base64_decode_bytes s : b64_pattern s = true -> Forall is_byte (base64_decode s).
Proof.
  induction s as [s IH] using jstr_strong_ind. intros Hs.
  destruct s as [|c1 [|c2 [|c3 [|c4 s]]]]; try constructor.
  apply b64_pattern_cons in Hs as [[H1 Hs]|[_ [?|?]]]; [|done..].
  apply b64_pattern_cons in Hs as [[H2 Hs]|[_ [?|?]]]; [|done..].
  apply b64_value_bound in H1, H2. cbn [base64_decode]. unfold is_byte in *.
  apply b64_pattern_cons in Hs as [[H3 Hs]|[-> _]].
  2: { cbn [Z.eqb Pos.eqb]. constructor; [zify_div|constructor]. }
  destruct (Z.eqb_spec c3 61) as [->|Hc3]; [done|]. apply b64_value_bound in H3.
  apply b64_pattern_cons in Hs as [[H4 Hs]|[-> _]].
  2: { cbn [Z.eqb Pos.eqb]. repeat (apply List.Forall_cons; [zify_div|]). constructor. }
  destruct (Z.eqb_spec c4 61) as [->|Hc4]; [done|]. apply b64_value_bound in H4.
  repeat (apply List.Forall_cons; [zify_div|]). apply IH; [simpl; lia|done].
Qed.
