(* ===== verification/Codecs.v ===== *)
(** * Codecs: [sdk/typescript/src/configstore/codecs.ts].

    The value codecs of generated configuration bindings. A codec is typed,
    as [ValueCodec<T>] is: the branches that only a value outside its static
    type reaches (a [boolean] codec given a string) have no counterpart. What
    the types do not exclude is kept: a property that is missing or an
    accessor, a sparse array, an out-of-range number, a key that is not a
    member. The float codec needs IEEE rounding and is left out. *)
From stdpp Require Import prelude gmap strings.
From Stdlib Require Import ZArith Lia.
From S2P Require Import Prelude JsString JsMap Unicode Decimal StrictJson StrictJsonProofs Canonical.
From S2P Require Import DefaultsArtifact Numbers Duration Base64.
Set Warnings "-register-all".

Record ConfigDecodeError := { error_path : jstr; error_message : jstr }.
Abbreviation decoded := (res ConfigDecodeError).

Record ValueCodec (T : Type) := {
  decodeNode : JsonNode -> jstr -> decoded T;
  encodeNode : T -> jstr -> decoded JsonNode
}.
Arguments decodeNode {T} c node path : rename.
Arguments encodeNode {T} c v path : rename.

(** ** Diagnostics: fixed text and generated paths only *)

Definition diagnostic (path message : jstr) : ConfigDecodeError :=
  {| error_path := path; error_message := message |}.
Definition typeError (path expected : jstr) : ConfigDecodeError :=
  diagnostic path (js "configstore: expected " ++ expected ++ js " at " ++ path).
Definition rangeError (path expected : jstr) : ConfigDecodeError :=
  diagnostic path (js "configstore: " ++ expected ++ js " out of range at " ++ path).
Definition descriptorError (path problem : jstr) : ConfigDecodeError :=
  diagnostic path (js "configstore: invalid codec descriptor at " ++ path ++ js " (" ++ problem ++ js ")").

(** Both branches of the source build the same text. *)
Definition childPath (parent child : jstr) : jstr := parent ++ js "." ++ child.

(** The pattern of an alias and of a path segment are the same. *)
Definition validDiagnosticSegment (segment : jstr) : bool := alias_pattern segment.

(** ** Scalars *)

Definition codec_boolean : ValueCodec bool := {|
  decodeNode node path := match node with NBool b => Ok b | _ => Throw (typeError path (js "boolean")) end;
  encodeNode v _ := Ok (NBool v)
|}.

Definition codec_string : ValueCodec jstr := {|
  decodeNode node path := match node with NString s => Ok s | _ => Throw (typeError path (js "string")) end;
  encodeNode v _ := Ok (NString v)
|}.

(** [validateBits]; [RangeError] by its message. *)
Definition validateBits (bits maximum : Z) (name : jstr) : res jstr unit :=
  if (bits <? 1) || (maximum <? bits)
  then Throw (name ++ js " bits must be an integer from 1 through " ++ dec maximum) else Ok tt.

Definition int_minimum (bits : Z) (unsigned : bool) : Z := if unsigned then 0 else - 2 ^ (bits - 1).
Definition int_maximum (bits : Z) (unsigned : bool) : Z :=
  if unsigned then 2 ^ bits - 1 else 2 ^ (bits - 1) - 1.
Definition int_expected (unsigned : bool) : jstr := js (if unsigned then "unsigned integer" else "integer").

Definition decode_integer (bits : Z) (unsigned : bool) (node : JsonNode) (path : jstr) : decoded Z :=
  match node with
  | NNumber lexeme =>
      match exactInteger lexeme with
      | Some v => if (v <? int_minimum bits unsigned) || (int_maximum bits unsigned <? v)
                  then Throw (rangeError path (int_expected unsigned)) else Ok v
      | None => Throw (rangeError path (int_expected unsigned))
      end
  | _ => Throw (typeError path (int_expected unsigned))
  end.

(** [codecs.int]: the values are JavaScript numbers with an integral value. *)
Definition codec_int (bits : Z) (unsigned : bool) : res jstr (ValueCodec Z) :=
  let* _ := validateBits bits 53 (js "integer") in
  Ok {| decodeNode := decode_integer bits unsigned;
        encodeNode v path :=
          if negb (isSafeInteger v) then Throw (rangeError path (int_expected unsigned))
          else if (v <? int_minimum bits unsigned) || (int_maximum bits unsigned <? v)
          then Throw (rangeError path (int_expected unsigned))
          else Ok (NNumber (dec v)) |}.

Definition codec_bigint (bits : Z) (unsigned : bool) : res jstr (ValueCodec Z) :=
  let* _ := validateBits bits 64 (js "bigint") in
  Ok {| decodeNode := decode_integer bits unsigned;
        encodeNode v path :=
          if (v <? int_minimum bits unsigned) || (int_maximum bits unsigned <? v)
          then Throw (rangeError path (int_expected unsigned))
          else Ok (NNumber (dec v)) |}.

Definition codec_duration : ValueCodec Z := {|
  decodeNode node path :=
    match node with
    | NString s => match parseDuration s with
                   | Some v => Ok v
                   | None => Throw (diagnostic path (js "configstore: invalid duration at " ++ path))
                   end
    | _ => Throw (typeError path (js "duration string"))
    end;
  encodeNode v path :=
    if (v <? INT64_MIN) || (INT64_MAX <? v) then Throw (rangeError path (js "duration"))
    else Ok (NString (formatDuration v))
|}.

Definition codec_bytes : ValueCodec (option (list Z)) := {|
  decodeNode node path :=
    match node with
    | NNull => Ok None
    | NString s => if negb (isCanonicalBase64 s)
                   then Throw (diagnostic path (js "configstore: invalid base64 at " ++ path))
                   else Ok (Some (base64_decode s))
    | _ => Throw (typeError path (js "base64 string"))
    end;
  encodeNode v path := match v with None => Ok NNull | Some b => Ok (NString (base64_encode b)) end
|}.

Definition codec_nullable {T} (element : ValueCodec T) : ValueCodec (option T) := {|
  decodeNode node path :=
    match node with NNull => Ok None | _ => let* v := decodeNode element node path in Ok (Some v) end;
  encodeNode v path := match v with None => Ok NNull | Some v => encodeNode element v path end
|}.

(** ** Properties of objects and elements of arrays *)

(** [Object.getOwnPropertyDescriptor]: a data property, an accessor, or no
    own property. *)
Inductive slot (T : Type) := Data (v : T) | Accessor | Missing.
Arguments Data {T} v.
Arguments Accessor {T}.
Arguments Missing {T}.

Section collections.
Context {T : Type} (element : ValueCodec T).

(** [encodeArrayElements] and [encodeErasedArrayElements] *)
Definition encode_elements (v : list (slot T)) (path : jstr) : decoded (list JsonNode) :=
  res_map (fun s => match s with
                    | Data x => encodeNode element x (path ++ js "[]")
                    | _ => Throw (descriptorError path (js "array must be dense and contain no accessors"))
                    end) v.

Definition decode_elements (elements : list JsonNode) (path : jstr) : decoded (list (slot T)) :=
  res_map (fun n => let* v := decodeNode element n (path ++ js "[]") in Ok (Data v)) elements.

Definition codec_array : ValueCodec (option (list (slot T))) := {|
  decodeNode node path :=
    match node with
    | NNull => Ok None
    | NArray elements => let* v := decode_elements elements path in Ok (Some v)
    | _ => Throw (typeError path (js "array"))
    end;
  encodeNode v path :=
    match v with
    | None => Ok NNull
    | Some v => let* els := encode_elements v path in Ok (NArray els)
    end
|}.

Definition wrong_length (path : jstr) : ConfigDecodeError :=
  diagnostic path (js "configstore: wrong array length at " ++ path).

Definition codec_fixedArray (length : Z) : res jstr (ValueCodec (list (slot T))) :=
  if negb (isSafeInteger length) || (length <? 0)
  then Throw (js "fixed array length must be a non-negative safe integer")
  else Ok {|
    decodeNode node path :=
      match node with
      | NArray elements =>
          if negb (Z.of_nat (Datatypes.length elements) =? length) then Throw (wrong_length path)
          else decode_elements elements path
      | _ => Throw (typeError path (js "array"))
      end;
    encodeNode v path :=
      if negb (Z.of_nat (Datatypes.length v) =? length) then Throw (wrong_length path)
      else let* els := encode_elements v path in Ok (NArray els)
  |}.

(** *** String-keyed records: own enumerable properties by name *)

Definition compareUtf16 (left right : jstr) : comparison := str_compare left right.
Definition duplicate_map_key (path : jstr) : ConfigDecodeError :=
  diagnostic path (js "configstore: duplicate map key at " ++ path).

Fixpoint decode_record (properties : list (jstr * JsonNode)) (result : gmap jstr (slot T)) (path : jstr)
  : decoded (gmap jstr (slot T)) :=
  match properties with
  | [] => Ok result
  | (name, node) :: properties =>
      if bool_decide (is_Some (result !! name)) then Throw (duplicate_map_key path)
      else
        let* v := decodeNode element node (path ++ js "[*]") in
        decode_record properties (<[name := Data v]> result) path
  end.

Definition encode_record_entry (path : jstr) (p : jstr * slot T) : decoded (jstr * JsonNode) :=
  match p.2 with
  | Data x => let* n := encodeNode element x (path ++ js "[*]") in Ok (p.1, n)
  | _ => Throw (descriptorError path (js "map property is an accessor"))
  end.

(** [Object.keys(value).sort(compareUtf16)] with the properties. *)
Definition sorted_entries {V} (m : gmap jstr V) : list (jstr * V) :=
  js_sort (fun l r => compareUtf16 l.1 r.1) (map_to_list m).

Definition codec_record : ValueCodec (option (gmap jstr (slot T))) := {|
  decodeNode node path :=
    match node with
    | NNull => Ok None
    | NObject properties => let* m := decode_record properties ∅ path in Ok (Some m)
    | _ => Throw (typeError path (js "object"))
    end;
  encodeNode v path :=
    match v with
    | None => Ok NNull
    | Some m => let* ps := res_map (encode_record_entry path) (sorted_entries m) in Ok (NObject ps)
    end
|}.
End collections.

(** ** Enum-keyed maps *)

Inductive EnumMapKey := EString (s : jstr) | ENumber (z : Z) | EBigint (z : Z).
#[export] Instance EnumMapKey_eq_dec : EqDecision EnumMapKey.
Proof. solve_decision. Defined.

Definition same_key_kind (a b : EnumMapKey) : bool :=
  match a, b with
  | EString _, EString _ | ENumber _, ENumber _ | EBigint _, EBigint _ => true
  | _, _ => false
  end.

Record enum_tables := {
  et_names : list (jstr * EnumMapKey);
  et_declared : list (jstr * EnumMapKey);
  et_values : list (EnumMapKey * jstr)
}.

Definition enum_range_bad (value : EnumMapKey) : bool :=
  match value with
  | ENumber z => negb (isSafeInteger z) || (z <? INT64_MIN) || (INT64_MAX <? z)
  | EBigint z => (z <? INT64_MIN) || (INT64_MAX <? z)
  | EString _ => false
  end.

Definition enum_name_bad (name : jstr) (value : EnumMapKey) : bool :=
  match value with
  | EString s => negb (bool_decide (name = s))
  | _ => bool_decide (name = [])
  end.

(** The loop over the members; errors are [TypeError]s and [RangeError]s by
    message. *)
Fixpoint enum_members (members : list (jstr * EnumMapKey)) (keyKind : option EnumMapKey) (t : enum_tables)
  : res jstr enum_tables :=
  match members with
  | [] => Ok t
  | (name, value) :: members =>
      if match keyKind with Some k => negb (same_key_kind value k) | None => false end
      then Throw (js "enum map members must have one primitive key type")
      else if enum_name_bad name value then Throw (js "enum map has an invalid canonical member name")
      else if enum_range_bad value
      then Throw (js "enum map numeric members must be exact signed int64 values")
      else if match map_get name (et_declared t) with Some k => negb (bool_decide (k = value)) | None => false end
      then Throw (js "enum map member names must be unique")
      else
        let declared := map_set name value (et_declared t) in
        enum_members members (Some value)
          (if map_has value (et_values t)
           then {| et_names := et_names t; et_declared := declared; et_values := et_values t |}
           else {| et_names := map_set name value (et_names t); et_declared := declared;
                   et_values := map_set value name (et_values t) |})
  end.

Section enum_map.
Context {V : Type} (element : ValueCodec V) (t : enum_tables).

Fixpoint decode_enum (properties : list (jstr * JsonNode)) (result : list (EnumMapKey * V)) (path : jstr)
  : decoded (list (EnumMapKey * V)) :=
  match properties with
  | [] => Ok result
  | (name, node) :: properties =>
      match map_get name (et_names t) with
      | None => Throw (diagnostic path (js "configstore: unknown enum map key at " ++ path))
      | Some key =>
          if map_has key result then Throw (duplicate_map_key path)
          else
            let* v := decodeNode element node (path ++ js "[*]") in
            decode_enum properties (map_set key v result) path
      end
  end.

Definition encode_enum_entry (path : jstr) (p : EnumMapKey * V) : decoded (jstr * JsonNode) :=
  match map_get p.1 (et_values t) with
  | None => Throw (descriptorError path (js "enum map key is not a declared member"))
  | Some name => let* n := encodeNode element p.2 (path ++ js "[*]") in Ok (name, n)
  end.

Definition enum_codec : ValueCodec (option (list (EnumMapKey * V))) := {|
  decodeNode node path :=
    match node with
    | NNull => Ok None
    | NObject properties => let* m := decode_enum properties [] path in Ok (Some m)
    | _ => Throw (typeError path (js "object"))
    end;
  encodeNode v path :=
    match v with
    | None => Ok NNull
    | Some m =>
        let* ps := res_map (encode_enum_entry path) m in
        Ok (NObject (js_sort (fun l r => compareUtf16 l.1 r.1) ps))
    end
|}.
End enum_map.

Definition codec_enumMap {V} (members : list (jstr * EnumMapKey)) (element : ValueCodec V)
  : res jstr (ValueCodec (option (list (EnumMapKey * V)))) :=
  if bool_decide (members = []) then Throw (js "enum map requires at least one member")
  else
    let* t := enum_members members None {| et_names := []; et_declared := []; et_values := [] |} in
    Ok (enum_codec element t).

(** ** Objects *)

Record FieldCodec := {
  jsonName : jstr;
  property : jstr;
  ftype : Type;
  fvalue : ValueCodec ftype
}.

(** The source of [encodeObject]: for each described property, what
    [getOwnPropertyDescriptor] finds. *)
Fixpoint obj (fields : list FieldCodec) : Type :=
  match fields with
  | [] => unit
  | f :: fields => (slot (ftype f) * obj fields)%type
  end.

(** [validateFields]: the names of [byName]. *)
Fixpoint validate_fields (fields : list FieldCodec) (names properties : list jstr) (path : jstr)
  : decoded (list jstr) :=
  match fields with
  | [] => Ok names
  | f :: fields =>
      if negb (validDiagnosticSegment (jsonName f)) || bool_decide (property f = [])
      then Throw (descriptorError path (js "field descriptor is incomplete"))
      else if bool_decide (jsonName f ∈ names) || bool_decide (property f ∈ properties)
      then Throw (descriptorError path (js "field descriptor is duplicated"))
      else validate_fields fields (names ++ [jsonName f]) (properties ++ [property f]) path
  end.
Definition validateFields (fields : list FieldCodec) (path : jstr) : decoded (list jstr) :=
  validate_fields fields [] [] path.

Fixpoint collect_values (byName : list jstr) (properties values : list (jstr * JsonNode)) (path : jstr)
  : decoded (list (jstr * JsonNode)) :=
  match properties with
  | [] => Ok values
  | (name, node) :: properties =>
      if negb (bool_decide (name ∈ byName))
      then Throw (diagnostic path (js "configstore: unknown field at " ++ path))
      else if map_has name values
      then let p := childPath path name in Throw (diagnostic p (js "configstore: duplicate field at " ++ p))
      else collect_values byName properties (map_set name node values) path
  end.

Fixpoint check_missing (fields : list FieldCodec) (values : list (jstr * JsonNode)) (path : jstr) : decoded unit :=
  match fields with
  | [] => Ok tt
  | f :: fields =>
      if map_has (jsonName f) values then check_missing fields values path
      else let p := childPath path (jsonName f) in
           Throw (diagnostic p (js "configstore: missing required field at " ++ p))
  end.

Fixpoint decode_fields (fields : list FieldCodec) (values : list (jstr * JsonNode)) (path : jstr)
  : decoded (obj fields) :=
  match fields with
  | [] => Ok tt
  | f :: fields =>
      match map_get (jsonName f) values with
      | None => Throw (descriptorError path (js "field lookup failed"))
      | Some node =>
          let* v := decodeNode (fvalue f) node (childPath path (jsonName f)) in
          let* rest := decode_fields fields values path in
          Ok (Data v, rest)
      end
  end.

Definition decodeObject (fields : list FieldCodec) (node : JsonNode) (path : jstr) : decoded (obj fields) :=
  match node with
  | NObject properties =>
      let* byName := validateFields fields path in
      let* values := collect_values byName properties [] path in
      let* _ := check_missing fields values path in
      decode_fields fields values path
  | _ => Throw (typeError path (js "object"))
  end.

Fixpoint encode_fields (fields : list FieldCodec) : obj fields -> jstr -> decoded (list (jstr * JsonNode)) :=
  match fields return obj fields -> jstr -> decoded (list (jstr * JsonNode)) with
  | [] => fun _ _ => Ok []
  | f :: fields => fun source path =>
      match source.1 with
      | Missing => Throw (descriptorError path (js "source property is missing"))
      | Accessor => Throw (descriptorError path (js "source property is an accessor"))
      | Data v =>
          let* n := encodeNode (fvalue f) v (childPath path (jsonName f)) in
          let* rest := encode_fields fields source.2 path in
          Ok ((jsonName f, n) :: rest)
      end
  end.

Definition encodeObject (fields : list FieldCodec) (source : obj fields) (path : jstr) : decoded JsonNode :=
  let* _ := validateFields fields path in
  let* ps := encode_fields fields source path in
  Ok (NObject ps).

Definition objectCodec (fields : list FieldCodec) : ValueCodec (obj fields) :=
  {| decodeNode := decodeObject fields; encodeNode := encodeObject fields |}.

(** ** Groups: one complete parameter document *)

Definition group := objectCodec.

Definition decodeGroup {T} (document : jstr) (descriptor : ValueCodec T) : decoded T :=
  match parseStrictJson document with
  | Throw _ => Throw (diagnostic (js "$") (js "configstore: invalid JSON document"))
  | Ok root => decodeNode descriptor root (js "$")
  end.

Definition encodeGroup {T} (value : T) (descriptor : ValueCodec T) : decoded jstr :=
  let* n := encodeNode descriptor value (js "$") in Ok (stringifyJsonNode n).
