(* ===== verification/CodecLaws.v ===== *)
(** * CodecLaws: what every codec promises, and that each of them keeps it.

    [LawfulCodec] is the interface between the combinators: what a codec
    encodes it decodes back, and what it decodes it can encode. Each scalar
    is an instance, each combinator preserves lawfulness, and the round trip
    of whole group documents is proved against the interface. *)
From stdpp Require Import prelude gmap strings.
From Stdlib Require Import ZArith Lia.
From S2P Require Import Prelude JsString JsMap Unicode Decimal StrictJson StrictJsonProofs Canonical.
From S2P Require Import DefaultsArtifact Numbers Duration Base64 Codecs.

(** A codec whose encodings nest at most [d] levels, on the values [valid],
    up to [same] (equality, but for the order of map entries). *)
Class LawfulCodec {T} (c : ValueCodec T) (d : nat) (valid : T -> Prop) (same : T -> T -> Prop) : Prop := {
  law_encode v p n :
    valid v -> encodeNode c v p = Ok n ->
    node_wf d n /\ forall p', exists v', decodeNode c n p' = Ok v' /\ same v' v;
  law_decode D n p v :
    node_wf D n -> decodeNode c n p = Ok v -> valid v /\ forall p', is_ok (encodeNode c v p') = true
}.

(** A codec that never writes [null], so that [nullable] can use it. *)
Class NeverNull {T} (c : ValueCodec T) : Prop :=
  never_null v p : encodeNode c v p <> Ok NNull.

Lemma node_wf_mono d d' n : node_wf d n -> (d <= d')%nat -> node_wf d' n.
Proof.
  revert d' n; induction d as [d IH] using lt_wf_ind; intros d' n Hn Hd.
  destruct Hn as [| | | | |d els Hels| |d ps Hps]; try by constructor.
  - destruct d' as [|d']; [lia|]. constructor. eapply Forall_impl; [exact Hels|].
    intros x Hx. apply (IH d); [lia|done|lia].
  - destruct d' as [|d']; [lia|]. constructor. eapply Forall_impl; [exact Hps|].
    intros x [? Hx]. split; [done|]. apply (IH d); [lia|done|lia].
Qed.

Lemma lawful_mono {T} (c : ValueCodec T) d d' valid same :
  LawfulCodec c d valid same -> (d <= d')%nat -> LawfulCodec c d' valid same.
Proof.
  intros H Hd. split; [|apply H]. intros v p n Hv He. destruct (law_encode v p n Hv He) as [Hw Hrt].
  split; [by eapply node_wf_mono|done].
Qed.

(** ** Scalars *)

#[export] Instance boolean_lawful : LawfulCodec codec_boolean 0 (fun _ => True) eq.
Proof.
  split.
  - intros v p n _ [= <-]. split; [constructor|]. eauto.
  - done.
Qed.

#[export] Instance string_lawful : LawfulCodec codec_string 0 wf_text eq.
Proof.
  split.
  - intros v p n Hv [= <-]. split; [by constructor|]. eauto.
  - intros D n p v Hn. destruct n; try done. intros [= <-]. by inversion Hn.
Qed.

Lemma json_number_dec z : json_number (dec z).
Proof.
  assert (json_int (dec_nat (Z.abs z))) as Hi.
  { destruct (Z.eq_dec z 0) as [->|]; [by left|]. right.
    destruct (dec_nat_lead (Z.abs z)) as (d & l & Hd & Hb); [lia|].
    pose proof (dec_nat_digits (Z.abs z) ltac:(lia)) as Ha. rewrite Hd in *. inversion Ha; subst. eauto 10. }
  unfold dec. destruct (Z.ltb_spec z 0).
  - rewrite Z.abs_neq in Hi by lia. pose proof (json_number_intro [45] (dec_nat (- z)) [] []) as Hj.
    rewrite !app_nil_r in Hj. apply Hj; auto; by left.
  - rewrite Z.abs_eq in Hi by lia. pose proof (json_number_intro [] (dec_nat z) [] []) as Hj.
    rewrite !app_nil_r in Hj. apply Hj; auto; by left.
Qed.

Lemma decode_integer_dec bits u v p :
  (v <? int_minimum bits u) || (int_maximum bits u <? v) = false ->
  decode_integer bits u (NNumber (dec v)) p = Ok v.
Proof. intros H. simpl. by rewrite exactInteger_dec, H. Qed.

Lemma decode_integer_range bits u n p v :
  decode_integer bits u n p = Ok v -> (v <? int_minimum bits u) || (int_maximum bits u <? v) = false.
Proof. unfold decode_integer. intros. by break_match. Qed.

Lemma int_range_safe bits u v :
  1 <= bits <= 53 -> (v <? int_minimum bits u) || (int_maximum bits u <? v) = false -> isSafeInteger v = true.
Proof.
  intros Hb Hv. bool_prop. unfold isSafeInteger, MAX_SAFE_INTEGER, int_minimum, int_maximum in *.
  assert (2 ^ bits <= 2 ^ 53) by (apply Z.pow_le_mono_r; lia).
  assert (2 ^ (bits - 1) <= 2 ^ 52) by (apply Z.pow_le_mono_r; lia).
  assert (2 ^ 53 = 2 * 2 ^ 52) by done. destruct u; lia.
Qed.

Lemma validateBits_ok bits m name : validateBits bits m name = Ok tt -> 1 <= bits <= m.
Proof. unfold validateBits. destruct (_ || _) eqn:E; [done|]. bool_prop. lia. Qed.

Lemma int_lawful bits u c : codec_int bits u = Ok c -> LawfulCodec c 0 (fun _ => True) eq.
Proof.
  unfold codec_int. destruct (validateBits _ _ _) as [[]|] eqn:Hb; [|done]. intros [= <-].
  apply validateBits_ok in Hb. split; simpl.
  - intros v p n _. destruct (isSafeInteger v); [|done]. simpl.
    destruct ((v <? _) || _) eqn:E; [done|]. intros [= <-].
    split; [constructor; apply json_number_dec|]. intros p'. exists v. by rewrite decode_integer_dec.
  - intros D n p v _ Hd%decode_integer_range. split; [done|]. intros p'.
    rewrite (int_range_safe bits u v) by done. by rewrite Hd.
Qed.

Lemma bigint_lawful bits u c : codec_bigint bits u = Ok c -> LawfulCodec c 0 (fun _ => True) eq.
Proof.
  unfold codec_bigint. destruct (validateBits _ _ _) as [[]|] eqn:Hb; [|done]. intros [= <-]. split; simpl.
  - intros v p n _. destruct ((v <? _) || _) eqn:E; [done|]. intros [= <-].
    split; [constructor; apply json_number_dec|]. intros p'. exists v. by rewrite decode_integer_dec.
  - intros D n p v _ Hd%decode_integer_range. split; [done|]. intros p'. by rewrite Hd.
Qed.

(** Durations are printed without surrogates. *)
Lemma low_wf_text s : Forall (fun c => 0 <= c < 0xd800) s -> wf_text s.
Proof.
  induction 1 as [|c s Hc Hs [IH1 IH2]]; split; [constructor|done|constructor; [unfold is_unit; lia|done]|].
  cbn [paired]. unfold is_lead, is_trail.
  replace ((55296 <=? c) && (c <=? 56319)) with false by lia.
  replace ((56320 <=? c) && (c <=? 57343)) with false by lia. done.
Qed.

Abbreviation low s := (Forall (fun c => 0 <= c < 0xd800) s).

Lemma dec_low n : low (dec n).
Proof.
  assert (forall m, 0 <= m -> low (dec_nat m)) as H.
  { intros m Hm. eapply Forall_impl; [by apply dec_nat_digits|]. unfold is_digit. intros. lia. }
  unfold dec. destruct (Z.ltb_spec n 0); [constructor; [lia|]|]; apply H; lia.
Qed.

Lemma rstrip_low s : low s -> low (rstrip_zeros s).
Proof. destruct (rstrip_zeros_suffix s) as [k Hk]. rewrite Hk at 1. by intros [? _]%Forall_app. Qed.

Lemma padStart0_low w s : low s -> low (padStart0 w s).
Proof. intros Hs. apply Forall_app. split; [|done]. apply Forall_replicate. lia. Qed.

Ltac low :=
  repeat first [ apply dec_low | apply rstrip_low | apply padStart0_low
               | (apply Forall_app; split) | (repeat (constructor; [split; vm_compute; congruence|]); constructor) ].

Lemma formatFraction_low n u suffix p : low suffix -> low (formatFraction n u suffix p).
Proof. intros Hs. unfold formatFraction. case_match; low; done. Qed.

Lemma formatDuration_wf v : wf_text (formatDuration v).
Proof.
  apply low_wf_text. unfold formatDuration. cbv zeta.
  repeat match goal with |- Forall _ (if ?b then _ else _) => destruct b end;
    repeat first [ apply formatFraction_low | progress low
                 | match goal with |- Forall _ (if ?b then _ else _) => destruct b end ].
Qed.

#[export] Instance duration_lawful : LawfulCodec codec_duration 0 (fun _ => True) eq.
Proof.
  split; simpl.
  - intros v p n _. destruct ((v <? INT64_MIN) || (INT64_MAX <? v)) eqn:E; [done|]. intros [= <-]. bool_prop.
    split; [constructor; apply formatDuration_wf|]. intros p'. exists v. by rewrite format_parse by lia.
  - intros D n p v _. destruct n as [| |s| | |]; try done. destruct (parseDuration s) as [w|] eqn:Hp; [|done].
    intros [= <-]. apply duration_in_range in Hp. split; [done|]. intros p'.
    by replace ((w <? INT64_MIN) || (INT64_MAX <? w)) with false by lia.
Qed.

Lemma base64_wf b : Forall is_byte b -> wf_text (base64_encode b).
Proof.
  intros Hb. destruct (base64_encode_shape b Hb) as (body & pad & -> & Hbody & Hpad & _).
  apply ascii_wf_text, Forall_app. split.
  - eapply Forall_impl; [exact Hbody|]. unfold is_b64. intros. lia.
  - destruct_or! Hpad; subst; repeat constructor; lia.
Qed.

Definition bytes_valid (v : option (list Z)) : Prop :=
  match v with None => True | Some b => Forall is_byte b end.

#[export] Instance bytes_lawful : LawfulCodec codec_bytes 0 bytes_valid eq.
Proof.
  split; simpl.
  - intros [b|] p n Hv [= <-]; [|split; [constructor|eauto]]. simpl in Hv.
    split; [constructor; by apply base64_wf|]. intros p'. exists (Some b).
    by rewrite isCanonicalBase64_encode, base64_decode_encode.
  - intros D n p v Hn. destruct n as [| |s| | |]; try done; [by intros [= <-]|].
    destruct (isCanonicalBase64 s) eqn:Hs; [|done]. intros [= <-]. split; [|done].
    revert Hs. unfold isCanonicalBase64. case_bool_decide; [by subst; constructor|].
    destruct (negb (strlen s mod 4 =? 0) || negb (b64_pattern s)) eqn:E; [done|]. bool_prop.
    intros _. by apply base64_decode_bytes.
Qed.

(** ** Combinators *)

#[export] Instance boolean_never_null : NeverNull codec_boolean. Proof. done. Qed.
#[export] Instance string_never_null : NeverNull codec_string. Proof. done. Qed.
#[export] Instance duration_never_null : NeverNull codec_duration.
Proof. intros v p. simpl. by case_match. Qed.
#[export] Instance object_never_null fs : NeverNull (objectCodec fs).
Proof. intros v p. simpl. unfold encodeObject. by repeat case_match. Qed.

Lemma int_never_null bits u c : codec_int bits u = Ok c -> NeverNull c.
Proof.
  unfold codec_int. destruct (validateBits _ _ _); [|done]. intros [= <-] v p. simpl. by repeat case_match.
Qed.

Definition option_valid {T} (valid : T -> Prop) (v : option T) : Prop :=
  match v with None => True | Some x => valid x end.

#[export] Instance nullable_lawful {T} (c : ValueCodec T) d valid same :
  LawfulCodec c d valid same -> NeverNull c ->
  LawfulCodec (codec_nullable c) d (option_valid valid) (option_Forall2 same).
Proof.
  intros Hc Hn. split; simpl.
  - intros [v|] p n Hv He.
    + destruct (law_encode v p n Hv He) as [Hw Hrt]. split; [done|]. intros p'.
      destruct (Hrt p') as (v' & Hd & Hs). exists (Some v'). split; [|by constructor].
      destruct n; [by destruct (Hn v p)|by rewrite Hd..].
    + injection He as <-. split; [constructor|]. intros p'. exists None. split; [done|constructor].
  - intros D n p v Hw Hd. assert ((n = NNull /\ v = None) \/ exists x, v = Some x /\ decodeNode c n p = Ok x) as Hcases.
    { destruct n; [left; by injection Hd as <-|right; destruct (decodeNode c _ p) as [x|] eqn:E;
        [|done]; injection Hd as <-; eauto..]. }
    destruct Hcases as [[-> ->]|(x & -> & Hx)]; [done|]. by apply (law_decode D n p x).
Qed.

Definition slot_valid {T} (valid : T -> Prop) (s : slot T) : Prop :=
  match s with Data v => valid v | _ => True end.
Definition slot_same {T} (same : T -> T -> Prop) (a b : slot T) : Prop :=
  match a, b with Data x, Data y => same x y | _, _ => False end.

Section array.
Context {T} (c : ValueCodec T) (d : nat) (valid : T -> Prop) (same : T -> T -> Prop).
Context (Hc : LawfulCodec c d valid same).

Lemma encode_elements_ok v p els :
  Forall (slot_valid valid) v -> encode_elements c v p = Ok els ->
  Forall (node_wf d) els /\ length els = length v /\
  forall p', exists v', decode_elements c els p' = Ok v' /\ Forall2 (slot_same same) v' v.
Proof.
  intros Hv He%res_map_Ok. induction He as [|s n v els Hs He IH].
  { split_and!; [constructor|done|]. intros p'. exists []. by split. }
  apply Forall_cons in Hv as [Hx Hv]. destruct (IH Hv) as (Hw & Hl & Hrt). clear IH.
  destruct s as [x| |]; [|done..]. destruct (law_encode x _ n Hx Hs) as [Hn Hd].
  split_and!; [by constructor|simpl; lia|]. intros p'. destruct (Hrt p') as (v' & Hv' & Hs').
  destruct (Hd (p' ++ js "[]")) as (x' & Hx' & Hsx). exists (Data x' :: v'). split; [|by constructor].
  unfold decode_elements in *. cbn [res_map]. by rewrite Hx', Hv'.
Qed.

Lemma decode_elements_ok D els p v :
  Forall (node_wf D) els -> decode_elements c els p = Ok v ->
  Forall (slot_valid valid) v /\ length v = length els /\
  forall p', is_ok (encode_elements c v p') = true.
Proof.
  intros Hw Hd%res_map_Ok. induction Hd as [|n s els v Hs Hd IH].
  { split_and!; [constructor|done..]. }
  apply Forall_cons in Hw as [Hn Hw]. destruct (IH Hw) as (Hv & Hl & He). clear IH.
  destruct (decodeNode c n _) as [x|] eqn:Hx; [|done]. injection Hs as <-.
  destruct (law_decode D n _ x Hn Hx) as [Hvx Hex].
  split_and!; [by constructor|simpl; lia|]. intros p'. specialize (He p'). specialize (Hex (p' ++ js "[]")).
  unfold encode_elements in *. cbn [res_map]. destruct (encodeNode c x _); [|done].
  by destruct (res_map _ v).
Qed.

Lemma array_children D els : node_wf D (NArray els) -> exists D', Forall (node_wf D') els.
Proof. inversion 1; subst; [exists O; constructor|eauto]. Qed.

#[export] Instance array_lawful :
  LawfulCodec (codec_array c) (S d) (option_valid (Forall (slot_valid valid)))
    (option_Forall2 (Forall2 (slot_same same))).
Proof.
  split; simpl.
  - intros [v|] p n Hv He.
    + destruct (encode_elements c v p) as [els|] eqn:E; [|done]. injection He as <-.
      destruct (encode_elements_ok v p els Hv E) as (Hw & _ & Hrt). split; [by constructor|].
      intros p'. destruct (Hrt p') as (v' & -> & Hs). eexists. split; [done|by constructor].
    + injection He as <-. split; [constructor|]. intros p'. eexists. split; [done|constructor].
  - intros D n p v Hw. destruct n as [| | | |els|]; try done; [by intros [= <-]|].
    destruct (array_children _ _ Hw) as [D' Hels].
    destruct (decode_elements c els p) as [v0|] eqn:E; [|done]. intros [= <-].
    destruct (decode_elements_ok D' els p v0 Hels E) as (Hv & _ & He). split; [done|].
    intros p'. specialize (He p'). by destruct (encode_elements c v0 p').
Qed.

Lemma fixedArray_lawful len c' :
  codec_fixedArray c len = Ok c' ->
  LawfulCodec c' (S d) (Forall (slot_valid valid)) (Forall2 (slot_same same)).
Proof.
  unfold codec_fixedArray. destruct (_ || _); [done|]. intros [= <-]. split; simpl.
  - intros v p n Hv. destruct (Z.eqb_spec (Z.of_nat (length v)) len) as [Hl|]; [|done]. cbn [negb].
    destruct (encode_elements c v p) as [els|] eqn:E; [|done]. intros [= <-].
    destruct (encode_elements_ok v p els Hv E) as (Hw & Hl' & Hrt). split; [by constructor|].
    intros p'. rewrite Hl', Hl, Z.eqb_refl. apply Hrt.
  - intros D n p v Hw. destruct n as [| | | |els|]; try done.
    destruct (Z.eqb_spec (Z.of_nat (length els)) len) as [Hl|]; [|done]. cbn [negb]. intros E.
    destruct (array_children _ _ Hw) as [D' Hels].
    destruct (decode_elements_ok D' els p v Hels E) as (Hv & Hl' & He). split; [done|].
    intros p'. rewrite Hl', Hl, Z.eqb_refl. cbn [negb]. specialize (He p'). by destruct (encode_elements c v p').
Qed.
End array.

(** A traversal succeeds when it does on every element. *)
Lemma res_map_all {E A B} (f : A -> res E B) l :
  (forall x, x ∈ l -> is_ok (f x) = true) -> is_ok (res_map f l) = true.
Proof.
  induction l as [|x l IH]; intros H; simpl; [done|].
  specialize (H x (list_elem_of_here _ _)) as Hx. destruct (f x); [|done].
  assert (is_ok (res_map f l) = true) as Hl by (apply IH; intros; apply H; by right).
  by destruct (res_map f l).
Qed.

(** *** Records *)

Lemma object_children D ps :
  node_wf D (NObject ps) -> exists D', Forall (fun p => wf_text p.1 /\ node_wf D' p.2) ps.
Proof. inversion 1; subst; [exists O; constructor|eauto]. Qed.

Section record.
Context {T} (c : ValueCodec T) (d : nat) (valid : T -> Prop) (same : T -> T -> Prop).
Context (Hc : LawfulCodec c d valid same).

Definition record_valid (m : gmap jstr (slot T)) : Prop :=
  map_Forall (fun k s => wf_text k /\ slot_valid valid s) m.
Definition record_same (m' m : gmap jstr (slot T)) : Prop :=
  forall k, option_Forall2 (slot_same same) (m' !! k) (m !! k).

(** Decoding the encoded entries in any order of distinct names. *)
Lemma decode_record_encoded p es ps acc p' :
  Forall2 (fun e n => encode_record_entry c p e = Ok n) es ps ->
  Forall (fun e => slot_valid valid e.2) es -> NoDup es.*1 -> (forall k, k ∈ es.*1 -> acc !! k = None) ->
  Forall (node_wf d) ps.*2 /\ ps.*1 = es.*1 /\
  exists m, decode_record c ps acc p' = Ok m /\
    forall k, match map_get k es with
              | Some s => exists s', m !! k = Some s' /\ slot_same same s' s
              | None => m !! k = acc !! k
              end.
Proof.
  intros HF. revert acc. induction HF as [|[k s] [k' n] es ps Hs HF IH]; intros acc Hv Hnd Hacc.
  { split_and!; [constructor|done|]. eexists. split; done. }
  apply Forall_cons in Hv as [Hx Hv]. csimpl in *. apply NoDup_cons in Hnd as [Hk Hnd].
  unfold encode_record_entry in Hs. simpl in Hs. destruct s as [x| |]; [|done..].
  destruct (encodeNode c x _) as [n0|] eqn:He; [|done]. injection Hs as <- <-.
  destruct (law_encode x _ n0 Hx He) as [Hn Hd]. destruct (Hd (p' ++ js "[*]")) as (x' & Hx' & Hsx).
  rewrite (Hacc k) by left. rewrite bool_decide_false by (by intros [??]). rewrite Hx'.
  destruct (IH (<[k := Data x']> acc) Hv Hnd) as (Hw & Hnames & m & Hm & Hmk).
  { intros k2 Hk2. rewrite lookup_insert_ne by set_solver. apply Hacc. by right. }
  split_and!; [by constructor|by f_equal|]. exists m. split; [done|]. intros k2.
  specialize (Hmk k2). destruct (decide (k = k2)) as [<-|Hne].
  - apply map_get_None in Hk. rewrite Hk, lookup_insert_eq in Hmk. eexists. by split.
  - destruct (map_get k2 es); [done|]. by rewrite lookup_insert_ne in Hmk.
Qed.

Lemma sorted_entries_perm (m : gmap jstr (slot T)) : sorted_entries m ≡ₚ map_to_list m.
Proof. apply js_sort_perm. Qed.

Lemma sorted_entries_get (m : gmap jstr (slot T)) k : map_get k (sorted_entries m) = m !! k.
Proof.
  assert (NoDup (sorted_entries m).*1) as Hnd
    by (rewrite (sorted_entries_perm m); apply NoDup_fst_map_to_list).
  destruct (m !! k) as [s|] eqn:E.
  - apply map_get_Some; [done|]. rewrite sorted_entries_perm. by apply elem_of_map_to_list.
  - apply map_get_None. rewrite sorted_entries_perm. intros Hin.
    apply list_elem_of_fmap in Hin as ([k2 s] & -> & Hin). apply elem_of_map_to_list in Hin. simpl in E. congruence.
Qed.

Lemma decode_record_ok D ps acc p m :
  Forall (fun p => wf_text p.1 /\ node_wf D p.2) ps -> record_valid acc ->
  (forall k s, acc !! k = Some s -> exists x, s = Data x /\ forall p', is_ok (encodeNode c x p') = true) ->
  decode_record c ps acc p = Ok m ->
  record_valid m /\ forall k s, m !! k = Some s -> exists x, s = Data x /\ forall p', is_ok (encodeNode c x p') = true.
Proof.
  intros Hps. revert acc. induction Hps as [|[k n] ps [Hk Hn] Hps IH]; intros acc Hv Hok; simpl; [by intros [= <-]|].
  case_bool_decide as Hin; [done|]. destruct (decodeNode c n _) as [x|] eqn:Hx; [|done].
  destruct (law_decode D n _ x Hn Hx) as [Hvx Hex]. apply IH.
  - apply map_Forall_insert_2; done.
  - intros k2 s. rewrite lookup_insert. case_decide; [intros [= <-]; eauto|apply Hok].
Qed.

#[export] Instance record_lawful :
  LawfulCodec (codec_record c) (S d) (option_valid record_valid) (option_Forall2 record_same).
Proof.
  split; simpl.
  - intros [m|] p n Hv He.
    2: { injection He as <-. split; [constructor|]. intros p'. eexists. split; [done|constructor]. }
    destruct (res_map _ _) as [ps|] eqn:E; [|done]. injection He as <-. apply res_map_Ok in E. simpl in Hv.
    assert (Forall (fun e => wf_text e.1 /\ slot_valid valid e.2) (sorted_entries m)) as Hes.
    { rewrite sorted_entries_perm. apply Forall_forall. intros [k s] Hin%elem_of_map_to_list. by apply Hv. }
    assert (NoDup (sorted_entries m).*1) as Hnd
      by (rewrite (sorted_entries_perm m); apply NoDup_fst_map_to_list).
    assert (forall p', Forall (node_wf d) ps.*2 /\ ps.*1 = (sorted_entries m).*1 /\
      exists m', decode_record c ps ∅ p' = Ok m' /\ record_same m' m) as Hall.
    { intros p'. destruct (decode_record_encoded p (sorted_entries m) ps ∅ p' E) as (Hw & Hn & m' & Hm' & Hk).
      - eapply Forall_impl; [exact Hes|]. by intros ? [].
      - done.
      - intros. apply lookup_empty.
      - split_and!; [done..|]. exists m'. split; [done|]. intros k. specialize (Hk k).
        rewrite sorted_entries_get in Hk. destruct (m !! k) as [s|].
        + destruct Hk as (s' & -> & Hs). by constructor.
        + rewrite Hk, lookup_empty. constructor. }
    destruct (Hall p) as (Hw & Hn & _). split.
    + constructor. rewrite Forall_forall in Hes. rewrite Forall_forall in Hw.
      apply Forall_forall. intros [k n] Hin. split.
      * assert (k ∈ (sorted_entries m).*1) as Hk
          by (rewrite <- Hn; apply (list_elem_of_fmap_2 fst) in Hin; exact Hin).
        apply list_elem_of_fmap in Hk as (e & -> & He). by apply (Hes e He).
      * apply Hw. apply (list_elem_of_fmap_2 snd) in Hin. exact Hin.
    + intros p'. destruct (Hall p') as (_ & _ & m' & -> & Hs). eexists. split; [done|by constructor].
  - intros D n p v Hw. destruct n as [| | | | |ps]; try done; [by intros [= <-]|].
    destruct (object_children _ _ Hw) as [D' Hps].
    destruct (decode_record c ps ∅ p) as [m|] eqn:E; [|done]. intros [= <-].
    destruct (decode_record_ok D' ps ∅ p m Hps) as [Hv Hok]; [apply map_Forall_empty|done|done|].
    split; [done|]. intros p'.
    assert (is_ok (res_map (encode_record_entry c p') (sorted_entries m)) = true) as Hall.
    { apply res_map_all. intros [k s]. rewrite sorted_entries_perm. intros Hin%elem_of_map_to_list.
      destruct (Hok k s Hin) as (x & -> & Hx). unfold encode_record_entry. simpl.
      specialize (Hx (p' ++ js "[*]")). by destruct (encodeNode c x _). }
    by destruct (res_map _ _).
Qed.
End record.

(** *** Enum maps *)

(** The tables of names and of members are inverse to each other: aliases
    after the first declaration of a value are in neither. *)
Record tables_ok (t : enum_tables) : Prop := {
  tk_inverse k n : map_get k (et_values t) = Some n <-> map_get n (et_names t) = Some k;
  tk_declared n k : map_get n (et_names t) = Some k -> map_get n (et_declared t) = Some k;
  tk_text k n : map_get k (et_values t) = Some n -> wf_text n
}.

Lemma enum_members_ok members kind t t' :
  Forall (fun m => wf_text m.1) members -> tables_ok t -> enum_members members kind t = Ok t' -> tables_ok t'.
Proof.
  intros Hm. revert kind t. induction Hm as [|[name value] members Hname Hm IH]; intros kind t Ht;
    cbn [enum_members]; [by intros [= <-]|].
  destruct (match kind with Some k => _ | None => _ end); [done|].
  destruct (enum_name_bad name value); [done|]. destruct (enum_range_bad value); [done|].
  destruct (match map_get name (et_declared t) with Some k => _ | None => _ end) eqn:Hdecl; [done|].
  apply IH. destruct Ht as [Hinv Hd Htext].
  assert (forall k, map_get name (et_names t) = Some k -> k = value) as Hsame.
  { intros k Hk%Hd. rewrite Hk in Hdecl. by bool_prop. }
  destruct (map_has value (et_values t)) eqn:Hhas; split; simpl.
  - done.
  - intros n k Hn. rewrite map_get_set. case_decide as E; [|by apply Hd]. subst n. by rewrite (Hsame k Hn).
  - done.
  - assert (map_get value (et_values t) = None) as Hv.
    { destruct (map_get value (et_values t)) eqn:E; [|done]. unfold map_has in Hhas. by rewrite E in Hhas. }
    assert (map_get name (et_names t) = None) as Hn.
    { destruct (map_get name (et_names t)) as [k|] eqn:E; [|done].
      rewrite (Hsame k eq_refl) in E. apply Hinv in E. congruence. }
    intros k n. rewrite !map_get_set. repeat case_decide; subst.
    + by split.
    + split; [by intros [= ->]|]. intros Hk%Hinv. congruence.
    + split; [intros Hk%Hinv; congruence|by intros [= ->]].
    + apply Hinv.
  - intros n k. rewrite !map_get_set. case_decide; [done|]. apply Hd.
  - intros k n. rewrite map_get_set. case_decide; [by intros [= <-]|apply Htext].
Qed.

Lemma Forall2_perm_r {A B} (R : A -> B -> Prop) l k k' :
  Forall2 R l k -> k ≡ₚ k' -> exists l', l ≡ₚ l' /\ Forall2 R l' k'.
Proof.
  intros HF HP. revert l HF. induction HP as [|x k k' HP IH|x y k|k1 k2 k3 HP1 IH1 HP2 IH2]; intros l HF.
  - apply Forall2_nil_inv_r in HF as ->. exists []. by split.
  - apply Forall2_cons_inv_r in HF as (a & l0 & Ha & HF & ->). destruct (IH l0 HF) as (l' & HP' & HF').
    exists (a :: l'). split; [by constructor|by constructor].
  - apply Forall2_cons_inv_r in HF as (a & l0 & Ha & HF & ->).
    apply Forall2_cons_inv_r in HF as (b & l1 & Hb & HF & ->).
    exists (b :: a :: l1). split; [constructor|by repeat constructor].
  - destruct (IH1 l HF) as (l2 & HP12 & HF2). destruct (IH2 l2 HF2) as (l3 & HP23 & HF3).
    exists l3. split; [by etrans|done].
Qed.

Section enum.
Context {V} (c : ValueCodec V) (d : nat) (valid : V -> Prop) (same : V -> V -> Prop).
Context (Hc : LawfulCodec c d valid same) (t : enum_tables) (Ht : tables_ok t).

Definition enum_valid (m : list (EnumMapKey * V)) : Prop :=
  NoDup m.*1 /\ Forall (fun p => valid p.2) m.
(** The same entries, in any order. *)
Definition enum_same (m' m : list (EnumMapKey * V)) : Prop :=
  exists m1, m ≡ₚ m1 /\ Forall2 (fun a b => a.1 = b.1 /\ same a.2 b.2) m' m1.

Lemma decode_enum_encoded p es ps acc p' :
  Forall2 (fun e n => encode_enum_entry c t p e = Ok n) es ps ->
  Forall (fun e => valid e.2) es -> NoDup es.*1 -> (forall k, k ∈ es.*1 -> k ∉ acc.*1) ->
  Forall (fun q => wf_text q.1 /\ node_wf d q.2) ps /\
  exists m, decode_enum c t ps acc p' = Ok (acc ++ m) /\
    Forall2 (fun a b => a.1 = b.1 /\ same a.2 b.2) m es.
Proof.
  intros HF. revert acc. induction HF as [|[k v] [name n] es ps Hs HF IH]; intros acc Hv Hnd Hacc.
  { split; [constructor|]. exists []. rewrite app_nil_r. by split. }
  apply Forall_cons in Hv as [Hx Hv]. csimpl in *. apply NoDup_cons in Hnd as [Hk Hnd].
  unfold encode_enum_entry in Hs. simpl in Hs. destruct (map_get k (et_values t)) as [name0|] eqn:Hname; [|done].
  destruct (encodeNode c v _) as [n0|] eqn:He; [|done]. injection Hs as <- <-.
  destruct (law_encode v _ n0 Hx He) as [Hn Hd]. destruct (Hd (p' ++ js "[*]")) as (v' & Hv' & Hsv).
  apply (tk_inverse t Ht) in Hname as Hnk. rewrite Hnk.
  replace (map_has k acc) with false.
  2: { symmetry. apply not_true_is_false. rewrite map_has_true. apply Hacc. left. }
  rewrite Hv', map_set_fresh by (apply Hacc; left).
  destruct (IH (acc ++ [(k, v')]) Hv Hnd) as (Hw & m & Hm & HFm).
  { intros k2 Hk2. rewrite fmap_app. csimpl. rewrite elem_of_app. intros [Hin|Hin].
    - by apply (Hacc k2); [right|].
    - apply list_elem_of_singleton in Hin as ->. done. }
  split; [constructor; [split; [by eapply tk_text|done]|done]|].
  exists ((k, v') :: m). rewrite Hm, <- app_assoc. split; [done|]. by constructor.
Qed.

Lemma decode_enum_ok D ps acc p m :
  Forall (fun p => wf_text p.1 /\ node_wf D p.2) ps ->
  enum_valid acc -> (forall k v, (k, v) ∈ acc -> is_Some (map_get k (et_values t)) /\ forall p', is_ok (encodeNode c v p') = true) ->
  decode_enum c t ps acc p = Ok m ->
  enum_valid m /\ forall k v, (k, v) ∈ m -> is_Some (map_get k (et_values t)) /\ forall p', is_ok (encodeNode c v p') = true.
Proof.
  intros Hps. revert acc. induction Hps as [|[name n] ps [Hname Hn] Hps IH]; intros acc Hv Hok; simpl; [by intros [= <-]|].
  destruct (map_get name (et_names t)) as [k|] eqn:Hk; [|done]. destruct (map_has k acc) eqn:Hhas; [done|].
  destruct (decodeNode c n _) as [x|] eqn:Hx; [|done]. destruct (law_decode D n _ x Hn Hx) as [Hvx Hex].
  assert (k ∉ acc.*1) as Hfresh by (rewrite <- map_has_true, Hhas; done).
  apply IH; rewrite map_set_fresh by done.
  - destruct Hv as [Hnd HFv]. split.
    + rewrite fmap_app. apply NoDup_app. split_and!; [done|set_solver|apply NoDup_singleton].
    + apply Forall_app. split; [done|]. by constructor.
  - intros k2 v2 [Hin|Hin]%elem_of_app; [by apply Hok|].
    apply list_elem_of_singleton in Hin as [= -> ->]. split; [|done]. eexists. by apply (tk_inverse t Ht).
Qed.

Lemma enum_lawful :
  LawfulCodec (enum_codec c t) (S d) (option_valid enum_valid) (option_Forall2 enum_same).
Proof.
  split; simpl.
  - intros [m|] p n Hv He.
    2: { injection He as <-. split; [constructor|]. intros p'. eexists. split; [done|constructor]. }
    destruct (res_map _ _) as [ps|] eqn:E; [|done]. injection He as <-. apply res_map_Ok in E.
    destruct Hv as [Hnd HFv]. set (ps' := js_sort _ ps).
    destruct (Forall2_perm_r _ m ps ps' E) as (m1 & HP & HF); [symmetry; apply js_sort_perm|].
    assert (NoDup m1.*1) by (by rewrite <- HP). assert (Forall (fun e => valid e.2) m1) by (by rewrite <- HP).
    split.
    + destruct (decode_enum_encoded p m1 ps' [] p HF) as [Hw _]; [done..|intros; apply not_elem_of_nil|].
      by constructor.
    + intros p'. destruct (decode_enum_encoded p m1 ps' [] p' HF) as (_ & m' & -> & Hs);
        [done..|intros; apply not_elem_of_nil|]. eexists. split; [done|]. constructor. by exists m1.
  - intros D n p v Hw. destruct n as [| | | | |ps]; try done; [by intros [= <-]|].
    destruct (object_children _ _ Hw) as [D' Hps].
    destruct (decode_enum c t ps [] p) as [m|] eqn:E; [|done]. intros [= <-].
    destruct (decode_enum_ok D' ps [] p m Hps) as [Hv Hok].
    { split; constructor. } { intros k v Hin. by apply not_elem_of_nil in Hin. } { done. }
    split; [done|]. intros p'.
    assert (is_ok (res_map (encode_enum_entry c t p') m) = true) as Hall.
    { apply res_map_all. intros [k x] Hin. destruct (Hok k x Hin) as [[name Hname] Hx].
      unfold encode_enum_entry. simpl. rewrite Hname. specialize (Hx (p' ++ js "[*]")). by destruct (encodeNode c x _). }
    by destruct (res_map _ _).
Qed.
End enum.

Lemma enumMap_lawful {V} (c : ValueCodec V) d valid same members c' :
  LawfulCodec c d valid same -> Forall (fun m => wf_text m.1) members -> codec_enumMap members c = Ok c' ->
  LawfulCodec c' (S d) (option_valid (enum_valid valid)) (option_Forall2 (enum_same same)).
Proof.
  intros Hc Hm. unfold codec_enumMap. case_bool_decide; [done|].
  destruct (enum_members _ _ _) as [t|] eqn:E; [|done]. intros [= <-]. eapply enum_lawful; [done|].
  eapply enum_members_ok; [exact Hm| |exact E]. by split.
Qed.

(** *** Objects *)

(** The fields of an object, each lawful at [d] levels. *)
Inductive lawful_fields (d : nat) : list FieldCodec -> Type :=
| lf_nil : lawful_fields d []
| lf_cons f fs valid same :
    LawfulCodec (fvalue f) d valid same -> lawful_fields d fs -> lawful_fields d (f :: fs).

Fixpoint obj_valid {d fs} (L : lawful_fields d fs) : obj fs -> Prop :=
  match L in lawful_fields _ fs return obj fs -> Prop with
  | lf_nil _ => fun _ => True
  | lf_cons _ _ _ valid _ _ L => fun o => slot_valid valid o.1 /\ obj_valid L o.2
  end.

Fixpoint obj_same {d fs} (L : lawful_fields d fs) : obj fs -> obj fs -> Prop :=
  match L in lawful_fields _ fs return obj fs -> obj fs -> Prop with
  | lf_nil _ => fun _ _ => True
  | lf_cons _ _ _ _ same _ L => fun o' o => slot_same same o'.1 o.1 /\ obj_same L o'.2 o.2
  end.

Lemma validate_fields_ok fs names props path out :
  validate_fields fs names props path = Ok out ->
  out = names ++ map jsonName fs /\ NoDup (map jsonName fs) /\
  Forall (fun n => alias_pattern n = true) (map jsonName fs) /\
  (forall n, n ∈ map jsonName fs -> n ∉ names) /\ forall p', validate_fields fs names props p' = Ok out.
Proof.
  revert names props; induction fs as [|f fs IH]; intros names props; cbn [validate_fields map].
  { intros [= <-]. rewrite app_nil_r. split_and!; try done; try constructor.
    intros n Hn. by apply not_elem_of_nil in Hn. }
  destruct (validDiagnosticSegment (jsonName f)) eqn:Hseg; [|done].
  case_bool_decide as Hne; [done|]. cbn [negb orb]. case_bool_decide as Hn; [done|].
  case_bool_decide as Hp; [done|]. cbn [orb]. intros (-> & Hnd & Hal & Hdis & Hpath)%IH.
  rewrite <- app_assoc in *. split_and!; [done| | | |exact Hpath].
  - constructor; [|done]. intros Hin%Hdis. apply Hin. rewrite elem_of_app. right. apply list_elem_of_here.
  - by constructor.
  - intros n [->|Hin]%elem_of_cons; [done|]. apply Hdis in Hin. rewrite elem_of_app in Hin. tauto.
Qed.

Lemma collect_values_fresh byName ps values path :
  (forall k, k ∈ ps.*1 -> k ∈ byName /\ k ∉ values.*1) -> NoDup ps.*1 ->
  collect_values byName ps values path = Ok (values ++ ps).
Proof.
  revert values; induction ps as [|[k n] ps IH]; intros values Hk Hnd; cbn [collect_values].
  { by rewrite app_nil_r. }
  csimpl in *. apply NoDup_cons in Hnd as [Hn Hnd].
  destruct (Hk k (list_elem_of_here _ _)) as [Hin Hfresh]. rewrite bool_decide_true by done. cbn [negb].
  replace (map_has k values) with false.
  2: { symmetry. apply not_true_is_false. by rewrite map_has_true. }
  rewrite map_set_fresh by done. rewrite IH; [by rewrite <- app_assoc| |done].
  intros k2 Hk2. destruct (Hk k2) as [? Hf]; [by right|]. split; [done|].
  rewrite fmap_app, elem_of_app. csimpl. intros [?|Hs]; [done|].
  apply list_elem_of_singleton in Hs as ->. done.
Qed.

(** Success of the collecting loop: known names, none twice. *)
Lemma collect_values_inv byName ps values path out :
  NoDup values.*1 -> (forall k, k ∈ values.*1 -> k ∈ byName) -> collect_values byName ps values path = Ok out ->
  out = values ++ ps /\ NoDup out.*1 /\ forall k, k ∈ out.*1 -> k ∈ byName.
Proof.
  revert values; induction ps as [|[k n] ps IH]; intros values Hnd Hin; cbn [collect_values].
  { intros [= <-]. by rewrite app_nil_r. }
  case_bool_decide as Hk; [|done]. cbn [negb]. destruct (map_has k values) eqn:Hhas; [done|].
  assert (k ∉ values.*1) as Hfresh by (rewrite <- map_has_true, Hhas; done).
  rewrite map_set_fresh by done. intros H. apply IH in H.
  - destruct H as (-> & ? & ?). rewrite <- app_assoc in *. done.
  - rewrite fmap_app. apply NoDup_app. split_and!; [done|set_solver|apply NoDup_singleton].
  - intros k2. rewrite fmap_app, elem_of_app. csimpl. intros [?|Hs]; [by apply Hin|].
    by apply list_elem_of_singleton in Hs as ->.
Qed.

Lemma check_missing_ok fs values path :
  check_missing fs values path = Ok tt <-> forall n, n ∈ map jsonName fs -> n ∈ values.*1.
Proof.
  induction fs as [|f fs IH]; cbn [check_missing map].
  { split; [|done]. intros _ n Hn. by apply not_elem_of_nil in Hn. }
  destruct (map_has (jsonName f) values) eqn:Hh.
  - apply map_has_true in Hh. rewrite IH. split.
    + intros H n [->|Hn]%elem_of_cons; auto.
    + intros H n Hn. apply H. by right.
  - split; [done|]. intros H. specialize (H (jsonName f) (list_elem_of_here _ _)).
    apply map_has_true in H. congruence.
Qed.

Lemma encode_fields_ok d fs (L : lawful_fields d fs) o p ps :
  obj_valid L o -> encode_fields fs o p = Ok ps ->
  ps.*1 = map jsonName fs /\ Forall (node_wf d) ps.*2 /\
  forall p' values, (forall k n, (k, n) ∈ ps -> map_get k values = Some n) ->
    exists o', decode_fields fs values p' = Ok o' /\ obj_same L o' o.
Proof.
  revert ps. induction L as [|f fs valid same Hf L IH]; intros ps Hv He.
  { injection He as <-. split_and!; [done|constructor|]. intros. by exists tt. }
  destruct o as [s o]. destruct Hv as [Hx Hv]. simpl in *. destruct s as [x| |]; [|done..].
  destruct (encodeNode (fvalue f) x _) as [n|] eqn:En; [|done].
  destruct (encode_fields fs o p) as [rest|] eqn:Er; [|done]. injection He as <-.
  destruct (IH o rest Hv Er) as (Hn & Hw & Hd). destruct (law_encode x _ n Hx En) as [Hwn Hdn].
  csimpl. split_and!; [by f_equal|by constructor|]. intros p' values Hvals.
  rewrite (Hvals (jsonName f) n) by left. destruct (Hdn (childPath p' (jsonName f))) as (x' & -> & Hsx).
  destruct (Hd p' values) as (o' & -> & Hso); [intros; apply Hvals; by right|].
  eexists. split; [done|]. by split.
Qed.

Lemma decode_fields_ok d D fs (L : lawful_fields d fs) values p o :
  Forall (fun q => wf_text q.1 /\ node_wf D q.2) values -> decode_fields fs values p = Ok o ->
  obj_valid L o /\ forall p', is_ok (encode_fields fs o p') = true.
Proof.
  intros Hvals. induction L as [|f fs valid same Hf L IH]; intros Hd.
  { by split. }
  cbn [decode_fields] in Hd. destruct (map_get (jsonName f) values) as [n|] eqn:En; [|done].
  destruct (decodeNode (fvalue f) n _) as [x|] eqn:Ex; [|done].
  destruct (decode_fields fs values p) as [rest|] eqn:Er; [|done]. injection Hd as <-.
  apply map_get_Some_elem in En. rewrite Forall_forall in Hvals. destruct (Hvals _ En) as [_ Hwn].
  rewrite <- Forall_forall in Hvals.
  destruct (law_decode D n _ x Hwn Ex) as [Hvx Hex]. destruct (IH rest eq_refl) as [Hvr Her].
  split; [by split|]. intros p'. cbn [encode_fields fst snd]. specialize (Hex (childPath p' (jsonName f))).
  destruct (encodeNode (fvalue f) x _); [|done]. specialize (Her p'). by destruct (encode_fields fs rest p').
Qed.

Lemma object_lawful d fs (L : lawful_fields d fs) :
  LawfulCodec (objectCodec fs) (S d) (obj_valid L) (obj_same L).
Proof.
  split; simpl.
  - intros o p n Hv. unfold encodeObject. destruct (validateFields fs p) as [names|] eqn:Hval; [|done].
    destruct (encode_fields fs o p) as [ps|] eqn:He; [|done]. intros [= <-].
    apply validate_fields_ok in Hval as (-> & Hnd & Hal & _ & Hpath).
    destruct (encode_fields_ok d fs L o p ps Hv He) as (Hn & Hw & Hd). split.
    + constructor. rewrite Forall_forall in Hw. rewrite Forall_forall in Hal. apply Forall_forall.
      intros [k n] Hin. split.
      * apply alias_wf_text, Hal. rewrite <- Hn. apply (list_elem_of_fmap_2 fst) in Hin. exact Hin.
      * apply Hw. apply (list_elem_of_fmap_2 snd) in Hin. exact Hin.
    + intros p'. unfold decodeObject, validateFields. rewrite Hpath.
      rewrite collect_values_fresh; [|intros k Hk; rewrite <- Hn; split; [done|apply not_elem_of_nil]|by rewrite Hn].
      replace (check_missing fs _ p') with (@Ok ConfigDecodeError _ tt).
      2: { symmetry. apply check_missing_ok. intros k Hk. cbn [app]. by rewrite Hn. }
      apply Hd. intros k n Hin. cbn [app]. apply map_get_Some; [unfold map_wf; by rewrite Hn|done].
  - intros D n p o Hw. unfold decodeObject. destruct n as [| | | | |ps]; try done.
    destruct (validateFields fs p) as [names|] eqn:Hval; [|done].
    apply validate_fields_ok in Hval as (-> & Hnd & Hal & _ & Hpath).
    destruct (collect_values _ ps [] p) as [values|] eqn:Hc; [|done].
    apply collect_values_inv in Hc as (-> & _ & _); [|constructor|intros k Hk; by apply not_elem_of_nil in Hk].
    destruct (check_missing fs _ p); [|done]. intros Hd. destruct (object_children _ _ Hw) as [D' Hps].
    destruct (decode_fields_ok d D' fs L ps p o Hps Hd) as [Hv He]. split; [done|]. intros p'.
    unfold encodeObject, validateFields. rewrite Hpath. specialize (He p'). by destruct (encode_fields fs o p').
Qed.

(** ** Whole documents *)

Section group.
Context {T} (c : ValueCodec T) (d : nat) (valid : T -> Prop) (same : T -> T -> Prop).
Context (Hc : LawfulCodec c d valid same) (Hd : (d <= MAX_JSON_DEPTH)%nat).

Lemma group_encode_decode v text :
  valid v -> encodeGroup v c = Ok text -> exists v', decodeGroup text c = Ok v' /\ same v' v.
Proof.
  intros Hv. unfold encodeGroup, decodeGroup. destruct (encodeNode c v _) as [n|] eqn:He; [|done].
  intros [= <-]. destruct (law_encode v _ n Hv He) as [Hw Hrt].
  rewrite parse_of_print by (by eapply node_wf_mono). apply Hrt.
Qed.

Lemma group_decode_encode document v :
  Forall is_unit document -> decodeGroup document c = Ok v -> valid v /\ exists text, encodeGroup v c = Ok text.
Proof.
  intros Hu. unfold encodeGroup, decodeGroup. destruct (parseStrictJson document) as [n|] eqn:Hp; [|done].
  intros Hdec. assert (node_wf MAX_JSON_DEPTH n) as Hw.
  { destruct (parse_accepts _ _ Hp) as (r & Hv & _).
    destruct (parseValue_parses parse_fuel 0 ltac:(lia) ltac:(unfold parse_fuel; lia) document) as [_ Hok].
    destruct (Hok n r Hv) as [_ H]. destruct (H Hu) as [Hn _]. by rewrite Nat.sub_0_r in Hn. }
  destruct (law_decode _ n _ v Hw Hdec) as [Hv He]. split; [done|]. specialize (He (js "$")).
  destruct (encodeNode c v _); [eauto|done].
Qed.
End group.

(** A group of the kind the generator emits, used by the witnesses. *)
Definition field_enabled : FieldCodec :=
  {| jsonName := js "enabled"; property := js "enabled"; ftype := bool; fvalue := codec_boolean |}.
Definition field_tags : FieldCodec :=
  {| jsonName := js "tags"; property := js "tags"; ftype := _; fvalue := codec_array codec_string |}.
Definition field_timeout : FieldCodec :=
  {| jsonName := js "timeout"; property := js "timeout"; ftype := Z; fvalue := codec_duration |}.
Definition sample_fields : list FieldCodec := [field_enabled; field_tags; field_timeout].

Definition sample_lawful : lawful_fields 1 sample_fields :=
  lf_cons 1 field_enabled _ _ _ (lawful_mono codec_boolean 0 1 _ _ boolean_lawful (le_S _ _ (le_n _)))
    (lf_cons 1 field_tags _ _ _ (array_lawful codec_string 0 _ _ string_lawful)
      (lf_cons 1 field_timeout _ _ _ (lawful_mono codec_duration 0 1 _ _ duration_lawful (le_S _ _ (le_n _)))
        (lf_nil 1))).

Definition sample_value : obj sample_fields :=
  (Data true, (Data (Some [Data (js "a")]), (Data 90000000000, tt))).

(** ** The properties *)

(** C28: configuration groups survive the wire. For every group built from
    lawful fields (the scalar codecs, [nullable], arrays, records, enum maps
    and nested objects all are), a valid value that encodes at all decodes
    back from its document to the same value, up to the order of map
    entries. *)
Theorem group_roundtrip d fs (L : lawful_fields d fs) v text :
  (S d <= MAX_JSON_DEPTH)%nat -> obj_valid L v -> encodeGroup v (group fs) = Ok text ->
  exists v', decodeGroup text (group fs) = Ok v' /\ obj_same L v' v.
Proof. intros Hd. apply (group_encode_decode _ (S d)); [apply object_lawful|done]. Qed.

Lemma group_roundtrip_witness : exists text v',
  encodeGroup sample_value (group sample_fields) = Ok text /\
  decodeGroup text (group sample_fields) = Ok v' /\ obj_same sample_lawful v' sample_value.
Proof.
  destruct (encodeGroup sample_value (group sample_fields)) as [text|e] eqn:E; [|vm_compute in E; discriminate].
  destruct (group_roundtrip 1 sample_fields sample_lawful sample_value text) as (v' & Hd & Hs).
  - apply Nat.leb_le. reflexivity.
  - simpl. split; [exact I|]. split; [|split; exact I].
    constructor; [|constructor]. split; [|reflexivity]. repeat constructor; vm_compute; discriminate.
  - exact E.
  - exists text, v'. split; [reflexivity|]. split; assumption.
Defined.

(** Every accepted document is a fixed point. What a group decodes is a
    valid value that the group can encode again, and decoding that encoding
    gives the same value: no accepted value is lost or altered by a rewrite. *)
Theorem group_decode_stable d fs (L : lawful_fields d fs) document v :
  (S d <= MAX_JSON_DEPTH)%nat -> Forall is_unit document -> decodeGroup document (group fs) = Ok v ->
  obj_valid L v /\ exists text v', encodeGroup v (group fs) = Ok text /\
    decodeGroup text (group fs) = Ok v' /\ obj_same L v' v.
Proof.
  intros Hd Hu Hdec. pose proof (object_lawful d fs L) as Hl.
  destruct (group_decode_encode _ _ _ _ Hl Hd document v Hu Hdec) as [Hv [text He]]. split; [done|].
  destruct (group_encode_decode _ _ _ _ Hl Hd v text Hv He) as (v' & ? & ?). eauto.
Qed.

Definition sample_group_text : jstr :=
  (fun c => if c =? 39 then 34 else c) <$> js "{'timeout':'1m30s', 'enabled':true,'tags':['a']}".

Lemma group_decode_stable_witness : exists v, decodeGroup sample_group_text (group sample_fields) = Ok v /\
  obj_valid sample_lawful v.
Proof.
  destruct (decodeGroup sample_group_text (group sample_fields)) as [v|e] eqn:E; [|vm_compute in E; discriminate].
  exists v. split; [reflexivity|].
  apply (group_decode_stable 1 sample_fields sample_lawful sample_group_text v).
  - apply Nat.leb_le. reflexivity.
  - refine (bool_decide_unpack (Forall is_unit _) _). vm_compute. exact I.
  - exact E.
Defined.

(** Decoding is strict. An object is accepted only when its properties are
    exactly the described fields, each present once and none unknown, in
    whatever order; anything else is an error. *)
Theorem object_strict fs ps path v :
  decodeObject fs (NObject ps) path = Ok v -> ps.*1 ≡ₚ map jsonName fs.
Proof.
  unfold decodeObject. destruct (validateFields fs path) as [names|] eqn:Hval; [|done].
  apply validate_fields_ok in Hval as (-> & Hnd & _).
  destruct (collect_values _ ps [] path) as [values|] eqn:Hc; [|done].
  apply collect_values_inv in Hc as (-> & Hndv & Hin); [|constructor|intros k Hk; by apply not_elem_of_nil in Hk].
  destruct (check_missing fs _ path) as [[]|] eqn:Hm; [|done]. intros _.
  pose proof (proj1 (check_missing_ok _ _ _) Hm) as Hall. apply NoDup_Permutation; [done..|]. intros k. split; auto.
Qed.

Lemma object_strict_witness : exists v,
  decodeObject sample_fields
    (NObject [(js "timeout", NString (js "0")); (js "tags", NNull); (js "enabled", NBool false)]) (js "$") = Ok v /\
  [js "timeout"; js "tags"; js "enabled"] ≡ₚ map jsonName sample_fields.
Proof.
  eexists. split; [vm_compute; reflexivity|].
  eapply (object_strict sample_fields
    [(js "timeout", NString (js "0")); (js "tags", NNull); (js "enabled", NBool false)] (js "$")).
  vm_compute. reflexivity.
Defined.

(** ** Integers of a width *)

(** The integers of a declared width and signedness. *)
Definition in_width (bits : Z) (unsigned : bool) (v : Z) : Prop :=
  if unsigned then 0 <= v < 2 ^ bits else - 2 ^ (bits - 1) <= v < 2 ^ (bits - 1).

(** The number an exponent part names. *)
Inductive exponent_value : jstr -> Z -> Prop :=
| exponent_none : exponent_value [] 0
| exponent_positive m sign ds :
    m = 101 \/ m = 69 -> sign = [] \/ sign = [43] -> digits1 ds -> exponent_value (m :: sign ++ ds) (digits_val ds)
| exponent_negative m ds :
    m = 101 \/ m = 69 -> digits1 ds -> exponent_value (m :: [45] ++ ds) (- digits_val ds).

(** The integer a JSON number stands for: with [x] for its exponent and [fd]
    for its fraction digits, its value is that of all its digits times
    [10 ^ (x - length fd)], and [v] is an integer with that value. *)
Inductive means : jstr -> Z -> Prop :=
| means_intro sign i f fd e x v :
    sign = [] \/ sign = [45] -> json_int i -> (f = [] /\ fd = []) \/ (f = 46 :: fd /\ digits1 fd) ->
    exponent_value e x ->
    (if bool_decide (sign = [45]) then -1 else 1) * digits_val (i ++ fd) * 10 ^ Z.max 0 (x - strlen fd)
    = v * 10 ^ Z.max 0 (strlen fd - x) ->
    means (sign ++ i ++ f ++ e) v.

Lemma exponent_value_exp e x : exponent_value e x -> json_exp e /\ signed_val (drop 1 e) = x.
Proof.
  intros [|m sign ds Hm Hs Hd|m ds Hm Hd]; [by split; [left|]|split..].
  - right. exists m, sign, ds. split_and!; [done|done|destruct Hs; auto|done].
  - simpl. rewrite drop_0.
    destruct Hs as [-> | ->]; [|done]. destruct Hd as [Hn Ha]. destruct Ha as [|d ds Hd Ha]; [done|].
    simpl. unfold is_digit in Hd. replace (d =? 45) with false by lia. by replace (d =? 43) with false by lia.
  - right. exists m, [45], ds. split_and!; auto.
  - done.
Qed.

Lemma json_exp_value e : json_exp e -> exists x, exponent_value e x.
Proof.
  intros [->|(m & sign & ds & -> & Hm & [Hs|[Hs| ->]] & Hd)]; eexists;
    [by constructor|by constructor; auto..|by constructor].
Qed.

(** What the decimal parts denote is what the number stands for. *)
Lemma means_denotes lexeme v :
  means lexeme v <-> json_number lexeme /\ exists p, decimalParts lexeme = Some p /\ denotes p v.
Proof.
  assert (forall sign i f fd e x v, sign = [] \/ sign = [45] -> json_int i ->
    (f = [] /\ fd = []) \/ (f = 46 :: fd /\ digits1 fd) -> exponent_value e x ->
    json_number (sign ++ i ++ f ++ e) /\
    exists p, decimalParts (sign ++ i ++ f ++ e) = Some p /\
      (denotes p v <-> (if bool_decide (sign = [45]) then -1 else 1) * digits_val (i ++ fd) * 10 ^ Z.max 0 (x - strlen fd)
                       = v * 10 ^ Z.max 0 (strlen fd - x))) as H.
  { intros sign i f fd e x w Hs Hi Hf [He Hx]%exponent_value_exp.
    assert (json_frac f /\ drop 1 f = fd) as [Hjf Hfd].
    { destruct Hf as [[-> ->]|[-> Hd]]; [by split; [left|]|]. split; [right; eauto|by simpl; rewrite drop_0]. }
    split; [by constructor|]. eexists. split; [apply decimalParts_parts; auto using json_int_digits|].
    unfold denotes. simpl. rewrite or_zero_val, strip_zeros_val, Hx, Hfd.
    by replace (- (x - strlen fd)) with (strlen fd - x) by lia. }
  split.
  - intros [sign i f fd e x w Hs Hi Hf He Hv]. destruct (H sign i f fd e x w Hs Hi Hf He) as (Hj & p & Hp & Hd).
    split; [done|]. exists p. split; [done|]. by apply Hd.
  - intros [Hj (p & Hp & Hd)]. destruct Hj as [sign i f e Hs Hi Hf He]. destruct (json_exp_value e He) as [x Hx].
    assert (exists fd, (f = [] /\ fd = []) \/ (f = 46 :: fd /\ digits1 fd)) as [fd Hfd].
    { destruct Hf as [->|(ds & -> & Hds)]; [by exists []; left|by exists ds; right]. }
    destruct (H sign i f fd e x v Hs Hi Hfd Hx) as (_ & q & Hq & Hqd). assert (p = q) as -> by congruence.
    econstructor; [done..|]. by apply Hqd.
Qed.

(** The range the codecs test. *)
Lemma in_width_range bits u v :
  (v <? int_minimum bits u) || (int_maximum bits u <? v) = false <-> in_width bits u v.
Proof. unfold in_width, int_minimum, int_maximum. destruct u; lia. Qed.

Lemma validateBits_iff bits m name : is_ok (validateBits bits m name) = true <-> 1 <= bits <= m.
Proof. unfold validateBits. destruct (_ || _) eqn:E; bool_prop; simpl; split; done || lia. Qed.

Lemma in_width_small bits u v : 1 <= bits <= 64 -> in_width bits u v -> Z.abs v <= 2 ^ 64.
Proof.
  intros Hb Hv. unfold in_width in Hv. assert (2 ^ bits <= 2 ^ 64) by (apply Z.pow_le_mono_r; lia).
  assert (2 ^ (bits - 1) <= 2 ^ 64) by (apply Z.pow_le_mono_r; lia). destruct u; lia.
Qed.

Lemma decode_integer_means bits u lexeme path v :
  1 <= bits <= 64 -> json_number lexeme ->
  decode_integer bits u (NNumber lexeme) path = Ok v <-> means lexeme v /\ in_width bits u v.
Proof.
  intros Hb Hj. rewrite means_denotes. destruct (decimalParts_json lexeme Hj) as [p Hp].
  assert (in_width bits u v -> exactInteger lexeme = Some v <-> denotes p v) as Hx.
  { intros Hv%in_width_small; [|done]. rewrite (exactInteger_denotes lexeme p v Hp). split; [tauto|]. intros Hd. split; [done|].
    destruct (Z.le_gt_cases (exponent10 p) 128) as [|Hgt]; [by left|]. right.
    destruct (decide (digits p = [48])) as [|Hz]; [done|].
    pose proof (denotes_large p v (decimalParts_canonical _ _ Hp) Hz Hgt Hd). lia. }
  unfold decode_integer. split.
  - intros H. destruct (exactInteger lexeme) as [w|]; [|done]. destruct (_ || _) eqn:Hr; [done|]. injection H as ->.
    apply in_width_range in Hr. split; [|done]. split; [done|]. exists p. split; [done|]. by apply Hx.
  - intros [[_ (q & Hq & Hd)] Hr]. assert (q = p) as -> by congruence. apply Hx in Hd as ->; [|done].
    apply in_width_range in Hr. by rewrite Hr.
Qed.

Lemma codec_int_ok bits u : is_ok (codec_int bits u) = true <-> 1 <= bits <= 53.
Proof. rewrite <- (validateBits_iff bits 53 (js "integer")). unfold codec_int. by destruct (validateBits _ _ _). Qed.

Lemma codec_bigint_ok bits u : is_ok (codec_bigint bits u) = true <-> 1 <= bits <= 64.
Proof. rewrite <- (validateBits_iff bits 64 (js "bigint")). unfold codec_bigint. by destruct (validateBits _ _ _). Qed.

(** What the two codecs do with an integer: [unsafe] is the extra test of
    [codecs.int]. *)
Definition encode_integer (bits : Z) (u : bool) (v : Z) (path : jstr) (unsafe : bool) : decoded JsonNode :=
  if unsafe then Throw (rangeError path (int_expected u))
  else if (v <? int_minimum bits u) || (int_maximum bits u <? v) then Throw (rangeError path (int_expected u))
  else Ok (NNumber (dec v)).

Lemma codec_int_fields bits u c :
  codec_int bits u = Ok c ->
  decodeNode c = decode_integer bits u /\ encodeNode c = fun v path => encode_integer bits u v path (negb (isSafeInteger v)).
Proof. unfold codec_int. destruct (validateBits _ _ _); [|done]. by intros [= <-]. Qed.

Lemma codec_bigint_fields bits u c :
  codec_bigint bits u = Ok c ->
  decodeNode c = decode_integer bits u /\ encodeNode c = fun v path => encode_integer bits u v path false.
Proof. unfold codec_bigint. destruct (validateBits _ _ _); [|done]. by intros [= <-]. Qed.

Lemma encode_ranged bits u v path unsafe n :
  (in_width bits u v -> unsafe = false) ->
  encode_integer bits u v path unsafe = Ok n <-> in_width bits u v /\ n = NNumber (dec v).
Proof.
  intros Hs. unfold encode_integer. split.
  - destruct unsafe; [done|]. destruct (_ || _) eqn:Hr; [done|]. intros [= <-]. split; [|done]. by apply in_width_range.
  - intros [Hr ->]. rewrite (Hs Hr). apply in_width_range in Hr. by rewrite Hr.
Qed.

(** C32: integer codecs are exact and bounded.
    - [codecs.int] is made for widths from 1 to 53 bits and [codecs.bigint]
      from 1 to 64, and for no others.
    - Either accepts a JSON number exactly when it stands for an integer of the
      declared width and signedness, in any spelling, and answers that integer.
      It encodes exactly those integers, as their decimal text.
    - What [codecs.int] answers is below [2 ^ 53] in magnitude, so the JavaScript
      number holds it exactly. *)
Theorem int_codec_exact bits u :
  (is_ok (codec_int bits u) = true <-> 1 <= bits <= 53) /\
  (is_ok (codec_bigint bits u) = true <-> 1 <= bits <= 64) /\
  (forall c, codec_int bits u = Ok c \/ codec_bigint bits u = Ok c ->
    (forall lexeme path v, json_number lexeme ->
       decodeNode c (NNumber lexeme) path = Ok v <-> means lexeme v /\ in_width bits u v) /\
    (forall v path n, encodeNode c v path = Ok n <-> in_width bits u v /\ n = NNumber (dec v))) /\
  (forall c node path v, codec_int bits u = Ok c -> decodeNode c node path = Ok v -> Z.abs v < 2 ^ 53).
Proof.
  split_and!; [apply codec_int_ok|apply codec_bigint_ok| |].
  - intros c [Hc|Hc]; [pose proof (proj1 (codec_int_ok bits u)) as Hb|pose proof (proj1 (codec_bigint_ok bits u)) as Hb];
      rewrite Hc in Hb; specialize (Hb eq_refl).
    + apply codec_int_fields in Hc as [-> ->]. split; [intros; apply decode_integer_means; lia || done|].
      intros v path n. apply encode_ranged. intros Hr%in_width_range. by rewrite (int_range_safe bits u v).
    + apply codec_bigint_fields in Hc as [-> ->]. split; [intros; apply decode_integer_means; lia || done|].
      intros v path n. by apply (encode_ranged bits u v path false).
  - intros c node path v Hc Hd. pose proof (proj1 (codec_int_ok bits u)) as Hb. rewrite Hc in Hb. specialize (Hb eq_refl).
    apply codec_int_fields in Hc as [Hc _]. rewrite Hc in Hd. apply decode_integer_range, int_range_safe in Hd; [|done].
    unfold isSafeInteger, MAX_SAFE_INTEGER in Hd. bool_prop. lia.
Qed.

(** The literal [-3.2768e4] under a 16-bit codec, and one beyond it. *)
Lemma int_codec_exact_witness : exists c, codec_int 16 false = Ok c /\
  decodeNode c (NNumber (js "-3.2768e4")) [] = Ok (-32768) /\
  decodeNode c (NNumber (js "32768")) [] <> Ok 32768 /\
  encodeNode c (-32768) [] = Ok (NNumber (js "-32768")).
Proof.
  destruct (int_codec_exact 16 false) as (_ & _ & H & _).
  eexists. split; [reflexivity|].
  match goal with |- decodeNode ?c _ _ = _ /\ _ => destruct (H c (or_introl eq_refl)) as [H1 H2] end.
  assert (means (js "-3.2768e4") (-32768)) as Hm.
  { refine (means_intro (js "-") (js "3") (js ".2768") (js "2768") (js "e4") 4 (-32768) _ _ _ _ _).
    - right; reflexivity.
    - right; exists 51, []; repeat split; try lia; constructor.
    - right; split; [reflexivity|split; [discriminate|repeat constructor]].
    - apply (exponent_positive 101 [] [52]); [by left|by left|split; [discriminate|repeat constructor]].
    - reflexivity. }
  split; [|split].
  - apply H1; [apply means_denotes in Hm; exact (proj1 Hm)|]. split; [exact Hm|]. cbn. lia.
  - intros Hd. apply H1 in Hd as [_ Hw]; [cbn in Hw; lia|apply (json_number_dec 32768)].
  - apply H2. split; [cbn; lia|reflexivity].
Defined.
