(* ===== verification/Watch.v ===== *)
(** * Watch: [sdk/typescript/src/watch.ts], class [SubscriptionManager].

    The client's one shared watch: which namespaces are subscribed, the last
    known value of every tracked parameter, the handlers and watchers, and
    the two asynchronous tasks (the stream session and the reconciliation
    pass) that feed it. Each synchronous stretch of the source between two
    [await]s is one operation here; the tasks keep what they captured in
    values of their own, so any interleaving of operations is a run.

    Sets of handlers are objects the unregister closures keep a reference to,
    so they live in a store. Calls out of the component (handlers, dispatched
    callbacks, cache invalidations, messages) are appended to a trace;
    handlers are taken not to call back into the manager. Wall-clock
    timestamps of [status], the logger, and the timer of [abortableDelay] are
    not modelled. *)
From stdpp Require Import prelude gmap strings.
From Stdlib Require Import ZArith Lia.
From S2P Require Import Prelude JsString JsMap Unicode Decimal Errors Refs.

(** ** State *)

Inductive WatchEvent :=
| WPut (ns : jstr) (key path value : jstr) (version revision : Z)
| WDelete (ns : jstr) (key path : jstr) (version revision : Z)
| WSecretChange (ns : jstr) (key path : jstr) (version revision : Z) (changeType : jstr).

Inductive WatchConnectionState := idle | connecting | connected | reconnecting | stopped_state.
Inductive ReconciliationHealth := not_started | healthy | degraded.

Record KnownValue := { k_value : jstr; k_present : bool; k_revision : Z }.

(** Identities of handler functions, watch callbacks and handler sets. *)
Abbreviation fn := nat.

Record Watcher := { w_id : Z; w_namespace : NamespaceRef; w_callback : fn }.

(** The closures returned by [registerParameter] and [watch], with their
    [active] flag and what they captured. *)
Inductive Registration :=
| RParameter (active : bool) (path : jstr) (handlers : nat) (handler : fn) (ns : NamespaceRef)
| RWatch (active : bool) (id : Z) (ns : NamespaceRef).

(** What the manager does to the outside, in order. *)
Inductive effect :=
| CallHandler (h : fn) (value : jstr) (present : bool)
| DispatchWatch (path : jstr) (w : Watcher) (event : WatchEvent)
| CacheInvalidateParam (path : jstr)
| CacheInvalidateParams (nss : list NamespaceRef)
| CacheInvalidateSecret (path : jstr)
| CacheInvalidateSecrets (nss : list NamespaceRef)
| SendRegister (nss : list NamespaceRef) (lastSeenRevision : Z)
| SendAck (ackedRevision : Z).

Record Manager := {
  namespaces : list (jstr * NamespaceRef);
  namespaceRefCounts : list (jstr * Z);
  parameterHandlers : list (jstr * nat);
  handlerSets : list (list fn);
  known : list (jstr * KnownValue);
  watchers : list (Z * Watcher);
  watcherStops : list (Z * nat);
  registrations : list Registration;
  streamNamespaces : list NamespaceRef;
  nextWatcherId : Z;
  lastRevision : Z;
  state : WatchConnectionState;
  reconciliation : ReconciliationHealth;
  reconnectCount : Z;
  started : bool;
  restartRequested : bool;
  namespaceGeneration : Z;
  snapshotGeneration : Z;
  stopped : bool;
  trace : list effect
}.

Definition new_SubscriptionManager : Manager :=
  {| namespaces := []; namespaceRefCounts := []; parameterHandlers := []; handlerSets := []; known := [];
     watchers := []; watcherStops := []; registrations := []; streamNamespaces := []; nextWatcherId := 1;
     lastRevision := 0; state := idle; reconciliation := not_started; reconnectCount := 0; started := false;
     restartRequested := false; namespaceGeneration := 0; snapshotGeneration := 0; stopped := false; trace := [] |}.

(** Record updates, one per group of fields that change together. *)
Definition set_scope (m : Manager) ns rc gen : Manager :=
  {| namespaces := ns; namespaceRefCounts := rc; parameterHandlers := parameterHandlers m;
     handlerSets := handlerSets m; known := known m; watchers := watchers m; watcherStops := watcherStops m;
     registrations := registrations m; streamNamespaces := streamNamespaces m; nextWatcherId := nextWatcherId m;
     lastRevision := lastRevision m; state := state m; reconciliation := reconciliation m;
     reconnectCount := reconnectCount m; started := started m; restartRequested := restartRequested m;
     namespaceGeneration := gen; snapshotGeneration := snapshotGeneration m; stopped := stopped m; trace := trace m |}.

Definition set_known (m : Manager) k : Manager :=
  {| namespaces := namespaces m; namespaceRefCounts := namespaceRefCounts m; parameterHandlers := parameterHandlers m;
     handlerSets := handlerSets m; known := k; watchers := watchers m; watcherStops := watcherStops m;
     registrations := registrations m; streamNamespaces := streamNamespaces m; nextWatcherId := nextWatcherId m;
     lastRevision := lastRevision m; state := state m; reconciliation := reconciliation m;
     reconnectCount := reconnectCount m; started := started m; restartRequested := restartRequested m;
     namespaceGeneration := namespaceGeneration m; snapshotGeneration := snapshotGeneration m;
     stopped := stopped m; trace := trace m |}.

Definition set_handlers (m : Manager) ph hs : Manager :=
  {| namespaces := namespaces m; namespaceRefCounts := namespaceRefCounts m; parameterHandlers := ph;
     handlerSets := hs; known := known m; watchers := watchers m; watcherStops := watcherStops m;
     registrations := registrations m; streamNamespaces := streamNamespaces m; nextWatcherId := nextWatcherId m;
     lastRevision := lastRevision m; state := state m; reconciliation := reconciliation m;
     reconnectCount := reconnectCount m; started := started m; restartRequested := restartRequested m;
     namespaceGeneration := namespaceGeneration m; snapshotGeneration := snapshotGeneration m;
     stopped := stopped m; trace := trace m |}.

Definition set_watchers (m : Manager) w ws next : Manager :=
  {| namespaces := namespaces m; namespaceRefCounts := namespaceRefCounts m; parameterHandlers := parameterHandlers m;
     handlerSets := handlerSets m; known := known m; watchers := w; watcherStops := ws;
     registrations := registrations m; streamNamespaces := streamNamespaces m; nextWatcherId := next;
     lastRevision := lastRevision m; state := state m; reconciliation := reconciliation m;
     reconnectCount := reconnectCount m; started := started m; restartRequested := restartRequested m;
     namespaceGeneration := namespaceGeneration m; snapshotGeneration := snapshotGeneration m;
     stopped := stopped m; trace := trace m |}.

Definition set_registrations (m : Manager) r : Manager :=
  {| namespaces := namespaces m; namespaceRefCounts := namespaceRefCounts m; parameterHandlers := parameterHandlers m;
     handlerSets := handlerSets m; known := known m; watchers := watchers m; watcherStops := watcherStops m;
     registrations := r; streamNamespaces := streamNamespaces m; nextWatcherId := nextWatcherId m;
     lastRevision := lastRevision m; state := state m; reconciliation := reconciliation m;
     reconnectCount := reconnectCount m; started := started m; restartRequested := restartRequested m;
     namespaceGeneration := namespaceGeneration m; snapshotGeneration := snapshotGeneration m;
     stopped := stopped m; trace := trace m |}.

(** The stream's own fields. *)
Definition set_stream (m : Manager) sn rev snap : Manager :=
  {| namespaces := namespaces m; namespaceRefCounts := namespaceRefCounts m; parameterHandlers := parameterHandlers m;
     handlerSets := handlerSets m; known := known m; watchers := watchers m; watcherStops := watcherStops m;
     registrations := registrations m; streamNamespaces := sn; nextWatcherId := nextWatcherId m;
     lastRevision := rev; state := state m; reconciliation := reconciliation m;
     reconnectCount := reconnectCount m; started := started m; restartRequested := restartRequested m;
     namespaceGeneration := namespaceGeneration m; snapshotGeneration := snap;
     stopped := stopped m; trace := trace m |}.

(** Connection state, health, reconnects, and the started, restart and
    stopped flags. *)
Definition set_status (m : Manager) st rec rc sta rst sto : Manager :=
  {| namespaces := namespaces m; namespaceRefCounts := namespaceRefCounts m; parameterHandlers := parameterHandlers m;
     handlerSets := handlerSets m; known := known m; watchers := watchers m; watcherStops := watcherStops m;
     registrations := registrations m; streamNamespaces := streamNamespaces m; nextWatcherId := nextWatcherId m;
     lastRevision := lastRevision m; state := st; reconciliation := rec;
     reconnectCount := rc; started := sta; restartRequested := rst;
     namespaceGeneration := namespaceGeneration m; snapshotGeneration := snapshotGeneration m;
     stopped := sto; trace := trace m |}.

Definition emit (m : Manager) (es : list effect) : Manager :=
  {| namespaces := namespaces m; namespaceRefCounts := namespaceRefCounts m; parameterHandlers := parameterHandlers m;
     handlerSets := handlerSets m; known := known m; watchers := watchers m; watcherStops := watcherStops m;
     registrations := registrations m; streamNamespaces := streamNamespaces m; nextWatcherId := nextWatcherId m;
     lastRevision := lastRevision m; state := state m; reconciliation := reconciliation m;
     reconnectCount := reconnectCount m; started := started m; restartRequested := restartRequested m;
     namespaceGeneration := namespaceGeneration m; snapshotGeneration := snapshotGeneration m;
     stopped := stopped m; trace := trace m ++ es |}.

(** ** Namespace scope *)

(** [#scopeChanged]: the generation moves on; aborting the scope signal and
    waking the waiters only lets the tasks resume. *)
Definition scopeChanged (m : Manager) : Manager :=
  set_scope m (namespaces m) (namespaceRefCounts m) (namespaceGeneration m + 1).

Definition retainNamespace (m : Manager) (ns : NamespaceRef) : Manager * bool :=
  let key := namespaceKey ns in
  let count := default 0 (map_get key (namespaceRefCounts m)) in
  let m := set_scope m (namespaces m) (map_set key (count + 1) (namespaceRefCounts m)) (namespaceGeneration m) in
  if 0 <? count then (m, false)
  else
    let m := set_scope m (map_set key ns (namespaces m)) (namespaceRefCounts m) (namespaceGeneration m) in
    (emit (scopeChanged m) [CacheInvalidateSecrets [ns]], true).

Definition path_in_key (key path : jstr) : bool :=
  match refOf path with Some ref => bool_decide (namespaceKey (namespace ref) = key) | None => false end.

Definition releaseNamespace (m : Manager) (ns : NamespaceRef) : Manager * bool :=
  let key := namespaceKey ns in
  match map_get key (namespaceRefCounts m) with
  | None => (m, false)
  | Some count =>
      if 1 <? count then
        (set_scope m (namespaces m) (map_set key (count - 1) (namespaceRefCounts m)) (namespaceGeneration m), false)
      else
        let m := set_scope m (map_delete key (namespaces m)) (map_delete key (namespaceRefCounts m))
                   (namespaceGeneration m) in
        let m := set_known m (filter (fun p => path_in_key key p.1 = false) (known m)) in
        (scopeChanged m, true)
  end.

(** [#ensureStarted]: the two tasks start once. *)
Definition ensureStarted (m : Manager) : Manager :=
  if started m || stopped m then m
  else set_status m (state m) (reconciliation m) (reconnectCount m) true (restartRequested m) (stopped m).

(** [#restart]: the session and the back-off in progress are aborted. *)
Definition restart (m : Manager) : Manager :=
  set_status m (state m) (reconciliation m) (reconnectCount m) (started m) true (stopped m).

Definition retain_and_start (m : Manager) (ns : NamespaceRef) : Manager :=
  let wasStarted := started m in
  let '(m, changed) := retainNamespace m ns in
  let m := ensureStarted m in
  if wasStarted && changed then restart m else m.

(** ** Registrations *)

Definition handler_set (m : Manager) (s : nat) : list fn := default [] (handlerSets m !! s).

Definition registerParameter (m : Manager) (ref : ResourceRef) (initial : jstr) (h : fn) : Manager * nat :=
  let path := displayPath ref in
  let m :=
    match map_get path (known m) with
    | None => set_known m (map_set path {| k_value := initial; k_present := true; k_revision := 0 |} (known m))
    | Some k => emit m [CallHandler h (k_value k) (k_present k)]
    end in
  let '(m, s) :=
    match map_get path (parameterHandlers m) with
    | Some s => (m, s)
    | None => let s := length (handlerSets m) in
              (set_handlers m (map_set path s (parameterHandlers m)) (handlerSets m ++ [[]]), s)
    end in
  let m := set_handlers m (parameterHandlers m) (<[s := set_add h (handler_set m s)]> (handlerSets m)) in
  let m := retain_and_start m (namespace ref) in
  (set_registrations m (registrations m ++ [RParameter true path s h (namespace ref)]), length (registrations m)).

Definition release_and_restart (m : Manager) (ns : NamespaceRef) : Manager :=
  let '(m, changed) := releaseNamespace m ns in
  if changed then restart m else m.

(** The closure [registerParameter] returns. *)
Definition unregister (m : Manager) (reg : nat) : Manager :=
  match registrations m !! reg with
  | Some (RParameter true path s h ns) =>
      let m := set_registrations m (<[reg := RParameter false path s h ns]> (registrations m)) in
      let set := set_delete h (handler_set m s) in
      let m := set_handlers m (parameterHandlers m) (<[s := set]> (handlerSets m)) in
      let m :=
        if bool_decide (set = []) then
          let m := set_handlers m (map_delete path (parameterHandlers m)) (handlerSets m) in
          match map_get path (known m) with
          | Some k => if k_present k then m else set_known m (map_delete path (known m))
          | None => m
          end
        else m in
      release_and_restart m ns
  | _ => m
  end.

(** The closure [watch] returns. *)
Definition watch_stop (m : Manager) (reg : nat) : Manager :=
  match registrations m !! reg with
  | Some (RWatch true id ns) =>
      let m := set_registrations m (<[reg := RWatch false id ns]> (registrations m)) in
      let m := set_watchers m (map_delete id (watchers m)) (map_delete id (watcherStops m)) (nextWatcherId m) in
      release_and_restart m ns
  | _ => m
  end.

(** [aborted]: the caller's signal is already aborted. *)
Definition watch (m : Manager) (ns : NamespaceRef) (cb : fn) (aborted : bool) : res JsError (Manager * option nat) :=
  if stopped m then Throw (KmsError failed_precondition (js "KMS watch manager is stopped") None None)
  else if aborted then Ok (m, None)
  else
    let id := nextWatcherId m in
    let w := {| w_id := id; w_namespace := ns; w_callback := cb |} in
    let m := set_watchers m (map_set id w (watchers m)) (watcherStops m) (id + 1) in
    let m := retain_and_start m ns in
    let reg := length (registrations m) in
    let m := set_registrations m (registrations m ++ [RWatch true id ns]) in
    Ok (set_watchers m (watchers m) (map_set id reg (watcherStops m)) (nextWatcherId m), Some reg).

(** [stop] up to its [await], and after the owned tasks have settled. *)
Definition stop_begin (m : Manager) : Manager :=
  if stopped m then m
  else
    let m := set_status m stopped_state (reconciliation m) (reconnectCount m) (started m) (restartRequested m) true in
    foldl watch_stop m (map snd (watcherStops m)).

Definition stop_finish (m : Manager) : Manager :=
  let m := set_status m stopped_state (reconciliation m) (reconnectCount m) (started m) (restartRequested m) (stopped m) in
  let m := set_watchers m [] [] (nextWatcherId m) in
  let m := set_handlers m [] (handlerSets m) in
  let m := set_known m [] in
  set_scope m [] [] (namespaceGeneration m).

(** ** Values *)

Definition revisionAllowsWrite (previousRevision revision : Z) (reconcile : bool) : bool :=
  if reconcile then previousRevision <=? revision else (revision =? 0) || (previousRevision <? revision).

Definition fireWatchers (m : Manager) (ns : NamespaceRef) (path : jstr) (event : WatchEvent) : Manager :=
  emit m (flat_map (fun p => if namespaceEquals (w_namespace p.2) ns then [DispatchWatch path p.2 event] else [])
            (watchers m)).

(** The dispatched callback runs only if its watcher is still registered;
    identifiers are never reused. *)
Definition callback_runs (m : Manager) (w : Watcher) : bool := map_has (w_id w) (watchers m).

Definition has_handlers (m : Manager) (path : jstr) : bool := map_has path (parameterHandlers m).

Definition value_changed (previous : option KnownValue) (value : jstr) (present : bool) : bool :=
  if present then
    match previous with
    | Some k => negb (k_present k) || negb (bool_decide (k_value k = value))
    | None => true
    end
  else match previous with Some k => k_present k | None => false end.

Definition compact (m : Manager) (path : jstr) (present : bool) : Manager :=
  if negb present && negb (has_handlers m path) then set_known m (map_delete path (known m)) else m.

Definition notify (m : Manager) (path value : jstr) (present : bool) : Manager :=
  let hs := match map_get path (parameterHandlers m) with Some s => handler_set m s | None => [] end in
  emit m (CacheInvalidateParam path :: map (fun h => CallHandler h value present) hs).

Definition setValue (m : Manager) (path value : jstr) (present : bool) (version revision : Z) (reconcile : bool)
  : Manager :=
  let previous := map_get path (known m) in
  if reconcile && (revision <? lastRevision m) then m
  else if match previous with Some k => negb (revisionAllowsWrite (k_revision k) revision reconcile) | None => false end
  then m
  else
    let nextRevision := match previous with
                        | Some k => if revision <? k_revision k then k_revision k else revision
                        | None => revision
                        end in
    let changed := value_changed previous value present in
    let m := set_known m (map_set path {| k_value := if present then value else []; k_present := present;
                                          k_revision := nextRevision |} (known m)) in
    if negb changed then compact m path present
    else
      let m := notify m path value present in
      match refOf path with
      | None => m
      | Some ref =>
          let ns := displayNamespace (namespace ref) in
          let event := if present then WPut ns (key ref) path value version revision
                       else WDelete ns (key ref) path version revision in
          compact (fireWatchers m (namespace ref) path event) path present
      end.

(** ** Stream events *)

Record WireParameter := { wp_ref : option ResourceRef; wp_value : jstr; wp_version : Z }.
Record WireChange := { wc_ref : option ResourceRef; wc_type : jstr; wc_value : jstr; wc_version : Z }.

Inductive SubscribeEvent :=
| ESnapshot (parameters : list WireParameter) (revision : Z)
| EChange (change : WireChange) (revision : Z)
| ESecretChange (change : WireChange) (revision : Z)
| EHeartbeat (revision : Z)
| ENone.

Definition shouldApply (m : Manager) (revision : Z) : bool := (revision =? 0) || (lastRevision m <? revision).

Definition advanceRevision (m : Manager) (revision : Z) : Manager :=
  if lastRevision m <? revision then set_stream m (streamNamespaces m) revision (snapshotGeneration m) else m.

Definition pathInStreamScope (m : Manager) (path : jstr) : bool :=
  match refOf path with
  | Some ref => existsb (fun ns => namespaceEquals ns (namespace ref)) (streamNamespaces m)
  | None => false
  end.

Definition snapshot_parameters (ps : list WireParameter) : list (jstr * jstr * Z) :=
  flat_map (fun p => match wp_ref p with
                     | Some ref => [(displayPath ref, wp_value p, wp_version p)]
                     | None => []
                     end) ps.

(** Both loops of [#applySnapshot]. Iteration of a [Map] sees the entries the
    body has not deleted yet, and the body of the second loop only touches
    its own path, so the paths known when it starts are the ones visited. *)
Definition snapshot_put (revision : Z) (m : Manager) (p : jstr * jstr * Z) : Manager :=
  setValue m p.1.1 p.1.2 true p.2 revision false.

Definition snapshot_drop (present : list jstr) (revision : Z) (m : Manager) (path : jstr) : Manager :=
  match map_get path (known m) with
  | Some k => if negb (k_present k) || bool_decide (path ∈ present) || negb (pathInStreamScope m path) then m
              else setValue m path [] false 0 revision false
  | None => m
  end.

Definition applySnapshot (m : Manager) (ps : list WireParameter) (revision : Z) : Manager :=
  let m := emit m [CacheInvalidateParams (streamNamespaces m); CacheInvalidateSecrets (streamNamespaces m)] in
  let params := snapshot_parameters ps in
  let m := foldl (snapshot_put revision) m params in
  foldl (snapshot_drop (map (fun p => p.1.1) params) revision) m (map fst (known m)).

Definition applyChange (m : Manager) (c : WireChange) (revision : Z) : Manager :=
  match wc_ref c with
  | None => m
  | Some ref =>
      let path := displayPath ref in
      if bool_decide (wc_type c = js "delete") then
        setValue (emit m [CacheInvalidateParam path]) path [] false (wc_version c) revision false
      else setValue m path (wc_value c) true (wc_version c) revision false
  end.

Definition applySecretChange (m : Manager) (c : WireChange) (revision : Z) : Manager :=
  match wc_ref c with
  | None => m
  | Some ref =>
      let path := displayPath ref in
      fireWatchers (emit m [CacheInvalidateSecret path]) (namespace ref) path
        (WSecretChange (displayNamespace (namespace ref)) (key ref) path (wc_version c) revision (wc_type c))
  end.

Definition handleEvent (m : Manager) (e : SubscribeEvent) (requestedSnapshotGeneration : option Z) : Manager :=
  match e with
  | ESnapshot ps revision =>
      let m := applySnapshot m ps revision in
      let m := match requestedSnapshotGeneration with
               | Some g => set_stream m (streamNamespaces m) (lastRevision m) (Z.max (snapshotGeneration m) g)
               | None => m
               end in
      advanceRevision m revision
  | EChange c revision =>
      advanceRevision (if shouldApply m revision then applyChange m c revision else m) revision
  | ESecretChange c revision =>
      advanceRevision (if shouldApply m revision then applySecretChange m c revision else m) revision
  | EHeartbeat revision =>
      let m := advanceRevision m revision in emit m [SendAck (lastRevision m)]
  | ENone => m
  end.

(** ** The session task *)

(** What [#runSession] captured when it registered. *)
Record Session := { ss_generation : Z; ss_full : bool }.

Section session.
(** [localeCompare] orders the namespaces of the request; the order carries
    no meaning. *)
Context (sort_namespaces : list NamespaceRef -> list NamespaceRef).

(** From the top of an iteration of [#run] to the registration being sent. *)
Definition session_open (m : Manager) : option (Manager * Session) :=
  if bool_decide (namespaces m = []) then None
  else
    let nss := sort_namespaces (map snd (namespaces m)) in
    let m := set_status m connecting (reconciliation m) (reconnectCount m) (started m) false (stopped m) in
    let m := set_stream m nss (lastRevision m) (snapshotGeneration m) in
    let full := snapshotGeneration m <? namespaceGeneration m in
    let m := emit m [SendRegister nss (if full then 0 else lastRevision m)] in
    Some (m, {| ss_generation := namespaceGeneration m; ss_full := full |}).

(** The registration was sent. *)
Definition session_connected (m : Manager) : Manager :=
  set_status m connected (reconciliation m) (reconnectCount m) (started m) (restartRequested m) (stopped m).

(** One event of the stream: [None] when the namespace set has changed and
    the loop breaks. *)
Definition session_event (m : Manager) (s : Session) (e : SubscribeEvent) : option Manager :=
  if negb (ss_generation s =? namespaceGeneration m) then None
  else Some (handleEvent m e (if ss_full s then Some (ss_generation s) else None)).
End session.

(** The [catch] of [#run]. *)
Definition session_failed (m : Manager) : Manager :=
  if restartRequested m then m
  else set_status m reconnecting (reconciliation m) (reconnectCount m + 1) (started m) (restartRequested m) (stopped m).

Definition run_idle (m : Manager) : Manager :=
  if bool_decide (namespaces m = [])
  then set_status m idle (reconciliation m) (reconnectCount m) (started m) (restartRequested m) (stopped m) else m.

(** [fullJitterBackoff]; [draw c] is [Math.floor(random() * c)]. *)
Definition backoff_ceiling (attempt : Z) : Z := Z.min 60000 (1000 * 2 ^ Z.min (Z.max 0 attempt) 6).
Definition fullJitterBackoff (draw : Z -> Z) (attempt : Z) : Z := Z.max 10 (draw (backoff_ceiling attempt)).

(** ** The reconciliation task *)

(** What [#reconcile] captured and gathered. *)
Record Reconcile := {
  rc_generation : Z;
  rc_namespaces : list NamespaceRef;
  rc_knownPaths : list jstr;
  rc_revision : Z;
  rc_present : list jstr;
  rc_listed : list jstr
}.

Record ListedParameter := { lp_path : jstr; lp_value : jstr; lp_version : Z }.

Definition reconcile_start (m : Manager) : Reconcile :=
  {| rc_generation := namespaceGeneration m; rc_namespaces := map snd (namespaces m);
     rc_knownPaths := map fst (filter (fun p => k_present p.2 = true) (known m));
     rc_revision := lastRevision m; rc_present := []; rc_listed := [] |}.

Definition listed_put (revision : Z) (m : Manager) (p : ListedParameter) : Manager :=
  setValue m (lp_path p) (lp_value p) true (lp_version p) revision true.

(** One page of [#reconcileNamespace]: [None] when the scope has moved on and
    the namespace is abandoned. *)
Definition reconcile_page (m : Manager) (r : Reconcile) (ns : NamespaceRef) (items : list ListedParameter)
  : option (Manager * Reconcile) :=
  if negb (rc_generation r =? namespaceGeneration m) || negb (map_has (namespaceKey ns) (namespaces m)) then None
  else
    Some (foldl (listed_put (rc_revision r)) m items,
          {| rc_generation := rc_generation r; rc_namespaces := rc_namespaces r; rc_knownPaths := rc_knownPaths r;
             rc_revision := rc_revision r; rc_present := foldl (fun s p => set_add (lp_path p) s) (rc_present r) items;
             rc_listed := rc_listed r |}).

(** The page that ends a namespace marks it as completely listed. *)
Definition reconcile_listed (r : Reconcile) (ns : NamespaceRef) : Reconcile :=
  {| rc_generation := rc_generation r; rc_namespaces := rc_namespaces r; rc_knownPaths := rc_knownPaths r;
     rc_revision := rc_revision r; rc_present := rc_present r; rc_listed := set_add (namespaceKey ns) (rc_listed r) |}.

Definition reconcile_drop (r : Reconcile) (m : Manager) (path : jstr) : Manager :=
  if bool_decide (path ∈ rc_present r) then m
  else match refOf path with
  | None => m
  | Some ref =>
      let k := namespaceKey (namespace ref) in
      if negb (map_has k (namespaces m)) || negb (bool_decide (k ∈ rc_listed r)) then m
      else setValue m path [] false 0 (rc_revision r) true
  end.

Definition reconcile_finish (m : Manager) (r : Reconcile) : Manager * bool :=
  if negb (rc_generation r =? namespaceGeneration m) || negb (rc_revision r =? lastRevision m) then (m, false)
  else
    let m := foldl (reconcile_drop r) m (rc_knownPaths r) in
    (m, bool_decide (length (rc_listed r) = length (rc_namespaces r))
        && (rc_generation r =? namespaceGeneration m) && (rc_revision r =? lastRevision m)).

Definition reconcile_report (m : Manager) (ok : bool) : Manager :=
  set_status m (state m) (if ok then healthy else degraded) (reconnectCount m) (started m) (restartRequested m) (stopped m).

Definition reconcile_idle (m : Manager) : Manager :=
  if bool_decide (namespaces m = [])
  then set_status m (state m) not_started (reconnectCount m) (started m) (restartRequested m) (stopped m) else m.

(** ** Status *)

Record WatchStatus := {
  st_state : WatchConnectionState;
  st_reconciliation : ReconciliationHealth;
  st_currentRevision : Z;
  st_reconnectCount : Z;
  st_namespaceCount : nat;
  st_trackedParameterCount : nat;
  st_watcherCount : nat;
  st_parameterHandlerCount : nat
}.

Definition status (m : Manager) : WatchStatus :=
  {| st_state := state m; st_reconciliation := reconciliation m; st_currentRevision := lastRevision m;
     st_reconnectCount := reconnectCount m; st_namespaceCount := length (namespaces m);
     st_trackedParameterCount := length (known m); st_watcherCount := length (watchers m);
     st_parameterHandlerCount := sum_list_with (fun p => length (handler_set m p.2)) (parameterHandlers m) |}.
