(* ===== verification/WatchProofs.v ===== *)
(** * WatchProofs: invariants and guarantees of the subscription manager. *)
From stdpp Require Import prelude gmap strings.
From Stdlib Require Import ZArith Lia.
From S2P Require Import Prelude JsString JsMap Unicode Decimal Errors Refs Watch.

(** ** The running system *)

(** The manager with what its two tasks hold across their [await]s: the
    session in progress and the reconciliation pass in progress. *)
Record System := { mgr : Manager; sess : option Session; pass : option Reconcile }.

Definition init_system : System := {| mgr := new_SubscriptionManager; sess := None; pass := None |}.

(** Everything that can happen between two [await]s, in any order. *)
Inductive wop :=
| WRegister (ref : ResourceRef) (initial : jstr) (h : fn)
| WUnregister (reg : nat)
| WWatch (ns : NamespaceRef) (cb : fn) (ab : bool)
| WWatchStop (reg : nat)
| WStopBegin
| WStopFinish
| WOpen
| WConnected
| WEvent (e : SubscribeEvent)
| WFailed
| WIdle
| WReconcile
| WPage (ns : NamespaceRef) (items : list ListedParameter)
| WListed (ns : NamespaceRef)
| WFinish
| WReconcileIdle.

Section run.
Context (sort_namespaces : list NamespaceRef -> list NamespaceRef).

Definition with_mgr (y : System) (m : Manager) : System := {| mgr := m; sess := sess y; pass := pass y |}.

Definition wm_step (y : System) (o : wop) : System :=
  let m := mgr y in
  match o with
  | WRegister ref initial h => with_mgr y (registerParameter m ref initial h).1
  | WUnregister reg => with_mgr y (unregister m reg)
  | WWatch ns cb ab => match watch m ns cb ab with Ok (m, _) => with_mgr y m | Throw _ => y end
  | WWatchStop reg => with_mgr y (watch_stop m reg)
  | WStopBegin => with_mgr y (stop_begin m)
  | WStopFinish => if stopped m then with_mgr y (stop_finish m) else y
  | WOpen => match session_open sort_namespaces m with
             | Some (m, s) => {| mgr := m; sess := Some s; pass := pass y |}
             | None => y
             end
  | WConnected => with_mgr y (session_connected m)
  | WEvent e =>
      match sess y with
      | Some s => match session_event m s e with
                  | Some m => with_mgr y m
                  | None => {| mgr := m; sess := None; pass := pass y |}
                  end
      | None => y
      end
  | WFailed => {| mgr := session_failed m; sess := None; pass := pass y |}
  | WIdle => with_mgr y (run_idle m)
  | WReconcile => {| mgr := m; sess := sess y; pass := Some (reconcile_start m) |}
  | WPage ns items =>
      match pass y with
      | Some r => match reconcile_page m r ns items with
                  | Some (m, r) => {| mgr := m; sess := sess y; pass := Some r |}
                  | None => y
                  end
      | None => y
      end
  | WListed ns =>
      match pass y with
      | Some r => {| mgr := m; sess := sess y; pass := Some (reconcile_listed r ns) |}
      | None => y
      end
  | WFinish =>
      match pass y with
      | Some r => let '(m, ok) := reconcile_finish m r in
                  {| mgr := reconcile_report m ok; sess := sess y; pass := None |}
      | None => y
      end
  | WReconcileIdle => with_mgr y (reconcile_idle m)
  end.

Definition wm_run (ops : list wop) : System := foldl wm_step init_system ops.
End run.

(** ** Values: what [#setValue] changes *)

(** Only the known values and the trace move. *)
Definition values_only (m m' : Manager) : Prop :=
  exists k es, m' = emit (set_known m k) es.

Lemma values_only_refl m : values_only m m.
Proof. exists (known m), []. destruct m. unfold emit, set_known. simpl. by rewrite app_nil_r. Qed.

Lemma values_only_trans m1 m2 m3 : values_only m1 m2 -> values_only m2 m3 -> values_only m1 m3.
Proof.
  intros (k1 & e1 & ->) (k2 & e2 & ->). exists k2, (e1 ++ e2). unfold emit, set_known. simpl.
  by rewrite app_assoc.
Qed.

Lemma values_only_known m k : values_only m (set_known m k).
Proof. exists k, []. unfold emit, set_known. simpl. by rewrite app_nil_r. Qed.

Lemma values_only_emit m es : values_only m (emit m es).
Proof. exists (known m), es. by destruct m. Qed.

#[export] Hint Resolve values_only_refl values_only_known values_only_emit : kms.

Lemma compact_values m path present : values_only m (compact m path present).
Proof. unfold compact. case_match; auto with kms. Qed.

Lemma setValue_values m path v p ver rev rc : values_only m (setValue m path v p ver rev rc).
Proof.
  unfold setValue. destruct (rc && _); [auto with kms|]. destruct (match map_get path (known m) with Some _ => _ | None => _ end);
    [auto with kms|].
  set (m1 := set_known m _). assert (values_only m m1) as H1 by (apply values_only_known).
  destruct (negb _); [eapply values_only_trans; [exact H1|apply compact_values]|].
  assert (values_only m (notify m1 path v p)) as H2.
  { eapply values_only_trans; [exact H1|]. apply values_only_emit. }
  destruct (refOf path); [|done]. eapply values_only_trans; [exact H2|].
  eapply values_only_trans; [apply values_only_emit|]. apply compact_values.
Qed.

Lemma values_only_foldl {A} (f : Manager -> A -> Manager) l m :
  (forall m x, values_only m (f m x)) -> values_only m (foldl f m l).
Proof.
  intros Hf. revert m. induction l as [|x l IH]; intros m; simpl; [auto with kms|].
  eapply values_only_trans; [apply Hf|apply IH].
Qed.

Lemma applySnapshot_values m ps rev : values_only m (applySnapshot m ps rev).
Proof.
  unfold applySnapshot. eapply values_only_trans; [apply values_only_emit|].
  eapply values_only_trans; [apply (values_only_foldl (snapshot_put rev)); intros; apply setValue_values|].
  apply values_only_foldl. intros m0 x. unfold snapshot_drop. destruct (map_get x (known m0)); [|auto with kms].
  case_match; [auto with kms|]. apply setValue_values.
Qed.

Lemma reconcile_drop_values r m path : values_only m (reconcile_drop r m path).
Proof.
  unfold reconcile_drop. repeat (case_match; try apply values_only_refl). apply setValue_values.
Qed.

(** The fields a run of value changes leaves alone. *)
Lemma values_only_fields m m' :
  values_only m m' ->
  namespaces m' = namespaces m /\ namespaceRefCounts m' = namespaceRefCounts m /\
  parameterHandlers m' = parameterHandlers m /\ handlerSets m' = handlerSets m /\
  watchers m' = watchers m /\ registrations m' = registrations m /\
  streamNamespaces m' = streamNamespaces m /\ lastRevision m' = lastRevision m /\
  namespaceGeneration m' = namespaceGeneration m /\ snapshotGeneration m' = snapshotGeneration m /\
  stopped m' = stopped m /\ watcherStops m' = watcherStops m.
Proof. intros (k & es & ->). by split_and!. Qed.


(** What one value write does: nothing; or the accepted write, which keeps
    the entry unless it is a tombstone nobody handles, and calls the handlers
    of the path exactly when the value changed. *)
Definition path_handlers (m : Manager) (path : jstr) : list fn :=
  match map_get path (parameterHandlers m) with Some s => handler_set m s | None => [] end.

Definition no_call (e : effect) : Prop := match e with CallHandler _ _ _ => False | _ => True end.

Record written (m m' : Manager) (path value : jstr) (present : bool) (rev : Z) : Prop := {
  wr_other : forall p, p <> path -> map_get p (known m') = map_get p (known m);
  wr_here :
    map_get path (known m') = None /\ present = false /\ has_handlers m path = false \/
    exists k, map_get path (known m') = Some k /\ k_present k = present /\
      k_value k = (if present then value else []) /\
      (k_revision k = rev \/ exists k0, map_get path (known m) = Some k0 /\ k_revision k = k_revision k0 /\ rev < k_revision k0) /\
      (present = false -> has_handlers m path = true \/ refOf path = None);
  wr_trace : exists es, trace m' = trace m ++ es /\
      (if value_changed (map_get path (known m)) value present
    then exists es', es = CacheInvalidateParam path :: map (fun h => CallHandler h value present) (path_handlers m path) ++ es'
                     /\ Forall no_call es'
    else es = [])
}.

Lemma compact_known m path present p :
  map_wf (known m) ->
  map_get p (known (compact m path present)) =
    if negb present && negb (has_handlers m path) && bool_decide (path = p) then None else map_get p (known m).
Proof.
  intros Hwf. unfold compact. destruct (negb present && negb (has_handlers m path)); simpl; [|done].
  rewrite map_get_delete by done. by rewrite bool_decide_decide; destruct (decide (path = p)).
Qed.

Lemma fire_no_call m ns path e :
  exists es, trace (fireWatchers m ns path e) = trace m ++ es /\ Forall no_call es.
Proof.
  eexists. split; [reflexivity|]. apply Forall_forall. intros x Hx.
  apply list_elem_of_In, in_flat_map in Hx as (w & _ & Hx). case_match; [|done].
  destruct Hx as [<-|[]]. done.
Qed.

(** The write is accepted: the pass is not behind the stream, and the path's
    own revision lets it through. *)
Definition accepts (m : Manager) (path : jstr) (rev : Z) (reconcile : bool) : bool :=
  negb (reconcile && (rev <? lastRevision m)) &&
  match map_get path (known m) with
  | Some k => revisionAllowsWrite (k_revision k) rev reconcile
  | None => true
  end.

Lemma setValue_spec m path v present ver rev rc :
  map_wf (known m) ->
  if accepts m path rev rc then written m (setValue m path v present ver rev rc) path v present rev
  else setValue m path v present ver rev rc = m.
Proof.
  intros Hwf. unfold setValue, accepts. destruct (rc && _); [done|]. simpl.
  set (ok := match map_get path (known m) with Some k => revisionAllowsWrite _ _ _ | None => true end).
  replace (match map_get path (known m) with Some _ => _ | None => false end) with (negb ok)
    by (unfold ok; by destruct (map_get path (known m))).
  destruct ok; simpl; [|done].
  set (k := {| k_value := _ |}). set (m1 := set_known m (map_set path k (known m))).
  assert (map_wf (known m1)) as Hwf1 by (apply map_set_wf; done).
  assert (forall p, map_get p (known m1) = if decide (path = p) then Some k else map_get p (known m)) as Hg
    by (intros p; apply map_get_set).
  assert (k_revision k = rev \/ exists k0, map_get path (known m) = Some k0 /\ k_revision k = k_revision k0 /\ rev < k_revision k0) as Hrev.
  { simpl. destruct (map_get path (known m)) as [k0|]; [|by left]. destruct (rev <? k_revision k0) eqn:E; [|by left].
    apply Z.ltb_lt in E. right. by exists k0. }
  destruct (negb (value_changed (map_get path (known m)) v present)) eqn:Hch;
    [apply negb_true_iff in Hch|apply negb_false_iff in Hch].
  - split.
    + intros p Hp. rewrite compact_known, bool_decide_eq_false_2, andb_false_r, Hg, decide_False by done. done.
    + rewrite compact_known, bool_decide_eq_true_2, andb_true_r, Hg, decide_True by done.
      replace (has_handlers m1 path) with (has_handlers m path) by done.
      destruct present, (has_handlers m path) eqn:Hh; simpl; [right; eexists; eauto 10..|left; by split_and!].
    + exists []. rewrite Hch, app_nil_r. split; [|done]. unfold compact. by destruct (_ && _).
  - destruct (refOf path) as [ref|] eqn:Href.
    + set (m2 := fireWatchers _ _ _ _).
      assert (known m2 = known m1) as Hk2 by done.
      split.
      * intros p Hp. rewrite compact_known by done. rewrite bool_decide_eq_false_2, andb_false_r by done.
        rewrite Hk2, Hg, decide_False by done. done.
      * rewrite compact_known by done. rewrite bool_decide_eq_true_2, andb_true_r by done.
        rewrite Hk2, Hg, decide_True by done.
        replace (has_handlers m2 path) with (has_handlers m path) by done.
        destruct present, (has_handlers m path) eqn:Hh; simpl; [right; eexists; eauto 10..|left; by split_and!].
      * rewrite Hch. destruct (fire_no_call (notify m1 path v present) (namespace ref) path
          (if present then WPut (displayNamespace (namespace ref)) (key ref) path v ver rev
           else WDelete (displayNamespace (namespace ref)) (key ref) path ver rev)) as (es' & He & Hn).
        eexists. split; [|exists es'; split; [reflexivity|done]].
        transitivity (trace m2); [unfold compact; by destruct (_ && _)|]. fold m2 in He. rewrite He.
        simpl. rewrite <- app_assoc. done.
    + split.
      * intros p Hp. simpl. rewrite map_get_set_ne; done.
      * right. exists k. simpl. rewrite map_get_set_eq. split_and!; [done..|]. by right.
      * rewrite Hch. eexists. split; [reflexivity|]. exists []. by rewrite app_nil_r.
Qed.

Lemma setValue_cases m path v present ver rev rc :
  map_wf (known m) ->
  setValue m path v present ver rev rc = m \/ written m (setValue m path v present ver rev rc) path v present rev.
Proof. intros H. pose proof (setValue_spec m path v present ver rev rc H). case_match; auto. Qed.

(** ** Scope: reference counts follow the live registrations *)

(** The namespace key an active registration holds. *)
Definition reg_key (r : Registration) : option jstr :=
  match r with
  | RParameter true _ _ _ ns => Some (namespaceKey ns)
  | RWatch true _ ns => Some (namespaceKey ns)
  | _ => None
  end.

Definition live_regs (regs : list Registration) (k : jstr) : Z :=
  Z.of_nat (length (filter (fun r => reg_key r = Some k) regs)).

Definition count_of (rc : list (jstr * Z)) (k : jstr) : Z := default 0 (map_get k rc).

Record scope_ok (nss : list (jstr * NamespaceRef)) (rc : list (jstr * Z)) (regs : list Registration) (st : bool)
  : Prop := {
  so_wf : map_wf rc;
  so_keys : nss.*1 = rc.*1;
  so_ns : forall k ns, map_get k nss = Some ns -> namespaceKey ns = k;
  so_pos : forall k c, map_get k rc = Some c -> 1 <= c;
  so_live : st = false -> forall k, count_of rc k = live_regs regs k
}.

Definition scope_inv (m : Manager) : Prop :=
  scope_ok (namespaces m) (namespaceRefCounts m) (registrations m) (stopped m).

Lemma live_nonneg regs k : 0 <= live_regs regs k.
Proof. unfold live_regs. lia. Qed.

Lemma live_app regs r k :
  live_regs (regs ++ [r]) k = live_regs regs k + (if decide (reg_key r = Some k) then 1 else 0).
Proof.
  unfold live_regs. rewrite filter_app, length_app, filter_cons. case_decide; simpl; lia.
Qed.

Lemma live_insert regs i r r' k :
  regs !! i = Some r ->
  live_regs (<[i := r']> regs) k =
    live_regs regs k - (if decide (reg_key r = Some k) then 1 else 0) + (if decide (reg_key r' = Some k) then 1 else 0).
Proof.
  intros Hi. rewrite insert_take_drop by (by eapply lookup_lt_Some).
  rewrite <- (take_drop_middle regs i r Hi) at 3. unfold live_regs.
  rewrite !filter_app, !length_app, !filter_cons. repeat case_decide; simpl; lia.
Qed.

Lemma live_pos regs i r k : regs !! i = Some r -> reg_key r = Some k -> 1 <= live_regs regs k.
Proof.
  intros Hi Hk. pose proof (live_insert regs i r (RWatch false 0 {| env := []; app := [] |}) k Hi) as H.
  pose proof (live_nonneg (<[i := RWatch false 0 {| env := []; app := [] |}]> regs) k).
  rewrite decide_True in H by done. rewrite decide_False in H by done. lia.
Qed.

Lemma count_set rc k k' c : count_of (map_set k c rc) k' = if decide (k = k') then c else count_of rc k'.
Proof. unfold count_of. rewrite map_get_set. by case_decide. Qed.

Lemma count_delete rc k k' :
  map_wf rc -> count_of (map_delete k rc) k' = if decide (k = k') then 0 else count_of rc k'.
Proof. intros. unfold count_of. rewrite map_get_delete by done. by case_decide. Qed.

Lemma map_delete_keys {K V W} `{EqDecision K} (a : list (K * V)) (b : list (K * W)) k :
  a.*1 = b.*1 -> (map_delete k a).*1 = (map_delete k b).*1.
Proof.
  revert b. induction a as [|[ka va] a IH]; intros [|[kb vb] b]; csimpl; try done.
  intros [= -> H]. case_decide; csimpl; [done|]. f_equal. by apply IH.
Qed.

Lemma retain_scope m ns r :
  scope_inv m -> reg_key r = Some (namespaceKey ns) ->
  let m' := (retainNamespace m ns).1 in
  scope_ok (namespaces m') (namespaceRefCounts m') (registrations m ++ [r]) (stopped m).
Proof.
  intros [Hwf Hkeys Hns Hpos Hlive] Hr. simpl. unfold retainNamespace.
  set (k := namespaceKey ns) in *. fold (count_of (namespaceRefCounts m) k).
  set (c := count_of (namespaceRefCounts m) k).
  assert (0 <= c) as Hc.
  { unfold c, count_of. destruct (map_get k (namespaceRefCounts m)) eqn:E; simpl; [|lia]. apply Hpos in E. lia. }
  assert (forall k', count_of (map_set k (c + 1) (namespaceRefCounts m)) k' =
            count_of (namespaceRefCounts m) k' + (if decide (k = k') then 1 else 0)) as Hcount.
  { intros k'. rewrite count_set. case_decide; subst; [done|lia]. }
  assert (stopped m = false -> forall k', count_of (map_set k (c + 1) (namespaceRefCounts m)) k' =
            live_regs (registrations m ++ [r]) k') as Hl.
  { intros Hs k'. rewrite Hcount, live_app, Hr, Hlive by done. repeat case_decide; congruence. }
  assert (forall k' c', map_get k' (map_set k (c + 1) (namespaceRefCounts m)) = Some c' -> 1 <= c') as Hp.
  { intros k' c'. rewrite map_get_set. case_decide; [intros [= <-]; lia|]. apply Hpos. }
  destruct (0 <? c) eqn:E; simpl; split; try done; try by apply map_set_wf.
  - rewrite map_set_keys, decide_True; [done|]. apply Z.ltb_lt in E. unfold c, count_of in E.
    destruct (map_get k (namespaceRefCounts m)) eqn:G; [|simpl in E; lia].
    apply map_has_true. unfold map_has. rewrite G. by apply bool_decide_eq_true_2.
  - rewrite !map_set_keys, Hkeys. done.
  - intros k' ns'. rewrite map_get_set. case_decide; [intros [= <-]; done|]. apply Hns.
Qed.

Lemma release_scope m ns regs :
  scope_inv m -> (stopped m = false -> 1 <= live_regs (registrations m) (namespaceKey ns)) ->
  (forall k, live_regs regs k = live_regs (registrations m) k - (if decide (namespaceKey ns = k) then 1 else 0)) ->
  let m' := (releaseNamespace m ns).1 in
  scope_ok (namespaces m') (namespaceRefCounts m') regs (stopped m).
Proof.
  intros [Hwf Hkeys Hns Hpos Hlive] Hl Hregs. simpl. unfold releaseNamespace. set (k := namespaceKey ns) in *.
  destruct (map_get k (namespaceRefCounts m)) as [c|] eqn:E.
  2:{ simpl. split; try done. intros Hs. specialize (Hl Hs). specialize (Hlive Hs k).
      unfold count_of in Hlive. rewrite E in Hlive. simpl in Hlive. lia. }
  assert (count_of (namespaceRefCounts m) k = c) as Hc by (unfold count_of; by rewrite E).
  destruct (1 <? c) eqn:E1; simpl; split; try done.
  - by apply map_set_wf.
  - rewrite map_set_keys, decide_True; [done|]. apply map_has_true. unfold map_has. rewrite E.
    by apply bool_decide_eq_true_2.
  - intros k' c'. rewrite map_get_set. case_decide; [intros [= <-]; apply Z.ltb_lt in E1; lia|]. apply Hpos.
  - intros Hs k'. rewrite count_set, Hregs. destruct (decide (k = k')) as [<-|]; rewrite <- Hlive by done; lia.
  - by apply map_delete_wf.
  - by apply map_delete_keys.
  - intros k' ns'. rewrite map_get_delete by (unfold map_wf; by rewrite Hkeys). case_decide; [done|]. apply Hns.
  - intros k' c'. rewrite map_get_delete by done. case_decide; [done|]. apply Hpos.
  - intros Hs k'. rewrite count_delete by done. rewrite Hregs.
    destruct (decide (k = k')) as [<-|]; rewrite <- Hlive by done; [|lia].
    apply Z.ltb_ge in E1. specialize (Hpos k c E). lia.
Qed.

(** ** Shapes of the composite operations *)

Lemma emit_nil m : emit m [] = m.
Proof. destruct m. unfold emit. simpl. by rewrite app_nil_r. Qed.

Lemma set_status_id m :
  set_status m (state m) (reconciliation m) (reconnectCount m) (started m) (restartRequested m) (stopped m) = m.
Proof. by destruct m. Qed.

Lemma set_known_id m : set_known m (known m) = m.
Proof. by destruct m. Qed.

Lemma retain_shape m ns :
  let R := (retainNamespace m ns).1 in
  exists gen es, namespaceGeneration m <= gen /\ Forall no_call es /\
    R = emit (set_scope m (namespaces R) (namespaceRefCounts R) gen) es.
Proof.
  unfold retainNamespace. destruct (0 <? _).
  - exists (namespaceGeneration m), []. split; [lia|]. split; [constructor|]. rewrite emit_nil. done.
  - exists (namespaceGeneration m + 1), [CacheInvalidateSecrets [ns]]. split; [lia|]. split; [by repeat constructor|]. done.
Qed.

Lemma retain_start_shape m ns :
  let R := (retainNamespace m ns).1 in
  exists gen sta rst es,
    namespaceGeneration m <= gen /\ Forall no_call es /\
    retain_and_start m ns =
      emit (set_status (set_scope m (namespaces R) (namespaceRefCounts R) gen)
              (state m) (reconciliation m) (reconnectCount m) sta rst (stopped m)) es.
Proof.
  intros R. destruct (retain_shape m ns) as (gen & es & Hg & Hn & HR). fold R in HR.
  assert (exists sta rst, retain_and_start m ns =
    set_status R (state m) (reconciliation m) (reconnectCount m) sta rst (stopped m)) as (sta & rst & ->).
  { unfold retain_and_start. subst R. destruct (retainNamespace m ns) as [R ch]. simpl in *.
    assert (exists sta, ensureStarted R = set_status R (state m) (reconciliation m) (reconnectCount m) sta
              (restartRequested m) (stopped m)) as [sta ->].
    { unfold ensureStarted. rewrite HR. simpl. destruct (started m || stopped m); eexists; [|reflexivity].
      symmetry. apply (set_status_id (emit (set_scope m _ _ _) es)). }
    destruct (started m && ch); do 2 eexists; reflexivity. }
  exists gen, sta, rst, es. split; [done|]. split; [done|]. rewrite HR. done.
Qed.

Lemma release_restart_shape m ns :
  let R := (releaseNamespace m ns).1 in
  exists gen rst,
    namespaceGeneration m <= gen /\
    release_and_restart m ns =
      set_status (set_known (set_scope m (namespaces R) (namespaceRefCounts R) gen) (known R))
        (state m) (reconciliation m) (reconnectCount m) (started m) rst (stopped m).
Proof.
  unfold release_and_restart, releaseNamespace. destruct (map_get _ _) as [c|]; [destruct (1 <? c)|].
  - exists (namespaceGeneration m), (restartRequested m). split; [lia|]. done.
  - exists (namespaceGeneration m + 1), true. split; [lia|]. done.
  - exists (namespaceGeneration m), (restartRequested m). split; [lia|]. by destruct m.
Qed.

Lemma release_known m ns :
  known (releaseNamespace m ns).1 = known m \/
  count_of (namespaceRefCounts m) (namespaceKey ns) <= 1 /\
  known (releaseNamespace m ns).1 = filter (fun p => path_in_key (namespaceKey ns) p.1 = false) (known m).
Proof.
  unfold releaseNamespace, count_of. destruct (map_get _ _) as [c|]; [|by left].
  destruct (1 <? c) eqn:E; [by left|]. right. split; [apply Z.ltb_ge in E; simpl; lia|done].
Qed.

(** ** Watchers, tombstones and revisions *)

(** A watcher is registered exactly while its stop closure is active; its
    identifier is never used again. *)
Record watch_ok (ws : list (Z * Watcher)) (next : Z) (regs : list Registration) (st : bool) : Prop := {
  wo_wf : map_wf ws;
  wo_reg : forall i a id ns, regs !! i = Some (RWatch a id ns) ->
    id < next /\ (a = false -> map_get id ws = None) /\
    (a = true -> st = false -> exists w, map_get id ws = Some w /\ w_id w = id /\ w_namespace w = ns);
  wo_uniq : forall i j a b id ns ns',
    regs !! i = Some (RWatch a id ns) -> regs !! j = Some (RWatch b id ns') -> i = j;
  wo_live : forall id w, map_get id ws = Some w -> exists i, regs !! i = Some (RWatch true id (w_namespace w))
}.

Definition watch_inv (m : Manager) : Prop := watch_ok (watchers m) (nextWatcherId m) (registrations m) (stopped m).

(** Absent values are remembered only where a handler needs them, and nothing
    known is newer than the bound [b]. *)
Record known_ok (ks : list (jstr * KnownValue)) (ph : list (jstr * nat)) (b : Z) : Prop := {
  ko_wf : map_wf ks;
  ko_tomb : forall p k, map_get p ks = Some k -> k_present k = false -> map_has p ph = true \/ refOf p = None;
  ko_rev : forall p k, map_get p ks = Some k -> k_revision k <= b
}.

Record wm_inv (m : Manager) : Prop := {
  iv_scope : scope_inv m;
  iv_watch : watch_inv m;
  iv_known : known_ok (known m) (parameterHandlers m) (lastRevision m);
  iv_rev : 0 <= lastRevision m;
  iv_snap : snapshotGeneration m <= namespaceGeneration m
}.

Lemma known_ok_le ks ph b b' : b <= b' -> known_ok ks ph b -> known_ok ks ph b'.
Proof. intros Hb [H1 H2 H3]. split; [done..|]. intros p k Hk. specialize (H3 p k Hk). lia. Qed.

Lemma known_ok_sub ks ks' ph b :
  known_ok ks ph b -> map_wf ks' -> (forall p k, map_get p ks' = Some k -> map_get p ks = Some k) -> known_ok ks' ph b.
Proof. intros [H1 H2 H3] Hwf Hsub. split; [done|..]; eauto. Qed.

Lemma setValue_wf m path v present ver rev rc :
  map_wf (known m) -> map_wf (known (setValue m path v present ver rev rc)).
Proof.
  intros H. unfold setValue. destruct (rc && _); [done|].
  destruct (match map_get path (known m) with Some _ => _ | None => _ end); [done|].
  assert (forall m p b, map_wf (known m) -> map_wf (known (compact m p b))) as Hc.
  { intros m0 p b H0. unfold compact. destruct (_ && _); [by apply map_delete_wf|done]. }
  destruct (negb (value_changed _ _ _)); [by apply Hc, map_set_wf|].
  destruct (refOf path); [apply Hc|]; by apply map_set_wf.
Qed.

Lemma setValue_known m path v present ver rev rc b :
  rev <= b ->
  known_ok (known m) (parameterHandlers m) b ->
  known_ok (known (setValue m path v present ver rev rc)) (parameterHandlers m) b.
Proof.
  intros Hb [Hwf Ht Hr].
  destruct (setValue_cases m path v present ver rev rc Hwf) as [->|[Ho Hh _]]; [by split|].
  pose proof (setValue_wf m path v present ver rev rc Hwf) as Hwf'. split; [done| |].
  - intros p k Hk Hp. destruct (decide (p = path)) as [->|Hne]; [|rewrite Ho in Hk by done; eauto].
    destruct Hh as [(Hn & _)|(k' & Hk' & Hp' & _ & _ & Hw)]; [congruence|].
    rewrite Hk in Hk'. injection Hk' as <-. destruct (Hw ltac:(congruence)); [by left|by right].
  - intros p k Hk. destruct (decide (p = path)) as [->|Hne]; [|rewrite Ho in Hk by done; eauto].
    destruct Hh as [(Hn & _)|(k' & Hk' & _ & _ & Hrev & _)]; [congruence|].
    rewrite Hk in Hk'. injection Hk' as <-. destruct Hrev as [->|(k0 & Hk0 & -> & _)]; [done|eauto].
Qed.

Lemma values_only_inv m m' b :
  values_only m m' -> wm_inv m -> lastRevision m <= b ->
  known_ok (known m') (parameterHandlers m) b ->
  wm_inv (set_stream m' (streamNamespaces m') b (snapshotGeneration m')).
Proof.
  intros (k & es & ->) [Hs Hw Hk H0 Hg] Hb Hk'. split; try done. simpl. lia.
Qed.

(** Folds of value writes. *)
Lemma foldl_known {A} (f : Manager -> A -> Manager) l m b :
  (forall m x, values_only m (f m x)) ->
  (forall m x, known_ok (known m) (parameterHandlers m) b -> known_ok (known (f m x)) (parameterHandlers m) b) ->
  known_ok (known m) (parameterHandlers m) b -> known_ok (known (foldl f m l)) (parameterHandlers m) b.
Proof.
  intros Hv Hf. revert m. induction l as [|x l IH]; intros m Hk; simpl; [done|].
  pose proof (values_only_fields _ _ (Hv m x)) as (_ & _ & E & _). rewrite <- E. apply IH. rewrite E. by apply Hf.
Qed.

Lemma applySnapshot_known m ps rev b :
  rev <= b -> known_ok (known m) (parameterHandlers m) b ->
  known_ok (known (applySnapshot m ps rev)) (parameterHandlers m) b.
Proof.
  intros Hb Hk. unfold applySnapshot. set (m1 := emit m _). set (m2 := foldl (snapshot_put rev) m1 _).
  assert (values_only m1 m2) as Hv2 by (apply (values_only_foldl (snapshot_put rev)); intros; apply setValue_values).
  pose proof (values_only_fields _ _ Hv2) as (_ & _ & E & _).
  replace (parameterHandlers m) with (parameterHandlers m2) by (rewrite E; done).
  apply foldl_known.
  - intros m0 x. unfold snapshot_drop. destruct (map_get x (known m0)); [|auto with kms].
    destruct (_ || _); [auto with kms|apply setValue_values].
  - intros m0 x H0. unfold snapshot_drop. destruct (map_get x (known m0)); [|done].
    destruct (_ || _); [done|]. by apply setValue_known.
  - rewrite E. apply (foldl_known (snapshot_put rev)); [intros; apply setValue_values| |done].
    intros m0 x H0. by apply setValue_known.
Qed.

(** ** Every operation preserves the invariant *)

Lemma watch_ok_app_parameter ws next regs st a p s h ns :
  watch_ok ws next regs st -> watch_ok ws next (regs ++ [RParameter a p s h ns]) st.
Proof.
  intros [H1 H2 H3 H4]. split; [done|..].
  - intros i b id n Hi. apply lookup_app_Some in Hi as [Hi|[_ Hi]]; [eauto|].
    apply list_lookup_singleton_Some in Hi as [_ Hi]. done.
  - intros i j b c id n n' Hi Hj.
    apply lookup_app_Some in Hi as [Hi|[_ Hi]]; [|by apply list_lookup_singleton_Some in Hi as [_ Hi]].
    apply lookup_app_Some in Hj as [Hj|[_ Hj]]; [|by apply list_lookup_singleton_Some in Hj as [_ Hj]]. eauto.
  - intros id w Hw. destruct (H4 id w Hw) as (i & Hi). exists i. by apply lookup_app_l_Some.
Qed.

Lemma watch_ok_insert_parameter ws next regs st i r a p s h ns :
  regs !! i = Some r -> (forall b id n, r <> RWatch b id n) ->
  watch_ok ws next regs st -> watch_ok ws next (<[i := RParameter a p s h ns]> regs) st.
Proof.
  intros Hr Hne [H1 H2 H3 H4].
  assert (forall j b id n, <[i := RParameter a p s h ns]> regs !! j = Some (RWatch b id n) -> regs !! j = Some (RWatch b id n)) as Hback.
  { intros j b id n Hj. apply list_lookup_insert_Some in Hj as [(_ & Hj & _)|[_ Hj]]; [done|done]. }
  split; [done|eauto..|].
  intros id w Hw. destruct (H4 id w Hw) as (j & Hj). exists j.
  rewrite list_lookup_insert_ne; [done|]. intros ->. rewrite Hr in Hj. by injection Hj as ->; eapply Hne.
Qed.

Lemma register_inv m ref initial h : wm_inv m -> wm_inv (registerParameter m ref initial h).1.
Proof.
  intros [Hs Hw Hk H0 Hg]. unfold registerParameter. set (path := displayPath ref).
  set (m1 := match map_get path (known m) with Some k => emit m _ | None => set_known m _ end).
  assert (scope_inv m1 /\ watch_inv m1 /\ lastRevision m1 = lastRevision m /\ snapshotGeneration m1 = snapshotGeneration m
    /\ namespaceGeneration m1 = namespaceGeneration m /\ known_ok (known m1) (parameterHandlers m1) (lastRevision m))
    as (Hs1 & Hw1 & Hl1 & Hg1 & Hn1 & Hk1).
  { unfold m1. destruct (map_get path (known m)) as [k|] eqn:E; [by split_and!|]. split_and!; try done. simpl.
    destruct Hk as [Ha Hb Hc]. split; [by apply map_set_wf|..]; intros p k; rewrite map_get_set; case_decide; eauto.
    - intros [= <-]. done.
    - intros [= <-]. done. }
  clearbody m1.
  set (ms := match map_get path (parameterHandlers m1) with Some s => (m1, s) | None => _ end).
  assert (exists ph hs, ms.1 = set_handlers m1 ph hs /\ forall p, map_has p (parameterHandlers m1) = true -> map_has p ph = true) as (ph & hs & Hms & Hph).
  { unfold ms. destruct (map_get path (parameterHandlers m1)); simpl.
    - exists (parameterHandlers m1), (handlerSets m1). split; [by destruct m1|done].
    - do 2 eexists. split; [reflexivity|]. intros p. rewrite !map_has_true, map_set_keys. case_decide; set_solver. }
  destruct ms as [m2 s]. simpl in Hms. subst m2.
  set (hs' := <[s := _]> _). set (m3 := set_handlers _ _ hs').
  destruct (retain_start_shape m3 (namespace ref)) as (gen & sta & rst & es & Hgen & _ & Hsh). simpl.
  pose proof (retain_scope m3 (namespace ref) (RParameter true path s h (namespace ref)) Hs1 eq_refl) as HR.
  rewrite Hsh. split; [exact HR| | |..]; simpl.
  - by apply watch_ok_app_parameter.
  - rewrite Hl1. destruct Hk1 as [Ha Hb Hc]. split; [done| |done].
    intros p k Hp Hpr. destruct (Hb p k Hp Hpr); auto.
  - lia.
  - simpl in Hgen. lia.
Qed.

Lemma known_ok_release m ns ph b :
  known_ok (known m) ph b -> known_ok (known (releaseNamespace m ns).1) ph b.
Proof.
  intros Hk. destruct (release_known m ns) as [->|[_ ->]]; [done|].
  pose proof (ko_wf _ _ _ Hk). apply (known_ok_sub _ _ _ _ Hk); [by apply map_filter_wf|].
  intros p k. rewrite map_filter_get by done. by destruct (map_get p (known m)); [case_decide|].
Qed.

Lemma release_inv m ns regs :
  wm_inv m -> (stopped m = false -> 1 <= live_regs (registrations m) (namespaceKey ns)) ->
  (forall k, live_regs regs k = live_regs (registrations m) k - (if decide (namespaceKey ns = k) then 1 else 0)) ->
  watch_ok (watchers m) (nextWatcherId m) regs (stopped m) ->
  wm_inv (set_registrations (release_and_restart m ns) regs).
Proof.
  intros [Hs Hw Hk H0 Hg] Hl Hregs Hw'.
  destruct (release_restart_shape m ns) as (gen & rst & Hgen & ->).
  split; [exact (release_scope m ns regs Hs Hl Hregs)|done|by apply known_ok_release|done|simpl; lia].
Qed.

Lemma set_registrations_id m r : registrations m = r -> set_registrations m r = m.
Proof. intros <-. by destruct m. Qed.

(** A closure sets its flag first; the release that follows does not look at
    it. *)
Lemma release_registrations m r ns :
  release_and_restart (set_registrations m r) ns = set_registrations (release_and_restart m ns) r.
Proof.
  unfold release_and_restart, releaseNamespace. simpl. destruct (map_get _ _) as [c|]; [|done].
  by destruct (1 <? c).
Qed.

Lemma live_deactivate regs i r r' ns k :
  regs !! i = Some r -> reg_key r = Some (namespaceKey ns) -> reg_key r' = None ->
  live_regs (<[i := r']> regs) k = live_regs regs k - (if decide (namespaceKey ns = k) then 1 else 0).
Proof.
  intros Hi Hr Hr'. rewrite (live_insert regs i r r' k Hi), Hr, Hr'. repeat case_decide; try congruence; lia.
Qed.

Lemma unregister_shape m reg path s h ns :
  registrations m !! reg = Some (RParameter true path s h ns) ->
  exists ph hs ks,
    unregister m reg =
      set_registrations (release_and_restart (set_known (set_handlers m ph hs) ks) ns)
        (<[reg := RParameter false path s h ns]> (registrations m)) /\
    hs = <[s := set_delete h (handler_set m s)]> (handlerSets m) /\
    (ph = parameterHandlers m /\ ks = known m \/
     set_delete h (handler_set m s) = [] /\ ph = map_delete path (parameterHandlers m) /\
     (ks = known m /\ (forall k, map_get path ks = Some k -> k_present k = true) \/ ks = map_delete path (known m))).
Proof.
  intros Hi. unfold unregister. rewrite Hi. cbv zeta.
  set (hs := <[s := set_delete h (handler_set m s)]> (handlerSets m)).
  case_bool_decide as He; [|exists (parameterHandlers m), hs, (known m); rewrite <- release_registrations; by auto].
  exists (map_delete path (parameterHandlers m)), hs.
  simpl. destruct (map_get path (known m)) as [k|] eqn:E; [destruct (k_present k) eqn:Ep|].
  - exists (known m). rewrite <- release_registrations. split_and!; [done..|]. right. split_and!; [done..|].
    left. split; [done|]. intros k' Hk'. congruence.
  - exists (map_delete path (known m)). rewrite <- release_registrations. split_and!; [done..|]. right. by auto.
  - exists (known m). rewrite <- release_registrations. split_and!; [done..|]. right. split_and!; [done..|].
    left. split; [done|]. intros k' Hk'. congruence.
Qed.

Lemma unregister_inv m reg : wm_inv m -> wm_inv (unregister m reg).
Proof.
  intros Hinv. destruct (registrations m !! reg) as [[[] path s h ns|]|] eqn:Hi; try (unfold unregister; rewrite Hi; done).
  destruct (unregister_shape m reg path s h ns Hi) as (ph & hs & ks & -> & _ & Hcase).
  pose proof Hinv as [Hs Hw Hk H0 Hg].
  assert (known_ok ks ph (lastRevision m)) as Hk'.
  { destruct Hcase as [[-> ->]|(_ & -> & Hks)]; [done|]. pose proof Hk as [Ha Hb Hc].
    assert (forall q, q <> path -> map_has q (parameterHandlers m) = true -> map_has q (map_delete path (parameterHandlers m)) = true) as Hph.
    { intros q Hq. rewrite !map_has_true. intros Hin. clear -Hin Hq.
      induction (parameterHandlers m) as [|[k v] l IH]; csimpl in *; [set_solver|]. case_decide; set_solver. }
    assert (map_wf ks /\ forall q k, map_get q ks = Some k -> map_get q (known m) = Some k /\ (k_present k = false -> q <> path)) as [Hwf Hsub].
    { destruct Hks as [[-> Hp]| ->].
      - split; [done|]. intros q k Hq. split; [done|]. intros Hf ->. rewrite (Hp k Hq) in Hf. done.
      - split; [by apply map_delete_wf|]. intros q k. rewrite map_get_delete by done. case_decide; [done|]. intros. by split. }
    split; [done|..].
    - intros q k Hq Hp. destruct (Hsub q k Hq) as [Hq' Hne]. destruct (Hb q k Hq' Hp); [left; apply Hph; auto|by right].
    - intros q k Hq. destruct (Hsub q k Hq) as [Hq' _]. eauto. }
  apply release_inv; simpl.
  - split; done.
  - intros _. by eapply live_pos.
  - intros k. by eapply live_deactivate.
  - eapply watch_ok_insert_parameter; [exact Hi|done|done].
Qed.

Lemma watch_ok_stop ws next regs st i id ns :
  watch_ok ws next regs st -> regs !! i = Some (RWatch true id ns) ->
  watch_ok (map_delete id ws) next (<[i := RWatch false id ns]> regs) st.
Proof.
  intros [H1 H2 H3 H4] Hi.
  assert (forall j a id' n, <[i := RWatch false id ns]> regs !! j = Some (RWatch a id' n) ->
            j = i /\ a = false /\ id' = id \/ j <> i /\ id' <> id /\ regs !! j = Some (RWatch a id' n)) as Hback.
  { intros j a id' n Hj. apply list_lookup_insert_Some in Hj as [(-> & [= <- <- <-] & _)|[Hne Hj]]; [by left|right].
    split_and!; [done| |done]. intros ->. by pose proof (H3 _ _ _ _ _ _ _ Hi Hj). }
  split; [by apply map_delete_wf|..].
  - intros j a id' n Hj. rewrite map_get_delete by done.
    destruct (Hback j a id' n Hj) as [(-> & -> & ->)|(_ & Hid & Hj')].
    + destruct (H2 i true id ns Hi) as (? & _). rewrite decide_True by done. by split_and!.
    + rewrite decide_False by done. eauto.
  - intros j1 j2 a b id' n n' Hj1 Hj2.
    destruct (Hback _ _ _ _ Hj1) as [(-> & _ & ->)|(_ & Hid & Hj1')], (Hback _ _ _ _ Hj2) as [(-> & _ & Hid2)|(_ & Hid2 & Hj2')];
      try done; eauto.
  - intros id' w. rewrite map_get_delete by done. case_decide as Hd; [done|]. intros Hw.
    destruct (H4 id' w Hw) as (j & Hj). exists j. rewrite list_lookup_insert_ne; [done|]. intros ->. congruence.
Qed.

Lemma watch_stop_inv m reg : wm_inv m -> wm_inv (watch_stop m reg).
Proof.
  intros Hinv. unfold watch_stop. destruct (registrations m !! reg) as [[|[] id ns]|] eqn:Hi; try done. cbv zeta.
  pose proof Hinv as [Hs Hw Hk H0 Hg].
  pose proof (watch_ok_stop _ _ _ _ _ _ _ Hw Hi) as Hw'.
  set (regs := <[reg := _]> (registrations m)) in *.
  set (m1 := set_watchers m (map_delete id (watchers m)) (map_delete id (watcherStops m)) (nextWatcherId m)).
  change (set_watchers (set_registrations m regs) _ _ _) with (set_registrations m1 regs).
  rewrite release_registrations.
  destruct (release_restart_shape m1 ns) as (gen & rst & Hgen & ->).
  assert (forall k, live_regs regs k = live_regs (registrations m) k - (if decide (namespaceKey ns = k) then 1 else 0)) as Hl
    by (intros k; by eapply live_deactivate).
  split; [|exact Hw'|exact (known_ok_release m1 ns _ _ Hk)|done|simpl; simpl in Hgen; lia].
  refine (release_scope m1 ns regs Hs _ Hl). intros _. by eapply live_pos.
Qed.

Lemma watch_ok_app_watch ws next regs st id ns cb :
  id = next -> watch_ok ws next regs st ->
  watch_ok (map_set id {| w_id := id; w_namespace := ns; w_callback := cb |} ws) (id + 1) (regs ++ [RWatch true id ns]) st.
Proof.
  intros -> [H1 H2 H3 H4]. split; [by apply map_set_wf|..].
  - intros i a id' n Hi. rewrite map_get_set. apply lookup_app_Some in Hi as [Hi|[_ Hi]].
    + destruct (H2 i a id' n Hi) as (? & ? & ?). rewrite decide_False by lia. split_and!; [lia|done|done].
    + apply list_lookup_singleton_Some in Hi as [_ [= <- <- <-]]. rewrite decide_True by done. split_and!; [lia|done|eauto].
  - intros i j a b id' n n' Hi Hj.
    apply lookup_app_Some in Hi as [Hi|[Hi' Hi]]; apply lookup_app_Some in Hj as [Hj|[Hj' Hj]]; [eauto|..].
    + apply list_lookup_singleton_Some in Hj as [_ [= <- <- <-]]. apply H2 in Hi. lia.
    + apply list_lookup_singleton_Some in Hi as [_ [= <- <- <-]]. apply H2 in Hj. lia.
    + apply list_lookup_singleton_Some in Hi as [Hi _]. apply list_lookup_singleton_Some in Hj as [Hj _]. lia.
  - intros id' w. rewrite map_get_set. case_decide as Hd.
    + intros [= <-]. exists (length regs). subst id'. by rewrite lookup_app_r, Nat.sub_diag by done.
    + intros Hw. destruct (H4 id' w Hw) as (i & Hi). exists i. by apply lookup_app_l_Some.
Qed.

Lemma watch_step_inv m ns cb ab m' r : wm_inv m -> watch m ns cb ab = Ok (m', r) -> wm_inv m'.
Proof.
  intros [Hs Hw Hk H0 Hg]. unfold watch. destruct (stopped m) eqn:Hst; [done|].
  destruct ab; [by intros [= <- _]|]. cbv zeta. intros [= <- _].
  set (m1 := set_watchers m _ _ _).
  destruct (retain_start_shape m1 ns) as (gen & sta & rst & es & Hgen & _ & ->).
  pose proof (retain_scope m1 ns (RWatch true (nextWatcherId m) ns) Hs eq_refl) as HR.
  split; [exact HR| |done|done|simpl; simpl in Hgen; lia]. exact (watch_ok_app_watch _ _ _ _ _ ns cb eq_refl Hw).
Qed.

Lemma stop_begin_inv m : wm_inv m -> wm_inv (stop_begin m).
Proof.
  intros Hinv. unfold stop_begin. destruct (stopped m) eqn:Hst; [done|]. cbv zeta. set (m1 := set_status _ _ _ _ _ _ _).
  assert (wm_inv m1) as H1.
  { destruct Hinv as [[] [] Hk H0 Hg]. split; [split|split|..]; try done. naive_solver. }
  clearbody m1. revert H1. generalize (map snd (watcherStops m1)). intros l. revert m1.
  induction l as [|x l IH]; intros m1 H1; simpl; [done|]. by apply IH, watch_stop_inv.
Qed.

Lemma stop_finish_inv m : stopped m = true -> wm_inv m -> wm_inv (stop_finish m).
Proof.
  intros Hst [[] [] [] H0 Hg]. split; [split|split|split|..]; simpl; try done; try constructor.
  - rewrite Hst. done.
  - by edestruct wo_reg0.
  - split; [done|]. rewrite Hst. done.
Qed.

(** Emitting, and moving the stream's fields forward. *)
Lemma emit_inv m es : wm_inv m -> wm_inv (emit m es).
Proof. intros [[] [] [] ? ?]. by split; [split|split|split|..]. Qed.

Lemma status_inv m a b c d e : wm_inv m -> wm_inv (set_status m a b c d e (stopped m)).
Proof. intros [[] [] [] ? ?]. by split; [split|split|split|..]. Qed.

Lemma stream_inv m sn snap :
  snap <= namespaceGeneration m -> wm_inv m -> wm_inv (set_stream m sn (lastRevision m) snap).
Proof. intros ? [[] [] [] ? ?]. by split; [split|split|split|..]. Qed.

Lemma advance_max m rev :
  advanceRevision m rev = set_stream m (streamNamespaces m) (Z.max (lastRevision m) rev) (snapshotGeneration m).
Proof.
  unfold advanceRevision. destruct (lastRevision m <? rev) eqn:E; bool_prop.
  - by rewrite Z.max_r by lia.
  - rewrite Z.max_l by lia. by destruct m.
Qed.

(** Value writes followed by [#advanceRevision]. *)
Lemma write_advance_inv m m' rev :
  wm_inv m -> values_only m m' ->
  (forall b, rev <= b -> known_ok (known m) (parameterHandlers m) b -> known_ok (known m') (parameterHandlers m) b) ->
  wm_inv (advanceRevision m' rev).
Proof.
  intros Hinv Hv Hk. rewrite advance_max.
  pose proof (values_only_fields _ _ Hv) as (_ & _ & _ & _ & _ & _ & _ & -> & _).
  apply (values_only_inv m m'); [done|done|lia|]. apply Hk; [lia|].
  eapply known_ok_le; [|apply Hinv]. lia.
Qed.

Lemma applyChange_values m c rev : values_only m (applyChange m c rev).
Proof.
  unfold applyChange. destruct (wc_ref c); [|auto with kms]. destruct (bool_decide _); [|apply setValue_values].
  eapply values_only_trans; [apply values_only_emit|apply setValue_values].
Qed.

Lemma applyChange_known m c rev b :
  rev <= b -> known_ok (known m) (parameterHandlers m) b ->
  known_ok (known (applyChange m c rev)) (parameterHandlers m) b.
Proof.
  intros Hb Hk. unfold applyChange. destruct (wc_ref c) as [ref|]; [|done].
  destruct (bool_decide _); [|by apply setValue_known].
  by apply (setValue_known (emit m [CacheInvalidateParam (displayPath ref)])).
Qed.

Lemma applySecretChange_values m c rev : values_only m (applySecretChange m c rev).
Proof.
  unfold applySecretChange. destruct (wc_ref c); [|auto with kms].
  eapply values_only_trans; [apply values_only_emit|apply values_only_emit].
Qed.

Lemma handleEvent_inv m e g :
  (forall x, g = Some x -> x <= namespaceGeneration m) -> wm_inv m -> wm_inv (handleEvent m e g).
Proof.
  intros Hg Hinv. destruct e as [ps rev|c rev|c rev|rev|]; simpl; [..|done].
  - pose proof (applySnapshot_values m ps rev) as Hv.
    assert (wm_inv (advanceRevision (applySnapshot m ps rev) rev)) as H1.
    { apply (write_advance_inv m); [done|done|]. intros. by apply applySnapshot_known. }
    destruct g as [x|]; [|done]. rewrite advance_max in *. specialize (Hg x eq_refl).
    apply (stream_inv _ (streamNamespaces (applySnapshot m ps rev)) (Z.max (snapshotGeneration (applySnapshot m ps rev)) x)) in H1; [exact H1|].
    pose proof (values_only_fields _ _ Hv) as (_ & _ & _ & _ & _ & _ & _ & _ & E1 & E2 & _).
    simpl. rewrite E1, E2. pose proof (iv_snap m Hinv). lia.
  - apply (write_advance_inv m); [done|destruct (shouldApply m rev); [apply applyChange_values|auto with kms]|].
    intros b Hb Hk. destruct (shouldApply m rev); [by apply applyChange_known|done].
  - apply (write_advance_inv m); [done|destruct (shouldApply m rev); [apply applySecretChange_values|auto with kms]|].
    intros b Hb Hk. destruct (shouldApply m rev); [|done]. unfold applySecretChange. by destruct (wc_ref c).
  - apply emit_inv, (write_advance_inv m); [done|auto with kms|done].
Qed.

Lemma listed_values m rev items : values_only m (foldl (listed_put rev) m items).
Proof. apply (values_only_foldl (listed_put rev)). intros. apply setValue_values. Qed.

Lemma values_writes_inv m m' :
  wm_inv m -> values_only m m' -> known_ok (known m') (parameterHandlers m) (lastRevision m) -> wm_inv m'.
Proof.
  intros Hinv Hv Hk. pose proof (values_only_inv m m' (lastRevision m) Hv Hinv (Z.le_refl _) Hk) as H.
  pose proof (values_only_fields _ _ Hv) as (_ & _ & _ & _ & _ & _ & _ & E & _).
  rewrite <- E in H. by destruct m'.
Qed.

Lemma page_inv m r ns items m' r' :
  wm_inv m -> rc_revision r <= lastRevision m -> reconcile_page m r ns items = Some (m', r') ->
  wm_inv m' /\ values_only m m' /\ rc_revision r' = rc_revision r /\ rc_generation r' = rc_generation r.
Proof.
  intros Hinv Hr. unfold reconcile_page. destruct (_ || _); [done|]. intros [= <- <-].
  split_and!; [|apply listed_values|done|done].
  apply (values_writes_inv m); [done|apply listed_values|].
  apply (foldl_known (listed_put (rc_revision r))); [intros; apply setValue_values| |apply Hinv].
  intros m0 x H0. by apply setValue_known.
Qed.

Lemma finish_inv m r :
  wm_inv m -> rc_revision r <= lastRevision m ->
  wm_inv (reconcile_finish m r).1 /\ values_only m (reconcile_finish m r).1.
Proof.
  intros Hinv Hr. unfold reconcile_finish. destruct (_ || _); [by auto with kms|]. cbv zeta. simpl.
  assert (values_only m (foldl (reconcile_drop r) m (rc_knownPaths r))) as Hv
    by (apply (values_only_foldl (reconcile_drop r)); intros; apply reconcile_drop_values).
  split; [|done]. apply (values_writes_inv m); [done|done|].
  apply (foldl_known (reconcile_drop r)); [intros; apply reconcile_drop_values| |apply Hinv].
  intros m0 x H0. unfold reconcile_drop. repeat (case_match; try done). by apply setValue_known.
Qed.

(** ** The system invariant *)

Record sys_inv (y : System) : Prop := {
  sy_mgr : wm_inv (mgr y);
  sy_sess : forall s, sess y = Some s ->
    ss_generation s <= namespaceGeneration (mgr y) /\
    (ss_full s = false -> ss_generation s <= snapshotGeneration (mgr y));
  sy_pass : forall r, pass y = Some r ->
    rc_generation r <= namespaceGeneration (mgr y) /\ rc_revision r <= lastRevision (mgr y)
}.

(** Generations and the revision only move forward. *)
Definition advances (m m' : Manager) : Prop :=
  namespaceGeneration m <= namespaceGeneration m' /\ snapshotGeneration m <= snapshotGeneration m' /\
  lastRevision m <= lastRevision m'.

Lemma sys_advance y m' :
  sys_inv y -> wm_inv m' -> advances (mgr y) m' -> sys_inv (with_mgr y m').
Proof.
  intros [Hm Hs Hp] Hm' (Ha & Hb & Hc). split; [done|..]; simpl.
  - intros s Hss. destruct (Hs s Hss) as [? Hf]. split; [lia|]. intros Hx. specialize (Hf Hx). lia.
  - intros r Hr. destruct (Hp r Hr). lia.
Qed.

Lemma advances_refl m : advances m m.
Proof. unfold advances. lia. Qed.

Lemma advances_trans m1 m2 m3 : advances m1 m2 -> advances m2 m3 -> advances m1 m3.
Proof. unfold advances. lia. Qed.

Lemma values_only_advances m m' : values_only m m' -> advances m m'.
Proof. intros (k & es & ->). apply (advances_refl m). Qed.

Lemma register_advances m ref initial h : advances m (registerParameter m ref initial h).1.
Proof.
  unfold registerParameter. set (m1 := match map_get _ (known m) with Some _ => _ | None => _ end).
  assert (advances m m1) as H1 by (unfold m1; destruct (map_get _ _); apply (advances_refl m)).
  clearbody m1. set (ms := match map_get _ (parameterHandlers m1) with Some _ => _ | None => _ end).
  assert (advances m ms.1) as H2 by (unfold ms; destruct (map_get _ _); exact H1).
  clearbody ms. destruct ms as [m2 s]. set (m3 := set_handlers m2 _ _).
  destruct (retain_start_shape m3 (namespace ref)) as (gen & sta & rst & es & Hgen & _ & Hsh). simpl. rewrite Hsh.
  eapply advances_trans; [exact H2|]. unfold advances. simpl in *. lia.
Qed.

Lemma release_advances m ns : advances m (release_and_restart m ns).
Proof. destruct (release_restart_shape m ns) as (gen & rst & Hgen & ->). unfold advances. simpl. lia. Qed.

Lemma unregister_advances m reg : advances m (unregister m reg).
Proof.
  destruct (registrations m !! reg) as [[[] path s h ns|]|] eqn:Hi; try (unfold unregister; rewrite Hi; apply advances_refl).
  destruct (unregister_shape m reg path s h ns Hi) as (ph & hs & ks & -> & _).
  apply (release_advances (set_known (set_handlers m ph hs) ks)).
Qed.

Lemma watch_advances m ns cb ab m' r : watch m ns cb ab = Ok (m', r) -> advances m m'.
Proof.
  unfold watch. destruct (stopped m); [done|]. destruct ab; [intros [= <- _]; apply advances_refl|]. cbv zeta.
  intros [= <- _]. set (m1 := set_watchers m _ _ _).
  destruct (retain_start_shape m1 ns) as (gen & sta & rst & es & Hgen & _ & ->).
  unfold advances. simpl in *. lia.
Qed.

Lemma watch_stop_advances m reg : advances m (watch_stop m reg).
Proof.
  unfold watch_stop. destruct (registrations m !! reg) as [[|[] id ns]|]; try apply advances_refl. cbv zeta.
  set (m1 := set_watchers _ _ _ _). apply (release_advances m1).
Qed.

Lemma stop_begin_advances m : advances m (stop_begin m).
Proof.
  unfold stop_begin. destruct (stopped m); [apply advances_refl|]. cbv zeta. set (m1 := set_status _ _ _ _ _ _ _).
  assert (advances m m1) as H1 by apply (advances_refl m). clearbody m1. revert H1.
  generalize (map snd (watcherStops m1)). intros l. revert m1.
  induction l as [|x l IH]; intros m1 H1; simpl; [done|].
  apply IH. eapply advances_trans; [exact H1|apply watch_stop_advances].
Qed.

Lemma advance_advances m rev : advances m (advanceRevision m rev).
Proof. rewrite advance_max. unfold advances. simpl. lia. Qed.

Lemma handleEvent_advances m e g : advances m (handleEvent m e g).
Proof.
  destruct e as [ps rev|c rev|c rev|rev|]; simpl; [..|apply advances_refl].
  - eapply advances_trans; [apply values_only_advances, (applySnapshot_values m ps rev)|].
    eapply advances_trans; [|apply advance_advances]. destruct g; [|apply advances_refl].
    unfold advances. simpl. lia.
  - eapply advances_trans; [|apply advance_advances]. apply values_only_advances.
    destruct (shouldApply m rev); [apply applyChange_values|auto with kms].
  - eapply advances_trans; [|apply advance_advances]. apply values_only_advances.
    destruct (shouldApply m rev); [apply applySecretChange_values|auto with kms].
  - apply (advance_advances m rev).
Qed.

Lemma step_inv sort y o : sys_inv y -> sys_inv (wm_step sort y o).
Proof.
  intros Hy. pose proof (sy_mgr y Hy) as Hm. destruct o; simpl.
  - apply sys_advance; [done|by apply register_inv|apply register_advances].
  - apply sys_advance; [done|by apply unregister_inv|apply unregister_advances].
  - destruct (watch (mgr y) ns cb ab) as [[m' r]|] eqn:E; [|done].
    apply sys_advance; [done|by eapply watch_step_inv|by eapply watch_advances].
  - apply sys_advance; [done|by apply watch_stop_inv|apply watch_stop_advances].
  - apply sys_advance; [done|by apply stop_begin_inv|apply stop_begin_advances].
  - destruct (stopped (mgr y)) eqn:E; [|done].
    apply sys_advance; [done|by apply stop_finish_inv|apply (advances_refl (mgr y))].
  - unfold session_open. case_bool_decide; [done|]. destruct Hy as [_ _ Hp]. split; [|simpl|done].
    + apply emit_inv, (stream_inv (set_status (mgr y) _ _ _ _ _ _)); [apply Hm|by apply status_inv].
    + intros s [= <-]. simpl. split; [done|]. intros E. apply Z.ltb_ge in E. done.
  - apply sys_advance; [done|by apply status_inv|apply (advances_refl (mgr y))].
  - destruct (sess y) as [s|] eqn:Es; [|done]. unfold session_event. destruct (negb _) eqn:E.
    + destruct Hy as [? _ ?]. by split.
    + apply sys_advance; [done| |apply handleEvent_advances]. apply handleEvent_inv; [|done].
      intros x. destruct (ss_full s); [|done]. intros [= <-]. by apply (sy_sess y Hy s Es).
  - destruct Hy as [_ _ Hp]. unfold session_failed.
    destruct (restartRequested (mgr y)); (split; [|done|]); simpl; [done|done|by apply status_inv|done].
  - apply sys_advance; [done|unfold run_idle; case_bool_decide; [by apply status_inv|done]|].
    unfold run_idle. case_bool_decide; apply (advances_refl (mgr y)).
  - destruct Hy as [_ Hs _]. split; [done|done|]. intros r [= <-]. simpl. lia.
  - destruct (pass y) as [r|] eqn:Er; [|done]. destruct (sy_pass y Hy r Er) as [Hr1 Hr2].
    destruct (reconcile_page (mgr y) r ns items) as [[m' r']|] eqn:E; [|done].
    destruct (page_inv _ _ _ _ _ _ Hm Hr2 E) as (Hi & Hv & E1 & E2).
    pose proof (sys_advance y m' Hy Hi (values_only_advances _ _ Hv)) as [Ha Hb _]. split; [done|done|].
    intros r0 [= <-]. destruct (values_only_advances _ _ Hv) as (? & ? & ?). simpl. rewrite E1, E2. lia.
  - destruct (pass y) as [r|] eqn:Er; [|done]. pose proof (sy_pass y Hy r Er). destruct Hy as [_ Hs _].
    split; [done|done|]. intros r0 [= <-]. done.
  - destruct (pass y) as [r|] eqn:Er; [|done]. destruct (sy_pass y Hy r Er) as [Hr1 Hr2].
    destruct (finish_inv _ _ Hm Hr2) as [Hi Hv]. destruct (reconcile_finish (mgr y) r) as [m' ok]. simpl in *.
    pose proof (sys_advance y (reconcile_report m' ok) Hy (status_inv _ _ _ _ _ _ Hi) (values_only_advances _ _ Hv)) as [Ha Hb _].
    by split.
  - apply sys_advance; [done|unfold reconcile_idle; case_bool_decide; [by apply status_inv|done]|].
    unfold reconcile_idle. case_bool_decide; apply (advances_refl (mgr y)).
Qed.

Lemma init_inv : sys_inv init_system.
Proof.
  split; [split; [split|split|split|..]|..]; simpl; try done; try constructor.
Qed.

Lemma run_inv sort ops : sys_inv (wm_run sort ops).
Proof.
  unfold wm_run. assert (forall y, sys_inv y -> sys_inv (foldl (wm_step sort) y ops)) as H; [|apply H, init_inv].
  induction ops as [|o ops IH]; intros y Hy; simpl; [done|]. by apply IH, step_inv.
Qed.

(** C27: however registrations, watches, their stops, stream events,
    reconnects and reconciliation pages interleave, a namespace is subscribed
    exactly while some registration or watch on it is active: its reference
    count is the number of them (until the manager is stopped), never zero or
    negative. A watcher is in the table exactly while its stop closure is
    active, so an event queued for a stopped watcher is never delivered. A
    tombstone is remembered only for a path that still has handlers; nothing
    known is newer than the current revision; and a resumed session (no full
    snapshot) happens only when a snapshot of the current namespace set has
    been applied. *)
Theorem watch_invariant sort_namespaces ops :
  let y := wm_run sort_namespaces ops in
  let m := mgr y in
  (forall k, map_has k (namespaces m) = true <-> 1 <= count_of (namespaceRefCounts m) k) /\
  (stopped m = false -> forall k, count_of (namespaceRefCounts m) k = live_regs (registrations m) k) /\
  (forall i a id ns, registrations m !! i = Some (RWatch a id ns) ->
     (a = false -> map_has id (watchers m) = false) /\
     (a = true -> stopped m = false -> map_has id (watchers m) = true)) /\
  (forall path k, map_get path (known m) = Some k ->
     k_revision k <= lastRevision m /\
     (k_present k = false -> has_handlers m path = true \/ refOf path = None)) /\
  (forall s, sess y = Some s -> ss_full s = false -> ss_generation s <= snapshotGeneration m).
Proof.
  cbv zeta. pose proof (run_inv sort_namespaces ops) as Hi.
  generalize dependent (wm_run sort_namespaces ops). intros [m ss ps] Hi. simpl.
  destruct Hi as [[[Hwf Hkeys Hns Hpos Hlive] [Hw1 Hw2 Hw3 Hw4] [Hk1 Hk2 Hk3] H0 Hg] Hs Hp]. simpl in *. split_and!.
  - intros k. rewrite map_has_true, Hkeys, <- map_has_true. unfold map_has, count_of.
    destruct (map_get k (namespaceRefCounts m)) as [c|] eqn:E.
    + split; [intros _; by apply (Hpos k)|intros _; by apply bool_decide_eq_true_2].
    + rewrite bool_decide_eq_true. split; [intros [? ?]; done|simpl; lia].
  - done.
  - intros i a id ns Hi. destruct (Hw2 i a id ns Hi) as (_ & Ha & Hb). unfold map_has. split.
    + intros Hf. rewrite (Ha Hf). by apply bool_decide_eq_false_2, is_Some_None.
    + intros Ht Hst. destruct (Hb Ht Hst) as (w & -> & _). by apply bool_decide_eq_true_2.
  - intros path k Hk. split; [by eapply Hk3|]. intros Hpr. by eapply Hk2.
  - intros s Hss. apply (Hs s Hss).
Qed.
