(* ===== verification/WatchSpec.v ===== *)
(** * WatchSpec: what the subscription manager promises.

    The reconciliation fence, the exactness of snapshots, and the agreement
    between what a parameter handler was last told and what is known. *)
From stdpp Require Import prelude gmap strings.
From Stdlib Require Import ZArith Lia.
From S2P Require Import Prelude JsString JsMap Unicode Decimal Errors Refs Watch WatchProofs.

(** ** The reconciliation fence *)

Lemma listed_put_stale m rev items : rev < lastRevision m -> foldl (listed_put rev) m items = m.
Proof.
  intros Hr. induction items as [|p items IH]; simpl; [done|].
  unfold listed_put at 2, setValue. rewrite (proj2 (Z.ltb_lt _ _) Hr). simpl. exact IH.
Qed.

(** C26: a reconciliation pass reads the server at one revision and one
    namespace set. Once a live event has moved the revision on, or the
    namespace set has changed (even if it was changed back), no page of the
    pass and no absence it inferred changes anything: every page leaves the
    whole manager as it was or is refused, and the pass ends unhealthy. *)
Theorem stale_pass_writes_nothing sort_namespaces ops r :
  let y := wm_run sort_namespaces ops in
  let m := mgr y in
  pass y = Some r ->
  rc_revision r <> lastRevision m \/ rc_generation r <> namespaceGeneration m ->
  (forall ns items m' r', reconcile_page m r ns items = Some (m', r') -> m' = m) /\
  reconcile_finish m r = (m, false).
Proof.
  cbv zeta. pose proof (run_inv sort_namespaces ops) as Hi.
  generalize dependent (wm_run sort_namespaces ops). intros y Hi Hp Hstale.
  destruct (sy_pass y Hi r Hp) as [_ Hr]. split.
  - intros ns items m' r'. unfold reconcile_page. destruct (_ || _) eqn:E; [done|]. intros [= <- _].
    bool_prop. apply listed_put_stale. destruct Hstale; [lia|done].
  - unfold reconcile_finish. replace (_ || _) with true; [done|]. symmetry. apply orb_true_iff.
    rewrite !negb_true_iff, !Z.eqb_neq. tauto.
Qed.

(** ** Snapshots *)

Definition current (m : Manager) (path : jstr) : option jstr :=
  match map_get path (known m) with Some k => if k_present k then Some (k_value k) else None | None => None end.

(** The first value a snapshot gives for a path. *)
Fixpoint snapshot_value (ps : list (jstr * jstr * Z)) (path : jstr) : option jstr :=
  match ps with
  | [] => None
  | (p, v, _) :: ps => if decide (p = path) then Some v else snapshot_value ps path
  end.

Lemma snapshot_value_None ps path : snapshot_value ps path = None <-> path ∉ map (fun p => p.1.1) ps.
Proof.
  induction ps as [|[[p v] n] ps IH]; simpl; [set_solver|]. rewrite not_elem_of_cons. case_decide; naive_solver.
Qed.

Definition put_entry (rev : Z) (v : jstr) : KnownValue := {| k_value := v; k_present := true; k_revision := rev |}.

Lemma put_known rev p m path :
  map_wf (known m) -> rev <> 0 -> (forall q k, map_get q (known m) = Some k -> k_revision k <= rev) ->
  map_get path (known (snapshot_put rev m p)) =
    if decide (p.1.1 = path) then
      match map_get path (known m) with
      | Some k => if k_revision k =? rev then Some k else Some (put_entry rev p.1.2)
      | None => Some (put_entry rev p.1.2)
      end
    else map_get path (known m).
Proof.
  intros Hwf H0 Hb. unfold snapshot_put. pose proof (setValue_spec m p.1.1 p.1.2 true p.2 rev false Hwf) as H.
  assert (accepts m p.1.1 rev false = match map_get p.1.1 (known m) with Some k => negb (k_revision k =? rev) | None => true end) as Ha.
  { unfold accepts. simpl. destruct (map_get p.1.1 (known m)) as [k|] eqn:E; [|done]. apply Hb in E. unfold revisionAllowsWrite.
    destruct (k_revision k =? rev) eqn:E2, (rev =? 0) eqn:E3, (k_revision k <? rev) eqn:E4; simpl; try done; bool_prop; lia. }
  rewrite Ha in H. case_decide as Hd.
  - subst path. destruct (map_get p.1.1 (known m)) as [k|] eqn:E; [destruct (k_revision k =? rev) eqn:E2; simpl in H|].
    + by rewrite H.
    + destruct H as [_ Hh _]. destruct Hh as [(_ & ? & _)|(k' & -> & H1 & H2 & H3 & _)]; [done|].
      destruct H3 as [H3|(k0 & Hk0 & _ & Hlt)]; [destruct k'; simpl in *; by subst|].
      rewrite E in Hk0. injection Hk0 as <-. apply Hb in E. lia.
    + destruct H as [_ Hh _]. destruct Hh as [(_ & ? & _)|(k' & -> & H1 & H2 & H3 & _)]; [done|].
      destruct H3 as [H3|(k0 & Hk0 & _)]; [destruct k'; simpl in *; by subst|congruence].
  - destruct (match map_get p.1.1 (known m) with Some _ => _ | None => _ end); [by apply (wr_other _ _ _ _ _ _ H)|by rewrite H].
Qed.

Lemma puts_known rev ps m path :
  map_wf (known m) -> rev <> 0 -> (forall q k, map_get q (known m) = Some k -> k_revision k <= rev) ->
  map_get path (known (foldl (snapshot_put rev) m ps)) =
    match snapshot_value ps path, map_get path (known m) with
    | Some v, Some k => if k_revision k =? rev then Some k else Some (put_entry rev v)
    | Some v, None => Some (put_entry rev v)
    | None, o => o
    end.
Proof.
  intros Hwf H0. revert m Hwf. induction ps as [|p ps IH]; intros m Hwf Hb; simpl; [done|].
  rewrite IH; [|by apply setValue_wf|].
  - rewrite put_known by done. destruct p as [[q v] n]. simpl. destruct (decide (q = path)) as [->|]; [|done].
    destruct (map_get path (known m)) as [k|]; [destruct (k_revision k =? rev) eqn:E|]; destruct (snapshot_value ps path); simpl;
      rewrite ?E, ?Z.eqb_refl; done.
  - intros q k. rewrite put_known by done. destruct (decide _); [|apply Hb].
    destruct (map_get q (known m)) as [k0|] eqn:E; [destruct (k_revision k0 =? rev)|]; intros [= <-]; simpl; try lia. by eapply Hb.
Qed.

Section drops.
Context (present : list jstr) (rev : Z) (path : jstr).

Lemma drop_values m p : values_only m (snapshot_drop present rev m p).
Proof.
  unfold snapshot_drop. destruct (map_get p (known m)); [|auto with kms].
  destruct (_ || _); [auto with kms|apply setValue_values].
Qed.

Lemma scope_values m m' p : values_only m m' -> pathInStreamScope m' p = pathInStreamScope m p.
Proof. intros (k & es & ->). done. Qed.

Lemma drop_wf m p : map_wf (known m) -> map_wf (known (snapshot_drop present rev m p)).
Proof.
  intros H. unfold snapshot_drop. destruct (map_get p (known m)); [|done].
  destruct (_ || _); [done|by apply setValue_wf].
Qed.

Lemma drop_keeps m p :
  map_wf (known m) -> path ∈ present \/ pathInStreamScope m path = false \/ p <> path ->
  map_get path (known (snapshot_drop present rev m p)) = map_get path (known m).
Proof.
  intros Hwf Hcase. unfold snapshot_drop. destruct (map_get p (known m)) as [k|]; [|done].
  destruct (negb (k_present k) || bool_decide (p ∈ present) || negb (pathInStreamScope m p)) eqn:E; [done|].
  bool_prop. assert (p <> path) as Hne by (destruct Hcase as [?|[?|?]]; [congruence|congruence|done]).
  destruct (setValue_cases m p [] false 0 rev false Hwf) as [->|[Ho _ _]]; [done|]. by apply Ho.
Qed.

Lemma drops_keep l m :
  map_wf (known m) -> path ∈ present \/ pathInStreamScope m path = false ->
  map_get path (known (foldl (snapshot_drop present rev) m l)) = map_get path (known m).
Proof.
  revert m. induction l as [|p l IH]; intros m Hwf Hcase; simpl; [done|].
  rewrite IH; [by apply drop_keeps; [|tauto]|by apply drop_wf|].
  by rewrite (scope_values m _ path (drop_values m p)).
Qed.

Lemma drop_here m :
  map_wf (known m) -> path ∉ present -> pathInStreamScope m path = true ->
  (forall k, map_get path (known m) = Some k -> k_revision k < rev) ->
  current (snapshot_drop present rev m path) path = None.
Proof.
  intros Hwf Hp Hsc Hr. unfold snapshot_drop. destruct (map_get path (known m)) as [k|] eqn:E.
  2:{ unfold current. by rewrite E. }
  rewrite (bool_decide_eq_false_2 (path ∈ present)), Hsc by done. simpl. rewrite !orb_false_r.
  destruct (k_present k) eqn:Ep; simpl; [|unfold current; by rewrite E, Ep].
  pose proof (setValue_spec m path [] false 0 rev false Hwf) as H.
  replace (accepts m path rev false) with true in H.
  - unfold current. destruct H as [_ [(-> & _)|(k' & -> & -> & _)] _]; done.
  - unfold accepts, revisionAllowsWrite. simpl. rewrite E. specialize (Hr k eq_refl).
    rewrite (proj2 (Z.ltb_lt _ _) Hr). by rewrite orb_true_r.
Qed.

Lemma drops_here l m :
  map_wf (known m) -> path ∉ present -> pathInStreamScope m path = true ->
  current m path = None \/ path ∈ l /\ (forall k, map_get path (known m) = Some k -> k_revision k < rev) ->
  current (foldl (snapshot_drop present rev) m l) path = None.
Proof.
  revert m. induction l as [|p l IH]; intros m Hwf Hp Hsc Hc; simpl.
  { destruct Hc as [?|[Hc _]]; [done|]. by apply elem_of_nil in Hc. }
  apply IH; [by apply drop_wf|done|by rewrite (scope_values m _ path (drop_values m p))|].
  destruct (decide (p = path)) as [->|Hne].
  - left. destruct Hc as [Hc|[_ Hc]]; [|by apply drop_here]. unfold snapshot_drop.
    unfold current in Hc. destruct (map_get path (known m)) as [k|] eqn:E; [|unfold current; by rewrite E].
    destruct (k_present k) eqn:Ep; [done|]. simpl. unfold current. by rewrite E, Ep.
  - assert (map_get path (known (snapshot_drop present rev m p)) = map_get path (known m)) as Hk
      by (apply drop_keeps; auto).
    destruct Hc as [Hc|[Hin Hc]]; [left; unfold current; by rewrite Hk|right].
    split; [set_solver|]. by rewrite Hk.
Qed.
End drops.

(** A snapshot newer than everything applied so far is installed exactly:
    every path of the stream's namespaces is known with the snapshot's value
    if the snapshot has it and is not known as present otherwise, and what is
    known about paths outside those namespaces and outside the snapshot does
    not change. *)
Theorem snapshot_exact sort_namespaces ops ps revision path :
  let m := mgr (wm_run sort_namespaces ops) in
  let m' := applySnapshot m ps revision in
  lastRevision m < revision ->
  (pathInStreamScope m path = true -> current m' path = snapshot_value (snapshot_parameters ps) path) /\
  (pathInStreamScope m path = false -> snapshot_value (snapshot_parameters ps) path = None ->
     map_get path (known m') = map_get path (known m)).
Proof.
  cbv zeta. pose proof (run_inv sort_namespaces ops) as [[Hs Hw [Hwf _ Hrev] H0 _] _ _].
  generalize dependent (mgr (wm_run sort_namespaces ops)). intros m Hs Hw Hwf Hrev H0 Hlt.
  unfold applySnapshot. set (m1 := emit m _). set (params := snapshot_parameters ps).
  set (m2 := foldl (snapshot_put revision) m1 params).
  assert (values_only m m2) as Hv.
  { eapply values_only_trans; [apply (values_only_emit m)|].
    apply (values_only_foldl (snapshot_put revision)). intros. apply setValue_values. }
  assert (map_wf (known m2)) as Hwf2.
  { unfold m2. clear -Hwf. assert (map_wf (known m1)) as H by done. revert H. generalize m1.
    induction params as [|p l IH]; intros m0 H; simpl; [done|]. by apply IH, setValue_wf. }
  assert (forall p, map_get p (known m2) = match snapshot_value params p with
      | Some v => Some (put_entry revision v) | None => map_get p (known m) end) as Hk2.
  { intros p. unfold m2. rewrite puts_known; [|done|lia|]; simpl.
    - destruct (snapshot_value params p), (map_get p (known m)) as [k|] eqn:E; try done.
      apply Hrev in E. rewrite (proj2 (Z.eqb_neq _ _)); [done|lia].
    - intros q k Hq. apply Hrev in Hq. lia. }
  rewrite <- (scope_values m m2 path Hv). split.
  - intros Hsc. destruct (snapshot_value params path) as [v|] eqn:Ev.
    + unfold current. rewrite drops_keep; [by rewrite Hk2, Ev|done|left].
      destruct (decide (path ∈ map (fun p => p.1.1) params)) as [?|Hn]; [done|].
      apply snapshot_value_None in Hn. congruence.
    + apply drops_here; [done|by apply snapshot_value_None|done|].
      destruct (map_get path (known m2)) as [k|] eqn:E; [right|left; unfold current; by rewrite E].
      split.
      * apply list_elem_of_fmap. exists (path, k). split; [done|]. by apply map_get_Some_elem.
      * intros k' [= <-]. rewrite Hk2, Ev in E. apply Hrev in E. lia.
  - intros Hsc Hn. rewrite drops_keep by auto. by rewrite Hk2, Hn.
Qed.

(** ** What a handler has been told *)

Definition tell (h : fn) (acc : option (jstr * bool)) (e : effect) : option (jstr * bool) :=
  match e with CallHandler h' v p => if decide (h' = h) then Some (v, p) else acc | _ => acc end.
Definition last_call (h : fn) (tr : list effect) : option (jstr * bool) := foldl (tell h) None tr.

(** The value the handler's owner holds: the last one delivered, or the one
    it registered with. *)
Definition seen (initial : fn -> jstr) (tr : list effect) (h : fn) : jstr * bool :=
  default (initial h, true) (last_call h tr).

Definition called (tr : list effect) (h : fn) : Prop := exists v p, CallHandler h v p ∈ tr.

Lemma last_call_app h tr es : last_call h (tr ++ es) = foldl (tell h) (last_call h tr) es.
Proof. apply foldl_app. Qed.

Lemma tell_skip h acc es : ~ called es h -> foldl (tell h) acc es = acc.
Proof.
  revert acc. induction es as [|e es IH]; intros acc Hn; simpl; [done|].
  rewrite IH; [|intros (v & p & H); apply Hn; exists v, p; set_solver].
  destruct e; simpl; try done. case_decide; [|done]. subst. exfalso. apply Hn. do 2 eexists. left.
Qed.

Lemma last_call_skip h tr es : ~ called es h -> last_call h (tr ++ es) = last_call h tr.
Proof. intros. rewrite last_call_app. by apply tell_skip. Qed.

Lemma no_call_called es h : Forall no_call es -> ~ called es h.
Proof. rewrite Forall_forall. intros H (v & p & Hin). by apply (H _ Hin). Qed.

Lemma calls_last h acc hs v p :
  h ∈ hs -> foldl (tell h) acc (map (fun h => CallHandler h v p) hs) = Some (v, p).
Proof.
  revert acc. induction hs as [|x hs IH]; intros acc Hin; [set_solver|]. simpl.
  destruct (decide (h ∈ hs)) as [Hi|Hn]; [by apply IH|].
  assert (x = h) as -> by set_solver. rewrite decide_True by done.
  apply tell_skip. intros (v' & p' & H). apply list_elem_of_fmap in H as (y & [= <- _ _] & Hy). done.
Qed.

Lemma calls_called h hs v p : called (map (fun h => CallHandler h v p) hs) h -> h ∈ hs.
Proof. intros (v' & p' & H). apply list_elem_of_fmap in H as (y & [= <- _ _] & Hy). done. Qed.

Definition hset (hs : list (list fn)) (s : nat) : list fn := default [] (hs !! s).

Lemma hset_insert hs s s' l :
  (s < length hs)%nat -> hset (<[s := l]> hs) s' = if decide (s = s') then l else hset hs s'.
Proof.
  intros Hs. unfold hset. case_decide as Hd; [subst; by rewrite list_lookup_insert_eq by done|].
  by rewrite list_lookup_insert_ne by done.
Qed.

(** Each active registration has its handler in the set of its path, and the
    path's known value is what the handler has seen. *)
Section view.
Context (initial : fn -> jstr).

Record view_ok (used : list fn) (regs : list Registration) (ph : list (jstr * nat)) (hs : list (list fn))
    (ks : list (jstr * KnownValue)) (tr : list effect) : Prop := {
  vo_reg : forall i path s h ns, regs !! i = Some (RParameter true path s h ns) ->
    map_get path ph = Some s /\ h ∈ hset hs s /\ h ∈ used /\
    (exists ref, refOf path = Some ref /\ namespace ref = ns) /\
    exists k, map_get path ks = Some k /\ seen initial tr h = (k_value k, k_present k);
  vo_set : forall s h, h ∈ hset hs s -> exists i path ns, regs !! i = Some (RParameter true path s h ns);
  vo_uniq : forall i j path path' s s' h ns ns',
    regs !! i = Some (RParameter true path s h ns) -> regs !! j = Some (RParameter true path' s' h ns') -> i = j;
  vo_wf : map_wf ph;
  vo_inj : forall p q s, map_get p ph = Some s -> map_get q ph = Some s -> p = q;
  vo_lt : forall p s, map_get p ph = Some s -> (s < length hs)%nat;
  vo_called : forall h, called tr h -> h ∈ used;
  vo_absent : forall p k, map_get p ks = Some k -> k_present k = false -> k_value k = []
}.

Definition view_inv (used : list fn) (m : Manager) : Prop :=
  stopped m = false ->
  view_ok used (registrations m) (parameterHandlers m) (handlerSets m) (known m) (trace m).

Lemma view_emit used regs ph hs ks tr es :
  Forall no_call es -> view_ok used regs ph hs ks tr -> view_ok used regs ph hs ks (tr ++ es).
Proof.
  intros Hn [H1 H2 H3 H4 H5 H6 H7 H8]. split; try done.
  - intros i path s h ns Hi. destruct (H1 i path s h ns Hi) as (? & ? & ? & ? & k & ? & Hk). split_and!; [done..|].
    exists k. split; [done|]. unfold seen. by rewrite last_call_skip by by apply no_call_called.
  - intros h (v & p & Hin). apply elem_of_app in Hin as [Hin|Hin]; [apply H7; by do 2 eexists|].
    rewrite Forall_forall in Hn. by apply Hn in Hin.
Qed.

(** A registered handler is called by the writes to its own path only. *)
Lemma view_handlers used m path i path' s h ns :
  view_ok used (registrations m) (parameterHandlers m) (handlerSets m) (known m) (trace m) ->
  registrations m !! i = Some (RParameter true path' s h ns) ->
  h ∈ path_handlers m path <-> path' = path.
Proof.
  intros [H1 H2 H3 H4 H5 H6 H7 H8] Hi. destruct (H1 i path' s h ns Hi) as (Hph & Hh & _).
  unfold path_handlers. split.
  - destruct (map_get path (parameterHandlers m)) as [s2|] eqn:E; [|by intros ?%elem_of_nil]. intros Hin.
    destruct (H2 s2 h Hin) as (j & q & ns' & Hj). pose proof (H3 _ _ _ _ _ _ _ _ _ Hi Hj) as <-.
    rewrite Hi in Hj. injection Hj as <- <- <-. by eapply H5.
  - intros ->. by rewrite Hph.
Qed.

Lemma view_setValue used m path v present ver rev rc :
  map_wf (known m) -> (present = false -> v = []) ->
  view_ok used (registrations m) (parameterHandlers m) (handlerSets m) (known m) (trace m) ->
  let m' := setValue m path v present ver rev rc in
  view_ok used (registrations m) (parameterHandlers m) (handlerSets m) (known m') (trace m').
Proof.
  intros Hwf Hv Hok. cbv zeta.
  destruct (setValue_cases m path v present ver rev rc Hwf) as [->|[Ho Hh (es & Htr & Hes)]]; [done|].
  set (m' := setValue m path v present ver rev rc) in *.
  pose proof Hok as [H1 H2 H3 H4 H5 H6 H7 H8].
  assert (forall i path' s h ns, registrations m !! i = Some (RParameter true path' s h ns) ->
    last_call h (trace m') = if bool_decide (path' = path) && value_changed (map_get path (known m)) v present
                             then Some (v, present) else last_call h (trace m)) as Hcall.
  { intros i path' s h ns Hi. pose proof (view_handlers used m path i path' s h ns Hok Hi) as Hin.
    rewrite Htr, last_call_app. destruct (value_changed _ _ _); [|rewrite andb_false_r; by subst es].
    destruct Hes as (es' & -> & Hn). simpl. rewrite foldl_app, (tell_skip h _ es') by by apply no_call_called.
    rewrite andb_true_r. case_bool_decide as Hd; [apply calls_last; by apply Hin|].
    apply tell_skip. intros Hc. apply calls_called in Hc. tauto. }
  split; try done.
  - intros i path' s h ns Hi. destruct (H1 i path' s h ns Hi) as (Hph & Hs & Hu & Hr & k & Hk & Hseen).
    split_and!; [done..|]. unfold seen. rewrite (Hcall i path' s h ns Hi).
    case_bool_decide as Hd; simpl; [|exists k; rewrite Ho by done; done]. subst path'.
    destruct Hh as [(_ & _ & Hno)|(k' & Hk' & Hp' & Hv' & _)].
    { unfold has_handlers, map_has in Hno. rewrite Hph in Hno. bool_prop. destruct Hno. by eexists. }
    exists k'. split; [done|]. rewrite Hp', Hv', Hk. unfold seen in Hseen.
    destruct (value_changed (Some k) v present) eqn:Hc; simpl.
    + destruct present; [done|]. by rewrite Hv.
    + rewrite Hseen. unfold value_changed in Hc. destruct present.
      * bool_prop. congruence.
      * rewrite Hc. f_equal. by eapply H8.
  - intros h (v' & p' & Hin). rewrite Htr in Hin. apply elem_of_app in Hin as [Hin|Hin]; [apply H7; by do 2 eexists|].
    destruct (value_changed _ _ _); [|subst es; by apply elem_of_nil in Hin].
    destruct Hes as (es' & -> & Hn). apply elem_of_cons in Hin as [?|Hin]; [done|].
    apply elem_of_app in Hin as [Hin|Hin]; [|rewrite Forall_forall in Hn; by apply Hn in Hin].
    apply list_elem_of_fmap in Hin as (y & [= <- _ _] & Hy). unfold path_handlers in Hy.
    destruct (map_get path (parameterHandlers m)) as [s|]; [|by apply elem_of_nil in Hy].
    destruct (H2 s h Hy) as (j & q & ns & Hj). by apply (H1 j q s h ns Hj).
  - intros p k Hk Hp. destruct (decide (p = path)) as [->|Hne]; [|rewrite Ho in Hk by done; eauto].
    destruct Hh as [(Hno & _)|(k' & Hk' & Hp' & Hv' & _)]; [congruence|].
    rewrite Hk in Hk'. injection Hk' as <-. rewrite Hp in Hp'. by subst present.
Qed.

Definition view_at (used : list fn) (m : Manager) : Prop :=
  map_wf (known m) /\
  view_ok used (registrations m) (parameterHandlers m) (handlerSets m) (known m) (trace m).

Lemma view_at_setValue used m path v present ver rev rc :
  (present = false -> v = []) -> view_at used m -> view_at used (setValue m path v present ver rev rc).
Proof.
  intros Hv [Hwf Hok]. split; [by apply setValue_wf|].
  pose proof (values_only_fields _ _ (setValue_values m path v present ver rev rc)) as (_ & _ & -> & -> & _ & -> & _).
  by apply view_setValue.
Qed.

Lemma view_at_emit used m es : Forall no_call es -> view_at used m -> view_at used (emit m es).
Proof. intros Hn [Hwf Hok]. split; [done|]. by apply view_emit. Qed.

Lemma view_at_foldl {A} used (f : Manager -> A -> Manager) l m :
  (forall m x, view_at used m -> view_at used (f m x)) -> view_at used m -> view_at used (foldl f m l).
Proof. intros Hf. revert m. induction l as [|x l IH]; intros m Hm; simpl; [done|]. by apply IH, Hf. Qed.

Lemma view_at_event used m e g : view_at used m -> view_at used (handleEvent m e g).
Proof.
  intros Hm.
  assert (forall m rev, view_at used m -> view_at used (advanceRevision m rev)) as Ha
    by (intros m0 rev H0; unfold advanceRevision; by destruct (_ <? _)).
  destruct e as [ps rev|c rev|c rev|rev|]; simpl; [..|done]; try apply Ha.
  - assert (view_at used (applySnapshot m ps rev)) as H1; [|by destruct g].
    unfold applySnapshot. apply view_at_foldl.
    + intros m0 x H0. unfold snapshot_drop. destruct (map_get x (known m0)); [|done].
      destruct (_ || _); [done|]. by apply view_at_setValue.
    + apply view_at_foldl; [intros m0 x H0; by apply view_at_setValue|].
      by apply view_at_emit; [repeat constructor|].
  - destruct (shouldApply m rev); [|done]. unfold applyChange. destruct (wc_ref c) as [ref|]; [|done].
    destruct (bool_decide _); apply view_at_setValue; try done. by apply view_at_emit; [repeat constructor|].
  - destruct (shouldApply m rev); [|done]. unfold applySecretChange. destruct (wc_ref c) as [ref|]; [|done].
    set (m0 := emit m _). destruct (fire_no_call m0 (namespace ref) (displayPath ref)
      (WSecretChange (displayNamespace (namespace ref)) (key ref) (displayPath ref) (wc_version c) rev (wc_type c)))
      as (es & He & Hn).
    assert (view_at used m0) as [Hw0 Hok0] by (by apply view_at_emit; [repeat constructor|]).
    split; [done|]. rewrite He. by apply view_emit.
  - by apply view_at_emit; [repeat constructor|apply Ha].
Qed.

Lemma view_at_page used m r ns items m' r' :
  view_at used m -> reconcile_page m r ns items = Some (m', r') -> view_at used m'.
Proof.
  intros Hm. unfold reconcile_page. destruct (_ || _); [done|]. intros [= <- _].
  apply view_at_foldl; [|done]. intros m0 x H0. by apply view_at_setValue.
Qed.

Lemma view_at_finish used m r : view_at used m -> view_at used (reconcile_finish m r).1.
Proof.
  intros Hm. unfold reconcile_finish. destruct (_ || _); [done|]. cbv zeta. simpl.
  apply view_at_foldl; [|done]. intros m0 x H0. unfold reconcile_drop.
  destruct (bool_decide _); [done|]. destruct (refOf x); [|done]. cbv zeta.
  destruct (_ || _); [done|]. by apply view_at_setValue.
Qed.

(** *** Registrations come and go *)

Lemma view_regs used regs regs' ph hs ks tr :
  (forall i path s h ns, regs' !! i = Some (RParameter true path s h ns) <-> regs !! i = Some (RParameter true path s h ns)) ->
  view_ok used regs ph hs ks tr -> view_ok used regs' ph hs ks tr.
Proof.
  intros Heq [H1 H2 H3 H4 H5 H6 H7 H8]. split; try done.
  - intros i path s h ns Hi. apply Heq in Hi. eauto.
  - intros s h Hh. destruct (H2 s h Hh) as (i & path & ns & Hi). exists i, path, ns. by apply Heq.
  - intros i j path path' s s' h ns ns' Hi Hj. apply Heq in Hi, Hj. eauto.
Qed.

(** Dropping a namespace nobody else holds forgets no value a remaining
    handler has seen. *)
Lemma view_release used m ns regs' ph hs tr :
  scope_inv m -> stopped m = false ->
  (forall k, live_regs regs' k = live_regs (registrations m) k - (if decide (namespaceKey ns = k) then 1 else 0)) ->
  view_ok used regs' ph hs (known m) tr -> map_wf (known m) ->
  view_ok used regs' ph hs (known (releaseNamespace m ns).1) tr.
Proof.
  intros Hs Hst Hl Hok Hwf. destruct (release_known m ns) as [->|[Hc ->]]; [done|].
  pose proof (so_live _ _ _ _ Hs Hst (namespaceKey ns)) as Hcnt.
  assert (live_regs regs' (namespaceKey ns) <= 0) as Hnone by (rewrite Hl, decide_True by done; lia).
  destruct Hok as [H1 H2 H3 H4 H5 H6 H7 H8]. split; try done.
  - intros i path s h n Hi. destruct (H1 i path s h n Hi) as (? & ? & ? & (ref & Href & Hn) & k & Hk & Hseen).
    split_and!; [done..|by eexists|]. exists k. split; [|done].
    rewrite map_filter_get by done. rewrite Hk, decide_True; [done|]. simpl. unfold path_in_key. rewrite Href.
    apply bool_decide_eq_false_2. intros Hkey. rewrite Hn in Hkey.
    assert (reg_key (RParameter true path s h n) = Some (namespaceKey ns)) as Hrk by (simpl; congruence).
    pose proof (live_pos regs' i _ _ Hi Hrk). lia.
  - intros p k. rewrite map_filter_get by done. destruct (map_get p (known m)) eqn:E; [|done].
    case_decide; [|done]. intros [= <-]. by eapply H8.
Qed.

Lemma view_deactivate used regs ph hs ks tr i path s h ns ph' ks' :
  view_ok used regs ph hs ks tr -> regs !! i = Some (RParameter true path s h ns) ->
  (forall q t, q <> path \/ set_delete h (hset hs s) <> [] -> map_get q ph = Some t -> map_get q ph' = Some t) ->
  (forall q t, map_get q ph' = Some t -> map_get q ph = Some t) -> map_wf ph' ->
  (forall q k, q <> path \/ set_delete h (hset hs s) <> [] -> map_get q ks = Some k -> map_get q ks' = Some k) ->
  (forall q k, map_get q ks' = Some k -> map_get q ks = Some k) ->
  view_ok used (<[i := RParameter false path s h ns]> regs) ph' (<[s := set_delete h (hset hs s)]> hs) ks' tr.
Proof.
  intros [H1 H2 H3 H4 H5 H6 H7 H8] Hi Hp1 Hp2 Hwf Hk1 Hk2.
  destruct (H1 i path s h ns Hi) as (Hph & Hin & _). pose proof (H6 _ _ Hph) as Hlt.
  assert (forall j q t g n, <[i := RParameter false path s h ns]> regs !! j = Some (RParameter true q t g n) ->
            j <> i /\ regs !! j = Some (RParameter true q t g n) /\ g <> h) as Hback.
  { intros j q t g n Hj. apply list_lookup_insert_Some in Hj as [(_ & ? & _)|[Hne Hj]]; [done|].
    split_and!; [done|done|]. intros ->. by pose proof (H3 _ _ _ _ _ _ _ _ _ Hi Hj). }
  split; [..|done|].
  - intros j q t g n Hj. destruct (Hback _ _ _ _ _ Hj) as (Hne & Hj' & Hgh).
    destruct (H1 j q t g n Hj') as (Hq & Hg & Hu & Hr & k & Hk & Hseen).
    assert (q <> path \/ set_delete h (hset hs s) <> []) as Hkeep.
    { destruct (decide (q = path)) as [->|]; [right|by left]. rewrite Hph in Hq. injection Hq as <-.
      intros He. assert (g ∈ set_delete h (hset hs s)) as Hg' by (by apply elem_of_set_delete).
      rewrite He in Hg'. by apply elem_of_nil in Hg'. }
    split_and!; [by apply Hp1| |done|done|by exists k; split; [apply Hk1|]].
    rewrite hset_insert by done. case_decide; [subst; by apply elem_of_set_delete|done].
  - intros t g. rewrite hset_insert by done. intros Hg.
    assert (g ∈ hset hs t /\ (t = s -> g <> h)) as [Hg1 Hg2].
    { case_decide; subst; [apply elem_of_set_delete in Hg as [? ?]; by split|by split; [|congruence]]. }
    destruct (H2 t g Hg1) as (j & q & n & Hj). exists j, q, n. rewrite list_lookup_insert_ne; [done|].
    intros <-. rewrite Hi in Hj. injection Hj as <- <- <- <-. by apply Hg2.
  - intros j1 j2 q q' t t' g n n' Hj1 Hj2. apply Hback in Hj1 as (_ & Hj1 & _). apply Hback in Hj2 as (_ & Hj2 & _). eauto.
  - done.
  - intros p q t Hp Hq. apply Hp2 in Hp, Hq. eauto.
  - intros p t Hp. rewrite length_insert. apply Hp2 in Hp. eauto.
  - intros p k Hk. apply Hk2 in Hk. eauto.
Qed.

Lemma view_unregister used m reg :
  wm_inv m -> stopped m = false -> view_at used m -> view_at used (unregister m reg).
Proof.
  intros Hinv Hst [Hwf Hok].
  destruct (registrations m !! reg) as [[[] path s h ns|]|] eqn:Hi; try (unfold unregister; rewrite Hi; done).
  destruct (unregister_shape m reg path s h ns Hi) as (ph & hs & ks & -> & -> & Hcase).
  set (M := set_known (set_handlers m ph _) ks). set (regs' := <[reg := _]> (registrations m)).
  assert (map_wf ks /\ view_ok used regs' ph (<[s := set_delete h (hset (handlerSets m) s)]> (handlerSets m)) ks (trace m))
    as [Hwfk Hv].
  { pose proof (vo_wf _ _ _ _ _ _ Hok) as Hwfp.
    destruct Hcase as [[-> ->]|(He & -> & Hks)].
    - split; [done|]. by apply (view_deactivate used _ (parameterHandlers m) _ (known m)).
    - fold (hset (handlerSets m) s) in He.
      assert (map_wf ks /\ (forall q k, q <> path -> map_get q (known m) = Some k -> map_get q ks = Some k) /\
        (forall q k, map_get q ks = Some k -> map_get q (known m) = Some k)) as (Hw & Ha & Hb).
      { destruct Hks as [[-> _]| ->]; [done|]. split; [by apply map_delete_wf|].
        split; intros q k; rewrite map_get_delete by done; case_decide; congruence. }
      split; [done|]. apply (view_deactivate used _ (parameterHandlers m) _ (known m)); try done.
      + intros q t [Hq|?]; [|done]. rewrite map_get_delete by done. case_decide; congruence.
      + intros q t. rewrite map_get_delete by done. case_decide; congruence.
      + by apply map_delete_wf.
      + intros q k [Hq|?]; [|done]. by apply Ha. }
  destruct (release_restart_shape M ns) as (gen & rst & _ & ->).
  split; simpl.
  - destruct (release_known M ns) as [->|[_ ->]]; [done|by apply map_filter_wf].
  - apply view_release; [apply Hinv|done| |done|done]. intros k. by eapply live_deactivate.
Qed.

Lemma view_watch_stop used m reg :
  wm_inv m -> stopped m = false -> view_at used m -> view_at used (watch_stop m reg).
Proof.
  intros Hinv Hst [Hwf Hok]. unfold watch_stop.
  destruct (registrations m !! reg) as [[|[] id ns]|] eqn:Hi; try done. cbv zeta.
  set (regs' := <[reg := RWatch false id ns]> (registrations m)).
  set (m1 := set_watchers m (map_delete id (watchers m)) (map_delete id (watcherStops m)) (nextWatcherId m)).
  change (set_watchers (set_registrations m regs') _ _ _) with (set_registrations m1 regs').
  rewrite release_registrations. destruct (release_restart_shape m1 ns) as (gen & rst & _ & ->).
  split; simpl.
  - destruct (release_known m1 ns) as [->|[_ ->]]; [done|by apply map_filter_wf].
  - apply view_release; [apply Hinv|done|intros k; by eapply live_deactivate| |done].
    apply (view_regs used (registrations m)); [|done]. intros i path s h n. unfold regs'.
    destruct (decide (i = reg)) as [->|Hne]; [|by rewrite list_lookup_insert_ne by done].
    rewrite list_lookup_insert_eq by (by eapply lookup_lt_Some). by rewrite Hi.
Qed.

Lemma view_watch used m ns cb ab m' r :
  view_at used m -> watch m ns cb ab = Ok (m', r) -> view_at used m'.
Proof.
  intros [Hwf Hok]. unfold watch. destruct (stopped m); [done|]. destruct ab; [by intros [= <- _]|]. cbv zeta.
  intros [= <- _]. set (m1 := set_watchers m _ _ _).
  destruct (retain_start_shape m1 ns) as (gen & sta & rst & es & _ & Hn & ->).
  split; [done|]. simpl. apply view_emit; [done|]. apply (view_regs used (registrations m)); [|done].
  intros i path s h n. split; [|by apply lookup_app_l_Some].
  intros Hi. apply lookup_app_Some in Hi as [Hi|[_ Hi]]; [done|by apply list_lookup_singleton_Some in Hi as [_ ?]].
Qed.

(** The handler is told the current value, or the value it brings becomes
    the known one. *)
Lemma view_first used m path h v0 :
  view_at used m -> h ∉ used -> v0 = initial h ->
  let m1 := match map_get path (known m) with
            | None => set_known m (map_set path {| k_value := v0; k_present := true; k_revision := 0 |} (known m))
            | Some k => emit m [CallHandler h (k_value k) (k_present k)]
            end in
  view_at (h :: used) m1 /\ exists k, map_get path (known m1) = Some k /\ seen initial (trace m1) h = (k_value k, k_present k).
Proof.
  intros [Hwf [H1 H2 H3 H4 H5 H6 H7 H8]] Hh -> . cbv zeta.
  destruct (map_get path (known m)) as [k|] eqn:E; simpl.
  - split; [|exists k; unfold seen; rewrite last_call_app; simpl; by rewrite decide_True].
    split; [done|]. split; try done.
    + intros i q s g ns Hi. destruct (H1 i q s g ns Hi) as (? & ? & Hu & ? & k' & Hk' & Hs). simpl.
      split_and!; [done|done|by right|done|]. exists k'. split; [done|]. unfold seen.
      rewrite last_call_skip; [done|]. intros (v' & p' & Hin). apply list_elem_of_singleton in Hin.
      injection Hin as -> _ _. done.
    + intros g (v' & p' & Hin). apply elem_of_app in Hin as [Hin|Hin]; [right; apply H7; by do 2 eexists|].
      apply list_elem_of_singleton in Hin. injection Hin as -> _ _. left.
  - split.
    + split; [by apply map_set_wf|]. split; simpl; try done.
      * intros i q s g ns Hi. destruct (H1 i q s g ns Hi) as (? & ? & Hu & ? & k' & Hk' & Hs).
        split_and!; [done|done|by right|done|]. exists k'. split; [|done]. rewrite map_get_set_ne; congruence.
      * intros g Hg. right. by apply H7.
      * intros p k. rewrite map_get_set. case_decide; [intros [= <-]; done|apply H8].
    + eexists. rewrite map_get_set_eq. split; [done|]. unfold seen. simpl.
      destruct (last_call h (trace m)) as [x|] eqn:El; [|done]. exfalso. apply Hh, H7.
      unfold last_call in El. clear -El. revert El. generalize (trace m). intros tr.
      assert (forall acc, foldl (tell h) acc tr = Some x -> acc = Some x \/ called tr h) as H.
      { induction tr as [|e tr IH]; intros acc; simpl; [by left|]. intros Hf. destruct (IH _ Hf) as [Ht|(v & p & ?)].
        - destruct e; simpl in Ht; try (by left). case_decide; [|by left]. subst. right. do 2 eexists. left.
        - right. exists v, p. by right. }
      intros Hf. by destruct (H None Hf).
Qed.

Lemma view_register used m ref v0 h :
  view_at used m -> h ∉ used -> v0 = initial h -> refOf (displayPath ref) = Some ref ->
  view_at (h :: used) (registerParameter m ref v0 h).1.
Proof.
  intros Hm Hh Hv Href. unfold registerParameter. set (path := displayPath ref) in *.
  destruct (view_first used m path h v0 Hm Hh Hv) as [[Hwf1 Hok1] Hk1].
  assert (forall i q s g ns, registrations m !! i = Some (RParameter true q s g ns) -> g <> h) as Hfresh.
  { intros i q s g ns Hi ->. apply Hh. by apply (vo_reg _ _ _ _ _ _ (proj2 Hm) i q s h ns Hi). }
  set (m1 := match map_get path (known m) with Some k => _ | None => _ end) in *.
  assert (registrations m1 = registrations m) as Er by (unfold m1; by destruct (map_get path (known m))).
  rewrite <- Er in Hfresh. clearbody m1. clear Er.
  set (ms := match map_get path (parameterHandlers m1) with Some s => (m1, s) | None => _ end).
  assert (exists ph hs s, ms = (set_handlers m1 ph hs, s) /\ map_get path ph = Some s /\ map_wf ph /\
    (s < length hs)%nat /\ (length (handlerSets m1) <= length hs)%nat /\ (forall t, hset hs t = hset (handlerSets m1) t) /\
    (forall q t, map_get q (parameterHandlers m1) = Some t -> map_get q ph = Some t) /\
    (forall q t, map_get q ph = Some t -> map_get q (parameterHandlers m1) = Some t \/ q = path /\ t = length (handlerSets m1)))
    as (ph & hs & s & Hms & Hps & Hwfp & Hs & Hlen & Hhs & Hup & Hdown).
  { pose proof (vo_wf _ _ _ _ _ _ Hok1) as Hwfp. unfold ms. destruct (map_get path (parameterHandlers m1)) as [s|] eqn:E.
    - exists (parameterHandlers m1), (handlerSets m1), s. split_and!; try done; [by destruct m1| |by left].
      by eapply (vo_lt _ _ _ _ _ _ Hok1).
    - do 3 eexists. split; [reflexivity|]. split_and!; [by rewrite map_get_set_eq|by apply map_set_wf|rewrite length_app; simpl; lia|rewrite length_app; lia|..].
      + intros t. unfold hset. destruct (decide (t < length (handlerSets m1))%nat) as [Hlt|Hge].
        * by rewrite lookup_app_l by done.
        * rewrite (lookup_ge_None_2 (handlerSets m1)) by lia. rewrite lookup_app_r by lia.
          destruct (t - length (handlerSets m1))%nat; done.
      + intros q t Hq. rewrite map_get_set_ne by congruence. done.
      + intros q t. rewrite map_get_set. case_decide; [intros [= <-]; right; by subst|by left]. }
  rewrite Hms. clear Hms ms. set (m3 := set_handlers (set_handlers m1 ph hs) _ _).
  destruct (retain_start_shape m3 (namespace ref)) as (gen & sta & rst & es & _ & Hn & Hsh). simpl. rewrite Hsh.
  split; [done|]. simpl. apply view_emit; [done|]. clear Hsh m3.
  change (handler_set (set_handlers m1 ph hs) s) with (hset hs s).
  destruct Hok1 as [H1 H2 H3 H4 H5 H6 H7 H8].
  assert (forall i q t g n, (registrations m1 ++ [RParameter true path s h (namespace ref)]) !! i = Some (RParameter true q t g n) ->
    registrations m1 !! i = Some (RParameter true q t g n) \/
    i = length (registrations m1) /\ q = path /\ t = s /\ g = h /\ n = namespace ref) as Hback.
  { intros i q t g n Hi. apply lookup_app_Some in Hi as [Hi|[Hge Hi]]; [by left|right].
    apply list_lookup_singleton_Some in Hi as [Hi [= <- <- <- <-]]. split_and!; try done. lia. }
  assert (forall t, hset (<[s := set_add h (hset hs s)]> hs) t = if decide (s = t) then set_add h (hset hs s) else hset hs t) as Hset
    by (intros t; by apply hset_insert).
  split; try done.
  - intros i q t g n Hi. rewrite Hset. destruct (Hback _ _ _ _ _ Hi) as [Hi'|(_ & -> & -> & -> & ->)].
    + destruct (H1 i q t g n Hi') as (Hq & Hg & Hu & Hr & Hk). split_and!; [by apply Hup| |done|done|done].
      case_decide; [subst; apply elem_of_set_add; right|]; by rewrite Hhs.
    + rewrite decide_True by done. split_and!; [done|apply elem_of_set_add; by left|left|by exists ref|done].
  - intros t g. rewrite Hset. intros Hg.
    assert (g ∈ hset (handlerSets m1) t \/ t = s /\ g = h) as [Hg'|[-> ->]].
    { case_decide; [subst; apply elem_of_set_add in Hg as [->|Hg]; [by right|]|]; left; by rewrite <- Hhs. }
    + destruct (H2 t g Hg') as (i & q & n & Hi). exists i, q, n. by apply lookup_app_l_Some.
    + exists (length (registrations m1)), path, (namespace ref). by rewrite lookup_app_r, Nat.sub_diag by done.
  - intros i j q q' t t' g n n' Hi Hj.
    destruct (Hback _ _ _ _ _ Hi) as [Hi'|(-> & -> & -> & -> & ->)], (Hback _ _ _ _ _ Hj) as [Hj'|(-> & -> & -> & Hg & ->)].
    + by eapply H3.
    + subst g. by apply Hfresh in Hi'.
    + by apply Hfresh in Hj'.
    + done.
  - intros p q t Hp Hq. destruct (Hdown _ _ Hp) as [Hp'|[-> ->]], (Hdown _ _ Hq) as [Hq'|[-> Ht]]; [by eapply H5|..|done].
    + subst t. apply H6 in Hp'. lia.
    + apply H6 in Hq'. lia.
  - intros p t Hp. rewrite length_insert. destruct (Hdown _ _ Hp) as [Hp'|[-> ->]].
    + apply H6 in Hp'. lia.
    + rewrite Hps in Hp. injection Hp as ->. done.
Qed.
End view.

Definition registered (ops : list wop) : list fn :=
  flat_map (fun o => match o with WRegister _ _ h => [h] | _ => [] end) ops.

(** A manager that has stopped stays stopped. *)
Lemma stopped_watch_stop m reg : stopped (watch_stop m reg) = stopped m.
Proof.
  unfold watch_stop. destruct (registrations m !! reg) as [[|[] id ns]|]; try done. cbv zeta.
  set (m1 := set_watchers _ _ _ _). by destruct (release_restart_shape m1 ns) as (gen & rst & _ & ->).
Qed.

Lemma stop_begin_stopped m : stopped (stop_begin m) = true.
Proof.
  unfold stop_begin. destruct (stopped m) eqn:E; [done|]. cbv zeta. set (m1 := set_status _ _ _ _ _ _ _).
  assert (stopped m1 = true) as H1 by done. revert H1. generalize (map snd (watcherStops m1)). intros l.
  clearbody m1. revert m1. induction l as [|x l IH]; intros m1 H1; simpl; [done|].
  apply IH. by rewrite stopped_watch_stop.
Qed.

Lemma step_stopped sort y o :
  sys_inv y -> stopped (mgr y) = true -> stopped (mgr (wm_step sort y o)) = true.
Proof.
  intros Hy E. pose proof (sy_mgr y Hy) as Hm. destruct o; simpl.
  - unfold registerParameter. set (m1 := match map_get _ (known _) with Some _ => _ | None => _ end).
    assert (stopped m1 = true) as H1 by (unfold m1; by destruct (map_get _ _)). clearbody m1.
    set (ms := match map_get _ (parameterHandlers m1) with Some _ => _ | None => _ end).
    assert (stopped ms.1 = true) as H2 by (unfold ms; by destruct (map_get _ _)). clearbody ms. destruct ms as [m2 s].
    set (m3 := set_handlers m2 _ _). destruct (retain_start_shape m3 (namespace ref)) as (? & ? & ? & ? & _ & _ & Hsh).
    simpl. rewrite Hsh. simpl in *. congruence.
  - destruct (registrations (mgr y) !! reg) as [[[] path s h ns|]|] eqn:Hi; try (unfold unregister; rewrite Hi; congruence).
    destruct (unregister_shape _ reg path s h ns Hi) as (ph & hs & ks & -> & _). set (M := set_known _ _).
    destruct (release_restart_shape M ns) as (? & ? & _ & ->). simpl. congruence.
  - unfold watch. rewrite E. congruence.
  - rewrite stopped_watch_stop. congruence.
  - by rewrite stop_begin_stopped.
  - rewrite E. simpl. congruence.
  - unfold session_open. case_bool_decide; simpl; congruence.
  - congruence.
  - destruct (sess y) as [s|]; [|congruence]. unfold session_event. destruct (negb _); [simpl; congruence|]. simpl.
    assert (forall m r, stopped (advanceRevision m r) = stopped m) as Ha by (intros; by rewrite advance_max).
    destruct e as [ps r|c r|c r|r|]; simpl; rewrite ?Ha; try congruence.
    + pose proof (values_only_fields _ _ (applySnapshot_values (mgr y) ps r)) as (_&_&_&_&_&_&_&_&_&_& Es & _).
      destruct (if ss_full s then _ else _); simpl; congruence.
    + pose proof (values_only_fields _ _ (applyChange_values (mgr y) c r)) as (_&_&_&_&_&_&_&_&_&_& Es & _).
      destruct (shouldApply _ _); congruence.
    + pose proof (values_only_fields _ _ (applySecretChange_values (mgr y) c r)) as (_&_&_&_&_&_&_&_&_&_& Es & _).
      destruct (shouldApply _ _); congruence.
  - unfold session_failed. destruct (restartRequested _); simpl; congruence.
  - unfold run_idle. case_bool_decide; simpl; congruence.
  - congruence.
  - destruct (pass y) as [r|] eqn:Er; [|congruence]. destruct (reconcile_page _ _ _ _) as [[m' r']|] eqn:Ep; [|congruence].
    unfold reconcile_page in Ep. destruct (_ || _); [done|]. injection Ep as <- _. simpl.
    pose proof (values_only_fields _ _ (listed_values (mgr y) (rc_revision r) items)) as (_&_&_&_&_&_&_&_&_&_& -> & _). congruence.
  - destruct (pass y); simpl; congruence.
  - destruct (pass y) as [r|] eqn:Er; [|congruence].
    pose proof (values_only_fields _ _ (proj2 (finish_inv _ _ Hm (proj2 (sy_pass y Hy r Er))))) as (_&_&_&_&_&_&_&_&_&_& Es & _).
    destruct (reconcile_finish (mgr y) r). simpl in *. congruence.
  - unfold reconcile_idle. case_bool_decide; simpl; congruence.
Qed.

Lemma step_view initial sort y o used :
  sys_inv y -> (stopped (mgr y) = false -> view_at initial used (mgr y)) ->
  (forall ref v h, o = WRegister ref v h -> v = initial h /\ refOf (displayPath ref) = Some ref /\ h ∉ used) ->
  stopped (mgr (wm_step sort y o)) = false ->
  stopped (mgr y) = false /\ view_at initial (registered [o] ++ used) (mgr (wm_step sort y o)).
Proof.
  intros Hy Hv Ho Hst. pose proof (sy_mgr y Hy) as Hm.
  assert (stopped (mgr y) = false) as Hst0.
  { destruct (stopped (mgr y)) eqn:E; [|done]. by rewrite step_stopped in Hst. }
  split; [done|]. specialize (Hv Hst0). destruct o; simpl in *.
  - destruct (Ho _ _ _ eq_refl) as (-> & Hr & Hn). by apply view_register.
  - by apply view_unregister.
  - destruct (watch (mgr y) ns cb ab) as [[m' r]|] eqn:E; [|done]. by eapply view_watch.
  - by apply view_watch_stop.
  - by rewrite stop_begin_stopped in Hst.
  - by rewrite Hst0.
  - unfold session_open. case_bool_decide; [done|]. apply view_at_emit; [by repeat constructor|done].
  - done.
  - destruct (sess y) as [s|]; [|done]. unfold session_event. destruct (negb _); [done|]. by apply view_at_event.
  - unfold session_failed. by destruct (restartRequested _).
  - unfold run_idle. by case_bool_decide.
  - done.
  - destruct (pass y) as [r|]; [|done]. destruct (reconcile_page _ _ _ _) as [[m' r']|] eqn:Ep; [|done]. by eapply view_at_page.
  - by destruct (pass y).
  - destruct (pass y) as [r|]; [|done]. pose proof (view_at_finish initial used (mgr y) r Hv).
    by destruct (reconcile_finish (mgr y) r).
  - unfold reconcile_idle. by case_bool_decide.
Qed.

Lemma run_view initial sort ops :
  (forall ref v h, WRegister ref v h ∈ ops -> v = initial h /\ valid_ref ref) -> NoDup (registered ops) ->
  stopped (mgr (wm_run sort ops)) = false ->
  exists used, (forall h, h ∈ used -> h ∈ registered ops) /\ view_at initial used (mgr (wm_run sort ops)).
Proof.
  induction ops as [|o ops IH] using rev_ind; intros Hops Hnd Hst.
  { exists []. split; [done|]. split; [constructor|]. split; simpl; try done; try (by intros ? ? ?%elem_of_nil).
    - constructor.
    - intros h (v & p & Hin). by apply elem_of_nil in Hin. }
  unfold registered in Hnd. rewrite flat_map_app in Hnd. apply NoDup_app in Hnd as (Hnd & Hdisj & Hnd2).
  unfold wm_run in *. rewrite foldl_snoc in *. pose proof (run_inv sort ops) as Hinv. unfold wm_run in Hinv.
  set (y := foldl (wm_step sort) init_system ops) in *.
  assert (stopped (mgr y) = false) as Hst0.
  { destruct (stopped (mgr y)) eqn:E; [|done]. by rewrite step_stopped in Hst. }
  destruct IH as (used & Hu & Hv); [|done|done|].
  { intros ref v h Hin. apply Hops. set_solver. }
  destruct (step_view initial sort y o used Hinv (fun _ => Hv)) as [_ Hv']; [|done|].
  { intros ref v h ->. destruct (Hops ref v h) as [-> Hr]; [set_solver|]. split_and!; [done|by apply refOf_Some|].
    intros Hin. apply Hu in Hin. apply (Hdisj h Hin). simpl. left. }
  exists (registered [o] ++ used). split; [|done]. intros h Hh. unfold registered. rewrite flat_map_app.
  apply elem_of_app. apply elem_of_app in Hh as [Hh|Hh]; [by right|left; by apply Hu].
Qed.

(** C2: a parameter handler never falls behind. In every interleaving, as
    long as the manager runs, the last value delivered to each handler that is
    still registered (or the value it registered with, if it was never called)
    is the value the manager knows for its parameter, presence included.
    Resource references are valid and each registration brings its own handler
    function. *)
Theorem handlers_see_current sort_namespaces ops initial :
  (forall ref v h, WRegister ref v h ∈ ops -> v = initial h /\ valid_ref ref) ->
  NoDup (registered ops) ->
  let m := mgr (wm_run sort_namespaces ops) in
  stopped m = false ->
  forall i path s h ns, registrations m !! i = Some (RParameter true path s h ns) ->
  exists k, map_get path (known m) = Some k /\ seen initial (trace m) h = (k_value k, k_present k).
Proof.
  intros Hops Hnd m Hst i path s h ns Hi.
  destruct (run_view initial sort_namespaces ops Hops Hnd Hst) as (used & _ & _ & Hok).
  by destruct (vo_reg _ _ _ _ _ _ _ Hok i path s h ns Hi) as (_ & _ & _ & _ & Hk).
Qed.

(** ** Back-off *)

(** The reconnect delay is between 10 ms and one minute, never exceeds a
    ceiling that doubles with each failed attempt from one second, and the
    ceiling saturates at one minute. *)
Theorem backoff_bounds draw attempt :
  (forall c, 0 < c -> 0 <= draw c < c) ->
  10 <= fullJitterBackoff draw attempt <= backoff_ceiling attempt /\
  backoff_ceiling attempt <= 60000 /\
  (0 <= attempt < 6 -> backoff_ceiling attempt = 1000 * 2 ^ attempt) /\
  (6 <= attempt -> backoff_ceiling attempt = 60000).
Proof.
  intros Hd. unfold fullJitterBackoff.
  assert (1 <= 2 ^ Z.min (Z.max 0 attempt) 6) as H1 by (apply (Z.pow_le_mono_r 2 0); lia).
  assert (1000 <= backoff_ceiling attempt <= 60000) as Hc by (unfold backoff_ceiling; lia).
  pose proof (Hd (backoff_ceiling attempt) ltac:(lia)) as H.
  split_and!; try lia.
  - intros Ha. unfold backoff_ceiling. rewrite Z.max_r, (Z.min_l attempt) by lia. apply Z.min_r.
    assert (2 ^ attempt <= 2 ^ 5) by (apply Z.pow_le_mono_r; lia). lia.
  - intros Ha. unfold backoff_ceiling. rewrite Z.max_r, (Z.min_r attempt) by lia. done.
Qed.

(** ** Witnesses *)

Definition demo_ns : NamespaceRef := {| env := js "prod"; app := js "web" |}.
Definition demo_ref (k : string) : ResourceRef := {| namespace := demo_ns; key := js k |}.
Definition demo_param (k v : string) : WireParameter :=
  {| wp_ref := Some (demo_ref k); wp_value := js v; wp_version := 1 |}.
Definition demo_change (k t v : string) : WireChange :=
  {| wc_ref := Some (demo_ref k); wc_type := js t; wc_value := js v; wc_version := 2 |}.

(** A registration, a snapshot, a pass that starts, and a change that
    overtakes it. *)
Definition demo_ops : list wop :=
  [WRegister (demo_ref "rate") (js "1") 0%nat; WWatch demo_ns 7%nat false; WOpen; WConnected;
   WEvent (ESnapshot [demo_param "rate" "2"; demo_param "size" "9"] 5); WReconcile;
   WEvent (EChange (demo_change "rate" "put" "3") 6)].

Definition demo_pass : Reconcile :=
  {| rc_generation := 1; rc_namespaces := [demo_ns];
     rc_knownPaths := [displayPath (demo_ref "rate"); displayPath (demo_ref "size")];
     rc_revision := 5; rc_present := []; rc_listed := [] |}.

Lemma stale_pass_writes_nothing_witness :
  let m := mgr (wm_run id demo_ops) in
  reconcile_finish m demo_pass = (m, false) /\ current m (displayPath (demo_ref "rate")) = Some (js "3").
Proof.
  cbv zeta. split; [|by vm_compute].
  refine (proj2 (stale_pass_writes_nothing id demo_ops demo_pass _ _)); [by vm_compute|left].
  vm_compute. discriminate.
Defined.

Lemma snapshot_exact_witness :
  let m := mgr (wm_run id demo_ops) in
  let m' := applySnapshot m [demo_param "rate" "4"] 9 in
  current m' (displayPath (demo_ref "rate")) = Some (js "4") /\ current m' (displayPath (demo_ref "size")) = None.
Proof.
  cbv zeta. split.
  - refine (proj1 (snapshot_exact id demo_ops [demo_param "rate" "4"] 9 (displayPath (demo_ref "rate")) _) _); by vm_compute.
  - refine (proj1 (snapshot_exact id demo_ops [demo_param "rate" "4"] 9 (displayPath (demo_ref "size")) _) _); by vm_compute.
Defined.

Lemma demo_valid : valid_ref (demo_ref "rate").
Proof. apply (refOf_Some (displayPath (demo_ref "rate"))). by vm_compute. Qed.

Lemma handlers_see_current_witness :
  let m := mgr (wm_run id demo_ops) in
  exists k, map_get (displayPath (demo_ref "rate")) (known m) = Some k /\
            seen (fun _ => js "1") (trace m) 0%nat = (k_value k, k_present k).
Proof.
  refine (handlers_see_current id demo_ops (fun _ => js "1") _ _ _ 0%nat (displayPath (demo_ref "rate")) 0%nat 0%nat demo_ns _).
  - intros ref v h Hin. unfold demo_ops in Hin. repeat (apply elem_of_cons in Hin as [Hin|Hin]; [try discriminate Hin|]).
    + injection Hin as -> -> ->. split; [done|apply demo_valid].
    + by apply elem_of_nil in Hin.
  - simpl. apply NoDup_singleton.
  - by vm_compute.
  - by vm_compute.
Defined.

Lemma backoff_bounds_witness : 10 <= fullJitterBackoff (fun c => c / 2) 3 <= backoff_ceiling 3.
Proof.
  refine (proj1 (backoff_bounds (fun c => c / 2) 3 _)). intros c Hc.
  split; [apply Z.div_pos; lia|apply Z.div_lt; lia].
Defined.
