(* ===== verification/Release.v ===== *)
(** * Release: the data of configuration releases.

    [sdk/typescript/src/releases/types.ts] (states, rejection categories,
    entry metadata, manifests and snapshots with their redacted renderings),
    [releases/digest.ts] (the immutable projection of a release and its
    digest) and [releases/verify.ts] (the validated verdicts of a defaults
    comparison). SHA-256 and the generated protobuf encoder are parameters. *)
From stdpp Require Import prelude gmap strings.
From Stdlib Require Import ZArith Lia Sorted.
From S2P Require Import Prelude JsString JsMap Unicode Decimal Errors Refs DefaultsArtifact.

(** ** Wire messages *)

(** [generated/kms.ts]'s [ResourceRef]: the namespace is optional there. *)
Record WireRef := { wr_namespace : option NamespaceRef; wr_key : jstr }.

Record ReleaseEntry := {
  e_alias : jstr;
  e_kind : jstr;
  e_ref : option WireRef;
  e_version : Z;
  e_contentType : jstr;
  e_metadataJson : jstr;
  e_parameterDigest : jstr
}.

Record ConfigurationRelease := {
  r_namespace : option NamespaceRef;
  r_name : jstr;
  r_version : Z;
  r_schemaVersion : Z;
  r_entries : list ReleaseEntry;
  r_digest : jstr;
  r_metadataJson : jstr;
  r_createdBy : jstr;
  r_createdAtUnixMs : Z
}.

#[global] Instance NamespaceRef_eq : EqDecision NamespaceRef.
Proof. solve_decision. Defined.
#[global] Instance WireRef_eq : EqDecision WireRef.
Proof. solve_decision. Defined.
#[global] Instance ReleaseEntry_eq : EqDecision ReleaseEntry.
Proof. solve_decision. Defined.
#[global] Instance ConfigurationRelease_eq : EqDecision ConfigurationRelease.
Proof. solve_decision. Defined.

(** ** States and categories *)

Inductive ReleaseState := received | prepared_state | applied_state | rejected_state.
Inductive ReleaseRejectionCategory :=
| resolution_failed | binding_key_unavailable | version_mismatch | digest_mismatch | prepare_failed
| config_contract_mismatch | config_decode_failed | config_validation_failed | default_mismatch
| restart_required | superseded | active_check_failed | internal_category.

#[global] Instance ReleaseState_eq : EqDecision ReleaseState.
Proof. solve_decision. Defined.
#[global] Instance ReleaseRejectionCategory_eq : EqDecision ReleaseRejectionCategory.
Proof. solve_decision. Defined.

Definition state_text (s : ReleaseState) : jstr :=
  match s with
  | received => js "received" | prepared_state => js "prepared"
  | applied_state => js "applied" | rejected_state => js "rejected"
  end.

Definition RELEASE_STATES : list ReleaseState := [received; prepared_state; applied_state; rejected_state].

Definition category_text (c : ReleaseRejectionCategory) : jstr :=
  match c with
  | resolution_failed => js "resolution_failed"
  | binding_key_unavailable => js "binding_key_unavailable"
  | version_mismatch => js "version_mismatch"
  | digest_mismatch => js "digest_mismatch"
  | prepare_failed => js "prepare_failed"
  | config_contract_mismatch => js "config_contract_mismatch"
  | config_decode_failed => js "config_decode_failed"
  | config_validation_failed => js "config_validation_failed"
  | default_mismatch => js "default_mismatch"
  | restart_required => js "restart_required"
  | superseded => js "superseded"
  | active_check_failed => js "active_check_failed"
  | internal_category => js "internal"
  end.

Definition RELEASE_REJECTION_CATEGORIES : list ReleaseRejectionCategory :=
  [resolution_failed; binding_key_unavailable; version_mismatch; digest_mismatch; prepare_failed;
   config_contract_mismatch; config_decode_failed; config_validation_failed; default_mismatch;
   restart_required; superseded; active_check_failed; internal_category].

(** [isReleaseState] of [loader.ts], with the state it narrows to. *)
Definition isReleaseState (text : jstr) : option ReleaseState :=
  snd <$> list_find (fun s => state_text s = text) RELEASE_STATES.

(** [classifiedReleaseCategory] on what an error carries under
    [releaseRejectionCategory]: [None] when it is no object, has no such
    property, or reading it throws. *)
Definition classifiedReleaseCategory (property : option jstr) : option ReleaseRejectionCategory :=
  match property with
  | Some text => snd <$> list_find (fun c => category_text c = text) RELEASE_REJECTION_CATEGORIES
  | None => None
  end.

(** [ClassifiedReleaseError]: what [classifiedReleaseCategory] finds in it. *)
Definition ClassifiedReleaseError (c : ReleaseRejectionCategory) : option jstr := Some (category_text c).

(** [ReleaseCandidateError]'s message. *)
Definition ReleaseCandidateError (c : ReleaseRejectionCategory) : jstr :=
  js "KMS configuration release candidate rejected (" ++ category_text c ++ js ")".

(** ** Entry metadata, manifests, snapshots *)

Inductive ReleaseEntryKind := kind_parameter | kind_secret.
#[global] Instance ReleaseEntryKind_eq : EqDecision ReleaseEntryKind.
Proof. solve_decision. Defined.

Definition entryKind (text : jstr) : option ReleaseEntryKind :=
  if bool_decide (text = js "parameter") then Some kind_parameter
  else if bool_decide (text = js "secret") then Some kind_secret else None.

Record ReleaseEntryMetadata := {
  m_alias : jstr;
  m_kind : ReleaseEntryKind;
  m_path : jstr;
  m_version : Z;
  m_contentType : jstr;
  m_metadataJson : jstr;
  m_parameterDigest : jstr
}.
#[global] Instance ReleaseEntryMetadata_eq : EqDecision ReleaseEntryMetadata.
Proof. solve_decision. Defined.

Record ReleaseIdentity := {
  i_namespace : jstr;
  i_name : jstr;
  i_version : Z;
  i_activationRevision : Z;
  i_targetRevision : Z;
  i_schemaVersion : Z;
  i_digest : jstr;
  i_metadataJson : jstr;
  i_entries : list (jstr * ReleaseEntryMetadata)
}.

(** The [ReleaseIdentity] constructor: its checks on the versions. *)
Definition new_ReleaseIdentity (i : ReleaseIdentity) : option ReleaseIdentity :=
  if is_uint64 (i_version i) && is_uint64 (i_activationRevision i) && is_uint64 (i_schemaVersion i)
  then Some i else None.

Record ReleaseParameter := { rp_value : jstr; rp_entry : ReleaseEntryMetadata }.
Record ReleaseSecret := { rs_value : list Z; rs_entry : ReleaseEntryMetadata }.

Record ReleaseSnapshot := {
  s_identity : ReleaseIdentity;
  s_parameters : list (jstr * ReleaseParameter);
  s_secrets : list (jstr * ReleaseSecret)
}.

Definition REDACTED : jstr := js "[REDACTED]".

(** Every rendering of a secret: [toString], [toJSON], [toPrimitive] and the
    inspector all give the marker. *)
Definition render_secret (s : ReleaseSecret) : jstr := REDACTED.

Definition safeString (type : jstr) (i : ReleaseIdentity) : jstr :=
  type ++ js "{" ++ i_namespace i ++ js "/" ++ i_name i ++ js " version=" ++ dec (i_version i) ++
  js " revision=" ++ dec (i_activationRevision i) ++ js " schemaVersion=" ++ dec (i_schemaVersion i) ++
  js " digest=" ++ i_digest i ++ js " entries=" ++ dec (Z.of_nat (length (i_entries i))) ++ js "}".

Definition snapshot_string (s : ReleaseSnapshot) : jstr := safeString (js "ReleaseSnapshot") (s_identity s).
Definition manifest_string (i : ReleaseIdentity) : jstr := safeString (js "ReleaseManifest") i.

Record SafeReleaseJson := {
  j_namespace : jstr;
  j_name : jstr;
  j_version : jstr;
  j_activationRevision : jstr;
  j_schemaVersion : jstr;
  j_digest : jstr;
  j_entries : list (jstr * ReleaseEntryMetadata)
}.

Definition safeJson (i : ReleaseIdentity) : SafeReleaseJson :=
  {| j_namespace := i_namespace i; j_name := i_name i; j_version := dec (i_version i);
     j_activationRevision := dec (i_activationRevision i); j_schemaVersion := dec (i_schemaVersion i);
     j_digest := i_digest i; j_entries := i_entries i |}.

Definition snapshot_json (s : ReleaseSnapshot) : SafeReleaseJson := safeJson (s_identity s).

(** ** Hexadecimal *)

Definition hex_encode (b : list Z) : jstr := flat_map (fun x => [hex_digit (x / 16); hex_digit (x mod 16)]) b.

Definition hex_val (c : Z) : option Z :=
  if (48 <=? c) && (c <=? 57) then Some (c - 48)
  else if (97 <=? c) && (c <=? 102) then Some (c - 87)
  else if (65 <=? c) && (c <=? 70) then Some (c - 55) else None.

(** [Buffer.from(s, "hex")]: decoding stops at the first pair that is not
    two hexadecimal digits. *)
Fixpoint hex_decode (s : jstr) : list Z :=
  match s with
  | a :: b :: s => match hex_val a, hex_val b with
                   | Some x, Some y => x * 16 + y :: hex_decode s
                   | _, _ => []
                   end
  | _ => []
  end.

(** [/^[0-9a-f]{64}$/iu] *)
Definition is_sha256_text (s : jstr) : bool :=
  bool_decide (length s = 64%nat) && forallb (fun c => bool_decide (is_Some (hex_val c))) s.

(** [String.prototype.toLowerCase] on ASCII letters, which is all the
    digests compared with it contain. *)
Definition lower (c : Z) : Z := if (65 <=? c) && (c <=? 90) then c + 32 else c.
Definition toLowerCase (s : jstr) : jstr := map lower s.

(** ** The digest of a release *)

Section digest.
(** [node:crypto]'s SHA-256, and [ConfigurationRelease.encode] of the
    generated protobuf code. *)
Context (sha256 : list Z -> list Z) (encode : ConfigurationRelease -> list Z).

Definition sha256Hex (value : list Z) : jstr := hex_encode (sha256 value).

Definition projectEntry (entry : ReleaseEntry) : res jstr ReleaseEntry :=
  match e_ref entry with
  | Some {| wr_namespace := Some ns; wr_key := k |} =>
      Ok {| e_alias := e_alias entry; e_kind := e_kind entry;
            e_ref := Some {| wr_namespace := Some {| env := env ns; app := app ns |}; wr_key := k |};
            e_version := e_version entry; e_contentType := e_contentType entry;
            e_metadataJson := e_metadataJson entry; e_parameterDigest := e_parameterDigest entry |}
  | _ => Throw (js "release entry " ++ json_quote (e_alias entry) ++ js " has no resource namespace")
  end.

Definition compare_aliases (l r : ReleaseEntry) : comparison := utf8_compare (e_alias l) (e_alias r).

Definition release_projection (release : ConfigurationRelease) : res jstr ConfigurationRelease :=
  match r_namespace release with
  | None => Throw (js "release namespace is required")
  | Some ns =>
      let entries := js_sort compare_aliases (r_entries release) in
      let* projected := res_map projectEntry entries in
      Ok {| r_namespace := Some {| env := env ns; app := app ns |}; r_name := r_name release; r_version := 0;
            r_schemaVersion := r_schemaVersion release; r_entries := projected; r_digest := [];
            r_metadataJson := r_metadataJson release; r_createdBy := []; r_createdAtUnixMs := 0 |}
  end.

Definition deterministicReleaseDigest (release : ConfigurationRelease) : res jstr jstr :=
  let* projection := release_projection release in Ok (sha256Hex (encode projection)).

Definition decodeSha256 (value : jstr) : option (list Z) :=
  if is_sha256_text value then Some (hex_decode value) else None.

(** [timingSafeEqual] throws when the lengths differ. *)
Definition releaseDigestMatches (release : ConfigurationRelease) : res jstr bool :=
  match decodeSha256 (r_digest release) with
  | None => Ok false
  | Some claimed =>
      let* text := deterministicReleaseDigest release in
      let calculated := hex_decode text in
      if bool_decide (length claimed = length calculated) then Ok (bool_decide (claimed = calculated))
      else Throw (js "Input buffers must have the same byte length")
  end.
End digest.

(** ** Verification verdicts *)

Inductive VerifyVerdict :=
| v_match | v_differs | v_missing_in_release | v_unknown_alias | v_secret_alias | v_unsupported_content_type.
#[global] Instance VerifyVerdict_eq : EqDecision VerifyVerdict.
Proof. solve_decision. Defined.

Definition VERIFY_VERDICTS : list VerifyVerdict :=
  [v_match; v_differs; v_missing_in_release; v_unknown_alias; v_secret_alias; v_unsupported_content_type].

Definition verdict_text (v : VerifyVerdict) : jstr :=
  match v with
  | v_match => js "match" | v_differs => js "differs" | v_missing_in_release => js "missing_in_release"
  | v_unknown_alias => js "unknown_alias" | v_secret_alias => js "secret_alias"
  | v_unsupported_content_type => js "unsupported_content_type"
  end.

Definition isVerifyVerdict (text : jstr) : option VerifyVerdict :=
  snd <$> list_find (fun v => verdict_text v = text) VERIFY_VERDICTS.

Definition validLowerHex64 (value : jstr) : bool := schema_pattern value.

Record VerifyResponse := {
  vr_name : jstr;
  vr_version : Z;
  vr_schemaVersion : Z;
  vr_activationRevision : Z;
  vr_entries : list (jstr * jstr);
  vr_count : VerifyVerdict -> Z;
  vr_unverifiedCount : Z;
  vr_schemaMatches : bool
}.

Record VerifyResult := {
  vd_releaseName : jstr;
  vd_releaseVersion : Z;
  vd_schemaVersion : Z;
  vd_activationRevision : Z;
  vd_schemaMatches : bool;
  vd_entries : list (jstr * VerifyVerdict);
  vd_count : VerifyVerdict -> Z;
  vd_unverifiedCount : Z
}.

(** The counts of the wire are integers here; [validCount] is their sign. *)
Definition validCount (value : Z) : bool := 0 <=? value.

Fixpoint verdict_entries (requested seen : list jstr) (entries : list (jstr * jstr))
  : res jstr (list (jstr * VerifyVerdict)) :=
  match entries with
  | [] => Ok []
  | (alias, text) :: entries =>
      if negb (set_has alias requested) || set_has alias seen
      then Throw (js "verify response names an unknown or duplicated alias")
      else match isVerifyVerdict text with
      | None => Throw (js "verify response entry has an invalid verdict")
      | Some v =>
          let* rest := verdict_entries requested (set_add alias seen) entries in
          Ok ((alias, v) :: rest)
      end
  end.

Definition tally (entries : list (jstr * VerifyVerdict)) (v : VerifyVerdict) : Z :=
  Z.of_nat (length (filter (fun e => e.2 = v) entries)).

Definition verifyResultFromWire (response : VerifyResponse) (requested : list jstr) : res jstr VerifyResult :=
  if negb (bool_decide (length (vr_entries response) = length requested)) then
    Throw (js "verify response has " ++ dec (Z.of_nat (length (vr_entries response))) ++ js " verdicts for "
           ++ dec (Z.of_nat (length requested)) ++ js " entries")
  else
    let* entries := verdict_entries requested [] (vr_entries response) in
    match list_find (fun v => validCount (vr_count response v) = false \/ vr_count response v <> tally entries v)
            VERIFY_VERDICTS with
    | Some (_, v) => Throw (js "verify response " ++ verdict_text v ++ js " count disagrees with its verdicts")
    | None =>
        if negb (validCount (vr_unverifiedCount response)) then Throw (js "verify response unverified count is invalid")
        else Ok {| vd_releaseName := vr_name response; vd_releaseVersion := vr_version response;
                   vd_schemaVersion := vr_schemaVersion response;
                   vd_activationRevision := vr_activationRevision response;
                   vd_schemaMatches := vr_schemaMatches response; vd_entries := entries;
                   vd_count := vr_count response; vd_unverifiedCount := vr_unverifiedCount response |}
    end.

Definition passed (r : VerifyResult) : bool :=
  vd_schemaMatches r && forallb (fun e => bool_decide (e.2 = v_match)) (vd_entries r).

(** ** The digest covers the projection, in any order of entries *)

Lemma sorted_entries_eq r1 r2 :
  r_entries r1 ≡ₚ r_entries r2 -> NoDup (e_alias <$> r_entries r1) ->
  Forall (fun e => wf_text (e_alias e)) (r_entries r1) ->
  js_sort compare_aliases (r_entries r1) = js_sort compare_aliases (r_entries r2).
Proof.
  intros HP Hnd Hwf. apply js_sort_unique; [| | |done].
  - intros x y. apply utf8_compare_flip.
  - intros x y z. apply utf8_compare_trans.
  - intros x y Hx Hy He. rewrite Forall_forall in Hwf.
    apply utf8_compare_eq in He; [|by apply Hwf|by apply Hwf].
    apply list_elem_of_lookup in Hx as (i & Hi), Hy as (j & Hj).
    assert (i = j) as ->; [|congruence].
    apply (NoDup_lookup _ _ _ (e_alias x) Hnd); rewrite list_lookup_fmap; [by rewrite Hi|rewrite Hj; simpl; by rewrite He].
Qed.

(** The digest of a release depends only on its namespace, name, schema
    version, metadata and its set of entries: not on the order the entries
    arrive in, nor on the allocated version, the creator, the creation time or
    the digest field itself. *)
Theorem digest_of_content sha256 encode r1 r2 :
  r_namespace r1 = r_namespace r2 -> r_name r1 = r_name r2 -> r_schemaVersion r1 = r_schemaVersion r2 ->
  r_metadataJson r1 = r_metadataJson r2 -> r_entries r1 ≡ₚ r_entries r2 ->
  NoDup (e_alias <$> r_entries r1) -> Forall (fun e => wf_text (e_alias e)) (r_entries r1) ->
  deterministicReleaseDigest sha256 encode r1 = deterministicReleaseDigest sha256 encode r2.
Proof.
  intros H1 H2 H3 H4 HP Hnd Hwf. unfold deterministicReleaseDigest, release_projection.
  by rewrite H1, H2, H3, H4, (sorted_entries_eq r1 r2 HP Hnd Hwf).
Qed.

Lemma hex_val_digit d : 0 <= d < 16 -> hex_val (hex_digit d) = Some d.
Proof.
  intros Hd. unfold hex_val, hex_digit. destruct (d <? 10) eqn:E; bool_prop.
  - replace ((48 <=? 48 + d) && (48 + d <=? 57)) with true by lia. f_equal. lia.
  - replace ((48 <=? 87 + d) && (87 + d <=? 57)) with false by lia.
    replace ((97 <=? 87 + d) && (87 + d <=? 102)) with true by lia. f_equal. lia.
Qed.

Lemma hex_roundtrip b : Forall (fun x => 0 <= x < 256) b -> hex_decode (hex_encode b) = b.
Proof.
  induction 1 as [|x b Hx Hb IH]; simpl; [done|].
  rewrite !hex_val_digit by (Z.div_mod_to_equations; lia). simpl in IH. rewrite IH. f_equal. Z.div_mod_to_equations. lia.
Qed.

Lemma hex_digit_val c d : hex_val c = Some d -> 0 <= d < 16 /\ hex_digit d = lower c.
Proof.
  unfold hex_val, hex_digit, lower. intros H. repeat case_match; simplify_eq; bool_prop; try lia.
Qed.

Lemma hex_encode_decode s :
  Forall (fun c => is_Some (hex_val c)) s -> Nat.Even (length s) -> hex_encode (hex_decode s) = toLowerCase s.
Proof.
  intros Hs He. remember (length s) as n eqn:Hn. revert s Hn Hs. induction (lt_wf n) as [n _ IH]. intros s -> Hs.
  destruct s as [|a [|b s]]; [done|destruct He; simpl in *; lia|].
  inversion Hs as [|? ? [x Hx] Hs']; subst. inversion Hs' as [|? ? [y Hy] Hs'']; subst. simpl.
  rewrite Hx, Hy. destruct (hex_digit_val _ _ Hx) as [Hx1 <-], (hex_digit_val _ _ Hy) as [Hy1 <-]. simpl.
  f_equal; [f_equal; Z.div_mod_to_equations; lia|]. f_equal; [f_equal; Z.div_mod_to_equations; lia|].
  apply (IH (length s)); [simpl; lia| |done|done]. simpl in He. destruct He as [k Hk]. exists (k - 1)%nat. lia.
Qed.

Lemma hex_val_lower x : hex_val (lower x) = hex_val x.
Proof. unfold hex_val, lower. repeat case_match; bool_prop; try lia; try done; f_equal; lia. Qed.

Lemma hex_decode_lower s : hex_decode (toLowerCase s) = hex_decode s.
Proof.
  remember (length s) as n eqn:Hn. revert s Hn. induction (lt_wf n) as [n _ IH]. intros s ->.
  destruct s as [|a [|b s]]; [done|done|]. simpl. rewrite !hex_val_lower.
  repeat case_match; try done. f_equal. apply (IH (length s)); [simpl; lia|done].
Qed.

Lemma is_sha256_text_spec s :
  is_sha256_text s = true <-> length s = 64%nat /\ Forall (fun c => is_Some (hex_val c)) s.
Proof.
  unfold is_sha256_text. rewrite andb_true_iff, bool_decide_eq_true, forallb_forall, Forall_forall.
  split; intros [H1 H2]; (split; [done|]); intros c Hc.
  - apply list_elem_of_In, H2 in Hc. by apply bool_decide_eq_true in Hc.
  - apply bool_decide_eq_true, H2. by apply list_elem_of_In.
Qed.

(** A release passes the digest check exactly when its digest field is 64
    hexadecimal digits that spell, in either case, the SHA-256 of its encoded
    projection; a release without a namespace, or with an entry without one,
    never passes. *)
Theorem digest_check_exact sha256 encode r :
  (forall b, length (sha256 b) = 32%nat /\ Forall (fun x => 0 <= x < 256) (sha256 b)) ->
  releaseDigestMatches sha256 encode r = Ok true <->
  is_sha256_text (r_digest r) = true /\
  deterministicReleaseDigest sha256 encode r = Ok (toLowerCase (r_digest r)).
Proof.
  intros Hsha. unfold releaseDigestMatches, decodeSha256.
  destruct (is_sha256_text (r_digest r)) eqn:Ht; [|naive_solver].
  apply is_sha256_text_spec in Ht as [Hlen Hhex].
  assert (hex_encode (hex_decode (r_digest r)) = toLowerCase (r_digest r)) as Hd
    by (apply hex_encode_decode; [done|by exists 32%nat]).
  unfold deterministicReleaseDigest. destruct (release_projection r) as [p|e]; [|naive_solver].
  destruct (Hsha (encode p)) as [Hl Hb]. unfold sha256Hex. rewrite hex_roundtrip by done. split.
  - case_bool_decide as Hc; [|done]. intros [= H]. apply bool_decide_eq_true in H. split; [done|]. by rewrite <- H, Hd.
  - intros [_ [= He]].
    assert (hex_decode (r_digest r) = sha256 (encode p)) as ->.
    { by rewrite <- (hex_roundtrip (sha256 (encode p)) Hb), He, hex_decode_lower. }
    by rewrite !bool_decide_eq_true_2.
Qed.

(** ** Verdicts *)

Lemma verdict_entries_spec requested seen ws es :
  verdict_entries requested seen ws = Ok es ->
  map fst es = map fst ws /\ Forall2 (fun e w => verdict_text e.2 = w.2) es ws /\
  NoDup (map fst es) /\ (forall a, a ∈ map fst es -> a ∈ requested /\ a ∉ seen).
Proof.
  revert seen es. induction ws as [|[alias text] ws IH]; intros seen es; simpl.
  { intros [= <-]. split_and!; [done|constructor|constructor|]. intros a Ha. by apply elem_of_nil in Ha. }
  destruct (negb (set_has alias requested) || set_has alias seen) eqn:Eg; [done|].
  unfold set_has in Eg. bool_prop.
  destruct (isVerifyVerdict text) as [v|] eqn:Ev; [|done].
  destruct (verdict_entries requested (set_add alias seen) ws) as [rest|] eqn:Er; [|done]. intros [= <-].
  destruct (IH _ _ Er) as (H1 & H2 & H3 & H4). simpl.
  assert (verdict_text v = text) as Hv.
  { unfold isVerifyVerdict in Ev. apply fmap_Some in Ev as ([i v'] & Hf & ->). by apply list_find_Some in Hf as (_ & ? & _). }
  split_and!; [by f_equal|by constructor| |].
  - apply NoDup_cons. split; [|done]. intros Hin. destruct (H4 _ Hin) as [_ Hn]. apply Hn, elem_of_set_add. by left.
  - intros a Ha. apply elem_of_cons in Ha as [->|Ha]; [done|]. destruct (H4 a Ha) as [? Hn]. split; [done|].
    intros Hs. apply Hn, elem_of_set_add. by right.
Qed.

Lemma submset_same_length {A} (l1 l2 : list A) :
  NoDup l1 -> (forall x, x ∈ l1 -> x ∈ l2) -> length l1 = length l2 -> l1 ≡ₚ l2.
Proof. intros Hn Hs Hl. apply submseteq_length_Permutation; [by apply NoDup_submseteq|lia]. Qed.

(** A response is accepted only if it answers exactly the requested
    aliases, each once, with a known verdict, and its six counters agree with
    its verdicts; and the comparison passes exactly when the schema matched
    and the match counter equals the number of requested aliases. *)
Theorem verify_result_sound response requested result :
  NoDup requested ->
  verifyResultFromWire response requested = Ok result ->
  map fst (vd_entries result) ≡ₚ requested /\
  Forall2 (fun e w => e.1 = w.1 /\ verdict_text e.2 = w.2) (vd_entries result) (vr_entries response) /\
  (forall v, vd_count result v = tally (vd_entries result) v) /\
  (passed result = true <->
     vd_schemaMatches result = true /\ vd_count result v_match = Z.of_nat (length requested)).
Proof.
  intros Hreq. unfold verifyResultFromWire. destruct (negb (bool_decide _)) eqn:El; [done|]. bool_prop.
  destruct (verdict_entries requested [] (vr_entries response)) as [es|] eqn:Ee; [|done].
  destruct (list_find _ VERIFY_VERDICTS) as [[i v]|] eqn:Ef; [done|]. destruct (negb (validCount _)); [done|].
  intros [= <-]. simpl. destruct (verdict_entries_spec _ _ _ _ Ee) as (H1 & H2 & H3 & H4).
  assert (length (map fst es) = length requested) as Hlen by (rewrite H1, length_map; done).
  assert (map fst es ≡ₚ requested) as HP by (apply submset_same_length; [done|by intros a [? _]%H4|done]).
  apply list_find_None in Ef. rewrite Forall_forall in Ef.
  assert (forall v, vr_count response v = tally es v) as Hc.
  { intros v. destruct (decide (vr_count response v = tally es v)) as [|Hne]; [done|].
    exfalso. apply (Ef v); [destruct v; set_solver|by right]. }
  split_and!; [done| |done|].
  - clear -H1 H2. revert H1. induction H2 as [|e w es ws He Hr IH]; simpl; [constructor|]. intros [= Ha Hb].
    constructor; [done|by apply IH].
  - unfold passed. simpl. rewrite andb_true_iff, Hc. split; intros [Hs Hm]; (split; [done|]).
    + rewrite <- Hlen, length_map. unfold tally. f_equal. clear -Hm.
      induction es as [|e es IH]; simpl in *; [done|]. bool_prop. rewrite filter_cons, decide_True by done. simpl. f_equal. auto.
    + unfold tally in Hm. rewrite <- Hlen, length_map in Hm. apply Nat2Z.inj in Hm. apply forallb_forall. intros e Hin.
      apply list_elem_of_In in Hin. apply bool_decide_eq_true.
      destruct (decide (e.2 = v_match)) as [|Hne]; [done|].
      pose proof (length_filter_lt (fun e => e.2 = v_match) es e Hin Hne). lia.
Qed.

(** ** Witnesses *)

Definition demo_entry (alias : string) : ReleaseEntry :=
  {| e_alias := js alias; e_kind := js "parameter";
     e_ref := Some {| wr_namespace := Some {| env := js "prod"; app := js "web" |}; wr_key := js alias |};
     e_version := 3; e_contentType := js "text/plain"; e_metadataJson := []; e_parameterDigest := [] |}.

Definition demo_release (v : Z) (digest : jstr) (entries : list ReleaseEntry) : ConfigurationRelease :=
  {| r_namespace := Some {| env := js "prod"; app := js "web" |}; r_name := js "main"; r_version := v;
     r_schemaVersion := 1; r_entries := entries; r_digest := digest; r_metadataJson := []; r_createdBy := [];
     r_createdAtUnixMs := 0 |}.

(** A stand-in hash of 32 bytes. *)
Definition demo_sha (b : list Z) : list Z := replicate 32 (Z.of_nat (length b) mod 256).
Definition demo_encode (r : ConfigurationRelease) : list Z := flat_map e_alias (r_entries r).

Lemma demo_aliases_wf : Forall (fun e => wf_text (e_alias e)) [demo_entry "a"; demo_entry "b"].
Proof. repeat constructor; unfold is_unit; simpl; lia. Qed.

Lemma digest_of_content_witness :
  deterministicReleaseDigest demo_sha demo_encode (demo_release 1 [] [demo_entry "a"; demo_entry "b"]) =
  deterministicReleaseDigest demo_sha demo_encode (demo_release 9 (js "x") [demo_entry "b"; demo_entry "a"]).
Proof.
  apply (digest_of_content demo_sha demo_encode (demo_release 1 [] [demo_entry "a"; demo_entry "b"])
           (demo_release 9 (js "x") [demo_entry "b"; demo_entry "a"])); try reflexivity.
  - apply Permutation_swap.
  - apply (bool_decide_unpack _). by vm_compute.
  - apply demo_aliases_wf.
Defined.

Definition demo_digest : jstr := concat (replicate 32 (js "0A")) .

Lemma digest_check_exact_witness :
  releaseDigestMatches demo_sha (fun _ => js "ten bytes!") (demo_release 1 demo_digest [demo_entry "a"]) = Ok true.
Proof.
  apply (digest_check_exact demo_sha (fun _ => js "ten bytes!") (demo_release 1 demo_digest [demo_entry "a"])).
  - intros b. unfold demo_sha. split; [by rewrite length_replicate|]. apply Forall_replicate. apply Z.mod_pos_bound. lia.
  - split; by vm_compute.
Defined.

Definition demo_response : VerifyResponse :=
  {| vr_name := js "main"; vr_version := 3; vr_schemaVersion := 1; vr_activationRevision := 8;
     vr_entries := [(js "b", js "match"); (js "a", js "match")];
     vr_count := fun v => if decide (v = v_match) then 2 else 0; vr_unverifiedCount := 1; vr_schemaMatches := true |}.

Lemma verify_result_sound_witness :
  exists r, verifyResultFromWire demo_response [js "a"; js "b"] = Ok r /\ map fst (vd_entries r) ≡ₚ [js "a"; js "b"].
Proof.
  eexists. split; [reflexivity|].
  refine (proj1 (verify_result_sound demo_response [js "a"; js "b"] _ _ _)); [|reflexivity].
  apply (bool_decide_unpack _). by vm_compute.
Defined.
