(* ===== verification/Resolve.v ===== *)
(** * Resolve: turning an active release into a snapshot.

    From [sdk/typescript/src/releases/loader.ts]: [mapConcurrent] as a pool
    of workers whose tasks complete in any order, [metadataForEntry],
    [#resolveEntry] and [#resolveCandidate]. What the transport answers, the
    clock, SHA-256 and the protobuf encoder are parameters. *)
From stdpp Require Import prelude gmap strings.
From Stdlib Require Import ZArith Lia Sorted.
From S2P Require Import Prelude JsString JsMap Unicode Decimal Errors Refs DefaultsArtifact Release.

(** ** [mapConcurrent] *)

Section pool.
Context {R E : Type}.

(** The shared variables of the workers: the next index, the indices being
    worked on, the results, the first error, and whether the pool's own
    controller is aborted. *)
Record Pool := {
  p_index : nat;
  p_running : list nat;
  p_results : list (option R);
  p_firstError : option E;
  p_aborted : bool
}.

(** Each of [min(concurrency, n)] workers takes an index before its first
    [await]. A signal that is already aborted stops them all. *)
Definition pool_start (n concurrency : nat) (aborted : bool) : Pool :=
  let k := if aborted then 0%nat else Nat.min concurrency n in
  {| p_index := k; p_running := seq 0 k; p_results := replicate n None; p_firstError := None; p_aborted := aborted |}.

(** The worker on index [i] finishes with [o], and takes the next index
    unless the pool is aborted or exhausted. *)
Definition pool_complete (n : nat) (p : Pool) (i : nat) (o : res E R) : Pool :=
  if negb (bool_decide (i ∈ p_running p)) then p
  else
    let rest := set_delete i (p_running p) in
    match o with
    | Ok r =>
        let results := <[i := Some r]> (p_results p) in
        if p_aborted p || negb (bool_decide (p_index p < n)%nat) then
          {| p_index := p_index p; p_running := rest; p_results := results; p_firstError := p_firstError p;
             p_aborted := p_aborted p |}
        else
          {| p_index := S (p_index p); p_running := rest ++ [p_index p]; p_results := results;
             p_firstError := p_firstError p; p_aborted := p_aborted p |}
    | Throw e =>
        {| p_index := p_index p; p_running := rest; p_results := p_results p;
           p_firstError := match p_firstError p with Some e0 => Some e0 | None => Some e end; p_aborted := true |}
    end.

(** The caller's signal aborts the pool. *)
Definition pool_abort (p : Pool) : Pool :=
  {| p_index := p_index p; p_running := p_running p; p_results := p_results p; p_firstError := p_firstError p;
     p_aborted := true |}.

Inductive pool_event := Completes (i : nat) (o : res E R) | SignalAborts.

Definition pool_step (n : nat) (p : Pool) (e : pool_event) : Pool :=
  match e with Completes i o => pool_complete n p i o | SignalAborts => pool_abort p end.

(** What the call settles with once no worker runs: the first error, an
    abort ([None]), or the results; nothing yet while workers run. *)
Definition pool_result (aborted : bool) (p : Pool) : option (res (option E) (list (option R))) :=
  if bool_decide (p_running p = []) then
    Some (match p_firstError p with
          | Some e => Throw (Some e)
          | None => if aborted then Throw None else Ok (p_results p)
          end)
  else None.

Definition signal_aborted (events : list pool_event) : bool :=
  existsb (fun e => match e with SignalAborts => true | _ => false end) events.

Definition mapConcurrent (n concurrency : nat) (events : list pool_event) : option (res (option E) (list (option R))) :=
  pool_result (signal_aborted events) (foldl (pool_step n) (pool_start n concurrency false) events).

(** *** What the pool guarantees *)

(** The completions of the running workers, in order. *)
Record pool_ok (n concurrency : nat) (p : Pool) (done : list (nat * R)) : Prop := {
  po_len : length (p_results p) = n;
  po_index : (p_index p <= n)%nat;
  po_nodup : NoDup (p_running p);
  po_running : forall i, i ∈ p_running p -> (i < p_index p)%nat /\ p_results p !! i = Some None;
  po_fresh : forall i, (p_index p <= i < n)%nat -> p_results p !! i = Some None;
  po_bound : (length (p_running p) <= concurrency)%nat;
  po_done : forall i r, p_results p !! i = Some (Some r) <-> (i, r) ∈ done;
  po_all : p_aborted p = false -> p_firstError p = None /\
    forall i, (i < p_index p)%nat -> i ∈ p_running p \/ exists r, p_results p !! i = Some (Some r);
  po_busy : p_aborted p = false -> p_running p = [] -> p_index p = n
}.

Lemma pool_start_ok n concurrency : (0 < concurrency)%nat -> pool_ok n concurrency (pool_start n concurrency false) [].
Proof.
  intros Hc. split; simpl.
  - apply length_replicate.
  - lia.
  - apply NoDup_seq.
  - intros i Hi. apply elem_of_seq in Hi. split; [lia|]. apply lookup_replicate. split; [done|lia].
  - intros i Hi. apply lookup_replicate. split; [done|lia].
  - rewrite length_seq. lia.
  - intros i r. split; [|by intros ?%elem_of_nil]. intros H. by apply lookup_replicate in H as [? _].
  - intros _. split; [done|]. intros i Hi. left. apply elem_of_seq. lia.
  - intros _ H. destruct (Nat.min concurrency n) eqn:Em; [|done]. lia.
Qed.

Lemma length_set_delete (l : list nat) i : NoDup l -> i ∈ l -> length l = S (length (set_delete i l)).
Proof.
  intros Hn Hi. unfold set_delete. induction l as [|x l IH]; [by apply elem_of_nil in Hi|].
  apply NoDup_cons in Hn as [Hx Hn]. rewrite filter_cons. case_decide as Hd; simpl.
  - f_equal. apply IH; [done|]. apply elem_of_cons in Hi as [->|?]; done.
  - assert (x = i) as -> by (destruct (decide (x = i)); tauto). f_equal. clear -Hx. induction l as [|y l IH]; [done|].
    rewrite filter_cons, decide_True by set_solver. simpl. f_equal. apply IH. set_solver.
Qed.

Definition accepted (p : Pool) (e : pool_event) : list (nat * R) :=
  match e with
  | Completes i (Ok r) => if bool_decide (i ∈ p_running p) then [(i, r)] else []
  | _ => []
  end.

Lemma pool_step_ok n c p done e :
  pool_ok n c p done -> pool_ok n c (pool_step n p e) (done ++ accepted p e).
Proof.
  intros [Hlen Hidx Hnd Hrun Hfr Hb Hd Hall Hbusy]. destruct e as [i o|]; simpl.
  2:{ rewrite app_nil_r. by split. }
  unfold pool_complete. destruct (decide (i ∈ p_running p)) as [Hi|Hi].
  2:{ rewrite bool_decide_eq_false_2 by done. simpl.
      replace (match o with Ok r => [] | Throw _ => [] end) with (@nil (nat * R)) by (by destruct o).
      rewrite app_nil_r. by split. }
  rewrite !bool_decide_eq_true_2 by done. simpl.
  destruct (Hrun i Hi) as [Hlt Hnone]. pose proof (length_set_delete _ i Hnd Hi) as Hl.
  assert (forall j, j ∈ set_delete i (p_running p) -> j ∈ p_running p /\ j <> i) as Hsd
    by (intros j Hj; by apply elem_of_set_delete).
  assert (NoDup (set_delete i (p_running p))) as Hnd' by (by apply NoDup_filter).
  destruct o as [r|e].
  2:{ rewrite app_nil_r. split; simpl; try done; [|lia].
      intros j Hj. apply Hsd in Hj as [? _]. by apply Hrun. }
  assert (forall j, p_results p !! j = Some None -> j <> i -> <[i := Some r]> (p_results p) !! j = Some None) as Hkeep
    by (intros j Hj Hne; by rewrite list_lookup_insert_ne by done).
  assert (forall j x, <[i := Some r]> (p_results p) !! j = Some (Some x) <-> (j, x) ∈ done ++ [(i, r)]) as Hd'.
  { intros j x. rewrite elem_of_app, list_elem_of_singleton. destruct (decide (j = i)) as [->|Hne].
    - rewrite list_lookup_insert_eq by (by eapply lookup_lt_Some). split; [intros [= <-]; by right|].
      intros [Hin|[= <-]]; [|done]. apply Hd in Hin. congruence.
    - rewrite list_lookup_insert_ne by done. rewrite Hd. naive_solver. }
  assert (p_aborted p = false -> forall j, (j < p_index p)%nat -> j ∈ set_delete i (p_running p) \/
            exists x, <[i := Some r]> (p_results p) !! j = Some (Some x)) as Hall'.
  { intros Ha j Hj. destruct (decide (j = i)) as [->|Hne].
    - right. exists r. by rewrite list_lookup_insert_eq by (by eapply lookup_lt_Some).
    - destruct (proj2 (Hall Ha) j Hj) as [?|[x ?]]; [left; by apply elem_of_set_delete|right].
      exists x. by rewrite list_lookup_insert_ne by done. }
  destruct (p_aborted p) eqn:Ea; simpl.
  { split; simpl; rewrite ?length_insert; try done; [| |lia].
    - intros j Hj. apply Hsd in Hj as [Hj ?]. split; [by apply Hrun|]. apply Hkeep; [by apply Hrun|done].
    - intros j Hj. apply Hkeep; [by apply Hfr|lia]. }
  destruct (decide (p_index p < n)%nat) as [Hn|Hn].
  - rewrite bool_decide_eq_true_2 by done. simpl. split; simpl; rewrite ?length_insert; try done.
    + apply NoDup_app. split; [done|]. split; [|apply NoDup_singleton].
      intros j Hj Hj'. apply list_elem_of_singleton in Hj' as ->. apply Hsd in Hj as [Hj _]. apply Hrun in Hj. lia.
    + intros j Hj. apply elem_of_app in Hj as [Hj|Hj].
      * apply Hsd in Hj as [Hj ?]. split; [apply Hrun in Hj; lia|]. apply Hkeep; [by apply Hrun|done].
      * apply list_elem_of_singleton in Hj as ->. split; [lia|]. apply Hkeep; [|lia].
        apply Hfr. lia.
    + intros j Hj. apply Hkeep; [apply Hfr; lia|lia].
    + rewrite length_app. simpl. lia.
    + intros _. split; [by apply Hall|]. intros j Hj. destruct (decide (j = p_index p)) as [->|Hne].
      * left. apply elem_of_app. right. by apply list_elem_of_singleton.
      * destruct (Hall' eq_refl j ltac:(lia)) as [?|?]; [left; apply elem_of_app; by left|by right].
    + intros _ H. by apply app_nil in H as [_ ?].
  - rewrite bool_decide_eq_false_2 by done. simpl. split; simpl; rewrite ?length_insert; try done.
    + intros j Hj. apply Hsd in Hj as [Hj ?]. split; [by apply Hrun|]. apply Hkeep; [by apply Hrun|done].
    + intros j Hj. lia.
    + lia.
    + intros _. split; [by apply Hall|]. by apply Hall'.
    + intros _ _. lia.
Qed.

Lemma pool_run_ok n c p done events :
  pool_ok n c p done ->
  exists done', pool_ok n c (foldl (pool_step n) p events) (done ++ done') /\
    forall i r, (i, r) ∈ done' -> Completes i (Ok r) ∈ events.
Proof.
  revert p done. induction events as [|e events IH]; intros p done Hp; simpl.
  { exists []. rewrite app_nil_r. split; [done|]. by intros i r ?%elem_of_nil. }
  destruct (IH _ _ (pool_step_ok n c p done e Hp)) as (done' & Hok & Hin).
  exists (accepted p e ++ done'). rewrite app_assoc. split; [done|]. intros i r Hir.
  apply elem_of_cons. apply elem_of_app in Hir as [Hir|Hir]; [left|right; by apply Hin].
  unfold accepted in Hir. destruct e as [j [x|]|]; try by apply elem_of_nil in Hir.
  case_bool_decide; [|by apply elem_of_nil in Hir]. apply list_elem_of_singleton in Hir. by injection Hir as -> ->.
Qed.

(** A pool aborts through an error or through the caller's signal. *)
Lemma pool_run_aborted n p events :
  (p_aborted p = true -> is_Some (p_firstError p)) ->
  p_aborted (foldl (pool_step n) p events) = true ->
  is_Some (p_firstError (foldl (pool_step n) p events)) \/ signal_aborted events = true.
Proof.
  revert p. induction events as [|e events IH]; intros p Hp Ha; simpl in *; [left; auto|].
  destruct e as [i o|]; simpl in *; [|by right].
  apply IH; [|done]. unfold pool_complete. destruct (negb _); [done|].
  destruct o; [|simpl; intros _; by destruct (p_firstError p)]. by destruct (_ || _).
Qed.
End pool.
Arguments Pool : clear implicits.
Arguments pool_event : clear implicits.

Lemma mapConcurrent_spec {R E} (n concurrency : nat) (events : list (pool_event R E)) :
  (0 < concurrency)%nat ->
  let p := foldl (pool_step n) (pool_start n concurrency false) events in
  (length (p_running p) <= concurrency)%nat /\ NoDup (p_running p) /\
  (forall rs, mapConcurrent n concurrency events = Some (Ok rs) ->
     length rs = n /\
     forall i, (i < n)%nat -> exists r, rs !! i = Some (Some r) /\ Completes i (Ok r) ∈ events).
Proof.
  intros Hc p. destruct (pool_run_ok n concurrency _ _ events (pool_start_ok n concurrency Hc)) as (done & Hok & Hin).
  fold p in Hok. pose proof Hok as [Hlen Hidx Hnd Hrun Hfr Hb Hd Hall Hbusy]. split_and!; [done|done|].
  intros rs. unfold mapConcurrent, pool_result. fold p. case_bool_decide as Hr; [|done].
  destruct (p_firstError p) eqn:Ee; [done|]. destruct (signal_aborted events) eqn:Es; [done|]. intros [= <-].
  assert (p_aborted p = false) as Ha.
  { destruct (p_aborted p) eqn:Ea; [|done]. destruct (pool_run_aborted n (pool_start n concurrency false) events) as [H|H];
      [done|exact Ea|fold p in H; rewrite Ee in H; by destruct H|congruence]. }
  split; [done|]. intros i Hi. rewrite <- (Hbusy Ha Hr) in Hi.
  destruct (proj2 (Hall Ha) i Hi) as [H|[r Hr']]; [rewrite Hr in H; by apply elem_of_nil in H|].
  exists r. split; [done|]. apply Hin. by apply Hd in Hr'.
Qed.

(** C25: [mapConcurrent] never works on more than [concurrency] values at once
    and never on the same one twice; and when it returns, in whatever order
    the workers finished, it returns one result per value, each in the place
    of its value and produced by the worker of that value. *)
Theorem mapConcurrent_ordered {R E} (n concurrency : nat) (events : list (pool_event R E)) :
  (0 < concurrency)%nat ->
  let p := foldl (pool_step n) (pool_start n concurrency false) events in
  (length (p_running p) <= concurrency)%nat /\ NoDup (p_running p) /\
  (forall rs, mapConcurrent n concurrency events = Some (Ok rs) ->
     length rs = n /\
     forall i, (i < n)%nat -> exists r, rs !! i = Some (Some r) /\ Completes i (Ok r) ∈ events).
Proof. exact (mapConcurrent_spec n concurrency events). Qed.

Lemma mapConcurrent_ordered_witness :
  let events : list (pool_event Z Z) := [Completes 1 (Ok 11); Completes 0 (Ok 10); Completes 2 (Ok 12)] in
  mapConcurrent 3 2 events = Some (Ok [Some 10; Some 11; Some 12]) /\
  exists r, [Some 10; Some 11; Some 12] !! 2%nat = Some (Some r) /\ Completes 2 (Ok r) ∈ events.
Proof.
  intros events. split; [reflexivity|].
  refine (proj2 (proj2 (proj2 (mapConcurrent_ordered 3 2 events _)) _ _) 2%nat _); [lia|reflexivity|lia].
Defined.

(** ** Candidates *)

Inductive CandidateSource := activation | reconciliation_source.
#[global] Instance CandidateSource_eq : EqDecision CandidateSource.
Proof. solve_decision. Defined.

Record Candidate := {
  c_release : ConfigurationRelease;
  c_revision : Z;
  c_source : CandidateSource;
  c_sequence : Z;
  c_fleetRevision : Z
}.
#[global] Instance Candidate_eq : EqDecision Candidate.
Proof. solve_decision. Defined.

(** The loader's track: what [releaseMatchesTrack] compares. *)
Record Track := { tr_namespace : NamespaceRef; tr_name : jstr; tr_schemaVersion : Z }.

(** [cloneRelease] copies the message. *)
Definition makeCandidate (release : ConfigurationRelease) (revision : Z) (source : CandidateSource) (sequence : Z)
    (fleetRevision : Z) : Candidate :=
  {| c_release := release; c_revision := revision; c_source := source; c_sequence := sequence;
     c_fleetRevision := fleetRevision |}.

Definition sameNamespace (left : option NamespaceRef) (right : NamespaceRef) : bool :=
  match left with Some l => bool_decide (env l = env right) && bool_decide (app l = app right) | None => false end.

Definition sameResourceRef (left right : option WireRef) : bool :=
  match left, right with
  | Some {| wr_namespace := Some l; wr_key := lk |}, Some {| wr_namespace := Some r; wr_key := rk |} =>
      bool_decide (env l = env r) && bool_decide (app l = app r) && bool_decide (lk = rk)
  | _, _ => false
  end.

Definition releaseMatchesTrack (release : ConfigurationRelease) (track : Track) : bool :=
  sameNamespace (r_namespace release) (tr_namespace track) && bool_decide (r_name release = tr_name track)
  && (r_schemaVersion release =? tr_schemaVersion track).

Definition sameQueuedCandidate (left right : Candidate) : bool :=
  (c_revision left =? c_revision right)
  && (r_schemaVersion (c_release left) =? r_schemaVersion (c_release right))
  && (r_version (c_release left) =? r_version (c_release right))
  && bool_decide (r_digest (c_release left) = r_digest (c_release right)).

Definition sameActiveCandidate (left right : Candidate) : bool :=
  (c_revision left =? c_revision right)
  && match r_namespace (c_release right) with
     | Some ns => sameNamespace (r_namespace (c_release left)) ns
     | None => false
     end
  && bool_decide (r_name (c_release left) = r_name (c_release right))
  && (r_schemaVersion (c_release left) =? r_schemaVersion (c_release right))
  && (r_version (c_release left) =? r_version (c_release right))
  && bool_decide (r_digest (c_release left) = r_digest (c_release right)).

Definition namespacePath (ns : NamespaceRef) : jstr := env ns ++ js "/" ++ app ns.

(** ** Errors of the resolution *)

Inductive ResolutionError :=
| Resolution (category : ReleaseRejectionCategory)
| AbortReason
| OtherError.

Definition resolutionCategory (error : ResolutionError) (aborted : bool) : ReleaseRejectionCategory :=
  if aborted then superseded
  else match error with Resolution c => c | _ => resolution_failed end.

(** ** Entries *)

Definition resourcePath (ns : NamespaceRef) (k : jstr) : jstr :=
  js "/" ++ env ns ++ js "/" ++ app ns ++ js "/" ++ k.

Definition metadataForEntry (entry : ReleaseEntry) : res ResolutionError ReleaseEntryMetadata :=
  match e_ref entry with
  | Some {| wr_namespace := Some ns; wr_key := k |} =>
      if bool_decide (e_alias entry = []) || (e_version entry <=? 0) then Throw (Resolution resolution_failed)
      else match entryKind (e_kind entry) with
      | None => Throw (Resolution resolution_failed)
      | Some kind =>
          if negb (is_uint64 (e_version entry)) then Throw OtherError
          else Ok {| m_alias := e_alias entry; m_kind := kind; m_path := resourcePath ns k; m_version := e_version entry;
                     m_contentType := e_contentType entry; m_metadataJson := e_metadataJson entry;
                     m_parameterDigest := e_parameterDigest entry |}
      end
  | _ => Throw (Resolution resolution_failed)
  end.

Record FetchedParameter := { fp_ref : option WireRef; fp_version : Z; fp_value : jstr; fp_contentType : jstr }.
Record SecretVersion := {
  sv_version : Z; sv_state : jstr; sv_destroyedAtUnixMs : Z; sv_expiresAtUnixMs : Z; sv_bound : bool
}.
Record SecretMetadata := { sm_ref : option WireRef; sm_versions : list SecretVersion }.
Record FetchedSecret := { fs_ref : option WireRef; fs_version : Z; fs_value : list Z; fs_contentType : jstr }.

(** What a call of the transport settles with: a value, or a failure, and
    whether the signal is aborted when the failure is seen. *)
Inductive fetched (A : Type) := Got (a : A) | Failed (aborted : bool).
Arguments Got {A} a.
Arguments Failed {A} aborted.

Inductive ResolvedItem := IParameter (p : ReleaseParameter) | ISecret (s : ReleaseSecret).

Definition fetch_failed (aborted : bool) : ResolutionError :=
  Resolution (if aborted then superseded else resolution_failed).

Section resolve.
Context (sha256 : list Z -> list Z) (encode : ConfigurationRelease -> list Z).
Context (fetchParameter : WireRef -> Z -> fetched FetchedParameter).
Context (fetchSecretMetadata : WireRef -> Z -> fetched SecretMetadata).
Context (fetchSecret : WireRef -> Z -> jstr -> fetched FetchedSecret).
(** [BigInt(Math.trunc(now()))] and the options the resolution reads. *)
Context (now : Z) (bindingKeys : list (jstr * jstr)) (maxConcurrentFetches : nat).

Definition digest_ok (value digest : jstr) : bool :=
  is_sha256_text digest &&
  bool_decide (toLowerCase (sha256Hex sha256 (utf8_encode value)) = toLowerCase digest).

Definition resolve_parameter (entry : ReleaseEntry) (ref : WireRef) (metadata : ReleaseEntryMetadata)
  : res ResolutionError ResolvedItem :=
  match fetchParameter ref (e_version entry) with
  | Failed ab => Throw (fetch_failed ab)
  | Got p =>
      if negb (sameResourceRef (fp_ref p) (Some ref)) || negb (fp_version p =? e_version entry)
      then Throw (Resolution version_mismatch)
      else if negb (digest_ok (fp_value p) (e_parameterDigest entry)) then Throw (Resolution digest_mismatch)
      else if negb (bool_decide (fp_contentType p = e_contentType entry)) then Throw (Resolution digest_mismatch)
      else Ok (IParameter {| rp_value := fp_value p; rp_entry := metadata |})
  end.

Definition secret_usable (v : SecretVersion) : bool :=
  bool_decide (sv_state v = js "enabled") && (sv_destroyedAtUnixMs v =? 0)
  && negb ((0 <? sv_expiresAtUnixMs v) && (sv_expiresAtUnixMs v <=? now)).

Definition binding_key (entry : ReleaseEntry) (v : SecretVersion) : jstr :=
  if sv_bound v then default [] (map_get (e_alias entry) bindingKeys) else [].

Definition resolve_secret (entry : ReleaseEntry) (ref : WireRef) (metadata : ReleaseEntryMetadata)
  : res ResolutionError ResolvedItem :=
  match fetchSecretMetadata ref (e_version entry) with
  | Failed ab => Throw (fetch_failed ab)
  | Got live =>
      if negb (sameResourceRef (sm_ref live) (Some ref)) then Throw (Resolution version_mismatch)
      else match filter (fun v => sv_version v = e_version entry) (sm_versions live) with
      | [exact] =>
          if negb (secret_usable exact) then Throw (Resolution resolution_failed)
          else
            let bindingKey := binding_key entry exact in
            if sv_bound exact && bool_decide (bindingKey = []) then Throw (Resolution binding_key_unavailable)
            else match fetchSecret ref (e_version entry) bindingKey with
            | Failed ab => Throw (fetch_failed ab)
            | Got s =>
                if negb (sameResourceRef (fs_ref s) (Some ref)) || negb (fs_version s =? e_version entry)
                then Throw (Resolution version_mismatch)
                else if negb (bool_decide (fs_contentType s = e_contentType entry))
                then Throw (Resolution version_mismatch)
                else Ok (ISecret {| rs_value := fs_value s; rs_entry := metadata |})
            end
      | _ => Throw (Resolution resolution_failed)
      end
  end.

Definition resolveEntry (entry : ReleaseEntry) (metadata : ReleaseEntryMetadata) : res ResolutionError ResolvedItem :=
  match e_ref entry with
  | Some ({| wr_namespace := Some _ |} as ref) =>
      match entryKind (e_kind entry) with
      | Some kind_parameter => resolve_parameter entry ref metadata
      | Some kind_secret => resolve_secret entry ref metadata
      | None => Throw (Resolution resolution_failed)
      end
  | _ => Throw (Resolution resolution_failed)
  end.

(** *** A candidate *)

Fixpoint collect_entries (ns : NamespaceRef) (entries : list (jstr * ReleaseEntryMetadata)) (l : list ReleaseEntry)
  : res ResolutionError (list (jstr * ReleaseEntryMetadata)) :=
  match l with
  | [] => Ok entries
  | entry :: l =>
      if negb (sameNamespace (match e_ref entry with Some r => wr_namespace r | None => None end) ns)
      then Throw (Resolution resolution_failed)
      else
        let* metadata := metadataForEntry entry in
        if map_has (m_alias metadata) entries then Throw (Resolution resolution_failed)
        else collect_entries ns (map_set (m_alias metadata) metadata entries) l
  end.

(** What is checked before anything is fetched. *)
Definition resolve_manifest (track : Track) (candidate : Candidate) : res ResolutionError ReleaseIdentity :=
  let release := c_release candidate in
  match r_namespace release with
  | None => Throw (Resolution resolution_failed)
  | Some ns =>
      if negb (releaseMatchesTrack release track) then Throw (Resolution version_mismatch)
      else match releaseDigestMatches sha256 encode release with
      | Ok true =>
          if bool_decide (r_entries release = []) then Throw (Resolution resolution_failed)
          else
            let* entries := collect_entries ns [] (r_entries release) in
            let identity :=
              {| i_namespace := namespacePath ns; i_name := r_name release; i_version := r_version release;
                 i_activationRevision := c_fleetRevision candidate; i_targetRevision := c_revision candidate;
                 i_schemaVersion := r_schemaVersion release; i_digest := r_digest release;
                 i_metadataJson := r_metadataJson release; i_entries := entries |} in
            match new_ReleaseIdentity identity with Some i => Ok i | None => Throw OtherError end
      | _ => Throw (Resolution digest_mismatch)
      end
  end.

(** [validateManifest]'s outcome: it returned, or it threw an error with
    this [releaseRejectionCategory], with the signal aborted or not. *)
Inductive validation := Valid | Invalid (aborted : bool) (property : option jstr).

Definition add_item (s : list (jstr * ReleaseParameter) * list (jstr * ReleaseSecret)) (item : ResolvedItem) :=
  match item with
  | IParameter p => (map_set (m_alias (rp_entry p)) p s.1, s.2)
  | ISecret v => (s.1, map_set (m_alias (rs_entry v)) v s.2)
  end.

(** The order in which the fetches finish: an entry's index, or the signal
    being aborted. *)
Definition entry_event (release : ConfigurationRelease) (entries : list (jstr * ReleaseEntryMetadata)) (o : option nat)
  : pool_event ResolvedItem ResolutionError :=
  match o with
  | None => SignalAborts
  | Some i =>
      match r_entries release !! i with
      | Some entry =>
          match map_get (e_alias entry) entries with
          | Some metadata => Completes i (resolveEntry entry metadata)
          | None => Completes i (Throw OtherError)
          end
      | None => Completes i (Throw OtherError)
      end
  end.

Definition build_snapshot (identity : ReleaseIdentity) (resolved : list (option ResolvedItem)) : ReleaseSnapshot :=
  let items := foldl add_item ([], []) (omap id resolved) in
  {| s_identity := identity; s_parameters := items.1; s_secrets := items.2 |}.

(** [#resolveCandidate]: [signal0] and [signal1] are the signal at the two
    [throwIfAborted]; [None] when the schedule leaves a fetch unfinished. *)
Definition resolveCandidate (track : Track) (candidate : Candidate) (signal0 : bool)
    (validateManifest : ReleaseIdentity -> validation) (signal1 : bool) (schedule : list (option nat))
  : option (res ResolutionError ReleaseSnapshot) :=
  if signal0 then Some (Throw AbortReason)
  else match resolve_manifest track candidate with
  | Throw e => Some (Throw e)
  | Ok identity =>
      match validateManifest identity with
      | Invalid true _ => Some (Throw (Resolution superseded))
      | Invalid false property =>
          Some (Throw (Resolution (default prepare_failed (classifiedReleaseCategory property))))
      | Valid =>
          if signal1 then Some (Throw AbortReason)
          else
            let release := c_release candidate in
            match mapConcurrent (length (r_entries release)) maxConcurrentFetches
                    (entry_event release (i_entries identity) <$> schedule) with
            | None => None
            | Some (Throw (Some e)) => Some (Throw e)
            | Some (Throw None) => Some (Throw AbortReason)
            | Some (Ok resolved) => Some (Ok (build_snapshot identity resolved))
            end
      end
  end.
End resolve.

(** ** What a resolved snapshot guarantees *)

Definition item_entry (item : ResolvedItem) : ReleaseEntryMetadata :=
  match item with IParameter p => rp_entry p | ISecret s => rs_entry s end.
Definition item_alias (item : ResolvedItem) : jstr := m_alias (item_entry item).

Lemma items_keys items :
  NoDup (item_alias <$> items) ->
  (foldl add_item ([], []) items).1.*1 ++ (foldl add_item ([], []) items).2.*1 ≡ₚ item_alias <$> items.
Proof.
  induction items as [|x items IH] using rev_ind; [done|].
  rewrite fmap_app, foldl_snoc. intros (Hn & Hd & _)%NoDup_app. specialize (IH Hn).
  set (s := foldl add_item ([], []) items) in *.
  assert (item_alias x ∉ s.1.*1 ++ s.2.*1) as Hx.
  { rewrite IH. intros Hin. apply (Hd _ Hin). simpl. left. }
  apply not_elem_of_app in Hx as [Hx1 Hx2].
  destruct x as [p|v]; simpl; rewrite map_set_keys, decide_False by done; rewrite <- IH; simpl; solve_Permutation.
Qed.

Lemma items_parameter items p :
  NoDup (item_alias <$> items) -> IParameter p ∈ items ->
  map_get (m_alias (rp_entry p)) (foldl add_item ([], []) items).1 = Some p.
Proof.
  induction items as [|x items IH] using rev_ind; [by intros _ ?%elem_of_nil|].
  rewrite fmap_app, foldl_snoc. intros (Hn & Hd & _)%NoDup_app Hin.
  apply elem_of_app in Hin as [Hin|Hin].
  - specialize (IH Hn Hin). destruct x as [q|v]; simpl; [|done].
    rewrite map_get_set_ne; [done|]. intros He. apply (Hd (item_alias (IParameter p))).
    + by apply list_elem_of_fmap_2.
    + simpl. unfold item_alias at 1. simpl. rewrite <- He. left.
  - apply list_elem_of_singleton in Hin as <-. simpl. by rewrite map_get_set_eq.
Qed.

Lemma items_secret items v :
  NoDup (item_alias <$> items) -> ISecret v ∈ items ->
  map_get (m_alias (rs_entry v)) (foldl add_item ([], []) items).2 = Some v.
Proof.
  induction items as [|x items IH] using rev_ind; [by intros _ ?%elem_of_nil|].
  rewrite fmap_app, foldl_snoc. intros (Hn & Hd & _)%NoDup_app Hin.
  apply elem_of_app in Hin as [Hin|Hin].
  - specialize (IH Hn Hin). destruct x as [q|w]; simpl; [done|].
    rewrite map_get_set_ne; [done|]. intros He. apply (Hd (item_alias (ISecret v))).
    + by apply list_elem_of_fmap_2.
    + simpl. unfold item_alias at 1. simpl. rewrite <- He. left.
  - apply list_elem_of_singleton in Hin as <-. simpl. by rewrite map_get_set_eq.
Qed.

Lemma metadataForEntry_alias e md : metadataForEntry e = Ok md -> m_alias md = e_alias e.
Proof. unfold metadataForEntry. intros H. by repeat (case_match; simplify_eq). Qed.

Lemma collect_entries_spec ns acc l es :
  collect_entries ns acc l = Ok es -> map_wf acc ->
  map_wf es /\ es.*1 = acc.*1 ++ (e_alias <$> l) /\
  (forall a md, map_get a acc = Some md -> map_get a es = Some md) /\
  Forall (fun e => exists md r, metadataForEntry e = Ok md /\ map_get (e_alias e) es = Some md /\
                   e_ref e = Some r /\ sameNamespace (wr_namespace r) ns = true) l.
Proof.
  revert acc. induction l as [|e l IH]; intros acc; simpl.
  { intros [= <-] Hwf. split_and!; [done|by rewrite app_nil_r|done|constructor]. }
  destruct (negb (sameNamespace _ ns)) eqn:En; [done|]. apply negb_false_iff in En.
  destruct (metadataForEntry e) as [md|] eqn:Em; [|done].
  destruct (map_has (m_alias md) acc) eqn:Eh; [done|]. intros Hc Hwf.
  pose proof (metadataForEntry_alias _ _ Em) as Ha.
  destruct (IH _ Hc (map_set_wf _ _ _ Hwf)) as (H1 & H2 & H3 & H4).
  assert (m_alias md ∉ acc.*1) as Hn.
  { intros Hin. apply map_has_true in Hin. congruence. }
  split_and!; [done| | |].
  - rewrite H2, map_set_keys, decide_False by done. rewrite Ha, <- app_assoc. done.
  - intros a x Hx. apply H3. rewrite map_get_set_ne; [done|]. intros <-. apply Hn.
    apply map_has_true. unfold map_has. rewrite Hx. by apply bool_decide_eq_true_2.
  - constructor; [|done]. destruct (e_ref e) as [r|]; [|done]. exists md, r. split_and!; try done.
    apply H3. rewrite <- Ha. apply map_get_set_eq.
Qed.

Lemma all_some {A} (rs : list (option A)) :
  (forall i, (i < length rs)%nat -> exists r, rs !! i = Some (Some r)) -> exists items, rs = Some <$> items.
Proof.
  induction rs as [|x rs IH]; intros Hall; [by exists []|].
  destruct (Hall 0%nat ltac:(simpl; lia)) as (r & [= ->]).
  destruct IH as [items ->]; [|by exists (r :: items)].
  intros i Hi. apply (Hall (S i)). simpl. lia.
Qed.

Lemma omap_some {A} (items : list A) : omap id (Some <$> items) = items.
Proof. induction items as [|x items IH]; csimpl; [done|]. by f_equal. Qed.

Section sound.
Context (sha256 : list Z -> list Z) (encode : ConfigurationRelease -> list Z).
Context (fetchParameter : WireRef -> Z -> fetched FetchedParameter).
Context (fetchSecretMetadata : WireRef -> Z -> fetched SecretMetadata).
Context (fetchSecret : WireRef -> Z -> jstr -> fetched FetchedSecret).
Context (now : Z) (bindingKeys : list (jstr * jstr)) (maxConcurrentFetches : nat).

Abbreviation resolve_entry := (resolveEntry sha256 fetchParameter fetchSecretMetadata fetchSecret now bindingKeys).
Abbreviation event := (entry_event sha256 fetchParameter fetchSecretMetadata fetchSecret now bindingKeys).

(** The entry is in the snapshot with exactly the pinned resource. *)
Definition entry_pinned (snapshot : ReleaseSnapshot) (e : ReleaseEntry) : Prop :=
  exists ref md, e_ref e = Some ref /\ metadataForEntry e = Ok md /\
  match m_kind md with
  | kind_parameter => exists p,
      fetchParameter ref (e_version e) = Got p /\ sameResourceRef (fp_ref p) (Some ref) = true /\
      fp_version p = e_version e /\ digest_ok sha256 (fp_value p) (e_parameterDigest e) = true /\
      fp_contentType p = e_contentType e /\
      map_get (e_alias e) (s_parameters snapshot) = Some {| rp_value := fp_value p; rp_entry := md |}
  | kind_secret => exists live v s,
      fetchSecretMetadata ref (e_version e) = Got live /\
      filter (fun v => sv_version v = e_version e) (sm_versions live) = [v] /\ secret_usable now v = true /\
      (sv_bound v = true -> binding_key bindingKeys e v <> []) /\
      fetchSecret ref (e_version e) (binding_key bindingKeys e v) = Got s /\
      sameResourceRef (fs_ref s) (Some ref) = true /\ fs_version s = e_version e /\
      fs_contentType s = e_contentType e /\
      map_get (e_alias e) (s_secrets snapshot) = Some {| rs_value := fs_value s; rs_entry := md |}
  end.

Lemma metadataForEntry_kind e md : metadataForEntry e = Ok md -> entryKind (e_kind e) = Some (m_kind md).
Proof. unfold metadataForEntry. intros H. by repeat (case_match; simplify_eq/=). Qed.

Lemma resolveEntry_entry e md item : resolve_entry e md = Ok item -> item_entry item = md.
Proof.
  unfold resolveEntry, resolve_parameter, resolve_secret. intros H.
  repeat (case_match; simplify_eq/=; try done).
Qed.

(** One worker's success is what the snapshot needs. *)
Lemma resolveEntry_pinned e md item snapshot :
  metadataForEntry e = Ok md -> resolve_entry e md = Ok item ->
  (forall p, item = IParameter p -> map_get (m_alias (rp_entry p)) (s_parameters snapshot) = Some p) ->
  (forall s, item = ISecret s -> map_get (m_alias (rs_entry s)) (s_secrets snapshot) = Some s) ->
  entry_pinned snapshot e.
Proof.
  intros Hm Hr Hp Hs. pose proof (metadataForEntry_alias _ _ Hm) as Ha. pose proof (metadataForEntry_kind _ _ Hm) as Hk.
  unfold resolveEntry in Hr. rewrite Hk in Hr. destruct (e_ref e) as [[[ns|] k]|] eqn:Er; try done.
  eexists _, md. split; [exact Er|]. split; [done|]. destruct (m_kind md).
  - unfold resolve_parameter in Hr. destruct (fetchParameter _ _) as [p|] eqn:Ef; [|done].
    destruct (negb (sameResourceRef _ _) || _) eqn:E1; [done|]. destruct (negb (digest_ok _ _ _)) eqn:E2; [done|].
    destruct (negb (bool_decide _)) eqn:E3; [done|]. injection Hr as <-. bool_prop.
    exists p. split_and!; try done. specialize (Hp _ eq_refl). simpl in Hp. by rewrite Ha in Hp.
  - unfold resolve_secret in Hr. destruct (fetchSecretMetadata _ _) as [live|] eqn:Ef; [|done].
    destruct (negb (sameResourceRef _ _)) eqn:E1; [done|].
    destruct (filter _ (sm_versions live)) as [|v [|? ?]] eqn:Ev; try done.
    destruct (negb (secret_usable now v)) eqn:E2; [done|]. cbv zeta in Hr.
    destruct (sv_bound v && _) eqn:E3; [done|]. destruct (fetchSecret _ _ _) as [s|] eqn:Es; [|done].
    destruct (negb (sameResourceRef (fs_ref s) _) || _) eqn:E4; [done|].
    destruct (negb (bool_decide _)) eqn:E5; [done|]. injection Hr as <-.
    apply andb_false_iff in E3. bool_prop. exists live, v, s. split_and!; try done.
    + intros Hb He. destruct E3 as [E3|E3]; [congruence|]. by apply bool_decide_eq_false in E3.
    + specialize (Hs _ eq_refl). simpl in Hs. by rewrite Ha in Hs.
Qed.

Lemma resolved_items release es schedule rs :
  (0 < maxConcurrentFetches)%nat ->
  mapConcurrent (length (r_entries release)) maxConcurrentFetches (event release es <$> schedule) = Some (Ok rs) ->
  Forall2 (fun e item => exists md, map_get (e_alias e) es = Some md /\ resolve_entry e md = Ok item)
    (r_entries release) (omap id rs).
Proof.
  intros Hc Hm. destruct (mapConcurrent_spec (length (r_entries release)) _ (event release es <$> schedule) Hc) as (_ & _ & H). destruct (H rs Hm) as [Hlen Hall].
  destruct (all_some rs) as [items ->].
  { intros i Hi. rewrite Hlen in Hi. destruct (Hall i Hi) as (r & Hr & _). by exists r. }
  rewrite omap_some. rewrite length_fmap in Hlen. apply Forall2_same_length_lookup_2; [done|].
  intros i e item He Hi. destruct (Hall i) as (r & Hr & Hin); [by eapply lookup_lt_Some|].
  rewrite list_lookup_fmap, Hi in Hr. injection Hr as <-.
  apply list_elem_of_fmap in Hin as (o & Heq & _). destruct o as [j|]; simpl in Heq; [|done].
  destruct (r_entries release !! j) as [e'|] eqn:Hj; [|done].
  destruct (map_get (e_alias e') es) as [md|] eqn:Hmd; [|done]. injection Heq as -> Hok.
  rewrite He in Hj. injection Hj as <-. by exists md.
Qed.

Abbreviation resolve := (resolveCandidate sha256 encode fetchParameter fetchSecretMetadata fetchSecret now
                           bindingKeys maxConcurrentFetches).

Lemma resolve_sound track candidate validate s1 schedule snapshot :
  (0 < maxConcurrentFetches)%nat ->
  resolve track candidate false validate s1 schedule = Some (Ok snapshot) ->
  let release := c_release candidate in
  releaseMatchesTrack release track = true /\ releaseDigestMatches sha256 encode release = Ok true /\
  validate (s_identity snapshot) = Valid /\
  r_entries release <> [] /\ NoDup (e_alias <$> r_entries release) /\
  Forall (entry_pinned snapshot) (r_entries release) /\
  (s_parameters snapshot).*1 ++ (s_secrets snapshot).*1 ≡ₚ e_alias <$> r_entries release /\
  i_version (s_identity snapshot) = r_version release /\ i_digest (s_identity snapshot) = r_digest release /\
  i_targetRevision (s_identity snapshot) = c_revision candidate.
Proof.
  intros Hc. unfold resolveCandidate, resolve_manifest.
  destruct (r_namespace (c_release candidate)) as [ns|]; [|done].
  destruct (negb (releaseMatchesTrack _ _)) eqn:Et; [done|]. apply negb_false_iff in Et.
  destruct (releaseDigestMatches _ _ _) as [[]|] eqn:Ed; try done.
  case_bool_decide as Hne; [done|]. destruct (collect_entries _ _ _) as [es|] eqn:Ec; [|done].
  destruct (new_ReleaseIdentity _) as [i|] eqn:Ei; [|done].
  unfold new_ReleaseIdentity in Ei. case_match; [|done]. injection Ei as <-.
  destruct (validate _) eqn:Ev; [|by case_match]. destruct s1; [done|]. cbv zeta.
  destruct (mapConcurrent _ _ _) as [[rs|[]]|] eqn:Em; try done. intros [= <-]. simpl in *.
  destruct (collect_entries_spec _ _ _ _ Ec) as (H1 & H2 & _ & H4); [constructor|]. simpl in H2.
  pose proof (resolved_items _ _ _ _ Hc Em) as Hitems.
  assert (NoDup (e_alias <$> r_entries (c_release candidate))) as Hnd by (rewrite <- H2; exact H1).
  assert (Forall2 (fun e item => exists md, metadataForEntry e = Ok md /\ resolve_entry e md = Ok item)
            (r_entries (c_release candidate)) (omap id rs)) as Hf.
  { apply Forall2_same_length_lookup_2; [by eapply Forall2_length|]. intros j e item He Hj.
    destruct (Forall2_lookup_lr _ _ _ _ _ _ Hitems He Hj) as (md & Hmd & Hr).
    rewrite Forall_forall in H4. destruct (H4 e) as (md' & ? & Hm' & Hg & _); [by eapply list_elem_of_lookup_2|].
    rewrite Hg in Hmd. injection Hmd as <-. by exists md'. }
  assert (item_alias <$> omap id rs = e_alias <$> r_entries (c_release candidate)) as Halias.
  { clear -Hf. induction Hf as [|e item le li (md & Hm & Hr) Hrest IH]; csimpl; [done|]. f_equal; [|done].
    unfold item_alias. rewrite (resolveEntry_entry _ _ _ Hr). by apply metadataForEntry_alias. }
  split_and!; try done.
  - apply Forall_forall. intros e He. apply list_elem_of_lookup in He as (j & Hj).
    destruct (Forall2_lookup_l _ _ _ _ _ Hf Hj) as (item & Hi & md & Hm & Hr).
    apply list_elem_of_lookup_2 in Hi. apply (resolveEntry_pinned e md item); [done|done|..]; simpl.
    + intros p ->. apply items_parameter; [by rewrite Halias|done].
    + intros s ->. apply items_secret; [by rewrite Halias|done].
  - rewrite <- Halias. apply items_keys. by rewrite Halias.
Qed.
End sound.

(** C21: a candidate that resolves is what the server pinned and nothing
    else. Its track and digest match, the caller's validation accepted its
    manifest, and the snapshot holds exactly the entries' aliases, each once:
    every parameter with the pinned version, content type and a value whose
    SHA-256 is the pinned digest; every secret at the pinned version, enabled,
    neither destroyed nor expired, and fetched with a binding key when it is
    bound. This holds whatever the order the concurrent fetches finish in. *)
Theorem resolution_sound sha256 encode fetchParameter fetchSecretMetadata fetchSecret now bindingKeys
    maxConcurrentFetches track candidate validate signal1 schedule snapshot :
  (0 < maxConcurrentFetches)%nat ->
  resolveCandidate sha256 encode fetchParameter fetchSecretMetadata fetchSecret now bindingKeys maxConcurrentFetches
    track candidate false validate signal1 schedule = Some (Ok snapshot) ->
  let release := c_release candidate in
  releaseMatchesTrack release track = true /\ releaseDigestMatches sha256 encode release = Ok true /\
  validate (s_identity snapshot) = Valid /\
  r_entries release <> [] /\ NoDup (e_alias <$> r_entries release) /\
  Forall (entry_pinned sha256 fetchParameter fetchSecretMetadata fetchSecret now bindingKeys snapshot) (r_entries release) /\
  (s_parameters snapshot).*1 ++ (s_secrets snapshot).*1 ≡ₚ e_alias <$> r_entries release /\
  i_version (s_identity snapshot) = r_version release /\ i_digest (s_identity snapshot) = r_digest release /\
  i_targetRevision (s_identity snapshot) = c_revision candidate.
Proof. apply resolve_sound. Qed.

(** ** Witness *)

Definition demo_wref (k : string) : WireRef :=
  {| wr_namespace := Some {| env := js "prod"; app := js "web" |}; wr_key := js k |}.
Definition demo_pin (alias kind : string) (digest : jstr) : ReleaseEntry :=
  {| e_alias := js alias; e_kind := js kind; e_ref := Some (demo_wref alias); e_version := 3;
     e_contentType := js "text/plain"; e_metadataJson := []; e_parameterDigest := digest |}.
Definition demo_active : ConfigurationRelease :=
  demo_release 4 demo_digest [demo_pin "rate" "parameter" (concat (replicate 32 (js "01"))); demo_pin "token" "secret" []].
Definition demo_candidate : Candidate := makeCandidate demo_active 8 reconciliation_source 0 7.
Definition demo_track : Track :=
  {| tr_namespace := {| env := js "prod"; app := js "web" |}; tr_name := js "main"; tr_schemaVersion := 1 |}.
Definition demo_fetchParameter (r : WireRef) (v : Z) : fetched FetchedParameter :=
  Got {| fp_ref := Some r; fp_version := v; fp_value := js "7"; fp_contentType := js "text/plain" |}.
Definition demo_fetchMetadata (r : WireRef) (v : Z) : fetched SecretMetadata :=
  Got {| sm_ref := Some r; sm_versions := [{| sv_version := v; sv_state := js "enabled"; sv_destroyedAtUnixMs := 0;
                                              sv_expiresAtUnixMs := 900; sv_bound := true |}] |}.
Definition demo_fetchSecret (r : WireRef) (v : Z) (k : jstr) : fetched FetchedSecret :=
  Got {| fs_ref := Some r; fs_version := v; fs_value := k; fs_contentType := js "text/plain" |}.

Definition demo_resolve : option (res ResolutionError ReleaseSnapshot) :=
  resolveCandidate demo_sha (fun _ => js "ten bytes!") demo_fetchParameter demo_fetchMetadata demo_fetchSecret 500
    [(js "token", js "key")] 2 demo_track demo_candidate false (fun _ => Valid) false [Some 1%nat; Some 0%nat].

Lemma resolution_sound_witness :
  exists s, demo_resolve = Some (Ok s) /\
    (s_parameters s).*1 ++ (s_secrets s).*1 ≡ₚ [js "rate"; js "token"].
Proof.
  destruct demo_resolve as [[s|e]|] eqn:E; [|vm_compute in E; discriminate..].
  exists s. split; [reflexivity|].
  refine (proj1 (proj2 (proj2 (proj2 (proj2 (proj2 (proj2
    (resolution_sound demo_sha (fun _ => js "ten bytes!") demo_fetchParameter demo_fetchMetadata demo_fetchSecret 500
      [(js "token", js "key")] 2 demo_track demo_candidate (fun _ => Valid) false [Some 1%nat; Some 0%nat] s _ E)))))))).
  lia.
Defined.
