(* ===== verification/Loader.v ===== *)
(** * Loader: [sdk/typescript/src/releases/loader.ts], class [ReleaseLoader].

    The coordinator of one [run]: candidates are offered by the watch stream,
    the reconciliation reads and the initial read; one is processed at a time
    (resolve, prepare, check that it is still active, commit); a newer one
    cancels it and takes the single pending slot. Each synchronous stretch of
    the source between two [await]s is one operation, and what a suspended
    function holds (the candidate being processed with its phase, the startup
    rejections waiting for a read or an acknowledgement, the flushes in
    progress) is part of the state, so every interleaving is a list of
    operations. Resolution itself is the file Resolve; here its outcome is an
    input. Timestamps and durations are not modelled. *)
From stdpp Require Import prelude gmap strings.
From Stdlib Require Import ZArith Lia Sorted.
From S2P Require Import Prelude JsString JsMap Unicode Decimal Errors Refs DefaultsArtifact Release Resolve.

Definition MAX_ACK_DIVERGENT_FIELD_COUNT : Z := 65535.

(** ** Divergence *)

Record AckDivergence := { divergent : bool; fieldCount : Z }.
Definition NO_DIVERGENCE : AckDivergence := {| divergent := false; fieldCount := 0 |}.

(** What [releaseDivergence()] does: there is none, it throws, it returns no
    object, or an object with [divergent === true] or not and a field count
    that is a finite number (truncated) or not. *)
Inductive reporter := NoReporter | ReporterThrows | ReportsNoObject | Reports (is_true : bool) (count : option Z).

Definition divergenceOf (r : reporter) : AckDivergence :=
  match r with
  | Reports true count =>
      {| divergent := true; fieldCount := Z.min (Z.max (default 0 count) 0) MAX_ACK_DIVERGENT_FIELD_COUNT |}
  | _ => NO_DIVERGENCE
  end.

(** ** The application's prepared release *)

(** What calling [commit] or [abort] does; only [undefined] is allowed. *)
Inductive callback := ReturnsUndefined | ReturnsValue | CallbackThrows.

Record PreparedRelease := { on_commit : callback; on_abort : callback; on_divergence : reporter }.

Definition synchronousCallbackError (name : jstr) (c : callback) : option jstr :=
  match c with
  | ReturnsUndefined => None
  | ReturnsValue => Some (name ++ js " must return undefined synchronously")
  | CallbackThrows => None
  end.

Definition abort_error (c : callback) : option jstr :=
  match c with
  | CallbackThrows => Some (js "PreparedRelease.abort() threw; abort must be infallible")
  | _ => synchronousCallbackError (js "PreparedRelease.abort()") c
  end.

Definition commit_error (c : callback) : option jstr :=
  match c with
  | CallbackThrows => Some (js "PreparedRelease.commit() threw; commit must be infallible")
  | _ => synchronousCallbackError (js "PreparedRelease.commit()") c
  end.

(** ** State *)

Record Status := {
  u_state : option ReleaseState;
  u_observedVersion : Z; u_observedRevision : Z; u_observedActivationRevision : Z;
  u_appliedVersion : Z; u_appliedRevision : Z; u_appliedActivationRevision : Z;
  u_lastFailureCategory : option ReleaseRejectionCategory;
  u_reconnects : Z
}.

Record Stats := {
  n_candidates : Z; n_applied : Z; n_rejected : list (ReleaseRejectionCategory * Z); n_reconnects : Z
}.

(** A [ReleaseAcknowledgement], less the fields every one of them copies from
    the options. *)
Record ReleaseAcknowledgement := {
  a_version : Z; a_activationRevision : Z; a_sessionId : jstr; a_targetRevision : Z;
  a_state : ReleaseState; a_rejectionCategory : option ReleaseRejectionCategory;
  a_appliedDivergent : bool; a_divergentFieldCount : Z; a_sequence : Z
}.

Abbreviation stream := nat.

Record PendingAcknowledgement := {
  pa_acknowledgement : ReleaseAcknowledgement; pa_generation : Z; pa_dirty : bool; pa_flushedOn : option stream
}.

Record CandidateResult := {
  cr_candidate : Candidate; cr_applied : bool; cr_category : option ReleaseRejectionCategory;
  cr_acknowledgementGeneration : option Z; cr_fatal : option jstr
}.

(** Where [#processCandidate] is suspended, or that it has settled and its
    continuation has not run yet. *)
Inductive phase := Resolving | Preparing | Checking (p : PreparedRelease) | Settled (r : CandidateResult).

Record Task := { t_candidate : Candidate; t_aborted : bool; t_phase : phase }.

(** A startup rejection waiting for the fresh read, then for its
    acknowledgement to be sent. *)
Inductive startup := AwaitsFresh (r : CandidateResult) | AwaitsAcknowledgement (r : CandidateResult) | StartupDone.

Inductive outcome := FatalError (message : jstr) | RejectedStartup (c : ReleaseRejectionCategory) | TerminalWatch.

Inductive effect :=
| CallPrepare (c : Candidate)
| GotPrepared (c : Candidate)
| CallCommit (c : Candidate)
| CallAbort (c : Candidate)
| Send (s : stream) (a : ReleaseAcknowledgement).

Record Loader := {
  status : Status;
  stats : Stats;
  sessionId : jstr;
  sessionRegistered : bool;
  pendingAcknowledgements : list (ReleaseState * PendingAcknowledgement);
  ackGeneration : Z;
  lastSeenRevision : Z;
  currentStream : option stream;
  flushes : list (stream * list (ReleaseState * PendingAcknowledgement));
  (* the variables of [run] *)
  sequence : Z;
  latest : option Candidate;
  retryLatest : bool;
  pending : option Candidate;
  task : option Task;
  startups : list startup;
  appliedOnce : bool;
  finished : option outcome;
  runAborted : bool;
  trace : list effect
}.

Definition initial_status : Status :=
  {| u_state := None; u_observedVersion := 0; u_observedRevision := 0; u_observedActivationRevision := 0;
     u_appliedVersion := 0; u_appliedRevision := 0; u_appliedActivationRevision := 0;
     u_lastFailureCategory := None; u_reconnects := 0 |}.

Definition initial_stats : Stats := {| n_candidates := 0; n_applied := 0; n_rejected := []; n_reconnects := 0 |}.

(** [run] once the session is registered and the first read has answered;
    statistics and reconnects survive from earlier runs. *)
Definition run_begin (id : jstr) (st : Stats) (reconnects : Z) (initialRevision : Z) : Loader :=
  {| status := {| u_state := None; u_observedVersion := 0; u_observedRevision := 0; u_observedActivationRevision := 0;
                  u_appliedVersion := 0; u_appliedRevision := 0; u_appliedActivationRevision := 0;
                  u_lastFailureCategory := None; u_reconnects := reconnects |};
     stats := st; sessionId := id; sessionRegistered := true; pendingAcknowledgements := []; ackGeneration := 0;
     lastSeenRevision := initialRevision; currentStream := None; flushes := []; sequence := 0; latest := None;
     retryLatest := false; pending := None; task := None; startups := []; appliedOnce := false; finished := None;
     runAborted := false; trace := [] |}.

(** Record updates. *)
Definition set_status (l : Loader) (u : Status) (n : Stats) : Loader :=
  {| status := u; stats := n; sessionId := sessionId l; sessionRegistered := sessionRegistered l;
     pendingAcknowledgements := pendingAcknowledgements l; ackGeneration := ackGeneration l;
     lastSeenRevision := lastSeenRevision l; currentStream := currentStream l; flushes := flushes l;
     sequence := sequence l; latest := latest l; retryLatest := retryLatest l; pending := pending l; task := task l;
     startups := startups l; appliedOnce := appliedOnce l; finished := finished l; runAborted := runAborted l;
     trace := trace l |}.

Definition set_acks (l : Loader) acks gen cur fl : Loader :=
  {| status := status l; stats := stats l; sessionId := sessionId l; sessionRegistered := sessionRegistered l;
     pendingAcknowledgements := acks; ackGeneration := gen;
     lastSeenRevision := lastSeenRevision l; currentStream := cur; flushes := fl;
     sequence := sequence l; latest := latest l; retryLatest := retryLatest l; pending := pending l; task := task l;
     startups := startups l; appliedOnce := appliedOnce l; finished := finished l; runAborted := runAborted l;
     trace := trace l |}.

Definition set_seen (l : Loader) rev : Loader :=
  {| status := status l; stats := stats l; sessionId := sessionId l; sessionRegistered := sessionRegistered l;
     pendingAcknowledgements := pendingAcknowledgements l; ackGeneration := ackGeneration l;
     lastSeenRevision := rev; currentStream := currentStream l; flushes := flushes l;
     sequence := sequence l; latest := latest l; retryLatest := retryLatest l; pending := pending l; task := task l;
     startups := startups l; appliedOnce := appliedOnce l; finished := finished l; runAborted := runAborted l;
     trace := trace l |}.

Definition set_queue (l : Loader) seq lat retry pend tsk : Loader :=
  {| status := status l; stats := stats l; sessionId := sessionId l; sessionRegistered := sessionRegistered l;
     pendingAcknowledgements := pendingAcknowledgements l; ackGeneration := ackGeneration l;
     lastSeenRevision := lastSeenRevision l; currentStream := currentStream l; flushes := flushes l;
     sequence := seq; latest := lat; retryLatest := retry; pending := pend; task := tsk;
     startups := startups l; appliedOnce := appliedOnce l; finished := finished l; runAborted := runAborted l;
     trace := trace l |}.

Definition set_run (l : Loader) sta once fin ab : Loader :=
  {| status := status l; stats := stats l; sessionId := sessionId l; sessionRegistered := sessionRegistered l;
     pendingAcknowledgements := pendingAcknowledgements l; ackGeneration := ackGeneration l;
     lastSeenRevision := lastSeenRevision l; currentStream := currentStream l; flushes := flushes l;
     sequence := sequence l; latest := latest l; retryLatest := retryLatest l; pending := pending l; task := task l;
     startups := sta; appliedOnce := once; finished := fin; runAborted := ab; trace := trace l |}.

Definition emit (l : Loader) (e : effect) : Loader :=
  {| status := status l; stats := stats l; sessionId := sessionId l; sessionRegistered := sessionRegistered l;
     pendingAcknowledgements := pendingAcknowledgements l; ackGeneration := ackGeneration l;
     lastSeenRevision := lastSeenRevision l; currentStream := currentStream l; flushes := flushes l;
     sequence := sequence l; latest := latest l; retryLatest := retryLatest l; pending := pending l; task := task l;
     startups := startups l; appliedOnce := appliedOnce l; finished := finished l; runAborted := runAborted l;
     trace := trace l ++ [e] |}.

(** ** Acknowledgements *)

Definition ack (l : Loader) (c : Candidate) (state : ReleaseState) (category : option ReleaseRejectionCategory)
    (d : AckDivergence) : Loader * Z :=
  let seqno := ackGeneration l + 1 in
  let applied := bool_decide (state = applied_state) && divergent d in
  let acknowledgement :=
    {| a_version := r_version (c_release c); a_activationRevision := c_fleetRevision c;
       a_sessionId := if sessionRegistered l then sessionId l else [];
       a_targetRevision := if sessionRegistered l then c_revision c else 0;
       a_state := state; a_rejectionCategory := category; a_appliedDivergent := applied;
       a_divergentFieldCount := if applied then fieldCount d else 0; a_sequence := seqno |} in
  let replace :=
    match map_get state (pendingAcknowledgements l) with
    | Some current => a_targetRevision (pa_acknowledgement current) <=? c_revision c
    | None => true
    end in
  let acks := if replace then map_set state {| pa_acknowledgement := acknowledgement; pa_generation := seqno;
                                               pa_dirty := true; pa_flushedOn := None |} (pendingAcknowledgements l)
              else pendingAcknowledgements l in
  (set_acks l acks seqno (currentStream l) (flushes l), seqno).

(** [#flushAcknowledgements]: what it is going to send, in causal order. *)
Definition compare_generations (x y : ReleaseState * PendingAcknowledgement) : comparison :=
  pa_generation x.2 ?= pa_generation y.2.

Definition flush_items (l : Loader) (replay : bool) : list (ReleaseState * PendingAcknowledgement) :=
  js_sort compare_generations (filter (fun x => replay || pa_dirty x.2 = true) (pendingAcknowledgements l)).

Definition flush_begin (l : Loader) (s : stream) (replay : bool) : Loader :=
  set_acks l (pendingAcknowledgements l) (ackGeneration l) (currentStream l) (flushes l ++ [(s, flush_items l replay)]).

(** One iteration: the message is sent, and if the same acknowledgement is
    still the pending one it is marked as flushed on this stream. *)
Definition flush_mark (l : Loader) (s : stream) (x : ReleaseState * PendingAcknowledgement)
  : list (ReleaseState * PendingAcknowledgement) :=
  match map_get x.1 (pendingAcknowledgements l) with
  | Some current =>
      if pa_generation current =? pa_generation x.2 then
        map_set x.1 {| pa_acknowledgement := pa_acknowledgement current; pa_generation := pa_generation current;
                       pa_dirty := false; pa_flushedOn := Some s |} (pendingAcknowledgements l)
      else pendingAcknowledgements l
  | None => pendingAcknowledgements l
  end.

Definition flush_step (l : Loader) (k : nat) : Loader :=
  match flushes l !! k with
  | Some (s, x :: rest) =>
      let l := emit l (Send s (pa_acknowledgement x.2)) in
      set_acks l (flush_mark l s x) (ackGeneration l) (currentStream l) (<[k := (s, rest)]> (flushes l))
  | _ => l
  end.

Record AckRejectedEvent := {
  k_sessionId : jstr; k_reason : jstr; k_sequence : Z; k_state : jstr; k_namespace : option NamespaceRef;
  k_name : jstr; k_schemaVersion : Z; k_clientName : jstr; k_instanceId : jstr; k_version : Z;
  k_activationRevision : Z; k_targetRevision : option Z
}.

Record Identity := { o_track : Track; o_clientName : jstr; o_instanceId : jstr }.

Definition handleAcknowledgementRejected (o : Identity) (l : Loader) (e : AckRejectedEvent) : Loader :=
  match isReleaseState (k_state e) with
  | None => l
  | Some state =>
      if negb (bool_decide (k_sessionId e = if sessionRegistered l then sessionId l else []))
         || negb (bool_decide (k_reason e = js "activation_unavailable") || bool_decide (k_reason e = js "target_unavailable"))
         || (k_sequence e =? 0)
         || negb (sameNamespace (k_namespace e) (tr_namespace (o_track o)))
         || negb (bool_decide (k_name e = tr_name (o_track o)))
         || negb (k_schemaVersion e =? tr_schemaVersion (o_track o))
         || negb (bool_decide (k_clientName e = o_clientName o))
         || negb (bool_decide (k_instanceId e = o_instanceId o))
      then l
      else match map_get state (pendingAcknowledgements l) with
      | None => l
      | Some retained =>
          let a := pa_acknowledgement retained in
          if negb (pa_generation retained =? k_sequence e) || negb (a_sequence a =? k_sequence e)
             || negb (a_version a =? k_version e) || negb (bool_decide (Some (a_targetRevision a) = k_targetRevision e))
             || negb (a_activationRevision a =? k_activationRevision e) || negb (bool_decide (a_state a = state))
          then l
          else set_acks l (map_delete state (pendingAcknowledgements l)) (ackGeneration l) (currentStream l) (flushes l)
      end
  end.

(** ** Status *)

Definition observe (l : Loader) (c : Candidate) : Loader :=
  let u := status l in let n := stats l in
  set_status l
    {| u_state := u_state u; u_observedVersion := r_version (c_release c); u_observedRevision := c_revision c;
       u_observedActivationRevision := c_fleetRevision c; u_appliedVersion := u_appliedVersion u;
       u_appliedRevision := u_appliedRevision u; u_appliedActivationRevision := u_appliedActivationRevision u;
       u_lastFailureCategory := u_lastFailureCategory u; u_reconnects := u_reconnects u |}
    {| n_candidates := n_candidates n + 1; n_applied := n_applied n; n_rejected := n_rejected n;
       n_reconnects := n_reconnects n |}.

Definition set_state (u : Status) (s : ReleaseState) (failure : option ReleaseRejectionCategory) : Status :=
  {| u_state := Some s; u_observedVersion := u_observedVersion u; u_observedRevision := u_observedRevision u;
     u_observedActivationRevision := u_observedActivationRevision u; u_appliedVersion := u_appliedVersion u;
     u_appliedRevision := u_appliedRevision u; u_appliedActivationRevision := u_appliedActivationRevision u;
     u_lastFailureCategory := failure; u_reconnects := u_reconnects u |}.

Definition recordRejected (l : Loader) (c : ReleaseRejectionCategory) : Loader :=
  let n := stats l in
  set_status l (set_state (status l) rejected_state (Some c))
    {| n_candidates := n_candidates n; n_applied := n_applied n;
       n_rejected := map_set c (default 0 (map_get c (n_rejected n)) + 1) (n_rejected n);
       n_reconnects := n_reconnects n |}.

Definition reject (l : Loader) (c : Candidate) (category : ReleaseRejectionCategory) : Loader * Z :=
  let '(l, gen) := ack l c rejected_state (Some category) NO_DIVERGENCE in
  (recordRejected l category, gen).

Definition recordReconnect (l : Loader) : Loader :=
  let u := status l in let n := stats l in
  set_status l
    {| u_state := u_state u; u_observedVersion := u_observedVersion u; u_observedRevision := u_observedRevision u;
       u_observedActivationRevision := u_observedActivationRevision u; u_appliedVersion := u_appliedVersion u;
       u_appliedRevision := u_appliedRevision u; u_appliedActivationRevision := u_appliedActivationRevision u;
       u_lastFailureCategory := u_lastFailureCategory u; u_reconnects := u_reconnects u + 1 |}
    {| n_candidates := n_candidates n; n_applied := n_applied n; n_rejected := n_rejected n;
       n_reconnects := n_reconnects n + 1 |}.

Definition record_applied (l : Loader) (c : Candidate) : Loader :=
  let u := status l in let n := stats l in
  set_status l
    {| u_state := Some applied_state; u_observedVersion := u_observedVersion u; u_observedRevision := u_observedRevision u;
       u_observedActivationRevision := u_observedActivationRevision u; u_appliedVersion := r_version (c_release c);
       u_appliedRevision := c_revision c; u_appliedActivationRevision := c_fleetRevision c;
       u_lastFailureCategory := None; u_reconnects := u_reconnects u |}
    {| n_candidates := n_candidates n; n_applied := n_applied n + 1; n_rejected := n_rejected n;
       n_reconnects := n_reconnects n |}.

(** ** Processing a candidate *)

Definition with_task (l : Loader) (t : option Task) : Loader :=
  set_queue l (sequence l) (latest l) (retryLatest l) (pending l) t.

Definition settle (l : Loader) (t : Task) (r : CandidateResult) : Loader :=
  with_task l (Some {| t_candidate := t_candidate t; t_aborted := t_aborted t; t_phase := Settled r |}).

Definition rejected_result (c : Candidate) (category : ReleaseRejectionCategory) (gen : option Z) (fatal : option jstr)
  : CandidateResult :=
  {| cr_candidate := c; cr_applied := false; cr_category := Some category; cr_acknowledgementGeneration := gen;
     cr_fatal := fatal |}.

(** A rejection that returns. *)
Definition reject_and_settle (l : Loader) (t : Task) (category : ReleaseRejectionCategory) (fatal : option jstr) : Loader :=
  let '(l, gen) := reject l (t_candidate t) category in
  settle l t (rejected_result (t_candidate t) category (Some gen) fatal).

(** [abortPrepared()] followed by the rejection it decides. *)
Definition abort_and_reject (l : Loader) (t : Task) (p : PreparedRelease) (category : ReleaseRejectionCategory) : Loader :=
  let l := emit l (CallAbort (t_candidate t)) in
  match abort_error (on_abort p) with
  | Some fatal => reject_and_settle l t internal_category (Some fatal)
  | None => reject_and_settle l t category None
  end.

(** [#resolveCandidate] settled; on success [prepare] is called. *)
Definition on_resolved (l : Loader) (outcome : res ResolutionError unit) : Loader :=
  match task l with
  | Some ({| t_phase := Resolving |} as t) =>
      match outcome with
      | Throw e => reject_and_settle l t (resolutionCategory e (t_aborted t)) None
      | Ok _ =>
          let '(l, _) := ack l (t_candidate t) received None NO_DIVERGENCE in
          let l := set_status l (set_state (status l) received (u_lastFailureCategory (status l))) (stats l) in
          let l := emit l (CallPrepare (t_candidate t)) in
          with_task l (Some {| t_candidate := t_candidate t; t_aborted := t_aborted t; t_phase := Preparing |})
      end
  | _ => l
  end.

(** [prepare] settled: with a prepared release, or with an error and what it
    carries as its category (an unusable result is such an error). *)
Definition on_prepared (l : Loader) (outcome : res (option jstr) PreparedRelease) : Loader :=
  match task l with
  | Some ({| t_phase := Preparing |} as t) =>
      match outcome with
      | Throw property =>
          reject_and_settle l t
            (if t_aborted t then superseded else default prepare_failed (classifiedReleaseCategory property)) None
      | Ok p =>
          let l := emit l (GotPrepared (t_candidate t)) in
          if t_aborted t then abort_and_reject l t p superseded
          else
            let '(l, _) := ack l (t_candidate t) prepared_state None NO_DIVERGENCE in
            let l := set_status l (set_state (status l) prepared_state (u_lastFailureCategory (status l))) (stats l) in
            with_task l (Some {| t_candidate := t_candidate t; t_aborted := t_aborted t; t_phase := Checking p |})
      end
  | _ => l
  end.

(** [#getActive]: the transport's answer, or that it threw. *)
Record InstanceReleaseTarget := {
  x_release : option ConfigurationRelease; x_targetRevision : Z; x_activationRevision : Z
}.

(** [None]: the read threw, or its target belongs to another track. *)
Definition getActive (o : Identity) (answer : option InstanceReleaseTarget) : option InstanceReleaseTarget :=
  match answer with
  | Some x =>
      match x_release x with
      | Some r => if releaseMatchesTrack r (o_track o) then Some x else None
      | None => Some x
      end
  | None => None
  end.

(** The candidate of an answer that has a release. *)
Definition active_candidate (o : Identity) (answer : option InstanceReleaseTarget) : option Candidate :=
  match getActive o answer with
  | Some x => match x_release x with
              | Some r => Some (makeCandidate r (x_targetRevision x) reconciliation_source 0 (x_activationRevision x))
              | None => None
              end
  | None => None
  end.

(** The read that follows [prepare] answered: the candidate is committed only
    if it is still the active one and has not been cancelled. *)
Definition on_active (o : Identity) (l : Loader) (answer : option InstanceReleaseTarget) : Loader :=
  match task l with
  | Some ({| t_phase := Checking p |} as t) =>
      let c := t_candidate t in
      match active_candidate o answer with
      | None => abort_and_reject l t p (if t_aborted t then superseded else active_check_failed)
      | Some active =>
          if t_aborted t || negb (sameActiveCandidate c active) then abort_and_reject l t p superseded
          else
            let l := emit l (CallCommit c) in
            match commit_error (on_commit p) with
            | Some fatal => settle (recordRejected l internal_category) t (rejected_result c internal_category None (Some fatal))
            | None =>
                let '(l, _) := ack l c applied_state None (divergenceOf (on_divergence p)) in
                settle (record_applied l c) t
                  {| cr_candidate := c; cr_applied := true; cr_category := None; cr_acknowledgementGeneration := None;
                     cr_fatal := None |}
            end
      end
  | _ => l
  end.

(** ** The coordinator *)

Definition start (l : Loader) (c : Candidate) : Loader :=
  with_task l (Some {| t_candidate := c; t_aborted := runAborted l; t_phase := Resolving |}).

Definition with_sequence (c : Candidate) (n : Z) : Candidate :=
  {| c_release := c_release c; c_revision := c_revision c; c_source := c_source c; c_sequence := n;
     c_fleetRevision := c_fleetRevision c |}.

(** The guards of [offer] that drop a candidate. *)
Definition offer_ignored (o : Identity) (l : Loader) (incoming : Candidate) : bool :=
  runAborted l || negb (releaseMatchesTrack (c_release incoming) (o_track o)) ||
  match latest l with
  | Some lat =>
      (c_revision incoming <? c_revision lat) ||
      (sameQueuedCandidate incoming lat
       && negb (retryLatest l && bool_decide (c_source incoming = reconciliation_source)))
  | None => false
  end.

Definition offer (o : Identity) (l : Loader) (incoming : Candidate) : Loader :=
  if offer_ignored o l incoming then l
  else
    let n := sequence l + 1 in
    let c := with_sequence incoming n in
    let l := observe (set_queue l n (Some c) false (pending l) (task l)) c in
    match task l with
    | Some t =>
        set_queue l n (Some c) false (Some c)
          (Some {| t_candidate := t_candidate t; t_aborted := true; t_phase := t_phase t |})
    | None => start l c
    end.

(** [finished.reject]: only the first settles the promise. *)
Definition finish (l : Loader) (o : outcome) : Loader :=
  set_run l (startups l) (appliedOnce l) (match finished l with Some f => Some f | None => Some o end) (runAborted l).

Definition start_pending (l : Loader) : Loader :=
  match pending l with
  | Some next =>
      if runAborted l then l
      else start (set_queue l (sequence l) (latest l) (retryLatest l) None (task l)) next
  | None => l
  end.

(** The continuation of [#processCandidate] in [start]. *)
Definition on_settled (l : Loader) : Loader :=
  match task l with
  | Some {| t_phase := Settled r |} =>
      let l := with_task l None in
      let l := set_run l (startups l) (appliedOnce l || cr_applied r) (finished l) (runAborted l) in
      match cr_fatal r with
      | Some message => finish l (FatalError message)
      | None =>
          if negb (bool_decide (Some (c_sequence (cr_candidate r)) = c_sequence <$> latest l)) then start_pending l
          else match cr_category r with
          | Some category =>
              if bool_decide (category = superseded) then start_pending l
              else if negb (appliedOnce l) then
                set_run l (startups l ++ [AwaitsFresh r]) (appliedOnce l) (finished l) (runAborted l)
              else start_pending (set_queue l (sequence l) (latest l) true (pending l) (task l))
          | None => start_pending l
          end
      end
  | _ => l
  end.

Definition set_startup (l : Loader) (k : nat) (s : startup) : Loader :=
  set_run l (<[k := s]> (startups l)) (appliedOnce l) (finished l) (runAborted l).

(** The fresh read of a startup rejection answered: a different active
    release gets its turn, otherwise the rejection's acknowledgement is
    awaited. *)
Definition on_fresh (o : Identity) (l : Loader) (k : nat) (answer : option InstanceReleaseTarget) : Loader :=
  match startups l !! k with
  | Some (AwaitsFresh r) =>
      match active_candidate o answer with
      | Some fresh =>
          if sameActiveCandidate (cr_candidate r) fresh then set_startup l k (AwaitsAcknowledgement r)
          else offer o (set_startup l k StartupDone) fresh
      | None => set_startup l k (AwaitsAcknowledgement r)
      end
  | _ => l
  end.

(** The acknowledgement was sent (or the wait for it timed out) and the
    stream was closed: the run rejects. *)
Definition on_acknowledged (l : Loader) (k : nat) : Loader :=
  match startups l !! k with
  | Some (AwaitsAcknowledgement r) =>
      match cr_category r with
      | Some category => finish (set_startup l k StartupDone) (RejectedStartup category)
      | None => l
      end
  | _ => l
  end.

(** [stop], the caller's signal, or the end of [run]: the candidate being
    processed is linked to the run. *)
Definition abort_run (l : Loader) : Loader :=
  let l := set_run l (startups l) (appliedOnce l) (finished l) true in
  with_task l ((fun t => {| t_candidate := t_candidate t; t_aborted := true; t_phase := t_phase t |}) <$> task l).

(** ** The watch stream *)

Definition advance_seen (l : Loader) (revision : Z) : Loader :=
  if lastSeenRevision l <? revision then set_seen l revision else l.

Definition on_target (o : Identity) (l : Loader) (revision : Z) (x : InstanceReleaseTarget) : Loader :=
  match x_release x with
  | Some r =>
      if sessionRegistered l && releaseMatchesTrack r (o_track o) then
        offer o (advance_seen l revision)
          (makeCandidate r (x_targetRevision x) reconciliation_source 0 (x_activationRevision x))
      else l
  | None => l
  end.

(** The stream is up: everything pending is replayed on it, then it becomes
    the current one, on which flushes are scheduled. *)
Definition stream_opened (l : Loader) (s : stream) : Loader := flush_begin l s true.
Definition stream_current (l : Loader) (s : stream) : Loader :=
  set_acks l (pendingAcknowledgements l) (ackGeneration l) (Some s) (flushes l).
Definition stream_closed (l : Loader) (s : stream) : Loader :=
  if bool_decide (currentStream l = Some s)
  then set_acks l (pendingAcknowledgements l) (ackGeneration l) None (flushes l) else l.

(** The errors that end the watch loop, and with it the run. *)
Definition terminalReleaseWatchError (error : JsError) : option JsError :=
  match mapGrpcError error with
  | Some (Some mapped) =>
      if existsb (fun c => isKmsError mapped (Some c))
           [not_found; invalid_argument; permission_denied; failed_precondition; unauthenticated]
      then Some mapped else None
  | _ => None
  end.

(** [releaseReconnectBackoff]; [draw c] is [Math.floor(random() * c)]. *)
Definition reconnect_ceiling (attempt : Z) : Z := Z.min 30000 (250 * 2 ^ Z.min (Z.max 0 attempt) 30).
Definition releaseReconnectBackoff (draw : Z -> Z) (attempt : Z) : Z := Z.max 10 (draw (reconnect_ceiling attempt)).

(** ** Runs *)

Inductive op :=
| OOffer (answer : option InstanceReleaseTarget)
| OResolved (outcome : res ResolutionError unit)
| OPrepared (outcome : res (option jstr) PreparedRelease)
| OActive (answer : option InstanceReleaseTarget)
| OSettled
| OFresh (k : nat) (answer : option InstanceReleaseTarget)
| OAcknowledged (k : nat)
| OAbort
| OTarget (revision : Z) (x : InstanceReleaseTarget)
| OHeartbeat (revision : Z)
| OAckRejected (e : AckRejectedEvent)
| OOpened (s : stream)
| OCurrent (s : stream)
| OClosed (s : stream)
| OWatchFailed
| OReconnect
| OFlush (s : stream) (replay : bool)
| OFlushStep (k : nat).

Section run.
Context (o : Identity).

Definition step (l : Loader) (x : op) : Loader :=
  match x with
  | OOffer answer => match active_candidate o answer with Some c => offer o l c | None => l end
  | OResolved outcome => on_resolved l outcome
  | OPrepared outcome => on_prepared l outcome
  | OActive answer => on_active o l answer
  | OSettled => on_settled l
  | OFresh k answer => on_fresh o l k answer
  | OAcknowledged k => on_acknowledged l k
  | OAbort => abort_run l
  | OTarget revision x => on_target o l revision x
  | OHeartbeat revision => advance_seen l revision
  | OAckRejected e => handleAcknowledgementRejected o l e
  | OOpened s => stream_opened l s
  | OCurrent s => stream_current l s
  | OClosed s => stream_closed l s
  | OWatchFailed => finish l TerminalWatch
  | OReconnect => recordReconnect l
  | OFlush s replay => flush_begin l s replay
  | OFlushStep k => flush_step l k
  end.

Definition run (l : Loader) (ops : list op) : Loader := foldl step l ops.
End run.
