(* ===== verification/LoaderProofs.v ===== *)
(** * LoaderProofs: what the release loader guarantees.

    Invariants of every interleaving of the coordinator, and from them: only
    the newest candidate that the server still serves is committed, committed
    releases never go back, every prepared release is committed or aborted
    exactly once, acknowledgements are neither lost nor reordered, and after
    the first commit a run ends only for one of the causes listed here, the
    last known good release staying in place. *)
From stdpp Require Import prelude gmap strings sorting.
From Stdlib Require Import ZArith Lia Sorted.
From S2P Require Import Prelude JsString JsMap Unicode Decimal Errors Refs DefaultsArtifact Release Resolve Loader.

(** ** The pieces of the trace *)

Definition commits (tr : list effect) : list Candidate :=
  omap (fun e => match e with CallCommit c => Some c | _ => None end) tr.
Definition obtained (tr : list effect) : list Candidate :=
  omap (fun e => match e with GotPrepared c => Some c | _ => None end) tr.
Definition disposed (tr : list effect) : list Candidate :=
  omap (fun e => match e with CallCommit c | CallAbort c => Some c | _ => None end) tr.

(** The prepared release the loader holds and has not disposed of. *)
Definition in_hand (l : Loader) : list Candidate :=
  match task l with Some {| t_candidate := c; t_phase := Checking _ |} => [c] | _ => [] end.

Definition is_settled (t : Task) : bool := match t_phase t with Settled _ => true | _ => false end.

(** ** The queue *)

Record queue_ok (l : Loader) : Prop := {
  qo_settled : forall t r, task l = Some t -> t_phase t = Settled r -> cr_candidate r = t_candidate t;
  qo_latest : forall c, latest l = Some c -> c_sequence c = sequence l;
  qo_none : latest l = None -> task l = None /\ pending l = None /\ commits (trace l) = [] /\ sequence l = 0;
  qo_abort : forall t, task l = Some t -> t_aborted t = false -> runAborted l = false;
  qo_task : forall t, finished l = None -> task l = Some t -> t_aborted t = false -> latest l = Some (t_candidate t);
  qo_pending : forall p, finished l = None -> runAborted l = false -> pending l = Some p ->
    latest l = Some p /\ exists t, task l = Some t /\ t_aborted t = true /\ c_sequence (t_candidate t) < c_sequence p;
  qo_commits : finished l = None ->
    StronglySorted (fun a b => c_sequence a < c_sequence b /\ c_revision a <= c_revision b) (commits (trace l));
  qo_bound : finished l = None -> forall c d, c ∈ commits (trace l) -> latest l = Some d ->
    c_sequence c <= sequence l /\ c_revision c <= c_revision d;
  qo_fresh : finished l = None -> forall c t, c ∈ commits (trace l) -> task l = Some t ->
    c_sequence c <= c_sequence (t_candidate t) /\ (is_settled t = false -> c_sequence c < c_sequence (t_candidate t));
  qo_seq : forall t, task l = Some t -> c_sequence (t_candidate t) <= sequence l;
  qo_pseq : forall p, pending l = Some p -> c_sequence p <= sequence l
}.

(** Operations that leave the queue, the run flags and the commits alone. *)
Definition same_queue (l l' : Loader) : Prop :=
  sequence l' = sequence l /\ latest l' = latest l /\ pending l' = pending l /\ task l' = task l /\
  finished l' = finished l /\ runAborted l' = runAborted l /\ commits (trace l') = commits (trace l).

Lemma same_queue_ok l l' : same_queue l l' -> queue_ok l -> queue_ok l'.
Proof.
  intros (E1 & E2 & E3 & E4 & E5 & E6 & E7) [H1 H2 H3 H4 H5 H6 H7 H8 H9 H10 H11].
  split; rewrite ?E1, ?E2, ?E3, ?E4, ?E5, ?E6, ?E7; done.
Qed.

Lemma commits_app tr es : commits (tr ++ es) = commits tr ++ commits es.
Proof. apply omap_app. Qed.
Lemma obtained_app tr es : obtained (tr ++ es) = obtained tr ++ obtained es.
Proof. apply omap_app. Qed.
Lemma disposed_app tr es : disposed (tr ++ es) = disposed tr ++ disposed es.
Proof. apply omap_app. Qed.

#[export] Hint Rewrite commits_app obtained_app disposed_app : kms.

Lemma ack_queue l c s cat d : same_queue l (ack l c s cat d).1.
Proof. done. Qed.

Lemma reject_queue l c cat : same_queue l (reject l c cat).1.
Proof. done. Qed.

(** The task moves to another phase without a commit. *)
Lemma phase_ok l l' t ph :
  queue_ok l -> same_queue l l' -> task l = Some t -> is_settled t = false ->
  (forall r, ph = Settled r -> cr_candidate r = t_candidate t) ->
  queue_ok (with_task l' (Some {| t_candidate := t_candidate t; t_aborted := t_aborted t; t_phase := ph |})).
Proof.
  intros [H1 H2 H3 H4 H5 H6 H7 H8 H9 H10 H11] (E1 & E2 & E3 & E4 & E5 & E6 & E7) Ht Hs Hph.
  split; simpl; rewrite ?E1, ?E2, ?E3, ?E5, ?E6, ?E7; try done.
  - intros t0 r [= <-]. simpl. apply Hph.
  - intros Hl. destruct (H3 Hl) as (Hn & _). congruence.
  - intros t0 [= <-]. simpl. by apply H4.
  - intros t0 Hf [= <-]. simpl. by apply H5.
  - intros p Hf Hr Hp. destruct (H6 p Hf Hr Hp) as (Hl & t' & Ht' & Ha & Hlt). split; [done|].
    rewrite Ht in Ht'. injection Ht' as <-. by eexists.
  - intros Hf c t0 Hc [= <-]. simpl. destruct (H9 Hf c t Hc Ht) as [? Hx]. split; [done|]. intros _. by apply Hx.
  - intros t0 [= <-]. by apply (H10 t).
Qed.

(** The task commits: it is the latest candidate. *)
Lemma commit_phase_ok l l' t r :
  queue_ok l -> task l = Some t -> is_settled t = false -> t_aborted t = false ->
  cr_candidate r = t_candidate t ->
  sequence l' = sequence l -> latest l' = latest l -> pending l' = pending l -> finished l' = finished l ->
  runAborted l' = runAborted l -> commits (trace l') = commits (trace l) ++ [t_candidate t] ->
  queue_ok (settle l' t r).
Proof.
  intros [H1 H2 H3 H4 H5 H6 H7 H8 H9 H10 H11] Ht Hs Ha Hr E1 E2 E3 E5 E6 E7.
  assert (latest l <> None) as Hl by (intros Hl; destruct (H3 Hl) as (Hn & _); congruence).
  split; simpl; rewrite ?E1, ?E2, ?E3, ?E5, ?E6, ?E7; try done.
  - intros t0 r0 [= <-]. simpl. by intros [= <-].
  - intros t0 [= <-]. simpl. by apply H4.
  - intros t0 Hf [= <-]. simpl. by apply H5.
  - intros p Hf Hr' Hp. destruct (H6 p Hf Hr' Hp) as (_ & t' & Ht' & Ha' & _). congruence.
  - intros Hf. specialize (H7 Hf). specialize (H5 t Hf Ht Ha). apply StronglySorted_app_2; [|done|by repeat constructor].
    intros a b Hin Hb. apply list_elem_of_singleton in Hb as ->.
    destruct (H9 Hf a t Hin Ht) as [_ Hx]. destruct (H8 Hf a _ Hin H5) as [_ ?]. split; [by apply Hx|done].
  - intros Hf c d Hc Hd. apply elem_of_app in Hc as [Hc|Hc]; [by apply H8|]. apply list_elem_of_singleton in Hc as ->.
    specialize (H5 t Hf Ht Ha). rewrite Hd in H5. injection H5 as <-. rewrite (H2 _ Hd). lia.
  - intros Hf c t0 Hc [= <-]. simpl. split; [|done]. apply elem_of_app in Hc as [Hc|Hc].
    + by apply (H9 Hf c t Hc Ht).
    + apply list_elem_of_singleton in Hc as ->. lia.
  - intros t0 [= <-]. by apply (H10 t).
Qed.

Lemma same_queue_emit l e : (forall c, e <> CallCommit c) -> same_queue l (emit l e).
Proof.
  intros He. unfold same_queue. simpl. rewrite commits_app. split_and!; try done.
  destruct e; simpl; try by rewrite app_nil_r. by destruct (He c).
Qed.

Lemma same_queue_trans l1 l2 l3 : same_queue l1 l2 -> same_queue l2 l3 -> same_queue l1 l3.
Proof. unfold same_queue. intuition congruence. Qed.

Lemma reject_settle_ok l l0 t cat fatal :
  queue_ok l -> same_queue l l0 -> task l = Some t -> is_settled t = false ->
  queue_ok (reject_and_settle l0 t cat fatal).
Proof.
  intros Hq Hsq Ht Hs. unfold reject_and_settle. destruct (reject l0 (t_candidate t) cat) as [l1 gen] eqn:E.
  apply (phase_ok l l1 t); [done| |done|done|by intros r [= <-]].
  eapply same_queue_trans; [exact Hsq|]. pose proof (reject_queue l0 (t_candidate t) cat) as H. by rewrite E in H.
Qed.

Lemma abort_reject_ok l l0 t p cat :
  queue_ok l -> same_queue l l0 -> task l = Some t -> is_settled t = false ->
  queue_ok (abort_and_reject l0 t p cat).
Proof.
  intros Hq Hsq Ht Hs. unfold abort_and_reject.
  assert (same_queue l (emit l0 (CallAbort (t_candidate t)))) as H
    by (eapply same_queue_trans; [exact Hsq|by apply same_queue_emit]).
  destruct (abort_error (on_abort p)); by apply (reject_settle_ok l).
Qed.

Lemma on_resolved_ok l out : queue_ok l -> queue_ok (on_resolved l out).
Proof.
  intros Hq. unfold on_resolved. destruct (task l) as [[c ab ph]|] eqn:Ht; [|done]. destruct ph; try done.
  destruct out as [u|e]; [|by apply (reject_settle_ok l)].
  simpl. apply (phase_ok l _ {| t_candidate := c; t_aborted := ab; t_phase := Resolving |}); try done.
  unfold same_queue. simpl. rewrite commits_app. simpl. by rewrite app_nil_r.
Qed.

Lemma on_prepared_ok l out : queue_ok l -> queue_ok (on_prepared l out).
Proof.
  intros Hq. unfold on_prepared. destruct (task l) as [[c ab ph]|] eqn:Ht; [|done]. destruct ph; try done.
  destruct out as [p|e]; [|by apply (reject_settle_ok l)]. cbv zeta. simpl.
  destruct ab; [apply (abort_reject_ok l); try done; by apply same_queue_emit|].
  apply (phase_ok l _ {| t_candidate := c; t_aborted := false; t_phase := Preparing |}); try done.
  unfold same_queue. simpl. rewrite commits_app. simpl. by rewrite app_nil_r.
Qed.

Lemma on_active_ok o l answer : queue_ok l -> queue_ok (on_active o l answer).
Proof.
  intros Hq. unfold on_active. destruct (task l) as [[c ab ph]|] eqn:Ht; [|done]. destruct ph; try done. simpl.
  destruct (active_candidate o answer) as [act|]; [|by apply (abort_reject_ok l)].
  destruct (ab || negb (sameActiveCandidate c act)) eqn:E; [by apply (abort_reject_ok l)|].
  apply orb_false_elim in E as [-> _].
  set (t := {| t_candidate := c; t_aborted := false; t_phase := Checking p |}) in *.
  destruct (commit_error (on_commit p)); apply (commit_phase_ok l _ t); try done; simpl; by rewrite commits_app.
Qed.

(** ** Offers and continuations *)

Lemma start_ok l c :
  queue_ok l -> latest l <> None ->
  (finished l = None -> runAborted l = false -> latest l = Some c /\ pending l = None) ->
  (finished l = None -> forall d, d ∈ commits (trace l) -> c_sequence d < c_sequence c) ->
  c_sequence c <= sequence l ->
  queue_ok (start l c).
Proof.
  intros [H1 H2 H3 H4 H5 H6 H7 H8 H9 H10 H11] Hl Hp Hc Hcs. split; simpl; try done.
  - intros t r [= <-]. done.
  - intros t [= <-]. simpl. done.
  - intros t Hf [= <-]. simpl. intros Hr. by apply Hp.
  - intros p Hf Hr Hp'. destruct (Hp Hf Hr). congruence.
  - intros Hf d t Hd [= <-]. simpl. specialize (Hc Hf d Hd). lia.
  - by intros t [= <-].
Qed.

(** The queue once the task is gone, as long as nothing waits for it. *)
Lemma idle_ok l l' :
  queue_ok l -> sequence l' = sequence l -> latest l' = latest l -> task l' = None ->
  (finished l' = None -> finished l = None) -> runAborted l' = runAborted l -> commits (trace l') = commits (trace l) ->
  (latest l = None -> pending l' = None) ->
  (finished l' = None -> runAborted l = false -> pending l' = None) ->
  (forall p, pending l' = Some p -> c_sequence p <= sequence l) ->
  queue_ok l'.
Proof.
  intros [H1 H2 H3 H4 H5 H6 H7 H8 H9 H10 H11] E1 E2 Et Ef Er Ec Hp1 Hp2 Hp3.
  split; rewrite ?E1, ?E2, ?Et, ?Er, ?Ec; try done; auto.
  - intros Hn. destruct (H3 Hn) as (_ & _ & ? & ?). auto.
  - intros p Hf Hr Hp. rewrite (Hp2 Hf Hr) in Hp. done.
Qed.

Lemma offer_ok o l c : queue_ok l -> queue_ok (offer o l c).
Proof.
  intros Hq. unfold offer. destruct (offer_ignored o l c) eqn:Eg; [done|]. cbv zeta.
  unfold offer_ignored in Eg. apply orb_false_elim in Eg as [Eg Elat]. apply orb_false_elim in Eg as [Erun Etrack].
  set (c' := with_sequence c (sequence l + 1)).
  pose proof Hq as [H1 H2 H3 H4 H5 H6 H7 H8 H9 H10 H11].
  assert (finished l = None -> forall d, d ∈ commits (trace l) -> c_sequence d <= sequence l /\ c_revision d <= c_revision c) as Hb.
  { intros Hf d Hd. destruct (latest l) as [lat|] eqn:El.
    - destruct (H8 Hf d lat Hd eq_refl) as [? ?]. apply orb_false_elim in Elat as [Elt _]. bool_prop. lia.
    - destruct (H3 eq_refl) as (_ & _ & Hc & _). rewrite Hc in Hd. by apply elem_of_nil in Hd. }
  simpl. destruct (task l) as [t|] eqn:Ht.
  - assert (c_sequence (t_candidate t) <= sequence l) as Hts by (by apply H10).
    split; simpl; try done.
    + intros t0 r [= <-]. simpl. by apply H1.
    + intros d [= <-]. done.
    + intros t0 Hf [= <-]. done.
    + intros p Hf Hr [= <-]. split; [done|]. eexists. split; [reflexivity|]. split; [done|]. simpl. lia.
    + intros Hf d x Hd [= <-]. simpl. specialize (Hb Hf d Hd). lia.
    + intros Hf d t0 Hd [= <-]. simpl. exact (H9 Hf d t Hd eq_refl).
    + intros t0 [= <-]. simpl. lia.
    + intros p [= <-]. simpl. lia.
  - assert (finished l = None -> runAborted l = false -> pending l = None) as Hpn.
    { intros Hf Hr. destruct (pending l) as [p|] eqn:Ep; [|done].
      destruct (H6 p Hf Hr eq_refl) as (_ & t & ? & _). done. }
    apply start_ok; simpl; [|done|by auto| |lia].
    + split; simpl; try done.
      * intros d [= <-]. done.
      * intros p Hf Hr Hp. rewrite Hpn in Hp by done. done.
      * intros Hf d x Hd [= <-]. simpl. specialize (Hb Hf d Hd). lia.
      * intros p Hp. apply H11 in Hp. lia.
    + intros Hf d Hd. specialize (Hb Hf d Hd). lia.
Qed.

Lemma start_pending_ok l l' t r :
  queue_ok l -> task l = Some t -> t_phase t = Settled r ->
  sequence l' = sequence l -> latest l' = latest l -> pending l' = pending l -> task l' = None ->
  finished l' = finished l -> runAborted l' = runAborted l -> commits (trace l') = commits (trace l) ->
  queue_ok (start_pending l').
Proof.
  intros Hq Ht Hph E1 E2 E3 E4 E5 E6 E7. pose proof Hq as [H1 H2 H3 H4 H5 H6 H7 H8 H9 H10 H11].
  assert (latest l <> None) as Hl by (intros Hn; destruct (H3 Hn); congruence).
  unfold start_pending. rewrite E3. destruct (pending l) as [p|] eqn:Ep.
  2:{ apply (idle_ok l); try done; congruence. }
  destruct (runAborted l') eqn:Er.
  { apply (idle_ok l); try done; try congruence. intros q Hq'. rewrite E3 in Hq'. by apply H11. }
  apply start_ok; simpl; rewrite ?E2, ?E5, ?E7, ?E1.
  - apply (idle_ok l); simpl; try done; congruence.
  - done.
  - intros Hf _. split; [|done]. apply H6; [done|congruence|done].
  - intros Hf d Hd. destruct (H6 p Hf ltac:(congruence) eq_refl) as (_ & t' & Ht' & _ & Hlt).
    rewrite Ht in Ht'. injection Ht' as <-. destruct (H9 Hf d t Hd Ht). lia.
  - by apply H11.
Qed.

Lemma on_settled_ok l : queue_ok l -> queue_ok (on_settled l).
Proof.
  intros Hq. unfold on_settled. destruct (task l) as [[c ab ph]|] eqn:Ht; [|done]. destruct ph as [| | |r]; try done.
  cbv zeta. pose proof Hq as [H1 H2 H3 H4 H5 H6 H7 H8 H9 H10 H11].
  set (t := {| t_candidate := c; t_aborted := ab; t_phase := Settled r |}) in *.
  pose proof (H1 t r Ht eq_refl) as Hr. simpl in Hr.
  assert (latest l <> None) as Hl by (intros Hn; destruct (H3 Hn); congruence).
  destruct (cr_fatal r) as [m|].
  { apply (idle_ok l); simpl; try done; try congruence.
    - by destruct (finished l).
    - by destruct (finished l). }
  assert (forall l', sequence l' = sequence l -> latest l' = latest l -> pending l' = pending l -> task l' = None ->
    finished l' = finished l -> runAborted l' = runAborted l -> trace l' = trace l -> queue_ok (start_pending l')) as Hsp.
  { intros l' ? ? ? ? ? ? Htr. apply (start_pending_ok l l' t r); try done. by rewrite Htr. }
  case_bool_decide as Hlat; simpl; [|by apply Hsp].
  destruct (cr_category r) as [cat|]; [|by apply Hsp].
  case_bool_decide; [by apply Hsp|]. destruct (negb _); [|by apply Hsp].
  apply (idle_ok l); simpl; try done.
  intros Hf Hra. destruct (pending l) as [p|] eqn:Ep; [|done].
  destruct (H6 p Hf Hra eq_refl) as (Hlp & t' & Ht' & _ & Hlt). rewrite Ht in Ht'. injection Ht' as <-.
  change (Some (c_sequence (cr_candidate r)) = c_sequence <$> latest l) in Hlat.
  rewrite Hlp in Hlat. injection Hlat as He. simpl in Hlt. rewrite Hr in He. lia.
Qed.

Lemma on_fresh_ok o l k answer : queue_ok l -> queue_ok (on_fresh o l k answer).
Proof.
  intros Hq. unfold on_fresh. destruct (startups l !! k) as [[r|r|]|]; try done.
  assert (forall s, queue_ok (set_startup l k s)) as Hs by (intros s; by apply (same_queue_ok l)).
  destruct (active_candidate o answer) as [c|]; [|by apply Hs].
  destruct (sameActiveCandidate _ c); [by apply Hs|]. by apply offer_ok.
Qed.

Lemma finish_ok l out : queue_ok l -> queue_ok (finish l out).
Proof.
  intros [H1 H2 H3 H4 H5 H6 H7 H8 H9 H10 H11].
  split; simpl; try done; intros; (destruct (finished l) eqn:Ef; [done|]); done.
Qed.

Lemma abort_run_ok l : queue_ok l -> queue_ok (abort_run l).
Proof.
  intros [H1 H2 H3 H4 H5 H6 H7 H8 H9 H10 H11]. unfold abort_run.
  split; simpl; try done; destruct (task l) as [t|] eqn:Ht; simpl; try done.
  - intros t0 r [= <-]. simpl. by apply H1.
  - intros Hn. by destruct (H3 Hn).
  - by intros t0 [= <-].
  - by intros t0 _ [= <-].
  - intros Hf c t0 Hc [= <-]. simpl. exact (H9 Hf c t Hc eq_refl).
  - intros t0 [= <-]. simpl. by apply H10.
Qed.

Lemma step_queue o l x : queue_ok l -> queue_ok (step o l x).
Proof.
  intros Hq. destruct x as [answer|out|out|answer| |k answer|k| |rev x|rev|e|s|s|s| | |s replay|k]; simpl.
  - destruct (active_candidate o answer); [by apply offer_ok|done].
  - by apply on_resolved_ok.
  - by apply on_prepared_ok.
  - by apply on_active_ok.
  - by apply on_settled_ok.
  - by apply on_fresh_ok.
  - unfold on_acknowledged. destruct (startups l !! k) as [[r|r|]|]; try done. destruct (cr_category r); [|done].
    by apply finish_ok, (same_queue_ok l).
  - by apply abort_run_ok.
  - unfold on_target. destruct (x_release x); [|done]. destruct (_ && _); [|done]. apply offer_ok.
    unfold advance_seen. destruct (_ <? _); [by apply (same_queue_ok l)|done].
  - unfold advance_seen. destruct (_ <? _); [by apply (same_queue_ok l)|done].
  - unfold handleAcknowledgementRejected. destruct (isReleaseState _); [|done]. destruct (_ || _); [done|].
    destruct (map_get _ _); [|done]. cbv zeta. destruct (_ || _); [done|by apply (same_queue_ok l)].
  - by apply (same_queue_ok l).
  - by apply (same_queue_ok l).
  - unfold stream_closed. case_bool_decide; [by apply (same_queue_ok l)|done].
  - by apply finish_ok.
  - by apply (same_queue_ok l).
  - by apply (same_queue_ok l).
  - unfold flush_step. destruct (flushes l !! k) as [[s [|x rest]]|]; try done.
    apply (same_queue_ok l); [|done]. unfold same_queue. simpl. rewrite commits_app. simpl. by rewrite app_nil_r.
Qed.

Lemma begin_queue id st rec rev : queue_ok (run_begin id st rec rev).
Proof. split; simpl; try done. intros _. constructor. Qed.

Lemma run_queue o id st rec rev ops : queue_ok (run o (run_begin id st rec rev) ops).
Proof.
  unfold run. induction ops as [|x ops IH] using rev_ind; [apply begin_queue|].
  rewrite foldl_snoc. by apply step_queue.
Qed.

(** ** What each operation adds to the trace *)

Lemma offer_trace o l c : trace (offer o l c) = trace l.
Proof. unfold offer. destruct (offer_ignored o l c); [done|]. cbv zeta. simpl. by destruct (task l). Qed.

Lemma start_pending_trace l : trace (start_pending l) = trace l.
Proof. unfold start_pending. destruct (pending l); [|done]. by destruct (runAborted l). Qed.

Lemma on_settled_trace l : trace (on_settled l) = trace l.
Proof.
  unfold on_settled. destruct (task l) as [[c ab ph]|]; [|done]. destruct ph; try done. cbv zeta.
  destruct (cr_fatal r); [done|]. destruct (negb (bool_decide _)); [by rewrite start_pending_trace|].
  destruct (cr_category r); [|by rewrite start_pending_trace].
  case_bool_decide; [by rewrite start_pending_trace|]. destruct (negb _); [done|by rewrite start_pending_trace].
Qed.

Lemma abort_reject_trace l t p cat : trace (abort_and_reject l t p cat) = trace l ++ [CallAbort (t_candidate t)].
Proof. unfold abort_and_reject. by destruct (abort_error _). Qed.

(** The only operation that commits, and when. *)
Inductive commits_at (o : Identity) (l : Loader) : op -> Candidate -> Prop :=
| commits_active answer p c act :
    task l = Some {| t_candidate := c; t_aborted := false; t_phase := Checking p |} ->
    active_candidate o answer = Some act -> sameActiveCandidate c act = true ->
    commits_at o l (OActive answer) c.

Lemma step_commits o l x :
  commits (trace (step o l x)) = commits (trace l) \/
  exists c, commits_at o l x c /\ commits (trace (step o l x)) = commits (trace l) ++ [c].
Proof.
  assert (forall tr e, (forall c, e <> CallCommit c) -> commits (tr ++ [e]) = commits tr) as He.
  { intros tr e Hne. rewrite commits_app. destruct e; simpl; try by rewrite app_nil_r. by destruct (Hne c). }
  destruct x as [answer|out|out|answer| |k answer|k| |rev x|rev|e|s|s|s| | |s replay|k]; simpl.
  - left. destruct (active_candidate o answer); [by rewrite offer_trace|done].
  - left. unfold on_resolved. destruct (task l) as [[c ab ph]|]; [|done]. destruct ph; try done.
    destruct out; [|done]. simpl. by apply He.
  - left. unfold on_prepared. destruct (task l) as [[c ab ph]|]; [|done]. destruct ph; try done.
    destruct out as [p|]; [|done]. cbv zeta. destruct ab; simpl; [rewrite abort_reject_trace; simpl; rewrite He by done|]; by apply He.
  - unfold on_active. destruct (task l) as [[c ab ph]|] eqn:Ht; [|by left]. destruct ph; try by left. simpl.
    destruct (active_candidate o answer) as [act|] eqn:Ea; [|left; rewrite abort_reject_trace; by apply He].
    destruct (ab || negb (sameActiveCandidate c act)) eqn:E; [left; rewrite abort_reject_trace; by apply He|].
    apply orb_false_elim in E as [-> Hs]. apply negb_false_iff in Hs. right. exists c.
    split; [by eapply commits_active|]. destruct (commit_error (on_commit p)); simpl; by rewrite commits_app.
  - left. by rewrite on_settled_trace.
  - left. unfold on_fresh. destruct (startups l !! k) as [[r|r|]|]; try done.
    destruct (active_candidate o answer); [|done]. destruct (sameActiveCandidate _ _); [done|by rewrite offer_trace].
  - left. unfold on_acknowledged. destruct (startups l !! k) as [[r|r|]|]; try done. by destruct (cr_category r).
  - by left.
  - left. unfold on_target. destruct (x_release x); [|done]. destruct (_ && _); [|done]. rewrite offer_trace.
    unfold advance_seen. by destruct (_ <? _).
  - left. unfold advance_seen. by destruct (_ <? _).
  - left. unfold handleAcknowledgementRejected. destruct (isReleaseState _); [|done]. destruct (_ || _); [done|].
    destruct (map_get _ _); [|done]. cbv zeta. by destruct (_ || _).
  - by left.
  - by left.
  - left. unfold stream_closed. by case_bool_decide.
  - by left.
  - by left.
  - by left.
  - left. unfold flush_step. destruct (flushes l !! k) as [[s [|y rest]]|]; try done. simpl. by apply He.
Qed.

(** C1: only the newest candidate is ever committed. While the run has not
    settled: a commit happens only in reaction to the active read, for a
    candidate that is the latest one accepted, that has not been cancelled,
    whose run has not been aborted, and that the server reports as active at
    that moment (same revision, track, version and digest); commits follow the
    order of acceptance, no candidate is committed twice and target revisions
    never go back. *)
Theorem commits_newest_active o id st reconnects rev ops :
  let l := run o (run_begin id st reconnects rev) ops in
  finished l = None ->
  StronglySorted (fun a b => c_sequence a < c_sequence b /\ c_revision a <= c_revision b) (commits (trace l)) /\
  (forall x c, commits (trace (step o l x)) = commits (trace l) ++ [c] ->
     latest l = Some c /\ runAborted l = false /\
     exists answer act, x = OActive answer /\ active_candidate o answer = Some act /\ sameActiveCandidate c act = true).
Proof.
  intros l Hf. pose proof (run_queue o id st reconnects rev ops) as Hq. fold l in Hq. split; [by apply Hq|].
  intros x c Hc. destruct (step_commits o l x) as [He|(c' & Hat & He)].
  { rewrite He in Hc. apply (f_equal length) in Hc. rewrite length_app in Hc. simpl in Hc. lia. }
  rewrite He in Hc. apply app_inj_2 in Hc as [_ [= <-]]; [|done].
  destruct Hat as [answer p c act Ht Ha Hs]. split_and!.
  - by apply (qo_task _ Hq _ Hf Ht).
  - by apply (qo_abort _ Hq _ Ht).
  - by exists answer, act.
Qed.

(** ** Prepared releases *)

Definition hand_ok (l : Loader) : Prop := obtained (trace l) = disposed (trace l) ++ in_hand l.

Lemma hand_same l l' : trace l' = trace l -> in_hand l' = in_hand l -> hand_ok l -> hand_ok l'.
Proof. unfold hand_ok. by intros -> ->. Qed.

Lemma hand_quiet l l' e :
  trace l' = trace l ++ [e] -> obtained [e] = [] -> disposed [e] = [] -> in_hand l' = in_hand l -> hand_ok l -> hand_ok l'.
Proof.
  unfold hand_ok. intros -> Ho Hd Hi H. rewrite obtained_app, disposed_app, Ho, Hd, !app_nil_r, Hi. done.
Qed.

Lemma offer_hand o l c : in_hand (offer o l c) = in_hand l.
Proof.
  unfold offer. destruct (offer_ignored o l c); [done|]. cbv zeta. unfold in_hand. simpl.
  destruct (task l) as [[c0 ab ph]|]; [by destruct ph|done].
Qed.

Lemma start_pending_hand l : task l = None -> in_hand (start_pending l) = [].
Proof.
  intros Ht. unfold start_pending, in_hand. destruct (pending l); [|by rewrite Ht].
  destruct (runAborted l); [by rewrite Ht|done].
Qed.

Lemma on_settled_hand l : in_hand (on_settled l) = in_hand l.
Proof.
  unfold on_settled. destruct (task l) as [[c ab ph]|] eqn:Ht; [|done]. destruct ph as [| | |r]; try done. cbv zeta.
  assert (in_hand l = []) as -> by (unfold in_hand; by rewrite Ht).
  destruct (cr_fatal r); [done|]. destruct (negb (bool_decide _)); [by apply start_pending_hand|].
  destruct (cr_category r); [|by apply start_pending_hand].
  case_bool_decide; [by apply start_pending_hand|]. destruct (negb _); [done|by apply start_pending_hand].
Qed.

Lemma step_hand o l x : hand_ok l -> hand_ok (step o l x).
Proof.
  intros H. destruct x as [answer|out|out|answer| |k answer|k| |rev x|rev|e|s|s|s| | |s replay|k]; simpl; try done.
  - destruct (active_candidate o answer); [|done]. apply (hand_same l); [apply offer_trace|apply offer_hand|done].
  - unfold on_resolved. destruct (task l) as [[c ab ph]|] eqn:Ht; [|done]. destruct ph; try done.
    assert (in_hand l = []) as Hi by (unfold in_hand; by rewrite Ht).
    destruct out; [by eapply (hand_quiet l)|by eapply (hand_same l)].
  - unfold on_prepared. destruct (task l) as [[c ab ph]|] eqn:Ht; [|done]. destruct ph; try done.
    assert (in_hand l = []) as Hi by (unfold in_hand; by rewrite Ht).
    destruct out as [p|]; [|by eapply (hand_same l)]. unfold hand_ok in *. rewrite Hi, app_nil_r in H.
    cbv zeta. simpl. destruct ab; simpl.
    + rewrite abort_reject_trace. unfold abort_and_reject. simpl.
      rewrite !obtained_app, !disposed_app, H. destruct (abort_error (on_abort p)); unfold in_hand; simpl; by rewrite !app_nil_r.
    + rewrite !obtained_app, !disposed_app, H. simpl. by rewrite app_nil_r.
  - unfold on_active. destruct (task l) as [[c ab ph]|] eqn:Ht; [|done]. destruct ph as [| |p|]; try done. simpl.
    assert (in_hand l = [c]) as Hi by (unfold in_hand; by rewrite Ht). unfold hand_ok in *. rewrite Hi in H.
    assert (forall cat, obtained (trace (abort_and_reject l {| t_candidate := c; t_aborted := ab; t_phase := Checking p |} p cat)) =
      disposed (trace (abort_and_reject l {| t_candidate := c; t_aborted := ab; t_phase := Checking p |} p cat)) ++
      in_hand (abort_and_reject l {| t_candidate := c; t_aborted := ab; t_phase := Checking p |} p cat)) as Hab.
    { intros cat. rewrite abort_reject_trace, obtained_app, disposed_app, H. unfold abort_and_reject.
      destruct (abort_error (on_abort p)); unfold in_hand; simpl; by rewrite !app_nil_r. }
    destruct (active_candidate o answer) as [act|]; [|apply Hab].
    destruct (ab || negb (sameActiveCandidate c act)); [apply Hab|].
    destruct (commit_error (on_commit p)); unfold in_hand; simpl; rewrite obtained_app, disposed_app, H; simpl; by rewrite !app_nil_r.
  - apply (hand_same l); [apply on_settled_trace|apply on_settled_hand|done].
  - unfold on_fresh. destruct (startups l !! k) as [[r|r|]|]; try done.
    destruct (active_candidate o answer); [|done]. destruct (sameActiveCandidate _ _); [done|].
    apply (hand_same (set_startup l k StartupDone)); [apply offer_trace|apply offer_hand|done].
  - unfold on_acknowledged. destruct (startups l !! k) as [[r|r|]|]; try done. by destruct (cr_category r).
  - apply (hand_same l); [done| |done]. unfold in_hand, abort_run. simpl. destruct (task l) as [[c ab ph]|]; [by destruct ph|done].
  - unfold on_target. destruct (x_release x); [|done]. destruct (_ && _); [|done].
    apply (hand_same (advance_seen l rev)); [apply offer_trace|apply offer_hand|].
    unfold advance_seen. by destruct (_ <? _).
  - unfold advance_seen. by destruct (_ <? _).
  - unfold handleAcknowledgementRejected. destruct (isReleaseState _); [|done]. destruct (_ || _); [done|].
    destruct (map_get _ _); [|done]. cbv zeta. by destruct (_ || _).
  - unfold stream_closed. by case_bool_decide.
  - unfold flush_step. destruct (flushes l !! k) as [[s [|y rest]]|]; try done. by eapply (hand_quiet l).
Qed.

(** C23: every prepared release is disposed of exactly once. In every
    interleaving the sequence of candidates the application prepared equals
    the sequence of candidates it was told to commit or abort, in the same
    order, except for at most one: the one being checked against the server,
    which is still in the loader's hands. *)
Theorem prepared_disposed_once o id st reconnects rev ops :
  let l := run o (run_begin id st reconnects rev) ops in
  obtained (trace l) = disposed (trace l) ++ in_hand l.
Proof.
  cbv zeta. unfold run. induction ops as [|x ops IH] using rev_ind; [done|]. rewrite foldl_snoc. by apply step_hand.
Qed.

(** ** Acknowledgements *)

Record ack_ok (l : Loader) : Prop := {
  ao_wf : map_wf (pendingAcknowledgements l);
  ao_item : forall s x, map_get s (pendingAcknowledgements l) = Some x ->
    pa_generation x <= ackGeneration l /\ a_sequence (pa_acknowledgement x) = pa_generation x /\
    a_state (pa_acknowledgement x) = s;
  ao_inj : forall s s' x x', map_get s (pendingAcknowledgements l) = Some x ->
    map_get s' (pendingAcknowledgements l) = Some x' -> pa_generation x = pa_generation x' -> s = s';
  ao_sent : forall s x, map_get s (pendingAcknowledgements l) = Some x -> pa_dirty x = false ->
    exists st, pa_flushedOn x = Some st /\ Send st (pa_acknowledgement x) ∈ trace l;
  ao_flush : forall st items y, (st, items) ∈ flushes l -> y ∈ items ->
    pa_generation y.2 <= ackGeneration l /\
    forall x, map_get y.1 (pendingAcknowledgements l) = Some x -> pa_generation x = pa_generation y.2 ->
      pa_acknowledgement x = pa_acknowledgement y.2
}.

(** The acknowledgement fields are the same and the trace only grew. *)
Definition ack_frame (l l' : Loader) : Prop :=
  pendingAcknowledgements l' = pendingAcknowledgements l /\ ackGeneration l' = ackGeneration l /\
  flushes l' = flushes l /\ exists es, trace l' = trace l ++ es.

Lemma ack_frame_ok l l' : ack_frame l l' -> ack_ok l -> ack_ok l'.
Proof.
  intros (E1 & E2 & E3 & es & E4) [H1 H2 H3 H4 H5]. split; rewrite ?E1, ?E2, ?E3, ?E4; try done.
  intros s x Hx Hd. destruct (H4 s x Hx Hd) as (st & Hf & Hs). exists st. split; [done|]. apply elem_of_app. by left.
Qed.

Lemma ack_frame_refl l : ack_frame l l.
Proof. split_and!; try done. exists []. by rewrite app_nil_r. Qed.

Lemma ack_frame_same l l' :
  pendingAcknowledgements l' = pendingAcknowledgements l -> ackGeneration l' = ackGeneration l ->
  flushes l' = flushes l -> trace l' = trace l -> ack_frame l l'.
Proof. intros. split_and!; try done. exists []. rewrite app_nil_r. done. Qed.

Lemma ack_step_ok l c s cat d : ack_ok l -> ack_ok (ack l c s cat d).1.
Proof.
  intros [H1 H2 H3 H4 H5]. unfold ack. cbv zeta. simpl. set (new := {| pa_acknowledgement := _ |}).
  assert (forall s x, map_get s (pendingAcknowledgements l) = Some x -> pa_generation x <= ackGeneration l) as Hg
    by (intros; by eapply H2).
  destruct (match map_get s (pendingAcknowledgements l) with Some _ => _ | None => _ end); split; simpl; try done.
  - by apply map_set_wf.
  - intros s' x. rewrite map_get_set. case_decide as Hs; [intros [= <-]; simpl; by split_and!|].
    intros Hx. destruct (H2 s' x Hx) as (? & ? & ?). split_and!; [lia|done|done].
  - intros s1 s2 x1 x2. rewrite !map_get_set. repeat case_decide; try congruence.
    + intros [= <-] Hx Heq. simpl in Heq. specialize (Hg _ _ Hx). lia.
    + intros Hx [= <-] Heq. simpl in Heq. specialize (Hg _ _ Hx). lia.
    + apply H3.
  - intros s' x. rewrite map_get_set. case_decide; [intros [= <-]; done|]. apply H4.
  - intros st items y Hin Hy. destruct (H5 st items y Hin Hy) as [Hgy Hx]. split; [lia|].
    intros x. rewrite map_get_set. case_decide; [|apply Hx]. intros [= <-] Heq. simpl in Heq. lia.
  - intros s' x Hx. destruct (H2 s' x Hx) as (? & ? & ?). split_and!; [lia|done|done].
  - intros st items y Hin Hy. destruct (H5 st items y Hin Hy) as [Hgy Hx]. split; [lia|done].
Qed.

Lemma reject_ack_ok l c cat : ack_ok l -> ack_ok (reject l c cat).1.
Proof.
  intros H. pose proof (ack_step_ok l c rejected_state (Some cat) NO_DIVERGENCE H) as H'.
  unfold reject. destruct (ack l c rejected_state (Some cat) NO_DIVERGENCE) as [l1 g]. simpl in *.
  apply (ack_frame_ok l1); [by apply ack_frame_same|done].
Qed.

Lemma reject_settle_ack l t cat fatal : ack_ok l -> ack_ok (reject_and_settle l t cat fatal).
Proof.
  intros H. pose proof (reject_ack_ok l (t_candidate t) cat H) as H'. unfold reject_and_settle.
  destruct (reject l (t_candidate t) cat) as [l1 g]. apply (ack_frame_ok l1); [by apply ack_frame_same|done].
Qed.

Lemma emit_ack l e : ack_ok l -> ack_ok (emit l e).
Proof. intros H. apply (ack_frame_ok l); [|done]. split_and!; try done. by exists [e]. Qed.

Lemma abort_reject_ack l t p cat : ack_ok l -> ack_ok (abort_and_reject l t p cat).
Proof. intros H. unfold abort_and_reject. destruct (abort_error _); by apply reject_settle_ack, emit_ack. Qed.

Lemma flush_begin_ack l s replay : ack_ok l -> ack_ok (flush_begin l s replay).
Proof.
  intros [H1 H2 H3 H4 H5]. split; simpl; try done. intros st items y Hin Hy.
  apply elem_of_app in Hin as [Hin|Hin]; [by eapply H5|]. apply list_elem_of_singleton in Hin as [= -> ->].
  unfold flush_items in Hy. apply elem_of_js_sort in Hy. apply list_elem_of_filter in Hy as [_ Hy].
  destruct y as [s' x']. apply (map_get_Some s' x' _ H1) in Hy. simpl.
  split; [by eapply H2|]. intros x Hx _. congruence.
Qed.

Lemma flush_step_ack l k : ack_ok l -> ack_ok (flush_step l k).
Proof.
  intros Hok. pose proof Hok as [H1 H2 H3 H4 H5].
  unfold flush_step. destruct (flushes l !! k) as [[s [|y rest]]|] eqn:Hk; try done. cbv zeta.
  pose proof (list_elem_of_lookup_2 _ _ _ Hk) as Hin.
  assert (forall st items z, (st, items) ∈ <[k := (s, rest)]> (flushes l) -> z ∈ items ->
            exists st' items', (st', items') ∈ flushes l /\ z ∈ items') as Hfl.
  { intros st items z Hi Hz. apply list_elem_of_lookup in Hi as (j & Hj).
    apply list_lookup_insert_Some in Hj as [(_ & [= -> ->] & _)|[_ Hj]].
    - exists st, (y :: items). split; [done|by right].
    - exists st, items. split; [by eapply list_elem_of_lookup_2|done]. }
  destruct (H5 s (y :: rest) y Hin ltac:(left)) as [Hgy Hyx].
  unfold flush_mark. simpl. destruct (map_get y.1 (pendingAcknowledgements l)) as [cur|] eqn:Ec;
    [destruct (pa_generation cur =? pa_generation y.2) eqn:Eg|]; split; simpl; try done.
  - by apply map_set_wf.
  - intros s' x. rewrite map_get_set. case_decide as Hd; [|apply H2]. intros [= <-]. simpl. subst s'. by apply H2.
  - intros s1 s2 x1 x2. rewrite !map_get_set. repeat case_decide; try congruence.
    + intros [= <-] Hx Heq. simpl in Heq. subst s1. by eapply H3.
    + intros Hx [= <-] Heq. simpl in Heq. subst s2. by eapply H3.
    + apply H3.
  - bool_prop. intros s' x. rewrite map_get_set. case_decide as Hd.
    + intros [= <-] _. exists s. simpl. split; [done|]. rewrite (Hyx cur eq_refl Eg).
      apply elem_of_app. right. by apply list_elem_of_singleton.
    + intros Hx Hdirty. destruct (H4 s' x Hx Hdirty) as (st & Hf & Hs). exists st. split; [done|]. apply elem_of_app. by left.
  - intros st items z Hi Hz. destruct (Hfl st items z Hi Hz) as (st' & items' & Hi' & Hz').
    destruct (H5 st' items' z Hi' Hz') as [Hgz Hzx]. split; [done|]. intros x. rewrite map_get_set.
    case_decide as Hd; [|apply Hzx]. intros [= <-]. simpl. rewrite Hd in Ec. by apply Hzx.
  - intros s' x Hx Hdirty. destruct (H4 s' x Hx Hdirty) as (st & Hf & Hs). exists st. split; [done|]. apply elem_of_app. by left.
  - intros st items z Hi Hz. destruct (Hfl st items z Hi Hz) as (st' & items' & Hi' & Hz'). by eapply H5.
  - intros s' x Hx Hdirty. destruct (H4 s' x Hx Hdirty) as (st & Hf & Hs). exists st. split; [done|]. apply elem_of_app. by left.
  - intros st items z Hi Hz. destruct (Hfl st items z Hi Hz) as (st' & items' & Hi' & Hz'). by eapply H5.
Qed.

Lemma offer_ack o l c : ack_ok l -> ack_ok (offer o l c).
Proof.
  intros H. apply (ack_frame_ok l); [|done]. unfold offer. destruct (offer_ignored o l c); [apply ack_frame_refl|].
  cbv zeta. simpl. destruct (task l); by apply ack_frame_same.
Qed.

Lemma start_pending_ack l : ack_ok l -> ack_ok (start_pending l).
Proof.
  intros H. apply (ack_frame_ok l); [|done]. unfold start_pending. destruct (pending l); [|apply ack_frame_refl].
  destruct (runAborted l); [apply ack_frame_refl|by apply ack_frame_same].
Qed.

Lemma on_settled_ack l : ack_ok l -> ack_ok (on_settled l).
Proof.
  intros H. unfold on_settled. destruct (task l) as [[c ab ph]|]; [|done]. destruct ph; try done. cbv zeta.
  assert (forall l', ack_frame l l' -> ack_ok (start_pending l')) as Hs.
  { intros l' Hf. apply start_pending_ack. by apply (ack_frame_ok l). }
  destruct (cr_fatal r); [apply (ack_frame_ok l); [by apply ack_frame_same|done]|].
  destruct (negb (bool_decide _)); [by apply Hs, ack_frame_same|].
  destruct (cr_category r); [|by apply Hs, ack_frame_same].
  case_bool_decide; [by apply Hs, ack_frame_same|]. destruct (negb _); [|by apply Hs, ack_frame_same].
  apply (ack_frame_ok l); [by apply ack_frame_same|done].
Qed.

Lemma seen_ack l rev : ack_ok l -> ack_ok (advance_seen l rev).
Proof.
  intros H. unfold advance_seen. destruct (_ <? _); [|done]. apply (ack_frame_ok l); [by apply ack_frame_same|done].
Qed.

Lemma step_ack o l x : ack_ok l -> ack_ok (step o l x).
Proof.
  intros H. assert (forall l', ack_frame l l' -> ack_ok l') as Hfr by (intros l' Hf; by apply (ack_frame_ok l)).
  assert (forall l' l0, ack_ok l0 -> ack_frame l0 l' -> ack_ok l') as Hfr'.
  { intros l' l0 H0 Hf. by apply (ack_frame_ok l0). }
  destruct x as [answer|out|out|answer| |k answer|k| |rev x|rev|e|s|s|s| | |s replay|k]; simpl.
  - destruct (active_candidate o answer); [by apply offer_ack|done].
  - unfold on_resolved. destruct (task l) as [[c ab ph]|]; [|done]. destruct ph; try done.
    destruct out; [|by apply reject_settle_ack].
    apply (Hfr' _ (emit (ack l c received None NO_DIVERGENCE).1 (CallPrepare c))); [by apply emit_ack, ack_step_ok|by apply ack_frame_same].
  - unfold on_prepared. destruct (task l) as [[c ab ph]|]; [|done]. destruct ph; try done.
    destruct out as [p|]; [|by apply reject_settle_ack]. cbv zeta.
    destruct ab; [by apply abort_reject_ack, emit_ack|].
    apply (Hfr' _ (ack (emit l (GotPrepared c)) c prepared_state None NO_DIVERGENCE).1); [by apply ack_step_ok, emit_ack|].
    by apply ack_frame_same.
  - unfold on_active. destruct (task l) as [[c ab ph]|]; [|done]. destruct ph as [| |p|]; try done. cbv zeta. simpl.
    destruct (active_candidate o answer) as [act|]; [|by apply abort_reject_ack].
    destruct (ab || negb (sameActiveCandidate c act)); [by apply abort_reject_ack|].
    destruct (commit_error (on_commit p)).
    + apply (Hfr' _ (emit l (CallCommit c))); [by apply emit_ack|by apply ack_frame_same].
    + apply (Hfr' _ (ack (emit l (CallCommit c)) c applied_state None (divergenceOf (on_divergence p))).1); [by apply ack_step_ok, emit_ack|].
      by apply ack_frame_same.
  - by apply on_settled_ack.
  - unfold on_fresh. destruct (startups l !! k) as [[r|r|]|]; try done.
    destruct (active_candidate o answer); [|by apply Hfr, ack_frame_same].
    destruct (sameActiveCandidate _ _); [by apply Hfr, ack_frame_same|]. apply offer_ack. by apply Hfr, ack_frame_same.
  - unfold on_acknowledged. destruct (startups l !! k) as [[r|r|]|]; try done.
    destruct (cr_category r); [by apply Hfr, ack_frame_same|done].
  - by apply Hfr, ack_frame_same.
  - unfold on_target. destruct (x_release x); [|done]. destruct (_ && _); [|done]. by apply offer_ack, seen_ack.
  - by apply seen_ack.
  - unfold handleAcknowledgementRejected. destruct (isReleaseState _) as [st|]; [|done]. destruct (_ || _); [done|].
    destruct (map_get st _) as [x|]; [|done]. cbv zeta. destruct (_ || _); [done|]. destruct H as [H1 H2 H3 H4 H5].
    assert (forall s y, map_get s (map_delete st (pendingAcknowledgements l)) = Some y ->
              map_get s (pendingAcknowledgements l) = Some y) as Hdel.
    { intros s y. rewrite map_get_delete by done. by case_decide. }
    split; simpl; eauto using map_delete_wf. intros s items y Hin Hy. destruct (H5 s items y Hin Hy). split; eauto.
  - by apply flush_begin_ack.
  - by apply Hfr, ack_frame_same.
  - unfold stream_closed. case_bool_decide; [by apply Hfr, ack_frame_same|done].
  - by apply Hfr, ack_frame_same.
  - by apply Hfr, ack_frame_same.
  - by apply flush_begin_ack.
  - by apply flush_step_ack.
Qed.

Lemma run_ack o id st rec rev ops : ack_ok (run o (run_begin id st rec rev) ops).
Proof.
  unfold run. induction ops as [|x ops IH] using rev_ind; [|rewrite foldl_snoc; by apply step_ack].
  split; simpl; try done; [constructor|]. intros s items y Hin. by apply elem_of_nil in Hin.
Qed.

(** No acknowledgement is lost or reordered. In every interleaving of
    acknowledgements, flushes, stream changes and server rejections, an
    acknowledgement counts as flushed only if that very message was sent on
    the stream it names; the sequence numbers of the retained ones are
    distinct; and a replay on a new stream sends all of them, once each, in the
    order in which they were produced. *)
Theorem acknowledgements_kept o id st reconnects rev ops :
  let l := run o (run_begin id st reconnects rev) ops in
  (forall s x, map_get s (pendingAcknowledgements l) = Some x -> pa_dirty x = false ->
     exists str, pa_flushedOn x = Some str /\ Send str (pa_acknowledgement x) ∈ trace l) /\
  flush_items l true ≡ₚ pendingAcknowledgements l /\
  StronglySorted (fun x y => a_sequence (pa_acknowledgement x.2) < a_sequence (pa_acknowledgement y.2)) (flush_items l true).
Proof.
  intros l. pose proof (run_ack o id st reconnects rev ops) as [H1 H2 H3 H4 H5]. fold l in H1, H2, H3, H4, H5.
  assert (flush_items l true ≡ₚ pendingAcknowledgements l) as HP.
  { unfold flush_items. rewrite js_sort_perm. clear. induction (pendingAcknowledgements l) as [|x xs IH]; [done|].
    rewrite filter_cons, decide_True by done. by f_equiv. }
  split; [exact H4|]. split; [done|].
  assert (NoDup (flush_items l true)) as Hnd.
  { rewrite HP. eapply (NoDup_fmap_1 fst). exact H1. }
  assert (forall x, x ∈ flush_items l true -> map_get x.1 (pendingAcknowledgements l) = Some x.2) as Hin.
  { intros [s x] Hx. rewrite HP in Hx. by apply map_get_Some. }
  assert (StronglySorted (fun x y => compare_generations x y <> Gt) (flush_items l true)) as Hs.
  { apply js_sort_sorted.
    - intros x y. apply Z.compare_antisym.
    - unfold compare_generations. intros x y z Hx Hy. rewrite Z.compare_le_iff in *. lia. }
  clear HP. revert Hnd Hin. generalize dependent (flush_items l true). intros fl Hs. induction Hs as [|x xs Hs IH Hx]; intros Hnd Hin; [constructor|].
  apply NoDup_cons in Hnd as [Hnx Hnd]. constructor.
  - apply IH; [done|]. intros y Hy. apply Hin. by right.
  - apply Forall_forall. intros y Hy. rewrite Forall_forall in Hx. specialize (Hx y Hy).
    unfold compare_generations in Hx. rewrite Z.compare_le_iff in Hx.
    pose proof (Hin x ltac:(left)) as Gx. pose proof (Hin y ltac:(by right)) as Gy.
    destruct (H2 _ _ Gx) as (_ & -> & _), (H2 _ _ Gy) as (_ & -> & _).
    destruct (decide (pa_generation x.2 = pa_generation y.2)) as [He|]; [|lia].
    pose proof (H3 _ _ _ _ Gx Gy He) as Hk. rewrite Hk, Gy in Gx. injection Gx as Hv.
    exfalso. apply Hnx. destruct x, y. simpl in *. by subst.
Qed.

(** ** After the first commit *)

(** A callback of [p] throws, or returns what it must not; the run ends with
    the message [m]. *)
Definition breaks_contract (p : PreparedRelease) (m : jstr) : Prop :=
  commit_error (on_commit p) = Some m \/ abort_error (on_abort p) = Some m.

(** Startup rejection [k] has not run its course. *)
Definition pending_at (l : Loader) (k : nat) (r : CandidateResult) : Prop :=
  startups l !! k = Some (AwaitsFresh r) \/ startups l !! k = Some (AwaitsAcknowledgement r).

(** What may end a run that was in state [l] and then did [ops]; [all] are the
    operations of the whole run. *)
Inductive ended_by (l : Loader) (all ops : list op) : outcome -> Prop :=
| ended_fatal m p : OPrepared (Ok p) ∈ all -> breaks_contract p m -> ended_by l all ops (FatalError m)
| ended_watch : OWatchFailed ∈ ops -> ended_by l all ops TerminalWatch
| ended_startup k r c :
    pending_at l k r -> cr_category r = Some c -> OAcknowledged k ∈ ops -> ended_by l all ops (RejectedStartup c).

(** *** Where the releases at hand come from *)

Definition phase_from (xs : list op) (ph : phase) : Prop :=
  match ph with
  | Checking p => OPrepared (Ok p) ∈ xs
  | Settled r => forall m, cr_fatal r = Some m -> exists p, OPrepared (Ok p) ∈ xs /\ breaks_contract p m
  | _ => True
  end.
Definition task_from (xs : list op) (l : Loader) : Prop := forall t, task l = Some t -> phase_from xs (t_phase t).

Lemma phase_from_mono xs ys ph : xs ⊆ ys -> phase_from xs ph -> phase_from ys ph.
Proof. intros H. destruct ph; simpl; [done|done|apply H|]. naive_solver. Qed.

Lemma task_from_same xs l l' : task l' = task l -> task_from xs l -> task_from xs l'.
Proof. unfold task_from. by intros ->. Qed.

Lemma with_task_from xs l t ph :
  phase_from xs ph ->
  task_from xs (with_task l (Some {| t_candidate := t_candidate t; t_aborted := t_aborted t; t_phase := ph |})).
Proof. intros H t' [= <-]. done. Qed.

Lemma abort_reject_from xs l t p cat : OPrepared (Ok p) ∈ xs -> task_from xs (abort_and_reject l t p cat).
Proof.
  intros H. unfold abort_and_reject. destruct (abort_error (on_abort p)) as [m|] eqn:E; apply with_task_from; simpl; [|done].
  intros m' [= <-]. exists p. split; [done|by right].
Qed.

Lemma offer_from xs o l c : task_from xs l -> task_from xs (offer o l c).
Proof.
  intros H. unfold offer. destruct (offer_ignored o l c); [done|]. cbv zeta. simpl.
  destruct (task l) as [t|] eqn:Ht; intros t' [= <-]; [exact (H t Ht)|done].
Qed.

Lemma start_pending_from xs l : task l = None -> task_from xs (start_pending l).
Proof.
  intros H. unfold start_pending. destruct (pending l); [destruct (runAborted l)|]; [intros t; by rewrite H|by intros t [= <-]|intros t; by rewrite H].
Qed.

Lemma on_settled_from xs l : task_from xs l -> task_from xs (on_settled l).
Proof.
  intros H. unfold on_settled. destruct (task l) as [[c ab ph]|] eqn:Ht; [|by intros t; rewrite Ht].
  destruct ph; try done. cbv zeta. repeat case_match; try (by apply start_pending_from); by intros t.
Qed.

Lemma step_from o xs l x : task_from xs l -> task_from (xs ++ [x]) (step o l x).
Proof.
  intros Hl. assert (task_from (xs ++ [x]) l) as H.
  { intros t Ht. eapply phase_from_mono; [|by apply Hl]. set_solver. }
  destruct x as [answer|out|out|answer| |k answer|k| |rev x|rev|e|s|s|s| | |s replay|k]; simpl in *.
  - destruct (active_candidate o answer); [by apply offer_from|done].
  - unfold on_resolved. destruct (task l) as [[c ab ph]|]; [|done]. destruct ph; try done.
    destruct out; by apply (with_task_from _ _ {| t_candidate := c; t_aborted := ab; t_phase := Resolving |}).
  - unfold on_prepared. destruct (task l) as [[c ab ph]|]; [|done]. destruct ph; try done.
    destruct out as [p|]; [|by apply (with_task_from _ _ {| t_candidate := c; t_aborted := ab; t_phase := Preparing |})].
    cbv zeta. cbn [t_aborted t_candidate]. assert (OPrepared (Ok p) ∈ xs ++ [OPrepared (Ok p)]) as Hp by set_solver.
    destruct ab; [by apply abort_reject_from|by apply (with_task_from _ _ {| t_candidate := c; t_aborted := false; t_phase := Preparing |})].
  - unfold on_active. destruct (task l) as [[c ab ph]|] eqn:Ht; [|by apply (task_from_same _ l)]. destruct ph as [| |p|]; try done. simpl.
    pose proof (H _ Ht) as Hp. simpl in Hp. destruct (active_candidate o answer) as [act|]; [|by apply abort_reject_from].
    destruct (ab || negb (sameActiveCandidate c act)); [by apply abort_reject_from|].
    destruct (commit_error (on_commit p)) as [m|] eqn:E; apply (with_task_from _ _ {| t_candidate := c; t_aborted := ab; t_phase := Checking p |}); simpl; [|done].
    intros m' [= <-]. exists p. split; [done|by left].
  - by apply on_settled_from.
  - unfold on_fresh. repeat case_match; try done; try by apply (task_from_same _ l). apply offer_from. by apply (task_from_same _ l).
  - unfold on_acknowledged. repeat case_match; try done; by apply (task_from_same _ l).
  - intros t. simpl. destruct (task l) as [t0|] eqn:E; [|done]. intros [= <-]. exact (H t0 E).
  - unfold on_target, advance_seen. repeat case_match; try done; apply offer_from; by apply (task_from_same _ l).
  - unfold advance_seen. case_match; by apply (task_from_same _ l).
  - unfold handleAcknowledgementRejected. repeat case_match; try done; by apply (task_from_same _ l).
  - by apply (task_from_same _ l).
  - by apply (task_from_same _ l).
  - unfold stream_closed. case_match; by apply (task_from_same _ l).
  - by apply (task_from_same _ l).
  - by apply (task_from_same _ l).
  - by apply (task_from_same _ l).
  - unfold flush_step. repeat case_match; try done; by apply (task_from_same _ l).
Qed.

Lemma run_from o xs l ops : task_from xs l -> task_from (xs ++ ops) (run o l ops).
Proof.
  revert xs l. induction ops as [|x ops IH]; intros xs l H; simpl; [by rewrite app_nil_r|].
  change (x :: ops) with ([x] ++ ops). rewrite (assoc_L (++)). by apply IH, step_from.
Qed.

(** *** One step *)

(** [l'] has the startup rejections, the flag and the outcome of [l]. *)
Definition same_run (l l' : Loader) : Prop :=
  startups l' = startups l /\ appliedOnce l' = appliedOnce l /\ finished l' = finished l.

Lemma offer_run o l c : same_run l (offer o l c).
Proof. unfold offer. destruct (offer_ignored o l c); [done|]. cbv zeta. simpl. by destruct (task l). Qed.
Lemma start_pending_run l : same_run l (start_pending l).
Proof. unfold start_pending. destruct (pending l); [|done]. by destruct (runAborted l). Qed.
Lemma abort_reject_run l t p cat : same_run l (abort_and_reject l t p cat).
Proof. unfold abort_and_reject. by destruct (abort_error _). Qed.
Lemma same_run_trans l1 l2 l3 : same_run l1 l2 -> same_run l2 l3 -> same_run l1 l3.
Proof. intros (H1 & H2 & H3) (G1 & G2 & G3). unfold same_run. by rewrite G1, G2, G3. Qed.

Lemma on_resolved_run l out : same_run l (on_resolved l out).
Proof. unfold on_resolved. destruct (task l) as [[c ab ph]|]; [|done]. destruct ph; try done. by destruct out. Qed.
Lemma on_prepared_run l out : same_run l (on_prepared l out).
Proof.
  unfold on_prepared. destruct (task l) as [[c ab ph]|]; [|done]. destruct ph; try done.
  destruct out; [|done]. cbv zeta. destruct ab; [|done]. by eapply same_run_trans, abort_reject_run.
Qed.
Lemma on_active_run o l answer : same_run l (on_active o l answer).
Proof.
  unfold on_active. destruct (task l) as [[c ab ph]|]; [|done]. destruct ph as [| |p|]; try done. simpl.
  destruct (active_candidate o answer); [|apply abort_reject_run]. destruct (_ || _); [apply abort_reject_run|]. by case_match.
Qed.
Lemma advance_seen_run l rev : same_run l (advance_seen l rev).
Proof. unfold advance_seen. by case_match. Qed.
Lemma on_target_run o l rev x : same_run l (on_target o l rev x).
Proof.
  unfold on_target. destruct (x_release x); [|done]. destruct (_ && _); [|done].
  eapply same_run_trans; [apply (advance_seen_run l rev)|apply offer_run].
Qed.
Lemma ack_rejected_run o l e : same_run l (handleAcknowledgementRejected o l e).
Proof. unfold handleAcknowledgementRejected. repeat case_match; done. Qed.
Lemma stream_closed_run l s : same_run l (stream_closed l s).
Proof. unfold stream_closed. by case_match. Qed.
Lemma flush_step_run l k : same_run l (flush_step l k).
Proof. unfold flush_step. repeat case_match; done. Qed.

(** After a step from [l], an applied loader that had not finished: nothing
    new waits, and the run ended only by one of the causes. *)
Record steady (all : list op) (x : op) (l l' : Loader) : Prop := {
  sd_applied : appliedOnce l' = true;
  sd_pending : forall k r, pending_at l' k r -> pending_at l k r;
  sd_finished : forall out, finished l' = Some out -> ended_by l all [x] out
}.

Lemma same_run_steady all x l l' : appliedOnce l = true -> finished l = None -> same_run l l' -> steady all x l l'.
Proof. intros Ha Hf (H1 & H2 & H3). split; unfold pending_at; rewrite ?H1, ?H2, ?H3; done || congruence. Qed.

Lemma startup_steady all x l k s r :
  appliedOnce l = true -> finished l = None -> pending_at l k r -> s = StartupDone \/ s = AwaitsAcknowledgement r ->
  steady all x l (set_startup l k s).
Proof.
  intros Ha Hf Hp Hs. assert (k < length (startups l))%nat as Hk by (destruct Hp as [Hp|Hp]; by eapply lookup_lt_Some).
  split; simpl; [done| |by rewrite Hf]. intros j r'. unfold pending_at. simpl. destruct (decide (j = k)) as [->|Hj].
  - rewrite list_lookup_insert_eq by done. intros [E|E]; destruct Hs as [->|Hs]; simplify_eq; done.
  - by rewrite list_lookup_insert_ne.
Qed.

Lemma on_settled_steady all l :
  appliedOnce l = true -> finished l = None -> task_from all l -> steady all OSettled l (on_settled l).
Proof.
  intros Ha Hf Ht. assert (same_run l l) as Hrefl by done. unfold on_settled.
  destruct (task l) as [[c ab ph]|] eqn:E; [|by apply same_run_steady]. destruct ph as [| | |r]; try by apply same_run_steady.
  cbv zeta. simpl. rewrite Ha. simpl. specialize (Ht _ E). simpl in Ht. destruct (cr_fatal r) as [m|].
  - destruct (Ht m eq_refl) as (p & Hp & Hb). split; [done|done|]. simpl. rewrite Hf. intros out [= <-]. by eapply ended_fatal.
  - assert (forall l', same_run l l' -> same_run l (start_pending l')) as Hp by (intros; by eapply same_run_trans, start_pending_run).
    apply same_run_steady; [done|done|]. repeat case_match; try (by apply Hp); done.
Qed.

(** What the other operations do to these three fields: nothing. *)
Definition quiet (x : op) : Prop :=
  match x with OSettled | OFresh _ _ | OAcknowledged _ | OWatchFailed => False | _ => True end.

Lemma quiet_run o l x : quiet x -> same_run l (step o l x).
Proof.
  destruct x as [answer|out|out|answer| |k answer|k| |rev x|rev|e|s|s|s| | |s replay|k]; simpl; try done.
  - intros _. destruct (active_candidate o answer); [apply offer_run|done].
  - intros _. apply on_resolved_run.
  - intros _. apply on_prepared_run.
  - intros _. apply on_active_run.
  - intros _. apply on_target_run.
  - intros _. apply advance_seen_run.
  - intros _. apply ack_rejected_run.
  - intros _. apply stream_closed_run.
  - intros _. apply flush_step_run.
Qed.

Lemma step_steady o all l x :
  appliedOnce l = true -> finished l = None -> task_from all l -> steady all x l (step o l x).
Proof.
  intros Ha Hf Ht. assert (forall l', same_run l l' -> steady all x l l') as Hs by (intros; by apply same_run_steady).
  destruct x; try (by apply Hs, quiet_run); simpl.
  - by apply on_settled_steady.
  - unfold on_fresh. destruct (startups l !! k) as [[r|r|]|] eqn:E; try by apply Hs.
    assert (forall s, s = StartupDone \/ s = AwaitsAcknowledgement r -> steady all (OFresh k answer) l (set_startup l k s)) as Hk
      by (intros; eapply startup_steady; [done|done|by left|done]).
    destruct (active_candidate o answer) as [fresh|]; [|apply Hk; by right]. destruct (sameActiveCandidate _ _); [apply Hk; by right|].
    destruct (Hk StartupDone (or_introl eq_refl)) as [H1 H2 H3]. destruct (offer_run o (set_startup l k StartupDone) fresh) as (E1 & E2 & E3).
    unfold pending_at in H2. rewrite <- E1 in H2. rewrite <- E2 in H1. rewrite <- E3 in H3. by split.
  - unfold on_acknowledged. destruct (startups l !! k) as [[r|r|]|] eqn:E; try by apply Hs.
    destruct (cr_category r) as [c|] eqn:Hc; [|by apply Hs].
    destruct (startup_steady all (OAcknowledged k) l k StartupDone r Ha Hf (or_intror E) (or_introl eq_refl)) as [H1 H2 H3].
    split; [done|done|]. simpl. rewrite Hf. intros out [= <-]. apply (ended_startup _ _ _ k r); [by right|done|by left].
  - split; [done|done|]. simpl. rewrite Hf. intros out [= <-]. apply ended_watch. by left.
Qed.

(** The first outcome stays, and so does the flag. *)
Lemma loader_step_stays o l x :
  (forall out, finished l = Some out -> finished (step o l x) = Some out) /\
  (appliedOnce l = true -> appliedOnce (step o l x) = true).
Proof.
  assert (forall l', same_run l l' -> (forall out, finished l = Some out -> finished l' = Some out) /\
    (appliedOnce l = true -> appliedOnce l' = true)) as Hs by (intros l' (_ & -> & ->); done).
  destruct x; try (by apply Hs, quiet_run); simpl.
  - unfold on_settled. destruct (task l) as [[c ab ph]|]; [|done]. destruct ph as [| | |r]; try done. cbv zeta. simpl.
    assert (forall l', finished l' = finished l -> (appliedOnce l = true -> appliedOnce l' = true) ->
      (forall out, finished l = Some out -> finished (start_pending l') = Some out) /\
      (appliedOnce l = true -> appliedOnce (start_pending l') = true)) as Hp.
    { intros l' E1 E2. destruct (start_pending_run l') as (_ & -> & ->). by rewrite E1. }
    assert (appliedOnce l = true -> appliedOnce l || cr_applied r = true) as Ho by (by intros ->).
    repeat case_match; try (by apply Hp); (split; [|done]); simpl; by intros out ->.
  - unfold on_fresh. destruct (startups l !! k) as [[r|r|]|]; try done. destruct (active_candidate o answer) as [c|]; [|done].
    destruct (sameActiveCandidate _ _); [done|]. by destruct (offer_run o (set_startup l k StartupDone) c) as (_ & -> & ->).
  - unfold on_acknowledged. destruct (startups l !! k) as [[r|r|]|]; try done. destruct (cr_category r); [|done].
    split; [|done]. simpl. by intros out ->.
  - split; [|done]. by intros out ->.
Qed.

Lemma run_stays o l ops :
  (forall out, finished l = Some out -> finished (run o l ops) = Some out) /\
  (appliedOnce l = true -> appliedOnce (run o l ops) = true).
Proof.
  revert l. induction ops as [|x ops IH]; intros l; [done|]. destruct (loader_step_stays o l x) as [H1 H2].
  destruct (IH (step o l x)) as [G1 G2]. split; auto.
Qed.

(** *** What is applied *)

Definition applied_of (l : Loader) : Z * Z * Z :=
  (u_appliedVersion (status l), u_appliedRevision (status l), u_appliedActivationRevision (status l)).

Lemma offer_applied o l c : applied_of (offer o l c) = applied_of l.
Proof. unfold offer. destruct (offer_ignored o l c); [done|]. cbv zeta. simpl. by destruct (task l). Qed.
Lemma start_pending_applied l : applied_of (start_pending l) = applied_of l.
Proof. unfold start_pending. repeat case_match; done. Qed.

Lemma abort_reject_applied l t p cat : applied_of (abort_and_reject l t p cat) = applied_of l.
Proof. unfold abort_and_reject. by destruct (abort_error _). Qed.

Lemma step_applied o l x : commits (trace (step o l x)) = commits (trace l) -> applied_of (step o l x) = applied_of l.
Proof.
  intros Hc. destruct x as [answer|r|r|answer| |k answer|k| |rev x|rev|e|s|s|s| | |s replay|k]; simpl in *; try done.
  - destruct (active_candidate o answer); [apply offer_applied|done].
  - unfold on_resolved. destruct (task l) as [[c ab ph]|]; [|done]. destruct ph; try done. by destruct r.
  - unfold on_prepared. destruct (task l) as [[c ab ph]|]; [|done]. destruct ph; try done.
    destruct r; [|done]. cbv zeta. destruct ab; [|done]. exact (abort_reject_applied _ _ _ _).
  - unfold on_active in *. destruct (task l) as [[c ab ph]|]; [|done]. destruct ph as [| |p|]; try done. simpl in *.
    destruct (active_candidate o answer); [|exact (abort_reject_applied _ _ _ _)]. destruct (_ || _); [exact (abort_reject_applied _ _ _ _)|].
    destruct (commit_error _); [done|]. exfalso. simpl in Hc. rewrite commits_app in Hc. apply (f_equal length) in Hc.
    rewrite length_app in Hc. simpl in Hc. lia.
  - unfold on_settled. repeat case_match; rewrite ?start_pending_applied; done.
  - unfold on_fresh. repeat case_match; rewrite ?offer_applied; done.
  - unfold on_acknowledged. repeat case_match; done.
  - unfold on_target, advance_seen. repeat case_match; rewrite ?offer_applied; done.
  - unfold advance_seen. by case_match.
  - unfold handleAcknowledgementRejected. repeat case_match; done.
  - unfold stream_closed. by case_match.
  - unfold flush_step. repeat case_match; done.
Qed.

Lemma run_commits o l ops : commits (trace l) `prefix_of` commits (trace (run o l ops)).
Proof.
  revert l. induction ops as [|x ops IH]; intros l; [done|]. etrans; [|apply IH].
  destruct (step_commits o l x) as [->|(c & _ & ->)]; [done|by eexists].
Qed.

Lemma run_applied o l ops : commits (trace (run o l ops)) = commits (trace l) -> applied_of (run o l ops) = applied_of l.
Proof.
  revert l. induction ops as [|x ops IH]; intros l Hc; [done|].
  change (run o l (x :: ops)) with (run o (step o l x) ops) in *.
  pose proof (run_commits o (step o l x) ops) as Hp. rewrite Hc in Hp.
  assert (commits (trace (step o l x)) = commits (trace l)) as E.
  { destruct (step_commits o l x) as [|(c & _ & E)]; [done|]. rewrite E in Hp. apply prefix_length in Hp.
    rewrite length_app in Hp. simpl in Hp. lia. }
  etrans; [apply IH; congruence|by apply step_applied].
Qed.

(** *** The run *)

Lemma ended_by_later o all l x ops out :
  steady all x l (step o l x) -> ended_by (step o l x) all ops out -> ended_by l all (x :: ops) out.
Proof.
  intros Hs [m p Hp Hb|Hw|k r c Hk Hc Hx]; [by eapply ended_fatal|by apply ended_watch; right|].
  apply (ended_startup _ _ _ k r); [by apply Hs|done|by right].
Qed.

Lemma run_ended o xs l ops out :
  appliedOnce l = true -> finished l = None -> task_from xs l ->
  finished (run o l ops) = Some out -> ended_by l (xs ++ ops) ops out.
Proof.
  enough (forall all, xs ++ ops ⊆ all -> appliedOnce l = true -> finished l = None -> task_from xs l ->
            finished (run o l ops) = Some out -> ended_by l all ops out) as H by (by apply H).
  intros all. revert xs l. induction ops as [|x ops IH]; intros xs l Hall Ha Hf Ht Hout; [simpl in Hout; congruence|].
  change (run o l (x :: ops)) with (run o (step o l x) ops) in Hout.
  assert (task_from all l) as Hta.
  { intros t E. eapply phase_from_mono; [|by apply Ht]. set_solver. }
  pose proof (step_steady o all l x Ha Hf Hta) as Hs. destruct (finished (step o l x)) as [out'|] eqn:E.
  - pose proof (proj1 (run_stays o (step o l x) ops) out' E) as Hr. rewrite Hout in Hr. injection Hr as <-.
    destruct (sd_finished _ _ _ _ Hs out E) as [m p Hp Hb|Hw|k r c Hk Hc Hx];
      [by eapply ended_fatal|apply ended_watch; set_solver|apply (ended_startup _ _ _ k r); [done|done|set_solver]].
  - apply (ended_by_later o); [done|]. apply (IH (xs ++ [x])); [set_solver|apply Hs|done|by apply step_from|done].
Qed.

(** C25: after the first commit, failures preserve the last known good
    release. Whatever a run does once a release has been applied, it ends only
    because
    - a commit or abort callback of a prepared release of this run broke its
      contract,
    - the watch failed with an error that is not retried, or
    - a startup rejection that was already waiting then was acknowledged.
    No failure to resolve or to prepare a release, no cancelled or superseded
    candidate, no failed read and no reconnect ends it, and none makes it a
    run at startup again. What is reported as applied stays as it is until
    another release is committed. *)
Theorem failures_preserve_lkg o id st reconnects rev pre ops :
  let l := run o (run_begin id st reconnects rev) pre in
  let q := run o l ops in
  appliedOnce l = true -> finished l = None ->
  appliedOnce q = true /\
  (forall out, finished q = Some out -> ended_by l (pre ++ ops) ops out) /\
  (commits (trace q) = commits (trace l) -> applied_of q = applied_of l).
Proof.
  intros l q Ha Hf. split_and!.
  - by apply run_stays.
  - intros out. apply run_ended; [done|done|]. apply (run_from o [] (run_begin id st reconnects rev) pre). by intros t.
  - apply run_applied.
Qed.

(** ** The startup race *)

Definition demo_identity : Identity := {| o_track := demo_track; o_clientName := js "web"; o_instanceId := js "i1" |}.
Definition demo_target (v rev : Z) : InstanceReleaseTarget :=
  {| x_release := Some (demo_release v demo_digest [demo_entry "a"]); x_targetRevision := rev; x_activationRevision := rev |}.
Definition demo_prepared : PreparedRelease :=
  {| on_commit := ReturnsUndefined; on_abort := ReturnsUndefined; on_divergence := NoReporter |}.
Definition demo_begin : Loader := run_begin (js "s") initial_stats 0 0.

(** A candidate goes through. *)
Definition demo_apply (v rev : Z) : list op :=
  [OTarget rev (demo_target v rev); OResolved (Ok tt); OPrepared (Ok demo_prepared);
   OActive (Some (demo_target v rev)); OSettled].

(** The first candidate is rejected and its fresh read still reports it; while
    its acknowledgement is awaited the second one arrives and is applied. *)
Definition race_ops : list op :=
  [OTarget 8 (demo_target 4 8); OResolved (Throw (Resolution digest_mismatch)); OSettled;
   OFresh 0 (Some (demo_target 4 8))] ++ demo_apply 5 9.

(** A startup rejection is not re-examined after its waits. A candidate
    rejected before anything was applied waits for its acknowledgement; if a
    newer release is applied in the meantime, the run is still rejected with
    the old category, although a good release has been committed. *)
Theorem startup_rejection_race :
  let before := run demo_identity demo_begin race_ops in
  let after := step demo_identity before (OAcknowledged 0) in
  finished before = None /\ appliedOnce before = true /\ c_revision <$> commits (trace before) = [9] /\
  u_appliedVersion (status before) = 5 /\ finished after = Some (RejectedStartup digest_mismatch).
Proof. by vm_compute. Qed.

(** ** Witnesses *)

Lemma commits_newest_active_witness :
  let l := run demo_identity demo_begin (demo_apply 4 8 ++ demo_apply 5 9) in
  c_revision <$> commits (trace l) = [8; 9] /\
  StronglySorted (fun a b => c_sequence a < c_sequence b /\ c_revision a <= c_revision b) (commits (trace l)).
Proof.
  intros l. split; [by vm_compute|].
  refine (proj1 (commits_newest_active demo_identity (js "s") initial_stats 0 0 (demo_apply 4 8 ++ demo_apply 5 9) _)).
  by vm_compute.
Defined.

(** A release is applied; the next one cannot be resolved, and the stream
    reconnects. *)
Lemma failures_preserve_lkg_witness :
  let l := run demo_identity demo_begin (demo_apply 4 8) in
  let ops := [OTarget 9 (demo_target 5 9); OResolved (Throw (Resolution resolution_failed)); OSettled; OReconnect] in
  let q := run demo_identity l ops in
  appliedOnce q = true /\ applied_of q = applied_of l /\ finished q = None.
Proof.
  intros l ops q.
  destruct (failures_preserve_lkg demo_identity (js "s") initial_stats 0 0 (demo_apply 4 8) ops) as (H1 & H2 & H3);
    [by vm_compute|by vm_compute|].
  split; [exact H1|]. split; [apply H3; by vm_compute|].
  destruct (finished q) as [out|] eqn:E; [exfalso|reflexivity]. destruct (H2 out E) as [m p Hp Hb|Hw|k r c Hk Hc Hx].
  - assert (p = demo_prepared) as ->.
    { apply list_elem_of_In in Hp. lazy [ops demo_apply app In] in Hp.
      repeat destruct Hp as [Hp|Hp]; first [discriminate Hp|contradiction Hp|injection Hp as Hp; symmetry; exact Hp]. }
    by destruct Hb.
  - apply list_elem_of_In in Hw. lazy [ops In] in Hw. repeat destruct Hw as [Hw|Hw]; first [discriminate Hw|contradiction Hw].
  - by destruct Hk.
Defined.
