(* ===== verification/LoaderRun.v ===== *)
(** * LoaderRun: the tasks around the coordinator in
    [sdk/typescript/src/releases/loader.ts].

    [run] starts a watch loop ([#watchLoop]), flushes acknowledgements one
    after the other on a promise chain ([#scheduleAckFlush]), lets a startup
    rejection wait for its acknowledgement ([#waitForAcknowledgement]) and
    cleans up at its end. This file adds the state of these tasks to that of
    [Loader] and drives its operations: what [Loader] leaves to any order
    happens here in the order the source imposes. Streams are numbered in the
    order they are opened. That a stream which was closed or cancelled sends
    nothing more is documented behaviour of the transport. *)
From stdpp Require Import prelude.
From Stdlib Require Import ZArith Lia.
From S2P Require Import Prelude JsString JsMap Errors Refs DefaultsArtifact Release Resolve Loader.

(** ** State *)

(** The flush chain: each entry is the stream it was scheduled for and whether
    the watch loop awaits it; the flush in progress also has its place among
    [flushes]. *)
Record Chain := {
  scheduled : list (stream * bool);
  flushing : option (stream * bool * nat);
  closed : list stream
}.

(** [acknowledgementWaiters] maps a generation to the startup rejection that
    waits for it. A wait that settled holds the stream until its continuation
    runs, which closes the stream and awaits the watch loop, for a bounded
    time. [expired] are the waits whose timer fired. *)
Record Waits := {
  acknowledgementWaiters : list (Z * nat);
  resolved : list (nat * option stream);
  closing : list nat;
  expired : list nat
}.

(** Where [#watchLoop] is suspended. *)
Inductive watch_phase :=
| Connecting
| Replaying (s : stream) (j : nat)
| Scheduled (s : stream)
| Reading (s : stream)
| Closing (terminal : bool)
| Delayed
| Ended.

(** The locals of the loop, the number of streams opened so far, and the
    delays taken, with the attempt each was taken for. *)
Record Watch := {
  phase : watch_phase;
  receivedEvent : bool;
  attempt : Z;
  opened : nat;
  delays : list (Z * Z)
}.

Record Run := {
  loader : Loader;
  chain : Chain;
  waits : Waits;
  watch : Watch;
  gracefulWatchStop : bool
}.

Definition on_loader (f : Loader -> Loader) (r : Run) : Run :=
  {| loader := f (loader r); chain := chain r; waits := waits r; watch := watch r;
     gracefulWatchStop := gracefulWatchStop r |}.
Definition with_chain (r : Run) (c : list (stream * bool)) (f : option (stream * bool * nat)) : Run :=
  {| loader := loader r; chain := {| scheduled := c; flushing := f; closed := closed (chain r) |};
     waits := waits r; watch := watch r; gracefulWatchStop := gracefulWatchStop r |}.
(** [closeStream] and [cancel]. *)
Definition close (r : Run) (s : stream) : Run :=
  {| loader := loader r;
     chain := {| scheduled := scheduled (chain r); flushing := flushing (chain r); closed := s :: closed (chain r) |};
     waits := waits r; watch := watch r; gracefulWatchStop := gracefulWatchStop r |}.
Definition with_waits (r : Run) (w : Waits) : Run :=
  {| loader := loader r; chain := chain r; waits := w; watch := watch r; gracefulWatchStop := gracefulWatchStop r |}.
Definition with_watch (r : Run) (w : Watch) : Run :=
  {| loader := loader r; chain := chain r; waits := waits r; watch := w; gracefulWatchStop := gracefulWatchStop r |}.
Definition in_phase (r : Run) (p : watch_phase) : Run :=
  with_watch r {| phase := p; receivedEvent := receivedEvent (watch r); attempt := attempt (watch r);
                  opened := opened (watch r); delays := delays (watch r) |}.
Definition received_event (r : Run) : Run :=
  with_watch r {| phase := phase (watch r); receivedEvent := true; attempt := attempt (watch r);
                  opened := opened (watch r); delays := delays (watch r) |}.

(** ** The flush chain *)

(** [#scheduleAckFlush], [n] times: without a current stream nothing is
    added. *)
Definition schedule (r : Run) (awaited : bool) (n : nat) : Run :=
  match currentStream (loader r) with
  | Some s => with_chain r (scheduled (chain r) ++ replicate n (s, awaited)) (flushing (chain r))
  | None => r
  end.

(** An operation of the coordinator: each acknowledgement it makes schedules a
    flush. *)
Definition lift (f : Loader -> Loader) (r : Run) : Run :=
  let made := Z.to_nat (ackGeneration (f (loader r)) - ackGeneration (loader r)) in
  schedule (on_loader f r) false made.

(** ** Waiting for an acknowledgement *)

(** The first retained acknowledgement of this generation that was flushed,
    with the stream it was flushed on. *)
Definition flushed_on (l : Loader) (generation : Z) : option (option stream) :=
  head (omap (fun x => if (pa_generation x.2 =? generation) && negb (pa_dirty x.2) then Some (pa_flushedOn x.2) else None)
             (pendingAcknowledgements l)).

Definition set_waiters (r : Run) (m : list (Z * nat)) : Run :=
  with_waits r {| acknowledgementWaiters := m; resolved := resolved (waits r); closing := closing (waits r);
                  expired := expired (waits r) |}.
Definition resolve (r : Run) (k : nat) (s : option stream) : Run :=
  with_waits r {| acknowledgementWaiters := acknowledgementWaiters (waits r);
                  resolved := resolved (waits r) ++ [(k, s)]; closing := closing (waits r);
                  expired := expired (waits r) |}.

(** [finish]: the waiter is removed, the promise resolves. *)
Definition finish_wait (r : Run) (generation : Z) (k : nat) (s : option stream) : Run :=
  resolve (set_waiters r (map_delete generation (acknowledgementWaiters (waits r)))) k s.

Definition waitForAcknowledgement (r : Run) (k : nat) (generation : Z) : Run :=
  match flushed_on (loader r) generation with
  | Some s => resolve r k s
  | None =>
      let r := set_waiters r (map_set generation k (acknowledgementWaiters (waits r))) in
      if runAborted (loader r) then set_waiters r (map_delete generation (acknowledgementWaiters (waits r)))
      else match flushed_on (loader r) generation with
           | Some s => finish_wait r generation k s
           | None => r
           end
  end.

(** A rejection without a generation has nothing to wait for. *)
Definition await_rejection (r : Run) (k : nat) (result : CandidateResult) : Run :=
  match cr_acknowledgementGeneration result with
  | None => resolve r k None
  | Some generation => waitForAcknowledgement r k generation
  end.

(** [#acknowledgementWaiters.get(generation)?.(stream)], then its deletion. *)
Definition wake (r : Run) (generation : Z) (s : stream) : Run :=
  match map_get generation (acknowledgementWaiters (waits r)) with
  | Some k => finish_wait r generation k (Some s)
  | None => r
  end.

(** ** Flushing *)

(** One iteration of [#flushAcknowledgements] for flush [j]: the send of its
    next item succeeded. The waiter is called if the item is still the
    retained one. *)
Definition flush_sent (r : Run) (j : nat) : Run :=
  match flushes (loader r) !! j with
  | Some (s, x :: _) =>
      let r' := on_loader (fun l => flush_step l j) r in
      match map_get x.1 (pendingAcknowledgements (loader r)) with
      | Some current => if pa_generation current =? pa_generation x.2 then wake r' (pa_generation x.2) s else r'
      | None => r'
      end
  | _ => r
  end.

(** What is left to send of flush [j]. *)
Definition left_of (l : Loader) (j : nat) : list (ReleaseState * PendingAcknowledgement) :=
  match flushes l !! j with Some (_, items) => items | None => [] end.

Definition sends (r : Run) (s : stream) (ok : bool) : bool := ok && negb (bool_decide (s ∈ closed (chain r))).

(** ** The watch loop *)

(** The condition at the head of the loop, and the start of a round. *)
Definition loop_head (r : Run) : Run :=
  if runAborted (loader r) || gracefulWatchStop r then in_phase r Ended
  else with_watch r {| phase := Connecting; receivedEvent := false; attempt := attempt (watch r);
                       opened := opened (watch r); delays := delays (watch r) |}.

(** The end of the [try], with an error or without: [finally] releases the
    current stream and closes this one. *)
Definition leave (r : Run) (s : option stream) (error : option JsError) : Run :=
  let terminal := match error with Some e => bool_decide (terminalReleaseWatchError e <> None) | None => false end in
  let r := match s with Some s => close (on_loader (fun l => stream_closed l s) r) s | None => r end in
  in_phase r (Closing terminal).

(** After [finally]: the terminal error, or another round after a delay
    ([random] is the value of [Math.floor(random() * ceiling)]). *)
Definition left_stream (r : Run) (terminal : bool) (random : Z) : Run :=
  if terminal then in_phase (on_loader (fun l => finish l TerminalWatch) r) Ended
  else if runAborted (loader r) || gracefulWatchStop r then in_phase r Ended
  else
    let w := watch r in
    let n := if receivedEvent w then 0 else attempt w in
    let d := releaseReconnectBackoff (fun _ => random) n in
    with_watch (on_loader recordReconnect r)
      {| phase := Delayed; receivedEvent := receivedEvent w; attempt := n + 1; opened := opened w;
         delays := delays w ++ [(n, d)] |}.

Inductive event :=
| AcknowledgementRejected (e : AckRejectedEvent)
| Heartbeat (revision : Z)
| Target (revision : Z) (x : InstanceReleaseTarget)
| OtherEvent.

Definition on_event (o : Identity) (r : Run) (s : stream) (e : event) : Run :=
  if runAborted (loader r) then leave r (Some s) None
  else match e with
  | AcknowledgementRejected e => on_loader (fun l => handleAcknowledgementRejected o l e) (received_event r)
  | Heartbeat revision => on_loader (fun l => advance_seen l revision) (received_event r)
  | Target revision x =>
      match x_release x with
      | Some release =>
          if sessionRegistered (loader r) && releaseMatchesTrack release (o_track o)
          then on_loader (fun l => on_target o l revision x) (received_event r) else r
      | None => r
      end
  | OtherEvent => r
  end.

(** ** Steps *)

Inductive rop :=
| RTask (x : op)
| RFresh (k : nat) (answer : option InstanceReleaseTarget)
| RExpire (generation : Z)
| RWaited (k : nat)
| RStopped (k : nat)
| RAbort
| RFlush
| RSend (ok : bool) (error : JsError)
| RFlushed
| ROpened
| RConnectFailed (error : JsError)
| RReplay (ok : bool) (error : JsError)
| RReplayed
| REvent (e : event)
| REnd (error : option JsError)
| RLeft (random : Z)
| RDelayed
| RFinalFlush
| RFinalClose.

(** The operations of candidates, readings and offers. *)
Definition task_op (x : op) : bool :=
  match x with OOffer _ | OResolved _ | OPrepared _ | OActive _ | OSettled => true | _ => false end.

Section run.
Context (o : Identity).

(** The continuation of a startup rejection whose fresh read answered. *)
Definition fresh_step (r : Run) (k : nat) (answer : option InstanceReleaseTarget) : Run :=
  match startups (loader r) !! k with
  | Some (AwaitsFresh _) =>
      let r := on_loader (fun l => on_fresh o l k answer) r in
      match startups (loader r) !! k with
      | Some (AwaitsAcknowledgement result) => await_rejection r k result
      | _ => r
      end
  | _ => r
  end.

(** The timer of a wait. *)
Definition expire (r : Run) (generation : Z) : Run :=
  match map_get generation (acknowledgementWaiters (waits r)) with
  | Some k =>
      let r := finish_wait r generation k None in
      with_waits r {| acknowledgementWaiters := acknowledgementWaiters (waits r); resolved := resolved (waits r);
                      closing := closing (waits r); expired := k :: expired (waits r) |}
  | None => r
  end.

(** The continuation of a wait: with a stream, the watch loop is to stop and
    the stream is closed; without one the run is rejected. *)
Definition waited (r : Run) (k : nat) : Run :=
  match map_get k (resolved (waits r)) with
  | None => r
  | Some s =>
      let w := waits r in
      let r := with_waits r {| acknowledgementWaiters := acknowledgementWaiters w; resolved := map_delete k (resolved w);
                               closing := match s with Some _ => k :: closing w | None => closing w end;
                               expired := expired w |} in
      match s with
      | None => on_loader (fun l => on_acknowledged l k) r
      | Some s =>
          let r := close r s in
          {| loader := loader r; chain := chain r; waits := waits r; watch := watch r; gracefulWatchStop := true |}
      end
  end.

(** The stream is closed and the watch loop has ended, or they took too long;
    an abort rejects both waits, and the run has ended then. *)
Definition stopped (r : Run) (k : nat) : Run :=
  if bool_decide (k ∈ closing (waits r)) then
    let w := waits r in
    let r := with_waits r {| acknowledgementWaiters := acknowledgementWaiters w; resolved := resolved w;
                             closing := filter (fun j => j <> k) (closing w); expired := expired w |} in
    if runAborted (loader r) then r else on_loader (fun l => on_acknowledged l k) r
  else r.

(** The chain's next flush begins; it sends; it is done. *)
Definition flush_next (r : Run) : Run :=
  match flushing (chain r), scheduled (chain r) with
  | None, (s, awaited) :: rest =>
      on_loader (fun l => flush_begin l s false)
        (with_chain r rest (Some (s, awaited, length (flushes (loader r)))))
  | _, _ => r
  end.

Definition flush_send (r : Run) (ok : bool) (error : JsError) : Run :=
  match flushing (chain r) with
  | Some (s, awaited, j) =>
      if bool_decide (left_of (loader r) j = []) then r
      else if sends r s ok then flush_sent r j
      else
        let r := close (with_chain r (scheduled (chain r)) None) s in
        if awaited then leave r (Some s) (Some error) else r
  | None => r
  end.

Definition flush_done (r : Run) : Run :=
  match flushing (chain r) with
  | Some (s, awaited, j) =>
      if bool_decide (left_of (loader r) j = []) then
        let r := with_chain r (scheduled (chain r)) None in
        if awaited then in_phase r (Reading s) else r
      else r
  | None => r
  end.

(** The replay on a new stream, which the watch loop does itself. *)
Definition stream_open (r : Run) : Run :=
  match phase (watch r) with
  | Connecting =>
      let w := watch r in
      let s := opened w in
      with_watch (on_loader (fun l => stream_opened l s) r)
        {| phase := Replaying s (length (flushes (loader r))); receivedEvent := receivedEvent w; attempt := attempt w;
           opened := S s; delays := delays w |}
  | _ => r
  end.

Definition replay_send (r : Run) (ok : bool) (error : JsError) : Run :=
  match phase (watch r) with
  | Replaying s j =>
      if bool_decide (left_of (loader r) j = []) then r
      else if sends r s ok then flush_sent r j
      else leave r (Some s) (Some error)
  | _ => r
  end.

Definition replay_done (r : Run) : Run :=
  match phase (watch r) with
  | Replaying s j =>
      if bool_decide (left_of (loader r) j = [])
      then in_phase (schedule (on_loader (fun l => stream_current l s) r) true 1) (Scheduled s)
      else r
  | _ => r
  end.

(** The [finally] of [run], once the candidates' tasks have settled. *)
Definition idle (r : Run) : bool := runAborted (loader r) && bool_decide (task (loader r) = None).

Definition rstep (r : Run) (x : rop) : Run :=
  match x with
  | RTask x => if task_op x then lift (fun l => step o l x) r else r
  | RFresh k answer => fresh_step r k answer
  | RExpire generation => expire r generation
  | RWaited k => waited r k
  | RStopped k => stopped r k
  | RAbort => set_waiters (on_loader abort_run r) []
  | RFlush => flush_next r
  | RSend ok error => flush_send r ok error
  | RFlushed => flush_done r
  | ROpened => stream_open r
  | RConnectFailed error => match phase (watch r) with Connecting => leave r None (Some error) | _ => r end
  | RReplay ok error => replay_send r ok error
  | RReplayed => replay_done r
  | REvent e => match phase (watch r) with Reading s => on_event o r s e | _ => r end
  | REnd error => match phase (watch r) with Reading s => leave r (Some s) error | _ => r end
  | RLeft random => match phase (watch r) with Closing terminal => left_stream r terminal random | _ => r end
  | RDelayed => match phase (watch r) with Delayed => loop_head r | _ => r end
  | RFinalFlush => if idle r then schedule r false 1 else r
  | RFinalClose =>
      match currentStream (loader r) with
      | Some s => if idle r then close (on_loader (fun l => stream_closed l s) r) s else r
      | None => r
      end
  end.

Definition rrun (r : Run) (xs : list rop) : Run := foldl rstep r xs.
End run.

(** [run] after the first read, as the watch loop starts. *)
Definition tasks_begin (id : jstr) (st : Stats) (reconnects : Z) (initialRevision : Z) : Run :=
  {| loader := run_begin id st reconnects initialRevision;
     chain := {| scheduled := []; flushing := None; closed := [] |};
     waits := {| acknowledgementWaiters := []; resolved := []; closing := []; expired := [] |};
     watch := {| phase := Connecting; receivedEvent := false; attempt := 0; opened := 0; delays := [] |};
     gracefulWatchStop := false |}.
