(* ===== verification/LoaderRunProofs.v ===== *)
(** * LoaderRunProofs: the loader with its tasks.

    Every run of the tasks is a run of the coordinator, so what is proved of
    [Loader] holds of it. On top of that, a retained acknowledgement always
    reaches the current stream. *)
From stdpp Require Import prelude list strings.
From Stdlib Require Import ZArith Lia.
From S2P Require Import Prelude JsString JsMap Errors Refs DefaultsArtifact Release Resolve Loader LoaderProofs LoaderRun.

(** ** The tasks only touch the coordinator through its operations *)

Section project.
Context (o : Identity).

Lemma loader_schedule r a n : loader (schedule r a n) = loader r.
Proof. unfold schedule. by destruct (currentStream (loader r)). Qed.

Lemma loader_wait r k g : loader (waitForAcknowledgement r k g) = loader r.
Proof.
  unfold waitForAcknowledgement. destruct (flushed_on (loader r) g) eqn:E; [done|]. simpl. rewrite E.
  by destruct (runAborted (loader r)).
Qed.
Lemma loader_await r k res : loader (await_rejection r k res) = loader r.
Proof. unfold await_rejection. destruct (cr_acknowledgementGeneration res); [apply loader_wait|done]. Qed.

Lemma loader_wake r g s : loader (wake r g s) = loader r.
Proof. unfold wake. by destruct (map_get g _). Qed.

Lemma loader_flush_sent r j : loader (flush_sent r j) = flush_step (loader r) j.
Proof.
  unfold flush_sent, flush_step. destruct (flushes (loader r) !! j) as [[s [|x rest]]|] eqn:Hj; try done.
  destruct (map_get x.1 (pendingAcknowledgements (loader r))); [|simpl; unfold flush_step; by rewrite Hj].
  destruct (_ =? _); [rewrite loader_wake|]; simpl; unfold flush_step; by rewrite Hj.
Qed.

Lemma loader_leave r s e :
  loader (leave r s e) = match s with Some s => stream_closed (loader r) s | None => loader r end.
Proof. unfold leave. by destruct s. Qed.

Lemma loader_head r : loader (loop_head r) = loader r.
Proof. unfold loop_head. by destruct (_ || _). Qed.

#[local] Hint Rewrite loader_schedule loader_await loader_wake loader_flush_sent loader_leave loader_head : run.

(** What the coordinator does in a step of the tasks: at most one of its
    operations. *)
Lemma rstep_project r x : exists xs, loader (rstep o r x) = run o (loader r) xs.
Proof.
  assert (forall l, l = loader r -> exists xs, l = run o (loader r) xs) as H0 by (intros l ->; by exists []).
  assert (forall y l, l = step o (loader r) y -> exists xs, l = run o (loader r) xs) as H1 by (intros y l ->; by exists [y]).
  destruct x; simpl.
  - destruct (task_op x); [|by apply H0]. unfold lift. autorewrite with run. by apply (H1 x).
  - unfold fresh_step. destruct (startups (loader r) !! k) as [[q|q|]|]; try by apply H0.
    apply (H1 (OFresh k answer)). simpl. destruct (startups _ !! k) as [[]|]; autorewrite with run; done.
  - unfold expire. apply H0. by destruct (map_get _ _).
  - unfold waited. destruct (map_get _ _) as [[s|]|]; [by apply H0|by apply (H1 (OAcknowledged k))|by apply H0].
  - unfold stopped. case_bool_decide; [|by apply H0]. simpl. destruct (runAborted _); [by apply H0|by apply (H1 (OAcknowledged k))].
  - by apply (H1 OAbort).
  - unfold flush_next. destruct (flushing _); [by apply H0|]. destruct (scheduled _) as [|[s a] rest]; [by apply H0|].
    by apply (H1 (OFlush s false)).
  - unfold flush_send. destruct (flushing _) as [[[s a] j]|]; [|by apply H0]. case_bool_decide; [by apply H0|].
    destruct (sends r s ok); [autorewrite with run; by apply (H1 (OFlushStep j))|].
    destruct a; [|by apply H0]. autorewrite with run. by apply (H1 (OClosed s)).
  - unfold flush_done. destruct (flushing _) as [[[s a] j]|]; [|by apply H0]. case_bool_decide; [|by apply H0].
    apply H0. by destruct a.
  - unfold stream_open. destruct (phase _); try by apply H0. by apply (H1 (OOpened (opened (watch r)))).
  - destruct (phase _); by apply H0.
  - unfold replay_send. destruct (phase _); try by apply H0. case_bool_decide; [by apply H0|].
    destruct (sends r s ok); autorewrite with run; [by apply (H1 (OFlushStep j))|by apply (H1 (OClosed s))].
  - unfold replay_done. destruct (phase _); try by apply H0. case_bool_decide; [|by apply H0].
    simpl. autorewrite with run. by apply (H1 (OCurrent s)).
  - destruct (phase _); try by apply H0. unfold on_event.
    destruct (runAborted _); [autorewrite with run; by apply (H1 (OClosed s))|]. destruct e; try by apply H0.
    + by apply (H1 (OAckRejected e)).
    + by apply (H1 (OHeartbeat revision)).
    + destruct (x_release x); [|by apply H0]. destruct (_ && _); [by apply (H1 (OTarget revision x))|by apply H0].
  - destruct (phase _); try by apply H0. autorewrite with run. by apply (H1 (OClosed s)).
  - destruct (phase _); try by apply H0. unfold left_stream. destruct terminal; [by apply (H1 OWatchFailed)|].
    destruct (_ || _); [by apply H0|by apply (H1 OReconnect)].
  - destruct (phase _); try by apply H0. autorewrite with run. by apply H0.
  - destruct (idle r); [autorewrite with run|]; by apply H0.
  - destruct (currentStream _); [|by apply H0]. destruct (idle r); [by apply (H1 (OClosed n))|by apply H0].
Qed.

Lemma rrun_project r xs : exists ys, loader (rrun o r xs) = run o (loader r) ys.
Proof.
  induction xs as [|x xs [ys IH]] using rev_ind; [by exists []|]. unfold rrun in *. rewrite foldl_snoc.
  destruct (rstep_project (foldl (rstep o) r xs) x) as [zs E]. exists (ys ++ zs). rewrite E, IH.
  unfold run. by rewrite foldl_app.
Qed.
End project.

(** ** What an operation of the coordinator does to the acknowledgements *)

(** They only gain new ones, which are dirty; nothing else that the flushes
    look at changes. *)
Record evolves (l l' : Loader) : Prop := {
  ev_flushes : flushes l' = flushes l;
  ev_stream : currentStream l' = currentStream l;
  ev_gen : ackGeneration l <= ackGeneration l';
  ev_trace : exists es, trace l' = trace l ++ es;
  ev_acks : forall s x, map_get s (pendingAcknowledgements l') = Some x ->
    map_get s (pendingAcknowledgements l) = Some x \/ (ackGeneration l < pa_generation x /\ pa_dirty x = true)
}.

Lemma evolves_same l l' :
  flushes l' = flushes l -> currentStream l' = currentStream l -> ackGeneration l' = ackGeneration l ->
  pendingAcknowledgements l' = pendingAcknowledgements l -> (exists es, trace l' = trace l ++ es) -> evolves l l'.
Proof. intros E1 E2 E3 E4 E5. split; [done|done|lia|done|]. intros s x. rewrite E4. by left. Qed.

Lemma evolves_quiet l l' :
  flushes l' = flushes l -> currentStream l' = currentStream l -> ackGeneration l' = ackGeneration l ->
  pendingAcknowledgements l' = pendingAcknowledgements l -> trace l' = trace l -> evolves l l'.
Proof. intros. apply evolves_same; try done. exists []. by rewrite app_nil_r. Qed.

Lemma evolves_trans l1 l2 l3 : evolves l1 l2 -> evolves l2 l3 -> evolves l1 l3.
Proof.
  intros [A1 A2 A3 [es A4] A5] [B1 B2 B3 [fs B4] B5].
  split; [congruence|congruence|lia|exists (es ++ fs); by rewrite B4, A4, app_assoc|].
  intros s x Hx. destruct (B5 s x Hx) as [Hx'|[Hg Hd]]; [by apply A5|]. right. split; [lia|done].
Qed.

#[global] Instance evolves_preorder : PreOrder evolves.
Proof. split; [intros l; by apply evolves_quiet|exact evolves_trans]. Qed.

Ltac quiet := apply evolves_quiet; done.

Lemma emit_evolves l e : evolves l (emit l e).
Proof. apply evolves_same; try done. by exists [e]. Qed.

Lemma ack_evolves l c s cat d : evolves l (ack l c s cat d).1.
Proof.
  unfold ack. cbv zeta. simpl. set (new := {| pa_acknowledgement := _ |}).
  split; simpl; [done|done|lia|by exists []; rewrite app_nil_r|]. intros s' x Hx.
  destruct (match map_get s (pendingAcknowledgements l) with Some _ => _ | None => _ end); [|by left].
  rewrite map_get_set in Hx. case_decide; [|by left]. injection Hx as <-. right. simpl. split; [lia|done].
Qed.

Lemma reject_evolves l c cat : evolves l (reject l c cat).1.
Proof.
  unfold reject. pose proof (ack_evolves l c rejected_state (Some cat) NO_DIVERGENCE) as H.
  destruct (ack l c rejected_state (Some cat) NO_DIVERGENCE) as [l1 g]. etransitivity; [exact H|]. quiet.
Qed.

Lemma reject_settle_evolves l t cat fatal : evolves l (reject_and_settle l t cat fatal).
Proof.
  unfold reject_and_settle. pose proof (reject_evolves l (t_candidate t) cat) as H.
  destruct (reject l (t_candidate t) cat) as [l1 g]. etransitivity; [exact H|]. quiet.
Qed.

Lemma abort_reject_evolves l t p cat : evolves l (abort_and_reject l t p cat).
Proof.
  unfold abort_and_reject. etransitivity; [apply (emit_evolves l (CallAbort (t_candidate t)))|].
  destruct (abort_error _); apply reject_settle_evolves.
Qed.

Lemma offer_evolves o l c : evolves l (offer o l c).
Proof. unfold offer. destruct (offer_ignored o l c); [done|]. cbv zeta. destruct (task l); quiet. Qed.

Lemma start_pending_evolves l : evolves l (start_pending l).
Proof. unfold start_pending. destruct (pending l); [|done]. destruct (runAborted l); [done|quiet]. Qed.

Lemma on_resolved_evolves l out : evolves l (on_resolved l out).
Proof.
  unfold on_resolved. destruct (task l) as [[c ab ph]|]; [|done]. destruct ph; try done.
  destruct out; [|apply reject_settle_evolves]. simpl t_candidate.
  pose proof (ack_evolves l c received None NO_DIVERGENCE) as H.
  destruct (ack l c received None NO_DIVERGENCE) as [l1 g]. cbv zeta. etransitivity; [exact H|].
  apply evolves_same; try done. by eexists.
Qed.

Lemma on_prepared_evolves l out : evolves l (on_prepared l out).
Proof.
  unfold on_prepared. destruct (task l) as [[c ab ph]|]; [|done]. destruct ph; try done.
  destruct out as [p|]; [|apply reject_settle_evolves]. cbv zeta.
  etransitivity; [apply (emit_evolves l (GotPrepared c))|]. simpl t_candidate. simpl t_aborted.
  destruct ab; [apply abort_reject_evolves|].
  pose proof (ack_evolves (emit l (GotPrepared c)) c prepared_state None NO_DIVERGENCE) as H.
  destruct (ack _ c prepared_state None NO_DIVERGENCE) as [l1 g]. etransitivity; [exact H|]. quiet.
Qed.

Lemma on_active_evolves o l answer : evolves l (on_active o l answer).
Proof.
  unfold on_active. destruct (task l) as [[c ab ph]|]; [|done]. destruct ph; try done. cbv zeta. simpl t_candidate.
  destruct (active_candidate o answer); [|apply abort_reject_evolves]. destruct (_ || _); [apply abort_reject_evolves|].
  etransitivity; [apply (emit_evolves l (CallCommit c))|]. destruct (commit_error _); [quiet|].
  pose proof (ack_evolves (emit l (CallCommit c)) c applied_state None (divergenceOf (on_divergence p))) as H.
  destruct (ack _ c applied_state None _) as [l1 g]. etransitivity; [exact H|]. quiet.
Qed.

Lemma on_settled_evolves l : evolves l (on_settled l).
Proof.
  unfold on_settled. destruct (task l) as [[c ab ph]|]; [|done]. destruct ph as [| | |r]; try done. cbv zeta.
  assert (forall l', evolves l l' -> evolves l (start_pending l')) as Hs.
  { intros l' H. etransitivity; [exact H|]. apply start_pending_evolves. }
  destruct (cr_fatal r); [quiet|]. destruct (negb (bool_decide _)); [apply Hs; quiet|].
  destruct (cr_category r); [|apply Hs; quiet]. case_bool_decide; [apply Hs; quiet|].
  destruct (negb _); [quiet|apply Hs; quiet].
Qed.

Lemma task_op_evolves o l x : task_op x = true -> evolves l (step o l x).
Proof.
  destruct x; try done; intros _; simpl.
  - destruct (active_candidate o answer); [apply offer_evolves|done].
  - apply on_resolved_evolves.
  - apply on_prepared_evolves.
  - apply on_active_evolves.
  - apply on_settled_evolves.
Qed.

Lemma on_fresh_evolves o l k answer : evolves l (on_fresh o l k answer).
Proof.
  unfold on_fresh. destruct (startups l !! k) as [[r|r|]|]; try done.
  destruct (active_candidate o answer); [|quiet]. destruct (sameActiveCandidate _ _); [quiet|].
  etransitivity; [|apply offer_evolves]. quiet.
Qed.

Lemma on_acknowledged_evolves l k : evolves l (on_acknowledged l k).
Proof. unfold on_acknowledged. destruct (startups l !! k) as [[r|r|]|]; try done. destruct (cr_category r); [quiet|done]. Qed.

Lemma advance_seen_evolves l rev : evolves l (advance_seen l rev).
Proof. unfold advance_seen. destruct (_ <? _); [quiet|done]. Qed.

Lemma on_target_evolves o l rev x : evolves l (on_target o l rev x).
Proof.
  unfold on_target. destruct (x_release x); [|done]. destruct (_ && _); [|done].
  etransitivity; [apply (advance_seen_evolves l rev)|]. apply offer_evolves.
Qed.

Lemma ack_rejected_evolves o l e : ack_ok l -> evolves l (handleAcknowledgementRejected o l e).
Proof.
  intros [Hwf _ _ _ _]. unfold handleAcknowledgementRejected. destruct (isReleaseState _) as [st|]; [|done]. destruct (_ || _); [done|].
  destruct (map_get _ _); [|done]. cbv zeta. destruct (_ || _); [done|].
  split; simpl; [done|done|lia|exists []; by rewrite app_nil_r|]. intros s x. rewrite map_get_delete by done. case_decide; [done|by left].
Qed.

Lemma run_ack_ok o l xs : ack_ok l -> ack_ok (run o l xs).
Proof. intros H. unfold run. induction xs as [|x xs IH] using rev_ind; [done|]. rewrite foldl_snoc. by apply step_ack. Qed.

Lemma rstep_ack o r x : ack_ok (loader r) -> ack_ok (loader (rstep o r x)).
Proof. intros H. destruct (rstep_project o r x) as [xs ->]. by apply run_ack_ok. Qed.

(** ** Retained acknowledgements reach the current stream *)

Definition sent_on (l : Loader) (s : stream) (x : PendingAcknowledgement) : Prop := Send s (pa_acknowledgement x) ∈ trace l.

(** Flush [j] is still going to send it. *)
Definition to_send (l : Loader) (j : nat) (st : ReleaseState) (x : PendingAcknowledgement) : Prop :=
  exists y, y ∈ left_of l j /\ y.1 = st /\ pa_generation y.2 = pa_generation x.

Definition is_flush (l : Loader) (s : stream) (j : nat) : Prop := exists items, flushes l !! j = Some (s, items).

(** The streams of the flushes that the watch loop awaits. *)
Definition awaited_streams (sch : list (stream * bool)) (fl : option (stream * bool * nat)) : list stream :=
  omap (fun e => if e.2 : bool then Some e.1 else None) (option_list (fst <$> fl) ++ sch).

(** Over the fields of a run: the coordinator, the chain and the phase of the
    watch loop. *)
Record delivery (l : Loader) (sch : list (stream * bool)) (fl : option (stream * bool * nat)) (cl : list stream)
    (ph : watch_phase) : Prop := {
  d_acks : ack_ok l;
  d_current : forall s, currentStream l = Some s -> ph = Scheduled s \/ ph = Reading s;
  d_chain : forall s a, (s, a) ∈ sch -> s ∈ cl \/ currentStream l = Some s;
  d_flushing : forall s a j, fl = Some (s, a, j) -> (s ∈ cl \/ currentStream l = Some s) /\ is_flush l s j;
  d_awaited : awaited_streams sch fl = match ph with Scheduled s => [s] | _ => [] end;
  d_replay : forall s j, ph = Replaying s j ->
    is_flush l s j /\ (forall s' a, fl <> Some (s', a, j)) /\
    (s ∈ cl \/ forall st x, map_get st (pendingAcknowledgements l) = Some x ->
                 sent_on l s x \/ pa_dirty x = true \/ to_send l j st x);
  d_covered : forall s, currentStream l = Some s -> s ∈ cl \/
    forall st x, map_get st (pendingAcknowledgements l) = Some x ->
      sent_on l s x \/
      pa_dirty x = true /\ ((exists a, (s, a) ∈ sch) \/ exists a j, fl = Some (s, a, j) /\ to_send l j st x)
}.
Definition delivered (r : Run) : Prop :=
  delivery (loader r) (scheduled (chain r)) (flushing (chain r)) (closed (chain r)) (phase (watch r)).

Lemma sent_evolves l l' s x : evolves l l' -> sent_on l s x -> sent_on l' s x.
Proof. intros [_ _ _ [es E] _] H. unfold sent_on. rewrite E. apply elem_of_app. by left. Qed.

Lemma evolves_old l l' s x :
  evolves l l' -> ack_ok l' -> ackGeneration l' = ackGeneration l ->
  map_get s (pendingAcknowledgements l') = Some x -> map_get s (pendingAcknowledgements l) = Some x.
Proof.
  intros Hev Hok E Hx. destruct (ev_acks _ _ Hev s x Hx) as [?|[Hg _]]; [done|].
  destruct (ao_item _ Hok s x Hx) as [? _]. lia.
Qed.

(** New acknowledgements, each with a flush scheduled for it if there is a
    current stream. *)
Lemma delivery_grows l sch fl cl ph l' n :
  delivery l sch fl cl ph -> evolves l l' -> ack_ok l' -> (ackGeneration l < ackGeneration l' -> (0 < n)%nat) ->
  delivery l' (match currentStream l' with Some s => sch ++ replicate n (s, false) | None => sch end) fl cl ph.
Proof.
  intros [A B C D F G H] Hev Hok Hn. pose proof Hev as [E1 E2 E3 _ E5].
  assert (forall s j, is_flush l s j -> is_flush l' s j) as Hfl by (intros s j; unfold is_flush; by rewrite E1).
  assert (forall j st x, to_send l j st x -> to_send l' j st x) as Hts by (intros j st x; unfold to_send, left_of; by rewrite E1).
  assert (forall st x, map_get st (pendingAcknowledgements l') = Some x -> ackGeneration l < pa_generation x -> (0 < n)%nat) as Hnew.
  { intros st x Hx Hg. apply Hn. destruct (ao_item _ Hok st x Hx). lia. }
  split; [done|by rewrite E2| | | | |].
  - rewrite E2. intros s a Hin. destruct (currentStream l) as [c|] eqn:Hc; [|destruct (C s a Hin); by left || done].
    apply elem_of_app in Hin as [Hin|Hin]; [by apply (C s a)|]. apply elem_of_replicate in Hin as [[= -> ->] _]. by right.
  - rewrite E2. intros s a j Hj. destruct (D s a j Hj) as [? ?]. split; [done|by apply Hfl].
  - rewrite <- F. rewrite E2. destruct (currentStream l); [|done]. unfold awaited_streams.
    rewrite app_assoc, omap_app. clear. induction n as [|n IH]; [apply app_nil_r|done].
  - intros s j Hp. destruct (G s j Hp) as (Gf & Gn & Gc). split_and!; [by apply Hfl|done|]. destruct Gc as [?|Gc]; [by left|].
    right. intros st x Hx. destruct (E5 st x Hx) as [Hold|[_ Hd]]; [|by right; left].
    destruct (Gc st x Hold) as [?|[?|?]]; [left; by apply (sent_evolves l)|by right; left|right; right; by apply Hts].
  - rewrite E2. intros s Hs. rewrite Hs. destruct (H s Hs) as [?|Hc]; [by left|]. right. intros st x Hx.
    destruct (E5 st x Hx) as [Hold|[Hg Hd]].
    + destruct (Hc st x Hold) as [?|[Hd [[a Ha]|(a & j & Hj & Ht)]]]; [left; by apply (sent_evolves l)| |].
      * right. split; [done|]. left. exists a. apply elem_of_app. by left.
      * right. split; [done|]. right. exists a, j. split; [done|by apply Hts].
    + right. split; [done|]. left. exists false. apply elem_of_app. right. apply elem_of_replicate.
      split; [done|]. specialize (Hnew st x Hx Hg). lia.
Qed.

Lemma delivery_quiet l sch fl cl ph l' :
  delivery l sch fl cl ph -> evolves l l' -> ack_ok l' -> ackGeneration l' = ackGeneration l -> delivery l' sch fl cl ph.
Proof.
  intros H Hev Hok E. pose proof (delivery_grows l sch fl cl ph l' 0 H Hev Hok ltac:(lia)) as H'.
  destruct (currentStream l'); [|done]. simpl in H'. by rewrite app_nil_r in H'.
Qed.

(** Closing more streams loses nothing. *)
Lemma delivery_close l sch fl cl ph s : delivery l sch fl cl ph -> delivery l sch fl (s :: cl) ph.
Proof.
  intros [A B C D F G H]. assert (forall t, t ∈ cl -> t ∈ s :: cl) as Hin by (intros t ?; by right).
  split; [done|done| | |done| |].
  - intros t a Ha. destruct (C t a Ha); [left; by apply Hin|by right].
  - intros t a j Hj. destruct (D t a j Hj) as [[?|?] ?]; (split; [|done]); [left; by apply Hin|by right].
  - intros t j Hp. destruct (G t j Hp) as (? & ? & [?|?]); split_and!; try done; [left; by apply Hin|by right].
  - intros t Ht. destruct (H t Ht) as [?|?]; [left; by apply Hin|by right].
Qed.

(** The flush in progress ends, by failing on a closed stream, or with nothing
    left to send. *)
Lemma delivery_drop l sch fl cl ph s a j ph' :
  delivery l sch (Some (s, a, j)) cl ph -> s ∈ cl \/ left_of l j = [] -> fl = None ->
  (a = false /\ ph' = ph) \/ (a = true /\ ph' = Reading s) -> delivery l sch fl cl ph'.
Proof.
  intros [A B C D F G H] Hs -> Hph.
  assert (awaited_streams sch None = match ph' with Scheduled s => [s] | _ => [] end) as F'.
  { unfold awaited_streams in *. simpl in *. destruct Hph as [[-> ->]|[-> ->]]; [done|]. simpl in F.
    destruct ph; try done. by injection F. }
  destruct (D s a j eq_refl) as [Dc Df].
  assert (forall t, currentStream l = Some t -> t ∈ cl \/ forall st x, map_get st (pendingAcknowledgements l) = Some x ->
            sent_on l t x \/ pa_dirty x = true /\ (exists b, (t, b) ∈ sch)) as Hcov.
  { intros t Ht. destruct (H t Ht) as [?|Hc]; [by left|]. destruct Hs as [Hs|Hs].
    - destruct (decide (t = s)) as [->|Hne]; [by left|]. right. intros st x Hx.
      destruct (Hc st x Hx) as [?|[Hd [?|(b & i & Hi & _)]]]; [by left|by right|]. congruence.
    - right. intros st x Hx. destruct (Hc st x Hx) as [?|[Hd [?|(b & i & Hi & y & Hy & _)]]]; [by left|by right|].
      injection Hi as <- <- <-. rewrite Hs in Hy. by apply elem_of_nil in Hy. }
  split; [done| |done|done|done| |].
  - intros t Ht. destruct Hph as [[-> ->]|[-> ->]]; [by apply B|]. right.
    destruct (B t Ht) as [->| ->]; unfold awaited_streams in F; simpl in F; [by injection F as ->|done].
  - intros t i Hp. destruct Hph as [[-> ->]|[-> ->]]; [|done]. destruct (G t i Hp) as (? & ? & ?). by split_and!.
  - intros t Ht. destruct (Hcov t Ht) as [?|Hc]; [by left|]. right. intros st x Hx.
    destruct (Hc st x Hx) as [?|[Hd He]]; [by left|right]. split; [done|by left].
Qed.

(** ** Steps of a flush *)

Lemma left_of_begin l s replay j :
  (j < length (flushes l))%nat -> left_of (flush_begin l s replay) j = left_of l j.
Proof. intros H. unfold left_of. simpl. by rewrite lookup_app_l. Qed.
Lemma is_flush_begin l s replay t j : is_flush l t j -> is_flush (flush_begin l s replay) t j.
Proof. intros [items H]. exists items. simpl. rewrite lookup_app_l; [done|]. by eapply lookup_lt_Some. Qed.
Lemma is_flush_bound l s j : is_flush l s j -> (j < length (flushes l))%nat.
Proof. intros [items H]. by eapply lookup_lt_Some. Qed.

(** A flush that begins takes every dirty acknowledgement, a replay all. *)
Lemma begin_to_send l s replay st x :
  map_get st (pendingAcknowledgements l) = Some x -> replay || pa_dirty x = true ->
  to_send (flush_begin l s replay) (length (flushes l)) st x.
Proof.
  intros Hx Hd. exists (st, x). split_and!; [|done|done]. unfold left_of. simpl.
  rewrite lookup_app_r, Nat.sub_diag by done. simpl. unfold flush_items. apply elem_of_js_sort.
  apply list_elem_of_filter. split; [done|]. by apply map_get_Some_elem.
Qed.

Lemma begin_ack l s replay : ack_ok l -> ack_ok (flush_begin l s replay).
Proof. apply flush_begin_ack. Qed.

Lemma to_send_begin l s replay j st x : (j < length (flushes l))%nat -> to_send l j st x -> to_send (flush_begin l s replay) j st x.
Proof. intros Hj. unfold to_send. by rewrite left_of_begin. Qed.

Lemma delivery_next l s a rest cl ph :
  delivery l ((s, a) :: rest) None cl ph ->
  delivery (flush_begin l s false) rest (Some (s, a, length (flushes l))) cl ph.
Proof.
  intros [A B C D F G H].
  split; [by apply begin_ack|done| | |by rewrite <- F| |].
  - intros t b Ht. apply (C t b). by right.
  - intros t b j [= <- <- <-]. split; [apply (C s a); by left|]. exists (flush_items l false). simpl.
    by rewrite lookup_app_r, Nat.sub_diag.
  - intros t j Hp. destruct (G t j Hp) as (Gf & _ & Gc). pose proof (is_flush_bound _ _ _ Gf) as Hj.
    split_and!; [by apply is_flush_begin|intros s' b [= _ _ E]; lia|]. destruct Gc as [?|Gc]; [by left|]. right.
    intros st x Hx. destruct (Gc st x Hx) as [?|[?|?]]; [by left|by right; left|right; right; by apply to_send_begin].
  - intros t Ht. destruct (H t Ht) as [?|Hc]; [by left|]. right. intros st x Hx.
    destruct (Hc st x Hx) as [?|[Hd [[b Hb]|(b & j & ? & _)]]]; [by left| |done]. right. split; [done|].
    apply elem_of_cons in Hb as [[= -> ->]|Hb]; [|left; by exists b]. right. exists a, (length (flushes l)).
    split; [done|]. by apply begin_to_send.
Qed.

(** One send of flush [j]. *)
Section flush_step.
Context (l : Loader) (s : stream) (j : nat) (y : ReleaseState * PendingAcknowledgement)
  (rest : list (ReleaseState * PendingAcknowledgement)).
Context (Hok : ack_ok l) (Hj : flushes l !! j = Some (s, y :: rest)).

Lemma flush_step_eq : flush_step l j =
  set_acks (emit l (Send s (pa_acknowledgement y.2))) (flush_mark l s y) (ackGeneration l) (currentStream l) (<[j := (s, rest)]> (flushes l)).
Proof. unfold flush_step. by rewrite Hj. Qed.

Lemma flush_step_old st x' :
  map_get st (pendingAcknowledgements (flush_step l j)) = Some x' ->
  exists x, map_get st (pendingAcknowledgements l) = Some x /\ pa_generation x' = pa_generation x /\
    pa_acknowledgement x' = pa_acknowledgement x /\
    (x' = x \/ (st = y.1 /\ pa_generation x = pa_generation y.2 /\ pa_dirty x' = false /\ pa_flushedOn x' = Some s)).
Proof.
  rewrite flush_step_eq. simpl. unfold flush_mark. destruct (map_get y.1 (pendingAcknowledgements l)) as [cur|] eqn:Hc.
  2: { intros Hx. exists x'. split_and!; try done. by left. }
  destruct (pa_generation cur =? pa_generation y.2) eqn:Hg; [|intros Hx; exists x'; split_and!; try done; by left].
  rewrite map_get_set. case_decide as Hd; [|intros Hx; exists x'; split_and!; try done; by left].
  intros [= <-]. subst st. exists cur. apply Z.eqb_eq in Hg. split_and!; try done. right. done.
Qed.

Lemma flush_step_trace : trace (flush_step l j) = trace l ++ [Send s (pa_acknowledgement y.2)].
Proof. by rewrite flush_step_eq. Qed.

(** The item that was sent, if it is still retained. *)
Lemma flush_step_sent st x :
  map_get st (pendingAcknowledgements l) = Some x -> st = y.1 -> pa_generation x = pa_generation y.2 ->
  sent_on (flush_step l j) s x.
Proof.
  intros Hx -> Hg. unfold sent_on. rewrite flush_step_trace. apply elem_of_app. right.
  destruct (ao_flush _ Hok s (y :: rest) y) as [_ Ha]; [by eapply list_elem_of_lookup_2|by left|].
  rewrite (Ha x Hx Hg). by left.
Qed.

Lemma flush_step_left st x x' :
  to_send l j st x -> map_get st (pendingAcknowledgements l) = Some x -> pa_generation x' = pa_generation x ->
  to_send (flush_step l j) j st x' \/ sent_on (flush_step l j) s x.
Proof.
  intros (z & Hz & Ez & Eg) Hx Hg. unfold left_of in Hz. rewrite Hj in Hz. apply elem_of_cons in Hz as [->|Hz].
  - right. by apply (flush_step_sent st).
  - left. exists z. split_and!; [|done|congruence]. unfold left_of. rewrite flush_step_eq. simpl.
    by rewrite list_lookup_insert_eq by by eapply lookup_lt_Some.
Qed.

Lemma flush_step_other i st x : i <> j -> to_send l i st x -> to_send (flush_step l j) i st x.
Proof.
  intros Hne. unfold to_send, left_of. rewrite flush_step_eq. simpl. by rewrite list_lookup_insert_ne by done.
Qed.

Lemma flush_step_is t i : is_flush l t i -> is_flush (flush_step l j) t i.
Proof.
  intros [items Hi]. unfold is_flush. rewrite flush_step_eq. simpl. destruct (decide (j = i)) as [<-|Hne].
  - rewrite list_lookup_insert_eq by by eapply lookup_lt_Some. rewrite Hj in Hi. injection Hi as <- _. by eexists.
  - rewrite list_lookup_insert_ne by done. by eexists.
Qed.

Lemma flush_step_keeps t x x' : pa_acknowledgement x' = pa_acknowledgement x -> sent_on l t x -> sent_on (flush_step l j) t x'.
Proof. intros E H. unfold sent_on. rewrite E, flush_step_trace. apply elem_of_app. by left. Qed.
End flush_step.

Lemma delivery_send l sch s a j cl ph y rest :
  delivery l sch (Some (s, a, j)) cl ph -> flushes l !! j = Some (s, y :: rest) -> s ∉ cl ->
  delivery (flush_step l j) sch (Some (s, a, j)) cl ph.
Proof.
  intros [A B C D F G H] Hj Hcl. destruct (D s a j eq_refl) as [[?|Hcur] _]; [done|].
  split; [by apply flush_step_ack|by rewrite (flush_step_eq l s j y rest Hj)| | |done| |].
  - by rewrite (flush_step_eq l s j y rest Hj).
  - intros t b i [= <- <- <-]. rewrite (flush_step_eq l s j y rest Hj) at 1. split; [by right|].
    apply (flush_step_is l s j y rest Hj). by eexists.
  - intros t i Hp. by destruct (B s Hcur); subst ph.
  - intros t Ht. rewrite (flush_step_eq l s j y rest Hj) in Ht. simpl in Ht. destruct (H t Ht) as [?|Hc]; [by left|]. right.
    assert (t = s) as -> by congruence. intros st x' Hx'.
    destruct (flush_step_old l s j y rest Hj st x' Hx') as (x & Hx & Eg & Ea & Hd).
    destruct Hd as [->|(-> & Eg' & _ & _)].
    2: { left. unfold sent_on. rewrite Ea. by apply (flush_step_sent l s j y rest A Hj y.1 x). }
    destruct (Hc st x Hx) as [?|[Hdirty [?|(b & i & Hi & Ht')]]].
    + left. by apply (flush_step_keeps l s j y rest Hj s x).
    + right. split; [done|by left].
    + injection Hi as <- <-. destruct (flush_step_left l s j y rest A Hj st x x Ht' Hx eq_refl) as [?|?]; [|by left].
      right. split; [done|]. right. by exists a, j.
Qed.

Lemma delivery_replay l sch fl cl s j y rest :
  delivery l sch fl cl (Replaying s j) -> flushes l !! j = Some (s, y :: rest) -> s ∉ cl ->
  delivery (flush_step l j) sch fl cl (Replaying s j).
Proof.
  intros [A B C D F G H] Hj Hcl. destruct (G s j eq_refl) as (_ & Gn & [?|Gc]); [done|].
  split; [by apply flush_step_ack|by rewrite (flush_step_eq l s j y rest Hj)| | |done| |].
  - by rewrite (flush_step_eq l s j y rest Hj).
  - intros t b i Hi. destruct (D t b i Hi) as [Dc Df]. rewrite (flush_step_eq l s j y rest Hj) at 1. split; [done|].
    by apply (flush_step_is l s j y rest Hj).
  - intros t i [= <- <-]. split_and!; [apply (flush_step_is l s j y rest Hj); by eexists|done|]. right.
    intros st x' Hx'. destruct (flush_step_old l s j y rest Hj st x' Hx') as (x & Hx & Eg & Ea & Hd).
    destruct Hd as [->|(-> & Eg' & _ & _)].
    2: { left. unfold sent_on. rewrite Ea. by apply (flush_step_sent l s j y rest A Hj y.1 x). }
    destruct (Gc st x Hx) as [?|[?|Ht]]; [left; by apply (flush_step_keeps l s j y rest Hj s x)|by right; left|].
    destruct (flush_step_left l s j y rest A Hj st x x Ht Hx eq_refl) as [?|?]; [by right; right|by left].
  - intros t Ht. rewrite (flush_step_eq l s j y rest Hj) in Ht. simpl in Ht. destruct (B t Ht); done.
Qed.

Lemma delivery_open l sch fl cl s :
  delivery l sch fl cl Connecting ->
  delivery (stream_opened l s) sch fl cl (Replaying s (length (flushes l))).
Proof.
  intros [A B C D F G H]. assert (currentStream l = None) as Hnone.
  { destruct (currentStream l) as [t|] eqn:E; [|done]. by destruct (B t eq_refl). }
  split; [by apply begin_ack| |done| |done| |].
  - intros t Ht. simpl in Ht. congruence.
  - intros t b i Hi. destruct (D t b i Hi) as [Dc Df]. split; [done|]. by apply is_flush_begin.
  - intros t i [= <- <-]. split_and!.
    + exists (flush_items l true). simpl. by rewrite lookup_app_r, Nat.sub_diag.
    + intros s' b Hf. destruct (D _ _ _ Hf) as [_ Df]. apply is_flush_bound in Df. lia.
    + right. intros st x Hx. right. right. by apply begin_to_send.
  - intros t Ht. simpl in Ht. congruence.
Qed.

(** No stream is current in the phases between streams. *)
Lemma delivery_between l sch fl cl ph ph' :
  delivery l sch fl cl ph -> currentStream l = None ->
  awaited_streams sch fl = [] -> (forall s, ph' <> Scheduled s) -> (forall s j, ph' <> Replaying s j) ->
  delivery l sch fl cl ph'.
Proof.
  intros [A B C D F G H] Hnone Haw H1 H2.
  split; [done|by rewrite Hnone|done|done| |by intros s j E; destruct (H2 s j)|by rewrite Hnone].
  rewrite Haw. destruct ph'; try done. by destruct (H1 s).
Qed.

Lemma closed_ack l s : ack_ok l -> ack_ok (stream_closed l s).
Proof. intros H. unfold stream_closed. case_bool_decide; [|done]. apply (ack_frame_ok l); [by apply ack_frame_same|done]. Qed.

(** The current stream ends. *)
Lemma delivery_end l sch fl cl ph s :
  delivery l sch fl cl ph -> (forall t, currentStream l = Some t -> t = s) ->
  delivery (stream_closed l s) sch fl (s :: cl) ph /\ currentStream (stream_closed l s) = None.
Proof.
  intros Hd Hs. unfold stream_closed. case_bool_decide as Hc.
  2: { split; [by apply delivery_close|]. destruct (currentStream l) as [t|] eqn:E; [|done]. destruct Hc.
       f_equal. by apply Hs. }
  destruct Hd as [A B C D F G H]. split; [|done].
  split; [apply (ack_frame_ok l); [by apply ack_frame_same|done]|done| | |done| |done].
  - intros t a Ha. left. destruct (C t a Ha) as [?|Ht]; [by right|]. apply elem_of_cons. left. by apply Hs.
  - intros t a j Hj. destruct (D t a j Hj) as [[?|Ht] ?]; (split; [|done]); left; [by right|]. apply elem_of_cons. left. by apply Hs.
  - intros t j Hp. destruct (G t j Hp) as (? & ? & [?|?]); split_and!; try done; [left; by right|by right].
Qed.

Lemma delivery_replayed l sch fl cl s j :
  delivery l sch fl cl (Replaying s j) -> left_of l j = [] ->
  delivery (stream_current l s) (sch ++ [(s, true)]) fl cl (Scheduled s).
Proof.
  intros [A B C D F G H] Hl. assert (currentStream l = None) as Hnone.
  { destruct (currentStream l) as [t|] eqn:E; [|done]. by destruct (B t eq_refl). }
  destruct (G s j eq_refl) as (_ & _ & Gc).
  split; [apply (ack_frame_ok l); [by apply ack_frame_same|done]| | | | |done|].
  - intros t [= <-]. by left.
  - intros t a Ha. apply elem_of_app in Ha as [Ha|Ha].
    + destruct (C t a Ha) as [?|?]; [by left|congruence].
    + apply list_elem_of_singleton in Ha as [= -> ->]. by right.
  - intros t a i Hi. destruct (D t a i Hi) as [[?|?] ?]; [|congruence]. split; [by left|done].
  - unfold awaited_streams in *. rewrite app_assoc, omap_app, F. done.
  - intros t [= <-]. destruct Gc as [?|Gc]; [by left|]. right. intros st x Hx.
    destruct (Gc st x Hx) as [?|[?|(y & Hy & _)]]; [by left| |].
    + right. split; [done|]. left. exists true. apply elem_of_app. right. by left.
    + rewrite Hl in Hy. by apply elem_of_nil in Hy.
Qed.

(** ** Every step keeps the invariant *)

Section steps.
Context (o : Identity).

Lemma delivered_loader r l' :
  delivered r -> evolves (loader r) l' -> ack_ok l' -> ackGeneration l' = ackGeneration (loader r) ->
  delivered (on_loader (fun _ => l') r).
Proof. intros H ? ? ?. by apply (delivery_quiet (loader r)). Qed.

Lemma delivered_lift r f :
  delivered r -> evolves (loader r) (f (loader r)) -> ack_ok (f (loader r)) -> delivered (lift f r).
Proof.
  intros H Hev Hok. unfold lift, schedule, delivered. simpl.
  pose proof (delivery_grows _ _ _ _ _ _ (Z.to_nat (ackGeneration (f (loader r)) - ackGeneration (loader r))) H Hev Hok ltac:(lia)) as H'.
  by destruct (currentStream (f (loader r))).
Qed.

Lemma delivered_schedule r n : delivered r -> delivered (schedule r false n).
Proof.
  intros H. unfold schedule, delivered.
  pose proof (delivery_grows _ _ _ _ _ (loader r) n H ltac:(done) (d_acks _ _ _ _ _ H) ltac:(lia)) as H'.
  by destruct (currentStream (loader r)).
Qed.

(** The loop leaves a phase in which it awaits no flush, with its stream if
    it has one. *)
Lemma delivered_leave r s e :
  delivered r -> (forall t, phase (watch r) <> Scheduled t) ->
  (forall t, currentStream (loader r) = Some t -> s = Some t) -> delivered (leave r s e).
Proof.
  intros H Hp Hs. pose proof (d_awaited _ _ _ _ _ H) as Haw.
  assert (awaited_streams (scheduled (chain r)) (flushing (chain r)) = []) as Haw'.
  { rewrite Haw. destruct (phase (watch r)); try done. by destruct (Hp s0). }
  unfold leave, delivered. destruct s as [s|]; simpl.
  - destruct (delivery_end _ _ _ _ _ s H) as [H' Hnone]; [intros t Ht; by injection (Hs t Ht)|].
    by apply (delivery_between _ _ _ _ (phase (watch r))).
  - assert (currentStream (loader r) = None) as Hnone.
    { destruct (currentStream (loader r)) as [t|] eqn:E; [by destruct (Hs t)|done]. }
    by apply (delivery_between _ _ _ _ (phase (watch r))).
Qed.

Lemma delivered_no_stream r :
  delivered r -> (forall t, phase (watch r) <> Scheduled t) -> (forall t, phase (watch r) <> Reading t) ->
  currentStream (loader r) = None.
Proof.
  intros H H1 H2. destruct (currentStream (loader r)) as [t|] eqn:E; [|done].
  destruct (d_current _ _ _ _ _ H t E) as [?|?]; [by destruct (H1 t)|by destruct (H2 t)].
Qed.

(** The phases between streams follow one another freely. *)
Lemma delivered_phase r w :
  delivered r -> phase (watch r) = Delayed \/ (exists b, phase (watch r) = Closing b) ->
  phase w = Ended \/ phase w = Connecting \/ phase w = Delayed -> delivered (with_watch r w).
Proof.
  intros H Hp Hw. apply (delivery_between _ _ _ _ (phase (watch r))); [done| | |by intros s E; simpl in E; rewrite E in Hw; naive_solver|].
  - apply (delivered_no_stream r H); intros t E; destruct Hp as [Hp|[b Hp]]; congruence.
  - simpl. rewrite (d_awaited _ _ _ _ _ H). destruct Hp as [->|[b ->]]; done.
  - intros s j E. simpl in E. rewrite E in Hw. naive_solver.
Qed.

Lemma delivered_wake r g s : delivered r -> delivered (wake r g s).
Proof. unfold wake. by destruct (map_get g _). Qed.

Lemma delivered_wait r k g : delivered r -> delivered (waitForAcknowledgement r k g).
Proof.
  intros H. unfold waitForAcknowledgement. destruct (flushed_on (loader r) g) eqn:E; [done|]. simpl. rewrite E.
  by destruct (runAborted (loader r)).
Qed.

Lemma delivered_await r k res : delivered r -> delivered (await_rejection r k res).
Proof. intros H. unfold await_rejection. destruct (cr_acknowledgementGeneration res); [by apply delivered_wait|done]. Qed.

(** [flush_sent] is the coordinator's step and a call of a waiter. *)
Lemma delivered_sent r j : delivered (on_loader (fun l => flush_step l j) r) -> delivered r -> delivered (flush_sent r j).
Proof.
  intros H H0. unfold flush_sent. destruct (flushes (loader r) !! j) as [[s [|x rest]]|]; try done.
  destruct (map_get x.1 _); [|done]. by destruct (_ =? _); [apply delivered_wake|].
Qed.

Lemma left_of_items l s j : is_flush l s j -> left_of l j <> [] -> exists y rest, flushes l !! j = Some (s, y :: rest).
Proof.
  intros [items E]. unfold left_of. rewrite E. destruct items as [|y rest]; [done|]. intros _. by exists y, rest.
Qed.

Lemma sends_open r s ok : sends r s ok = true -> s ∉ closed (chain r).
Proof. unfold sends. intros [_ H]%andb_prop. apply negb_true_iff in H. by apply bool_decide_eq_false_1 in H. Qed.

Lemma delivered_flush_send r ok e : delivered r -> delivered (flush_send r ok e).
Proof.
  intros H. unfold flush_send. destruct (flushing (chain r)) as [[[s a] j]|] eqn:Hf; [|done].
  pose proof H as H'. unfold delivered in H'. rewrite Hf in H'. case_bool_decide as Hl; [done|].
  destruct (sends r s ok) eqn:Hs.
  - apply sends_open in Hs. destruct (d_flushing _ _ _ _ _ H' s a j eq_refl) as [_ Hfl].
    destruct (left_of_items _ _ _ Hfl Hl) as (y & rest & Hj). apply delivered_sent; [|done].
    unfold delivered. simpl. rewrite Hf. by apply (delivery_send _ _ _ _ _ _ _ y rest).
  - assert (forall ph', (a = false /\ ph' = phase (watch r)) \/ (a = true /\ ph' = Reading s) ->
      delivery (loader r) (scheduled (chain r)) None (s :: closed (chain r)) ph') as Hdrop.
    { intros ph' Hph. eapply delivery_drop; [by apply delivery_close, H'|left; by left|done|done]. }
    cbv zeta. destruct a; [|apply Hdrop; by left].
    destruct (delivery_end _ _ _ _ _ s (Hdrop (Reading s) ltac:(by right))) as [Hend Hnone].
    { intros t Ht. pose proof (Hdrop (Reading s) ltac:(by right)) as Hd. destruct (d_current _ _ _ _ _ Hd t Ht); congruence. }
    apply (delivery_between _ _ _ _ (Reading s)); [done|done| |done|done].
    apply (d_awaited _ _ _ _ _ Hend).
Qed.

Lemma delivered_flush_done r : delivered r -> delivered (flush_done r).
Proof.
  intros H. unfold flush_done. destruct (flushing (chain r)) as [[[s a] j]|] eqn:Hf; [|done].
  unfold delivered in H. rewrite Hf in H. case_bool_decide as Hl; [|unfold delivered; by rewrite Hf].
  cbv zeta. destruct a; (eapply delivery_drop; [exact H|by right|done|]); [by right|by left].
Qed.

Lemma delivered_replay_send r ok e : delivered r -> delivered (replay_send r ok e).
Proof.
  intros H. unfold replay_send. destruct (phase (watch r)) as [|s j| | | | |] eqn:Hp; try done.
  case_bool_decide as Hl; [done|]. destruct (sends r s ok) eqn:Hs.
  - apply sends_open in Hs. pose proof H as H'. unfold delivered in H'. rewrite Hp in H'.
    destruct (d_replay _ _ _ _ _ H' s j eq_refl) as (Hfl & _ & _).
    destruct (left_of_items _ _ _ Hfl Hl) as (y & rest & Hj). apply delivered_sent; [|done].
    unfold delivered. simpl. rewrite Hp. by apply (delivery_replay _ _ _ _ _ _ y rest).
  - apply delivered_leave; [done|by rewrite Hp|]. intros t Ht.
    by destruct (d_current _ _ _ _ _ H t Ht) as [E|E]; rewrite Hp in E.
Qed.

Lemma delivered_reading_leave r s e : delivered r -> phase (watch r) = Reading s -> delivered (leave r (Some s) e).
Proof.
  intros H Hp. apply delivered_leave; [done|by rewrite Hp|]. intros t Ht.
  destruct (d_current _ _ _ _ _ H t Ht); congruence.
Qed.

Lemma delivered_event r s e : delivered r -> phase (watch r) = Reading s -> delivered (on_event o r s e).
Proof.
  intros H Hp. unfold on_event. destruct (runAborted _); [by apply delivered_reading_leave|].
  assert (delivered (received_event r)) as He by exact H. pose proof (d_acks _ _ _ _ _ H) as Hok.
  destruct e; [| | |done].
  - apply (delivered_loader _ _ He); [by apply ack_rejected_evolves|by apply (step_ack o _ (OAckRejected e))|].
    unfold handleAcknowledgementRejected. simpl. destruct (isReleaseState _); [|done]. destruct (_ || _); [done|].
    destruct (map_get _ _); [|done]. cbv zeta. by destruct (_ || _).
  - apply (delivered_loader _ _ He); [apply advance_seen_evolves|by apply (step_ack o _ (OHeartbeat revision))|].
    unfold advance_seen. by destruct (_ <? _).
  - destruct (x_release x); [|done]. destruct (_ && _); [|done].
    apply (delivered_loader _ _ He); [apply on_target_evolves|by apply (step_ack o _ (OTarget revision x))|].
    unfold on_target. simpl. destruct (x_release x); [|done]. destruct (_ && _); [|done]. unfold offer.
    assert (ackGeneration (advance_seen (loader r) revision) = ackGeneration (loader r)) as Ha
      by (unfold advance_seen; by destruct (_ <? _)).
    destruct (offer_ignored _ _ _); [done|]. cbv zeta. simpl. by destruct (task _).
Qed.
Lemma delivered_left r terminal random :
  delivered r -> phase (watch r) = Closing terminal -> delivered (left_stream r terminal random).
Proof.
  intros H Hp. assert (forall w, phase w = Ended \/ phase w = Connecting \/ phase w = Delayed -> delivered (with_watch r w)) as Hw.
  { intros w. apply delivered_phase; [done|]. right. by exists terminal. }
  unfold left_stream. destruct terminal; [|destruct (_ || _)].
  - apply (delivered_loader (in_phase r Ended) (finish (loader r) TerminalWatch)); [by apply Hw; left|by apply evolves_quiet| |done].
    apply (step_ack o _ OWatchFailed). apply (d_acks _ _ _ _ _ H).
  - apply Hw. by left.
  - cbv zeta. match goal with |- delivered (with_watch _ ?w) =>
      apply (delivered_loader (with_watch r w) (recordReconnect (loader r))) end;
      [by apply Hw; right; right|by apply evolves_quiet|by apply (step_ack o _ OReconnect), (d_acks _ _ _ _ _ H)|done].
Qed.

Lemma delivered_fresh r k answer : delivered r -> delivered (fresh_step o r k answer).
Proof.
  intros H. unfold fresh_step. destruct (startups (loader r) !! k) as [[q|q|]|] eqn:E; try done.
  assert (delivered (on_loader (fun l => on_fresh o l k answer) r)) as H'.
  { apply (delivered_loader r (on_fresh o (loader r) k answer)); [done|apply on_fresh_evolves| |].
    - apply (step_ack o _ (OFresh k answer)), (d_acks _ _ _ _ _ H).
    - unfold on_fresh. rewrite E. destruct (active_candidate o answer); [|done]. destruct (sameActiveCandidate _ _); [done|].
      unfold offer. destruct (offer_ignored _ _ _); [done|]. cbv zeta. simpl. by destruct (task _). }
  cbv zeta. destruct (startups (loader (on_loader _ r)) !! k) as [[]|]; try exact H'. by apply delivered_await.
Qed.

Lemma delivered_acknowledged r k : delivered r -> delivered (on_loader (fun l => on_acknowledged l k) r).
Proof.
  intros H. apply (delivered_loader r (on_acknowledged (loader r) k)); [done|apply on_acknowledged_evolves| |].
  - apply (step_ack o _ (OAcknowledged k)), (d_acks _ _ _ _ _ H).
  - unfold on_acknowledged. destruct (startups _ !! k) as [[]|]; try done. by destruct (cr_category _).
Qed.

Lemma delivered_close r s : delivered r -> delivered (close r s).
Proof. apply delivery_close. Qed.

Lemma rstep_delivered r x : delivered r -> delivered (rstep o r x).
Proof.
  intros H. pose proof (d_acks _ _ _ _ _ H) as Hok. destruct x; simpl.
  - destruct (task_op x) eqn:Hx; [|done]. apply delivered_lift; [done|by apply task_op_evolves|by apply step_ack].
  - by apply delivered_fresh.
  - unfold expire. by destruct (map_get _ _).
  - unfold waited. destruct (map_get _ _) as [[s|]|]; [|by apply delivered_acknowledged|done].
    apply (delivered_close r s H).
  - unfold stopped. case_bool_decide; [|done]. simpl. destruct (runAborted _); [done|by apply delivered_acknowledged].
  - apply (delivered_loader r (abort_run (loader r)) H); [by apply evolves_quiet|by apply (step_ack o _ OAbort)|done].
  - unfold flush_next. destruct (flushing (chain r)) eqn:Hf; [done|]. destruct (scheduled (chain r)) as [|[s a] rest] eqn:Hs; [done|].
    unfold delivered in *. rewrite Hf, Hs in H. by apply delivery_next.
  - by apply delivered_flush_send.
  - by apply delivered_flush_done.
  - unfold stream_open. destruct (phase (watch r)) eqn:Hp; try done. unfold delivered in *. rewrite Hp in H. by apply delivery_open.
  - destruct (phase (watch r)) eqn:Hp; try done. apply delivered_leave; [done|by rewrite Hp|]. intros t Ht.
    by destruct (d_current _ _ _ _ _ H t Ht) as [E|E]; rewrite Hp in E.
  - by apply delivered_replay_send.
  - unfold replay_done. destruct (phase (watch r)) as [|s j| | | | |] eqn:Hp; try done. case_bool_decide as Hl; [|done].
    unfold delivered in H. rewrite Hp in H. by apply (delivery_replayed _ _ _ _ s j).
  - destruct (phase (watch r)) eqn:Hp; try done. by apply delivered_event.
  - destruct (phase (watch r)) eqn:Hp; try done. by apply delivered_reading_leave.
  - destruct (phase (watch r)) eqn:Hp; try done. by apply delivered_left.
  - destruct (phase (watch r)) eqn:Hp; try done. unfold loop_head.
    destruct (_ || _); (apply delivered_phase; [done|by left|]); [by left|by right; left].
  - destruct (idle r); [by apply delivered_schedule|done].
  - destruct (currentStream (loader r)) as [s|] eqn:Hc; [|done]. destruct (idle r); [|done].
    destruct (delivery_end _ _ _ _ _ s H) as [H' _]; [intros t Ht; congruence|exact H'].
Qed.

Lemma begin_delivered id st rec rev : delivered (tasks_begin id st rec rev).
Proof.
  split; simpl; try done; [apply (run_ack o id st rec rev [])|].
  intros s a Hin. by apply elem_of_nil in Hin.
Qed.

Lemma rrun_delivered id st rec rev xs : delivered (rrun o (tasks_begin id st rec rev) xs).
Proof.
  unfold rrun. induction xs as [|x xs IH] using rev_ind; [apply begin_delivered|]. rewrite foldl_snoc. by apply rstep_delivered.
Qed.
End steps.

(** C24: every acknowledgement reaches the stream. Whatever the order of
    candidates, flushes, failed sends, reconnects, replays and server
    rejections: when the flush chain has come to rest and the current stream
    has not been closed, every acknowledgement the loader retains has been
    sent on that very stream, those produced while there was no stream or
    during the replay included. *)
Theorem acknowledgements_delivered o id st reconnects rev xs s state x :
  let r := rrun o (tasks_begin id st reconnects rev) xs in
  currentStream (loader r) = Some s -> scheduled (chain r) = [] -> flushing (chain r) = None -> s ∉ closed (chain r) ->
  map_get state (pendingAcknowledgements (loader r)) = Some x -> Send s (pa_acknowledgement x) ∈ trace (loader r).
Proof.
  intros r Hs Hch Hf Hcl Hx. pose proof (rrun_delivered o id st reconnects rev xs) as H. fold r in H.
  destruct (d_covered _ _ _ _ _ H s Hs) as [?|Hc]; [done|].
  destruct (Hc state x Hx) as [?|[_ [[a Ha]|(a & j & Hj & _)]]]; [done| |congruence].
  rewrite Hch in Ha. by apply elem_of_nil in Ha.
Qed.

(** ** Witnesses *)

(** A stream opens, a candidate is rejected and its acknowledgement awaited;
    then it is flushed and the run ends. *)
Definition demo_tasks : Run := tasks_begin (js "s") initial_stats 0 0.
Definition opening : list rop := [ROpened; RReplayed; RFlush; RFlushed].
Definition rejecting : list rop :=
  [REvent (Target 8 (demo_target 4 8)); RTask (OResolved (Throw (Resolution digest_mismatch))); RTask OSettled;
   RFresh 0 (Some (demo_target 4 8))].
Definition sending : list rop := [RFlush; RSend true (ConfigError []); RFlushed].

Lemma acknowledgements_delivered_witness :
  let r := rrun demo_identity demo_tasks (opening ++ rejecting ++ sending) in
  exists x, map_get rejected_state (pendingAcknowledgements (loader r)) = Some x /\
            Send 0%nat (pa_acknowledgement x) ∈ trace (loader r).
Proof.
  intros r. assert (exists x, map_get rejected_state (pendingAcknowledgements (loader r)) = Some x) as [x Hx]
    by (eexists; vm_compute; reflexivity).
  exists x. split; [exact Hx|].
  apply (acknowledgements_delivered demo_identity (js "s") initial_stats 0 0 (opening ++ rejecting ++ sending) 0 rejected_state x);
    [vm_compute; reflexivity..| |exact Hx].
  vm_compute. by intros H%elem_of_nil.
Defined.
