(* ===== verification/LoaderWaits.v ===== *)
(** * LoaderWaits: startup rejections of the loader and the waits for their
    acknowledgements.

    A rejection before the first commit ends the run only after its
    acknowledgement was sent, or the wait for it took too long; and the wait,
    a timer and a waiter called by the flush, misses no flush. *)
From stdpp Require Import prelude list strings.
From Stdlib Require Import ZArith Lia.
From S2P Require Import Prelude JsString JsMap Errors Refs DefaultsArtifact Release Resolve Loader LoaderProofs LoaderRun LoaderRunProofs.

(** ** Rejections and their acknowledgements *)

(** Acknowledgements that were made keep their generation and content. *)
Record kept (l l' : Loader) : Prop := {
  kp_gen : ackGeneration l <= ackGeneration l';
  kp_acks : forall s x', map_get s (pendingAcknowledgements l') = Some x' -> pa_generation x' <= ackGeneration l ->
    exists x, map_get s (pendingAcknowledgements l) = Some x /\ pa_generation x' = pa_generation x /\
              pa_acknowledgement x' = pa_acknowledgement x
}.

Lemma evolves_kept l l' : evolves l l' -> kept l l'.
Proof.
  intros [_ _ E _ Ea]. split; [done|]. intros s x' Hx Hg. destruct (Ea s x' Hx) as [?|[? _]]; [by exists x'|lia].
Qed.

Lemma step_kept o l x : ack_ok l -> kept l (step o l x).
Proof.
  intros Hok. assert (forall l', evolves l l' -> kept l l') as He by apply evolves_kept.
  assert (forall l', ackGeneration l' = ackGeneration l -> pendingAcknowledgements l' = pendingAcknowledgements l -> kept l l') as Hsame.
  { intros l' E1 E2. split; [lia|]. intros s x'. rewrite E2. intros Hx _. by exists x'. }
  destruct (task_op x) eqn:Hx; [by apply He, task_op_evolves|]. destruct x; try done; simpl.
  - apply He, on_fresh_evolves.
  - apply He, on_acknowledged_evolves.
  - by apply He, evolves_quiet.
  - apply He, on_target_evolves.
  - apply He, advance_seen_evolves.
  - by apply He, ack_rejected_evolves.
  - by apply Hsame.
  - by apply Hsame.
  - unfold stream_closed. case_bool_decide; by apply Hsame.
  - by apply Hsame.
  - by apply Hsame.
  - by apply Hsame.
  - destruct (flushes l !! k) as [[s [|y rest]]|] eqn:Hk; [by unfold flush_step; rewrite Hk; apply Hsame| |by unfold flush_step; rewrite Hk; apply Hsame].
    split; [by rewrite (flush_step_eq l s k y rest Hk)|]. intros st x' Hx' _.
    destruct (flush_step_old l s k y rest Hk st x' Hx') as (z & Hz & Eg & Ea & _). by exists z.
Qed.

(** A rejection that is not fatal has a generation, and what is retained under
    it is that rejection's acknowledgement. *)
Definition result_ok (l : Loader) (r : CandidateResult) : Prop :=
  forall cat, cr_fatal r = None -> cr_category r = Some cat ->
  exists g, cr_acknowledgementGeneration r = Some g /\ g <= ackGeneration l /\
    forall s x, map_get s (pendingAcknowledgements l) = Some x -> pa_generation x = g ->
      a_state (pa_acknowledgement x) = rejected_state /\ a_rejectionCategory (pa_acknowledgement x) = Some cat.

Lemma result_kept l l' r : kept l l' -> result_ok l r -> result_ok l' r.
Proof.
  intros [Hg Ha] H cat Hf Hc. destruct (H cat Hf Hc) as (g & Eg & Hle & Hx). exists g. split_and!; [done|lia|].
  intros s x' Hx' Egx. destruct (Ha s x' Hx' ltac:(lia)) as (x & Hx0 & E1 & E2). rewrite E2. apply (Hx s x Hx0). congruence.
Qed.

Definition settled_result (l : Loader) : option CandidateResult :=
  match task l with Some {| t_phase := Settled r |} => Some r | _ => None end.
Definition held (l : Loader) (k : nat) (r : CandidateResult) : Prop :=
  startups l !! k = Some (AwaitsFresh r) \/ startups l !! k = Some (AwaitsAcknowledgement r).

(** The result of the last task and those of the startup rejections; no two
    share a generation. *)
Record results_ok (l : Loader) : Prop := {
  rs_settled : forall r, settled_result l = Some r -> result_ok l r /\
    forall g, cr_acknowledgementGeneration r = Some g -> g <= ackGeneration l /\
      forall k r', held l k r' -> cr_acknowledgementGeneration r' <> Some g;
  rs_held : forall k r, held l k r -> result_ok l r /\ cr_fatal r = None /\ cr_category r <> None;
  rs_inj : forall k k' r r' g, held l k r -> held l k' r' ->
    cr_acknowledgementGeneration r = Some g -> cr_acknowledgementGeneration r' = Some g -> k = k'
}.

Lemma held_generation l k r : results_ok l -> held l k r -> exists g, cr_acknowledgementGeneration r = Some g /\ g <= ackGeneration l.
Proof.
  intros H Hk. destruct (rs_held l H k r Hk) as (Hr & Hf & Hc). destruct (cr_category r) as [cat|] eqn:E; [|done].
  destruct (Hr cat Hf E) as (g & Eg & Hle & _). by exists g.
Qed.

(** The results only shrink, but for a new one of the task. *)
Lemma results_shrink l l' :
  results_ok l -> kept l l' -> (forall k r, held l' k r -> held l k r) ->
  (forall r, settled_result l' = Some r -> settled_result l = Some r \/
     (result_ok l' r /\ forall g, cr_acknowledgementGeneration r = Some g -> ackGeneration l < g <= ackGeneration l')) ->
  results_ok l'.
Proof.
  intros H Hkp Hh Hs. pose proof H as [H1 H2 H3]. split.
  - intros r Hr. destruct (Hs r Hr) as [Hold|[Hok Hg]].
    + destruct (H1 r Hold) as [Hok Hd]. split; [by apply (result_kept l)|]. intros g Eg. destruct (Hd g Eg) as [Hle Hne].
      split; [pose proof (kp_gen _ _ Hkp); lia|]. intros k r' Hk. by apply (Hne k), Hh.
    + split; [done|]. intros g Eg. specialize (Hg g Eg). split; [lia|]. intros k r' Hk Eg'.
      destruct (held_generation l k r' H (Hh k r' Hk)) as (g' & E' & Hle). rewrite E' in Eg'. injection Eg' as ->. lia.
  - intros k r Hk. destruct (H2 k r (Hh k r Hk)) as (? & ? & ?). split_and!; [by apply (result_kept l)|done|done].
  - intros k k' r r' g Hk Hk'. apply H3; by apply Hh.
Qed.

(** The acknowledgement just made is the only one of its generation. *)
Lemma ack_made l c s cat d st x :
  ack_ok l -> map_get st (pendingAcknowledgements (ack l c s cat d).1) = Some x -> pa_generation x = ackGeneration l + 1 ->
  a_state (pa_acknowledgement x) = s /\ a_rejectionCategory (pa_acknowledgement x) = cat.
Proof.
  intros Hok. unfold ack. cbv zeta. simpl. set (new := {| pa_acknowledgement := _ |}).
  assert (map_get st (pendingAcknowledgements l) = Some x -> pa_generation x <= ackGeneration l) as Hold
    by (intros Hx; by apply (ao_item _ Hok st x)).
  destruct (match map_get s (pendingAcknowledgements l) with Some _ => _ | None => _ end); [|intros Hx; specialize (Hold Hx); lia].
  rewrite map_get_set. case_decide; [intros [= <-] _; done|]. intros Hx. specialize (Hold Hx). lia.
Qed.

Lemma reject_settle_result l t cat fatal r :
  ack_ok l -> settled_result (reject_and_settle l t cat fatal) = Some r ->
  result_ok (reject_and_settle l t cat fatal) r /\
  forall g, cr_acknowledgementGeneration r = Some g -> ackGeneration l < g <= ackGeneration (reject_and_settle l t cat fatal).
Proof.
  intros Hok. unfold reject_and_settle, reject.
  pose proof (ack_made l (t_candidate t) rejected_state (Some cat) NO_DIVERGENCE) as Hm.
  assert ((ack l (t_candidate t) rejected_state (Some cat) NO_DIVERGENCE).2 = ackGeneration l + 1 /\
          ackGeneration (ack l (t_candidate t) rejected_state (Some cat) NO_DIVERGENCE).1 = ackGeneration l + 1) as [E1 E2] by done.
  destruct (ack l (t_candidate t) rejected_state (Some cat) NO_DIVERGENCE) as [l1 gen]. simpl in *. subst gen.
  unfold settled_result. simpl. intros [= <-]. split.
  - intros cat' Hf [= <-]. eexists. split; [done|]. simpl. split; [lia|]. intros s x Hx Hg. by apply (Hm s x).
  - intros g [= <-]. simpl. lia.
Qed.

Lemma abort_reject_result l t p cat r :
  ack_ok l -> settled_result (abort_and_reject l t p cat) = Some r ->
  result_ok (abort_and_reject l t p cat) r /\
  forall g, cr_acknowledgementGeneration r = Some g -> ackGeneration l < g <= ackGeneration (abort_and_reject l t p cat).
Proof.
  intros Hok. unfold abort_and_reject. pose proof (emit_ack l (CallAbort (t_candidate t)) Hok) as Hok'.
  destruct (abort_error _); by apply (reject_settle_result (emit l (CallAbort (t_candidate t)))).
Qed.

Lemma held_same l l' : startups l' = startups l -> forall k r, held l' k r -> held l k r.
Proof. intros E k r. unfold held. by rewrite E. Qed.

Lemma settled_abort l l' :
  (t_phase <$> task l') = (t_phase <$> task l) -> settled_result l' = settled_result l.
Proof. unfold settled_result. intros E. destruct (task l) as [[? ? []]|], (task l') as [[? ? []]|]; simpl in *; congruence. Qed.

Lemma results_frame l l' :
  results_ok l -> kept l l' -> startups l' = startups l -> settled_result l' = settled_result l -> results_ok l'.
Proof.
  intros H Hk Es Et. apply (results_shrink l); [done|done|by apply held_same|]. intros r. rewrite Et. by left.
Qed.

Lemma reject_settle_startups l t cat fatal : startups (reject_and_settle l t cat fatal) = startups l.
Proof. done. Qed.
Lemma abort_reject_startups l t p cat : startups (abort_and_reject l t p cat) = startups l.
Proof. unfold abort_and_reject. by destruct (abort_error _). Qed.

Lemma offer_startups o l c : startups (offer o l c) = startups l.
Proof. unfold offer. destruct (offer_ignored _ _ _); [done|]. cbv zeta. simpl. by destruct (task l). Qed.
Lemma offer_settled o l c : settled_result (offer o l c) = settled_result l.
Proof.
  unfold offer. destruct (offer_ignored _ _ _); [done|]. cbv zeta. simpl. unfold settled_result. destruct (task l) as [[? ? []]|]; done.
Qed.
Lemma start_pending_startups l : startups (start_pending l) = startups l.
Proof. unfold start_pending. destruct (pending l); [|done]. by destruct (runAborted l). Qed.
Lemma start_pending_settled l : task l = None -> settled_result (start_pending l) = None.
Proof.
  intros H. unfold start_pending, settled_result. destruct (pending l); [|by rewrite H]. destruct (runAborted l); [by rewrite H|done].
Qed.

#[local] Hint Rewrite loader_schedule loader_await loader_wake loader_flush_sent loader_leave loader_head : run.
#[local] Hint Rewrite reject_settle_startups abort_reject_startups offer_startups offer_settled start_pending_startups : run.

(** The operations of the task in progress. *)
Lemma on_resolved_results l out : ack_ok l -> results_ok l -> results_ok (on_resolved l out).
Proof.
  intros Hok H. pose proof (evolves_kept _ _ (on_resolved_evolves l out)) as Hk. unfold on_resolved in *.
  destruct (task l) as [[c ab ph]|] eqn:Ht; [|done]. destruct ph; try done.
  destruct out; [|apply (results_shrink l); [done|done|by apply held_same|by right; apply reject_settle_result]].
  simpl t_candidate in *. destruct (ack l c received None NO_DIVERGENCE) as [l1 g] eqn:E.
  assert (startups l1 = startups l) as Es by (unfold ack in E; by injection E as <- _).
  apply (results_shrink l); [done|done|by apply held_same|done].
Qed.

Lemma on_prepared_results l out : ack_ok l -> results_ok l -> results_ok (on_prepared l out).
Proof.
  intros Hok H. pose proof (evolves_kept _ _ (on_prepared_evolves l out)) as Hk. unfold on_prepared in *.
  destruct (task l) as [[c ab ph]|] eqn:Ht; [|done]. destruct ph; try done.
  destruct out as [p|]; [|apply (results_shrink l); [done|done|by apply held_same|by right; apply reject_settle_result]].
  cbv zeta in *. simpl t_candidate in *. simpl t_aborted in *. destruct ab.
  - apply (results_shrink l); [done|done|apply held_same; by autorewrite with run|]. intros r Hr. right.
    apply (abort_reject_result (emit l (GotPrepared c))); [by apply emit_ack|done].
  - destruct (ack (emit l (GotPrepared c)) c prepared_state None NO_DIVERGENCE) as [l1 g] eqn:E.
    assert (startups l1 = startups l) as Es by (unfold ack in E; by injection E as <- _).
    apply (results_shrink l); [done|done|by apply held_same|done].
Qed.

Lemma on_active_results o l answer : ack_ok l -> results_ok l -> results_ok (on_active o l answer).
Proof.
  intros Hok H. pose proof (evolves_kept _ _ (on_active_evolves o l answer)) as Hk. unfold on_active in *.
  destruct (task l) as [[c ab ph]|] eqn:Ht; [|done]. destruct ph; try done. cbv zeta in *. simpl t_candidate in *.
  assert (forall t p cat, kept l (abort_and_reject l t p cat) -> results_ok (abort_and_reject l t p cat)) as Hab.
  { intros t q cat Hk'. apply (results_shrink l); [done|done|apply held_same; by autorewrite with run|by right; apply abort_reject_result]. }
  destruct (active_candidate o answer); [|by apply Hab]. destruct (_ || _); [by apply Hab|].
  destruct (commit_error _).
  - apply (results_shrink l); [done|done|by apply held_same|]. intros r [= <-]. right. split; [by intros cat [=]|done].
  - destruct (ack (emit l (CallCommit c)) c applied_state None _) as [l1 g] eqn:E.
    assert (startups l1 = startups l) as Es by (unfold ack in E; by injection E as <- _).
    apply (results_shrink l); [done|done|by apply held_same|]. intros r [= <-]. right. split; [by intros cat _ [=]|done].
Qed.

(** The task's result is dropped, or becomes a startup rejection. *)
Lemma on_settled_results l : results_ok l -> results_ok (on_settled l).
Proof.
  intros H. pose proof (evolves_kept _ _ (on_settled_evolves l)) as Hk. unfold on_settled in *.
  destruct (task l) as [[c ab ph]|] eqn:Ht; [|done]. destruct ph as [| | |r]; try done. cbv zeta in *.
  assert (forall l', kept l (start_pending l') -> startups l' = startups l -> task l' = None -> results_ok (start_pending l')) as Hs.
  { intros l' Hk' Es Et. apply (results_shrink l); [done|done|apply held_same; by autorewrite with run|].
    intros q. by rewrite start_pending_settled. }
  destruct (cr_fatal r) eqn:Hf; [apply (results_shrink l); [done|done|by apply held_same|done]|].
  destruct (negb (bool_decide _)); [by apply Hs|]. destruct (cr_category r) as [cat|] eqn:Hc; [|by apply Hs].
  case_bool_decide; [by apply Hs|]. destruct (negb _); [|by apply Hs].
  assert (settled_result l = Some r) as Hr by (unfold settled_result; by rewrite Ht).
  destruct (rs_settled l H r Hr) as [Hok Hne].
  assert (forall k q, held l k q -> k <> length (startups l)) as Hlt.
  { intros k q [Hq|Hq]; apply lookup_lt_Some in Hq; lia. }
  match goal with |- results_ok ?m => set (l' := m) in * end.
  assert (forall k q, held l' k q -> held l k q \/ (k = length (startups l) /\ q = r)) as Hheld.
  { intros k q [Hq|Hq]; apply lookup_snoc_Some in Hq as [[_ Hq]|[-> [=]]]; [left; by left|by right|left; by right]. }
  split; [done| |].
  - intros k q Hq. destruct (Hheld k q Hq) as [Hq'|[-> ->]].
    + destruct (rs_held l H k q Hq') as (? & ? & ?). split_and!; [by apply (result_kept l)|done|done].
    + split_and!; [by apply (result_kept l)|done|by rewrite Hc].
  - intros k k' q q' g Hq Hq' Eg Eg'. destruct (Hheld k q Hq) as [Hk1|[-> ->]], (Hheld k' q' Hq') as [Hk2|[-> ->]].
    + by apply (rs_inj l H k k' q q' g).
    + destruct (Hne g Eg') as [_ Hn]. by destruct (Hn k q Hk1).
    + destruct (Hne g Eg) as [_ Hn]. by destruct (Hn k' q' Hk2).
    + done.
Qed.

Lemma held_startup l k s j r :
  (forall q, s = AwaitsFresh q \/ s = AwaitsAcknowledgement q -> held l k q) ->
  held (set_startup l k s) j r -> held l j r.
Proof.
  intros Hs. unfold held. simpl. destruct (decide (k = j)) as [<-|Hne]; [|by rewrite list_lookup_insert_ne by done].
  destruct (startups l !! k) as [x|] eqn:E.
  - rewrite list_lookup_insert_eq by by eapply lookup_lt_Some. intros [[= ->]|[= ->]].
    + specialize (Hs r ltac:(by left)). unfold held in Hs. by rewrite E in Hs.
    + specialize (Hs r ltac:(by right)). unfold held in Hs. by rewrite E in Hs.
  - rewrite list_insert_ge by by apply lookup_ge_None. by rewrite E.
Qed.

Lemma on_fresh_results o l k answer : results_ok l -> results_ok (on_fresh o l k answer).
Proof.
  intros H. pose proof (evolves_kept _ _ (on_fresh_evolves o l k answer)) as Hk. unfold on_fresh in *.
  destruct (startups l !! k) as [[q|q|]|] eqn:E; try done.
  assert (forall j r, held (set_startup l k (AwaitsAcknowledgement q)) j r -> held l j r) as Ha.
  { intros j r. apply held_startup. intros q' [[=]|[= ->]]. by left. }
  destruct (active_candidate o answer) as [c|]; [|by apply (results_shrink l); [| | |left]].
  destruct (sameActiveCandidate _ _); [by apply (results_shrink l); [| | |left]|].
  apply (results_shrink l); [done|done| |].
  - intros j r. unfold held at 1. autorewrite with run. apply (held_startup l k StartupDone j r). intros q' [[=]|[=]].
  - intros r. autorewrite with run. by left.
Qed.

Lemma on_acknowledged_results l k : results_ok l -> results_ok (on_acknowledged l k).
Proof.
  intros H. pose proof (evolves_kept _ _ (on_acknowledged_evolves l k)) as Hk. unfold on_acknowledged in *.
  destruct (startups l !! k) as [[q|q|]|] eqn:E; try done. destruct (cr_category q); [|done].
  apply (results_shrink l); [done|done| |by intros ? ?; left]. intros j q0. apply (held_startup l k StartupDone j q0). intros q' [[=]|[=]].
Qed.

Lemma step_results o l x : ack_ok l -> results_ok l -> results_ok (step o l x).
Proof.
  intros Hok H. pose proof (step_kept o l x Hok) as Hk. destruct x; simpl in *.
  - destruct (active_candidate o answer); [|done]. apply (results_frame l); [done|done|by autorewrite with run..].
  - by apply on_resolved_results.
  - by apply on_prepared_results.
  - by apply on_active_results.
  - by apply on_settled_results.
  - by apply on_fresh_results.
  - by apply on_acknowledged_results.
  - apply (results_frame l); [done|done|done|]. apply settled_abort. simpl. by destruct (task l).
  - apply (results_frame l); [done|done| |]; unfold on_target, advance_seen; destruct (x_release x); try done;
      destruct (_ && _); try done; destruct (_ <? _); by autorewrite with run.
  - apply (results_frame l); [done|done| |]; unfold advance_seen; by destruct (_ <? _).
  - apply (results_frame l); [done|done| |]; unfold handleAcknowledgementRejected; destruct (isReleaseState _); try done;
      destruct (_ || _); try done; destruct (map_get _ _); try done; cbv zeta; by destruct (_ || _).
  - by apply (results_frame l).
  - by apply (results_frame l).
  - unfold stream_closed in *. by case_bool_decide; [apply (results_frame l)|].
  - by apply (results_frame l).
  - by apply (results_frame l).
  - by apply (results_frame l).
  - apply (results_frame l); [done|done| |]; unfold flush_step; by destruct (flushes l !! k) as [[s [|y rest]]|].
Qed.

(** ** Where a startup rejection is *)

Lemma flushed_on_None l g :
  flushed_on l g = None <-> forall st x, (st, x) ∈ pendingAcknowledgements l -> pa_generation x = g -> pa_dirty x = true.
Proof.
  unfold flushed_on. split.
  - intros H st x Hin Hg. destruct (pa_dirty x) eqn:Hd; [done|].
    assert (pa_flushedOn x ∈ omap (fun y => if (pa_generation y.2 =? g) && negb (pa_dirty y.2) then Some (pa_flushedOn y.2) else None)
              (pendingAcknowledgements l)) as Hf.
    { apply list_elem_of_omap. exists (st, x). split; [done|]. simpl. by rewrite Hd, (proj2 (Z.eqb_eq _ _) Hg). }
    destruct (omap _ _); [by apply elem_of_nil in Hf|done].
  - intros H. destruct (omap _ _) as [|f fs] eqn:E; [done|]. exfalso.
    assert (f ∈ f :: fs) as Hf by by left. rewrite <- E in Hf. apply list_elem_of_omap in Hf as ([st x] & Hin & Hx).
    simpl in Hx. destruct (Z.eqb_spec (pa_generation x) g) as [Hg|]; [|done]. rewrite (H st x Hin Hg) in Hx. done.
Qed.

Lemma flushed_on_Some l g s :
  flushed_on l g = Some s ->
  exists st x, (st, x) ∈ pendingAcknowledgements l /\ pa_generation x = g /\ pa_dirty x = false /\ pa_flushedOn x = s.
Proof.
  unfold flushed_on. destruct (omap _ _) as [|f fs] eqn:E; [done|]. intros [= ->].
  assert (s ∈ s :: fs) as Hf by by left. rewrite <- E in Hf. apply list_elem_of_omap in Hf as ([st x] & Hin & Hx).
  simpl in Hx. destruct (Z.eqb_spec (pa_generation x) g) as [Hg|]; [|done]. destruct (pa_dirty x) eqn:Hd; [done|].
  injection Hx as <-. by exists st, x.
Qed.

Lemma flushed_on_evolves l l' g : ack_ok l -> ack_ok l' -> evolves l l' -> flushed_on l g = None -> flushed_on l' g = None.
Proof.
  intros Hok Hok' Hev H. apply flushed_on_None. intros st x Hin Hg. apply (map_get_Some _ _ _ (ao_wf _ Hok')) in Hin.
  destruct (ev_acks _ _ Hev st x Hin) as [Hold|[_ ?]]; [|done].
  apply (map_get_Some _ _ _ (ao_wf _ Hok)) in Hold. by apply (proj1 (flushed_on_None l g) H st x).
Qed.

Definition awaiting (l : Loader) (k : nat) (res : CandidateResult) : Prop :=
  startups l !! k = Some (AwaitsAcknowledgement res).

(** A rejection of this category was sent on [s]. *)
Definition on_record (l : Loader) (cat : ReleaseRejectionCategory) (s : stream) : Prop :=
  exists a, Send s a ∈ trace l /\ a_state a = rejected_state /\ a_rejectionCategory a = Some cat.

(** The startup rejections that wait, that have been answered, and whose
    stream is closing. *)
Definition places (w : Waits) : list nat := (acknowledgementWaiters w).*2 ++ (LoaderRun.resolved w).*1 ++ closing w.

(** [out] are startup rejections between two places. *)
Record waiting (out : list nat) (l : Loader) (w : Waits) (cl : list stream) : Prop := {
  w_acks : ack_ok l;
  w_results : results_ok l;
  w_wf : map_wf (acknowledgementWaiters w);
  w_waiter : forall g k, map_get g (acknowledgementWaiters w) = Some k ->
    (exists res, awaiting l k res /\ cr_acknowledgementGeneration res = Some g) /\ flushed_on l g = None /\ runAborted l = false;
  w_resolved : forall k s, (k, s) ∈ LoaderRun.resolved w -> exists res, awaiting l k res /\
    match s with Some s => exists cat, cr_category res = Some cat /\ on_record l cat s | None => k ∈ expired w end;
  w_closing : forall k, k ∈ closing w -> exists res cat s,
    awaiting l k res /\ cr_category res = Some cat /\ on_record l cat s /\ s ∈ cl;
  w_finished : forall c, finished l = Some (RejectedStartup c) -> (exists s, on_record l c s /\ s ∈ cl) \/ expired w <> [];
  w_once : NoDup (out ++ places w);
  w_complete : forall k res, awaiting l k res -> runAborted l = true \/ k ∈ out ++ places w
}.
Definition waits_ok (r : Run) : Prop := waiting [] (loader r) (waits r) (closed (chain r)).

(** ** Steps that do not concern the waits *)

Record calm (l l' : Loader) : Prop := {
  cm_trace : exists es, trace l' = trace l ++ es;
  cm_await : forall k res, awaiting l' k res <-> awaiting l k res;
  cm_aborted : runAborted l' = runAborted l;
  cm_finished : forall c, finished l' = Some (RejectedStartup c) -> finished l = Some (RejectedStartup c)
}.

Lemma on_record_trace l l' cat s : (exists es, trace l' = trace l ++ es) -> on_record l cat s -> on_record l' cat s.
Proof. intros [es E] (a & Ha & ? & ?). exists a. split_and!; [rewrite E; apply elem_of_app; by left|done|done]. Qed.

Lemma waiting_calm out l l' w cl : waiting out l w cl -> calm l l' ->
  (forall g k, map_get g (acknowledgementWaiters w) = Some k -> flushed_on l g = None -> flushed_on l' g = None) ->
  ack_ok l' -> results_ok l' -> waiting out l' w cl.
Proof.
  intros [A B C D E F G H I] [T1 T3 T4 T5] T2 Hok Hres. split; [done|done|done| | | | |done|].
  - intros g k Hg. destruct (D g k Hg) as ((res & Ha & Er) & Hf & Hr). split_and!; [|by apply (T2 g k)|congruence].
    exists res. by rewrite T3.
  - intros k s Hin. destruct (E k s Hin) as (res & Ha & Hs). exists res. rewrite T3. split; [done|]. destruct s; [|done].
    destruct Hs as (cat & Hc & Hr). exists cat. split; [done|]. by apply (on_record_trace l).
  - intros k Hin. destruct (F k Hin) as (res & cat & s & Ha & Hc & Hr & Hs). exists res, cat, s. rewrite T3.
    split_and!; try done. by apply (on_record_trace l).
  - intros c Hc. destruct (G c (T5 c Hc)) as [(s & Hr & Hs)|?]; [|by right]. left. exists s. split; [|done]. by apply (on_record_trace l).
  - intros k res. rewrite T3, T4. apply I.
Qed.

(** The coordinator's operations other than those of the waits, of a flush,
    and of the abort. *)
Definition calm_op (x : op) : bool :=
  match x with OFresh _ _ | OAcknowledged _ | OAbort | OFlushStep _ => false | _ => true end.

Lemma calm_fields l l' :
  (exists es, trace l' = trace l ++ es) -> startups l' = startups l -> runAborted l' = runAborted l ->
  finished l' = finished l -> calm l l'.
Proof. intros Ht Es Er Ef. split; [done| |done|by rewrite Ef]. intros k res. unfold awaiting. by rewrite Es. Qed.

Lemma calm_same l l' :
  trace l' = trace l -> startups l' = startups l -> runAborted l' = runAborted l -> finished l' = finished l -> calm l l'.
Proof. intros Et ? ? ?. apply calm_fields; [exists []; by rewrite app_nil_r|done..]. Qed.

#[global] Instance calm_preorder : PreOrder calm.
Proof.
  split; [intros l; by apply calm_same|]. intros l1 l2 l3 [[es T1] T3 T4 T5] [[fs U1] U3 U4 U5].
  split; [exists (es ++ fs); by rewrite U1, T1, app_assoc| |congruence|intros c ?; by apply T5, U5].
  intros k res. by rewrite U3.
Qed.

Lemma on_settled_calm l : calm l (on_settled l).
Proof.
  unfold on_settled. destruct (task l) as [[c ab ph]|]; [|done]. destruct ph as [| | |r]; try done. cbv zeta.
  assert (forall l', calm l l' -> calm l (start_pending l')) as Hs.
  { intros l' H. etransitivity; [exact H|]. unfold start_pending. destruct (pending l'); [|done].
    destruct (runAborted l'); [done|by apply calm_same]. }
  destruct (cr_fatal r) as [m|].
  { split; [by exists []; rewrite app_nil_r|done|done|]. intros cat. simpl. by destruct (finished l). }
  destruct (negb (bool_decide _)); [by apply Hs, calm_same|].
  destruct (cr_category r); [|by apply Hs, calm_same]. case_bool_decide; [by apply Hs, calm_same|].
  destruct (negb _); [|by apply Hs, calm_same].
  split; [by exists []; rewrite app_nil_r| |done|done]. intros k res. unfold awaiting. simpl. split.
  - intros [[_ ?]|[_ [=]]]%lookup_snoc_Some. done.
  - intros Hk. rewrite lookup_app_l; [done|]. by eapply lookup_lt_Some.
Qed.

Lemma offer_calm o l c : calm l (offer o l c).
Proof.
  unfold offer. destruct (offer_ignored o l c); [done|]. cbv zeta. destruct (task l); by apply calm_same.
Qed.

Lemma step_calm o l x : ack_ok l -> calm_op x = true -> calm l (step o l x).
Proof.
  intros Hok Hx. pose proof (step_ack o l x Hok) as Hok'. destruct x; try done; simpl in *.
  - destruct (active_candidate o answer); [apply offer_calm|done].
  - apply calm_fields; [apply (ev_trace _ _ (on_resolved_evolves l outcome))|..]; unfold on_resolved;
      destruct (task l) as [[c ab ph]|]; try done; destruct ph; try done; destruct outcome; try done; simpl t_candidate;
      destruct (ack l c received None NO_DIVERGENCE) as [l1 g] eqn:E; unfold ack in E; by injection E as <- _.
  - apply calm_fields; [apply (ev_trace _ _ (on_prepared_evolves l outcome))|..]; unfold on_prepared;
      destruct (task l) as [[c ab ph]|]; try done; destruct ph; try done; destruct outcome; try done; simpl t_aborted; destruct ab; try done;
      unfold abort_and_reject; by destruct (abort_error _).
  - apply calm_fields; [apply (ev_trace _ _ (on_active_evolves o l answer))|..]; unfold on_active;
      destruct (task l) as [[c ab ph]|]; try done; destruct ph; try done; cbv zeta;
      (destruct (active_candidate o answer); [destruct (_ || _)|]); try (unfold abort_and_reject; by destruct (abort_error _));
      by destruct (commit_error _).
  - apply on_settled_calm.
  - unfold on_target, advance_seen. destruct (x_release x); [|done]. destruct (_ && _); [|done].
    destruct (_ <? _); [|apply offer_calm]. etransitivity; [|apply offer_calm]. by apply calm_same.
  - unfold advance_seen. destruct (_ <? _); [by apply calm_same|done].
  - apply calm_fields; [by apply (ev_trace _ _ (ack_rejected_evolves o l e Hok))|..];
      unfold handleAcknowledgementRejected; destruct (isReleaseState _); try done; destruct (_ || _); try done;
      destruct (map_get _ _); try done; cbv zeta; by destruct (_ || _).
  - by apply calm_same.
  - by apply calm_same.
  - unfold stream_closed. case_bool_decide; [by apply calm_same|done].
  - split; [by exists []; rewrite app_nil_r|done|done|]. intros c. simpl. by destruct (finished l).
  - by apply calm_same.
  - by apply calm_same.
Qed.

Lemma step_unflushed o l x g : ack_ok l -> calm_op x = true -> flushed_on l g = None -> flushed_on (step o l x) g = None.
Proof.
  intros Hok Hx H. pose proof (step_ack o l x Hok) as Hok'.
  destruct (task_op x) eqn:Ht; [apply (flushed_on_evolves l); by try apply task_op_evolves|].
  destruct x; try done; simpl in *.
  - apply (flushed_on_evolves l); by try apply on_target_evolves.
  - apply (flushed_on_evolves l); by try apply advance_seen_evolves.
  - apply (flushed_on_evolves l); by try apply ack_rejected_evolves.
  - unfold stream_closed. by case_bool_decide.
Qed.

Lemma waits_step o r x :
  waits_ok r -> calm_op x = true -> waiting [] (step o (loader r) x) (waits r) (closed (chain r)).
Proof.
  intros H Hx. pose proof (w_acks _ _ _ _ H) as Hok. apply (waiting_calm [] (loader r)); [done|by apply step_calm|intros g k _; by apply step_unflushed|by apply step_ack|].
  apply step_results; [done|]. apply (w_results _ _ _ _ H).
Qed.

Lemma waiting_close out l w cl s : waiting out l w cl -> waiting out l w (s :: cl).
Proof.
  intros [A B C D E F G H I]. split; try done.
  - intros k Hk. destruct (F k Hk) as (res & cat & t & ? & ? & ? & ?). exists res, cat, t. split_and!; try done. by right.
  - intros c Hc. destruct (G c Hc) as [(t & ? & ?)|?]; [|by right]. left. exists t. split; [done|by right].
Qed.

(** ** The waits themselves *)

Lemma places_awaiting out l w cl k : waiting out l w cl -> k ∈ places w -> exists res, awaiting l k res.
Proof.
  intros H Hk. unfold places in Hk. apply elem_of_app in Hk as [Hk|Hk]; [|apply elem_of_app in Hk as [Hk|Hk]].
  - apply list_elem_of_fmap in Hk as ([g k'] & -> & Hin). apply (map_get_Some _ _ _ (w_wf _ _ _ _ H)) in Hin.
    destruct (w_waiter _ _ _ _ H g k' Hin) as ((res & ? & _) & _). by exists res.
  - apply list_elem_of_fmap in Hk as ([k' s] & -> & Hin). destruct (w_resolved _ _ _ _ H k' s Hin) as (res & ? & _). by exists res.
  - destruct (w_closing _ _ _ _ H k Hk) as (res & _ & _ & ? & _). by exists res.
Qed.

(** *** Leaving a place *)

Definition with_waiters (w : Waits) m : Waits :=
  {| acknowledgementWaiters := m; resolved := LoaderRun.resolved w; closing := closing w; expired := expired w |}.
Definition with_resolved (w : Waits) m : Waits :=
  {| acknowledgementWaiters := acknowledgementWaiters w; resolved := m; closing := closing w; expired := expired w |}.
Definition with_closing (w : Waits) ks : Waits :=
  {| acknowledgementWaiters := acknowledgementWaiters w; resolved := LoaderRun.resolved w; closing := ks; expired := expired w |}.

(** Fewer entries, the same startup in hand. *)
Lemma waiting_move out out' l w w' cl :
  waiting out l w cl -> out ++ places w ≡ₚ out' ++ places w' ->
  acknowledgementWaiters w' `sublist_of` acknowledgementWaiters w -> LoaderRun.resolved w' `sublist_of` LoaderRun.resolved w ->
  closing w' ⊆ closing w -> expired w' = expired w -> waiting out' l w' cl.
Proof.
  intros [A B C D E F G H I] Hp Sw Sr Sc Ee. pose proof (map_sublist_wf _ _ Sw C) as C'.
  split; [done|done|done| | | |by rewrite Ee|by rewrite <- Hp|intros k res; rewrite <- Hp; apply I].
  - intros g k Hg. apply D. apply (map_get_Some _ _ _ C). apply (map_get_Some _ _ _ C') in Hg. by eapply sublist_subseteq.
  - intros k s Hin. rewrite Ee. apply E. by eapply sublist_subseteq.
  - intros k Hin. apply F. by apply Sc.
Qed.

Lemma leave_waiters l w cl g k :
  waiting [] l w cl -> map_get g (acknowledgementWaiters w) = Some k ->
  waiting [k] l (with_waiters w (map_delete g (acknowledgementWaiters w))) cl.
Proof.
  intros H Hg. apply (waiting_move [] [k] l w); [done| |apply map_delete_sublist|done|done|done].
  unfold places. simpl. by rewrite (map_delete_perm _ _ _ Hg) at 1.
Qed.

Lemma leave_resolved l w cl k s :
  waiting [] l w cl -> map_get k (LoaderRun.resolved w) = Some s ->
  waiting [k] l (with_resolved w (map_delete k (LoaderRun.resolved w))) cl.
Proof.
  intros H Hg. apply (waiting_move [] [k] l w); [done| |done|apply map_delete_sublist|done|done].
  unfold places. simpl. rewrite (map_delete_perm _ _ _ Hg) at 1. simpl. by rewrite <- Permutation_middle.
Qed.

Lemma filter_remove (k : nat) ks : NoDup ks -> k ∈ ks -> ks ≡ₚ k :: filter (fun j => j <> k) ks.
Proof.
  intros Hnd Hin. apply NoDup_Permutation; [done| |].
  - constructor; [by intros [? _]%list_elem_of_filter|by apply NoDup_filter].
  - intros j. rewrite elem_of_cons, list_elem_of_filter. destruct (decide (j = k)); naive_solver.
Qed.

Lemma leave_closing l w cl k :
  waiting [] l w cl -> k ∈ closing w -> waiting [k] l (with_closing w (filter (fun j => j <> k) (closing w))) cl.
Proof.
  intros H Hin. apply (waiting_move [] [k] l w); [done| |done|done|by intros j [_ ?]%list_elem_of_filter|done].
  pose proof (w_once _ _ _ _ H) as Hnd. unfold places in *. simpl in *.
  apply NoDup_app in Hnd as (_ & _ & Hnd). apply NoDup_app in Hnd as (_ & _ & Hnd).
  rewrite (filter_remove k (closing w) Hnd Hin) at 1. by rewrite !app_assoc, <- Permutation_middle.
Qed.

(** *** Taking a place *)

Lemma waiting_once out l w cl k : waiting (k :: out) l w cl -> k ∉ places w.
Proof. intros H. pose proof (w_once _ _ _ _ H) as Hn. simpl in Hn. apply NoDup_cons in Hn as [Hn _]. set_solver. Qed.

Lemma take_resolved l w cl k s res :
  waiting [k] l w cl -> awaiting l k res ->
  match s with Some s => exists cat, cr_category res = Some cat /\ on_record l cat s | None => k ∈ expired w end ->
  waiting [] l (with_resolved w (LoaderRun.resolved w ++ [(k, s)])) cl.
Proof.
  intros H Ha Hs. pose proof H as [A B C D E F G N I].
  assert ([k] ++ places w ≡ₚ places (with_resolved w (LoaderRun.resolved w ++ [(k, s)]))) as Hp.
  { unfold places. simpl. rewrite fmap_app. simpl. rewrite <- app_assoc, Permutation_middle. simpl. by rewrite <- !Permutation_middle. }
  split; [done|done|done|done| |done|done|by rewrite <- Hp|intros j q; simpl app; rewrite <- Hp; apply I].
  intros j t Hin. apply elem_of_app in Hin as [Hin|Hin]; [by apply E|]. apply list_elem_of_singleton in Hin as [= -> ->].
  exists res. by split.
Qed.

Lemma take_closing l w cl k s res cat :
  waiting [k] l w cl -> awaiting l k res -> cr_category res = Some cat -> on_record l cat s -> s ∈ cl ->
  waiting [] l (with_closing w (k :: closing w)) cl.
Proof.
  intros H Ha Hc Hr Hs. pose proof H as [A B C D E F G N I].
  assert ([k] ++ places w ≡ₚ places (with_closing w (k :: closing w))) as Hp.
  { unfold places. simpl. by rewrite <- !Permutation_middle. }
  split; [done|done|done|done|done| |done|by rewrite <- Hp|intros j q; simpl app; rewrite <- Hp; apply I].
  intros j Hin. apply elem_of_cons in Hin as [->|Hin]; [|by apply F]. by exists res, cat, s.
Qed.

(** No other startup waits for its generation. *)
Lemma generation_free l w cl k g res :
  waiting [k] l w cl -> awaiting l k res -> cr_acknowledgementGeneration res = Some g -> g ∉ (acknowledgementWaiters w).*1.
Proof.
  intros H Ha Hg Hin. apply list_elem_of_fmap in Hin as ([g' k'] & Eg & Hin). simpl in Eg. subst g'.
  pose proof (proj2 (map_get_Some _ _ _ (w_wf _ _ _ _ H)) Hin) as Hget.
  destruct (w_waiter _ _ _ _ H g k' Hget) as ((res' & Ha' & Hg') & _).
  assert (k = k') as <- by (apply (rs_inj l (w_results _ _ _ _ H) k k' res res' g); [by right|by right|done|done]).
  apply (waiting_once _ _ _ _ _ H). unfold places. apply elem_of_app. left. apply list_elem_of_fmap. by exists (g, k).
Qed.

Lemma take_waiter l w cl k g res :
  waiting [k] l w cl -> awaiting l k res -> cr_acknowledgementGeneration res = Some g -> flushed_on l g = None ->
  runAborted l = false -> waiting [] l (with_waiters w (map_set g k (acknowledgementWaiters w))) cl.
Proof.
  intros H Ha Hg Hf Hr. pose proof H as [A B C D E F G N I].
  pose proof (map_set_fresh g k _ (generation_free l w cl k g res H Ha Hg)) as Hset.
  assert ([k] ++ places w ≡ₚ places (with_waiters w (map_set g k (acknowledgementWaiters w)))) as Hp.
  { unfold places. simpl. rewrite Hset, fmap_app, <- app_assoc. simpl. by rewrite <- Permutation_middle. }
  split; [done|done|by apply map_set_wf| |done|done|done|by rewrite <- Hp|intros j q; simpl app; rewrite <- Hp; apply I].
  intros g' j. simpl. rewrite map_get_set. case_decide as Hd; [|apply D]. intros [= <-]. subst g'. split_and!; [by exists res|done|done].
Qed.

Lemma take_aborted l w cl k : waiting [k] l w cl -> runAborted l = true -> waiting [] l w cl.
Proof.
  intros [A B C D E F G N I] Hr. split; try done; [|by left]. simpl in N. by apply NoDup_cons in N as [_ ?].
Qed.

(** *** What the continuations do *)

Lemma awaiting_done l k j q : awaiting (set_startup l k StartupDone) j q <-> j <> k /\ awaiting l j q.
Proof.
  unfold awaiting. simpl. destruct (decide (k = j)) as [<-|Hne].
  - split; [|by intros [? _]]. intros H. exfalso. destruct (startups l !! k) eqn:E.
    + rewrite list_lookup_insert_eq in H by by eapply lookup_lt_Some. done.
    + rewrite list_insert_ge in H by by apply lookup_ge_None. congruence.
  - rewrite list_lookup_insert_ne by done. naive_solver.
Qed.

(** The startups in the places are others than [k]. *)
Lemma waiting_other out l w cl k l' :
  waiting (k :: out) l w cl -> (exists es, trace l' = trace l ++ es) ->
  pendingAcknowledgements l' = pendingAcknowledgements l -> runAborted l' = runAborted l ->
  (forall j q, j <> k -> awaiting l' j q <-> awaiting l j q) -> (forall q, ~ awaiting l' k q) ->
  ack_ok l' -> results_ok l' ->
  (forall c, finished l' = Some (RejectedStartup c) -> finished l = Some (RejectedStartup c) \/
     (exists s, on_record l' c s /\ s ∈ cl) \/ expired w <> []) ->
  waiting out l' w cl.
Proof.
  intros H Ht Hp Hr Hj Hk Hok Hres Hfin. pose proof H as [A B C D E F G N I]. pose proof (waiting_once _ _ _ _ _ H) as Hn.
  assert (forall j, j ∈ places w -> j <> k) as Hother by (intros j Hin ->; done). unfold places in Hother.
  split; [done|done|done| | | | |by simpl in N; apply NoDup_cons in N as [_ ?]|].
  - intros g j Hg. destruct (D g j Hg) as ((q & Ha & Eq) & Hf & Hab). split_and!; [|rewrite flushed_on_None, Hp; by apply flushed_on_None|congruence].
    exists q. rewrite Hj; [done|]. apply Hother. apply elem_of_app. left. apply list_elem_of_fmap. exists (g, j).
    split; [done|]. by apply map_get_Some_elem.
  - intros j s Hin. destruct (E j s Hin) as (q & Ha & Hs). exists q. rewrite Hj.
    2: { apply Hother. apply elem_of_app. right. apply elem_of_app. left. apply list_elem_of_fmap. by exists (j, s). }
    split; [done|]. destruct s; [|done]. destruct Hs as (cat & ? & ?). exists cat. split; [done|]. by apply (on_record_trace l).
  - intros j Hin. destruct (F j Hin) as (q & cat & s & Ha & Hc & Hrec & Hs). exists q, cat, s. rewrite Hj.
    2: { apply Hother. apply elem_of_app. right. apply elem_of_app. by right. }
    split_and!; try done. by apply (on_record_trace l).
  - intros c Hc. destruct (Hfin c Hc) as [Hold|?]; [|done]. destruct (G c Hold) as [(s & ? & ?)|?]; [|by right].
    left. exists s. split; [|done]. by apply (on_record_trace l).
  - intros j q Ha. destruct (decide (j = k)) as [->|Hne]; [by destruct (Hk q)|]. rewrite Hr. rewrite Hj in Ha by done.
    destruct (I j q Ha) as [?|Hin]; [by left|]. right. set_solver.
Qed.

Lemma take_acknowledged l w cl k res cat :
  waiting [k] l w cl -> awaiting l k res -> cr_category res = Some cat ->
  (exists s, on_record l cat s /\ s ∈ cl) \/ expired w <> [] ->
  waiting [] (on_acknowledged l k) w cl.
Proof.
  intros H Ha Hc Hwhy. pose proof (on_acknowledged_results l k (w_results _ _ _ _ H)) as Hres.
  assert (ack_ok (on_acknowledged l k)) as Hok.
  { pose proof (w_acks _ _ _ _ H). unfold on_acknowledged. destruct (startups l !! k) as [[q|q|]|]; try done.
    destruct (cr_category q); [|done]. apply (ack_frame_ok l); [by apply ack_frame_same|done]. }
  unfold on_acknowledged in *. unfold awaiting in Ha. rewrite Ha, Hc in *.
  apply (waiting_other [] l w cl k); try done.
  - by exists []; rewrite app_nil_r.
  - intros j q Hne. rewrite (awaiting_done l k j q : awaiting (finish (set_startup l k StartupDone) _) j q <-> _). naive_solver.
  - intros q. rewrite (awaiting_done l k k q : awaiting (finish (set_startup l k StartupDone) _) k q <-> _). naive_solver.
  - intros c. simpl. destruct (finished l); [intros [= ->]; by left|]. intros [= <-]. by right.
Qed.

(** The fresh read answered: the startup rejection is done, or it is to wait. *)
Lemma fresh_out o l w cl k answer q :
  waiting [] l w cl -> startups l !! k = Some (AwaitsFresh q) ->
  match startups (on_fresh o l k answer) !! k with
  | Some (AwaitsAcknowledgement res) => res = q /\ waiting [k] (on_fresh o l k answer) w cl
  | _ => waiting [] (on_fresh o l k answer) w cl
  end.
Proof.
  intros H E. pose proof (on_fresh_results o l k answer (w_results _ _ _ _ H)) as Hres.
  pose proof (step_ack o l (OFresh k answer) (w_acks _ _ _ _ H)) as Hok. simpl in Hok.
  assert (k ∉ places w) as Hk.
  { intros Hin. destruct (places_awaiting _ _ _ _ _ H Hin) as (res & Ha). unfold awaiting in Ha. congruence. }
  pose proof (lookup_lt_Some _ _ _ E) as Hlt.
  assert (forall l', on_fresh o l k answer = l' -> calm (set_startup l k StartupDone) l' -> pendingAcknowledgements l' = pendingAcknowledgements l ->
            waiting [] l' w cl) as Hdone.
  { intros l' <- Hcm Hp. apply (waiting_calm [] l); [done| |intros g j _; by rewrite !flushed_on_None, Hp|done|done].
    etransitivity; [|exact Hcm]. split; [by exists []; rewrite app_nil_r| |done|done]. intros j res. rewrite awaiting_done.
    split; [naive_solver|]. intros Ha. split; [|done]. intros ->. unfold awaiting in Ha. congruence. }
  assert (forall l', on_fresh o l k answer = l' -> l' = set_startup l k (AwaitsAcknowledgement q) ->
    match startups l' !! k with Some (AwaitsAcknowledgement res) => res = q /\ waiting [k] l' w cl | _ => waiting [] l' w cl end) as Hwait.
  { intros l' El ->. simpl. rewrite list_lookup_insert_eq by done. split; [done|]. rewrite El in *.
    destruct H as [A B C D F G N I J].
    assert (forall j res, j <> k -> awaiting (set_startup l k (AwaitsAcknowledgement q)) j res <-> awaiting l j res) as Hother.
    { intros j res Hne. unfold awaiting. simpl. by rewrite list_lookup_insert_ne. }
    assert (forall j, (exists res, awaiting l j res) -> j <> k) as Hne.
    { intros j [res Ha] ->. unfold awaiting in Ha. congruence. }
    split; [done|done|done| | | |done|simpl; by constructor|].
    - intros g j Hg. destruct (D g j Hg) as ((res & Ha & Eg) & ? & ?). split_and!; [|done|done]. exists res.
      rewrite Hother; [done|]. apply Hne. by exists res.
    - intros j s Hin. destruct (F j s Hin) as (res & Ha & Hs). exists res. rewrite Hother; [done|]. apply Hne. by exists res.
    - intros j Hin. destruct (G j Hin) as (res & cat & s & Ha & ?). exists res, cat, s. rewrite Hother; [done|]. apply Hne. by exists res.
    - intros j res Ha. destruct (decide (j = k)) as [->|Hnk]; [right; by left|]. rewrite Hother in Ha by done.
      destruct (J j res Ha) as [?|?]; [by left|right; by right]. }
  unfold on_fresh in *. rewrite E in *.
  destruct (active_candidate o answer) as [c|]; [|by apply Hwait]. destruct (sameActiveCandidate _ _); [by apply Hwait|].
  autorewrite with run in *. simpl. rewrite list_lookup_insert_eq by done. apply Hdone; [done|apply offer_calm|].
  unfold offer. destruct (offer_ignored _ _ _); [done|]. cbv zeta. simpl. by destruct (task l).
Qed.

(** [#waitForAcknowledgement] finds the startup rejection a place. *)
Lemma wait_ok r k res g :
  waiting [k] (loader r) (waits r) (closed (chain r)) -> awaiting (loader r) k res -> cr_acknowledgementGeneration res = Some g ->
  waits_ok (waitForAcknowledgement r k g).
Proof.
  intros H Ha Eg. unfold waitForAcknowledgement, waits_ok. destruct (rs_held _ (w_results _ _ _ _ H) k res) as (Hr & Hf & Hc); [by right|].
  destruct (flushed_on (loader r) g) as [s|] eqn:Ef.
  - apply flushed_on_Some in Ef as (st & x & Hin & Egx & Hd & Es).
    pose proof (proj2 (map_get_Some _ _ _ (ao_wf _ (w_acks _ _ _ _ H))) Hin) as Hx.
    destruct (ao_sent _ (w_acks _ _ _ _ H) st x Hx Hd) as (str & Estr & Hsent). rewrite Estr in Es. subst s.
    destruct (cr_category res) as [cat|] eqn:Ec; [|done]. destruct (Hr cat Hf Ec) as (g' & Eg' & _ & Hall).
    assert (g' = g) as -> by congruence. destruct (Hall st x Hx Egx) as [H1 H2].
    apply (take_resolved _ _ _ k (Some str) res H Ha). exists cat. split; [done|]. by exists (pa_acknowledgement x).
  - cbv zeta. simpl. rewrite Ef. destruct (runAborted (loader r)) eqn:Hab; [|by apply (take_waiter _ _ _ k g res)].
    apply take_aborted with k; [|done]. simpl. rewrite map_delete_set by by apply (generation_free (loader r) (waits r) (closed (chain r)) k g res).
    by destruct (waits r).
Qed.

Lemma await_ok r k res :
  waiting [k] (loader r) (waits r) (closed (chain r)) -> awaiting (loader r) k res -> waits_ok (await_rejection r k res).
Proof.
  intros H Ha. destruct (held_generation _ k res (w_results _ _ _ _ H)) as (g & Eg & _); [by right|].
  unfold await_rejection. rewrite Eg. by apply (wait_ok r k res).
Qed.

(** A send calls the waiter of the acknowledgement it sent, if that is still
    retained. *)
Lemma sent_ok (o : Identity) r j : waits_ok r -> waits_ok (flush_sent r j).
Proof.
  intros H. unfold flush_sent. destruct (flushes (loader r) !! j) as [[s [|y rest]]|] eqn:Hj; try done.
  pose proof (w_acks _ _ _ _ H) as Hok. set (l := loader r) in *. set (w := waits r) in *. set (cl := closed (chain r)) in *.
  assert (calm l (flush_step l j)) as Hcalm.
  { apply calm_fields; [rewrite (flush_step_trace l s j y rest Hj); by eexists|by rewrite (flush_step_eq l s j y rest Hj)..]. }
  assert (ack_ok (flush_step l j)) as Hok' by by apply flush_step_ack.
  assert (results_ok (flush_step l j)) as Hres by (apply (step_results o l (OFlushStep j)); [done|apply (w_results _ _ _ _ H)]).
  assert (forall out w', waiting out l w' cl ->
    (forall g k, map_get g (acknowledgementWaiters w') = Some k ->
       forall x, map_get y.1 (pendingAcknowledgements l) = Some x -> pa_generation x = pa_generation y.2 -> g <> pa_generation y.2) ->
    waiting out (flush_step l j) w' cl) as Hstep.
  { intros out w' Hw Hne. apply (waiting_calm out l); [done|done| |done|done]. intros g k Hg Hf. apply flushed_on_None.
    intros st x' Hin Eg. apply (map_get_Some _ _ _ (ao_wf _ Hok')) in Hin.
    destruct (flush_step_old l s j y rest Hj st x' Hin) as (x & Hx & Egx & _ & [->|(-> & Egy & _ & _)]).
    - apply (proj1 (flushed_on_None l g) Hf st x); [by apply map_get_Some_elem|done].
    - destruct (Hne g k Hg x Hx Egy). congruence. }
  destruct (map_get y.1 (pendingAcknowledgements l)) as [x|] eqn:Hx; [|apply Hstep; [done|done]].
  destruct (Z.eqb_spec (pa_generation x) (pa_generation y.2)) as [Eg|Hne]; [|apply Hstep; [done|]; intros g k _ x' [= <-] ?; done].
  unfold wake. simpl. fold w. destruct (map_get (pa_generation y.2) (acknowledgementWaiters w)) as [k|] eqn:Hk.
  2: { apply Hstep; [done|]. intros g k Hg _ _ _ ->.
       change (map_get (pa_generation y.2) (acknowledgementWaiters w) = Some k) in Hg. congruence. }
  destruct (w_waiter _ _ _ _ H _ k Hk) as ((res & Ha & Er) & _ & _).
  pose proof (leave_waiters l w cl _ k H Hk) as Hout.
  destruct (rs_held _ (w_results _ _ _ _ H) k res) as (Hr & Hf & Hc); [by right|].
  destruct (cr_category res) as [cat|] eqn:Ec; [|done]. destruct (Hr cat Hf Ec) as (g' & Eg' & _ & Hall).
  assert (g' = pa_generation y.2) as -> by congruence. destruct (Hall y.1 x Hx Eg) as [H1 H2].
  apply (take_resolved (flush_step l j) _ cl k (Some s) res).
  - apply Hstep; [done|]. intros g k' Hg _ _ _ ->. simpl in Hg.
    rewrite map_get_delete in Hg by apply (w_wf _ _ _ _ H). by rewrite decide_True in Hg.
  - unfold awaiting. by rewrite (flush_step_eq l s j y rest Hj).
  - exists cat. split; [done|]. exists (pa_acknowledgement x). split_and!; [|done|done].
    by apply (flush_step_sent l s j y rest Hok Hj y.1 x).
Qed.

Lemma waiting_expired out l w cl k :
  waiting out l w cl ->
  waiting out l {| acknowledgementWaiters := acknowledgementWaiters w; resolved := LoaderRun.resolved w; closing := closing w;
                   expired := k :: expired w |} cl.
Proof.
  intros [A B C D E F G N I]. split; try done.
  - intros j s Hin. destruct (E j s Hin) as (res & Ha & Hs). exists res. split; [done|]. destruct s; [done|]. by right.
  - intros c Hc. destruct (G c Hc) as [?|?]; [by left|by right].
Qed.

Lemma expire_ok r g : waits_ok r -> waits_ok (expire r g).
Proof.
  intros H. unfold expire. destruct (map_get g (acknowledgementWaiters (waits r))) as [k|] eqn:Hk; [|done].
  destruct (w_waiter _ _ _ _ H g k Hk) as ((res & Ha & _) & _ & _).
  pose proof (waiting_expired _ _ _ _ k (leave_waiters _ _ _ g k H Hk)) as H'.
  apply (take_resolved _ _ _ k None res H' Ha). simpl. by left.
Qed.

Lemma waited_ok r k : waits_ok r -> waits_ok (waited r k).
Proof.
  intros H. unfold waited. destruct (map_get k (LoaderRun.resolved (waits r))) as [s|] eqn:Hk; [|done].
  destruct (w_resolved _ _ _ _ H k s (map_get_Some_elem _ _ _ Hk)) as (res & Ha & Hs).
  pose proof (leave_resolved _ _ _ k s H Hk) as H'. destruct s as [s|].
  - destruct Hs as (cat & Hc & Hr).
    exact (take_closing _ _ _ k s res cat (waiting_close _ _ _ _ s H') Ha Hc Hr ltac:(by left)).
  - destruct (rs_held _ (w_results _ _ _ _ H) k res) as (_ & _ & Hc); [by right|].
    destruct (cr_category res) as [cat|] eqn:Ec; [|done]. apply (take_acknowledged _ _ _ k res cat H' Ha Ec).
    right. simpl. intros E. rewrite E in Hs. by apply elem_of_nil in Hs.
Qed.

Lemma stopped_ok r k : waits_ok r -> waits_ok (stopped r k).
Proof.
  intros H. unfold stopped. case_bool_decide as Hk; [|done]. cbv zeta. simpl.
  destruct (w_closing _ _ _ _ H k Hk) as (res & cat & s & Ha & Hc & Hr & Hs). pose proof (leave_closing _ _ _ k H Hk) as H'.
  destruct (runAborted (loader r)) eqn:Hab; [exact (take_aborted _ _ _ k H' Hab)|].
  apply (take_acknowledged _ _ _ k res cat H' Ha Hc). left. by exists s.
Qed.

Section steps.
Context (o : Identity).

Lemma abort_ok r : waits_ok r -> waits_ok (set_waiters (on_loader abort_run r) []).
Proof.
  intros H. pose proof H as [A B C D E F G N I]. split; simpl; try done.
  - by apply (step_ack o _ OAbort).
  - by apply (step_results o _ OAbort).
  - constructor.
  - unfold places in *. simpl in *. by apply NoDup_app in N as (_ & _ & ?).
  - intros k res _. by left.
Qed.

Lemma closed_ok r s : waits_ok r -> waits_ok (close (on_loader (fun l => stream_closed l s) r) s).
Proof.
  intros H. apply waiting_close. apply (waits_step o r (OClosed s) H eq_refl).
Qed.

Lemma leave_ok r s e : waits_ok r -> waits_ok (leave r s e).
Proof. intros H. unfold leave. destruct s as [s|]; [|exact H]. exact (closed_ok r s H). Qed.

Lemma flush_send_ok r ok e : waits_ok r -> waits_ok (flush_send r ok e).
Proof.
  intros H. unfold flush_send. destruct (flushing (chain r)) as [[[s a] j]|]; [|done]. case_bool_decide; [done|].
  destruct (sends r s ok); [by apply (sent_ok o)|].
  assert (waits_ok (close (with_chain r (scheduled (chain r)) None) s)) as H' by exact (waiting_close _ _ _ _ s H).
  destruct a; [by apply leave_ok|done].
Qed.

Lemma replay_send_ok r ok e : waits_ok r -> waits_ok (replay_send r ok e).
Proof.
  intros H. unfold replay_send. destruct (phase (watch r)); try done. case_bool_decide; [done|].
  destruct (sends r s ok); [by apply (sent_ok o)|by apply leave_ok].
Qed.

Lemma fresh_ok r k answer : waits_ok r -> waits_ok (fresh_step o r k answer).
Proof.
  intros H. unfold fresh_step. destruct (startups (loader r) !! k) as [[q|q|]|] eqn:E; try done.
  pose proof (fresh_out o _ _ _ k answer q H E) as Hout. cbv zeta. simpl.
  destruct (startups (on_fresh o (loader r) k answer) !! k) as [[p|p|]|] eqn:E'; try exact Hout.
  destruct Hout as [-> Hout]. by apply await_ok.
Qed.

Lemma event_ok r s e : waits_ok r -> waits_ok (on_event o r s e).
Proof.
  intros H. unfold on_event. destruct (runAborted _); [by apply leave_ok|]. destruct e; [| | |done].
  - exact (waits_step o r (OAckRejected e) H eq_refl).
  - exact (waits_step o r (OHeartbeat revision) H eq_refl).
  - destruct (x_release x); [|done]. destruct (_ && _); [|done]. exact (waits_step o r (OTarget revision x) H eq_refl).
Qed.

Lemma schedule_ok r a n : waits_ok r -> waits_ok (schedule r a n).
Proof. unfold schedule. by destruct (currentStream _). Qed.

Lemma task_op_calm x : task_op x = true -> calm_op x = true.
Proof. by destruct x. Qed.

Lemma rstep_ok r x : waits_ok r -> waits_ok (rstep o r x).
Proof.
  intros H. destruct x; simpl.
  - destruct (task_op x) eqn:Hx; [|done]. unfold lift. apply schedule_ok. exact (waits_step o r x H (task_op_calm x Hx)).
  - by apply fresh_ok.
  - by apply expire_ok.
  - by apply waited_ok.
  - by apply stopped_ok.
  - by apply abort_ok.
  - unfold flush_next. destruct (flushing _); [done|]. destruct (scheduled _) as [|[s a] rest]; [done|].
    exact (waits_step o r (OFlush s false) H eq_refl).
  - by apply flush_send_ok.
  - unfold flush_done. destruct (flushing _) as [[[s a] j]|]; [|done]. case_bool_decide; [|done]. by destruct a.
  - unfold stream_open. destruct (phase _); try done. exact (waits_step o r (OOpened (opened (watch r))) H eq_refl).
  - destruct (phase _); try done.
  - by apply replay_send_ok.
  - unfold replay_done. destruct (phase _) as [|s j| | | | |]; try done. case_bool_decide; [|done].
    apply schedule_ok. exact (waits_step o r (OCurrent s) H eq_refl).
  - destruct (phase _); try done. by apply event_ok.
  - destruct (phase _); try done. by apply leave_ok.
  - destruct (phase _); try done. unfold left_stream. destruct terminal; [exact (waits_step o r OWatchFailed H eq_refl)|].
    destruct (_ || _); [done|exact (waits_step o r OReconnect H eq_refl)].
  - destruct (phase _); try done. unfold loop_head. by destruct (_ || _).
  - destruct (idle r); [by apply schedule_ok|done].
  - destruct (currentStream _) as [s|]; [|done]. destruct (idle r); [by apply closed_ok|done].
Qed.

Lemma rrun_ok id st rec rev xs : waits_ok (rrun o (tasks_begin id st rec rev) xs).
Proof.
  unfold rrun. induction xs as [|x xs IH] using rev_ind; [|rewrite foldl_snoc; by apply rstep_ok].
  split; simpl; try done; [apply (run_ack o id st rec rev [])| | | | |constructor].
  - split; [done| |]; intros k; [intros r [H|H]|intros k' r r' g [H|H]]; done.
  - constructor.
  - intros k s Hin. by apply elem_of_nil in Hin.
  - intros k Hin. by apply elem_of_nil in Hin.
Qed.
End steps.

(** The server learns of a startup rejection before the run ends with it.
    Whenever the run is rejected for a category, an acknowledgement with
    that category and the state rejected was sent on a stream that has been
    closed since, or the timer of a wait for such a send fired. *)
Theorem startup_rejection_on_record o id st reconnects rev xs category :
  let r := rrun o (tasks_begin id st reconnects rev) xs in
  finished (loader r) = Some (RejectedStartup category) ->
  (exists s a, Send s a ∈ trace (loader r) /\ a_state a = rejected_state /\ a_rejectionCategory a = Some category /\
               s ∈ closed (chain r)) \/
  expired (waits r) <> [].
Proof.
  intros r Hf. destruct (w_finished _ _ _ _ (rrun_ok o id st reconnects rev xs) category Hf) as [(s & (a & ? & ? & ?) & ?)|?];
    [left|by right]. by exists s, a.
Qed.

(** No wait for an acknowledgement is lost. In every interleaving, a
    startup rejection that waits while the run goes on is in exactly one
    place: its wait has been answered, or its stream is closing, or its waiter
    is registered under its generation and that acknowledgement has not been
    flushed; and the flush that sends it answers the wait at once, with the
    stream it was sent on. *)
Theorem no_lost_wakeup o id st reconnects rev xs k res :
  let r := rrun o (tasks_begin id st reconnects rev) xs in
  startups (loader r) !! k = Some (AwaitsAcknowledgement res) -> runAborted (loader r) = false ->
  NoDup (places (waits r)) /\
  (k ∈ (LoaderRun.resolved (waits r)).*1 \/ k ∈ closing (waits r) \/
   exists g, cr_acknowledgementGeneration res = Some g /\ map_get g (acknowledgementWaiters (waits r)) = Some k /\
     flushed_on (loader r) g = None /\
     forall j s state x rest current, flushes (loader r) !! j = Some (s, (state, x) :: rest) -> pa_generation x = g ->
       map_get state (pendingAcknowledgements (loader r)) = Some current -> pa_generation current = g ->
       (k, Some s) ∈ LoaderRun.resolved (waits (flush_sent r j))).
Proof.
  intros r Hk Hab. pose proof (rrun_ok o id st reconnects rev xs) as H. fold r in H. split; [apply (w_once _ _ _ _ H)|].
  destruct (w_complete _ _ _ _ H k res Hk) as [?|Hin]; [congruence|].
  simpl in Hin. unfold places in Hin.
  apply elem_of_app in Hin as [Hin|Hin]; [|apply elem_of_app in Hin as [?|?]; [by left|by right; left]].
  right. right. apply list_elem_of_fmap in Hin as ([g k'] & Ek & Hin). simpl in Ek. subst k'.
  pose proof (proj2 (map_get_Some _ _ _ (w_wf _ _ _ _ H)) Hin) as Hget.
  destruct (w_waiter _ _ _ _ H g k Hget) as ((res' & Ha & Eg) & Hf & _). unfold awaiting in Ha.
  exists g. split_and!; [congruence|done|done|]. intros j s state x rest current Hj Ex Hc Ec.
  unfold flush_sent. rewrite Hj. simpl fst. simpl snd. rewrite Hc, Ex, Ec, Z.eqb_refl. unfold wake. simpl. rewrite Hget. simpl.
  apply elem_of_app. right. by left.
Qed.

(** ** Witnesses *)

Lemma startup_rejection_on_record_witness :
  let r := rrun demo_identity demo_tasks (opening ++ rejecting ++ sending ++ [RWaited 0; RStopped 0]) in
  finished (loader r) = Some (RejectedStartup digest_mismatch) /\ expired (waits r) = [] /\
  exists s a, Send s a ∈ trace (loader r) /\ a_rejectionCategory a = Some digest_mismatch.
Proof.
  intros r. assert (finished (loader r) = Some (RejectedStartup digest_mismatch)) as Hf by (vm_compute; reflexivity).
  assert (expired (waits r) = []) as He by (vm_compute; reflexivity). split; [exact Hf|]. split; [exact He|].
  destruct (startup_rejection_on_record demo_identity (js "s") initial_stats 0 0
              (opening ++ rejecting ++ sending ++ [RWaited 0; RStopped 0]) digest_mismatch Hf) as [(s & a & H & _ & Hc & _)|H].
  - exists s, a. by split.
  - by destruct H.
Defined.

Lemma no_lost_wakeup_witness :
  let r := rrun demo_identity demo_tasks (opening ++ rejecting) in
  NoDup (places (waits r)) /\ acknowledgementWaiters (waits r) = [(1, 0%nat)].
Proof.
  intros r. split; [|vm_compute; reflexivity].
  assert (exists res, startups (loader r) !! 0%nat = Some (AwaitsAcknowledgement res)) as [res Hk] by (eexists; vm_compute; reflexivity).
  refine (proj1 (no_lost_wakeup demo_identity (js "s") initial_stats 0 0 (opening ++ rejecting) 0 res Hk _)).
  vm_compute. reflexivity.
Defined.
