(* ===== verification/Clone.v ===== *)
(** * Clone: [sdk/typescript/src/configstore/clone.ts] and [secret.ts].

    Configuration values are object graphs with sharing and cycles, so the
    model has a heap: an object is an index into a list of objects and a new
    object is appended. What [instanceof], [Array.isArray] and [typeof] answer
    is the kind of the object. The plaintext of a secret is a byte array of
    its own, reached only through a private field. Objects are ordinary ones
    (no proxies); what is not observed by the code, such as the extensibility
    of an object, is left out.

    The recursion visits an object at most once before it finds it in [seen],
    so the number of objects of the heap, and one, is enough fuel. *)
From stdpp Require Import prelude gmap list.
From Stdlib Require Import ZArith Lia.
From S2P Require Import Prelude JsString JsMap Unicode.

(** ** Values, property descriptors, objects *)

Abbreviation loc := nat.

(** A number is the bit pattern of its double. *)
Inductive prim :=
| Undefined | Null | Boolean (b : bool) | Number (bits : Z) | Text (s : jstr) | BigInt (z : Z) | Symbol (n : nat).

Inductive jsval := Prim (p : prim) | Ref (l : loc).

Inductive propkey := StringKey (s : jstr) | SymbolKey (n : nat).

#[global] Instance prim_eq_dec : EqDecision prim.
Proof. solve_decision. Defined.
#[global] Instance jsval_eq_dec : EqDecision jsval.
Proof. solve_decision. Defined.
#[global] Instance propkey_eq_dec : EqDecision propkey.
Proof. solve_decision. Defined.

Record flags := { writable : bool; enumerable : bool; configurable : bool }.

(** [Object.getOwnPropertyDescriptor]: a data property or an accessor. *)
Inductive descriptor := Data (v : jsval) (f : flags) | Accessor.

Abbreviation properties := (list (propkey * descriptor)).

(** The fields of [Secret] besides the plaintext. *)
Record SecretMeta := { s_path : jstr; s_version : Z; s_contentType : jstr; s_bindKey : jstr }.

Inductive kind :=
| ISecret (backing : loc) (m : SecretMeta)
| IReleaseSecret (backing entry : loc)
| IBuffer (bytes : list Z)
| IUint8Array (bytes : list Z)
| IDate (time : Z)
| IMap (entries : list (jsval * jsval))
| ISet (items : list jsval)
| IArray (len : Z) (len_writable : bool)
| IFunction
| IPlain (proto : option loc).

(** [o_props] are the own properties in the order of [Reflect.ownKeys],
    without the elements of a byte array, the [length] of an array and the
    [entry] of a release secret, which are kept with the kind. *)
Record obj := { o_kind : kind; o_props : properties }.

Abbreviation heap := (list obj).

(** ** [Secret] *)

Definition backing_bytes (h : heap) (b : loc) : list Z :=
  match o_kind <$> h !! b with Some (IUint8Array bytes) => bytes | _ => [] end.

Inductive clone_error := OutOfFuel | Dangling | InvalidVersion | AccessorProperty.

(** [new Secret(bytes, options)]: the bytes are copied into a new array. *)
Definition new_Secret (h : heap) (bytes : list Z) (m : SecretMeta) : res clone_error (heap * loc) :=
  if negb (is_uint64 (s_version m)) then Throw InvalidVersion
  else Ok (h ++ [{| o_kind := IUint8Array bytes; o_props := [] |};
                 {| o_kind := ISecret (length h) m; o_props := [] |}], S (length h)).

Definition new_ReleaseSecret (h : heap) (bytes : list Z) (entry : loc) : heap * loc :=
  (h ++ [{| o_kind := IUint8Array bytes; o_props := [] |};
         {| o_kind := IReleaseSecret (length h) entry; o_props := [] |}], S (length h)).

Definition isEmpty (h : heap) (b : loc) : bool := bool_decide (backing_bytes h b = []).

Definition isSet (h : heap) (b : loc) (m : SecretMeta) : bool :=
  (negb (bool_decide (s_path m = [])) && (0 <? s_version m)) || negb (isEmpty h b).

(** ** [cloneValue] *)

Record store := { cells : heap; seen : gmap loc loc }.

(** The new object for [l], entered in [seen] before it is filled. *)
Definition alloc (st : store) (l : loc) (o : obj) : store :=
  {| cells := cells st ++ [o]; seen := <[l := length (cells st)]> (seen st) |}.

Definition update (r : loc) (f : obj -> obj) (st : store) : store :=
  {| cells := alter f r (cells st); seen := seen st |}.

Definition put_entry (k v : jsval) (o : obj) : obj :=
  match o_kind o with
  | IMap es => {| o_kind := IMap (map_set k v es); o_props := o_props o |}
  | _ => o
  end.

Definition put_item (v : jsval) (o : obj) : obj :=
  match o_kind o with
  | ISet vs => {| o_kind := ISet (set_add v vs); o_props := o_props o |}
  | _ => o
  end.

Definition define_property (k : propkey) (d : descriptor) (o : obj) : obj :=
  {| o_kind := o_kind o; o_props := map_set k d (o_props o) |}.

Definition define_length (len : Z) (w : bool) (o : obj) : obj :=
  match o_kind o with
  | IArray _ _ => {| o_kind := IArray len w; o_props := o_props o |}
  | _ => o
  end.

Section loops.
Context (f : store -> jsval -> res clone_error (store * jsval)) (r : loc).

Fixpoint clone_entries (st : store) (es : list (jsval * jsval)) : res clone_error store :=
  match es with
  | [] => Ok st
  | (k, v) :: es =>
      let* (st, k') := f st k in
      let* (st, v') := f st v in
      clone_entries (update r (put_entry k' v') st) es
  end.

Fixpoint clone_items (st : store) (vs : list jsval) : res clone_error store :=
  match vs with
  | [] => Ok st
  | v :: vs =>
      let* (st, v') := f st v in
      clone_items (update r (put_item v') st) vs
  end.

Fixpoint cloneDataProperties (st : store) (ps : properties) : res clone_error store :=
  match ps with
  | [] => Ok st
  | (_, Accessor) :: _ => Throw AccessorProperty
  | (k, Data v fl) :: ps =>
      let* (st, v') := f st v in
      cloneDataProperties (update r (define_property k (Data v' fl)) st) ps
  end.
End loops.

Definition bare (k : kind) : obj := {| o_kind := k; o_props := [] |}.

Fixpoint cloneValue (fuel : nat) (st : store) (v : jsval) : res clone_error (store * jsval) :=
  match v with
  | Prim _ => Ok (st, v)
  | Ref l =>
      match fuel with
      | O => Throw OutOfFuel
      | S fuel =>
          match seen st !! l with
          | Some r => Ok (st, Ref r)
          | None =>
              match cells st !! l with
              | None => Throw Dangling
              | Some o =>
                  let r := length (cells st) in
                  match o_kind o with
                  | ISecret b m =>
                      let* (h, r) := new_Secret (cells st) (backing_bytes (cells st) b) m in
                      Ok ({| cells := h; seen := <[l := r]> (seen st) |}, Ref r)
                  | IReleaseSecret b e =>
                      let '(h, r) := new_ReleaseSecret (cells st) (backing_bytes (cells st) b) e in
                      Ok ({| cells := h; seen := <[l := r]> (seen st) |}, Ref r)
                  | IBuffer bytes => Ok (alloc st l (bare (IBuffer bytes)), Ref r)
                  | IUint8Array bytes => Ok (alloc st l (bare (IUint8Array bytes)), Ref r)
                  | IDate time => Ok (alloc st l (bare (IDate time)), Ref r)
                  | IMap es =>
                      let* st := clone_entries (cloneValue fuel) r (alloc st l (bare (IMap []))) es in
                      Ok (st, Ref r)
                  | ISet vs =>
                      let* st := clone_items (cloneValue fuel) r (alloc st l (bare (ISet []))) vs in
                      Ok (st, Ref r)
                  | IArray len w =>
                      let* st := cloneDataProperties (cloneValue fuel) r
                                   (alloc st l (bare (IArray len true))) (o_props o) in
                      Ok (update r (define_length len w) st, Ref r)
                  | IFunction => Ok (st, v)
                  | IPlain proto =>
                      let* st := cloneDataProperties (cloneValue fuel) r
                                   (alloc st l (bare (IPlain proto))) (o_props o) in
                      Ok (st, Ref r)
                  end
              end
          end
      end
  end.

Definition clone_fuel (h : heap) : nat := S (length h).

Definition cloneConfig (h : heap) (v : jsval) : res clone_error (heap * jsval) :=
  let* (st, v') := cloneValue (clone_fuel h) {| cells := h; seen := ∅ |} v in
  Ok (cells st, v').

(** ** [containsSecret] *)

Definition is_secret (o : obj) : bool :=
  match o_kind o with ISecret _ _ | IReleaseSecret _ _ => true | _ => false end.

Definition data_value (d : descriptor) : option jsval :=
  match d with Data v _ => Some v | Accessor => None end.

(** What the traversal visits of an object, in its order: keys and values,
    items, or the data properties (of a byte array its elements too, of an
    array its [length], all of them numbers). *)
Definition children (o : obj) : list jsval :=
  match o_kind o with
  | IMap es => flat_map (fun p => [p.1; p.2]) es
  | ISet vs => vs
  | IBuffer bytes | IUint8Array bytes =>
      map (fun b => Prim (Number b)) bytes ++ omap (fun p => data_value p.2) (o_props o)
  | IArray len _ => Prim (Number len) :: omap (fun p => data_value p.2) (o_props o)
  | _ => omap (fun p => data_value p.2) (o_props o)
  end.

Section search.
Context (f : gset loc -> jsval -> res clone_error (bool * gset loc)).

Fixpoint any_contains (sn : gset loc) (vs : list jsval) : res clone_error (bool * gset loc) :=
  match vs with
  | [] => Ok (false, sn)
  | v :: vs =>
      let* (b, sn) := f sn v in
      if b then Ok (true, sn) else any_contains sn vs
  end.
End search.

Fixpoint valueContainsSecret (fuel : nat) (h : heap) (sn : gset loc) (v : jsval)
  : res clone_error (bool * gset loc) :=
  match v with
  | Prim _ => Ok (false, sn)
  | Ref l =>
      match fuel with
      | O => Throw OutOfFuel
      | S fuel =>
          match h !! l with
          | None => Throw Dangling
          | Some o =>
              if is_secret o then Ok (true, sn)
              else if bool_decide (l ∈ sn) then Ok (false, sn)
              else any_contains (valueContainsSecret fuel h) ({[l]} ∪ sn) (children o)
          end
      end
  end.

Definition containsSecret (h : heap) (v : jsval) : res clone_error bool :=
  let* (b, _) := valueContainsSecret (clone_fuel h) h ∅ v in Ok b.
