(* ===== verification/CloneProofs.v ===== *)
(** * CloneProofs: copies are isomorphic to the original and share nothing
    with it, and the search for secrets is exact for what a value holds in its
    own properties and contents; prototypes are not searched. *)
From stdpp Require Import prelude gmap list relations strings.
From Stdlib Require Import ZArith Lia.
From S2P Require Import Prelude JsString JsMap Unicode Clone.

(** ** Well-formed heaps *)

Definition val_in (h : heap) (v : jsval) : Prop :=
  match v with Prim _ => True | Ref l => (l < length h)%nat end.

(** Every reference points into the heap, a secret's plaintext is a byte
    array and its version was validated, [Map] keys and [Set] items are
    distinct, and property names are. *)
Definition obj_wf (h : heap) (o : obj) : Prop :=
  Forall (val_in h) (children o) /\ NoDup (o_props o).*1 /\
  match o_kind o with
  | ISecret b m => (b < length h)%nat /\ is_uint64 (s_version m) = true
  | IReleaseSecret b _ => (b < length h)%nat
  | IMap es => NoDup es.*1
  | ISet vs => NoDup vs
  | _ => True
  end.

Definition heap_wf (h : heap) : Prop := Forall (obj_wf h) h.

Lemma heap_wf_lookup h l o : heap_wf h -> h !! l = Some o -> obj_wf h o.
Proof. intros H Hl. eapply Forall_lookup_1; eauto. Qed.

(** ** The search for secrets *)

(** [l'] is visited from [l]. *)
Definition visits (h : heap) (l l' : loc) : Prop :=
  exists o, h !! l = Some o /\ is_secret o = false /\ Ref l' ∈ children o.

Definition holds_secret (h : heap) (l : loc) : Prop :=
  exists o, h !! l = Some o /\ is_secret o = true.

(** A secret is reachable from a value. *)
Definition reaches_secret (h : heap) (v : jsval) : Prop :=
  exists l l', v = Ref l /\ rtc (visits h) l l' /\ holds_secret h l'.

(** What a search that found nothing has established: everything it visited
    is free of secrets and leads only to what was visited. *)
Definition searched (h : heap) (sn sn' : gset loc) : Prop :=
  sn ⊆ sn' /\ forall l, l ∈ sn' -> l ∉ sn ->
    exists o, h !! l = Some o /\ is_secret o = false /\ forall l', Ref l' ∈ children o -> l' ∈ sn'.

Lemma searched_refl h sn : searched h sn sn.
Proof. split; [done|]. intros l H1 H2. done. Qed.

Lemma searched_trans h s1 s2 s3 : searched h s1 s2 -> searched h s2 s3 -> searched h s1 s3.
Proof.
  intros [H12 D12] [H23 D23]. split; [set_solver|]. intros l H3 H1.
  destruct (decide (l ∈ s2)) as [H2|H2].
  - destruct (D12 l H2 H1) as (o & ? & ? & Hc). exists o. set_solver.
  - by apply D23.
Qed.

Definition visited (sn : gset loc) (v : jsval) : Prop :=
  match v with Prim _ => True | Ref l => l ∈ sn end.

(** Fuel beyond the number of objects not yet visited is enough. *)
Definition enough (h : heap) (n fuel : nat) : Prop := (length h < fuel + n)%nat.

Definition inside (h : heap) (sn : gset loc) : Prop := forall l, l ∈ sn -> (l < length h)%nat.

Definition search_ok (h : heap) (sn : gset loc) (v : jsval) (r : res clone_error (bool * gset loc)) : Prop :=
  match r with
  | Ok (true, _) => reaches_secret h v
  | Ok (false, sn') => searched h sn sn' /\ visited sn' v /\ inside h sn'
  | Throw _ => False
  end.

Lemma any_contains_ok h fuel :
  heap_wf h ->
  (forall sn v, inside h sn -> enough h (size sn) fuel -> val_in h v ->
     search_ok h sn v (valueContainsSecret fuel h sn v)) ->
  forall vs sn, inside h sn -> enough h (size sn) fuel -> Forall (val_in h) vs ->
  match any_contains (valueContainsSecret fuel h) sn vs with
  | Ok (true, _) => exists v, v ∈ vs /\ reaches_secret h v
  | Ok (false, sn') => searched h sn sn' /\ Forall (visited sn') vs /\ inside h sn'
  | Throw _ => False
  end.
Proof.
  intros Hwf IH vs. induction vs as [|v vs IHvs]; intros sn Hin Hf Hvs; simpl.
  { split; [apply searched_refl|]. done. }
  inversion Hvs as [|? ? Hv Hvs']; subst. specialize (IH sn v Hin Hf Hv). unfold search_ok in IH.
  destruct (valueContainsSecret fuel h sn v) as [[[] sn1]|]; [set_solver| |done].
  destruct IH as (Hs & Hvis & Hin1).
  assert (enough h (size sn1) fuel) as Hf1.
  { destruct Hs as [Hs _]. apply subseteq_size in Hs. unfold enough in *. lia. }
  specialize (IHvs sn1 Hin1 Hf1 Hvs').
  destruct (any_contains _ sn1 vs) as [[[] sn2]|]; [set_solver| |done].
  destruct IHvs as (Hs2 & Hvis2 & Hin2). split; [by eapply searched_trans|]. split; [|done].
  constructor; [|done]. destruct v; simpl in *; [done|]. destruct Hs2 as [Hs2 _]. set_solver.
Qed.

Lemma search_correct h fuel : heap_wf h -> forall sn v,
  inside h sn -> enough h (size sn) fuel -> val_in h v ->
  search_ok h sn v (valueContainsSecret fuel h sn v).
Proof.
  intros Hwf. induction fuel as [|fuel IH]; intros sn v Hin Hf Hv; destruct v as [p|l]; simpl in *;
    try by (split; [apply searched_refl|]).
  { apply size_below in Hin. unfold enough in Hf. lia. }
  destruct (h !! l) as [o|] eqn:Hl; [|apply lookup_ge_None in Hl; lia].
  destruct (is_secret o) eqn:Hsec; simpl.
  { exists l, l. split; [done|]. split; [apply rtc_refl|]. by exists o. }
  case_bool_decide as Hsn; simpl; [by split; [apply searched_refl|]|].
  destruct (heap_wf_lookup _ _ _ Hwf Hl) as [Hch _].
  assert (size ({[l]} ∪ sn) = S (size sn)) as Hsize by (rewrite size_union, size_singleton; set_solver).
  assert (inside h ({[l]} ∪ sn)) as Hin' by (intros x; rewrite elem_of_union, elem_of_singleton; intros [->|?]; [done|by apply Hin]).
  assert (enough h (size ({[l]} ∪ sn)) fuel) as Hf' by (unfold enough in *; lia).
  pose proof (any_contains_ok h fuel Hwf IH _ _ Hin' Hf' Hch) as Hany.
  destruct (any_contains _ _ _) as [[[] sn']|]; simpl; [| |done].
  - destruct Hany as (v & Hv' & l1 & l2 & -> & Hr & Hs). exists l, l2. split; [done|]. split; [|done].
    eapply rtc_l; [|exact Hr]. by exists o.
  - destruct Hany as ([Hsub Hd] & Hvis & Hin2). split; [|split; [set_solver|done]].
    split; [set_solver|]. intros x Hx Hnx. destruct (decide (x = l)) as [->|Hne].
    + exists o. split; [done|]. split; [done|]. intros l' Hl'. rewrite Forall_forall in Hvis. by specialize (Hvis _ Hl').
    + apply Hd; [done|]. set_solver.
Qed.

Lemma containsSecret_spec h v : heap_wf h -> val_in h v ->
  exists b, containsSecret h v = Ok b /\ (b = true <-> reaches_secret h v).
Proof.
  intros Hwf Hv. unfold containsSecret.
  assert (inside h ∅) as Hin by (intros l; set_solver).
  assert (enough h (size (∅ : gset loc)) (clone_fuel h)) as Hf by (unfold enough, clone_fuel; lia).
  pose proof (search_correct h _ Hwf ∅ v Hin Hf Hv) as H.
  destruct (valueContainsSecret _ _ _ _) as [[[] sn]|]; [by eexists| |done].
  exists false. split; [done|]. split; [done|]. intros (l & l' & -> & Hr & (o & Hl' & Hs)). exfalso.
  destruct H as ((_ & Hd) & Hvis & _). simpl in Hvis.
  assert (l' ∈ sn) as Hin'.
  { clear Hl' Hs Hv. induction Hr as [|x y z Hxy _ IH]; [done|]. apply IH.
    destruct Hxy as (ox & Hx & _ & Hc). destruct (Hd x Hvis (not_elem_of_empty x)) as (o' & ? & ? & Hnext). simplify_eq. by apply Hnext. }
  destruct (Hd l' Hin' (not_elem_of_empty l')) as (o' & ? & ? & _). simplify_eq. congruence.
Qed.

(** ** Images *)

Definition is_function (h : heap) (l : loc) : bool :=
  match o_kind <$> h !! l with Some IFunction => true | _ => false end.

(** The copy of a value: a primitive or a function is itself, any other
    object is the one [seen] has for it. *)
Definition val_image (h : heap) (s : gmap loc loc) (v v' : jsval) : Prop :=
  match v with
  | Prim _ => v' = v
  | Ref l => if is_function h l then v' = v else exists r, s !! l = Some r /\ v' = Ref r
  end.

Definition prop_image (h : heap) (s : gmap loc loc) (p p' : propkey * descriptor) : Prop :=
  p'.1 = p.1 /\ exists v v' fl, p.2 = Data v fl /\ p'.2 = Data v' fl /\ val_image h s v v'.

Definition entry_image (h : heap) (s : gmap loc loc) (p p' : jsval * jsval) : Prop :=
  val_image h s p.1 p'.1 /\ val_image h s p.2 p'.2.

(** A new byte array, of the new part of the heap, with the same bytes. *)
Definition bytes_image (h h' : heap) (b b' : loc) : Prop :=
  (length h <= b')%nat /\ h' !! b' = Some (bare (IUint8Array (backing_bytes h b))).

Definition obj_image (h : heap) (s : gmap loc loc) (h' : heap) (o o' : obj) : Prop :=
  match o_kind o with
  | ISecret b m => exists b', o' = bare (ISecret b' m) /\ bytes_image h h' b b'
  | IReleaseSecret b e => exists b', o' = bare (IReleaseSecret b' e) /\ bytes_image h h' b b'
  | IBuffer _ | IUint8Array _ | IDate _ => o' = bare (o_kind o)
  | IMap es => exists es', o' = bare (IMap es') /\ Forall2 (entry_image h s) es es'
  | ISet vs => exists vs', o' = bare (ISet vs') /\ Forall2 (val_image h s) vs vs'
  | IArray _ _ | IPlain _ => o_kind o' = o_kind o /\ Forall2 (prop_image h s) (o_props o) (o_props o')
  | IFunction => False
  end.

Lemma val_image_mono h s s' v v' : s ⊆ s' -> val_image h s v v' -> val_image h s' v v'.
Proof.
  intros Hs. destruct v as [|l]; simpl; [done|]. destruct (is_function h l); [done|].
  intros (r & Hr & ->). exists r. split; [|done]. by eapply lookup_weaken.
Qed.

Lemma prop_image_mono h s s' p p' : s ⊆ s' -> prop_image h s p p' -> prop_image h s' p p'.
Proof.
  intros Hs (H1 & v & v' & fl & H2 & H3 & H4). split; [done|]. exists v, v', fl.
  eauto using val_image_mono.
Qed.

Lemma entry_image_mono h s s' p p' : s ⊆ s' -> entry_image h s p p' -> entry_image h s' p p'.
Proof. intros Hs [H1 H2]. split; eauto using val_image_mono. Qed.

Lemma bytes_image_mono h h1 h2 b b' : h1 `prefix_of` h2 -> bytes_image h h1 b b' -> bytes_image h h2 b b'.
Proof. intros Hp [H1 H2]. split; [done|]. by eapply prefix_lookup_Some. Qed.

Lemma obj_image_mono h s s' h1 h2 o o' :
  s ⊆ s' -> h1 `prefix_of` h2 -> obj_image h s h1 o o' -> obj_image h s' h2 o o'.
Proof.
  unfold obj_image. intros Hs Hp. destruct (o_kind o); try done;
    try (intros (x & H1 & H2); exists x; split; [done|]); try (intros [H1 H2]; split; [done|]);
    eauto using bytes_image_mono; eapply Forall2_impl; eauto using val_image_mono, prop_image_mono, entry_image_mono.
Qed.

(** Two values with the same image are equal: copies keep what is shared
    shared and what is distinct distinct. *)
Definition injective (s : gmap loc loc) : Prop :=
  forall l1 l2 r, s !! l1 = Some r -> s !! l2 = Some r -> l1 = l2.

(** ** The state of a traversal *)

Record good (h : heap) (st : store) : Prop := {
  good_prefix : h `prefix_of` cells st;
  good_inj : injective (seen st);
  good_range : forall l r, seen st !! l = Some r ->
    (l < length h)%nat /\ is_function h l = false /\ (length h <= r < length (cells st))%nat
}.

Lemma val_image_inj h st v1 v2 v' :
  good h st -> val_in h v1 -> val_in h v2 ->
  val_image h (seen st) v1 v' -> val_image h (seen st) v2 v' -> v1 = v2.
Proof.
  intros G. destruct v1 as [p1|l1], v2 as [p2|l2]; simpl; intros Hi1 Hi2 H1 H2;
    repeat case_match; try destruct H1 as (r1 & H1 & ?); try destruct H2 as (r2 & H2 & ?); simplify_eq; try done.
  - apply (good_range _ _ G) in H1 as (_ & _ & ?). lia.
  - apply (good_range _ _ G) in H2 as (_ & _ & ?). lia.
  - f_equal. by eapply (good_inj _ _ G).
Qed.

(** What an operation on the object [r] leaves alone. *)
Record frame (r : loc) (st st' : store) : Prop := {
  frame_cells : forall x o, x <> r -> cells st !! x = Some o -> cells st' !! x = Some o;
  frame_length : (length (cells st) <= length (cells st'))%nat;
  frame_seen : seen st ⊆ seen st'
}.

Record ext (st st' : store) : Prop := {
  ext_cells : cells st `prefix_of` cells st';
  ext_seen : seen st ⊆ seen st'
}.

Lemma ext_refl st : ext st st.
Proof. by split. Qed.

Lemma ext_frame r st st' : ext st st' -> frame r st st'.
Proof.
  intros [H1 H2]. split; [|by apply prefix_length|done]. intros x o _ Hx. by eapply prefix_lookup_Some.
Qed.

Lemma frame_trans r s1 s2 s3 : frame r s1 s2 -> frame r s2 s3 -> frame r s1 s3.
Proof. intros [A1 B1 C1] [A2 B2 C2]. split; [naive_solver|lia|by etrans]. Qed.

Lemma frame_update r g st : frame r st (update r g st).
Proof.
  split; simpl; [|by rewrite length_alter|done]. intros x o Hne Hx. by rewrite list_lookup_alter_ne.
Qed.

(** Objects met since [st] have their complete image. *)
Definition completed (h : heap) (st st' : store) : Prop :=
  forall l r, seen st' !! l = Some r -> seen st !! l = None ->
  exists o o', h !! l = Some o /\ cells st' !! r = Some o' /\ obj_image h (seen st') (cells st') o o'.

Lemma completed_refl h st : completed h st st.
Proof. intros l r H1 H2. congruence. Qed.

Lemma completed_trans h s1 s2 s3 : ext s2 s3 -> completed h s1 s2 -> completed h s2 s3 -> completed h s1 s3.
Proof.
  intros E C12 C23 l r H3 H1. destruct (seen s2 !! l) as [r'|] eqn:H2; [|by apply C23].
  assert (seen s3 !! l = Some r') by (eapply lookup_weaken; [done|apply E]). simplify_eq.
  destruct (C12 l r H2 H1) as (o & o' & ? & Hr & Hi). exists o, o'. split; [done|].
  split; [by eapply prefix_lookup_Some; [|apply E]|]. eapply obj_image_mono; [apply E|apply E|done].
Qed.

(** The kinds that are filled after they have been created. *)
Definition fillable (o : obj) : Prop := forall bytes, o_kind o <> IUint8Array bytes.

Lemma obj_image_update h s r g c o o1 o' :
  c !! r = Some o1 -> fillable o1 -> obj_image h s c o o' -> obj_image h s (alter g r c) o o'.
Proof.
  unfold obj_image, bytes_image. intros Hr Hf. destruct (o_kind o); try done;
    intros (b' & -> & H1 & H2); exists b'; (split; [done|]); (split; [done|]);
    (rewrite list_lookup_alter_ne; [done|]); intros ->; simplify_eq; by eapply Hf.
Qed.

(** ** What the copy visits *)

Definition copied (o : obj) : list jsval :=
  match o_kind o with
  | IMap es => flat_map (fun p => [p.1; p.2]) es
  | ISet vs => vs
  | IArray _ _ | IPlain _ => omap (fun p => data_value p.2) (o_props o)
  | _ => []
  end.

Definition copies (h : heap) (l l' : loc) : Prop := exists o, h !! l = Some o /\ Ref l' ∈ copied o.

(** An array or a plain object with an accessor property. *)
Definition has_accessor (h : heap) (l : loc) : Prop :=
  exists o k, h !! l = Some o /\ (k, Accessor) ∈ o_props o /\
    match o_kind o with IArray _ _ | IPlain _ => True | _ => False end.

Definition reaches_accessor (h : heap) (v : jsval) : Prop :=
  exists l l', v = Ref l /\ rtc (copies h) l l' /\ has_accessor h l'.

Definition clone_ok (h : heap) (st : store) (v : jsval) (r : res clone_error (store * jsval)) : Prop :=
  match r with
  | Ok (st', v') => good h st' /\ ext st st' /\ completed h st st' /\ val_image h (seen st') v v'
  | Throw e => e = AccessorProperty /\ reaches_accessor h v
  end.

Lemma Forall2_snoc {A B} (R : A -> B -> Prop) l k x y : Forall2 R l k -> R x y -> Forall2 R (l ++ [x]) (k ++ [y]).
Proof. intros. apply Forall2_app; [done|]. by constructor. Qed.

Lemma image_fresh h st vs vs' v v' :
  good h st -> Forall (val_in h) vs -> val_in h v -> Forall2 (val_image h (seen st)) vs vs' ->
  val_image h (seen st) v v' -> v ∉ vs -> v' ∉ vs'.
Proof.
  intros G Hvs Hv HF Hi Hn Hin. apply Hn. clear Hn.
  induction HF as [|x y vs vs' Hxy _ IH]; [set_solver|]. inversion Hvs; subst.
  apply elem_of_cons in Hin as [->|Hin]; [|right; by apply IH].
  assert (v = x) as -> by (by eapply val_image_inj). left.
Qed.

Lemma good_update h r g st : good h st -> (length h <= r)%nat -> good h (update r g st).
Proof.
  intros [[k Hk] G2 G3] Hr. split; simpl; [|done|].
  - exists (alter g (r - length h)%nat k). rewrite Hk. by apply alter_app_r_alt.
  - intros l x Hx. rewrite length_alter. by apply G3.
Qed.

Section filling.
Context (h : heap) (fuel : nat) (l r : loc) (st1 : store).
Context (Hr : seen st1 !! l = Some r) (Hrange : (length h <= r)%nat).
Context (IH : forall st v, good h st -> enough h (size (dom (seen st))) fuel -> val_in h v ->
  clone_ok h st v (cloneValue fuel st v)).
Context (Hf : enough h (size (dom (seen st1))) fuel).

(** The object [r], the copy of [l], is being filled and is now [o]. *)
Record filling (st : store) (o : obj) : Prop := {
  fill_good : good h st;
  fill_frame : frame r st1 st;
  fill_done : completed h st1 st;
  fill_obj : cells st !! r = Some o;
  fill_kind : fillable o
}.

Lemma fill_value st o v : filling st o -> val_in h v ->
  match cloneValue fuel st v with
  | Ok (st', v') => filling st' o /\ seen st ⊆ seen st' /\ val_image h (seen st') v v'
  | Throw e => e = AccessorProperty /\ reaches_accessor h v
  end.
Proof.
  intros [G F D O K] Hv.
  assert (enough h (size (dom (seen st))) fuel) as Hf'.
  { assert (size (dom (seen st1)) <= size (dom (seen st)))%nat by (apply subseteq_size, subseteq_dom, F).
    unfold enough in *. lia. }
  specialize (IH st v G Hf' Hv). unfold clone_ok in IH.
  destruct (cloneValue fuel st v) as [[st' v']|]; [|done]. destruct IH as (G' & E & C & I).
  split; [|by split; [apply E|]]. split; [done| | | |done].
  - eapply frame_trans; [done|]. by apply ext_frame.
  - by eapply completed_trans.
  - eapply prefix_lookup_Some; [done|apply E].
Qed.

Lemma fill_update st o g : filling st o -> fillable (g o) -> filling (update r g st) (g o).
Proof.
  intros [G F D O K] K'. split; [by apply good_update| | | |done].
  - eapply frame_trans; [done|]. apply frame_update.
  - intros l' r' H' H1. destruct (D l' r' H' H1) as (x & x' & Hx & Hx' & Hi). exists x, x'.
    split; [done|]. split; [|by eapply obj_image_update].
    simpl. rewrite list_lookup_alter_ne; [done|]. intros <-.
    assert (seen st !! l = Some r) as Hl by (eapply lookup_weaken; [done|apply F]).
    assert (l' = l) by (by eapply (good_inj _ _ G)). congruence.
  - simpl. by rewrite list_lookup_alter_eq, O.
Qed.
Lemma clone_items_ok vs : forall st ws ws',
  filling st (bare (ISet ws')) -> Forall2 (val_image h (seen st)) ws ws' ->
  NoDup (ws ++ vs) -> Forall (val_in h) (ws ++ vs) ->
  match clone_items (cloneValue fuel) r st vs with
  | Ok st' => exists vs', filling st' (bare (ISet vs')) /\ seen st ⊆ seen st' /\
                Forall2 (val_image h (seen st')) (ws ++ vs) vs'
  | Throw e => e = AccessorProperty /\ exists v, v ∈ vs /\ reaches_accessor h v
  end.
Proof.
  induction vs as [|v vs IHvs]; intros st ws ws' Hst Hws Hnd Hin; simpl.
  { exists ws'. rewrite app_nil_r. done. }
  assert (val_in h v /\ Forall (val_in h) ws) as [Hv Hws_in].
  { apply Forall_app in Hin as [? H]. by inversion H. }
  pose proof (fill_value st _ v Hst Hv) as H.
  destruct (cloneValue fuel st v) as [[st' v']|]; [|set_solver]. destruct H as (Hst' & Hsub & Hi).
  assert (Forall2 (val_image h (seen st')) ws ws') as Hws' by (eapply Forall2_impl; eauto using val_image_mono).
  assert (v' ∉ ws') as Hfresh.
  { eapply image_fresh; [apply Hst'|exact Hws_in|exact Hv|exact Hws'|exact Hi|].
    apply NoDup_app in Hnd as (_ & Hd & _). intros Hbad. apply (Hd v Hbad). left. }
  assert (filling (update r (put_item v') st') (bare (ISet (ws' ++ [v'])))) as Hup.
  { replace (bare (ISet (ws' ++ [v']))) with (put_item v' (bare (ISet ws')))
      by (unfold put_item, set_add; simpl; by rewrite decide_False).
    apply fill_update; [done|]. by intros bytes. }
  specialize (IHvs _ (ws ++ [v]) (ws' ++ [v']) Hup). rewrite <- app_assoc in IHvs. simpl in IHvs.
  specialize (IHvs (Forall2_snoc _ _ _ _ _ Hws' Hi) Hnd Hin).
  destruct (clone_items _ _ _ _) as [st2|]; [|set_solver].
  destruct IHvs as (vs' & H1 & H2 & H3). exists vs'. split; [done|]. split; [by etrans|done].
Qed.

Lemma clone_entries_ok es : forall st ws ws',
  filling st (bare (IMap ws')) -> Forall2 (entry_image h (seen st)) ws ws' ->
  NoDup (ws ++ es).*1 -> Forall (fun p => val_in h p.1 /\ val_in h p.2) (ws ++ es) ->
  match clone_entries (cloneValue fuel) r st es with
  | Ok st' => exists es', filling st' (bare (IMap es')) /\ seen st ⊆ seen st' /\
                Forall2 (entry_image h (seen st')) (ws ++ es) es'
  | Throw e => e = AccessorProperty /\ exists p, p ∈ es /\ (reaches_accessor h p.1 \/ reaches_accessor h p.2)
  end.
Proof.
  induction es as [|[k v] es IHes]; intros st ws ws' Hst Hws Hnd Hin; simpl.
  { exists ws'. rewrite app_nil_r. done. }
  assert ((val_in h k /\ val_in h v) /\ Forall (fun p => val_in h p.1 /\ val_in h p.2) ws) as [[Hk Hv] Hws_in].
  { apply Forall_app in Hin as [? H]. by inversion H. }
  pose proof (fill_value st _ k Hst Hk) as H.
  destruct (cloneValue fuel st k) as [[st' k']|]; [|destruct H; split; [done|]; exists (k, v); set_solver].
  destruct H as (Hst' & Hsub & Hi).
  pose proof (fill_value st' _ v Hst' Hv) as H.
  destruct (cloneValue fuel st' v) as [[st2 v']|]; [|destruct H; split; [done|]; exists (k, v); set_solver].
  destruct H as (Hst2 & Hsub2 & Hi2). apply (val_image_mono _ _ _ _ _ Hsub2) in Hi.
  assert (seen st ⊆ seen st2) as Hsub3 by (by etrans).
  assert (Forall2 (entry_image h (seen st2)) ws ws') as Hws' by (eapply Forall2_impl; eauto using entry_image_mono).
  assert (k' ∉ ws'.*1) as Hfresh.
  { eapply (image_fresh h st2 ws.*1); [apply Hst2| |exact Hk| |exact Hi|].
    - apply Forall_fmap. eapply Forall_impl; [done|]. by intros ? [].
    - apply Forall2_fmap. eapply Forall2_impl; [done|]. by intros ? ? [].
    - rewrite fmap_app in Hnd. apply NoDup_app in Hnd as (_ & Hd & _). intros Hbad. apply (Hd k Hbad). left. }
  assert (filling (update r (put_entry k' v') st2) (bare (IMap (ws' ++ [(k', v')])))) as Hup.
  { replace (bare (IMap (ws' ++ [(k', v')]))) with (put_entry k' v' (bare (IMap ws')))
      by (unfold put_entry; simpl; by rewrite map_set_fresh).
    apply fill_update; [done|]. by intros bytes. }
  specialize (IHes _ (ws ++ [(k, v)]) (ws' ++ [(k', v')]) Hup). rewrite <- app_assoc in IHes. simpl in IHes.
  assert (entry_image h (seen st2) (k, v) (k', v')) as Hkv by done.
  specialize (IHes (Forall2_snoc _ _ _ _ _ Hws' Hkv) Hnd Hin).
  destruct (clone_entries _ _ _ _) as [st3|]; [|set_solver].
  destruct IHes as (es' & H1 & H2 & H3). exists es'. split; [done|]. split; [by etrans|done].
Qed.

Lemma cloneDataProperties_ok k ps : forall st ws ws', (forall bytes, k <> IUint8Array bytes) ->
  filling st {| o_kind := k; o_props := ws' |} -> Forall2 (prop_image h (seen st)) ws ws' ->
  NoDup (ws ++ ps).*1 -> Forall (val_in h) (omap (fun p => data_value p.2) ps) ->
  match cloneDataProperties (cloneValue fuel) r st ps with
  | Ok st' => exists ps', filling st' {| o_kind := k; o_props := ps' |} /\ seen st ⊆ seen st' /\
                Forall2 (prop_image h (seen st')) (ws ++ ps) ps'
  | Throw e => e = AccessorProperty /\
      ((exists key, (key, Accessor) ∈ ps) \/
       exists v, v ∈ omap (fun p => data_value p.2) ps /\ reaches_accessor h v)
  end.
Proof.
  induction ps as [|[key [v fl|]] ps IHps]; intros st ws ws' Hkind Hst Hws Hnd Hin; simpl.
  { exists ws'. rewrite app_nil_r. done. }
  2: { split; [done|]. left. exists key. left. }
  simpl in Hin. inversion Hin as [|? ? Hv Hin']; subst.
  pose proof (fill_value st _ v Hst Hv) as H.
  destruct (cloneValue fuel st v) as [[st' v']|]; [|set_solver]. destruct H as (Hst' & Hsub & Hi).
  assert (Forall2 (prop_image h (seen st')) ws ws') as Hws' by (eapply Forall2_impl; eauto using prop_image_mono).
  assert (ws'.*1 = ws.*1) as Hkeys.
  { clear -Hws'. induction Hws' as [|? ? ? ? [] _ IH]; csimpl; congruence. }
  assert (filling (update r (define_property key (Data v' fl)) st') {| o_kind := k; o_props := ws' ++ [(key, Data v' fl)] |}) as Hup.
  { replace ({| o_kind := k; o_props := ws' ++ [(key, Data v' fl)] |})
      with (define_property key (Data v' fl) {| o_kind := k; o_props := ws' |}).
    - by apply fill_update.
    - unfold define_property. simpl. rewrite map_set_fresh; [done|]. rewrite Hkeys.
      rewrite fmap_app in Hnd. apply NoDup_app in Hnd as (_ & Hd & _). intros Hbad. apply (Hd key Hbad). left. }
  specialize (IHps _ (ws ++ [(key, Data v fl)]) _ Hkind Hup). rewrite <- app_assoc in IHps. simpl in IHps.
  assert (prop_image h (seen st') (key, Data v fl) (key, Data v' fl)) as Hkv by (split; [done|]; by exists v, v', fl).
  specialize (IHps (Forall2_snoc _ _ _ _ _ Hws' Hkv) Hnd Hin').
  destruct (cloneDataProperties _ _ _ _) as [st2|].
  - destruct IHps as (ps' & H1 & H2 & H3). exists ps'. split; [done|]. split; [by etrans|done].
  - destruct IHps as (He & [[k2 Hk2]|(w & Hw & Hacc)]); split; try done; [left; exists k2; by right|].
    right. exists w. split; [|done]. simpl. by right.
Qed.
End filling.

(** ** The recursion *)

Lemma lookup_prefix {A} (l k : list A) : (forall i x, l !! i = Some x -> k !! i = Some x) -> l `prefix_of` k.
Proof.
  intros H. exists (drop (length l) k). rewrite <- (take_drop (length l) k) at 1. f_equal.
  apply list_eq. intros i. destruct (decide (i < length l)%nat) as [Hi|Hi].
  - rewrite lookup_take_lt by done. destruct (l !! i) as [x|] eqn:Hx; [by apply H|].
    apply lookup_ge_None in Hx. lia.
  - rewrite lookup_take_ge by lia. symmetry. apply lookup_ge_None. lia.
Qed.

Lemma good_grow h st l news r :
  good h st -> seen st !! l = None -> (l < length h)%nat -> is_function h l = false ->
  (length (cells st) <= r < length (cells st) + length news)%nat ->
  good h {| cells := cells st ++ news; seen := <[l := r]> (seen st) |}.
Proof.
  intros [G1 G2 G3] Hn Hl Hfun Hr. pose proof (prefix_length _ _ G1) as Hlen. split; simpl.
  - by apply prefix_app_r.
  - intros l1 l2 x. rewrite !lookup_insert_Some. intros [[<- <-]|[? H1]] [[<- ?]|[? H2]]; try done.
    + apply G3 in H2 as (_ & _ & ?). lia.
    + apply G3 in H1 as (_ & _ & ?). lia.
    + by eapply G2.
  - intros l' r'. rewrite length_app, lookup_insert_Some. intros [[<- <-]|[_ H']]; [split; [done|]; split; [done|lia]|].
    apply G3 in H' as (? & ? & ?). split; [done|]. split; [done|lia].
Qed.

Lemma ext_grow st l news r : seen st !! l = None ->
  ext st {| cells := cells st ++ news; seen := <[l := r]> (seen st) |}.
Proof. intros Hn. split; simpl; [by apply prefix_app_r|]. by apply insert_subseteq. Qed.

(** An object copied in one go. *)
Lemma leaf_ok h st l o news r o' :
  good h st -> seen st !! l = None -> h !! l = Some o -> is_function h l = false ->
  (length (cells st) <= r)%nat -> (cells st ++ news) !! r = Some o' ->
  obj_image h (<[l := r]> (seen st)) (cells st ++ news) o o' ->
  clone_ok h st (Ref l) (Ok ({| cells := cells st ++ news; seen := <[l := r]> (seen st) |}, Ref r)).
Proof.
  intros G Hn Hl Hfun Hr Ho' Hi. simpl.
  assert (l < length h)%nat by (by eapply lookup_lt_Some).
  assert (r < length (cells st) + length news)%nat by (rewrite <- length_app; by eapply lookup_lt_Some).
  split; [by apply good_grow|]. split; [by apply ext_grow|]. split.
  - intros l' r'. simpl. rewrite lookup_insert_Some. intros [[<- <-]|[? ?]] ?; [|congruence]. by exists o, o'.
  - rewrite Hfun. exists r. by rewrite lookup_insert_eq.
Qed.

(** An object allocated empty and then filled. *)
Lemma fill_start h st l o o1 :
  good h st -> seen st !! l = None -> h !! l = Some o -> is_function h l = false -> fillable o1 ->
  filling h (length (cells st)) (alloc st l o1) (alloc st l o1) o1.
Proof.
  intros G Hn Hl Hfun Hk. split; [|by apply ext_frame, ext_refl|apply completed_refl| |done].
  - apply good_grow; try done; [by eapply lookup_lt_Some|simpl; lia].
  - simpl. by rewrite lookup_app_r, Nat.sub_diag by lia.
Qed.

Lemma fill_finish h st l o o1 st2 o2 :
  good h st -> seen st !! l = None -> h !! l = Some o -> is_function h l = false ->
  filling h (length (cells st)) (alloc st l o1) st2 o2 -> obj_image h (seen st2) (cells st2) o o2 ->
  clone_ok h st (Ref l) (Ok (st2, Ref (length (cells st)))).
Proof.
  intros G Hn Hl Hfun [G2 F D O K] Hi. simpl.
  assert (seen st2 !! l = Some (length (cells st))) as Hs.
  { eapply lookup_weaken; [|apply F]. simpl. by rewrite lookup_insert_eq. }
  split; [done|]. split; [split|split].
  - apply lookup_prefix. intros i x Hx. apply (frame_cells _ _ _ F).
    + apply lookup_lt_Some in Hx. lia.
    + simpl. by apply lookup_app_l_Some.
  - transitivity (seen (alloc st l o1)); [by apply insert_subseteq|apply F].
  - intros l' r' H' H1. destruct (decide (l' = l)) as [->|Hne]; [simplify_eq; by exists o, o2|].
    apply D; [done|]. simpl. by rewrite lookup_insert_ne.
  - rewrite Hfun. by exists (length (cells st)).
Qed.

Lemma reaches_child h l o v : h !! l = Some o -> v ∈ copied o -> reaches_accessor h v -> reaches_accessor h (Ref l).
Proof.
  intros Hl Hv (l1 & l2 & -> & Hr & Ha). exists l, l2. split; [done|]. split; [|done].
  eapply rtc_l; [|done]. by exists o.
Qed.

Lemma children_copied h o : Forall (val_in h) (children o) -> Forall (val_in h) (copied o).
Proof. unfold children, copied. destruct (o_kind o); try done; intros; by list_simplifier. Qed.

Lemma elem_of_pairs {A} (es : list (A * A)) p : p ∈ es -> p.1 ∈ flat_map (fun p => [p.1; p.2]) es /\ p.2 ∈ flat_map (fun p => [p.1; p.2]) es.
Proof. induction es as [|q es IH]; simpl; [set_solver|]. rewrite elem_of_cons. intros [->|H]; set_solver. Qed.

Lemma backing_prefix h c b : h `prefix_of` c -> (b < length h)%nat -> backing_bytes c b = backing_bytes h b.
Proof.
  intros Hp Hb. unfold backing_bytes. destruct (h !! b) as [o|] eqn:Ho.
  - by rewrite (prefix_lookup_Some _ _ _ _ Ho Hp).
  - apply lookup_ge_None in Ho. lia.
Qed.

(** A secret: two new objects, the plaintext and its holder. *)
Lemma secret_ok h st l o b k :
  good h st -> seen st !! l = None -> h !! l = Some o -> is_function h l = false -> (b < length h)%nat ->
  (forall b', bytes_image h (cells st ++ [bare (IUint8Array (backing_bytes h b)); bare (k b')]) b b' ->
     obj_image h (<[l := S (length (cells st))]> (seen st))
       (cells st ++ [bare (IUint8Array (backing_bytes h b)); bare (k b')]) o (bare (k b'))) ->
  clone_ok h st (Ref l)
    (Ok ({| cells := cells st ++ [bare (IUint8Array (backing_bytes (cells st) b)); bare (k (length (cells st)))];
            seen := <[l := S (length (cells st))]> (seen st) |}, Ref (S (length (cells st))))).
Proof.
  intros G Hn Hl Hfun Hb Hk. rewrite (backing_prefix h) by (done || apply G).
  eapply leaf_ok; [done|done|exact Hl|done|lia| |].
  - rewrite lookup_app_r by lia. replace (S (length (cells st)) - length (cells st))%nat with 1%nat by lia. done.
  - apply Hk. split; [apply prefix_length, G|]. by rewrite lookup_app_r, Nat.sub_diag by lia.
Qed.

Section recursion.
Context (h : heap) (fuel : nat) (st : store) (l : loc) (o : obj).
Context (IH : forall st v, good h st -> enough h (size (dom (seen st))) fuel -> val_in h v ->
  clone_ok h st v (cloneValue fuel st v)).
Context (G : good h st) (Hn : seen st !! l = None) (Hl : h !! l = Some o) (Hfun : is_function h l = false).
Context (Hwf : obj_wf h o) (Hf : enough h (size (dom (seen st))) (S fuel)).

Lemma alloc_enough o1 : enough h (size (dom (seen (alloc st l o1)))) fuel.
Proof.
  simpl. rewrite dom_insert_L, size_union by (apply disjoint_singleton_l, not_elem_of_dom, Hn).
  rewrite size_singleton. unfold enough in *. lia.
Qed.

Lemma alloc_seen o1 : seen (alloc st l o1) !! l = Some (length (cells st)).
Proof. simpl. by rewrite lookup_insert_eq. Qed.

Lemma source_length : (length h <= length (cells st))%nat.
Proof. apply prefix_length, G. Qed.

Lemma map_ok es : o_kind o = IMap es ->
  clone_ok h st (Ref l) (let* st' := clone_entries (cloneValue fuel) (length (cells st)) (alloc st l (bare (IMap []))) es in
                         Ok (st', Ref (length (cells st)))).
Proof.
  intros Hk. destruct Hwf as (Hch & _ & Hnd). rewrite Hk in Hnd. apply children_copied in Hch.
  pose proof (clone_entries_ok h fuel l _ _ (alloc_seen _) source_length IH (alloc_enough (bare (IMap []))) es _ [] []
    (fill_start _ _ _ _ (bare (IMap [])) G Hn Hl Hfun ltac:(by intros ?)) (Forall2_nil_2 _ _ _) Hnd) as H.
  unfold copied in Hch. rewrite Hk in Hch.
  assert (Forall (fun p => val_in h p.1 /\ val_in h p.2) es) as Hin.
  { apply Forall_forall. intros p [H1 H2]%elem_of_pairs. rewrite Forall_forall in Hch. split; by apply Hch. }
  specialize (H Hin). destruct (clone_entries _ _ _ _) as [st2|e].
  - destruct H as (es' & Hfill & _ & HF). eapply fill_finish; try done.
    unfold obj_image. rewrite Hk. by exists es'.
  - destruct H as (-> & p & Hp & Hacc). split; [done|]. apply elem_of_pairs in Hp as [H1 H2].
    destruct Hacc; (eapply reaches_child; [done| |done]); unfold copied; by rewrite Hk.
Qed.

Lemma set_ok vs : o_kind o = ISet vs ->
  clone_ok h st (Ref l) (let* st' := clone_items (cloneValue fuel) (length (cells st)) (alloc st l (bare (ISet []))) vs in
                         Ok (st', Ref (length (cells st)))).
Proof.
  intros Hk. destruct Hwf as (Hch & _ & Hnd). rewrite Hk in Hnd. unfold children in Hch. rewrite Hk in Hch.
  pose proof (clone_items_ok h fuel l _ _ (alloc_seen _) source_length IH (alloc_enough (bare (ISet []))) vs _ [] []
    (fill_start _ _ _ _ (bare (ISet [])) G Hn Hl Hfun ltac:(by intros ?)) (Forall2_nil_2 _ _ _) Hnd Hch) as H.
  destruct (clone_items _ _ _ _) as [st2|e].
  - destruct H as (es' & Hfill & _ & HF). eapply fill_finish; try done.
    unfold obj_image. rewrite Hk. by exists es'.
  - destruct H as (-> & v & Hv & Hacc). split; [done|].
    eapply reaches_child; [done| |done]. unfold copied. by rewrite Hk.
Qed.

(** Arrays and plain objects; [finish] sets the [length] of an array. *)
Lemma props_ok k finish :
  match o_kind o with IArray _ _ | IPlain _ => True | _ => False end ->
  (forall bytes, k <> IUint8Array bytes) ->
  (forall ps, finish {| o_kind := k; o_props := ps |} = {| o_kind := o_kind o; o_props := ps |}) ->
  clone_ok h st (Ref l)
    (let* st' := cloneDataProperties (cloneValue fuel) (length (cells st)) (alloc st l (bare k)) (o_props o) in
     Ok (update (length (cells st)) finish st', Ref (length (cells st)))).
Proof.
  intros Hcase Hbytes Hfinish. destruct Hwf as (Hch & Hnd & _). apply children_copied in Hch.
  assert (copied o = omap (fun p => data_value p.2) (o_props o)) as Hc by (unfold copied; by destruct (o_kind o)).
  rewrite Hc in Hch.
  pose proof (cloneDataProperties_ok h fuel l _ _ (alloc_seen _) source_length IH (alloc_enough (bare k)) k (o_props o) _ [] []
    Hbytes (fill_start _ _ _ _ (bare k) G Hn Hl Hfun Hbytes) (Forall2_nil_2 _ _ _) Hnd Hch) as H.
  destruct (cloneDataProperties _ _ _ _) as [st2|e].
  - destruct H as (ps' & Hfill & _ & HF).
    assert (fillable {| o_kind := o_kind o; o_props := ps' |}) as Hfo by (intros bytes; simpl; by destruct (o_kind o)).
    rewrite <- (Hfinish ps') in Hfo.
    apply (fill_update _ _ _ _ (alloc_seen _) source_length _ _ finish) in Hfill; [|done].
    rewrite Hfinish in Hfill. eapply fill_finish; try done.
    unfold obj_image. simpl. by destruct (o_kind o).
  - destruct H as (-> & [[key Hacc]|(v & Hv & Hacc)]); (split; [done|]).
    + exists l, l. split; [done|]. split; [apply rtc_refl|]. by exists o, key.
    + eapply reaches_child; [done| |done]. by rewrite Hc.
Qed.
End recursion.

Lemma cloneValue_ok h fuel : heap_wf h -> forall st v,
  good h st -> enough h (size (dom (seen st))) fuel -> val_in h v -> clone_ok h st v (cloneValue fuel st v).
Proof.
  intros Hwf. induction fuel as [|fuel IH]; intros st v G Hf Hv; destruct v as [p|l]; simpl in Hv;
    try by (simpl; split; [done|]; split; [apply ext_refl|]; split; [apply completed_refl|]).
  { assert (inside h (dom (seen st))) as Hin.
    { intros x [r Hr]%elem_of_dom. by apply (good_range _ _ G) in Hr as (? & _). }
    apply size_below in Hin. unfold enough in Hf. lia. }
  cbn [cloneValue]. destruct (seen st !! l) as [r|] eqn:Hn.
  { split; [done|]. split; [apply ext_refl|]. split; [apply completed_refl|]. simpl.
    pose proof (good_range _ _ G _ _ Hn) as (_ & -> & _). by exists r. }
  destruct (h !! l) as [o|] eqn:Hl; [|apply lookup_ge_None in Hl; lia].
  rewrite (prefix_lookup_Some _ _ _ _ Hl (good_prefix _ _ G)).
  pose proof (heap_wf_lookup _ _ _ Hwf Hl) as Ho.
  destruct (is_function h l) eqn:Hfun.
  { unfold is_function in Hfun. rewrite Hl in Hfun. simpl in Hfun. destruct (o_kind o) eqn:Hk; try done.
    split; [done|]. split; [apply ext_refl|]. split; [apply completed_refl|]. simpl. unfold is_function. rewrite Hl. simpl. by rewrite Hk. }
  destruct (o_kind o) eqn:Hk.
  - destruct Ho as (_ & _ & Hb). rewrite Hk in Hb. destruct Hb as [Hb Hver]. unfold new_Secret. rewrite Hver. simpl.
    eapply (secret_ok _ _ _ _ _ (fun b => ISecret b m)); try done. intros b' Hb'. unfold obj_image. rewrite Hk. by exists b'.
  - destruct Ho as (_ & _ & Hb). rewrite Hk in Hb. unfold new_ReleaseSecret.
    eapply (secret_ok _ _ _ _ _ (fun b => IReleaseSecret b entry)); try done. intros b' Hb'. unfold obj_image. rewrite Hk. by exists b'.
  - eapply leaf_ok; try done; [by rewrite lookup_app_r, Nat.sub_diag by lia|]. unfold obj_image. by rewrite Hk.
  - eapply leaf_ok; try done; [by rewrite lookup_app_r, Nat.sub_diag by lia|]. unfold obj_image. by rewrite Hk.
  - eapply leaf_ok; try done; [by rewrite lookup_app_r, Nat.sub_diag by lia|]. unfold obj_image. by rewrite Hk.
  - by eapply map_ok.
  - by eapply set_ok.
  - eapply props_ok; try done; by rewrite Hk.
  - unfold is_function in Hfun. rewrite Hl in Hfun. simpl in Hfun. by rewrite Hk in Hfun.
  - pose proof (props_ok h fuel st l o IH G Hn Hl Hfun Ho Hf (IPlain proto) id) as H. rewrite Hk in H.
    specialize (H I ltac:(done) ltac:(done)).
    destruct (cloneDataProperties _ _ _ _) as [st2|]; [|done].
    enough (update (length (cells st)) id st2 = st2) as E by (by rewrite E in H).
    destruct st2 as [c s]. unfold update. simpl. f_equal. apply list_eq. intros i. rewrite list_lookup_alter. case_decide; subst; [by destruct (c !! _)|done].
Qed.

(** ** The result *)

(** A finished copy, with the correspondence it has built. *)
Record copy_of (h : heap) (v : jsval) (h' : heap) (v' : jsval) (s : gmap loc loc) : Prop := {
  copy_prefix : h `prefix_of` h';
  copy_inj : injective s;
  copy_value : val_image h s v v';
  copy_objects : forall l r, s !! l = Some r -> (length h <= r)%nat /\
    exists o o', h !! l = Some o /\ h' !! r = Some o' /\ obj_image h s h' o o'
}.

Lemma cloneConfig_spec h v : heap_wf h -> val_in h v ->
  match cloneConfig h v with
  | Ok (h', v') => exists s, copy_of h v h' v' s
  | Throw e => e = AccessorProperty /\ reaches_accessor h v
  end.
Proof.
  intros Hwf Hv. unfold cloneConfig.
  assert (good h {| cells := h; seen := ∅ |}) as G by (split; simpl; [done|..]; by intros ???*).
  assert (enough h (size (dom (∅ : gmap loc loc))) (clone_fuel h)) as Hf by (unfold enough, clone_fuel; lia).
  pose proof (cloneValue_ok h (clone_fuel h) Hwf _ v G Hf Hv) as H.
  destruct (cloneValue _ _ _) as [[st v']|]; [|done]. destruct H as (G' & E & C & I).
  exists (seen st). split; [apply E|apply G'|done|]. intros l r Hl.
  split; [by apply (good_range _ _ G') in Hl as (_ & _ & [? _])|]. by apply C.
Qed.

Lemma prop_image_Data h s ps ps' k d :
  Forall2 (prop_image h s) ps ps' -> (k, d) ∈ ps -> exists v fl, d = Data v fl.
Proof.
  induction 1 as [|p p' ps ps' (_ & v & v' & fl & Hp & _) _ IH]; [set_solver|].
  rewrite elem_of_cons. intros [<-|Hin]; [by exists v, fl|by apply IH].
Qed.

(** What the copy of an object refers to is the image of what the object
    refers to, in both directions. *)
Lemma image_omap h s ps ps' : Forall2 (prop_image h s) ps ps' ->
  Forall2 (val_image h s) (omap (fun p => data_value p.2) ps) (omap (fun p => data_value p.2) ps').
Proof.
  induction 1 as [|[k d] [k' d'] ps ps' (_ & v & v' & fl & Hp & Hp' & Hi) _ IH]; simpl in *; [done|].
  subst. simpl. by constructor.
Qed.

Lemma image_copied h s h' o o' : obj_image h s h' o o' -> Forall2 (val_image h s) (copied o) (copied o').
Proof.
  unfold obj_image, copied. destruct (o_kind o) as [| | | | |es|vs| | |] eqn:Hk.
  - by intros (b' & -> & _).
  - by intros (b' & -> & _).
  - by intros ->.
  - by intros ->.
  - by intros ->.
  - intros (es' & -> & HF). simpl. clear Hk. induction HF as [|? ? ? ? [] _ IH]; simpl; [done|]. by repeat constructor.
  - by intros (vs' & -> & HF).
  - intros [-> HF]. by apply image_omap.
  - done.
  - intros [-> HF]. by apply image_omap.
Qed.

Definition has_image (h : heap) (s : gmap loc loc) (l : loc) : Prop :=
  is_function h l = true \/ exists r, s !! l = Some r.

Lemma val_image_has h s l v' : val_image h s (Ref l) v' -> has_image h s l.
Proof. unfold has_image. simpl. destruct (is_function h l); [by left|]. intros (r & ? & _). right. by exists r. Qed.

Lemma copied_function h l o : h !! l = Some o -> is_function h l = true -> copied o = [].
Proof. unfold is_function, copied. intros ->. simpl. by destruct (o_kind o). Qed.

(** Everything the copy visits has an image. *)
Lemma copy_reach h v h' v' s l l' :
  copy_of h v h' v' s -> has_image h s l -> rtc (copies h) l l' -> has_image h s l'.
Proof.
  intros C H Hr. induction Hr as [|x y z (o & Ho & Hy) _ IH]; [done|]. apply IH.
  destruct H as [Hf|[r Hxr]]; [rewrite (copied_function _ _ _ Ho Hf) in Hy; set_solver|].
  destruct (copy_objects _ _ _ _ _ C _ _ Hxr) as (_ & o1 & o' & Ho1 & _ & Hi). simplify_eq.
  apply image_copied in Hi. destruct (Forall2_elem_l _ _ _ _ Hi Hy) as (y' & _ & Hy'). by eapply val_image_has.
Qed.

Lemma copy_no_accessor h v h' v' s : copy_of h v h' v' s -> ~ reaches_accessor h v.
Proof.
  intros C (l & l' & -> & Hr & (o & k & Ho & Hacc & Hk)).
  assert (has_image h s l') as [Hf|[r Hlr]].
  { eapply copy_reach; [done|eapply val_image_has, C|done]. }
  - unfold is_function in Hf. rewrite Ho in Hf. simpl in Hf. by destruct (o_kind o).
  - destruct (copy_objects _ _ _ _ _ C _ _ Hlr) as (_ & o1 & o' & Ho1 & _ & Hi). assert (o1 = o) as -> by congruence.
    unfold obj_image in Hi.
    assert (Forall2 (prop_image h s) (o_props o) (o_props o')) as HF by (destruct (o_kind o); naive_solver).
    by destruct (prop_image_Data _ _ _ _ _ _ HF Hacc) as (? & ? & ?).
Qed.

(** C8: a copy is the same graph, made of new objects. On every heap the copy
    either fails, exactly when an array or plain object with an accessor
    property is reachable, or succeeds, leaves the original heap as it was,
    and relates each original object it met to one new object of the same
    kind and content whose references are the copies of the original's, so
    that sharing and cycles are kept and distinct objects stay distinct. *)
Theorem clone_isomorphic h v : heap_wf h -> val_in h v ->
  (reaches_accessor h v <-> cloneConfig h v = Throw AccessorProperty) /\
  (~ reaches_accessor h v -> exists h' v' s, cloneConfig h v = Ok (h', v') /\
     h `prefix_of` h' /\ val_image h s v v' /\
     (forall l1 l2 r, s !! l1 = Some r -> s !! l2 = Some r -> l1 = l2) /\
     forall l r, s !! l = Some r -> (length h <= r)%nat /\
       exists o o', h !! l = Some o /\ h' !! r = Some o' /\ obj_image h s h' o o').
Proof.
  intros Hwf Hv. pose proof (cloneConfig_spec h v Hwf Hv) as H.
  destruct (cloneConfig h v) as [[h' v']|e].
  - destruct H as (s & C). pose proof (copy_no_accessor _ _ _ _ _ C) as Hno. split; [by split|].
    intros _. exists h', v', s. split; [done|]. destruct C. done.
  - destruct H as [-> Ha]. by split.
Qed.

(** ** Isolation *)

(** The object holding the plaintext of a secret. *)
Definition backing_of (o : obj) : option loc :=
  match o_kind o with ISecret b _ | IReleaseSecret b _ => Some b | _ => None end.

(** What can be changed through an object: its entries, items and properties,
    and the plaintext bytes of a secret. The metadata of a release secret is
    frozen and is shared. *)
Definition owns (h : heap) (l l' : loc) : Prop :=
  copies h l l' \/ exists o, h !! l = Some o /\ backing_of o = Some l'.

Definition fresh_or_function (h : heap) (h' : heap) (s : gmap loc loc) (x : loc) : Prop :=
  (is_function h x = true \/ exists l, s !! l = Some x) \/
  ((length h <= x)%nat /\ exists bytes, h' !! x = Some (bare (IUint8Array bytes))).

Lemma owns_step h v h' v' s x y : copy_of h v h' v' s ->
  fresh_or_function h h' s x -> owns h' x y -> fresh_or_function h h' s y.
Proof.
  intros C [[Hf|[l Hl]]|[_ [bytes Hx]]] Ho.
  - assert (exists o, h' !! x = Some o /\ o_kind o = IFunction) as (o & Hx & Hk).
    { unfold is_function in Hf. destruct (h !! x) as [o|] eqn:Hx; simpl in Hf; [|done]. exists o.
      split; [by eapply prefix_lookup_Some; [|apply C]|]. by destruct (o_kind o). }
    destruct Ho as [(o1 & H1 & Hc)|(o1 & H1 & Hb)]; simplify_eq.
    + unfold copied in Hc. rewrite Hk in Hc. set_solver.
    + unfold backing_of in Hb. by rewrite Hk in Hb.
  - destruct (copy_objects _ _ _ _ _ C _ _ Hl) as (_ & o & o' & Hol & Hx & Hi).
    destruct Ho as [(o1 & H1 & Hc)|(o1 & H1 & Hb)]; (assert (o1 = o') as -> by congruence).
    + destruct (Forall2_elem_r _ _ _ _ (image_copied _ _ _ _ _ Hi) Hc) as ([p|l2] & _ & Hv); simpl in Hv; [done|].
      left. destruct (is_function h l2) eqn:Hf2; simplify_eq; [by left|]. destruct Hv as (r & ? & ?). simplify_eq. right. by exists l2.
    + right. unfold obj_image in Hi. unfold backing_of in Hb.
      destruct (o_kind o) eqn:Hk; try (by subst o'); try done;
        try (destruct Hi as [Hi _]; by rewrite Hi in Hb);
        destruct Hi as (b' & -> & Hi); simpl in Hb; simplify_eq; destruct Hi as [? ?]; split; try done; by eexists.
  - destruct Ho as [(o1 & H1 & Hc)|(o1 & H1 & Hb)]; simplify_eq. simpl in Hc. set_solver.
Qed.

Lemma owns_reach h v h' v' s x y : copy_of h v h' v' s ->
  fresh_or_function h h' s x -> rtc (owns h') x y -> fresh_or_function h h' s y.
Proof. intros C H Hr. induction Hr as [|a b c Hab _ IH]; [done|]. apply IH. by eapply owns_step. Qed.

(** Copies are isolated. Nothing reachable from a copy through entries,
    items, properties or the plaintext of a secret existed before, functions
    excepted, which have no state of their own here: no change made through
    the copy is visible through the original, and plaintext is never shared. *)
Theorem clone_isolated h v h' r x : heap_wf h -> val_in h v ->
  cloneConfig h v = Ok (h', Ref r) -> rtc (owns h') r x ->
  (length h <= x)%nat \/ is_function h x = true.
Proof.
  intros Hwf Hv Hc Hr. pose proof (cloneConfig_spec h v Hwf Hv) as H. rewrite Hc in H. destruct H as [s C].
  assert (fresh_or_function h h' s r) as H0.
  { left. pose proof (copy_value _ _ _ _ _ C) as H. destruct v as [p|l]; simpl in H; [done|].
    destruct (is_function h l) eqn:Hf; simplify_eq; [by left|]. destruct H as (y & ? & ?). simplify_eq. right. by exists l. }
  assert (fresh_or_function h h' s x) as [[?|[l Hl]]|[? _]]; [|by right| |by left].
  - by eapply owns_reach.
  - left. by destruct (copy_objects _ _ _ _ _ C _ _ Hl).
Qed.

(** The search for secrets is exact and always answers: it says yes
    exactly when a secret is reachable through map keys and values, set items
    or data properties, however the graph is shared or cyclic. *)
Theorem containsSecret_exact h v : heap_wf h -> val_in h v ->
  exists b, containsSecret h v = Ok b /\ (b = true <-> reaches_secret h v).
Proof. apply containsSecret_spec. Qed.

(** ** Examples *)

Definition plain_flags : flags := {| writable := true; enumerable := true; configurable := true |}.
Definition prop (name : String.string) (v : jsval) : propkey * descriptor := (StringKey (js name), Data v plain_flags).
Definition demo_meta : SecretMeta :=
  {| s_path := js "/prod/app/db"; s_version := 3; s_contentType := js "text/plain"; s_bindKey := [] |}.

(** An object with a secret, a map whose key is the object itself, and the
    same byte array twice. *)
Definition demo_heap : heap :=
  [ {| o_kind := IPlain None; o_props := [prop "password" (Ref 1); prop "index" (Ref 3); prop "left" (Ref 4); prop "right" (Ref 4)] |};
    {| o_kind := ISecret 2 demo_meta; o_props := [] |};
    {| o_kind := IUint8Array [104; 105]; o_props := [] |};
    {| o_kind := IMap [(Ref 0, Prim (Text (js "root")))]; o_props := [] |};
    {| o_kind := IUint8Array [1; 2]; o_props := [] |} ].

Lemma demo_heap_wf : heap_wf demo_heap.
Proof.
  repeat constructor; try (simpl; lia); try (by vm_compute); simpl; try set_solver.
Qed.

Lemma clone_isomorphic_witness : exists h' r, cloneConfig demo_heap (Ref 0) = Ok (h', Ref r) /\ (5 <= r)%nat /\
  ~ reaches_accessor demo_heap (Ref 0).
Proof.
  pose proof (clone_isomorphic demo_heap (Ref 0) demo_heap_wf ltac:(simpl; lia)) as [H _].
  eexists _, _. split; [vm_compute; reflexivity|]. split; [lia|]. rewrite H. by vm_compute.
Defined.

Lemma clone_isolated_witness : exists h', cloneConfig demo_heap (Ref 0) = Ok (h', Ref 5) /\
  rtc (owns h') 5%nat 7%nat /\ ((5 <= 7)%nat \/ is_function demo_heap 7 = true).
Proof.
  eexists. split; [vm_compute; reflexivity|].
  match goal with |- ?R /\ _ => assert R as Hr end.
  { eapply rtc_l; [|apply rtc_refl]. left. eexists. split; [vm_compute; reflexivity|]. simpl. left. }
  split; [exact Hr|].
  exact (clone_isolated demo_heap (Ref 0) _ 5 7 demo_heap_wf ltac:(simpl; lia) eq_refl Hr).
Defined.

Lemma containsSecret_exact_witness :
  containsSecret demo_heap (Ref 0) = Ok true /\ reaches_secret demo_heap (Ref 0).
Proof.
  destruct (containsSecret_exact demo_heap (Ref 0) demo_heap_wf ltac:(simpl; lia)) as (b & Hb & Hiff).
  assert (b = true) as -> by (vm_compute in Hb; congruence). split; [exact Hb|]. by apply Hiff.
Defined.

(** ** Copies keep the heap well formed *)

Lemma val_in_mono h h' v : (length h <= length h')%nat -> val_in h v -> val_in h' v.
Proof. destruct v; simpl; [done|lia]. Qed.

Lemma obj_wf_mono h h' o : (length h <= length h')%nat -> obj_wf h o -> obj_wf h' o.
Proof.
  intros Hl (H1 & H2 & H3). split; [eapply Forall_impl; eauto using val_in_mono|]. split; [done|].
  destruct (o_kind o); try done; [|lia]. destruct H3. split; [lia|done].
Qed.

Record store_wf (st : store) : Prop := {
  sw_cells : heap_wf (cells st);
  sw_seen : forall l r, seen st !! l = Some r -> (r < length (cells st))%nat
}.

(** [st'] comes later than [st] and is well formed. *)
Definition later (st st' : store) : Prop := store_wf st' /\ (length (cells st) <= length (cells st'))%nat.

Lemma later_trans s1 s2 s3 : later s1 s2 -> later s2 s3 -> later s1 s3.
Proof. intros [_ ?] [? ?]. split; [done|lia]. Qed.

Lemma grow_wf st l news r :
  store_wf st -> Forall (obj_wf (cells st ++ news)) news -> (r < length (cells st) + length news)%nat ->
  later st {| cells := cells st ++ news; seen := <[l := r]> (seen st) |}.
Proof.
  intros [W1 W2] Hn Hr. split; [split; simpl|simpl; rewrite length_app; lia].
  - apply Forall_app. split; [|done]. eapply Forall_impl; [done|]. intros o. apply obj_wf_mono. rewrite length_app. lia.
  - intros l' r'. rewrite length_app, lookup_insert_Some. intros [[_ <-]|[_ H]]; [lia|]. apply W2 in H. lia.
Qed.

Lemma update_wf r g st : store_wf st -> (forall o, obj_wf (cells st) o -> obj_wf (cells st) (g o)) -> later st (update r g st).
Proof.
  intros [W1 W2] Hg. split; [split; simpl|simpl; by rewrite length_alter].
  - assert (forall o, obj_wf (cells st) o -> obj_wf (alter g r (cells st)) o) as Hm.
    { intros o. apply obj_wf_mono. by rewrite length_alter. }
    apply Forall_alter; [eapply Forall_impl; eauto|]. intros o _ Ho.
    apply Hm, Hg. eapply obj_wf_mono; [|done]. by rewrite length_alter.
  - intros l' r'. rewrite length_alter. apply W2.
Qed.

Section wf_loops.
Context (fuel : nat) (r : loc).
Context (IH : forall st v st' v', store_wf st -> val_in (cells st) v -> cloneValue fuel st v = Ok (st', v') ->
  later st st' /\ val_in (cells st') v').

Lemma put_item_wf h v o : val_in h v -> obj_wf h o -> obj_wf h (put_item v o).
Proof.
  unfold put_item, obj_wf, children. intros Hv (H1 & H2 & H3). destruct (o_kind o) eqn:Hk; simpl; rewrite ?Hk; try done.
  split; [|by split; [|apply set_add_NoDup]]. unfold set_add. case_decide; [done|]. apply Forall_app. by split; [|constructor].
Qed.

Lemma put_entry_wf h k v o : val_in h k -> val_in h v -> obj_wf h o -> obj_wf h (put_entry k v o).
Proof.
  unfold put_entry, obj_wf, children. intros Hkey Hv (H1 & H2 & H3). destruct (o_kind o) as [| | | | |es| | | |] eqn:Hk; simpl; rewrite ?Hk; try done.
  split; [|by split; [|apply map_set_wf]]. clear Hk H3. induction es as [|[k2 v2] es IHes]; simpl in *; [by repeat constructor|].
  case_decide; simpl; inversion H1 as [|? ? ? H1']; inversion H1'; subst; repeat constructor; auto.
Qed.

Lemma omap_map_set (ps : properties) k v fl (P : jsval -> Prop) : P v ->
  Forall P (omap (fun p => data_value p.2) ps) -> Forall P (omap (fun p => data_value p.2) (map_set k (Data v fl) ps)).
Proof.
  intros Hv. induction ps as [|[k2 d2] ps IHps]; simpl; [by repeat constructor|]. intros H.
  case_decide; simpl; [|destruct d2; simpl in *; [inversion H; subst; constructor; auto|auto]].
  constructor; [done|]. destruct d2; simpl in H; [by inversion H|done].
Qed.

Lemma define_property_wf h k v fl o : val_in h v -> obj_wf h o -> obj_wf h (define_property k (Data v fl) o).
Proof.
  intros Hv (H1 & H2 & H3). split; [|split; [by apply map_set_wf|done]].
  unfold children, define_property in *. simpl. destruct (o_kind o); try done; try by apply omap_map_set.
  - apply Forall_app in H1 as [? ?]. apply Forall_app. split; [done|]. by apply omap_map_set.
  - apply Forall_app in H1 as [? ?]. apply Forall_app. split; [done|]. by apply omap_map_set.
  - inversion H1; subst. constructor; [done|]. by apply omap_map_set.
Qed.

Lemma clone_items_wf vs : forall st st', store_wf st -> Forall (val_in (cells st)) vs ->
  clone_items (cloneValue fuel) r st vs = Ok st' -> later st st'.
Proof.
  induction vs as [|v vs IHvs]; intros st st' W Hv; simpl; [by intros [= <-]|].
  inversion Hv as [|? ? Hv1 Hvs]; subst. destruct (cloneValue fuel st v) as [[st1 v1]|] eqn:E; [|done].
  apply IH in E as [L1 Hv1']; [|done|done]. intros H.
  pose proof (update_wf r (put_item v1) st1 (proj1 L1) (fun o => put_item_wf _ _ o Hv1')) as L2.
  eapply later_trans; [|eapply IHvs; [apply L2| |exact H]]; [by eapply later_trans|].
  eapply Forall_impl; [done|]. intros w. apply val_in_mono. destruct L1, L2. lia.
Qed.

Lemma clone_entries_wf es : forall st st', store_wf st -> Forall (val_in (cells st)) (flat_map (fun p => [p.1; p.2]) es) ->
  clone_entries (cloneValue fuel) r st es = Ok st' -> later st st'.
Proof.
  induction es as [|[k v] es IHes]; intros st st' W Hv; simpl; [by intros [= <-]|].
  simpl in Hv. inversion Hv as [|? ? Hk1 Hv']; subst. inversion Hv' as [|? ? Hv1 Hvs]; subst.
  destruct (cloneValue fuel st k) as [[st1 k1]|] eqn:E; [|done]. apply IH in E as [L1 Hk1']; [|done|done].
  destruct (cloneValue fuel st1 v) as [[st2 v1]|] eqn:E; [|done].
  apply IH in E as [L2 Hv1']; [|apply L1|eapply val_in_mono; [apply L1|done]].
  apply (val_in_mono _ (cells st2)) in Hk1'; [|apply L2]. intros H.
  pose proof (update_wf r (put_entry k1 v1) st2 (proj1 L2) (fun o => put_entry_wf _ _ _ o Hk1' Hv1')) as L3.
  eapply later_trans; [|eapply IHes; [apply L3| |exact H]]; [by eapply later_trans; [eapply later_trans|]|].
  eapply Forall_impl; [done|]. intros w. apply val_in_mono. destruct L1, L2, L3. lia.
Qed.

Lemma cloneDataProperties_wf ps : forall st st', store_wf st ->
  Forall (val_in (cells st)) (omap (fun p => data_value p.2) ps) ->
  cloneDataProperties (cloneValue fuel) r st ps = Ok st' -> later st st'.
Proof.
  induction ps as [|[k [v fl|]] ps IHps]; intros st st' W Hv; simpl; [by intros [= <-]| |done].
  simpl in Hv. inversion Hv as [|? ? Hv1 Hvs]; subst. destruct (cloneValue fuel st v) as [[st1 v1]|] eqn:E; [|done].
  apply IH in E as [L1 Hv1']; [|done|done]. intros H.
  pose proof (update_wf r _ st1 (proj1 L1) (fun o => define_property_wf _ k _ fl o Hv1')) as L2.
  eapply later_trans; [|eapply IHps; [apply L2| |exact H]]; [by eapply later_trans|].
  eapply Forall_impl; [done|]. intros w. apply val_in_mono. destruct L1, L2. lia.
Qed.
End wf_loops.

Lemma bare_wf h k : Forall (val_in h) (children (bare k)) ->
  match k with
  | ISecret b m => (b < length h)%nat /\ is_uint64 (s_version m) = true
  | IReleaseSecret b _ => (b < length h)%nat
  | IMap es => NoDup es.*1
  | ISet vs => NoDup vs
  | _ => True
  end -> obj_wf h (bare k).
Proof. intros H1 H2. split; [done|]. split; [constructor|done]. Qed.

Lemma bytes_wf h bytes : obj_wf h (bare (IUint8Array bytes)).
Proof.
  apply bare_wf; [|done]. unfold children. simpl. rewrite app_nil_r. by induction bytes; constructor.
Qed.

Lemma alloc_wf st l k : store_wf st -> obj_wf (cells st ++ [bare k]) (bare k) -> later st (alloc st l (bare k)).
Proof. intros W Hk. apply grow_wf; [done|by constructor|simpl; lia]. Qed.

Lemma alloc_in st l k : val_in (cells (alloc st l (bare k))) (Ref (length (cells st))).
Proof. simpl. rewrite length_app. simpl. lia. Qed.

Lemma cloneValue_wf fuel : forall st v st' v', store_wf st -> val_in (cells st) v ->
  cloneValue fuel st v = Ok (st', v') -> later st st' /\ val_in (cells st') v'.
Proof.
  induction fuel as [|fuel IH]; intros st v st' v' W Hv; destruct v as [p|l]; simpl; try done;
    try by (intros [= <- <-]).
  destruct (seen st !! l) as [r|] eqn:Hn; [intros [= <- <-]; split; [done|by eapply sw_seen]|].
  destruct (cells st !! l) as [o|] eqn:Hl; [|done].
  destruct (heap_wf_lookup _ _ _ (sw_cells _ W) Hl) as (Hch & _ & Hkind).
  assert (forall k, Forall (val_in (cells (alloc st l (bare k)))) (copied o)) as Hcop.
  { intros k. eapply Forall_impl; [by apply children_copied|]. intros w. apply val_in_mono. simpl. rewrite length_app. lia. }
  unfold copied in Hcop.
  destruct (o_kind o) as [b m|b e|bytes|bytes|time|es|vs|len w| |proto] eqn:Hk.
  - destruct Hkind as [Hb Hver]. unfold new_Secret. rewrite Hver. simpl. intros [= <- <-]. split.
    + apply grow_wf; [done| |simpl; lia]. repeat constructor; simpl; try done; try apply bytes_wf; rewrite ?length_app; simpl; try lia.
    + simpl. rewrite length_app. simpl. lia.
  - unfold new_ReleaseSecret. intros [= <- <-]. split.
    + apply grow_wf; [done| |simpl; lia]. repeat constructor; simpl; try done; try apply bytes_wf; rewrite ?length_app; simpl; try lia.
    + simpl. rewrite length_app. simpl. lia.
  - intros [= <- <-]. split; [|apply alloc_in]. apply alloc_wf; [done|]. apply (bytes_wf _ bytes).
  - intros [= <- <-]. split; [|apply alloc_in]. apply alloc_wf; [done|]. apply bytes_wf.
  - intros [= <- <-]. split; [|apply alloc_in]. apply alloc_wf; [done|]. by apply bare_wf.
  - pose proof (alloc_wf st l (IMap []) W (bare_wf _ (IMap []) (Forall_nil_2 _) (NoDup_nil_2))) as L1.
    destruct (clone_entries _ _ _ _) as [st2|] eqn:E; [|done]. intros [= <- <-].
    apply (clone_entries_wf _ _ IH) in E; [|apply L1|apply Hcop].
    split; [by eapply later_trans|]. eapply val_in_mono; [apply E|apply alloc_in].
  - pose proof (alloc_wf st l (ISet []) W (bare_wf _ (ISet []) (Forall_nil_2 _) (NoDup_nil_2))) as L1.
    destruct (clone_items _ _ _ _) as [st2|] eqn:E; [|done]. intros [= <- <-].
    apply (clone_items_wf _ _ IH) in E; [|apply L1|apply Hcop].
    split; [by eapply later_trans|]. eapply val_in_mono; [apply E|apply alloc_in].
  - assert (obj_wf (cells st ++ [bare (IArray len true)]) (bare (IArray len true))) as Hb by (apply bare_wf; [by repeat constructor|done]).
    pose proof (alloc_wf st l (IArray len true) W Hb) as L1.
    destruct (cloneDataProperties _ _ _ _) as [st2|] eqn:E; [|done]. intros [= <- <-].
    apply (cloneDataProperties_wf _ _ IH) in E; [|apply L1|apply Hcop].
    assert (later st2 (update (length (cells st)) (define_length len w) st2)) as L2.
    { apply update_wf; [apply E|]. intros x (H1 & H2 & H3). unfold define_length, obj_wf, children in *.
      destruct (o_kind x) eqn:Hx; simpl; rewrite ?Hx; try done. by inversion H1; subst; repeat constructor. }
    split; [eapply later_trans; [by eapply later_trans|done]|].
    eapply val_in_mono; [apply L2|]. eapply val_in_mono; [apply E|apply alloc_in].
  - intros [= <- <-]. done.
  - pose proof (alloc_wf st l (IPlain proto) W (bare_wf _ (IPlain proto) (Forall_nil_2 _) I)) as L1.
    destruct (cloneDataProperties _ _ _ _) as [st2|] eqn:E; [|done]. intros [= <- <-].
    apply (cloneDataProperties_wf _ _ IH) in E; [|apply L1|apply Hcop].
    split; [by eapply later_trans|]. eapply val_in_mono; [apply E|apply alloc_in].
Qed.

Lemma cloneConfig_wf h v h' v' : heap_wf h -> val_in h v -> cloneConfig h v = Ok (h', v') ->
  heap_wf h' /\ (length h <= length h')%nat /\ val_in h' v'.
Proof.
  unfold cloneConfig. intros Hwf Hv. destruct (cloneValue _ _ _) as [[st w]|] eqn:E; [|done]. intros [= <- <-].
  apply cloneValue_wf in E as [[[W1 _] L] Hw]; [done| |done]. split; [done|]. simpl. by intros ???*.
Qed.

(** ** Secrets and copies *)

Lemma visits_prefix h h' l l' : h `prefix_of` h' -> (l < length h)%nat -> visits h' l l' -> visits h l l'.
Proof.
  intros Hp Hl (o & Ho & ?). exists o. split; [|done]. destruct (h !! l) as [o1|] eqn:E.
  - rewrite (prefix_lookup_Some _ _ _ _ E Hp) in Ho. congruence.
  - apply lookup_ge_None in E. lia.
Qed.

(** Later allocations do not change what is reachable from an older value. *)
Lemma reaches_secret_prefix h h' v :
  heap_wf h -> h `prefix_of` h' -> val_in h v -> reaches_secret h' v -> reaches_secret h v.
Proof.
  intros Hwf Hp Hv (l & l' & -> & Hr & (o & Ho & Hs)). simpl in Hv. exists l, l'. split; [done|].
  assert (rtc (visits h) l l' /\ (l' < length h)%nat) as [Hr' Hl'].
  { clear Ho Hs. induction Hr as [|x y z Hxy _ IH]; [split; [apply rtc_refl|done]|].
    apply (visits_prefix h) in Hxy; [|done|done]. assert (y < length h)%nat as Hy.
    { destruct Hxy as (ox & Hox & _ & Hc). apply (heap_wf_lookup _ _ _ Hwf) in Hox as [Hch _].
      rewrite Forall_forall in Hch. by apply (Hch (Ref y)). }
    destruct (IH Hy). split; [by eapply rtc_l|done]. }
  split; [done|]. exists o. split; [|done]. destruct (h !! l') as [o1|] eqn:E.
  - rewrite (prefix_lookup_Some _ _ _ _ E Hp) in Ho. congruence.
  - apply lookup_ge_None in E. lia.
Qed.

Lemma elem_of_numbers l (bytes : list Z) : Ref l ∉ map (fun b => Prim (Number b)) bytes.
Proof. induction bytes; simpl; set_solver. Qed.

Lemma image_refs h s h' o o' l' : obj_image h s h' o o' -> is_secret o = false ->
  Ref l' ∈ children o' -> exists l, Ref l ∈ children o /\ val_image h s (Ref l) (Ref l').
Proof.
  intros Hi Hs Hin.
  assert (Ref l' ∈ copied o') as Hc.
  { unfold obj_image, is_secret in *. destruct (o_kind o) eqn:Hk; try done; unfold children, copied in *.
    - subst o'. simpl in Hin. rewrite app_nil_r in Hin. by apply elem_of_numbers in Hin.
    - subst o'. simpl in Hin. rewrite app_nil_r in Hin. by apply elem_of_numbers in Hin.
    - by subst o'.
    - by destruct Hi as (es' & -> & _).
    - by destruct Hi as (vs' & -> & _).
    - destruct Hi as [Hk' _]. rewrite Hk' in *. by apply elem_of_cons in Hin as [?|?].
    - destruct Hi as [Hk' _]. by rewrite Hk' in *. }
  destruct (Forall2_elem_r _ _ _ _ (image_copied _ _ _ _ _ Hi) Hc) as ([p|l] & Hl & Hv); [done|].
  exists l. split; [|done]. unfold copied, children in *. destruct (o_kind o); try done; try set_solver.
Qed.

Lemma image_secret h s h' o o' : obj_image h s h' o o' -> is_secret o' = is_secret o.
Proof.
  unfold obj_image, is_secret. destruct (o_kind o) eqn:Hk; try done; try (by intros ->);
    try (by intros (? & -> & _)); by intros [-> _].
Qed.

Lemma visits_in h l l' : heap_wf h -> visits h l l' -> (l' < length h)%nat.
Proof.
  intros Hwf (o & Ho & _ & Hc). destruct (heap_wf_lookup _ _ _ Hwf Ho) as [Hch _].
  rewrite Forall_forall in Hch. by apply (Hch (Ref l')).
Qed.

(** The new object [z] stands for something reachable from [l0], or it is a
    shared function, or reachable through one. *)
Definition node (h : heap) (s : gmap loc loc) (l0 z : loc) : Prop :=
  (exists l, s !! l = Some z /\ rtc (visits h) l0 l) \/ ((z < length h)%nat /\ rtc (visits h) l0 z).

Lemma node_image h s l0 l z :
  (l < length h)%nat -> rtc (visits h) l0 l -> val_image h s (Ref l) (Ref z) -> node h s l0 z.
Proof.
  intros Hl Hr. simpl. destruct (is_function h l); [intros [= ->]; by right|].
  intros (r & Hs & [= ->]). left. by exists l.
Qed.

Lemma node_step h v h' v' s l0 x y :
  heap_wf h -> copy_of h v h' v' s -> node h s l0 x -> visits h' x y -> node h s l0 y.
Proof.
  intros Hwf C [(l & Hs & Hr)|[Hx Hr]] Hxy.
  - destruct (copy_objects _ _ _ _ _ C _ _ Hs) as (_ & o & o' & Ho & Ho' & Hi).
    destruct Hxy as (o1 & Ho1 & Hns & Hc). assert (o1 = o') as -> by congruence.
    rewrite (image_secret _ _ _ _ _ Hi) in Hns.
    destruct (image_refs _ _ _ _ _ _ Hi Hns Hc) as (l2 & Hl2 & Hv).
    assert (visits h l l2) as Hstep by (by exists o).
    eapply node_image; [by eapply visits_in|by eapply rtc_r|done].
  - apply (visits_prefix h) in Hxy; [|apply C|done]. right. split; [by eapply visits_in|by eapply rtc_r].
Qed.

Lemma node_reach h v h' v' s l0 x y :
  heap_wf h -> copy_of h v h' v' s -> node h s l0 x -> rtc (visits h') x y -> node h s l0 y.
Proof.
  intros Hwf C Hx Hr. induction Hr as [|a b c Hab _ IH]; [done|]. apply IH. by eapply node_step.
Qed.

(** The copy of a value without secrets has none. *)
Lemma copy_without_secret h v h' v' s :
  heap_wf h -> val_in h v -> copy_of h v h' v' s -> ~ reaches_secret h v -> ~ reaches_secret h' v'.
Proof.
  intros Hwf Hv C Hno (x & y & -> & Hr & (o & Ho & Hsec)). pose proof (copy_value _ _ _ _ _ C) as Hi.
  destruct v as [p|l0]; [done|].
  assert (node h s l0 x) as Hx by (eapply node_image; [exact Hv|apply rtc_refl|done]).
  apply Hno. destruct (node_reach _ _ _ _ _ _ _ _ Hwf C Hx Hr) as [(l & Hs & Hl)|[Hy Hl]].
  - destruct (copy_objects _ _ _ _ _ C _ _ Hs) as (_ & o1 & o' & Ho1 & Ho' & Him).
    assert (o' = o) as -> by congruence. exists l0, l. split; [done|]. split; [done|]. exists o1. split; [done|].
    by rewrite <- (image_secret _ _ _ _ _ Him).
  - exists l0, y. split; [done|]. split; [done|]. exists o. split; [|done].
    destruct (h !! y) as [o1|] eqn:E; [|apply lookup_ge_None in E; lia].
    rewrite (prefix_lookup_Some _ _ _ _ E (copy_prefix _ _ _ _ _ C)) in Ho. done.
Qed.

(** ** Prototypes *)

(** The prototype of a plain object, which its copy keeps. *)
Definition proto (h : heap) (l p : loc) : Prop := exists o, h !! l = Some o /\ o_kind o = IPlain (Some p).

(** Prototypes are objects of the heap. *)
Definition protos_in (h : heap) : Prop := forall l p, proto h l p -> (p < length h)%nat.

(** What leads from one object to another when properties are read, inherited
    ones included; the search for secrets follows [visits] only. *)
Definition links (h : heap) (l l' : loc) : Prop := visits h l l' \/ proto h l l'.

Definition exposes_secret (h : heap) (v : jsval) : Prop :=
  exists l l', v = Ref l /\ rtc (links h) l l' /\ holds_secret h l'.

(** The search reaches an object whose prototype exposes a secret. *)
Definition inherits_secret (h : heap) (v : jsval) : Prop :=
  exists l0 l p, v = Ref l0 /\ rtc (visits h) l0 l /\ proto h l p /\ exposes_secret h (Ref p).

Lemma lookup_old (h h' : heap) l : h `prefix_of` h' -> (l < length h)%nat -> h' !! l = h !! l.
Proof.
  intros Hp Hl. destruct (h !! l) eqn:E; [by eapply prefix_lookup_Some|]. apply lookup_ge_None in E. lia.
Qed.

Lemma proto_old h h' l p : h `prefix_of` h' -> (l < length h)%nat -> proto h' l p -> proto h l p.
Proof. intros Hp Hl. unfold proto. by rewrite (lookup_old h h'). Qed.

Lemma visits_rtc_in h l l' : heap_wf h -> (l < length h)%nat -> rtc (visits h) l l' -> (l' < length h)%nat.
Proof. intros Hwf Hl Hr. induction Hr as [|x y z Hxy _ IH]; [done|]. by apply IH, (visits_in h x). Qed.

(** A copy of a value of [h] that was made later, seen later still. *)
Section later_copy.
Context (h h0 h1 h' : heap) (l0 : loc) (v' : jsval) (s : gmap loc loc).
Context (Hwf : heap_wf h) (Hproto : protos_in h) (Hl0 : (l0 < length h)%nat).
Context (H0 : h `prefix_of` h0) (C : copy_of h0 (Ref l0) h1 v' s) (H1 : h1 `prefix_of` h').

Lemma old_new : h `prefix_of` h'.
Proof. etrans; [exact H0|]. etrans; [apply (copy_prefix _ _ _ _ _ C)|exact H1]. Qed.

(** The object [z] stands for one the search visits, is one, or is behind the
    prototype of one. *)
Inductive origin (z : loc) : Prop :=
| origin_copy l : rtc (visits h) l0 l -> s !! l = Some z -> origin z
| origin_shared : rtc (visits h) l0 z -> origin z
| origin_prototype l p : rtc (visits h) l0 l -> proto h l p -> rtc (links h) p z -> (z < length h)%nat -> origin z.

Lemma copy_lookup l z : rtc (visits h) l0 l -> s !! l = Some z ->
  exists o o', h !! l = Some o /\ h' !! z = Some o' /\ obj_image h0 s h1 o o'.
Proof.
  intros Hr Hs. apply visits_rtc_in in Hr; [|done..]. destruct (copy_objects _ _ _ _ _ C _ _ Hs) as (_ & o & o' & Ho & Ho' & Hi).
  exists o, o'. split; [by rewrite <- (lookup_old h h0)|]. split; [by eapply prefix_lookup_Some|done].
Qed.

Lemma origin_image l z : rtc (visits h) l0 l -> val_image h0 s (Ref l) (Ref z) -> origin z.
Proof.
  intros Hr. simpl. destruct (is_function h0 l); [intros [= ->]; by apply origin_shared|].
  intros (r & Hs & [= ->]). by eapply origin_copy.
Qed.

Lemma origin_step x y : origin x -> links h' x y -> origin y.
Proof.
  pose proof old_new as Hp. intros [l Hr Hs|Hr|l p Hr Hpr Hrp Hx] Hxy.
  - destruct (copy_lookup l x Hr Hs) as (o & o' & Ho & Ho' & Hi). destruct Hxy as [(o1 & Ho1 & Hns & Hc)|(o1 & Ho1 & Hk)];
      assert (o1 = o') as -> by congruence.
    + rewrite (image_secret _ _ _ _ _ Hi) in Hns. destruct (image_refs _ _ _ _ _ _ Hi Hns Hc) as (l2 & Hl2 & Hv).
      apply (origin_image l2); [|done]. eapply rtc_r; [exact Hr|by exists o].
    + assert (o_kind o = IPlain (Some y)) as Hko.
      { unfold obj_image in Hi. destruct (o_kind o) eqn:E; try done; try (by subst o'); try (by destruct Hi as (? & -> & _)); destruct Hi as [Hi _]; congruence. }
      assert (proto h l y) as Hly by by exists o. eapply origin_prototype; [exact Hr|exact Hly|apply rtc_refl|by eapply Hproto].
  - assert (x < length h)%nat as Hx by by eapply visits_rtc_in. destruct Hxy as [Hxy|Hxy].
    + apply origin_shared. eapply rtc_r; [exact Hr|by eapply visits_prefix].
    + apply (proto_old h) in Hxy; [|done|done]. eapply origin_prototype; [exact Hr|exact Hxy|apply rtc_refl|by eapply Hproto].
  - assert (links h x y) as Hl by (destruct Hxy; [left; by eapply visits_prefix|right; by eapply proto_old]).
    eapply origin_prototype; [exact Hr|exact Hpr|by eapply rtc_r|]. destruct Hl; [by eapply visits_in|by eapply Hproto].
Qed.

Lemma origin_reach x y : origin x -> rtc (links h') x y -> origin y.
Proof. intros Hx Hr. induction Hr as [|a b c Hab _ IH]; [done|]. by eapply IH, origin_step. Qed.

Lemma holds_old z : (z < length h)%nat -> holds_secret h' z -> holds_secret h z.
Proof. intros Hz. unfold holds_secret. by rewrite (lookup_old h h') by (done || apply old_new). Qed.

(** The copy exposes a secret only if the search found one, or through a
    prototype it did not look at. *)
Lemma copy_exposes : exposes_secret h' v' -> reaches_secret h (Ref l0) \/ inherits_secret h (Ref l0).
Proof.
  intros (x & y & Hv & Hr & Hy). pose proof (copy_value _ _ _ _ _ C) as Hi0. rewrite Hv in Hi0.
  assert (origin x) as Hx by (eapply origin_image; [apply rtc_refl|exact Hi0]).
  destruct (origin_reach x y Hx Hr) as [l Hl Hs|Hl|l p Hl Hpr Hrp Hin].
  - left. exists l0, l. split; [done|]. split; [done|]. destruct (copy_lookup l y Hl Hs) as (o & o' & Ho & Ho' & Hi).
    destruct Hy as (o1 & Ho1 & Hsec). assert (o1 = o') as -> by congruence. exists o. split; [done|].
    by rewrite <- (image_secret _ _ _ _ _ Hi).
  - left. exists l0, y. split; [done|]. split; [done|]. apply holds_old; [by eapply visits_rtc_in|done].
  - right. exists l0, l, p. split_and!; [done..|]. exists p, y. split; [done|]. split; [done|]. by apply holds_old.
Qed.
End later_copy.
