(* ===== verification/Reports.v ===== *)
(** * Reports: [configstore/errors.ts] and the identities of
    [configstore/snapshot.ts].

    Candidate errors with their sanitised paths, the reports handed to the
    application's callbacks, and the JSON form of their values. Report values
    are copied on the heap of [Clone], and replaced by a marker when the
    search for secrets finds one in them. *)
From stdpp Require Import prelude gmap list strings relations.
From Stdlib Require Import ZArith Lia.
From S2P Require Import Prelude JsString JsMap Unicode Decimal StrictJson DefaultsArtifact Codecs.
From S2P Require Import Errors Refs Release Clone CloneProofs.
Set Warnings "-register-all".

(** ** Release identities *)

(** [ReleaseIdentityInit]: every field may be missing. *)
Record IdentityInit := {
  n_namespace : option jstr;
  n_name : option jstr;
  n_version : option Z;
  n_activationRevision : option Z;
  n_targetRevision : option Z;
  n_schemaVersion : option Z;
  n_digest : option jstr
}.

Record ConfigIdentity := {
  c_namespace : jstr;
  c_name : jstr;
  c_version : Z;
  c_activationRevision : Z;
  c_targetRevision : Z;
  c_schemaVersion : Z;
  c_digest : jstr
}.

#[global] Instance ConfigIdentity_eq : EqDecision ConfigIdentity.
Proof. solve_decision. Defined.

(** [RangeError]s by the field they name. *)
Definition assertUint64 (v : Z) (field : jstr) : res jstr Z :=
  if is_uint64 v then Ok v
  else Throw (js "configstore: release identity " ++ field ++ js " must be in the uint64 range").

Definition new_ConfigIdentity (i : IdentityInit) : res jstr ConfigIdentity :=
  let* version := assertUint64 (default 0 (n_version i)) (js "version") in
  let* activation := assertUint64 (default 0 (n_activationRevision i)) (js "activationRevision") in
  let* schema := assertUint64 (default 0 (n_schemaVersion i)) (js "schemaVersion") in
  let* target := assertUint64 (default activation (n_targetRevision i)) (js "targetRevision") in
  Ok {| c_namespace := default [] (n_namespace i); c_name := default [] (n_name i); c_version := version;
        c_activationRevision := activation; c_targetRevision := target; c_schemaVersion := schema;
        c_digest := default [] (n_digest i) |}.

(** [ReleaseIdentity.from] a manifest or a snapshot. *)
Definition identity_from (i : ReleaseIdentity) : res jstr ConfigIdentity :=
  new_ConfigIdentity
    {| n_namespace := Some (i_namespace i); n_name := Some (i_name i); n_version := Some (i_version i);
       n_activationRevision := Some (i_activationRevision i); n_targetRevision := Some (i_targetRevision i);
       n_schemaVersion := Some (i_schemaVersion i); n_digest := Some (i_digest i) |}.

Definition zero_identity : ConfigIdentity :=
  {| c_namespace := []; c_name := []; c_version := 0; c_activationRevision := 0; c_targetRevision := 0;
     c_schemaVersion := 0; c_digest := [] |}.

Definition isZero (i : ConfigIdentity) : bool :=
  bool_decide (c_namespace i = []) && bool_decide (c_name i = []) && (c_version i =? 0)
  && (c_activationRevision i =? 0) && bool_decide (c_digest i = []).

Definition identity_string (i : ConfigIdentity) : jstr :=
  (if bool_decide (c_namespace i = []) && bool_decide (c_name i = []) then js "release"
   else c_namespace i ++ js "/" ++ c_name i) ++
  js "@" ++ dec (c_version i) ++ js "#" ++ dec (c_activationRevision i) ++ js " schemaVersion=" ++ dec (c_schemaVersion i).

(** [toJSON]: the target revision only when it differs. *)
Definition identity_json (i : ConfigIdentity) : list (jstr * jstr) :=
  [(js "namespace", c_namespace i); (js "name", c_name i); (js "version", dec (c_version i));
   (js "activationRevision", dec (c_activationRevision i))] ++
  (if c_targetRevision i =? c_activationRevision i then [] else [(js "targetRevision", dec (c_targetRevision i))]) ++
  [(js "schemaVersion", dec (c_schemaVersion i)); (js "digest", c_digest i)].

Definition dedupeKey (i : ConfigIdentity) : jstr :=
  c_namespace i ++ [0] ++ c_name i ++ [0] ++ dec (c_version i) ++ [0] ++ dec (c_targetRevision i) ++ [0] ++ c_digest i.

(** ** [ConfigSnapshot]: the root is private, every access is a copy *)

Record ConfigSnapshot := { g_config : jsval; g_release : ConfigIdentity }.

Definition new_ConfigSnapshot (h : heap) (config : jsval) (release : ConfigIdentity)
  : res clone_error (heap * ConfigSnapshot) :=
  let* (h, c) := cloneConfig h config in Ok (h, {| g_config := c; g_release := release |}).

Definition snapshot_config (h : heap) (s : ConfigSnapshot) : res clone_error (heap * jsval) := cloneConfig h (g_config s).

(** [get]: the root's own property, or [undefined]. *)
Definition snapshot_get (h : heap) (s : ConfigSnapshot) (key : propkey) : res clone_error (heap * jsval) :=
  match g_config s with
  | Ref l =>
      match h !! l with
      | Some o => match map_get key (o_props o) with
                  | Some (Data v _) => cloneConfig h v
                  | _ => Ok (h, Prim Undefined)
                  end
      | None => Throw Dangling
      end
  | Prim _ => Ok (h, Prim Undefined)
  end.

(** ** Diagnostic paths *)

(** The loop that drops trailing ["[]"] and ["[*]"], on the reversed text. *)
Fixpoint strip_indices_rev (s : jstr) : jstr :=
  match s with
  | 93 :: 91 :: rest => strip_indices_rev rest
  | 93 :: 42 :: 91 :: rest => strip_indices_rev rest
  | _ => s
  end.
Definition strip_indices (segment : jstr) : jstr := reverse (strip_indices_rev (reverse segment)).

Definition validDiagnosticPath (path : jstr) : bool :=
  negb (bool_decide (path = [])) && (strlen path <=? 512)
  && (Z.of_nat (length (split_on 46 path)) <=? 32)
  && forallb (fun segment => validDiagnosticSegment (strip_indices segment)) (split_on 46 path).

(** The loop of [sanitizeDiagnosticPaths]: invalid and repeated paths go. *)
Fixpoint sanitize (result paths : list jstr) : list jstr :=
  match paths with
  | [] => result
  | path :: paths =>
      if negb (validDiagnosticPath path) || bool_decide (path ∈ result) then sanitize result paths
      else sanitize (result ++ [path]) paths
  end.
Definition sanitizeDiagnosticPaths (paths : list jstr) : list jstr := sanitize [] paths.

(** ** Candidate errors *)

Definition REJECTION_CATEGORIES : list ReleaseRejectionCategory :=
  [config_contract_mismatch; config_decode_failed; config_validation_failed; default_mismatch; restart_required;
   internal_category].

Definition validRejectionCategory (c : ReleaseRejectionCategory) : bool := bool_decide (c ∈ REJECTION_CATEGORIES).

(** A [CandidateError] with the paths registered for it. *)
Record CandidateError := { ce_category : ReleaseRejectionCategory; ce_paths : list jstr }.

Definition new_CandidateError (category : ReleaseRejectionCategory) (paths : list jstr) : CandidateError :=
  {| ce_category := if validRejectionCategory category then category else internal_category;
     ce_paths := sanitizeDiagnosticPaths paths |}.

Definition candidate_message (e : CandidateError) : jstr :=
  js "configstore: candidate rejected (" ++ category_text (ce_category e) ++ js ")".

(** [rejectDecode(group, cause)]; the cause is a decode error of the codecs or
    something else. *)
Definition rejectDecode (group : jstr) (cause : option ConfigDecodeError) : CandidateError :=
  new_CandidateError config_decode_failed
    (if validDiagnosticSegment group then
       match error_path <$> cause with
       | Some path => if bool_decide (path = js "$") then [group]
                      else if startsWith (js "$.") path then [group ++ drop 1 path] else []
       | None => []
       end
     else []).

(** ** Report values *)

(** [FieldDifference] and [FieldChange]: a path and two values. *)
Record Field := { f_path : jstr; f_first : jsval; f_second : jsval }.

Definition cloneReportValue (h : heap) (v : jsval) : res clone_error (heap * jsval) :=
  let* b := containsSecret h v in
  if b then Ok (h, Prim (Text REDACTED)) else cloneConfig h v.

Definition report_path (path : jstr) : jstr := if validDiagnosticPath path then path else js "invalid_path".

(** [cloneDifferences] and [cloneChanges] of the reports. *)
Fixpoint clone_report_fields (h : heap) (fs : list Field) : res clone_error (heap * list Field) :=
  match fs with
  | [] => Ok (h, [])
  | f :: fs =>
      let* (h, a) := cloneReportValue h (f_first f) in
      let* (h, b) := cloneReportValue h (f_second f) in
      let* (h, fs) := clone_report_fields h fs in
      Ok (h, {| f_path := report_path (f_path f); f_first := a; f_second := b |} :: fs)
  end.

(** [copyGroups]: by alias in code-unit order. *)
Definition copyGroups (groups : list (jstr * jstr)) : list (jstr * jstr) :=
  js_sort (fun a b => str_compare a.1 b.1) groups.

Inductive Phase := startup_phase | runtime_phase.
Definition phase_text (p : Phase) : jstr := match p with startup_phase => js "startup" | runtime_phase => js "runtime" end.

Record DefaultMismatchReport := { d_phase : Phase; d_release : ConfigIdentity; d_differences : list Field }.

Definition new_DefaultMismatchReport (h : heap) (phase : Phase) (release : ConfigIdentity) (differences : list Field)
  : res clone_error (heap * DefaultMismatchReport) :=
  let* (h, fs) := clone_report_fields h differences in
  Ok (h, {| d_phase := phase; d_release := release; d_differences := fs |}).

Definition mismatch_string (r : DefaultMismatchReport) : jstr :=
  js "configstore: default mismatch (" ++ phase_text (d_phase r) ++ js "/error) for " ++ identity_string (d_release r) ++
  js " fields=" ++ join (js ",") (map f_path (d_differences r)).

Record AppliedReport := {
  a_phase : Phase;
  a_release : ConfigIdentity;
  a_defaultDivergent : bool;
  a_changes : list Field;
  a_groups : list (jstr * jstr)
}.

Definition new_AppliedReport (h : heap) (phase : Phase) (release : ConfigIdentity) (divergent : bool)
    (changes : list Field) (groups : list (jstr * jstr)) : res clone_error (heap * AppliedReport) :=
  let* (h, fs) := clone_report_fields h changes in
  Ok (h, {| a_phase := phase; a_release := release; a_defaultDivergent := divergent; a_changes := fs;
            a_groups := copyGroups groups |}).

Definition applied_string (r : AppliedReport) : jstr :=
  js "configstore: applied (" ++ phase_text (a_phase r) ++ js ") " ++ identity_string (a_release r) ++
  js " divergent=" ++ js (if a_defaultDivergent r then "true" else "false") ++
  js " changed=" ++ join (js ",") (map f_path (a_changes r)).

Record CandidateRejectionReport := { j_category : ReleaseRejectionCategory; j_release : ConfigIdentity; j_paths : list jstr }.

Definition new_CandidateRejectionReport (category : ReleaseRejectionCategory) (release : ConfigIdentity)
    (paths : list jstr) : CandidateRejectionReport :=
  {| j_category := if validRejectionCategory category then category else internal_category;
     j_release := release; j_paths := sanitizeDiagnosticPaths paths |}.

Definition rejection_string (r : CandidateRejectionReport) : jstr :=
  js "configstore: candidate rejection (" ++ category_text (j_category r) ++ js ") for " ++ identity_string (j_release r) ++
  js " fields=" ++ join (js ",") (j_paths r).

(** ** The JSON form of report values *)

Inductive report_json :=
| JUndefined | JPrim (p : prim) | JText (s : jstr) | JArray (l : list report_json) | JObject (l : list (jstr * report_json)).

Section json.
(** [Date.prototype.toISOString] of a finite time. *)
Context (toISOString : Z -> option jstr).

(** [Array.from({length}, ...)]: the elements by index, missing ones and
    accessors as [undefined]. *)
Definition element_values (len : Z) (ps : properties) : list (option jsval) :=
  map (fun i => match map_get (StringKey (dec (Z.of_nat i))) ps with Some (Data v _) => Some v | _ => None end)
    (seq 0 (Z.to_nat len)).

(** [Object.keys] with the data properties among them. *)
Definition enumerable_values (ps : properties) : list (jstr * jsval) :=
  omap (fun p => match p with
                 | (StringKey k, Data v fl) => if enumerable fl then Some (k, v) else None
                 | _ => None
                 end) ps.

Section json_loops.
Context (f : jsval -> res clone_error report_json).

Fixpoint json_elements (vs : list (option jsval)) : res clone_error (list report_json) :=
  match vs with
  | [] => Ok []
  | None :: vs => let* js := json_elements vs in Ok (JUndefined :: js)
  | Some v :: vs => let* j := f v in let* js := json_elements vs in Ok (j :: js)
  end.

Fixpoint json_properties (kvs : list (jstr * jsval)) : res clone_error (list (jstr * report_json)) :=
  match kvs with
  | [] => Ok []
  | (k, v) :: kvs => let* j := f v in let* js := json_properties kvs in Ok ((k, j) :: js)
  end.
End json_loops.

Fixpoint jsonReportValue (fuel : nat) (h : heap) (ancestors : gset loc) (v : jsval) : res clone_error report_json :=
  match v with
  | Prim (BigInt z) => Ok (JText (dec z))
  | Prim (Symbol _) => Ok JUndefined
  | Prim p => Ok (JPrim p)
  | Ref l =>
      match fuel with
      | O => Throw OutOfFuel
      | S fuel =>
          match h !! l with
          | None => Throw Dangling
          | Some o =>
              match o_kind o with
              | IFunction => Ok JUndefined
              | k =>
                  if bool_decide (l ∈ ancestors) then Ok (JText (js "[Circular]"))
                  else
                    let f := jsonReportValue fuel h ({[l]} ∪ ancestors) in
                    match k with
                    | IDate time => Ok (match toISOString time with Some s => JText s | None => JPrim Null end)
                    | IBuffer bytes | IUint8Array bytes => Ok (JArray (map (fun b => JPrim (Number b)) bytes))
                    | IMap _ | ISet _ => Ok (JObject [])
                    | IArray len _ => let* l := json_elements f (element_values len (o_props o)) in Ok (JArray l)
                    | _ => let* l := json_properties f (enumerable_values (o_props o)) in Ok (JObject l)
                    end
              end
          end
      end
  end.
End json.

(** ** Facts *)

Definition field_in (h : heap) (f : Field) : Prop := val_in h (f_first f) /\ val_in h (f_second f).

(** What a report shows of a value: the marker if a secret is reachable from
    it, and otherwise a copy; either way nothing that leads to a secret. *)
Definition shown (h h' : heap) (v v' : jsval) : Prop :=
  val_in h' v' /\ ~ reaches_secret h' v' /\
  (reaches_secret h v -> v' = Prim (Text REDACTED)) /\
  (~ reaches_secret h v -> exists h0 h1 s, h `prefix_of` h0 /\ h1 `prefix_of` h' /\ copy_of h0 v h1 v' s).

Lemma shown_mono h0 h h' h'' v v' :
  heap_wf h0 -> heap_wf h -> heap_wf h' -> h0 `prefix_of` h -> h' `prefix_of` h'' -> val_in h0 v ->
  shown h h' v v' -> shown h0 h'' v v'.
Proof.
  intros W0 W W' Hp Hp' Hv (H1 & H2 & H3 & H4). split; [eapply val_in_mono; [by apply prefix_length|done]|].
  split; [intros H; by apply H2, (reaches_secret_prefix h' h'')|].
  assert (reaches_secret h v <-> reaches_secret h0 v) as E.
  { split; [by apply reaches_secret_prefix|]. intros (l & l' & -> & Hr & (o & Ho & Hs)). exists l, l'. split; [done|].
    split; [|exists o; split; [by eapply prefix_lookup_Some|done]].
    clear Ho Hs H1 H2 H3 H4 Hv. induction Hr as [|x y z (ox & Hx & ? & ?) _ IH]; [apply rtc_refl|].
    eapply rtc_l; [|done]. exists ox. split; [by eapply prefix_lookup_Some|done]. }
  rewrite E in H3, H4. split; [done|]. intros Hn. destruct (H4 Hn) as (ha & hb & s & ? & ? & ?).
  exists ha, hb, s. split_and!; [by etrans|by etrans|done].
Qed.

Lemma cloneReportValue_spec h v h' v' : heap_wf h -> val_in h v -> cloneReportValue h v = Ok (h', v') ->
  heap_wf h' /\ h `prefix_of` h' /\ shown h h' v v'.
Proof.
  intros W Hv. unfold cloneReportValue. destruct (containsSecret_spec h v W Hv) as (b & -> & Hb). destruct b.
  - intros [= <- <-]. split; [done|]. split; [done|]. split; [done|]. split; [by intros (l & l' & ? & _)|].
    split; [done|]. intros Hn. destruct Hn. by apply Hb.
  - assert (~ reaches_secret h v) as Hn by (intros H; by apply Hb in H).
    pose proof (cloneConfig_spec h v W Hv) as Hspec. intros E. rewrite E in Hspec. destruct Hspec as [s C].
    destruct (cloneConfig_wf _ _ _ _ W Hv E) as (W' & _ & Hv'). split; [done|]. split; [apply C|].
    split; [done|]. split; [exact (copy_without_secret _ _ _ _ _ W Hv C Hn)|]. split; [done|]. intros _. by exists h, h', s.
Qed.

Lemma clone_report_fields_spec fs : forall h h' fs', heap_wf h -> Forall (field_in h) fs ->
  clone_report_fields h fs = Ok (h', fs') ->
  heap_wf h' /\ h `prefix_of` h' /\
  Forall2 (fun f f' => f_path f' = report_path (f_path f) /\ shown h h' (f_first f) (f_first f') /\
                       shown h h' (f_second f) (f_second f')) fs fs'.
Proof.
  induction fs as [|f fs IH]; intros h h' fs' W Hfs; simpl; [intros [= <- <-]; split; [done|]; split; [done|constructor]|].
  inversion Hfs as [|? ? [Ha Hb] Hfs']; subst.
  destruct (cloneReportValue h (f_first f)) as [[h1 a]|] eqn:E1; [|done].
  apply cloneReportValue_spec in E1 as (W1 & P1 & S1); [|done|done].
  destruct (cloneReportValue h1 (f_second f)) as [[h2 b]|] eqn:E2; [|done].
  apply cloneReportValue_spec in E2 as (W2 & P2 & S2); [|done|eapply val_in_mono; [by apply prefix_length|done]].
  destruct (clone_report_fields h2 fs) as [[h3 fs2]|] eqn:E3; [|done]. intros [= <- <-].
  assert (h `prefix_of` h2) as P02 by (by etrans).
  apply IH in E3 as (W3 & P3 & HF); [|done|eapply Forall_impl; [done|]; intros g [? ?]; split; (eapply val_in_mono; [by apply prefix_length|done])].
  split; [done|]. split; [by etrans|]. constructor.
  - simpl. split; [done|]. split; [by eapply (shown_mono h h h1); try done; etrans|by eapply (shown_mono h h1 h2)].
  - eapply Forall2_impl_l; [exact Hfs'|exact HF|]. intros g g' [? ?] (H1 & H2 & H3). split; [done|].
    split; by eapply (shown_mono h h2 h3).
Qed.

Lemma report_path_valid path : validDiagnosticPath (report_path path) = true.
Proof. unfold report_path. by destruct (validDiagnosticPath path) eqn:E. Qed.

(** What a report may show of [v]: see [shown]; and where inherited properties
    are read too, a secret is behind the shown value only if a prototype in the
    graph of [v] exposes it. *)
Definition redacted (h h' : heap) (v v' : jsval) : Prop :=
  shown h h' v v' /\ (exposes_secret h' v' -> inherits_secret h v).

Lemma shown_redacted h h' v v' : heap_wf h -> protos_in h -> val_in h v -> shown h h' v v' -> redacted h h' v v'.
Proof.
  intros W P Hv Hs. split; [done|]. intros He. destruct Hs as (_ & _ & H3 & H4).
  assert (~ reaches_secret h v) as Hn by (intros H; rewrite (H3 H) in He; by destruct He as (? & ? & ? & _)).
  destruct (H4 Hn) as (h0 & h1 & s & Hp0 & Hp1 & C). destruct v as [p|l].
  { pose proof (copy_value _ _ _ _ _ C) as Hi. simpl in Hi. subst v'. by destruct He as (? & ? & ? & _). }
  by destruct (copy_exposes h h0 h1 h' l v' s W P Hv Hp0 C Hp1 He).
Qed.

(** C9: reports do not lead to a secret, but through prototypes. For every
    heap and every list of differences or changes, each field of the report has
    a valid diagnostic path, and its two values are
    - the marker, when the data properties, map entries and set items of the
      original value lead to a secret, and otherwise a copy of it;
    - in either case values whose own data properties, entries and items lead
      to no secret;
    - and if the prototype links of plain objects are followed too, values that
      lead to a secret only when the original value reaches an object whose
      prototype does: the search does not look at prototypes, and the copy
      keeps them. *)
Theorem reports_redacted h phase release divergent groups fs h1 h2 d a :
  heap_wf h -> protos_in h -> Forall (field_in h) fs ->
  new_DefaultMismatchReport h phase release fs = Ok (h1, d) ->
  new_AppliedReport h phase release divergent fs groups = Ok (h2, a) ->
  Forall2 (fun f f' => redacted h h1 (f_first f) (f_first f') /\ redacted h h1 (f_second f) (f_second f')) fs (d_differences d) /\
  Forall2 (fun f f' => redacted h h2 (f_first f) (f_first f') /\ redacted h h2 (f_second f) (f_second f')) fs (a_changes a) /\
  Forall (fun f => validDiagnosticPath (f_path f) = true) (d_differences d ++ a_changes a).
Proof.
  intros W P Hfs. unfold new_DefaultMismatchReport, new_AppliedReport.
  destruct (clone_report_fields h fs) as [[h' fs']|] eqn:E; [|done]. intros [= <- <-] [= <- <-]. simpl.
  apply clone_report_fields_spec in E as (_ & _ & HF); [|done|done].
  assert (Forall (fun f => validDiagnosticPath (f_path f) = true) fs') as Hp.
  { clear Hfs. induction HF as [|f f' fs fs' [Hpath _] _ IH]; constructor; [rewrite Hpath; apply report_path_valid|done]. }
  split; [|split; [|by apply Forall_app]]; (eapply Forall2_impl_l; [exact Hfs|exact HF|]);
    intros f f' [? ?] (_ & ? & ?); split; by apply shown_redacted.
Qed.

(** A plain object whose prototype holds a secret: the search finds none, and
    the copy in the report inherits it. *)
Definition inheriting_heap : heap :=
  demo_heap ++ [{| o_kind := IPlain (Some 0%nat); o_props := [prop "name" (Prim Null)] |}].

Lemma inherited_secret_shown : exists h' r,
  cloneReportValue inheriting_heap (Ref 5) = Ok (h', Ref r) /\ proto h' r 0 /\ reaches_secret h' (Ref 0).
Proof.
  eexists _, _. split; [vm_compute; reflexivity|]. split; [eexists; split; vm_compute; reflexivity|].
  exists 0%nat, 1%nat. split; [done|]. split; [|by eexists; split].
  apply rtc_once. eexists. split; [vm_compute; reflexivity|]. split; [done|]. simpl. by left.
Qed.

(** The values of the demonstration heap, the root with its secret and a byte
    array without one. *)
Definition demo_fields : list Field :=
  [{| f_path := js "db.password"; f_first := Ref 0; f_second := Ref 4 |};
   {| f_path := js "not a path"; f_first := Prim Null; f_second := Prim (BigInt 3) |}].

Lemma reports_redacted_witness : exists h1 d,
  new_DefaultMismatchReport demo_heap startup_phase zero_identity demo_fields = Ok (h1, d) /\
  map f_path (d_differences d) = [js "db.password"; js "invalid_path"] /\
  map f_first (d_differences d) = [Prim (Text REDACTED); Prim Null] /\
  Forall (fun f => validDiagnosticPath (f_path f) = true) (d_differences d).
Proof.
  eexists _, _. split; [vm_compute; reflexivity|]. split; [by vm_compute|]. split; [by vm_compute|].
  edestruct (reports_redacted demo_heap startup_phase zero_identity true [] demo_fields) as (_ & _ & H).
  - apply demo_heap_wf.
  - intros l p (o & Ho & Hk). assert (l < 5)%nat as Hl by (apply lookup_lt_Some in Ho; exact Ho).
    do 5 (destruct l as [|l]; [simpl in Ho; injection Ho as <-; discriminate Hk|]). lia.
  - repeat constructor; simpl; lia.
  - vm_compute. reflexivity.
  - vm_compute. reflexivity.
  - apply Forall_app in H as [H _]. exact H.
Defined.

(** ** Diagnostic paths *)

Lemma sanitize_spec paths : forall result,
  NoDup result -> Forall (fun p => validDiagnosticPath p = true) result ->
  NoDup (sanitize result paths) /\
  (forall p, p ∈ sanitize result paths <-> p ∈ result \/ (p ∈ paths /\ validDiagnosticPath p = true)).
Proof.
  induction paths as [|q paths IH]; intros result Hnd Hv; simpl; [set_solver|].
  destruct (validDiagnosticPath q) eqn:Eq; simpl; [case_bool_decide as Hin; simpl|].
  - destruct (IH result Hnd Hv) as [H1 H2]. split; [done|]. intros p. rewrite H2. set_solver.
  - destruct (IH (result ++ [q])) as [H1 H2].
    + apply NoDup_app. split; [done|]. split; [set_solver|apply NoDup_singleton].
    + apply Forall_app. by split; [|constructor].
    + split; [done|]. intros p. rewrite H2. set_solver.
  - destruct (IH result Hnd Hv) as [H1 H2]. split; [done|]. intros p. rewrite H2. split; [set_solver|].
    intros [?|[Hp Hp2]]; [by left|]. apply elem_of_cons in Hp as [->|?]; [congruence|by right].
Qed.

Lemma sanitizeDiagnosticPaths_spec paths :
  NoDup (sanitizeDiagnosticPaths paths) /\
  forall p, p ∈ sanitizeDiagnosticPaths paths <-> p ∈ paths /\ validDiagnosticPath p = true.
Proof.
  destruct (sanitize_spec paths [] (NoDup_nil_2) (Forall_nil_2 _)) as [H1 H2]. split; [done|].
  intros p. unfold sanitizeDiagnosticPaths. rewrite H2. set_solver.
Qed.

(** ** The JSON form always exists *)

Lemma json_elements_total f vs : (forall v, Some v ∈ vs -> is_ok (f v) = true) -> is_ok (json_elements f vs) = true.
Proof.
  induction vs as [|[v|] vs IH]; intros H; simpl; [done| |].
  - specialize (H v ltac:(left)) as Hv. destruct (f v); [|done]. destruct (json_elements f vs); [done|].
    apply IH. intros w Hw. apply H. by right.
  - destruct (json_elements f vs); [done|]. apply IH. intros w Hw. apply H. by right.
Qed.

Lemma json_properties_total f kvs : (forall v, v ∈ kvs.*2 -> is_ok (f v) = true) -> is_ok (json_properties f kvs) = true.
Proof.
  induction kvs as [|[k v] kvs IH]; intros H; simpl; [done|].
  specialize (H v ltac:(left)) as Hv. destruct (f v); [|done]. destruct (json_properties f kvs); [done|].
  apply IH. intros w Hw. apply H. by right.
Qed.

Lemma data_value_elem (ps : properties) k v fl : (k, Data v fl) ∈ ps -> v ∈ omap (fun p => data_value p.2) ps.
Proof. intros H. apply list_elem_of_omap. by exists (k, Data v fl). Qed.

Lemma element_values_elem len ps v : Some v ∈ element_values len ps -> v ∈ omap (fun p => data_value p.2) ps.
Proof.
  unfold element_values. intros (i & Hi & _)%list_elem_of_fmap. case_match eqn:E; [|done]. case_match; simplify_eq.
  apply map_get_Some_elem in E. by eapply data_value_elem.
Qed.

Lemma enumerable_values_elem ps v : v ∈ (enumerable_values ps).*2 -> v ∈ omap (fun p => data_value p.2) ps.
Proof.
  intros ([k w] & -> & H)%list_elem_of_fmap. apply list_elem_of_omap in H as ([key d] & Hp & Hd).
  destruct key; [|done]. destruct d as [x fl|]; [|done]. destruct (enumerable fl); simplify_eq. simpl. by eapply data_value_elem.
Qed.

Lemma props_children o :
  match o_kind o with IMap _ | ISet _ => False | _ => True end ->
  omap (fun p => data_value p.2) (o_props o) ⊆ children o.
Proof. unfold children. destruct (o_kind o); set_solver. Qed.

Lemma jsonReportValue_total iso h fuel : heap_wf h -> forall ancestors v,
  inside h ancestors -> enough h (size ancestors) fuel -> val_in h v ->
  is_ok (jsonReportValue iso fuel h ancestors v) = true.
Proof.
  intros W. induction fuel as [|fuel IH]; intros anc v Hin Hf Hv; destruct v as [p|l]; simpl in *; try by destruct p.
  { apply size_below in Hin. unfold enough in Hf. lia. }
  destruct (h !! l) as [o|] eqn:Hl; [|apply lookup_ge_None in Hl; lia].
  destruct (decide (l ∈ anc)) as [Ha|Ha]; [rewrite bool_decide_true by done; by destruct (o_kind o)|].
  rewrite bool_decide_false by done.
  assert (forall w, w ∈ children o -> is_ok (jsonReportValue iso fuel h ({[l]} ∪ anc) w) = true) as Hchild.
  { intros w Hw. apply IH.
    - intros x. rewrite elem_of_union, elem_of_singleton. intros [->|?]; [done|by apply Hin].
    - rewrite size_union, size_singleton by set_solver. unfold enough in *. lia.
    - destruct (heap_wf_lookup _ _ _ W Hl) as [Hch _]. rewrite Forall_forall in Hch. by apply Hch. }
  pose proof (props_children o) as Hprops.
  assert (match o_kind o with IMap _ | ISet _ => False | _ => True end ->
          is_ok (json_properties (jsonReportValue iso fuel h ({[l]} ∪ anc)) (enumerable_values (o_props o))) = true) as Hobj.
  { intros Hk. apply json_properties_total. intros w Hw%enumerable_values_elem. apply Hchild. by apply Hprops. }
  destruct (o_kind o) as [| | | | | | |len w| |] eqn:Hk; try done;
    try (destruct (json_properties _ _) as [?|e]; [done|]; by apply Hobj).
  assert (is_ok (json_elements (jsonReportValue iso fuel h ({[l]} ∪ anc)) (element_values len (o_props o))) = true) as Hel.
  { apply json_elements_total. intros x Hx%element_values_elem. apply Hchild. by apply Hprops. }
  by destruct (json_elements _ _).
Qed.
