(* ===== verification/Contract.v ===== *)
(** * Contract: [sdk/typescript/src/configstore/contract.ts].

    The alias contract of a generated binding, the manifest validator built
    from it, and what it means for the releases that are resolved with it. *)
From stdpp Require Import prelude gmap list strings.
From Stdlib Require Import ZArith Lia.
From S2P Require Import Prelude JsString JsMap Unicode Decimal Errors Refs DefaultsArtifact Release Resolve.

(** ** [String.prototype.trim] *)

Definition isJsWhitespace (c : Z) : bool :=
  ((9 <=? c) && (c <=? 13)) || (c =? 32) || (c =? 160) || (c =? 0x1680) || ((0x2000 <=? c) && (c <=? 0x200a))
  || (c =? 0x2028) || (c =? 0x2029) || (c =? 0x202f) || (c =? 0x205f) || (c =? 0x3000) || (c =? 0xfeff).

Fixpoint trim_start (s : jstr) : jstr :=
  match s with
  | c :: r => if isJsWhitespace c then trim_start r else s
  | [] => []
  end.
Definition trim (s : jstr) : jstr := reverse (trim_start (reverse (trim_start s))).

(** ** The contract *)

(** An entry as it arrives: [entry?.alias] may be missing. *)
Record RawContractEntry := { rc_alias : option jstr; rc_kind : jstr; rc_contentType : option jstr }.
Record ContractEntry := { k_alias : jstr; k_kind : ContractKind; k_contentType : jstr }.

(** [TypeError]s by their message. *)
Abbreviation contract_res := (res jstr).

Fixpoint validate_entries (aliases : list jstr) (result : list ContractEntry) (l : list RawContractEntry)
  : contract_res (list ContractEntry) :=
  match l with
  | [] => Ok result
  | entry :: l =>
      match rc_alias entry with
      | None => Throw (js "configstore: contract aliases must be non-empty and canonical")
      | Some alias =>
          if bool_decide (alias = []) || negb (bool_decide (trim alias = alias))
          then Throw (js "configstore: contract aliases must be non-empty and canonical")
          else if bool_decide (alias ∈ aliases) then Throw (js "configstore: contract contains a duplicate alias")
          else
            let kind := if bool_decide (rc_kind entry = js "parameter") then Some KParameter
                        else if bool_decide (rc_kind entry = js "secret") then Some KSecret else None in
            match kind with
            | None => Throw (js "configstore: contract entry kind is invalid")
            | Some kind =>
                let contentType := default [] (rc_contentType entry) in
                if bool_decide (kind = KParameter) && bool_decide (contentType = [])
                then Throw (js "configstore: parameter contract entries require a content type")
                else validate_entries (set_add alias aliases)
                       (result ++ [{| k_alias := alias; k_kind := kind; k_contentType := contentType |}]) l
            end
      end
  end.

(** [None]: not an array. *)
Definition validateContract (contract : option (list RawContractEntry)) : contract_res (list ContractEntry) :=
  match contract with
  | None | Some [] => Throw (js "configstore: contract must contain at least one entry")
  | Some l => validate_entries [] [] l
  end.

(** ** The validator *)

Definition expected_kind (k : ContractKind) : ReleaseEntryKind :=
  match k with KParameter => kind_parameter | KSecret => kind_secret end.

(** One round of the loop over the expected entries. *)
Definition entry_accepted (actual : list (jstr * ReleaseEntryMetadata)) (wanted : ContractEntry) : bool :=
  match map_get (k_alias wanted) actual with
  | None => false
  | Some entry =>
      bool_decide (m_alias entry = k_alias wanted)
      && bool_decide (m_kind entry = expected_kind (k_kind wanted))
      && (bool_decide (k_contentType wanted = []) || bool_decide (m_contentType entry = k_contentType wanted))
  end.

(** The function [createManifestValidator] returns, as the outcome the loader
    sees: [throwIfAborted], then [contractMismatch()]. *)
Definition check_manifest (expected : list ContractEntry) (aborted_signal : bool) (manifest : ReleaseIdentity) : validation :=
  if aborted_signal then Invalid true None
  else if negb (bool_decide (length (i_entries manifest) = length expected))
  then Invalid false (ClassifiedReleaseError config_contract_mismatch)
  else if forallb (entry_accepted (i_entries manifest)) expected then Valid
  else Invalid false (ClassifiedReleaseError config_contract_mismatch).

(** The aliases are distinct, so [new Map(...)] has every entry in order. *)
Definition createManifestValidator (contract : option (list RawContractEntry))
  : contract_res (bool -> ReleaseIdentity -> validation) :=
  let* expected := validateContract contract in Ok (check_manifest expected).

(** ** Facts *)

Definition contract_ok (es : list ContractEntry) : Prop :=
  NoDup (map k_alias es) /\
  Forall (fun e => k_alias e <> [] /\ (k_kind e = KParameter -> k_contentType e <> [])) es.

Lemma validate_entries_ok l : forall aliases result es,
  validate_entries aliases result l = Ok es -> contract_ok result ->
  (forall a, a ∈ aliases <-> a ∈ map k_alias result) ->
  contract_ok es /\ (length es = length result + length l)%nat.
Proof.
  induction l as [|e l IH]; intros aliases result es; simpl; [intros [= <-] Hok _; split; [done|lia]|].
  destruct (rc_alias e) as [alias|]; [|done].
  destruct (bool_decide (alias = []) || _) eqn:Ha; [done|]. apply orb_false_iff in Ha as [Ha _].
  apply bool_decide_eq_false in Ha. case_bool_decide as Hin; [done|].
  destruct (if bool_decide (rc_kind e = _) then _ else _) as [kind|]; [|done].
  destruct (bool_decide (kind = KParameter) && _) eqn:Hk; [done|]. intros Hv [Hnd Hall] Hal.
  apply IH in Hv as [? Hlen].
  - split; [done|]. rewrite length_app in Hlen. simpl in Hlen. lia.
  - split.
    + rewrite map_app. apply NoDup_app. split; [done|]. split; [|apply NoDup_singleton].
      intros a Hra Ha'. simpl in Ha'. apply list_elem_of_singleton in Ha' as ->. apply Hin, Hal, Hra.
    + apply Forall_app. split; [done|]. constructor; [|constructor]. simpl. split; [done|]. intros ->.
      apply andb_false_iff in Hk as [Hk|Hk]; by apply bool_decide_eq_false in Hk.
  - intros a. rewrite elem_of_set_add, map_app, elem_of_app, Hal. simpl. set_solver.
Qed.

Lemma validateContract_ok contract es :
  validateContract contract = Ok es -> contract_ok es /\ es <> [].
Proof.
  unfold validateContract. destruct contract as [[|e l]|]; try done. intros H.
  apply validate_entries_ok in H as [H Hlen]; [|split; [constructor|constructor]|done].
  split; [done|]. intros ->. simpl in Hlen. lia.
Qed.

(** What the validator accepts: the same aliases, each with its kind and,
    unless it is left open, its content type. *)
Definition manifest_matches (es : list ContractEntry) (actual : list (jstr * ReleaseEntryMetadata)) : Prop :=
  actual.*1 ≡ₚ map k_alias es /\
  Forall (fun w => exists entry, map_get (k_alias w) actual = Some entry /\ m_alias entry = k_alias w /\
            m_kind entry = expected_kind (k_kind w) /\
            (k_contentType w <> [] -> m_contentType entry = k_contentType w)) es.

Lemma entry_accepted_spec actual w :
  entry_accepted actual w = true <->
  exists entry, map_get (k_alias w) actual = Some entry /\ m_alias entry = k_alias w /\
    m_kind entry = expected_kind (k_kind w) /\ (k_contentType w <> [] -> m_contentType entry = k_contentType w).
Proof.
  unfold entry_accepted. destruct (map_get (k_alias w) actual) as [entry|]; [|by split; [|intros (? & ? & _)]].
  rewrite !andb_true_iff, orb_true_iff, !bool_decide_eq_true. split.
  - intros [[? ?] Hct]. exists entry. split_and!; try done. by destruct Hct.
  - intros (? & [= <-] & ? & ? & Hct). split_and!; try done. destruct (decide (k_contentType w = [])); [by left|right; auto].
Qed.

Lemma NoDup_subset_perm {A} (l k : list A) : NoDup k -> (forall x, x ∈ k -> x ∈ l) -> length l = length k -> l ≡ₚ k.
Proof.
  intros Hnd Hsub Hlen. apply NoDup_submseteq in Hsub; [|done].
  symmetry. by apply submseteq_length_Permutation; [|rewrite Hlen].
Qed.

Lemma check_manifest_spec es manifest :
  contract_ok es -> check_manifest es false manifest = Valid <-> manifest_matches es (i_entries manifest).
Proof.
  intros [Hnd _]. unfold check_manifest, manifest_matches. simpl. case_bool_decide as Hlen; simpl.
  - destruct (forallb _ es) eqn:E.
    + split; [|done]. intros _.
      assert (Forall (fun w => entry_accepted (i_entries manifest) w = true) es) as HF.
      { apply Forall_forall. intros w Hw. rewrite forallb_forall in E. by apply E, list_elem_of_In. }
      split; [|eapply Forall_impl; [exact HF|]; intros w; by apply entry_accepted_spec].
      apply NoDup_subset_perm; [done| |by rewrite length_fmap, length_map].
      intros a (w & -> & Hw)%list_elem_of_fmap. rewrite Forall_forall in HF.
      apply HF, entry_accepted_spec in Hw as (entry & Hget & _). apply map_get_Some_elem in Hget.
      by apply (list_elem_of_fmap_2 fst) in Hget.
    + split; [done|]. intros [_ HF]. exfalso.
      assert (forallb (entry_accepted (i_entries manifest)) es = true); [|congruence].
      apply forallb_forall. intros w Hw. apply entry_accepted_spec. rewrite Forall_forall in HF. by apply HF, list_elem_of_In.
  - split; [done|]. intros [Hp _]. apply Permutation_length in Hp. rewrite length_fmap, length_map in Hp. done.
Qed.

(** ** Releases resolved with the contract *)

(** The metadata of the manifest are those of the entries. *)
Lemma resolved_manifest sha256 encode fetchP fetchM fetchS now keys n track candidate validate s1 schedule snapshot :
  resolveCandidate sha256 encode fetchP fetchM fetchS now keys n track candidate false validate s1 schedule
    = Some (Ok snapshot) ->
  exists ns, collect_entries ns [] (r_entries (c_release candidate)) = Ok (i_entries (s_identity snapshot)).
Proof.
  unfold resolveCandidate, resolve_manifest. destruct (r_namespace _) as [ns|]; [|done].
  destruct (negb _); [done|]. destruct (releaseDigestMatches _ _ _) as [[]|]; try done. case_bool_decide; [done|].
  destruct (collect_entries ns [] _) as [es|] eqn:Ec; [|done].
  destruct (new_ReleaseIdentity _) as [i|] eqn:Ei; [|done].
  unfold new_ReleaseIdentity in Ei. case_match; [|done]. injection Ei as <-.
  destruct (validate _); [|by case_match]. destruct s1; [done|]. cbv zeta.
  destruct (mapConcurrent _ _ _) as [[rs|[]]|]; try done. intros [= <-]. by exists ns.
Qed.

(** The entry of a snapshot under an alias of the contract. *)
Definition delivered (snapshot : ReleaseSnapshot) (w : ContractEntry) : Prop :=
  match k_kind w with
  | KParameter => exists p, map_get (k_alias w) (s_parameters snapshot) = Some p /\ m_contentType (rp_entry p) = k_contentType w
  | KSecret => exists s, map_get (k_alias w) (s_secrets snapshot) = Some s /\
                 (k_contentType w <> [] -> m_contentType (rs_entry s) = k_contentType w)
  end.

(** C10: the contract is enforced end to end. A contract is accepted only with
    distinct non-empty aliases and a content type for every parameter; and
    whenever a candidate resolves under its validator, in any order of
    concurrent fetches, the snapshot has exactly the aliases of the contract,
    each of the declared kind and with the declared content type. *)
Theorem contract_enforced contract validator sha256 encode fetchP fetchM fetchS now keys n track candidate
    s0 s1 schedule snapshot :
  createManifestValidator contract = Ok validator -> (0 < n)%nat ->
  resolveCandidate sha256 encode fetchP fetchM fetchS now keys n track candidate false (validator s0) s1 schedule
    = Some (Ok snapshot) ->
  exists es, validateContract contract = Ok es /\ contract_ok es /\
    (s_parameters snapshot).*1 ++ (s_secrets snapshot).*1 ≡ₚ map k_alias es /\ Forall (delivered snapshot) es.
Proof.
  unfold createManifestValidator. destruct (validateContract contract) as [es|] eqn:Ev; [|done]. intros [= <-] Hn Hr.
  exists es. split; [done|]. destruct (validateContract_ok _ _ Ev) as [Hok _]. split; [done|].
  destruct (resolved_manifest _ _ _ _ _ _ _ _ _ _ _ _ _ _ Hr) as [ns Hc].
  pose proof (resolve_sound _ _ _ _ _ _ _ _ _ _ _ _ _ _ Hn Hr) as (_ & _ & Hval & _ & _ & Hpin & Hkeys & _).
  destruct s0; [done|]. apply check_manifest_spec in Hval as [Hperm HF]; [|done].
  destruct (collect_entries_spec _ _ _ _ Hc) as (_ & Hal & _ & Hmeta); [constructor|]. simpl in Hal.
  split; [by rewrite Hkeys, <- Hal|]. apply Forall_forall. intros w Hw. rewrite Forall_forall in HF. rewrite Forall_forall in Hmeta. rewrite Forall_forall in Hpin.
  destruct (HF w Hw) as (entry & Hget & _ & Hkind & Hct).
  assert (k_alias w ∈ e_alias <$> r_entries (c_release candidate)) as (e & He & Hin)%list_elem_of_fmap.
  { rewrite <- Hal. apply map_get_Some_elem in Hget. by apply (list_elem_of_fmap_2 fst) in Hget. }
  destruct (Hmeta e Hin) as (md & _ & Hm & Hg & _). rewrite <- He, Hget in Hg. injection Hg as <-.
  destruct (Hpin e Hin) as (ref & md' & _ & Hm' & Hcase). rewrite Hm in Hm'. injection Hm' as <-.
  unfold delivered. rewrite Hkind in Hcase. rewrite He. destruct (k_kind w) eqn:Hk; simpl in Hcase.
  - destruct Hcase as (p & _ & _ & _ & _ & _ & Hp). eexists. split; [exact Hp|]. simpl. apply Hct.
    destruct Hok as [_ Hok]. rewrite Forall_forall in Hok. by apply (Hok w Hw).
  - destruct Hcase as (live & v & s & _ & _ & _ & _ & _ & _ & _ & _ & Hs). eexists. split; [exact Hs|]. done.
Qed.

(** ** Witness *)

Definition demo_contract : option (list RawContractEntry) :=
  Some [{| rc_alias := Some (js "token"); rc_kind := js "secret"; rc_contentType := None |};
        {| rc_alias := Some (js "rate"); rc_kind := js "parameter"; rc_contentType := Some (js "text/plain") |}].

Lemma contract_enforced_witness : exists validator snapshot es,
  createManifestValidator demo_contract = Ok validator /\
  resolveCandidate demo_sha (fun _ => js "ten bytes!") demo_fetchParameter demo_fetchMetadata demo_fetchSecret 500
    [(js "token", js "key")] 2 demo_track demo_candidate false (validator false) false [Some 1%nat; Some 0%nat]
    = Some (Ok snapshot) /\
  Forall (delivered snapshot) es /\ map k_alias es = [js "token"; js "rate"].
Proof.
  destruct (createManifestValidator demo_contract) as [validator|] eqn:E; [|vm_compute in E; discriminate].
  destruct (resolveCandidate demo_sha (fun _ => js "ten bytes!") demo_fetchParameter demo_fetchMetadata demo_fetchSecret 500
    [(js "token", js "key")] 2 demo_track demo_candidate false (validator false) false [Some 1%nat; Some 0%nat])
    as [[snapshot|]|] eqn:Hr; [|exfalso; injection E as <-; vm_compute in Hr; discriminate..].
  destruct (contract_enforced _ _ _ _ _ _ _ _ _ 2%nat _ _ _ _ _ snapshot E ltac:(lia) Hr) as (es & Hes & _ & _ & HF).
  exists validator, snapshot, es. split; [reflexivity|]. split; [exact Hr|]. split; [exact HF|].
  vm_compute in Hes. injection Hes as <-. reflexivity.
Defined.
