(* ===== verification/LoaderSetup.v ===== *)
(** * LoaderSetup: options and start of a release loader
    ([sdk/typescript/src/releases/loader.ts]).

    What [normalizeOptions] makes of the caller's options, what a run checks
    and resets before it starts, the registration of its session and its
    first read. Callbacks among the options ([validateManifest], [now],
    [random]) pass through unchanged and are left out. *)
From stdpp Require Import prelude list strings.
From Stdlib Require Import ZArith Lia QArith.
From S2P Require Import Prelude JsString JsMap Errors Refs DefaultsArtifact Release Resolve Loader LoaderRun LoaderRunProofs Contract.
Local Open Scope Z_scope.

(** ** Numbers *)

(** A [number]: not a number, an infinity, or a finite value. *)
Inductive number := NaN | Infinite (positive : bool) | Finite (q : Q).

Definition isFinite (n : number) : bool := match n with Finite _ => true | _ => false end.
Definition isInteger (n : number) : bool := match n with Finite q => (Qnum q mod QDen q =? 0)%Z | _ => false end.
(** [n > 0] *)
Definition is_positive (n : number) : bool :=
  match n with Finite q => (0 <? Qnum q)%Z | Infinite p => p | NaN => false end.
(** [n > bound] *)
Definition exceeds (n : number) (bound : Z) : bool :=
  match n with Finite q => (bound * QDen q <? Qnum q)%Z | Infinite p => p | NaN => false end.
(** The truth value of a number in a condition. *)
Definition truthy (n : number) : bool :=
  match n with Finite q => negb (Qnum q =? 0)%Z | Infinite _ => true | NaN => false end.

Definition of_Z (z : Z) : number := Finite (inject_Z z).

Definition DEFAULT_RECONCILE_INTERVAL_MS : number := of_Z 60000.
Definition DEFAULT_MAX_CONCURRENT_FETCHES : number := of_Z 16.
Definition MAX_CONCURRENT_FETCHES : Z := 256.

(** ** Options *)

Inductive setup_error := TypeError (message : jstr) | RangeError (message : jstr).

(** The own property of a record of binding keys. *)
Inductive descriptor := NoDescriptor | Accessor | DataString (value : jstr) | DataOther.
Inductive binding_keys := KeysUndefined | KeysNotRecord | KeysRecord (properties : list (jstr * descriptor)).

(** [schemaVersion] is [None] when it is no bigint. *)
Record ReleaseLoaderOptions := {
  ro_namespace : option NamespaceRef;
  ro_name : jstr;
  ro_clientName : jstr;
  ro_schemaVersion : option Z;
  ro_instanceId : option jstr;
  ro_reconcileIntervalMs : option number;
  ro_maxConcurrentFetches : option number;
  ro_bindingKeys : binding_keys;
  ro_acknowledgementTimeoutMs : option number
}.

Record NormalizedOptions := {
  no_namespace : NamespaceRef;
  no_name : jstr;
  no_clientName : jstr;
  no_schemaVersion : Z;
  no_instanceId : jstr;
  no_reconcileIntervalMs : number;
  no_maxConcurrentFetches : number;
  no_bindingKeys : list (jstr * jstr);
  no_acknowledgementTimeoutMs : number
}.

Definition positiveFinite (value : number) (name : jstr) : res setup_error number :=
  if negb (isFinite value) || negb (is_positive value) then Throw (RangeError (name ++ js " must be positive")) else Ok value.

Definition assertUint64 (value : option Z) (name : jstr) : res setup_error Z :=
  match value with
  | None => Throw (TypeError (name ++ js " must be a bigint"))
  | Some z =>
      if (z <? 0) || (2 ^ 64 - 1 <? z) then Throw (RangeError (name ++ js " is outside the uint64 range")) else Ok z
  end.

Fixpoint copy_keys (properties : list (jstr * descriptor)) (result : list (jstr * jstr)) : res setup_error (list (jstr * jstr)) :=
  match properties with
  | [] => Ok result
  | (alias, DataString value) :: properties => copy_keys properties (map_set alias value result)
  | _ :: _ => Throw (TypeError (js "release loader bindingKeys must contain string data properties"))
  end.
Definition normalizeBindingKeys (input : binding_keys) : res setup_error (list (jstr * jstr)) :=
  match input with
  | KeysUndefined => Ok []
  | KeysNotRecord => Throw (TypeError (js "release loader bindingKeys must be a record"))
  | KeysRecord properties => copy_keys properties []
  end.

Definition is_blank (s : jstr) : bool := bool_decide (trim s = []).

(** The three sizes with their defaults. *)
Definition normalize_reconcile (requested : option number) : res setup_error number :=
  let requested := default (of_Z 0) requested in
  if negb (isFinite requested) then Throw (RangeError (js "reconcileIntervalMs must be finite"))
  else Ok (if is_positive requested then requested else DEFAULT_RECONCILE_INTERVAL_MS).
Definition normalize_fetches (requested : option number) : res setup_error number :=
  let n := match requested with
           | Some n => if truthy n && is_positive n then n else DEFAULT_MAX_CONCURRENT_FETCHES
           | None => DEFAULT_MAX_CONCURRENT_FETCHES
           end in
  if negb (isInteger n) || exceeds n MAX_CONCURRENT_FETCHES
  then Throw (RangeError (js "maxConcurrentFetches must be an integer at most 256")) else Ok n.

(** [uuid] is what [randomUUID] returns. *)
Definition normalizeOptions (uuid : jstr) (options : ReleaseLoaderOptions) : res setup_error NormalizedOptions :=
  match ro_namespace options with
  | None => Throw (TypeError (js "release loader namespace env and app are required"))
  | Some ns =>
      if is_blank (env ns) || is_blank (app ns) then Throw (TypeError (js "release loader namespace env and app are required"))
      else
        let name := trim (ro_name options) in
        if bool_decide (name = []) then Throw (TypeError (js "release loader name is required"))
        else
          let clientName := trim (ro_clientName options) in
          if bool_decide (clientName = []) then Throw (TypeError (js "release loader clientName is required"))
          else
            let given := trim (default [] (ro_instanceId options)) in
            let instanceId := if bool_decide (given = []) then uuid else given in
            let* schemaVersion := assertUint64 (ro_schemaVersion options) (js "release loader schemaVersion") in
            let* reconcileIntervalMs := normalize_reconcile (ro_reconcileIntervalMs options) in
            let* maxConcurrentFetches := normalize_fetches (ro_maxConcurrentFetches options) in
            let* bindingKeys := normalizeBindingKeys (ro_bindingKeys options) in
            let* timeout := positiveFinite (default (of_Z 5000) (ro_acknowledgementTimeoutMs options)) (js "acknowledgementTimeoutMs") in
            Ok {| no_namespace := {| env := env ns; app := app ns |}; no_name := name; no_clientName := clientName;
                  no_schemaVersion := schemaVersion; no_instanceId := instanceId; no_reconcileIntervalMs := reconcileIntervalMs;
                  no_maxConcurrentFetches := maxConcurrentFetches; no_bindingKeys := bindingKeys;
                  no_acknowledgementTimeoutMs := timeout |}
  end.

(** What the coordinator takes from the options. *)
Definition loader_identity (n : NormalizedOptions) : Identity :=
  {| o_track := {| tr_namespace := no_namespace n; tr_name := no_name n; tr_schemaVersion := no_schemaVersion n |};
     o_clientName := no_clientName n; o_instanceId := no_instanceId n |}.

(** ** Starting a run *)

Record ReleaseSessionRef := {
  ss_namespace : NamespaceRef; ss_name : jstr; ss_schemaVersion : Z; ss_clientName : jstr; ss_instanceId : jstr;
  ss_sessionId : jstr; ss_identity : jstr
}.
Definition sessionRef (n : NormalizedOptions) (sessionId : jstr) : ReleaseSessionRef :=
  {| ss_namespace := {| env := env (no_namespace n); app := app (no_namespace n) |}; ss_name := no_name n;
     ss_schemaVersion := no_schemaVersion n; ss_clientName := no_clientName n; ss_instanceId := no_instanceId n;
     ss_sessionId := sessionId; ss_identity := [] |}.

Inductive run_error := AlreadyRunning | NoPrepare | SignalAborted | NoSessions | TransportThrew | OtherTrack.

(** The transport: whether it has the two session calls, and what they do with
    a session; [None] is a call that throws. *)
Record SessionTransport := {
  has_registerReleaseSession : bool;
  has_getInstanceRelease : bool;
  registerReleaseSession : ReleaseSessionRef -> bool -> option bool;
  getInstanceRelease : ReleaseSessionRef -> option InstanceReleaseTarget
}.

(** [#registerSession] of a session registered before or not. *)
Definition registerSession (t : SessionTransport) (s : ReleaseSessionRef) (registered : bool) : res run_error unit :=
  if negb (has_registerReleaseSession t) || negb (has_getInstanceRelease t) then Throw NoSessions
  else match registerReleaseSession t s registered with
       | None => Throw TransportThrew
       | Some capable => if capable then Ok tt else Throw NoSessions
       end.

(** [#getActive] *)
Definition read_active (t : SessionTransport) (n : NormalizedOptions) (s : ReleaseSessionRef) (registered : bool)
    : res run_error InstanceReleaseTarget :=
  if registered && has_getInstanceRelease t then
    match getInstanceRelease t s with
    | None => Throw TransportThrew
    | Some target =>
        match getActive (loader_identity n) (Some target) with Some target => Ok target | None => Throw OtherTrack end
    end
  else Throw NoSessions.

(** A loader between runs: what survives a run. *)
Record Executor := { running : bool; x_stats : Stats; x_reconnects : Z }.

(** [run] up to the start of its tasks, in one go: the guards, the resets, the
    session and the first read, whose release is offered. An error resets
    [#running]. *)
Definition start_run (t : SessionTransport) (n : NormalizedOptions) (x : Executor) (prepare_is_function aborted : bool)
    (uuid : jstr) : res run_error Run * Executor :=
  if running x then (Throw AlreadyRunning, x)
  else if negb prepare_is_function then (Throw NoPrepare, x)
  else if aborted then (Throw SignalAborted, x)
  else
    let s := sessionRef n uuid in
    match (let* _ := registerSession t s false in read_active t n s true) with
    | Throw e => (Throw e, {| running := false; x_stats := x_stats x; x_reconnects := x_reconnects x |})
    | Ok initial =>
        let r := tasks_begin uuid (x_stats x) (x_reconnects x) (x_targetRevision initial) in
        (Ok (match x_release initial with
             | Some _ => rstep (loader_identity n) r (RTask (OOffer (Some initial)))
             | None => r
             end),
         {| running := true; x_stats := x_stats x; x_reconnects := x_reconnects x |})
    end.

(** ** What the options must be *)

Definition whitespace (s : jstr) : Prop := Forall (fun c => isJsWhitespace c = true) s.

(** [core] is [s] without the white space around it. *)
Definition trimmed (s core : jstr) : Prop :=
  exists before after, s = before ++ core ++ after /\ whitespace before /\ whitespace after /\
    (forall c, head core = Some c -> isJsWhitespace c = false) /\ (forall c, last core = Some c -> isJsWhitespace c = false).

(** The number of concurrent fetches: what is no positive number is 16. *)
Inductive fetches_made : option number -> number -> Prop :=
| fetches_missing : fetches_made None (of_Z 16)
| fetches_nan : fetches_made (Some NaN) (of_Z 16)
| fetches_infinite : fetches_made (Some (Infinite false)) (of_Z 16)
| fetches_low q : (q <= 0)%Q -> fetches_made (Some (Finite q)) (of_Z 16)
| fetches_given q w : (q == inject_Z w)%Q -> 1 <= w <= 256 -> fetches_made (Some (Finite q)) (Finite q).

(** The interval, a minute unless a positive one is given. *)
Inductive interval_made : option number -> number -> Prop :=
| interval_missing : interval_made None (of_Z 60000)
| interval_low q : (q <= 0)%Q -> interval_made (Some (Finite q)) (of_Z 60000)
| interval_given q : (0 < q)%Q -> interval_made (Some (Finite q)) (Finite q).

Inductive timeout_made : option number -> number -> Prop :=
| timeout_missing : timeout_made None (of_Z 5000)
| timeout_given q : (0 < q)%Q -> timeout_made (Some (Finite q)) (Finite q).

(** Every property is a string data property and is copied. *)
Inductive keys_made : binding_keys -> list (jstr * jstr) -> Prop :=
| keys_missing : keys_made KeysUndefined []
| keys_given keys : keys_made (KeysRecord ((fun k => (k.1, DataString k.2)) <$> keys)) keys.

(** Options that are accepted, with what is made of them. *)
Record normalized (uuid : jstr) (options : ReleaseLoaderOptions) (n : NormalizedOptions) : Prop := {
  nz_namespace : ro_namespace options = Some (no_namespace n);
  nz_env : ~ whitespace (env (no_namespace n));
  nz_app : ~ whitespace (app (no_namespace n));
  nz_name : trimmed (ro_name options) (no_name n) /\ no_name n <> [];
  nz_clientName : trimmed (ro_clientName options) (no_clientName n) /\ no_clientName n <> [];
  nz_instanceId : exists given, trimmed (default [] (ro_instanceId options)) given /\
    (given <> [] -> no_instanceId n = given) /\ (given = [] -> no_instanceId n = uuid);
  nz_schemaVersion : ro_schemaVersion options = Some (no_schemaVersion n) /\ 0 <= no_schemaVersion n < 2 ^ 64;
  nz_reconcile : interval_made (ro_reconcileIntervalMs options) (no_reconcileIntervalMs n);
  nz_fetches : fetches_made (ro_maxConcurrentFetches options) (no_maxConcurrentFetches n);
  nz_bindingKeys : keys_made (ro_bindingKeys options) (no_bindingKeys n);
  nz_timeout : timeout_made (ro_acknowledgementTimeoutMs options) (no_acknowledgementTimeoutMs n)
}.

(** No property of an object has the name of another. *)
Definition names_distinct (keys : binding_keys) : Prop :=
  match keys with KeysRecord ps => NoDup ps.*1 | _ => True end.

(** What the loader relies on: names without surrounding white space, an exact
    schema version, sizes that are finite and positive, at least one and at
    most 256 concurrent fetches. *)
Record well_formed (n : NormalizedOptions) : Prop := {
  wf_namespace : ~ whitespace (env (no_namespace n)) /\ ~ whitespace (app (no_namespace n));
  wf_name : no_name n <> [] /\ trimmed (no_name n) (no_name n);
  wf_clientName : no_clientName n <> [] /\ trimmed (no_clientName n) (no_clientName n);
  wf_instanceId : no_instanceId n <> [];
  wf_schemaVersion : 0 <= no_schemaVersion n < 2 ^ 64;
  wf_reconcile : exists q, no_reconcileIntervalMs n = Finite q /\ (0 < q)%Q;
  wf_timeout : exists q, no_acknowledgementTimeoutMs n = Finite q /\ (0 < q)%Q;
  wf_fetches : exists w q, no_maxConcurrentFetches n = Finite q /\ (q == inject_Z w)%Q /\ 1 <= w <= 256;
  wf_bindingKeys : map_wf (no_bindingKeys n)
}.

(** ** Trimming *)

Lemma trim_start_id s : (forall c, head s = Some c -> isJsWhitespace c = false) -> trim_start s = s.
Proof. destruct s as [|c s]; [done|]. intros H. simpl. by rewrite (H c eq_refl). Qed.
Lemma trim_start_white w s : whitespace w -> trim_start (w ++ s) = trim_start s.
Proof. induction 1 as [|c w Hc _ IH]; simpl; [done|]. by rewrite Hc. Qed.
Lemma trim_start_spec s : exists w, s = w ++ trim_start s /\ whitespace w /\
  forall c, head (trim_start s) = Some c -> isJsWhitespace c = false.
Proof.
  induction s as [|c s (w & E & Hw & Hh)]; [exists []; split; [done|split; [constructor|done]]|]. simpl. destruct (isJsWhitespace c) eqn:Hc.
  - exists (c :: w). split; [by rewrite E at 1|split; [by constructor|done]].
  - exists []. split; [done|split; [constructor|by intros ? [= <-]]].
Qed.
Lemma head_reverse {A} (l : list A) : head (reverse l) = last l.
Proof. induction l as [|x l _] using rev_ind; [done|]. by rewrite reverse_snoc, last_snoc. Qed.
Lemma whitespace_reverse w : whitespace (reverse w) <-> whitespace w.
Proof. apply Forall_reverse. Qed.

Lemma trim_trimmed s : trimmed s (trim s).
Proof.
  unfold trim. destruct (trim_start_spec s) as (w & E & Hw & Hh). set (t := trim_start s) in *.
  destruct (trim_start_spec (reverse t)) as (w' & E' & Hw' & Hh'). set (u := trim_start (reverse t)) in *.
  apply (f_equal reverse) in E'. rewrite reverse_involutive, reverse_app in E'. exists w, (reverse w').
  split_and!; [by rewrite E, E' at 1|done|by apply whitespace_reverse| |].
  - intros c Hc. apply Hh. rewrite E'. destruct (reverse u); done.
  - intros c Hc. apply Hh'. by rewrite <- (reverse_involutive u), head_reverse.
Qed.

Lemma trimmed_trim s core : trimmed s core -> trim s = core.
Proof.
  intros (w & w' & -> & Hw & Hw' & Hh & Hl). unfold trim. rewrite trim_start_white by done.
  destruct core as [|c core].
  { simpl. rewrite <- (app_nil_r w'), trim_start_white by done. done. }
  rewrite (trim_start_id ((c :: core) ++ w')) by (intros d [= <-]; by apply Hh).
  rewrite reverse_app, trim_start_white by by apply whitespace_reverse.
  rewrite trim_start_id; [apply reverse_involutive|]. intros d. rewrite head_reverse. apply Hl.
Qed.

Lemma trim_spec s core : trim s = core <-> trimmed s core.
Proof. split; [intros <-; apply trim_trimmed|apply trimmed_trim]. Qed.

Lemma trimmed_again s core : trimmed s core -> trimmed core core.
Proof. intros (_ & _ & _ & _ & _ & Hh & Hl). exists [], []. rewrite app_nil_r. by repeat split; try constructor. Qed.

Lemma blank_whitespace s : is_blank s = true <-> whitespace s.
Proof.
  unfold is_blank. rewrite bool_decide_eq_true, trim_spec. split.
  - intros (w & w' & -> & Hw & Hw' & _). by apply Forall_app.
  - intros H. exists s, []. rewrite app_nil_r. split_and!; done || constructor.
Qed.

(** ** Sizes and keys *)

Lemma is_positive_Q q : is_positive (Finite q) = true <-> (0 < q)%Q.
Proof. unfold Qlt. simpl. rewrite Z.ltb_lt. lia. Qed.
Lemma not_positive_Q q : is_positive (Finite q) = false <-> (q <= 0)%Q.
Proof. unfold Qle. simpl. rewrite Z.ltb_ge. lia. Qed.

Lemma isInteger_Q q : isInteger (Finite q) = true <-> exists w, (q == inject_Z w)%Q.
Proof.
  simpl. rewrite Z.eqb_eq, Z.mod_divide by done. unfold Qeq. simpl. split; intros [w Hw]; exists w; lia.
Qed.
Lemma exceeds_Q q w b : (q == inject_Z w)%Q -> exceeds (Finite q) b = false <-> w <= b.
Proof. unfold Qeq. simpl. rewrite Z.ltb_ge. intros H. nia. Qed.

Lemma fetches_iff requested n : normalize_fetches requested = Ok n <-> fetches_made requested n.
Proof.
  unfold normalize_fetches. split.
  - destruct requested as [[|[]|q]|]; simpl; try (by intros [= <-]; constructor); try done.
    destruct (0 <? Qnum q) eqn:Hp; rewrite ?andb_true_r, ?andb_false_r.
    + replace (Qnum q =? 0) with false by lia. simpl negb. cbv iota.
      destruct (_ || _) eqn:E; [done|]. intros [= <-]. apply orb_false_elim in E as [Hi He]. apply negb_false_iff in Hi.
      apply isInteger_Q in Hi as [w Hw]. apply (exceeds_Q q w) in He; [|done]. apply (fetches_given q w); [done|].
      apply is_positive_Q in Hp. rewrite Hw in Hp. unfold Qlt in Hp. simpl in Hp. unfold MAX_CONCURRENT_FETCHES in He. lia.
    + intros [= <-]. apply fetches_low. by apply not_positive_Q.
  - intros [| | |q Hq|q w Hw Hr]; try done.
    + apply not_positive_Q in Hq. rewrite Hq, andb_false_r. done.
    + assert (is_positive (Finite q) = true) as Hp. { apply is_positive_Q. rewrite Hw. unfold Qlt. simpl. lia. }
      rewrite Hp. simpl in Hp. simpl truthy. replace (Qnum q =? 0) with false by lia. simpl andb. cbv iota.
      rewrite (proj2 (isInteger_Q q)) by (by exists w). rewrite (proj2 (exceeds_Q q w MAX_CONCURRENT_FETCHES Hw)); [done|].
      unfold MAX_CONCURRENT_FETCHES. lia.
Qed.

Lemma interval_iff requested n : normalize_reconcile requested = Ok n <-> interval_made requested n.
Proof.
  unfold normalize_reconcile. split.
  - destruct requested as [[|[]|q]|]; try done; [|by intros [= <-]; constructor]. simpl default. simpl isFinite. simpl negb. cbv iota.
    destruct (is_positive (Finite q)) eqn:E; intros [= <-];
      [apply interval_given; by apply is_positive_Q|apply interval_low; by apply not_positive_Q].
  - intros [|q Hq|q Hq]; [done|apply not_positive_Q in Hq|apply is_positive_Q in Hq]; simpl default; by rewrite Hq.
Qed.

Lemma timeout_iff requested name n :
  positiveFinite (default (of_Z 5000) requested) name = Ok n <-> timeout_made requested n.
Proof.
  unfold positiveFinite. split.
  - destruct requested as [[|[]|q]|]; try done; [|by intros [= <-]; constructor]. cbn [default from_option id isFinite negb orb].
    destruct (is_positive (Finite q)) eqn:E; [|done]. intros [= <-]. apply timeout_given. by apply is_positive_Q.
  - intros [|q Hq]; [done|]. apply is_positive_Q in Hq. simpl default. by rewrite Hq.
Qed.

Lemma map_set_new {V} (k : jstr) (v : V) m : k ∉ m.*1 -> map_set k v m = m ++ [(k, v)].
Proof.
  induction m as [|[k' v'] m IH]; [done|]. csimpl. intros [Hk Hm]%not_elem_of_cons.
  rewrite decide_False by done. by rewrite IH.
Qed.

Lemma copy_keys_iff ps result keys :
  NoDup (result.*1 ++ ps.*1) ->
  copy_keys ps result = Ok keys <-> exists more, ps = (fun k => (k.1, DataString k.2)) <$> more /\ keys = result ++ more.
Proof.
  revert result. induction ps as [|[alias d] ps IH]; intros result Hn; simpl.
  - split; [intros [= <-]; exists []; by rewrite app_nil_r|]. intros ([|k more] & Hp & ->); [by rewrite app_nil_r|done].
  - destruct d as [| |v|]; try (split; [done|]; by intros ([|k more] & [=] & _)).
    csimpl in Hn. assert (alias ∉ result.*1) as Ha by (apply NoDup_app in Hn; set_solver).
    rewrite map_set_new by done. rewrite IH.
    2: { rewrite fmap_app, <- (assoc_L (++)). exact Hn. }
    split.
    + intros (more & -> & ->). exists ((alias, v) :: more). by rewrite <- (assoc_L (++)).
    + intros ([|[a w] more] & Hp & ->); [done|]. simpl in Hp. injection Hp as -> -> ->. exists more.
      by rewrite <- (assoc_L (++)).
Qed.

Lemma keys_iff input keys :
  names_distinct input -> normalizeBindingKeys input = Ok keys <-> keys_made input keys.
Proof.
  intros Hn. destruct input as [| |ps]; simpl.
  - split; [intros [= <-]; constructor|by inversion 1].
  - split; [done|by inversion 1].
  - rewrite (copy_keys_iff ps [] keys) by exact Hn. split; [intros (more & -> & ->); constructor|].
    inversion 1; subst. by exists keys.
Qed.

Lemma assertUint64_ok v name z : assertUint64 v name = Ok z <-> v = Some z /\ 0 <= z < 2 ^ 64.
Proof.
  unfold assertUint64. destruct v as [y|]; [|split; [done|by intros [? _]]].
  destruct ((y <? 0) || (2 ^ 64 - 1 <? y)) eqn:E.
  - apply orb_prop in E. split; [done|]. intros [[= ->] H]. destruct E as [E|E]; apply Z.ltb_lt in E; lia.
  - apply orb_false_elim in E as [E1 E2]. apply Z.ltb_ge in E1. apply Z.ltb_ge in E2.
    split; [intros [= ->]; split; [done|lia]|by intros [[= ->] _]].
Qed.

(** ** The whole *)

Lemma normalizeOptions_sound uuid options n :
  names_distinct (ro_bindingKeys options) -> normalizeOptions uuid options = Ok n -> normalized uuid options n.
Proof.
  intros Hd. unfold normalizeOptions. destruct (ro_namespace options) as [[e a]|] eqn:Hns; [|done]. simpl.
  destruct (is_blank e) eqn:He; [done|]. destruct (is_blank a) eqn:Ha; [done|]. simpl.
  case_bool_decide as Hn; [done|]. case_bool_decide as Hc; [done|].
  destruct (assertUint64 _ _) as [v|] eqn:Hv; [|done]. apply assertUint64_ok in Hv as [Hv Hr].
  destruct (normalize_reconcile _) as [i|] eqn:Hi; [|done]. apply interval_iff in Hi.
  destruct (normalize_fetches _) as [w|] eqn:Hw; [|done]. apply fetches_iff in Hw.
  destruct (normalizeBindingKeys _) as [keys|] eqn:Hk; [|done]. apply keys_iff in Hk; [|done].
  destruct (positiveFinite _ _) as [t|] eqn:Ht; [|done]. apply timeout_iff in Ht. intros [= <-].
  split; simpl; try done; try (by split; [apply trim_trimmed|]); try (by rewrite <- blank_whitespace; congruence).
  exists (trim (default [] (ro_instanceId options))). split; [apply trim_trimmed|]. by case_bool_decide.
Qed.

Lemma normalizeOptions_complete uuid options n :
  names_distinct (ro_bindingKeys options) -> normalized uuid options n -> normalizeOptions uuid options = Ok n.
Proof.
  intros Hd [H1 H2 H3 [H4 H4'] [H5 H5'] (g & Hg & Hg1 & Hg2) H7 H8 H9 H10 H11]. unfold normalizeOptions. rewrite H1.
  rewrite <- blank_whitespace in H2. apply not_true_is_false in H2. rewrite H2.
  rewrite <- blank_whitespace in H3. apply not_true_is_false in H3. rewrite H3. simpl.
  apply trim_spec in H4 as ->. rewrite bool_decide_eq_false_2 by done.
  apply trim_spec in H5 as ->. rewrite bool_decide_eq_false_2 by done.
  apply trim_spec in Hg as ->.
  rewrite (proj2 (assertUint64_ok _ _ _) H7), (proj2 (interval_iff _ _) H8), (proj2 (fetches_iff _ _) H9), (proj2 (keys_iff _ _ Hd) H10),
    (proj2 (timeout_iff _ _ _) H11).
  destruct n as [[e a] name client version instance i f keys t]. simpl in *. repeat f_equal.
  case_bool_decide; symmetry; auto.
Qed.

Lemma normalized_well_formed uuid options n :
  uuid <> [] -> names_distinct (ro_bindingKeys options) -> normalized uuid options n -> well_formed n.
Proof.
  intros Hu Hd [H1 H2 H3 [H4 H4'] [H5 H5'] (g & Hg & Hg1 & Hg2) [_ H7] H8 H9 H10 H11].
  split; try done; try (by split; [|by eapply trimmed_again]).
  - destruct (decide (g = [])) as [->|Hne]; [by rewrite Hg2|by rewrite Hg1].
  - destruct H8; eexists; (split; [done|]); done.
  - destruct H11; eexists; (split; [done|]); done.
  - destruct H9 as [| | | |q w Hw Hr]; [exists 16; eexists; split_and!; [done|done|lia|lia]..|by exists w, q].
  - destruct H10 as [|keys]; [constructor|]. unfold map_wf. simpl in Hd. by rewrite <- list_fmap_compose in Hd.
Qed.

(** C34: options are accepted exactly when they are valid, and what is made of
    them is fixed by them and by the random identifier. Accepted are options
    - whose namespace, name and client name have a character that is no white
      space; the names are trimmed, and so is an instance identifier, which is
      the random one when that leaves nothing;
    - whose schema version is a bigint of 64 bits;
    - whose interval is absent or finite (a minute unless positive), whose
      number of concurrent fetches is absent, [NaN] or not positive (then 16)
      or an integer up to 256, and whose timeout is absent (five seconds) or
      positive and finite;
    - whose binding keys are absent or a record with string data properties
      only, which are copied, all of them.
    The result is well formed, whatever defaults apply. *)
Theorem options_well_formed uuid options :
  uuid <> [] -> names_distinct (ro_bindingKeys options) ->
  forall n, (normalizeOptions uuid options = Ok n <-> normalized uuid options n) /\
            (normalizeOptions uuid options = Ok n -> well_formed n).
Proof.
  intros Hu Hd n. split.
  - split; [by apply normalizeOptions_sound|by apply normalizeOptions_complete].
  - intros H. by eapply normalized_well_formed, normalizeOptions_sound.
Qed.

(** A run starts only after the session was registered and its target read,
    and then with that target as the first candidate, if it has a release;
    a run that does not start leaves the loader as it was. *)
Theorem run_starts t n x prepare_is_function aborted uuid :
  match start_run t n x prepare_is_function aborted uuid with
  | (Throw e, x') => x' = x /\ (running x = true -> e = AlreadyRunning)
  | (Ok r, x') =>
      running x = false /\ running x' = true /\ prepare_is_function = true /\ aborted = false /\
      registerReleaseSession t (sessionRef n uuid) false = Some true /\
      exists target, getInstanceRelease t (sessionRef n uuid) = Some target /\
        (exists xs, loader r = run (loader_identity n) (run_begin uuid (x_stats x) (x_reconnects x) (x_targetRevision target)) xs) /\
        forall release, x_release target = Some release ->
          releaseMatchesTrack release (o_track (loader_identity n)) = true /\
          exists c, c_release c = release /\ latest (loader r) = Some c /\
            task (loader r) = Some {| t_candidate := c; t_aborted := false; t_phase := Resolving |}
  end.
Proof.
  unfold start_run. destruct (running x) eqn:Hx; [done|]. destruct prepare_is_function; [|done]. destruct aborted; [done|]. simpl.
  assert ({| running := false; x_stats := x_stats x; x_reconnects := x_reconnects x |} = x) as Ex by (destruct x; simpl in *; by subst).
  unfold registerSession. destruct (has_registerReleaseSession t); [|done]. destruct (has_getInstanceRelease t) eqn:Hg; [|done]. simpl.
  destruct (registerReleaseSession t (sessionRef n uuid) false) as [[|]|] eqn:Hreg; try done.
  unfold read_active. rewrite Hg. simpl. destruct (getInstanceRelease t (sessionRef n uuid)) as [target|] eqn:Ht; [|done].
  unfold getActive. destruct (x_release target) as [release|] eqn:Hr.
  2: { rewrite Hr. split_and!; try done. exists target. split_and!; [done|by exists []|by rewrite Hr]. }
  destruct (releaseMatchesTrack release _) eqn:Hm; [|done]. rewrite Hr. split_and!; try done. exists target. split_and!; [done| |].
  - exact (rstep_project (loader_identity n) (tasks_begin uuid (x_stats x) (x_reconnects x) (x_targetRevision target)) (RTask (OOffer (Some target)))).
  - intros release' Hr'. rewrite Hr in Hr'. injection Hr' as <-. split; [done|].
    unfold lift. rewrite loader_schedule. simpl. unfold active_candidate, getActive. rewrite Hr. simpl. rewrite Hm, Hr.
    unfold offer, offer_ignored. simpl. rewrite Hm. simpl. eexists. split; [|done]. done.
Qed.

(** ** Witnesses *)

Definition demo_options : ReleaseLoaderOptions :=
  {| ro_namespace := Some {| env := js "prod"; app := js "web" |}; ro_name := js " main "; ro_clientName := js "web";
     ro_schemaVersion := Some 3; ro_instanceId := None; ro_reconcileIntervalMs := None;
     ro_maxConcurrentFetches := Some (of_Z (-4)); ro_bindingKeys := KeysRecord [(js "db", DataString (js "key"))];
     ro_acknowledgementTimeoutMs := None |}.

Lemma options_well_formed_witness :
  exists n, normalizeOptions (js "u1") demo_options = Ok n /\ normalized (js "u1") demo_options n /\ well_formed n /\
    no_name n = js "main" /\ no_maxConcurrentFetches n = of_Z 16 /\ no_bindingKeys n = [(js "db", js "key")].
Proof.
  eexists. split; [vm_compute; reflexivity|].
  match goal with |- normalized ?u ?o ?n /\ _ => destruct (options_well_formed u o ltac:(discriminate) ltac:(repeat constructor; apply not_elem_of_nil) n) as [H1 H2] end.
  split; [apply H1; vm_compute; reflexivity|]. split; [apply H2; vm_compute; reflexivity|].
  repeat split; vm_compute; reflexivity.
Defined.
