(* ===== verification/Managed.v ===== *)
(** * Managed: [sdk/typescript/src/configstore/manager.ts].

    The drift and restart policy a managed configuration puts around the
    release loader. [#prepareSnapshot] is cut at its [await]: [prepare_begin]
    runs when the loader calls it, [prepare_end] when the application's
    prepare callback has settled; the loader continues in a later step. The
    functions it returns to the loader, [commit] and [abort], are run when the
    loader's trace says it calls them. Observers' return values and throws
    are isolated by the source ([try]/[catch], discarded promises), so a call
    of one is an entry of the trace and nothing else. *)
From stdpp Require Import prelude gmap list strings.
From Stdlib Require Import ZArith Lia.
From S2P Require Import Prelude JsString JsMap Unicode Decimal Errors Refs DefaultsArtifact Release Resolve Loader.
From S2P Require Import LoaderProofs Clone CloneProofs Reports Contract.
Set Warnings "-register-all".

(** ** What the application's prepare callback gives *)

(** A value that is expected to be an array and may be missing. *)
Inductive raw_array (A : Type) := Absent | NotArray | Items (l : list A).
Arguments Absent {A}.
Arguments NotArray {A}.
Arguments Items {A} l.

(** [FieldDifference] or [FieldChange] as it arrives; the path may be no string. *)
Record RawField := { rf_path : option jstr; rf_first : jsval; rf_second : jsval }.

(** A property of the groups record: an accessor, no string, or a document. *)
Inductive raw_group := GroupAccessor | GroupNoString | GroupDocument (s : jstr).
Inductive raw_groups := GroupsAbsent | GroupsNoRecord | Groups (l : list (jstr * raw_group)).

Record ManagedPreparedCandidate := {
  mc_publish : option callback;
  mc_abort : option callback;
  mc_defaultDifferences : raw_array RawField;
  mc_restartRequiredFields : raw_array (option jstr);
  mc_changed : raw_array RawField;
  mc_groups : raw_groups
}.

(** A thrown value: a [CandidateError], or another one with what it carries
    as its category for the loader. *)
Inductive thrown := TCandidate (e : CandidateError) | TOther (property : option jstr).

Definition thrown_property (e : thrown) : option jstr :=
  match e with TCandidate c => ClassifiedReleaseError (ce_category c) | TOther p => p end.

(** ** Defensive copies; any failure is a [TypeError] *)

Definition requireString (v : option jstr) : option jstr := v.

Fixpoint clone_fields (h : heap) (fs : list RawField) : option (heap * list Field) :=
  match fs with
  | [] => Some (h, [])
  | f :: fs =>
      match requireString (rf_path f) with
      | None => None
      | Some path =>
          match cloneConfig h (rf_first f) with
          | Throw _ => None
          | Ok (h, a) =>
              match cloneConfig h (rf_second f) with
              | Throw _ => None
              | Ok (h, b) =>
                  match clone_fields h fs with
                  | Some (h, fs) => Some (h, {| f_path := path; f_first := a; f_second := b |} :: fs)
                  | None => None
                  end
              end
          end
      end
  end.

(** [cloneDifferences] and [cloneChanges] *)
Definition cloneFields (h : heap) (fs : raw_array RawField) : option (heap * list Field) :=
  match fs with Absent => Some (h, []) | NotArray => None | Items l => clone_fields h l end.

Definition cloneRestartFields (fs : raw_array (option jstr)) : option (list jstr) :=
  match fs with Absent => Some [] | NotArray => None | Items l => mapM requireString l end.

Definition group_document (g : raw_group) : option jstr :=
  match g with GroupDocument s => requireString (Some s) | _ => None end.

Definition cloneGroups (gs : raw_groups) : option (list (jstr * jstr)) :=
  match gs with
  | GroupsAbsent => Some []
  | GroupsNoRecord => None
  | Groups l => mapM (fun p => (fun d => (p.1, d)) <$> group_document p.2) l
  end.

(** ** State *)

(** What [#prepareSnapshot] closes over when it returns. *)
Record Prepared := {
  p_identity : ConfigIdentity;
  p_phase : Phase;
  p_divergent : bool;
  p_fieldCount : Z;
  p_restart : list jstr;
  p_changes : list Field;
  p_groups : list (jstr * jstr);
  p_publish : callback;
  p_abort : callback
}.

(** Calls into the application. *)
Inductive call :=
| OnDefaultMismatch (r : DefaultMismatchReport)
| OnApplied (r : AppliedReport)
| OnCandidateRejected (r : CandidateRejectionReport)
| Publish (p : Prepared)
| AbortCandidate (c : callback).

Record PolicyOptions := { opt_name : jstr; opt_onApplied : bool; opt_onCandidateRejected : bool }.

Record Manager := {
  ready : bool;
  observed : ConfigIdentity;
  applied : ConfigIdentity;
  m_divergent : bool;
  lastReportedKey : jstr;
  lastRejectedKey : jstr;
  calls : list call
}.

Definition new_Manager : Manager :=
  {| ready := false; observed := zero_identity; applied := zero_identity; m_divergent := false; lastReportedKey := [];
     lastRejectedKey := []; calls := [] |}.

Definition with_calls (m : Manager) (cs : list call) : Manager :=
  {| ready := ready m; observed := observed m; applied := applied m; m_divergent := m_divergent m;
     lastReportedKey := lastReportedKey m; lastRejectedKey := lastRejectedKey m; calls := calls m ++ cs |}.

Definition with_observed (m : Manager) (i : ConfigIdentity) : Manager :=
  {| ready := ready m; observed := i; applied := applied m; m_divergent := m_divergent m;
     lastReportedKey := lastReportedKey m; lastRejectedKey := lastRejectedKey m; calls := calls m |}.

Definition with_keys (m : Manager) (reported rejected : jstr) : Manager :=
  {| ready := ready m; observed := observed m; applied := applied m; m_divergent := m_divergent m;
     lastReportedKey := reported; lastRejectedKey := rejected; calls := calls m |}.

Section manager.
Context (options : PolicyOptions).

(** ** Reports *)

Definition notifyCandidateRejected (m : Manager) (identity : ConfigIdentity) (error : thrown) : Manager :=
  match error with
  | TOther _ => m
  | TCandidate e =>
      if negb (opt_onCandidateRejected options) then m
      else if bool_decide (lastRejectedKey m = dedupeKey identity) then m
      else with_calls (with_keys m (lastReportedKey m) (dedupeKey identity))
             [OnCandidateRejected (new_CandidateRejectionReport (ce_category e) identity (ce_paths e))]
  end.

Definition reportOnce (m : Manager) (identity : ConfigIdentity) (report : DefaultMismatchReport) : Manager :=
  if bool_decide (lastReportedKey m = dedupeKey identity) then m
  else with_calls (with_keys m (dedupeKey identity) (lastRejectedKey m)) [OnDefaultMismatch report].

Definition notifyApplied (h : heap) (m : Manager) (p : Prepared) : Manager :=
  if negb (opt_onApplied options) then m
  else match new_AppliedReport h (p_phase p) (p_identity p) (p_divergent p) (p_changes p) (p_groups p) with
  | Ok (_, report) => with_calls m [OnApplied report]
  | Throw _ => m
  end.

(** [observeManifest] and [rejectManifest], called around the validator. *)
Definition observeManifest (m : Manager) (i : ConfigIdentity) : Manager := with_observed m i.
Definition rejectManifest (m : Manager) (i : ConfigIdentity) (error : thrown) : Manager := notifyCandidateRejected m i error.

(** ** [#prepareSnapshot] *)

Record Preparation := { q_identity : ConfigIdentity; q_startup : bool }.

Definition prepare_begin (m : Manager) (snapshot : ReleaseIdentity) : res thrown (Manager * Preparation) :=
  match identity_from snapshot with
  | Throw _ => Throw (TOther None)
  | Ok identity => Ok (with_observed m identity, {| q_identity := identity; q_startup := negb (ready m) |})
  end.

(** [#abortOrInternal]: on these paths [abort] has not been called before. *)
Definition abortOrInternal (m : Manager) (abort : callback) (identity : ConfigIdentity) : Manager * res thrown unit :=
  let m := with_calls m [AbortCandidate abort] in
  match abort with
  | ReturnsUndefined => (m, Ok tt)
  | _ => let error := TCandidate (new_CandidateError internal_category []) in
         (notifyCandidateRejected m identity error, Throw error)
  end.

(** Abort the candidate, then reject it with [error], reported or not. *)
Definition abort_and_throw (m : Manager) (abort : callback) (identity : ConfigIdentity) (error : thrown) (report : bool)
  : Manager * res thrown Prepared :=
  match abortOrInternal m abort identity with
  | (m, Throw e) => (m, Throw e)
  | (m, Ok _) => (if report then notifyCandidateRejected m identity error else m, Throw error)
  end.

Definition prepare_end (h : heap) (m : Manager) (q : Preparation) (signal_aborted : bool)
    (outcome : res thrown (option ManagedPreparedCandidate)) : Manager * res thrown Prepared :=
  let identity := q_identity q in
  match outcome with
  | Throw error => (notifyCandidateRejected m identity error, Throw error)
  | Ok candidate =>
      let abort := default ReturnsUndefined (candidate ≫= mc_abort) in
      match candidate, candidate ≫= mc_publish with
      | Some candidate, Some publish =>
          if signal_aborted then abort_and_throw m abort identity (TOther None) false
          else
            match cloneFields h (mc_defaultDifferences candidate) with
            | None => abort_and_throw m abort identity (TCandidate (new_CandidateError internal_category [])) true
            | Some (h, differences) =>
                match cloneRestartFields (mc_restartRequiredFields candidate), cloneFields h (mc_changed candidate),
                      cloneGroups (mc_groups candidate) with
                | Some restart, Some (h, changes), Some groups =>
                    if negb (q_startup q) && negb (bool_decide (restart = []))
                    then abort_and_throw m abort identity (TCandidate (new_CandidateError restart_required restart)) true
                    else
                      let phase := if q_startup q then startup_phase else runtime_phase in
                      let divergent := negb (bool_decide (differences = [])) in
                      let prepared :=
                        {| p_identity := identity; p_phase := phase; p_divergent := divergent;
                           p_fieldCount := Z.of_nat (length differences); p_restart := restart;
                           p_changes := if q_startup q then [] else changes; p_groups := groups;
                           p_publish := publish; p_abort := abort |} in
                      if divergent then
                        match new_DefaultMismatchReport h phase identity differences with
                        | Ok (_, report) => (reportOnce m identity report, Ok prepared)
                        | Throw _ => (m, Throw (TOther None))
                        end
                      else (m, Ok prepared)
                | _, _, _ => abort_and_throw m abort identity (TCandidate (new_CandidateError internal_category [])) true
                end
            end
      | _, _ => abort_and_throw m abort identity (TCandidate (new_CandidateError config_validation_failed [])) true
      end
  end.

(** ** The functions handed to the loader *)

(** [commit]: what it returns is [commit_callback]. *)
Definition commit (h : heap) (m : Manager) (p : Prepared) : Manager :=
  let m := with_calls m [Publish p] in
  match p_publish p with
  | ReturnsUndefined =>
      notifyApplied h
        {| ready := true; observed := observed m; applied := p_identity p; m_divergent := p_divergent p;
           lastReportedKey := if p_divergent p then lastReportedKey m else []; lastRejectedKey := lastRejectedKey m;
           calls := calls m |} p
  | _ => m
  end.

Definition commit_callback (p : Prepared) : callback :=
  match p_publish p with ReturnsUndefined => ReturnsUndefined | _ => CallbackThrows end.

Definition prepared_release (p : Prepared) : PreparedRelease :=
  {| on_commit := commit_callback p; on_abort := p_abort p;
     on_divergence := Reports (p_divergent p) (Some (p_fieldCount p)) |}.

(** ** [status] and [stats] *)

Definition status_observed (m : Manager) (u : Status) : res jstr ConfigIdentity :=
  if negb (c_version (observed m) =? u_observedVersion u) || negb (c_targetRevision (observed m) =? u_observedRevision u)
  then new_ConfigIdentity
         {| n_namespace := Some (c_namespace (observed m)); n_name := Some (opt_name options);
            n_version := Some (u_observedVersion u); n_activationRevision := Some (u_observedActivationRevision u);
            n_targetRevision := Some (u_observedRevision u); n_schemaVersion := Some (c_schemaVersion (observed m));
            n_digest := None |}
  else Ok (observed m).

Record ManagedConfigStatus := {
  ms_state : option ReleaseState;
  ms_ready : bool;
  ms_observed : ConfigIdentity;
  ms_applied : ConfigIdentity;
  ms_defaultDivergent : bool;
  ms_lastRejectionCategory : option ReleaseRejectionCategory;
  ms_reconnects : Z
}.

Definition status_of (m : Manager) (u : Status) : res jstr ManagedConfigStatus :=
  let* obs := status_observed m u in
  Ok {| ms_state := u_state u; ms_ready := ready m; ms_observed := obs; ms_applied := applied m;
        ms_defaultDivergent := m_divergent m; ms_lastRejectionCategory := u_lastFailureCategory u;
        ms_reconnects := u_reconnects u |}.

Record ManagedConfigStats := {
  mt_candidates : Z;
  mt_applied : Z;
  mt_rejected : list (ReleaseRejectionCategory * Z);
  mt_reconnects : Z;
  mt_defaultDivergent : bool;
  mt_appliedReleaseVersion : Z;
  mt_appliedActivationRevision : Z
}.

Definition stats_of (m : Manager) (n : Stats) : ManagedConfigStats :=
  {| mt_candidates := n_candidates n; mt_applied := n_applied n; mt_rejected := n_rejected n;
     mt_reconnects := n_reconnects n; mt_defaultDivergent := m_divergent m;
     mt_appliedReleaseVersion := c_version (applied m); mt_appliedActivationRevision := c_activationRevision (applied m) |}.

(** [wait()] once the run has completed with an error or without one; an
    abort after readiness is a normal shutdown. *)
Definition wait (m : Manager) (completion : option (bool * jstr)) : res jstr unit :=
  match completion with
  | None => Ok tt
  | Some (is_abort, error) => if ready m && is_abort then Ok tt else Throw error
  end.
End manager.

(** ** [LocalConfigManager]: a validated local generation *)

Definition local_status : ManagedConfigStatus :=
  {| ms_state := Some applied_state; ms_ready := true; ms_observed := zero_identity; ms_applied := zero_identity;
     ms_defaultDivergent := false; ms_lastRejectionCategory := None; ms_reconnects := 0 |}.
Definition local_stats : ManagedConfigStats :=
  {| mt_candidates := 1; mt_applied := 1; mt_rejected := []; mt_reconnects := 0; mt_defaultDivergent := false;
     mt_appliedReleaseVersion := 0; mt_appliedActivationRevision := 0 |}.

(** ** [startManagedConfig]: what is checked before the loader is created *)

(** Each flag says that the value is a function; [si_onApplied] is [None]
    when the callback is not provided. *)
Record StartInput := {
  si_client : bool;
  si_prepare : bool;
  si_onDefaultMismatch : bool;
  si_onApplied : option bool;
  si_release : option jstr;
  si_contract : option (list RawContractEntry)
}.

Definition start_checks (i : StartInput) : res jstr (jstr * (bool -> ReleaseIdentity -> validation)) :=
  if negb (si_client i) then Throw (js "configstore: KmsClient-compatible release client is required")
  else if negb (si_prepare i) then Throw (js "configstore: prepare callback is required")
  else if negb (si_onDefaultMismatch i) then Throw (js "configstore: onDefaultMismatch callback is required")
  else if negb (default true (si_onApplied i)) then Throw (js "configstore: onApplied must be a function when provided")
  else
    let release := match si_release i with Some r => trim r | None => [] end in
    if bool_decide (release = []) then Throw (js "configstore: release is required")
    else
      let* contract := validateContract (si_contract i) in
      let* validator := createManifestValidator
        (Some (map (fun e => {| rc_alias := Some (k_alias e); rc_kind := kind_text (k_kind e);
                                rc_contentType := Some (k_contentType e) |}) contract)) in
      Ok (release, validator).
