(* ===== verification/ManagedSpec.v ===== *)
(** * ManagedSpec: the managed configuration over the release loader.

    The two components run together: the loader decides when the manager's
    prepare, commit and abort functions are called, and every interleaving of
    their steps is a list of operations. What is proved is about the whole:
    what gets published, what the two statuses say, and what was reported. *)
From stdpp Require Import prelude gmap list strings.
From Stdlib Require Import ZArith Lia Sorted.
From S2P Require Import Prelude JsString JsMap Unicode Decimal Errors Refs DefaultsArtifact Release Resolve Loader.
From S2P Require Import LoaderProofs Clone CloneProofs Reports Contract Managed.

(** ** The composed system *)

(** Where the manager's part of a preparation stands: not running, waiting
    for the application, or returned to the loader. *)
Inductive stage := Idle | Awaiting (q : Preparation) | Returned (r : res thrown Prepared).

Record System := { ld : Loader; mg : Manager; stg : stage; held : option Prepared }.

(** The identity of the snapshot resolved for a candidate, as
    [#resolveCandidate] builds it (its entries are not read here). *)
Definition candidate_identity (c : Candidate) : ReleaseIdentity :=
  let r := c_release c in
  {| i_namespace := match r_namespace r with Some ns => namespacePath ns | None => [] end; i_name := r_name r;
     i_version := r_version r; i_activationRevision := c_fleetRevision c; i_targetRevision := c_revision c;
     i_schemaVersion := r_schemaVersion r; i_digest := r_digest r; i_metadataJson := r_metadataJson r; i_entries := [] |}.

Inductive mop :=
| MLoader (x : op)
| MManifest (i : ConfigIdentity) (rejection : option thrown)
| MResolved (outcome : res ResolutionError unit)
| MPrepared (h : heap) (outcome : res thrown (option ManagedPreparedCandidate))
| MContinue
| MActive (h : heap) (answer : option InstanceReleaseTarget).

(** The steps of the loader that talk to the manager have operations of
    their own. *)
Definition adapter (x : op) : bool :=
  match x with OResolved _ | OPrepared _ | OActive _ => true | _ => false end.

Section system.
Context (o : Identity) (options : PolicyOptions).

(** The calls the loader has just made into the functions it was given. *)
Definition perform (h : heap) (p : option Prepared) (m : Manager) (e : effect) : Manager :=
  match e, p with
  | CallCommit _, Some p => commit options h m p
  | CallAbort _, Some p => with_calls m [AbortCandidate (p_abort p)]
  | _, _ => m
  end.

Definition performed (h : heap) (p : option Prepared) (l l' : Loader) (m : Manager) : Manager :=
  foldl (perform h p) m (drop (length (trace l)) (trace l')).

Definition managed_step (s : System) (x : mop) : System :=
  match x with
  | MLoader y => if adapter y then s else {| ld := step o (ld s) y; mg := mg s; stg := stg s; held := held s |}
  | MManifest i rejection =>
      let m := observeManifest (mg s) i in
      {| ld := ld s; mg := match rejection with Some e => rejectManifest options m i e | None => m end;
         stg := stg s; held := held s |}
  | MResolved outcome =>
      let l := on_resolved (ld s) outcome in
      match task (ld s), outcome with
      | Some {| t_candidate := c; t_phase := Resolving |}, Ok _ =>
          match prepare_begin (mg s) (candidate_identity c) with
          | Ok (m, q) => {| ld := l; mg := m; stg := Awaiting q; held := None |}
          | Throw e => {| ld := l; mg := mg s; stg := Returned (Throw e); held := None |}
          end
      | _, _ => {| ld := l; mg := mg s; stg := stg s; held := held s |}
      end
  | MPrepared h outcome =>
      match stg s, task (ld s) with
      | Awaiting q, Some t =>
          let '(m, r) := prepare_end options h (mg s) q (t_aborted t) outcome in
          {| ld := ld s; mg := m; stg := Returned r; held := None |}
      | _, _ => s
      end
  | MContinue =>
      match stg s with
      | Returned (Throw e) => {| ld := on_prepared (ld s) (Throw (thrown_property e)); mg := mg s; stg := Idle; held := None |}
      | Returned (Ok p) =>
          let l := on_prepared (ld s) (Ok (prepared_release p)) in
          {| ld := l; mg := performed [] (Some p) (ld s) l (mg s); stg := Idle; held := Some p |}
      | _ => s
      end
  | MActive h answer =>
      let l := on_active o (ld s) answer in
      {| ld := l; mg := performed h (held s) (ld s) l (mg s); stg := stg s; held := held s |}
  end.

Definition managed_start (id : jstr) (st : Stats) (reconnects rev : Z) : System :=
  {| ld := run_begin id st reconnects rev; mg := new_Manager; stg := Idle; held := None |}.

Definition managed_run (s : System) (ops : list mop) : System := foldl managed_step s ops.
End system.

(** ** What the loader does to the task between the manager's steps *)

(** The candidate being prepared or checked, with its phase. *)
Definition engaged (l : Loader) : option (Candidate * phase) :=
  match task l with
  | Some t => match t_phase t with Preparing | Checking _ => Some (t_candidate t, t_phase t) | _ => None end
  | None => None
  end.

(** The last applied release of the loader's status. *)
Definition applied_of (l : Loader) : Z * Z * Z :=
  (u_appliedVersion (status l), u_appliedRevision (status l), u_appliedActivationRevision (status l)).

Definition undisturbed (l l' : Loader) : Prop := engaged l' = engaged l /\ applied_of l' = applied_of l.

(** Every call of [publish], successful or not. *)
Definition published (cs : list call) : list Prepared :=
  omap (fun c => match c with Publish p => Some p | _ => None end) cs.

Lemma undisturbed_refl l : undisturbed l l.
Proof. done. Qed.

Lemma offer_undisturbed o l c : undisturbed l (offer o l c).
Proof.
  unfold offer. destruct (offer_ignored o l c); [done|]. cbv zeta. unfold undisturbed, engaged. simpl.
  destruct (task l) as [[c0 ab ph]|]; simpl; [by destruct ph|done].
Qed.

Lemma start_pending_undisturbed l : task l = None -> undisturbed l (start_pending l).
Proof.
  intros Ht. unfold start_pending. destruct (pending l); [|done]. destruct (runAborted l); [done|].
  unfold undisturbed, engaged. by rewrite Ht.
Qed.

Lemma on_settled_undisturbed l : undisturbed l (on_settled l).
Proof.
  unfold on_settled. destruct (task l) as [[c ab ph]|] eqn:Ht; [|done]. destruct ph as [| | |r]; try done. cbv zeta.
  assert (forall l', task l' = None -> applied_of l' = applied_of l -> undisturbed l (start_pending l')) as H.
  { intros l' H1 H2. destruct (start_pending_undisturbed l' H1) as [E1 E2]. split; [|congruence].
    rewrite E1. unfold engaged. by rewrite H1, Ht. }
  assert (forall l', task l' = None -> applied_of l' = applied_of l -> undisturbed l l') as H'.
  { intros l' H1 H2. split; [|done]. unfold engaged. by rewrite H1, Ht. }
  destruct (cr_fatal r); [by apply H'|]. destruct (negb (bool_decide _)); [by apply H|].
  destruct (cr_category r); [|by apply H]. case_bool_decide; [by apply H|]. destruct (negb _); [by apply H'|by apply H].
Qed.

Lemma step_undisturbed o l x : adapter x = false -> undisturbed l (step o l x).
Proof.
  destruct x as [answer|out|out|answer| |k answer|k| |rev x|rev|e|s|s|s| | |s replay|k]; simpl; try done; intros _.
  - destruct (active_candidate o answer); [apply offer_undisturbed|done].
  - apply on_settled_undisturbed.
  - unfold on_fresh. destruct (startups l !! k) as [[r|r|]|]; try done. destruct (active_candidate o answer); [|done].
    destruct (sameActiveCandidate _ _); [done|]. apply (offer_undisturbed o (set_startup l k StartupDone)).
  - unfold on_acknowledged. destruct (startups l !! k) as [[r|r|]|]; try done. by destruct (cr_category r).
  - unfold undisturbed, engaged, abort_run. simpl. destruct (task l) as [[c ab ph]|]; [by destruct ph|done].
  - unfold on_target. destruct (x_release x); [|done]. destruct (_ && _); [|done].
    destruct (offer_undisturbed o (advance_seen l rev) (makeCandidate c (x_targetRevision x) reconciliation_source 0 (x_activationRevision x))) as [E1 E2].
    unfold advance_seen in *. by destruct (_ <? _).
  - unfold advance_seen. by destruct (_ <? _).
  - unfold handleAcknowledgementRejected. destruct (isReleaseState _); [|done]. destruct (_ || _); [done|].
    destruct (map_get _ _); [|done]. cbv zeta. by destruct (_ || _).
  - unfold stream_closed. by case_bool_decide.
  - unfold flush_step. by destruct (flushes l !! k) as [[s [|y rest]]|].
Qed.

(** ** What the manager's own steps leave alone *)

Definition is_publish (c : call) : bool := match c with Publish _ => true | _ => false end.

(** The candidates whose [publish] succeeded, in order. *)
Definition publications (cs : list call) : list Prepared :=
  omap (fun c => match c with Publish p => match p_publish p with ReturnsUndefined => Some p | _ => None end | _ => None end) cs.

(** A mismatch report for this identity has been delivered. *)
Definition reported (cs : list call) (key : jstr) : Prop :=
  exists r, OnDefaultMismatch r ∈ cs /\ dedupeKey (d_release r) = key.

Lemma reported_app cs ds key : reported cs key -> reported (cs ++ ds) key.
Proof. intros (r & Hr & ?). exists r. split; [apply elem_of_app; by left|done]. Qed.

Record quiet (m m' : Manager) : Prop := {
  qt_ready : ready m' = ready m;
  qt_applied : applied m' = applied m;
  qt_divergent : m_divergent m' = m_divergent m;
  qt_calls : exists cs, calls m' = calls m ++ cs /\ Forall (fun c => is_publish c = false) cs;
  qt_key : lastReportedKey m' = lastReportedKey m \/ reported (calls m') (lastReportedKey m')
}.

Lemma quiet_refl m : quiet m m.
Proof. split; try done; [|by left]. exists []. by rewrite app_nil_r. Qed.

Lemma quiet_trans m1 m2 m3 : quiet m1 m2 -> quiet m2 m3 -> quiet m1 m3.
Proof.
  intros [A1 B1 C1 (cs & D1 & E1) F1] [A2 B2 C2 (ds & D2 & E2) F2]. split; try congruence.
  - exists (cs ++ ds). rewrite D2, D1, <- app_assoc. split; [done|]. by apply Forall_app.
  - destruct F2 as [->|F2]; [|by right]. destruct F1 as [F1|F1]; [by left|]. right. rewrite D2. by apply reported_app.
Qed.

Lemma quiet_calls m c : is_publish c = false -> quiet m (with_calls m [c]).
Proof. intros Hc. split; try done; [|by left]. exists [c]. split; [done|by repeat constructor]. Qed.

Lemma quiet_observed m i : quiet m (with_observed m i).
Proof. split; try done; [|by left]. exists []. by rewrite app_nil_r. Qed.

Lemma quiet_notify options m i e : quiet m (notifyCandidateRejected options m i e).
Proof.
  unfold notifyCandidateRejected. destruct e as [e|]; [|apply quiet_refl].
  destruct (negb _); [apply quiet_refl|]. case_bool_decide; [apply quiet_refl|].
  split; try done; [|by left]. eexists. split; [done|by repeat constructor].
Qed.

Lemma quiet_report m i r : d_release r = i -> quiet m (reportOnce m i r).
Proof.
  intros Hr. unfold reportOnce. case_bool_decide; [apply quiet_refl|]. split; try done; [exists [OnDefaultMismatch r]; split; [done|by repeat constructor]|].
  right. exists r. simpl. rewrite Hr. split; [apply elem_of_app; right; left|done].
Qed.

Lemma quiet_abort options m a i : quiet m (abortOrInternal options m a i).1.
Proof.
  unfold abortOrInternal. cbv zeta. assert (quiet m (with_calls m [AbortCandidate a])) as H by (by apply quiet_calls).
  destruct a; cbn [fst]; [done|..]; (eapply quiet_trans; [exact H|apply quiet_notify]).
Qed.

Lemma quiet_abort_throw options m a i e b m' r :
  abort_and_throw options m a i e b = (m', r) -> quiet m m' /\ is_ok r = false.
Proof.
  unfold abort_and_throw. pose proof (quiet_abort options m a i) as H.
  destruct (abortOrInternal options m a i) as [m1 [[]|e1]]; intros [= <- <-]; simpl in H; [|done].
  split; [|done]. destruct b; [|done]. eapply quiet_trans; [done|apply quiet_notify].
Qed.

(** The last reported key is that of a delivered report. *)
Definition key_ok (m : Manager) : Prop := lastReportedKey m <> [] -> reported (calls m) (lastReportedKey m).

Lemma quiet_key m m' : quiet m m' -> key_ok m -> key_ok m'.
Proof.
  unfold key_ok. intros [_ _ _ (cs & Hc & _) [Hk|Hk]] H Hne; [|done]. rewrite Hc, Hk in *. by apply reported_app, H.
Qed.

Lemma dedupeKey_nonempty i : dedupeKey i <> [].
Proof. unfold dedupeKey. intros H. apply app_eq_nil in H as [_ H]. by apply app_eq_nil in H as [? _]. Qed.

Lemma quiet_applied options h m p : quiet m (notifyApplied options h m p).
Proof.
  unfold notifyApplied. destruct (negb (opt_onApplied options)); [apply quiet_refl|].
  destruct (new_AppliedReport _ _ _ _ _ _) as [[? ?]|]; [by apply quiet_calls|apply quiet_refl].
Qed.

(** ** What a finished preparation guarantees *)

Definition prepared_ok (startup : bool) (cs : list call) (p : Prepared) : Prop :=
  (p_phase p = if startup then startup_phase else runtime_phase) /\
  (if startup then p_changes p = [] else p_restart p = []) /\
  (p_divergent p = true -> reported cs (dedupeKey (p_identity p))).

Lemma prepare_end_ok options h m q aborted outcome m' r :
  prepare_end options h m q aborted outcome = (m', r) -> key_ok m ->
  quiet m m' /\ forall p, r = Ok p -> p_identity p = q_identity q /\ prepared_ok (q_startup q) (calls m') p.
Proof.
  intros He Hkey. unfold prepare_end in He. destruct outcome as [candidate|e]; [|injection He as <- <-; split; [apply quiet_notify|done]].
  assert (forall a i e b m' r, abort_and_throw options m a i e b = (m', r) ->
    quiet m m' /\ forall p, r = Ok p -> p_identity p = q_identity q /\ prepared_ok (q_startup q) (calls m') p) as Habort.
  { intros a i e b m1 r1 H%quiet_abort_throw. destruct H as [H1 H2]. split; [done|]. by intros p ->. }
  cbv zeta in He. destruct candidate as [c|]; simpl in He; [|by eapply Habort].
  destruct (mc_publish c) as [publish|]; [|by eapply Habort]. destruct aborted; [by eapply Habort|].
  destruct (cloneFields h (mc_defaultDifferences c)) as [[h1 differences]|]; [|by eapply Habort].
  destruct (cloneRestartFields _) as [restart|]; [|by eapply Habort].
  destruct (cloneFields h1 _) as [[h2 changes]|]; [|by eapply Habort].
  destruct (cloneGroups _) as [groups|]; [|by eapply Habort].
  destruct (negb (q_startup q) && _) eqn:Er; [by eapply Habort|].
  assert (q_startup q = false -> restart = []) as Hrestart.
  { intros Hq. rewrite Hq in Er. simpl in Er. apply negb_false_iff in Er. by apply bool_decide_eq_true in Er. }
  clear Er. case_bool_decide as Hd; simpl in He.
  - injection He as <- <-. split; [apply quiet_refl|]. intros p [= <-]. split; [done|]. split; [done|]. simpl.
    split; [|done]. destruct (q_startup q); [done|by apply Hrestart].
  - destruct (new_DefaultMismatchReport _ _ _ _) as [[h3 report]|] eqn:Erep; [|injection He as <- <-; split; [apply quiet_refl|done]].
    assert (d_release report = q_identity q) as Hrel.
    { unfold new_DefaultMismatchReport in Erep. destruct (clone_report_fields _ _) as [[? ?]|]; [|done]. by injection Erep as <- <-. }
    injection He as <- <-. split; [by apply quiet_report|]. intros p [= <-]. split; [done|]. split; [done|]. simpl.
    split; [destruct (q_startup q); [done|by apply Hrestart]|]. intros _. unfold reportOnce. case_bool_decide as Hk.
    + rewrite <- Hk. apply Hkey. rewrite Hk. apply dedupeKey_nonempty.
    + exists report. simpl. rewrite Hrel. split; [apply elem_of_app; right; left|done].
Qed.

(** ** The loader's steps that call the manager *)

Definition no_commit (e : effect) : Prop := match e with CallCommit _ => False | _ => True end.

(** A step of the loader that commits nothing; [k'] is the candidate engaged
    after it. *)
Record calm (l l' : Loader) (k' : option (Candidate * phase)) : Prop := {
  cm_trace : exists es, trace l' = trace l ++ es /\ Forall no_commit es;
  cm_applied : applied_of l' = applied_of l;
  cm_engaged : engaged l' = k'
}.

Lemma calm_refl l : calm l l (engaged l).
Proof. split; try done. exists []. by rewrite app_nil_r. Qed.

Lemma abort_reject_calm l t p cat :
  calm l (abort_and_reject l t p cat) None.
Proof.
  split; [exists [CallAbort (t_candidate t)]; split; [apply abort_reject_trace|by repeat constructor]|..];
    unfold abort_and_reject; by destruct (abort_error _).
Qed.

Lemma on_resolved_calm l out :
  calm l (on_resolved l out)
    (match task l, out with
     | Some {| t_candidate := c; t_phase := Resolving |}, Ok _ => Some (c, Preparing)
     | _, _ => engaged l
     end).
Proof.
  unfold on_resolved. destruct (task l) as [[c ab ph]|] eqn:Ht; [|apply calm_refl]. destruct ph; try apply calm_refl.
  assert (engaged l = None) as He by (unfold engaged; by rewrite Ht).
  destruct out as [[]|e].
  - split; [|done|done]. exists [CallPrepare c]. split; [done|by repeat constructor].
  - split; [|done|by rewrite He]. exists []. by rewrite app_nil_r.
Qed.

Lemma on_prepared_calm l c out : engaged l = Some (c, Preparing) ->
  exists k', calm l (on_prepared l out) k' /\ (k' = None \/ exists p, out = Ok p /\ k' = Some (c, Checking p)).
Proof.
  unfold engaged at 1. intros He. unfold on_prepared. destruct (task l) as [[c0 ab ph]|] eqn:Ht; [|done].
  destruct ph; simplify_eq/=. destruct out as [p|e].
  - destruct ab.
    + exists None. split; [|by left]. destruct (abort_reject_calm (emit l (GotPrepared c)) {| t_candidate := c; t_aborted := true; t_phase := Preparing |} p superseded) as [(es & H1 & H2) H3 H4].
      split; [|done|done]. exists (GotPrepared c :: es). cbv zeta. rewrite H1. simpl. rewrite <- app_assoc. split; [done|by constructor].
    + exists (Some (c, Checking p)). split; [|right; by exists p]. split; [|done|done].
      exists [GotPrepared c]. split; [done|by repeat constructor].
  - exists None. split; [|by left]. split; [|done|done]. exists []. by rewrite app_nil_r.
Qed.

(** The active read either commits nothing, or commits what is checked. *)
Lemma on_active_cases o l answer :
  calm l (on_active o l answer) (engaged l) \/
  (calm l (on_active o l answer) None /\ exists c pr, engaged l = Some (c, Checking pr)) \/
  exists c pr, engaged l = Some (c, Checking pr) /\ trace (on_active o l answer) = trace l ++ [CallCommit c] /\
    engaged (on_active o l answer) = None /\
    applied_of (on_active o l answer) =
      match commit_error (on_commit pr) with
      | None => (r_version (c_release c), c_revision c, c_fleetRevision c)
      | Some _ => applied_of l
      end.
Proof.
  unfold on_active. destruct (task l) as [[c ab ph]|] eqn:Ht; [|left; apply calm_refl].
  destruct ph as [| |pr|]; try (left; apply calm_refl). simpl. right.
  assert (engaged l = Some (c, Checking pr)) as He by (unfold engaged; by rewrite Ht).
  destruct (active_candidate o answer) as [act|]; [|left; split; [apply abort_reject_calm|by exists c, pr]].
  destruct (ab || _); [left; split; [apply abort_reject_calm|by exists c, pr]|].
  right. exists c, pr. split; [done|]. by destruct (commit_error (on_commit pr)).
Qed.

Lemma perform_quiet options h p m es : Forall no_commit es -> quiet m (foldl (perform options h p) m es).
Proof.
  intros H. revert m. induction H as [|e es He _ IH]; intros m; simpl; [apply quiet_refl|].
  eapply quiet_trans; [|apply IH]. destruct e; simpl; try apply quiet_refl; [done|].
  destruct p; [by apply quiet_calls|apply quiet_refl].
Qed.

Lemma performed_calm options h p l l' m k : calm l l' k -> quiet m (performed options h p l l' m).
Proof. intros [(es & H1 & H2) _ _]. unfold performed. rewrite H1, drop_app_length. by apply perform_quiet. Qed.

(** ** Publication *)

Definition divergence_reported (cs : list call) : Prop :=
  forall pre p post, cs = pre ++ Publish p :: post -> p_divergent p = true -> reported pre (dedupeKey (p_identity p)).

Lemma reported_quiet cs ds : divergence_reported cs -> Forall (fun c => is_publish c = false) ds -> divergence_reported (cs ++ ds).
Proof.
  intros H Hd pre p post He. apply app_eq_app in He as (k & [[-> Hk]|[-> Hk]]).
  - destruct k as [|c k]; simpl in Hk.
    + subst ds. inversion Hd as [|? ? Hbad _]. done.
    + injection Hk as <- _. by apply (H pre p k).
  - subst ds. apply Forall_app in Hd as [_ Hd]. inversion Hd as [|? ? Hbad _]. done.
Qed.

Lemma reported_publish cs p : divergence_reported cs -> (p_divergent p = true -> reported cs (dedupeKey (p_identity p))) ->
  divergence_reported (cs ++ [Publish p]).
Proof.
  intros H Hp pre q post He. destruct post as [|c post] using rev_ind.
  - apply app_inj_2 in He as [<- [= <-]]; [|done]. done.
  - clear IHpost. rewrite app_comm_cons, app_assoc in He. apply app_inj_2 in He as [He _]; [|done]. by apply (H pre q post).
Qed.

Lemma publications_quiet cs ds : Forall (fun c => is_publish c = false) ds -> publications (cs ++ ds) = publications cs.
Proof.
  intros H. unfold publications. rewrite omap_app.
  assert (omap (fun c => match c with Publish p => match p_publish p with ReturnsUndefined => Some p | _ => None end | _ => None end) ds = []) as ->; [|by rewrite app_nil_r].
  induction H as [|c ds Hc _ IH]; simpl; [done|]. by destruct c.
Qed.

(** The state of the manager is that of the last publication. *)
Definition state_ok (m : Manager) : Prop :=
  match last (publications (calls m)) with
  | None => ready m = false /\ applied m = zero_identity /\ m_divergent m = false
  | Some p => ready m = true /\ applied m = p_identity p /\ m_divergent m = p_divergent p
  end.

(** The first publication is the startup one; no later one changes a field
    that needs a restart. *)
Definition history_ok (ps : list Prepared) : Prop :=
  match ps with
  | [] => True
  | p :: ps => p_phase p = startup_phase /\ p_changes p = [] /\
               Forall (fun p => p_phase p = runtime_phase /\ p_restart p = []) ps
  end.

Record manager_ok (m : Manager) : Prop := {
  mo_key : key_ok m;
  mo_state : state_ok m;
  mo_history : history_ok (publications (calls m));
  mo_reported : divergence_reported (calls m)
}.

Lemma quiet_ok m m' : quiet m m' -> manager_ok m -> manager_ok m'.
Proof.
  intros Q [H1 H2 H3 H4]. pose proof (quiet_key _ _ Q H1). destruct Q as [E1 E2 E3 (cs & E4 & Hcs) _].
  split; [done|..]; unfold state_ok; rewrite ?E1, ?E2, ?E3, E4, ?publications_quiet by done; try done.
  by apply reported_quiet.
Qed.

Lemma commit_ok options h m p : manager_ok m -> prepared_ok (negb (ready m)) (calls m) p ->
  manager_ok (commit options h m p) /\
  ready (commit options h m p) = (ready m || match p_publish p with ReturnsUndefined => true | _ => false end) /\
  applied (commit options h m p) = match p_publish p with ReturnsUndefined => p_identity p | _ => applied m end.
Proof.
  intros [H1 H2 H3 H4] (P1 & P2 & P3). unfold commit. cbv zeta.
  pose proof (reported_publish _ _ H4 P3) as Hrep.
  assert (key_ok (with_calls m [Publish p])) as Hkey by (intros Hne; simpl; by apply reported_app, H1).
  destruct (p_publish p) eqn:Ep; [|split; [split; [done|..]|split; [by rewrite orb_false_r|done]]..].
  2-7: try (unfold state_ok; simpl; unfold publications in *; rewrite omap_app; simpl; rewrite Ep, app_nil_r); done.
  set (m1 := {| ready := true |}).
  assert (publications (calls m1) = publications (calls m) ++ [p]) as Hpub.
  { unfold m1, publications. simpl. rewrite omap_app. simpl. by rewrite Ep. }
  assert (manager_ok m1) as Hm1.
  { split; [|unfold state_ok; rewrite Hpub, last_snoc; done| |done].
    - unfold m1, key_ok. simpl. destruct (p_divergent p); [|done]. intros Hne. by apply reported_app, H1.
    - rewrite Hpub. unfold state_ok in H2. destruct (publications (calls m)) as [|p0 ps] eqn:E; simpl.
      + destruct H2 as (Hr & _). rewrite Hr in *. simpl in *. done.
      + destruct (last (p0 :: ps)) eqn:El; [|by apply last_None in El]. destruct H2 as (Hr & _). rewrite Hr in *. simpl in *.
        destruct H3 as (? & ? & ?). split_and!; try done. apply Forall_app. split; [done|]. by repeat constructor. }
  assert (quiet m1 (notifyApplied options h m1 p)) as Q.
  { apply quiet_applied. }
  split; [by eapply quiet_ok|]. rewrite (qt_ready _ _ Q), (qt_applied _ _ Q). by rewrite orb_true_r.
Qed.

(** ** The invariant of the composed system *)

Definition identity_triple (i : ConfigIdentity) : Z * Z * Z := (c_version i, c_targetRevision i, c_activationRevision i).

(** What is prepared for the candidate [c]. *)
Definition prepared_for (m : Manager) (c : Candidate) (p : Prepared) : Prop :=
  identity_from (candidate_identity c) = Ok (p_identity p) /\ prepared_ok (negb (ready m)) (calls m) p.

Record sys_ok (s : System) : Prop := {
  so_manager : manager_ok (mg s);
  so_status : applied_of (ld s) = identity_triple (applied (mg s));
  so_commits : Forall2 (fun p c => identity_from (candidate_identity c) = Ok (p_identity p))
                 (published (calls (mg s))) (commits (trace (ld s)));
  so_await : forall q, stg s = Awaiting q -> exists c, engaged (ld s) = Some (c, Preparing) /\
    identity_from (candidate_identity c) = Ok (q_identity q) /\ q_startup q = negb (ready (mg s));
  so_returned : forall r, stg s = Returned r -> exists c, engaged (ld s) = Some (c, Preparing) /\
    forall p, r = Ok p -> prepared_for (mg s) c p;
  so_checking : forall c pr, engaged (ld s) = Some (c, Checking pr) ->
    exists p, held s = Some p /\ pr = prepared_release p /\ prepared_for (mg s) c p
}.

Lemma identity_from_triple c i : identity_from (candidate_identity c) = Ok i ->
  identity_triple i = (r_version (c_release c), c_revision c, c_fleetRevision c).
Proof.
  unfold identity_from, new_ConfigIdentity, assertUint64. simpl. intros H. by repeat (case_match; simplify_eq/=).
Qed.

Lemma prepared_for_quiet m m' c p : quiet m m' -> prepared_for m c p -> prepared_for m' c p.
Proof.
  intros [Hr _ _ (cs & Hc & _) _] (H1 & H2 & H3 & H4). unfold prepared_for, prepared_ok. rewrite Hr.
  split; [done|]. split; [done|]. split; [done|]. intros Hd. rewrite Hc. by apply reported_app, H4.
Qed.

Lemma published_quiet m m' : quiet m m' -> published (calls m') = published (calls m).
Proof.
  intros [_ _ _ (cs & -> & Hcs) _]. unfold published. rewrite omap_app.
  assert (omap (fun c => match c with Publish p => Some p | _ => None end) cs = []) as ->; [|by rewrite app_nil_r].
  induction Hcs as [|c cs Hc _ IH]; simpl; [done|]. by destruct c.
Qed.

Lemma calm_commits l l' k : calm l l' k -> commits (trace l') = commits (trace l).
Proof.
  intros [(es & -> & Hes) _ _]. rewrite commits_app.
  assert (commits es = []) as ->; [|by rewrite app_nil_r].
  induction Hes as [|e es He _ IH]; [done|]. by destruct e.
Qed.

Lemma step_no_commit o l x : adapter x = false -> commits (trace (step o l x)) = commits (trace l).
Proof. intros Hx. destruct (step_commits o l x) as [H|(c & Hc & _)]; [done|]. by destruct Hc. Qed.

(** Steps that publish nothing. *)
Lemma quiet_step s l' m' st' hl' :
  sys_ok s -> quiet (mg s) m' -> applied_of l' = applied_of (ld s) -> commits (trace l') = commits (trace (ld s)) ->
  (forall q, st' = Awaiting q -> exists c, engaged l' = Some (c, Preparing) /\
     identity_from (candidate_identity c) = Ok (q_identity q) /\ q_startup q = negb (ready m')) ->
  (forall r, st' = Returned r -> exists c, engaged l' = Some (c, Preparing) /\ forall p, r = Ok p -> prepared_for m' c p) ->
  (forall c pr, engaged l' = Some (c, Checking pr) -> exists p, hl' = Some p /\ pr = prepared_release p /\ prepared_for m' c p) ->
  sys_ok {| ld := l'; mg := m'; stg := st'; held := hl' |}.
Proof.
  intros [H1 H2 H3 _ _ _] Q Ha Hc A B C. split; simpl; try done; [by eapply quiet_ok|by rewrite Ha, (qt_applied _ _ Q)|].
  rewrite Hc. by rewrite (published_quiet _ _ Q).
Qed.

(** The obligations of [quiet_step] when stage and engagement are kept. *)
Lemma kept_step s l' m' :
  sys_ok s -> quiet (mg s) m' -> undisturbed (ld s) l' -> commits (trace l') = commits (trace (ld s)) ->
  sys_ok {| ld := l'; mg := m'; stg := stg s; held := held s |}.
Proof.
  intros S Q [He Ha] Hcm. apply (quiet_step s); try done.
  - intros q Hq. destruct (so_await _ S q Hq) as (c & ? & ? & ?). exists c. rewrite He, (qt_ready _ _ Q). done.
  - intros r Hr. destruct (so_returned _ S r Hr) as (c & ? & Hp). exists c. rewrite He. split; [done|].
    intros p Hrp. by eapply prepared_for_quiet, Hp.
  - intros c pr. rewrite He. intros Hc. destruct (so_checking _ S c pr Hc) as (p & ? & ? & ?). exists p.
    split; [done|]. split; [done|]. by eapply prepared_for_quiet.
Qed.

Lemma resolved_step o options s out : sys_ok s -> sys_ok (managed_step o options s (MResolved out)).
Proof.
  intros S. simpl. pose proof (on_resolved_calm (ld s) out) as C. pose proof (calm_commits _ _ _ C) as Hcm. destruct C as [_ Ha He].
  assert (engaged (on_resolved (ld s) out) = engaged (ld s) ->
    sys_ok {| ld := on_resolved (ld s) out; mg := mg s; stg := stg s; held := held s |}) as Hkeep.
  { intros E. by apply kept_step; [|apply quiet_refl| |]. }
  destruct (task (ld s)) as [[c ab ph]|] eqn:Ht; [|by apply Hkeep]. destruct ph; try by apply Hkeep.
  destruct out as [[]|e]; [|by apply Hkeep]. unfold prepare_begin.
  destruct (identity_from (candidate_identity c)) as [i|e] eqn:Ei.
  - apply (quiet_step s); [done|apply quiet_observed|done|done|..]; try done.
    + intros q [= <-]. exists c. done.
    + rewrite He. done.
  - apply (quiet_step s); [done|apply quiet_refl|done|done|..]; try done.
    + intros r [= <-]. exists c. done.
    + rewrite He. done.
Qed.

Lemma prepared_step o options s h out : sys_ok s -> sys_ok (managed_step o options s (MPrepared h out)).
Proof.
  intros S. simpl. destruct (stg s) as [|q|] eqn:Eq; try done. destruct (task (ld s)) as [t|]; [|done].
  destruct (prepare_end _ _ _ _ _ _) as [m r] eqn:E.
  destruct (so_await _ S q Eq) as (c & He & Hi & Hs).
  apply prepare_end_ok in E as [Q Hr]; [|apply S].
  apply (quiet_step s); try done.
  - intros r' [= <-]. exists c. split; [done|]. intros p Hp. destruct (Hr p Hp) as [Hpi Hpo].
    split; [by rewrite Hpi|]. by rewrite (qt_ready _ _ Q), <- Hs.
  - rewrite He. done.
Qed.

Lemma continue_step o options s : sys_ok s -> sys_ok (managed_step o options s MContinue).
Proof.
  intros S. simpl. destruct (stg s) as [|q|r] eqn:Eq; try done.
  destruct (so_returned _ S r Eq) as (c & He & Hp).
  destruct r as [p|e].
  - destruct (on_prepared_calm (ld s) c (Ok (prepared_release p)) He) as (k' & C & Hk).
    pose proof (performed_calm options [] (Some p) _ _ (mg s) _ C) as Q.
    apply (quiet_step s); [done|done|apply C|by eapply calm_commits|done|done|]. intros c' pr. rewrite (cm_engaged _ _ _ C).
    destruct Hk as [->|(p' & [= <-] & ->)]; [done|]. intros [= <- <-]. exists p. split; [done|]. split; [done|].
    by eapply prepared_for_quiet, Hp.
  - destruct (on_prepared_calm (ld s) c (Throw (thrown_property e)) He) as (k' & C & Hk).
    apply (quiet_step s); [done|apply quiet_refl|apply C|by eapply calm_commits|done|done|]. intros c' pr. rewrite (cm_engaged _ _ _ C).
    destruct Hk as [->|(p' & ? & ->)]; done.
Qed.

Lemma commit_published options h m p : published (calls (commit options h m p)) = published (calls m) ++ [p].
Proof.
  unfold commit. cbv zeta. destruct (p_publish p); [rewrite (published_quiet _ _ (quiet_applied _ _ _ _))|..]; simpl;
    unfold published; by rewrite omap_app.
Qed.

(** While something is being checked, nothing is being prepared. *)
Lemma checking_idle s c pr : sys_ok s -> engaged (ld s) = Some (c, Checking pr) -> stg s = Idle.
Proof.
  intros S He. destruct (stg s) as [|q|r] eqn:Es; [done|..].
  - destruct (so_await _ S q Es) as (c' & H & _). congruence.
  - destruct (so_returned _ S r Es) as (c' & H & _). congruence.
Qed.

Lemma active_step o options s h answer : sys_ok s -> sys_ok (managed_step o options s (MActive h answer)).
Proof.
  intros S. simpl. destruct (on_active_cases o (ld s) answer) as [C|[(C & c & pr & He)|(c & pr & He & Htr & He' & Ha)]].
  - apply kept_step; [done|by eapply performed_calm| |by eapply calm_commits]. split; [apply C|apply C].
  - pose proof (checking_idle _ _ _ S He) as Hidle.
    apply (quiet_step s); [done|by eapply performed_calm|apply C|by eapply calm_commits|..]; rewrite (cm_engaged _ _ _ C), ?Hidle; done.
  - pose proof (checking_idle _ _ _ S He) as Hidle.
    destruct (so_checking _ S c pr He) as (p & Hh & -> & Hid & Hpo).
    unfold performed. rewrite Htr, drop_app_length, Hh. simpl.
    destruct (commit_ok options h (mg s) p (so_manager _ S) Hpo) as (M & _ & Happ).
    split; simpl; rewrite ?He', ?Hidle; try done.
    + rewrite Ha, Happ. simpl. unfold commit_callback. destruct (p_publish p); simpl; [|apply S..].
      by rewrite (identity_from_triple _ _ Hid).
    + rewrite Htr, commits_app, commit_published. apply Forall2_app; [apply S|]. by repeat constructor.
Qed.

Lemma managed_step_ok o options s x : sys_ok s -> sys_ok (managed_step o options s x).
Proof.
  intros S. destruct x as [y|i rej|out|h out| |h answer].
  - simpl. destruct (adapter y) eqn:E; [done|]. apply kept_step; [done|apply quiet_refl|by apply step_undisturbed|by apply step_no_commit].
  - simpl. apply kept_step; [done| |done|done].
    destruct rej as [e|]; [|apply quiet_observed]. eapply quiet_trans; [apply quiet_observed|apply quiet_notify].
  - by apply resolved_step.
  - by apply prepared_step.
  - by apply continue_step.
  - by apply active_step.
Qed.

Lemma managed_run_ok o options id st rec rev ops : sys_ok (managed_run o options (managed_start id st rec rev) ops).
Proof.
  unfold managed_run. induction ops as [|x ops IH] using rev_ind; [|rewrite foldl_snoc; by apply managed_step_ok].
  split; simpl; try done. split; try done.
  - intros Hne. by destruct Hne.
  - intros pre p post He. by destruct pre.
Qed.

(** The loader of the composed system goes through a run of its own, so what
    is proved of the loader holds of it. *)
Lemma managed_loader o options s x : exists ys, ld (managed_step o options s x) = run o (ld s) ys.
Proof.
  destruct x as [y|i rej|out|h out| |h answer]; simpl.
  - destruct (adapter y); [by exists []|by exists [y]].
  - by exists [].
  - exists [OResolved out]. simpl. destruct (task (ld s)) as [[c ab ph]|]; [|done]. destruct ph; try done.
    destruct out; [|done]. by destruct (prepare_begin _ _) as [[? ?]|].
  - exists []. simpl. destruct (stg s); try done. destruct (task (ld s)); [|done]. by destruct (prepare_end _ _ _ _ _ _).
  - destruct (stg s) as [|q|[p|e]]; [by exists []..|by exists [OPrepared (Ok (prepared_release p))]|
      by exists [OPrepared (Throw (thrown_property e))]].
  - by exists [OActive answer].
Qed.

Lemma managed_run_loader o options s ops : exists ys, ld (managed_run o options s ops) = run o (ld s) ys.
Proof.
  unfold managed_run. induction ops as [|x ops (ys & IH)] using rev_ind; [by exists []|]. rewrite foldl_snoc.
  destruct (managed_loader o options (foldl (managed_step o options) s ops) x) as (zs & ->). exists (ys ++ zs).
  rewrite IH. unfold run. by rewrite foldl_app.
Qed.

(** C7: publication. In every interleaving of the loader and the manager the
    calls of [publish] are exactly the loader's commits, in order and each
    with the identity of its candidate; while the run has not settled the
    published revisions never go back. The first successful one is the startup
    generation, without a change list; none of the later ones changes a field
    that needs a restart. The manager is ready exactly when there is one, and
    its applied identity and divergence, and the applied release of the
    loader's status, are those of the last. *)
Theorem managed_publication o options id st reconnects rev ops :
  let s := managed_run o options (managed_start id st reconnects rev) ops in
  Forall2 (fun p c => identity_from (candidate_identity c) = Ok (p_identity p))
    (published (calls (mg s))) (commits (trace (ld s))) /\
  (finished (ld s) = None ->
     StronglySorted (fun a b => c_sequence a < c_sequence b /\ c_revision a <= c_revision b) (commits (trace (ld s)))) /\
  history_ok (publications (calls (mg s))) /\ state_ok (mg s) /\
  applied_of (ld s) = identity_triple (applied (mg s)).
Proof.
  intros s. pose proof (managed_run_ok o options id st reconnects rev ops) as S. fold s in S.
  split; [apply S|]. split; [|split; [apply S|split; [apply S|apply S]]]. intros Hf.
  destruct (managed_run_loader o options (managed_start id st reconnects rev) ops) as (ys & Hys). fold s in Hys.
  pose proof (run_queue o id st reconnects rev ys) as Hq. simpl in Hys. rewrite <- Hys in Hq. by apply Hq.
Qed.

(** Divergence is never silent. Whenever a generation that differs from
    the source defaults is published, in any interleaving, a mismatch report
    for its identity has been delivered to the application before. *)
Theorem divergent_publication_reported o options id st reconnects rev ops pre p post :
  let s := managed_run o options (managed_start id st reconnects rev) ops in
  calls (mg s) = pre ++ Publish p :: post -> p_divergent p = true ->
  exists r, OnDefaultMismatch r ∈ pre /\ dedupeKey (d_release r) = dedupeKey (p_identity p).
Proof. intros s. apply (mo_reported _ (so_manager _ (managed_run_ok o options id st reconnects rev ops))). Qed.

(** ** Witness *)

Definition demo_policy : PolicyOptions := {| opt_name := js "main"; opt_onApplied := true; opt_onCandidateRejected := true |}.
Definition demo_candidate_of (restart : raw_array (option jstr)) : ManagedPreparedCandidate :=
  {| mc_publish := Some ReturnsUndefined; mc_abort := None;
     mc_defaultDifferences := Items [{| rf_path := Some (js "db.pool"); rf_first := Prim Null; rf_second := Prim (BigInt 3) |}];
     mc_restartRequiredFields := restart; mc_changed := Absent; mc_groups := GroupsAbsent |}.

(** A generation that diverges from the defaults is published; the next one
    changes a field that needs a restart and is refused. *)
Definition demo_round (v rev : Z) (restart : raw_array (option jstr)) : list mop :=
  [MLoader (OTarget rev (demo_target v rev)); MResolved (Ok tt); MPrepared [] (Ok (Some (demo_candidate_of restart)));
   MContinue; MActive [] (Some (demo_target v rev)); MLoader OSettled].
Definition demo_mops : list mop :=
  demo_round 4 8 (Items [Some (js "db.pool")]) ++ demo_round 5 9 (Items [Some (js "db.pool")]).
Abbreviation demo_managed := (managed_run demo_identity demo_policy (managed_start (js "s") initial_stats 0 0) demo_mops).

(** The call log around the first publication. *)
Definition split_publish (cs : list call) : option (list call * Prepared * list call) :=
  match cs with
  | c :: Publish p :: post => Some ([c], p, post)
  | _ => None
  end.

Lemma split_publish_eq cs pre p post : split_publish cs = Some (pre, p, post) -> cs = pre ++ Publish p :: post.
Proof. unfold split_publish. intros H. by repeat (case_match; simplify_eq/=). Qed.

Example demo_managed_rejects :
  map p_restart (published (calls (mg demo_managed))) = [[js "db.pool"]] /\
  c_version (applied (mg demo_managed)) = 4 /\ u_observedVersion (status (ld demo_managed)) = 5 /\
  u_lastFailureCategory (status (ld demo_managed)) = Some restart_required.
Proof. by vm_compute. Qed.

Lemma divergent_publication_reported_witness :
  match split_publish (calls (mg demo_managed)) with
  | Some (pre, p, post) => exists r, OnDefaultMismatch r ∈ pre /\ dedupeKey (d_release r) = dedupeKey (p_identity p)
  | None => False
  end.
Proof.
  assert (match split_publish (calls (mg demo_managed)) with Some (_, p, _) => p_divergent p | None => false end = true) as Hd
    by (vm_compute; reflexivity).
  destruct (split_publish (calls (mg demo_managed))) as [[[pre p] post]|] eqn:E; [|discriminate Hd].
  apply split_publish_eq in E.
  exact (divergent_publication_reported demo_identity demo_policy (js "s") initial_stats 0 0 demo_mops pre p post E Hd).
Defined.
