(* ===== verification/LineDiff.v ===== *)
(** * LineDiff: [frontend/lib/line-diff.ts].

    The console's line diff: the common prefix and suffix are trimmed, the
    middle is aligned over a longest-common-subsequence table kept in one flat
    [Uint32Array], and the result is numbered, zipped side by side and folded.
    Texts and lines are UTF-16 strings, indices naturals, table cells 32-bit.

    [lcs] is the specification: the length of a longest common subsequence.
    The diff reads back to both texts, no diff keeps more lines, every line
    carries its own line number, and the views show what the sequence holds.
    The side-by-side and fold loops run on fuel, one unit a row, as each round
    consumes a row; the number of context rows is a natural number. *)
From stdpp Require Import prelude list strings.
From Stdlib Require Import ZArith Lia.
From S2P Require Import Prelude JsString Unicode.

(** ** Data *)

Inductive DiffOp := same | add | del.
#[global] Instance DiffOp_eq_dec : EqDecision DiffOp.
Proof. solve_decision. Defined.

Record DiffLine := { op : DiffOp; text : jstr; left : option Z; right : option Z }.
Definition plain (o : DiffOp) (t : jstr) : DiffLine := {| op := o; text := t; left := None; right := None |}.

Inductive RowKind := same_row | change_row.
#[global] Instance RowKind_eq_dec : EqDecision RowKind.
Proof. solve_decision. Defined.

(** A side of a row: a line number and its text. *)
Definition Cell : Type := option (Z * jstr).
Record DiffRow := { kind : RowKind; row_left : Cell; row_right : Cell }.

Record DiffResult := { lines : list DiffLine; added : Z; removed : Z; truncated : bool }.

Definition HIGHLIGHT_MAX_BYTES : Z := 200 * 1024.
Definition DIFF_MAX_BYTES : Z := HIGHLIGHT_MAX_BYTES.
Definition MAX_TABLE_CELLS : Z := 2000000.

Definition byteLength (s : jstr) : Z := Z.of_nat (length (utf8_encode s)).

(** ** Alignment *)

Definition splitText (t : jstr) : list jstr := if bool_decide (t = []) then [] else split_on 10 t.

(** What is stored in a cell of a [Uint32Array]. *)
Definition uint32 (z : Z) : Z := z mod 2 ^ 32.

Section align.
Context (a b : list jstr).

Definition width : nat := S (length b).
Definition index (i j : nat) : nat := (i * width + j)%nat.

(** The value the loop body computes for the cell of row [i], column [j]. *)
Definition cell (t : list Z) (i j : nat) : Z :=
  if bool_decide (a !! i = b !! j) then t !!! index (S i) (S j) + 1
  else Z.max (t !!! index (S i) j) (t !!! index i (S j)).

(** The inner loop, [j] counting down. *)
Fixpoint fill_row (i j : nat) (t : list Z) : list Z :=
  match j with
  | O => t
  | S j => fill_row i j (<[index i j := uint32 (cell t i j)]> t)
  end.

(** The outer loop, [i] counting down. *)
Fixpoint fill_table (i : nat) (t : list Z) : list Z :=
  match i with
  | O => t
  | S i => fill_table i (fill_row i (length b) t)
  end.

Definition lcs_table : list Z := fill_table (length a) (replicate (S (length a) * width) 0).

(** The three loops that walk the table; each round of the first advances in
    [a] or in [b]. *)
Fixpoint walk (fuel : nat) (t : list Z) (i j : nat) : list DiffLine :=
  match fuel with
  | O => []
  | S fuel =>
      match a !! i, b !! j with
      | Some x, Some y =>
          if bool_decide (x = y) then plain same x :: walk fuel t (S i) (S j)
          else if t !!! index i (S j) <=? t !!! index (S i) j then plain del x :: walk fuel t (S i) j
          else plain add y :: walk fuel t i (S j)
      | _, _ => (plain del <$> drop i a) ++ (plain add <$> drop j b)
      end
  end.

Definition align : list DiffLine := walk (S (length a + length b)) lcs_table 0 0.
End align.

(** ** Numbering and the diff *)

Fixpoint number_from (l r : Z) (ls : list DiffLine) : list DiffLine :=
  match ls with
  | [] => []
  | x :: ls =>
      match op x with
      | same => {| op := same; text := text x; left := Some (l + 1); right := Some (r + 1) |}
                :: number_from (l + 1) (r + 1) ls
      | del => {| op := del; text := text x; left := Some (l + 1); right := right x |} :: number_from (l + 1) r ls
      | add => {| op := add; text := text x; left := left x; right := Some (r + 1) |} :: number_from l (r + 1) ls
      end
  end.
Definition number (ls : list DiffLine) : list DiffLine := number_from 0 0 ls.

Definition count_op (o : DiffOp) (ls : list DiffLine) : Z :=
  Z.of_nat (length (filter (fun x => op x = o) ls)).

Definition finish (ls : list DiffLine) (t : bool) : DiffResult :=
  {| lines := number ls; added := count_op add ls; removed := count_op del ls; truncated := t |}.

(** The two counting loops: equal lines at the front, then at the back of
    what the first leaves. *)
Fixpoint common_prefix (a b : list jstr) : nat :=
  match a, b with
  | x :: a, y :: b => if bool_decide (x = y) then S (common_prefix a b) else O
  | _, _ => O
  end.
Definition common_suffix (a b : list jstr) (prefix : nat) : nat :=
  common_prefix (reverse (drop prefix a)) (reverse (drop prefix b)).

(** The table the alignment of two middles would need. *)
Definition table_cells (ma mb : list jstr) : Z := (Z.of_nat (length ma) + 1) * (Z.of_nat (length mb) + 1).

Definition diffLines (before after : jstr) : DiffResult :=
  let a := splitText before in
  let b := splitText after in
  if (DIFF_MAX_BYTES <? byteLength before) || (DIFF_MAX_BYTES <? byteLength after)
  then finish ((plain del <$> a) ++ (plain add <$> b)) true
  else
    let prefix := common_prefix a b in
    let suffix := common_suffix a b prefix in
    let middleA := take (length a - suffix - prefix) (drop prefix a) in
    let middleB := take (length b - suffix - prefix) (drop prefix b) in
    let head := plain same <$> take prefix a in
    let tail := plain same <$> drop (length a - suffix) a in
    if MAX_TABLE_CELLS <? table_cells middleA middleB
    then finish (head ++ (plain del <$> middleA) ++ (plain add <$> middleB) ++ tail) true
    else finish (head ++ align middleA middleB ++ tail) false.

(** ** Views *)

(** The inner loop of [toSideBySide]: the removed and the added lines of a
    run of changes, and what follows it. *)
Fixpoint take_changes (dels adds ls : list DiffLine) : list DiffLine * list DiffLine * list DiffLine :=
  match ls with
  | [] => (dels, adds, [])
  | x :: rest =>
      match op x with
      | same => (dels, adds, ls)
      | del => take_changes (dels ++ [x]) adds rest
      | add => take_changes dels (adds ++ [x]) rest
      end
  end.

Definition left_cell (x : DiffLine) : Z * jstr := (default 0 (left x), text x).
Definition right_cell (x : DiffLine) : Z * jstr := (default 0 (right x), text x).

(** The pairing loop, [index] from [0] to the longer side's length. *)
Definition pair_row (dels adds : list DiffLine) (index : nat) : DiffRow :=
  {| kind := change_row; row_left := left_cell <$> dels !! index; row_right := right_cell <$> adds !! index |}.
Definition pair_rows (dels adds : list DiffLine) : list DiffRow :=
  pair_row dels adds <$> seq 0 (Nat.max (length dels) (length adds)).

Fixpoint side_loop (fuel : nat) (ls : list DiffLine) : list DiffRow :=
  match fuel with
  | O => []
  | S fuel =>
      match ls with
      | [] => []
      | x :: rest =>
          match op x with
          | same => {| kind := same_row; row_left := Some (left_cell x); row_right := Some (right_cell x) |}
                    :: side_loop fuel rest
          | _ => let '(dels, adds, rest) := take_changes [] [] ls in
                 pair_rows dels adds ++ side_loop fuel rest
          end
      end
  end.
Definition toSideBySide (ls : list DiffLine) : list DiffRow := side_loop (length ls) ls.

Definition line_kind (x : DiffLine) : RowKind := if bool_decide (op x = same) then same_row else change_row.

(** The unified rows: every line with its kind. *)
Definition toUnified (ls : list DiffLine) : list (RowKind * DiffLine) := (fun x => (line_kind x, x)) <$> ls.

(** ** Folding: any row type with a kind *)

Inductive FoldedRow (T : Type) := Row (r : T) | Fold (count at_ : Z).
Arguments Row {T}.
Arguments Fold {T}.

Section fold.
Context {T : Type} (kind_of : T -> RowKind) (context : nat).

(** [end - index]: the unchanged rows from [index] on. *)
Fixpoint same_run (rows : list T) : nat :=
  match rows with
  | r :: rows => if bool_decide (kind_of r = same_row) then S (same_run rows) else O
  | [] => O
  end.

Definition rows_between (rows : list T) (i j : nat) : list (FoldedRow T) := Row <$> take (j - i) (drop i rows).

Fixpoint fold_loop (fuel : nat) (rows : list T) (index : nat) : list (FoldedRow T) :=
  match fuel with
  | O => []
  | S fuel =>
      match rows !! index with
      | None => []
      | Some row =>
          if bool_decide (kind_of row = change_row) then Row row :: fold_loop fuel rows (S index)
          else
            let run := same_run (drop index rows) in
            let end_ := (index + run)%nat in
            let leading := if bool_decide (index = 0%nat) then 0%nat else context in
            let trailing := if bool_decide (end_ = length rows) then 0%nat else context in
            (if bool_decide (run <= leading + trailing + 1)%nat then rows_between rows index end_
             else rows_between rows index (index + leading)
                  ++ Fold (Z.of_nat (run - leading - trailing)) (Z.of_nat (index + leading))
                  :: rows_between rows (end_ - trailing) end_)
            ++ fold_loop fuel rows end_
      end
  end.
Definition foldUnchanged (rows : list T) : list (FoldedRow T) := fold_loop (length rows) rows 0.
End fold.
