(* ===== verification/LineDiffProofs.v ===== *)
(** * LineDiffProofs: the line diff reads back to both texts and keeps as
    many lines as any diff can; the views show every line.

    [lcs] specifies the table: row [i], column [j] holds the length of a
    longest common subsequence of the lines from [i] and from [j] on. *)
From stdpp Require Import prelude list strings.
From Stdlib Require Import ZArith Lia.
From S2P Require Import Prelude JsString Unicode LineDiff.

(** ** Longest common subsequences *)

Fixpoint lcs (a b : list jstr) : nat :=
  match a with
  | [] => 0
  | x :: a' =>
      (fix go b := match b with
                   | [] => 0
                   | y :: b' => if bool_decide (x = y) then S (lcs a' b') else Nat.max (lcs a' b) (go b')
                   end) b
  end%nat.

Lemma lcs_cons x a y b :
  lcs (x :: a) (y :: b) = if bool_decide (x = y) then S (lcs a b) else Nat.max (lcs a (y :: b)) (lcs (x :: a) b).
Proof. done. Qed.
Lemma lcs_nil_r a : lcs a [] = 0%nat.
Proof. by destruct a. Qed.

Lemma lcs_le_length a b : (lcs a b <= length a)%nat.
Proof.
  revert b; induction a as [|x a IH]; intros b; [done|].
  induction b as [|y b IHb]; [rewrite lcs_nil_r; lia|]. rewrite lcs_cons.
  pose proof (IH b). pose proof (IH (y :: b)). simpl length in *. case_bool_decide; lia.
Qed.

Lemma sublist_cons_tail {A} (x : A) c a : c `sublist_of` x :: a -> tail c `sublist_of` a.
Proof.
  inversion 1; subst; simpl; [done|]. destruct c; simpl; [by apply sublist_nil_l|].
  etrans; [|eassumption]. by apply sublist_cons.
Qed.

Lemma sublist_cons_ne {A} (x y : A) c a : x <> y -> x :: c `sublist_of` y :: a -> x :: c `sublist_of` a.
Proof. intros Hne H. inversion H; subst; done. Qed.

(** No common subsequence is longer than [lcs]. *)
Lemma lcs_upper a b c : c `sublist_of` a -> c `sublist_of` b -> (length c <= lcs a b)%nat.
Proof.
  revert b c; induction a as [|x a IH]; intros b c Ha Hb; [apply sublist_nil_r in Ha as ->; simpl; lia|].
  revert c Ha Hb; induction b as [|y b IHb]; intros c Ha Hb; [apply sublist_nil_r in Hb as ->; simpl; lia|].
  rewrite lcs_cons. case_bool_decide as Hxy.
  - pose proof (IH b (tail c) ltac:(by eapply sublist_cons_tail) ltac:(by eapply sublist_cons_tail)).
    destruct c; simpl in *; lia.
  - destruct c as [|z c]; [simpl; lia|]. destruct (decide (z = x)) as [->|Hz].
    + pose proof (IHb (x :: c) Ha ltac:(by eapply sublist_cons_ne)). lia.
    + pose proof (IH (y :: b) (z :: c) ltac:(by eapply sublist_cons_ne) Hb). lia.
Qed.

(** ** The table *)

Section table.
Context (a b : list jstr).
Hypothesis Hsize : Z.of_nat (length a) < 2 ^ 32.

Notation index := (index b).

(** The cells that hold their final value once row [i] is done from column
    [j] on: the zero border, the rows below and the end of row [i]. *)
Definition settled (i j i' j' : nat) : Prop :=
  (i' <= length a)%nat /\ (j' <= length b)%nat /\
  (i' = length a \/ j' = length b \/ i < i' \/ (i' = i /\ j <= j'))%nat.

Definition table_ok (i j : nat) (t : list Z) : Prop :=
  length t = (S (length a) * width b)%nat /\
  forall i' j', settled i j i' j' -> t !! index i' j' = Some (Z.of_nat (lcs (drop i' a) (drop j' b))).

Lemma index_lt i j : (i <= length a)%nat -> (j <= length b)%nat -> (index i j < S (length a) * width b)%nat.
Proof. unfold LineDiff.index, width. nia. Qed.

Lemma index_inj i j i' j' :
  (j <= length b)%nat -> (j' <= length b)%nat -> index i j = index i' j' -> i = i' /\ j = j'.
Proof.
  unfold LineDiff.index, width. intros Hj Hj' H.
  destruct (decide (i = i')) as [->|Hne]; [split; [done|lia]|exfalso].
  assert (S i <= i' \/ S i' <= i)%nat as [?|?] by lia; nia.
Qed.

Lemma border_zero i j : i = length a \/ j = length b -> lcs (drop i a) (drop j b) = 0%nat.
Proof. intros [->| ->]; rewrite drop_all; [done|apply lcs_nil_r]. Qed.

Lemma table_ok_init : table_ok (length a) 0 (replicate (S (length a) * width b) 0).
Proof.
  split; [by rewrite length_replicate|]. intros i j (Hi & Hj & Hs).
  rewrite lookup_replicate_2 by by apply index_lt. rewrite border_zero by lia. done.
Qed.

Lemma lcs_drop i j x y :
  a !! i = Some x -> b !! j = Some y ->
  lcs (drop i a) (drop j b) =
  if bool_decide (x = y) then S (lcs (drop (S i) a) (drop (S j) b))
  else Nat.max (lcs (drop (S i) a) (drop j b)) (lcs (drop i a) (drop (S j) b)).
Proof. intros Hx Hy. by rewrite (drop_S a x i Hx), (drop_S b y j Hy), lcs_cons. Qed.

Lemma table_read i j i' j' t :
  table_ok i j t -> settled i j i' j' -> t !!! index i' j' = Z.of_nat (lcs (drop i' a) (drop j' b)).
Proof. intros [_ H] Hs. by apply list_lookup_total_correct, H. Qed.

Lemma uint32_lcs i j : uint32 (Z.of_nat (lcs (drop i a) (drop j b))) = Z.of_nat (lcs (drop i a) (drop j b)).
Proof. pose proof (lcs_le_length (drop i a) (drop j b)) as H. rewrite length_drop in H. apply Z.mod_small. lia. Qed.

Lemma cell_lcs i j t :
  (i < length a)%nat -> (j < length b)%nat -> table_ok i (S j) t ->
  uint32 (cell a b t i j) = Z.of_nat (lcs (drop i a) (drop j b)).
Proof.
  intros Hi Hj Ht. destruct (lookup_lt_is_Some_2 a i Hi) as [x Hx], (lookup_lt_is_Some_2 b j Hj) as [y Hy].
  rewrite <- uint32_lcs. f_equal. unfold cell. rewrite Hx, Hy, (lcs_drop i j x y Hx Hy).
  rewrite !(table_read i (S j)) by (done || (unfold settled; lia)).
  destruct (decide (x = y)) as [->|Hne]; [rewrite !bool_decide_eq_true_2 by done; lia|].
  rewrite !bool_decide_eq_false_2 by congruence. lia.
Qed.

Lemma fill_cell_ok i j t :
  (i < length a)%nat -> (j < length b)%nat -> table_ok i (S j) t ->
  table_ok i j (<[index i j := uint32 (cell a b t i j)]> t).
Proof.
  intros Hi Hj Ht. rewrite cell_lcs by done. split; [rewrite length_insert; apply Ht|].
  intros i' j' (Hi' & Hj' & Hs). destruct (decide (index i j = index i' j')) as [He|Hne].
  - apply index_inj in He as [<- <-]; [|lia..].
    rewrite list_lookup_insert_eq; [done|]. destruct Ht as [-> _]. by apply index_lt; lia.
  - rewrite list_lookup_insert_ne by done. apply Ht. split_and!; [done..|].
    destruct (decide (i' = i /\ j' = j)) as [[-> ->]|]; [done|]. lia.
Qed.

Lemma fill_row_ok i j t :
  (i < length a)%nat -> (j <= length b)%nat -> table_ok i j t -> table_ok i 0 (fill_row a b i j t).
Proof.
  revert t; induction j as [|j IH]; intros t Hi Hj Ht; [done|]. simpl.
  apply IH; [done|lia|]. by apply fill_cell_ok; [|lia|].
Qed.

(** A finished row starts the next one. *)
Lemma next_row_ok i t : table_ok (S i) 0 t -> table_ok i (length b) t.
Proof. intros [Hl Ht]. split; [done|]. intros i' j' (? & ? & ?). apply Ht. unfold settled. lia. Qed.

Lemma fill_table_ok i t : (i <= length a)%nat -> table_ok i 0 t -> table_ok 0 0 (fill_table a b i t).
Proof.
  revert t; induction i as [|i IH]; intros t Hi Ht; [done|]. simpl.
  apply IH; [lia|]. apply fill_row_ok; [lia|done|]. by apply next_row_ok.
Qed.

Lemma lcs_table_spec i j :
  (i <= length a)%nat -> (j <= length b)%nat ->
  lcs_table a b !!! index i j = Z.of_nat (lcs (drop i a) (drop j b)).
Proof.
  intros Hi Hj. apply (table_read 0 0); [|unfold settled; lia].
  apply fill_table_ok; [done|apply table_ok_init].
Qed.
End table.

(** ** The walk *)

(** The lines a sequence shows of the text before and of the text after. *)
Definition left_lines (ls : list DiffLine) : list DiffLine := filter (fun x => op x <> add) ls.
Definition right_lines (ls : list DiffLine) : list DiffLine := filter (fun x => op x <> del) ls.

Definition reads_back (ls : list DiffLine) (a b : list jstr) : Prop :=
  text <$> left_lines ls = a /\ text <$> right_lines ls = b.

Lemma reads_back_app ls1 ls2 a1 a2 b1 b2 :
  reads_back ls1 a1 b1 -> reads_back ls2 a2 b2 -> reads_back (ls1 ++ ls2) (a1 ++ a2) (b1 ++ b2).
Proof.
  unfold reads_back, left_lines, right_lines.
  intros [<- <-] [<- <-]. by rewrite !filter_app, !fmap_app.
Qed.

Lemma left_lines_cons x ls : left_lines (x :: ls) = match op x with add => left_lines ls | _ => x :: left_lines ls end.
Proof. unfold left_lines. rewrite filter_cons. by case_decide; destruct (op x). Qed.
Lemma right_lines_cons x ls : right_lines (x :: ls) = match op x with del => right_lines ls | _ => x :: right_lines ls end.
Proof. unfold right_lines. rewrite filter_cons. by case_decide; destruct (op x). Qed.

Lemma reads_back_cons o x ls a b :
  reads_back ls a b ->
  reads_back (plain o x :: ls) (match o with add => a | _ => x :: a end) (match o with del => b | _ => x :: b end).
Proof. intros [<- <-]. unfold reads_back. rewrite left_lines_cons, right_lines_cons. by destruct o. Qed.

Lemma reads_back_del a : reads_back (plain del <$> a) a [].
Proof. induction a as [|x a IH]; [done|]. apply (reads_back_cons del x _ _ _ IH). Qed.
Lemma reads_back_add b : reads_back (plain add <$> b) [] b.
Proof. induction b as [|x b IH]; [done|]. apply (reads_back_cons add x _ _ _ IH). Qed.
Lemma reads_back_same a : reads_back (plain same <$> a) a a.
Proof. induction a as [|x a IH]; [done|]. apply (reads_back_cons same x _ _ _ IH). Qed.

Lemma reads_back_replaced a b : reads_back ((plain del <$> a) ++ (plain add <$> b)) a b.
Proof.
  pose proof (reads_back_app _ _ _ _ _ _ (reads_back_del a) (reads_back_add b)) as H.
  by rewrite app_nil_r in H.
Qed.

Lemma count_op_app o ls1 ls2 : count_op o (ls1 ++ ls2) = count_op o ls1 + count_op o ls2.
Proof. unfold count_op. rewrite filter_app, length_app. lia. Qed.
Lemma count_op_cons o x ls : count_op o (x :: ls) = (if bool_decide (op x = o) then 1 else 0) + count_op o ls.
Proof. unfold count_op. rewrite filter_cons. case_decide; case_bool_decide; try done; simpl length; lia. Qed.
Lemma count_op_plain o o' (l : list jstr) :
  count_op o (plain o' <$> l) = if bool_decide (o' = o) then Z.of_nat (length l) else 0.
Proof.
  induction l as [|x l IH]; [by case_bool_decide|]. rewrite fmap_cons, count_op_cons, IH. simpl op.
  case_bool_decide; simpl length; lia.
Qed.

Lemma walk_reads_back a b t fuel i j :
  (length a - i + (length b - j) < fuel)%nat -> reads_back (walk a b fuel t i j) (drop i a) (drop j b).
Proof.
  revert i j; induction fuel as [|fuel IH]; intros i j Hf; [lia|]. simpl.
  destruct (a !! i) as [x|] eqn:Hx; [|apply reads_back_replaced].
  destruct (b !! j) as [y|] eqn:Hy; [|apply reads_back_replaced].
  pose proof (lookup_lt_Some _ _ _ Hx). pose proof (lookup_lt_Some _ _ _ Hy).
  case_bool_decide as Hxy; [|destruct (_ <=? _)].
  - subst y. rewrite (drop_S a x i Hx), (drop_S b x j Hy). apply (reads_back_cons same), IH. lia.
  - rewrite (drop_S a x i Hx). apply (reads_back_cons del), IH. lia.
  - rewrite (drop_S b y j Hy). apply (reads_back_cons add), IH. lia.
Qed.

(** Over the filled table the walk keeps as many lines as any subsequence. *)
Lemma walk_keeps a b fuel i j :
  Z.of_nat (length a) < 2 ^ 32 -> (i <= length a)%nat -> (j <= length b)%nat ->
  (length a - i + (length b - j) < fuel)%nat ->
  count_op same (walk a b fuel (lcs_table a b) i j) = Z.of_nat (lcs (drop i a) (drop j b)).
Proof.
  intros Hs. revert i j; induction fuel as [|fuel IH]; intros i j Hi Hj Hf; [lia|]. simpl.
  destruct (a !! i) as [x|] eqn:Hx; [destruct (b !! j) as [y|] eqn:Hy|].
  - pose proof (lookup_lt_Some _ _ _ Hx). pose proof (lookup_lt_Some _ _ _ Hy).
    rewrite !lcs_table_spec by (done || lia). rewrite (lcs_drop a b i j x y Hx Hy).
    case_bool_decide; [|destruct (Z.leb_spec (Z.of_nat (lcs (drop i a) (drop (S j) b)))
                                             (Z.of_nat (lcs (drop (S i) a) (drop j b))))];
      rewrite count_op_cons, IH by lia; simpl; lia.
  - apply lookup_ge_None in Hy. rewrite count_op_app, !count_op_plain, border_zero by lia. done.
  - apply lookup_ge_None in Hx. rewrite count_op_app, !count_op_plain, border_zero by lia. done.
Qed.

Lemma align_reads_back a b : reads_back (align a b) a b.
Proof. pose proof (walk_reads_back a b (lcs_table a b) (S (length a + length b)) 0 0) as H. apply H. lia. Qed.

Lemma align_keeps a b :
  Z.of_nat (length a) < 2 ^ 32 -> count_op same (align a b) = Z.of_nat (lcs a b).
Proof. intros Hs. by apply (walk_keeps a b _ 0 0); [|lia..]. Qed.

(** ** Trimming *)

Lemma common_prefix_spec a b :
  (common_prefix a b <= length a)%nat /\ (common_prefix a b <= length b)%nat /\
  take (common_prefix a b) a = take (common_prefix a b) b.
Proof.
  revert b; induction a as [|x a IH]; intros [|y b]; simpl; [split_and!; (done || lia)..|].
  case_bool_decide as Hxy; simpl; [|split_and!; (done || lia)].
  destruct (IH b) as (? & ? & E). split_and!; [lia..|]. by rewrite Hxy, E.
Qed.

(** Both texts are the common prefix, their middle and the common suffix. *)
Lemma trimmed a b :
  let p := common_prefix a b in let s := common_suffix a b p in
  exists pre suf ma mb,
    a = pre ++ ma ++ suf /\ b = pre ++ mb ++ suf /\
    take p a = pre /\ drop (length a - s) a = suf /\
    take (length a - s - p) (drop p a) = ma /\ take (length b - s - p) (drop p b) = mb.
Proof.
  intros p s. destruct (common_prefix_spec a b) as (Hpa & Hpb & Hp). fold p in Hpa, Hpb, Hp.
  destruct (common_prefix_spec (reverse (drop p a)) (reverse (drop p b))) as (Hsa & Hsb & Hs).
  fold (common_suffix a b p) s in Hsa, Hsb, Hs. rewrite !length_reverse, !length_drop in *.
  rewrite !take_reverse in Hs. apply (inj reverse) in Hs. rewrite !length_drop, !drop_drop in Hs.
  exists (take p a), (drop (length a - s) a), (take (length a - s - p) (drop p a)), (take (length b - s - p) (drop p b)).
  assert (drop (length a - s) a = drop (length b - s) b) as Hsuf.
  { replace (length a - s)%nat with (p + (length a - p - s))%nat by lia.
    replace (length b - s)%nat with (p + (length b - p - s))%nat by lia. done. }
  assert (forall l : list jstr, (p <= length l - s)%nat ->
            take p l ++ take (length l - s - p) (drop p l) ++ drop (length l - s) l = l) as Hsplit.
  { intros l Hl. replace (length l - s)%nat with (p + (length l - s - p))%nat at 2 by lia.
    by rewrite <- drop_drop, !take_drop. }
  split_and!; try done; [symmetry; apply Hsplit; lia|]. rewrite Hsuf, Hp. symmetry. apply Hsplit. lia.
Qed.

(** ** The diff *)

(** The sequence a diff numbers. *)
Definition raw_lines (before after : jstr) : list DiffLine * bool :=
  let a := splitText before in
  let b := splitText after in
  let p := common_prefix a b in
  let s := common_suffix a b p in
  let ma := take (length a - s - p) (drop p a) in
  let mb := take (length b - s - p) (drop p b) in
  if (DIFF_MAX_BYTES <? byteLength before) || (DIFF_MAX_BYTES <? byteLength after)
  then ((plain del <$> a) ++ (plain add <$> b), true)
  else if MAX_TABLE_CELLS <? table_cells ma mb
  then ((plain same <$> take p a) ++ (plain del <$> ma) ++ (plain add <$> mb)
          ++ (plain same <$> drop (length a - s) a), true)
  else ((plain same <$> take p a) ++ align ma mb ++ (plain same <$> drop (length a - s) a), false).

Lemma diffLines_raw before after :
  diffLines before after = finish (raw_lines before after).1 (raw_lines before after).2.
Proof. unfold diffLines, raw_lines. by repeat case_match. Qed.

Lemma raw_reads_back before after :
  reads_back (raw_lines before after).1 (splitText before) (splitText after).
Proof.
  unfold raw_lines. case_match; [apply reads_back_replaced|].
  destruct (trimmed (splitText before) (splitText after)) as (pre & suf & ma & mb & Ha & Hb & -> & -> & -> & ->).
  rewrite Ha, Hb.
  case_match; simpl; (apply reads_back_app; [apply reads_back_same|]).
  - rewrite app_assoc. apply reads_back_app; [apply reads_back_replaced|apply reads_back_same].
  - apply reads_back_app; [apply align_reads_back|apply reads_back_same].
Qed.

(** Numbering keeps the operation and the text of every line. *)
Lemma number_from_op o l r ls : count_op o (number_from l r ls) = count_op o ls.
Proof.
  revert l r; induction ls as [|x ls IH]; intros l r; [done|]. cbn [number_from].
  destruct (op x) eqn:Hx; rewrite !count_op_cons, IH, Hx; done.
Qed.

Lemma number_from_texts l r ls :
  text <$> left_lines (number_from l r ls) = text <$> left_lines ls /\
  text <$> right_lines (number_from l r ls) = text <$> right_lines ls.
Proof.
  revert l r; induction ls as [|x ls IH]; intros l r; [done|]. cbn [number_from].
  destruct (op x) eqn:Hx; rewrite !left_lines_cons, !right_lines_cons, Hx; cbn [op];
    rewrite ?fmap_cons, !(proj1 (IH _ _)), !(proj2 (IH _ _)); done.
Qed.

(** The [k]-th line of a side carries number [k], from one. *)
Lemma number_from_left l r ls k x :
  Forall (fun x => left x = None /\ right x = None) ls ->
  left_lines (number_from l r ls) !! k = Some x -> left x = Some (l + 1 + Z.of_nat k).
Proof.
  revert l r k; induction ls as [|y ls IH]; intros l r k HF; [done|]. apply Forall_cons in HF as [[Hl Hr] HF].
  cbn [number_from]. destruct (op y) eqn:Hy; rewrite left_lines_cons; simpl.
  - destruct k as [|k]; simpl; [intros [= <-]; simpl; f_equal; lia|]. intros Hk. rewrite (IH _ _ _ HF Hk). f_equal. lia.
  - intros Hk. by rewrite (IH _ _ _ HF Hk).
  - destruct k as [|k]; simpl; [intros [= <-]; simpl; f_equal; lia|]. intros Hk. rewrite (IH _ _ _ HF Hk). f_equal. lia.
Qed.

Lemma number_from_right l r ls k x :
  Forall (fun x => left x = None /\ right x = None) ls ->
  right_lines (number_from l r ls) !! k = Some x -> right x = Some (r + 1 + Z.of_nat k).
Proof.
  revert l r k; induction ls as [|y ls IH]; intros l r k HF; [done|]. apply Forall_cons in HF as [[Hl Hr] HF].
  cbn [number_from]. destruct (op y) eqn:Hy; rewrite right_lines_cons; simpl.
  - destruct k as [|k]; simpl; [intros [= <-]; simpl; f_equal; lia|]. intros Hk. rewrite (IH _ _ _ HF Hk). f_equal. lia.
  - destruct k as [|k]; simpl; [intros [= <-]; simpl; f_equal; lia|]. intros Hk. rewrite (IH _ _ _ HF Hk). f_equal. lia.
  - intros Hk. by rewrite (IH _ _ _ HF Hk).
Qed.

Lemma walk_plain a b t fuel i j : Forall (fun x => left x = None /\ right x = None) (walk a b fuel t i j).
Proof.
  revert i j; induction fuel as [|fuel IH]; intros i j; simpl; [constructor|].
  repeat case_match; try (apply Forall_app; split; apply Forall_fmap, Forall_true; done); by constructor.
Qed.

Lemma raw_plain before after : Forall (fun x => left x = None /\ right x = None) (raw_lines before after).1.
Proof.
  assert (forall o (l : list jstr), Forall (fun x => left x = None /\ right x = None) (plain o <$> l)) as Hp
    by (intros; apply Forall_fmap, Forall_true; done).
  unfold raw_lines. repeat case_match; simpl; repeat (apply Forall_app; split); auto. apply walk_plain.
Qed.

Lemma join_splitText t : join [10] (splitText t) = t.
Proof. unfold splitText. case_bool_decide; [by subst|]. apply join_split_on. Qed.

Lemma length_side o ls :
  Z.of_nat (length (filter (fun x => op x <> o) ls)) = Z.of_nat (length ls) - count_op o ls.
Proof.
  unfold count_op. induction ls as [|x ls IH]; [done|]. rewrite !filter_cons.
  repeat case_decide; try done; simpl length in *; lia.
Qed.

(** ** Properties *)

(** A diff, truncated or not, holds both texts and nothing else: the
    lines that are not added join to the text before, those that are not
    removed to the text after, each carries its own line number of its side,
    and the counts are the numbers of added and of removed lines. *)
Theorem diff_reads_back before after :
  let r := diffLines before after in
  join [10] (text <$> left_lines (lines r)) = before /\
  join [10] (text <$> right_lines (lines r)) = after /\
  (forall k x, left_lines (lines r) !! k = Some x -> left x = Some (Z.of_nat k + 1)) /\
  (forall k x, right_lines (lines r) !! k = Some x -> right x = Some (Z.of_nat k + 1)) /\
  added r = count_op add (lines r) /\ removed r = count_op del (lines r).
Proof.
  rewrite diffLines_raw. simpl. pose proof (raw_plain before after) as Hp.
  destruct (raw_reads_back before after) as [Hl Hr]. unfold number.
  rewrite (proj1 (number_from_texts _ _ _)), (proj2 (number_from_texts _ _ _)), Hl, Hr, !join_splitText, !number_from_op. split_and!; try done.
  - intros k x Hk. rewrite (number_from_left _ _ _ _ _ Hp Hk). f_equal. lia.
  - intros k x Hk. rewrite (number_from_right _ _ _ _ _ Hp Hk). f_equal. lia.
Qed.

(** A common subsequence loses at most the common suffix, and at most the
    common prefix, when these are cut off. *)
Lemma common_app_r {A} (a b s c : list A) :
  c `sublist_of` a ++ s -> c `sublist_of` b ++ s ->
  exists c', c' `sublist_of` a /\ c' `sublist_of` b /\ (length c <= length c' + length s)%nat.
Proof.
  intros (c1 & c2 & -> & Ha & Hs)%sublist_app_r (d1 & d2 & Hd & Hb & Hs')%sublist_app_r.
  pose proof (f_equal length Hd) as Hl. apply sublist_length in Hs, Hs'. rewrite !length_app in *.
  destruct (decide (length c1 <= length d1)%nat).
  - exists c1. split_and!; [done| |lia]. etrans; [|exact Hb].
    rewrite <- (take_app_length c1 c2), Hd, take_app_le by lia. apply sublist_take.
  - exists d1. split_and!; [|done|lia]. etrans; [|exact Ha].
    rewrite <- (take_app_length d1 d2), <- Hd, take_app_le by lia. apply sublist_take.
Qed.

Lemma common_app_l {A} (a b p c : list A) :
  c `sublist_of` p ++ a -> c `sublist_of` p ++ b ->
  exists c', c' `sublist_of` a /\ c' `sublist_of` b /\ (length c <= length p + length c')%nat.
Proof.
  intros (c1 & c2 & -> & Hp & Ha)%sublist_app_r (d1 & d2 & Hd & Hp' & Hb)%sublist_app_r.
  apply sublist_length in Hp, Hp'. rewrite !length_app in *.
  destruct (decide (length d1 <= length c1)%nat).
  - exists c2. split_and!; [done| |lia]. etrans; [|exact Hb].
    rewrite <- (drop_app_length c1 c2), Hd, drop_app_ge by lia. apply sublist_drop.
  - exists d2. pose proof (f_equal length Hd) as Hl. rewrite !length_app in Hl.
    split_and!; [|done|lia]. etrans; [|exact Ha].
    rewrite <- (drop_app_length d1 d2), <- Hd, drop_app_ge by lia. apply sublist_drop.
Qed.

Lemma count_op_nonneg o ls : 0 <= count_op o ls.
Proof. unfold count_op. lia. Qed.

(** C35: an aligned diff is a shortest one: any sequence of lines common to
    both texts is at most as long as the unchanged lines it shows, and the
    alignment happens whenever the texts and the table are within their
    limits. *)
Theorem diff_minimal before after :
  (truncated (diffLines before after) = false ->
   forall c, c `sublist_of` splitText before -> c `sublist_of` splitText after ->
   Z.of_nat (length c) <= count_op same (lines (diffLines before after))) /\
  (byteLength before <= DIFF_MAX_BYTES -> byteLength after <= DIFF_MAX_BYTES ->
   table_cells (splitText before) (splitText after) <= MAX_TABLE_CELLS ->
   truncated (diffLines before after) = false).
Proof.
  rewrite diffLines_raw. unfold finish, number. cbn [truncated lines]. rewrite number_from_op. unfold raw_lines.
  destruct (trimmed (splitText before) (splitText after)) as (pre & suf & ma & mb & Ha & Hb & -> & -> & -> & ->).
  rewrite Ha, Hb. split.
  - destruct (_ || _); [done|]. destruct (_ <? _) eqn:Hcells; [done|]. bool_prop. unfold table_cells in Hcells.
    intros _ c Hca Hcb. simpl. rewrite !count_op_app, align_keeps, !count_op_plain by (unfold MAX_TABLE_CELLS in *; nia).
    rewrite !bool_decide_eq_true_2 by done.
    destruct (common_app_l _ _ _ _ Hca Hcb) as (c1 & Hc1a & Hc1b & Hl1).
    destruct (common_app_r _ _ _ _ Hc1a Hc1b) as (c2 & Hc2a & Hc2b & Hl2).
    pose proof (lcs_upper _ _ _ Hc2a Hc2b). lia.
  - intros H1 H2 Hcells. rewrite !(proj2 (Z.ltb_ge _ _)) by done. simpl.
    rewrite (proj2 (Z.ltb_ge _ _)); [done|]. unfold table_cells in *. rewrite !length_app in Hcells. nia.
Qed.

(** The empty text against one line: nothing is common and nothing is lost. *)
Lemma diff_minimal_witness :
  let r := diffLines (js "a") (js "b") in
  truncated r = false /\
  (forall c, c `sublist_of` splitText (js "a") -> c `sublist_of` splitText (js "b") ->
   Z.of_nat (length c) <= count_op same (lines r)).
Proof.
  assert (truncated (diffLines (js "a") (js "b")) = false) as H
    by (apply (proj2 (diff_minimal (js "a") (js "b"))); by vm_compute).
  split; [exact H|]. exact (proj1 (diff_minimal (js "a") (js "b")) H).
Defined.

(** ** Side by side *)

Lemma take_changes_spec dels adds ls :
  Forall (fun x => op x <> same) dels -> Forall (fun x => op x <> same) adds ->
  exists run rest,
    ls = run ++ rest /\
    take_changes dels adds ls = (dels ++ left_lines run, adds ++ right_lines run, rest) /\
    Forall (fun x => op x <> same) run /\
    (forall x ls', ls = x :: ls' -> op x <> same -> run <> []).
Proof.
  revert dels adds; induction ls as [|x ls IH]; intros dels adds Hd Ha.
  { exists [], []. rewrite !app_nil_r. by split_and!. }
  cbn [take_changes]. destruct (op x) eqn:Hx.
  - exists [], (x :: ls). rewrite !app_nil_r. split_and!; [done..|by intros ? ? [= <- <-]].
  - destruct (IH dels (adds ++ [x])) as (run & rest & -> & -> & Hrun & _);
      [done|apply Forall_app; split; [done|by constructor; [rewrite Hx|]]|].
    exists (x :: run), rest. rewrite left_lines_cons, right_lines_cons, Hx, <- app_assoc.
    split_and!; [done..|by constructor; [rewrite Hx|]|done].
  - destruct (IH (dels ++ [x]) adds) as (run & rest & -> & -> & Hrun & _);
      [apply Forall_app; split; [done|by constructor; [rewrite Hx|]]|done|].
    exists (x :: run), rest. rewrite left_lines_cons, right_lines_cons, Hx, <- app_assoc.
    split_and!; [done..|by constructor; [rewrite Hx|]|done].
Qed.

Lemma omap_after_fmap {A B C} (f : B -> option C) (g : A -> B) (l : list A) : omap f (g <$> l) = omap (fun x => f (g x)) l.
Proof. induction l as [|x l IH]; [done|]. simpl. destruct (f (g x)); [f_equal|]; exact IH. Qed.

Lemma omap_lookup_seq {A B} (f : A -> B) (l : list A) n :
  (length l <= n)%nat -> omap (fun i => f <$> l !! i) (seq 0 n) = f <$> l.
Proof.
  revert l; induction n as [|n IH]; intros l Hl; [by destruct l; simpl in Hl; [|lia]|].
  cbn [seq]. rewrite <- fmap_S_seq. destruct l as [|x l]; cbn [omap list_omap lookup list_lookup fmap option_fmap option_map].
  - clear. induction (S <$> seq 0 n); done.
  - cbn. f_equal. rewrite omap_after_fmap. apply (IH l). simpl in Hl. lia.
Qed.

Lemma pair_rows_cells dels adds :
  omap row_left (pair_rows dels adds) = left_cell <$> dels /\
  omap row_right (pair_rows dels adds) = right_cell <$> adds /\
  Forall (fun r => kind r = change_row /\ (row_left r <> None \/ row_right r <> None)) (pair_rows dels adds).
Proof.
  unfold pair_rows. rewrite !omap_after_fmap. split_and!.
  - apply (omap_lookup_seq left_cell). lia.
  - apply (omap_lookup_seq right_cell). lia.
  - apply Forall_fmap, Forall_forall. intros i Hi%elem_of_seq. split; [done|]. simpl.
    destruct (decide (i < length dels)%nat) as [H|H].
    + destruct (lookup_lt_is_Some_2 _ _ H) as [x ->]. by left.
    + destruct (lookup_lt_is_Some_2 adds i ltac:(lia)) as [x ->]. by right.
Qed.

(** What a row of the side-by-side view may look like. *)
Definition row_ok (r : DiffRow) : Prop :=
  match kind r with
  | same_row => exists l k t, row_left r = Some (l, t) /\ row_right r = Some (k, t)
  | change_row => row_left r <> None \/ row_right r <> None
  end.

Lemma side_loop_cells fuel ls :
  (length ls <= fuel)%nat ->
  omap row_left (side_loop fuel ls) = left_cell <$> left_lines ls /\
  omap row_right (side_loop fuel ls) = right_cell <$> right_lines ls /\
  Forall row_ok (side_loop fuel ls).
Proof.
  revert ls; induction fuel as [|fuel IH]; intros [|x ls] Hf; simpl length in *; [done|lia|done|]. cbn [side_loop].
  destruct (decide (op x = same)) as [Hx|Hx].
  - rewrite Hx. destruct (IH ls) as (E1 & E2 & HF); [lia|]. rewrite left_lines_cons, right_lines_cons, Hx. simpl.
    split_and!; [f_equal; exact E1|f_equal; exact E2|]. constructor; [by repeat eexists|done].
  - destruct (take_changes_spec [] [] (x :: ls)) as (run & rest & Hls & Ht & Hrun & Hne); [constructor..|].
    rewrite Ht. simpl app. specialize (Hne _ _ eq_refl Hx).
    assert (length rest <= fuel)%nat as Hr.
    { apply (f_equal length) in Hls. rewrite length_app in Hls. destruct run; simpl in *; [done|lia]. }
    destruct (IH rest Hr) as (E1 & E2 & HF). destruct (pair_rows_cells (left_lines run) (right_lines run)) as (P1 & P2 & PF).
    replace (match op x with same => _ | _ => _ end) with
      (pair_rows (left_lines run) (right_lines run) ++ side_loop fuel rest) by by destruct (op x).
    rewrite !omap_app, P1, P2, E1, E2, Hls. unfold left_lines, right_lines. rewrite !filter_app, !fmap_app.
    split_and!; [done..|]. apply Forall_app; split; [|done].
    eapply Forall_impl; [exact PF|]. intros r [Hk Ho]. unfold row_ok. by rewrite Hk.
Qed.

(** ** Folding *)

(** The rows a folded row stands for. *)
Definition unfold_row {T} (rows : list T) (x : FoldedRow T) : list T :=
  match x with
  | Row r => [r]
  | Fold count at_ => take (Z.to_nat count) (drop (Z.to_nat at_) rows)
  end.

Section folding.
Context {T : Type} (kind_of : T -> RowKind) (context : nat).

Lemma same_run_spec (l : list T) :
  (same_run kind_of l <= length l)%nat /\
  Forall (fun r => kind_of r = same_row) (take (same_run kind_of l) l).
Proof.
  induction l as [|r l [IH1 IH2]]; simpl; [by split|]. case_bool_decide; simpl; [|by split; [lia|]].
  split; [lia|by constructor].
Qed.

(** A fold hides at least two rows, all of them unchanged. *)
Definition fold_ok (rows : list T) (x : FoldedRow T) : Prop :=
  match x with
  | Row _ => True
  | Fold count at_ => 2 <= count /\ 0 <= at_ /\ Forall (fun r => kind_of r = same_row) (unfold_row rows x)
  end.

Lemma unfold_between (rows : list T) i j :
  concat (unfold_row rows <$> rows_between rows i j) = take (j - i) (drop i rows).
Proof.
  unfold rows_between. rewrite <- list_fmap_compose.
  induction (take (j - i) (drop i rows)) as [|x l IH]; [done|]. simpl. by f_equal.
Qed.
Lemma between_ok (rows : list T) i j : Forall (fold_ok rows) (rows_between rows i j).
Proof. apply Forall_fmap, Forall_true. done. Qed.

(** The leading rows, the hidden ones and the trailing ones of a run. *)
Lemma segments (rows : list T) index run lead trail :
  (lead + trail <= run)%nat ->
  take (index + lead - index) (drop index rows) ++ take (run - lead - trail) (drop lead (drop index rows))
    ++ take (index + run - (index + run - trail)) (drop (index + run - trail) rows)
  = take run (drop index rows).
Proof.
  intros H. replace (index + lead - index)%nat with lead by lia.
  replace (index + run - (index + run - trail))%nat with trail by lia.
  replace (drop (index + run - trail) rows) with (drop (run - lead - trail) (drop lead (drop index rows)))
    by (rewrite !drop_drop; f_equal; lia).
  rewrite !take_take_drop. f_equal. lia.
Qed.

Lemma fold_loop_spec fuel rows index :
  (length rows - index <= fuel)%nat ->
  concat (unfold_row rows <$> fold_loop kind_of context fuel rows index) = drop index rows /\
  Forall (fold_ok rows) (fold_loop kind_of context fuel rows index).
Proof.
  revert index; induction fuel as [|fuel IH]; intros index Hf.
  { simpl. rewrite drop_ge by lia. by split. }
  cbn [fold_loop]. destruct (rows !! index) as [row|] eqn:Hrow.
  2: { apply lookup_ge_None in Hrow. rewrite drop_ge by lia. by split. }
  pose proof (lookup_lt_Some _ _ _ Hrow) as Hlt. pose proof (drop_S rows row index Hrow) as Hd.
  case_bool_decide as Hk.
  { destruct (IH (S index)) as [E HF]; [lia|]. rewrite fmap_cons. simpl. rewrite E, Hd.
    split; [done|by constructor]. }
  set (run := same_run kind_of (drop index rows)). destruct (same_run_spec (drop index rows)) as [Hlen Hsame].
  fold run in Hlen, Hsame. rewrite length_drop in Hlen.
  assert (1 <= run)%nat as Hrun.
  { unfold run. rewrite Hd. simpl. rewrite bool_decide_eq_true_2; [lia|]. by destruct (kind_of row). }
  destruct (IH (index + run)%nat) as [E HF]; [lia|].
  assert (take run (drop index rows) ++ drop (index + run) rows = drop index rows) as Hall
    by (rewrite <- drop_drop; apply take_drop).
  case_bool_decide as Hshort; rewrite fmap_app, concat_app, E.
  { rewrite unfold_between. replace (index + run - index)%nat with run by lia.
    split; [done|]. apply Forall_app; split; [apply between_ok|done]. }
  apply Nat.nle_gt in Hshort.
  set (lead := if bool_decide (index = 0%nat) then 0%nat else context) in *.
  set (trail := if bool_decide ((index + run)%nat = length rows) then 0%nat else context) in *.
  assert (unfold_row rows (Fold (Z.of_nat (run - lead - trail)) (Z.of_nat (index + lead)))
          = take (run - lead - trail) (drop lead (drop index rows))) as Hfold
    by (simpl; rewrite !Nat2Z.id, drop_drop; done).
  rewrite fmap_app, fmap_cons, concat_app. cbn [concat]. rewrite !unfold_between, Hfold. split.
  - etrans; [|exact Hall]. f_equal. apply segments. lia.
  - apply Forall_app; split; [|done]. apply Forall_app; split; [apply between_ok|].
    constructor; [|apply between_ok]. unfold fold_ok. rewrite Hfold. split_and!; [lia..|].
    replace run with (lead + (run - lead))%nat in Hsame by lia. rewrite <- take_take_drop in Hsame.
    apply Forall_app in Hsame as [_ Hsame].
    replace (run - lead)%nat with (run - lead - trail + trail)%nat in Hsame by lia.
    rewrite <- take_take_drop in Hsame. by apply Forall_app in Hsame as [? _].
Qed.
End folding.

(** The side-by-side view shows every line of both sides, in order and on
    its own side, in unchanged rows equal on both, and folding hides nothing
    but runs of at least two unchanged rows: unfolding them gives the rows
    back. *)
Theorem views_complete {T} (kind_of : T -> RowKind) (context : nat) (ls : list DiffLine) (rows : list T) :
  (omap row_left (toSideBySide ls) = left_cell <$> left_lines ls /\
   omap row_right (toSideBySide ls) = right_cell <$> right_lines ls /\
   Forall row_ok (toSideBySide ls)) /\
  concat (unfold_row rows <$> foldUnchanged kind_of context rows) = rows /\
  Forall (fold_ok kind_of rows) (foldUnchanged kind_of context rows).
Proof.
  split; [by apply side_loop_cells|].
  by destruct (fold_loop_spec kind_of context (length rows) rows 0 ltac:(lia)).
Qed.
