(* ===== verification/Sse.v ===== *)
(** * Sse: [frontend/lib/sse.ts], the parser of server-sent event streams.

    [push] and [flush] of [createSseParser] work on a state: the text not yet
    split into lines, the frame being read, and the messages the handler was
    given so far. The handler is a function of the messages it saw, so it may
    keep state of its own; [true] is its ["stop"]. The loop of [push] runs on
    one unit of fuel per code unit, as each round removes a line feed.

    [readEventStream] reads a body to its end: the reader's answers are a
    list, the streaming text decoder of the platform a parameter with a state
    of its own, and the abort signal is looked at after every read.

    The specification splits the whole text into lines first; whatever the
    chunks, the messages are the same, and a formatted message reads back. *)
From stdpp Require Import prelude list strings.
From Stdlib Require Import ZArith Lia.
From S2P Require Import Prelude JsString.

(** ** Data *)

Record SseMessage := { event : jstr; data : jstr; id : option jstr }.
Record Frame := { f_event : jstr; f_data : list jstr; f_id : option jstr }.
Definition emptyFrame : Frame := {| f_event := []; f_data := []; f_id := None |}.

Record Parser := { buffer : jstr; frame : Frame; messages : list SseMessage }.
Definition createSseParser : Parser := {| buffer := []; frame := emptyFrame; messages := [] |}.

Definition set_buffer (b : jstr) (p : Parser) : Parser :=
  {| buffer := b; frame := frame p; messages := messages p |}.
Definition set_frame (f : Frame) (p : Parser) : Parser :=
  {| buffer := buffer p; frame := f; messages := messages p |}.

(** ** Lines *)

(** [rawLine] without the carriage return it may end with. *)
Definition strip_cr (rawLine : jstr) : jstr :=
  if bool_decide (last rawLine = Some 13) then take (length rawLine - 1) rawLine else rawLine.

(** The field name of a line and its value. *)
Definition line_field (line : jstr) : jstr * jstr :=
  match find_index 58 line with
  | None => (line, [])
  | Some colon =>
      let value := drop (S colon) line in
      (take colon line, match value with 32 :: value => value | _ => value end)
  end.

Definition apply_field (field value : jstr) (f : Frame) : Frame :=
  if bool_decide (field = js "event") then {| f_event := value; f_data := f_data f; f_id := f_id f |}
  else if bool_decide (field = js "data")
  then {| f_event := f_event f; f_data := f_data f ++ [value]; f_id := f_id f |}
  else if bool_decide (field = js "id") then {| f_event := f_event f; f_data := f_data f; f_id := Some value |}
  else f.

Definition frame_message (f : Frame) : SseMessage :=
  {| event := if bool_decide (f_event f = []) then js "message" else f_event f;
     data := join [10] (f_data f); id := f_id f |}.

Section parser.
Context (onMessage : list SseMessage -> SseMessage -> bool).

(** Each operation returns the next state and whether it returned ["stop"]. *)
Definition dispatch (p : Parser) : Parser * bool :=
  let current := frame p in
  if bool_decide (f_data current = []) then (set_frame emptyFrame p, false)
  else
    let message := frame_message current in
    ({| buffer := buffer p; frame := emptyFrame; messages := messages p ++ [message] |},
     onMessage (messages p) message).

Definition handleLine (rawLine : jstr) (p : Parser) : Parser * bool :=
  let line := strip_cr rawLine in
  if bool_decide (line = []) then dispatch p
  else if startsWith (js ":") line then (p, false)
  else let '(field, value) := line_field line in (set_frame (apply_field field value (frame p)) p, false).

Fixpoint push_loop (fuel : nat) (p : Parser) : Parser * bool :=
  match fuel with
  | O => (p, false)
  | S fuel =>
      match find_index 10 (buffer p) with
      | None => (p, false)
      | Some newline =>
          let line := take newline (buffer p) in
          let '(p, stop) := handleLine line (set_buffer (drop (S newline) (buffer p)) p) in
          if stop then (p, true) else push_loop fuel p
      end
  end.

Definition push (chunk : jstr) (p : Parser) : Parser * bool :=
  let p := set_buffer (buffer p ++ chunk) p in
  push_loop (S (length (buffer p))) p.

Definition flush (p : Parser) : Parser * bool :=
  if bool_decide (buffer p = []) then dispatch p
  else
    let '(p, stop) := handleLine (buffer p) (set_buffer [] p) in
    if stop then (p, true) else dispatch p.

(** ** Reading a body *)

Inductive read_result := Chunk (value : list Z) | Done | Failed (err : jstr).

(** How the promise of [readEventStream] settles; [cancelled] is whether the
    reader was cancelled because the handler stopped. *)
Inductive stream_end := Resolved (cancelled : bool) | Aborted | Rejected (err : jstr).

Section stream.
Context {D : Type} (decode_chunk : D -> list Z -> D * jstr) (decode_end : D -> jstr).

(** The read loop: each answer of the reader comes with whether the signal is
    aborted by then. The answers end when the reader has none left. *)
Fixpoint read_loop (d : D) (p : Parser) (reads : list (bool * read_result)) : Parser * option stream_end :=
  match reads with
  | [] => (p, None)
  | (true, _) :: _ => (p, Some Aborted)
  | (false, Failed err) :: _ => (p, Some (Rejected err))
  | (false, Done) :: _ =>
      let '(p, _) := push (decode_end d) p in
      let '(p, _) := flush p in
      (p, Some (Resolved false))
  | (false, Chunk value) :: reads =>
      let '(d, text) := decode_chunk d value in
      let '(p, stop) := push text p in
      if stop then (p, Some (Resolved true)) else read_loop d p reads
  end.

Definition readEventStream (d0 : D) (aborted : bool) (reads : list (bool * read_result)) : Parser * option stream_end :=
  if aborted then (createSseParser, Some Aborted) else read_loop d0 createSseParser reads.
End stream.

(** ** Specification: the whole text at once *)

(** Process lines until the handler stops. *)
Fixpoint handle_lines (ls : list jstr) (p : Parser) : Parser * bool :=
  match ls with
  | [] => (p, false)
  | l :: ls => let '(p, stop) := handleLine l p in if stop then (p, true) else handle_lines ls p
  end.

(** All lines of a text but the last, which a later chunk may continue. *)
Definition full_lines (text : jstr) : list jstr := removelast (split_on 10 text).
Definition open_line (text : jstr) : jstr := List.last (split_on 10 text) [].

(** What a text means: its full lines, then the open one and the pending
    frame, unless the handler stopped before. *)
Definition sse_spec (text : jstr) : list SseMessage :=
  let '(p, stop) := handle_lines (full_lines text) createSseParser in
  if stop then messages p else messages (flush (set_buffer (open_line text) p)).1.
End parser.

(** ** Splitting a text in two *)

Lemma line_split (t : jstr) : 10 ∉ t \/ exists l r, t = l ++ 10 :: r /\ 10 ∉ l.
Proof.
  destruct (find_index 10 t) as [i|] eqn:E; [|left; by apply find_index_None].
  apply find_index_Some in E as [E Hn]. right. by exists (take i t), (drop (S i) t).
Qed.

Lemma full_lines_none t : 10 ∉ t -> full_lines t = [].
Proof. intros H. unfold full_lines. by rewrite split_on_none. Qed.
Lemma open_line_none t : 10 ∉ t -> open_line t = t.
Proof. intros H. unfold open_line. by rewrite split_on_none. Qed.

Lemma full_lines_app l r : 10 ∉ l -> full_lines (l ++ 10 :: r) = l :: full_lines r.
Proof.
  intros H. unfold full_lines. rewrite split_on_app by done. pose proof (split_on_nonempty 10 r).
  by destruct (split_on 10 r).
Qed.
Lemma open_line_app l r : 10 ∉ l -> open_line (l ++ 10 :: r) = open_line r.
Proof.
  intros H. unfold open_line. rewrite split_on_app by done. pose proof (split_on_nonempty 10 r).
  by destruct (split_on 10 r).
Qed.

(** Induction on a text line by line. *)
Lemma text_ind (P : jstr -> Prop) :
  (forall t, 10 ∉ t -> P t) -> (forall l r, 10 ∉ l -> P r -> P (l ++ 10 :: r)) -> forall t, P t.
Proof.
  intros Hopen Hline t. remember (length t) as n eqn:Hn. revert t Hn.
  induction n as [n IH] using lt_wf_ind. intros t ->.
  destruct (line_split t) as [|(l & r & -> & Hl)]; [by apply Hopen|].
  apply Hline; [done|]. eapply IH; [|reflexivity]. rewrite length_app. simpl. lia.
Qed.

(** What the first text leaves open, the second continues. *)
Lemma full_lines_join t u : full_lines (t ++ u) = full_lines t ++ full_lines (open_line t ++ u).
Proof.
  induction t as [t Ht|l r Hl IH] using text_ind.
  { by rewrite (full_lines_none t), (open_line_none t) by done. }
  rewrite <- app_assoc. simpl. by rewrite !full_lines_app, open_line_app, IH by done.
Qed.
Lemma open_line_join t u : open_line (t ++ u) = open_line (open_line t ++ u).
Proof.
  induction t as [t Ht|l r Hl IH] using text_ind.
  { by rewrite (open_line_none t) by done. }
  rewrite <- app_assoc. simpl. by rewrite !open_line_app, IH by done.
Qed.
Lemma open_line_closed t : 10 ∉ open_line t.
Proof.
  induction t as [t Ht|l r Hl IH] using text_ind.
  - by rewrite open_line_none by done.
  - by rewrite open_line_app by done.
Qed.

(** ** Pushing chunks *)

Section chunks.
Context (onMessage : list SseMessage -> SseMessage -> bool).

Lemma handleLine_buffer l b p :
  handleLine onMessage l (set_buffer b p) =
  (set_buffer b (handleLine onMessage l p).1, (handleLine onMessage l p).2).
Proof.
  unfold handleLine, dispatch. destruct (line_field (strip_cr l)) as [f v].
  destruct (bool_decide (strip_cr l = [])); [simpl; by case_bool_decide|]. by destruct (startsWith _ _).
Qed.

Lemma handle_lines_buffer ls b p :
  handle_lines onMessage ls (set_buffer b p) =
  (set_buffer b (handle_lines onMessage ls p).1, (handle_lines onMessage ls p).2).
Proof.
  revert p; induction ls as [|l ls IH]; intros p; [done|]. simpl. rewrite handleLine_buffer.
  destruct (handleLine onMessage l p) as [q [|]]; simpl; [done|apply IH].
Qed.

Lemma handle_lines_app ls1 ls2 p :
  handle_lines onMessage (ls1 ++ ls2) p =
  if (handle_lines onMessage ls1 p).2 then handle_lines onMessage ls1 p
  else handle_lines onMessage ls2 (handle_lines onMessage ls1 p).1.
Proof.
  revert p; induction ls1 as [|l ls1 IH]; intros p; [done|]. simpl.
  destruct (handleLine onMessage l p) as [q [|]]; [done|apply IH].
Qed.

(** A run over some text: the lines are handled in order, and without a
    stop the buffer keeps the open line. *)
Definition handled (text : jstr) (p : Parser) (r : Parser * bool) : Prop :=
  exists b, r = (set_buffer b (handle_lines onMessage (full_lines text) p).1,
                 (handle_lines onMessage (full_lines text) p).2) /\
            (r.2 = false -> b = open_line text).

Lemma push_loop_handled fuel p :
  (length (buffer p) < fuel)%nat -> handled (buffer p) p (push_loop onMessage fuel p).
Proof.
  revert p; induction fuel as [|fuel IH]; intros p Hf; [lia|]. cbn [push_loop]. unfold handled.
  destruct (find_index 10 (buffer p)) as [i|] eqn:E.
  - apply find_index_Some in E as [E Hn]. set (l := take i (buffer p)) in *. set (r := drop (S i) (buffer p)) in *.
    rewrite E, full_lines_app, open_line_app by done. cbn [handle_lines]. rewrite handleLine_buffer.
    destruct (handleLine onMessage l p) as [q [|]] eqn:Hq; simpl; [by exists r|].
    destruct (IH (set_buffer r q)) as (b & Hb & Ho).
    { simpl. rewrite E, length_app in Hf. simpl in Hf. lia. }
    simpl in Hb, Ho. exists b. rewrite handle_lines_buffer in Hb. by split.
  - apply find_index_None in E. exists (buffer p).
    rewrite full_lines_none, open_line_none by done. simpl. split; [|done]. by destruct p.
Qed.

Lemma push_handled chunk p : handled (buffer p ++ chunk) p (push onMessage chunk p).
Proof.
  unfold push. set (q := set_buffer _ p).
  destruct (push_loop_handled (S (length (buffer q))) q ltac:(lia)) as (b & Hb & Ho).
  exists b. unfold q in Hb, Ho. simpl buffer in Hb, Ho. rewrite handle_lines_buffer in Hb. by split.
Qed.
End chunks.

(** ** Reading to the end *)

Section reading.
Context (onMessage : list SseMessage -> SseMessage -> bool).
Context {D : Type} (decode_chunk : D -> list Z -> D * jstr) (decode_end : D -> jstr).
(** At the end of the stream the decoder has at most an incomplete character
    left, which is not a line feed. *)
Context (decode_end_closed : forall d, 10 ∉ decode_end d).

(** The text the decoder makes of a list of chunks, and its state after. *)
Fixpoint decoded (d : D) (values : list (list Z)) : jstr :=
  match values with
  | [] => decode_end d
  | value :: values => (decode_chunk d value).2 ++ decoded (decode_chunk d value).1 values
  end.

Definition all_reads (values : list (list Z)) : list (bool * read_result) :=
  ((fun v => (false, Chunk v)) <$> values) ++ [(false, Done)].

(** What remains to be delivered once [text] follows the buffer. *)
Definition delivered (text : jstr) (p : Parser) : list SseMessage :=
  let '(q, stop) := handle_lines onMessage (full_lines text) p in
  if stop then messages q else messages (flush onMessage (set_buffer (open_line text) q)).1.

Lemma delivered_step text u p b q :
  handle_lines onMessage (full_lines text) p = (q, false) -> b = open_line text ->
  delivered (b ++ u) (set_buffer b q) = delivered (text ++ u) p.
Proof.
  intros Hq ->. unfold delivered. rewrite (full_lines_join text u), handle_lines_app, Hq, handle_lines_buffer. simpl.
  rewrite (open_line_join text u). by destruct (handle_lines onMessage _ q) as [q' [|]].
Qed.

Lemma read_loop_delivered values d p :
  10 ∉ buffer p ->
  let r := read_loop onMessage decode_chunk decode_end d p (all_reads values) in
  messages r.1 = delivered (buffer p ++ decoded d values) p /\ exists c, r.2 = Some (Resolved c).
Proof.
  revert d p; induction values as [|v values IH]; intros d p Hp; cbn [decoded].
  - assert (10 ∉ buffer p ++ decode_end d) as Hn by (rewrite elem_of_app; naive_solver).
    simpl. destruct (push_handled onMessage (decode_end d) p) as (b & -> & Ho).
    unfold delivered. rewrite full_lines_none, open_line_none in * by done. simpl in *. rewrite Ho by done.
    destruct (flush _ _) as [q s]. by split; [|eexists].
  - simpl. destruct (decode_chunk d v) as [d' text]. simpl.
    destruct (push_handled onMessage text p) as (b & -> & Ho).
    destruct (handle_lines onMessage _ p) as [q stop] eqn:Hq. simpl in *. destruct stop.
    + split; [|by eexists]. unfold delivered. by rewrite app_assoc, full_lines_join, handle_lines_app, Hq.
    + specialize (Ho eq_refl). rewrite app_assoc, <- (delivered_step _ _ _ b q Hq Ho).
      apply (IH d' (set_buffer b q)). rewrite Ho. apply open_line_closed.
Qed.

(** C36: however the text of a body is cut into chunks, reading it to its end
    delivers the messages of the text as a whole, up to the first one the
    handler stops at, and resolves. *)
Theorem stream_messages (d0 : D) (values : list (list Z)) :
  let r := readEventStream onMessage decode_chunk decode_end d0 false (all_reads values) in
  messages r.1 = sse_spec onMessage (decoded d0 values) /\ exists c, r.2 = Some (Resolved c).
Proof. apply (read_loop_delivered values d0 createSseParser). set_solver. Qed.
End reading.

(** Two chunks that cut a line, with a decoder of one unit per byte and a
    handler that never stops. *)
Lemma stream_messages_witness :
  let dec := fun (d : unit) (v : list Z) => (d, v) in
  let r := readEventStream (fun _ _ => false) dec (fun _ => []) tt false
             (all_reads [js "data: he"; js "llo" ++ [10; 10]]) in
  messages r.1 = [{| event := js "message"; data := js "hello"; id := None |}].
Proof.
  intros dec r.
  pose proof (stream_messages (fun _ _ => false) dec (fun _ => []) ltac:(set_solver) tt
                [js "data: he"; js "llo" ++ [10; 10]]) as [H _].
  exact H.
Defined.

(** ** Writing messages *)

Definition field_line (name value : jstr) : jstr := name ++ 58 :: 32 :: value.
Definition message_lines (m : SseMessage) : list jstr :=
  field_line (js "event") (event m)
  :: (match id m with Some i => [field_line (js "id") i] | None => [] end)
  ++ (field_line (js "data") <$> split_on 10 (data m)) ++ [[]].
Definition format_message (m : SseMessage) : jstr := concat ((fun l => l ++ [10]) <$> message_lines m).

(** A value that one line can carry, and a message made of such. *)
Definition one_line (v : jstr) : Prop := 10 ∉ v /\ last v <> Some 13.
Definition message_ok (m : SseMessage) : Prop :=
  event m <> [] /\ one_line (event m) /\ Forall one_line (split_on 10 (data m)) /\
  (forall i, id m = Some i -> one_line i).

Lemma handle_field onMessage name value p :
  58 ∉ name -> name <> [] -> last value <> Some 13 ->
  handleLine onMessage (field_line name value) p = (set_frame (apply_field name value (frame p)) p, false).
Proof.
  intros Hn Hne Hv. unfold handleLine, field_line.
  assert (strip_cr (name ++ 58 :: 32 :: value) = name ++ 58 :: 32 :: value) as ->.
  { unfold strip_cr. rewrite bool_decide_eq_false_2; [done|]. rewrite last_app, !last_cons.
    by destruct (last value). }
  rewrite bool_decide_eq_false_2 by by destruct name.
  assert (startsWith (js ":") (name ++ 58 :: 32 :: value) = false) as ->.
  { apply bool_decide_eq_false_2. destruct name as [|c name]; [done|]. intros [= ->]. set_solver. }
  unfold line_field. rewrite find_index_app, take_app_length by done.
  by rewrite <- Nat.add_1_r, <- drop_drop, drop_app_length.
Qed.

Lemma handle_data onMessage ls p :
  Forall one_line ls ->
  handle_lines onMessage (field_line (js "data") <$> ls) p =
  (set_frame {| f_event := f_event (frame p); f_data := f_data (frame p) ++ ls; f_id := f_id (frame p) |} p, false).
Proof.
  intros HF. revert p; induction HF as [|l ls [_ Hl] HF IH]; intros p.
  { rewrite app_nil_r. by destruct p as [b [] m]. }
  rewrite fmap_cons. cbn [handle_lines]. rewrite handle_field; [|set_solver|done|done].
  rewrite IH. unfold apply_field. simpl. by rewrite <- app_assoc.
Qed.

(** The lines of a message, from a fresh frame, deliver it. *)
Lemma handle_message ms p m :
  message_ok m -> frame p = emptyFrame ->
  handle_lines (fun _ _ => false) (message_lines m ++ ms) p =
  handle_lines (fun _ _ => false) ms
    {| buffer := buffer p; frame := emptyFrame; messages := messages p ++ [m] |}.
Proof.
  intros (He & [_ Hel] & Hd & Hi) Hp. unfold message_lines. cbn [handle_lines app].
  rewrite handle_field by (set_solver || done). rewrite Hp.
  set (q := set_frame _ p).
  assert (handle_lines (fun _ _ => false) (match id m with Some i => [field_line (js "id") i] | None => [] end) q
          = (set_frame {| f_event := event m; f_data := []; f_id := id m |} p, false)) as Hid.
  { destruct (id m) as [i|]; [|done]. destruct (Hi i eq_refl) as [_ Hil]. cbn [handle_lines].
    by rewrite handle_field by (set_solver || done). }
  rewrite <- !app_assoc, handle_lines_app, Hid. cbn [snd fst].
  rewrite handle_lines_app, handle_data by done. cbn [snd fst app handle_lines].
  unfold handleLine. simpl. unfold dispatch. simpl. rewrite bool_decide_eq_false_2 by apply split_on_nonempty.
  unfold frame_message. simpl. rewrite bool_decide_eq_false_2, join_split_on by done. by destruct m.
Qed.

Lemma format_lines ls rest :
  Forall (fun l => 10 ∉ l) ls ->
  full_lines (concat ((fun l => l ++ [10]) <$> ls) ++ rest) = ls ++ full_lines rest /\
  open_line (concat ((fun l => l ++ [10]) <$> ls) ++ rest) = open_line rest.
Proof.
  induction 1 as [|l ls Hl HF [IH1 IH2]]; [done|]. rewrite fmap_cons. cbn [concat].
  rewrite <- !app_assoc. simpl. by rewrite full_lines_app, open_line_app, IH1, IH2 by done.
Qed.

Lemma field_line_closed name v : 10 ∉ name -> 10 ∉ v -> 10 ∉ field_line name v.
Proof. unfold field_line. set_solver. Qed.

Lemma message_lines_closed m : message_ok m -> Forall (fun l => 10 ∉ l) (message_lines m).
Proof.
  intros (_ & [He _] & Hd & Hi). unfold message_lines. constructor; [by apply field_line_closed; [set_solver|]|].
  apply Forall_app; split; [|apply Forall_app; split].
  - destruct (id m) as [i|]; constructor; [|done]. apply field_line_closed; [set_solver|]. by apply Hi.
  - apply Forall_fmap. eapply Forall_impl; [exact Hd|]. intros l [Hl _]. by apply field_line_closed; [set_solver|].
  - by constructor; [set_solver|].
Qed.

Lemma sse_messages_run ms p :
  Forall message_ok ms -> frame p = emptyFrame ->
  handle_lines (fun _ _ => false) (full_lines (concat (format_message <$> ms))) p =
    ({| buffer := buffer p; frame := emptyFrame; messages := messages p ++ ms |}, false) /\
  open_line (concat (format_message <$> ms)) = [].
Proof.
  intros HF. revert p; induction HF as [|m ms Hm HF IH]; intros p Hp.
  { rewrite app_nil_r. split; [|done]. destruct p; simpl in *; by subst. }
  rewrite fmap_cons. cbn [concat]. unfold format_message at 1 3.
  destruct (format_lines _ (concat (format_message <$> ms)) (message_lines_closed m Hm)) as [-> ->].
  rewrite handle_message by done.
  destruct (IH {| buffer := buffer p; frame := emptyFrame; messages := messages p ++ [m] |} eq_refl) as [-> ->].
  simpl. by rewrite <- app_assoc.
Qed.

(** What a server writes as frames is what the parser delivers: messages
    whose fields fit on lines read back, in order, with their event, their
    data over any number of lines and their id. *)
Theorem sse_roundtrip (ms : list SseMessage) :
  Forall message_ok ms -> sse_spec (fun _ _ => false) (concat (format_message <$> ms)) = ms.
Proof.
  intros HF. unfold sse_spec. by destruct (sse_messages_run ms createSseParser HF eq_refl) as [-> ->].
Qed.

Lemma sse_roundtrip_witness :
  let m := {| event := js "log"; data := js "one" ++ [10] ++ js "two"; id := Some (js "7") |} in
  sse_spec (fun _ _ => false) (concat (format_message <$> [m])) = [m].
Proof.
  intros m. apply (sse_roundtrip [m]). constructor; [|constructor].
  split_and!; [done|split; [set_solver|done]| |intros i [= <-]; split; [set_solver|done]].
  repeat constructor; (set_solver || done).
Defined.
