(* ===== verification/Dispatcher.v ===== *)
(** * Dispatcher: [sdk/typescript/src/client.ts], class [CallbackDispatcher].

    The client's bounded queue of change callbacks. One callback is taken per
    [setImmediate] turn and the next turn is asked for only when the promise
    of the last callback has settled. The turns the event loop still owes and
    the callbacks whose promise is pending are part of the state, so that
    one turn at a time is something to prove; a callback may call back into
    the dispatcher while it runs. *)
From stdpp Require Import prelude strings.
From Stdlib Require Import ZArith Lia.
From S2P Require Import Prelude JsString.

Definition CALLBACK_QUEUE_SIZE : nat := 1024.

(** A queued path with the identity of its callback. *)
Abbreviation item := (jstr * nat)%type.

(** [Accepted], [Dropped] and [Ran] are the history of the queue; [Warned] is
    the call of the logger. *)
Inductive effect := Accepted (i : item) | Dropped (i : item) | Ran (i : item) | Warned (message : jstr).

Record Dispatcher := {
  queue : list item;
  scheduled : bool;
  closed : bool;
  immediates : nat;
  running : list item;
  trace : list effect
}.

Definition new_CallbackDispatcher : Dispatcher :=
  {| queue := []; scheduled := false; closed := false; immediates := 0; running := []; trace := [] |}.

Definition emit (e : effect) (d : Dispatcher) : Dispatcher :=
  {| queue := queue d; scheduled := scheduled d; closed := closed d; immediates := immediates d;
     running := running d; trace := trace d ++ [e] |}.

Definition warn (message : jstr) (d : Dispatcher) : Dispatcher := emit (Warned message) d.

Definition with_turns (sch : bool) (n : nat) (r : list item) (d : Dispatcher) : Dispatcher :=
  {| queue := queue d; scheduled := sch; closed := closed d; immediates := n; running := r; trace := trace d |}.

Definition with_queue (q : list item) (d : Dispatcher) : Dispatcher :=
  {| queue := q; scheduled := scheduled d; closed := closed d; immediates := immediates d;
     running := running d; trace := trace d |}.

(** [setImmediate(() => this.#drain())] *)
Definition setImmediate (d : Dispatcher) : Dispatcher := with_turns (scheduled d) (S (immediates d)) (running d) d.

Definition enqueue (path : jstr) (callback : nat) (d : Dispatcher) : Dispatcher :=
  if closed d then d
  else if bool_decide (CALLBACK_QUEUE_SIZE <= length (queue d))%nat then
    emit (Dropped (path, callback)) (warn (js "KMS callback queue full; dropped notification for " ++ path) d)
  else
    let d := emit (Accepted (path, callback)) (with_queue (queue d ++ [(path, callback)]) d) in
    if scheduled d then d else setImmediate (with_turns true (immediates d) (running d) d).

Definition close (d : Dispatcher) : Dispatcher :=
  {| queue := []; scheduled := scheduled d; closed := true; immediates := immediates d;
     running := running d; trace := trace d |}.

Definition scheduleNext (d : Dispatcher) : Dispatcher :=
  if closed d || bool_decide (queue d = []) then with_turns false (immediates d) (running d) d
  else setImmediate d.

(** What a callback does to the dispatcher before it returns, and how it ends. *)
Inductive inner := IEnqueue (path : jstr) (callback : nat) | IClose.
Inductive ending := Threw | Returned.

Definition inner_call (d : Dispatcher) (i : inner) : Dispatcher :=
  match i with IEnqueue path cb => enqueue path cb d | IClose => close d end.

(** [#drain] up to the call of the callback it takes. *)
Definition take_item (d : Dispatcher) : Dispatcher * option item :=
  match immediates d with
  | O => (d, None)
  | S n =>
      if closed d then (with_turns false n (running d) d, None)
      else match queue d with
      | [] => (with_turns false n (running d) d, None)
      | i :: q => (emit (Ran i) (with_queue q (with_turns (scheduled d) n (running d) d)), Some i)
      end
  end.

(** [#drain] after the callback. *)
Definition end_item (i : item) (e : ending) (d : Dispatcher) : Dispatcher :=
  match e with
  | Threw => scheduleNext (warn (js "KMS change callback threw for " ++ i.1) d)
  | Returned => with_turns (scheduled d) (immediates d) (running d ++ [i]) d
  end.

(** [#drain], when the event loop gives it its turn. *)
Definition drain (calls : list inner) (e : ending) (d : Dispatcher) : Dispatcher :=
  match take_item d with
  | (d, Some i) => end_item i e (foldl inner_call d calls)
  | (d, None) => d
  end.

(** The promise of a callback that returned settles. *)
Definition settle (k : nat) (fulfilled : bool) (d : Dispatcher) : Dispatcher :=
  match running d !! k with
  | None => d
  | Some i =>
      let d := with_turns (scheduled d) (immediates d) (delete k (running d)) d in
      scheduleNext (if fulfilled then d else warn (js "KMS change callback rejected for " ++ i.1) d)
  end.

Inductive op :=
| OEnqueue (path : jstr) (callback : nat)
| OClose
| ODrain (calls : list inner) (e : ending)
| OSettle (k : nat) (fulfilled : bool).

Definition step (d : Dispatcher) (o : op) : Dispatcher :=
  match o with
  | OEnqueue path cb => enqueue path cb d
  | OClose => close d
  | ODrain calls e => drain calls e d
  | OSettle k b => settle k b d
  end.

Definition run (ops : list op) : Dispatcher := foldl step new_CallbackDispatcher ops.

(** ** What the trace says *)

Definition accepted_in (tr : list effect) : list item :=
  omap (fun e => match e with Accepted i => Some i | _ => None end) tr.
Definition dropped_in (tr : list effect) : list item :=
  omap (fun e => match e with Dropped i => Some i | _ => None end) tr.
Definition ran_in (tr : list effect) : list item :=
  omap (fun e => match e with Ran i => Some i | _ => None end) tr.

Definition accepted (d : Dispatcher) : list item := accepted_in (trace d).
Definition dropped (d : Dispatcher) : list item := dropped_in (trace d).
Definition ran (d : Dispatcher) : list item := ran_in (trace d).

Lemma accepted_emit e d : accepted (emit e d) = accepted d ++ match e with Accepted i => [i] | _ => [] end.
Proof. unfold accepted, accepted_in. simpl. rewrite omap_app. by destruct e. Qed.
Lemma dropped_emit e d : dropped (emit e d) = dropped d ++ match e with Dropped i => [i] | _ => [] end.
Proof. unfold dropped, dropped_in. simpl. rewrite omap_app. by destruct e. Qed.
Lemma ran_emit e d : ran (emit e d) = ran d ++ match e with Ran i => [i] | _ => [] end.
Proof. unfold ran, ran_in. simpl. rewrite omap_app. by destruct e. Qed.

(** Nothing but a full queue drops a notification: when it did, 1024 of the
    accepted ones had not run. *)
Definition full_drops (tr : list effect) : Prop :=
  forall before i after, tr = before ++ Dropped i :: after ->
    length (accepted_in before) = (length (ran_in before) + 1024)%nat.

Lemma snoc_split {A} (tr : list A) e before x after :
  tr ++ [e] = before ++ x :: after ->
  (exists after', tr = before ++ x :: after') \/ (tr = before /\ e = x).
Proof.
  destruct after as [|y after _] using rev_ind.
  - intros H. apply app_inj_tail in H as [-> ->]. by right.
  - rewrite app_comm_cons, (assoc_L (++)). intros H. apply app_inj_tail in H as [-> _]. left. eauto.
Qed.

Lemma full_drops_snoc tr e :
  full_drops tr ->
  (forall i, e = Dropped i -> length (accepted_in tr) = (length (ran_in tr) + 1024)%nat) -> full_drops (tr ++ [e]).
Proof. intros H He before i after [[after' Heq]|[<- ->]]%snoc_split; [by eapply H|by eapply He]. Qed.

(** ** The invariant *)

Definition owed (sch : bool) : nat := if sch then 1 else 0.

(** [busy] is the turn in progress: while a callback runs, nothing else is
    pending although the flag is up. *)
Record ok (busy : nat) (d : Dispatcher) : Prop := {
  ok_turns : (immediates d + length (running d) + busy = owed (scheduled d))%nat;
  ok_wake : queue d <> [] -> scheduled d = true;
  ok_closed : closed d = true -> queue d = [];
  ok_bound : (length (queue d) <= 1024)%nat;
  ok_fifo : exists lost, accepted d = ran d ++ queue d ++ lost /\ (closed d = false -> lost = []);
  ok_drops : full_drops (trace d)
}.

Lemma ok_new : ok 0 new_CallbackDispatcher.
Proof. split; simpl; try done; [lia|by exists []|by intros [] ?]. Qed.

(** Effects that are no part of the queue's history. *)
Lemma ok_warn n m d : ok n d -> ok n (warn m d).
Proof.
  intros [H1 H2 H3 H4 (l & H5 & H6) H7]. split; try done; [|by apply full_drops_snoc].
  exists l. unfold warn. rewrite accepted_emit, ran_emit, !app_nil_r. done.
Qed.

(** What [enqueue] does while the dispatcher is open. *)
Lemma enqueue_room path cb d :
  closed d = false -> (length (queue d) < 1024)%nat ->
  let d' := enqueue path cb d in
  queue d' = queue d ++ [(path, cb)] /\ trace d' = trace d ++ [Accepted (path, cb)] /\ closed d' = false /\
  running d' = running d /\ scheduled d' = true /\ immediates d' = ((if scheduled d then 0 else 1) + immediates d)%nat.
Proof.
  intros Hc Hl. unfold enqueue. rewrite Hc, bool_decide_eq_false_2 by (unfold CALLBACK_QUEUE_SIZE; lia). simpl.
  by destruct (scheduled d) eqn:Hs.
Qed.

Lemma enqueue_full path cb d :
  closed d = false -> (1024 <= length (queue d))%nat ->
  enqueue path cb d =
    emit (Dropped (path, cb)) (warn (js "KMS callback queue full; dropped notification for " ++ path) d).
Proof. intros Hc Hl. unfold enqueue. by rewrite Hc, bool_decide_eq_true_2. Qed.

Lemma ok_enqueue n path cb d : ok n d -> ok n (enqueue path cb d).
Proof.
  intros Hok. destruct (closed d) eqn:Hc; [unfold enqueue; by rewrite Hc|].
  destruct (decide (length (queue d) < 1024)%nat) as [Hl|Hl].
  - destruct (enqueue_room path cb d Hc Hl) as (Eq & Et & Ec & Er & Es & Ei). destruct Hok as [H1 H2 H3 H4 (l & H5 & H6) H7].
    split; rewrite ?Eq, ?Et, ?Ec, ?Er, ?Es, ?Ei; try done.
    + unfold owed in *. destruct (scheduled d); lia.
    + rewrite length_app. simpl. lia.
    + exists []. split; [|done]. unfold accepted, ran. rewrite Et. unfold accepted_in, ran_in.
      rewrite !omap_app. simpl. fold (accepted_in (trace d)) (ran_in (trace d)). fold (accepted d) (ran d).
      by rewrite H5, (H6 Hc), !app_nil_r, (assoc_L (++)).
    + by apply full_drops_snoc.
  - rewrite enqueue_full by (done || lia). apply (ok_warn n (js "KMS callback queue full; dropped notification for " ++ path)) in Hok.
    set (d1 := warn _ d) in *. assert (closed d1 = false /\ queue d1 = queue d) as [Hc1 Hq1] by done. clearbody d1.
    destruct Hok as [H1 H2 H3 H4 (l & H5 & H6) H7]. split; try done.
    + exists l. rewrite accepted_emit, ran_emit, !app_nil_r. done.
    + apply full_drops_snoc; [done|]. intros _ _. fold (accepted d1) (ran d1).
      rewrite H5, (H6 Hc1), app_nil_r, length_app, Hq1. rewrite Hq1 in H4. lia.
Qed.

Lemma ok_close n d : ok n d -> ok n (close d).
Proof.
  intros [H1 H2 H3 H4 (l & H5 & H6) H7]. split; simpl; try done; [lia|]. by exists (queue d ++ l).
Qed.

Lemma ok_inner n d calls : ok n d -> ok n (foldl inner_call d calls).
Proof.
  revert d. induction calls as [|i calls IH]; intros d H; simpl; [done|]. apply IH.
  destruct i; [by apply ok_enqueue|by apply ok_close].
Qed.

(** The end of a turn: the flag goes down exactly when nothing is left. *)
Lemma ok_next d : ok 1 d -> ok 0 (scheduleNext d).
Proof.
  intros [H1 H2 H3 H4 H5 H6]. unfold owed in H1. destruct (scheduled d) eqn:Hs; [|lia].
  assert (immediates d = 0 /\ length (running d) = 0)%nat as [E1 E2] by lia.
  unfold scheduleNext. destruct (closed d || bool_decide (queue d = [])) eqn:E.
  - split; simpl; try done; [rewrite E1, E2; done|].
    intros Hq. apply orb_true_iff in E as [Hc|Hd]; [by rewrite (H3 Hc) in Hq|]. by apply bool_decide_eq_true in Hd.
  - split; simpl; try done. rewrite E1, E2, Hs. done.
Qed.

Lemma take_item_ok d :
  ok 0 d -> match take_item d with (d', Some _) => ok 1 d' | (d', None) => ok 0 d' end.
Proof.
  intros Hok. pose proof Hok as [H1 H2 H3 H4 (l & H5 & H6) H7].
  unfold take_item. destruct (immediates d) as [|n] eqn:Hi; [done|].
  unfold owed in H1. destruct (scheduled d) eqn:Hs; [|lia].
  assert (n = 0 /\ length (running d) = 0)%nat as [-> E2] by lia.
  destruct (closed d) eqn:Hc.
  { specialize (H3 eq_refl). rewrite H3 in *. split; simpl; rewrite ?H3; try done; [by rewrite E2|exists l; split; [done|congruence]]. }
  destruct (queue d) as [|i q] eqn:Hq.
  { split; simpl; rewrite ?Hq; try done; [by rewrite E2|exists l; split; [done|by rewrite Hc]]. }
  split; simpl; try done.
  - by rewrite E2.
  - congruence.
  - simpl in H4. lia.
  - exists l. split; [|by rewrite Hc].
    change (accepted (emit (Ran i) d) = ran (emit (Ran i) d) ++ q ++ l).
    rewrite accepted_emit, ran_emit, app_nil_r, H5. by rewrite <- (assoc_L (++)).
  - by apply full_drops_snoc.
Qed.

Lemma end_item_ok i e d : ok 1 d -> ok 0 (end_item i e d).
Proof.
  destruct e; simpl; [by intros ?%(ok_warn _ (js "KMS change callback threw for " ++ i.1))%ok_next|].
  intros [G1 G2 G3 G4 G5 G6]. split; simpl; try done. rewrite length_app. simpl. lia.
Qed.

Lemma ok_drain calls e d : ok 0 d -> ok 0 (drain calls e d).
Proof.
  intros H%take_item_ok. unfold drain. destruct (take_item d) as [d' [i|]]; [|done].
  by apply end_item_ok, ok_inner.
Qed.

Lemma ok_settle k b d : ok 0 d -> ok 0 (settle k b d).
Proof.
  intros [H1 H2 H3 H4 H5 H6]. unfold settle. destruct (running d !! k) as [i|] eqn:Hk; [|done].
  apply ok_next. pose proof (length_delete (running d) k (mk_is_Some _ _ Hk)) as Hl. pose proof (lookup_lt_Some _ _ _ Hk).
  assert (ok 1 (with_turns (scheduled d) (immediates d) (delete k (running d)) d)).
  { split; simpl; try done. lia. }
  destruct b; [done|by apply ok_warn].
Qed.

Lemma ok_run ops : ok 0 (run ops).
Proof.
  unfold run. generalize new_CallbackDispatcher ok_new. induction ops as [|o ops IH]; intros d H; simpl; [done|].
  apply IH. destruct o; simpl; [by apply ok_enqueue|by apply ok_close|by apply ok_drain|by apply ok_settle].
Qed.

(** ** After [close] *)

Lemma closed_step d o :
  closed d = true -> queue d = [] ->
  closed (step d o) = true /\ queue (step d o) = [] /\ ran (step d o) = ran d /\
  accepted (step d o) = accepted d /\ dropped (step d o) = dropped d.
Proof.
  intros Hc Hq. destruct o as [path cb| |calls e|k b]; simpl.
  - unfold enqueue. by rewrite Hc.
  - done.
  - unfold drain, take_item. destruct (immediates d); [done|]. by rewrite Hc.
  - unfold settle. destruct (running d !! k) as [i|]; [|done]. unfold scheduleNext.
    destruct b; simpl; rewrite Hc; simpl; split_and!; try done;
      unfold ran, accepted, dropped, ran_in, accepted_in, dropped_in; simpl; by rewrite omap_app, app_nil_r.
Qed.

Lemma closed_run d more :
  closed d = true -> queue d = [] ->
  let d' := foldl step d more in ran d' = ran d /\ accepted d' = accepted d /\ dropped d' = dropped d.
Proof.
  revert d. induction more as [|o more IH]; intros d Hc Hq; simpl; [done|].
  destruct (closed_step d o Hc Hq) as (Hc' & Hq' & <- & <- & <-). by apply IH.
Qed.

(** ** Progress *)

(** One callback per round: its turn, and the promise it returned. *)
Fixpoint drain_all (n : nat) (d : Dispatcher) : Dispatcher :=
  match n with
  | O => d
  | S n => drain_all n (settle 0 true (drain [] Returned d))
  end.

Lemma settle_rested d :
  let d' := settle 0 true d in queue d' = queue d /\ trace d' = trace d /\ closed d' = closed d.
Proof. simpl. unfold settle. destruct (running d !! 0%nat); [|done]. unfold scheduleNext. by case_match. Qed.

Lemma settle_idle d : ok 0 d -> running (settle 0 true d) = [].
Proof.
  intros [H1 _ _ _ _ _]. unfold settle. destruct (running d) as [|i [|j r]] eqn:Hr; simpl.
  - done.
  - unfold scheduleNext. by case_match.
  - simpl in H1. destruct (scheduled d); simpl in H1; lia.
Qed.

(** A round from an idle open state runs the oldest waiting callback. *)
Lemma round_runs d i q :
  ok 0 d -> closed d = false -> running d = [] -> queue d = i :: q ->
  let d' := settle 0 true (drain [] Returned d) in
  queue d' = q /\ trace d' = trace d ++ [Ran i] /\ closed d' = false /\ running d' = [].
Proof.
  intros Hok Hc Hr Hq. pose proof Hok as [H1 H2 _ _ _ _]. rewrite Hr, (H2 ltac:(by rewrite Hq)) in H1. simpl in H1.
  set (d' := settle 0 true (drain [] Returned d)). cbv zeta.
  assert (running d' = []) as Hr' by (by apply settle_idle, ok_drain).
  destruct (settle_rested (drain [] Returned d)) as (E1 & E2 & E3). fold d' in E1, E2, E3.
  rewrite E1, E2, E3. unfold drain, take_item. destruct (immediates d) as [|n]; [lia|]. by rewrite Hc, Hq.
Qed.

Lemma drain_all_runs n : forall d,
  n = length (queue d) -> ok 0 d -> closed d = false -> running d = [] ->
  let d' := drain_all n d in queue d' = [] /\ ran d' = ran d ++ queue d /\ accepted d' = accepted d.
Proof.
  induction n as [|n IH]; intros d Hn Hok Hc Hr; simpl.
  { symmetry in Hn. apply nil_length_inv in Hn. by rewrite Hn, app_nil_r. }
  destruct (queue d) as [|i q] eqn:Hq; [done|].
  destruct (round_runs d i q Hok Hc Hr Hq) as (E1 & E2 & E3 & E4).
  destruct (IH (settle 0 true (drain [] Returned d))) as (F1 & F2 & F3); try done.
  - rewrite E1. by simplify_eq/=.
  - by apply ok_settle, ok_drain.
  - split_and!; [done|rewrite F2, E1; unfold ran|rewrite F3; unfold accepted]; rewrite E2; unfold ran_in, accepted_in;
      rewrite omap_app; simpl; by rewrite <- ?(assoc_L (++)), ?app_nil_r.
Qed.

(** Once the pending callback has settled, as many turns as there are waiting
    notifications run all that were accepted. *)
Lemma accepted_all_run d :
  ok 0 d -> closed d = false ->
  let d' := drain_all (length (queue d)) (settle 0 true d) in queue d' = [] /\ ran d' = accepted d.
Proof.
  intros Hok Hc. destruct (settle_rested d) as (Hq & Ht & Hcl).
  destruct (drain_all_runs (length (queue d)) (settle 0 true d)) as (Hn & Hran & _); rewrite ?Hq; try done.
  - by apply ok_settle.
  - by rewrite Hcl.
  - by apply settle_idle.
  - split; [done|]. rewrite Hran, Hq. unfold ran. rewrite Ht. fold (ran d).
    destruct Hok as [_ _ _ _ (l & H5 & H6) _]. by rewrite H5, (H6 Hc), app_nil_r.
Qed.

(** ** The property *)

(** C20: accepted change callbacks are delivered in order and one at a time,
    and a notification is dropped only when 1024 are waiting. In every run,
    with callbacks that call back into the dispatcher and promises that
    settle in any order:
    - at most one callback or event-loop turn is outstanding, and exactly one
      while something waits;
    - the callbacks that have run are the oldest accepted notifications, in
      the order of acceptance; while the dispatcher is open the other accepted
      ones are exactly those in the queue, at most 1024;
    - an open dispatcher accepts a notification when fewer than 1024 wait and
      otherwise drops that one, with a warning that names its path; every
      drop of the run happened with 1024 accepted notifications waiting;
    - from an open state, when the pending promise settles and the event loop
      gives as many turns as there are waiting notifications, whose callbacks
      settle too, all accepted ones have run. So a callback that never settles
      stops delivery, and what then exceeds the queue is lost;
    - after [close] no further callback runs and nothing is accepted. *)
Theorem callbacks_in_order ops more path cb :
  let d := run ops in
  let d' := enqueue path cb d in
  (immediates d + length (running d) <= 1)%nat /\
  (queue d <> [] -> (immediates d + length (running d) = 1)%nat) /\
  (length (queue d) <= 1024)%nat /\
  ran d `prefix_of` accepted d /\
  (closed d = false -> accepted d = ran d ++ queue d) /\
  (closed d = false -> (length (queue d) < 1024)%nat ->
     accepted d' = accepted d ++ [(path, cb)] /\ dropped d' = dropped d) /\
  (closed d = false -> (1024 <= length (queue d))%nat ->
     accepted d' = accepted d /\ dropped d' = dropped d ++ [(path, cb)] /\
     Warned (js "KMS callback queue full; dropped notification for " ++ path) ∈ trace d') /\
  full_drops (trace d) /\
  (closed d = false -> ran (drain_all (length (queue d)) (settle 0 true d)) = accepted d) /\
  (closed d = true -> ran (foldl step d more) = ran d /\ accepted (foldl step d more) = accepted d).
Proof.
  intros d d'. pose proof (ok_run ops) as Hok. fold d in Hok. pose proof Hok as [H1 H2 H3 H4 (l & H5 & H6) H7].
  split_and!; try done.
  - destruct (scheduled d); simpl in H1; lia.
  - intros Hq. specialize (H2 Hq). rewrite H2 in H1. simpl in H1. lia.
  - rewrite H5. by eexists.
  - intros Hc. by rewrite H5, (H6 Hc), app_nil_r.
  - intros Hc Hl. destruct (enqueue_room path cb d Hc Hl) as (_ & Et & _). unfold accepted, dropped, accepted_in, dropped_in, d'.
    rewrite Et, !omap_app. simpl. by rewrite app_nil_r.
  - intros Hc Hl. unfold d'. rewrite (enqueue_full path cb d Hc Hl). unfold warn.
    rewrite !accepted_emit, !dropped_emit, !app_nil_r. split_and!; [done..|]. simpl. set_solver.
  - intros Hc. by apply accepted_all_run.
  - intros Hc. destruct (closed_run d more Hc (H3 Hc)) as (? & ? & _). done.
Qed.

(** Two notifications, the second arriving while the callback of the first is
    pending. *)
Lemma callbacks_in_order_witness :
  let ops := [OEnqueue (js "/a") 1; ODrain [] Returned; OEnqueue (js "/b") 2] in
  accepted (enqueue (js "/c") 3 (run ops)) = [(js "/a", 1%nat); (js "/b", 2%nat); (js "/c", 3%nat)] /\
  ran (drain_all (length (queue (run ops))) (settle 0 true (run ops))) = [(js "/a", 1%nat); (js "/b", 2%nat)].
Proof.
  intros ops. destruct (callbacks_in_order ops [] (js "/c") 3) as (_ & _ & _ & _ & _ & H1 & _ & _ & H2 & _).
  destruct H1 as [-> _]; [vm_compute; reflexivity|vm_compute; lia|]. split; [vm_compute; reflexivity|].
  rewrite H2; vm_compute; reflexivity.
Defined.
