(* ===== verification/Values.v ===== *)
(** * Values: [sdk/typescript/src/values.ts], declarative values.

    [SecretValue] and [ParameterValue] resolve an environment override, the
    store, or a default, in that order. Each synchronous stretch between two
    [await]s is one operation; what [#initialize] and [dispose] hold while
    they are suspended is the phase of the state, so a run is any interleaving
    of initialisation, shared-watch updates, callback registration, callback
    delivery and disposal. The answers of the client are inputs. A change hands
    one closure per callback to the client: to its own queue if it has one, to
    its [_dispatch], which is the bounded [CallbackDispatcher] of [client.ts]
    with the notifications of everything else the client watches, or to the
    microtask queue. What the closures of a callback do to the value while
    they run are the operations that follow; a client's own queue is taken not
    to run a closure before [applyUpdate] has returned.

    [collectValues] walks a heap of configuration objects with the visited set
    threaded through, as the source does. Fuel is one more than the number of
    objects: each level of the recursion meets one not yet visited.

    Not modelled: logging, the rendering methods, which are constants, and
    the accessors of options. *)
From stdpp Require Import prelude gmap strings.
From Stdlib Require Import ZArith Lia.
From S2P Require Import Prelude JsString JsMap Unicode Decimal Errors Refs Dispatcher.

(** ** Options and clients *)

Record SecretValueOptions := { s_key : jstr; s_bindKey : jstr; s_envVar : jstr; s_default : jstr }.
Record ParameterValueOptions := { p_key : jstr; p_envVar : jstr; p_default : jstr; p_static : bool }.

(** An option of a [SecretValue]: absent, a string, or another value. *)
Inductive option_value := Absent | Text (s : jstr) | NotText.
Definition optionalSecretOption (v : option_value) (name : jstr) : res JsError jstr :=
  match v with
  | Absent => Ok []
  | Text s => Ok s
  | NotText => Throw (ConfigError (js "SecretValue " ++ name ++ js " must be a string"))
  end.
Definition secretOptions (key bindKey envVar default : option_value) : res JsError SecretValueOptions :=
  let* k := optionalSecretOption key (js "key") in
  let* b := optionalSecretOption bindKey (js "bindKey") in
  let* e := optionalSecretOption envVar (js "envVar") in
  let* d := optionalSecretOption default (js "default") in
  Ok {| s_key := k; s_bindKey := b; s_envVar := e; s_default := d |}.

Definition parameterOptions (key envVar dflt : option jstr) (static : option bool) : ParameterValueOptions :=
  {| p_key := default [] key; p_envVar := default [] envVar; p_default := default [] dflt;
     p_static := default false static |}.

(** What a client offers; the two predicates are taken not to throw. *)
Record ValueResolver := {
  defaultAllowedForError : option (JsError -> bool);
  _defaultAllowedForError : option (JsError -> bool);
  fallbackToDefaultsOnError : bool;
  has_registerParameter : bool;
  has_resolveRef : bool;
  has_resolveResourceRef : bool;
  has_subscribeParameter : bool;
  has_enqueueCallback : bool;
  has_dispatch : bool
}.

Definition hasDefault (value : jstr) : bool := 0 <? strlen value.

Definition fallbackAllowed (client : ValueResolver) (error : JsError) : bool :=
  if isKmsError error (Some no_namespace) || isKmsError error (Some invalid_argument)
     || isKmsError error (Some not_initialized) then false
  else if isKmsError error (Some not_found) then true
  else match defaultAllowedForError client with
  | Some f => f error
  | None => match _defaultAllowedForError client with
            | Some f => f error
            | None => fallbackToDefaultsOnError client
            end
  end.

(** A non-empty variable of the environment [env]. *)
Definition env_override (env : jstr -> option jstr) (var : jstr) : option jstr :=
  if 0 <? strlen var then
    match env var with
    | Some v => if 0 <? strlen v then Some v else None
    | None => None
    end
  else None.

(** ** Secret values *)

(** The plaintext and path a [Secret] holds. *)
Record Plain := { plain : jstr; plain_path : option jstr }.

(** How [getSecret] answers: a [Secret], another value, or a rejection. *)
Inductive secret_answer := ASecret (s : Plain) | ANotSecret | ASecretFails (e : JsError).

Inductive secret_phase := SFetching | SDone (r : res JsError unit).
Record SecretValue := { resolved : option Plain; s_initializing : option secret_phase }.
Definition new_SecretValue : SecretValue := {| resolved := None; s_initializing := None |}.

Definition secret_settle (r : res JsError Plain) (s : SecretValue) : SecretValue :=
  match r with
  | Ok p => {| resolved := Some p; s_initializing := Some (SDone (Ok tt)) |}
  | Throw e => {| resolved := resolved s; s_initializing := Some (SDone (Throw e)) |}
  end.

(** [#initialize] up to its [await]. *)
Definition secret_begin (o : SecretValueOptions) (env : jstr -> option jstr) (s : SecretValue) : SecretValue :=
  match env_override env (s_envVar o) with
  | Some v => secret_settle (Ok {| plain := v; plain_path := Some (s_key o) |}) s
  | None =>
      if 0 <? strlen (s_key o) then {| resolved := resolved s; s_initializing := Some SFetching |}
      else if hasDefault (s_default o)
      then secret_settle (Ok {| plain := s_default o; plain_path := None |}) s
      else secret_settle (Throw (ConfigError (js "SecretValue has no key, envVar, or non-empty default configured"))) s
  end.

(** What the answer of the store becomes. *)
Definition secret_outcome (o : SecretValueOptions) (client : ValueResolver) (a : secret_answer) : res JsError Plain :=
  let failed error :=
    if hasDefault (s_default o) && fallbackAllowed client error
    then Ok {| plain := s_default o; plain_path := Some (s_key o) |}
    else
      let mapped := default (KmsError unknown SECRET_FAILED None None) (mapSecretGrpcError error) in
      match mapped with
      | JKms _ code message grpcCode _ =>
          Throw (KmsError code (js "resolve secret " ++ json_quote (s_key o) ++ js ": " ++ message) grpcCode None)
      | e => Throw e
      end in
  match a with
  | ASecret p => Ok p
  | ANotSecret => failed (ConfigError (js "ValueResolver.getSecret() must return a Secret"))
  | ASecretFails e => failed e
  end.

Inductive secret_op := SInit (env : jstr -> option jstr) | SAnswer (a : secret_answer) | SSettled.

Definition secret_step (o : SecretValueOptions) (client : ValueResolver) (s : SecretValue) (x : secret_op) : SecretValue :=
  match x with
  | SInit env =>
      match resolved s, s_initializing s with
      | None, None => secret_begin o env s
      | _, _ => s
      end
  | SAnswer a =>
      match s_initializing s with
      | Some SFetching => secret_settle (secret_outcome o client a) s
      | _ => s
      end
  | SSettled =>
      match s_initializing s with
      | Some (SDone _) => {| resolved := resolved s; s_initializing := None |}
      | _ => s
      end
  end.

Definition requireSecret (o : SecretValueOptions) (s : SecretValue) : res JsError Plain :=
  match resolved s with
  | Some p => Ok p
  | None => Throw (NotInitializedError (js "SecretValue") (s_key o))
  end.

(** The key and binding key [getSecret] is called with. *)
Definition secret_request (o : SecretValueOptions) : jstr * option jstr :=
  (s_key o, if strlen (s_bindKey o) =? 0 then None else Some (s_bindKey o)).

(** ** Parameter values *)

(** What registering returns: nothing, a function, or an object with the
    methods it has; the number is its identity. *)
Inductive SubscriptionHandle :=
| NoHandle
| HandleFunction (id : nat)
| HandleObject (id : nat) (unsubscribe dispose close : bool).

(** The call [disposeSubscription] makes. *)
Inductive release_call := CallsFunction | CallsUnsubscribe | CallsDispose | CallsClose.
Definition disposeSubscription (h : SubscriptionHandle) : option release_call :=
  match h with
  | NoHandle => None
  | HandleFunction _ => Some CallsFunction
  | HandleObject _ unsubscribe dispose close =>
      if unsubscribe then Some CallsUnsubscribe
      else if dispose then Some CallsDispose
      else if close then Some CallsClose else None
  end.

Record ChangeRegistration := { callback : nat; active : bool }.

(** Where [#initialize] is suspended, or how it settled. *)
Inductive phase := Fetching | Registering | LateDisposal | InitDone (r : res JsError unit).

(** Where [dispose] is: not called; waiting for the initialisation that was
    under way ([true]) or for the next turn ([false]); releasing; settled. *)
Inductive disposal := NotDisposed | AwaitsInit (waiting : bool) | Releasing | DisposeDone (r : res JsError unit).

Inductive effect :=
| Registered (h : SubscriptionHandle)
| Released (h : SubscriptionHandle) (call : option release_call)
| Called (invocation registration : nat) (old new : jstr).

(** ** Scheduling callbacks *)

(** Where the closures that [applyUpdate] creates wait, each by its number:
    in the client's own queue, in the client's dispatcher, where the callback
    [S j] is closure [j] and [0] is anybody else's, or as microtasks. [turn] is
    what the dispatcher is running. *)
Record Scheduler := {
  hosted : list nat;
  dispatcher : Dispatcher;
  turn : option item;
  microtasks : list nat
}.

Definition new_Scheduler : Scheduler :=
  {| hosted := []; dispatcher := new_CallbackDispatcher; turn := None; microtasks := [] |}.

Definition set_hosted (l : list nat) (s : Scheduler) : Scheduler :=
  {| hosted := l; dispatcher := dispatcher s; turn := turn s; microtasks := microtasks s |}.
Definition set_dispatcher (d : Dispatcher) (t : option item) (s : Scheduler) : Scheduler :=
  {| hosted := hosted s; dispatcher := d; turn := t; microtasks := microtasks s |}.
Definition set_microtasks (l : list nat) (s : Scheduler) : Scheduler :=
  {| hosted := hosted s; dispatcher := dispatcher s; turn := turn s; microtasks := l |}.

(** The first of [_enqueueCallback] and [_dispatch] the client has. *)
Inductive route := Hosted | Dispatched | Microtasks.
Definition route_of (client : ValueResolver) : route :=
  if has_enqueueCallback client then Hosted else if has_dispatch client then Dispatched else Microtasks.

Definition hand_over (r : route) (key : jstr) (j : nat) (s : Scheduler) : Scheduler :=
  match r with
  | Hosted => set_hosted (hosted s ++ [j]) s
  | Dispatched => set_dispatcher (enqueue key (S j) (dispatcher s)) (turn s) s
  | Microtasks => set_microtasks (microtasks s ++ [j]) s
  end.

(** ** The state of a parameter value *)

Record ParameterValue := {
  value : jstr;
  initialized : bool;
  pinned : bool;
  initializing : option phase;
  subscription : SubscriptionHandle;
  disposed : bool;
  disposing : disposal;
  registrations : list ChangeRegistration;
  callbacks : list nat;
  invocations : list (nat * jstr * jstr);
  scheduler : Scheduler;
  trace : list effect
}.

Definition new_ParameterValue : ParameterValue :=
  {| value := []; initialized := false; pinned := false; initializing := None; subscription := NoHandle;
     disposed := false; disposing := NotDisposed; registrations := []; callbacks := []; invocations := [];
     scheduler := new_Scheduler; trace := [] |}.

Definition set_value (v : jstr) (i pin : bool) (p : ParameterValue) : ParameterValue :=
  {| value := v; initialized := i; pinned := pin; initializing := initializing p; subscription := subscription p;
     disposed := disposed p; disposing := disposing p; registrations := registrations p; callbacks := callbacks p;
     invocations := invocations p; scheduler := scheduler p; trace := trace p |}.
Definition set_init (ph : option phase) (p : ParameterValue) : ParameterValue :=
  {| value := value p; initialized := initialized p; pinned := pinned p; initializing := ph;
     subscription := subscription p; disposed := disposed p; disposing := disposing p;
     registrations := registrations p; callbacks := callbacks p; invocations := invocations p; scheduler := scheduler p; trace := trace p |}.
Definition set_disposal (h : SubscriptionHandle) (dis : bool) (d : disposal) (p : ParameterValue) : ParameterValue :=
  {| value := value p; initialized := initialized p; pinned := pinned p; initializing := initializing p;
     subscription := h; disposed := dis; disposing := d; registrations := registrations p;
     callbacks := callbacks p; invocations := invocations p; scheduler := scheduler p; trace := trace p |}.
Definition set_callbacks (rs : list ChangeRegistration) (cs : list nat) (p : ParameterValue) : ParameterValue :=
  {| value := value p; initialized := initialized p; pinned := pinned p; initializing := initializing p;
     subscription := subscription p; disposed := disposed p; disposing := disposing p;
     registrations := rs; callbacks := cs; invocations := invocations p; scheduler := scheduler p; trace := trace p |}.
Definition set_scheduler (l : list (nat * jstr * jstr)) (s : Scheduler) (p : ParameterValue) : ParameterValue :=
  {| value := value p; initialized := initialized p; pinned := pinned p; initializing := initializing p;
     subscription := subscription p; disposed := disposed p; disposing := disposing p;
     registrations := registrations p; callbacks := callbacks p; invocations := l; scheduler := s; trace := trace p |}.
Definition emit (e : effect) (p : ParameterValue) : ParameterValue :=
  {| value := value p; initialized := initialized p; pinned := pinned p; initializing := initializing p;
     subscription := subscription p; disposed := disposed p; disposing := disposing p;
     registrations := registrations p; callbacks := callbacks p; invocations := invocations p; scheduler := scheduler p; trace := trace p ++ [e] |}.

(** [#initialize] settles, and with it what [dispose] was waiting for. *)
Definition settle_init (r : res JsError unit) (p : ParameterValue) : ParameterValue :=
  let p := set_init (Some (InitDone r)) p in
  match disposing p with
  | AwaitsInit true => set_disposal (subscription p) (disposed p) (AwaitsInit false) p
  | _ => p
  end.

(** [#initialize] up to its first [await]. *)
Definition initialize (o : ParameterValueOptions) (env : jstr -> option jstr) (p : ParameterValue) : ParameterValue :=
  match env_override env (p_envVar o) with
  | Some v => settle_init (Ok tt) (set_value v true true p)
  | None =>
      if 0 <? strlen (p_key o) then set_init (Some Fetching) p
      else if hasDefault (p_default o) then settle_init (Ok tt) (set_value (p_default o) true (pinned p) p)
      else settle_init (Throw (ConfigError
             (js "ParameterValue has no key, envVar, or non-empty default configured"))) p
  end.

(** [init] *)
Definition init (o : ParameterValueOptions) (env : jstr -> option jstr) (p : ParameterValue) : ParameterValue :=
  if initialized p then p
  else match initializing p with
  | Some _ => p
  | None => initialize o env p
  end.

(** How [getParameter] answers. *)
Inductive answer := AText (v : jstr) | ANotText | AFails (e : JsError).

(** The value fetched, or the default if the failure allows it. *)
Definition fetch_outcome (o : ParameterValueOptions) (client : ValueResolver) (a : answer) : res JsError jstr :=
  let failed error :=
    if negb (hasDefault (p_default o)) || negb (fallbackAllowed client error)
    then Throw (wrapError (js "resolve parameter " ++ json_quote (p_key o)) error)
    else Ok (p_default o) in
  match a with
  | AText v => Ok v
  | ANotText => failed (ConfigError (js "ValueResolver.getParameter() must return a string"))
  | AFails e => failed e
  end.

Definition on_fetched (o : ParameterValueOptions) (client : ValueResolver) (a : answer) (p : ParameterValue) : ParameterValue :=
  match initializing p with
  | Some Fetching =>
      match fetch_outcome o client a with
      | Throw e => settle_init (Throw e) p
      | Ok v =>
          let p := set_value v true (pinned p) p in
          if p_static o then settle_init (Ok tt) p else set_init (Some Registering) p
      end
  | _ => p
  end.

(** How [#register] registers once a reference was looked for: [found] is the
    answer of the client's lookup, if it has one. *)
Inductive registration_call := RegisterParameter (ref : ResourceRef) | SubscribeParameter (key : jstr) | NoRegistration.
Definition register_call (o : ParameterValueOptions) (client : ValueResolver) (found : option ResourceRef)
    : res JsError registration_call :=
  let subscribe := if has_subscribeParameter client then SubscribeParameter (p_key o) else NoRegistration in
  if has_registerParameter client then
    if has_resolveRef client || has_resolveResourceRef client then
      Ok (match found with Some ref => RegisterParameter ref | None => subscribe end)
    else if startsWith (js "/") (p_key o) then
      let* ref := splitDisplayPath (p_key o) in Ok (RegisterParameter ref)
    else Ok subscribe
  else Ok subscribe.

(** The [catch] around registration. *)
Definition registration_failed (o : ParameterValueOptions) (e : JsError) (p : ParameterValue) : ParameterValue :=
  settle_init (Throw (wrapError (js "subscribe parameter " ++ json_quote (p_key o)) e)) (set_value [] false (pinned p) p).

(** [#register] settled: its handle is kept, or released at once when the
    value was disposed meanwhile. *)
Definition on_registered (o : ParameterValueOptions) (r : res JsError SubscriptionHandle) (p : ParameterValue)
    : ParameterValue :=
  match initializing p with
  | Some Registering =>
      match r with
      | Throw e => registration_failed o e p
      | Ok h =>
          let p := emit (Registered h) p in
          if disposed p then set_init (Some LateDisposal) (emit (Released h (disposeSubscription h)) p)
          else settle_init (Ok tt) (set_disposal h (disposed p) (disposing p) p)
      end
  | _ => p
  end.

Definition on_late_disposed (o : ParameterValueOptions) (r : res JsError unit) (p : ParameterValue) : ParameterValue :=
  match initializing p with
  | Some LateDisposal =>
      match r with
      | Ok _ => settle_init (Ok tt) p
      | Throw e => registration_failed o e p
      end
  | _ => p
  end.

(** The [finally] of [init]. *)
Definition on_init_settled (p : ParameterValue) : ParameterValue :=
  match initializing p with
  | Some (InitDone _) => set_init None p
  | _ => p
  end.

(** The closure [invoke] for one registration is created and handed over. *)
Definition schedule (r : route) (key : jstr) (x : nat * jstr * jstr) (p : ParameterValue) : ParameterValue :=
  set_scheduler (invocations p ++ [x]) (hand_over r key (length (invocations p)) (scheduler p)) p.

Definition applyUpdate (o : ParameterValueOptions) (client : ValueResolver) (newValue : jstr) (present : bool)
    (p : ParameterValue) : ParameterValue :=
  if disposed p || negb (initialized p) || p_static o || pinned p then p
  else if negb present && negb (hasDefault (p_default o)) then p
  else
    let newValue := if present then newValue else p_default o in
    let oldValue := value p in
    if bool_decide (oldValue = newValue) then p
    else
      foldl (fun p k => schedule (route_of client) (p_key o) (k, oldValue, newValue) p)
        (set_value newValue (initialized p) (pinned p) p) (callbacks p).

(** Closure [j] runs, up to the call of the callback. *)
Definition invoke (j : nat) (p : ParameterValue) : ParameterValue :=
  match invocations p !! j with
  | Some (k, old, new) =>
      match registrations p !! k with
      | Some r => if active r && negb (disposed p) then emit (Called j k old new) p else p
      | None => p
      end
  | None => p
  end.

Definition with_scheduler (s : Scheduler) (p : ParameterValue) : ParameterValue := set_scheduler (invocations p) s p.

(** The client's own queue runs one of its closures. *)
Definition run_hosted (i : nat) (p : ParameterValue) : ParameterValue :=
  match hosted (scheduler p) !! i with
  | Some j => invoke j (with_scheduler (set_hosted (delete i (hosted (scheduler p))) (scheduler p)) p)
  | None => p
  end.

(** The next microtask of the value. *)
Definition run_microtask (p : ParameterValue) : ParameterValue :=
  match microtasks (scheduler p), turn (scheduler p) with
  | j :: l, None => invoke j (with_scheduler (set_microtasks l (scheduler p)) p)
  | _, _ => p
  end.

(** The event loop gives the dispatcher its turn: it takes its oldest callback
    and runs it. *)
Definition run_turn (p : ParameterValue) : ParameterValue :=
  let s := scheduler p in
  match turn s with
  | Some _ => p
  | None =>
      match take_item (dispatcher s) with
      | (d, Some (path, S j)) => invoke j (with_scheduler (set_dispatcher d (Some (path, S j)) s) p)
      | (d, t) => with_scheduler (set_dispatcher d t s) p
      end
  end.

(** That callback returns or throws. *)
Definition end_turn (e : ending) (p : ParameterValue) : ParameterValue :=
  let s := scheduler p in
  match turn s with
  | Some i => with_scheduler (set_dispatcher (end_item i e (dispatcher s)) None s) p
  | None => p
  end.

(** The rest of the client's use of its dispatcher: a promise of a callback
    settles, another watch notifies, the client closes. *)
Definition on_dispatcher (f : Dispatcher -> Dispatcher) (p : ParameterValue) : ParameterValue :=
  let s := scheduler p in with_scheduler (set_dispatcher (f (dispatcher s)) (turn s) s) p.
Definition settle_turn (k : nat) (fulfilled : bool) (p : ParameterValue) : ParameterValue :=
  match turn (scheduler p) with
  | Some _ => p
  | None => on_dispatcher (settle k fulfilled) p
  end.

(** [onChange] and the function it returns. *)
Definition onChange (cb : nat) (p : ParameterValue) : ParameterValue :=
  set_callbacks (registrations p ++ [{| callback := cb; active := true |}])
                (callbacks p ++ [length (registrations p)]) p.
Definition deactivate (r : ChangeRegistration) : ChangeRegistration := {| callback := callback r; active := false |}.
Definition unregister (k : nat) (p : ParameterValue) : ParameterValue :=
  match registrations p !! k with
  | Some r =>
      if active r then set_callbacks (<[k := deactivate r]> (registrations p)) (filter (fun j => j <> k) (callbacks p)) p
      else p
  | None => p
  end.

(** [dispose] up to its [await]; a second call joins the first. *)
Definition dispose (p : ParameterValue) : ParameterValue :=
  match disposing p with
  | NotDisposed =>
      let waiting := match initializing p with
                     | Some (InitDone _) | None => false
                     | Some _ => true
                     end in
      set_callbacks
        (imap (fun k r => if bool_decide (k ∈ callbacks p) then deactivate r else r) (registrations p)) []
        (set_disposal (subscription p) true (AwaitsInit waiting) p)
  | _ => p
  end.

Definition on_dispose_init (p : ParameterValue) : ParameterValue :=
  match disposing p with
  | AwaitsInit false =>
      let h := subscription p in
      let p := set_disposal NoHandle (disposed p) Releasing p in
      match h with
      | NoHandle => p
      | _ => emit (Released h (disposeSubscription h)) p
      end
  | _ => p
  end.

Definition on_disposed (r : res JsError unit) (p : ParameterValue) : ParameterValue :=
  match disposing p with
  | Releasing => set_disposal (subscription p) (disposed p) (DisposeDone r) p
  | _ => p
  end.

Inductive op :=
| OInit (env : jstr -> option jstr)
| OFetched (a : answer)
| ORegistered (r : res JsError SubscriptionHandle)
| OLateDisposed (r : res JsError unit)
| OInitSettled
| OUpdate (v : jstr) (present : bool)
| ORunHosted (i : nat)
| ORunMicrotask
| OTurn
| OEndTurn (e : ending)
| OTurnSettled (k : nat) (fulfilled : bool)
| ONotify (path : jstr)
| OCloseClient
| OOnChange (cb : nat)
| OUnregister (k : nat)
| ODispose
| ODisposeInit
| ODisposed (r : res JsError unit).

Section run.
Context (o : ParameterValueOptions) (client : ValueResolver).

Definition step (p : ParameterValue) (x : op) : ParameterValue :=
  match x with
  | OInit env => init o env p
  | OFetched a => on_fetched o client a p
  | ORegistered r => on_registered o r p
  | OLateDisposed r => on_late_disposed o r p
  | OInitSettled => on_init_settled p
  | OUpdate v present => applyUpdate o client v present p
  | ORunHosted i => run_hosted i p
  | ORunMicrotask => run_microtask p
  | OTurn => run_turn p
  | OEndTurn e => end_turn e p
  | OTurnSettled k b => settle_turn k b p
  | ONotify path => on_dispatcher (enqueue path 0) p
  | OCloseClient => on_dispatcher Dispatcher.close p
  | OOnChange cb => onChange cb p
  | OUnregister k => unregister k p
  | ODispose => dispose p
  | ODisposeInit => on_dispose_init p
  | ODisposed r => on_disposed r p
  end.

Definition run (p : ParameterValue) (ops : list op) : ParameterValue := foldl step p ops.
End run.

(** ** Finding declarative values *)

Abbreviation loc := nat.
Inductive cvalue := CPrim | CRef (l : loc).

(** An object of a configuration: a declarative value, one of the classes the
    walk does not enter, or any other with its own properties in order, each
    with its [enumerable] flag and its value unless it is an accessor. *)
Inductive cobject := Declarative | Opaque | Walked (properties : list (bool * option cvalue)).
Abbreviation cheap := (list cobject).

(** The enumerable data properties. *)
Definition fields (o : cobject) : list cvalue :=
  match o with
  | Walked ps => omap (fun p => if p.1 : bool then p.2 else None) ps
  | _ => []
  end.

(** [targets] in insertion order, and the objects visited. *)
Fixpoint collectValues (fuel : nat) (h : cheap) (v : cvalue) (s : list loc * gset loc) : list loc * gset loc :=
  match fuel with
  | O => s
  | S fuel =>
      match v with
      | CPrim => s
      | CRef l =>
          match h !! l with
          | Some Declarative => (set_add l s.1, s.2)
          | Some (Walked ps) =>
              if bool_decide (l ∈ s.2) then s
              else foldl (fun s v => collectValues fuel h v s) (s.1, {[l]} ∪ s.2) (fields (Walked ps))
          | _ => s
          end
      end
  end.

Definition collect_fuel (h : cheap) : nat := S (S (length h)).
Definition collectDeclarativeValues (h : cheap) (config : cvalue) : list loc :=
  (collectValues (collect_fuel h) h config ([], ∅)).1.

(** ** Resolving them *)

Definition as_error (e : JsError) : JsError :=
  match e with
  | JKms _ _ _ _ _ | JError _ _ _ _ _ _ => e
  | _ => JError (PValue (js "Error")) (js "value resolution failed") POther POther POther None
  end.

(** The [AggregateError] of the failures. *)
Record ResolutionError := { errors : list JsError; message : jstr }.
Definition new_ResolutionError (es : list JsError) : ResolutionError :=
  {| errors := es; message := js "failed to resolve " ++ dec (Z.of_nat (length es)) ++ js " declarative value(s)" |}.

(** [resolveValues] once every [init] has settled, with its results. *)
Definition resolve_results (results : list (res JsError unit)) : res ResolutionError unit :=
  let es := omap (fun r => match r with Ok _ => None | Throw e => Some (as_error e) end) results in
  match es with
  | [] => Ok tt
  | _ => Throw (new_ResolutionError es)
  end.
