(* ===== verification/ValuesProofs.v ===== *)
(** * ValuesProofs: declarative values release every subscription, account
    for the call of every callback about every change, hide no wiring error
    behind a default, and the walk over a configuration finds exactly what it
    reaches. *)
From stdpp Require Import prelude gmap strings.
From Stdlib Require Import ZArith Lia.
From S2P Require Import Prelude JsString JsMap Unicode Decimal Errors Refs Dispatcher Values.

(** ** Subscription handles *)

#[global] Instance handle_eq_dec : EqDecision SubscriptionHandle.
Proof. solve_decision. Defined.

Definition handle_list (h : SubscriptionHandle) : list SubscriptionHandle :=
  match h with NoHandle => [] | _ => [h] end.
Definition registered_in (e : effect) : list SubscriptionHandle :=
  match e with Registered h => handle_list h | _ => [] end.
Definition released_in (e : effect) : list SubscriptionHandle :=
  match e with Released h _ => handle_list h | _ => [] end.

(** The handles a run was given, and those it released. *)
Definition handles_registered (t : list effect) : list SubscriptionHandle := concat (registered_in <$> t).
Definition handles_released (t : list effect) : list SubscriptionHandle := concat (released_in <$> t).

Lemma handles_registered_snoc t e : handles_registered (t ++ [e]) = handles_registered t ++ registered_in e.
Proof. unfold handles_registered. rewrite fmap_app, concat_app. simpl. by rewrite app_nil_r. Qed.
Lemma handles_released_snoc t e : handles_released (t ++ [e]) = handles_released t ++ released_in e.
Proof. unfold handles_released. rewrite fmap_app, concat_app. simpl. by rewrite app_nil_r. Qed.

(** No initialisation is under way. *)
Definition settled (p : ParameterValue) : Prop :=
  match initializing p with None | Some (InitDone _) => True | _ => False end.

Record handles_ok (p : ParameterValue) : Prop := {
  ho_count : handles_registered (trace p) ≡ₚ handle_list (subscription p) ++ handles_released (trace p);
  ho_registering : initializing p = Some Registering -> initialized p = true;
  ho_held : subscription p <> NoHandle -> initialized p = true /\ settled p;
  ho_disposed : disposed p = false <-> disposing p = NotDisposed;
  ho_released : match disposing p with Releasing | DisposeDone _ => subscription p = NoHandle | _ => True end
}.

Lemma not_held p : handles_ok p -> ~ settled p -> subscription p = NoHandle.
Proof. intros H Hn. destruct (decide (subscription p = NoHandle)) as [|Hh]; [done|]. by apply (ho_held _ H) in Hh as [_ ?]. Qed.
Lemma not_held_uninitialized p : handles_ok p -> initialized p = false -> subscription p = NoHandle.
Proof.
  intros H Hn. destruct (decide (subscription p = NoHandle)) as [|Hh]; [done|].
  apply (ho_held _ H) in Hh as [Hi _]. congruence.
Qed.

(** Steps that touch neither handles nor disposal. *)
Lemma handles_ok_quiet p q :
  handles_ok p ->
  trace q = trace p -> subscription q = subscription p -> disposed q = disposed p -> disposing q = disposing p ->
  (initializing q = Some Registering -> initialized q = true) ->
  (subscription p <> NoHandle -> initialized q = true /\ settled q) -> handles_ok q.
Proof. intros [Hc Hg Hh Hd Hr] E1 E2 E3 E4 Hq Hq'. constructor; rewrite ?E1, ?E2, ?E3, ?E4; done. Qed.

(** Settling changes only the phase, and wakes [dispose]. *)
Lemma settle_init_ok r p :
  handles_ok p -> (subscription p <> NoHandle -> initialized p = true) -> handles_ok (settle_init r p).
Proof.
  intros [Hc Hg Hh Hd Hr] Hi. unfold settle_init. simpl.
  destruct (disposing p) as [|[]| |] eqn:E; constructor; simpl; rewrite ?E; try done; naive_solver.
Qed.

Lemma init_handles o env p : handles_ok p -> handles_ok (init o env p).
Proof.
  intros H. unfold init. destruct (initialized p) eqn:Hi; [done|]. destruct (initializing p) eqn:Hp; [done|].
  pose proof (not_held_uninitialized p H Hi) as Hs. unfold initialize.
  repeat case_match; try (apply settle_init_ok; [|simpl; congruence]);
    (eapply handles_ok_quiet; [exact H|done..|simpl; congruence|congruence]).
Qed.

Lemma registration_failed_handles o e p :
  handles_ok p -> ~ settled p -> handles_ok (registration_failed o e p).
Proof.
  intros H Hn. pose proof (not_held p H Hn) as Hs. unfold registration_failed, settle_init. simpl.
  destruct H as [Hc Hg Hh Hd Hr]. destruct (disposing p) as [|[]| |] eqn:E; constructor; simpl; rewrite ?E; try done; naive_solver.
Qed.

Lemma on_registered_handles o r p : handles_ok p -> handles_ok (on_registered o r p).
Proof.
  intros H. unfold on_registered. destruct (initializing p) as [[]|] eqn:Hp; try done.
  assert (~ settled p) as Hn by (unfold settled; rewrite Hp; tauto).
  destruct r as [h|e]; [|by apply registration_failed_handles].
  pose proof (not_held p H Hn) as Hs. destruct H as [Hc Hg Hh Hd Hr]. rewrite Hs in Hc. simpl in Hc.
  unfold emit at 1. simpl. destruct (disposed p) eqn:Hdis.
  - constructor; simpl; rewrite ?Hs, ?Hdis; try done; [|by destruct (disposing p)].
    rewrite handles_registered_snoc, !handles_released_snoc, handles_registered_snoc, Hc. simpl.
    by rewrite !app_nil_r.
  - unfold settle_init. simpl. destruct Hd as [Hd _]. specialize (Hd eq_refl). rewrite Hd.
    constructor; simpl; rewrite ?Hd, ?Hdis; try done; [|by split; [apply Hg|]].
    rewrite handles_registered_snoc, handles_released_snoc, Hc. simpl. rewrite app_nil_r. apply Permutation_app_comm.
Qed.

Lemma on_dispose_init_handles p : handles_ok p -> handles_ok (on_dispose_init p).
Proof.
  intros H. unfold on_dispose_init. destruct (disposing p) as [|[]| |] eqn:E; try done.
  destruct H as [Hc Hg Hh Hd Hr].
  assert (disposed p = true) as Hdis by (destruct (disposed p); [done|]; rewrite (proj1 Hd eq_refl) in E; done).
  destruct (subscription p) as [|i|i u d c] eqn:Hs; constructor; simpl; rewrite ?Hdis; try done;
    rewrite handles_registered_snoc, handles_released_snoc, Hc; simpl; rewrite app_nil_r;
    apply Permutation_cons_append.
Qed.

(** Handing closures over changes the scheduler and the closures only. *)
Definition schedule_all (r : route) (key old new : jstr) (p : ParameterValue) (cs : list nat) : ParameterValue :=
  foldl (fun p k => schedule r key (k, old, new) p) p cs.

Lemma schedule_all_frame r key old new cs p : exists s,
  schedule_all r key old new p cs = set_scheduler (invocations p ++ ((fun k => (k, old, new)) <$> cs)) s p.
Proof.
  revert p. induction cs as [|k cs IH]; intros p; simpl.
  - exists (scheduler p). rewrite app_nil_r. by destruct p.
  - destruct (IH (schedule r key (k, old, new) p)) as [s ->]. exists s. simpl. by rewrite <- (assoc_L (++)).
Qed.

(** An update does nothing, or hands over one closure for each callback. *)
Lemma applyUpdate_cases o client v present p :
  applyUpdate o client v present p = p \/
  exists w s, value p <> w /\
    applyUpdate o client v present p =
      schedule_all (route_of client) (p_key o) (value p) w (set_value w (initialized p) (pinned p) p) (callbacks p) /\
    applyUpdate o client v present p =
      set_scheduler (invocations p ++ ((fun k => (k, value p, w)) <$> callbacks p)) s
        (set_value w (initialized p) (pinned p) p).
Proof.
  unfold applyUpdate. repeat case_match; try (by left); right;
    match goal with H : bool_decide (value p = ?w) = false |- _ => apply bool_decide_eq_false_1 in H;
      destruct (schedule_all_frame (route_of client) (p_key o) (value p) w (callbacks p)
                  (set_value w (initialized p) (pinned p) p)) as [s Hs]; exists w, s; by split_and! end.
Qed.

Lemma with_scheduler_handles s p : handles_ok p -> handles_ok (with_scheduler s p).
Proof. intros H. eapply handles_ok_quiet; [exact H|done..|apply (ho_registering _ H)|apply (ho_held _ H)]. Qed.

Lemma invoke_handles j p : handles_ok p -> handles_ok (invoke j p).
Proof.
  intros H. unfold invoke. repeat case_match; try done. destruct H as [Hc Hr Hh Hd He]. constructor; try done. simpl.
  rewrite handles_registered_snoc, handles_released_snoc. simpl. by rewrite !app_nil_r.
Qed.

Lemma queues_handles p :
  handles_ok p -> (forall i, handles_ok (run_hosted i p)) /\ handles_ok (run_microtask p) /\ handles_ok (run_turn p).
Proof.
  intros H. split_and!; [intros i; unfold run_hosted|unfold run_microtask|unfold run_turn];
    repeat case_match; try done; try apply invoke_handles; by apply with_scheduler_handles.
Qed.

Lemma step_handles o client p x : handles_ok p -> handles_ok (step o client p x).
Proof.
  intros H. destruct x; simpl; [by apply init_handles| |by apply on_registered_handles|..].
  - unfold on_fetched. destruct (initializing p) as [[]|] eqn:Hp; try done.
    pose proof (not_held p H ltac:(unfold settled; rewrite Hp; tauto)) as Hs.
    destruct (fetch_outcome o client a) as [v|e]; [|apply settle_init_ok; [done|congruence]].
    destruct (p_static o); [apply settle_init_ok; [|simpl; congruence]|];
      (eapply handles_ok_quiet; [exact H|done..|simpl; congruence]).
  - unfold on_late_disposed. destruct (initializing p) as [[]|] eqn:Hp; try done.
    assert (~ settled p) as Hn by (unfold settled; rewrite Hp; tauto).
    destruct r; [|by apply registration_failed_handles].
    apply settle_init_ok; [done|]. by rewrite (not_held p H Hn).
  - unfold on_init_settled. destruct (initializing p) as [[]|] eqn:Hp; try done.
    eapply handles_ok_quiet; [exact H|done..|]. intros Hs. apply (ho_held _ H) in Hs. by split; [apply Hs|].
  - destruct (applyUpdate_cases o client v present p) as [->|(w & s & _ & _ & ->)]; [done|].
    eapply handles_ok_quiet; [exact H|done..|apply (ho_registering _ H)|apply (ho_held _ H)].
  - by apply queues_handles.
  - by apply queues_handles.
  - by apply queues_handles.
  - unfold end_turn. case_match; [by apply with_scheduler_handles|done].
  - unfold settle_turn. case_match; [done|by apply with_scheduler_handles].
  - by apply with_scheduler_handles.
  - by apply with_scheduler_handles.
  - eapply handles_ok_quiet; [exact H|done..|apply (ho_registering _ H)|apply (ho_held _ H)].
  - unfold unregister. repeat case_match; try done.
    eapply handles_ok_quiet; [exact H|done..|apply (ho_registering _ H)|apply (ho_held _ H)].
  - unfold dispose. destruct (disposing p) eqn:E; try done. destruct H as [Hc Hr Hh Hd He]. by constructor.
  - by apply on_dispose_init_handles.
  - unfold on_disposed. destruct (disposing p) eqn:E; try done. destruct H as [Hc Hr Hh Hd He].
    rewrite E in He, Hd. constructor; try done. simpl. naive_solver.
Qed.

Lemma run_handles o client ops p : handles_ok p -> handles_ok (run o client p ops).
Proof. revert p; induction ops as [|x ops IH]; intros p H; [done|]. by apply IH, step_handles. Qed.

(** C37: no subscription escapes. In every interleaving of initialisation,
    updates and disposal, each handle the client returned is either still
    held or was released, once; and when [dispose] has settled nothing is
    held, so every handle was released, those of registrations that finished
    after the disposal included. *)
Theorem no_handle_escapes (o : ParameterValueOptions) (client : ValueResolver) (ops : list op) :
  let p := run o client new_ParameterValue ops in
  handles_registered (trace p) ≡ₚ handle_list (subscription p) ++ handles_released (trace p) /\
  (forall r, disposing p = DisposeDone r -> handles_registered (trace p) ≡ₚ handles_released (trace p)).
Proof.
  intros p. assert (handles_ok p) as [Hc Hg Hh Hd Hr] by (apply run_handles; constructor; done).
  split; [done|]. intros r E. rewrite E in Hr. by rewrite Hc, Hr.
Qed.

(** ** Change callbacks *)

(** Consecutive changes from [v] to [w], each to a different value. *)
Fixpoint chain (v : jstr) (l : list (jstr * jstr)) (w : jstr) : Prop :=
  match l with
  | [] => v = w
  | (a, b) :: l => a = v /\ a <> b /\ chain b l w
  end.

Lemma chain_snoc v l w u : chain v l w -> w <> u -> chain v (l ++ [(w, u)]) u.
Proof. revert v; induction l as [|[a b] l IH]; intros v; simpl; [by intros ->|]. intros (-> & Hab & Hl) Hu. auto. Qed.

(** The closures made for registration [k]: their changes and their numbers,
    in the order in which they were made. *)
Definition change_of (k : nat) (x : nat * jstr * jstr) : option (jstr * jstr) :=
  if bool_decide (x.1.1 = k) then Some (x.1.2, x.2) else None.
Definition changes (k : nat) (p : ParameterValue) : list (jstr * jstr) := omap (change_of k) (invocations p).
Definition own (k : nat) (l : list (nat * jstr * jstr)) : list nat :=
  omap id (imap (fun j x => if bool_decide (x.1.1 = k) then Some j else None) l).
Definition made_for (k : nat) (l : list (nat * jstr * jstr)) (j : nat) : Prop := fst ∘ fst <$> l !! j = Some k.
#[global] Instance made_for_dec k l j : Decision (made_for k l j).
Proof. unfold made_for. apply _. Defined.

(** The closures whose callback was called, those that wait, and those the
    dispatcher dropped. *)
Definition called_number (k : nat) (e : effect) : option nat :=
  match e with Called j i _ _ => if bool_decide (i = k) then Some j else None | _ => None end.
Definition called (k : nat) (p : ParameterValue) : list nat := omap (called_number k) (trace p).
Definition closures (l : list item) : list nat := omap (fun i => match i.2 with S j => Some j | O => None end) l.
Definition waiting_all (r : route) (s : Scheduler) : list nat :=
  match r with
  | Hosted => hosted s
  | Dispatched => closures (queue (dispatcher s))
  | Microtasks => microtasks s
  end.
Definition waiting (r : route) (k : nat) (p : ParameterValue) : list nat :=
  filter (made_for k (invocations p)) (waiting_all r (scheduler p)).
Definition lost (p : ParameterValue) : list nat := closures (dropped (dispatcher (scheduler p))).

(** What became of the closures of registration [k]. *)
Definition accounted (r : route) (k : nat) (p : ParameterValue) : Prop :=
  match r with
  | Hosted => called k p ++ waiting r k p ≡ₚ own k (invocations p)
  | Dispatched =>
      called k p ++ waiting r k p `sublist_of` own k (invocations p) /\
      (closed (dispatcher (scheduler p)) = false ->
       called k p ++ waiting r k p = filter (fun j => j ∉ lost p) (own k (invocations p)))
  | Microtasks => called k p ++ waiting r k p = own k (invocations p)
  end.

(** *** Lists of closures *)


Lemma filter_same {A} (P Q : A -> Prop) `{!forall x, Decision (P x), !forall x, Decision (Q x)} l :
  Forall (fun x => P x <-> Q x) l -> filter P l = filter Q l.
Proof.
  induction 1 as [|x l Hx _ IH]; [done|]. rewrite !filter_cons, IH.
  destruct (decide (P x)), (decide (Q x)); tauto.
Qed.

Lemma own_snoc k l x : own k (l ++ [x]) = own k l ++ (if bool_decide (x.1.1 = k) then [length l] else []).
Proof.
  unfold own. rewrite imap_app, omap_app. simpl. rewrite Nat.add_0_r. by case_bool_decide.
Qed.

Lemma own_bound k l : Forall (fun j => j < length l)%nat (own k l).
Proof.
  induction l as [|x l IH] using rev_ind; [constructor|]. rewrite own_snoc, length_app. simpl.
  apply Forall_app. split; [eapply Forall_impl; [exact IH|]; simpl; lia|].
  case_bool_decide; [constructor; [lia|done]|done].
Qed.

Lemma own_nodup k l : NoDup (own k l).
Proof.
  induction l as [|x l IH] using rev_ind; [constructor|]. rewrite own_snoc. pose proof (own_bound k l) as Hb.
  case_bool_decide; [|by rewrite app_nil_r]. apply NoDup_app. split_and!; [done| |apply NoDup_singleton].
  intros j Hj ->%list_elem_of_singleton. rewrite Forall_forall in Hb. specialize (Hb _ Hj). lia.
Qed.

Lemma own_fresh k l : Forall (fun x => x.1.1 < k)%nat l -> own k l = [].
Proof.
  induction l as [|x l IH] using rev_ind; [done|]. intros [Hl Hx]%Forall_app. inversion Hx; subst.
  by rewrite own_snoc, IH, bool_decide_eq_false_2 by (done || lia).
Qed.

Lemma made_for_snoc k l x j : (j < length l)%nat -> made_for k (l ++ [x]) j <-> made_for k l j.
Proof. intros Hj. unfold made_for. by rewrite lookup_app_l. Qed.

Lemma made_for_last k l x : made_for k (l ++ [x]) (length l) <-> x.1.1 = k.
Proof. unfold made_for. rewrite list_lookup_middle by done. simpl. naive_solver. Qed.

Lemma filter_made_snoc k l x w :
  Forall (fun j => j < length l)%nat w -> filter (made_for k (l ++ [x])) w = filter (made_for k l) w.
Proof. intros H. apply filter_same. eapply Forall_impl; [exact H|]. intros j Hj. by apply made_for_snoc. Qed.

Lemma filter_made_last k l x :
  filter (made_for k (l ++ [x])) [length l] = if bool_decide (x.1.1 = k) then [length l] else [].
Proof.
  rewrite filter_cons, filter_nil. case_bool_decide as H; [rewrite decide_True|rewrite decide_False]; by rewrite ?made_for_last.
Qed.

(** No closure calls its callback twice. *)
Lemma accounted_nodup r k p : accounted r k p -> NoDup (called k p).
Proof.
  pose proof (own_nodup k (invocations p)) as Hn. unfold accounted. intros Ha.
  assert (NoDup (called k p ++ waiting r k p)) as [? _]%NoDup_app; [|done].
  destruct r; [by rewrite Ha|by eapply sublist_NoDup; [exact Hn|apply Ha]|by rewrite Ha].
Qed.

(** *** What the dispatcher does to the closures *)

Lemma closures_app a b : closures (a ++ b) = closures a ++ closures b.
Proof. apply omap_app. Qed.

(** Ends of turns neither take nor drop. *)
Lemma end_item_queue i e d :
  queue (end_item i e d) = queue d /\ dropped (end_item i e d) = dropped d /\ closed (end_item i e d) = closed d.
Proof.
  destruct e; simpl; [|done]. unfold scheduleNext. simpl. unfold warn.
  case_match; (split_and!; [done| |done]); unfold dropped; simpl; unfold dropped_in; rewrite omap_app; simpl; by rewrite app_nil_r.
Qed.

Lemma settle_queue k b d :
  queue (settle k b d) = queue d /\ dropped (settle k b d) = dropped d /\ closed (settle k b d) = closed d.
Proof.
  unfold settle. destruct (running d !! k) as [i|]; [|done]. unfold scheduleNext.
  destruct b; simpl; case_match; (split_and!; [done| |done]); try done;
    unfold dropped; simpl; unfold dropped_in; rewrite omap_app; simpl; by rewrite app_nil_r.
Qed.

Lemma take_item_queue d :
  let '(d', t) := take_item d in
  queue d = option_list t ++ queue d' /\ dropped d' = dropped d /\ closed d' = closed d.
Proof.
  unfold take_item. destruct (immediates d); [done|]. destruct (closed d) eqn:Hc; [done|].
  destruct (queue d) as [|i q] eqn:Hq; simpl; [by rewrite Hq, Hc|]. rewrite Hc. split_and!; try done.
  unfold dropped. simpl. unfold dropped_in. rewrite omap_app. simpl. by rewrite app_nil_r.
Qed.

Lemma enqueue_queue path cb d :
  closed (enqueue path cb d) = closed d /\
  (closed d = false ->
   (queue (enqueue path cb d) = queue d ++ [(path, cb)] /\ dropped (enqueue path cb d) = dropped d) \/
   (queue (enqueue path cb d) = queue d /\ dropped (enqueue path cb d) = dropped d ++ [(path, cb)])).
Proof.
  destruct (closed d) eqn:Hc; [by unfold enqueue; rewrite Hc|].
  destruct (decide (length (queue d) < 1024)%nat) as [Hl|Hl].
  - destruct (enqueue_room path cb d Hc Hl) as (Eq & Et & Ec & _). split; [done|]. intros _. left. split; [done|].
    unfold dropped, dropped_in. rewrite Et, omap_app. simpl. by rewrite app_nil_r.
  - rewrite enqueue_full by (done || lia). split; [done|]. intros _. right. split; [done|].
    unfold warn. by rewrite !dropped_emit, app_nil_r.
Qed.

Lemma delete_subseteq {A} i (l : list A) : delete i l ⊆ l.
Proof. intros x. apply list_elem_of_delete_inv. Qed.

(** *** The invariant of every run *)

Definition busy (s : Scheduler) : nat := match turn s with Some _ => 1 | None => 0 end.

Record scheduler_ok (n : nat) (s : Scheduler) : Prop := {
  so_dispatcher : ok (busy s) (dispatcher s);
  so_waiting : forall r, Forall (fun j => j < n)%nat (waiting_all r s);
  so_lost : Forall (fun j => j < n)%nat (closures (dropped (dispatcher s)))
}.

Record callbacks_ok (p : ParameterValue) : Prop := {
  co_nodup : NoDup (callbacks p);
  co_known : Forall (fun k => k < length (registrations p))%nat (callbacks p);
  co_made : Forall (fun x => x.1.1 < length (registrations p))%nat (invocations p);
  co_trace : forall j k a b, Called j k a b ∈ trace p -> invocations p !! j = Some (k, a, b);
  co_scheduler : scheduler_ok (length (invocations p)) (scheduler p)
}.

Lemma Forall_lt_mono (n m : nat) l : (n <= m)%nat -> Forall (fun j => j < n)%nat l -> Forall (fun j => j < m)%nat l.
Proof. intros H Hl. eapply Forall_impl; [exact Hl|]. simpl. lia. Qed.

Lemma closures_one path cb n : (cb <= n)%nat -> Forall (fun j => j < n)%nat (closures [(path, cb)]).
Proof. intros H. destruct cb; simpl; [constructor|]. constructor; [lia|constructor]. Qed.

Lemma enqueue_scheduler_ok n s path cb :
  (cb <= n)%nat -> scheduler_ok n s -> scheduler_ok n (set_dispatcher (enqueue path cb (dispatcher s)) (turn s) s).
Proof.
  intros Hcb [H1 H2 H3]. destruct (enqueue_queue path cb (dispatcher s)) as [Ec Eq]. split; simpl.
  - by apply ok_enqueue.
  - intros []; simpl; [exact (H2 Hosted)| |exact (H2 Microtasks)]. pose proof (H2 Dispatched) as Hd. simpl in Hd.
    destruct (closed (dispatcher s)) eqn:Hc; [unfold enqueue; by rewrite Hc|].
    destruct (Eq eq_refl) as [[-> _]|[-> _]]; [|done]. rewrite closures_app. apply Forall_app. split; [done|].
    by apply closures_one.
  - destruct (closed (dispatcher s)) eqn:Hc; [unfold enqueue; by rewrite Hc|].
    destruct (Eq eq_refl) as [[_ ->]|[_ ->]]; [done|]. rewrite closures_app. apply Forall_app. split; [done|].
    by apply closures_one.
Qed.

Lemma hand_over_ok r key n s : scheduler_ok n s -> scheduler_ok (S n) (hand_over r key n s).
Proof.
  intros H. assert (scheduler_ok (S n) s) as H'.
  { destruct H as [H1 H2 H3]. split; [done| |]; intros; (eapply Forall_lt_mono; [|done]); lia. }
  destruct r; simpl; [|apply enqueue_scheduler_ok; [lia|done]|]; destruct H' as [H1 H2 H3]; (split; [done| |done]);
    intros []; try exact (H2 Hosted); try exact (H2 Dispatched); try exact (H2 Microtasks); simpl;
    (apply Forall_app; split; [|constructor; [lia|done]]); [exact (H2 Hosted)|exact (H2 Microtasks)].
Qed.

Lemma schedule_callbacks r key x p :
  (x.1.1 < length (registrations p))%nat -> callbacks_ok p -> callbacks_ok (schedule r key x p).
Proof.
  intros Hx [H1 H2 H3 H4 H5]. split; simpl; try done.
  - apply Forall_app. split; [done|]. by constructor.
  - intros j k a b Hin%H4. by apply lookup_app_l_Some.
  - rewrite length_app, Nat.add_1_r. by apply hand_over_ok.
Qed.

(** A scheduler with the same closures or fewer. *)
Lemma scheduler_ok_less n s s' :
  scheduler_ok n s -> ok (busy s') (dispatcher s') ->
  (forall r, waiting_all r s' ⊆ waiting_all r s) -> dropped (dispatcher s') = dropped (dispatcher s) -> scheduler_ok n s'.
Proof.
  intros [H1 H2 H3] Hok Hw Hd. split; [done| |by rewrite Hd].
  intros r. specialize (H2 r). rewrite Forall_forall in *. intros j Hj. by apply H2, Hw.
Qed.

Lemma with_scheduler_callbacks s p :
  callbacks_ok p -> scheduler_ok (length (invocations p)) s -> callbacks_ok (with_scheduler s p).
Proof. intros [] Hs. by split. Qed.

Lemma invoke_callbacks j p : callbacks_ok p -> callbacks_ok (invoke j p).
Proof.
  intros H. unfold invoke. destruct (invocations p !! j) as [[[k a] b]|] eqn:E; [|done].
  destruct (registrations p !! k); [|done]. destruct (_ && _); [|done]. destruct H as [H1 H2 H3 H4 H5].
  split; simpl; try done. intros j' k' a' b' [Hin|[= <- <- <- <-]%list_elem_of_singleton]%elem_of_app; auto.
Qed.

Lemma taken_scheduler_ok n s d t :
  scheduler_ok n s -> turn s = None -> take_item (dispatcher s) = (d, t) ->
  scheduler_ok n (set_dispatcher d t s).
Proof.
  intros Hs Ht Htk. pose proof (take_item_queue (dispatcher s)) as Hq. pose proof (so_dispatcher _ _ Hs) as Hd.
  unfold busy in Hd. rewrite Ht in Hd. apply take_item_ok in Hd. rewrite Htk in Hq, Hd. destruct Hq as (Q & D & _).
  eapply scheduler_ok_less; [exact Hs|by destruct t| |done]. intros []; simpl; try done.
  rewrite Q, closures_app. set_solver.
Qed.

Lemma end_turn_callbacks e p : callbacks_ok p -> callbacks_ok (end_turn e p).
Proof.
  intros H. unfold end_turn. destruct (turn (scheduler p)) as [i|] eqn:Ht; [|done].
  apply with_scheduler_callbacks; [done|]. destruct (end_item_queue i e (dispatcher (scheduler p))) as (Q & D & _).
  pose proof (co_scheduler _ H) as Hs.
  eapply scheduler_ok_less; [exact Hs| | |done].
  - pose proof (so_dispatcher _ _ Hs) as Hd. unfold busy in Hd. rewrite Ht in Hd. by apply end_item_ok.
  - intros []; simpl; by rewrite ?Q.
Qed.

Lemma settle_turn_callbacks k b p : callbacks_ok p -> callbacks_ok (settle_turn k b p).
Proof.
  intros H. unfold settle_turn. destruct (turn (scheduler p)) eqn:Ht; [done|].
  apply with_scheduler_callbacks; [done|]. destruct (settle_queue k b (dispatcher (scheduler p))) as (Q & D & _).
  pose proof (co_scheduler _ H) as Hs.
  eapply scheduler_ok_less; [exact Hs| | |done].
  - pose proof (so_dispatcher _ _ Hs) as Hd. unfold busy in *. simpl. rewrite Ht in *. by apply ok_settle.
  - intros []; simpl; by rewrite ?Q.
Qed.

Lemma queues_callbacks p :
  callbacks_ok p ->
  (forall i, callbacks_ok (run_hosted i p)) /\ callbacks_ok (run_microtask p) /\ callbacks_ok (run_turn p).
Proof.
  intros H. pose proof (co_scheduler _ H) as Hs. split_and!; [intros i; unfold run_hosted|unfold run_microtask|unfold run_turn].
  - destruct (hosted _ !! i) as [j|]; [|done]. apply invoke_callbacks, with_scheduler_callbacks; [done|].
    eapply scheduler_ok_less; [exact Hs|apply Hs| |done]. intros []; simpl; try done.
    apply delete_subseteq.
  - destruct (microtasks _) as [|j l] eqn:E; [done|]. destruct (turn _); [done|].
    apply invoke_callbacks, with_scheduler_callbacks; [done|].
    eapply scheduler_ok_less; [exact Hs|apply Hs| |done]. intros []; simpl; try done. rewrite E. set_solver.
  - destruct (turn (scheduler p)) eqn:Ht; [done|]. destruct (take_item _) as [d t] eqn:Hd.
    pose proof (taken_scheduler_ok _ _ _ _ Hs Ht Hd) as Hok.
    assert (callbacks_ok (with_scheduler (set_dispatcher d t (scheduler p)) p)) as Hp by by apply with_scheduler_callbacks.
    destruct t as [[path [|j]]|]; [done|by apply invoke_callbacks|done].
Qed.

Lemma close_client_callbacks p : callbacks_ok p -> callbacks_ok (on_dispatcher Dispatcher.close p).
Proof.
  intros H. pose proof (co_scheduler _ H) as Hs. apply with_scheduler_callbacks; [done|].
  eapply scheduler_ok_less; [exact Hs|apply ok_close, Hs| |done]. intros []; simpl; try done. set_solver.
Qed.

Lemma schedule_all_callbacks r key a b cs : forall p,
  Forall (fun k => k < length (registrations p))%nat cs -> callbacks_ok p -> callbacks_ok (schedule_all r key a b p cs).
Proof.
  induction cs as [|k cs IH]; intros p Hcs H; [done|]. inversion Hcs; subst. simpl.
  apply IH; [done|]. by apply schedule_callbacks.
Qed.

(** The other steps change no more than a registration. *)
Lemma callbacks_ok_same p q :
  callbacks_ok p -> callbacks q = callbacks p -> registrations q = registrations p ->
  invocations q = invocations p -> scheduler q = scheduler p ->
  (forall j k a b, Called j k a b ∈ trace q -> Called j k a b ∈ trace p) -> callbacks_ok q.
Proof. intros [] E1 E2 E3 E4 E5. constructor; rewrite ?E1, ?E2, ?E3, ?E4; auto. Qed.

Lemma released_trace h c p j k a b :
  Called j k a b ∈ trace (emit (Released h c) p) -> Called j k a b ∈ trace p.
Proof. simpl. by intros [?|?%list_elem_of_singleton]%elem_of_app. Qed.
Lemma registered_trace h p j k a b : Called j k a b ∈ trace (emit (Registered h) p) -> Called j k a b ∈ trace p.
Proof. simpl. by intros [?|?%list_elem_of_singleton]%elem_of_app. Qed.

Lemma settle_init_same r p :
  callbacks (settle_init r p) = callbacks p /\ registrations (settle_init r p) = registrations p /\
  invocations (settle_init r p) = invocations p /\ scheduler (settle_init r p) = scheduler p /\
  trace (settle_init r p) = trace p /\ value (settle_init r p) = value p /\ disposed (settle_init r p) = disposed p.
Proof. unfold settle_init. simpl. by destruct (disposing p) as [|[]| |]. Qed.

Lemma settle_callbacks r p : callbacks_ok p -> callbacks_ok (settle_init r p).
Proof.
  intros H. destruct (settle_init_same r p) as (? & ? & ? & ? & Ht & _). eapply callbacks_ok_same; [done..|]. by rewrite Ht.
Qed.

Lemma on_registered_callbacks o r p : callbacks_ok p -> callbacks_ok (on_registered o r p).
Proof.
  intros H. unfold on_registered. destruct (initializing p) as [[]|]; try done. destruct r as [h|e].
  - set (q := emit _ p). assert (callbacks_ok q) as Hq by (eapply callbacks_ok_same; [exact H|done..|apply registered_trace]).
    destruct (disposed q); [|apply settle_callbacks; by apply (callbacks_ok_same q)].
    apply (callbacks_ok_same q); [done..|apply released_trace].
  - apply settle_callbacks. by eapply callbacks_ok_same.
Qed.

Lemma step_callbacks o client p x : callbacks_ok p -> callbacks_ok (step o client p x).
Proof.
  intros H. pose proof (queues_callbacks p H) as (Hh & Hm & Ht).
  destruct x; simpl; [| |by apply on_registered_callbacks| | | |done|done|done|by apply end_turn_callbacks
    |by apply settle_turn_callbacks| |by apply close_client_callbacks|..];
    unfold init, initialize, on_fetched, on_late_disposed, registration_failed, on_init_settled,
      on_dispose_init, on_disposed.
  all: try (repeat case_match; try done; try apply settle_callbacks;
            (eapply callbacks_ok_same; [exact H|done..|by intros ????; try apply released_trace])).
  - destruct (applyUpdate_cases o client v present p) as [->|(w & s & _ & -> & _)]; [done|].
    apply schedule_all_callbacks; [apply H|]. by apply (callbacks_ok_same p).
  - apply with_scheduler_callbacks; [done|]. apply enqueue_scheduler_ok; [lia|apply H].
  - destruct H as [C1 C2 C3 C4 C5]. constructor; simpl; rewrite ?length_app; simpl; try done.
    + apply NoDup_app. split_and!; [done| |apply NoDup_singleton].
      intros k Hin ->%list_elem_of_singleton. rewrite Forall_forall in C2. specialize (C2 _ Hin). lia.
    + apply Forall_app; split; [|by constructor; [lia|]]. eapply Forall_impl; [exact C2|]. simpl. lia.
    + eapply Forall_impl; [exact C3|]. simpl. lia.
  - unfold unregister. repeat case_match; try done. destruct H as [C1 C2 C3 C4 C5].
    constructor; simpl; rewrite ?length_insert; try done; [by apply NoDup_filter|].
    apply Forall_forall; intros j [_ Hj]%list_elem_of_filter; by eapply Forall_forall in C2.
  - unfold dispose. case_match; try done. destruct H as [C1 C2 C3 C4 C5].
    constructor; simpl; rewrite ?length_imap; try done; constructor.
Qed.

Lemma run_callbacks o client ops p : callbacks_ok p -> callbacks_ok (run o client p ops).
Proof. revert p; induction ops as [|x ops IH]; intros p H; [done|]. by apply IH, step_callbacks. Qed.

Lemma new_callbacks : callbacks_ok new_ParameterValue.
Proof.
  split; simpl; try done; try constructor; [by intros ???? ?%elem_of_nil|apply ok_new|intros []; constructor|constructor].
Qed.

(** *** A registration that delivers *)

(** Active and listed, on a value that stays initialised: its changes lead
    from [v] to the current value, and none of its closures is unaccounted
    for. *)
Record delivering (r : route) (k : nat) (v : jstr) (p : ParameterValue) : Prop := {
  dl_initialized : initialized p = true;
  dl_settled : settled p;
  dl_alive : disposed p = false;
  dl_listed : k ∈ callbacks p;
  dl_active : exists g, registrations p !! k = Some g /\ active g = true;
  dl_chain : chain v (changes k p) (value p);
  dl_accounted : accounted r k p
}.

(** The operations that end the registration [k]. *)
Definition keeps (k : nat) (x : op) : Prop :=
  match x with OUnregister j => j <> k | ODispose => False | _ => True end.

Lemma accounted_same r k p q :
  accounted r k p -> called k q = called k p -> invocations q = invocations p -> scheduler q = scheduler p -> accounted r k q.
Proof. unfold accounted, waiting, lost. by intros H -> -> ->. Qed.

Lemma called_released k h c p : called k (emit (Released h c) p) = called k p.
Proof. unfold called. simpl. rewrite omap_app. simpl. by rewrite app_nil_r. Qed.

(** Steps that leave the registrations, the closures, the calls and the value. *)
Lemma delivering_quiet r k v p q :
  delivering r k v p -> initialized q = initialized p -> settled q -> disposed q = disposed p ->
  callbacks q = callbacks p -> registrations q = registrations p -> invocations q = invocations p ->
  scheduler q = scheduler p -> called k q = called k p -> value q = value p -> delivering r k v q.
Proof.
  intros [] E1 E2 E3 E4 E5 E6 E7 E8 E9. constructor; unfold changes in *; rewrite ?E1, ?E3, ?E4, ?E5, ?E6, ?E9; try done.
  by eapply accounted_same.
Qed.

Lemma delivering_suspended r k v p ph : delivering r k v p -> initializing p = Some ph -> exists x, ph = InitDone x.
Proof. intros H E. pose proof (dl_settled _ _ _ _ H) as Hs. unfold settled in Hs. rewrite E in Hs. destruct ph; naive_solver. Qed.

(** *** Closures that are made *)

Lemma hand_over_waiting r key n s :
  (r = Dispatched -> closed (dispatcher s) = false /\ closures (dropped (dispatcher (hand_over r key n s))) = closures (dropped (dispatcher s))) ->
  waiting_all r (hand_over r key n s) = waiting_all r s ++ [n].
Proof.
  destruct r; simpl; intros H; try done. destruct (H eq_refl) as [Hc Hd].
  destruct (enqueue_queue key (S n) (dispatcher s)) as [_ Hq].
  destruct (Hq Hc) as [[-> _]|[_ E]]; [by rewrite closures_app|]. rewrite E, closures_app in Hd. simpl in Hd.
  apply (f_equal length) in Hd. rewrite length_app in Hd. simpl in Hd. lia.
Qed.

Lemma schedule_waiting r k key x p :
  callbacks_ok p -> waiting_all r (hand_over r key (length (invocations p)) (scheduler p)) =
    waiting_all r (scheduler p) ++ [length (invocations p)] ->
  waiting r k (schedule r key x p) = waiting r k p ++ (if bool_decide (x.1.1 = k) then [length (invocations p)] else []).
Proof.
  intros H E. unfold waiting. simpl. rewrite E, filter_app, filter_made_last. f_equal.
  apply filter_made_snoc. apply (co_scheduler _ H).
Qed.

Lemma filter_kept_snoc (l : list nat) n ds (b : bool) :
  Forall (fun j => j < n)%nat ds ->
  filter (fun j => j ∉ ds) (l ++ (if b then [n] else [])) = filter (fun j => j ∉ ds) l ++ (if b then [n] else []).
Proof.
  intros H. rewrite filter_app. f_equal. destruct b; [|done]. rewrite filter_cons_True, filter_nil; [done|].
  intros Hin. rewrite Forall_forall in H. specialize (H _ Hin). lia.
Qed.

Lemma filter_lost_snoc (l : list nat) n ds (b : bool) :
  Forall (fun j => j < n)%nat l ->
  filter (fun j => j ∉ ds ++ [n]) (l ++ (if b then [n] else [])) = filter (fun j => j ∉ ds) l.
Proof.
  intros H. rewrite filter_app. rewrite (filter_same _ (fun j => j ∉ ds) l).
  2: { eapply Forall_impl; [exact H|]. intros j Hj. rewrite elem_of_app, list_elem_of_singleton. split; [tauto|].
       intros Hn [?| ->]; [done|]. simpl in Hj. lia. }
  destruct b; [|by rewrite app_nil_r]. rewrite filter_cons_False, filter_nil; [by rewrite app_nil_r|]. set_solver.
Qed.

Lemma filter_sublist {A} (P : A -> Prop) `{!forall x, Decision (P x)} (l l' : list A) :
  l `sublist_of` l' -> filter P l `sublist_of` filter P l'.
Proof.
  induction 1 as [|x l l' _ IH|x l l' _ IH]; [done|rewrite !filter_cons; case_decide; [by constructor|done]|].
  rewrite (filter_cons _ x l'). case_decide; [by constructor|done].
Qed.

Lemma filtered_account (l w : list nat) (P : nat -> Prop) `{!forall j, Decision (P j)} (b : Prop) :
  w = filter P l -> w `sublist_of` l /\ (b -> w = filter P l).
Proof. intros ->. split; [apply sublist_filter|done]. Qed.

Lemma schedule_accounted r k key x p :
  callbacks_ok p -> accounted r k p -> accounted r k (schedule r key x p).
Proof.
  intros H Ha. set (n := length (invocations p)). set (q := schedule r key x p).
  assert (called k q = called k p) as Ec by done.
  assert (own k (invocations q) = own k (invocations p) ++ (if bool_decide (x.1.1 = k) then [n] else [])) as Eo
    by apply own_snoc.
  pose proof (co_scheduler _ H) as [_ _ Hl]. unfold accounted in *. destruct r.
  - rewrite Ec, Eo. unfold q. rewrite (schedule_waiting Hosted) by (done || by apply hand_over_waiting).
    rewrite (assoc_L (++)), Ha. done.
  - rewrite Ec, Eo. unfold q in *. simpl.
    destruct (enqueue_queue key (S n) (dispatcher (scheduler p))) as [Ecl Eq]. unfold n in *. destruct Ha as [Hsub Ha].
    rewrite Ecl. destruct (closed (dispatcher (scheduler p))) eqn:Hc.
    { split; [|done]. unfold waiting in *. simpl. unfold enqueue. rewrite Hc, filter_made_snoc by exact (so_waiting _ _ (co_scheduler _ H) Dispatched).
      by apply sublist_inserts_r. }
    apply filtered_account. specialize (Ha eq_refl). destruct (Eq eq_refl) as [[Q D]|[Q D]].
    + rewrite (schedule_waiting Dispatched); [|done|apply hand_over_waiting; intros _; split; [done|simpl; by rewrite D]].
      unfold lost in *. simpl. rewrite D, filter_kept_snoc by done. by rewrite (assoc_L (++)), Ha.
    + unfold lost, waiting in *. simpl. rewrite Q, D, closures_app.
      change (closures [(key, S (length (invocations p)))]) with [length (invocations p)].
      rewrite filter_lost_snoc by apply own_bound. rewrite <- Ha. f_equal.
      apply filter_made_snoc. apply (co_scheduler _ H).
  - rewrite Ec, Eo. unfold q. rewrite (schedule_waiting Microtasks) by (done || by apply hand_over_waiting).
    by rewrite (assoc_L (++)), Ha.
Qed.

Lemma schedule_all_accounted r k key a b cs : forall p,
  Forall (fun k => k < length (registrations p))%nat cs -> callbacks_ok p -> accounted r k p ->
  accounted r k (schedule_all r key a b p cs).
Proof.
  induction cs as [|j cs IH]; intros p Hcs H Ha; [done|]. inversion Hcs; subst. simpl.
  apply IH; [done|by apply schedule_callbacks|by apply schedule_accounted].
Qed.

Lemma changes_once k a b (cs : list nat) :
  NoDup cs -> k ∈ cs -> omap (change_of k) ((fun j => (j, a, b)) <$> cs) = [(a, b)].
Proof.
  assert (forall l, k ∉ l -> omap (change_of k) ((fun j => (j, a, b)) <$> l) = []) as Hnone.
  { induction l as [|j l IH]; [done|]. intros [Hj Hl]%not_elem_of_cons. simpl. unfold change_of at 1.
    simpl. rewrite bool_decide_eq_false_2 by done. by apply IH. }
  induction 1 as [|j l Hj Hl IH]; [by intros ?%not_elem_of_nil|]. simpl. unfold change_of at 1. simpl.
  intros [->|Hin]%elem_of_cons.
  - rewrite bool_decide_eq_true_2 by done. f_equal. by apply Hnone.
  - rewrite bool_decide_eq_false_2 by (intros ->; done). by apply IH.
Qed.

Lemma delivering_update o client k v p w present :
  callbacks_ok p -> delivering (route_of client) k v p -> delivering (route_of client) k v (applyUpdate o client w present p).
Proof.
  intros Hc H. destruct (applyUpdate_cases o client w present p) as [->|(u & s & Hne & E1 & E2)]; [done|].
  assert (accounted (route_of client) k (applyUpdate o client w present p)) as Ha.
  { rewrite E1. apply schedule_all_accounted; [apply Hc|by apply (callbacks_ok_same p)|by apply (accounted_same _ _ p); [apply H|..]]. }
  rewrite E2 in *. destruct H. constructor; try done. unfold changes in *. simpl.
  rewrite omap_app, changes_once by (done || apply Hc). by apply chain_snoc.
Qed.

(** *** Closures that run *)

Lemma called_emit k j i a b p :
  called k (emit (Called j i a b) p) = called k p ++ (if bool_decide (i = k) then [j] else []).
Proof. unfold called. simpl. rewrite omap_app. simpl. by case_bool_decide. Qed.

Lemma invoke_called k j p :
  (exists g, registrations p !! k = Some g /\ active g = true) -> disposed p = false ->
  called k (invoke j p) = called k p ++ (if decide (made_for k (invocations p) j) then [j] else []).
Proof.
  intros (g & Hg & Hact) Hd. unfold invoke. destruct (invocations p !! j) as [[[i a] b]|] eqn:E.
  2: { rewrite decide_False, app_nil_r; [done|]. unfold made_for. by rewrite E. }
  destruct (decide (i = k)) as [->|Hne].
  - rewrite Hg, Hact, Hd, decide_True by (unfold made_for; by rewrite E). simpl. rewrite called_emit. by rewrite bool_decide_eq_true_2.
  - rewrite decide_False by (unfold made_for; rewrite E; simpl; congruence).
    repeat case_match; rewrite ?called_emit, ?app_nil_r; try done. by rewrite bool_decide_eq_false_2, app_nil_r by done.
Qed.

Lemma invoke_frame j p :
  invocations (invoke j p) = invocations p /\ scheduler (invoke j p) = scheduler p /\
  initialized (invoke j p) = initialized p /\ initializing (invoke j p) = initializing p /\ disposed (invoke j p) = disposed p /\
  callbacks (invoke j p) = callbacks p /\ registrations (invoke j p) = registrations p /\ value (invoke j p) = value p.
Proof. unfold invoke. by repeat case_match. Qed.

(** Taking the closure [j] out of what waits and running it keeps the account. *)
Lemma delivering_invoke r k v j s p :
  delivering r k v p ->
  (match r with
   | Hosted => waiting_all r (scheduler p) ≡ₚ j :: waiting_all r s
   | Dispatched => closed (dispatcher s) = closed (dispatcher (scheduler p)) /\
       dropped (dispatcher s) = dropped (dispatcher (scheduler p)) /\ waiting_all r (scheduler p) = j :: waiting_all r s
   | Microtasks => waiting_all r (scheduler p) = j :: waiting_all r s
   end) ->
  delivering r k v (invoke j (with_scheduler s p)).
Proof.
  intros [D1 D2 D3 D4 D5 D6 Ha] Hw. set (q := with_scheduler s p).
  destruct (invoke_frame j q) as (Ei & Es & E1 & E2 & E3 & E4 & E5 & E6).
  constructor; unfold changes, settled in *; rewrite ?E1, ?E2, ?E3, ?E4, ?E5, ?E6, ?Ei; try done.
  pose proof (invoke_called k j q D5 D3) as Ec. change (called k q) with (called k p) in Ec.
  change (invocations q) with (invocations p) in *. change (scheduler q) with s in Es.
  unfold accounted, waiting, lost in *. rewrite Ei, Es, Ec. destruct r.
  - rewrite Hw, filter_cons in Ha. rewrite <- Ha, <- (assoc_L (++)). by case_decide.
  - destruct Hw as (Hcl & Hd & Hq). rewrite Hq, filter_cons in Ha. rewrite Hd, Hcl, <- (assoc_L (++)). by case_decide.
  - rewrite Hw, filter_cons in Ha. rewrite <- Ha, <- (assoc_L (++)). by case_decide.
Qed.

(** Steps of the dispatcher that take no closure and drop none. *)
Lemma delivering_dispatcher r k v d t p :
  delivering r k v p ->
  closures (queue d) `sublist_of` closures (queue (dispatcher (scheduler p))) ->
  (closed d = false -> closed (dispatcher (scheduler p)) = false /\
     closures (dropped d) = closures (dropped (dispatcher (scheduler p))) /\
     closures (queue d) = closures (queue (dispatcher (scheduler p)))) ->
  delivering r k v (with_scheduler (set_dispatcher d t (scheduler p)) p).
Proof.
  intros [D1 D2 D3 D4 D5 D6 Ha] Hsub Hd. constructor; try done. unfold accounted, waiting, lost in *. simpl.
  destruct r; [done| |done]. destruct Ha as [Hs Ha]. split.
  { etrans; [|exact Hs]. apply sublist_app; [done|]. by apply filter_sublist. }
  intros Hc. destruct (Hd Hc) as (Hcl & -> & Hq). simpl in *. rewrite Hq. by apply Ha.
Qed.

(** *** Only the client's own way of queueing is used *)

#[global] Instance route_eq_dec : EqDecision route.
Proof. solve_decision. Defined.

Definition routed (r : route) (p : ParameterValue) : Prop :=
  forall r', r' <> r -> waiting_all r' (scheduler p) = [].

Lemma routed_less r p q :
  routed r p -> (forall r', waiting_all r' (scheduler q) ⊆ waiting_all r' (scheduler p)) -> routed r q.
Proof.
  intros H Hw r' Hr. specialize (Hw r'). rewrite (H r' Hr) in Hw.
  destruct (waiting_all r' (scheduler q)) as [|j l]; [done|]. exfalso. by apply (not_elem_of_nil j), Hw; left.
Qed.

Lemma routed_same r p q : routed r p -> scheduler q = scheduler p -> routed r q.
Proof. intros H E. apply (routed_less r p); [done|]. by rewrite E. Qed.

Lemma hand_over_routed r r' key n s : r' <> r -> waiting_all r' (hand_over r key n s) = waiting_all r' s.
Proof. by destruct r, r'. Qed.

Lemma schedule_all_routed r key a b cs : forall p, routed r p -> routed r (schedule_all r key a b p cs).
Proof.
  induction cs as [|k cs IH]; intros p H; [done|]. apply IH. intros r' Hr. simpl.
  rewrite hand_over_routed by done. by apply H.
Qed.

Lemma invoke_routed r j p : routed r p -> routed r (invoke j p).
Proof. intros H. apply (routed_same r p); [done|]. apply invoke_frame. Qed.

Lemma dispatcher_routed r d t p :
  routed r p -> closures (queue d) ⊆ closures (queue (dispatcher (scheduler p))) ->
  routed r (with_scheduler (set_dispatcher d t (scheduler p)) p).
Proof. intros H Hd. apply (routed_less r p); [done|]. intros []; simpl; done. Qed.

Lemma closures_anon path d :
  closures (queue (enqueue path 0 d)) = closures (queue d) /\ closures (dropped (enqueue path 0 d)) = closures (dropped d).
Proof.
  destruct (enqueue_queue path 0 d) as [_ Hq]. destruct (closed d) eqn:Hc; [by unfold enqueue; rewrite Hc|].
  destruct (Hq eq_refl) as [[-> ->]|[-> ->]]; rewrite closures_app; simpl; by rewrite app_nil_r.
Qed.

Lemma settle_init_scheduler r p : scheduler (settle_init r p) = scheduler p.
Proof. apply settle_init_same. Qed.

Lemma step_routed o client p x : routed (route_of client) p -> routed (route_of client) (step o client p x).
Proof.
  intros H. destruct x; simpl.
  all: try (apply (routed_same _ p); [done|];
    unfold init, initialize, on_fetched, on_registered, on_late_disposed, registration_failed, on_init_settled,
      unregister, dispose, on_dispose_init, on_disposed; repeat case_match; by rewrite ?settle_init_scheduler).
  - destruct (applyUpdate_cases o client v present p) as [->|(w & s & _ & -> & _)]; [done|].
    apply schedule_all_routed. by apply (routed_same _ p).
  - unfold run_hosted. destruct (hosted _ !! i) as [j|]; [|done]. apply invoke_routed. apply (routed_less _ p); [done|].
    intros []; simpl; try done. apply delete_subseteq.
  - unfold run_microtask. destruct (microtasks _) as [|j l] eqn:E; [done|]. destruct (turn _); [done|].
    apply invoke_routed, (routed_less _ p); [done|]. intros []; simpl; try done. rewrite E. set_solver.
  - unfold run_turn. destruct (turn _); [done|]. pose proof (take_item_queue (dispatcher (scheduler p))) as Hq.
    destruct (take_item _) as [d t]. destruct Hq as (Q & _ & _).
    assert (routed (route_of client) (with_scheduler (set_dispatcher d t (scheduler p)) p)) as Hr.
    { apply dispatcher_routed; [done|]. rewrite Q, closures_app. set_solver. }
    destruct t as [[path [|j]]|]; [done|by apply invoke_routed|done].
  - unfold end_turn. destruct (turn _) as [i|]; [|done]. apply dispatcher_routed; [done|]. by destruct (end_item_queue i e (dispatcher (scheduler p))) as (-> & _).
  - unfold settle_turn. destruct (turn _); [done|]. apply dispatcher_routed; [done|].
    by destruct (settle_queue k fulfilled (dispatcher (scheduler p))) as (-> & _).
  - apply dispatcher_routed; [done|]. by destruct (closures_anon path (dispatcher (scheduler p))) as [-> _].
  - apply dispatcher_routed; [done|]. simpl. set_solver.
Qed.

Lemma run_routed o client ops p : routed (route_of client) p -> routed (route_of client) (run o client p ops).
Proof. revert p; induction ops as [|x ops IH]; intros p H; [done|]. by apply IH, step_routed. Qed.

Lemma new_routed r : routed r new_ParameterValue.
Proof. by intros [] ?. Qed.

(** *** Every step keeps the account *)

Lemma routed_closure r p r' j l : routed r p -> waiting_all r' (scheduler p) = j :: l -> r' = r.
Proof. intros H E. destruct (decide (r' = r)) as [|Hr]; [done|]. by rewrite (H r' Hr) in E. Qed.

Lemma delivering_hosted r k v i p : routed r p -> delivering r k v p -> delivering r k v (run_hosted i p).
Proof.
  intros Hr H. unfold run_hosted. destruct (hosted (scheduler p) !! i) as [j|] eqn:E; [|done].
  assert (Hosted = r) as <-.
  { destruct (hosted (scheduler p)) as [|j' l] eqn:Eh; [done|]. by eapply (routed_closure r p Hosted). }
  apply delivering_invoke; [done|]. simpl. by apply delete_Permutation.
Qed.

Lemma delivering_microtask r k v p : routed r p -> delivering r k v p -> delivering r k v (run_microtask p).
Proof.
  intros Hr H. unfold run_microtask. destruct (microtasks (scheduler p)) as [|j l] eqn:E; [done|].
  assert (Microtasks = r) as <- by (by eapply (routed_closure r p Microtasks)).
  destruct (turn _); [done|]. by apply delivering_invoke.
Qed.

Lemma delivering_turn r k v p : routed r p -> delivering r k v p -> delivering r k v (run_turn p).
Proof.
  intros Hr H. unfold run_turn. destruct (turn (scheduler p)); [done|].
  pose proof (take_item_queue (dispatcher (scheduler p))) as Hq. destruct (take_item _) as [d t]. destruct Hq as (Q & D & C).
  assert (option_list t = [] \/ (exists path, t = Some (path, 0%nat)) ->
          delivering r k v (with_scheduler (set_dispatcher d t (scheduler p)) p)) as Hno.
  { intros Hc. assert (closures (queue (dispatcher (scheduler p))) = closures (queue d)) as Eq.
    { rewrite Q, closures_app. by destruct Hc as [->|[path ->]]. }
    apply delivering_dispatcher; [done|by rewrite Eq|]. by rewrite Eq, C, D. }
  destruct t as [[path [|j]]|]; [apply Hno; eauto| |apply Hno; by left].
  assert (closures (queue (dispatcher (scheduler p))) = j :: closures (queue d)) as Ej by (rewrite Q; done).
  assert (Dispatched = r) as <- by (by eapply (routed_closure r p Dispatched)).
  apply delivering_invoke; [done|]. simpl. by rewrite C.
Qed.

Lemma delivering_step o client k v p x :
  keeps k x -> callbacks_ok p -> routed (route_of client) p -> delivering (route_of client) k v p ->
  delivering (route_of client) k v (step o client p x).
Proof.
  intros Hx Hc Hr H. pose proof (dl_settled _ _ _ _ H) as Hs. destruct x; simpl; try done.
  - unfold init. by rewrite (dl_initialized _ _ _ _ H).
  - unfold on_fetched. destruct (initializing p) eqn:E; [|done]. by destruct (delivering_suspended _ _ _ _ _ H E) as [? ->].
  - unfold on_registered. destruct (initializing p) eqn:E; [|done]. by destruct (delivering_suspended _ _ _ _ _ H E) as [? ->].
  - unfold on_late_disposed. destruct (initializing p) eqn:E; [|done]. by destruct (delivering_suspended _ _ _ _ _ H E) as [? ->].
  - unfold on_init_settled. repeat case_match; try done. by eapply delivering_quiet.
  - by apply delivering_update.
  - by apply delivering_hosted.
  - by apply delivering_microtask.
  - by apply delivering_turn.
  - unfold end_turn. destruct (turn (scheduler p)) as [i|]; [|done].
    destruct (end_item_queue i e (dispatcher (scheduler p))) as (Q & D & C).
    apply delivering_dispatcher; [done|by rewrite Q|]. by rewrite Q, D, C.
  - unfold settle_turn, on_dispatcher. destruct (turn (scheduler p)) eqn:Ht; [done|].
    destruct (settle_queue k0 fulfilled (dispatcher (scheduler p))) as (Q & D & C).
    apply delivering_dispatcher; [done|by rewrite Q|]. by rewrite Q, D, C.
  - destruct (enqueue_queue path 0 (dispatcher (scheduler p))) as [C _].
    destruct (closures_anon path (dispatcher (scheduler p))) as [Q D].
    apply delivering_dispatcher; [done|by rewrite Q|]. by rewrite C, Q, D.
  - apply delivering_dispatcher; [done|apply sublist_nil_l|done].
  - destruct H as [H1 H2 H3 H4 (g & Hg & Ha) H6 H7]. constructor; try done; simpl.
    + apply elem_of_app. by left.
    + exists g. split; [|done]. by apply lookup_app_l_Some.
  - unfold unregister. simpl in Hx. repeat case_match; try done.
    destruct H as [D1 D2 D3 D4 (g & Hg & Ha) D6 D7]. constructor; try done; simpl.
    + by apply list_elem_of_filter.
    + exists g. by rewrite list_lookup_insert_ne.
  - unfold on_dispose_init. repeat case_match; try done; (eapply delivering_quiet; [exact H|..]; rewrite ?called_released; done).
  - unfold on_disposed. case_match; try done. by eapply delivering_quiet.
Qed.

Lemma delivering_ops o client k v ops p :
  Forall (keeps k) ops -> callbacks_ok p -> routed (route_of client) p -> delivering (route_of client) k v p ->
  delivering (route_of client) k v (run o client p ops).
Proof.
  intros HF. revert p; induction HF as [|x ops Hx HF IH]; intros p Hc Hr H; [done|]. simpl.
  apply IH; [by apply step_callbacks|by apply step_routed|by apply delivering_step].
Qed.

(** A new registration has no closure yet. *)
Lemma delivering_new r cb p :
  callbacks_ok p -> initialized p = true -> settled p -> disposed p = false ->
  delivering r (length (registrations p)) (value p) (onChange cb p).
Proof.
  intros [H1 H2 H3 H4 H5] Hi Hs Hd. set (k := length (registrations p)).
  assert (omap (change_of k) (invocations p) = []) as E1.
  { clear H4 H5. induction H3 as [|x l Hx Hl IH]; [done|]. simpl. unfold change_of at 1.
    rewrite bool_decide_eq_false_2 by (unfold k; lia). done. }
  assert (own k (invocations p) = []) as E2 by by apply own_fresh.
  assert (forall j, ~ made_for k (invocations p) j) as E3.
  { intros j. unfold made_for. destruct (invocations p !! j) as [x|] eqn:E; [|done]. intros [= Hx].
    rewrite Forall_lookup in H3. specialize (H3 _ _ E). unfold k in Hx. simpl in *. lia. }
  assert (called k p = []) as E4.
  { unfold called. assert (forall e, e ∈ trace p -> called_number k e = None) as Hn.
    { intros [h|h c|j i a b] He; try done. simpl. case_bool_decide as Hi'; [|done]. subst i.
      apply H4 in He. exfalso. apply (E3 j). unfold made_for. by rewrite He. }
    clear -Hn. induction (trace p) as [|e l IH]; [done|]. simpl. rewrite (Hn e) by by left. apply IH. intros e' He'. apply Hn. by right. }
  assert (waiting r k p = []) as E5.
  { unfold waiting. induction (waiting_all r (scheduler p)) as [|j l IH]; [done|]. by rewrite filter_cons_False. }
  constructor; try done; simpl.
  - apply elem_of_app. right. by apply list_elem_of_singleton.
  - exists {| callback := cb; active := true |}. split; [|done]. by apply list_lookup_middle.
  - unfold changes. simpl. by rewrite E1.
  - apply (accounted_same r k p); [|done..]. unfold accounted. by rewrite E2, E4, E5; destruct r.
Qed.

(** ** After the end of a registration *)

Definition silent (k : nat) (p : ParameterValue) : Prop :=
  disposed p = true \/ exists r, registrations p !! k = Some r /\ active r = false.

Definition stays_silent (k : nat) (p q : ParameterValue) : Prop := silent k q /\ called k q = called k p.

Lemma silent_same k p q :
  silent k p -> disposed q = disposed p -> registrations q = registrations p -> called k q = called k p ->
  stays_silent k p q.
Proof. unfold stays_silent, silent. by intros H -> -> ->. Qed.

Lemma silent_settle k r p q : stays_silent k p q -> stays_silent k p (settle_init r q).
Proof.
  destruct (settle_init_same r q) as (_ & E1 & _ & _ & E2 & _ & E3). unfold stays_silent, silent, called.
  by rewrite E1, E2, E3.
Qed.

Lemma silent_invoke k j s p : silent k p -> stays_silent k p (invoke j (with_scheduler s p)).
Proof.
  intros H. unfold invoke. simpl.
  assert (stays_silent k p (with_scheduler s p)) as Hq by by apply silent_same.
  destruct (invocations p !! j) as [[[i a] b]|]; [|done]. destruct (registrations p !! i) as [r|] eqn:Hr; [|done].
  destruct (active r && negb (disposed p)) eqn:E; [|done]. destruct Hq as [Hs Hc]. split; [done|].
  rewrite called_emit, Hc. apply andb_prop in E as [Ha Hd]. apply negb_true_iff in Hd.
  case_bool_decide as Hj; [|by rewrite app_nil_r]. subst i. destruct H as [H|(r' & Hr' & Hin)]; congruence.
Qed.

Lemma silent_registrations k p rs cs :
  silent k p -> (forall r, registrations p !! k = Some r -> active r = false -> exists r', rs !! k = Some r' /\ active r' = false) ->
  stays_silent k p (set_callbacks rs cs p).
Proof. intros [H|(r & Hr & Ha)] Hk; (split; [|done]); [by left|]. right. by apply (Hk r). Qed.

Lemma step_silent o client k p x : silent k p -> stays_silent k p (step o client p x).
Proof.
  intros H. destruct x; simpl.
  all: try (unfold init, initialize, on_fetched, on_registered, on_late_disposed, registration_failed, on_init_settled,
      on_dispose_init, on_disposed, run_hosted, run_microtask, run_turn, end_turn, settle_turn, on_dispatcher;
      repeat case_match; try done; try apply silent_settle; try (by apply silent_invoke);
      (first [by apply silent_same
            | apply silent_same; done || (unfold called; simpl; rewrite ?omap_app; simpl; by rewrite ?app_nil_r)])).
  - destruct (applyUpdate_cases o client v present p) as [->|(w & s & _ & _ & ->)]; [done|]. by apply silent_same.
  - apply silent_registrations; [done|]. intros r Hr Ha. exists r. split; [by apply lookup_app_l_Some|done].
  - unfold unregister. destruct (registrations p !! k0) as [r|] eqn:Hr; [|done]. destruct (active r) eqn:Ha; [|done].
    apply silent_registrations; [done|]. intros r' Hr' Ha'. exists r'. split; [|done].
    rewrite list_lookup_insert_ne; [done|]. intros ->. congruence.
  - unfold dispose. case_match; try done. by split; [left|].
Qed.

Lemma run_silent o client k ops p : silent k p -> called k (run o client p ops) = called k p.
Proof.
  revert p; induction ops as [|x ops IH]; intros p H; [done|]. simpl.
  destruct (step_silent o client k p x H) as [Hs <-]. by apply IH.
Qed.

Lemma ended_silent o client k p x r :
  registrations p !! k = Some r -> x = OUnregister k \/ x = ODispose -> disposing p = NotDisposed ->
  silent k (step o client p x) /\ called k (step o client p x) = called k p.
Proof.
  intros Hr [->| ->] Hd; simpl.
  - unfold unregister. rewrite Hr. destruct (active r) eqn:Ha; (split; [right|done]); [|by exists r].
    exists (deactivate r). simpl. split; [|done]. apply list_lookup_insert_eq. by eapply lookup_lt_Some.
  - unfold dispose. rewrite Hd. by split; [left|].
Qed.

(** C38: every change reaches the callbacks in order, and none is lost but to
    a full dispatcher. A callback is registered on an initialised value, and
    neither unregistered nor the value disposed. Then, in every run:
    - one closure is made for it per change, and each change starts at the
      value the last one ended with, from the value at registration to the
      current one;
    - a closure calls it with the change it was made for;
    - with the client's own queue, each closure was called once or waits;
      as microtasks the same, in the order of the changes; with the client's
      dispatcher the closures called, then those waiting, are some of the ones
      made, in order, and while the client is open all but those the
      dispatcher dropped, which it does only with 1024 accepted notifications
      waiting; in each case none calls twice;
    - once it is unregistered, or the value disposed, it is not called again,
      whatever still waits. *)
Theorem updates_delivered (o : ParameterValueOptions) (client : ValueResolver) (ops : list op) (cb : nat) :
  let p := run o client new_ParameterValue ops in
  let k := length (registrations p) in
  initialized p = true -> settled p -> disposed p = false ->
  forall ops', Forall (keeps k) ops' ->
  let q := run o client p (OOnChange cb :: ops') in
  chain (value p) (changes k q) (value q) /\
  (forall j i a b, Called j i a b ∈ trace q -> invocations q !! j = Some (i, a, b)) /\
  accounted (route_of client) k q /\
  NoDup (called k q) /\
  full_drops (Dispatcher.trace (dispatcher (scheduler q))) /\
  forall x ops'', x = OUnregister k \/ x = ODispose -> called k (run o client q (x :: ops'')) = called k q.
Proof.
  intros p k Hi Hs Hd ops' HF q.
  assert (callbacks_ok p) as Hc by (apply run_callbacks, new_callbacks).
  assert (routed (route_of client) p) as Hr by (apply run_routed, new_routed).
  assert (callbacks_ok q) as Hcq by (by apply run_callbacks).
  assert (handles_ok q) as Hh by (apply run_handles, run_handles; by constructor).
  assert (delivering (route_of client) k (value p) q) as Hq.
  { apply (delivering_ops o client k (value p) ops' (onChange cb p)); [done| |by apply (routed_same _ p)|by apply delivering_new].
    apply (step_callbacks o client p (OOnChange cb) Hc). }
  split_and!; [apply Hq|apply (co_trace _ Hcq)|apply Hq|by eapply accounted_nodup, Hq|apply (ok_drops _ _ (so_dispatcher _ _ (co_scheduler _ Hcq)))|].
  intros x ops'' Hx. destruct (dl_active _ _ _ _ Hq) as (g & Hg & _).
  destruct (ended_silent o client k q x g Hg Hx) as [Hsil E]; [apply (ho_disposed _ Hh), Hq|].
  etrans; [apply (run_silent o client k ops''), Hsil|exact E].
Qed.

(** Two updates through the client's dispatcher, whose event loop gives one
    turn: the second call waits for the first to settle. *)
Lemma updates_delivered_witness :
  let o := {| p_key := js "/dev/app/k"; p_envVar := []; p_default := []; p_static := false |} in
  let client := {| defaultAllowedForError := None; _defaultAllowedForError := None; fallbackToDefaultsOnError := false;
                   has_registerParameter := false; has_resolveRef := false; has_resolveResourceRef := false;
                   has_subscribeParameter := true; has_enqueueCallback := false; has_dispatch := true |} in
  let start := [OInit (fun _ => None); OFetched (AText (js "1")); ORegistered (Ok (HandleFunction 0)); OInitSettled] in
  let later := [OUpdate (js "2") true; OUpdate (js "3") true; OTurn; OEndTurn Returned; OTurn] in
  let p := run o client new_ParameterValue start in
  let q := run o client p (OOnChange 7 :: later) in
  chain (js "1") (changes 0 q) (value q) /\ called 0 q ++ waiting Dispatched 0 q = [0%nat; 1%nat] /\ called 0 q = [0%nat] /\
  called 0 (run o client q [OUnregister 0; OTurnSettled 0 true; OTurn]) = [0%nat].
Proof.
  intros o client start later p q.
  destruct (updates_delivered o client start 7 eq_refl I eq_refl later ltac:(repeat constructor)) as (H1 & _ & H2 & _ & _ & H3).
  split; [exact H1|]. split; [exact (proj2 H2 eq_refl)|]. split; [reflexivity|].
  exact (H3 (OUnregister 0) [OTurnSettled 0 true; OTurn] (or_introl eq_refl)).
Defined.

(** A second [init] called while the first still registers returns at once;
    when the registration then fails the value is uninitialised again, though
    the second call had succeeded. *)
Theorem concurrent_init_unregistered :
  let o := {| p_key := js "/dev/app/k"; p_envVar := []; p_default := []; p_static := false |} in
  let client := {| defaultAllowedForError := None; _defaultAllowedForError := None; fallbackToDefaultsOnError := false;
                   has_registerParameter := false; has_resolveRef := false; has_resolveResourceRef := false;
                   has_subscribeParameter := true; has_enqueueCallback := false; has_dispatch := true |} in
  let p := run o client new_ParameterValue [OInit (fun _ => None); OFetched (AText (js "1"))] in
  initialized p = true /\ ~ settled p /\ init o (fun _ => None) p = p /\
  let q := run o client p [ORegistered (Throw JOther)] in
  initialized q = false /\ value q = [].
Proof. repeat split; exact (fun H => H). Qed.

(** ** Failures *)

(** Errors of configuration and wiring. *)
Definition wiring_error (e : JsError) : Prop :=
  exists name code message g cause, e = JKms name code message g cause /\
  (code = no_namespace \/ code = invalid_argument \/ code = not_initialized).

Lemma wiring_not_allowed client e : wiring_error e -> fallbackAllowed client e = false.
Proof. intros (n & c & m & g & ca & -> & [->|[->| ->]]); done. Qed.

(** Defaults and errors. A non-empty environment value is used without
    asking the store, for both kinds of value; a wiring error is never hidden
    by a default; and a failed secret discloses what its normalisation does
    and the key, no text of the server. *)
Theorem fallback_rules (so : SecretValueOptions) (po : ParameterValueOptions) (client : ValueResolver) :
  (forall env v, env (s_envVar so) = Some v -> v <> [] -> s_envVar so <> [] ->
     resolved (secret_begin so env new_SecretValue) = Some {| plain := v; plain_path := Some (s_key so) |}) /\
  (forall env v p, env (p_envVar po) = Some v -> v <> [] -> p_envVar po <> [] ->
     value (initialize po env p) = v /\ initializing (initialize po env p) = Some (InitDone (Ok tt))) /\
  (forall e, wiring_error e ->
     is_ok (secret_outcome so client (ASecretFails e)) = false /\ is_ok (fetch_outcome po client (AFails e)) = false) /\
  (forall e e', secret_outcome so client (ASecretFails e) = Throw e' ->
     exists code g, e' = KmsError code (js "resolve secret " ++ json_quote (s_key so) ++ js ": " ++ SECRET_FAILED) g None).
Proof.
  assert (forall s : jstr, s <> [] -> (0 <? strlen s) = true) as Hlen.
  { intros [|c s] ?; [done|]. unfold strlen. simpl length. apply Z.ltb_lt. lia. }
  assert (forall env var v, env var = Some v -> v <> [] -> var <> [] -> env_override env var = Some v) as Henv.
  { intros env var v E Hv Hvar. unfold env_override. by rewrite (Hlen var), E, (Hlen v). }
  split_and!.
  - intros env v E Hv Hvar. unfold secret_begin. by rewrite (Henv _ _ _ E Hv Hvar).
  - intros env v p E Hv Hvar. unfold initialize. rewrite (Henv _ _ _ E Hv Hvar).
    unfold settle_init. simpl. by destruct (disposing p) as [|[]| |].
  - intros e He. unfold secret_outcome, fetch_outcome. rewrite (wiring_not_allowed client e He), andb_false_r, orb_true_r.
    split; [|done]. by destruct (default _ _).
  - intros e e'. unfold secret_outcome. destruct (hasDefault _ && _); [done|].
    destruct (mapSecretGrpcError e) as [r|] eqn:E; simpl; [|intros [= <-]; by repeat eexists].
    apply mapSecretGrpcError_fixed_text in E as (code & g & ->). intros [= <-]. by repeat eexists.
Qed.

(** A wiring error with a broad fallback configured, and a default. *)
Lemma fallback_rules_witness :
  let so := {| s_key := js "k"; s_bindKey := []; s_envVar := []; s_default := js "d" |} in
  let po := {| p_key := js "k"; p_envVar := []; p_default := js "d"; p_static := false |} in
  let client := {| defaultAllowedForError := None; _defaultAllowedForError := None; fallbackToDefaultsOnError := true;
                   has_registerParameter := false; has_resolveRef := false; has_resolveResourceRef := false;
                   has_subscribeParameter := false; has_enqueueCallback := false; has_dispatch := true |} in
  is_ok (secret_outcome so client (ASecretFails (NoNamespaceError (js "k")))) = false /\
  is_ok (fetch_outcome po client (AFails (NoNamespaceError (js "k")))) = false.
Proof.
  intros so po client. destruct (fallback_rules so po client) as (_ & _ & H & _). apply H.
  unfold NoNamespaceError. do 5 eexists. split; [reflexivity|]. by left.
Defined.

(** ** The walk over a configuration *)

Section collect.
Context (h : cheap).

Definition visits (l l' : loc) : Prop := exists ps, h !! l = Some (Walked ps) /\ (true, Some (CRef l')) ∈ ps.

Lemma elem_of_fields v ps : v ∈ fields (Walked ps) <-> (true, Some v) ∈ ps.
Proof.
  simpl. rewrite list_elem_of_omap. split.
  - intros ([[] w] & Hin & Hv); simpl in Hv; [by subst|done].
  - intros Hin. by exists (true, Some v).
Qed.

(** [l] is reached from [v] through enumerable data properties. *)
Definition reaches (v : cvalue) (l : loc) : Prop := exists l0, v = CRef l0 /\ rtc visits l0 l.

(** What was found or entered already. *)
Definition met (s : list loc * gset loc) (v : cvalue) : Prop :=
  match v with
  | CPrim => True
  | CRef l => match h !! l with
              | Some Declarative => l ∈ s.1
              | Some (Walked _) => l ∈ s.2
              | _ => True
              end
  end.

Definition inside (vis : gset loc) : Prop := forall l, l ∈ vis -> (l < length h)%nat.

(** From [s] the walk over the values [vs] reached [s']. *)
Record walked (vs : list cvalue) (s s' : list loc * gset loc) : Prop := {
  wk_targets : s.1 ⊆ s'.1;
  wk_visited : s.2 ⊆ s'.2;
  wk_inside : inside s'.2;
  wk_nodup : NoDup s.1 -> NoDup s'.1;
  wk_sound : forall l, l ∈ s'.1 -> l ∈ s.1 \/ (h !! l = Some Declarative /\ exists v, v ∈ vs /\ reaches v l);
  wk_entered : forall l, l ∈ s'.2 -> l ∉ s.2 ->
    exists ps, h !! l = Some (Walked ps) /\ Forall (met s') (fields (Walked ps));
  wk_met : Forall (met s') vs
}.

Lemma met_mono s s' v : s.1 ⊆ s'.1 -> s.2 ⊆ s'.2 -> met s v -> met s' v.
Proof. destruct v as [|l]; simpl; [done|]. intros H1 H2. repeat case_match; auto. Qed.

Lemma walked_nil s : inside s.2 -> walked [] s s.
Proof. intros H. constructor; auto; try done. Qed.

Lemma walked_cons v vs s s1 s2 : walked [v] s s1 -> walked vs s1 s2 -> walked (v :: vs) s s2.
Proof.
  intros [A1 A2 A3 A4 A5 A6 A7] [B1 B2 B3 B4 B5 B6 B7]. constructor; [set_solver..|done|auto| | |].
  - intros l Hl. destruct (B5 l Hl) as [Hl1|(Hd & w & Hw & Hr)]; [|right; set_solver].
    destruct (A5 l Hl1) as [|(Hd & w & Hw & Hr)]; [by left|right]. apply list_elem_of_singleton in Hw as ->.
    split; [done|]. exists v. split; [by left|done].
  - intros l Hl Hn. destruct (decide (l ∈ s1.2)) as [H1|H1]; [|by apply B6].
    destruct (A6 l H1 Hn) as (ps & E & HF). exists ps. split; [done|].
    eapply Forall_impl; [exact HF|]. intros w. by apply met_mono.
  - constructor; [|done]. apply Forall_cons in A7 as [A7 _]. by eapply met_mono.
Qed.

Definition enough (fuel : nat) (s : list loc * gset loc) : Prop := (length h < fuel + size s.2)%nat.

Lemma foldl_walked fuel :
  (forall v s, inside s.2 -> enough fuel s -> walked [v] s (collectValues (S fuel) h v s)) ->
  forall vs s, inside s.2 -> enough fuel s -> walked vs s (foldl (fun s v => collectValues (S fuel) h v s) s vs).
Proof.
  intros IH vs. induction vs as [|v vs IHvs]; intros s Hin Hf; [by apply walked_nil|]. cbn [foldl].
  pose proof (IH v s Hin Hf) as Hv. eapply walked_cons; [exact Hv|]. apply IHvs; [apply Hv|].
  pose proof (subseteq_size _ _ (wk_visited _ _ _ Hv)). unfold enough in *. lia.
Qed.

Lemma collect_walked fuel v s : inside s.2 -> enough fuel s -> walked [v] s (collectValues (S fuel) h v s).
Proof.
  revert v s; induction fuel as [|fuel IH]; intros v s Hin Hf.
  { apply size_below in Hin. unfold enough in Hf. lia. }
  remember (S fuel) as n eqn:Hn. cbn [collectValues]. destruct v as [|l].
  { constructor; auto; try done. by constructor. }
  destruct (h !! l) as [[| |ps]|] eqn:Hl; try (constructor; auto; try done; constructor; [|done]; unfold met; by rewrite Hl).
  - unfold set_add. constructor; simpl; try done; try (by case_decide; [|set_solver]).
    + intros Hnd. case_decide; [done|]. apply NoDup_app. split_and!; [done|set_solver|apply NoDup_singleton].
    + intros x. case_decide; [by left|]. rewrite elem_of_app, list_elem_of_singleton. intros [?| ->]; [by left|right].
      split; [done|]. exists (CRef l). split; [by left|]. by exists l.
    + constructor; [|done]. unfold met. rewrite Hl. simpl. case_decide; set_solver.
  - case_bool_decide as Hvis.
    { constructor; auto; try done. constructor; [|done]. unfold met. by rewrite Hl. }
    assert (inside ({[l]} ∪ s.2)) as Hin'.
    { intros x [->%elem_of_singleton|]%elem_of_union; [by eapply lookup_lt_Some|by apply Hin]. }
    assert (enough fuel (s.1, {[l]} ∪ s.2)) as Hf'.
    { unfold enough in *. simpl. rewrite size_union, size_singleton by set_solver. lia. }
    subst n. pose proof (foldl_walked fuel IH (fields (Walked ps)) (s.1, {[l]} ∪ s.2) Hin' Hf') as [C1 C2 C3 C4 C5 C6 C7].
    simpl in C1, C2, C4, C5, C6. constructor; [done|set_solver|done|done| | |].
    + intros x Hx. destruct (C5 x Hx) as [|(Hd & w & Hw & l0 & -> & Hr)]; [by left|right]. split; [done|].
      exists (CRef l). split; [by left|]. exists l. split; [done|]. eapply rtc_l; [|exact Hr].
      exists ps. by rewrite <- elem_of_fields.
    + intros x Hx Hn. destruct (decide (x = l)) as [->|Hne]; [by exists ps|]. apply C6; [done|]. set_solver.
    + constructor; [|done]. unfold met. rewrite Hl. set_solver.
Qed.

(** What is entered has its successors met, so all it reaches is met. *)
Lemma reaches_met s l l' :
  (forall l, l ∈ s.2 -> exists ps, h !! l = Some (Walked ps) /\ Forall (met s) (fields (Walked ps))) ->
  met s (CRef l) -> rtc visits l l' -> met s (CRef l').
Proof.
  intros Hs Hm Hr. induction Hr as [|x y z (ps & Hx & Hy) Hr IH]; [done|]. apply IH.
  unfold met in Hm. rewrite Hx in Hm. destruct (Hs x Hm) as (ps' & Hx' & HF). simplify_eq.
  rewrite Forall_forall in HF. by apply HF, elem_of_fields.
Qed.
End collect.

(** The walk over a configuration finds each declarative value that its
    enumerable data properties reach, cycles and sharing included, once, and
    nothing else. *)
Theorem collect_exact (h : cheap) (config : cvalue) :
  NoDup (collectDeclarativeValues h config) /\
  forall l, l ∈ collectDeclarativeValues h config <-> h !! l = Some Declarative /\ reaches h config l.
Proof.
  destruct (collect_walked h (S (length h)) config ([], ∅)) as [W1 W2 W3 W4 W5 W6 W7]; [by intros ? ?%elem_of_empty|unfold enough; simpl; lia|].
  fold (collect_fuel h) in *. set (r := collectValues _ _ _ _) in *. unfold collectDeclarativeValues. fold r.
  split; [apply W4; constructor|]. intros l. split.
  - intros Hl. destruct (W5 l Hl) as [Hn|(Hd & v & Hv & Hr)]; [by apply elem_of_nil in Hn|].
    apply list_elem_of_singleton in Hv as ->. done.
  - intros [Hd (l0 & -> & Hr)]. apply Forall_cons in W7 as [Hm _].
    assert (met h r (CRef l)) as Hl; [|by unfold met in Hl; rewrite Hd in Hl].
    apply (reaches_met h r l0); [|done|done]. intros x Hx. apply W6; [done|]. by apply not_elem_of_empty.
Qed.
