(* ===== verification/JsInt.v ===== *)
(** * JsInt: the 32-bit integer operators of the language.

    [&], [|], [^], [<<] work on signed and [>>>] on unsigned 32-bit integers:
    operands are reduced modulo [2^32], results read back as signed, or as
    unsigned after [>>>]. Little-endian fields of a [DataView] are lists of
    bytes. *)
From stdpp Require Import prelude list.
From Stdlib Require Import ZArith Lia.
From S2P Require Import Prelude.

(** ** Operators *)

Definition to_uint32 (z : Z) : Z := z mod 2 ^ 32.
Definition to_int32 (z : Z) : Z := if z mod 2 ^ 32 <? 2 ^ 31 then z mod 2 ^ 32 else z mod 2 ^ 32 - 2 ^ 32.

Definition js_and (a b : Z) : Z := to_int32 (Z.land (to_uint32 a) (to_uint32 b)).
Definition js_or (a b : Z) : Z := to_int32 (Z.lor (to_uint32 a) (to_uint32 b)).
Definition js_xor (a b : Z) : Z := to_int32 (Z.lxor (to_uint32 a) (to_uint32 b)).
Definition js_shl (a n : Z) : Z := to_int32 (Z.shiftl (to_uint32 a) n).
Definition js_ushr (a n : Z) : Z := Z.shiftr (to_uint32 a) n.

Definition is_uint32 (z : Z) : Prop := 0 <= z < 2 ^ 32.

Lemma to_uint32_range z : is_uint32 (to_uint32 z).
Proof. by apply Z.mod_pos_bound. Qed.
Lemma to_uint32_id z : is_uint32 z -> to_uint32 z = z.
Proof. apply Z.mod_small. Qed.
Lemma to_uint32_int32 z : to_uint32 (to_int32 z) = to_uint32 z.
Proof.
  unfold to_uint32, to_int32. case_match; [by rewrite Z.mod_mod|].
  by rewrite <- Zminus_mod_idemp_r, Z_mod_same_full, Z.sub_0_r, Z.mod_mod.
Qed.

(** Numbers below a power of two are those without bits from there on. *)
Lemma bounded_testbit z n : 0 <= n -> 0 <= z -> (z < 2 ^ n <-> forall i, n <= i -> Z.testbit z i = false).
Proof.
  intros Hn Hz. split.
  - intros Hlt i Hi. destruct (Z.eq_dec z 0) as [->|]; [apply Z.bits_0|].
    apply Z.bits_above_log2; [done|]. apply Z.lt_le_trans with n; [|done]. apply Z.log2_lt_pow2; lia.
  - intros Hb. destruct (Z.eq_dec z 0) as [->|]; [lia|]. apply Z.log2_lt_pow2; [lia|].
    destruct (Z.lt_ge_cases (Z.log2 z) n) as [|Hge]; [done|].
    pose proof (Hb _ Hge) as Hf. rewrite Z.bit_log2 in Hf by lia. done.
Qed.

Lemma lxor_bounded a b n : 0 <= n -> 0 <= a < 2 ^ n -> 0 <= b < 2 ^ n -> 0 <= Z.lxor a b < 2 ^ n.
Proof.
  intros Hn [Ha Ha'] [Hb Hb']. assert (0 <= Z.lxor a b) as H0 by by apply Z.lxor_nonneg. split; [done|].
  apply bounded_testbit; [done..|]. intros i Hi. rewrite Z.lxor_spec.
  by rewrite (proj1 (bounded_testbit a n Hn Ha) Ha' i Hi), (proj1 (bounded_testbit b n Hn Hb) Hb' i Hi).
Qed.

Lemma uint32_xor a b : to_uint32 (js_xor a b) = Z.lxor (to_uint32 a) (to_uint32 b).
Proof.
  unfold js_xor. rewrite to_uint32_int32. apply to_uint32_id.
  apply lxor_bounded; [done|apply to_uint32_range..].
Qed.

(** ** Little-endian fields *)

(** The [n] low bytes of [z], least significant first. *)
Fixpoint le_bytes (n : nat) (z : Z) : list Z :=
  match n with
  | O => []
  | S n => z mod 256 :: le_bytes n (z / 256)
  end.

(** Reading them back, with the bytes that follow. *)
Fixpoint le_read (n : nat) (l : list Z) : option (Z * list Z) :=
  match n with
  | O => Some (0, l)
  | S n => match l with
           | b :: l => match le_read n l with Some (z, r) => Some (b + 256 * z, r) | None => None end
           | [] => None
           end
  end.

Lemma length_le_bytes n z : length (le_bytes n z) = n.
Proof. revert z; induction n as [|n IH]; intros z; [done|]. simpl. by rewrite IH. Qed.

Lemma le_read_bytes n z r : le_read n (le_bytes n z ++ r) = Some (z mod 256 ^ Z.of_nat n, r).
Proof.
  revert z; induction n as [|n IH]; intros z; simpl; [by rewrite Z.mod_1_r|]. rewrite IH. do 2 f_equal.
  rewrite Nat2Z.inj_succ, Z.pow_succ_r, Z.rem_mul_r by lia. done.
Qed.
