(* ===== verification/Zip.v ===== *)
(** * Zip: [frontend/lib/zip.ts], the writer of stored archives.

    Credential bundles are written as ZIP archives with the stored method. A
    name and a content are UTF-8 encoded strings, the checksum is a
    table-driven CRC-32 over the language's 32-bit operators, and every field
    is a little-endian integer that wraps at its width. The reader at the end
    is the specification: it follows the format from the end record through
    the central directory to the local headers and checks the checksums. *)
From stdpp Require Import prelude list strings.
From Stdlib Require Import ZArith Lia.
From S2P Require Import Prelude JsString JsMap Unicode JsInt.

(** ** Data *)

(** A [number]: an integer or not. *)
Inductive number := Integer (z : Z) | NotInteger.
Record ZipTextEntry := { name : jstr; content : jstr; mode : option number }.

Inductive zip_error :=
| EntryCount | SimpleFilename | DuplicateEntry (name : jstr) | EntryTooLarge | EntryMode.

(** ** Checksum *)

(** The loop over the bits of a table index. *)
Definition crc_bit (crc : Z) : Z :=
  if negb (js_and crc 1 =? 0) then js_xor 0xedb88320 (js_ushr crc 1) else js_ushr crc 1.
Definition crc_entry (value : Z) : Z := js_ushr (Nat.iter 8 crc_bit value) 0.
Definition CRC32_TABLE : list Z := (fun i => to_uint32 (crc_entry (Z.of_nat i))) <$> seq 0 256.

Definition crc_step (crc byte : Z) : Z :=
  js_xor (CRC32_TABLE !!! Z.to_nat (js_and (js_xor crc byte) 0xff)) (js_ushr crc 8).
Definition crc32 (bytes : list Z) : Z := js_ushr (js_xor (foldl crc_step 0xffffffff bytes) 0xffffffff) 0.

(** ** Records *)

Definition uint16 (value : Z) : list Z := le_bytes 2 value.
Definition uint32 (value : Z) : list Z := le_bytes 4 value.
(** [join(parts)] *)
Definition join_bytes (parts : list (list Z)) : list Z := concat parts.
Definition byteLength (bytes : list Z) : Z := Z.of_nat (length bytes).

Definition encodeFilename (name : jstr) : res zip_error (list Z) :=
  let encoded := utf8_encode name in
  if bool_decide (name = []) || bool_decide (name = js ".") || bool_decide (name = js "..")
     || bool_decide (0 ∈ name) || bool_decide (47 ∈ name) || bool_decide (92 ∈ name) || (0xffff <? byteLength encoded)
  then Throw SimpleFilename else Ok encoded.

Definition utf8Flag : Z := 0x0800.
Definition minimumDosDate : Z := 33.
Definition unixExternalAttributes (mode : Z) : Z := js_ushr (js_shl (js_or 32768 mode) 16) 0.

Definition local_header (name content : list Z) (checksum : Z) : list Z :=
  join_bytes [uint32 0x04034b50; uint16 20; uint16 utf8Flag; uint16 0; uint16 0; uint16 minimumDosDate;
              uint32 checksum; uint32 (byteLength content); uint32 (byteLength content);
              uint16 (byteLength name); uint16 0; name; content].

Definition central_header (name content : list Z) (checksum mode localOffset : Z) : list Z :=
  join_bytes [uint32 0x02014b50; uint16 (js_or (js_shl 3 8) 20); uint16 20; uint16 utf8Flag; uint16 0; uint16 0;
              uint16 minimumDosDate; uint32 checksum; uint32 (byteLength content); uint32 (byteLength content);
              uint16 (byteLength name); uint16 0; uint16 0; uint16 0; uint16 0;
              uint32 (unixExternalAttributes mode); uint32 localOffset; name].

(** ** The archive *)

Record Parts := { localParts : list (list Z); centralParts : list (list Z); names : list jstr; localOffset : Z }.

(** The permission bits of an entry, [0600] unless given. *)
Definition entry_mode (m : option number) : res zip_error Z :=
  match default (Integer 384) m with
  | Integer z => if (z <? 0) || (511 <? z) then Throw EntryMode else Ok z
  | NotInteger => Throw EntryMode
  end.

(** The body of the loop over the entries. *)
Definition add_entry (p : Parts) (entry : ZipTextEntry) : res zip_error Parts :=
  let* name_bytes := encodeFilename (name entry) in
  if set_has (name entry) (names p) then Throw (DuplicateEntry (name entry))
  else
    let content_bytes := utf8_encode (content entry) in
    if 0xffffffff <? byteLength content_bytes then Throw EntryTooLarge
    else
      let* m := entry_mode (mode entry) in
      let checksum := crc32 content_bytes in
      let local := local_header name_bytes content_bytes checksum in
      Ok {| localParts := localParts p ++ [local];
            centralParts := centralParts p ++ [central_header name_bytes content_bytes checksum m (localOffset p)];
            names := set_add (name entry) (names p);
            localOffset := localOffset p + byteLength local |}.

Fixpoint add_entries (p : Parts) (entries : list ZipTextEntry) : res zip_error Parts :=
  match entries with
  | [] => Ok p
  | entry :: entries => let* p := add_entry p entry in add_entries p entries
  end.

Definition end_record (count central local : Z) : list Z :=
  join_bytes [uint32 0x06054b50; uint16 0; uint16 0; uint16 count; uint16 count; uint32 central; uint32 local; uint16 0].

Definition createStoredZip (entries : list ZipTextEntry) : res zip_error (list Z) :=
  if bool_decide (entries = []) || (0xffff <? Z.of_nat (length entries)) then Throw EntryCount
  else
    let* p := add_entries {| localParts := []; centralParts := []; names := []; localOffset := 0 |} entries in
    let localDirectory := join_bytes (localParts p) in
    let centralDirectory := join_bytes (centralParts p) in
    Ok (join_bytes [localDirectory; centralDirectory;
                    end_record (Z.of_nat (length entries)) (byteLength centralDirectory) (byteLength localDirectory)]).

(** ** Specification: CRC-32 bit by bit, and a reader of archives *)

Definition crc_shift (c : Z) : Z := Z.lxor (Z.shiftr c 1) (if Z.testbit c 0 then 0xedb88320 else 0).
Definition crc_spec_step (c byte : Z) : Z := Nat.iter 8 crc_shift (Z.lxor c byte).
Definition crc_spec (bytes : list Z) : Z := Z.lxor (foldl crc_spec_step 0xffffffff bytes) 0xffffffff.

(** What a reader extracts of an entry. *)
Record Extracted := { x_name : list Z; x_content : list Z; x_mode : Z }.

Notation "'read' x n ';' l ';' k" := (match le_read n l with Some (x, l) => k | None => None end)
  (at level 60, x name, n at level 9, l name, k at level 60, only parsing).
Definition expect {A} (b : bool) (k : option A) : option A := if b then k else None.
Definition take_bytes {A} (n : Z) (l : list Z) (k : list Z -> list Z -> option A) : option A :=
  expect (n <=? Z.of_nat (length l)) (k (take (Z.to_nat n) l) (drop (Z.to_nat n) l)).

(** The content a local header at the start of [l] is followed by. *)
Definition read_local (name : list Z) (checksum size : Z) (l : list Z) : option (list Z) :=
  read signature 4; l; read version 2; l; read flags 2; l; read method 2; l; read time 2; l; read date 2; l;
  read crc 4; l; read compressed 4; l; read plain 4; l; read name_length 2; l; read extra 2; l;
  expect ((signature =? 0x04034b50) && (method =? 0) && (crc =? checksum) && (compressed =? size) && (plain =? size)
          && (extra =? 0))
    (take_bytes name_length l (fun n l =>
       expect (bool_decide (n = name))
         (take_bytes size l (fun c _ => expect (crc_spec c =? checksum) (Some c))))).

(** The records of the central directory at the start of [l]. *)
Fixpoint read_central (archive : list Z) (count : nat) (l : list Z) : option (list Extracted) :=
  match count with
  | O => Some []
  | S count =>
      read signature 4; l; read made_by 2; l; read needed 2; l; read flags 2; l; read method 2; l; read time 2; l;
      read date 2; l; read checksum 4; l; read compressed 4; l; read plain 4; l; read name_length 2; l;
      read extra 2; l; read comment 2; l; read disk 2; l; read internal 2; l; read external 4; l; read offset 4; l;
      expect ((signature =? 0x02014b50) && (method =? 0) && (compressed =? plain) && (extra =? 0) && (comment =? 0))
        (take_bytes name_length l (fun n l =>
           match read_local n checksum plain (drop (Z.to_nat offset) archive), read_central archive count l with
           | Some c, Some xs =>
               Some ({| x_name := n; x_content := c; x_mode := Z.land (Z.shiftr external 16) 511 |} :: xs)
           | _, _ => None
           end))
  end.

(** The archive: its last 22 bytes are the end record. *)
Definition read_zip (archive : list Z) : option (list Extracted) :=
  let l := drop (length archive - 22) archive in
  read signature 4; l; read disk 2; l; read start 2; l; read here 2; l; read count 2; l; read size 4; l;
  read offset 4; l; read comment 2; l;
  expect ((signature =? 0x06054b50) && (here =? count) && (comment =? 0) && bool_decide (l = []))
    (read_central archive (Z.to_nat count) (drop (Z.to_nat offset) archive)).
