(* ===== verification/ZipProofs.v ===== *)
(** * ZipProofs: the checksum is CRC-32, and a reader of the format extracts
    from an archive exactly the entries it was built from. *)
From stdpp Require Import prelude list strings.
From Stdlib Require Import ZArith Lia.
From S2P Require Import Prelude JsString JsMap Unicode JsInt Zip.

(** ** The table is eight bits at a time *)

Definition crc_byte (c : Z) : Z := Nat.iter 8 crc_shift c.

Lemma table_eq : CRC32_TABLE = (fun i => crc_byte (Z.of_nat i)) <$> seq 0 256.
Proof. vm_compute. reflexivity. Qed.

Lemma table_lookup c : 0 <= c < 256 -> CRC32_TABLE !!! Z.to_nat c = crc_byte c.
Proof.
  intros H. rewrite table_eq. apply list_lookup_total_correct. rewrite list_lookup_fmap.
  rewrite lookup_seq_lt by lia. simpl. by rewrite Z2Nat.id by lia.
Qed.

(** A shift is linear over exclusive or, and so are eight. *)
Lemma crc_shift_xor a b : crc_shift (Z.lxor a b) = Z.lxor (crc_shift a) (crc_shift b).
Proof.
  unfold crc_shift. rewrite Z.shiftr_lxor, Z.lxor_spec. apply Z.bits_inj'. intros n _. rewrite !Z.lxor_spec.
  destruct (Z.testbit a 0), (Z.testbit b 0); simpl; rewrite ?Z.bits_0;
    destruct (Z.testbit (Z.shiftr a 1) n), (Z.testbit (Z.shiftr b 1) n), (Z.testbit 0xedb88320 n); done.
Qed.
Lemma crc_byte_xor a b : crc_byte (Z.lxor a b) = Z.lxor (crc_byte a) (crc_byte b).
Proof. unfold crc_byte. simpl. by rewrite !crc_shift_xor. Qed.

Lemma crc_shift_even h n : 0 <= n -> crc_shift (Z.shiftl h (n + 1)) = Z.shiftl h n.
Proof.
  intros Hn. unfold crc_shift. rewrite Z.shiftl_spec_low by lia. rewrite Z.lxor_0_r.
  rewrite Z.shiftr_shiftl_l by lia. f_equal. lia.
Qed.
Lemma crc_byte_high h : crc_byte (Z.shiftl h 8) = h.
Proof.
  unfold crc_byte. simpl. change 8 with (7 + 1). rewrite crc_shift_even by lia. change 7 with (6 + 1).
  rewrite crc_shift_even by lia. change 6 with (5 + 1). rewrite crc_shift_even by lia. change 5 with (4 + 1).
  rewrite crc_shift_even by lia. change 4 with (3 + 1). rewrite crc_shift_even by lia. change 3 with (2 + 1).
  rewrite crc_shift_even by lia. change 2 with (1 + 1). rewrite crc_shift_even by lia. change 1 with (0 + 1) at 1.
  rewrite !crc_shift_even by lia. apply Z.shiftl_0_r.
Qed.

Lemma byte_split x : x = Z.lxor (Z.land x 255) (Z.shiftl (Z.shiftr x 8) 8).
Proof.
  apply Z.bits_inj'. intros n Hn. rewrite Z.lxor_spec, Z.land_spec. change 255 with (Z.ones 8).
  destruct (Z.lt_ge_cases n 8).
  - rewrite Z.shiftl_spec_low, Z.ones_spec_low by lia. by rewrite andb_true_r, xorb_false_r.
  - rewrite Z.shiftl_spec, Z.shiftr_spec, Z.ones_spec_high by lia. rewrite andb_false_r, xorb_false_l. f_equal. lia.
Qed.

(** Eight shifts are one lookup. *)
Lemma crc_byte_lookup x : crc_byte x = Z.lxor (crc_byte (Z.land x 255)) (Z.shiftr x 8).
Proof. rewrite (byte_split x) at 1. by rewrite crc_byte_xor, crc_byte_high. Qed.

Lemma crc_shift_range c : is_uint32 c -> is_uint32 (crc_shift c).
Proof.
  intros [H1 H2]. unfold crc_shift. apply lxor_bounded; [done| |by destruct (Z.testbit c 0)].
  rewrite Z.shiftr_div_pow2 by done. split; [by apply Z.div_pos|]. apply Z.div_lt_upper_bound; lia.
Qed.
Lemma crc_byte_range c : is_uint32 c -> is_uint32 (crc_byte c).
Proof. intros H. unfold crc_byte. simpl. by repeat apply crc_shift_range. Qed.

Definition is_byte (b : Z) : Prop := 0 <= b < 256.

Lemma crc_spec_step_byte c b : crc_spec_step c b = crc_byte (Z.lxor c b).
Proof. unfold crc_spec_step, crc_byte. reflexivity. Qed.

Lemma crc_step_spec c b : is_byte b -> to_uint32 (crc_step c b) = crc_spec_step (to_uint32 c) b.
Proof.
  intros Hb. rewrite crc_spec_step_byte. unfold crc_step, js_ushr. set (u := to_uint32 c).
  pose proof (to_uint32_range c) as Hu. fold u in Hu.
  assert (js_and (js_xor c b) 255 = Z.land (Z.lxor u b) 255) as ->.
  { unfold js_and. rewrite uint32_xor. fold u. rewrite (to_uint32_id b), (to_uint32_id 255) by (unfold is_uint32, is_byte in *; lia).
    assert (0 <= Z.land (Z.lxor u b) 255 < 256) as H.
    { change 255 with (Z.ones 8). rewrite Z.land_ones by lia. by apply Z.mod_pos_bound. }
    unfold to_int32. rewrite Z.mod_small by lia. by rewrite (proj2 (Z.ltb_lt _ _)) by lia. }
  assert (0 <= Z.land (Z.lxor u b) 255 < 256) as Hi.
  { change 255 with (Z.ones 8). rewrite Z.land_ones by lia. by apply Z.mod_pos_bound. }
  rewrite table_lookup by done. rewrite uint32_xor.
  rewrite (to_uint32_id (crc_byte _)) by (apply crc_byte_range; unfold is_uint32; lia).
  rewrite to_uint32_id.
  2: { rewrite Z.shiftr_div_pow2 by done. destruct Hu. split; [by apply Z.div_pos|]. apply Z.div_lt_upper_bound; lia. }
  rewrite (crc_byte_lookup (Z.lxor u b)). f_equal.
  rewrite Z.shiftr_lxor. rewrite (Z.shiftr_div_pow2 b) by done. rewrite (Z.div_small b) by (unfold is_byte in Hb; lia).
  by rewrite Z.lxor_0_r.
Qed.

Lemma crc_steps_spec bytes c :
  Forall is_byte bytes -> to_uint32 (foldl crc_step c bytes) = foldl crc_spec_step (to_uint32 c) bytes.
Proof.
  intros HF. revert c; induction HF as [|b bytes Hb HF IH]; intros c; [done|]. simpl. by rewrite IH, crc_step_spec.
Qed.

Lemma crc32_eq bytes : Forall is_byte bytes -> crc32 bytes = crc_spec bytes.
Proof.
  intros HF. unfold crc32, crc_spec, js_ushr. by rewrite Z.shiftr_0_r, uint32_xor, crc_steps_spec.
Qed.

(** ** Bytes of encoded text *)

Lemma utf8_point_bytes p : 0 <= p <= 0x10ffff -> Forall is_byte (utf8_point p).
Proof.
  intros Hp. unfold utf8_point, is_byte.
  pose proof (Z.mod_pos_bound p 64 ltac:(lia)). pose proof (Z.mod_pos_bound (p / 64) 64 ltac:(lia)).
  pose proof (Z.mod_pos_bound (p / 4096) 64 ltac:(lia)).
  repeat case_match; bool_prop; repeat constructor; try lia; Z.to_euclidean_division_equations; lia.
Qed.

Lemma utf8_bytes s : Forall is_unit s -> Forall is_byte (utf8_encode s).
Proof.
  remember (length s) as n eqn:Hn. revert s Hn. induction n as [n IH] using lt_wf_ind. intros s -> Hs.
  destruct s as [|c s]; [done|]. apply Forall_cons in Hs as [Hc Hs]. unfold is_unit in Hc. cbn [utf8_encode].
  assert (Forall is_byte (utf8_encode s)) as Hrest by (eapply IH; [|reflexivity|done]; simpl; lia).
  destruct (is_lead c) eqn:Hl.
  - destruct s as [|d s]; [by apply utf8_point_bytes|]. apply Forall_cons in Hs as [Hd Hs].
    destruct (is_trail d) eqn:Ht; (apply Forall_app; split; [apply utf8_point_bytes|]); try done.
    + unfold is_lead, is_trail, pair_point, is_unit in *. bool_prop. lia.
    + eapply IH; [|reflexivity|done]. simpl. lia.
  - apply Forall_app. split; [|done]. case_match; apply utf8_point_bytes; lia.
Qed.

(** ** Reading what was written *)

Lemma read16 z r : 0 <= z < 2 ^ 16 -> le_read 2 (uint16 z ++ r) = Some (z, r).
Proof. intros H. unfold uint16. rewrite le_read_bytes. by rewrite Z.mod_small. Qed.
Lemma read32 z r : is_uint32 z -> le_read 4 (uint32 z ++ r) = Some (z, r).
Proof. intros H. unfold uint32. rewrite le_read_bytes. by rewrite Z.mod_small. Qed.

Lemma take_bytes_app {A} l r (k : list Z -> list Z -> option A) : take_bytes (byteLength l) (l ++ r) k = k l r.
Proof.
  unfold take_bytes, byteLength, expect. rewrite length_app, Nat2Z.id, take_app_length, drop_app_length.
  by rewrite (proj2 (Z.leb_le _ _)) by lia.
Qed.

Lemma crc32_range bytes : is_uint32 (crc32 bytes).
Proof. unfold crc32, js_ushr. rewrite Z.shiftr_0_r. apply to_uint32_range. Qed.

(** The sizes the writer checks. *)
Definition sizes_ok (x : Extracted) : Prop :=
  byteLength (x_name x) <= 0xffff /\ byteLength (x_content x) <= 0xffffffff /\ Forall is_byte (x_content x) /\
  0 <= x_mode x <= 511.

Definition local_of (x : Extracted) : list Z := local_header (x_name x) (x_content x) (crc32 (x_content x)).
Definition central_of (offset : Z) (x : Extracted) : list Z :=
  central_header (x_name x) (x_content x) (crc32 (x_content x)) (x_mode x) offset.

Ltac read_fields :=
  repeat first [rewrite read32 by (unfold is_uint32; lia) | rewrite read16 by lia].

Lemma read_local_of x rest :
  sizes_ok x ->
  read_local (x_name x) (crc32 (x_content x)) (byteLength (x_content x)) (local_of x ++ rest) = Some (x_content x).
Proof.
  intros (Hn & Hc & Hb & _). pose proof (crc32_range (x_content x)) as Hr. unfold is_uint32 in Hr.
  assert (0 <= byteLength (x_name x) /\ 0 <= byteLength (x_content x)) as [Hn0 Hc0] by (unfold byteLength; lia).
  unfold local_of, local_header, join_bytes, read_local, utf8Flag, minimumDosDate. cbn [concat].
  rewrite <- !app_assoc. read_fields.
  rewrite !Z.eqb_refl. cbn [andb expect]. rewrite take_bytes_app, bool_decide_eq_true_2 by done. cbn [expect].
  rewrite take_bytes_app, <- crc32_eq, Z.eqb_refl by done. done.
Qed.

Lemma external_mode m : 0 <= m <= 511 ->
  is_uint32 (unixExternalAttributes m) /\ Z.land (Z.shiftr (unixExternalAttributes m) 16) 511 = m.
Proof.
  intros Hm.
  assert (forallb (fun i => let e := unixExternalAttributes (Z.of_nat i) in
                    (0 <=? e) && (e <? 2 ^ 32) && (Z.land (Z.shiftr e 16) 511 =? Z.of_nat i)) (seq 0 512) = true) as H
    by (vm_compute; reflexivity).
  rewrite forallb_forall in H. specialize (H (Z.to_nat m)).
  pose proof (H ltac:(apply in_seq; lia)) as He. clear H. cbv beta zeta in He.
  rewrite Z2Nat.id in He by lia. bool_prop. unfold is_uint32. lia.
Qed.

(** The local parts of some entries, and their central records from an offset. *)
Definition locals (xs : list Extracted) : list Z := concat (local_of <$> xs).
Fixpoint centrals (offset : Z) (xs : list Extracted) : list Z :=
  match xs with
  | [] => []
  | x :: xs => central_of offset x ++ centrals (offset + byteLength (local_of x)) xs
  end.

Lemma read_central_of archive xs offset before rest tail :
  Forall sizes_ok xs -> offset = byteLength before -> archive = before ++ locals xs ++ tail ->
  byteLength archive < 2 ^ 32 ->
  read_central archive (length xs) (centrals offset xs ++ rest) = Some xs.
Proof.
  intros HF. revert offset before; induction HF as [|x xs Hx HF IH]; intros offset before -> -> Hlt; [done|].
  unfold locals in *. cbn [centrals length read_central fmap list_fmap concat] in *.
  assert (read_local (x_name x) (crc32 (x_content x)) (byteLength (x_content x))
            (drop (Z.to_nat (byteLength before)) (before ++ (local_of x ++ concat (local_of <$> xs)) ++ tail)) = Some (x_content x)) as Hl.
  { unfold byteLength at 2. rewrite Nat2Z.id, drop_app_length, <- app_assoc. by apply read_local_of. }
  pose proof Hx as (Hn & Hc & _ & Hm). destruct (external_mode _ Hm) as [He1 He2]. unfold is_uint32 in He1.
  pose proof (crc32_range (x_content x)) as Hr. unfold is_uint32 in Hr.
  assert (0 <= byteLength before < 2 ^ 32) as Hb.
  { revert Hlt. unfold byteLength. rewrite length_app. lia. }
  assert (0 <= byteLength (x_name x) /\ 0 <= byteLength (x_content x)) as [Hn0 Hc0] by (unfold byteLength; lia).
  assert (0 <= js_or (js_shl 3 8) 20 < 2 ^ 16) as Hmade by (by vm_compute).
  specialize (IH (byteLength before + byteLength (local_of x)) (before ++ local_of x)).
  rewrite <- !app_assoc in IH. specialize (IH ltac:(unfold byteLength; rewrite length_app; lia) eq_refl).
  rewrite <- !app_assoc in Hlt. specialize (IH Hlt).
  rewrite <- !app_assoc in Hl |- *. unfold central_of at 1, central_header, join_bytes, utf8Flag, minimumDosDate. cbn [concat].
  rewrite <- !app_assoc. read_fields. rewrite !Z.eqb_refl. cbn [andb expect]. rewrite take_bytes_app. cbn [app].
  rewrite Hl, IH, He2. by destruct x.
Qed.

(** ** What the writer accepts *)

Definition mode_value (m : option number) : Z := match default (Integer 384) m with Integer z => z | NotInteger => 0 end.

(** What a reader should find of an entry. *)
Definition entry_data (e : ZipTextEntry) : Extracted :=
  {| x_name := utf8_encode (name e); x_content := utf8_encode (content e); x_mode := mode_value (mode e) |}.

Definition simple_filename (s : jstr) : Prop :=
  s <> [] /\ s <> js "." /\ s <> js ".." /\ 0 ∉ s /\ 47 ∉ s /\ 92 ∉ s /\ byteLength (utf8_encode s) <= 0xffff.
Definition valid_entry (e : ZipTextEntry) : Prop :=
  simple_filename (name e) /\ byteLength (utf8_encode (content e)) <= 0xffffffff /\
  default (Integer 384) (mode e) = Integer (mode_value (mode e)) /\ 0 <= mode_value (mode e) <= 511.

Lemma encodeFilename_spec s :
  (simple_filename s /\ encodeFilename s = Ok (utf8_encode s)) \/
  (~ simple_filename s /\ encodeFilename s = Throw SimpleFilename).
Proof.
  unfold encodeFilename, simple_filename.
  destruct (Z.ltb_spec 0xffff (byteLength (utf8_encode s))); repeat case_bool_decide; simpl;
    (left; split; [|done]; by split_and!) || (right; split; [|done]; naive_solver lia).
Qed.

Lemma entry_mode_spec m :
  (default (Integer 384) m = Integer (mode_value m) /\ 0 <= mode_value m <= 511 /\ entry_mode m = Ok (mode_value m)) \/
  (~ (default (Integer 384) m = Integer (mode_value m) /\ 0 <= mode_value m <= 511) /\ entry_mode m = Throw EntryMode).
Proof.
  unfold entry_mode, mode_value. destruct (default (Integer 384) m) as [z|]; [|right; naive_solver].
  destruct (Z.ltb_spec z 0), (Z.ltb_spec 511 z); simpl; (left; split_and!; (done || lia)) || (right; split; [|done]; lia).
Qed.

Lemma add_entry_spec p e :
  (valid_entry e /\ name e ∉ names p /\
   add_entry p e = Ok {| localParts := localParts p ++ [local_of (entry_data e)];
                         centralParts := centralParts p ++ [central_of (localOffset p) (entry_data e)];
                         names := names p ++ [name e];
                         localOffset := localOffset p + byteLength (local_of (entry_data e)) |}) \/
  (~ (valid_entry e /\ name e ∉ names p) /\ exists err, add_entry p e = Throw err).
Proof.
  unfold add_entry, valid_entry.
  destruct (encodeFilename_spec (name e)) as [[Hn ->]|[Hn ->]]; simpl; [|right; split; [tauto|by eexists]].
  unfold set_has. case_bool_decide as Hin; [right; split; [tauto|by eexists]|].
  destruct (Z.ltb_spec 0xffffffff (byteLength (utf8_encode (content e)))) as [Hc|Hc]; [right; split; [lia|by eexists]|].
  destruct (entry_mode_spec (mode e)) as [(Hm & Hr & ->)|[Hm ->]]; simpl; [|right; split; [tauto|by eexists]].
  left. split; [done|]. split; [done|]. unfold set_add. by rewrite decide_False.
Qed.

(** What the loop makes of entries it accepts. *)
Definition added (p p' : Parts) (es : list ZipTextEntry) : Prop :=
  concat (localParts p') = concat (localParts p) ++ locals (entry_data <$> es) /\
  concat (centralParts p') = concat (centralParts p) ++ centrals (localOffset p) (entry_data <$> es).

Lemma add_entries_spec es p :
  (Forall valid_entry es /\ NoDup (names p ++ (name <$> es)) /\ exists p', add_entries p es = Ok p' /\ added p p' es) \/
  (~ (Forall valid_entry es /\ NoDup (names p ++ (name <$> es))) /\ exists err, add_entries p es = Throw err) \/
  ~ NoDup (names p).
Proof.
  revert p; induction es as [|e es IH]; intros p.
  { destruct (decide (NoDup (names p))) as [Hd|]; [left|by right; right]. rewrite app_nil_r.
    split_and!; [done..|]. exists p. split; [done|]. unfold added. simpl. by rewrite !app_nil_r. }
  cbn [add_entries]. destruct (add_entry_spec p e) as [(Hv & Hn & ->)|[Hno (err & ->)]]; simpl.
  - destruct (IH {| localParts := localParts p ++ [local_of (entry_data e)];
                    centralParts := centralParts p ++ [central_of (localOffset p) (entry_data e)];
                    names := names p ++ [name e];
                    localOffset := localOffset p + byteLength (local_of (entry_data e)) |})
      as [(HF & Hd & p' & -> & Hl & Hc)|[[Hno (err & ->)]|Hno]]; simpl in *.
    + left. rewrite <- app_assoc in Hd. split_and!; [by constructor|done|]. exists p'. split; [done|].
      unfold added, locals in *. rewrite Hl, Hc, !fmap_cons, !concat_app. cbn [concat centrals].
      by rewrite !app_nil_r, <- !app_assoc.
    + right; left. split; [|by eexists]. intros [HF Hd]. apply Hno. inversion HF; subst. by rewrite <- app_assoc.
    + right; right. intros Hd. apply Hno, NoDup_app. split_and!; [done| |apply NoDup_singleton].
      by intros x Hx ->%list_elem_of_singleton.
  - right; left. split; [|by eexists]. intros [HF Hd]. apply Hno. inversion HF; subst. split; [done|].
    apply NoDup_app in Hd as (_ & Hd & _). intros Hin. apply (Hd _ Hin). by left.
Qed.

(** Reading the three parts of an archive. *)
Lemma read_zip_parts entries p :
  Forall valid_entry entries -> Forall (fun e => Forall is_unit (content e)) entries ->
  Z.of_nat (length entries) <= 0xffff ->
  concat (localParts p) = locals (entry_data <$> entries) ->
  concat (centralParts p) = centrals 0 (entry_data <$> entries) ->
  let archive := concat (localParts p) ++ concat (centralParts p) ++
                 end_record (Z.of_nat (length entries)) (byteLength (concat (centralParts p))) (byteLength (concat (localParts p))) ++ [] in
  byteLength archive < 2 ^ 32 -> read_zip archive = Some (entry_data <$> entries).
Proof.
  intros HF Hu Hcount Hl Hc archive Hlt. unfold read_zip.
  assert (0 <= byteLength (concat (localParts p)) < 2 ^ 32 /\ 0 <= byteLength (concat (centralParts p)) < 2 ^ 32) as [H1 H2].
  { unfold archive, byteLength in *. rewrite !length_app in Hlt. lia. }
  assert (drop (length archive - 22) archive = end_record (Z.of_nat (length entries)) (byteLength (concat (centralParts p)))
            (byteLength (concat (localParts p)))) as ->.
  { unfold archive. rewrite app_nil_r, app_assoc. rewrite (length_app (_ ++ _)).
    replace (_ + _ - 22)%nat with (length (concat (localParts p) ++ concat (centralParts p))) by (simpl; lia).
    apply drop_app_length. }
  unfold end_record, join_bytes. cbn [concat]. read_fields. rewrite !Z.eqb_refl, bool_decide_eq_true_2 by done. cbn [andb expect].
  rewrite Nat2Z.id. unfold byteLength at 1. rewrite Nat2Z.id. unfold archive. rewrite drop_app_length, Hc, <- (length_fmap entry_data entries).
  apply (read_central_of _ _ 0 [] _ (concat (centralParts p) ++ end_record (Z.of_nat (length entries)) (byteLength (concat (centralParts p)))
            (byteLength (concat (localParts p))) ++ [])); [|done| |].
  - apply Forall_fmap, Forall_forall. intros e He. rewrite Forall_forall in HF. rewrite Forall_forall in Hu.
    destruct (HF e He) as ((_ & _ & _ & _ & _ & _ & Hn) & Hs & _ & Hm).
    split_and!; [done|done|by apply utf8_bytes, Hu|apply Hm..].
  - rewrite app_nil_l, <- Hl, <- Hc, length_fmap. done.
  - rewrite <- Hc, length_fmap. exact Hlt.
Qed.

(** C40: an archive is written exactly when there are between one and 65535
    entries with distinct simple names, contents below 4 GiB and permission
    bits for modes; and a reader of the format that starts at the end record
    and checks every header and checksum extracts the names, contents and
    modes it was given, as long as the archive is smaller than 4 GiB. *)
Theorem zip_roundtrip (entries : list ZipTextEntry) :
  Forall (fun e => Forall is_unit (content e)) entries ->
  (is_ok (createStoredZip entries) = true <->
   entries <> [] /\ Z.of_nat (length entries) <= 0xffff /\ Forall valid_entry entries /\ NoDup (name <$> entries)) /\
  (forall archive, createStoredZip entries = Ok archive -> byteLength archive < 2 ^ 32 ->
   read_zip archive = Some (entry_data <$> entries)).
Proof.
  intros Hu. unfold createStoredZip. set (p0 := Build_Parts _ _ _ _).
  case_bool_decide as Hne; simpl; [by split; [naive_solver|]|].
  destruct (Z.ltb_spec 0xffff (Z.of_nat (length entries))) as [Hcount|Hcount]; simpl; [by split; [naive_solver lia|]|].
  destruct (add_entries_spec entries p0) as [(HF & Hd & p' & -> & Hl & Hc)|[[Hno (err & ->)]|Hno]]; simpl in *.
  - split; [naive_solver|]. intros archive [= <-] Hlt. by apply read_zip_parts.
  - split; [naive_solver|done].
  - by destruct Hno; constructor.
Qed.

(** A bundle of one file. *)
Lemma zip_roundtrip_witness :
  let entries := [{| name := js "a.pem"; content := js "hello"; mode := None |}] in
  exists archive, createStoredZip entries = Ok archive /\
    read_zip archive = Some [{| x_name := js "a.pem"; x_content := js "hello"; x_mode := 384 |}].
Proof.
  intros entries. assert (Forall (fun e => Forall is_unit (content e)) entries) as Hu
    by (repeat constructor; unfold is_unit; simpl; lia).
  destruct (zip_roundtrip entries Hu) as [_ Hread].
  let a := eval vm_compute in (match createStoredZip entries with Ok a => a | Throw _ => [] end) in exists a.
  split; [by (vm_compute; reflexivity)|]. apply Hread; by (vm_compute; reflexivity).
Defined.
