(* ===== verification/JsonText.v ===== *)
(** * JsonText: [frontend/lib/json-text.ts], the console's JSON text tools.

    The tokenizer accepts any text and tiles it; the checker walks the tokens
    with a stack of open containers and reports the first problem; the
    formatter and the minifier copy every token and touch only white space.
    The scanners work on the text from the current index on and return how
    far they advance. The tokenizer runs on one unit of fuel per code unit, as
    every token has at least one. [inferNode], which reads a parsed value, is
    left out. *)
From stdpp Require Import prelude list strings.
From Stdlib Require Import ZArith Lia.
From S2P Require Import Prelude JsString Unicode Decimal LineDiff.

(** ** Tokens *)

Inductive TokenKind := KKey | KString | KNumber | KBoolean | KNull | KPunct | KWs | KError.
#[global] Instance TokenKind_eq_dec : EqDecision TokenKind.
Proof. solve_decision. Defined.

(** A slice of the text. *)
Record Token := { kind : TokenKind; start : nat; end_ : nat }.

Definition isHorizontalWs (c : Z) : bool := (c =? 32) || (c =? 9) || (c =? 13).
Definition isPunct (c : Z) : bool :=
  (c =? 123) || (c =? 125) || (c =? 91) || (c =? 93) || (c =? 44) || (c =? 58).
(** The end of the text is a stop: [charCodeAt] is [NaN] there. *)
Definition isStop (c : option Z) : bool :=
  match c with
  | None => true
  | Some c => (c =? 10) || isHorizontalWs c || (c =? 34) || isPunct c
  end.

Definition isHex (c : Z) : bool :=
  ((48 <=? c) && (c <=? 57)) || ((97 <=? c) && (c <=? 102)) || ((65 <=? c) && (c <=? 70)).

(** The length of the longest prefix of [s] whose units satisfy [f]. *)
Fixpoint run_of (f : Z -> bool) (s : jstr) : nat :=
  match s with
  | c :: s => if f c then S (run_of f s) else O
  | [] => O
  end.

(** [NUMBER_RE] at the start of [s]: the length of its match. *)
Definition match_fraction (s : jstr) : nat :=
  match s with
  | c :: s => if c =? 46 then match run_of is_digit s with O => O | S n => S (S n) end else O
  | [] => O
  end.
Definition match_exponent (s : jstr) : nat :=
  match s with
  | e :: s =>
      if (e =? 101) || (e =? 69) then
        let sign := match s with c :: _ => if (c =? 43) || (c =? 45) then 1%nat else 0%nat | [] => 0%nat end in
        match run_of is_digit (drop sign s) with O => O | S n => S (sign + S n) end
      else O
  | [] => O
  end.
Definition match_number (s : jstr) : option nat :=
  let minus := match s with c :: _ => if c =? 45 then 1%nat else 0%nat | [] => 0%nat end in
  match drop minus s with
  | c :: s' =>
      if is_digit c then
        let int := if c =? 48 then 1%nat else S (run_of is_digit s') in
        let rest := drop (minus + int) s in
        let frac := match_fraction rest in
        Some (minus + int + frac + match_exponent (drop frac rest))%nat
      else None
  | [] => None
  end.

(** The escape after a backslash: [s] starts at the escaped unit. *)
Definition escape_ok (s : jstr) : bool :=
  match s with
  | [] => false
  | c :: s => if c =? 117 then bool_decide (length (take 4 s) = 4%nat) && forallb isHex (take 4 s)
              else bool_decide (c ∈ [34; 92; 47; 98; 102; 110; 114; 116])
  end.

(** The loop over a string, from the unit after its quote; [j] counts what was
    passed. It yields where it stopped, and the flags [closed] and [valid]. *)
Fixpoint scan_string (s : jstr) (j : nat) (valid : bool) : nat * bool * bool :=
  match s with
  | [] => (j, false, valid)
  | d :: s1 =>
      if d =? 92 then
        let valid := valid && escape_ok s1 in
        match s1 with
        | [] => (S j, false, valid)
        | e :: s2 => if e =? 10 then scan_string s1 (S j) valid else scan_string s2 (S (S j)) valid
        end
      else
        let valid := valid && negb (d <? 32) in
        if d =? 10 then (j, false, valid)
        else if d =? 34 then (S j, true, valid)
        else scan_string s1 (S j) valid
  end.

(** A literal at the start of [s], with a stop after it. *)
Definition is_literal (w s : jstr) : bool := startsWith w s && isStop (s !! length w).

(** A bare word: up to the next delimiter, at least one unit. *)
Definition scan_word (s : jstr) : nat := S (run_of (fun c => negb (isStop (Some c))) (tail s)).

(** The branch of the loop for a text that starts with [c]: the kind of the
    token pushed and its length. *)
Definition scan (s : jstr) : TokenKind * nat :=
  match s with
  | [] => (KError, O)
  | c :: s' =>
      if c =? 10 then (KWs, 1%nat)
      else if isHorizontalWs c then (KWs, run_of isHorizontalWs s)
      else if c =? 34 then
        let '(j, closed, valid) := scan_string s' 1 true in
        (if closed && valid then KString else KError, j)
      else if isPunct c then (KPunct, 1%nat)
      else if (c =? 45) || is_digit c then
        match match_number s with
        | Some n => if isStop (s !! n) then (KNumber, n) else (KError, scan_word s)
        | None => (KError, scan_word s)
        end
      else if is_literal (js "true") s then (KBoolean, 4%nat)
      else if is_literal (js "null") s then (KNull, 4%nat)
      else if is_literal (js "false") s then (KBoolean, 5%nat)
      else (KError, scan_word s)
  end.

(** The tokens so far are kept last first: a colon turns the string before
    it, white space aside, into a key. *)
Fixpoint mark_key (rev_tokens : list Token) : list Token :=
  match rev_tokens with
  | [] => []
  | t :: ts =>
      if bool_decide (kind t = KWs) then t :: mark_key ts
      else if bool_decide (kind t = KString) then {| kind := KKey; start := start t; end_ := end_ t |} :: ts
      else t :: ts
  end.

Fixpoint tokenize_loop (fuel : nat) (s : jstr) (i : nat) (rev_tokens : list Token) : list Token :=
  match fuel with
  | O => rev_tokens
  | S fuel =>
      match s with
      | [] => rev_tokens
      | c :: _ =>
          let '(k, n) := scan s in
          let before := if (c =? 58) then mark_key rev_tokens else rev_tokens in
          tokenize_loop fuel (drop n s) (i + n) ({| kind := k; start := i; end_ := i + n |} :: before)
      end
  end.
Definition tokenizeJson (text : jstr) : list Token := reverse (tokenize_loop (length text) text 0 []).

Definition token_text (text : jstr) (t : Token) : jstr := take (end_ t - start t) (drop (start t) text).

(** ** Lines *)

Definition splitLines (text : jstr) (tokens : list Token) : list (list Token) :=
  let push lines t := match reverse lines with
                      | last :: before => reverse before ++ [last ++ [t]]
                      | [] => [[t]]
                      end in
  foldl (fun lines t =>
           if bool_decide (kind t = KWs) && bool_decide (end_ t - start t = 1)%nat && bool_decide (text !! start t = Some 10)
           then lines ++ [[]] else push lines t) [[]] tokens.

(** The loop over the units before the offset: line and where it starts. *)
Fixpoint line_loop (s : jstr) (i line lineStart : nat) : nat * nat :=
  match s with
  | [] => (line, lineStart)
  | c :: s => if c =? 10 then line_loop s (S i) (S line) (S i) else line_loop s (S i) line lineStart
  end.
Definition offsetToLineColumn (text : jstr) (offset : nat) : nat * nat :=
  let at_ := Nat.min offset (length text) in
  let '(line, lineStart) := line_loop (take at_ text) 0 1 0 in
  (line, at_ - lineStart + 1)%nat.
Definition lineCount (text : jstr) : nat := S (length (filter (fun c => c = 10) text)).

(** ** The checker *)

Inductive Expect := EValue | EKey | EColon | EMore | EEnd.
Inductive container := CObject | CArray.
#[global] Instance container_eq_dec : EqDecision container.
Proof. solve_decision. Defined.

Record JsonProblem := { offset : nat; line : nat; column : nat; message : jstr }.

Definition kind_text (k : TokenKind) : jstr :=
  js match k with
     | KKey => "key" | KString => "string" | KNumber => "number" | KBoolean => "boolean"
     | KNull => "null" | KPunct => "punct" | KWs => "ws" | KError => "error"
     end.

Definition quoted (s : jstr) : jstr := 34 :: s ++ [34].

Definition describeToken (text : jstr) (t : Token) : jstr :=
  match kind t with
  | KError =>
      let raw := token_text text t in
      if bool_decide (head raw = Some 34) then
        if bool_decide (last raw = Some 34) && (1 <? strlen raw)
        then js "Invalid string escape or control character" else js "Unterminated string"
      else js "Unexpected " ++ quoted (if 24 <? strlen raw then take 24 raw ++ [0x2026] else raw)
  | KPunct => js "Unexpected " ++ quoted (take 1 (drop (start t) text))
  | KKey => js "Unexpected string"
  | k => js "Unexpected " ++ kind_text k
  end.

(** [description.replace(/^Unexpected /, "")] *)
Definition drop_unexpected (s : jstr) : jstr :=
  if startsWith (js "Unexpected ") s then drop 11 s else s.

Definition problem (text : jstr) (offset : nat) (message : jstr) : JsonProblem :=
  let '(l, c) := offsetToLineColumn text offset in
  {| offset := offset; line := l; column := c; message := message |}.

Definition afterValue (stack : list container) : Expect := match stack with [] => EEnd | _ => EMore end.

(** What a token does in a state: the problem it is, or the next state. *)
Definition check_token (text : jstr) (t : Token) (stack : list container) (expect : Expect) (afterComma : bool)
    : (jstr + list container * Expect * bool) :=
  let c := default 0 (text !! start t) in
  let char := take 1 (drop (start t) text) in
  match expect with
  | EEnd => inl (js "Unexpected content after the JSON value")
  | _ =>
      if bool_decide (kind t = KError) then inl (describeToken text t)
      else match expect with
      | EValue =>
          if bool_decide (kind t = KPunct) then
            if c =? 123 then inr (CObject :: stack, EKey, false)
            else if c =? 91 then inr (CArray :: stack, EValue, false)
            else if (c =? 93) && bool_decide (head stack = Some CArray) then
              if afterComma then inl (js "Trailing comma before " ++ quoted (js "]"))
              else inr (tail stack, afterValue (tail stack), false)
            else inl (js "Expected a value, got " ++ quoted char)
          else inr (stack, afterValue stack, false)
      | EKey =>
          if bool_decide (kind t = KPunct) && (c =? 125) then
            if afterComma then inl (js "Trailing comma before " ++ quoted (js "}"))
            else inr (tail stack, afterValue (tail stack), false)
          else if bool_decide (kind t = KKey) || bool_decide (kind t = KString) then inr (stack, EColon, false)
          else inl (js "Expected a property name in double quotes")
      | EColon =>
          if bool_decide (kind t = KPunct) && (c =? 58) then inr (stack, EValue, afterComma)
          else inl (js "Expected " ++ quoted (js ":") ++ js " after the property name")
      | _ =>
          let in_object := bool_decide (head stack = Some CObject) in
          let fail := inl (js "Expected " ++ quoted (js ",") ++ js " or " ++ quoted (js (if in_object then "}" else "]"))
                           ++ js ", got " ++ drop_unexpected (describeToken text t)) in
          if bool_decide (kind t = KPunct) then
            if c =? 44 then inr (stack, if in_object then EKey else EValue, true)
            else if ((c =? 125) && in_object) || ((c =? 93) && bool_decide (head stack = Some CArray))
            then inr (tail stack, afterValue (tail stack), afterComma)
            else fail
          else fail
      end
  end.

Fixpoint check_loop (text : jstr) (tokens : list Token) (stack : list container) (expect : Expect) (afterComma : bool)
    : option JsonProblem :=
  match tokens with
  | [] =>
      match expect with
      | EEnd => None
      | EValue => match stack with
                  | [] => Some (problem text (length text) (js "Expected a JSON value"))
                  | _ => Some (problem text (length text) (js "Unexpected end of input"))
                  end
      | _ => Some (problem text (length text) (js "Unexpected end of input"))
      end
  | t :: tokens =>
      if bool_decide (kind t = KWs) then check_loop text tokens stack expect afterComma
      else match check_token text t stack expect afterComma with
      | inl message => Some (problem text (start t) message)
      | inr (stack, expect, afterComma) => check_loop text tokens stack expect afterComma
      end
  end.
Definition checkJson (text : jstr) : option JsonProblem := check_loop text (tokenizeJson text) [] EValue false.

(** ** Formatting *)

Definition pad (indent : option jstr) (level : nat) : jstr :=
  match indent with None => [] | Some s => 10 :: concat (replicate level s) end.

(** The loop over the tokens that are not white space. *)
Fixpoint reemit_loop (text : jstr) (indent : option jstr) (depth : nat) (tokens : list Token) : jstr :=
  match tokens with
  | [] => []
  | t :: ts =>
      let raw := token_text text t in
      let c := default 0 (text !! start t) in
      if negb (bool_decide (kind t = KPunct)) then raw ++ reemit_loop text indent depth ts
      else if (c =? 123) || (c =? 91) then
        let closer := if c =? 123 then 125 else 93 in
        match ts with
        | next :: ts' =>
            if bool_decide (kind next = KPunct) && bool_decide (text !! start next = Some closer)
            then raw ++ token_text text next ++ reemit_loop text indent depth ts'
            else raw ++ pad indent (S depth) ++ reemit_loop text indent (S depth) ts
        | [] => raw ++ pad indent (S depth) ++ reemit_loop text indent (S depth) ts
        end
      else if (c =? 125) || (c =? 93) then pad indent (depth - 1) ++ raw ++ reemit_loop text indent (depth - 1) ts
      else if c =? 44 then js "," ++ pad indent depth ++ reemit_loop text indent depth ts
      else (match indent with None => js ":" | Some _ => js ": " end) ++ reemit_loop text indent depth ts
  end.

Definition reemit (text : jstr) (indent : option jstr) : option jstr :=
  match checkJson text with
  | Some _ => None
  | None => Some (reemit_loop text indent 0 (filter (fun t => kind t <> KWs) (tokenizeJson text)))
  end.

Definition formatJson (text : jstr) : option jstr := reemit text (Some (js "  ")).
Definition minifyJson (text : jstr) : option jstr := reemit text None.

Definition jsonEquivalent (a b : jstr) : bool :=
  match minifyJson a with
  | None => false
  | Some left => match minifyJson b with Some right => bool_decide (left = right) | None => false end
  end.

Definition canonicalParameterValue (value contentType : jstr) : jstr :=
  if negb (bool_decide (contentType = js "json")) then value else default value (minifyJson value).

Definition valuesEquivalent (next current contentType : jstr) : bool :=
  bool_decide (next = current) || (bool_decide (contentType = js "json") && jsonEquivalent next current).

Definition overHighlightCap (text : jstr) : bool := HIGHLIGHT_MAX_BYTES <? byteLength text.
