(* ===== verification/JsonTextProofs.v ===== *)
(** * JsonTextProofs: the tokens tile the text, the checker accepts exactly
    the JSON grammar, and formatting changes nothing but white space.

    The proofs go through the items of a text, its tokens as pairs of a kind
    and the raw text with keys read as strings, which is all that the checker
    and the formatter look at. *)
From stdpp Require Import prelude list strings.
From Stdlib Require Import ZArith Lia.
From S2P Require Import Prelude JsString Unicode Decimal LineDiff JsonText.

(** ** Scanning advances, within the text *)

Lemma run_of_le f s : (run_of f s <= length s)%nat.
Proof. induction s as [|c s IH]; simpl; [done|]. destruct (f c); simpl; lia. Qed.

Lemma scan_string_cons d s1 j valid :
  scan_string (d :: s1) j valid =
  if d =? 92 then
    match s1 with
    | [] => (S j, false, valid && escape_ok s1)
    | e :: s2 => if e =? 10 then scan_string s1 (S j) (valid && escape_ok s1)
                 else scan_string s2 (S (S j)) (valid && escape_ok s1)
    end
  else if d =? 10 then (j, false, valid && negb (d <? 32))
  else if d =? 34 then (S j, true, valid && negb (d <? 32))
  else scan_string s1 (S j) (valid && negb (d <? 32)).
Proof. destruct s1; reflexivity. Qed.

Lemma scan_string_range s j valid :
  (j <= (scan_string s j valid).1.1 <= j + length s)%nat.
Proof.
  revert j valid. induction s as [s IH] using (induction_ltof1 _ (@length Z)). intros j valid. unfold ltof in IH.
  destruct s as [|d s1]; [simpl; lia|]. rewrite scan_string_cons. cbn [length] in *. case_match.
  - destruct s1 as [|e s2]; [simpl; lia|]. case_match.
    + pose proof (IH (e :: s2) ltac:(simpl; lia) (S j) (valid && escape_ok (e :: s2))). lia.
    + pose proof (IH s2 ltac:(simpl; lia) (S (S j)) (valid && escape_ok (e :: s2))). simpl length. lia.
  - case_match; [simpl; lia|]. case_match; [simpl; lia|].
    pose proof (IH s1 ltac:(lia) (S j) (valid && negb (d <? 32))). lia.
Qed.

Lemma match_fraction_le s : (match_fraction s <= length s)%nat.
Proof.
  unfold match_fraction. destruct s as [|c s]; [done|].
  pose proof (run_of_le is_digit s). repeat case_match; simpl in *; lia.
Qed.
Lemma match_exponent_le s : (match_exponent s <= length s)%nat.
Proof.
  unfold match_exponent. destruct s as [|c s]; [done|]. case_match; [|lia].
  set (sign := match s with [] => _ | _ => _ end). pose proof (run_of_le is_digit (drop sign s)) as Hr.
  rewrite length_drop in Hr. case_match; simpl; lia.
Qed.

Lemma match_number_range s n : match_number s = Some n -> (1 <= n <= length s)%nat.
Proof.
  unfold match_number. set (m := match s with c :: _ => _ | [] => _ end).
  assert (m <= 1)%nat by (unfold m; repeat case_match; lia).
  destruct (drop m s) as [|c s'] eqn:E; [done|]. destruct (is_digit c); [|done]. intros [= <-].
  pose proof (f_equal length E) as Hl. rewrite length_drop in Hl. simpl in Hl.
  set (int := if c =? 48 then 1%nat else _).
  assert (1 <= int <= S (length s'))%nat by (unfold int; pose proof (run_of_le is_digit s'); case_match; lia).
  pose proof (match_fraction_le (drop (m + int) s)) as Hf.
  pose proof (match_exponent_le (drop (match_fraction (drop (m + int) s)) (drop (m + int) s))) as He.
  rewrite !length_drop in *. lia.
Qed.

Lemma scan_word_range c s : (1 <= scan_word (c :: s) <= length (c :: s))%nat.
Proof. unfold scan_word. cbn [tail length]. pose proof (run_of_le (fun c => negb (isStop (Some c))) s). lia. Qed.

Lemma is_literal_length w s : is_literal w s = true -> (length w <= length s)%nat.
Proof.
  unfold is_literal, startsWith. intros [H _]%andb_prop. bool_prop.
  apply (f_equal length) in H. rewrite length_take in H. lia.
Qed.

Lemma scan_range c s : (1 <= (scan (c :: s)).2 <= length (c :: s))%nat.
Proof.
  unfold scan. pose proof (scan_word_range c s) as Hw.
  case_match; [simpl; lia|]. case_match; [simpl in *|].
  { rewrite H0. pose proof (run_of_le isHorizontalWs s). simpl. lia. }
  case_match.
  { pose proof (scan_string_range s 1 true) as Hs. destruct (scan_string s 1 true) as [[j cl] v]. simpl in *. lia. }
  case_match; [simpl; lia|]. case_match.
  { destruct (match_number (c :: s)) as [n|] eqn:E; [|done]. apply match_number_range in E. by case_match. }
  repeat (case_match; [by match goal with H : is_literal _ _ = true |- _ => apply is_literal_length in H; simpl in *; lia end|]).
  done.
Qed.

#[local] Arguments scan : simpl never.

(** ** Items *)

Notation item := (TokenKind * jstr)%type.

(** Keys are strings. *)
Definition erase (k : TokenKind) : TokenKind := match k with KKey => KString | k => k end.

Fixpoint lex (fuel : nat) (s : jstr) : list item :=
  match fuel, s with
  | S fuel, _ :: _ => ((scan s).1, take (scan s).2 s) :: lex fuel (drop (scan s).2 s)
  | _, _ => []
  end.
Definition items (s : jstr) : list item := lex (length s) s.

Lemma lex_fuel fuel fuel' s : (length s <= fuel)%nat -> (length s <= fuel')%nat -> lex fuel s = lex fuel' s.
Proof.
  revert fuel' s; induction fuel as [|fuel IH]; intros [|fuel'] [|c s] H H'; try done; try (simpl in *; lia).
  cbn [lex]. f_equal. pose proof (scan_range c s). apply IH; rewrite length_drop; simpl in *; lia.
Qed.

Lemma items_cons c s :
  items (c :: s) = ((scan (c :: s)).1, take (scan (c :: s)).2 (c :: s)) :: items (drop (scan (c :: s)).2 (c :: s)).
Proof.
  unfold items. cbn [length lex]. f_equal. pose proof (scan_range c s).
  apply lex_fuel; rewrite ?length_drop; simpl in *; lia.
Qed.

(** Induction on a text item by item. *)
Lemma items_ind (P : jstr -> Prop) :
  P [] -> (forall c s, P (drop (scan (c :: s)).2 (c :: s)) -> P (c :: s)) -> forall s, P s.
Proof.
  intros Hnil Hcons s. induction s as [s IH] using (induction_ltof1 _ length). unfold ltof in IH.
  destruct s as [|c s]; [done|]. apply Hcons, IH. pose proof (scan_range c s). rewrite length_drop. lia.
Qed.

Lemma items_tile s : concat (snd <$> items s) = s.
Proof.
  induction s as [|c s IH] using items_ind; [done|]. rewrite items_cons, fmap_cons. cbn [concat snd].
  rewrite IH. apply take_drop.
Qed.

Lemma items_nonempty s : Forall (fun x => x.2 <> []) (items s).
Proof.
  induction s as [|c s IH] using items_ind; [constructor|]. rewrite items_cons. constructor; [|done].
  pose proof (scan_range c s). intros E. apply (f_equal length) in E. simpl snd in E. rewrite length_take in E.
  simpl in *. lia.
Qed.

(** ** The tokens of a text are its items *)

Definition view (text : jstr) (t : Token) : item := (kind t, token_text text t).
Definition erase_item (x : item) : item := (erase x.1, x.2).
Definition well_placed (text : jstr) (t : Token) : Prop := (start t < end_ t <= length text)%nat.

Lemma mark_key_view text ts :
  erase_item <$> (view text <$> mark_key ts) = erase_item <$> (view text <$> ts).
Proof.
  induction ts as [|t ts IH]; [done|]. simpl. case_bool_decide; simpl; [by f_equal|].
  case_bool_decide as Hk; [|done]. unfold view, erase_item, token_text. simpl. by rewrite Hk.
Qed.
Lemma mark_key_placed text ts : Forall (well_placed text) ts -> Forall (well_placed text) (mark_key ts).
Proof.
  induction 1 as [|t ts Ht HF IH]; [constructor|]. simpl. case_bool_decide; [by constructor|].
  case_bool_decide; by constructor.
Qed.

Lemma scan_erase c s : erase (scan (c :: s)).1 = (scan (c :: s)).1.
Proof. unfold scan. repeat (case_match; simpl; try done). Qed.

Lemma tokenize_loop_view text fuel pre s ts :
  text = pre ++ s -> (length s <= fuel)%nat -> Forall (well_placed text) ts ->
  let r := tokenize_loop fuel s (length pre) ts in
  erase_item <$> (view text <$> reverse r) = (erase_item <$> (view text <$> reverse ts)) ++ items s /\
  Forall (well_placed text) r.
Proof.
  intros ->. revert fuel pre ts. induction s as [|c s IH] using items_ind; intros fuel pre ts Hf HF.
  { replace (tokenize_loop fuel [] (length pre) ts) with ts by by destruct fuel. split; [|done]. change (items []) with (@nil item). by rewrite !app_nil_r. }
  destruct fuel as [|fuel]; [simpl in Hf; lia|]. cbn [tokenize_loop]. pose proof (scan_range c s) as Hr.
  pose proof (scan_erase c s) as He. rewrite items_cons. destruct (scan (c :: s)) as [k n] eqn:Hs. simpl fst in *. simpl snd in *.
  set (before := if c =? 58 then mark_key ts else ts).
  set (t := {| kind := k; start := length pre; end_ := length pre + n |}).
  assert (pre ++ c :: s = (pre ++ take n (c :: s)) ++ drop n (c :: s)) as Hsplit by by rewrite <- app_assoc, take_drop.
  assert (length (pre ++ take n (c :: s)) = (length pre + n)%nat) as Hlen by (rewrite length_app, length_take; lia).
  specialize (IH fuel (pre ++ take n (c :: s)) (t :: before)). rewrite <- Hsplit, Hlen in IH.
  destruct IH as [E HF'].
  - rewrite length_drop. simpl in *. lia.
  - constructor; [unfold well_placed, t; simpl start; simpl end_; rewrite length_app; lia|].
    unfold before. case_match; [by apply mark_key_placed|done].
  - split; [|done]. rewrite E. rewrite reverse_cons, !fmap_app, <- app_assoc. cbn [fmap list_fmap app].
    f_equal.
    + rewrite !fmap_reverse. f_equal. unfold before. case_match; [apply mark_key_view|done].
    + f_equal. unfold view, erase_item, token_text, t. simpl. rewrite He. f_equal.
      replace (length pre + n - length pre)%nat with n by lia. by rewrite drop_app_length.
Qed.

Lemma tokens_items text : erase_item <$> (view text <$> tokenizeJson text) = items text.
Proof.
  pose proof (tokenize_loop_view text (length text) [] text [] eq_refl ltac:(lia) ltac:(constructor)) as [E _]. exact E.
Qed.

Lemma tokens_placed text : Forall (well_placed text) (tokenizeJson text).
Proof.
  pose proof (tokenize_loop_view text (length text) [] text [] eq_refl ltac:(lia) ltac:(constructor)) as [_ HF].
  by apply Forall_reverse.
Qed.

(** Where items start and end when the first starts at [i]. *)
Fixpoint cuts (i : nat) (xs : list item) : list (nat * nat) :=
  match xs with
  | [] => []
  | x :: xs => (i, i + length x.2)%nat :: cuts (i + length x.2) xs
  end.
Definition span (t : Token) : nat * nat := (start t, end_ t).

Lemma mark_key_span ts : span <$> mark_key ts = span <$> ts.
Proof.
  induction ts as [|t ts IH]; [done|]. simpl. case_bool_decide; simpl; [by f_equal|]. by case_bool_decide.
Qed.

Lemma tokenize_loop_span fuel s i ts :
  (length s <= fuel)%nat -> span <$> reverse (tokenize_loop fuel s i ts) = (span <$> reverse ts) ++ cuts i (items s).
Proof.
  revert fuel i ts. induction s as [|c s IH] using items_ind; intros fuel i ts Hf.
  { replace (tokenize_loop fuel [] i ts) with ts by by destruct fuel. change (items []) with (@nil item). by rewrite app_nil_r. }
  destruct fuel as [|fuel]; [simpl in Hf; lia|]. cbn [tokenize_loop]. pose proof (scan_range c s) as Hr.
  rewrite items_cons. destruct (scan (c :: s)) as [k n]. simpl fst in *. simpl snd in *.
  rewrite IH by (rewrite length_drop; simpl in *; lia). cbn [cuts snd]. rewrite length_take, Nat.min_l by lia.
  rewrite reverse_cons, fmap_app, <- app_assoc. cbn [fmap list_fmap app]. f_equal.
  rewrite !fmap_reverse. f_equal. case_match; [apply mark_key_span|done].
Qed.

(** Contiguous slices from [i] to [n]. *)
Fixpoint tiling (i : nat) (ts : list Token) (n : nat) : Prop :=
  match ts with
  | [] => i = n
  | t :: ts => start t = i /\ (i < end_ t)%nat /\ tiling (end_ t) ts n
  end.

Lemma cuts_tiling i xs ts :
  Forall (fun x => x.2 <> []) xs -> span <$> ts = cuts i xs -> tiling i ts (i + length (concat (snd <$> xs))).
Proof.
  intros HF. revert i ts; induction HF as [|[k raw] xs Hx HF IH]; intros i [|t ts] E; try done; simpl in *; [lia|].
  injection E as E1 E2 E3. rewrite length_app. split_and!; [done| |].
  - destruct raw; [done|]. simpl in *. lia.
  - rewrite E2, Nat.add_assoc.
    by apply IH.
Qed.

(** ** The grammar *)

(** What the checker sees of an item. *)
Inductive symbol := Open (c : container) | Close (c : container) | Comma | Colon | Str | Atom | Bad.

Definition punct_symbol (raw : jstr) : symbol :=
  let c := default 0 (head raw) in
  if c =? 123 then Open CObject else if c =? 125 then Close CObject
  else if c =? 91 then Open CArray else if c =? 93 then Close CArray
  else if c =? 44 then Comma else if c =? 58 then Colon else Bad.
Definition symbol_of (x : item) : symbol :=
  match x.1 with
  | KPunct => punct_symbol x.2
  | KString | KKey => Str
  | KNumber | KBoolean | KNull => Atom
  | _ => Bad
  end.

(** A JSON value as a sequence of symbols: one or more members or elements
    between the brackets of a container that is not empty. *)
Inductive value : list symbol -> Prop :=
| v_atom : value [Atom]
| v_string : value [Str]
| v_object0 : value [Open CObject; Close CObject]
| v_array0 : value [Open CArray; Close CArray]
| v_object ms : members ms -> value (Open CObject :: ms ++ [Close CObject])
| v_array es : elements es -> value (Open CArray :: es ++ [Close CArray])
with members : list symbol -> Prop :=
| m_one v : value v -> members (Str :: Colon :: v)
| m_more v ms : value v -> members ms -> members (Str :: Colon :: v ++ Comma :: ms)
with elements : list symbol -> Prop :=
| e_one v : value v -> elements v
| e_more v es : value v -> elements es -> elements (v ++ Comma :: es).

Scheme value_mind := Minimality for value Sort Prop
with members_mind := Minimality for members Sort Prop
with elements_mind := Minimality for elements Sort Prop.
Combined Scheme value_mutind from value_mind, members_mind, elements_mind.

(** The checker over symbols. *)
Notation state := (list container * Expect * bool)%type.
Definition sym_step (x : symbol) (st : state) : option state :=
  let '(stack, expect, ac) := st in
  match expect, x with
  | EValue, Open c => Some (c :: stack, match c with CObject => EKey | CArray => EValue end, false)
  | EValue, Close CArray =>
      if bool_decide (head stack = Some CArray) && negb ac then Some (tail stack, afterValue (tail stack), false) else None
  | EValue, (Str | Atom) => Some (stack, afterValue stack, false)
  | EKey, Close CObject => if negb ac then Some (tail stack, afterValue (tail stack), false) else None
  | EKey, Str => Some (stack, EColon, false)
  | EColon, Colon => Some (stack, EValue, ac)
  | EMore, Comma => Some (stack, if bool_decide (head stack = Some CObject) then EKey else EValue, true)
  | EMore, Close c => if bool_decide (head stack = Some c) then Some (tail stack, afterValue (tail stack), ac) else None
  | _, _ => None
  end.
Fixpoint sym_run (xs : list symbol) (st : state) : option state :=
  match xs with
  | [] => Some st
  | x :: xs => match sym_step x st with Some st => sym_run xs st | None => None end
  end.
Definition accepts (xs : list symbol) (st : state) : bool :=
  match sym_run xs st with Some (_, EEnd, _) => true | _ => false end.

#[local] Arguments accepts : simpl never.

Lemma accepts_cons x xs st :
  accepts (x :: xs) st = match sym_step x st with Some st => accepts xs st | None => false end.
Proof. unfold accepts. simpl. by destruct (sym_step x st). Qed.

Lemma accepts_nil st : accepts [] st = true -> st.1.2 = EEnd.
Proof. unfold accepts. simpl. destruct st as [[s []] b]; done. Qed.

(** Completeness: what the grammar derives is read as one value. *)
Lemma grammar_accepted :
  (forall v, value v -> forall rest stack ac,
     accepts (v ++ rest) (stack, EValue, ac) = accepts rest (stack, afterValue stack, false)) /\
  (forall ms, members ms -> forall rest stack ac,
     accepts (ms ++ Close CObject :: rest) (CObject :: stack, EKey, ac) = accepts rest (stack, afterValue stack, false)) /\
  (forall es, elements es -> forall rest stack ac,
     accepts (es ++ Close CArray :: rest) (CArray :: stack, EValue, ac) = accepts rest (stack, afterValue stack, false)).
Proof.
  apply value_mutind; try done.
  - intros ms Hms IH rest stack ac. simpl app. rewrite accepts_cons, <- app_assoc. apply IH.
  - intros es Hes IH rest stack ac. simpl app. rewrite accepts_cons, <- app_assoc. apply IH.
  - intros v Hv IH rest stack ac.
    simpl app. do 2 (rewrite accepts_cons; simpl). rewrite IH. by rewrite accepts_cons.
  - intros v ms Hv IH Hms IHm rest stack ac. simpl app. do 2 (rewrite accepts_cons; simpl). rewrite <- app_assoc, IH. simpl app.
    rewrite accepts_cons. apply IHm.
  - intros v Hv IH rest stack ac. rewrite IH. by rewrite accepts_cons.
  - intros v es Hv IH Hes IHe rest stack ac. rewrite <- app_assoc, IH. simpl app. rewrite accepts_cons. apply IHe.
Qed.

(** Soundness, for texts of at most [n] symbols. *)
Definition sound_value (n : nat) : Prop := forall xs stack ac, (length xs <= n)%nat ->
  accepts xs (stack, EValue, ac) = true ->
  (exists v rest, xs = v ++ rest /\ v <> [] /\ value v /\ accepts rest (stack, afterValue stack, false) = true) \/
  (exists rest, xs = Close CArray :: rest /\ ac = false /\ head stack = Some CArray /\
                accepts rest (tail stack, afterValue (tail stack), false) = true).
Definition sound_members (n : nat) : Prop := forall xs stack ac, (length xs <= n)%nat ->
  accepts xs (CObject :: stack, EKey, ac) = true ->
  (exists ms rest, xs = ms ++ Close CObject :: rest /\ members ms /\ accepts rest (stack, afterValue stack, false) = true) \/
  (exists rest, xs = Close CObject :: rest /\ ac = false /\ accepts rest (stack, afterValue stack, false) = true).
Definition sound_elements (n : nat) : Prop := forall xs stack ac, (length xs <= n)%nat ->
  accepts xs (CArray :: stack, EValue, ac) = true ->
  (exists es rest, xs = es ++ Close CArray :: rest /\ elements es /\ accepts rest (stack, afterValue stack, false) = true) \/
  (exists rest, xs = Close CArray :: rest /\ ac = false /\ accepts rest (stack, afterValue stack, false) = true).

(** After a value inside a container: its closer, or a comma and more. *)
Lemma accepts_more xs c stack :
  accepts xs (c :: stack, EMore, false) = true ->
  (exists rest, xs = Close c :: rest /\ accepts rest (stack, afterValue stack, false) = true) \/
  (exists rest, xs = Comma :: rest /\
     accepts rest (c :: stack, match c with CObject => EKey | CArray => EValue end, true) = true).
Proof.
  destruct xs as [|x xs]; [done|]. rewrite accepts_cons. simpl.
  destruct x as [|c'| | | | |]; simpl; try done.
  - case_bool_decide as Hc; [|done]. injection Hc as ->. intros H. left. by eexists.
  - intros H. right. exists xs. split; [done|]. by destruct c.
Qed.

Lemma elements_of_values n : sound_value n -> (forall m, (m < n)%nat -> sound_elements m) -> sound_elements n.
Proof.
  intros Hv He xs stack ac Hl H. destruct (Hv xs _ ac Hl H) as [(v & rest & -> & Hne & Hval & Hr)|(rest & -> & -> & _ & Hr)].
  2: { right. by eexists. }
  left. destruct (accepts_more _ _ _ Hr) as [(rest' & -> & Hr')|(rest' & -> & Hr')].
  { exists v, rest'. split_and!; [done|by apply e_one|done]. }
  rewrite length_app in Hl. simpl in Hl. destruct v as [|x v]; [done|]. simpl in Hl.
  destruct (He (length rest') ltac:(lia) rest' stack true ltac:(lia) Hr') as [(es & rest & -> & Hes & Hr'')|(? & _ & ? & _)]; [|done].
  exists ((x :: v) ++ Comma :: es), rest. split_and!; [by rewrite <- app_assoc|by apply e_more|done].
Qed.

Lemma members_of_values n : (forall m, (m < n)%nat -> sound_value m /\ sound_members m) -> sound_members n.
Proof.
  intros Hv xs stack ac Hl H. destruct xs as [|x xs]; [done|]. rewrite accepts_cons in H. simpl in Hl.
  destruct x as [|c| | | | |]; simpl in H; try done.
  { destruct c; [|done]. destruct ac; [done|]. simpl in H. right. by eexists. }
  destruct xs as [|y xs]; [done|]. rewrite accepts_cons in H. destruct y; simpl in H; try done. simpl in Hl.
  destruct (Hv (length xs) ltac:(lia)) as [Hval _].
  destruct (Hval xs _ false ltac:(lia) H) as [(v & rest & -> & Hne & Hv' & Hr)|(rest & -> & _ & ? & _)]; [|done].
  left. destruct (accepts_more _ _ _ Hr) as [(rest' & -> & Hr')|(rest' & -> & Hr')].
  { exists (Str :: Colon :: v), rest'. split_and!; [done|by apply m_one|done]. }
  rewrite length_app in Hl. simpl in Hl. destruct (Hv (length rest') ltac:(lia)) as [_ Hm].
  destruct (Hm rest' stack true ltac:(lia) Hr') as [(ms & rest & -> & Hms & Hr'')|(? & _ & ? & _)]; [|done].
  exists (Str :: Colon :: v ++ Comma :: ms), rest. split_and!; [by rewrite !app_comm_cons, <- app_assoc|by apply m_more|done].
Qed.

Lemma value_of_parts n : (forall m, (m < n)%nat -> sound_members m /\ sound_elements m) -> sound_value n.
Proof.
  intros IH xs stack ac Hl H. destruct xs as [|x xs]; [done|]. rewrite accepts_cons in H. simpl in Hl.
  destruct x as [[|]|[|]| | | | |]; simpl in H; try done.
  - destruct (IH (length xs) ltac:(lia)) as [Hm _].
    destruct (Hm xs stack false ltac:(lia) H) as [(ms & rest & -> & Hms & Hr)|(rest & -> & _ & Hr)]; left.
    + exists (Open CObject :: ms ++ [Close CObject]), rest. split_and!; [simpl; by rewrite <- app_assoc|done|by apply v_object|done].
    + exists [Open CObject; Close CObject], rest. split_and!; [done|done|apply v_object0|done].
  - destruct (IH (length xs) ltac:(lia)) as [_ He].
    destruct (He xs stack false ltac:(lia) H) as [(es & rest & -> & Hes & Hr)|(rest & -> & _ & Hr)]; left.
    + exists (Open CArray :: es ++ [Close CArray]), rest. split_and!; [simpl; by rewrite <- app_assoc|done|by apply v_array|done].
    + exists [Open CArray; Close CArray], rest. split_and!; [done|done|apply v_array0|done].
  - case_bool_decide as Hs; [|done]. destruct ac; [done|]. simpl in H. right. by eexists.
  - left. exists [Str], xs. split_and!; [done|done|apply v_string|done].
  - left. exists [Atom], xs. split_and!; [done|done|apply v_atom|done].
Qed.

Lemma sound_all n : sound_value n /\ sound_members n /\ sound_elements n.
Proof.
  induction n as [n IH] using lt_wf_ind.
  assert (sound_value n) as Hv by (apply value_of_parts; intros m Hm; destruct (IH m Hm) as (_ & ? & ?); done).
  split_and!; [done| |].
  - apply members_of_values. intros m Hm. destruct (IH m Hm) as (? & ? & _). done.
  - apply elements_of_values; [done|]. intros m Hm. by destruct (IH m Hm) as (_ & _ & ?).
Qed.

Lemma accepts_grammar xs : accepts xs ([], EValue, false) = true <-> value xs.
Proof.
  split.
  - intros H. destruct (sound_all (length xs)) as [Hv _].
    destruct (Hv xs [] false ltac:(lia) H) as [(v & rest & -> & _ & Hval & Hr)|(rest & _ & _ & ? & _)]; [|done].
    destruct rest as [|x rest]; [by rewrite app_nil_r|]. rewrite accepts_cons in Hr. by destruct x.
  - intros H. destruct grammar_accepted as [Hv _]. specialize (Hv xs H [] [] false). by rewrite app_nil_r in Hv.
Qed.

(** ** The checker is the grammar *)

Definition solid (x : item) : Prop := x.1 <> KWs.
#[local] Instance solid_dec x : Decision (solid x).
Proof. unfold solid. apply _. Defined.
Definition solids (s : jstr) : list item := filter solid (items s).

Lemma token_head text t : well_placed text t -> text !! start t = head (token_text text t).
Proof.
  unfold well_placed, token_text. intros H. rewrite <- (take_drop (start t) text) at 1.
  rewrite lookup_app_r by (rewrite length_take; lia). rewrite length_take, Nat.min_l, Nat.sub_diag by lia.
  replace (end_ t - start t)%nat with (S (end_ t - start t - 1)) by lia.
  by destruct (drop (start t) text).
Qed.

(** A token that is not white space steps the checker as its symbol does. *)
Lemma check_token_symbol text t stack expect ac :
  well_placed text t -> kind t <> KWs ->
  match check_token text t stack expect ac with
  | inl _ => sym_step (symbol_of (erase_item (view text t))) (stack, expect, ac) = None
  | inr st => sym_step (symbol_of (erase_item (view text t))) (stack, expect, ac) = Some st
  end.
Proof.
  intros Hp Hk. unfold check_token, symbol_of, erase_item, view. rewrite (token_head text t Hp). simpl.
  unfold punct_symbol. set (c := default 0 (head (token_text text t))). clearbody c.
  destruct (kind t); try done; destruct expect; simpl; try done.
  all: repeat (match goal with |- context [?x =? ?n] => is_var x; destruct (Z.eqb_spec x n); [subst x|] end; simpl; try done).
  all: repeat case_bool_decide; simpl; try done; destruct ac; done.
Qed.

Lemma check_loop_accepts text ts stack expect ac :
  Forall (well_placed text) ts ->
  check_loop text ts stack expect ac = None <->
  accepts (symbol_of <$> filter solid (erase_item <$> (view text <$> ts))) (stack, expect, ac) = true.
Proof.
  intros HF. revert stack expect ac; induction HF as [|t ts Ht HF IH]; intros stack expect ac.
  { simpl. destruct expect, stack; done. }
  rewrite !fmap_cons, filter_cons. cbn [check_loop]. case_bool_decide as Hk.
  { rewrite decide_False; [apply IH|]. unfold solid. simpl. rewrite Hk. intros H. by apply H. }
  rewrite decide_True.
  2: { unfold solid. simpl. intros E. apply Hk. by destruct (kind t). }
  rewrite fmap_cons, accepts_cons. pose proof (check_token_symbol text t stack expect ac Ht Hk) as Hc.
  destruct (check_token text t stack expect ac) as [m|[[stack' expect'] ac']]; rewrite Hc; [done|apply IH].
Qed.

Lemma checkJson_accepts text :
  checkJson text = None <-> accepts (symbol_of <$> solids text) ([], EValue, false) = true.
Proof. unfold checkJson, solids. rewrite <- tokens_items. apply check_loop_accepts, tokens_placed. Qed.

(** ** Items read again in another place *)

(** What may follow a number, a literal or a word: a delimiter or the end. *)
Definition stops (s : jstr) : Prop := isStop (head s) = true.

Definition self_delimiting (k : TokenKind) : Prop := k = KPunct \/ k = KString.

(** An item that is scanned as itself before any text that may follow it. *)
Definition rereads (x : item) : Prop :=
  x.2 <> [] /\ forall rest, self_delimiting x.1 \/ stops rest -> scan (x.2 ++ rest) = (x.1, length x.2).

(** The valid flag only falls. *)
Lemma scan_string_valid s j v n : scan_string s j v = (n, true, true) -> v = true.
Proof.
  revert j v. induction s as [s IH] using (induction_ltof1 _ (@length Z)). unfold ltof in IH. intros j v.
  destruct s as [|d s1]; [done|]. rewrite scan_string_cons. intros H.
  destruct (d =? 92); [|destruct (d =? 10); [done|destruct (d =? 34)]].
  - destruct s1 as [|e s2]; [done|].
    destruct (e =? 10); apply IH in H; try (simpl; lia); by apply andb_prop in H as [? _].
  - injection H as _ H. by apply andb_prop in H as [? _].
  - apply IH in H; [|simpl; lia]. by apply andb_prop in H as [? _].
Qed.

Lemma scan_string_hex h s j : isHex h = true -> scan_string (h :: s) j true = scan_string s (S j) true.
Proof.
  intros Hh. rewrite scan_string_cons. unfold isHex in Hh.
  assert (48 <= h) by (repeat (apply orb_prop in Hh as [Hh|Hh]); bool_prop; lia).
  assert (h <> 92) by (intros ->; done).
  by rewrite !(proj2 (Z.eqb_neq h _)), (proj2 (Z.ltb_ge h 32)) by lia.
Qed.

Lemma escape_hex s :
  escape_ok (117 :: s) = true ->
  exists h1 h2 h3 h4 r, s = h1 :: h2 :: h3 :: h4 :: r /\ forallb isHex [h1; h2; h3; h4] = true.
Proof.
  simpl. intros [H1 H2]%andb_prop. apply bool_decide_eq_true_1 in H1.
  destruct s as [|h1 [|h2 [|h3 [|h4 r]]]]; try done. by repeat eexists.
Qed.

(** A valid closed string is scanned the same whatever comes after it. *)
Lemma scan_string_local s j n :
  scan_string s j true = (n, true, true) ->
  exists u r, s = u ++ r /\ n = (j + length u)%nat /\ forall r', scan_string (u ++ r') j true = (n, true, true).
Proof.
  revert j. induction s as [s IH] using (induction_ltof1 _ (@length Z)). unfold ltof in IH. intros j.
  destruct s as [|d s1]; [done|]. rewrite scan_string_cons. cbn [andb]. destruct (d =? 92) eqn:Hd.
  - destruct s1 as [|e s2]; [done|]. destruct (e =? 10) eqn:He; intros H; pose proof (scan_string_valid _ _ _ _ H) as Hok.
    { apply Z.eqb_eq in He as ->. done. }
    rewrite Hok in H. destruct (decide (e = 117)) as [->|Hu].
    + apply escape_hex in Hok as (h1 & h2 & h3 & h4 & r0 & -> & Hhex).
      pose proof Hhex as Hhex'. simpl in Hhex'. bool_prop. rewrite !scan_string_hex in H by done.
      destruct (IH r0 ltac:(simpl; lia) _ H) as (u & r & -> & -> & Hr).
      exists (d :: 117 :: h1 :: h2 :: h3 :: h4 :: u), r. split_and!; [done|simpl; lia|]. intros r'.
      cbn [app]. rewrite scan_string_cons, Hd. cbn [andb Z.eqb Pos.eqb].
      assert (escape_ok (117 :: h1 :: h2 :: h3 :: h4 :: u ++ r') = true) as -> by exact Hhex.
      rewrite !scan_string_hex by done. apply Hr.
    + destruct (IH s2 ltac:(simpl; lia) _ H) as (u & r & -> & -> & Hr).
      exists (d :: e :: u), r. split_and!; [done|simpl; lia|]. intros r'. cbn [app]. rewrite scan_string_cons, Hd, He.
      unfold escape_ok in *. rewrite (proj2 (Z.eqb_neq e 117) Hu) in *. rewrite Hok. apply Hr.
  - destruct (d =? 10) eqn:H10; [done|]. destruct (d =? 34) eqn:H34; intros H.
    + injection H as <- Hv. exists [d], s1. split_and!; [done|simpl; lia|]. intros r'. cbn [app].
      by rewrite scan_string_cons, Hd, H10, H34, Hv.
    + pose proof (scan_string_valid _ _ _ _ H) as Hok. rewrite Hok in H.
      destruct (IH s1 ltac:(simpl; lia) _ H) as (u & r & -> & -> & Hr).
      exists (d :: u), r. split_and!; [done|simpl; lia|]. intros r'. cbn [app].
      by rewrite scan_string_cons, Hd, H10, H34, Hok.
Qed.

(** ** Numbers do not look past a delimiter *)

Lemma run_of_app f u r : (forall c, head r = Some c -> f c = false) -> run_of f (u ++ r) = run_of f u.
Proof.
  intros Hr. induction u as [|c u IH]; simpl; [|by rewrite IH].
  destruct r as [|c r]; [done|]. simpl. by rewrite (Hr c eq_refl).
Qed.

Lemma stops_head r c : stops r -> head r = Some c ->
  is_digit c = false /\ c <> 46 /\ c <> 101 /\ c <> 69 /\ c <> 43 /\ c <> 45.
Proof.
  unfold stops. intros H E. rewrite E in H. unfold isStop, isHorizontalWs, isPunct, is_digit in *.
  assert (c <= 47 \/ 58 <= c) by (repeat (apply orb_prop in H as [H|H]); bool_prop; lia).
  split; [apply andb_false_iff; rewrite !Z.leb_gt; lia|].
  repeat (apply orb_prop in H as [H|H]); bool_prop; lia.
Qed.
Lemma stops_digit r : stops r -> forall c, head r = Some c -> is_digit c = false.
Proof. intros H c Hc. by apply (stops_head r c H). Qed.

Lemma match_fraction_app u r : stops r -> match_fraction (u ++ r) = match_fraction u.
Proof.
  intros Hr. unfold match_fraction. destruct u as [|c u].
  - destruct r as [|c r]; [done|]. destruct (stops_head _ c Hr eq_refl) as (_ & Hc & _). simpl.
    by rewrite (proj2 (Z.eqb_neq c _)) by done.
  - simpl. by rewrite run_of_app by by apply stops_digit.
Qed.

Lemma match_exponent_app u r : stops r -> match_exponent (u ++ r) = match_exponent u.
Proof.
  intros Hr. unfold match_exponent. destruct u as [|e u].
  - destruct r as [|c r]; [done|]. destruct (stops_head _ c Hr eq_refl) as (_ & _ & H1 & H2 & _). simpl.
    by rewrite !(proj2 (Z.eqb_neq c _)) by done.
  - simpl. destruct ((e =? 101) || (e =? 69)); [|done]. destruct u as [|c u].
    + simpl app. destruct r as [|c r]; [done|]. destruct (stops_head _ c Hr eq_refl) as (H0 & _ & _ & _ & H1 & H2).
      rewrite !(proj2 (Z.eqb_neq c _)) by done. simpl. by rewrite H0.
    + simpl app. set (sign := if (c =? 43) || (c =? 45) then 1%nat else 0%nat).
      assert (drop sign (c :: u ++ r) = drop sign (c :: u) ++ r) as -> by (unfold sign; by case_match).
      by rewrite run_of_app by by apply stops_digit.
Qed.

Lemma match_number_app u r : stops r -> match_number (u ++ r) = match_number u.
Proof.
  intros Hr. destruct u as [|d u].
  { destruct r as [|c r]; [done|]. destruct (stops_head _ c Hr eq_refl) as (Hd & _ & _ & _ & _ & Hm).
    unfold match_number. simpl. rewrite (proj2 (Z.eqb_neq c _)) by done. simpl. by rewrite Hd. }
  unfold match_number. change ((d :: u) ++ r) with (d :: (u ++ r)). set (m := if d =? 45 then 1%nat else 0%nat).
  assert (m <= 1)%nat as Hm by (unfold m; repeat case_match; lia).
  change (d :: (u ++ r)) with ((d :: u) ++ r). rewrite (drop_app_le _ _ m) by (simpl; lia).
  destruct (drop m (d :: u)) as [|c s'] eqn:E.
  { simpl app. destruct r as [|c r]; [done|]. by rewrite (stops_digit _ Hr c eq_refl). }
  cbn [app]. cbv iota. destruct (is_digit c); [|done].
  rewrite run_of_app by by apply stops_digit. set (int := if c =? 48 then 1%nat else S (run_of is_digit s')).
  assert (m + int <= length (d :: u))%nat as Hint.
  { apply (f_equal length) in E. rewrite length_drop in E. simpl in E.
    assert (int <= S (length s'))%nat by (unfold int; pose proof (run_of_le is_digit s'); case_match; lia).
    simpl length in *. lia. }
  change (d :: u ++ r) with ((d :: u) ++ r). rewrite (drop_app_le _ _ (m + int)) by done.
  rewrite match_fraction_app by done. rewrite drop_app_le by apply match_fraction_le. by rewrite match_exponent_app.
Qed.

Lemma stops_lookup (s : jstr) n : isStop (s !! n) = true -> stops (drop n s).
Proof. unfold stops. rewrite <- (Nat.add_0_r n) at 1. rewrite <- lookup_drop. by destruct (drop n s). Qed.

(** A literal before any text that may follow it. *)
Lemma is_literal_app w rest : stops rest -> is_literal w (w ++ rest) = true.
Proof.
  unfold is_literal, startsWith, stops. intros H. rewrite take_app_length, bool_decide_eq_true_2 by done.
  rewrite lookup_app_r, Nat.sub_diag by done. by destruct rest.
Qed.
Lemma is_literal_take w s : is_literal w s = true -> take (length w) s = w.
Proof. unfold is_literal, startsWith. intros [H _]%andb_prop. by apply bool_decide_eq_true_1 in H. Qed.

Lemma scan_number c s n :
  c =? 10 = false -> isHorizontalWs c = false -> c =? 34 = false -> isPunct c = false ->
  (c =? 45) || is_digit c = true -> match_number (c :: s) = Some n -> isStop ((c :: s) !! n) = true ->
  rereads (KNumber, take n (c :: s)).
Proof.
  intros H1 H2 H3 H4 H5 Hm Hs. pose proof (match_number_range _ _ Hm) as Hn.
  assert (match_number (take n (c :: s)) = Some n) as Hm'.
  { rewrite <- (take_drop n (c :: s)), match_number_app in Hm by by apply stops_lookup. done. }
  assert (length (take n (c :: s)) = n) as Hl by (rewrite length_take; lia).
  split; [intros E; simpl snd in E; rewrite E in Hl; simpl in Hl; lia|]. simpl fst. simpl snd.
  destruct n as [|n]; [lia|]. cbn [take] in *. intros rest [[?|?]|Hrest]; [done..|].
  unfold scan. cbn [app]. rewrite H1, H2, H3, H4, H5. change (c :: take n s ++ rest) with ((c :: take n s) ++ rest).
  rewrite match_number_app, Hm' by done. rewrite lookup_app_r, Hl, Nat.sub_diag by lia.
  replace (rest !! 0%nat) with (head rest) by by destruct rest. rewrite Hrest. done.
Qed.

(** What is scanned as neither white space nor an error is scanned so again. *)
Lemma scan_rereads c s k n :
  scan (c :: s) = (k, n) -> k <> KWs -> k <> KError -> rereads (k, take n (c :: s)).
Proof.
  intros E Hws Herr. unfold scan in E.
  destruct (c =? 10) eqn:H1; [congruence|]. destruct (isHorizontalWs c) eqn:H2; [congruence|].
  destruct (c =? 34) eqn:H3.
  { destruct (scan_string s 1 true) as [[j cl] v] eqn:Es. destruct cl, v; simpl in E; simplify_eq.
    apply scan_string_local in Es as (u & r & -> & -> & Hr). cbn [Nat.add take]. rewrite take_app_length.
    split; [done|]. intros rest _. unfold scan. cbn [app snd]. by rewrite H1, H2, H3, Hr. }
  destruct (isPunct c) eqn:H4.
  { simplify_eq. split; [done|]. intros rest _. unfold scan. cbn [take app snd]. by rewrite H1, H2, H3, H4. }
  destruct ((c =? 45) || is_digit c) eqn:H5.
  { destruct (match_number (c :: s)) as [m|] eqn:Hm; [|congruence].
    destruct (isStop ((c :: s) !! m)) eqn:Hs; [|congruence]. simplify_eq. by apply scan_number. }
  assert (forall w, is_literal w (c :: s) = true -> exists w', w = c :: w' \/ w = []) as Hw.
  { intros [|x w] Hl; [by exists []; right|]. apply is_literal_take in Hl. simpl in Hl. injection Hl as -> _.
    exists w. by left. }
  destruct (is_literal (js "true") (c :: s)) eqn:L1.
  { simplify_eq. change 4%nat with (length (js "true")). rewrite (is_literal_take _ _ L1).
    destruct (Hw _ L1) as [w [[= <- _]|?]]; [|done]. split; [done|]. intros rest [[?|?]|Hr]; [done..|].
    unfold scan. simpl snd. rewrite (is_literal_app _ _ Hr). done. }
  destruct (is_literal (js "null") (c :: s)) eqn:L2.
  { simplify_eq. change 4%nat with (length (js "null")). rewrite (is_literal_take _ _ L2).
    destruct (Hw _ L2) as [w [[= <- _]|?]]; [|done]. split; [done|]. intros rest [[?|?]|Hr]; [done..|].
    unfold scan. simpl snd. rewrite (is_literal_app _ _ Hr). done. }
  destruct (is_literal (js "false") (c :: s)) eqn:L3; [|congruence].
  simplify_eq. change 5%nat with (length (js "false")). rewrite (is_literal_take _ _ L3).
  destruct (Hw _ L3) as [w [[= <- _]|?]]; [|done]. split; [done|]. intros rest [[?|?]|Hr]; [done..|].
  unfold scan. simpl snd. rewrite (is_literal_app _ _ Hr). done.
Qed.

Lemma items_reread s : Forall (fun x => x.1 <> KWs -> x.1 <> KError -> rereads x) (items s).
Proof.
  induction s as [|c s IH] using items_ind; [constructor|]. rewrite items_cons. constructor; [|done].
  simpl fst. apply scan_rereads. by destruct (scan (c :: s)).
Qed.

(** ** White space between items *)

Definition is_ws (c : Z) : Prop := c = 10 \/ isHorizontalWs c = true.

Lemma solids_cons_ws k raw s c r :
  items (c :: r) = (k, raw) :: items s -> k = KWs -> solids (c :: r) = solids s.
Proof. intros E ->. unfold solids. rewrite E, filter_cons. rewrite decide_False; [done|]. intros H. by apply H. Qed.

Lemma scan_horizontal c s : isHorizontalWs c = true -> scan (c :: s) = (KWs, S (run_of isHorizontalWs s)).
Proof.
  intros H. unfold scan. assert (c =? 10 = false) as ->.
  { unfold isHorizontalWs in H. repeat (apply orb_prop in H as [H|H]); bool_prop; subst; done. }
  rewrite H. simpl. by rewrite H.
Qed.

Lemma solids_ws1 c s : is_ws c -> solids (c :: s) = solids s.
Proof.
  intros [->|H].
  { eapply solids_cons_ws; [rewrite items_cons; simpl; by rewrite drop_0|done]. }
  eapply eq_trans; [eapply solids_cons_ws; [rewrite items_cons, (scan_horizontal c s H); done|done]|]. simpl.
  destruct s as [|d s]; [done|]. simpl. destruct (isHorizontalWs d) eqn:Hd; [|done].
  symmetry. eapply solids_cons_ws; [rewrite items_cons, (scan_horizontal d s Hd); done|done].
Qed.
Lemma solids_ws w s : Forall is_ws w -> solids (w ++ s) = solids s.
Proof. induction 1 as [|c w Hc HF IH]; [done|]. simpl. by rewrite solids_ws1. Qed.

(** ** What the formatter emits, over items *)

Fixpoint emit (indent : option jstr) (depth : nat) (xs : list item) : jstr :=
  match xs with
  | [] => []
  | x :: ts =>
      let c := default 0 (head x.2) in
      if negb (bool_decide (x.1 = KPunct)) then x.2 ++ emit indent depth ts
      else if (c =? 123) || (c =? 91) then
        let closer := if c =? 123 then 125 else 93 in
        match ts with
        | next :: ts' =>
            if bool_decide (next.1 = KPunct) && bool_decide (head next.2 = Some closer)
            then x.2 ++ next.2 ++ emit indent depth ts'
            else x.2 ++ pad indent (S depth) ++ emit indent (S depth) ts
        | [] => x.2 ++ pad indent (S depth) ++ emit indent (S depth) ts
        end
      else if (c =? 125) || (c =? 93) then pad indent (depth - 1) ++ x.2 ++ emit indent (depth - 1) ts
      else if c =? 44 then js "," ++ pad indent depth ++ emit indent depth ts
      else (match indent with None => js ":" | Some _ => js ": " end) ++ emit indent depth ts
  end.

Lemma erase_punct k : bool_decide (erase k = KPunct) = bool_decide (k = KPunct).
Proof. by destruct k. Qed.

Definition item_of (text : jstr) (t : Token) : item := erase_item (view text t).
Lemma item_of_fmap text (ts : list Token) : erase_item <$> (view text <$> ts) = item_of text <$> ts.
Proof. by rewrite <- list_fmap_compose. Qed.

Lemma reemit_emit text indent depth ts :
  Forall (well_placed text) ts -> reemit_loop text indent depth ts = emit indent depth (item_of text <$> ts).
Proof.
  intros HF. remember (length ts) as n eqn:Hn. revert depth ts Hn HF.
  induction n as [n IH] using lt_wf_ind. intros depth ts -> HF. destruct HF as [|t ts Ht HF]; [done|].
  rewrite fmap_cons. cbn [reemit_loop emit].
  change (item_of text t).2 with (token_text text t). change (item_of text t).1 with (erase (kind t)).
  rewrite erase_punct, (token_head text t Ht).
  assert (forall d, reemit_loop text indent d ts = emit indent d (item_of text <$> ts)) as Hts
    by (intros d; eapply IH; [|reflexivity|done]; simpl; lia).
  case_match; [by rewrite Hts|]. case_match.
  - destruct HF as [|next ts Hnext HF]; [done|]. rewrite fmap_cons in *.
    change (item_of text next).2 with (token_text text next). change (item_of text next).1 with (erase (kind next)).
    rewrite erase_punct, (token_head text next Hnext).
    case_match; [|by rewrite Hts]. do 2 f_equal. eapply IH; [|reflexivity|done]. simpl; lia.
  - repeat case_match; by rewrite Hts.
Qed.

(** Punctuation is one unit. *)
Definition punct_ok (x : item) : Prop := x.1 = KPunct -> exists c, x.2 = [c] /\ isPunct c = true.

Lemma items_punct s : Forall punct_ok (items s).
Proof.
  induction s as [|c s IH] using items_ind; [constructor|]. rewrite items_cons. constructor; [|done].
  unfold punct_ok. simpl fst. simpl snd. unfold scan.
  repeat (case_match; simpl; try done; try (intros; congruence)). intros _. by eexists.
Qed.

(** Nothing but punctuation follows what needs a delimiter. *)
Fixpoint follows (xs : list item) : Prop :=
  match xs with
  | x :: ((y :: _) as ys) => (self_delimiting x.1 \/ y.1 = KPunct) /\ follows ys
  | _ => True
  end.

(** Items that read again as themselves where the formatter puts them. *)
Definition emittable (x : item) : Prop := x.1 <> KWs /\ rereads x /\ punct_ok x.

Lemma follows_tail x xs : follows (x :: xs) -> follows xs.
Proof. destruct xs; [done|]. by intros [_ ?]. Qed.

Lemma solids_item x rest :
  emittable x -> self_delimiting x.1 \/ stops rest -> solids (x.2 ++ rest) = x :: solids rest.
Proof.
  intros (Hws & [Hne Hr] & _) Hd. specialize (Hr rest Hd). destruct x as [k raw]. simpl in *.
  destruct raw as [|c w]; [done|]. unfold solids. simpl app. rewrite items_cons. simpl app in Hr. rewrite Hr.
  cbn [fst snd]. change (c :: w ++ rest) with ((c :: w) ++ rest). rewrite take_app_length, drop_app_length.
  rewrite filter_cons. by rewrite decide_True.
Qed.

Lemma pad_ws indent depth : (forall s, indent = Some s -> Forall is_ws s) -> Forall is_ws (pad indent depth).
Proof.
  intros Hi. unfold pad. destruct indent as [s|]; [|constructor]. constructor; [by left|].
  apply Forall_concat, Forall_replicate. by apply Hi.
Qed.

(** ** Reading back what the formatter emits *)

Lemma pad_stops indent depth rest : stops rest -> stops (pad indent depth ++ rest).
Proof. intros H. unfold pad. by destruct indent. Qed.

Lemma punct_stops c s : isPunct c = true -> stops (c :: s).
Proof. intros H. unfold stops. simpl. rewrite H. by rewrite !orb_true_r. Qed.

(** What is emitted from punctuation on starts with a delimiter. *)
Lemma emit_stops indent depth x xs :
  punct_ok x -> x.1 = KPunct -> stops (emit indent depth (x :: xs)).
Proof.
  intros Hp Hk. destruct (Hp Hk) as (c & Hc & Hpc). cbn [emit]. rewrite Hk, Hc. cbn [bool_decide negb].
  rewrite bool_decide_eq_true_2 by done. cbn [negb head default].
  assert (forall r, stops ([c] ++ r)) as Hs by (intros r; by apply punct_stops).
  repeat (case_match; try done). all: try by apply pad_stops.
Qed.

Lemma emit_follows indent depth x xs :
  Forall emittable (x :: xs) -> follows (x :: xs) -> self_delimiting x.1 \/ stops (emit indent depth xs).
Proof.
  intros HF Hf. destruct xs as [|y xs]; [by right|]. destruct Hf as [[?|Hk] _]; [by left|]. right.
  apply Forall_cons in HF as [_ [(_ & _ & Hp) _]%Forall_cons]. by apply emit_stops.
Qed.

Lemma punct_delimits (x : item) : x.1 = KPunct -> forall rest, self_delimiting x.1 \/ stops rest.
Proof. intros H rest. left. by left. Qed.

Lemma emit_solids indent depth xs :
  (forall s, indent = Some s -> Forall is_ws s) -> Forall emittable xs -> follows xs ->
  solids (emit indent depth xs) = xs.
Proof.
  intros Hi. pose proof (fun d => pad_ws indent d Hi) as Hpad. remember (length xs) as n eqn:Hn. revert depth xs Hn.
  induction n as [n IH] using lt_wf_ind. intros depth xs -> HF Hf. destruct xs as [|x ts]; [done|].
  pose proof HF as [Hx Hts]%Forall_cons. pose proof (follows_tail _ _ Hf) as Hft.
  assert (forall d, solids (emit indent d ts) = ts) as Hrec by (intros d; eapply IH; [|reflexivity|done|done]; simpl; lia).
  destruct (decide (x.1 = KPunct)) as [Hk|Hk].
  2: { cbn [emit]. rewrite (bool_decide_eq_false_2 _ Hk). cbn [negb]. rewrite solids_item; [by rewrite Hrec|done|by apply emit_follows]. }
  pose proof Hx as (_ & _ & Hp). destruct (Hp Hk) as (c & Hc & Hpc). pose proof (punct_delimits x Hk) as Hd.
  cbn [emit]. rewrite (bool_decide_eq_true_2 _ Hk). cbn [negb]. replace (default 0 (head x.2)) with c by by rewrite Hc.
  destruct ((c =? 123) || (c =? 91)) eqn:Hopen.
  { assert (forall d, solids (x.2 ++ pad indent (S d) ++ emit indent (S d) ts) = x :: ts) as Hplain.
    { intros d. rewrite solids_item by done. by rewrite solids_ws, Hrec. }
    destruct ts as [|next ts']; [apply Hplain|]. case_match eqn:Hcl; [|apply Hplain].
    apply andb_prop in Hcl as [Hnk _]. apply bool_decide_eq_true_1 in Hnk.
    apply Forall_cons in Hts as [Hnext Hts']. rewrite solids_item by done. rewrite solids_item; [|done|by apply punct_delimits].
    do 2 f_equal. eapply IH; [|reflexivity|done|by apply (follows_tail next)]. simpl; lia. }
  destruct ((c =? 125) || (c =? 93)) eqn:Hclose.
  { rewrite solids_ws by done. rewrite solids_item by done. by rewrite Hrec. }
  destruct (Z.eqb_spec c 44) as [->|Hcomma].
  { change (js ",") with [44]. rewrite <- Hc, solids_item by done. by rewrite solids_ws, Hrec. }
  assert (c = 58) as ->.
  { unfold isPunct in Hpc. repeat (apply orb_prop in Hpc as [Hpc|Hpc]); bool_prop; subst; done. }
  transitivity (solids (x.2 ++ (match indent with None => [] | Some _ => [32] end) ++ emit indent depth ts)).
  { rewrite Hc. by destruct indent. }
  rewrite solids_item by done. f_equal. destruct indent; [|apply Hrec]. rewrite solids_ws; [apply Hrec|].
  constructor; [by right|constructor].
Qed.

(** ** What an accepted text looks like *)

Lemma punct_of_symbol (x : item) :
  symbol_of x = Comma \/ (exists c, symbol_of x = Close c) -> x.1 = KPunct.
Proof. unfold symbol_of. intros [H|[c H]]; by destruct x.1. Qed.

Lemma step_atom x y st st' :
  sym_step (symbol_of x) st = Some st' -> sym_step (symbol_of y) st' <> None -> erase x.1 = x.1 ->
  self_delimiting x.1 \/ y.1 = KPunct.
Proof.
  intros Hx Hy He. destruct (decide (self_delimiting x.1)) as [?|Hd]; [by left|]. right.
  assert (symbol_of x = Atom) as Ha.
  { unfold symbol_of in *. destruct x.1; try done; destruct st as [[stack []] ac]; try done; exfalso; apply Hd; by constructor. }
  rewrite Ha in Hx. destruct st as [[stack []] ac]; try done. injection Hx as <-.
  apply punct_of_symbol. destruct stack as [|c stack]; [by destruct (symbol_of y)|].
  destruct (symbol_of y); try done; [right; by eexists|by left].
Qed.

Lemma accepted_shape xs st :
  Forall (fun x => erase x.1 = x.1) xs -> accepts (symbol_of <$> xs) st = true ->
  Forall (fun x => x.1 <> KError) xs /\ follows xs.
Proof.
  intros HF. revert st. induction HF as [|x xs Hx HF IH]; intros st H; [done|].
  rewrite fmap_cons, accepts_cons in H. destruct (sym_step (symbol_of x) st) as [st'|] eqn:E; [|done].
  destruct (IH _ H) as [He Hf]. split.
  - constructor; [|done]. intros Hk. unfold symbol_of in E. rewrite Hk in E. by destruct st as [[? []] ?].
  - destruct xs as [|y ys]; [done|]. split; [|done]. apply (step_atom x y st st'); [done| |done].
    rewrite fmap_cons, accepts_cons in H. by destruct (sym_step (symbol_of y) st').
Qed.

Lemma items_erase s : Forall (fun x => erase x.1 = x.1) (items s).
Proof. induction s as [|c s IH] using items_ind; [constructor|]. rewrite items_cons. constructor; [apply scan_erase|done]. Qed.

Lemma Forall_solids (P : item -> Prop) s : Forall P (items s) -> Forall P (solids s).
Proof. rewrite !Forall_forall. intros H x [_ Hx]%list_elem_of_filter. by apply H. Qed.

Lemma solids_solid s : Forall solid (solids s).
Proof. apply Forall_forall. by intros x [? _]%list_elem_of_filter. Qed.

(** The solid items of an accepted text read again wherever they are put. *)
Lemma accepted_emittable text :
  checkJson text = None -> Forall emittable (solids text) /\ follows (solids text).
Proof.
  intros H. apply checkJson_accepts, accepted_shape in H as [He Hf]; [|apply Forall_solids, items_erase].
  split; [|done]. pose proof (solids_solid text) as Hs. pose proof (Forall_solids _ text (items_reread text)) as Hr.
  pose proof (Forall_solids _ text (items_punct text)) as Hp. rewrite Forall_forall in He.
  rewrite Forall_forall in Hs. rewrite Forall_forall in Hr. rewrite Forall_forall in Hp.
  apply Forall_forall. intros x Hx. split_and!; [by apply Hs|apply Hr; [done|by apply Hs|by apply He]|by apply Hp].
Qed.

(** ** The formatter and the minifier *)

Lemma filter_tokens text (ts : list Token) :
  item_of text <$> filter (fun t => kind t <> KWs) ts = filter solid (item_of text <$> ts).
Proof.
  induction ts as [|t ts IH]; [done|]. rewrite fmap_cons, !filter_cons.
  assert (solid (item_of text t) <-> kind t <> KWs) as Hiff.
  { unfold solid, item_of, erase_item, view. simpl. by destruct (kind t). }
  destruct (decide (kind t <> KWs)) as [Hk|Hk].
  - rewrite decide_True by by apply Hiff. by rewrite fmap_cons, IH.
  - rewrite decide_False by by rewrite Hiff. done.
Qed.

Lemma reemit_spec text indent :
  reemit text indent = match checkJson text with None => Some (emit indent 0 (solids text)) | Some _ => None end.
Proof.
  unfold reemit. destruct (checkJson text); [done|]. f_equal. rewrite reemit_emit.
  - unfold solids. by rewrite filter_tokens, <- tokens_items, item_of_fmap.
  - apply Forall_forall. intros t [_ Ht]%list_elem_of_filter.
    pose proof (tokens_placed text) as HF. rewrite Forall_forall in HF. by apply HF.
Qed.

Lemma solids_reemit text indent out :
  (forall s, indent = Some s -> Forall is_ws s) -> reemit text indent = Some out -> solids out = solids text.
Proof.
  intros Hi. rewrite reemit_spec. destruct (checkJson text) eqn:Hc; [done|]. intros [= <-].
  destruct (accepted_emittable text Hc). by apply emit_solids.
Qed.

(** Two texts with the same solid items are checked and formatted alike. *)
Lemma solids_checked a b : solids a = solids b -> checkJson a = None <-> checkJson b = None.
Proof. intros H. by rewrite !checkJson_accepts, H. Qed.
Lemma solids_reemitted a b indent : solids a = solids b -> reemit a indent = reemit b indent.
Proof.
  intros H. rewrite !reemit_spec, H. pose proof (solids_checked a b H).
  destruct (checkJson a), (checkJson b); [done| | |done]; exfalso; naive_solver.
Qed.

Lemma minify_solids a out : minifyJson a = Some out -> solids out = solids a.
Proof. by apply solids_reemit. Qed.

(** ** The theorems *)

(** The tokens of any text, malformed ones included, tile it: the first
    starts at 0, each starts where the one before ends and is not empty, the
    last ends at the length, and their slices concatenate to the text. *)
Theorem tokens_tile text :
  tiling 0 (tokenizeJson text) (length text) /\ concat (token_text text <$> tokenizeJson text) = text.
Proof.
  split.
  - pose proof (cuts_tiling 0 (items text) (tokenizeJson text) (items_nonempty text)) as H.
    rewrite items_tile in H. apply H. unfold tokenizeJson. by rewrite tokenize_loop_span.
  - etransitivity; [|apply items_tile]. rewrite <- tokens_items, <- !list_fmap_compose. done.
Qed.

(** C39: [checkJson] finds no problem exactly in the texts whose tokens, white
    space aside, form one value of the JSON grammar: no trailing comma, no
    missing key, no unbalanced bracket, no malformed token, nothing after
    the value. *)
Theorem check_json_grammar text : checkJson text = None <-> value (symbol_of <$> solids text).
Proof. by rewrite checkJson_accepts, accepts_grammar. Qed.

(** Formatting and minifying change white space only. Every token of the
    result is the source's, raw text included, so no number is rewritten and
    no string re-escaped; the result is valid JSON, and formatting it again,
    to any indent, gives what formatting the source to that indent gives. *)
Theorem format_whitespace_only text indent out :
  (forall s, indent = Some s -> Forall is_ws s) -> reemit text indent = Some out ->
  solids out = solids text /\ checkJson out = None /\ forall indent', reemit out indent' = reemit text indent'.
Proof.
  intros Hi H. pose proof (solids_reemit text indent out Hi H) as E. split_and!; [done| |].
  - apply (solids_checked out text E). unfold reemit in H. by destruct (checkJson text).
  - intros indent'. by apply solids_reemitted.
Qed.
Definition sample_json : jstr := js "{ " ++ quoted (js "b") ++ js " : [1.50, true ,{ } ]}".
Lemma format_whitespace_only_witness :
  let out := default [] (formatJson sample_json) in
  (forall s, Some (js "  ") = Some s -> Forall is_ws s) /\ reemit sample_json (Some (js "  ")) = Some out /\
  solids out = solids sample_json.
Proof.
  assert (forall s, Some (js "  ") = Some s -> Forall is_ws s) as Hi
    by (intros s [= <-]; repeat constructor; by right).
  assert (reemit sample_json (Some (js "  ")) = Some (default [] (formatJson sample_json))) as H by (vm_compute; reflexivity).
  split_and!; [done|done|].
  by apply (format_whitespace_only sample_json (Some (js "  ")) (default [] (formatJson sample_json))).
Defined.

(** Two texts are JSON-equivalent, the test by which the console calls an
    edit no change, exactly when both are valid and they have the same tokens
    in the same order, each with the same raw text. *)
Theorem equivalent_same_tokens a b :
  jsonEquivalent a b = true <-> checkJson a = None /\ checkJson b = None /\ solids a = solids b.
Proof.
  unfold jsonEquivalent. split.
  - destruct (minifyJson a) as [l|] eqn:Ha; [|done]. destruct (minifyJson b) as [r|] eqn:Hb; [|done].
    intros ->%bool_decide_eq_true_1. split_and!.
    + unfold minifyJson, reemit in Ha. by destruct (checkJson a).
    + unfold minifyJson, reemit in Hb. by destruct (checkJson b).
    + by rewrite <- (minify_solids a r Ha), <- (minify_solids b r Hb).
  - intros (Ha & Hb & E). unfold minifyJson. rewrite (solids_reemitted a b None E), !reemit_spec, Hb.
    by apply bool_decide_eq_true_2.
Qed.
