(* ===== verification/ClientData.v ===== *)
(** * ClientData: the pure half of [sdk/typescript/src/client.ts].

    The messages the client exchanges with the server, the values it hands to
    its callers ([models.ts]), the checks on arguments, the conversions from
    the wire and the identity checks on what the server returned. *)
From stdpp Require Import prelude strings.
From Stdlib Require Import ZArith Lia.
From S2P Require Import Prelude JsString Unicode Decimal Errors Refs Contract Release.

Definition DEFAULT_TIMEOUT_MS : Z := 5000.

Definition TypeError (message : jstr) : JsError :=
  JError (PValue (js "TypeError")) message POther POther POther None.

(** ** Arguments *)

(** Argument values of a type the source tests at run time. *)
Inductive bigarg := BigInt (z : Z) | NotBigInt.
Inductive credential := CredentialUndefined | CredentialText (s : jstr) | CredentialOther.

Definition assertUint64 (value : bigarg) (name : jstr) (positive : bool) : res JsError Z :=
  let failed := Throw (ConfigError (name ++ js " must be a " ++ (if positive then js "positive " else [])
                        ++ js "bigint in the uint64 range")) in
  match value with
  | NotBigInt => failed
  | BigInt z => if (z <? (if positive then 1 else 0)) || (UINT64_MAX <? z) then failed else Ok z
  end.

Definition requiredCredential (value : credential) (name : jstr) : res JsError jstr :=
  match value with
  | CredentialText s => Ok s
  | _ => Throw (ConfigError (name ++ js " must be a string"))
  end.

Definition optionalCredential (value : credential) (name : jstr) : res JsError jstr :=
  match value with
  | CredentialUndefined => Ok []
  | _ => requiredCredential value name
  end.

(** [None] is no safe integer. *)
Definition validPageSize (value : option (option Z)) : res JsError Z :=
  match default (Some 0) value with
  | Some z => if negb (isSafeInteger z) || (z <? 0) || (1000 <? z)
              then Throw (ConfigError (js "pageSize must be an integer from 0 through 1000")) else Ok z
  | None => Throw (ConfigError (js "pageSize must be an integer from 0 through 1000"))
  end.

Inductive versions_arg := VersionsUndefined | VersionsNotArray | Versions (l : list bigarg).

Record VersionSetGuards := { expectedRevision : Z; expectedAffectedVersions : list Z }.

(** The loop of [requiredVersionSetGuards] from index [index] on; [previous]
    is the version before. *)
Fixpoint guard_versions (operation : jstr) (index : Z) (previous : Z) (l : list bigarg) : res JsError (list Z) :=
  match l with
  | [] => Ok []
  | v :: l =>
      let* version := assertUint64 v (operation ++ js " expectedAffectedVersions[" ++ dec index ++ js "]") true in
      if (0 <? index) && (version <=? previous) then
        Throw (ConfigError (operation ++ js " expectedAffectedVersions must be sorted and contain unique versions"))
      else
        let* rest := guard_versions operation (index + 1) version l in
        Ok (version :: rest)
  end.

Definition requiredVersionSetGuards (revision : option bigarg) (versions : versions_arg) (operation : jstr)
  : res JsError VersionSetGuards :=
  match revision, versions with
  | None, _ | _, VersionsUndefined =>
      Throw (ConfigError (operation ++ js " expectedRevision and expectedAffectedVersions are required"))
  | Some revision, _ =>
      let* revision := assertUint64 revision (operation ++ js " expectedRevision") true in
      match versions with
      | Versions (v :: l) =>
          let* copied := guard_versions operation 0 0 (v :: l) in
          Ok {| expectedRevision := revision; expectedAffectedVersions := copied |}
      | _ => Throw (ConfigError (operation ++ js " expectedAffectedVersions must be a non-empty array"))
      end
  end.

(** [putSecret]'s value and expiry. *)
Inductive secret_value := SecretText (s : jstr) | SecretBytes (b : list Z) | SecretOther.

(** [Buffer.from] of either form. *)
Definition plaintext_of (value : secret_value) : res JsError (list Z) :=
  match value with
  | SecretText s => Ok (utf8_encode s)
  | SecretBytes b => Ok b
  | SecretOther => Throw (ConfigError (js "secret value must be a string or Uint8Array"))
  end.

Definition checkExpiry (expiresAtUnixMs : option bigarg) : res JsError Z :=
  match default (BigInt 0) expiresAtUnixMs with
  | BigInt z =>
      if (z <? 0) || (INT64_MAX <? z)
      then Throw (ConfigError (js "expiresAtUnixMs must be a bigint in the non-negative int64 range")) else Ok z
  | NotBigInt => Throw (ConfigError (js "expiresAtUnixMs must be a bigint in the non-negative int64 range"))
  end.

(** ** Messages *)

Record WireParameter := {
  wp_ref : option WireRef;
  wp_value : jstr;
  wp_contentType : jstr;
  wp_version : Z;
  wp_metadataJson : jstr;
  wp_createdBy : jstr;
  wp_createdAtUnixMs : Z;
  wp_labels : list (jstr * Z)
}.

Record WireSecret := { ws_ref : option WireRef; ws_version : Z; ws_value : list Z; ws_contentType : jstr }.

Record SecretVersion := {
  sv_version : Z;
  sv_state : jstr;
  sv_createdBy : jstr;
  sv_createdAtUnixMs : Z;
  sv_destroyedAtUnixMs : Z;
  sv_expiresAtUnixMs : Z;
  sv_metadataJson : jstr;
  sv_bound : bool
}.

Record WireSecretMetadata := {
  wm_ref : option WireRef;
  wm_contentType : jstr;
  wm_bound : bool;
  wm_metadataJson : jstr;
  wm_createdAtUnixMs : Z;
  wm_updatedAtUnixMs : Z;
  wm_labels : list (jstr * Z);
  wm_versions : list SecretVersion
}.

(** ** What callers get *)

Record ParameterInfo := {
  pa_env : jstr;
  pa_app : jstr;
  pa_key : jstr;
  pa_value : jstr;
  pa_contentType : jstr;
  pa_version : Z;
  pa_metadataJson : jstr;
  pa_createdBy : jstr;
  pa_createdAtUnixMs : Z;
  pa_labels : list (jstr * Z);
  pa_namespace : jstr;
  pa_path : jstr
}.

Record Secret := { se_value : list Z; se_path : jstr; se_version : Z; se_contentType : jstr }.

Record SecretInfo := {
  si_env : jstr;
  si_app : jstr;
  si_key : jstr;
  si_contentType : jstr;
  si_bound : bool;
  si_metadataJson : jstr;
  si_createdAtUnixMs : Z;
  si_updatedAtUnixMs : Z;
  si_labels : list (jstr * Z);
  si_versions : list SecretVersion;
  si_namespace : jstr;
  si_path : jstr
}.

(** ** Conversions *)

Definition toWireNamespace (ns : NamespaceRef) : NamespaceRef := {| env := env ns; app := app ns |}.
Definition toWireRef (ref : ResourceRef) : WireRef :=
  {| wr_namespace := Some (toWireNamespace (namespace ref)); wr_key := key ref |}.
Definition fromWireNamespace (ns : NamespaceRef) : NamespaceRef := {| env := env ns; app := app ns |}.

Definition internal_error (message : jstr) : JsError := KmsError internal message None None.

Definition fromWireRef (ref : WireRef) : res JsError ResourceRef :=
  match wr_namespace ref with
  | None => Throw (internal_error (js "KMS resource reference omitted namespace"))
  | Some ns => Ok {| namespace := fromWireNamespace ns; key := wr_key ref |}
  end.

Definition parameterFromWire (p : WireParameter) : res JsError ParameterInfo :=
  match wp_ref p with
  | None => Throw (internal_error (js "KMS parameter omitted resource reference"))
  | Some wref =>
      let* ref := fromWireRef wref in
      Ok {| pa_env := env (namespace ref); pa_app := app (namespace ref); pa_key := key ref;
            pa_value := wp_value p; pa_contentType := wp_contentType p; pa_version := wp_version p;
            pa_metadataJson := wp_metadataJson p; pa_createdBy := wp_createdBy p;
            pa_createdAtUnixMs := wp_createdAtUnixMs p; pa_labels := wp_labels p;
            pa_namespace := displayNamespace (namespace ref); pa_path := displayPath ref |}
  end.

Definition secretInfoFromWire (s : WireSecretMetadata) : res JsError SecretInfo :=
  match wm_ref s with
  | None => Throw (internal_error (js "KMS secret metadata omitted resource reference"))
  | Some wref =>
      let* ref := fromWireRef wref in
      Ok {| si_env := env (namespace ref); si_app := app (namespace ref); si_key := key ref;
            si_contentType := wm_contentType s; si_bound := wm_bound s; si_metadataJson := wm_metadataJson s;
            si_createdAtUnixMs := wm_createdAtUnixMs s; si_updatedAtUnixMs := wm_updatedAtUnixMs s;
            si_labels := wm_labels s; si_versions := wm_versions s;
            si_namespace := displayNamespace (namespace ref); si_path := displayPath ref |}
  end.

(** ** Identity of what the server returned *)

Definition assertResourceIdentity (kind : jstr) (requested : ResourceRef) (returned : option WireRef)
  : res JsError unit :=
  match returned with
  | None => Throw (internal_error (js "KMS " ++ kind ++ js " response omitted resource reference"))
  | Some wref =>
      let* ref := fromWireRef wref in
      if negb (bool_decide (key ref = key requested)) || negb (namespaceEquals (namespace ref) (namespace requested))
      then Throw (internal_error (js "KMS " ++ kind ++ js " response resource reference did not match request"))
      else Ok tt
  end.

Definition assertReadIdentity (kind : jstr) (requested : ResourceRef) (returned : option WireRef)
    (returnedVersion : Z) (selector : Z) : res JsError unit :=
  let* _ := assertResourceIdentity kind requested returned in
  if (returnedVersion <=? 0) || (UINT64_MAX <? returnedVersion) then
    Throw (internal_error (js "KMS " ++ kind ++ js " response contained an invalid version"))
  else if (0 <? selector) && negb (returnedVersion =? selector) then
    Throw (internal_error (js "KMS " ++ kind ++ js " response version did not match request"))
  else Ok tt.

(** The [Secret] constructor, on the bytes the client gives it. *)
Definition new_Secret (value : list Z) (path : jstr) (version : Z) (contentType : jstr) : res JsError Secret :=
  if (version <? 0) || (UINT64_MAX <? version)
  then Throw (TypeError (js "secret version must be a bigint in the uint64 range"))
  else Ok {| se_value := value; se_path := path; se_version := version; se_contentType := contentType |}.

(** ** Errors *)

(** [throwMapped]. A getter of the foreign error that throws replaces it by
    some other value. *)
Definition throwMapped (error : JsError) : JsError :=
  match mapGrpcError error with
  | None => JOther
  | Some (Some mapped) => mapped
  | Some None => wrapError (js "unexpected successful gRPC status") error
  end.

Definition throwSecretMapped (mapper : JsError -> option JsError) (error : JsError) : JsError :=
  default (internal_error SECRET_FAILED) (mapper error).

(** [verifyReleaseDefaults] names an exhausted budget. *)
Definition throwVerifyMapped (error : JsError) : JsError :=
  match mapGrpcError error with
  | Some (Some (JKms _ resource_exhausted message grpcCode _)) =>
      RateLimitedError (message ++ js " (the per-identity budget is spent; wait for the window to reset instead of retrying)")
        grpcCode (Some error)
  | _ => throwMapped error
  end.

(** ** Defaults verification *)

(** An entry as the caller gave it: [None] where the field is no string. *)
Record VerifyEntryArg := { va_alias : option jstr; va_sha256 : option jstr; va_contentType : option jstr }.
Record VerifyEntry := { ve_alias : jstr; ve_contentType : jstr; ve_sha256 : jstr }.

(** The loop over [options.entries]; [seen] is the set of aliases so far. *)
Fixpoint verify_entries (index : Z) (seen : list jstr) (l : list VerifyEntryArg) : res JsError (list VerifyEntry) :=
  match l with
  | [] => Ok []
  | e :: l =>
      let alias := match va_alias e with Some a => trim a | None => [] end in
      if bool_decide (alias = []) then
        Throw (ConfigError (js "verify entry " ++ dec index ++ js " has an empty alias"))
      else if bool_decide (alias ∈ seen) then
        Throw (ConfigError (js "verify entry " ++ json_quote alias ++ js " is duplicated"))
      else
        match va_sha256 e with
        | Some sha =>
            if validLowerHex64 sha then
              let* rest := verify_entries (index + 1) (seen ++ [alias]) l in
              Ok ({| ve_alias := alias; ve_contentType := default [] (va_contentType e); ve_sha256 := sha |} :: rest)
            else Throw (ConfigError (js "verify entry " ++ json_quote alias ++ js " has an invalid sha256"))
        | None => Throw (ConfigError (js "verify entry " ++ json_quote alias ++ js " has an invalid sha256"))
        end
  end.

Record VerifyOptions := {
  vo_namespace : jstr;
  vo_entries : option (list VerifyEntryArg);
  vo_release : option jstr;
  vo_profile : option jstr;
  vo_schemaVersion : option bigarg;
  vo_schemaSha256 : option jstr
}.

Record VerifyRequest := {
  vq_namespace : NamespaceRef;
  vq_name : jstr;
  vq_profile : jstr;
  vq_schemaSha256 : jstr;
  vq_schemaVersion : option Z;
  vq_entries : list VerifyEntry
}.

(** The checks of [verifyReleaseDefaults] and the request they lead to. *)
Definition verify_request (o : VerifyOptions) : res JsError VerifyRequest :=
  let* ns := parseNamespace (vo_namespace o) in
  match vo_entries o with
  | None => Throw (ConfigError (js "verify entries must be an array"))
  | Some l =>
      let* entries := verify_entries 0 [] l in
      let schemaSha256 := default [] (vo_schemaSha256 o) in
      let given := negb (bool_decide (schemaSha256 = [])) in
      if eqb (bool_decide (is_Some (vo_schemaVersion o))) given then
        Throw (ConfigError (js "exactly one of schemaVersion or schemaSha256 is required"))
      else
        let* version := match vo_schemaVersion o with
                        | Some v => let* z := assertUint64 v (js "schemaVersion") false in Ok (Some z)
                        | None => Ok None
                        end in
        if given && negb (validLowerHex64 schemaSha256) then Throw (ConfigError (js "invalid schema sha256"))
        else Ok {| vq_namespace := toWireNamespace ns; vq_name := default [] (vo_release o);
                   vq_profile := default [] (vo_profile o); vq_schemaSha256 := schemaSha256;
                   vq_schemaVersion := version; vq_entries := entries |}
  end.
