(* ===== verification/Client.v ===== *)
(** * Client: [sdk/typescript/src/client.ts], class [KmsClient].

    The client as a state machine. A call of the public interface is a task;
    it runs synchronously from one [await] to the next and is suspended in
    between, waiting for its continuation, for the shared namespace discovery
    or for the server. Every stretch between two suspensions is one operation
    here, so a list of operations is any interleaving of calls, replies,
    cancellations, watch events and [close]. The server is not modelled: a
    reply is any result of the type the request's deserializer gives. *)
From stdpp Require Import prelude gmap strings.
From Stdlib Require Import ZArith Lia.
From S2P Require Import Prelude JsString JsMap Unicode Decimal Errors Refs Cache CacheProofs Contract Release Dispatcher ClientData.

(** ** Calls *)

Abbreviation signal := nat.

(** [Some None] is an invalid [Date]. *)
Record CallOptions := { o_signal : option signal; o_deadline : option (option Z) }.
Record GetOptions := { go_call : CallOptions; go_selector : VersionRef; go_bindingKey : credential }.
Record ListOptions := {
  lo_call : CallOptions;
  lo_keyPrefix : option jstr;
  lo_pageSize : option (option Z);
  lo_pageToken : option jstr
}.

(** The methods that go through [#secretMutation], with their arguments. *)
Inductive mutation :=
| DeleteSecret
| SetSecretEnabled (enabled : bool) (version : option bigarg)
| DestroySecretVersion (version : bigarg)
| PromoteSecretVersion (version : bigarg)
| BindSecret (bind : bool) (bindingKey : credential) (expectedCurrentVersion : bigarg)
| RotateSecretBindingKey (bindingKey newBindingKey : credential) (expectedCurrentVersion : bigarg)
| PurgeSecretUnboundVersions (revision : option bigarg) (versions : versions_arg)
| PurgeSecretBindingCohort (bindingKey : credential) (anchorVersion : option bigarg)
    (revision : option bigarg) (versions : versions_arg).

(** [CDiscover] is the [whoAmI] of the shared discovery [promise]. *)
Inductive call :=
| CWhoAmI (o : CallOptions)
| CDiscover (promise : nat)
| CGetParameter (key : jstr) (o : GetOptions)
| CGetParameterInfo (key : jstr) (o : GetOptions)
| CFetchParameter (ref : ResourceRef) (version : Z) (label : jstr) (o : CallOptions)
| CGetSecret (key : jstr) (o : GetOptions)
| CFetchSecret (ref : ResourceRef) (version : Z) (label : jstr) (bindingKey : credential) (o : CallOptions)
| CPutParameter (key value : jstr) (contentType metadataJson : option jstr) (o : CallOptions)
| CPutSecret (key : jstr) (value : secret_value) (contentType metadataJson : option jstr)
    (bindingKey : credential) (expiresAtUnixMs : option bigarg) (o : CallOptions)
| CListParameters (ns : option jstr) (o : ListOptions)
| CListParametersInNamespace (ns : NamespaceRef) (o : ListOptions)
| CListSecrets (ns : option jstr) (o : ListOptions)
| CDeleteParameter (key : jstr) (o : CallOptions)
| CGetParameterMetadata (key : jstr) (o : CallOptions)
| CGetSecretMetadata (key : jstr) (o : CallOptions)
| CSecretMutation (key : jstr) (m : mutation) (o : CallOptions)
| CPreviewSecretBindingCohort (key : jstr) (bindingKey : credential) (anchorVersion : option bigarg) (o : CallOptions)
| CPreviewSecretUnboundVersions (key : jstr) (o : CallOptions)
| CVerifyReleaseDefaults (v : VerifyOptions) (o : CallOptions).

Definition options_of (c : call) : CallOptions :=
  match c with
  | CDiscover _ => {| o_signal := None; o_deadline := None |}
  | CGetParameter _ o | CGetParameterInfo _ o | CGetSecret _ o => go_call o
  | CListParameters _ o | CListParametersInNamespace _ o | CListSecrets _ o => lo_call o
  | CWhoAmI o | CFetchParameter _ _ _ o | CFetchSecret _ _ _ _ o | CPutParameter _ _ _ _ o
  | CPutSecret _ _ _ _ _ _ o | CDeleteParameter _ o | CGetParameterMetadata _ o | CGetSecretMetadata _ o
  | CSecretMutation _ _ o | CPreviewSecretBindingCohort _ _ _ o | CPreviewSecretUnboundVersions _ o
  | CVerifyReleaseDefaults _ o => o
  end.

(** ** Requests and replies *)

Inductive request :=
| QWhoAmI
| QGetParameter (ref : WireRef) (version : Z) (label : jstr)
| QGetSecret (ref : WireRef) (version : Z) (label bindingKey : jstr)
| QPutParameter (ref : WireRef) (value contentType metadataJson : jstr)
| QPutSecret (ref : WireRef) (buffer : nat) (contentType metadataJson bindingKey : jstr) (expiresAtUnixMs : Z)
| QListParameters (ns : NamespaceRef) (keyPrefix : jstr) (pageSize : Z) (pageToken : jstr)
| QListSecrets (ns : NamespaceRef) (keyPrefix : jstr) (pageSize : Z) (pageToken : jstr)
| QDeleteParameter (ref : WireRef)
| QGetParameterMetadata (ref : WireRef)
| QGetSecretMetadata (ref : WireRef) (version : Z) (label : jstr)
| QDeleteSecret (ref : WireRef)
| QDisableSecret (ref : WireRef) (version : Z) (enable : bool)
| QDestroySecretVersion (ref : WireRef) (version : Z)
| QPromoteSecretVersion (ref : WireRef) (version : Z)
| QBindSecret (bind : bool) (ref : WireRef) (expectedCurrentVersion : Z) (bindingKey : jstr)
| QRotateSecretBindingKey (ref : WireRef) (expectedCurrentVersion : Z) (bindingKey newBindingKey : jstr)
| QPreviewSecretBindingCohort (ref : WireRef) (anchorVersion : Z) (bindingKey : jstr)
| QPreviewSecretUnboundVersions (ref : WireRef)
| QPurgeSecretUnboundVersions (ref : WireRef) (guards : VersionSetGuards)
| QPurgeSecretBindingCohort (ref : WireRef) (anchorVersion : Z) (bindingKey : jstr) (guards : VersionSetGuards)
| QVerifyReleaseDefaults (q : VerifyRequest).

Record ParameterMetadata := {
  md_ref : option WireRef;
  md_contentType : jstr;
  md_metadataJson : jstr;
  md_createdAtUnixMs : Z;
  md_updatedAtUnixMs : Z;
  md_labels : list (jstr * Z);
  md_versions : list (Z * jstr * jstr * jstr * Z * jstr)
}.

Inductive response :=
| AWhoAmI (name kind : jstr) (ns : option NamespaceRef) (authMethod : jstr)
| AParameter (p : option WireParameter)
| ASecret (s : WireSecret)
| APut (version revision : Z)
| AParameters (l : list WireParameter) (nextPageToken : jstr)
| ASecrets (l : list WireSecretMetadata) (nextPageToken : jstr)
| ARevision (revision : Z)
| AParameterMetadata (m : ParameterMetadata)
| ASecretMetadata (s : option WireSecretMetadata)
| ATransition (currentVersion previousVersion revision : Z)
| AVersionSet (affectedVersions : list Z) (revision : Z)
| ACohort (anchorVersion : Z) (affectedVersions : list Z) (revision : Z)
| AVerify (r : option VerifyResponse).

(** The message type each method's deserializer yields. *)
Definition fits (q : request) (a : response) : bool :=
  match q, a with
  | QWhoAmI, AWhoAmI _ _ _ _ | QGetParameter _ _ _, AParameter _ | QGetSecret _ _ _ _, ASecret _
  | QPutParameter _ _ _ _, APut _ _ | QPutSecret _ _ _ _ _ _, APut _ _
  | QListParameters _ _ _ _, AParameters _ _ | QListSecrets _ _ _ _, ASecrets _ _
  | QDeleteParameter _, ARevision _ | QGetParameterMetadata _, AParameterMetadata _
  | QGetSecretMetadata _ _ _, ASecretMetadata _ | QDeleteSecret _, ARevision _
  | QDisableSecret _ _ _, ARevision _ | QDestroySecretVersion _ _, ARevision _
  | QPromoteSecretVersion _ _, ATransition _ _ _ | QBindSecret _ _ _ _, ATransition _ _ _
  | QRotateSecretBindingKey _ _ _ _, ATransition _ _ _ | QPreviewSecretBindingCohort _ _ _, ACohort _ _ _
  | QPreviewSecretUnboundVersions _, AVersionSet _ _ | QPurgeSecretUnboundVersions _ _, AVersionSet _ _
  | QPurgeSecretBindingCohort _ _ _ _, ACohort _ _ _ | QVerifyReleaseDefaults _, AVerify _ => true
  | _, _ => false
  end.

(** What a call resolves with. *)
Inductive result :=
| RText (value : jstr)
| RParameter (p : ParameterInfo)
| RSecret (s : Secret)
| RPut (version revision : Z)
| RParameters (items : list ParameterInfo) (nextPageToken : jstr)
| RSecrets (items : list SecretInfo) (nextPageToken : jstr)
| RRevision (revision : Z)
| RMetadata (ref : ResourceRef) (m : ParameterMetadata)
| RSecretInfo (s : SecretInfo)
| RTransition (currentVersion previousVersion revision : Z)
| RVersionSet (affectedVersions : list Z) (revision : Z)
| RCohort (anchorVersion : Z) (affectedVersions : list Z) (revision : Z)
| RWhoAmI (identity kind : jstr) (ns : option jstr) (authMethod : jstr)
| RVerified (r : VerifyResult).

(** ** State *)

(** [TransportCallOptions]: the bearer token, the deadline, and the caller's
    signal (the client's own abort signal is always joined to it). *)
Record TransportCallOptions := {
  u_authorization : option jstr;
  u_deadline : Z;
  u_signal : option signal
}.

Inductive effect :=
| Requested (id : nat) (q : request) (u : TransportCallOptions)
| Answered (id : nat) (r : res JsError response)
| CacheCall (o : cache_op)
| Served (id : nat) (path : jstr) (version : Z) (label value : jstr) (now : Z)
| RootAborted
| TransportClosed.

(** What the call is about, once it is known. *)
Inductive place := PRef (r : ResourceRef) | PNamespace (ns : NamespaceRef) | PNone.

(** Where a task is: its continuation is due, it waits for a discovery, it
    waits for the server (a parameter read with its generation), or its
    promise has settled. *)
Inductive phase :=
| Located
| Joining (promise : nat)
| Sent (q : request) (generation : option ident)
| Finished (r : res JsError result).

(** [t_buffer] is the plaintext copy of a [putSecret]. *)
Record task := { t_call : call; t_place : place; t_buffer : option nat; t_phase : phase }.

Inductive closing := NotClosing | StoppingSubscriptions | ClosingTransport | CloseDone (r : res JsError unit).

Record Client := {
  token : option jstr;
  timeoutMs : Z;
  configuredNamespace : option NamespaceRef;
  cache : ReadCache;
  dispatcher : Dispatcher;
  discoveredNamespace : option (option NamespaceRef);
  namespacePromise : option nat;
  promises : list (option (res JsError (option NamespaceRef)));
  subscriptions : bool;
  closed : bool;
  closeAttempt : closing;
  reasons : gmap signal JsError;
  buffers : list (list Z);
  tasks : list task;
  trace : list effect
}.

(** The readings of [Date.now()] of one synchronous stretch, by the place
    that reads. *)
Inductive reading := ReadActive | ReadJoin | ReadLookup | ReadCall | ReadStore | ReadEvict.
Abbreviation clock := (reading -> Z).

(** Record updates. *)
Definition set_cache (c : ReadCache) (cl : Client) : Client :=
  {| token := token cl; timeoutMs := timeoutMs cl; configuredNamespace := configuredNamespace cl; cache := c;
     dispatcher := dispatcher cl; discoveredNamespace := discoveredNamespace cl; namespacePromise := namespacePromise cl;
     promises := promises cl; subscriptions := subscriptions cl; closed := closed cl; closeAttempt := closeAttempt cl;
     reasons := reasons cl; buffers := buffers cl; tasks := tasks cl; trace := trace cl |}.
Definition set_dispatcher (d : Dispatcher) (cl : Client) : Client :=
  {| token := token cl; timeoutMs := timeoutMs cl; configuredNamespace := configuredNamespace cl; cache := cache cl;
     dispatcher := d; discoveredNamespace := discoveredNamespace cl; namespacePromise := namespacePromise cl;
     promises := promises cl; subscriptions := subscriptions cl; closed := closed cl; closeAttempt := closeAttempt cl;
     reasons := reasons cl; buffers := buffers cl; tasks := tasks cl; trace := trace cl |}.
Definition set_discovery (d : option (option NamespaceRef)) (n : option nat)
    (ps : list (option (res JsError (option NamespaceRef)))) (cl : Client) : Client :=
  {| token := token cl; timeoutMs := timeoutMs cl; configuredNamespace := configuredNamespace cl; cache := cache cl;
     dispatcher := dispatcher cl; discoveredNamespace := d; namespacePromise := n;
     promises := ps; subscriptions := subscriptions cl; closed := closed cl; closeAttempt := closeAttempt cl;
     reasons := reasons cl; buffers := buffers cl; tasks := tasks cl; trace := trace cl |}.
Definition set_close (s c : bool) (a : closing) (cl : Client) : Client :=
  {| token := token cl; timeoutMs := timeoutMs cl; configuredNamespace := configuredNamespace cl; cache := cache cl;
     dispatcher := dispatcher cl; discoveredNamespace := discoveredNamespace cl; namespacePromise := namespacePromise cl;
     promises := promises cl; subscriptions := s; closed := c; closeAttempt := a;
     reasons := reasons cl; buffers := buffers cl; tasks := tasks cl; trace := trace cl |}.
Definition set_reasons (r : gmap signal JsError) (cl : Client) : Client :=
  {| token := token cl; timeoutMs := timeoutMs cl; configuredNamespace := configuredNamespace cl; cache := cache cl;
     dispatcher := dispatcher cl; discoveredNamespace := discoveredNamespace cl; namespacePromise := namespacePromise cl;
     promises := promises cl; subscriptions := subscriptions cl; closed := closed cl; closeAttempt := closeAttempt cl;
     reasons := r; buffers := buffers cl; tasks := tasks cl; trace := trace cl |}.
Definition set_tasks (ts : list task) (bs : list (list Z)) (cl : Client) : Client :=
  {| token := token cl; timeoutMs := timeoutMs cl; configuredNamespace := configuredNamespace cl; cache := cache cl;
     dispatcher := dispatcher cl; discoveredNamespace := discoveredNamespace cl; namespacePromise := namespacePromise cl;
     promises := promises cl; subscriptions := subscriptions cl; closed := closed cl; closeAttempt := closeAttempt cl;
     reasons := reasons cl; buffers := bs; tasks := ts; trace := trace cl |}.
Definition emit (e : effect) (cl : Client) : Client :=
  {| token := token cl; timeoutMs := timeoutMs cl; configuredNamespace := configuredNamespace cl; cache := cache cl;
     dispatcher := dispatcher cl; discoveredNamespace := discoveredNamespace cl; namespacePromise := namespacePromise cl;
     promises := promises cl; subscriptions := subscriptions cl; closed := closed cl; closeAttempt := closeAttempt cl;
     reasons := reasons cl; buffers := buffers cl; tasks := tasks cl; trace := trace cl ++ [e] |}.

(** A call of the cache. *)
Definition touch (o : cache_op) (cl : Client) : Client :=
  emit (CacheCall o) (set_cache (cache_step (cache cl) o) cl).

Definition with_phase (p : phase) (t : task) : task :=
  {| t_call := t_call t; t_place := t_place t; t_buffer := t_buffer t; t_phase := p |}.
Definition with_place (p : place) (t : task) : task :=
  {| t_call := t_call t; t_place := p; t_buffer := t_buffer t; t_phase := Located |}.

Definition set_phase (id : nat) (p : phase) (cl : Client) : Client :=
  set_tasks (alter (with_phase p) id (tasks cl)) (buffers cl) cl.
Definition set_place (id : nat) (p : place) (cl : Client) : Client :=
  set_tasks (alter (with_place p) id (tasks cl)) (buffers cl) cl.

Definition buffer_of (id : nat) (cl : Client) : option nat := tasks cl !! id ≫= t_buffer.

(** The promise of the call settles; the [finally] of [putSecret] first
    overwrites its plaintext. *)
Definition wipe (b : option nat) (bs : list (list Z)) : list (list Z) :=
  match b with Some b => alter (fun l => replicate (length l) 0) b bs | None => bs end.
Definition finish (id : nat) (r : res JsError result) (cl : Client) : Client :=
  set_tasks (alter (with_phase (Finished r)) id (tasks cl)) (wipe (buffer_of id cl) (buffers cl)) cl.

(** ** Construction *)

Record KmsClientOptions := {
  ko_endpoint : option jstr;
  ko_namespace : option jstr;
  ko_token : option jstr;
  ko_credentials : bool;
  ko_insecure : bool;
  ko_transport : bool;
  ko_cacheTtlMs : option (option Z);
  ko_timeoutMs : option (option Z)
}.

(** Milliseconds are integers here; [None] is no finite number. *)
Definition positiveFinite (value : option Z) (name : jstr) : res JsError Z :=
  match value with
  | Some z => if z <=? 0 then Throw (ConfigError (name ++ js " must be positive")) else Ok z
  | None => Throw (ConfigError (name ++ js " must be positive"))
  end.

(** The transport branch of the constructor. *)
Definition check_transport (o : KmsClientOptions) : res JsError unit :=
  if ko_transport o then
    if ko_credentials o || ko_insecure o then
      Throw (ConfigError (js "transport cannot be combined with credentials or insecure mode"))
    else Ok tt
  else if bool_decide (trim (default [] (ko_endpoint o)) = []) then Throw (ConfigError (js "KMS endpoint is required"))
  else if ko_credentials o && ko_insecure o then
    Throw (ConfigError (js "credentials and insecure mode are mutually exclusive"))
  else if negb (ko_credentials o) && negb (ko_insecure o) then
    Throw (ConfigError (js "transport security is required; supply TLS/mTLS credentials or explicitly set insecure for local development"))
  else Ok tt.

Definition new_KmsClient (o : KmsClientOptions) : res JsError Client :=
  let* timeout := positiveFinite (default (Some DEFAULT_TIMEOUT_MS) (ko_timeoutMs o)) (js "timeoutMs") in
  let* configured := match ko_namespace o with
                     | None | Some [] => Ok None
                     | Some s => let* ns := parseNamespace s in Ok (Some ns)
                     end in
  match new_ReadCache (default (Some 0) (ko_cacheTtlMs o)) None with
  | Throw message => Throw (TypeError message)
  | Ok c =>
      let* _ := check_transport o in
      Ok {| token := ko_token o; timeoutMs := timeout; configuredNamespace := configured; cache := c;
            dispatcher := new_CallbackDispatcher; discoveredNamespace := None; namespacePromise := None;
            promises := []; subscriptions := false; closed := false; closeAttempt := NotClosing;
            reasons := ∅; buffers := []; tasks := []; trace := [] |}
  end.

(** ** Shared checks *)

Definition assertOpen (cl : Client) : res JsError unit :=
  if closed cl then Throw (KmsError failed_precondition (js "KMS client is closed") None None) else Ok tt.

(** [_metadata] *)
Definition metadata (cl : Client) : option jstr :=
  match token cl with
  | None | Some [] => None
  | Some t => Some (js "Bearer " ++ t)
  end.

Definition callOptions (now : clock) (o : CallOptions) (cl : Client) : res JsError TransportCallOptions :=
  let* _ := assertOpen cl in
  let defaultDeadline := now ReadCall + timeoutMs cl in
  Ok {| u_authorization := metadata cl;
        u_deadline := match o_deadline o with
                      | Some (Some d) => if d <? defaultDeadline then d else defaultDeadline
                      | _ => defaultDeadline
                      end;
        u_signal := o_signal o |}.

(** [new DOMException("Aborted", "AbortError")] *)
Definition AbortError : JsError :=
  JError (PValue (js "AbortError")) (js "Aborted") (PValue 20) POther POther None.
Definition reason_of (reason : JsError) : JsError :=
  match reason with JUndefined | JNull => AbortError | _ => reason end.
Definition discovery_deadline : JsError :=
  KmsError deadline_exceeded (js "KMS namespace discovery deadline exceeded") None None.

Definition assertCallerActive (now : Z) (o : CallOptions) (cl : Client) : res JsError unit :=
  match o_signal o ≫= fun s => reasons cl !! s with
  | Some reason => Throw (reason_of reason)
  | None =>
      match o_deadline o with
      | Some (Some d) => if d <=? now then Throw discovery_deadline else Ok tt
      | _ => Ok tt
      end
  end.

(** ** Namespace discovery *)

(** A new discovery: its [whoAmI] sends at once. *)
Definition start_discovery (now : clock) (cl : Client) : Client * nat :=
  let p := length (promises cl) in
  let id := length (tasks cl) in
  let t := {| t_call := CDiscover p; t_place := PNone; t_buffer := None; t_phase := Located |} in
  let cl := set_tasks (tasks cl ++ [t]) (buffers cl) cl in
  let cl := set_discovery (discoveredNamespace cl) (Some p) (promises cl ++ [None]) cl in
  match callOptions now (options_of (CDiscover p)) cl with
  | Ok u => (emit (Requested id QWhoAmI u) (set_phase id (Sent QWhoAmI None) cl), p)
  | Throw e =>
      (finish id (Throw e) (set_discovery (discoveredNamespace cl) None
         (<[p := Some (Throw e)]> (promises cl)) cl), p)
  end.

(** [discoverNamespace], up to its [await]: the namespace when it is known,
    or the promise to wait for. *)
Definition discoverNamespace (now : clock) (o : CallOptions) (cl : Client)
  : Client * res JsError (option NamespaceRef + nat) :=
  match (let* _ := assertOpen cl in assertCallerActive (now ReadActive) o cl) with
  | Throw e => (cl, Throw e)
  | Ok _ =>
      match configuredNamespace cl with
      | Some ns => (cl, Ok (inl (Some ns)))
      | None =>
          match discoveredNamespace cl with
          | Some ns => (cl, Ok (inl ns))
          | None =>
              let '(cl, p) := match namespacePromise cl with
                              | Some p => (cl, p)
                              | None => start_discovery now cl
                              end in
              match assertCallerActive (now ReadJoin) o cl with
              | Throw e => (cl, Throw e)
              | Ok _ => (cl, Ok (inr p))
              end
          end
      end
  end.

(** [whoAmI] on the server's answer. *)
Definition identity_of (name kind : jstr) (ns : option NamespaceRef) (authMethod : jstr) : result :=
  RWhoAmI name kind ((fun ns => displayNamespace (fromWireNamespace ns)) <$> ns) authMethod.

(** The [then] and [catch] of the discovery. They run in microtasks right
    after the answer, before any other operation; the answer and they are one
    step here. *)
Definition on_discovered (p : nat) (r : res JsError response) (cl : Client) : Client :=
  let found := match r with
               | Throw e => Throw (throwMapped e)
               | Ok (AWhoAmI _ _ (Some ns) _) =>
                   let* ns := parseNamespace (displayNamespace (fromWireNamespace ns)) in Ok (Some ns)
               | Ok _ => Ok None
               end in
  match found with
  | Ok ns => set_discovery (Some ns) (namespacePromise cl) (<[p := Some (Ok ns)]> (promises cl)) cl
  | Throw e => set_discovery (discoveredNamespace cl) None (<[p := Some (Throw e)]> (promises cl)) cl
  end.

(** ** What precedes the first [await] *)

(** The checks of each secret mutation, and the request they lead to. *)
Definition mutation_request (m : mutation) : res JsError (WireRef -> request) :=
  match m with
  | DeleteSecret => Ok QDeleteSecret
  | SetSecretEnabled enabled version =>
      let* v := assertUint64 (default (BigInt 0) version) (js "version") false in
      Ok (fun ref => QDisableSecret ref v enabled)
  | DestroySecretVersion version =>
      let* v := assertUint64 version (js "destroySecretVersion version") true in
      Ok (fun ref => QDestroySecretVersion ref v)
  | PromoteSecretVersion version =>
      let* v := assertUint64 version (js "promoteSecretVersion version") true in
      Ok (fun ref => QPromoteSecretVersion ref v)
  | BindSecret bind bindingKey expected =>
      let name := if bind then js "bindSecret" else js "unbindSecret" in
      let* key := requiredCredential bindingKey (name ++ js " bindingKey") in
      let* v := assertUint64 expected (name ++ js " expectedCurrentVersion") true in
      Ok (fun ref => QBindSecret bind ref v key)
  | RotateSecretBindingKey bindingKey newBindingKey expected =>
      let* key := requiredCredential bindingKey (js "rotateSecretBindingKey bindingKey") in
      let* new := requiredCredential newBindingKey (js "rotateSecretBindingKey newBindingKey") in
      let* v := assertUint64 expected (js "rotateSecretBindingKey expectedCurrentVersion") true in
      Ok (fun ref => QRotateSecretBindingKey ref v key new)
  | PurgeSecretUnboundVersions revision versions =>
      let* guards := requiredVersionSetGuards revision versions (js "purgeSecretUnboundVersions") in
      Ok (fun ref => QPurgeSecretUnboundVersions ref guards)
  | PurgeSecretBindingCohort bindingKey anchor revision versions =>
      let* key := requiredCredential bindingKey (js "purgeSecretBindingCohort bindingKey") in
      let* a := assertUint64 (default (BigInt 0) anchor) (js "purgeSecretBindingCohort anchorVersion") false in
      let* guards := requiredVersionSetGuards revision versions (js "purgeSecretBindingCohort") in
      Ok (fun ref => QPurgeSecretBindingCohort ref a key guards)
  end.

Definition preview_cohort_request (bindingKey : credential) (anchor : option bigarg) : res JsError (WireRef -> request) :=
  let* key := requiredCredential bindingKey (js "previewSecretBindingCohort bindingKey") in
  let* a := assertUint64 (default (BigInt 0) anchor) (js "previewSecretBindingCohort anchorVersion") false in
  Ok (fun ref => QPreviewSecretBindingCohort ref a key).

(** [putSecret] up to its plaintext copy. *)
Definition putSecret_checks (value : secret_value) (expiresAtUnixMs : option bigarg) (bindingKey : credential)
  : res JsError (list Z * jstr * Z) :=
  let* plaintext := plaintext_of value in
  let* expires := checkExpiry expiresAtUnixMs in
  let* key := optionalCredential bindingKey (js "putSecret bindingKey") in
  Ok (plaintext, key, expires).

(** How a call learns what it is about: by resolving a key, by requiring a
    namespace, or at once and without an [await]. *)
Inductive target := TKey (key : jstr) | TRequire (operation : jstr) | TNow (p : place).

Definition namespace_target (ns : option jstr) (operation : jstr) : res JsError target :=
  match ns with
  | None | Some [] => Ok (TRequire operation)
  | Some s => let* ns := parseNamespace s in Ok (TNow (PNamespace ns))
  end.

Definition target_of (c : call) : res JsError target :=
  match c with
  | CWhoAmI _ | CDiscover _ | CVerifyReleaseDefaults _ _ => Ok (TNow PNone)
  | CFetchParameter ref _ _ _ | CFetchSecret ref _ _ _ _ => Ok (TNow (PRef ref))
  | CListParametersInNamespace ns _ => Ok (TNow (PNamespace ns))
  | CListParameters ns _ => namespace_target ns (js "listParameters")
  | CListSecrets ns _ => namespace_target ns (js "listSecrets")
  | CGetParameter key _ | CGetParameterInfo key _ | CPutParameter key _ _ _ _ | CDeleteParameter key _
  | CGetParameterMetadata key _ | CGetSecretMetadata key _ | CPreviewSecretUnboundVersions key _ => Ok (TKey key)
  | CGetSecret key o =>
      let* _ := optionalCredential (go_bindingKey o) (js "getSecret bindingKey") in
      let* _ := normalizeVersionRef (go_selector o) in
      Ok (TKey key)
  | CPutSecret key value _ _ bindingKey expires _ =>
      let* _ := putSecret_checks value expires bindingKey in Ok (TKey key)
  | CSecretMutation key m _ => let* _ := mutation_request m in Ok (TKey key)
  | CPreviewSecretBindingCohort key bindingKey anchor _ =>
      let* _ := preview_cohort_request bindingKey anchor in Ok (TKey key)
  end.

(** ** What follows the resolution *)

(** The [catch] of each call. *)
Definition map_error (c : call) (e : JsError) : JsError :=
  match c with
  | CGetSecret _ _ | CFetchSecret _ _ _ _ _ | CPutSecret _ _ _ _ _ _ _
  | CPreviewSecretBindingCohort _ _ _ _ | CPreviewSecretUnboundVersions _ _ => throwSecretMapped mapSecretGrpcError e
  | CSecretMutation _ (PurgeSecretUnboundVersions _ _) _
  | CSecretMutation _ (PurgeSecretBindingCohort _ _ _ _) _ => throwSecretMapped mapPurgeSecretGrpcError e
  | CSecretMutation _ _ _ => throwSecretMapped mapSecretGrpcError e
  | CVerifyReleaseDefaults _ _ => throwVerifyMapped e
  | _ => throwMapped e
  end.

(** A unary request inside the [try] of the call. *)
Definition unary (now : clock) (id : nat) (c : call) (q : request) (g : option ident) (cl : Client) : Client :=
  match callOptions now (options_of c) cl with
  | Ok u => emit (Requested id q u) (set_phase id (Sent q g) cl)
  | Throw e => finish id (Throw (map_error c e)) (match g with Some _ => touch (OEnd g) cl | None => cl end)
  end.

Definition fetchParameter (now : clock) (id : nat) (c : call) (ref : ResourceRef) (version : Z) (label : jstr)
    (cl : Client) : Client :=
  match assertOpen cl with
  | Throw e => finish id (Throw e) cl
  | Ok _ =>
      let path := displayPath ref in
      let generation := (beginParameterRead (cache cl) path).2 in
      unary now id c (QGetParameter (toWireRef ref) version label) generation (touch (OBegin path) cl)
  end.

Definition getParameter (now : clock) (id : nat) (c : call) (ref : ResourceRef) (selector : VersionRef)
    (cl : Client) : Client :=
  match normalizeVersionRef selector with
  | Throw e => finish id (Throw e) cl
  | Ok (version, label) =>
      let path := displayPath ref in
      let cached := (getParam (cache cl) (now ReadLookup) path version label).2 in
      let cl := touch (OGet (now ReadLookup) path (positionalSelector version label)) cl in
      match cached with
      | Throw e => finish id (Throw e) cl
      | Ok (Some value) =>
          finish id (Ok (RText value)) (emit (Served id path version label value (now ReadLookup)) cl)
      | Ok None => fetchParameter now id c ref version label cl
      end
  end.

Definition getParameterInfo (now : clock) (id : nat) (c : call) (ref : ResourceRef) (selector : VersionRef)
    (cl : Client) : Client :=
  match normalizeVersionRef selector with
  | Throw e => finish id (Throw e) cl
  | Ok (version, label) => fetchParameter now id c ref version label cl
  end.

Definition fetchSecret (now : clock) (id : nat) (c : call) (ref : ResourceRef) (version : Z) (label : jstr)
    (bindingKey : credential) (cl : Client) : Client :=
  match (let* _ := assertOpen cl in optionalCredential bindingKey (js "fetchSecret bindingKey")) with
  | Throw e => finish id (Throw e) cl
  | Ok key => unary now id c (QGetSecret (toWireRef ref) version label key) None cl
  end.

Definition list_request (c : call) (ns : NamespaceRef) (o : ListOptions) : res JsError request :=
  let* size := validPageSize (lo_pageSize o) in
  let prefix := default [] (lo_keyPrefix o) in
  let pageToken := default [] (lo_pageToken o) in
  Ok (match c with
      | CListSecrets _ _ => QListSecrets (toWireNamespace ns) prefix size pageToken
      | _ => QListParameters (toWireNamespace ns) prefix size pageToken
      end).

(** The request of every other call. *)
Definition request_of (c : call) (p : place) (buffer : option nat) : res JsError (option request) :=
  match c, p with
  | CPutParameter _ value contentType metadataJson _, PRef ref =>
      Ok (Some (QPutParameter (toWireRef ref) value (default [] contentType) (default [] metadataJson)))
  | CPutSecret _ value contentType metadataJson bindingKey expires _, PRef ref =>
      let* checked := putSecret_checks value expires bindingKey in
      Ok ((fun b => QPutSecret (toWireRef ref) b (default [] contentType) (default [] metadataJson)
                      checked.1.2 checked.2) <$> buffer)
  | CListParameters _ o, PNamespace ns | CListParametersInNamespace _ o, PNamespace ns
  | CListSecrets _ o, PNamespace ns => let* q := list_request c ns o in Ok (Some q)
  | CDeleteParameter _ _, PRef ref => Ok (Some (QDeleteParameter (toWireRef ref)))
  | CGetParameterMetadata _ _, PRef ref => Ok (Some (QGetParameterMetadata (toWireRef ref)))
  | CGetSecretMetadata _ _, PRef ref => Ok (Some (QGetSecretMetadata (toWireRef ref) 0 []))
  | CSecretMutation _ m _, PRef ref => let* q := mutation_request m in Ok (Some (q (toWireRef ref)))
  | CPreviewSecretBindingCohort _ bindingKey anchor _, PRef ref =>
      let* q := preview_cohort_request bindingKey anchor in Ok (Some (q (toWireRef ref)))
  | CPreviewSecretUnboundVersions _ _, PRef ref => Ok (Some (QPreviewSecretUnboundVersions (toWireRef ref)))
  | _, _ => Ok None
  end.

(** The two calls that check the client themselves before anything else. *)
Definition whoAmI (now : clock) (id : nat) (c : call) (cl : Client) : Client :=
  match assertOpen cl with
  | Throw e => finish id (Throw e) cl
  | Ok _ => unary now id c QWhoAmI None cl
  end.

Definition verifyReleaseDefaults (now : clock) (id : nat) (c : call) (v : VerifyOptions) (cl : Client) : Client :=
  match (let* _ := assertOpen cl in verify_request v) with
  | Throw e => finish id (Throw e) cl
  | Ok q => unary now id c (QVerifyReleaseDefaults q) None cl
  end.

(** The call from the moment its place is known to its request. *)
Definition continue (now : clock) (id : nat) (t : task) (cl : Client) : Client :=
  let c := t_call t in
  match c, t_place t with
  | CGetParameter _ o, PRef ref => getParameter now id c ref (go_selector o) cl
  | CGetParameterInfo _ o, PRef ref => getParameterInfo now id c ref (go_selector o) cl
  | CFetchParameter _ version label _, PRef ref => fetchParameter now id c ref version label cl
  | CGetSecret _ o, PRef ref =>
      match normalizeVersionRef (go_selector o) with
      | Throw e => finish id (Throw e) cl
      | Ok (version, label) => fetchSecret now id c ref version label (go_bindingKey o) cl
      end
  | CFetchSecret _ version label bindingKey _, PRef ref => fetchSecret now id c ref version label bindingKey cl
  | CWhoAmI _, PNone => whoAmI now id c cl
  | CVerifyReleaseDefaults v _, PNone => verifyReleaseDefaults now id c v cl
  | _, p =>
      match request_of c p (t_buffer t) with
      | Throw e => finish id (Throw e) cl
      | Ok (Some q) => unary now id c q None cl
      | Ok None => cl
      end
  end.

(** ** Resolution *)

(** What the discovered namespace makes of a target. *)
Definition place_for (tgt : target) (ns : option NamespaceRef) : res JsError place :=
  match tgt with
  | TKey key =>
      let* ref := resolveRef key (match ns with Some ns => NsRef ns | None => NsNone end) in Ok (PRef ref)
  | TRequire operation =>
      match ns with
      | Some ns => Ok (PNamespace ns)
      | None => Throw (KmsError no_namespace (operation ++ js " requires a bound namespace") None None)
      end
  | TNow p => Ok p
  end.

Definition place_at (id : nat) (tgt : target) (ns : option NamespaceRef) (cl : Client) : Client :=
  match place_for tgt ns with
  | Ok p => set_place id p cl
  | Throw e => finish id (Throw e) cl
  end.

(** [discoverNamespace] for a task, up to its [await]. *)
Definition discover_for (now : clock) (id : nat) (o : CallOptions) (tgt : target) (cl : Client) : Client :=
  match discoverNamespace now o cl with
  | (cl, Throw e) => finish id (Throw e) cl
  | (cl, Ok (inl ns)) => place_at id tgt ns cl
  | (cl, Ok (inr p)) => set_phase id (Joining p) cl
  end.

(** [#resolveResourceRefForCall], [requireNamespace], or neither. *)
Definition locate (now : clock) (id : nat) (c : call) (tgt : target) (cl : Client) : Client :=
  match tgt with
  | TKey key =>
      match assertOpen cl with
      | Throw e => finish id (Throw e) cl
      | Ok _ =>
          if startsWith (js "/") key then place_at id tgt None cl
          else discover_for now id (options_of c) tgt cl
      end
  | TRequire _ => discover_for now id (options_of c) tgt cl
  | TNow p => continue now id {| t_call := c; t_place := p; t_buffer := None; t_phase := Located |} (set_place id p cl)
  end.

(** The plaintext copy of [putSecret]; the other calls have none. *)
Definition plaintext (c : call) : option (list Z) :=
  match c with
  | CPutSecret _ value _ _ _ _ _ => match plaintext_of value with Ok b => Some b | Throw _ => None end
  | _ => None
  end.

Definition push (c : call) (p : phase) (b : option (list Z)) (cl : Client) : Client :=
  set_tasks
    (tasks cl ++ [{| t_call := c; t_place := PNone; t_buffer := (fun _ => length (buffers cl)) <$> b; t_phase := p |}])
    (buffers cl ++ option_list b) cl.

(** A call of the public interface, up to its first [await]. *)
Definition start (now : clock) (c : call) (cl : Client) : Client :=
  match target_of c with
  | Throw e => push c (Finished (Throw e)) None cl
  | Ok tgt => locate now (length (tasks cl)) c tgt (push c Located (plaintext c) cl)
  end.

(** The continuation of a suspended call runs. *)
Definition resume (now : clock) (id : nat) (cl : Client) : Client :=
  match tasks cl !! id with
  | None => cl
  | Some t =>
      match t_phase t with
      | Located => continue now id t cl
      | Joining p =>
          match promises cl !! p, target_of (t_call t) with
          | Some (Some (Ok ns)), Ok tgt => place_at id tgt ns cl
          | Some (Some (Throw e)), _ => finish id (Throw e) cl
          | _, _ => cl
          end
      | _ => cl
      end
  end.

(** ** Replies *)

Definition read_parameter (ref : ResourceRef) (version : Z) (r : res JsError response) : res JsError ParameterInfo :=
  match r with
  | Throw e => Throw e
  | Ok (AParameter (Some w)) =>
      let* p := parameterFromWire w in
      let* _ := assertReadIdentity (js "parameter") ref (wp_ref w) (pa_version p) version in
      Ok p
  | Ok _ => Throw (internal_error (js "KMS parameter response was empty"))
  end.

Definition parameter_result (c : call) (p : ParameterInfo) : result :=
  match c with CGetParameter _ _ => RText (pa_value p) | _ => RParameter p end.

Definition settled (c : call) (r : res JsError result) : res JsError result :=
  match r with Ok x => Ok x | Throw e => Throw (map_error c e) end.

(** [fetchParameter] after its [await], with its [catch] and [finally]. *)
Definition on_parameter (now : clock) (id : nat) (c : call) (ref : ResourceRef) (version : Z) (label : jstr)
    (g : option ident) (r : res JsError response) (cl : Client) : Client :=
  let p := read_parameter ref version r in
  let '(cl, stored) :=
    match p, g with
    | Ok p, Some g =>
        (touch (OCacheIf (now ReadStore) (now ReadEvict) g version label (pa_value p)) cl,
         (cacheParameterIfUnchanged (cache cl) (now ReadStore) (now ReadEvict) g version label (pa_value p)).2)
    | _, _ => (cl, Ok false)
    end in
  finish id (settled c (let* p := p in let* _ := stored in Ok (parameter_result c p))) (touch (OEnd g) cl).

(** [fetchSecret] after its [await]. *)
Definition read_secret (ref : ResourceRef) (version : Z) (s : WireSecret) : res JsError Secret :=
  match ws_ref s with
  | None => Throw (internal_error (js "KMS secret response omitted resource reference"))
  | Some wref =>
      let* returned := fromWireRef wref in
      let* _ := assertReadIdentity (js "secret") ref (ws_ref s) (ws_version s) version in
      new_Secret (ws_value s) (displayPath returned) (ws_version s) (ws_contentType s)
  end.

Definition read_secret_metadata (ref : ResourceRef) (s : option WireSecretMetadata) : res JsError SecretInfo :=
  match s with
  | None => Throw (internal_error (js "KMS secret metadata response was empty"))
  | Some s =>
      let* _ := assertResourceIdentity (js "secret metadata") ref (wm_ref s) in
      secretInfoFromWire s
  end.

Definition read_verdicts (q : VerifyRequest) (r : option VerifyResponse) : res JsError VerifyResult :=
  match r with
  | None => Throw (internal_error (js "KMS verify response was empty"))
  | Some r =>
      match verifyResultFromWire r (ve_alias <$> vq_entries q) with
      | Ok v => Ok v
      | Throw message => Throw (internal_error message)
      end
  end.

(** The result of every call but the parameter reads and the discovery. *)
Definition decode (p : place) (q : request) (a : response) : option (res JsError result) :=
  match q, p, a with
  | QWhoAmI, _, AWhoAmI name kind ns authMethod => Some (Ok (identity_of name kind ns authMethod))
  | QGetSecret _ version _ _, PRef ref, ASecret s => Some (let* s := read_secret ref version s in Ok (RSecret s))
  | QGetSecretMetadata _ _ _, PRef ref, ASecretMetadata s =>
      Some (let* s := read_secret_metadata ref s in Ok (RSecretInfo s))
  | QGetParameterMetadata _, PRef ref, AParameterMetadata m =>
      Some (let* r := match md_ref m with Some w => fromWireRef w | None => Ok ref end in Ok (RMetadata r m))
  | QVerifyReleaseDefaults q, _, AVerify r => Some (let* v := read_verdicts q r in Ok (RVerified v))
  | _, _, APut version revision => Some (Ok (RPut version revision))
  | _, _, AParameters l next => Some (let* items := res_map parameterFromWire l in Ok (RParameters items next))
  | _, _, ASecrets l next => Some (let* items := res_map secretInfoFromWire l in Ok (RSecrets items next))
  | _, _, ARevision revision => Some (Ok (RRevision revision))
  | _, _, ATransition current previous revision => Some (Ok (RTransition current previous revision))
  | _, _, AVersionSet versions revision => Some (Ok (RVersionSet versions revision))
  | _, _, ACohort anchor versions revision => Some (Ok (RCohort anchor versions revision))
  | _, _, _ => None
  end.

(** A successful write invalidates what was cached of its parameter; the
    secret half of the cache retains nothing. *)
Definition invalidate_after (c : call) (p : place) (cl : Client) : Client :=
  match c, p with
  | CPutParameter _ _ _ _ _, PRef ref | CDeleteParameter _ _, PRef ref => touch (OInvalidate (displayPath ref)) cl
  | CPutSecret _ _ _ _ _ _ _, PRef ref | CSecretMutation _ _ _, PRef ref =>
      set_cache (invalidateSecret (cache cl) (displayPath ref)) cl
  | _, _ => cl
  end.

(** The server's answer to the request of a task. *)
Definition on_reply (now : clock) (id : nat) (r : res JsError response) (cl : Client) : Client :=
  match tasks cl !! id with
  | None => cl
  | Some t =>
      match t_phase t with
      | Sent q g =>
          if match r with Ok a => fits q a | Throw _ => true end then
            let cl := emit (Answered id r) cl in
            match t_call t, q, t_place t with
            | CDiscover p, _, _ =>
                finish id (settled (CDiscover p) (match r with
                                                  | Ok (AWhoAmI name kind ns m) => Ok (identity_of name kind ns m)
                                                  | Ok _ => Throw JOther
                                                  | Throw e => Throw e
                                                  end)) (on_discovered p r cl)
            | c, QGetParameter _ version label, PRef ref => on_parameter now id c ref version label g r cl
            | c, _, p =>
                match r with
                | Throw e => finish id (Throw (map_error c e)) cl
                | Ok a =>
                    match decode p q a with
                    | Some x => finish id (settled c x) (invalidate_after c p cl)
                    | None => cl
                    end
                end
            end
          else cl
      | _ => cl
      end
  end.

(** ** Cancellation *)

(** The caller's signal aborts: every call that waits for the discovery with
    it settles; an RPC under way is the transport's to cancel. *)
Definition abort_task (s : signal) (reason : JsError) (t : task) : task :=
  match t_phase t with
  | Joining _ =>
      if bool_decide (o_signal (options_of (t_call t)) = Some s)
      then with_phase (Finished (Throw (reason_of reason))) t else t
  | _ => t
  end.
Definition aborted_buffers (s : signal) (ts : list task) (bs : list (list Z)) : list (list Z) :=
  foldl (fun bs t => match t_phase t with
                     | Joining _ => if bool_decide (o_signal (options_of (t_call t)) = Some s) then wipe (t_buffer t) bs else bs
                     | _ => bs
                     end) bs ts.
Definition abort (s : signal) (reason : JsError) (cl : Client) : Client :=
  match reasons cl !! s with
  | Some _ => cl
  | None =>
      set_reasons (<[s := reason]> (reasons cl))
        (set_tasks (abort_task s reason <$> tasks cl) (aborted_buffers s (tasks cl) (buffers cl)) cl)
  end.

(** The timer of [awaitCaller]. *)
Definition expire (id : nat) (cl : Client) : Client :=
  match tasks cl !! id with
  | Some t =>
      match t_phase t, o_deadline (options_of (t_call t)) with
      | Joining _, Some (Some _) => finish id (Throw discovery_deadline) cl
      | _, _ => cl
      end
  | None => cl
  end.

(** ** Subscriptions and callbacks *)

(** [#subscriptionManager] *)
Definition subscriptionManager (cl : Client) : Client * res JsError unit :=
  match assertOpen cl with
  | Throw e => (cl, Throw e)
  | Ok _ => (set_close true (closed cl) (closeAttempt cl) cl, Ok tt)
  end.

(** [_dispatch] *)
Definition dispatch (path : jstr) (callback : nat) (cl : Client) : Client :=
  set_dispatcher (enqueue path callback (dispatcher cl)) cl.

(** ** Close *)

Definition close (cl : Client) : Client :=
  match closeAttempt cl with
  | NotClosing => emit RootAborted (set_close (subscriptions cl) true StoppingSubscriptions cl)
  | _ => cl
  end.

(** [#finishClose] after [stop]: a rejection of it ends the attempt. *)
Definition on_stopped (r : res JsError unit) (cl : Client) : Client :=
  match closeAttempt cl with
  | StoppingSubscriptions =>
      match r with
      | Ok _ =>
          emit TransportClosed
            (set_close (subscriptions cl) (closed cl) ClosingTransport
               (touch OClear (set_dispatcher (Dispatcher.close (dispatcher cl)) cl)))
      | Throw e => set_close (subscriptions cl) (closed cl) (CloseDone (Throw e)) cl
      end
  | _ => cl
  end.

Definition on_transport_closed (r : res JsError unit) (cl : Client) : Client :=
  match closeAttempt cl with
  | ClosingTransport => set_close (subscriptions cl) (closed cl) (CloseDone r) cl
  | _ => cl
  end.

(** ** Runs *)

(** [OInvalidateParam] and [OInvalidateParams] are the subscription manager's
    calls of the shared cache. *)
Inductive op :=
| OStart (now : clock) (c : call)
| OResume (now : clock) (id : nat)
| OReply (now : clock) (id : nat) (r : res JsError response)
| OAbort (s : signal) (reason : JsError)
| OExpire (id : nat)
| OSubscribe
| ODispatch (path : jstr) (callback : nat)
| OTurn (o : Dispatcher.op)
| OInvalidateParam (path : jstr)
| OInvalidateParams (nss : list NamespaceRef)
| OClose
| OStopped (r : res JsError unit)
| OTransportClosed (r : res JsError unit).

Definition is_turn (o : Dispatcher.op) : bool :=
  match o with ODrain _ _ | OSettle _ _ => true | _ => false end.

Definition step (cl : Client) (o : op) : Client :=
  match o with
  | OStart now c => match c with CDiscover _ => cl | _ => start now c cl end
  | OResume now id => resume now id cl
  | OReply now id r => on_reply now id r cl
  | OAbort s reason => abort s reason cl
  | OExpire id => expire id cl
  | OSubscribe => (subscriptionManager cl).1
  | ODispatch path cb => dispatch path cb cl
  | OTurn o => if is_turn o then set_dispatcher (Dispatcher.step (dispatcher cl) o) cl else cl
  | OInvalidateParam path => touch (OInvalidate path) cl
  | OInvalidateParams nss => touch (OInvalidateNs (inl <$> nss)) cl
  | OClose => close cl
  | OStopped r => on_stopped r cl
  | OTransportClosed r => on_transport_closed r cl
  end.

Definition run (cl : Client) (ops : list op) : Client := foldl step cl ops.
