(* ===== verification/ClientMoves.v ===== *)
(** * ClientMoves: the client's steps, taken apart.

    A step of [Client.run] is a sequence of moves, each of which keeps the
    client in a consistent state: a cache call, a request leaving, an answer
    being taken in, a task changing phase. The invariants of the client are
    then proved move by move. *)
From stdpp Require Import prelude gmap strings relations.
From Stdlib Require Import ZArith Lia.
From S2P Require Import Prelude JsString JsMap Unicode Decimal Errors Refs Cache CacheProofs Contract Release Dispatcher ClientData Client.

(** ** What a call must send *)

(** The request of every call once its place is known, the parameter and
    secret reads included. *)
Definition the_request (c : call) (p : place) (b : option nat) : res JsError (option request) :=
  match c, p with
  | CGetParameter _ o, PRef ref | CGetParameterInfo _ o, PRef ref =>
      let* s := normalizeVersionRef (go_selector o) in Ok (Some (QGetParameter (toWireRef ref) s.1 s.2))
  | CFetchParameter _ version label _, PRef ref => Ok (Some (QGetParameter (toWireRef ref) version label))
  | CGetSecret _ o, PRef ref =>
      let* s := normalizeVersionRef (go_selector o) in
      let* key := optionalCredential (go_bindingKey o) (js "fetchSecret bindingKey") in
      Ok (Some (QGetSecret (toWireRef ref) s.1 s.2 key))
  | CFetchSecret _ version label bindingKey _, PRef ref =>
      let* key := optionalCredential bindingKey (js "fetchSecret bindingKey") in
      Ok (Some (QGetSecret (toWireRef ref) version label key))
  | CWhoAmI _, PNone | CDiscover _, PNone => Ok (Some QWhoAmI)
  | CVerifyReleaseDefaults v _, PNone => let* q := verify_request v in Ok (Some (QVerifyReleaseDefaults q))
  | _, _ => request_of c p b
  end.

Definition is_read (q : request) : bool := match q with QGetParameter _ _ _ => true | _ => false end.
Definition is_sent (p : phase) : bool := match p with Sent _ _ => true | _ => false end.
Definition is_waiting (p : phase) : bool := match p with Located | Joining _ => true | _ => false end.
Definition is_discover (c : call) : bool := match c with CDiscover _ => true | _ => false end.

(** The cache calls that neither begin, fill nor end a read. *)
Definition plain_op (o : cache_op) : bool :=
  match o with OGet _ _ _ | OInvalidate _ | OInvalidateNs _ => true | _ => false end.

(** Effects that are no request, no cache call and no service. *)
Definition quiet (e : effect) : bool :=
  match e with Answered _ _ | RootAborted => true | _ => false end.

(** [closed] and the progress of [close] agree. *)
Definition close_ok (cl : Client) : Prop := closeAttempt cl <> NotClosing -> closed cl = true.

(** Nothing but the dispatcher, the subscriptions, the abort reasons and the
    progress of [close] differs. *)
Record aside (cl cl' : Client) : Prop := {
  as_token : token cl' = token cl;
  as_timeout : timeoutMs cl' = timeoutMs cl;
  as_configured : configuredNamespace cl' = configuredNamespace cl;
  as_cache : cache cl' = cache cl;
  as_discovered : discoveredNamespace cl' = discoveredNamespace cl;
  as_promise : namespacePromise cl' = namespacePromise cl;
  as_promises : promises cl' = promises cl;
  as_closed : closed cl = true -> closed cl' = true;
  as_close : close_ok cl -> close_ok cl';
  as_buffers : buffers cl' = buffers cl;
  as_tasks : tasks cl' = tasks cl;
  as_trace : trace cl' = trace cl
}.

(** The namespace a place may have come from. *)
Inductive source (cl : Client) : target -> option NamespaceRef -> Prop :=
| from_absolute key : startsWith (js "/") key = true -> source cl (TKey key) None
| from_configured tgt ns : configuredNamespace cl = Some ns -> source cl tgt (Some ns)
| from_discovered tgt ns :
    configuredNamespace cl = None -> discoveredNamespace cl = Some ns -> source cl tgt ns
| from_promise tgt p ns : promises cl !! p = Some (Some (Ok ns)) -> source cl tgt ns
| from_call p ns : source cl (TNow p) ns.

Inductive move (cl : Client) : Client -> Prop :=
| MTouch o : plain_op o = true -> move cl (touch o cl)
| MServe id t key o ref version label value now :
    tasks cl !! id = Some t -> t_phase t = Located -> t_call t = CGetParameter key o -> t_place t = PRef ref ->
    normalizeVersionRef (go_selector o) = Ok (version, label) ->
    (getParam (cache cl) now (displayPath ref) version label).2 = Ok (Some value) ->
    move cl (finish id (Ok (RText value)) (emit (Served id (displayPath ref) version label value now)
               (touch (OGet now (displayPath ref) (positionalSelector version label)) cl)))
| MBegin id t ref version label u :
    tasks cl !! id = Some t -> t_phase t = Located -> t_place t = PRef ref -> closed cl = false ->
    the_request (t_call t) (t_place t) (t_buffer t) = Ok (Some (QGetParameter (toWireRef ref) version label)) ->
    let g := (beginParameterRead (cache cl) (displayPath ref)).2 in
    let q := QGetParameter (toWireRef ref) version label in
    move cl (emit (Requested id q u) (set_phase id (Sent q g) (touch (OBegin (displayPath ref)) cl)))
| MSend id t q u :
    tasks cl !! id = Some t -> t_phase t = Located -> closed cl = false -> is_read q = false ->
    the_request (t_call t) (t_place t) (t_buffer t) = Ok (Some q) ->
    move cl (emit (Requested id q u) (set_phase id (Sent q None) cl))
| MParameter now id t ref w version label g r :
    tasks cl !! id = Some t -> t_place t = PRef ref -> is_discover (t_call t) = false ->
    t_phase t = Sent (QGetParameter w version label) g ->
    move cl (on_parameter now id (t_call t) ref version label g r (emit (Answered id r) cl))
| MFail id t e :
    tasks cl !! id = Some t -> is_discover (t_call t) = false ->
    (forall q g, t_phase t = Sent q g -> is_read q = false) ->
    move cl (finish id (Throw e) cl)
| MAnswer id t q g a x :
    tasks cl !! id = Some t -> is_discover (t_call t) = false ->
    t_phase t = Sent q g -> is_read q = false -> fits q a = true -> decode (t_place t) q a = Some x ->
    move cl (finish id (settled (t_call t) x) cl)
| MEmit e : quiet e = true -> move cl (emit e cl)
| MPush c tgt : target_of c = Ok tgt -> is_discover c = false -> move cl (push c Located (plaintext c) cl)
| MReject c e : is_discover c = false -> move cl (push c (Finished (Throw e)) None cl)
| MPlace id t tgt ns p :
    tasks cl !! id = Some t -> is_discover (t_call t) = false -> is_waiting (t_phase t) = true ->
    target_of (t_call t) = Ok tgt -> source cl tgt ns -> place_for tgt ns = Ok p ->
    move cl (set_place id p cl)
| MJoin id t p :
    tasks cl !! id = Some t -> is_discover (t_call t) = false -> t_phase t = Located ->
    namespacePromise cl = Some p -> configuredNamespace cl = None ->
    move cl (set_phase id (Joining p) cl)
| MDiscover now :
    closed cl = false -> configuredNamespace cl = None -> discoveredNamespace cl = None ->
    namespacePromise cl = None ->
    move cl (start_discovery now cl).1
| MDiscovered id t p q g r x :
    tasks cl !! id = Some t -> t_call t = CDiscover p -> t_phase t = Sent q g ->
    match r with Ok a => fits q a | Throw _ => true end = true ->
    move cl (finish id (settled (CDiscover p) x) (on_discovered p r (emit (Answered id r) cl)))
| MAbort s reason :
    move cl (set_tasks (abort_task s reason <$> tasks cl) (aborted_buffers s (tasks cl) (buffers cl)) cl)
| MClear : closed cl = true -> move cl (emit TransportClosed (touch OClear cl))
| MAside cl' : aside cl cl' -> move cl cl'.

Abbreviation moves := (rtc move).

(** ** Operations as moves *)

Lemma task_set_phase id p cl t :
  tasks cl !! id = Some t -> tasks (set_phase id p cl) !! id = Some (with_phase p t).
Proof. intros Ht. simpl. by rewrite list_lookup_alter_eq, Ht. Qed.

Lemma task_set_place id p cl t :
  tasks cl !! id = Some t -> tasks (set_place id p cl) !! id = Some (with_place p t).
Proof. intros Ht. simpl. by rewrite list_lookup_alter_eq, Ht. Qed.

Lemma task_pushed c p b cl :
  tasks (push c p b cl) !! length (tasks cl) =
    Some {| t_call := c; t_place := PNone; t_buffer := (fun _ => length (buffers cl)) <$> b; t_phase := p |}.
Proof. simpl. by rewrite lookup_app_r, Nat.sub_diag by lia. Qed.

Lemma assertOpen_Ok cl x : assertOpen cl = Ok x -> closed cl = false.
Proof. unfold assertOpen. by destruct (closed cl). Qed.

Lemma callOptions_open now o cl : closed cl = false -> exists u, callOptions now o cl = Ok u.
Proof. intros Hc. unfold callOptions, assertOpen. rewrite Hc. simpl. eauto. Qed.

Lemma move_once cl cl' : move cl cl' -> moves cl cl'.
Proof. apply rtc_once. Qed.

Section calls.
Context (now : clock) (id : nat) (t : task) (cl : Client).
Context (Ht : tasks cl !! id = Some t) (Hl : t_phase t = Located) (Hd : is_discover (t_call t) = false).

Lemma fail_moves e : moves cl (finish id (Throw e) cl).
Proof using Ht Hl Hd. apply move_once, MFail with t; [done..|]. intros q g. by rewrite Hl. Qed.

Lemma unary_moves q :
  is_read q = false -> the_request (t_call t) (t_place t) (t_buffer t) = Ok (Some q) ->
  moves cl (unary now id (t_call t) q None cl).
Proof using Ht Hl Hd.
  intros Hr Hq. unfold unary, callOptions. destruct (assertOpen cl) as [[]|e] eqn:Ho; [|apply fail_moves].
  apply move_once. eapply MSend; eauto. by eapply assertOpen_Ok.
Qed.

Lemma fetchParameter_moves ref version label :
  t_place t = PRef ref ->
  the_request (t_call t) (t_place t) (t_buffer t) = Ok (Some (QGetParameter (toWireRef ref) version label)) ->
  moves cl (fetchParameter now id (t_call t) ref version label cl).
Proof using Ht Hl Hd.
  intros Hp Hq. unfold fetchParameter. destruct (assertOpen cl) as [[]|e] eqn:Ho; [|apply fail_moves].
  pose proof (assertOpen_Ok _ _ Ho) as Hc. unfold unary.
  destruct (callOptions_open now (options_of (t_call t)) (touch (OBegin (displayPath ref)) cl) Hc) as [u ->].
  apply move_once. by eapply MBegin with (t := t) (ref := ref).
Qed.

Lemma fetchSecret_moves ref version label bindingKey :
  (forall key, optionalCredential bindingKey (js "fetchSecret bindingKey") = Ok key ->
     the_request (t_call t) (t_place t) (t_buffer t) = Ok (Some (QGetSecret (toWireRef ref) version label key))) ->
  moves cl (fetchSecret now id (t_call t) ref version label bindingKey cl).
Proof using Ht Hl Hd.
  intros Hq. unfold fetchSecret. destruct (assertOpen cl) as [[]|e] eqn:Ho; [|apply fail_moves].
  destruct (optionalCredential _ _) as [key|e] eqn:Hk; [|apply fail_moves]. apply unary_moves; auto.
Qed.
End calls.

Lemma getParameter_moves now id t cl key o ref :
  tasks cl !! id = Some t -> t_phase t = Located -> t_call t = CGetParameter key o -> t_place t = PRef ref ->
  moves cl (getParameter now id (t_call t) ref (go_selector o) cl).
Proof.
  intros Ht Hl Hc Hp. assert (is_discover (t_call t) = false) as Hd by (by rewrite Hc).
  unfold getParameter. destruct (normalizeVersionRef (go_selector o)) as [[version label]|e] eqn:Hs;
    [|by eapply fail_moves].
  set (g := OGet _ _ _). assert (moves cl (touch g cl)) as Hg by (by apply move_once, MTouch).
  destruct (getParam _ _ _ _ _).2 as [[value|]|e] eqn:Hv.
  - apply move_once. by eapply MServe with (t := t).
  - etrans; [exact Hg|]. eapply fetchParameter_moves; try done.
    rewrite Hc, Hp. simpl. by rewrite Hs.
  - etrans; [exact Hg|]. by eapply fail_moves.
Qed.

Lemma mutation_unread m f ref : mutation_request m = Ok f -> is_read (f ref) = false.
Proof.
  destruct m; cbn [mutation_request]; repeat (case_match; try done); by intros [= <-].
Qed.

Lemma preview_unread k a f ref : preview_cohort_request k a = Ok f -> is_read (f ref) = false.
Proof.
  unfold preview_cohort_request. destruct (requiredCredential _ _); [|done].
  destruct (assertUint64 _ _ _); [|done]. by intros [= <-].
Qed.

Lemma list_unread c ns o q : list_request c ns o = Ok q -> is_read q = false.
Proof. unfold list_request. destruct (validPageSize _); [|done]. intros [= <-]. by destruct c. Qed.

Lemma request_of_unread c p b q : request_of c p b = Ok (Some q) -> is_read q = false.
Proof.
  destruct c as [| | | | | | | |key v ct mj bk e o|ns o|ns o|ns o| | | |key m o|key bk a o| |]; cbn [request_of]; try done;
    destruct p as [ref|n|]; cbn [request_of]; try done; try (by intros [= <-]).
  - destruct (putSecret_checks _ _ _); [|done]. by destruct b; intros [= <-].
  - destruct (list_request _ _ _) eqn:E; [|done]. intros [= <-]. by eapply list_unread.
  - destruct (list_request _ _ _) eqn:E; [|done]. intros [= <-]. by eapply list_unread.
  - destruct (list_request _ _ _) eqn:E; [|done]. intros [= <-]. by eapply list_unread.
  - destruct (mutation_request _) eqn:E; [|done]. intros [= <-]. by eapply mutation_unread.
  - destruct (preview_cohort_request _ _) eqn:E; [|done]. intros [= <-]. by eapply preview_unread.
Qed.

Lemma request_moves now id t cl :
  tasks cl !! id = Some t -> t_phase t = Located -> is_discover (t_call t) = false ->
  the_request (t_call t) (t_place t) (t_buffer t) = request_of (t_call t) (t_place t) (t_buffer t) ->
  moves cl (match request_of (t_call t) (t_place t) (t_buffer t) with
            | Throw e => finish id (Throw e) cl
            | Ok (Some q) => unary now id (t_call t) q None cl
            | Ok None => cl
            end).
Proof.
  intros Ht Hl Hd Hq. destruct (request_of _ _ _) as [[q|]|e] eqn:Hr; [|done|by eapply fail_moves].
  eapply unary_moves; try done. by eapply request_of_unread.
Qed.

(** The calls with a continuation of their own. *)
Definition own_continuation (c : call) : bool :=
  match c with
  | CGetParameter _ _ | CGetParameterInfo _ _ | CFetchParameter _ _ _ _ | CGetSecret _ _
  | CFetchSecret _ _ _ _ _ | CWhoAmI _ | CVerifyReleaseDefaults _ _ | CDiscover _ => true
  | _ => false
  end.

Lemma continue_other now id t cl :
  own_continuation (t_call t) = false ->
  continue now id t cl =
    match request_of (t_call t) (t_place t) (t_buffer t) with
    | Throw e => finish id (Throw e) cl
    | Ok (Some q) => unary now id (t_call t) q None cl
    | Ok None => cl
    end /\
  the_request (t_call t) (t_place t) (t_buffer t) = request_of (t_call t) (t_place t) (t_buffer t).
Proof. unfold continue. by destruct (t_call t), (t_place t). Qed.

Lemma own_moves now id t cl :
  tasks cl !! id = Some t -> t_phase t = Located -> is_discover (t_call t) = false ->
  own_continuation (t_call t) = true ->
  moves cl (continue now id t cl).
Proof.
  intros Ht Hl Hd Ho. unfold continue.
  destruct (t_call t) as [o| |key o|key o|ref0 version label o|key o|ref0 version label bk o| | | | | | | | | | | |v o] eqn:Hc;
    try done; destruct (t_place t) as [ref|ns|] eqn:Hp; try done; rewrite <- Hc in *.
  - unfold whoAmI. destruct (assertOpen cl) as [[]|e]; [|by eapply fail_moves].
    eapply unary_moves; try done. by rewrite Hc, Hp.
  - by eapply getParameter_moves.
  - unfold getParameterInfo. destruct (normalizeVersionRef (go_selector o)) as [[version label]|e] eqn:Hs;
      [|by eapply fail_moves].
    eapply fetchParameter_moves; try done. rewrite Hc, Hp. simpl. by rewrite Hs.
  - eapply fetchParameter_moves; try done. by rewrite Hc, Hp.
  - destruct (normalizeVersionRef (go_selector o)) as [[version label]|e] eqn:Hs; [|by eapply fail_moves].
    eapply fetchSecret_moves; try done. intros k Hk. rewrite Hc, Hp. simpl. by rewrite Hs, Hk.
  - eapply fetchSecret_moves; try done. intros k Hk. rewrite Hc, Hp. simpl. by rewrite Hk.
  - unfold verifyReleaseDefaults. destruct (assertOpen cl) as [[]|e]; [|by eapply fail_moves].
    destruct (verify_request v) as [q|e] eqn:Hv; [|by eapply fail_moves].
    eapply unary_moves; try done. rewrite Hc, Hp. simpl. by rewrite Hv.
Qed.

Lemma continue_moves now id t cl :
  tasks cl !! id = Some t -> t_phase t = Located -> is_discover (t_call t) = false ->
  moves cl (continue now id t cl).
Proof.
  intros Ht Hl Hd. destruct (own_continuation (t_call t)) eqn:Ho; [by apply own_moves|].
  destruct (continue_other now id t cl Ho) as [-> Hq]. by apply request_moves.
Qed.

Lemma place_at_moves id t tgt ns cl :
  tasks cl !! id = Some t -> is_discover (t_call t) = false -> is_waiting (t_phase t) = true ->
  target_of (t_call t) = Ok tgt -> source cl tgt ns ->
  moves cl (place_at id tgt ns cl).
Proof.
  intros Ht Hd Hs Htg Hsrc. unfold place_at. destruct (place_for tgt ns) as [p|e] eqn:Hp.
  - apply move_once. by eapply MPlace.
  - apply move_once. eapply MFail; [done..|]. intros q g Hq. by rewrite Hq in Hs.
Qed.

(** The tasks there were are still there after a discovery was started. *)
Lemma start_discovery_open now cl :
  closed cl = false ->
  exists u,
    start_discovery now cl =
      (emit (Requested (length (tasks cl)) QWhoAmI u)
        (set_phase (length (tasks cl)) (Sent QWhoAmI None)
          (set_discovery (discoveredNamespace cl) (Some (length (promises cl))) (promises cl ++ [None])
            (set_tasks (tasks cl ++ [{| t_call := CDiscover (length (promises cl)); t_place := PNone;
                                        t_buffer := None; t_phase := Located |}]) (buffers cl) cl))),
       length (promises cl)).
Proof.
  intros Hc. unfold start_discovery.
  match goal with |- context [callOptions ?n ?o ?c] => destruct (callOptions_open n o c Hc) as [u ->] end. eauto.
Qed.

Lemma start_discovery_task now cl id t :
  closed cl = false -> tasks cl !! id = Some t -> tasks (start_discovery now cl).1 !! id = Some t.
Proof.
  intros Hc Ht. destruct (start_discovery_open now cl Hc) as [u ->]. simpl.
  pose proof (lookup_lt_Some _ _ _ Ht). rewrite list_lookup_alter_ne by lia. by rewrite lookup_app_l.
Qed.

Lemma discover_for_moves now id t tgt cl :
  tasks cl !! id = Some t -> is_discover (t_call t) = false -> t_phase t = Located ->
  target_of (t_call t) = Ok tgt ->
  moves cl (discover_for now id (options_of (t_call t)) tgt cl).
Proof.
  intros Ht Hd Hl Htg. unfold discover_for, discoverNamespace.
  destruct (assertOpen cl) as [[]|e] eqn:Ho; [|by eapply fail_moves]. apply assertOpen_Ok in Ho.
  destruct (assertCallerActive (now ReadActive) _ cl) as [[]|e]; [|by eapply fail_moves].
  destruct (configuredNamespace cl) as [ns|] eqn:Hcf.
  { eapply place_at_moves; try done; [by rewrite Hl|]. by apply from_configured. }
  destruct (discoveredNamespace cl) as [ns|] eqn:Hds.
  { eapply place_at_moves; try done; [by rewrite Hl|]. by apply from_discovered. }
  destruct (namespacePromise cl) as [p|] eqn:Hn.
  - destruct (assertCallerActive _ _ _) as [[]|e]; [|by eapply fail_moves].
    apply move_once. by eapply MJoin.
  - assert (moves cl (start_discovery now cl).1) as Hm by (by apply move_once, MDiscover).
    pose proof (start_discovery_task now cl id t Ho Ht) as Ht'.
    assert (namespacePromise (start_discovery now cl).1 = Some (start_discovery now cl).2 /\
            configuredNamespace (start_discovery now cl).1 = None) as [Hp' Hcf'].
    { by destruct (start_discovery_open now cl Ho) as [u ->]. }
    destruct (start_discovery now cl) as [cl' p]. simpl in *. etrans; [exact Hm|].
    destruct (assertCallerActive _ _ _) as [[]|e]; [|by eapply fail_moves].
    apply move_once. by eapply MJoin.
Qed.

(** ** Well-typed tasks *)

(** A task waits only for the answer to the request its call must send, with a
    generation only for a parameter read; a discovery is waiting or settled. *)
Record task_ok (t : task) : Prop := {
  to_sent : forall q g, t_phase t = Sent q g ->
    the_request (t_call t) (t_place t) (t_buffer t) = Ok (Some q) /\ (is_read q = false -> g = None);
  to_discover : is_discover (t_call t) = true ->
    t_place t = PNone /\ match t_phase t with Sent _ _ | Finished _ => True | _ => False end
}.

Definition typed (cl : Client) : Prop := forall id t, tasks cl !! id = Some t -> task_ok t.

Lemma read_place c p b q :
  the_request c p b = Ok (Some q) -> is_read q = true -> exists ref, p = PRef ref.
Proof.
  intros Hq Hr. destruct p as [ref|ns|]; [by exists ref|..]; exfalso; destruct c; simpl in Hq; try done.
  all: try (destruct (list_request _ _ _) eqn:E; simplify_eq; apply list_unread in E; congruence).
  all: try (destruct (verify_request _); by simplify_eq).
  all: by simplify_eq.
Qed.

(** ** Every step is a sequence of moves *)

Lemma locate_moves now id c p0 b tgt cl :
  tasks cl !! id = Some {| t_call := c; t_place := p0; t_buffer := b; t_phase := Located |} ->
  is_discover c = false -> target_of c = Ok tgt -> (own_continuation c = false -> forall p, tgt = TNow p -> b = None) ->
  moves cl (locate now id c tgt cl).
Proof.
  intros Ht Hd Htg Hb. destruct tgt as [key|operation|p]; simpl.
  - destruct (assertOpen cl) as [[]|e]; [|by eapply fail_moves].
    destruct (startsWith (js "/") key) eqn:Hs.
    + eapply place_at_moves; try done. by apply from_absolute.
    + by eapply (discover_for_moves now id {| t_call := c; t_place := p0; t_buffer := b; t_phase := Located |}).
  - by eapply (discover_for_moves now id {| t_call := c; t_place := p0; t_buffer := b; t_phase := Located |}).
  - assert (moves cl (set_place id p cl)) as Hm.
    { apply move_once. eapply (MPlace cl id _ (TNow p) None p); try done. apply from_call. }
    etrans; [exact Hm|].
    pose proof (task_set_place id p cl _ Ht) as Ht'.
    assert (continue now id {| t_call := c; t_place := p; t_buffer := None; t_phase := Located |} (set_place id p cl)
      = continue now id {| t_call := c; t_place := p; t_buffer := b; t_phase := Located |} (set_place id p cl)) as ->.
    { destruct (own_continuation c) eqn:Ho; [by destruct c|]. by rewrite (Hb eq_refl p eq_refl). }
    by apply continue_moves.
Qed.

Lemma now_plaintext c p : target_of c = Ok (TNow p) -> plaintext c = None.
Proof.
  destruct c; simpl; try done. destruct (putSecret_checks _ _ _); by intros.
Qed.

Lemma start_moves now c cl : is_discover c = false -> moves cl (start now c cl).
Proof.
  intros Hd. unfold start. destruct (target_of c) as [tgt|e] eqn:Htg.
  - etrans; [by apply move_once, (MPush cl c tgt)|].
    eapply locate_moves; [apply task_pushed|done|done|].
    intros _ p ->. by rewrite (now_plaintext _ _ Htg).
  - by apply move_once, MReject.
Qed.

Lemma resume_moves now id cl : typed cl -> moves cl (resume now id cl).
Proof.
  intros Hty. unfold resume. destruct (tasks cl !! id) as [t|] eqn:Ht; [|done].
  destruct (t_phase t) as [|p|q g|r] eqn:Hp; try done;
    destruct (is_discover (t_call t)) eqn:Hd.
  - destruct (to_discover t (Hty _ _ Ht) Hd) as [_ Hx]. by rewrite Hp in Hx.
  - by apply continue_moves.
  - destruct (to_discover t (Hty _ _ Ht) Hd) as [_ Hx]. by rewrite Hp in Hx.
  - destruct (promises cl !! p) as [[[ns|e]|]|] eqn:Hpr; try done.
    + destruct (target_of (t_call t)) as [tgt|] eqn:Htg; [|done].
      eapply place_at_moves; try done; [by rewrite Hp|]. by eapply from_promise.
    + apply move_once. eapply MFail; [done..|]. intros q g Hq. congruence.
Qed.

Lemma invalidate_after_moves c p cl : moves cl (invalidate_after c p cl).
Proof.
  assert (forall cl, set_cache (cache cl) cl = cl) as Hid by (by intros []).
  assert (forall ref, moves cl (touch (OInvalidate (displayPath ref)) cl)) as Ht
    by (intros ref; by apply move_once, MTouch).
  destruct c, p; simpl; try done; unfold invalidateSecret; by rewrite Hid.
Qed.

Lemma invalidate_after_tasks c p cl : tasks (invalidate_after c p cl) = tasks cl.
Proof. by destruct c, p. Qed.

Lemma on_reply_moves now id r cl : typed cl -> moves cl (on_reply now id r cl).
Proof.
  intros Hty. unfold on_reply. destruct (tasks cl !! id) as [t|] eqn:Ht; [|done].
  destruct (t_phase t) as [| |q g|] eqn:Hp; try done.
  destruct (match r with Ok a => fits q a | Throw _ => true end) eqn:Hf; [|done].
  destruct (to_sent t (Hty _ _ Ht) q g Hp) as [Hq _].
  destruct (is_discover (t_call t)) eqn:Hd.
  { destruct (t_call t) eqn:Hc; try done. apply move_once. by eapply MDiscovered. }
  assert (moves cl (emit (Answered id r) cl)) as Hm by (by apply move_once, MEmit).
  destruct (is_read q) eqn:Hr.
  - destruct (read_place _ _ _ _ Hq Hr) as [ref Hpl]. destruct q as [|w version label| | | | | | | | | | | | | | | | | | |]; try done.
    rewrite Hpl. assert (moves cl (on_parameter now id (t_call t) ref version label g r (emit (Answered id r) cl))) as Hx
      by (by apply move_once; eapply MParameter). by destruct (t_call t).
  - assert (moves cl
      (match r with
       | Throw e => finish id (Throw (map_error (t_call t) e)) (emit (Answered id r) cl)
       | Ok a => match decode (t_place t) q a with
                 | Some x => finish id (settled (t_call t) x) (invalidate_after (t_call t) (t_place t) (emit (Answered id r) cl))
                 | None => emit (Answered id r) cl
                 end
       end)) as Hx.
    { etrans; [exact Hm|]. destruct r as [a|e].
      - destruct (decode _ _ _) as [x|] eqn:Hx; [|done]. etrans; [apply invalidate_after_moves|].
        apply move_once. eapply MAnswer; try done. by rewrite invalidate_after_tasks.
      - apply move_once. eapply MFail; try done. intros q' g' Hq'. congruence. }
    by destruct (t_call t), q, (t_place t).
Qed.

Lemma aside_set_close s c a cl :
  (closed cl = true -> c = true) -> (close_ok cl -> a <> NotClosing -> c = true) -> aside cl (set_close s c a cl).
Proof. by split. Qed.

Lemma step_moves cl o : typed cl -> close_ok cl -> moves cl (step cl o).
Proof.
  intros Hty Hco. destruct o as [now c|now id|now id r|s reason|id| |path cb|o|path|nss| |r|r]; cbn [step].
  - destruct c; try done; by apply start_moves.
  - by apply resume_moves.
  - by apply on_reply_moves.
  - unfold abort. destruct (reasons cl !! s); [done|]. etrans; [by apply move_once, MAbort|].
    apply move_once, MAside. by split.
  - unfold expire. destruct (tasks cl !! id) as [t|] eqn:Ht; [|done].
    destruct (t_phase t) eqn:Hp; try done. destruct (o_deadline _) as [[]|]; try done.
    apply move_once. eapply MFail; [done| |intros; congruence].
    destruct (is_discover (t_call t)) eqn:Hd; [|done].
    destruct (to_discover t (Hty _ _ Ht) Hd) as [_ Hx]. by rewrite Hp in Hx.
  - unfold subscriptionManager. destruct (assertOpen cl); [|done]. apply move_once, MAside. by apply aside_set_close.
  - by apply move_once, MAside.
  - destruct (is_turn o); [|done]. by apply move_once, MAside.
  - by apply move_once, MTouch.
  - by apply move_once, MTouch.
  - unfold close. destruct (closeAttempt cl); try done.
    etrans; [apply move_once, MAside, (aside_set_close (subscriptions cl) true StoppingSubscriptions); done|].
    by apply move_once, MEmit.
  - unfold on_stopped. destruct (closeAttempt cl) eqn:Ha; try done. destruct r as [[]|e].
    + etrans; [apply move_once, MAside, (aside_set_close (subscriptions cl) (closed cl) ClosingTransport); [done|intros H _; apply H; by rewrite Ha]|].
      etrans; [by apply move_once, MAside, (Build_aside _ (set_dispatcher (Dispatcher.close (dispatcher cl))
        (set_close (subscriptions cl) (closed cl) ClosingTransport cl)))|].
      apply move_once. apply MClear. simpl. apply Hco. by rewrite Ha.
    + apply move_once, MAside. apply aside_set_close; [done|]. intros H _. apply H. by rewrite Ha.
  - unfold on_transport_closed. destruct (closeAttempt cl) eqn:Ha; try done.
    apply move_once, MAside. apply aside_set_close; [done|]. intros H _. apply H. by rewrite Ha.
Qed.
