(* ===== verification/ClientProofs.v ===== *)
(** * ClientProofs: runs of the client.

    What one step does to a task, and what every run keeps: tasks are well
    typed, the cache is a run of the cache's own operations, a closed client
    stays closed. [ClientReads], [ClientFresh], [ClientSpec] and
    [ClientSecrets] build on these. *)
From stdpp Require Import prelude gmap strings relations.
From Stdlib Require Import ZArith Lia.
From S2P Require Import Prelude JsString JsMap Unicode Decimal Errors Refs Cache CacheProofs CacheSpec Contract Release Dispatcher ClientData Client ClientMoves.

(** ** Tasks after a move *)

Lemma lookup_alter_Some {A} (f : A -> A) i (l : list A) j x :
  alter f i l !! j = Some x ->
  (j = i /\ exists y, l !! i = Some y /\ x = f y) \/ (j <> i /\ l !! j = Some x).
Proof.
  destruct (decide (j = i)) as [->|Hne].
  - rewrite list_lookup_alter_eq. destruct (l !! i); intros [= <-]. left. eauto.
  - rewrite list_lookup_alter_ne by done. by right.
Qed.

Lemma lookup_snoc_new {A} (l : list A) x j y :
  (l ++ [x]) !! j = Some y -> l !! j = Some y \/ (j = length l /\ y = x).
Proof. rewrite lookup_snoc_Some. intros [[_ ?]|[? ?]]; [by left|right; by subst]. Qed.

Lemma abort_task_cases s reason t :
  abort_task s reason t = t \/
  (exists p, t_phase t = Joining p) /\ abort_task s reason t = with_phase (Finished (Throw (reason_of reason))) t.
Proof.
  unfold abort_task. destruct (t_phase t) eqn:E; try (by left). case_bool_decide; [right; eauto|by left].
Qed.

(** The results a task may settle with. *)
Inductive finish_ok (t : task) : res JsError result -> Prop :=
| fin_throw e : finish_ok t (Throw e)
| fin_served key o value : t_call t = CGetParameter key o -> finish_ok t (Ok (RText value))
| fin_read ref w version label g a p :
    t_place t = PRef ref -> t_phase t = Sent (QGetParameter w version label) g ->
    read_parameter ref version (Ok a) = Ok p -> finish_ok t (Ok (parameter_result (t_call t) p))
| fin_decoded q g a x :
    t_phase t = Sent q g -> is_read q = false -> fits q a = true -> decode (t_place t) q a = Some (Ok x) ->
    finish_ok t (Ok x)
| fin_discovery x : is_discover (t_call t) = true -> finish_ok t x.

Lemma tasks_on_parameter now id t ref w version label g r cl :
  t_place t = PRef ref -> t_phase t = Sent (QGetParameter w version label) g ->
  exists x, tasks (on_parameter now id (t_call t) ref version label g r cl) =
    alter (with_phase (Finished x)) id (tasks cl) /\ finish_ok t x.
Proof.
  intros Hp Hs. unfold on_parameter.
  destruct (read_parameter ref version r) as [p|e] eqn:Hr; [|destruct g; eexists; split; try reflexivity; constructor].
  assert (finish_ok t (Ok (parameter_result (t_call t) p))) as Hok.
  { destruct r as [a|]; [|done]. by eapply fin_read. }
  destruct g as [g|]; [|by eexists].
  destruct (cacheParameterIfUnchanged _ _ _ _ _ _ _).2 as [b|e]; eexists; (split; [reflexivity|]); [done|constructor].
Qed.

Lemma tasks_on_discovered p r cl : tasks (on_discovered p r cl) = tasks cl.
Proof. unfold on_discovered. by repeat case_match. Qed.

Lemma start_tasks now cl :
  closed cl = false ->
  tasks (start_discovery now cl).1 =
    tasks cl ++ [{| t_call := CDiscover (length (promises cl)); t_place := PNone; t_buffer := None;
                    t_phase := Sent QWhoAmI None |}].
Proof.
  intros Hc. destruct (start_discovery_open now cl Hc) as [u ->]. simpl.
  rewrite <- (Nat.add_0_r (length (tasks cl))) at 1. by rewrite alter_app_r.
Qed.

(** A task is new, unchanged, or the one the move is about. *)
Inductive evolves (cl : Client) (t : task) : task -> Prop :=
| ev_same : evolves cl t t
| ev_finish r : finish_ok t r -> evolves cl t (with_phase (Finished r) t)
| ev_send q g : t_phase t = Located -> closed cl = false ->
    the_request (t_call t) (t_place t) (t_buffer t) = Ok (Some q) -> (is_read q = false -> g = None) ->
    evolves cl t (with_phase (Sent q g) t)
| ev_place p tgt ns : is_discover (t_call t) = false -> is_waiting (t_phase t) = true ->
    target_of (t_call t) = Ok tgt -> source cl tgt ns -> place_for tgt ns = Ok p -> evolves cl t (with_place p t)
| ev_join p : is_discover (t_call t) = false -> t_phase t = Located -> namespacePromise cl = Some p ->
    evolves cl t (with_phase (Joining p) t).

Inductive fresh_task (cl : Client) : task -> Prop :=
| fresh_call c tgt : target_of c = Ok tgt -> is_discover c = false ->
    fresh_task cl {| t_call := c; t_place := PNone;
                     t_buffer := (fun _ => length (buffers cl)) <$> plaintext c; t_phase := Located |}
| fresh_rejected c e : is_discover c = false ->
    fresh_task cl {| t_call := c; t_place := PNone; t_buffer := None; t_phase := Finished (Throw e) |}
| fresh_discovery : namespacePromise cl = None ->
    fresh_task cl {| t_call := CDiscover (length (promises cl)); t_place := PNone; t_buffer := None;
                     t_phase := Sent QWhoAmI None |}.

Lemma alter_evolves cl f id t :
  tasks cl !! id = Some t -> evolves cl t (f t) ->
  forall j t', alter f id (tasks cl) !! j = Some t' -> exists t0, tasks cl !! j = Some t0 /\ evolves cl t0 t'.
Proof.
  intros Ht He j t' [[-> (y & Hy & ->)]|[_ Hj]]%lookup_alter_Some; simplify_eq; eauto using ev_same.
Qed.

Ltac evolve_by H := left; simpl in H; eapply alter_evolves; [eassumption| |exact H].

Lemma move_tasks cl cl' id t' :
  move cl cl' -> tasks cl' !! id = Some t' ->
  (exists t, tasks cl !! id = Some t /\ evolves cl t t') \/ (id = length (tasks cl) /\ fresh_task cl t').
Proof.
  assert (forall ts, ts = tasks cl -> ts !! id = Some t' ->
    exists t, tasks cl !! id = Some t /\ evolves cl t t') as Hsame by (intros ? ->; eauto using ev_same).
  destruct 1; intros Hid.
  - left. by eapply Hsame.
  - evolve_by Hid. by eapply ev_finish, fin_served.
  - evolve_by Hid; by apply ev_send.
  - evolve_by Hid; by apply ev_send.
  - destruct (tasks_on_parameter now id0 t ref w version label g r (emit (Answered id0 r) cl)) as (x & Hx & Hf); [done..|].
    rewrite Hx in Hid. evolve_by Hid. by apply ev_finish.
  - evolve_by Hid. apply ev_finish. constructor.
  - evolve_by Hid. apply ev_finish. destruct x; simpl; [by eapply fin_decoded|constructor].
  - left. by eapply Hsame.
  - apply lookup_snoc_new in Hid as [Hid|[-> ->]]; [left; by eapply Hsame|right]. split; [done|]. by eapply fresh_call.
  - apply lookup_snoc_new in Hid as [Hid|[-> ->]]; [left; by eapply Hsame|right]. split; [done|]. by apply fresh_rejected.
  - evolve_by Hid; by eapply ev_place.
  - evolve_by Hid; by apply ev_join.
  - destruct (start_discovery_open now cl ltac:(done)) as [u Hu]. rewrite Hu in Hid. simpl in Hid.
    apply lookup_alter_Some in Hid as [[-> (y & Hy & ->)]|[Hne Hid]].
    + right. split; [done|]. rewrite lookup_app_r, Nat.sub_diag in Hy by lia. simplify_eq/=. by apply fresh_discovery.
    + apply lookup_snoc_new in Hid as [Hid|[-> ->]]; [|done]. left. eauto using ev_same.
  - simpl in Hid. rewrite tasks_on_discovered in Hid. evolve_by Hid.
    apply ev_finish, fin_discovery. by rewrite H0.
  - left. simpl in Hid. rewrite list_lookup_fmap in Hid. destruct (tasks cl !! id) as [t|] eqn:Ht; simplify_eq/=.
    exists t. split; [done|]. destruct (abort_task_cases s reason t) as [->|[_ ->]]; [apply ev_same|apply ev_finish; constructor].
  - left. by eapply Hsame.
  - left. destruct H. eapply Hsame; eauto.
Qed.

(** ** Well-typed tasks, in every run *)

Lemma evolves_ok cl t t' : task_ok t -> evolves cl t t' -> task_ok t'.
Proof.
  intros [Hs Hd] []; split; simpl; try done.
  - intros Hx. by destruct (Hd Hx) as [-> _].
  - intros q' g' [= <- <-]. auto.
  - intros Hx. destruct (Hd Hx) as [-> _]. done.
  - congruence.
  - congruence.
Qed.

Lemma fresh_task_ok cl t : fresh_task cl t -> task_ok t.
Proof. destruct 1; split; simpl; try done; try congruence. intros q g [= <- <-]. done. Qed.

Lemma move_typed cl cl' : typed cl -> move cl cl' -> typed cl'.
Proof.
  intros Hty Hm id t' Ht'. destruct (move_tasks cl cl' id t' Hm Ht') as [(t & Ht & He)|[_ Hf]].
  - eapply evolves_ok; [by eapply Hty|done].
  - by eapply fresh_task_ok.
Qed.

Lemma moves_typed cl cl' : typed cl -> moves cl cl' -> typed cl'.
Proof. intros Hty Hm. revert Hty. induction Hm; eauto using move_typed. Qed.

(** ** Invariants of runs *)

Lemma move_close cl cl' : close_ok cl -> move cl cl' -> close_ok cl'.
Proof.
  unfold close_ok. intros Hc Hm. destruct Hm; try done.
  - unfold on_parameter. by destruct (read_parameter _ _ _), g.
  - by destruct (start_discovery_open now cl ltac:(done)) as [u ->].
  - simpl. unfold on_discovered. by repeat case_match.
  - by apply (as_close _ _ ltac:(eassumption)).
Qed.

(** What every move keeps, every run keeps. *)
Lemma run_keeps (P : Client -> Prop) cl ops :
  (forall cl cl', typed cl -> P cl -> move cl cl' -> P cl') ->
  typed cl -> close_ok cl -> P cl -> P (run cl ops).
Proof.
  intros HP. assert (forall cl cl', moves cl cl' -> typed cl -> close_ok cl -> P cl ->
    typed cl' /\ close_ok cl' /\ P cl') as Hms.
  { induction 1; [done|]. intros Hty Hco Hp. apply IHrtc; [by eapply move_typed|by eapply move_close|by eapply HP]. }
  revert cl. induction ops as [|o ops IH]; intros cl Hty Hco Hp; simpl; [done|].
  destruct (Hms cl (step cl o)) as (Hty' & Hco' & Hp'); [by apply step_moves|done..|]. by apply IH.
Qed.

(** A client as the constructor leaves it. *)
Definition initial (cl : Client) : Prop := exists o, new_KmsClient o = Ok cl.

Record pristine (cl : Client) : Prop := {
  pr_tasks : tasks cl = [];
  pr_trace : trace cl = [];
  pr_buffers : buffers cl = [];
  pr_promises : promises cl = [];
  pr_promise : namespacePromise cl = None;
  pr_discovered : discoveredNamespace cl = None;
  pr_close : closeAttempt cl = NotClosing;
  pr_closed : closed cl = false;
  pr_cache : exists ttl max, new_ReadCache ttl max = Ok (cache cl)
}.

Lemma initial_pristine cl : initial cl -> pristine cl.
Proof.
  intros [o Ho]. unfold new_KmsClient in Ho.
  destruct (positiveFinite _ _); [|done]. destruct (match ko_namespace o with Some _ => _ | None => _ end); [|done].
  destruct (new_ReadCache _ _) eqn:Hc; [|done]. destruct (check_transport o); [|done].
  simplify_eq. split; simpl; eauto.
Qed.

Lemma pristine_run (P : Client -> Prop) cl ops :
  (forall cl cl', typed cl -> P cl -> move cl cl' -> P cl') ->
  initial cl -> P cl -> P (run cl ops).
Proof.
  intros HP Hi%initial_pristine. destruct Hi as [Hts _ _ _ _ _ Hca _ _]. apply run_keeps; [done| |by intros ?].
  intros id t. by rewrite Hts, lookup_nil.
Qed.

Lemma run_typed cl ops : initial cl -> typed (run cl ops).
Proof.
  intros Hi. apply pristine_run; [eauto using move_typed|done|].
  intros id t. by rewrite (pr_tasks _ (initial_pristine _ Hi)), lookup_nil.
Qed.

(** ** A demonstration client *)

Definition demo_options : KmsClientOptions :=
  {| ko_endpoint := None; ko_namespace := None; ko_token := Some (js "t"); ko_credentials := false;
     ko_insecure := false; ko_transport := true; ko_cacheTtlMs := Some (Some 1000); ko_timeoutMs := None |}.
Definition demo_client : Client :=
  match new_KmsClient demo_options with
  | Ok cl => cl
  | Throw _ => {| token := None; timeoutMs := 0; configuredNamespace := None;
                  cache := {| ttlMs := 0; maxEntries := 0; parameters := []; parameterGenerations := [];
                              parameterCount := 0; states := ∅; handles := ∅; next_ident := 0 |};
                  dispatcher := new_CallbackDispatcher; discoveredNamespace := None; namespacePromise := None;
                  promises := []; subscriptions := false; closed := false; closeAttempt := NotClosing;
                  reasons := ∅; buffers := []; tasks := []; trace := [] |}
  end.

Lemma demo_initial : initial demo_client.
Proof. exists demo_options. vm_compute. reflexivity. Defined.

Definition at_time (z : Z) : clock := fun _ => z.
Definition no_options : CallOptions := {| o_signal := None; o_deadline := None |}.
Definition latest : GetOptions :=
  {| go_call := no_options; go_selector := CURRENT_VERSION; go_bindingKey := CredentialUndefined |}.
Definition demo_ns : NamespaceRef := {| env := js "prod"; app := js "web" |}.
Definition demo_parameter : WireParameter :=
  {| wp_ref := Some {| wr_namespace := Some demo_ns; wr_key := js "host" |}; wp_value := js "v1";
     wp_contentType := []; wp_version := 3; wp_metadataJson := []; wp_createdBy := [];
     wp_createdAtUnixMs := 0; wp_labels := [] |}.
