(* ===== verification/ClientFresh.v ===== *)
(** * ClientFresh: the client never serves a stale value.

    The cache's abstract specification is carried along every run of the
    client with the history of its entries: which request each value answered,
    and that nothing invalidated the path since that request left. *)
From stdpp Require Import prelude gmap strings relations.
From Stdlib Require Import ZArith Lia.
From S2P Require Import Prelude JsString JsMap Unicode Decimal Errors Refs Cache CacheProofs CacheSpec Contract Release Dispatcher ClientData Client ClientMoves ClientProofs.

(** ** History *)

(** The cache calls after which nothing of a path is retained. *)
Definition covers (o : cache_op) (path : jstr) : bool :=
  match o with
  | OInvalidate p => bool_decide (p = path)
  | OInvalidateNs nss => match namespace_scope nss with Ok scope => in_scope scope path | Throw _ => false end
  | OClear => true
  | _ => false
  end.

Definition untouched (path : jstr) (tr : list effect) : Prop :=
  forall o, CacheCall o ∈ tr -> covers o path = false.

(** The request of a task is in the trace, and nothing covered the path since. *)
Definition since (tr : list effect) (id : nat) (q : request) (path : jstr) : Prop :=
  exists a u b, tr = a ++ Requested id q u :: b /\ untouched path b.

(** The history of an entry: a request for the path, its answer, the fill,
    and no call that covers the path after the request. *)
Definition filled (ttl : Z) (tr : list effect) (path k : jstr) (e : CacheEntry) : Prop :=
  exists t0 t1 t2 rid ref version label u w p at1 at2 g,
    tr = t0 ++ Requested rid (QGetParameter (toWireRef ref) version label) u :: t1 ++
           Answered rid (Ok (AParameter (Some w))) ::
           CacheCall (OCacheIf at1 at2 g version label (value e)) :: t2 /\
    untouched path (t1 ++ t2) /\ displayPath ref = path /\
    selectorKey (positionalSelector version label) = Ok k /\
    read_parameter ref version (Ok (AParameter (Some w))) = Ok p /\ pa_value p = value e /\
    expiresAt e = at1 + ttl.

(** A service and the entry behind it. *)
Definition fresh_service (ttl : Z) (before : list effect) (path : jstr) (version : Z) (label v : jstr) (now : Z) : Prop :=
  exists k e, selectorKey (positionalSelector version label) = Ok k /\
    normalizeVersionRef (positionalSelector version label) = Ok (version, label) /\
    filled ttl before path k e /\ value e = v /\ now < expiresAt e.

Definition no_spec : cache_spec := {| sp_entries := ∅; sp_reads := ∅ |}.

Record traced (ttl : Z) (cl : Client) (s : cache_spec) : Prop := {
  tr_wf : cache_wf (cache cl);
  tr_ttl : ttlMs (cache cl) = ttl;
  tr_refines : refines (cache cl) s;
  tr_off : enabled (cache cl) = false -> s = no_spec;
  tr_entries : forall path k e, sp_entries s !! (path, k) = Some e -> filled ttl (trace cl) path k e;
  tr_reads : forall id t ref version label g path,
    tasks cl !! id = Some t -> t_place t = PRef ref ->
    t_phase t = Sent (QGetParameter (toWireRef ref) version label) (Some g) ->
    sp_reads s !! g = Some path ->
    path = displayPath ref /\ since (trace cl) id (QGetParameter (toWireRef ref) version label) path;
  tr_fresh : forall id t q g, tasks cl !! id = Some t -> t_phase t = Sent q (Some g) -> (g < next_ident (cache cl))%nat;
  tr_served : forall before id path version label v now after,
    trace cl = before ++ Served id path version label v now :: after ->
    fresh_service ttl before path version label v now;
  tr_closed : TransportClosed ∈ trace cl -> closed cl = true /\ s = no_spec
}.

(** ** Longer traces *)

Lemma untouched_app path a b : untouched path a -> untouched path b -> untouched path (a ++ b).
Proof. intros Ha Hb o [H|H]%elem_of_app; auto. Qed.

Lemma untouched_one path e : (forall o, e = CacheCall o -> covers o path = false) -> untouched path [e].
Proof. intros H o Ho%list_elem_of_singleton. by apply H. Qed.

Lemma since_app tr id q path b : untouched path b -> since tr id q path -> since (tr ++ b) id q path.
Proof.
  intros Hb (a & u & c & -> & Hc). exists a, u, (c ++ b).
  split; [by rewrite <- (assoc_L (++))|by apply untouched_app].
Qed.

Lemma filled_app ttl tr path k e b : untouched path b -> filled ttl tr path k e -> filled ttl (tr ++ b) path k e.
Proof.
  intros Hb (t0 & t1 & t2 & rid & ref & version & label & u & w & p & at1 & at2 & g & -> & Hu & Hrest).
  exists t0, t1, (t2 ++ b), rid, ref, version, label, u, w, p, at1, at2, g. split_and!; try apply Hrest.
  - rewrite <- !(assoc_L (++)). simpl. by rewrite <- !(assoc_L (++)).
  - rewrite (assoc_L (++)). by apply untouched_app.
Qed.

Lemma snoc_served tr e before id path version label v now after :
  tr ++ [e] = before ++ Served id path version label v now :: after ->
  (exists after', tr = before ++ Served id path version label v now :: after') \/
  (tr = before /\ e = Served id path version label v now).
Proof.
  destruct after as [|x after _] using rev_ind.
  - intros H. apply app_inj_tail in H as [-> ->]. by right.
  - rewrite app_comm_cons, (assoc_L (++)). intros H. apply app_inj_tail in H as [-> _]. left. eauto.
Qed.

(** ** The specification, one call at a time *)

Definition spec_touch (cl : Client) (s : cache_spec) (o : cache_op) : cache_spec :=
  (pair_step (cache cl, s) o).2.

Lemma cache_step_ttl c o : ttlMs (cache_step c o) = ttlMs c.
Proof. exact (proj1 (cache_run_ttl c [o])). Qed.

Lemma touch_refines ttl cl s o :
  traced ttl cl s ->
  cache_wf (cache (touch o cl)) /\ refines (cache (touch o cl)) (spec_touch cl s o) /\
  ttlMs (cache (touch o cl)) = ttl /\ (next_ident (cache cl) <= next_ident (cache (touch o cl)))%nat.
Proof.
  intros H. simpl. split_and!.
  - apply cache_step_wf, H.
  - split; [by apply step_refines_entries; apply H|by apply step_refines_reads; apply H].
  - rewrite cache_step_ttl. apply H.
  - apply cache_step_handle_le, H.
Qed.

Lemma enabled_step c o : enabled (cache_step c o) = enabled c.
Proof. unfold enabled. by rewrite cache_step_ttl. Qed.

Lemma touch_off ttl cl s o : traced ttl cl s -> enabled (cache cl) = false -> spec_touch cl s o = no_spec.
Proof.
  intros H He. unfold spec_touch, pair_step. simpl. rewrite He, (tr_off _ _ _ H He).
  destruct o as [| |path| |[g|]|path|nss|]; simpl; try done.
  by rewrite begin_disabled.
Qed.

(** From nothing, only a new read or a write makes something. *)
Lemma touch_none ttl cl s o :
  traced ttl cl s -> s = no_spec -> match o with OBegin _ | OSet _ _ _ _ _ => False | _ => True end ->
  spec_touch cl s o = no_spec.
Proof.
  intros H -> Ho. destruct (enabled (cache cl)) eqn:He; [|by eapply touch_off].
  unfold spec_touch, pair_step. simpl. rewrite He. destruct o as [| |path| |[g|]|path|nss|]; simpl; try done.
  by destruct (namespace_scope nss).
Qed.

(** Nothing but a fill adds an entry, and only a new read adds a reader. *)
Definition fills (o : cache_op) : bool :=
  match o with OSet _ _ _ _ _ | OCacheIf _ _ _ _ _ _ => true | _ => false end.
Definition begins (o : cache_op) : bool := match o with OBegin _ => true | _ => false end.

Lemma covers_scope nss scope path : namespace_scope nss = Ok scope -> covers (OInvalidateNs nss) path = in_scope scope path.
Proof. simpl. by intros ->. Qed.

Lemma spec_entries ttl cl s o path k e :
  traced ttl cl s -> fills o = false -> sp_entries (spec_touch cl s o) !! (path, k) = Some e ->
  sp_entries s !! (path, k) = Some e /\ covers o path = false.
Proof.
  intros H Hf. unfold spec_touch, pair_step. simpl.
  destruct (enabled (cache cl)) eqn:He.
  2: { pose proof (touch_off ttl cl s o H He) as Ho. unfold spec_touch, pair_step in Ho. simpl in Ho.
       rewrite He in Ho. rewrite Ho. simpl. by rewrite lookup_empty. }
  destruct o as [| |p| |[g|]|p|nss|]; simpl; try done.
  - by destruct (beginParameterRead _ _).2.
  - rewrite map_lookup_filter_Some. simpl. intros [-> Hp]. split; [done|].
    apply bool_decide_eq_false in Hp. by apply bool_decide_eq_false.
  - destruct (namespace_scope nss) as [scope|] eqn:Hs; [|done]. simpl.
    rewrite map_lookup_filter_Some. simpl. done.
  - rewrite map_lookup_filter_Some. simpl. by intros [].
Qed.

Lemma spec_reads ttl cl s o g path :
  traced ttl cl s -> begins o = false -> sp_reads (spec_touch cl s o) !! g = Some path ->
  sp_reads s !! g = Some path /\ covers o path = false.
Proof.
  intros H Hf. unfold spec_touch, pair_step. simpl.
  destruct (enabled (cache cl)) eqn:He.
  2: { pose proof (touch_off ttl cl s o H He) as Ho. unfold spec_touch, pair_step in Ho. simpl in Ho.
       rewrite He in Ho. rewrite Ho. simpl. by rewrite lookup_empty. }
  assert (forall p sel e, sp_reads (sp_put s p sel e) = sp_reads s) as Hput
    by (intros; unfold sp_put; by case_match).
  destruct o as [| |p|now1 now2 g' v l val|[g'|]|p|nss|]; simpl; try done.
  - by rewrite Hput.
  - destruct (sp_reads s !! g'); [by rewrite Hput|done].
  - rewrite lookup_delete_Some. by intros [].
  - rewrite map_lookup_filter_Some. simpl. intros [-> Hp]. split; [done|].
    apply bool_decide_eq_false in Hp. by apply bool_decide_eq_false.
  - destruct (namespace_scope nss) as [scope|] eqn:Hs; [|done]. simpl.
    rewrite map_lookup_filter_Some. simpl. done.
  - rewrite map_lookup_filter_Some. simpl. by intros [].
Qed.

(** ** The history along a run *)

(** The tasks that read with a generation. *)
Definition reading_of (t : task) (q : request) (g : ident) : Prop := t_phase t = Sent q (Some g).

(** Moves that change neither the cache nor the trace and start no read. *)
Lemma traced_same ttl cl cl' s :
  cache cl' = cache cl -> trace cl' = trace cl -> (closed cl = true -> closed cl' = true) ->
  (forall id t q g, tasks cl' !! id = Some t -> reading_of t q g -> tasks cl !! id = Some t) ->
  traced ttl cl s -> traced ttl cl' s.
Proof.
  intros Hc Htr Hcl Hts []. split; rewrite ?Hc, ?Htr; eauto. naive_solver.
Qed.

Lemma reading_alter cl f id :
  (forall t, tasks cl !! id = Some t -> is_sent (t_phase (f t)) = false) ->
  forall j t q g, alter f id (tasks cl) !! j = Some t -> reading_of t q g -> tasks cl !! j = Some t.
Proof.
  intros Hf j t q g [[-> (t0 & Ht0 & ->)]|[_ Hj]]%lookup_alter_Some Hr; [|done].
  unfold reading_of in Hr. specialize (Hf _ Ht0). by rewrite Hr in Hf.
Qed.

Lemma traced_finish ttl cl s id r : traced ttl cl s -> traced ttl (finish id r cl) s.
Proof. apply traced_same; [done..|]. by apply reading_alter. Qed.

Lemma traced_emit ttl cl s e :
  (forall o, e <> CacheCall o) -> (forall id p v l x now, e <> Served id p v l x now) -> e <> TransportClosed ->
  traced ttl cl s -> traced ttl (emit e cl) s.
Proof.
  intros He Hs Hne [Hw Ht Hr Ho Hen Hre Hf Hsv Hcl]. assert (forall path, untouched path [e]) as Hu.
  { intros path. apply untouched_one. intros o Heq. by destruct (He o). }
  split; simpl; try done.
  - intros path k x Hx. by apply filled_app; [|apply Hen].
  - intros id t ref v l g path Hid Hp Hph Hg. destruct (Hre id t ref v l g path Hid Hp Hph Hg) as [-> Hsi].
    split; [done|]. by apply since_app.
  - intros before id path v l x now after [(after' & Heq)|[_ Heq]]%snoc_served; [by eapply Hsv|].
    by destruct (Hs id path v l x now).
  - intros [Hin|Heq%list_elem_of_singleton]%elem_of_app; [by apply Hcl|by destruct Hne].
Qed.

Lemma traced_touch ttl cl s o :
  fills o = false -> begins o = false -> traced ttl cl s -> traced ttl (touch o cl) (spec_touch cl s o).
Proof.
  intros Hf Hb H. pose proof (touch_refines _ _ _ o H) as (Hw & Hr & Ht & Hn). split; try done.
  - simpl. rewrite enabled_step. by apply (touch_off ttl).
  - intros path k x Hx. destruct (spec_entries _ _ _ _ _ _ _ H Hf Hx) as [Hx' Hc].
    apply filled_app; [|by apply H]. apply untouched_one. by intros o' [= <-].
  - intros id t ref v l g path Hid Hp Hph Hg. destruct (spec_reads _ _ _ _ _ _ H Hb Hg) as [Hg' Hc].
    destruct (tr_reads _ _ _ H id t ref v l g path Hid Hp Hph Hg') as [-> Hsi].
    split; [done|]. apply since_app; [|done]. apply untouched_one. by intros o' [= <-].
  - intros id t q g Hid Hq. pose proof (tr_fresh _ _ _ H id t q g Hid Hq). lia.
  - intros before id path v l x now after [(after' & Heq)|[_ Heq]]%snoc_served; [|done].
    by eapply (tr_served _ _ _ H).
  - intros [Hin|Heq%list_elem_of_singleton]%elem_of_app; [|done].
    destruct (tr_closed _ _ _ H Hin) as [? Hs]. split; [done|]. apply (touch_none ttl); [done..|]. by destruct o.
Qed.

(** A hit serves an entry of the specification. *)
Lemma positional_normal sel version label :
  normalizeVersionRef sel = Ok (version, label) ->
  normalizeVersionRef (positionalSelector version label) = Ok (version, label).
Proof.
  unfold normalizeVersionRef, positionalSelector. simpl.
  destruct (_ || _) eqn:E; [done|]. intros [= Hv Hl]. rewrite Hv in *. rewrite E. f_equal. f_equal.
  destruct (version =? 0); [done|]. by rewrite <- Hl.
Qed.

Lemma traced_serve ttl cl s id path sel version label v now :
  traced ttl cl s -> normalizeVersionRef sel = Ok (version, label) ->
  (getParam (cache cl) now path version label).2 = Ok (Some v) ->
  let o := OGet now path (positionalSelector version label) in
  traced ttl (emit (Served id path version label v now) (touch o cl)) (spec_touch cl s o).
Proof.
  intros H Hn Hhit o. pose proof (traced_touch ttl cl s o eq_refl eq_refl H) as Ht.
  destruct (refined_hit _ _ _ _ _ _ (tr_refines _ _ _ H) Hhit) as (k & e & Hk & He & Hv & Hnow).
  set (cl1 := touch o cl) in *. set (s1 := spec_touch cl s o) in *. pose proof Ht as [Hw Htt Hr Ho Hen Hre Hf Hsv Hcl].
  assert (forall p, untouched p [Served id path version label v now]) as Hu by (intros p; by apply untouched_one).
  split; simpl; try done.
  - intros p k' x Hx. by apply filled_app; [|apply Hen].
  - intros i t ref w l g p Hid Hp Hph Hg. destruct (Hre i t ref w l g p Hid Hp Hph Hg) as [-> Hsi].
    split; [done|]. by apply since_app.
  - intros before id' path' v' l' x' now' after [(after' & Heq)|[<- Heq]]%snoc_served; [by eapply Hsv|].
    simplify_eq. exists k, e. split_and!; try done; [by eapply positional_normal|]. apply Hen.
    unfold s1, spec_touch. done.
  - intros [Hin|Heq%list_elem_of_singleton]%elem_of_app; [by apply Hcl|done].
Qed.

Lemma begin_ident_fresh c path g :
  (beginParameterRead c path).2 = Some g ->
  (next_ident c <= g < next_ident (beginParameterRead c path).1)%nat.
Proof.
  unfold beginParameterRead. destruct (negb (enabled c)); [done|].
  destruct (map_get path (parameterGenerations c)); simpl; intros [= <-]; lia.
Qed.

(** A read begins: its request is the newest of the trace, its generation is
    nobody else's. *)
Lemma traced_begin ttl cl s id ref version label u :
  let path := displayPath ref in
  let g := (beginParameterRead (cache cl) path).2 in
  let q := QGetParameter (toWireRef ref) version label in
  (forall t, tasks cl !! id = Some t -> t_place t = PRef ref) -> closed cl = false ->
  traced ttl cl s ->
  traced ttl (emit (Requested id q u) (set_phase id (Sent q g) (touch (OBegin path) cl))) (spec_touch cl s (OBegin path)).
Proof.
  intros path g q Hpl Hop H. pose proof (touch_refines _ _ _ (OBegin path) H) as (Hw & Hr & Ht & Hn).
  assert (forall p, untouched p [CacheCall (OBegin path); Requested id q u]) as Hu
    by (intros p o; rewrite elem_of_cons, list_elem_of_singleton; intros [[= ->]|]; done).
  split; try done; simpl.
  - intros He. apply (touch_off ttl); [done|]. by rewrite <- (enabled_step _ (OBegin path)).
  - intros p k x Hx. destruct (spec_entries _ _ _ (OBegin path) _ _ _ H eq_refl Hx) as [Hx' _].
    rewrite <- (assoc_L (++)). by apply filled_app; [|by apply H].
  - intros j t ref' v l g' p [[-> (t0 & Ht0 & ->)]|[Hne Hj]]%lookup_alter_Some Hp Hph Hg.
    + simpl in Hp, Hph. rewrite (Hpl _ Ht0) in Hp. injection Hp as <-. injection Hph as <- <- Hg0.
      assert (p = path) as ->.
      { revert Hg. unfold spec_touch, pair_step. simpl. fold g. rewrite Hg0. simpl. rewrite lookup_insert_eq. congruence. }
      split; [done|].
      eexists _, u, []. split; [reflexivity|]. by intros o ?%elem_of_nil.
    + pose proof (tr_fresh _ _ _ H j t _ g' Hj Hph) as Hlt.
      assert (sp_reads s !! g' = Some p) as Hg'.
      { revert Hg. unfold spec_touch, pair_step. simpl. destruct (beginParameterRead (cache cl) path).2 as [g0|] eqn:E; [|done].
        simpl. apply begin_ident_fresh in E. by rewrite lookup_insert_ne by lia. }
      destruct (tr_reads _ _ _ H j t ref' v l g' p Hj Hp Hph Hg') as [-> Hsi]. split; [done|].
      rewrite <- (assoc_L (++)). by apply since_app.
  - intros j t q' g' [[-> (t0 & Ht0 & ->)]|[Hne Hj]]%lookup_alter_Some Hph.
    + simpl in Hph. simplify_eq. by apply begin_ident_fresh.
    + pose proof (tr_fresh _ _ _ H j t q' g' Hj Hph). simpl in Hn. lia.
  - intros before id' p v l x now after Heq. rewrite <- (assoc_L (++)) in Heq. simpl in Heq.
    change [CacheCall (OBegin path); Requested id q u] with ([CacheCall (OBegin path)] ++ [Requested id q u]) in Heq.
    rewrite (assoc_L (++)) in Heq.
    apply snoc_served in Heq as [(a & Heq)|[_ ?]]; [|done].
    apply snoc_served in Heq as [(a' & Heq)|[_ ?]]; [|done]. by eapply (tr_served _ _ _ H).
  - rewrite <- (assoc_L (++)). intros [Hin|Hin]%elem_of_app.
    + destruct (tr_closed _ _ _ H Hin). congruence.
    + simpl in Hin. by apply elem_of_cons in Hin as [|Hin%list_elem_of_singleton].
Qed.

(** The fill: the answer to the task's own request becomes an entry. *)
Lemma traced_fill ttl cl s id t ref version label g w p now1 now2 :
  tasks cl !! id = Some t -> t_place t = PRef ref ->
  t_phase t = Sent (QGetParameter (toWireRef ref) version label) (Some g) ->
  read_parameter ref version (Ok (AParameter (Some w))) = Ok p ->
  traced ttl cl s ->
  let cl1 := emit (Answered id (Ok (AParameter (Some w)))) cl in
  let o := OCacheIf now1 now2 g version label (pa_value p) in
  traced ttl (touch o cl1) (spec_touch cl1 s o).
Proof.
  intros Hid Hp Hph Hrd H cl1 o.
  assert (traced ttl cl1 s) as H1 by (by apply traced_emit).
  pose proof (touch_refines _ _ _ o H1) as (Hw & Hr & Ht & Hn).
  assert (forall pa, untouched pa [CacheCall o]) as Hu by (intros pa; apply untouched_one; by intros ? [= <-]).
  split; try done.
  - intros He. apply (touch_off ttl cl1); [done|]. by rewrite <- (enabled_step _ o).
  - intros path k e Hx.
    assert (sp_entries s !! (path, k) = Some e \/
      sp_reads s !! g = Some path /\ selectorKey (positionalSelector version label) = Ok k /\
      value e = pa_value p /\ expiresAt e = now1 + ttl) as [Hold|(Hg & Hk & Hv & He)].
    { revert Hx. unfold spec_touch, pair_step. simpl. destruct (sp_reads s !! g) as [pa|] eqn:Hg; [|by left].
      destruct (enabled (cache cl)); [|by left]. unfold sp_put.
      destruct (selectorKey _) as [k'|] eqn:Hk; [|by left]. simpl.
      rewrite lookup_insert. case_decide as Hd; [|by left]. intros [= <-]. simplify_eq. right.
      split_and!; try done. simpl. by rewrite (tr_ttl _ _ _ H). }
    + simpl. apply filled_app; [done|]. by apply (tr_entries _ _ _ H1).
    + destruct (tr_reads _ _ _ H id t ref version label g path Hid Hp Hph Hg) as [-> (a & u & b & Heq & Hb)].
      exists a, b, [], id, ref, version, label, u, w, p, now1, now2, g. split_and!; try done.
      * simpl. rewrite Heq, <- !(assoc_L (++)). simpl. by rewrite Hv.
      * by rewrite app_nil_r.
  - intros j t' ref' v l g' path Hj Hp' Hph' Hg.
    destruct (spec_reads _ _ _ o _ _ H1 eq_refl Hg) as [Hg' _].
    destruct (tr_reads _ _ _ H1 j t' ref' v l g' path Hj Hp' Hph' Hg') as [-> Hsi].
    split; [done|]. simpl. by apply since_app.
  - intros j t' q g' Hj Hq. pose proof (tr_fresh _ _ _ H1 j t' q g' Hj Hq). lia.
  - intros before id' pa v l x now after Heq. simpl in Heq.
    apply snoc_served in Heq as [(a' & Heq)|[_ ?]]; [|done]. by eapply (tr_served _ _ _ H1).
  - simpl. intros [Hin|Heq%list_elem_of_singleton]%elem_of_app; [|done].
    destruct (tr_closed _ _ _ H1 Hin) as [? Hs]. split; [done|]. by apply (touch_none ttl).
Qed.

(** The end of [close]. *)
Lemma traced_clear ttl cl s :
  closed cl = true -> traced ttl cl s -> traced ttl (emit TransportClosed (touch OClear cl)) no_spec.
Proof.
  intros Hc H. pose proof (traced_touch ttl cl s OClear eq_refl eq_refl H) as Ht.
  assert (spec_touch cl s OClear = no_spec) as Hs.
  { unfold spec_touch, pair_step, no_spec. simpl. unfold sp_invalidate. f_equal;
      apply map_empty; intros i; apply map_lookup_filter_None; by right. }
  rewrite Hs in Ht. destruct Ht as [Hw Htt Hr Ho Hen Hre Hf Hsv Hcl]. split; simpl; try done.
  intros before id path v l x now after Heq. apply snoc_served in Heq as [(a & Heq)|[_ ?]]; [|done].
  by eapply Hsv.
Qed.

Lemma request_ref c ref b w version label :
  the_request c (PRef ref) b = Ok (Some (QGetParameter w version label)) -> w = toWireRef ref.
Proof.
  destruct (own_continuation c) eqn:Ho.
  - destruct c; simpl; try done; intros H.
    1,2: destruct (normalizeVersionRef _) in H; by simplify_eq.
    + by simplify_eq.
    + destruct (normalizeVersionRef _) in H; [|done]. destruct (optionalCredential _ _) in H; by simplify_eq.
    + destruct (optionalCredential _ _) in H; by simplify_eq.
  - intros H. assert (request_of c (PRef ref) b = Ok (Some (QGetParameter w version label))) as Hr by (by destruct c).
    by apply request_of_unread in Hr.
Qed.

Lemma traced_end ttl cl s g :
  traced ttl cl s -> traced ttl (touch (OEnd g) cl) (spec_touch cl s (OEnd g)).
Proof. by apply traced_touch. Qed.

Lemma traced_parameter ttl cl s now id t ref w version label g r :
  typed cl -> tasks cl !! id = Some t -> t_place t = PRef ref ->
  t_phase t = Sent (QGetParameter w version label) g ->
  traced ttl cl s ->
  exists s', traced ttl (on_parameter now id (t_call t) ref version label g r (emit (Answered id r) cl)) s'.
Proof.
  intros Hty Hid Hp Hph H. destruct (to_sent t (Hty _ _ Hid) _ _ Hph) as [Hq _]. rewrite Hp in Hq.
  apply request_ref in Hq as ->. assert (traced ttl (emit (Answered id r) cl) s) as H1 by (by apply traced_emit).
  unfold on_parameter. destruct (read_parameter ref version r) as [p|e] eqn:Hr; [|eexists; by apply traced_finish, traced_end].
  destruct g as [g|]; [|eexists; by apply traced_finish, traced_end].
  destruct r as [a|e]; [|done]. assert (exists w, a = AParameter (Some w)) as [w ->].
  { destruct a as [|[w|]| | | | | | | | | | |]; try done. by exists w. }
  eexists. apply traced_finish, traced_end. by eapply traced_fill.
Qed.

Lemma traced_move ttl cl cl' :
  typed cl -> (exists s, traced ttl cl s) -> move cl cl' -> exists s, traced ttl cl' s.
Proof.
  intros Hty [s H] Hm. destruct Hm.
  - eexists. apply traced_touch; [by destruct o|by destruct o|done].
  - eexists. apply traced_finish. by eapply traced_serve.
  - eexists. apply traced_begin; [|done..]. intros t' Ht'. by simplify_eq.
  - exists s. apply traced_emit; [done..|]. apply (traced_same ttl cl); [done..| |done].
    intros j t' q' g [[-> (t0 & Ht0 & ->)]|[_ Hj]]%lookup_alter_Some Hr; [by injection Hr|done].
  - by eapply traced_parameter.
  - exists s. by apply traced_finish.
  - exists s. by apply traced_finish.
  - exists s. by apply traced_emit; [intros ? ->|intros ? ? ? ? ? ? ->|intros ->|].
  - exists s. apply (traced_same ttl cl); [done..| |done]. intros j t' q g [Hj|[-> ->]]%lookup_snoc_new Hr; done.
  - exists s. apply (traced_same ttl cl); [done..| |done]. intros j t' q g [Hj|[-> ->]]%lookup_snoc_new Hr; done.
  - exists s. apply (traced_same ttl cl); [done..| |done]. by apply reading_alter.
  - exists s. apply (traced_same ttl cl); [done..| |done]. by apply reading_alter.
  - exists s. destruct (start_discovery_open now cl ltac:(done)) as [u ->]. apply traced_emit; [done..|].
    apply (traced_same ttl cl); [done..| |done].
    intros j t' q g [[-> (t0 & Ht0 & ->)]|[_ Hj]]%lookup_alter_Some Hr; [by injection Hr|].
    apply lookup_snoc_new in Hj as [Hj|[-> ->]]; done.
  - exists s. apply traced_finish.
    assert (traced ttl (emit (Answered id r) cl) s) as Ha by (by apply traced_emit).
    eapply traced_same; [| | | |exact Ha]; unfold on_discovered; by repeat case_match.
  - exists s. apply (traced_same ttl cl); [done..| |done]. simpl. intros j t' q g. rewrite list_lookup_fmap.
    destruct (tasks cl !! j) as [t0|]; [|done]. intros [= <-] Hr. revert Hr.
    destruct (abort_task_cases s0 reason t0) as [->|[_ ->]]; done.
  - eexists. by eapply traced_clear.
  - exists s. destruct H0. eapply traced_same; try done. intros. congruence.
Qed.

Lemma traced_run cl ops : initial cl -> exists s, traced (ttlMs (cache cl)) (run cl ops) s.
Proof.
  intros Hi. apply (pristine_run (fun c => exists s, traced (ttlMs (cache cl)) c s)); [|done|].
  - intros c c' Hty Hs Hm. by eapply traced_move.
  - destruct (initial_pristine _ Hi) as [Hts Htr _ _ _ _ _ _ (ttl & max & Hc)]. exists no_spec. split; try done.
    + by eapply new_ReadCache_wf.
    + by eapply refines_new.
    + intros id t q g. by rewrite Hts, lookup_nil.
    + rewrite Htr. by intros [] ?.
    + rewrite Htr. by intros ?%elem_of_nil.
Qed.

(** The key of a selector tells the selectors apart. *)
Lemma digits_nul n l : 0 <= n -> dec n = l -> 0 ∉ l.
Proof.
  intros Hn <- Hin. unfold dec in Hin. destruct (Z.ltb_spec n 0); [lia|].
  pose proof (dec_nat_digits n Hn) as Hf. rewrite Forall_forall in Hf. specialize (Hf _ Hin).
  unfold is_digit in Hf. bool_prop. lia.
Qed.

Lemma selectorKey_inj v l v' l' k :
  selectorKey (positionalSelector v l) = Ok k -> selectorKey (positionalSelector v' l') = Ok k ->
  normalizeVersionRef (positionalSelector v l) = normalizeVersionRef (positionalSelector v' l').
Proof.
  unfold selectorKey. destruct (normalizeVersionRef (positionalSelector v l)) as [[a b]|] eqn:E1; [|done].
  destruct (normalizeVersionRef (positionalSelector v' l')) as [[a' b']|] eqn:E2; [|done]. simpl.
  assert (forall v l a b, normalizeVersionRef (positionalSelector v l) = Ok (a, b) -> 0 <= a) as Hpos.
  { intros x y c d. unfold normalizeVersionRef, positionalSelector. simpl.
    destruct (_ || _) eqn:E; [done|]. bool_prop. intros [= <- _]. lia. }
  apply Hpos in E1, E2. intros [= <-] [= Heq].
  assert (dec a' = dec a /\ b' = b) as [Ha ->].
  { pose proof (digits_nul a' _ E2 eq_refl) as N1. pose proof (digits_nul a _ E1 eq_refl) as N2.
    revert N1 N2 Heq. generalize (dec a') (dec a). intros x. induction x as [|c x IH]; intros [|d y]; simpl; intros N1 N2 Heq.
    - by simplify_eq.
    - simplify_eq. set_solver.
    - simplify_eq. set_solver.
    - injection Heq as -> Heq. destruct (IH y) as [-> ->]; set_solver. }
  by rewrite (dec_inj a' a).
Qed.

(** C3: the client never serves a stale value. Whenever [getParameter] answers
    from the cache (in any interleaving of calls, replies, writes of this
    client, watch events and [close]), the value is one the server sent in
    answer to a request for the same path and selector; that answer passed
    the identity checks of a direct read; the request left after the last
    call that invalidated the path (its own writes, a watch event, a
    namespace snapshot, [clear]); and less than the TTL has passed since the
    answer was stored. *)
Theorem cached_values_fresh cl ops before after id path version label v now :
  initial cl ->
  trace (run cl ops) = before ++ Served id path version label v now :: after ->
  exists ref version' label' rid u w p t0 t1 t2 at1 at2 g,
    before = t0 ++ Requested rid (QGetParameter (toWireRef ref) version' label') u :: t1 ++
               Answered rid (Ok (AParameter (Some w))) :: CacheCall (OCacheIf at1 at2 g version' label' v) :: t2 /\
    displayPath ref = path /\
    normalizeVersionRef (positionalSelector version' label') = Ok (version, label) /\
    read_parameter ref version' (Ok (AParameter (Some w))) = Ok p /\ pa_value p = v /\
    (forall o, CacheCall o ∈ t1 ++ t2 -> covers o path = false) /\
    now < at1 + ttlMs (cache cl).
Proof.
  intros Hi Htr. destruct (traced_run cl ops Hi) as [s H].
  destruct (tr_served _ _ _ H _ _ _ _ _ _ _ _ Htr) as (k & e & Hk & Hn & Hf & Hv & Hnow).
  destruct Hf as (t0 & t1 & t2 & rid & ref & v' & l' & u & w & p & at1 & at2 & g & Hb & Hu & Hp & Hk' & Hr & Hval & He).
  exists ref, v', l', rid, u, w, p, t0, t1, t2, at1, at2, g. split_and!; try done.
  - by rewrite Hb, Hv.
  - by rewrite (selectorKey_inj _ _ _ _ _ Hk' Hk), Hn.
  - congruence.
  - lia.
Qed.

(** The second read of a parameter is served, 998 ms after the first was
    stored. *)
Lemma cached_values_fresh_witness :
  let get := CGetParameter (js "/prod/web/host") latest in
  let ops := [OStart (at_time 1) get; OResume (at_time 1) 0;
              OReply (at_time 2) 0 (Ok (AParameter (Some demo_parameter)));
              OStart (at_time 3) get; OResume (at_time 1000) 1] in
  exists before ref v w p, trace (run demo_client ops) =
      before ++ [Served 1 (js "/prod/web/host") 0 [] (js "v1") 1000] /\
    displayPath ref = js "/prod/web/host" /\
    read_parameter ref v (Ok (AParameter (Some w))) = Ok p /\ pa_value p = js "v1".
Proof.
  intros get ops. exists (take 7 (trace (run demo_client ops))).
  assert (trace (run demo_client ops) = take 7 (trace (run demo_client ops)) ++
    [Served 1 (js "/prod/web/host") 0 [] (js "v1") 1000]) as Htr by (vm_compute; reflexivity).
  destruct (cached_values_fresh demo_client ops _ [] 1 (js "/prod/web/host") 0 [] (js "v1") 1000 demo_initial Htr)
    as (ref & v & _ & _ & _ & w & p & _ & _ & _ & _ & _ & _ & _ & Hp & _ & Hr & Hv & _).
  exists ref, v, w, p. split_and!; assumption.
Defined.
