(* ===== verification/ClientReads.v ===== *)
(** * ClientReads: what the client's reads return.

    A read resolves only with what the server returned for the very reference
    and version that was asked for, whether it was asked now or the answer
    comes from the cache. The metadata of a parameter are the exception: their
    reference is the one the server names, which the code does not compare. *)
From stdpp Require Import prelude gmap strings relations.
From Stdlib Require Import ZArith Lia.
From S2P Require Import Prelude JsString JsMap Unicode Decimal Errors Refs Cache CacheProofs CacheSpec Contract Release Dispatcher ClientData Client ClientMoves ClientProofs ClientFresh.

(** ** Identity *)

Lemma assertResourceIdentity_Ok kind ref wref u :
  assertResourceIdentity kind ref wref = Ok u -> exists w, wref = Some w /\ fromWireRef w = Ok ref.
Proof.
  unfold assertResourceIdentity. destruct wref as [w|]; [|done].
  destruct (fromWireRef w) as [r|e] eqn:Hw; [|done].
  destruct (negb _ || negb _) eqn:E; [done|]. intros _. exists w. split; [done|].
  unfold namespaceEquals in E. bool_prop. rewrite Hw. destruct r as [[e1 a1] k1], ref as [[e2 a2] k2]. simpl in *.
  by subst.
Qed.

Lemma assertReadIdentity_Ok kind ref wref v sel u :
  assertReadIdentity kind ref wref v sel = Ok u ->
  (exists w, wref = Some w /\ fromWireRef w = Ok ref) /\ 1 <= v <= UINT64_MAX /\ (0 < sel -> v = sel).
Proof.
  unfold assertReadIdentity. destruct (assertResourceIdentity kind ref wref) eqn:Hr; [|done].
  destruct (_ || _) eqn:E1; [done|]. destruct (_ && _) eqn:E2; [done|]. intros _. bool_prop.
  split_and!; [by eapply assertResourceIdentity_Ok|lia|lia|].
  intros Hs. apply andb_false_iff in E2 as [E2|E2]; bool_prop; lia.
Qed.

(** The version a read pins, 0 when it follows a label. *)
Definition asked (t : task) : Z :=
  match the_request (t_call t) (t_place t) (t_buffer t) with
  | Ok (Some (QGetParameter _ version _)) | Ok (Some (QGetSecret _ version _ _)) => version
  | _ => 0
  end.

Definition pinned (asked version : Z) : Prop := 1 <= version <= UINT64_MAX /\ (0 < asked -> version = asked).

(** [v] is the value of a parameter the server sent in a message that names
    the path of [ref] and has an admissible version. *)
Definition answered (tr : list effect) (ref : ResourceRef) (asked : Z) (v : jstr) : Prop :=
  exists rid w wref named,
    Answered rid (Ok (AParameter (Some w))) ∈ tr /\ wp_ref w = Some wref /\ fromWireRef wref = Ok named /\
    displayPath named = displayPath ref /\ wp_value w = v /\ pinned asked (wp_version w).

Definition identified (tr : list effect) (ref : ResourceRef) (asked : Z) (x : result) : Prop :=
  match x with
  | RText v => answered tr ref asked v
  | RParameter p =>
      pa_env p = env (namespace ref) /\ pa_app p = app (namespace ref) /\ pa_key p = key ref /\
      pa_path p = displayPath ref /\ pinned asked (pa_version p)
  | RSecret s => se_path s = displayPath ref /\ pinned asked (se_version s)
  | RSecretInfo i =>
      si_env i = env (namespace ref) /\ si_app i = app (namespace ref) /\ si_key i = key ref /\
      si_path i = displayPath ref
  | RMetadata r m => match md_ref m with Some w => fromWireRef w = Ok r | None => r = ref end
  | _ => True
  end.

Lemma read_parameter_identity tr ref v r p : read_parameter ref v r = Ok p -> identified tr ref v (RParameter p).
Proof.
  unfold read_parameter. destruct r as [[| [w|] | | | | | | | | | | |]|]; try done.
  destruct (parameterFromWire w) as [p0|] eqn:Hp; [|done].
  destruct (assertReadIdentity _ _ _ _ _) eqn:Hi; [|done]. intros [= <-].
  destruct (assertReadIdentity_Ok _ _ _ _ _ _ Hi) as ((wref & Hw & Hf) & Hv).
  unfold parameterFromWire in Hp. rewrite Hw, Hf in Hp. simplify_eq/=. done.
Qed.

Lemma read_secret_identity tr ref v s x : read_secret ref v s = Ok x -> identified tr ref v (RSecret x).
Proof.
  unfold read_secret. destruct (ws_ref s) as [w|] eqn:Hw; [|done].
  destruct (fromWireRef w) as [r|] eqn:Hf; [|done].
  destruct (assertReadIdentity _ _ _ _ _) eqn:Hi; [|done].
  destruct (assertReadIdentity_Ok _ _ _ _ _ _ Hi) as ((w' & [= <-] & Hf') & Hv). rewrite Hf in Hf'. simplify_eq.
  unfold new_Secret. destruct (_ || _); [done|]. intros [= <-]. split; [done|exact Hv].
Qed.

Lemma read_secret_metadata_identity tr ref v s x :
  read_secret_metadata ref s = Ok x -> identified tr ref v (RSecretInfo x).
Proof.
  unfold read_secret_metadata. destruct s as [s|]; [|done].
  destruct (assertResourceIdentity _ _ _) eqn:Hi; [|done].
  destruct (assertResourceIdentity_Ok _ _ _ _ Hi) as (w & Hw & Hf).
  unfold secretInfoFromWire. rewrite Hw, Hf. by intros [= <-].
Qed.

Lemma decode_identity tr t q g a x ref :
  task_ok t -> t_place t = PRef ref -> t_phase t = Sent q g -> fits q a = true ->
  decode (t_place t) q a = Some (Ok x) -> identified tr ref (asked t) x /\ forall v, x <> RText v.
Proof.
  intros Hok Hp Hq Hf Hd. destruct (to_sent t Hok q g Hq) as [Hr _]. unfold asked. rewrite Hr, Hp in *.
  destruct q; simpl in Hf; try done; destruct a; try done; simpl in Hd; simplify_eq; try done.
  - destruct (read_secret ref version s) as [y|] eqn:Hy; simplify_eq. split; [by eapply read_secret_identity|done].
  - destruct (res_map _ _) in Hd; by simplify_eq.
  - destruct (res_map _ _) in Hd; by simplify_eq.
  - destruct (match md_ref m with Some _ => _ | None => _ end) as [r|] eqn:Hm in Hd; simplify_eq. split; [|done]. simpl.
    destruct (md_ref m); [done|congruence].
  - destruct (read_secret_metadata ref s) as [y|] eqn:Hy; simplify_eq. split; [by eapply read_secret_metadata_identity|done].
  - destruct (read_verdicts _ _) in Hd; by simplify_eq.
Qed.

(** ** Values *)

Lemma read_parameter_answer ref v r p :
  read_parameter ref v r = Ok p ->
  exists w wref, r = Ok (AParameter (Some w)) /\ wp_ref w = Some wref /\ fromWireRef wref = Ok ref /\
    pa_value p = wp_value w /\ pinned v (wp_version w).
Proof.
  unfold read_parameter. destruct r as [[| [w|] | | | | | | | | | | |]|]; try done.
  destruct (parameterFromWire w) as [p0|] eqn:Hp; [|done].
  destruct (assertReadIdentity _ _ _ _ _) eqn:Hi; [|done]. intros [= <-].
  destruct (assertReadIdentity_Ok _ _ _ _ _ _ Hi) as ((wref & Hw & Hf) & Hv). exists w, wref.
  unfold parameterFromWire in Hp. rewrite Hw, Hf in Hp. simplify_eq/=. done.
Qed.

Lemma answered_mono tr tr' ref v x : tr ⊆ tr' -> answered tr ref v x -> answered tr' ref v x.
Proof. intros H (rid & w & wref & named & Hin & Hrest). exists rid, w, wref, named. split; [by apply H|done]. Qed.

Lemma identified_mono tr tr' ref v x : tr ⊆ tr' -> identified tr ref v x -> identified tr' ref v x.
Proof. intros H. destruct x; try done. by apply answered_mono. Qed.

Lemma normal_version v l v' l' : normalizeVersionRef (positionalSelector v l) = Ok (v', l') -> v' = v.
Proof. unfold normalizeVersionRef, positionalSelector. simpl. destruct (_ || _); [done|]. by intros [= <- _]. Qed.

(** An entry of the cache is the value of an answer that passed the checks. *)
Lemma filled_answered ttl tr ref version label k e :
  filled ttl tr (displayPath ref) k e -> selectorKey (positionalSelector version label) = Ok k ->
  normalizeVersionRef (positionalSelector version label) = Ok (version, label) ->
  answered tr ref version (value e).
Proof.
  intros (t0 & t1 & t2 & rid & ref' & v' & l' & u & w & p & at1 & at2 & g & -> & _ & Hp & Hk' & Hr & Hv & _) Hk Hn.
  pose proof (selectorKey_inj _ _ _ _ _ Hk' Hk) as Hs. rewrite Hn in Hs. apply normal_version in Hs as ->.
  destruct (read_parameter_answer _ _ _ _ Hr) as (w' & wref & [= <-] & Hw & Hf & Hval & Hpin).
  exists rid, w, wref, ref'. split_and!; try done; [|congruence]. set_solver.
Qed.

(** ** Settled tasks *)

Lemma tasks_parameter_result now id c ref version label g r cl :
  exists x, tasks (on_parameter now id c ref version label g r cl) = alter (with_phase (Finished x)) id (tasks cl) /\
    forall y, x = Ok y -> exists p, read_parameter ref version r = Ok p /\ y = parameter_result c p.
Proof.
  unfold on_parameter. destruct (read_parameter ref version r) as [p|e] eqn:Hr.
  2: { destruct g; eexists; (split; [reflexivity|]); done. }
  destruct g as [g|]; [|eexists; split; [reflexivity|]; intros y [= <-]; by exists p].
  destruct (cacheParameterIfUnchanged _ _ _ _ _ _ _).2; eexists; (split; [reflexivity|]); [|done].
  intros y [= <-]. by exists p.
Qed.

(** The trace only grows. *)
Lemma on_parameter_trace now id c ref version label g r cl :
  trace cl ⊆ trace (on_parameter now id c ref version label g r cl).
Proof. unfold on_parameter. destruct (read_parameter _ _ _), g; simpl; set_solver. Qed.

Lemma move_trace cl cl' : move cl cl' -> trace cl ⊆ trace cl'.
Proof.
  destruct 1; simpl; try set_solver.
  - etrans; [|apply on_parameter_trace]. simpl. set_solver.
  - destruct (start_discovery_open now cl ltac:(done)) as [u ->]. simpl. set_solver.
  - unfold on_discovered. repeat case_match; simpl; set_solver.
  - match goal with H : aside _ _ |- _ => by rewrite (as_trace _ _ H) end.
Qed.

Definition text_of (t : task) (v : jstr) : Prop := t_phase t = Finished (Ok (RText v)).

(** Where the value of a settled [getParameter] comes from: it was there, or
    it was served, or it was read. *)
Lemma move_text cl cl' id t' ref v :
  typed cl -> move cl cl' -> tasks cl' !! id = Some t' -> t_place t' = PRef ref -> text_of t' v ->
  tasks cl !! id = Some t' \/
  (exists key o version label now, t_call t' = CGetParameter key o /\ normalizeVersionRef (go_selector o) = Ok (version, label) /\
     (getParam (cache cl) now (displayPath ref) version label).2 = Ok (Some v)) \/
  (exists t w version label g r p, tasks cl !! id = Some t /\ t_place t = PRef ref /\
     t_phase t = Sent (QGetParameter w version label) g /\ asked t' = asked t /\
     read_parameter ref version r = Ok p /\ pa_value p = v /\ Answered id r ∈ trace cl').
Proof.
  unfold text_of. intros Hty Hm Ht' Hp Hv. destruct Hm; simpl in Ht'; try (by left).
  all: try (by apply lookup_alter_Some in Ht' as [(-> & y & Hy & ->)|[_ ?]]; [simplify_eq/=; done|left]).
  all: try (by apply lookup_snoc_new in Ht' as [?|[-> ->]]; [left|done]).
  - apply lookup_alter_Some in Ht' as [(-> & y & Hy & ->)|[_ ?]]; [|by left]. simplify_eq/=.
    right. left. exists key, o, version, label, now. split_and!; congruence.
  - destruct (tasks_parameter_result now id0 (t_call t) ref0 version label g r (emit (Answered id0 r) cl)) as (x & Hx & Hok).
    rewrite Hx in Ht'. apply lookup_alter_Some in Ht' as [(-> & y & Hy & ->)|[_ ?]]; [|by left].
    simpl in Hy, Hp, Hv. assert (y = t) as -> by congruence. assert (ref0 = ref) as -> by congruence. injection Hv as ->.
    destruct (Hok _ eq_refl) as (p & Hr & Hpr). right. right.
    exists t, w, version, label, g, r, p. split_and!; try done.
    + unfold parameter_result in Hpr. destruct (t_call t); by simplify_eq.
    + apply on_parameter_trace. simpl. set_solver.
  - apply lookup_alter_Some in Ht' as [(-> & y & Hy & ->)|[_ ?]]; [|by left].
    simpl in Hp, Hv. assert (y = t) as -> by congruence. destruct x as [x|]; [|done]. simpl in Hv. injection Hv as ->.
    by destruct (decode_identity [] t q g a (RText v) ref (Hty _ _ Hy)) as [_ Hn]; [..|destruct (Hn v)].
  - destruct (start_discovery_open now cl ltac:(done)) as [u Hu]. rewrite Hu in Ht'. simpl in Ht'.
    apply lookup_alter_Some in Ht' as [(-> & y & Hy & ->)|[_ Hy]]; [done|]. by apply lookup_snoc_new in Hy as [?|[-> ->]]; [left|].
  - rewrite tasks_on_discovered in Ht'. apply lookup_alter_Some in Ht' as [(-> & y & Hy & ->)|[_ ?]]; [|by left].
    simpl in Hy, Hp. destruct (to_discover y (Hty _ _ Hy)) as [Hn _]; [|congruence]. assert (y = t) as -> by congruence. by rewrite H0.
  - rewrite list_lookup_fmap in Ht'. destruct (tasks cl !! id) as [t|] eqn:Ht; simplify_eq/=.
    destruct (abort_task_cases s reason t) as [E|[_ E]]; rewrite E in *; [by left|done].
  - left. match goal with H : aside _ _ |- _ => by rewrite <- (as_tasks _ _ H) end.
Qed.

Definition settled_ok (cl : Client) (t : task) : Prop :=
  forall ref x, t_place t = PRef ref -> t_phase t = Finished (Ok x) -> identified (trace cl) ref (asked t) x.

Lemma evolves_settled cl t t' tr :
  task_ok t -> settled_ok cl t -> trace cl ⊆ tr -> evolves cl t t' ->
  forall ref x, (forall v, x <> RText v) -> t_place t' = PRef ref -> t_phase t' = Finished (Ok x) ->
  identified tr ref (asked t') x.
Proof.
  intros Hok Hs Htr []; intros ref x Hx Hp Hph; simpl in *; try done.
  - eapply identified_mono; [exact Htr|by apply Hs].
  - simplify_eq. change (asked (with_phase _ t)) with (asked t).
    match goal with H : finish_ok _ _ |- _ => inversion H; subst end; try done.
    + by destruct (Hx value).
    + match goal with H : t_place t = PRef ?r |- _ => tryif unify r ref then fail else assert (r = ref) as -> by congruence end.
      match goal with H : t_phase t = Sent ?q ?g |- _ => destruct (to_sent t Hok q g H) as [Hr _] end.
      unfold asked. rewrite Hr. match goal with H : read_parameter _ _ _ = _ |- _ => apply (read_parameter_identity tr) in H end.
      unfold parameter_result in *. destruct (t_call t); try done. by destruct (Hx (pa_value p)).
    + by eapply decode_identity.
    + destruct (to_discover t Hok) as [Hn _]; [done|]. congruence.
Qed.

Lemma move_settled ttl s cl cl' :
  typed cl -> traced ttl cl s -> (forall id t, tasks cl !! id = Some t -> settled_ok cl t) -> move cl cl' ->
  forall id t, tasks cl' !! id = Some t -> settled_ok cl' t.
Proof.
  intros Hty Htr Hc Hm id t' Ht' ref x Hp Hx. pose proof (move_trace _ _ Hm) as Hsub.
  assert ((exists v, x = RText v) \/ forall v, x <> RText v) as [[v ->]|Hno] by (destruct x; eauto).
  - destruct (move_text _ _ _ _ _ _ Hty Hm Ht' Hp Hx) as [Hold|[(key & o & version & label & now & Hcall & Hn & Hhit)|
      (t & w & version & label & g & r & p & Ht & Hpl & Hph & Ha & Hr & Hv & Hin)]].
    + eapply identified_mono; [exact Hsub|by apply (Hc _ _ Hold)].
    + destruct (refined_hit _ _ _ _ _ _ (tr_refines _ _ _ Htr) Hhit) as (k & e & Hk & He & <- & _).
      apply (tr_entries _ _ _ Htr) in He. eapply identified_mono; [exact Hsub|]. unfold asked. rewrite Hcall, Hp. simpl. rewrite Hn.
      eapply filled_answered; [exact He|exact Hk|by eapply positional_normal].
    + rewrite Ha. destruct (to_sent t (Hty _ _ Ht) _ _ Hph) as [Hreq _]. unfold asked. rewrite Hreq.
      destruct (read_parameter_answer _ _ _ _ Hr) as (w' & wref & -> & Hw & Hf & Hval & Hpin).
      exists id, w', wref, ref. split_and!; try done. congruence.
  - destruct (move_tasks cl cl' id t' Hm Ht') as [(t0 & Ht0 & He)|[_ Hf]]; [|by inversion Hf; subst].
    by apply (evolves_settled cl t0 t' (trace cl') (Hty _ _ Ht0) (Hc _ _ Ht0) Hsub He ref x Hno Hp Hx).
Qed.

(** C5: reads return what was asked for. Whenever a call of the client about
    the reference [ref] resolves with the value of a parameter, a parameter, a
    secret or a secret's metadata, in any interleaving and whatever the server
    answered, the result is that of [ref], and its version (of all but secret
    metadata, which span versions) is a positive 64-bit integer and the one the
    call pinned if it pinned one. A parameter, a secret and a secret's metadata
    carry the identity themselves; a bare value, from [getParameter], is the
    one the server sent in a message that names the path of [ref], be it the
    answer to this call or the one the cache was filled from. The metadata of a
    parameter are not covered: they resolve with the reference the server
    names, or [ref] if it names none, and nothing compares the two. *)
Theorem reads_identified cl ops id t ref x :
  initial cl ->
  tasks (run cl ops) !! id = Some t -> t_place t = PRef ref -> t_phase t = Finished (Ok x) ->
  identified (trace (run cl ops)) ref (asked t) x.
Proof.
  intros Hi Ht Hp Hx.
  assert ((exists s, traced (ttlMs (cache cl)) (run cl ops) s) /\
    forall id t, tasks (run cl ops) !! id = Some t -> settled_ok (run cl ops) t) as [_ Hall]; [|by eapply Hall].
  apply (pristine_run (fun c => (exists s, traced (ttlMs (cache cl)) c s) /\ forall id t, tasks c !! id = Some t -> settled_ok c t)).
  - intros c c' Hty [[s Htr] Hc] Hm. split; [eapply traced_move; eauto|]. by eapply move_settled.
  - done.
  - split; [exact (traced_run cl [] Hi)|]. intros id' t'. by rewrite (pr_tasks _ (initial_pristine _ Hi)), lookup_nil.
Qed.

(** A parameter's metadata with the reference of another parameter. *)
Lemma metadata_unchecked :
  let other := {| wr_namespace := Some demo_ns; wr_key := js "other" |} in
  let m := {| md_ref := Some other; md_contentType := []; md_metadataJson := []; md_createdAtUnixMs := 0;
              md_updatedAtUnixMs := 0; md_labels := []; md_versions := [] |} in
  let ops := [OStart (at_time 1) (CGetParameterMetadata (js "/prod/web/host") no_options); OResume (at_time 1) 0;
              OReply (at_time 2) 0 (Ok (AParameterMetadata m))] in
  t_phase <$> tasks (run demo_client ops) !! 0%nat =
    Some (Finished (Ok (RMetadata {| namespace := demo_ns; key := js "other" |} m))).
Proof. vm_compute. reflexivity. Qed.

(** The value of a parameter, read and then served from the cache. *)
Lemma reads_identified_witness :
  let get := CGetParameter (js "/prod/web/host") latest in
  let ops := [OStart (at_time 1) get; OResume (at_time 1) 0;
              OReply (at_time 2) 0 (Ok (AParameter (Some demo_parameter)));
              OStart (at_time 3) get; OResume (at_time 1000) 1] in
  let ref := {| namespace := demo_ns; key := js "host" |} in
  exists t, tasks (run demo_client ops) !! 1%nat = Some t /\ t_phase t = Finished (Ok (RText (js "v1"))) /\
    answered (trace (run demo_client ops)) ref 0 (js "v1").
Proof.
  intros get ops ref. eexists. split; [vm_compute; reflexivity|]. split; [reflexivity|].
  exact (reads_identified demo_client ops 1 _ ref (RText (js "v1")) demo_initial
    ltac:(vm_compute; reflexivity) ltac:(vm_compute; reflexivity) ltac:(reflexivity)).
Defined.
