(* ===== verification/ClientSpec.v ===== *)
(** * ClientSpec: what the client promises about itself.

    A closed client sends nothing and retains nothing; relative keys have one
    namespace, discovered at most once at a time; and every generation of the
    cache belongs to a read under way. *)
From stdpp Require Import prelude gmap strings relations.
From Stdlib Require Import ZArith Lia.
From S2P Require Import Prelude JsString JsMap Unicode Decimal Errors Refs Cache CacheProofs CacheSpec Contract Release Dispatcher ClientData Client ClientMoves ClientProofs ClientReads ClientFresh.

(** ** Closing *)

Definition requests (tr : list effect) : list (nat * request) :=
  omap (fun e => match e with Requested id q _ => Some (id, q) | _ => None end) tr.

Lemma requests_snoc tr e :
  requests (tr ++ [e]) = requests tr ++ match e with Requested id q _ => [(id, q)] | _ => [] end.
Proof. unfold requests. rewrite omap_app. by destruct e. Qed.

(** Every move but those that send leaves the requests alone. *)
Lemma move_requests cl cl' : move cl cl' -> closed cl = true -> closed cl' = true /\ requests (trace cl') = requests (trace cl).
Proof.
  intros Hm Hc. destruct Hm; try congruence; simpl; rewrite ?requests_snoc, ?app_nil_r; try done.
  - unfold on_parameter. destruct (read_parameter _ _ _), g; simpl; rewrite ?requests_snoc, ?app_nil_r; done.
  - destruct e; simplify_eq/=; by rewrite ?app_nil_r.
  - unfold on_discovered. repeat case_match; simpl; rewrite ?requests_snoc, ?app_nil_r; done.
  - destruct H. split; [auto|congruence].
Qed.

Lemma run_close_ok cl ops : initial cl -> close_ok (run cl ops).
Proof.
  intros Hi. apply pristine_run; [eauto using move_close|done|].
  intros Hn. by rewrite (pr_close _ (initial_pristine _ Hi)) in Hn.
Qed.

Lemma no_entries m : entries_wf m -> (forall path k, cache_lookup m path k = None) -> entry_total m = 0%nat.
Proof.
  induction m as [|[p es] m IH]; intros Hm Hn; [done|]. unfold entry_total. simpl.
  assert (es = []) as ->.
  { destruct es as [|[k e] es]; [done|]. specialize (Hn p k). unfold cache_lookup in Hn. csimpl in Hn.
    rewrite decide_True in Hn by done. csimpl in Hn. by rewrite decide_True in Hn. }
  simpl. apply IH; [by eapply entries_wf_tail|]. intros path k. specialize (Hn path k).
  revert Hn. unfold cache_lookup. csimpl. case_decide as Hd; [|done]. intros _. subst.
  destruct Hm as [[Hnin _]%NoDup_cons _]. simpl in Hnin. apply map_get_None in Hnin. by rewrite Hnin.
Qed.

(** C19: a closed client is inert. Once [close] has been called no request
    leaves any more, whatever calls are made or were under way and whatever
    they are answered; and once the close attempt got past the subscriptions
    the cache is empty and stays empty, answers that arrive late included. *)
Theorem closed_client_inert cl ops more :
  initial cl -> closed (run cl ops) = true ->
  let c := run cl ops in
  let c' := run c more in
  closed c' = true /\ requests (trace c') = requests (trace c) /\
  (TransportClosed ∈ trace c' ->
     parameterSize (cache c') = 0 /\
     forall now path version label v, (getParam (cache c') now path version label).2 <> Ok (Some v)).
Proof.
  intros Hi Hc c c'.
  assert (closed c' = true /\ requests (trace c') = requests (trace c)) as [Hc' Hr].
  { apply (run_keeps (fun x => closed x = true /\ requests (trace x) = requests (trace c))).
    - intros x y _ [Hx Hrx] Hm. destruct (move_requests _ _ Hm Hx) as [Hy Hry]. by rewrite Hry.
    - by apply run_typed.
    - by apply run_close_ok.
    - done. }
  split_and!; [done..|]. intros Hin.
  assert (c' = run cl (ops ++ more)) as Hrun by (unfold c', c, run; by rewrite foldl_app).
  destruct (traced_run cl (ops ++ more) Hi) as [s Hs]. rewrite <- Hrun in Hs.
  destruct (tr_closed _ _ _ Hs Hin) as [_ ->]. destruct (tr_wf _ _ _ Hs) as [[Hw Hcnt _ _] _]. split.
  - unfold parameterSize. rewrite Hcnt, no_entries; [done..|]. intros path k.
    destruct (cache_lookup _ path k) as [e|] eqn:He; [|done].
    by apply (proj1 (tr_refines _ _ _ Hs)) in He.
  - intros now path version label v Hhit. unfold getParam in Hhit.
    by destruct (refined_hit _ _ _ _ _ _ (tr_refines _ _ _ Hs) Hhit) as (k & e & _ & He & _).
Qed.

(** A read is under way when the client closes; its answer comes last. *)
Lemma closed_client_inert_witness :
  let ops := [OStart (at_time 1) (CGetParameter (js "/prod/web/host") latest); OResume (at_time 1) 0; OClose] in
  let more := [OStopped (Ok tt); OReply (at_time 2) 0 (Ok (AParameter (Some demo_parameter)));
               OStart (at_time 3) (CGetParameter (js "/prod/web/host") latest)] in
  parameterSize (cache (run (run demo_client ops) more)) = 0 /\
  length (requests (trace (run (run demo_client ops) more))) = 1%nat.
Proof.
  intros ops more.
  destruct (closed_client_inert demo_client ops more demo_initial eq_refl) as (_ & Hr & Hp).
  split.
  - apply Hp. apply (list_elem_of_lookup_2 _ 5). vm_compute. reflexivity.
  - rewrite Hr. vm_compute. reflexivity.
Defined.

(** ** One namespace *)

(** The namespace of relative keys, once the client knows it. *)
Definition home (cl : Client) : option NamespaceRef :=
  match configuredNamespace cl with
  | Some ns => Some ns
  | None => default None (discoveredNamespace cl)
  end.

(** What a place owes to the namespace. *)
Definition placed (cl : Client) (t : task) : Prop :=
  match target_of (t_call t), t_place t with
  | Ok (TKey key), PRef ref =>
      if startsWith (js "/") key then resolveRef key NsNone = Ok ref
      else exists ns, home cl = Some ns /\ resolveRef key (NsRef ns) = Ok ref
  | Ok (TRequire _), PNamespace ns => home cl = Some ns
  | _, _ => True
  end.

Record discovery_ok (cl : Client) : Prop := {
  d_configured : configuredNamespace cl <> None -> promises cl = [];
  d_done : forall p ns, promises cl !! p = Some (Some (Ok ns)) -> discoveredNamespace cl = Some ns;
  d_exclusive : forall p, promises cl !! p = Some None -> discoveredNamespace cl = None;
  d_pending : forall p, promises cl !! p = Some None -> namespacePromise cl = Some p;
  d_current : forall p, namespacePromise cl = Some p -> (p < length (promises cl))%nat;
  d_task : forall id t p, tasks cl !! id = Some t -> t_call t = CDiscover p ->
    (p < length (promises cl))%nat /\ (is_sent (t_phase t) = true -> promises cl !! p = Some None);
  d_unique : forall i j t u p, tasks cl !! i = Some t -> tasks cl !! j = Some u ->
    t_call t = CDiscover p -> t_call u = CDiscover p -> i = j;
  d_has : forall p, promises cl !! p = Some None ->
    exists id t, tasks cl !! id = Some t /\ t_call t = CDiscover p /\ is_sent (t_phase t) = true;
  d_join : forall id t p, tasks cl !! id = Some t -> t_phase t = Joining p -> (p < length (promises cl))%nat;
  d_placed : forall id t, tasks cl !! id = Some t -> placed cl t
}.

(** A place from a legitimate source is as it should be. *)
Lemma resolveRef_absolute key a b : startsWith (js "/") key = true -> resolveRef key a = resolveRef key b.
Proof. intros Hs. unfold resolveRef. by rewrite Hs. Qed.

Lemma source_home cl tgt ns :
  discovery_ok cl -> source cl tgt ns ->
  match tgt with TNow _ => True | _ => ns = home cl \/ exists key, tgt = TKey key /\ startsWith (js "/") key = true end.
Proof.
  intros H []; simpl; try done.
  - right. eauto.
  - destruct tgt0; try done; left; unfold home; by rewrite H0.
  - destruct tgt0; try done; left; unfold home; by rewrite H0, H1.
  - assert (ns0 = home cl) as ->; [|by destruct tgt0; eauto].
    unfold home. rewrite (d_done _ H _ _ H0). destruct (configuredNamespace cl) eqn:E; [|done].
    rewrite (d_configured _ H) in H0 by congruence. by rewrite lookup_nil in H0.
Qed.

Lemma source_placed cl t tgt ns p :
  discovery_ok cl -> target_of (t_call t) = Ok tgt -> source cl tgt ns -> place_for tgt ns = Ok p ->
  placed cl (with_place p t).
Proof.
  intros H Htg Hs Hp. pose proof (source_home _ _ _ H Hs) as Hh. unfold placed. simpl. rewrite Htg.
  destruct tgt as [key|operation|pl]; simpl in Hp; [| |done].
  - destruct (resolveRef key _) as [ref|] eqn:Hr; simplify_eq.
    destruct (startsWith (js "/") key) eqn:Hk.
    + by rewrite (resolveRef_absolute key NsNone (match ns with Some ns => NsRef ns | None => NsNone end)).
    + destruct Hh as [->|(k & [= <-] & Hk')]; [|congruence].
      destruct (home cl) as [n|]; [eauto|]. unfold resolveRef in Hr. by rewrite Hk in Hr.
  - destruct ns as [n|]; simplify_eq. by destruct Hh as [Hh|(k & ? & _)].
Qed.

(** The namespace, once known, stays. *)
Lemma placed_mono cl cl' t :
  (forall ns, home cl = Some ns -> home cl' = Some ns) -> placed cl t -> placed cl' t.
Proof.
  intros Hh. unfold placed. destruct (target_of (t_call t)) as [[]|]; try done; destruct (t_place t); try done; eauto.
  destruct (startsWith _ _); [done|]. intros (ns & ? & ?). eauto.
Qed.

(** Moves, seen from the discovery. *)
Record discovery_still (cl cl' : Client) : Prop := {
  ds_discovered : discoveredNamespace cl' = discoveredNamespace cl;
  ds_promise : namespacePromise cl' = namespacePromise cl;
  ds_promises : promises cl' = promises cl;
  ds_tasks : forall id t, tasks cl !! id = Some t -> is_discover (t_call t) = true ->
    is_sent (t_phase t) = true -> tasks cl' !! id = Some t;
  ds_new : forall id t', tasks cl' !! id = Some t' -> is_discover (t_call t') = true ->
    exists t, tasks cl !! id = Some t /\ t_call t = t_call t'
}.

Lemma still_alter (cl : Client) f i t0 :
  tasks cl !! i = Some t0 -> is_discover (t_call t0) = false \/ is_sent (t_phase t0) = false ->
  forall id t, tasks cl !! id = Some t -> is_discover (t_call t) = true ->
    is_sent (t_phase t) = true -> alter f i (tasks cl) !! id = Some t.
Proof.
  intros Hi Hor id t Ht Hd Hs. rewrite list_lookup_alter_ne; [done|]. intros ->.
  assert (t0 = t) as -> by congruence. destruct Hor; congruence.
Qed.

Lemma new_alter (cl : Client) f i :
  (forall t, t_call (f t) = t_call t) ->
  forall id t', alter f i (tasks cl) !! id = Some t' -> is_discover (t_call t') = true ->
    exists t, tasks cl !! id = Some t /\ t_call t = t_call t'.
Proof. intros Hf id t' [[-> (t & Ht & ->)]|[_ Ht]]%lookup_alter_Some _; eauto. Qed.

Lemma new_push (cl : Client) t0 :
  is_discover (t_call t0) = false ->
  forall id t', (tasks cl ++ [t0]) !! id = Some t' -> is_discover (t_call t') = true ->
    exists t, tasks cl !! id = Some t /\ t_call t = t_call t'.
Proof. intros Hd id t' [Ht|[_ ->]]%lookup_snoc_new Hd'; [eauto|congruence]. Qed.

Lemma tasks_parameter_eq now id c ref version label g r cl :
  let cl' := on_parameter now id c ref version label g r cl in
  discoveredNamespace cl' = discoveredNamespace cl /\ namespacePromise cl' = namespacePromise cl /\
  promises cl' = promises cl /\ exists x, tasks cl' = alter (with_phase (Finished x)) id (tasks cl).
Proof. cbv zeta. unfold on_parameter. destruct (read_parameter _ _ _), g; split_and!; eauto. Qed.

Lemma move_discovery cl cl' :
  move cl cl' ->
  discovery_still cl cl' \/
  (exists now, cl' = (start_discovery now cl).1 /\ closed cl = false /\ configuredNamespace cl = None /\
     discoveredNamespace cl = None /\ namespacePromise cl = None) \/
  (exists id t p q g r x, tasks cl !! id = Some t /\ t_call t = CDiscover p /\ t_phase t = Sent q g /\
     cl' = finish id (settled (CDiscover p) x) (on_discovered p r (emit (Answered id r) cl))).
Proof.
  intros [].
  13: { right. left. eauto 10. }
  13: { right. right. eauto 15. }
  all: left.
  5: { destruct (tasks_parameter_eq now id (t_call t) ref version label g r (emit (Answered id r) cl)) as (E1 & E2 & E3 & x & E4).
       simpl in E1, E2, E3, E4. split; [done..| |]; rewrite E4; [by eapply still_alter; eauto|by apply new_alter]. }
  all: split; simpl; try done.
  all: try by apply new_alter.
  all: try by apply new_push.
  all: try (intros i t' Ht _ _; by apply lookup_app_l_Some).
  all: try (by intros; eauto).
  all: try (by eapply still_alter; [eassumption|]; first [by left|by right|left; by rewrite H1|right; by rewrite H0]).
  - intros i t Ht Hd Hs. rewrite list_lookup_fmap, Ht. simpl. f_equal. unfold abort_task. by destruct (t_phase t).
  - intros i t'. rewrite list_lookup_fmap. destruct (tasks cl !! i) as [t|]; [|done]. intros [= <-] _.
    exists t. split; [done|]. by destruct (abort_task_cases s reason t) as [->|[_ ->]].
  - by destruct H.
  - by destruct H.
  - by destruct H.
  - intros i t Ht _ _. by rewrite (as_tasks _ _ H).
  - intros i t'. rewrite (as_tasks _ _ H). eauto.
Qed.

Lemma evolves_placed cl t t' : discovery_ok cl -> placed cl t -> evolves cl t t' -> placed cl t'.
Proof. intros H Hp []; try done. by eapply source_placed. Qed.

Lemma fresh_placed cl t : fresh_task cl t -> placed cl t.
Proof. intros []; unfold placed; simpl; try done; by destruct (target_of c) as [[]|]. Qed.

(** A sent discovery task was sent before, in a move that starts none. *)
Lemma evolves_discovery cl t t' p :
  task_ok t -> evolves cl t t' -> t_call t' = CDiscover p ->
  t_call t = CDiscover p /\ (is_sent (t_phase t') = true -> is_sent (t_phase t) = true).
Proof.
  intros Hok He Hc. destruct He; simpl in *; try done; split; try done.
  intros _. destruct (to_discover t Hok) as [_ Hx]; [by rewrite Hc|]. by rewrite H in Hx.
Qed.

Lemma still_configured cl cl' : move cl cl' -> configuredNamespace cl' = configuredNamespace cl.
Proof.
  intros []; try done.
  - unfold on_parameter. by destruct (read_parameter _ _ _), g.
  - by destruct (start_discovery_open now cl ltac:(done)) as [u ->].
  - simpl. unfold on_discovered. by repeat case_match.
  - by apply (as_configured _ _ ltac:(eassumption)).
Qed.

Lemma still_home cl cl' ns :
  configuredNamespace cl' = configuredNamespace cl -> discoveredNamespace cl' = discoveredNamespace cl ->
  home cl = Some ns -> home cl' = Some ns.
Proof. unfold home. by intros -> ->. Qed.

Lemma still_ok cl cl' : typed cl -> move cl cl' -> discovery_still cl cl' -> discovery_ok cl -> discovery_ok cl'.
Proof.
  intros Hty Hm [Ed En Ep Hts Hnew] H. pose proof (still_configured _ _ Hm) as Ec.
  assert (forall id t' p, tasks cl' !! id = Some t' -> t_call t' = CDiscover p ->
    exists t, tasks cl !! id = Some t /\ t_call t = CDiscover p /\
      (is_sent (t_phase t') = true -> is_sent (t_phase t) = true)) as Hback.
  { intros id t' p Ht' Hc. destruct (Hnew id t' Ht') as (t & Ht & Hcall); [by rewrite Hc|].
    exists t. destruct (move_tasks _ _ _ _ Hm Ht') as [(t0 & Ht0 & He)|[-> _]].
    - assert (t0 = t) as -> by congruence.
      destruct (evolves_discovery _ _ _ p (Hty _ _ Ht) He Hc). done.
    - pose proof (lookup_lt_Some _ _ _ Ht). lia. }
  split; rewrite ?Ec, ?Ed, ?En, ?Ep; try apply H.
  - intros id t' p Ht' Hc. destruct (Hback id t' p Ht' Hc) as (t & Ht & Hcall & Hs).
    destruct (d_task _ H id t p Ht Hcall) as [Hlt Hsent]. auto.
  - intros i j t u p Hi Hj Hti Huj. destruct (Hback i t p Hi Hti) as (t1 & ? & ? & _).
    destruct (Hback j u p Hj Huj) as (u1 & ? & ? & _). by eapply (d_unique _ H).
  - intros p Hp. destruct (d_has _ H p Hp) as (id & t & Ht & Hc & Hs). exists id, t. split_and!; [|done..].
    apply Hts; [done|by rewrite Hc|done].
  - intros id t' p Ht' Hj. destruct (move_tasks _ _ _ _ Hm Ht') as [(t & Ht & He)|[_ Hf]].
    + destruct He; simpl in Hj; simplify_eq; [by eapply (d_join _ H)|by apply (d_current _ H)].
    + by destruct Hf.
  - intros id t' Ht'. eapply placed_mono; [intros ns; by apply still_home|].
    destruct (move_tasks _ _ _ _ Hm Ht') as [(t & Ht & He)|[_ Hf]].
    + eapply evolves_placed; [done| |done]. by eapply (d_placed _ H).
    + by eapply fresh_placed.
Qed.

Lemma discover_ok now cl :
  closed cl = false -> configuredNamespace cl = None -> discoveredNamespace cl = None -> namespacePromise cl = None ->
  discovery_ok cl -> discovery_ok (start_discovery now cl).1.
Proof.
  intros Hc Hcf Hds Hn H. pose proof (start_tasks now cl Hc) as Hts.
  assert (forall p, promises cl !! p <> Some None) as Hnone.
  { intros p Hp. apply (d_pending _ H) in Hp. congruence. }
  destruct (start_discovery_open now cl Hc) as [u Hu]. rewrite Hu in *. simpl in Hts. clear Hu.
  split; simpl; rewrite ?Hts; try congruence.
  - intros p ns [Hp|[_ ?]]%lookup_snoc_new; [by eapply (d_done _ H)|done].
  - intros p [Hp|[-> _]]%lookup_snoc_new; [by destruct (Hnone p)|done].
  - intros p [= <-]. rewrite length_app. simpl. lia.
  - intros id t p [Ht|[-> ->]]%lookup_snoc_new Hcall; simpl in *; rewrite length_app; simpl.
    + destruct (d_task _ H id t p Ht Hcall) as [Hlt Hs]. split; [lia|]. intros Hsent. by destruct (Hnone p); auto.
    + simplify_eq. split; [lia|]. intros _. by rewrite lookup_app_r, Nat.sub_diag by lia.
  - assert (forall i t p, tasks cl !! i = Some t -> t_call t = CDiscover p -> p <> length (promises cl)) as Hne.
    { intros i t p Ht Hcall ->. destruct (d_task _ H i t _ Ht Hcall). lia. }
    intros i j t w p [Ht|[-> ->]]%lookup_snoc_new [Hw|[-> ->]]%lookup_snoc_new Hct Hcw; simpl in *; simplify_eq; try done.
    + by eapply (d_unique _ H).
    + by destruct (Hne i t _ Ht Hct).
    + by destruct (Hne j w _ Hw Hcw).
  - intros p [Hp|[-> _]]%lookup_snoc_new; [by destruct (Hnone p)|].
    eexists (length (tasks cl)), _. split; [by rewrite lookup_app_r, Nat.sub_diag by lia|done].
  - intros id t p [Ht|[-> ->]]%lookup_snoc_new Hj; [|done]. rewrite length_app.
    pose proof (d_join _ H id t p Ht Hj). lia.
  - intros id t [Ht|[-> ->]]%lookup_snoc_new; [|done]. eapply placed_mono; [|by eapply (d_placed _ H)].
    intros ns. by apply still_home.
Qed.

Lemma on_discovered_cases p r cl :
  (exists ns, on_discovered p r cl =
     set_discovery (Some ns) (namespacePromise cl) (<[p := Some (Ok ns)]> (promises cl)) cl) \/
  (exists e, on_discovered p r cl =
     set_discovery (discoveredNamespace cl) None (<[p := Some (Throw e)]> (promises cl)) cl).
Proof. unfold on_discovered. destruct (match r with Ok _ => _ | Throw _ => _ end); eauto. Qed.

(** The tasks once one of them has settled. *)
Lemma finish_back id x (ts : list task) i t' :
  alter (with_phase (Finished x)) id ts !! i = Some t' ->
  exists t0, ts !! i = Some t0 /\ t_call t' = t_call t0 /\ t_place t' = t_place t0 /\
    (t_phase t' = t_phase t0 /\ i <> id \/ is_sent (t_phase t') = false /\ forall k, t_phase t' <> Joining k).
Proof. intros [[-> (t0 & ? & ->)]|[? ?]]%lookup_alter_Some; eexists; split_and!; eauto; by right. Qed.

(** While a discovery is pending it is the only one, and nothing is known. *)
Lemma pending_alone cl p :
  discovery_ok cl -> promises cl !! p = Some None ->
  configuredNamespace cl = None /\ discoveredNamespace cl = None /\ namespacePromise cl = Some p /\
  (forall p', promises cl !! p' = Some None -> p' = p) /\
  (forall ns p', promises cl !! p' <> Some (Some (Ok ns))).
Proof.
  intros H Hp. pose proof (d_exclusive _ H p Hp) as Hds. pose proof (d_pending _ H p Hp) as Hn. split_and!; try done.
  - destruct (configuredNamespace cl) eqn:E; [|done]. rewrite (d_configured _ H) in Hp by congruence.
    by rewrite lookup_nil in Hp.
  - intros p' Hp'. apply (d_pending _ H) in Hp'. congruence.
  - intros ns p' Hp'. apply (d_done _ H) in Hp'. congruence.
Qed.

(** The pending discovery of a task settles. *)
Lemma settle_ok id t p q g x r cl d n y :
  tasks cl !! id = Some t -> t_call t = CDiscover p -> t_phase t = Sent q g -> discovery_ok cl ->
  (forall ns, y = Ok ns -> d = Some ns) -> (forall p', n = Some p' -> p' = p) ->
  discovery_ok (finish id x (set_discovery d n (<[p := Some y]> (promises cl)) (emit (Answered id r) cl))).
Proof.
  intros Ht Hc Hs H Hd Hcur. destruct (d_task _ H id t p Ht Hc) as [Hlt Hp]. specialize (Hp ltac:(by rewrite Hs)).
  destruct (pending_alone cl p H Hp) as (Hcf & Hds & Hn & Hone & Hno).
  assert (forall p', <[p := Some y]> (promises cl) !! p' = Some None -> False) as Hnone.
  { intros p' [[-> [? _]]|[Hne Hp']]%list_lookup_insert_Some; [done|]. by apply Hone in Hp'. }
  split; simpl; rewrite ?length_insert; try done; try congruence.
  - intros p' ns [[-> [[= Hy] _]]|[_ Hp']]%list_lookup_insert_Some; [by apply Hd|by apply Hno in Hp'].
  - intros p' Hp'. by rewrite (Hcur p' Hp').
  - intros i t' p' (t0 & Ht0 & Ec & _ & Hph)%finish_back Hc'.
    destruct (d_task _ H i t0 p' Ht0) as [Hlt' Hs']; [congruence|]. split; [done|]. intros Hsent.
    destruct Hph as [[Eph Hne]|[Hno' _]]; [|congruence]. rewrite Eph in Hsent. specialize (Hs' Hsent).
    apply Hone in Hs' as ->. by destruct Hne; eapply (d_unique _ H); eauto; congruence.
  - intros i j t1 t2 p' (s1 & ? & E1 & _)%finish_back (s2 & ? & E2 & _)%finish_back H1' H2'.
    apply (d_unique _ H i j s1 s2 p'); congruence.
  - intros i t' p' (t0 & Ht0 & _ & _ & [[Eph _]|[_ Hnj]])%finish_back Hj; [|by destruct (Hnj p')].
    eapply (d_join _ H); eauto. congruence.
  - intros i t' (t0 & Ht0 & Ec & Ep & _)%finish_back.
    pose proof (d_placed _ H i t0 Ht0) as Hpl. unfold placed. rewrite Ec, Ep.
    apply (placed_mono cl); [|done]. unfold home at 1. by rewrite Hcf, Hds.
Qed.

Lemma discovered_ok id t p q g x r cl :
  tasks cl !! id = Some t -> t_call t = CDiscover p -> t_phase t = Sent q g ->
  discovery_ok cl -> discovery_ok (finish id x (on_discovered p r (emit (Answered id r) cl))).
Proof.
  intros Ht Hc Hs H. destruct (d_task _ H id t p Ht Hc) as [Hlt Hp]. specialize (Hp ltac:(by rewrite Hs)).
  destruct (pending_alone cl p H Hp) as (_ & _ & Hn & _).
  destruct (on_discovered_cases p r (emit (Answered id r) cl)) as [[ns ->]|[e ->]].
  - apply (settle_ok id t p q g x r cl); simpl; try done; congruence.
  - apply (settle_ok id t p q g x r cl); done.
Qed.

Lemma discovery_move cl cl' : typed cl -> discovery_ok cl -> move cl cl' -> discovery_ok cl'.
Proof.
  intros Hty H Hm. destruct (move_discovery _ _ Hm) as [Hs|[(now & -> & ? & ? & ? & ?)|(id & t & p & q & g & r & x & ? & ? & ? & ->)]].
  - by eapply still_ok.
  - by apply discover_ok.
  - by eapply discovered_ok.
Qed.

Lemma discovery_run cl ops : initial cl -> discovery_ok (run cl ops).
Proof.
  intros Hi. apply pristine_run; [apply discovery_move|done|].
  destruct (initial_pristine _ Hi) as [Hts _ _ Hps Hpr Hds _ _ _].
  split; rewrite ?Hts, ?Hps, ?Hpr; intros; try done; by rewrite ?lookup_nil in *.
Qed.

(** What is known of the namespace stays known. *)
Lemma move_home cl cl' ns : discovery_ok cl -> move cl cl' -> home cl = Some ns -> home cl' = Some ns.
Proof.
  intros H Hm Hh. pose proof (still_configured _ _ Hm) as Ec.
  destruct (move_discovery _ _ Hm) as [Hs|[(now & -> & Hc & Hcf & Hds & _)|(id & t & p & q & g & r & x & Ht & Hcall & Hph & ->)]].
  - by eapply still_home; [|apply Hs|].
  - unfold home in Hh. by rewrite Hcf, Hds in Hh.
  - destruct (d_task _ H id t p Ht Hcall) as [_ Hp]. specialize (Hp ltac:(by rewrite Hph)).
    destruct (pending_alone cl p H Hp) as (Hcf & Hds & _). unfold home in Hh. by rewrite Hcf, Hds in Hh.
Qed.

(** C18: one client, one namespace. In every run: all the relative keys that
    were ever resolved, by any calls, were resolved in the same namespace,
    the one the client was configured with or has discovered, and it never
    changes once it is known; at most one discovery is in flight, and none
    once a namespace is known; and a call that waits for a discovery waits
    for one that has settled or whose request is in flight. *)
Theorem namespace_agreed cl ops more :
  initial cl ->
  let c := run cl ops in
  (forall id t key ref, tasks c !! id = Some t -> target_of (t_call t) = Ok (TKey key) ->
     startsWith (js "/") key = false -> t_place t = PRef ref -> home c = Some (namespace ref) /\ Refs.key ref = key) /\
  (forall ns, home c = Some ns -> home (run c more) = Some ns) /\
  (forall i j t u, tasks c !! i = Some t -> tasks c !! j = Some u ->
     is_discover (t_call t) = true -> is_sent (t_phase t) = true ->
     is_discover (t_call u) = true -> is_sent (t_phase u) = true -> i = j /\ home c = None) /\
  (forall id t p, tasks c !! id = Some t -> t_phase t = Joining p ->
     (exists r, promises c !! p = Some (Some r)) \/
     (exists k d, tasks c !! k = Some d /\ t_call d = CDiscover p /\ is_sent (t_phase d) = true)).
Proof.
  intros Hi c. pose proof (discovery_run cl ops Hi) as H. fold c in H. split_and!.
  - intros id t key ref Ht Htg Hk Hp. pose proof (d_placed _ H id t Ht) as Hpl. unfold placed in Hpl.
    rewrite Htg, Hp, Hk in Hpl. destruct Hpl as ([e a] & Hh & Hr). unfold resolveRef in Hr. rewrite Hk in Hr.
    simpl in Hr. destruct (_ || _); simplify_eq. done.
  - intros ns Hh.
    assert (discovery_ok (run c more) /\ home (run c more) = Some ns) as [_ ?]; [|done].
    apply (run_keeps (fun x => discovery_ok x /\ home x = Some ns)).
    + intros x y Hty [Hx Hhx] Hm. split; [by eapply discovery_move|by eapply move_home].
    + by apply run_typed.
    + by apply run_close_ok.
    + done.
  - intros i j t u Ht Hu Hdt Hst Hdu Hsu. destruct (t_call t) as [|p| | | | | | | | | | | | | | | | |] eqn:Ect; try done.
    destruct (t_call u) as [|p'| | | | | | | | | | | | | | | | |] eqn:Ecu; try done.
    destruct (d_task _ H i t p Ht Ect) as [_ Hp]. specialize (Hp Hst).
    destruct (d_task _ H j u p' Hu Ecu) as [_ Hp']. specialize (Hp' Hsu).
    destruct (pending_alone c p H Hp) as (Hcf & Hds & _ & Hone & _). apply Hone in Hp' as ->.
    split; [by eapply (d_unique _ H)|]. unfold home. by rewrite Hcf, Hds.
  - intros id t p Ht Hj. pose proof (d_join _ H id t p Ht Hj) as Hlt. apply lookup_lt_is_Some in Hlt as [[r|] Hp]; [eauto|].
    right. by apply (d_has _ H).
Qed.

(** Two relative keys that wait for the same discovery. *)
Lemma namespace_agreed_witness :
  let ops := [OStart (at_time 1) (CGetParameter (js "host") latest);
              OStart (at_time 1) (CGetParameterInfo (js "port") latest);
              OReply (at_time 2) 1 (Ok (AWhoAmI (js "svc") (js "client") (Some demo_ns) (js "token")));
              OResume (at_time 3) 0; OResume (at_time 3) 2] in
  exists t u r s, tasks (run demo_client ops) !! 0%nat = Some t /\ tasks (run demo_client ops) !! 2%nat = Some u /\
    t_place t = PRef r /\ t_place u = PRef s /\ namespace r = namespace s.
Proof.
  intros ops. destruct (namespace_agreed demo_client ops [] demo_initial) as (Hone & _).
  eexists _, _, _, _. split; [vm_compute; reflexivity|]. split; [vm_compute; reflexivity|].
  split; [reflexivity|]. split; [reflexivity|].
  edestruct (Hone 0%nat) as [H1 _]; [vm_compute; reflexivity|reflexivity|reflexivity|reflexivity|].
  edestruct (Hone 2%nat) as [H2 _]; [vm_compute; reflexivity|reflexivity|reflexivity|reflexivity|].
  exact (f_equal (default demo_ns) (eq_trans (eq_sym H1) H2)).
Defined.

(** ** Generations *)

Definition open_read (cl : Client) (g : ident) (path : jstr) : Prop :=
  exists id t ref q, tasks cl !! id = Some t /\ t_phase t = Sent q (Some g) /\ t_place t = PRef ref /\
    displayPath ref = path.

Record reads_ok (cl : Client) : Prop := {
  ro_wf : cache_wf (cache cl);
  ro_task : forall id t q g, tasks cl !! id = Some t -> t_phase t = Sent q (Some g) ->
    exists ref h, t_place t = PRef ref /\ handles (cache cl) !! g = Some h /\ g_released h = false /\
      g_path h = displayPath ref;
  ro_unique : forall i j t u q q' g, tasks cl !! i = Some t -> tasks cl !! j = Some u ->
    t_phase t = Sent q (Some g) -> t_phase u = Sent q' (Some g) -> i = j;
  ro_handle : forall g h, handles (cache cl) !! g = Some h -> g_released h = false -> open_read cl g (g_path h)
}.

(** What a cache call does to the handles. *)
Lemma cache_step_handles c o :
  match o with OBegin _ | OEnd _ => True | _ => handles (cache_step c o) = handles c end.
Proof.
  destruct o as [| |path|now1 now2 g v l val|g|path|nss|]; cbn [cache_step]; try done.
  - by destruct (getParameter_gens c now path sel) as (_ & _ & -> & _).
  - by destruct (setParameter_gens c now1 now2 path v sel) as (_ & _ & -> & _).
  - destruct (cacheIf_cases c now1 now2 g v l val) as [->|(h & _ & _ & ->)]; [done|].
    by destruct (setParameter_gens c now1 now2 (g_path h) val (positionalSelector v l)) as (_ & _ & -> & _).
  - destruct (invalidateParameter_gens c path) as (_ & _ & -> & _). unfold invalidateGeneration.
    destruct (map_get _ _) as [loc|]; [|done]. by destruct (renew_frame c loc) as (_ & _ & _ & _ & _ & ->).
  - destruct (invalidateNs_cases c nss) as [->|(He & scope & Hs & Hne)]; [done|].
    rewrite (invalidateNs_eq _ _ scope) by done. simpl.
    by destruct (renew_all_frame (in_scope scope) c (parameterGenerations c)) as (_ & _ & _ & _ & _ & ->).
  - rewrite clear_eq. simpl.
    by destruct (renew_all_frame (fun _ => true) c (parameterGenerations c)) as (_ & _ & _ & _ & _ & ->).
Qed.

Lemma begin_handles c path :
  match (beginParameterRead c path).2 with
  | None => handles (beginParameterRead c path).1 = handles c
  | Some g => (next_ident c <= g)%nat /\ exists h, g_released h = false /\ g_path h = path /\
      handles (beginParameterRead c path).1 = <[g := h]> (handles c)
  end.
Proof.
  unfold beginParameterRead. destruct (negb (enabled c)); [done|].
  destruct (map_get path (parameterGenerations c)); simpl; split; try lia; (eexists; split_and!; [| |reflexivity]; done).
Qed.

Lemma end_handles c g h :
  handles c !! g = Some h ->
  exists h', g_released h' = true /\ handles (endRead c (Some g)) = <[g := h']> (handles c).
Proof.
  intros Hh. unfold endRead. rewrite Hh. destruct (g_released h) eqn:Hr.
  - exists h. split; [done|]. by rewrite insert_id.
  - eexists. split; [|reflexivity]. done.
Qed.

(** Moves that leave the handles and the reads under way alone. *)
Lemma reads_same cl cl' :
  cache_wf (cache cl') -> handles (cache cl') = handles (cache cl) ->
  (forall id t q g, tasks cl' !! id = Some t -> reading_of t q g -> tasks cl !! id = Some t) ->
  (forall id t q g, tasks cl !! id = Some t -> reading_of t q g -> tasks cl' !! id = Some t) ->
  reads_ok cl -> reads_ok cl'.
Proof.
  intros Hw Hh Hb Hf [_ Ht Hu Hg]. split; rewrite ?Hh; [done| | |].
  - intros id t q g Hid Hs. by eapply Ht; [eapply Hb|].
  - intros i j t u q q' g Hi Hj Hst Hsu. by eapply Hu; [eapply Hb|eapply Hb| |].
  - intros g h Hgh Hr. destruct (Hg g h Hgh Hr) as (id & t & ref & q & Hid & Hs & Hp). exists id, t, ref, q.
    split; [by eapply Hf|done].
Qed.

Lemma reads_touch cl o :
  match o with OBegin _ | OEnd _ => False | _ => True end -> reads_ok cl -> reads_ok (touch o cl).
Proof.
  intros Ho H. apply (reads_same cl); [by apply cache_step_wf, H| |done..].
  pose proof (cache_step_handles (cache cl) o) as Hs. by destruct o.
Qed.

Lemma reads_idle cl f id :
  (forall t, tasks cl !! id = Some t -> (forall q g, t_phase t <> Sent q (Some g)) /\
     forall q g, t_phase (f t) <> Sent q (Some g)) ->
  (forall i t q g, alter f id (tasks cl) !! i = Some t -> reading_of t q g -> tasks cl !! i = Some t) /\
  (forall i t q g, tasks cl !! i = Some t -> reading_of t q g -> alter f id (tasks cl) !! i = Some t).
Proof.
  intros Hf. split.
  - intros i t q g [[-> (t0 & Ht0 & ->)]|[_ Hi]]%lookup_alter_Some Hr; [|done].
    destruct (Hf _ Ht0) as [_ Hn]. by destruct (Hn q g).
  - intros i t q g Hi Hr. rewrite list_lookup_alter_ne; [done|]. intros ->.
    destruct (Hf _ Hi) as [Hn _]. by destruct (Hn q g).
Qed.

Lemma reads_finish cl id r :
  (forall t q g, tasks cl !! id = Some t -> t_phase t <> Sent q (Some g)) -> reads_ok cl -> reads_ok (finish id r cl).
Proof.
  intros Hn H. destruct (reads_idle cl (with_phase (Finished r)) id) as [Hb Hf]; [eauto|].
  apply (reads_same cl); [apply H|done..].
Qed.

Lemma reads_begin cl id t ref version label u :
  let q := QGetParameter (toWireRef ref) version label in
  let g := (beginParameterRead (cache cl) (displayPath ref)).2 in
  tasks cl !! id = Some t -> t_phase t = Located -> t_place t = PRef ref -> reads_ok cl ->
  reads_ok (emit (Requested id q u) (set_phase id (Sent q g) (touch (OBegin (displayPath ref)) cl))).
Proof.
  intros q g Hid Hl Hp H. pose proof (begin_handles (cache cl) (displayPath ref)) as Hb. fold g in Hb.
  assert (cache_wf (cache_step (cache cl) (OBegin (displayPath ref)))) as Hw by apply cache_step_wf, H.
  destruct g as [g|].
  2: { destruct (reads_idle cl (with_phase (Sent q None)) id) as [Hba Hfo].
       { intros t0 Ht0. assert (t0 = t) as -> by congruence. split; intros; simpl; congruence. }
       by apply (reads_same cl). }
  destruct Hb as [Hlt (h & Hr & Hpath & Hh)].
  assert (forall j t' q' g', tasks cl !! j = Some t' -> t_phase t' = Sent q' (Some g') -> g' <> g) as Hne.
  { intros j t' q' g' Hj Hs ->. destruct (ro_task _ H j t' q' g Hj Hs) as (? & h' & _ & Hh' & _).
    pose proof (gw_fresh_handles _ _ (proj2 (ro_wf _ H)) _ _ Hh'). lia. }
  split; [done|simpl; rewrite ?Hh..].
  - intros j t' q' g' [[-> (t0 & Ht0 & ->)]|[Hj Hjt]]%lookup_alter_Some Hs.
    + simpl in Hs. simplify_eq. exists ref, h. by rewrite lookup_insert_eq.
    + destruct (ro_task _ H j t' q' g' Hjt Hs) as (ref' & h' & ? & ? & ? & ?). exists ref', h'.
      rewrite lookup_insert_ne; [done|]. intros <-. by eapply Hne.
  - intros i j t1 t2 q1 q2 g' [[-> (s1 & Hs1 & ->)]|[Hi Hit]]%lookup_alter_Some
      [[-> (s2 & Hs2 & ->)]|[Hj Hjt]]%lookup_alter_Some E1 E2; simpl in *; simplify_eq; try done.
    + by destruct (Hne j t2 q2 g' Hjt E2).
    + by destruct (Hne i t1 q1 g' Hit E1).
    + by eapply (ro_unique _ H).
  - intros g' h'. rewrite lookup_insert. case_decide as Hd.
    + intros [= <-] _. subst g'. exists id, (with_phase (Sent q (Some g)) t), ref, q. simpl.
      by rewrite list_lookup_alter_eq, Hid.
    + intros Hg' Hr'. destruct (ro_handle _ H g' h' Hg' Hr') as (i & t' & ref' & q' & Hi & Hs & Hpl).
      exists i, t', ref', q'. simpl. rewrite list_lookup_alter_ne; [done|]. intros ->. congruence.
Qed.

#[local] Arguments endRead : simpl never.

(** The end of a read: its task settles and its generation is released. *)
Lemma reads_end cl id t q g r :
  tasks cl !! id = Some t -> t_phase t = Sent q g -> reads_ok cl -> reads_ok (finish id r (touch (OEnd g) cl)).
Proof.
  intros Hid Hph H. assert (cache_wf (cache_step (cache cl) (OEnd g))) as Hw by apply cache_step_wf, H.
  destruct g as [g|].
  2: { destruct (reads_idle cl (with_phase (Finished r)) id) as [Hb Hf].
       { intros t0 Ht0. assert (t0 = t) as -> by congruence. split; intros; simpl; congruence. }
       by apply (reads_same cl). }
  destruct (ro_task _ H id t q g Hid Hph) as (ref & h & _ & Hh & _).
  destruct (end_handles (cache cl) g h Hh) as (h' & Hr' & Hh').
  assert (forall j t' q' g', tasks cl !! j = Some t' -> t_phase t' = Sent q' (Some g') -> j <> id -> g' <> g) as Hne.
  { intros j t' q' g' Hj Hs Hji ->. apply Hji. by eapply (ro_unique _ H). }
  split; [done|simpl; rewrite ?Hh'..].
  - intros j t' q' g' [[-> (t0 & Ht0 & ->)]|[Hj Hjt]]%lookup_alter_Some Hs; [done|].
    destruct (ro_task _ H j t' q' g' Hjt Hs) as (ref' & x & ? & ? & ? & ?). exists ref', x.
    rewrite lookup_insert_ne; [done|]. intros <-. by eapply Hne.
  - intros i j t1 t2 q1 q2 g' [[-> (s1 & Hs1 & ->)]|[Hi Hit]]%lookup_alter_Some
      [[-> (s2 & Hs2 & ->)]|[Hj Hjt]]%lookup_alter_Some E1 E2; try done. by eapply (ro_unique _ H).
  - intros g' x. rewrite lookup_insert. case_decide as Hd; [intros [= <-]; congruence|].
    intros Hg' Hrx. destruct (ro_handle _ H g' x Hg' Hrx) as (i & t' & ref' & q' & Hi & Hs & Hpl).
    exists i, t', ref', q'. simpl. rewrite list_lookup_alter_ne; [done|]. intros ->. congruence.
Qed.

Lemma reads_move cl cl' : typed cl -> reads_ok cl -> move cl cl' -> reads_ok cl'.
Proof.
  intros Hty H Hm. destruct Hm.
  - apply reads_touch; [by destruct o|done].
  - apply reads_finish; [intros t' q g Ht'; simpl in Ht'; assert (t' = t) as -> by congruence; congruence|].
    apply (reads_same (touch (OGet now (displayPath ref) (positionalSelector version label)) cl)); try done.
    + by apply cache_step_wf, H.
    + by apply reads_touch.
  - by eapply reads_begin.
  - destruct (reads_idle cl (with_phase (Sent q None)) id) as [Hb Hf].
    { intros t0 Ht0. assert (t0 = t) as -> by congruence. split; intros; simpl; congruence. }
    by apply (reads_same cl); [apply H|..].
  - assert (reads_ok (emit (Answered id r) cl)) as Ha by (by apply (reads_same cl); [apply H|..]).
    unfold on_parameter. destruct (read_parameter ref version r) as [p|e]; [|by eapply reads_end].
    destruct g as [g|]; [|by eapply reads_end]. eapply reads_end; [done..|]. by apply reads_touch.
  - apply reads_finish; [|done]. intros t' q g Ht' Hs. assert (t' = t) as -> by congruence.
    destruct (to_sent t (Hty _ _ Ht') _ _ Hs) as [_ Hn]. by specialize (Hn (H2 _ _ Hs)).
  - apply reads_finish; [|done]. intros t' q' g' Ht' Hs. assert (t' = t) as -> by congruence.
    destruct (to_sent t (Hty _ _ Ht') _ _ Hs) as [_ Hn]. rewrite H2 in Hs. simplify_eq. by specialize (Hn H3).
  - by apply (reads_same cl); [apply H|..].
  - apply (reads_same cl); [apply H|done| | |done].
    + intros i t' q g [Hi|[_ ->]]%lookup_snoc_new Hr; done.
    + intros i t' q g Hi Hr. by apply lookup_app_l_Some.
  - apply (reads_same cl); [apply H|done| | |done].
    + intros i t' q g [Hi|[_ ->]]%lookup_snoc_new Hr; done.
    + intros i t' q g Hi Hr. by apply lookup_app_l_Some.
  - destruct (reads_idle cl (with_place p) id) as [Hb Hf].
    { intros t0 Ht0. assert (t0 = t) as -> by congruence. split; [|done]. intros q g Hs. by rewrite Hs in H2. }
    by apply (reads_same cl); [apply H|..].
  - destruct (reads_idle cl (with_phase (Joining p)) id) as [Hb Hf].
    { intros t0 Ht0. assert (t0 = t) as -> by congruence. split; [|done]. intros q g Hs. congruence. }
    by apply (reads_same cl); [apply H|..].
  - pose proof (start_tasks now cl H0) as Hts. destruct (start_discovery_open now cl H0) as [u Hu].
    apply (reads_same cl); rewrite ?Hts; try (rewrite Hu; simpl); [apply H|done| | |done].
    + intros i t' q g [Hi|[_ ->]]%lookup_snoc_new Hr; done.
    + intros i t' q g Hi Hr. by apply lookup_app_l_Some.
  - apply reads_finish.
    + intros t' q' g' Ht'. rewrite tasks_on_discovered in Ht'. assert (t' = t) as -> by (simpl in Ht'; congruence).
      intros Hs. destruct (to_sent t (Hty _ _ H0) _ _ Hs) as [Hq Hn].
      destruct (to_discover t (Hty _ _ H0)) as [Hp _]; [by rewrite H1|].
      rewrite H1, Hp in Hq. simpl in Hq. simplify_eq. by specialize (Hn eq_refl).
    + apply (reads_same cl); rewrite ?tasks_on_discovered; try done; unfold on_discovered; repeat case_match; try done; apply H.
  - apply (reads_same cl); [apply H|done| | |done]; simpl.
    + intros i t' q g. rewrite list_lookup_fmap. destruct (tasks cl !! i) as [t0|]; [|done]. intros [= <-] Hr. revert Hr.
      destruct (abort_task_cases s reason t0) as [->|[_ ->]]; done.
    + intros i t' q g Hi Hr. rewrite list_lookup_fmap, Hi. simpl. f_equal. unfold abort_task. by rewrite Hr.
  - apply (reads_same (touch OClear cl)); try done; [by apply cache_step_wf, H|]. by apply reads_touch.
  - by apply (reads_same cl); rewrite ?(as_cache _ _ H0), ?(as_tasks _ _ H0); [apply H|..].
Qed.

Lemma reads_run cl ops : initial cl -> reads_ok (run cl ops).
Proof.
  intros Hi. apply pristine_run; [apply reads_move|done|].
  destruct (initial_pristine _ Hi) as [Hts _ _ _ _ _ _ _ (ttl & max & Hc)]. split.
  - by eapply new_ReadCache_wf.
  - intros id t q g. by rewrite Hts, lookup_nil.
  - intros i j t u q q' g. by rewrite Hts, lookup_nil.
  - revert Hc. unfold new_ReadCache. repeat (case_match; try done). intros [= <-] g h. simpl. by rewrite lookup_empty.
Qed.

(** Reads leave nothing behind. In every run the cache keeps a generation
    object for a path exactly while a read of that path by some call is in
    flight (answered, failed, cancelled and rejected reads all release
    theirs, also after [close]); two reads never share a generation; and when
    no read is in flight the cache keeps no generation at all. *)
Theorem generations_released cl ops :
  initial cl ->
  let c := run cl ops in
  (forall path, path ∈ (parameterGenerations (cache c)).*1 <-> exists g, open_read c g path) /\
  (forall i j t u q q' g, tasks c !! i = Some t -> tasks c !! j = Some u ->
     t_phase t = Sent q (Some g) -> t_phase u = Sent q' (Some g) -> i = j) /\
  (Forall (fun t => is_sent (t_phase t) = false) (tasks c) -> parameterGenerations (cache c) = []).
Proof.
  intros Hi c. pose proof (reads_run cl ops Hi) as H. fold c in H.
  assert (forall path, path ∈ (parameterGenerations (cache c)).*1 <-> exists g, open_read c g path) as Hiff.
  { intros path. rewrite (gens_open _ _ (proj2 (ro_wf _ H))). split.
    - intros (g & h & Hh & <- & Hr). exists g. by apply (ro_handle _ H).
    - intros (g & id & t & ref & q & Hid & Hs & Hp & <-).
      destruct (ro_task _ H id t q g Hid Hs) as (ref' & h & Hp' & Hh & Hr & Hpath).
      exists g, h. split_and!; try done. congruence. }
  split_and!; [done|by apply (ro_unique _ H)|].
  intros Hf. destruct (parameterGenerations (cache c)) as [|[path loc] l] eqn:E; [done|].
  destruct (proj1 (Hiff path)) as (g & id & t & ref & q & Hid & Hs & _).
  { by left. }
  apply list_elem_of_lookup_2 in Hid. rewrite Forall_forall in Hf. specialize (Hf _ Hid). by rewrite Hs in Hf.
Qed.

(** A read that the server refuses, and one that succeeds. *)
Lemma generations_released_witness :
  let get := CGetParameter (js "/prod/web/host") latest in
  let ops := [OStart (at_time 1) get; OResume (at_time 1) 0; OStart (at_time 2) get; OResume (at_time 2) 1;
              OReply (at_time 3) 0 (Throw JNull); OReply (at_time 3) 1 (Ok (AParameter (Some demo_parameter)))] in
  length (parameterGenerations (cache (run demo_client (take 4 ops)))) = 1%nat /\
  parameterGenerations (cache (run demo_client ops)) = [].
Proof.
  intros get ops. split; [vm_compute; reflexivity|].
  apply (generations_released demo_client ops demo_initial). vm_compute. repeat constructor.
Defined.
