(* ===== verification/ClientSecrets.v ===== *)
(** * ClientSecrets: the plaintext copies of [putSecret].

    [putSecret] copies its argument into a buffer of its own, sends the
    buffer and overwrites it in its [finally]. Every buffer of the client
    belongs to one call; it holds what the caller passed until that call
    settles, however it settles, and zeros from then on. *)
From stdpp Require Import prelude gmap strings relations.
From Stdlib Require Import ZArith Lia.
From S2P Require Import Prelude JsString Unicode Errors Refs Cache Release Dispatcher ClientData Client ClientMoves ClientProofs.

Definition zeroed (l : list Z) : list Z := replicate (length l) 0.
Definition is_finished (p : phase) : bool := match p with Finished _ => true | _ => false end.

(** What the buffer of a call holds. *)
Definition content (t : task) (plain : list Z) : list Z :=
  if is_finished (t_phase t) then zeroed plain else plain.

Lemma zeroed_zeroed l : zeroed (zeroed l) = zeroed l.
Proof. unfold zeroed. by rewrite length_replicate. Qed.

Lemma content_finished t plain : is_finished (t_phase t) = true -> content t plain = zeroed plain.
Proof. unfold content. by intros ->. Qed.

Lemma zeroed_content t plain : zeroed (content t plain) = zeroed plain.
Proof. unfold content. case_match; [apply zeroed_zeroed|done]. Qed.

Record buffers_ok (cl : Client) : Prop := {
  bo_content : forall id t b, tasks cl !! id = Some t -> t_buffer t = Some b ->
    exists plain, plaintext (t_call t) = Some plain /\ buffers cl !! b = Some (content t plain);
  bo_unique : forall i j t u b, tasks cl !! i = Some t -> tasks cl !! j = Some u ->
    t_buffer t = Some b -> t_buffer u = Some b -> i = j;
  bo_owner : forall b l, buffers cl !! b = Some l -> exists id t, tasks cl !! id = Some t /\ t_buffer t = Some b
}.

(** ** Overwriting *)

Lemma lookup_wipe b bs c :
  wipe b bs !! c = (if bool_decide (b = Some c) then zeroed else id) <$> bs !! c.
Proof.
  unfold wipe. destruct b as [b|]; [|by rewrite bool_decide_false, option_fmap_id].
  destruct (decide (b = c)) as [->|Hne].
  - by rewrite bool_decide_true, list_lookup_alter_eq.
  - rewrite bool_decide_false by congruence. by rewrite list_lookup_alter_ne, option_fmap_id.
Qed.

(** The tasks that an abort of [s] settles. *)
Definition hit (s : signal) (t : task) : bool :=
  match t_phase t with
  | Joining _ => bool_decide (o_signal (options_of (t_call t)) = Some s)
  | _ => false
  end.

Lemma abort_task_hit s reason t :
  abort_task s reason t = if hit s t then with_phase (Finished (Throw (reason_of reason))) t else t.
Proof. unfold abort_task, hit. by destruct (t_phase t). Qed.

Lemma aborted_buffers_cons s t ts bs :
  aborted_buffers s (t :: ts) bs = aborted_buffers s ts (if hit s t then wipe (t_buffer t) bs else bs).
Proof. unfold aborted_buffers, hit. simpl. by destruct (t_phase t). Qed.

Definition aborts (s : signal) (b : nat) (t : task) : bool := hit s t && bool_decide (t_buffer t = Some b).

Lemma lookup_aborted s ts bs b :
  aborted_buffers s ts bs !! b = (if existsb (aborts s b) ts then zeroed else id) <$> bs !! b.
Proof.
  revert bs. induction ts as [|t ts IH]; intros bs; [by rewrite option_fmap_id|].
  rewrite aborted_buffers_cons, IH. simpl. unfold aborts at 2. destruct (hit s t); [|done].
  rewrite lookup_wipe. simpl. case_bool_decide; simpl; [|by rewrite option_fmap_id].
  destruct (bs !! b) as [l|]; [|done]. simpl. f_equal. case_match; [apply zeroed_zeroed|done].
Qed.

(** ** One task after another *)

(** What a move does to one task and its buffer: nothing that shows, or it
    ends the call and overwrites. *)
Inductive kept (cl cl' : Client) (t t' : task) : Prop :=
| kept_same : is_finished (t_phase t') = is_finished (t_phase t) ->
    (forall b, t_buffer t = Some b -> buffers cl' !! b = buffers cl !! b) -> kept cl cl' t t'
| kept_wiped : is_finished (t_phase t') = true ->
    (forall b, t_buffer t = Some b -> buffers cl' !! b = zeroed <$> buffers cl !! b) -> kept cl cl' t t'.

Record keeps (cl cl' : Client) : Prop := {
  k_task : forall id t', tasks cl' !! id = Some t' -> exists t, tasks cl !! id = Some t /\
    t_call t' = t_call t /\ t_buffer t' = t_buffer t /\ kept cl cl' t t';
  k_tasks : length (tasks cl') = length (tasks cl);
  k_buffers : length (buffers cl') = length (buffers cl)
}.

Lemma keeps_ok cl cl' : buffers_ok cl -> keeps cl cl' -> buffers_ok cl'.
Proof.
  intros H [Ht Hts Hbs]. split.
  - intros id t' b Ht' Hb. destruct (Ht id t' Ht') as (t & Hid & Hc & Hbf & Hk). rewrite Hc. rewrite Hbf in Hb.
    destruct (bo_content _ H id t b Hid Hb) as (plain & Hp & Hl). exists plain. split; [done|].
    destruct Hk as [Hf Hs|Hf Hs]; rewrite (Hs b Hb), Hl.
    + unfold content. by rewrite Hf.
    + simpl. by rewrite zeroed_content, content_finished.
  - intros i j t' u' b Hi Hj Hti Huj. destruct (Ht i t' Hi) as (t & ? & _ & E1 & _).
    destruct (Ht j u' Hj) as (u & ? & _ & E2 & _). rewrite E1 in Hti. rewrite E2 in Huj. by eapply (bo_unique _ H).
  - intros b l Hl. destruct (lookup_lt_is_Some_2 (buffers cl) b) as [l0 Hl0].
    { rewrite <- Hbs. by eapply lookup_lt_Some. }
    destruct (bo_owner _ H b l0 Hl0) as (id & t & Hid & Hb).
    destruct (lookup_lt_is_Some_2 (tasks cl') id) as [t' Ht'].
    { rewrite Hts. by eapply lookup_lt_Some. }
    destruct (Ht id t' Ht') as (t0 & Ht0 & _ & E & _). exists id, t'. split; [done|]. congruence.
Qed.

Lemma keeps_still cl cl' : tasks cl' = tasks cl -> buffers cl' = buffers cl -> keeps cl cl'.
Proof.
  intros Et Eb. split; rewrite ?Et, ?Eb; try done. intros id t Hid. exists t. split_and!; [done..|].
  apply kept_same; [done|]. by rewrite Eb.
Qed.

(** A call goes on. *)
Lemma keeps_alter cl cl' id t f :
  tasks cl !! id = Some t -> (forall t, t_call (f t) = t_call t) -> (forall t, t_buffer (f t) = t_buffer t) ->
  is_finished (t_phase t) = false -> is_finished (t_phase (f t)) = false ->
  tasks cl' = alter f id (tasks cl) -> buffers cl' = buffers cl -> keeps cl cl'.
Proof.
  intros Ht Hc Hb Hf Hf' Et Eb. split; rewrite ?Et, ?Eb, ?length_alter; try done.
  intros j t' [[-> (t0 & Ht0 & ->)]|[_ Hj]]%lookup_alter_Some.
  - simplify_eq. exists t. split_and!; [done..|]. apply kept_same; [congruence|]. by rewrite Eb.
  - exists t'. split_and!; [done..|]. apply kept_same; [done|]. by rewrite Eb.
Qed.

(** A call settles. *)
Lemma keeps_finish cl cl' id x :
  buffers_ok cl -> tasks cl' = alter (with_phase (Finished x)) id (tasks cl) ->
  buffers cl' = wipe (buffer_of id cl) (buffers cl) -> keeps cl cl'.
Proof.
  intros H Et Eb. split; rewrite ?Et, ?Eb, ?length_alter; try done; [|by unfold wipe; case_match; rewrite ?length_alter].
  intros j t' [[-> (t0 & Ht0 & ->)]|[Hne Hj]]%lookup_alter_Some.
  - exists t0. split_and!; [done..|]. apply kept_wiped; [done|]. intros b Hb.
    rewrite Eb, lookup_wipe. unfold buffer_of. rewrite Ht0. simpl. by rewrite bool_decide_true.
  - exists t'. split_and!; [done..|]. apply kept_same; [done|]. intros b Hb.
    rewrite Eb, lookup_wipe, bool_decide_false; [by rewrite option_fmap_id|].
    unfold buffer_of. destruct (tasks cl !! id) as [t0|] eqn:Ht0; [|done]. simpl. intros Hb'.
    by apply Hne, (bo_unique _ H j id t' t0 b).
Qed.

Lemma keeps_abort cl s reason :
  buffers_ok cl ->
  keeps cl (set_tasks (abort_task s reason <$> tasks cl) (aborted_buffers s (tasks cl) (buffers cl)) cl).
Proof.
  intros H. split; simpl.
  - intros id t'. rewrite list_lookup_fmap. destruct (tasks cl !! id) as [t|] eqn:Ht; [|done]. intros [= <-].
    exists t. rewrite abort_task_hit. split_and!; [done|by destruct (hit s t)..|]. destruct (hit s t) eqn:Hh.
    + apply kept_wiped; [done|]. intros b Hb. simpl. rewrite lookup_aborted.
      replace (existsb _ _) with true; [done|]. symmetry. apply existsb_exists. exists t.
      split; [by eapply list_elem_of_In, list_elem_of_lookup_2|]. unfold aborts. by rewrite Hh, bool_decide_true.
    + apply kept_same; [done|]. intros b Hb. simpl. rewrite lookup_aborted.
      destruct (existsb (aborts s b) (tasks cl)) eqn:He; [|by rewrite option_fmap_id].
      apply existsb_exists in He as (u & Hu & Ha). unfold aborts in Ha. apply andb_true_iff in Ha as [Ha Hub].
      apply bool_decide_eq_true in Hub. apply list_elem_of_In, list_elem_of_lookup in Hu as [j Hj].
      assert (id = j) as <- by (by eapply (bo_unique _ H)). congruence.
  - apply length_fmap.
  - generalize (tasks cl) (buffers cl). intros ts. induction ts as [|t ts IH]; intros bs; [done|].
    rewrite aborted_buffers_cons, IH. destruct (hit s t); [|done]. unfold wipe. case_match; [apply length_alter|done].
Qed.

(** A new call, with its copy. *)
Lemma push_ok cl cl' t plain :
  buffers_ok cl -> tasks cl' = tasks cl ++ [t] -> buffers cl' = buffers cl ++ option_list plain ->
  t_buffer t = (fun _ => length (buffers cl)) <$> plain ->
  (forall l, plain = Some l -> plaintext (t_call t) = Some l) -> is_finished (t_phase t) = false \/ plain = None ->
  buffers_ok cl'.
Proof.
  intros H Et Eb Hb Hp Hf.
  assert (forall id u b, tasks cl !! id = Some u -> t_buffer u = Some b -> (b < length (buffers cl))%nat) as Hlt.
  { intros id u b Hid Hub. destruct (bo_content _ H id u b Hid Hub) as (l & _ & Hl). by eapply lookup_lt_Some. }
  split; rewrite ?Et, ?Eb.
  - intros id u b [Hid|[-> ->]]%lookup_snoc_new Hub.
    + destruct (bo_content _ H id u b Hid Hub) as (l & ? & ?). exists l. split; [done|]. by apply lookup_app_l_Some.
    + rewrite Hb in Hub. destruct plain as [l|]; simplify_eq/=. exists l. split; [by apply Hp|].
      rewrite lookup_app_r, Nat.sub_diag by lia. unfold content. destruct Hf as [-> |]; done.
  - intros i j u v b [Hi|[-> ->]]%lookup_snoc_new [Hj|[-> ->]]%lookup_snoc_new Hu Hv; try done.
    + by eapply (bo_unique _ H).
    + specialize (Hlt _ _ _ Hi Hu). rewrite Hb in Hv. destruct plain; simplify_eq/=. lia.
    + specialize (Hlt _ _ _ Hj Hv). rewrite Hb in Hu. destruct plain; simplify_eq/=. lia.
  - intros b l Hl. destruct (decide (b < length (buffers cl))%nat) as [Hbl|Hbl].
    + rewrite lookup_app_l in Hl by done. destruct (bo_owner _ H b l Hl) as (id & u & ? & ?).
      exists id, u. split; [by apply lookup_app_l_Some|done].
    + rewrite lookup_app_r in Hl by lia. destruct plain as [p|]; [|done].
      apply list_lookup_singleton_Some in Hl as [Hz _]. exists (length (tasks cl)), t.
      rewrite lookup_app_r, Nat.sub_diag by lia. split; [done|]. rewrite Hb. simpl. f_equal. lia.
Qed.

(** ** Every run *)

Lemma on_parameter_settles now id c ref version label g r cl :
  let cl' := on_parameter now id c ref version label g r cl in
  buffers cl' = wipe (buffer_of id cl) (buffers cl) /\
  exists x, tasks cl' = alter (with_phase (Finished x)) id (tasks cl).
Proof. cbv zeta. unfold on_parameter. destruct (read_parameter _ _ _), g; eauto. Qed.

Lemma on_discovered_still p r cl :
  tasks (on_discovered p r cl) = tasks cl /\ buffers (on_discovered p r cl) = buffers cl.
Proof. unfold on_discovered. by repeat case_match. Qed.

Lemma is_waiting_unfinished p : is_waiting p = true -> is_finished p = false.
Proof. by destruct p. Qed.

Lemma buffers_move cl cl' : typed cl -> buffers_ok cl -> move cl cl' -> buffers_ok cl'.
Proof.
  intros Hty H Hm. destruct Hm.
  - by eapply keeps_ok, keeps_still.
  - by eapply keeps_ok, keeps_finish.
  - by eapply keeps_ok, (keeps_alter _ _ id t (with_phase (Sent q g))); try done; rewrite H1.
  - by eapply keeps_ok, (keeps_alter _ _ id t (with_phase (Sent q None))); try done; rewrite H1.
  - destruct (on_parameter_settles now id (t_call t) ref version label g r (emit (Answered id r) cl)) as [Eb [x Ex]].
    by eapply keeps_ok, keeps_finish.
  - by eapply keeps_ok, keeps_finish.
  - by eapply keeps_ok, keeps_finish.
  - by eapply keeps_ok, keeps_still.
  - eapply push_ok; [done|reflexivity..| |by left]. done.
  - by eapply (push_ok _ _ _ None); [done|reflexivity..| |right].
  - eapply keeps_ok, (keeps_alter _ _ id t (with_place p)); try done. by apply is_waiting_unfinished.
  - by eapply keeps_ok, (keeps_alter _ _ id t (with_phase (Joining p))); try done; rewrite H2.
  - pose proof (start_tasks now cl ltac:(done)) as Hts. destruct (start_discovery_open now cl ltac:(done)) as [u Hu].
    eapply (push_ok _ _ _ None); [done|exact Hts| |done|done|by right].
    by rewrite Hu, app_nil_r.
  - destruct (on_discovered_still p r (emit (Answered id r) cl)) as [Et Eb].
    assert (buffers_ok (on_discovered p r (emit (Answered id r) cl))) as Hd by (by eapply keeps_ok, keeps_still).
    by eapply keeps_ok, keeps_finish.
  - by eapply keeps_ok, keeps_abort.
  - by eapply keeps_ok, keeps_still.
  - match goal with Ha : aside _ _ |- _ => destruct Ha end. by eapply keeps_ok, keeps_still.
Qed.

Lemma buffers_run cl ops : initial cl -> buffers_ok (run cl ops).
Proof.
  intros Hi. apply pristine_run; [apply buffers_move|done|].
  pose proof (initial_pristine _ Hi) as Hp. split; rewrite ?(pr_tasks _ Hp), ?(pr_buffers _ Hp); try done.
Qed.

(** A [putSecret] request refers to the buffer of its own call. *)
Definition is_put (q : request) : bool := match q with QPutSecret _ _ _ _ _ _ => true | _ => false end.

Lemma mutation_no_put m q w : mutation_request m = Ok q -> is_put (q w) = false.
Proof. destruct m; simpl; repeat (case_match; try done); by intros [= <-]. Qed.

Lemma preview_no_put k a q w : preview_cohort_request k a = Ok q -> is_put (q w) = false.
Proof. unfold preview_cohort_request. repeat (case_match; try done). by intros [= <-]. Qed.

Lemma list_no_put c ns o q : list_request c ns o = Ok q -> is_put q = false.
Proof. unfold list_request. case_match; [|done]. intros [= <-]. by destruct c. Qed.

Lemma the_request_buffer c p bf ref b ct md key exp :
  the_request c p bf = Ok (Some (QPutSecret ref b ct md key exp)) -> bf = Some b.
Proof.
  destruct c, p; simpl; try done; repeat (case_match; try done); intros Hq; simplify_eq;
    try match goal with H : list_request _ _ _ = Ok _ |- _ => by apply list_no_put in H end;
    try match goal with H : mutation_request _ = Ok _ |- _ => apply (mutation_no_put _ _ (toWireRef r)) in H end;
    try match goal with H : preview_cohort_request _ _ = Ok _ |- _ => apply (preview_no_put _ _ _ (toWireRef r)) in H end;
    try by rewrite Hq in *.
  by destruct bf; simplify_eq/=.
Qed.

(** ** The property *)

(** The bytes a caller gave to [putSecret]. *)
Definition secret_bytes (c : call) : option (list Z) :=
  match c with
  | CPutSecret _ (SecretText s) _ _ _ _ _ => Some (utf8_encode s)
  | CPutSecret _ (SecretBytes b) _ _ _ _ _ => Some b
  | _ => None
  end.

(** C6: plaintext is sent intact and does not outlive its call. In every run
    each buffer of the client belongs to exactly one call, a [putSecret]; it
    holds the bytes that call was given until the call settles, so the
    request in flight refers to them and to no other call's; and once the
    call has settled, by an answer, an error, a cancellation or a deadline,
    it holds zeros only. *)
Theorem plaintext_wiped cl ops b l :
  initial cl -> buffers (run cl ops) !! b = Some l ->
  exists id t plain,
    tasks (run cl ops) !! id = Some t /\ t_buffer t = Some b /\ secret_bytes (t_call t) = Some plain /\
    (forall j u, tasks (run cl ops) !! j = Some u -> t_buffer u = Some b -> j = id) /\
    (forall r, t_phase t = Finished r -> l = replicate (length plain) 0) /\
    ((forall r, t_phase t <> Finished r) -> l = plain) /\
    (forall j u ref b' ct md key exp g, tasks (run cl ops) !! j = Some u ->
       t_phase u = Sent (QPutSecret ref b' ct md key exp) g -> t_buffer u = Some b').
Proof.
  intros Hi Hl. pose proof (buffers_run cl ops Hi) as H. pose proof (run_typed cl ops Hi) as Hty.
  destruct (bo_owner _ H b l Hl) as (id & t & Ht & Hb).
  destruct (bo_content _ H id t b Ht Hb) as (plain & Hp & Hc).
  assert (l = content t plain) as -> by congruence. exists id, t, plain. split_and!; [done|done| | | | |].
  - by destruct (t_call t) as [| | | | | | | |? [] | | | | | | | | | |].
  - intros j u Hj Hu. by eapply (bo_unique _ H).
  - intros r Hf. unfold content. by rewrite Hf.
  - intros Hn. unfold content. destruct (t_phase t) eqn:E; try done. by destruct (Hn r).
  - intros j u ref b' ct md key exp g Hu Hs.
    destruct (to_sent u (Hty j u Hu) _ _ Hs) as [Hr _]. by eapply the_request_buffer.
Qed.

(** A [putSecret] before and after its answer. *)
Lemma plaintext_wiped_witness :
  let put := CPutSecret (js "/prod/web/token") (SecretText (js "pw")) None None CredentialUndefined None no_options in
  let ops := [OStart (at_time 1) put; OResume (at_time 1) 0; OReply (at_time 2) 0 (Ok (APut 1 9))] in
  buffers (run demo_client (take 2 ops)) = [js "pw"] /\ buffers (run demo_client ops) = [[0; 0]].
Proof.
  intros put ops. split.
  - destruct (buffers (run demo_client (take 2 ops))) as [|l [|? ?]] eqn:E; [done| |done]. f_equal.
    destruct (plaintext_wiped demo_client (take 2 ops) 0 l demo_initial) as (id & t & plain & Ht & Hb & Hp & _ & _ & Hl & _).
    { by rewrite E. }
    destruct id as [|id]; [|done]. vm_compute in Ht. injection Ht as <-. injection Hp as <-. by apply Hl.
  - destruct (buffers (run demo_client ops)) as [|l [|? ?]] eqn:E; [done| |done]. f_equal.
    destruct (plaintext_wiped demo_client ops 0 l demo_initial) as (id & t & plain & Ht & Hb & Hp & _ & Hl & _).
    { by rewrite E. }
    destruct id as [|id]; [|done]. vm_compute in Ht. injection Ht as <-. injection Hp as <-. by eapply Hl.
Defined.
