(* ===== verification/Publishing.v ===== *)
(** * Publishing: [sdk/typescript/src/publishing.ts].

    Revisions as canonical decimal text, the defensive copy of public JSON,
    public projections and the policy publisher. Values of the application
    are object graphs on the heap of [Clone]; the copies are deeply frozen
    and nobody else holds a reference into them, so a copy is a tree. The
    application's functions (the source, the selectors, the validator and the
    observer) are parameters and may change the heap. The time stamps of the
    events are left out. *)
From stdpp Require Import prelude gmap list strings.
From Stdlib Require Import ZArith Lia.
From S2P Require Import Prelude JsString JsMap Decimal Clone.

(** [Foreign] is what the application threw. [Stuck] stands for a run out of
    fuel or a dangling reference, and does not occur. *)
Inductive failure := TypeError (message : jstr) | RangeError (message : jstr) | Foreign (e : jsval) | Stuck.

(** ** Revisions *)

(** [CANONICAL_DECIMAL_REVISION] *)
Definition canonical_revision (s : jstr) : bool :=
  match s with
  | [] => false
  | [48] => true
  | c :: s => (49 <=? c) && (c <=? 57) && forallb is_digit s
  end.

Definition outside_uint64 : failure := RangeError (js "revision is outside the uint64 range").

Definition parseRevision (value : jsval) : res failure Z :=
  match value with
  | Prim (Text s) =>
      if canonical_revision s then
        let revision := digits_val s in
        if UINT64_MAX <? revision then Throw outside_uint64 else Ok revision
      else Throw (TypeError (js "revision must be a canonical unsigned decimal string"))
  | _ => Throw (TypeError (js "revision must be a canonical unsigned decimal string"))
  end.

(** On a value that may be no bigint; the bigint it is otherwise. *)
Definition assertUint64Revision (revision : jsval) : res failure Z :=
  match revision with
  | Prim (BigInt z) => if (z <? 0) || (UINT64_MAX <? z) then Throw outside_uint64 else Ok z
  | _ => Throw (TypeError (js "revision must be a bigint"))
  end.

Definition formatRevision (revision : jsval) : res failure jstr :=
  let* z := assertUint64Revision revision in Ok (dec z).

Definition formatPublicConfigEtag (revision : jsval) : res failure jstr :=
  let* decimal := match revision with
                  | Prim (BigInt _) => formatRevision revision
                  | _ => let* z := parseRevision revision in formatRevision (Prim (BigInt z))
                  end in
  Ok (34 :: js "kms-public-config-" ++ decimal ++ [34]).

Definition revisionEquals (candidate : jsval) (expected : Z) : bool :=
  match candidate with
  | Prim (BigInt z) => (0 <=? z) && (z <=? UINT64_MAX) && (z =? expected)
  | Prim (Text _) => match parseRevision candidate with Ok z => z =? expected | Throw _ => false end
  | _ => false
  end.

(** ** Public JSON *)

(** A deeply frozen copy. *)
Inductive pub :=
| PNull
| PBoolean (b : bool)
| PNumber (bits : Z)
| PText (s : jstr)
| PArray (l : list pub)
| PObject (l : list (jstr * pub)).

Definition FORBIDDEN_PUBLIC_KEYS : list jstr := [js "__proto__"; js "constructor"; js "prototype"].

Definition assertSafePublicKey (key path : jstr) : res failure unit :=
  if bool_decide (key ∈ FORBIDDEN_PUBLIC_KEYS)
  then Throw (TypeError (path ++ js " uses a forbidden public JSON key")) else Ok tt.

Definition assertProjectionKey (key : jstr) : res failure unit :=
  if bool_decide (key = js "revision")
  then Throw (TypeError (js "public projection key revision is reserved for the publisher")) else Ok tt.

Definition dot (path key : jstr) : jstr := path ++ js "." ++ key.
Definition at_index (path index : jstr) : jstr := path ++ js "[" ++ index ++ js "]".

Fixpoint ownEnumerableDataKeys (ps : properties) (path : jstr) (allowedKeys : option (list jstr))
  : res failure (list jstr) :=
  match ps with
  | [] => Ok []
  | (SymbolKey _, _) :: _ => Throw (TypeError (path ++ js " contains a symbol property"))
  | (StringKey key, d) :: ps =>
      let* _ := assertSafePublicKey key (dot path key) in
      if match allowedKeys with Some l => negb (bool_decide (key ∈ l)) | None => false end
      then Throw (TypeError (path ++ js " contains unexpected property " ++ key))
      else match d with
      | Data _ fl =>
          if enumerable fl then let* keys := ownEnumerableDataKeys ps path allowedKeys in Ok (key :: keys)
          else Throw (TypeError (dot path key ++ js " must be an enumerable data property"))
      | Accessor => Throw (TypeError (dot path key ++ js " must be an enumerable data property"))
      end
  end.

Definition readDataProperty (ps : properties) (key path : jstr) : res failure jsval :=
  match map_get (StringKey key) ps with
  | Some (Data v _) => Ok v
  | _ => Throw (TypeError (path ++ js " must be a data property"))
  end.

(** Bits of a double: the exponent of an infinity or a NaN is all ones. *)
Definition is_finite (bits : Z) : bool := negb (Z.land (Z.shiftr bits 52) 2047 =? 2047).

(** The own keys of an array but its [length]. *)
Fixpoint check_array_keys (len : Z) (ps : properties) (path : jstr) : res failure unit :=
  match ps with
  | [] => Ok tt
  | (SymbolKey _, _) :: _ => Throw (TypeError (path ++ js " contains a non-index array property"))
  | (StringKey key, d) :: ps =>
      if negb (canonical_revision key) then Throw (TypeError (path ++ js " contains a non-index array property"))
      else if negb (isSafeInteger (digits_val key)) || (len <=? digits_val key)
      then Throw (TypeError (path ++ js " contains an invalid array index"))
      else match d with
      | Data _ fl =>
          if enumerable fl then check_array_keys len ps path
          else Throw (TypeError (at_index path key ++ js " must be an enumerable data property"))
      | Accessor => Throw (TypeError (at_index path key ++ js " must be an enumerable data property"))
      end
  end.

Section loops.
Context (f : jstr -> jsval -> res failure pub) (path : jstr) (ps : properties).

Fixpoint clone_elements (indices : list nat) : res failure (list pub) :=
  match indices with
  | [] => Ok []
  | i :: indices =>
      let index := dec (Z.of_nat i) in
      match map_get (StringKey index) ps with
      | None => Throw (TypeError (path ++ js " contains a sparse array element"))
      | Some Accessor => Throw Stuck
      | Some (Data v _) =>
          let* j := f (at_index path index) v in
          let* js := clone_elements indices in
          Ok (j :: js)
      end
  end.

Fixpoint clone_fields (keys : list jstr) : res failure (list (jstr * pub)) :=
  match keys with
  | [] => Ok []
  | key :: keys =>
      let* _ := assertSafePublicKey key (dot path key) in
      let* v := readDataProperty ps key (dot path key) in
      let* j := f (dot path key) v in
      let* fs := clone_fields keys in
      Ok ((key, j) :: fs)
  end.
End loops.

Section objects.
(** Where [Object.prototype] is. *)
Context (object_prototype : loc).

Definition plain_proto (proto : option loc) : bool :=
  match proto with None => true | Some p => bool_decide (p = object_prototype) end.

(** [isPlainObject]: the own properties of a plain object. *)
Definition plain_object (h : heap) (v : jsval) : option properties :=
  match v with
  | Ref l =>
      match h !! l with
      | Some o => match o_kind o with
                  | IPlain proto => if plain_proto proto then Some (o_props o) else None
                  | _ => None
                  end
      | None => None
      end
  | Prim _ => None
  end.

(** [finally] takes the object out of [ancestors] again, so the set goes down
    the recursion and not along it. *)
Fixpoint cloneAndFreezePublicJson (fuel : nat) (h : heap) (path : jstr) (ancestors : gset loc) (value : jsval)
  : res failure pub :=
  match value with
  | Prim Null => Ok PNull
  | Prim (Text s) => Ok (PText s)
  | Prim (Boolean b) => Ok (PBoolean b)
  | Prim (Number bits) =>
      if is_finite bits then Ok (PNumber bits) else Throw (TypeError (path ++ js " contains a non-finite number"))
  | Prim _ => Throw (TypeError (path ++ js " is not a public JSON value"))
  | Ref l =>
      match fuel with
      | O => Throw Stuck
      | S fuel =>
          match h !! l with
          | None => Throw Stuck
          | Some o =>
              match o_kind o with
              | IFunction => Throw (TypeError (path ++ js " is not a public JSON value"))
              | k =>
                  if bool_decide (l ∈ ancestors) then Throw (TypeError (path ++ js " contains a cycle"))
                  else
                    let f := fun path => cloneAndFreezePublicJson fuel h path ({[l]} ∪ ancestors) in
                    match k with
                    | IArray len _ =>
                        let* _ := check_array_keys len (o_props o) path in
                        let* l := clone_elements f path (o_props o) (seq 0 (Z.to_nat len)) in
                        Ok (PArray l)
                    | IPlain proto =>
                        if plain_proto proto then
                          let* keys := ownEnumerableDataKeys (o_props o) path None in
                          let* fs := clone_fields f path (o_props o) keys in
                          Ok (PObject fs)
                        else Throw (TypeError (path ++ js " must be a plain JSON object"))
                    | _ => Throw (TypeError (path ++ js " must be a plain JSON object"))
                    end
              end
          end
      end
  end.

Definition freezePublicJson (h : heap) (value : jsval) : res failure pub :=
  cloneAndFreezePublicJson (clone_fuel h) h (js "$") ∅ value.

(** A frozen copy, back among the objects of the heap. *)
Definition frozen_flags : flags := {| writable := false; enumerable := true; configurable := false |}.
Definition element (i : nat) (v : jsval) : propkey * descriptor := (StringKey (dec (Z.of_nat i)), Data v frozen_flags).
Definition field (key : jstr) (v : jsval) : propkey * descriptor := (StringKey key, Data v frozen_flags).

Section embed_loops.
Context {A : Type} (f : heap -> A -> heap * jsval).
Fixpoint embed_all (h : heap) (l : list A) : heap * list jsval :=
  match l with
  | [] => (h, [])
  | x :: l => let '(h, v) := f h x in let '(h, vs) := embed_all h l in (h, v :: vs)
  end.
End embed_loops.

Fixpoint embed (h : heap) (j : pub) {struct j} : heap * jsval :=
  match j with
  | PNull => (h, Prim Null)
  | PBoolean b => (h, Prim (Boolean b))
  | PNumber bits => (h, Prim (Number bits))
  | PText s => (h, Prim (Text s))
  | PArray l =>
      let '(h, vs) := embed_all embed h l in
      (h ++ [{| o_kind := IArray (Z.of_nat (length l)) false; o_props := imap element vs |}], Ref (length h))
  | PObject fs =>
      let '(h, vs) := embed_all (fun h kj => embed h kj.2) h fs in
      (h ++ [{| o_kind := IPlain (Some object_prototype); o_props := zip_with field fs.*1 vs |}], Ref (length h))
  end.

(** ** [normalizePublicConfigWire] *)

Record PublicConfigWire := { w_revision : jstr; w_config : list (jstr * pub) }.

Definition normalizePublicConfigWire (h : heap) (value : jsval) (validateConfig : option (list (jstr * pub) -> bool))
  : res failure PublicConfigWire :=
  match plain_object h value with
  | None => Throw (TypeError (js "$ must be a plain JSON object"))
  | Some ps =>
      let* keys := ownEnumerableDataKeys ps (js "$") (Some [js "revision"; js "config"]) in
      if negb (bool_decide (length keys = 2%nat)) || negb (bool_decide (js "revision" ∈ keys))
         || negb (bool_decide (js "config" ∈ keys))
      then Throw (TypeError (js "public config must contain exactly revision and config"))
      else
        let* revisionValue := readDataProperty ps (js "revision") (js "$.revision") in
        let* z := parseRevision revisionValue in
        let* revision := formatRevision (Prim (BigInt z)) in
        let* configValue := readDataProperty ps (js "config") (js "$.config") in
        let* config := cloneAndFreezePublicJson (clone_fuel h) h (js "$.config") ∅ configValue in
        match config with
        | PObject fs =>
            if match validateConfig with Some valid => valid fs | None => true end
            then Ok {| w_revision := revision; w_config := fs |}
            else Throw (TypeError (js "public config failed application validation"))
        | _ => Throw (TypeError (js "public config config must be a JSON object"))
        end
  end.
End objects.

(** ** Projections *)

(** A projection: what iterating over its [keys] yields, if that is an array,
    and its function. *)
Record Projection := {
  p_keys : option (list jsval);
  p_project : heap -> jsval -> heap * res failure jsval
}.

Section projection.
Context (object_prototype : loc).

(** Calling a function of the application with one argument. *)
Context (call : loc -> heap -> jsval -> heap * res jsval jsval).

Definition function_at (h : heap) (v : jsval) : option loc :=
  match v with
  | Ref l => match o_kind <$> h !! l with Some IFunction => Some l | _ => None end
  | Prim _ => None
  end.

Fixpoint capture_selectors (h : heap) (ps : properties) (keys : list jstr) : res failure (list (jstr * loc)) :=
  match keys with
  | [] => Ok []
  | key :: keys =>
      let* _ := assertSafePublicKey key (dot (js "$allowlist") key) in
      let* _ := assertProjectionKey key in
      let* v := readDataProperty ps key (dot (js "$allowlist") key) in
      match function_at h v with
      | None => Throw (TypeError (js "public projection selector $." ++ key ++ js " must be a function"))
      | Some l => let* rest := capture_selectors h ps keys in Ok ((key, l) :: rest)
      end
  end.

Definition captureProjectionMap (h : heap) (allowlist : jsval) : res failure (list (jstr * loc)) :=
  match plain_object object_prototype h allowlist with
  | None => Throw (TypeError (js "public projection allowlist must be a plain object"))
  | Some ps =>
      let* keys := ownEnumerableDataKeys ps (js "$allowlist") None in
      capture_selectors h ps keys
  end.

(** The loop of [project]. *)
Fixpoint project_fields (h : heap) (selectors : list (jstr * loc)) (policy : jsval)
  : heap * res failure (list (jstr * pub)) :=
  match selectors with
  | [] => (h, Ok [])
  | (key, l) :: selectors =>
      match call l h policy with
      | (h, Throw e) => (h, Throw (Foreign e))
      | (h, Ok selected) =>
          match cloneAndFreezePublicJson object_prototype (clone_fuel h) h (dot (js "$") key) ∅ selected with
          | Throw e => (h, Throw e)
          | Ok j =>
              match project_fields h selectors policy with
              | (h, Throw e) => (h, Throw e)
              | (h, Ok fs) => (h, Ok ((key, j) :: fs))
              end
          end
      end
  end.

Definition project (selectors : list (jstr * loc)) (h : heap) (policy : jsval) : heap * res failure jsval :=
  match project_fields h selectors policy with
  | (h, Throw e) => (h, Throw e)
  | (h, Ok fs) => let '(h, v) := embed object_prototype h (PObject fs) in (h, Ok v)
  end.

(** [definePublicProjection] on an allowlist. *)
Definition createPublicProjection (h : heap) (allowlist : jsval) : res failure Projection :=
  let* selectors := captureProjectionMap h allowlist in
  Ok {| p_keys := Some ((fun s => Prim (Text s.1)) <$> selectors); p_project := project selectors |}.
End projection.

(** ** The publisher *)

Inductive event :=
| public_config_published (revision : jstr)
| public_config_unavailable
| policy_revision_rejected (currentRevision : jstr)
| policy_validation_succeeded (revision : jstr)
| policy_validation_failed (revision : jstr).

(** What [source.current()] returns: [undefined], something that is no
    object, or an object with a [revision] and perhaps a [value]. *)
Inductive answer := NoSnapshot | NotObject | Snapshot (revision : jsval) (value : option jsval).

(** What the validator returns: no decision, [valid: true], or [valid: false]
    and perhaps [errors]. *)
Inductive decision := NoDecision | Valid | Invalid (errors : option jsval).

(** An option that must be a function. *)
Inductive hook (A : Type) := Missing | NotFunction | Hook (f : A).
Arguments Missing {A}.
Arguments NotFunction {A}.
Arguments Hook {A} f.

(** [current] gets the number of the call: a source may answer differently
    every time. *)
Record CreatePolicyPublisherOptions := {
  op_current : hook (nat -> heap -> heap * res jsval answer);
  op_project : hook (heap -> jsval -> heap * res failure jsval);
  op_keys : option (list jsval);
  op_validate : hook (heap -> jsval -> jsval -> heap * res jsval decision);
  op_onEvent : hook (heap -> event -> heap)
}.

Record Publisher := {
  current : nat -> heap -> heap * res jsval answer;
  project_policy : heap -> jsval -> heap * res failure jsval;
  allowedProjectionKeys : list jstr;
  validator : heap -> jsval -> jsval -> heap * res jsval decision;
  onEvent : option (heap -> event -> heap)
}.

Fixpoint capture_keys (seen : list jstr) (keys : list jsval) : res failure (list jstr) :=
  match keys with
  | [] => Ok []
  | Prim (Text key) :: keys =>
      let* _ := assertSafePublicKey key (js "public projection key " ++ key) in
      let* _ := assertProjectionKey key in
      if bool_decide (key ∈ seen) then Throw (TypeError (js "public projection key " ++ key ++ js " is duplicated"))
      else let* rest := capture_keys (seen ++ [key]) keys in Ok (key :: rest)
  | _ :: _ => Throw (TypeError (js "public projection keys must contain only strings"))
  end.

Definition captureProjectionKeys (keys : option (list jsval)) : res failure (list jstr) :=
  match keys with
  | None => Throw (TypeError (js "public projection keys must be an array"))
  | Some keys => capture_keys [] keys
  end.

Definition createPolicyPublisher (o : CreatePolicyPublisherOptions) : res failure Publisher :=
  match op_current o, op_project o, op_validate o, op_onEvent o with
  | Hook c, Hook p, Hook v, Missing =>
      let* keys := captureProjectionKeys (op_keys o) in
      Ok {| current := c; project_policy := p; allowedProjectionKeys := keys; validator := v; onEvent := None |}
  | Hook c, Hook p, Hook v, Hook e =>
      let* keys := captureProjectionKeys (op_keys o) in
      Ok {| current := c; project_policy := p; allowedProjectionKeys := keys; validator := v; onEvent := Some e |}
  | Hook _, Hook _, Hook _, NotFunction => Throw (TypeError (js "policy publisher onEvent must be a function"))
  | Hook _, Hook _, _, _ => Throw (TypeError (js "policy publisher validate must be a function"))
  | Hook _, _, _, _ => Throw (TypeError (js "policy publisher projection must implement project()"))
  | _, _, _, _ => Throw (TypeError (js "policy publisher source must implement current()"))
  end.

(** The heap, the number of calls of the source, the events handed to the
    observer. *)
Record World := { objects : heap; reads : nat; events : list event }.

Definition with_objects (h : heap) (w : World) : World := {| objects := h; reads := reads w; events := events w |}.

Record PublicConfig := { c_revision : Z; c_config : list (jstr * pub) }.

Inductive PolicyValidationResult :=
| success (revision : jstr)
| validation_failed (revision : jstr) (errors : pub)
| policy_changed (current : PublicConfigWire)
| unavailable.

Definition assertSnapshot (a : answer) : res failure (Z * jsval) :=
  match a with
  | NoSnapshot | NotObject => Throw (TypeError (js "snapshot reader returned an invalid snapshot"))
  | Snapshot revision value =>
      let* z := assertUint64Revision revision in
      match value with
      | None => Throw (TypeError (js "snapshot reader returned a snapshot without a value"))
      | Some v => Ok (z, v)
      end
  end.

Section publisher.
Context (object_prototype : loc) (P : Publisher).

(** An observer that throws or rejects is ignored. *)
Definition observe (e : event) (w : World) : World :=
  match onEvent P with
  | None => w
  | Some f => {| objects := f (objects w) e; reads := reads w; events := events w ++ [e] |}
  end.

Definition readSnapshot (w : World) : World * res failure (option (Z * jsval)) :=
  let '(h, r) := current P (reads w) (objects w) in
  let w := {| objects := h; reads := S (reads w); events := events w |} in
  (w, match r with
      | Throw e => Throw (Foreign e)
      | Ok NoSnapshot => Ok None
      | Ok a => let* s := assertSnapshot a in Ok (Some s)
      end).

Definition projectSnapshot (s : Z * jsval) (w : World) : World * res failure PublicConfig :=
  let '(h, r) := project_policy P (objects w) s.2 in
  (with_objects h w,
   let* v := r in
   let* projected := freezePublicJson object_prototype h v in
   match projected with
   | PObject fs =>
       if negb (bool_decide (length fs = length (allowedProjectionKeys P)))
          || existsb (fun key => negb (bool_decide (key ∈ allowedProjectionKeys P))) fs.*1
       then Throw (TypeError (js "public projection returned fields outside its allowlist"))
       else Ok {| c_revision := s.1; c_config := fs |}
   | _ => Throw (TypeError (js "public projection must return a JSON object"))
   end).

Definition toWire (c : PublicConfig) : res failure PublicConfigWire :=
  let* revision := formatRevision (Prim (BigInt (c_revision c))) in
  Ok {| w_revision := revision; w_config := c_config c |}.

Definition read (w : World) : World * res failure (option PublicConfig) :=
  match readSnapshot w with
  | (w, Throw e) => (w, Throw e)
  | (w, Ok None) => (observe public_config_unavailable w, Ok None)
  | (w, Ok (Some s)) =>
      match projectSnapshot s w with
      | (w, Throw e) => (w, Throw e)
      | (w, Ok config) =>
          match formatRevision (Prim (BigInt s.1)) with
          | Throw e => (w, Throw e)
          | Ok revision => (observe (public_config_published revision) w, Ok (Some config))
          end
      end
  end.

(** [toWire(projectSnapshot(snapshot))] *)
Definition project_wire (s : Z * jsval) (w : World) : World * res failure PublicConfigWire :=
  let '(w, r) := projectSnapshot s w in (w, let* c := r in toWire c).

Definition readWire (w : World) : World * res failure (option PublicConfigWire) :=
  match readSnapshot w with
  | (w, Throw e) => (w, Throw e)
  | (w, Ok None) => (observe public_config_unavailable w, Ok None)
  | (w, Ok (Some s)) =>
      match project_wire s w with
      | (w, Throw e) => (w, Throw e)
      | (w, Ok config) => (observe (public_config_published (w_revision config)) w, Ok (Some config))
      end
  end.

Definition etag (revision : jsval) (w : World) : World * res failure (option jstr) :=
  match revision with
  | Prim Undefined =>
      match readSnapshot w with
      | (w, Throw e) => (w, Throw e)
      | (w, Ok None) => (w, Ok None)
      | (w, Ok (Some s)) => (w, let* t := formatPublicConfigEtag (Prim (BigInt s.1)) in Ok (Some t))
      end
  | _ => (w, let* t := formatPublicConfigEtag revision in Ok (Some t))
  end.

(** The branch of [validate] on the client's own revision. *)
Definition decide_input (s : Z * jsval) (input : jsval) (w : World) : World * res failure PolicyValidationResult :=
  let '(h, r) := validator P (objects w) s.2 input in
  let w := with_objects h w in
  match r with
  | Throw e => (w, Throw (Foreign e))
  | Ok (NoDecision | Invalid None) => (w, Throw (TypeError (js "policy validator returned an invalid decision")))
  | Ok d =>
      match formatRevision (Prim (BigInt s.1)), d with
      | Throw e, _ => (w, Throw e)
      | Ok revision, Invalid (Some errors) =>
          match freezePublicJson object_prototype h errors with
          | Throw e => (w, Throw e)
          | Ok frozen => (observe (policy_validation_failed revision) w, Ok (validation_failed revision frozen))
          end
      | Ok revision, _ => (observe (policy_validation_succeeded revision) w, Ok (success revision))
      end
  end.

Definition validate (clientRevision input : jsval) (w : World) : World * res failure PolicyValidationResult :=
  match readSnapshot w with
  | (w, Throw e) => (w, Throw e)
  | (w, Ok None) => (observe public_config_unavailable w, Ok unavailable)
  | (w, Ok (Some s)) =>
      if negb (revisionEquals clientRevision s.1) then
        match project_wire s w with
        | (w, Throw e) => (w, Throw e)
        | (w, Ok config) =>
            match formatRevision (Prim (BigInt s.1)) with
            | Throw e => (w, Throw e)
            | Ok revision => (observe (policy_revision_rejected revision) w, Ok (policy_changed config))
            end
        end
      else decide_input s input w
  end.
End publisher.
