(* ===== verification/PublishingProofs.v ===== *)
(** * PublishingProofs: revisions, public copies and what a publisher says.

    A value is public JSON when it denotes a finite tree: [denotes] says so
    without an algorithm, and the defensive copy is that tree. From it: what
    a projection publishes, that every answer of a publisher comes from one
    generation, and that wire objects are read back. *)
From stdpp Require Import prelude gmap list strings relations.
From Stdlib Require Import ZArith Lia.
From S2P Require Import Prelude JsString JsMap Decimal Clone CloneProofs Publishing.

(** Unfolding the bits of a number that is not known does not end well. *)
#[local] Opaque is_finite.

(** ** Revisions *)

(** Digits without a leading zero. *)
Definition led (s : jstr) : Prop :=
  Forall (fun c => is_digit c = true) s /\ match s with [] => True | c :: _ => 49 <= c <= 57 end.

Lemma is_digit_range c : is_digit c = true <-> 48 <= c <= 57.
Proof. unfold is_digit. lia. Qed.

Lemma led_positive c s : led (c :: s) -> 0 < digits_val (c :: s).
Proof.
  intros [[_ Hs]%Forall_cons Hc]. rewrite digits_val_cons.
  pose proof (digits_val_bound s Hs). assert (0 < 10 ^ strlen s) by (apply Z.pow_pos_nonneg; unfold strlen; lia). nia.
Qed.

Lemma led_prefix s d : led (s ++ [d]) -> led s /\ 48 <= d <= 57.
Proof.
  intros [[Hs Hd]%Forall_app Hl]. split; [split; [done|]|].
  - by destruct s.
  - apply Forall_cons in Hd as [Hd _]. by apply is_digit_range.
Qed.

Lemma led_inj a : forall b, led a -> led b -> digits_val a = digits_val b -> a = b.
Proof.
  induction a as [|d a IH] using rev_ind; intros b Ha Hb Hv.
  - destruct b as [|c b]; [done|]. pose proof (led_positive c b Hb). unfold digits_val at 1 in Hv. simpl in Hv. lia.
  - destruct b as [|e b _] using rev_ind.
    + assert (0 < digits_val (a ++ [d])) by (destruct a; by apply led_positive).
      unfold digits_val at 2 in Hv. simpl in Hv. lia.
    + apply led_prefix in Ha as [Ha Hd]. apply led_prefix in Hb as [Hb He]. rewrite !digits_val_snoc in Hv.
      assert (d = e /\ digits_val a = digits_val b) as [-> Hab] by lia. by rewrite (IH b).
Qed.

Lemma canonical_cases s :
  canonical_revision s = true <-> s = [48] \/ (s <> [] /\ led s).
Proof.
  destruct s as [|c s]; [split; [done|by intros [|[]]]|]. unfold canonical_revision, led.
  destruct (decide (c = 48 /\ s = [])) as [[-> ->]|Hne]; [by split; [left|]|].
  assert ((49 <=? c) && (c <=? 57) && forallb is_digit s = true <->
          Forall (fun c => is_digit c = true) (c :: s) /\ 49 <= c <= 57) as Hiff.
  { rewrite !andb_true_iff, forallb_forall, Forall_cons, Forall_forall, is_digit_range. setoid_rewrite list_elem_of_In.
    split; [intros [[? ?] ?]|intros [[? ?] ?]]; split_and!; try lia; auto. }
  assert (match c :: s with [48] => true | c :: s => (49 <=? c) && (c <=? 57) && forallb is_digit s | [] => false end
          = (49 <=? c) && (c <=? 57) && forallb is_digit s) as E.
  { destruct s as [|? ?]; [|by destruct c as [|p|p]; try done; repeat (destruct p; try done)].
    destruct (Z.eq_dec c 48) as [->|Hc]; [by destruct Hne|].
    destruct c as [|p|p]; try done; repeat (destruct p as [p|p|]; try done). }
  revert E. unfold canonical_revision. intros E. rewrite E, Hiff. split; [by right|].
  intros [[= -> ->]|[_ ?]]; [by destruct Hne|done].
Qed.

Lemma dec_led n : 0 < n -> dec n <> [] /\ led (dec n).
Proof.
  intros Hn. unfold dec. replace (n <? 0) with false by lia.
  destruct (dec_nat_lead n Hn) as (d & l & E & Hd). pose proof (dec_nat_digits n ltac:(lia)) as Hf.
  rewrite E in *. done.
Qed.

Lemma dec_val n : 0 <= n -> digits_val (dec n) = n.
Proof. intros Hn. unfold dec. replace (n <? 0) with false by lia. by apply dec_nat_val. Qed.

Lemma canonical_dec n : 0 <= n -> canonical_revision (dec n) = true.
Proof.
  intros Hn. apply canonical_cases. destruct (Z.eq_dec n 0) as [->|]; [by left|right]. apply dec_led. lia.
Qed.

Lemma canonical_is_dec s : canonical_revision s = true -> 0 <= digits_val s /\ dec (digits_val s) = s.
Proof.
  intros [->|[Hne Hs]]%canonical_cases; [done|].
  assert (0 < digits_val s) as Hp by (destruct s; [done|by apply led_positive]).
  split; [lia|]. apply led_inj; [by apply dec_led|done|]. apply dec_val. lia.
Qed.

Lemma parseRevision_spec v z :
  parseRevision v = Ok z <-> v = Prim (Text (dec z)) /\ is_uint64 z = true.
Proof.
  unfold parseRevision, is_uint64. split.
  - destruct v as [[| | | |s| |]|]; try done. destruct (canonical_revision s) eqn:Hc; [|done].
    apply canonical_is_dec in Hc as [Hp Hd]. destruct (_ <? _) eqn:Hm; [done|]. intros [= <-]. rewrite Hd. split; [done|lia].
  - intros [-> Hz]. rewrite canonical_dec, dec_val by lia. by replace (UINT64_MAX <? z) with false by lia.
Qed.

Lemma assertUint64Revision_spec v z :
  assertUint64Revision v = Ok z <-> v = Prim (BigInt z) /\ is_uint64 z = true.
Proof.
  unfold assertUint64Revision, is_uint64. split.
  - destruct v as [[| | | | |y|]|]; try done. destruct (_ || _) eqn:Hm; [done|]. intros [= <-]. split; [done|lia].
  - intros [-> Hz]. by replace ((z <? 0) || (UINT64_MAX <? z)) with false by lia.
Qed.

Lemma formatRevision_Ok z : is_uint64 z = true -> formatRevision (Prim (BigInt z)) = Ok (dec z).
Proof. intros Hz. unfold formatRevision. by rewrite (proj2 (assertUint64Revision_spec _ z)). Qed.

(** The two forms in which a client may name a revision. *)
Lemma revisionEquals_spec v z :
  is_uint64 z = true -> revisionEquals v z = true <-> v = Prim (BigInt z) \/ v = Prim (Text (dec z)).
Proof.
  intros Hz. unfold is_uint64 in Hz. unfold revisionEquals. destruct v as [[| | | |s|y|]|]; try (by split; [|intros []]).
  - destruct (parseRevision (Prim (Text s))) as [y|e] eqn:Hp.
    + apply parseRevision_spec in Hp as [[= ->] Hy]. unfold is_uint64 in Hy. rewrite Z.eqb_eq.
      split; [intros ->; by right|]. intros [?|[= E]]; [done|]. apply dec_inj; [lia|lia|done].
    + split; [done|]. intros [?|[= ->]]; [done|].
      assert (parseRevision (Prim (Text (dec z))) = Ok z) as E; [|congruence].
      apply parseRevision_spec. split; [done|]. unfold is_uint64. lia.
  - rewrite !andb_true_iff, Z.eqb_eq. split; [intros [_ ->]; by left|]. intros [[= ->]|?]; [|done]. lia.
Qed.

(** ** No way around *)

Lemma acc_tc {A} (R : relation A) x : Acc R x -> Acc (tc R) x.
Proof.
  induction 1 as [x _ IH]. constructor. intros y Hy. induction Hy as [y z Hz|y z w Hz Hw IHw]; [by apply IH|].
  apply (Acc_inv (IHw IH)). by apply tc_once.
Qed.

Lemma acc_irrefl {A} (R : relation A) x : Acc R x -> ~ R x x.
Proof. induction 1 as [x _ IH]. intros Hx. by apply (IH x). Qed.

Lemma acc_no_loop {A} (R : relation A) x : Acc R x -> ~ tc R x x.
Proof. intros Hx. by apply acc_irrefl, acc_tc. Qed.

(** ** What a value denotes *)

Section denotes.
Context (object_prototype : loc).

(** An own key of an array of length [len] that is an element. *)
Definition element_key (len : Z) (p : propkey * descriptor) : Prop :=
  exists i v fl, p = (StringKey (dec i), Data v fl) /\ enumerable fl = true /\ 0 <= i < len /\ i <= MAX_SAFE_INTEGER.

Definition public_key (p : propkey * descriptor) (key : jstr) : Prop :=
  exists v fl, p = (StringKey key, Data v fl) /\ enumerable fl = true /\ key ∉ FORBIDDEN_PUBLIC_KEYS.

(** [denotes h v j]: the value [v] is public JSON, the finite tree [j]. *)
Inductive denotes (h : heap) : jsval -> pub -> Prop :=
| den_null : denotes h (Prim Null) PNull
| den_boolean b : denotes h (Prim (Boolean b)) (PBoolean b)
| den_text s : denotes h (Prim (Text s)) (PText s)
| den_number bits : is_finite bits = true -> denotes h (Prim (Number bits)) (PNumber bits)
| den_array l o len w js :
    h !! l = Some o -> o_kind o = IArray len w -> Forall (element_key len) (o_props o) ->
    length js = Z.to_nat len ->
    (forall i, (i < length js)%nat -> exists v fl, map_get (StringKey (dec (Z.of_nat i))) (o_props o) = Some (Data v fl)) ->
    (forall i j v fl, js !! i = Some j -> map_get (StringKey (dec (Z.of_nat i))) (o_props o) = Some (Data v fl) ->
       denotes h v j) ->
    denotes h (Ref l) (PArray js)
| den_object l o proto fs :
    h !! l = Some o -> o_kind o = IPlain proto -> plain_proto object_prototype proto = true ->
    Forall2 public_key (o_props o) fs.*1 ->
    (forall key j v fl, (key, j) ∈ fs -> map_get (StringKey key) (o_props o) = Some (Data v fl) -> denotes h v j) ->
    denotes h (Ref l) (PObject fs).

Lemma denotes_prefix h h' v j : h `prefix_of` h' -> denotes h v j -> denotes h' v j.
Proof.
  intros Hp. assert (forall l o, h !! l = Some o -> h' !! l = Some o) as Hl.
  { intros l o Ho. eapply prefix_lookup_Some; eauto. }
  induction 1; [by constructor..|by eapply den_array; eauto|by eapply den_object; eauto].
Qed.

(** ** The loops *)

Lemma check_array_keys_spec len ps path u :
  check_array_keys len ps path = Ok u <-> Forall (element_key len) ps.
Proof.
  destruct u. induction ps as [|[k d] ps IH]; simpl; [by split|]. rewrite Forall_cons. split.
  - destruct k as [key|]; [|done]. destruct (canonical_revision key) eqn:Hc; [|done]. simpl.
    apply canonical_is_dec in Hc as [Hp Hd]. destruct (_ || _) eqn:Hi; [done|].
    destruct d as [v fl|]; [|done]. destruct (enumerable fl) eqn:He; [|done]. intros Hps. split; [|by apply IH].
    exists (digits_val key), v, fl. rewrite Hd. apply orb_false_iff in Hi as [Hs Hlen]. bool_prop.
    unfold isSafeInteger in Hs. split_and!; try done; lia.
  - intros [(i & v & fl & [= -> ->] & He & Hi & Hs) Hps]. rewrite canonical_dec, dec_val by lia. simpl.
    replace (_ || _) with false by (unfold isSafeInteger; unfold MAX_SAFE_INTEGER in *; lia). rewrite He. by apply IH.
Qed.

Definition allows (allowed : option (list jstr)) (key : jstr) : Prop :=
  match allowed with Some l => key ∈ l | None => True end.

Lemma assertSafePublicKey_spec key path u :
  assertSafePublicKey key path = Ok u <-> key ∉ FORBIDDEN_PUBLIC_KEYS.
Proof. destruct u. unfold assertSafePublicKey. case_bool_decide; by split. Qed.

Lemma ownEnumerableDataKeys_spec ps path allowed keys :
  ownEnumerableDataKeys ps path allowed = Ok keys <->
  Forall2 public_key ps keys /\ Forall (allows allowed) keys.
Proof.
  revert keys. induction ps as [|[k d] ps IH]; intros keys; simpl.
  { split; [intros [= <-]; by split|]. by intros [->%Forall2_nil_inv_l _]. }
  split.
  - destruct k as [key|]; [|done]. destruct (assertSafePublicKey _ _) eqn:Hs; [|done].
    apply assertSafePublicKey_spec in Hs. destruct (match allowed with Some _ => _ | None => _ end) eqn:Ha; [done|].
    destruct d as [v fl|]; [|done]. destruct (enumerable fl) eqn:He; [|done].
    destruct (ownEnumerableDataKeys _ _ _) as [ks|] eqn:Hk; [|done]. intros [= <-].
    destruct (proj1 (IH ks) eq_refl) as [H2 Hal]. split; constructor; try done.
    + by exists v, fl.
    + destruct allowed; [|done]. simpl. by case_bool_decide.
  - intros [H2 Hal]. inversion H2 as [|? key ? ks Hk Hks]; subst.
    destruct Hk as (v & fl & [= -> ->] & He & Hs).
    apply Forall_cons in Hal as [Hak Hal].
    destruct (assertSafePublicKey key (dot path key)) as [[]|] eqn:E.
    2: { assert (assertSafePublicKey key (dot path key) = Ok tt) by (by apply assertSafePublicKey_spec). congruence. }
    replace (match allowed with Some _ => _ | None => _ end) with false
      by (destruct allowed; [simpl in Hak; by rewrite bool_decide_true|done]).
    rewrite He. by rewrite (proj2 (IH ks)).
Qed.

Lemma readDataProperty_spec ps key path v :
  readDataProperty ps key path = Ok v <-> exists fl, map_get (StringKey key) ps = Some (Data v fl).
Proof.
  unfold readDataProperty. split.
  - destruct (map_get _ ps) as [[w fl|]|]; try done. intros [= ->]. eauto.
  - by intros [fl ->].
Qed.

(** The loops, for any function that copies the values. *)
Lemma clone_elements_spec f path ps ixs js :
  clone_elements f path ps ixs = Ok js <->
  Forall2 (fun i j => exists v fl, map_get (StringKey (dec (Z.of_nat i))) ps = Some (Data v fl) /\
     f (at_index path (dec (Z.of_nat i))) v = Ok j) ixs js.
Proof.
  revert js. induction ixs as [|i ixs IH]; intros js; simpl.
  { split; [by intros [= <-]|by intros ->%Forall2_nil_inv_l]. }
  split.
  - destruct (map_get _ ps) as [[v fl|]|] eqn:Hg; [|done..]. destruct (f _ v) as [j|] eqn:Hf; [|done].
    destruct (clone_elements _ _ _ _) as [rest|] eqn:Hr; [|done]. intros [= <-]. constructor; [eauto|by apply IH].
  - inversion 1 as [|? j ? rest Hj Hrest]; subst. destruct Hj as (v & fl & Hg & Hf). rewrite Hg, Hf. by rewrite (proj2 (IH rest)).
Qed.

Lemma clone_fields_spec f path ps keys fs :
  clone_fields f path ps keys = Ok fs <->
  Forall2 (fun key kj => kj.1 = key /\ key ∉ FORBIDDEN_PUBLIC_KEYS /\
     exists v fl, map_get (StringKey key) ps = Some (Data v fl) /\ f (dot path key) v = Ok kj.2) keys fs.
Proof.
  revert fs. induction keys as [|key keys IH]; intros fs; simpl.
  { split; [by intros [= <-]|by intros ->%Forall2_nil_inv_l]. }
  split.
  - destruct (assertSafePublicKey _ _) eqn:Hs; [|done]. apply assertSafePublicKey_spec in Hs.
    destruct (readDataProperty _ _ _) as [v|] eqn:Hr; [|done]. apply readDataProperty_spec in Hr as [fl Hr].
    destruct (f _ v) as [j|] eqn:Hf; [|done]. destruct (clone_fields _ _ _ _) as [rest|] eqn:Hc; [|done].
    intros [= <-]. constructor; [|by apply IH]. eauto 10.
  - inversion 1 as [|? [k j] ? rest Hj Hrest]; subst. destruct Hj as (Hk & Hs & v & fl & Hg & Hf). simpl in *. subst k.
    destruct (assertSafePublicKey key (dot path key)) as [[]|] eqn:E.
    2: { assert (assertSafePublicKey key (dot path key) = Ok tt) by (by apply assertSafePublicKey_spec). congruence. }
    rewrite (proj2 (readDataProperty_spec ps key (dot path key) v)) by eauto. rewrite Hf. by rewrite (proj2 (IH rest)).
Qed.
(** ** The copy is the tree *)

Lemma clone_prim fuel h path anc p j :
  cloneAndFreezePublicJson object_prototype fuel h path anc (Prim p) = Ok j <-> denotes h (Prim p) j.
Proof.
  assert (forall j, denotes h (Prim p) j -> match p with
    | Null => j = PNull | Boolean b => j = PBoolean b | Text s => j = PText s
    | Number bits => is_finite bits = true /\ j = PNumber bits | _ => False end) as Hinv by (by inversion 1).
  specialize (Hinv j).
  destruct p as [| |b|bits|s|z|n]; destruct fuel; cbn [cloneAndFreezePublicJson]; cbn in Hinv.
  1, 2, 11-14: split; [discriminate|intros H; destruct (Hinv H)].
  5, 6: destruct (is_finite bits) eqn:Hf; split; intros H; try discriminate; try (by destruct (Hinv H));
    [injection H as <-; by constructor|by destruct (Hinv H) as [_ ->]].
  all: split; intros H; [injection H as <-; constructor|by rewrite (Hinv H)].
Qed.

Lemma clone_sound fuel h : heap_wf h -> forall path anc v j,
  cloneAndFreezePublicJson object_prototype fuel h path anc v = Ok j -> denotes h v j.
Proof.
  intros W. induction fuel as [|fuel IH]; intros path anc v j; destruct v as [p|l]; try (by apply clone_prim); simpl; [done|].
  destruct (h !! l) as [o|] eqn:Hl; [|done]. destruct (o_kind o) as [| | | | | | |len w| |proto] eqn:Hk; try done; case_bool_decide; try done.
  - destruct (check_array_keys _ _ _) eqn:Hc; [|done]. apply check_array_keys_spec in Hc.
    destruct (clone_elements _ _ _ _) as [js|] eqn:He; [|done]. intros [= <-]. apply clone_elements_spec in He.
    assert (forall i j, js !! i = Some j -> exists v fl, map_get (StringKey (dec (Z.of_nat i))) (o_props o) = Some (Data v fl) /\
      denotes h v j) as Hall.
    { intros i j Hj. destruct (Forall2_lookup_r _ _ _ _ _ He Hj) as (i' & Hi & v & fl & Hg & Hf).
      apply lookup_seq in Hi as [-> _]. exists v, fl. split; [done|by eapply IH]. }
    eapply den_array; eauto.
    + apply Forall2_length in He. by rewrite length_seq in He.
    + intros i Hi. apply lookup_lt_is_Some_2 in Hi as [j Hj]. destruct (Hall i j Hj) as (v & fl & ? & _). eauto.
    + intros i j v fl Hj Hg. destruct (Hall i j Hj) as (v' & fl' & Hg' & Hd). by simplify_eq.
  - destruct (plain_proto _ _) eqn:Hp; [|done]. destruct (ownEnumerableDataKeys _ _ _) as [keys|] eqn:Hkeys; [|done].
    apply ownEnumerableDataKeys_spec in Hkeys as [Hkeys _].
    destruct (clone_fields _ _ _ _) as [fs|] eqn:Hf; [|done]. intros [= <-]. apply clone_fields_spec in Hf.
    eapply den_object; eauto.
    + replace fs.*1 with keys; [done|]. clear -Hf. induction Hf as [|? ? ? ? (? & _)]; simpl; by f_equal.
    + intros key j v fl Hin Hg. apply list_elem_of_lookup in Hin as [i Hi].
      destruct (Forall2_lookup_r _ _ _ _ _ Hf Hi) as (k & _ & Hk1 & _ & v' & fl' & Hg' & Hfv). simpl in *. simplify_eq.
      by eapply IH.
Qed.

(** The values right below [v]. *)
Definition child (h : heap) (w v : jsval) : Prop :=
  exists l o k fl, v = Ref l /\ h !! l = Some o /\ (k, Data w fl) ∈ o_props o.

Lemma wf_get h l o k d : heap_wf h -> h !! l = Some o -> (k, d) ∈ o_props o -> map_get k (o_props o) = Some d.
Proof. intros W Hl Hin. destruct (heap_wf_lookup _ _ _ W Hl) as (_ & Hn & _). by apply map_get_Some. Qed.

Lemma array_child h l o len k w fl :
  heap_wf h -> h !! l = Some o -> Forall (element_key len) (o_props o) -> (k, Data w fl) ∈ o_props o ->
  exists i, k = StringKey (dec (Z.of_nat i)) /\ (i < Z.to_nat len)%nat.
Proof.
  intros W Hl Hf Hin. rewrite Forall_forall in Hf. destruct (Hf _ Hin) as (i & v & fl' & [= -> -> ->] & _ & Hi & _).
  exists (Z.to_nat i). rewrite Z2Nat.id by lia. split; [done|lia].
Qed.

Lemma object_child (ps : properties) keys k w fl :
  Forall2 public_key ps keys -> (k, Data w fl) ∈ ps -> exists key, k = StringKey key /\ key ∈ keys.
Proof.
  intros H2 Hin. apply list_elem_of_lookup in Hin as [i Hi].
  destruct (Forall2_lookup_l _ _ _ _ _ H2 Hi) as (key & Hk & v & fl' & [= -> _ _] & _).
  exists key. split; [done|]. by eapply list_elem_of_lookup_2.
Qed.

Lemma denotes_acc h v j : heap_wf h -> denotes h v j -> Acc (child h) v.
Proof.
  intros W. induction 1 as [| | | |l o len w js Hl Hk Hps Hlen Hget Hden IH|l o proto fs Hl Hk Hp Hps Hden IH].
  1-4: constructor; intros w (? & ? & ? & ? & E & _); discriminate E.
  - constructor. intros x (l' & o' & k & fl & [= <-] & Ho & Hin). assert (o' = o) as -> by congruence.
    destruct (array_child h l o len k x fl W Hl Hps Hin) as (i & -> & Hi).
    destruct (lookup_lt_is_Some_2 js i) as [j Hj]; [lia|]. eapply IH; [exact Hj|]. by eapply wf_get.
  - constructor. intros x (l' & o' & k & fl & [= <-] & Ho & Hin). assert (o' = o) as -> by congruence.
    destruct (object_child _ _ _ _ _ Hps Hin) as (key & -> & [[key' j] [-> Hj]]%list_elem_of_fmap).
    eapply IH; [exact Hj|]. by eapply wf_get.
Qed.
(** The objects the recursion is inside of are above the value. *)
Definition below (h : heap) (anc : gset loc) (v : jsval) : Prop := forall a, a ∈ anc -> tc (child h) v (Ref a).

Lemma below_child h anc l w : below h anc (Ref l) -> child h w (Ref l) -> below h ({[l]} ∪ anc) w.
Proof.
  intros Hb Hc a [->%elem_of_singleton|Ha]%elem_of_union; [by apply tc_once|]. eapply tc_l; [exact Hc|by apply Hb].
Qed.

Lemma inside_add h anc l o : h !! l = Some o -> inside h anc -> inside h ({[l]} ∪ anc).
Proof. intros Hl Hin x [->%elem_of_singleton|Hx]%elem_of_union; [by eapply lookup_lt_Some|by apply Hin]. Qed.

Lemma enough_add h anc l fuel :
  l ∉ anc -> enough h (size anc) (S fuel) -> enough h (size (({[l]} : gset loc) ∪ anc)) fuel.
Proof. intros Hl. unfold enough. rewrite size_union, size_singleton by set_solver. lia. Qed.

Lemma enough_0 h anc : inside h anc -> ~ enough h (size anc) 0.
Proof. intros Hin. apply size_below in Hin. unfold enough. lia. Qed.

Lemma clone_complete h : heap_wf h -> forall fuel path anc v j,
  inside h anc -> enough h (size anc) fuel -> below h anc v -> denotes h v j ->
  cloneAndFreezePublicJson object_prototype fuel h path anc v = Ok j.
Proof.
  intros W fuel. induction fuel as [|fuel IH]; intros path anc v j Hin Hf Hb Hd; (destruct v as [p|l]; [by apply clone_prim|]).
  { by apply enough_0 in Hf. }
  pose proof (acc_no_loop _ _ (denotes_acc _ _ _ W Hd)) as Hloop.
  assert (l ∉ anc) as Hanc by (intros Ha; by apply Hloop, Hb).
  assert (forall path w fl k o j, h !! l = Some o -> (k, Data w fl) ∈ o_props o -> denotes h w j ->
    cloneAndFreezePublicJson object_prototype fuel h path ({[l]} ∪ anc) w = Ok j) as Hrec.
  { intros path' w fl k o j' Hl Hw Hdw. apply IH; [by eapply inside_add|by apply enough_add| |exact Hdw].
    eapply below_child; [exact Hb|]. by exists l, o, k, fl. }
  inversion Hd as [| | | |l' o len w js Hl Hk Hps Hlen Hget Hden|l' o proto fs Hl Hk Hp Hps Hden]; subst; cbn [cloneAndFreezePublicJson];
    rewrite Hl, Hk, bool_decide_false by exact Hanc.
  - rewrite (proj2 (check_array_keys_spec len (o_props o) path tt)) by exact Hps.
    rewrite (proj2 (clone_elements_spec _ path (o_props o) _ js)); [done|].
    apply Forall2_same_length_lookup_2; [by rewrite length_seq|].
    intros i i' j [-> Hi]%lookup_seq Hj. destruct (Hget i) as (v & fl & Hg); [by eapply lookup_lt_Some|]. exists v, fl.
    split; [exact Hg|]. eapply Hrec; [exact Hl|by apply map_get_Some_elem|by eapply Hden].
  - rewrite Hp. rewrite (proj2 (ownEnumerableDataKeys_spec (o_props o) path None fs.*1)).
    2: { split; [exact Hps|]. apply Forall_true. by intros. }
    rewrite (proj2 (clone_fields_spec _ path (o_props o) fs.*1 fs)); [done|].
    apply Forall2_same_length_lookup_2; [by rewrite length_fmap|].
    intros i key [k j] Hi Hkj. rewrite list_lookup_fmap, Hkj in Hi. simpl in Hi. injection Hi as <-. simpl.
    destruct (Forall2_lookup_r _ _ _ i k Hps) as (p & Hpi & v & fl & -> & _ & Hsafe); [by rewrite list_lookup_fmap, Hkj|].
    apply list_elem_of_lookup_2 in Hpi as Hpin. pose proof (wf_get _ _ _ _ _ W Hl Hpin) as Hg.
    split; [done|]. split; [exact Hsafe|]. exists v, fl. split; [exact Hg|].
    eapply Hrec; [exact Hl|exact Hpin|]. eapply Hden; [|exact Hg]. by eapply list_elem_of_lookup_2.
Qed.

(** ** The copy always answers *)

(** A tree, or a [TypeError]. *)
Definition decided {A} (r : res failure A) : Prop :=
  match r with Ok _ | Throw (TypeError _) => True | _ => False end.

Lemma check_array_keys_decided len ps path : decided (check_array_keys len ps path).
Proof.
  induction ps as [|[k d] ps IH]; [done|]. simpl. destruct k as [key|]; [|done]. case_match; [done|].
  case_match; [done|]. destruct d as [v fl|]; [|done]. by case_match.
Qed.

Lemma own_keys_decided ps path allowed : decided (ownEnumerableDataKeys ps path allowed).
Proof.
  induction ps as [|[k d] ps IH]; [done|]. simpl. destruct k as [key|]; [|done].
  unfold assertSafePublicKey. case_bool_decide; [done|]. case_match; [done|]. destruct d as [v fl|]; [|done].
  destruct (enumerable fl); [|done]. by destruct (ownEnumerableDataKeys ps path allowed) as [|[]].
Qed.

Lemma clone_fields_decided f path ps keys :
  (forall p v k fl, (k, Data v fl) ∈ ps -> decided (f p v)) -> decided (clone_fields f path ps keys).
Proof.
  intros Hf. induction keys as [|key keys IH]; [done|]. simpl. unfold assertSafePublicKey. case_bool_decide; [done|].
  unfold readDataProperty. destruct (map_get _ ps) as [[v fl|]|] eqn:Hg; try done.
  apply map_get_Some_elem in Hg. specialize (Hf (dot path key) v _ fl Hg).
  destruct (f (dot path key) v) as [j|e]; [|by destruct e]. by destruct (clone_fields f path ps keys) as [|[]].
Qed.

Lemma clone_elements_decided f path ps ixs :
  (forall p v k fl, (k, Data v fl) ∈ ps -> decided (f p v)) -> (forall k, (k, Accessor) ∉ ps) ->
  decided (clone_elements f path ps ixs).
Proof.
  intros Hf Ha. induction ixs as [|i ixs IH]; [done|]. simpl.
  destruct (map_get _ ps) as [[v fl|]|] eqn:Hg; [| |done].
  - apply map_get_Some_elem in Hg. specialize (Hf (at_index path (dec (Z.of_nat i))) v _ fl Hg).
    destruct (f _ v) as [j|e]; [|by destruct e]. by destruct (clone_elements f path ps ixs) as [|[]].
  - apply map_get_Some_elem in Hg. by apply Ha in Hg.
Qed.

Lemma props_in h l o k v fl :
  heap_wf h -> h !! l = Some o -> match o_kind o with IMap _ | ISet _ => False | _ => True end ->
  (k, Data v fl) ∈ o_props o -> val_in h v.
Proof.
  intros W Hl Hk Hin. destruct (heap_wf_lookup _ _ _ W Hl) as [Hc _]. rewrite Forall_forall in Hc. apply Hc.
  assert (v ∈ omap (fun p => data_value p.2) (o_props o)) as Hv.
  { apply list_elem_of_omap. by exists (k, Data v fl). }
  unfold children. destruct (o_kind o); set_solver.
Qed.

Lemma clone_decided h : heap_wf h -> forall fuel path anc v,
  inside h anc -> enough h (size anc) fuel -> val_in h v ->
  decided (cloneAndFreezePublicJson object_prototype fuel h path anc v).
Proof.
  intros W fuel. induction fuel as [|fuel IH]; intros path anc v Hin Hf Hv.
  { by apply enough_0 in Hf. }
  destruct v as [p|l]; [destruct p; try done; cbn [cloneAndFreezePublicJson]; by destruct (is_finite bits)|].
  cbn [cloneAndFreezePublicJson]. destruct (h !! l) as [o|] eqn:Hl; [|apply lookup_ge_None in Hl; simpl in Hv; lia].
  destruct (decide (l ∈ anc)) as [Ha|Ha]; [rewrite bool_decide_true by exact Ha; by destruct (o_kind o)|].
  rewrite bool_decide_false by exact Ha.
  assert (match o_kind o with IMap _ | ISet _ => False | _ => True end -> forall p v k fl, (k, Data v fl) ∈ o_props o ->
    decided (cloneAndFreezePublicJson object_prototype fuel h p ({[l]} ∪ anc) v)) as Hrec.
  { intros Hk p v k fl Hp. apply IH; [by eapply inside_add|by apply enough_add|by eapply props_in]. }
  destruct (o_kind o) as [| | | | | | |len w| |proto] eqn:Hk; try done.
  - pose proof (check_array_keys_decided len (o_props o) path) as Hc.
    destruct (check_array_keys _ _ _) as [u|e] eqn:Hck; [|by destruct e]. apply check_array_keys_spec in Hck.
    assert (decided (clone_elements (fun path => cloneAndFreezePublicJson object_prototype fuel h path ({[l]} ∪ anc)) path
      (o_props o) (seq 0 (Z.to_nat len)))) as He.
    { apply clone_elements_decided; [by apply Hrec|]. intros k Hka. rewrite Forall_forall in Hck.
      destruct (Hck _ Hka) as (? & ? & ? & E & _). discriminate E. }
    by destruct (clone_elements _ _ _ _) as [|[]].
  - destruct (plain_proto _ _); [|done]. pose proof (own_keys_decided (o_props o) path None) as Hc.
    destruct (ownEnumerableDataKeys _ _ _) as [keys|e]; [|by destruct e].
    assert (decided (clone_fields (fun path => cloneAndFreezePublicJson object_prototype fuel h path ({[l]} ∪ anc)) path
      (o_props o) keys)) as He by (apply clone_fields_decided; by apply Hrec).
    by destruct (clone_fields _ _ _ _) as [|[]].
Qed.
Lemma clone_at h path v j :
  heap_wf h -> cloneAndFreezePublicJson object_prototype (clone_fuel h) h path ∅ v = Ok j <-> denotes h v j.
Proof.
  intros W. split; [by apply clone_sound|]. apply clone_complete; [exact W|by intros ? ?%elem_of_empty| |by intros ? ?%elem_of_empty].
  unfold enough, clone_fuel. rewrite size_empty. lia.
Qed.

Lemma freezePublicJson_spec h v j : heap_wf h -> freezePublicJson object_prototype h v = Ok j <-> denotes h v j.
Proof. apply clone_at. Qed.

Lemma freezePublicJson_decided h v : heap_wf h -> val_in h v -> decided (freezePublicJson object_prototype h v).
Proof.
  intros W Hv. apply clone_decided; [exact W|by intros ? ?%elem_of_empty| |exact Hv].
  unfold enough, clone_fuel. rewrite size_empty. lia.
Qed.

(** ** Trees on the heap *)

(** The trees that are copies of something. *)
Inductive pub_ok : pub -> Prop :=
| ok_null : pub_ok PNull
| ok_boolean b : pub_ok (PBoolean b)
| ok_text s : pub_ok (PText s)
| ok_number bits : is_finite bits = true -> pub_ok (PNumber bits)
| ok_array l : Z.of_nat (length l) <= MAX_SAFE_INTEGER + 1 -> (forall j, j ∈ l -> pub_ok j) -> pub_ok (PArray l)
| ok_object fs : NoDup fs.*1 -> Forall (fun key => key ∉ FORBIDDEN_PUBLIC_KEYS) fs.*1 ->
    (forall key j, (key, j) ∈ fs -> pub_ok j) -> pub_ok (PObject fs).

Lemma public_keys_names (ps : properties) keys : Forall2 public_key ps keys -> ps.*1 = StringKey <$> keys.
Proof.
  induction 1 as [|p key ps keys Hp _ IH]; [done|]. destruct Hp as (v & fl & -> & _). simpl. by f_equal.
Qed.

Lemma denotes_ok h v j : heap_wf h -> denotes h v j -> pub_ok j.
Proof.
  intros W. induction 1 as [| | | |l o len w js Hl Hk Hps Hlen Hget Hden IH|l o proto fs Hl Hk Hp Hps Hden IH];
    [by constructor..| |].
  - constructor.
    + destruct (length js) as [|n] eqn:En; [unfold MAX_SAFE_INTEGER; lia|]. destruct (Hget n) as (v & fl & Hg); [lia|].
      apply map_get_Some_elem in Hg. rewrite Forall_forall in Hps. destruct (Hps _ Hg) as (i & ? & ? & [= Hi _ _] & _ & Hr & Hm).
      apply dec_inj in Hi; lia.
    + intros j (i & Hi)%list_elem_of_lookup. destruct (Hget i) as (v & fl & Hg); [by eapply lookup_lt_Some|]. by eapply IH.
  - pose proof (public_keys_names _ _ Hps) as Hn. constructor.
    + destruct (heap_wf_lookup _ _ _ W Hl) as (_ & Hnd & _). rewrite Hn in Hnd. by apply NoDup_fmap_1 in Hnd.
    + apply Forall_forall. intros key (i & Hi)%list_elem_of_lookup.
      destruct (Forall2_lookup_r _ _ _ _ _ Hps Hi) as (p & _ & v & fl & _ & _ & Hs). exact Hs.
    + intros key j Hin. assert (key ∈ fs.*1) as (i & Hi)%list_elem_of_lookup by (by apply (list_elem_of_fmap_2 fst) in Hin).
      destruct (Forall2_lookup_r _ _ _ _ _ Hps Hi) as (p & Hp' & v & fl & -> & _).
      apply list_elem_of_lookup_2 in Hp'. eapply IH; [exact Hin|]. by eapply wf_get.
Qed.

Definition grown (h h' : heap) : Prop := h `prefix_of` h' /\ heap_wf h'.

Lemma grown_trans h1 h2 h3 : grown h1 h2 -> grown h2 h3 -> grown h1 h3.
Proof. intros [H1 _] [H2 W]. split; [by etrans|exact W]. Qed.

Definition embeds (h : heap) (j : pub) (r : heap * jsval) : Prop :=
  grown h r.1 /\ val_in r.1 r.2 /\ denotes r.1 r.2 j.

Lemma embed_all_spec {A} (f : heap -> A -> heap * jsval) (g : A -> pub) l h :
  heap_wf h -> (forall x h, x ∈ l -> heap_wf h -> embeds h (g x) (f h x)) ->
  let r := embed_all f h l in
  grown h r.1 /\ Forall2 (fun v x => val_in r.1 v /\ denotes r.1 v (g x)) r.2 l.
Proof.
  intros W Hf. cbv zeta. revert h W. induction l as [|x l IH]; intros h W; simpl; [by split|].
  destruct (f h x) as [h1 v] eqn:Hx. destruct (Hf x h) as (G1 & Hv & Hd); [by left|done|]. rewrite Hx in G1, Hv, Hd. simpl in *.
  destruct (embed_all f h1 l) as [h2 vs] eqn:Hl. destruct (IH ltac:(intros; apply Hf; [by right|done]) h1) as [G2 H2]; [by apply G1|].
  rewrite Hl in G2, H2. simpl in *. split; [by eapply grown_trans|]. constructor; [|exact H2]. destruct G2 as [P2 _].
  split; [|by eapply denotes_prefix]. apply (val_in_mono h1); [by apply prefix_length|exact Hv].
Qed.

Lemma grow_one h o : heap_wf h -> obj_wf (h ++ [o]) o -> grown h (h ++ [o]).
Proof.
  intros W Ho. split; [by eexists|]. apply Forall_app. split; [|by constructor].
  eapply Forall_impl; [exact W|]. intros o' Ho'. eapply obj_wf_mono; [|exact Ho']. rewrite length_app. lia.
Qed.

Lemma elements_names (vs : list jsval) n :
  (imap (fun i => element (n + i)) vs).*1 = (fun i => StringKey (dec (Z.of_nat i))) <$> seq n (length vs).
Proof.
  revert n. induction vs as [|v vs IH]; intros n; [done|]. cbn [imap length seq fmap list_fmap].
  rewrite Nat.add_0_r. f_equal. rewrite <- IH. f_equal. apply imap_ext. intros i x _. simpl. f_equal. lia.
Qed.

Lemma elements_NoDup (vs : list jsval) : NoDup (imap element vs).*1.
Proof.
  change (imap element vs) with (imap (fun i => element (0 + i)) vs). rewrite (elements_names vs 0). apply NoDup_fmap_2_strong; [|apply NoDup_seq].
  intros x y _ _ [= E]. apply dec_inj in E; lia.
Qed.

Lemma embed_array h h' vs l :
  heap_wf h' -> Z.of_nat (length l) <= MAX_SAFE_INTEGER + 1 ->
  Forall2 (fun v j => val_in h' v /\ denotes h' v j) vs l -> grown h h' ->
  embeds h (PArray l) (h' ++ [{| o_kind := IArray (Z.of_nat (length l)) false; o_props := imap element vs |}], Ref (length h')).
Proof.
  intros W Hlen H2 G. set (o := {| o_kind := _; o_props := _ |}). pose proof (Forall2_length _ _ _ H2) as Hvs.
  assert (grown h' (h' ++ [o])) as G'.
  { apply grow_one; [exact W|]. split_and!; [|apply elements_NoDup|exact I]. simpl. constructor; [exact I|].
    apply Forall_forall. intros v Hv. apply list_elem_of_omap in Hv as ([k d] & (i & Hi)%list_elem_of_lookup & Hd).
    simpl in Hi. rewrite list_lookup_imap in Hi. destruct (vs !! i) as [v'|] eqn:Hvi; [|done].
    injection Hi as <- <-. injection Hd as ->.
    destruct (Forall2_lookup_l _ _ _ _ _ H2 Hvi) as (j & _ & Hin & _). apply (val_in_mono h'); [rewrite length_app; lia|exact Hin]. }
  split_and!; simpl; [by eapply grown_trans|rewrite length_app; simpl; lia|].
  assert ((h' ++ [o]) !! length h' = Some o) as Ho by (by rewrite lookup_app_r, Nat.sub_diag by lia).
  assert (forall i v, vs !! i = Some v -> map_get (StringKey (dec (Z.of_nat i))) (o_props o) = Some (Data v frozen_flags)) as Hget.
  { intros i v Hv. apply map_get_Some; [apply elements_NoDup|]. apply (list_elem_of_lookup_2 _ i). simpl.
    by rewrite list_lookup_imap, Hv. }
  eapply den_array; [exact Ho|reflexivity| | | |].
  - apply Forall_forall. intros p (i & Hi)%list_elem_of_lookup. simpl in Hi. rewrite list_lookup_imap in Hi.
    destruct (vs !! i) as [v|] eqn:Hv; [|done]. injection Hi as <-. apply lookup_lt_Some in Hv.
    exists (Z.of_nat i), v, frozen_flags. split_and!; [done|done|lia|lia|lia].
  - lia.
  - intros i Hi. destruct (lookup_lt_is_Some_2 vs i) as [v Hv]; [lia|]. exists v, frozen_flags. by apply Hget.
  - intros i j v fl Hj Hg. destruct (Forall2_lookup_r _ _ _ _ _ H2 Hj) as (v' & Hv & _ & Hd).
    rewrite (Hget i v' Hv) in Hg. injection Hg as <- <-. eapply denotes_prefix; [apply G'|exact Hd].
Qed.
Lemma fields_names (fs : list (jstr * pub)) vs :
  length vs = length fs -> (zip_with field fs.*1 vs).*1 = StringKey <$> fs.*1.
Proof.
  revert vs. induction fs as [|[k j] fs IH]; intros [|v vs] H; [done..|]. simpl. by rewrite IH by (simpl in H; lia).
Qed.

Lemma embed_object h h' vs fs :
  heap_wf h' -> pub_ok (PObject fs) ->
  Forall2 (fun v kj => val_in h' v /\ denotes h' v kj.2) vs fs -> grown h h' ->
  embeds h (PObject fs)
    (h' ++ [{| o_kind := IPlain (Some object_prototype); o_props := zip_with field fs.*1 vs |}], Ref (length h')).
Proof.
  intros W Hok H2 G. set (o := {| o_kind := _; o_props := _ |}). pose proof (Forall2_length _ _ _ H2) as Hvs.
  inversion Hok as [| | | | |? Hn Hs Hj]; subst.
  assert (NoDup (o_props o).*1) as Hnd by (simpl; rewrite fields_names by done; by apply NoDup_fmap_2; [intros ? ? [=]|]).
  assert (forall i key j v, fs !! i = Some (key, j) -> vs !! i = Some v ->
    (o_props o) !! i = Some (StringKey key, Data v frozen_flags)) as Hat.
  { intros i key j v Hi Hv. simpl. rewrite lookup_zip_with, list_lookup_fmap, Hi, Hv. done. }
  assert (grown h' (h' ++ [o])) as G'.
  { apply grow_one; [exact W|]. split_and!; [|exact Hnd|exact I]. simpl.
    apply Forall_forall. intros v Hv. apply list_elem_of_omap in Hv as ([k d] & (i & Hi)%list_elem_of_lookup & Hd).
    simpl in Hi. rewrite lookup_zip_with, list_lookup_fmap in Hi. destruct (fs !! i) as [[key j]|] eqn:Hfi; [|done].
    destruct (vs !! i) as [v'|] eqn:Hvi; [|done]. simpl in Hi. injection Hi as <- <-. injection Hd as ->.
    destruct (Forall2_lookup_l _ _ _ _ _ H2 Hvi) as (? & _ & Hin & _). apply (val_in_mono h'); [rewrite length_app; lia|exact Hin]. }
  split_and!; simpl; [by eapply grown_trans|rewrite length_app; simpl; lia|].
  assert ((h' ++ [o]) !! length h' = Some o) as Ho by (by rewrite lookup_app_r, Nat.sub_diag by lia).
  eapply den_object; [exact Ho|reflexivity|simpl; by rewrite bool_decide_true| |].
  - apply Forall2_same_length_lookup_2.
    { simpl. rewrite length_zip_with, length_fmap, Hvs. lia. }
    intros i p key Hp Hk. rewrite list_lookup_fmap in Hk. destruct (fs !! i) as [[key' j]|] eqn:Hfi; [|done]. injection Hk as <-.
    destruct (Forall2_lookup_r _ _ _ _ _ H2 Hfi) as (v & Hv & _). rewrite (Hat i key' j v Hfi Hv) in Hp. injection Hp as <-.
    exists v, frozen_flags. split; [done|]. split; [done|]. rewrite Forall_forall in Hs. apply Hs.
    apply (list_elem_of_lookup_2 _ i). by rewrite list_lookup_fmap, Hfi.
  - intros key j v fl (i & Hi)%list_elem_of_lookup Hg.
    destruct (Forall2_lookup_r _ _ _ _ _ H2 Hi) as (v' & Hv & _ & Hd).
    assert (map_get (StringKey key) (o_props o) = Some (Data v' frozen_flags)) as E.
    { apply map_get_Some; [exact Hnd|]. eapply list_elem_of_lookup_2, Hat; done. }
    rewrite E in Hg. injection Hg as <- <-. eapply denotes_prefix; [apply G'|exact Hd].
Qed.

(** A copy handed back to the application denotes the tree it is. *)
Lemma embed_spec j : pub_ok j -> forall h, heap_wf h -> embeds h j (embed object_prototype h j).
Proof.
  induction 1 as [|b|s|bits Hb|l Hlen Hok IH|fs Hn Hs Hok IH]; intros h W; cbn [embed];
    try (split_and!; [by split|done|by constructor]).
  - destruct (embed_all _ h l) as [h' vs] eqn:E.
    destruct (embed_all_spec (embed object_prototype) id l h W) as [G H2]; [intros; by apply IH|].
    rewrite E in G, H2. eapply embed_array; [apply G|exact Hlen|exact H2|exact G].
  - destruct (embed_all _ h fs) as [h' vs] eqn:E.
    destruct (embed_all_spec (fun h kj => embed object_prototype h kj.2) snd fs h W) as [G H2].
    { intros [k j] h1 Hin W1. by eapply IH. }
    rewrite E in G, H2. eapply embed_object; [apply G|by constructor|exact H2|exact G].
Qed.
End denotes.
