(* ===== verification/PublishingSpec.v ===== *)
(** * PublishingSpec: what is published.

    A public copy is exactly the tree its value denotes; a projection
    publishes its allowlist and nothing else; every answer of a publisher is
    about one generation of the policy. *)
From stdpp Require Import prelude gmap list strings relations.
From Stdlib Require Import ZArith Lia.
From S2P Require Import Prelude JsString JsMap Decimal Clone CloneProofs Publishing PublishingProofs.

#[local] Opaque is_finite.

Section spec.
Context (object_prototype : loc).
Notation denotes := (denotes object_prototype).

(** ** What a projection makes of a policy *)

(** The view of a policy value: what the projection returns for it denotes
    an object with exactly the allowed keys. *)
Definition public_view (P : Publisher) (h : heap) (policy : jsval) (fs : list (jstr * pub)) : Prop :=
  exists h' v, project_policy P h policy = (h', Ok v) /\ denotes h' v (PObject fs) /\ fs.*1 ≡ₚ allowedProjectionKeys P.

(** The application's functions leave the heap well formed. *)
Record civil (P : Publisher) : Prop := {
  cv_current : forall n h h' r, heap_wf h -> current P n h = (h', r) -> heap_wf h';
  cv_project : forall h v h' r, heap_wf h -> project_policy P h v = (h', r) -> heap_wf h';
  cv_validator : forall h v i h' r, heap_wf h -> validator P h v i = (h', r) -> heap_wf h'
}.

Lemma capture_keys_spec keys : forall seen ks,
  NoDup seen -> capture_keys seen keys = Ok ks -> NoDup (seen ++ ks) /\ keys = (fun k => Prim (Text k)) <$> ks.
Proof.
  induction keys as [|k keys IH]; intros seen ks Hn; simpl; [intros [= <-]; by rewrite app_nil_r|].
  destruct k as [[| | | |key| |]|]; try done. destruct (assertSafePublicKey _ _); [|done].
  destruct (assertProjectionKey _); [|done]. case_bool_decide as Hin; [done|].
  destruct (capture_keys _ _) as [rest|] eqn:E; [|done]. intros [= <-].
  destruct (IH (seen ++ [key]) rest) as [Hr ->]; [|done|by rewrite <- (assoc_L (++)) in Hr].
  apply NoDup_app. split_and!; [done| |apply NoDup_singleton]. set_solver.
Qed.

Lemma publisher_keys o P : createPolicyPublisher o = Ok P -> NoDup (allowedProjectionKeys P).
Proof.
  unfold createPolicyPublisher. destruct (op_current o), (op_project o), (op_validate o), (op_onEvent o); try done;
    (destruct (captureProjectionKeys _) as [keys|] eqn:E; [|done]); intros [= <-]; simpl;
    unfold captureProjectionKeys in E; (destruct (op_keys o); [|done]);
    (apply capture_keys_spec in E as [E _]; [exact E|constructor]).
Qed.

(** The check against the allowlist, for distinct keys. *)
Lemma allowlist_check (keys allowed : list jstr) :
  NoDup keys -> NoDup allowed ->
  negb (bool_decide (length keys = length allowed)) || existsb (fun key => negb (bool_decide (key ∈ allowed))) keys = false
  <-> keys ≡ₚ allowed.
Proof.
  intros Hk Ha. rewrite orb_false_iff, negb_false_iff, bool_decide_eq_true. split.
  - intros [Hl He]. apply submseteq_length_Permutation; [|lia]. apply NoDup_submseteq; [done|].
    intros key Hin. destruct (decide (key ∈ allowed)) as [|Hn]; [done|].
    assert (existsb (fun key => negb (bool_decide (key ∈ allowed))) keys = true); [|congruence].
    apply existsb_exists. exists key. split; [by apply list_elem_of_In|]. by rewrite bool_decide_false.
  - intros Hp. split; [by apply Permutation_length|].
    destruct (existsb _ keys) eqn:E; [|done]. apply existsb_exists in E as (key & Hin%list_elem_of_In & Hn).
    rewrite bool_decide_true in Hn; [done|]. by rewrite <- Hp.
Qed.

Lemma projectSnapshot_spec P s w c :
  NoDup (allowedProjectionKeys P) -> civil P -> heap_wf (objects w) ->
  (projectSnapshot object_prototype P s w).2 = Ok c <->
  c_revision c = s.1 /\ public_view P (objects w) s.2 (c_config c).
Proof.
  intros Ha Hc W. unfold projectSnapshot, public_view. destruct (project_policy P (objects w) s.2) as [h r] eqn:Hp.
  pose proof (cv_project P Hc _ _ _ _ W Hp) as W'. simpl. destruct r as [v|e].
  2: { split; [done|]. intros (_ & h' & v & [=] & _). }
  destruct (freezePublicJson object_prototype h v) as [j|e] eqn:Hf.
  2: { split; [done|]. intros (_ & h' & v' & [= <- <-] & Hd & _). apply freezePublicJson_spec in Hd; [|exact W']. congruence. }
  apply freezePublicJson_spec in Hf as Hd; [|exact W'].
  assert (forall fs, denotes h v (PObject fs) -> j = PObject fs) as Hdet.
  { intros fs Hfs. apply freezePublicJson_spec in Hfs; [|exact W']. congruence. }
  destruct j as [| | | | |fs]; try (split; [done|]; intros (_ & h' & v' & [= <- <-] & Hd' & _); by apply Hdet in Hd').
  assert (NoDup fs.*1) as Hn by (apply denotes_ok in Hd; [by inversion Hd|exact W']).
  pose proof (allowlist_check fs.*1 (allowedProjectionKeys P) Hn Ha) as Hcheck. rewrite length_fmap in Hcheck.
  destruct (negb _ || existsb _ _) eqn:E.
  - split; [done|]. intros (_ & h' & v' & [= <- <-] & Hd' & Hperm). apply Hdet in Hd'. simplify_eq. by apply Hcheck in Hperm.
  - split.
    + intros [= <-]. simpl. split; [done|]. exists h, v. split_and!; [done|done|by apply Hcheck].
    + intros (Hr & h' & v' & [= <- <-] & Hd' & Hperm). apply Hdet in Hd'. destruct c as [cr cc]. simpl in *. by simplify_eq.
Qed.

Lemma projectSnapshot_reads P s w : reads (projectSnapshot object_prototype P s w).1 = reads w.
Proof. unfold projectSnapshot. by destruct (project_policy P (objects w) s.2). Qed.

Lemma observe_reads P e w : reads (observe P e w) = reads w.
Proof. unfold observe. by destruct (onEvent P). Qed.

(** ** One generation *)

(** The answer of the one call of the source, and the heap it leaves. *)
Definition generation (P : Publisher) (w : World) : heap * res jsval answer := current P (reads w) (objects w).

(** The generation has the revision [z] and the policy value [v]. *)
Definition captured (P : Publisher) (w : World) (z : Z) (v : jsval) : Prop :=
  (generation P w).2 = Ok (Snapshot (Prim (BigInt z)) (Some v)) /\ is_uint64 z = true.

Lemma readSnapshot_spec P w :
  objects (readSnapshot P w).1 = (generation P w).1 /\ reads (readSnapshot P w).1 = S (reads w) /\
  (forall z v, (readSnapshot P w).2 = Ok (Some (z, v)) <-> captured P w z v) /\
  ((readSnapshot P w).2 = Ok None <-> (generation P w).2 = Ok NoSnapshot).
Proof.
  unfold readSnapshot, captured, generation. destruct (current P (reads w) (objects w)) as [h a]. simpl. split_and!; [done|done| |].
  - intros z v. destruct a as [[| |revision value]|e]; try (split; [done|by intros [[=]]]). simpl.
    destruct (assertUint64Revision revision) as [y|e] eqn:Hr.
    + apply assertUint64Revision_spec in Hr as [-> Hy]. destruct value as [u|]; [|split; [done|by intros [[=]]]].
      split; [intros [= <- <-]; done|]. by intros [[= -> ->] _].
    + split; [done|]. intros [[= -> ->] Hz].
      assert (assertUint64Revision (Prim (BigInt z)) = Ok z) by (by apply assertUint64Revision_spec). congruence.
  - destruct a as [[| |revision value]|e]; try (by split). simpl. destruct (assertUint64Revision revision); [|by split].
    destruct value; by split.
Qed.

(** What an operation that starts with [readSnapshot] does, by the answer. *)
Lemma snapshot_cases P w :
  (exists z v, readSnapshot P w = ((readSnapshot P w).1, Ok (Some (z, v))) /\ captured P w z v) \/
  (readSnapshot P w = ((readSnapshot P w).1, Ok None) /\ (generation P w).2 = Ok NoSnapshot) \/
  (exists e, readSnapshot P w = ((readSnapshot P w).1, Throw e) /\ (generation P w).2 <> Ok NoSnapshot /\
     forall z v, ~ captured P w z v).
Proof.
  destruct (readSnapshot_spec P w) as (_ & _ & Hs & Hn). destruct (readSnapshot P w) as [w' [[[z v]|]|e]]; simpl in *.
  - left. exists z, v. split; [done|]. by apply Hs.
  - right. left. split; [done|]. by apply Hn.
  - right. right. exists e. split_and!; [done|by rewrite <- Hn|]. intros z v. by rewrite <- Hs.
Qed.

Lemma captured_unique P w z v z' v' : captured P w z v -> captured P w z' v' -> z' = z /\ v' = v.
Proof. intros [H _] [H' _]. rewrite H in H'. by simplify_eq. Qed.

Section answers.
Context (P : Publisher) (w : World).
Context (Hkeys : NoDup (allowedProjectionKeys P)) (Hcivil : civil P) (W : heap_wf (objects w)).

Lemma generation_wf : heap_wf (objects (readSnapshot P w).1).
Proof using Hcivil W.
  destruct (readSnapshot_spec P w) as (-> & _). unfold generation.
  destruct (current P (reads w) (objects w)) as [h a] eqn:E. by eapply (cv_current P Hcivil).
Qed.

(** The view of a policy value in the heap the source left. *)
Abbreviation view v fs := (public_view P (generation P w).1 v fs).

Lemma project_generation z v c :
  (projectSnapshot object_prototype P (z, v) (readSnapshot P w).1).2 = Ok c <-> c_revision c = z /\ view v (c_config c).
Proof using Hkeys Hcivil W.
  rewrite projectSnapshot_spec by auto using generation_wf. by destruct (readSnapshot_spec P w) as (-> & _).
Qed.

Lemma wire_generation z v c :
  is_uint64 z = true ->
  (project_wire object_prototype P (z, v) (readSnapshot P w).1).2 = Ok c <->
  w_revision c = dec z /\ view v (w_config c).
Proof using Hkeys Hcivil W.
  intros Hz. unfold project_wire. pose proof (project_generation z v) as Hp.
  destruct (projectSnapshot _ _ _ _) as [w' [d|e]]; simpl in *.
  - destruct (proj1 (Hp d) eq_refl) as [Hr Hv]. unfold toWire. rewrite Hr, formatRevision_Ok by done. split; [by intros [= <-]|].
    destruct c as [cr cc]. simpl. intros [-> Hc]. specialize (Hp {| c_revision := z; c_config := cc |}). simpl in Hp.
    pose proof (proj2 Hp (conj eq_refl Hc)) as E. by injection E as ->.
  - split; [done|]. intros [_ Hc]. specialize (Hp {| c_revision := z; c_config := w_config c |}). simpl in Hp.
    pose proof (proj2 Hp (conj eq_refl Hc)) as E. discriminate E.
Qed.

Lemma project_reads s : reads (projectSnapshot object_prototype P s (readSnapshot P w).1).1 = S (reads w).
Proof using. rewrite projectSnapshot_reads. by destruct (readSnapshot_spec P w) as (_ & -> & _). Qed.

Lemma read_spec c :
  reads (read object_prototype P w).1 = S (reads w) /\
  ((read object_prototype P w).2 = Ok (Some c) <->
     exists v, captured P w (c_revision c) v /\ view v (c_config c)) /\
  ((read object_prototype P w).2 = Ok None <-> (generation P w).2 = Ok NoSnapshot).
Proof using Hkeys Hcivil W.
  unfold read. destruct (readSnapshot_spec P w) as (_ & Hr & _).
  destruct (snapshot_cases P w) as [(z & v & -> & Hcap)|[[-> Hn]|(e & -> & Hn & Hc)]].
  - assert ((generation P w).2 <> Ok NoSnapshot) as Hns by (by destruct Hcap as [-> _]).
    pose proof (project_generation z v) as Hp. pose proof (project_reads (z, v)) as Hpr.
    assert (forall c, (exists v, captured P w (c_revision c) v /\ view v (c_config c)) ->
      (projectSnapshot object_prototype P (z, v) (readSnapshot P w).1).2 = Ok c) as Hback.
    { intros d (v' & Hcap' & Hv). destruct (captured_unique _ _ _ _ _ _ Hcap Hcap') as [E ->]. by apply Hp. }
    specialize (Hback c). destruct (projectSnapshot _ _ _ _) as [w' [d|e]]; simpl in *.
    + destruct (proj1 (Hp d) eq_refl) as [Hd Hv]. rewrite (formatRevision_Ok z) by apply Hcap. simpl.
      rewrite observe_reads. split_and!; [done| |by split].
      split; [intros [= <-]; exists v; by rewrite Hd|]. intros H. specialize (Hback H). by injection Hback as ->.
    + split_and!; [done| |by split]. split; [done|]. intros H. by specialize (Hback H).
  - simpl. rewrite observe_reads. split_and!; [done| |by split]. split; [done|]. intros (v & [H _] & _). congruence.
  - simpl. split_and!; [done| |by split]. split; [done|]. intros (v & H & _). by apply Hc in H.
Qed.

Lemma readWire_spec c :
  reads (readWire object_prototype P w).1 = S (reads w) /\
  ((readWire object_prototype P w).2 = Ok (Some c) <->
     exists z v, captured P w z v /\ w_revision c = dec z /\ view v (w_config c)).
Proof using Hkeys Hcivil W.
  unfold readWire. destruct (readSnapshot_spec P w) as (_ & Hr & _).
  destruct (snapshot_cases P w) as [(z & v & -> & Hcap)|[[-> Hn]|(e & -> & Hn & Hc)]].
  - pose proof (wire_generation z v) as Hp. pose proof (project_reads (z, v)) as Hpr.
    assert ((exists z v, captured P w z v /\ w_revision c = dec z /\ view v (w_config c)) ->
      (project_wire object_prototype P (z, v) (readSnapshot P w).1).2 = Ok c) as Hback.
    { intros (z' & v' & Hcap' & Hv). destruct (captured_unique _ _ _ _ _ _ Hcap Hcap') as [-> ->]. apply Hp; [apply Hcap|done]. }
    assert (reads (project_wire object_prototype P (z, v) (readSnapshot P w).1).1 = S (reads w)) as Hpw.
    { unfold project_wire. by destruct (projectSnapshot _ _ _ _). }
    destruct (project_wire _ _ _ _) as [w' [d|e]]; simpl in *.
    + rewrite observe_reads. split; [done|]. split; [|intros H; specialize (Hback H); by injection Hback as ->].
      intros [= ->]. exists z, v. split; [done|]. apply Hp; [apply Hcap|done].
    + split; [done|]. split; [done|]. intros H. by specialize (Hback H).
  - simpl. rewrite observe_reads. split; [done|]. split; [done|]. intros (z & v & [H _] & _). congruence.
  - simpl. split; [done|]. split; [done|]. intros (z & v & H & _). by apply Hc in H.
Qed.

(** The client named the revision, as a bigint or in canonical decimal. *)
Definition names (clientRevision : jsval) (z : Z) : Prop :=
  clientRevision = Prim (BigInt z) \/ clientRevision = Prim (Text (dec z)).

(** What each result of [validate] says about the generation. *)
Definition justified (clientRevision input : jsval) (r : PolicyValidationResult) : Prop :=
  match r with
  | success revision => exists z v h,
      captured P w z v /\ names clientRevision z /\ revision = dec z /\
      validator P (generation P w).1 v input = (h, Ok Valid)
  | validation_failed revision errors => exists z v h e,
      captured P w z v /\ names clientRevision z /\ revision = dec z /\
      validator P (generation P w).1 v input = (h, Ok (Invalid (Some e))) /\ denotes h e errors
  | policy_changed c => exists z v,
      captured P w z v /\ ~ names clientRevision z /\ w_revision c = dec z /\ view v (w_config c)
  | unavailable => (generation P w).2 = Ok NoSnapshot
  end.

Lemma decide_reads s input w' : reads (decide_input object_prototype P s input w').1 = reads w'.
Proof using.
  unfold decide_input. destruct (validator P _ _ _) as [h [[| |[e|]]|e]]; try done.
  - destruct (formatRevision _); [|done]. simpl. by rewrite observe_reads.
  - destruct (formatRevision _); [|done]. destruct (freezePublicJson _ _ _); [|done]. simpl. by rewrite observe_reads.
Qed.

Lemma decide_spec z v input r :
  is_uint64 z = true ->
  (decide_input object_prototype P (z, v) input (readSnapshot P w).1).2 = Ok r <->
  exists h d, validator P (generation P w).1 v input = (h, Ok d) /\
    match r, d with
    | success revision, Valid => revision = dec z
    | validation_failed revision errors, Invalid (Some e) => revision = dec z /\ denotes h e errors
    | _, _ => False
    end.
Proof using Hcivil W.
  intros Hz. unfold decide_input. destruct (readSnapshot_spec P w) as (Ho & _). pose proof generation_wf as W'. rewrite Ho in *.
  destruct (validator P _ _ _) as [h x] eqn:Hv. pose proof (cv_validator P Hcivil _ _ _ _ _ W' Hv) as W''. simpl.
  destruct x as [d|e]; [|split; [done|by intros (? & ? & [=] & _)]]. rewrite formatRevision_Ok by done.
  destruct d as [| |[e|]].
  - split; [done|]. intros (h' & d & [= <- <-] & Hr). by destruct r.
  - split; [intros [= <-]; by exists h, Valid|]. intros (h' & d & [= <- <-] & Hr). destruct r; try done. by subst.
  - destruct (freezePublicJson object_prototype h e) as [j|x] eqn:Hf.
    + apply freezePublicJson_spec in Hf as Hd; [|done]. split; [intros [= <-]; by exists h, (Invalid (Some e))|].
      intros (h' & d & [= <- <-] & Hr). destruct r; try done. destruct Hr as [-> Hd'].
      apply freezePublicJson_spec in Hd'; [|done]. simpl. congruence.
    + split; [done|]. intros (h' & d & [= <- <-] & Hr). destruct r; try done. destruct Hr as [_ Hd'].
      apply freezePublicJson_spec in Hd'; [|done]. simpl. congruence.
  - split; [done|]. intros (h' & d & [= <- <-] & Hr). by destruct r.
Qed.

Lemma validate_spec clientRevision input r :
  reads (validate object_prototype P clientRevision input w).1 = S (reads w) /\
  ((validate object_prototype P clientRevision input w).2 = Ok r <-> justified clientRevision input r).
Proof using Hkeys Hcivil W.
  unfold validate. destruct (readSnapshot_spec P w) as (_ & Hr & _).
  destruct (snapshot_cases P w) as [(z & v & -> & Hcap)|[[-> Hn]|(e & -> & Hn & Hc)]].
  - assert (forall z' v', captured P w z' v' -> z' = z /\ v' = v) as Huniq by (intros; by eapply captured_unique).
    assert ((generation P w).2 <> Ok NoSnapshot) as Hns by (by destruct Hcap as [-> _]).
    pose proof (revisionEquals_spec clientRevision z (proj2 Hcap)) as Hnames. simpl.
    destruct (revisionEquals clientRevision z); simpl.
    + split; [by rewrite decide_reads|]. rewrite decide_spec by apply Hcap. apply proj1 in Hnames. specialize (Hnames eq_refl).
      split.
      * intros (h & d & Hv & Hd). destruct r; try done; destruct d as [| |[e|]]; try done; simpl.
        -- by exists z, v, h.
        -- destruct Hd as [-> Hd]. by exists z, v, h, e.
      * destruct r; simpl; try done.
        -- intros (z' & v' & h & Hcap' & _ & -> & Hv). destruct (Huniq _ _ Hcap') as [-> ->]. by exists h, Valid.
        -- intros (z' & v' & h & e & Hcap' & _ & -> & Hv & Hd). destruct (Huniq _ _ Hcap') as [-> ->]. by exists h, (Invalid (Some e)).
        -- intros (z' & v' & Hcap' & Hnn & _). destruct (Huniq _ _ Hcap') as [-> ->]. by destruct Hnn.
    + assert (~ names clientRevision z) as Hnn by (intros Hx; by apply Hnames in Hx).
      pose proof (wire_generation z v) as Hp.
      assert (reads (project_wire object_prototype P (z, v) (readSnapshot P w).1).1 = S (reads w)) as Hpw.
      { unfold project_wire. pose proof (project_reads (z, v)). by destruct (projectSnapshot _ _ _ _). }
      assert (forall c, justified clientRevision input (policy_changed c) ->
        (project_wire object_prototype P (z, v) (readSnapshot P w).1).2 = Ok c) as Hback.
      { intros c (z' & v' & Hcap' & _ & Hv). destruct (Huniq _ _ Hcap') as [-> ->]. apply Hp; [apply Hcap|done]. }
      assert (match r with policy_changed _ => False | _ => True end -> ~ justified clientRevision input r) as Hother.
      { destruct r; simpl; try done.
        - intros _ (z' & v' & h & Hcap' & Hx & _). destruct (Huniq _ _ Hcap') as [-> _]. done.
        - intros _ (z' & v' & h & e & Hcap' & Hx & _). destruct (Huniq _ _ Hcap') as [-> _]. done. }
      destruct (project_wire _ _ _ _) as [w' [c|e]]; simpl in *.
      * rewrite (formatRevision_Ok z) by apply Hcap. simpl. rewrite observe_reads. split; [done|]. split.
        -- intros [= <-]. exists z, v. split_and!; [done|done|apply Hp; [apply Hcap|done]..].
        -- intros H. destruct r as [| |c'|]; try (by destruct Hother). specialize (Hback _ H). by injection Hback as ->.
      * split; [done|]. split; [done|]. intros H. destruct r as [| |c'|]; try (by destruct Hother).
        specialize (Hback _ H). done.
  - simpl. rewrite observe_reads. split; [done|]. split; [by intros [= <-]|].
    destruct r; simpl; try done; [intros (z & v & ? & [H _] & _)|intros (z & v & ? & ? & [H _] & _)|intros (z & v & [H _] & _)]; congruence.
  - simpl. split; [done|]. split; [done|].
    destruct r; simpl; [intros (z & v & ? & H & _)|intros (z & v & ? & ? & H & _)|intros (z & v & H & _)|done]; by apply Hc in H.
Qed.

(** The ETag of the active revision. *)
Lemma etag_spec t :
  reads (etag P (Prim Undefined) w).1 = S (reads w) /\
  ((etag P (Prim Undefined) w).2 = Ok (Some t) <->
     exists z v, captured P w z v /\ t = 34 :: js "kms-public-config-" ++ dec z ++ [34]).
Proof using.
  unfold etag. destruct (readSnapshot_spec P w) as (_ & Hr & _).
  destruct (snapshot_cases P w) as [(z & v & -> & Hcap)|[[-> Hn]|(e & -> & Hn & Hc)]]; simpl fst; simpl snd.
  - split; [done|]. unfold formatPublicConfigEtag. rewrite formatRevision_Ok by apply Hcap.
    split; [intros H; injection H as <-; by exists z, v|]. intros (z' & v' & Hcap' & ->).
    by destruct (captured_unique _ _ _ _ _ _ Hcap Hcap') as [-> _].
  - split; [done|]. split; [done|]. intros (z & v & [H _] & _). congruence.
  - split; [done|]. split; [done|]. intros (z & v & H & _). by apply Hc in H.
Qed.
End answers.
End spec.

(** ** Allowlists *)

Section projections.
Context (object_prototype : loc) (call : loc -> heap -> jsval -> heap * res jsval jsval).
Context (Hcall : forall l h v h' r, heap_wf h -> call l h v = (h', r) -> heap_wf h').

(** The selectors, called one after the other, answer these trees. *)
Inductive selected (policy : jsval) : heap -> list (jstr * loc) -> list (jstr * pub) -> Prop :=
| sel_nil h : selected policy h [] []
| sel_cons h h' key l v j sels fs :
    call l h policy = (h', Ok v) -> denotes object_prototype h' v j -> selected policy h' sels fs ->
    selected policy h ((key, l) :: sels) ((key, j) :: fs).

Lemma selected_keys policy h sels fs : selected policy h sels fs -> fs.*1 = sels.*1.
Proof. induction 1; simpl; [done|by f_equal]. Qed.

Lemma selected_ok policy h sels fs : heap_wf h -> selected policy h sels fs -> forall key j, (key, j) ∈ fs -> pub_ok j.
Proof using Hcall.
  intros W H. revert W. induction H as [|h h' key l v j sels fs Hc Hd _ IH]; intros W k x Hin; [by apply elem_of_nil in Hin|].
  assert (heap_wf h') as W' by (by eapply Hcall). apply elem_of_cons in Hin as [[= -> ->]|Hin]; [by eapply denotes_ok|].
  by eapply IH.
Qed.

Lemma project_fields_spec policy sels h fs :
  heap_wf h ->
  (exists h', project_fields object_prototype call h sels policy = (h', Ok fs) /\ heap_wf h') <->
  selected policy h sels fs.
Proof using Hcall.
  revert h fs. induction sels as [|[key l] sels IH]; intros h fs W; cbn [project_fields].
  { split; [intros (h' & [= <- <-] & _); constructor|]. inversion 1; subst. by exists h. }
  destruct (call l h policy) as [h1 [v|e]] eqn:Hc; [|split; [by intros (? & ? & _)|inversion 1; congruence]].
  pose proof (Hcall _ _ _ _ _ W Hc) as W1.
  destruct (cloneAndFreezePublicJson _ _ _ _ _ _) as [j|e] eqn:Hj.
  2: { split; [by intros (? & ? & _)|]. inversion 1 as [|? ? ? ? ? ? ? ? Hc' Hd]; subst. rewrite Hc in Hc'. simplify_eq.
       apply (clone_at _ _ (dot (js "$") key)) in Hd; [congruence|exact W1]. }
  apply clone_at in Hj as Hd; [|exact W1]. split.
  - intros (h' & He & W'). destruct (project_fields _ _ h1 sels policy) as [h2 [fs'|e]] eqn:Hp; [|done]. injection He as <- <-.
    econstructor; [exact Hc|exact Hd|]. apply IH; [exact W1|]. by exists h2.
  - inversion 1 as [|? ? ? ? ? ? ? fs' Hc' Hd' Hs]; subst. rewrite Hc in Hc'. simplify_eq.
    apply IH in Hs as (h3 & -> & W'); [|exact W1]. exists h3. split; [|exact W'].
    apply (clone_at _ _ (dot (js "$") key)) in Hd'; [|exact W1]. congruence.
Qed.

Lemma capture_selectors_names h ps keys sels :
  capture_selectors h ps keys = Ok sels -> sels.*1 = keys /\ Forall (fun key => key ∉ FORBIDDEN_PUBLIC_KEYS /\ key <> js "revision") keys.
Proof.
  revert sels. induction keys as [|key keys IH]; intros sels; simpl; [intros [= <-]; done|].
  destruct (assertSafePublicKey _ _) eqn:Hs; [|done]. apply assertSafePublicKey_spec in Hs.
  unfold assertProjectionKey. case_bool_decide; [done|]. destruct (readDataProperty _ _ _); [|done].
  destruct (function_at _ _); [|done]. destruct (capture_selectors _ _ _) as [rest|]; [|done]. intros [= <-].
  destruct (IH rest eq_refl) as [<- ?]. simpl. split; [done|]. by constructor.
Qed.

Lemma captureProjectionMap_names h allowlist sels :
  heap_wf h -> captureProjectionMap object_prototype h allowlist = Ok sels ->
  NoDup sels.*1 /\ Forall (fun key => key ∉ FORBIDDEN_PUBLIC_KEYS /\ key <> js "revision") sels.*1 /\
  exists ps, plain_object object_prototype h allowlist = Some ps /\ ps.*1 = StringKey <$> sels.*1.
Proof.
  intros W. unfold captureProjectionMap. destruct (plain_object _ h allowlist) as [ps|] eqn:Hp; [|done].
  destruct (ownEnumerableDataKeys _ _ _) as [keys|] eqn:Hk; [|done]. apply ownEnumerableDataKeys_spec in Hk as [Hk _].
  intros Hc. destruct (capture_selectors_names _ _ _ _ Hc) as [-> Hf].
  pose proof (public_keys_names _ _ Hk) as Hn. split_and!; [|exact Hf|by exists ps].
  assert (NoDup ps.*1) as Hnd.
  { unfold plain_object in Hp. destruct allowlist as [|l]; [done|]. destruct (h !! l) as [o|] eqn:Hl; [|done].
    destruct (o_kind o); try done. destruct (plain_proto _ _); [|done]. injection Hp as <-. by apply (heap_wf_lookup _ _ _ W Hl). }
  rewrite Hn in Hnd. by apply NoDup_fmap_1 in Hnd.
Qed.

Lemma capture_keys_text seen ks :
  NoDup (seen ++ ks) -> Forall (fun key => key ∉ FORBIDDEN_PUBLIC_KEYS /\ key <> js "revision") ks ->
  capture_keys seen ((fun k => Prim (Text k)) <$> ks) = Ok ks.
Proof.
  revert seen. induction ks as [|key ks IH]; intros seen Hn Hf; [done|]. apply Forall_cons in Hf as [[Hs Hr] Hf].
  cbn [fmap list_fmap capture_keys].
  assert (assertSafePublicKey key (js "public projection key " ++ key) = Ok tt) as -> by (by apply assertSafePublicKey_spec).
  unfold assertProjectionKey. rewrite bool_decide_false by done.
  rewrite bool_decide_false. 2: { apply NoDup_app in Hn as (_ & Hd & _). intros Hin. apply (Hd key Hin). by left. }
  rewrite IH; [done| |exact Hf]. by rewrite <- (assoc_L (++)).
Qed.

Lemma project_fields_wf sels policy h h' r :
  heap_wf h -> project_fields object_prototype call h sels policy = (h', r) -> heap_wf h'.
Proof using Hcall.
  revert h h' r. induction sels as [|[key l] sels IH]; intros h h' r W; cbn [project_fields]; [by intros [= <- _]|].
  destruct (call l h policy) as [h2 x] eqn:Hcl. apply Hcall in Hcl; [|exact W]. destruct x as [v|e]; [|by intros [= <- _]].
  destruct (cloneAndFreezePublicJson _ _ _ _ _ _); [|by intros [= <- _]].
  destruct (project_fields _ _ h2 sels policy) as [h3 x] eqn:E. apply IH in E; [|exact Hcl]. destruct x; by intros [= <- _].
Qed.

(** The object a projection builds, read back. *)
Lemma embed_selected policy h h1 sels fs :
  heap_wf h -> heap_wf h1 -> selected policy h sels fs -> NoDup sels.*1 ->
  Forall (fun key => key ∉ FORBIDDEN_PUBLIC_KEYS /\ key <> js "revision") sels.*1 ->
  embeds object_prototype h1 (PObject fs) (embed object_prototype h1 (PObject fs)).
Proof using Hcall.
  intros W W1 Hsel Hn Hf. apply embed_spec; [|exact W1].
  constructor; rewrite ?(selected_keys _ _ _ _ Hsel); [exact Hn| |exact (selected_ok policy h sels fs W Hsel)].
  eapply Forall_impl; [exact Hf|]. by intros ? [? _].
Qed.

(** A projection from an allowlist makes a publisher, whose view is what the
    selectors answer. *)
Lemma projection_view h0 allowlist p o P policy h fs :
  heap_wf h0 -> createPublicProjection object_prototype call h0 allowlist = Ok p ->
  op_project o = Hook (p_project p) -> op_keys o = p_keys p -> createPolicyPublisher o = Ok P -> heap_wf h ->
  exists sels, captureProjectionMap object_prototype h0 allowlist = Ok sels /\ allowedProjectionKeys P = sels.*1 /\
    (public_view object_prototype P h policy fs <-> selected policy h sels fs).
Proof using Hcall.
  intros W0 Hcreate Hproj Hkeys HP W. unfold createPublicProjection in Hcreate.
  destruct (captureProjectionMap object_prototype h0 allowlist) as [sels|] eqn:Hc; [|done]. injection Hcreate as <-.
  destruct (captureProjectionMap_names _ _ _ W0 Hc) as (Hn & Hf & _). exists sels. split; [done|].
  assert (allowedProjectionKeys P = sels.*1 /\ project_policy P = project object_prototype call sels) as [Ha Hpp].
  { unfold createPolicyPublisher in HP. rewrite Hproj, Hkeys in HP. cbn [p_keys p_project captureProjectionKeys] in HP.
    assert (capture_keys [] ((fun s => Prim (Text s.1)) <$> sels) = Ok sels.*1) as E.
    { rewrite <- (capture_keys_text [] sels.*1 Hn Hf). by rewrite <- list_fmap_compose. }
    rewrite E in HP. by destruct (op_current o), (op_validate o), (op_onEvent o); simplify_eq. }
  split; [exact Ha|]. unfold public_view. rewrite Ha, Hpp. unfold project.
  pose proof (project_fields_spec policy sels h) as Hspec. split.
  - intros (h' & v & He & Hd & _). destruct (project_fields _ _ h sels policy) as [h1 [fs1|e]] eqn:Hpf; [|done].
    pose proof (project_fields_wf _ _ _ _ _ W Hpf) as W1.
    assert (selected policy h sels fs1) as Hsel by (apply Hspec; [exact W|by exists h1]).
    destruct (embed_selected policy h h1 sels fs1 W W1 Hsel Hn Hf) as ([_ W2] & _ & Hd1).
    destruct (embed object_prototype h1 (PObject fs1)) as [h2 v2]. injection He as <- <-.
    apply freezePublicJson_spec in Hd; [|exact W2]. apply freezePublicJson_spec in Hd1; [|exact W2]. simpl in Hd1.
    assert (fs = fs1) as -> by congruence. exact Hsel.
  - intros Hsel. pose proof (selected_keys _ _ _ _ Hsel) as Hk. apply Hspec in Hsel as Hex; [|exact W].
    destruct Hex as (h1 & -> & W1).
    destruct (embed_selected policy h h1 sels fs W W1 Hsel Hn Hf) as (_ & _ & Hd1).
    destruct (embed object_prototype h1 (PObject fs)) as [h2 v2]. exists h2, v2. split_and!; [done|exact Hd1|]. by rewrite Hk.
Qed.
(** Such a publisher is civil when the other functions are. *)
Lemma projection_civil h0 allowlist p o P :
  heap_wf h0 -> createPublicProjection object_prototype call h0 allowlist = Ok p ->
  op_project o = Hook (p_project p) -> createPolicyPublisher o = Ok P ->
  (forall n h h' r, heap_wf h -> current P n h = (h', r) -> heap_wf h') ->
  (forall h v i h' r, heap_wf h -> validator P h v i = (h', r) -> heap_wf h') -> civil P.
Proof using Hcall.
  intros W0 Hcreate Hproj HP Hcur Hval. split; [exact Hcur| |exact Hval].
  unfold createPublicProjection in Hcreate.
  destruct (captureProjectionMap object_prototype h0 allowlist) as [sels|] eqn:Hc; [|done]. injection Hcreate as <-.
  destruct (captureProjectionMap_names _ _ _ W0 Hc) as (Hn & Hf & _).
  assert (project_policy P = project object_prototype call sels) as ->.
  { unfold createPolicyPublisher in HP. rewrite Hproj in HP.
    destruct (op_current o), (op_validate o), (op_onEvent o), (captureProjectionKeys (op_keys o)); by simplify_eq. }
  intros h v h' r W. unfold project. destruct (project_fields _ _ h sels v) as [h1 x] eqn:Hpf.
  pose proof (project_fields_wf _ _ _ _ _ W Hpf) as W1. destruct x as [fs|e]; [|by intros [= <- _]].
  assert (selected v h sels fs) as Hsel by (apply project_fields_spec; [exact W|by exists h1]).
  destruct (embed_selected v h h1 sels fs W W1 Hsel Hn Hf) as ([_ W2] & _).
  destruct (embed _ h1 (PObject fs)) as [h2 v2]. by intros [= <- _].
Qed.
End projections.

(** ** Wire objects *)

Section wire.
Context (object_prototype : loc).

Lemma plain_object_Some h v ps :
  plain_object object_prototype h v = Some ps <->
  exists l o proto, v = Ref l /\ h !! l = Some o /\ o_kind o = IPlain proto /\
    plain_proto object_prototype proto = true /\ o_props o = ps.
Proof.
  unfold plain_object. split.
  - destruct v as [|l]; [done|]. destruct (h !! l) as [o|] eqn:Hl; [|done]. destruct (o_kind o) as [| | | | | | | | |proto] eqn:Hk; try done.
    destruct (plain_proto _ proto) eqn:Hp; [|done]. intros [= <-]. by exists l, o, proto.
  - intros (l & o & proto & -> & -> & -> & -> & <-). done.
Qed.

Lemma two_keys (keys : list jstr) a b :
  a <> b -> NoDup keys -> Forall (fun key => key ∈ [a; b]) keys ->
  negb (bool_decide (length keys = 2%nat)) || negb (bool_decide (a ∈ keys)) || negb (bool_decide (b ∈ keys)) = false ->
  keys ≡ₚ [a; b].
Proof.
  intros Hab Hn Hf. rewrite !orb_false_iff, !negb_false_iff, !bool_decide_eq_true. intros [[Hl _] _].
  apply submseteq_length_Permutation; [|simpl; lia]. apply NoDup_submseteq; [exact Hn|]. by apply Forall_forall.
Qed.

(** The tree of a wire object. *)
Definition wire_tree (z : Z) (config : list (jstr * pub)) (fs : list (jstr * pub)) : Prop :=
  fs ≡ₚ [(js "revision", PText (dec z)); (js "config", PObject config)].

Lemma normalize_sound h v valid c :
  heap_wf h -> normalizePublicConfigWire object_prototype h v valid = Ok c ->
  exists z fs, is_uint64 z = true /\ w_revision c = dec z /\ denotes object_prototype h v (PObject fs) /\
    wire_tree z (w_config c) fs /\ match valid with Some f => f (w_config c) = true | None => True end.
Proof.
  intros W. unfold normalizePublicConfigWire. destruct (plain_object _ h v) as [ps|] eqn:Hp; [|done].
  apply plain_object_Some in Hp as (l & o & proto & -> & Hl & Hk & Hpp & <-).
  destruct (ownEnumerableDataKeys _ _ _) as [keys|] eqn:Hkeys; [|done].
  apply ownEnumerableDataKeys_spec in Hkeys as [Hkeys Hal]. destruct (_ || _) eqn:Htwo; [done|].
  assert (NoDup keys) as Hn.
  { destruct (heap_wf_lookup _ _ _ W Hl) as (_ & Hnd & _). rewrite (public_keys_names _ _ Hkeys) in Hnd. by apply NoDup_fmap_1 in Hnd. }
  apply two_keys in Htwo; [|done|exact Hn|exact Hal].
  destruct (readDataProperty _ (js "revision") _) as [rv|] eqn:Hrv; [|done]. apply readDataProperty_spec in Hrv as [fl1 Hrv].
  destruct (parseRevision rv) as [z|] eqn:Hz; [|done]. apply parseRevision_spec in Hz as [-> Hz]. rewrite formatRevision_Ok by done.
  destruct (readDataProperty _ (js "config") _) as [cv|] eqn:Hcv; [|done]. apply readDataProperty_spec in Hcv as [fl2 Hcv].
  destruct (cloneAndFreezePublicJson _ _ _ _ _ _) as [j|] eqn:Hj; [|done]. apply clone_at in Hj; [|exact W].
  destruct j as [| | | | |cfg]; try done. intros Hvalid.
  assert (c = {| w_revision := dec z; w_config := cfg |} /\ match valid with Some f => f cfg = true | None => True end) as [-> Hv].
  { destruct valid as [f|]; [destruct (f cfg) eqn:Hf|]; by simplify_eq. }
  exists z, ((fun key => (key, if bool_decide (key = js "revision") then PText (dec z) else PObject cfg)) <$> keys).
  split_and!; [done|done| | |exact Hv].
  - eapply den_object; [exact Hl|exact Hk|exact Hpp| |].
    + rewrite <- list_fmap_compose. replace (_ <$> keys) with keys; [exact Hkeys|]. symmetry. by rewrite <- (list_fmap_id keys) at 2.
    + intros key j x fl Hin Hg. apply list_elem_of_fmap in Hin as (key' & [= <- ->] & Hin).
      assert (key ∈ [js "revision"; js "config"]) as Hkey by (by rewrite <- Htwo).
      apply elem_of_cons in Hkey as [->| ->%list_elem_of_singleton].
      * rewrite bool_decide_true by done. rewrite Hrv in Hg. injection Hg as <- <-. constructor.
      * rewrite bool_decide_false by done. rewrite Hcv in Hg. by injection Hg as <- <-.
  - unfold wire_tree. rewrite Htwo. done.
Qed.

Lemma normalize_complete h v valid c z fs :
  heap_wf h -> is_uint64 z = true -> w_revision c = dec z -> denotes object_prototype h v (PObject fs) ->
  wire_tree z (w_config c) fs -> match valid with Some f => f (w_config c) = true | None => True end ->
  normalizePublicConfigWire object_prototype h v valid = Ok c.
Proof.
  intros W Hz Hr Hd Ht Hv. inversion Hd as [| | | | |l o proto ? Hl Hk Hpp Hps Hden]; subst. unfold normalizePublicConfigWire.
  rewrite (proj2 (plain_object_Some h (Ref l) (o_props o))) by (by exists l, o, proto).
  assert (fs.*1 ≡ₚ [js "revision"; js "config"]) as Hkeys by (unfold wire_tree in Ht; by rewrite Ht).
  rewrite (proj2 (ownEnumerableDataKeys_spec (o_props o) (js "$") (Some [js "revision"; js "config"]) fs.*1)).
  2: { split; [exact Hps|]. rewrite Hkeys. repeat constructor; simpl; set_solver. }
  rewrite (Permutation_length Hkeys). rewrite !bool_decide_true by (try done; rewrite Hkeys; set_solver). cbn [negb orb].
  assert (forall key j, (key, j) ∈ fs -> exists v fl, map_get (StringKey key) (o_props o) = Some (Data v fl) /\ denotes object_prototype h v j) as Hget.
  { intros key j Hin. assert (key ∈ fs.*1) as (i & Hi)%list_elem_of_lookup by (by apply (list_elem_of_fmap_2 fst) in Hin).
    destruct (Forall2_lookup_r _ _ _ _ _ Hps Hi) as (p & Hp' & v & fl & -> & _).
    apply list_elem_of_lookup_2 in Hp'. pose proof (wf_get _ _ _ _ _ W Hl Hp') as Hg. exists v, fl. split; [exact Hg|by eapply Hden]. }
  destruct (Hget (js "revision") (PText (dec z))) as (rv & fl1 & Hg1 & Hd1); [unfold wire_tree in Ht; rewrite Ht; by left|].
  destruct (Hget (js "config") (PObject (w_config c))) as (cv & fl2 & Hg2 & Hd2); [unfold wire_tree in Ht; rewrite Ht; by right; left|].
  rewrite (proj2 (readDataProperty_spec _ _ _ rv)) by eauto. inversion Hd1; subst.
  rewrite (proj2 (parseRevision_spec _ z)) by done. rewrite formatRevision_Ok by done.
  rewrite (proj2 (readDataProperty_spec _ _ _ cv)) by eauto. rewrite (proj2 (clone_at _ _ _ _ _ W) Hd2).
  destruct c as [cr cc]. simpl in *. subst cr. destruct valid as [f|]; [by rewrite Hv|done].
Qed.
End wire.

(** What a publisher put on the wire, on any heap, reads back. *)
Lemma wire_reads_back object_prototype h z c :
  heap_wf h -> is_uint64 z = true -> w_revision c = dec z -> pub_ok (PObject (w_config c)) ->
  let r := embed object_prototype h (PObject [(js "revision", PText (w_revision c)); (js "config", PObject (w_config c))]) in
  normalizePublicConfigWire object_prototype r.1 r.2 None = Ok c.
Proof.
  intros W Hz Hr Hok.
  destruct (embed_spec object_prototype (PObject [(js "revision", PText (w_revision c)); (js "config", PObject (w_config c))])) with (h := h)
    as ([_ W2] & _ & Hd2); [|exact W|].
  { constructor; simpl.
    - by eapply bool_decide_unpack.
    - by eapply bool_decide_unpack.
    - intros key j Hin. apply elem_of_cons in Hin as [[= _ ->]|[= _ ->]%list_elem_of_singleton]; [constructor|exact Hok]. }
  simpl. eapply normalize_complete; [exact W2|exact Hz|exact Hr|exact Hd2| |exact I].
  unfold wire_tree. by rewrite Hr.
Qed.

Lemma view_ok object_prototype P w z v fs :
  civil P -> heap_wf (objects w) -> captured P w z v -> public_view object_prototype P (generation P w).1 v fs -> pub_ok (PObject fs).
Proof.
  intros Hc Ww Hcap (h' & v2 & Hp & Hd & _).
  assert (heap_wf h') as W'.
  { eapply (cv_project P Hc); [|exact Hp]. destruct (readSnapshot_spec P w) as (<- & _). by apply generation_wf. }
  by apply denotes_ok in Hd.
Qed.

Lemma readWire_published object_prototype o P w c :
  createPolicyPublisher o = Ok P -> civil P -> heap_wf (objects w) -> (readWire object_prototype P w).2 = Ok (Some c) ->
  exists z v, captured P w z v /\ w_revision c = dec z /\ pub_ok (PObject (w_config c)).
Proof.
  intros HP Hc Ww Hread. destruct (readWire_spec object_prototype P w (publisher_keys _ _ HP) Hc Ww c) as [_ Hiff].
  apply Hiff in Hread as (z & v & Hcap & Hr & Hv). exists z, v. split_and!; [done..|]. by eapply view_ok.
Qed.

(** ** The properties *)

(** C13: a public copy is exact. On every well-formed heap of the application,
    with sharing and cycles, accessors, symbols, sparse arrays, class
    instances and forbidden names, [freezePublicJson] terminates with a copy
    or a [TypeError]; it returns a copy exactly when the value denotes a
    finite tree of public JSON, and the copy is that tree; and copying the
    copy gives it back. *)
Theorem public_json_exact object_prototype h v :
  heap_wf h -> val_in h v ->
  decided (freezePublicJson object_prototype h v) /\
  (forall j, freezePublicJson object_prototype h v = Ok j <-> denotes object_prototype h v j) /\
  (forall j, freezePublicJson object_prototype h v = Ok j ->
     let r := embed object_prototype h j in freezePublicJson object_prototype r.1 r.2 = Ok j).
Proof.
  intros W Hv. split_and!; [by apply freezePublicJson_decided|intros j; by apply freezePublicJson_spec|].
  intros j Hj. apply freezePublicJson_spec in Hj; [|exact W]. apply denotes_ok in Hj; [|exact W].
  destruct (embed_spec object_prototype j Hj h W) as ([_ W'] & _ & Hd). by apply freezePublicJson_spec.
Qed.

(** C11: every answer of a publisher is about one generation of the policy.
    [read], [readWire], [etag] and [validate] call the source exactly once,
    whatever it would answer next, and succeed exactly when that one answer
    allows it: the published revision and fields are those of the captured
    snapshot, restricted to the allowlist; an input is accepted or refused
    only if the client named the captured revision (as the bigint or in
    canonical decimal) and the validator decided so on the captured value;
    and a client with any other revision gets the view of that same
    snapshot. *)
Theorem publisher_one_generation object_prototype o P w :
  createPolicyPublisher o = Ok P -> civil P -> heap_wf (objects w) ->
  (forall c, reads (read object_prototype P w).1 = S (reads w) /\
     ((read object_prototype P w).2 = Ok (Some c) <->
        exists v, captured P w (c_revision c) v /\ public_view object_prototype P (generation P w).1 v (c_config c))) /\
  (forall c, reads (readWire object_prototype P w).1 = S (reads w) /\
     ((readWire object_prototype P w).2 = Ok (Some c) <->
        exists z v, captured P w z v /\ w_revision c = dec z /\
          public_view object_prototype P (generation P w).1 v (w_config c))) /\
  (forall t, reads (etag P (Prim Undefined) w).1 = S (reads w) /\
     ((etag P (Prim Undefined) w).2 = Ok (Some t) <->
        exists z v, captured P w z v /\ t = 34 :: js "kms-public-config-" ++ dec z ++ [34])) /\
  (forall clientRevision input r, reads (validate object_prototype P clientRevision input w).1 = S (reads w) /\
     ((validate object_prototype P clientRevision input w).2 = Ok r <->
        justified object_prototype P w clientRevision input r)).
Proof.
  intros HP Hc W. pose proof (publisher_keys _ _ HP) as Hk. split_and!.
  - intros c. by destruct (read_spec object_prototype P w Hk Hc W c) as (? & ? & _).
  - intros c. by apply readWire_spec.
  - intros t. by apply etag_spec.
  - intros r input x. by apply validate_spec.
Qed.

(** C12: a publisher on an allowlist publishes the allowlist. For every
    projection that [definePublicProjection] accepts, the published names are
    the own properties of the allowlist, in order; [read] succeeds exactly
    when each selector, called with the captured policy, answers public
    JSON, and each published field is the tree its selector answered. No
    other part of the policy has a way into the result. *)
Theorem projection_exact object_prototype call h0 allowlist p o P w z v fs :
  heap_wf h0 -> createPublicProjection object_prototype call h0 allowlist = Ok p ->
  op_project o = Hook (p_project p) -> op_keys o = p_keys p -> createPolicyPublisher o = Ok P ->
  (forall l h v h' r, heap_wf h -> call l h v = (h', r) -> heap_wf h') ->
  (forall n h h' r, heap_wf h -> current P n h = (h', r) -> heap_wf h') ->
  (forall h v i h' r, heap_wf h -> validator P h v i = (h', r) -> heap_wf h') ->
  heap_wf (objects w) -> captured P w z v ->
  exists sels ps, captureProjectionMap object_prototype h0 allowlist = Ok sels /\
    plain_object object_prototype h0 allowlist = Some ps /\ ps.*1 = StringKey <$> sels.*1 /\
    ((read object_prototype P w).2 = Ok (Some {| c_revision := z; c_config := fs |}) <->
       selected object_prototype call v (generation P w).1 sels fs).
Proof.
  intros W0 Hcreate Hproj Hkeys HP Hcall Hcur Hval W Hcap.
  pose proof (projection_civil _ _ Hcall _ _ _ _ _ W0 Hcreate Hproj HP Hcur Hval) as Hc.
  pose proof (generation_wf P w Hc W) as Wg. destruct (readSnapshot_spec P w) as (Eo & _). rewrite Eo in Wg.
  destruct (projection_view _ _ Hcall h0 allowlist p o P v _ fs W0 Hcreate Hproj Hkeys HP Wg) as (sels & Hs & Ha & Hview).
  destruct (captureProjectionMap_names _ _ _ _ W0 Hs) as (_ & _ & ps & Hp & Hn).
  exists sels, ps. split_and!; [done..|].
  destruct (read_spec object_prototype P w (publisher_keys _ _ HP) Hc W {| c_revision := z; c_config := fs |}) as (_ & -> & _).
  simpl. rewrite <- Hview. split; [|by exists v].
  intros (v' & Hcap' & Hv). by destruct (captured_unique _ _ _ _ _ _ Hcap Hcap') as [_ ->].
Qed.

(** Wire objects round trip. [normalizePublicConfigWire] accepts exactly
    the values that denote an object with a canonical 64-bit [revision], an
    object [config] that passes the application's validation, and nothing
    else; it returns these two; and it reads back whatever a publisher's
    [readWire] returned. *)
Theorem wire_roundtrip object_prototype h v valid c :
  heap_wf h ->
  (normalizePublicConfigWire object_prototype h v valid = Ok c <->
     exists z fs, is_uint64 z = true /\ w_revision c = dec z /\ denotes object_prototype h v (PObject fs) /\
       wire_tree z (w_config c) fs /\ match valid with Some f => f (w_config c) = true | None => True end) /\
  (forall o P w, createPolicyPublisher o = Ok P -> civil P -> heap_wf (objects w) ->
     (readWire object_prototype P w).2 = Ok (Some c) ->
     let r := embed object_prototype h (PObject [(js "revision", PText (w_revision c)); (js "config", PObject (w_config c))]) in
     normalizePublicConfigWire object_prototype r.1 r.2 None = Ok c).
Proof.
  intros W. split.
  - split; [by apply normalize_sound|]. intros (z & fs & Hz & Hr & Hd & Ht & Hv). by eapply normalize_complete.
  - intros o P w HP Hc Ww Hread. apply (readWire_published object_prototype o) in Hread as (z & v' & Hcap & Hr & Hok); [|done..].
    simpl. by apply (wire_reads_back object_prototype h z); [|apply Hcap|..].
Qed.

(** ** A publisher *)

(** [Object.prototype], a policy with a limit, a key and a list of tags, the
    tags, an allowlist of two of them, and its two selectors. *)
Definition demo_policy : heap :=
  [ {| o_kind := IPlain None; o_props := [] |};
    {| o_kind := IPlain (Some 0%nat); o_props :=
         [(StringKey (js "limit"), Data (Prim (Number 4607182418800017408)) plain_flags);
          (StringKey (js "key"), Data (Prim (Text (js "k"))) plain_flags);
          (StringKey (js "tags"), Data (Ref 2) plain_flags)] |};
    {| o_kind := IArray 1 true; o_props := [(StringKey (js "0"), Data (Prim (Text (js "a"))) plain_flags)] |};
    {| o_kind := IPlain (Some 0%nat); o_props :=
         [(StringKey (js "limit"), Data (Ref 4) plain_flags); (StringKey (js "tags"), Data (Ref 5) plain_flags)] |};
    {| o_kind := IFunction; o_props := [] |};
    {| o_kind := IFunction; o_props := [] |} ].

Lemma demo_policy_wf : heap_wf demo_policy.
Proof. repeat constructor; try (simpl; lia); simpl; set_solver. Qed.

(** The two functions read a property each; the revision grows by the call;
    every input but [null] is valid. *)
Definition demo_call (l : loc) (h : heap) (v : jsval) : heap * res jsval jsval :=
  (h, match plain_object 0 h v with
      | Some ps => match map_get (StringKey (if bool_decide (l = 4%nat) then js "limit" else js "tags")) ps with
                   | Some (Data x _) => Ok x
                   | _ => Ok (Prim Undefined)
                   end
      | None => Ok (Prim Undefined)
      end).

Definition demo_projection : Projection :=
  {| p_keys := Some [Prim (Text (js "limit")); Prim (Text (js "tags"))];
     p_project := project 0 demo_call [(js "limit", 4%nat); (js "tags", 5%nat)] |}.
Definition demo_current (n : nat) (h : heap) : heap * res jsval answer :=
  (h, Ok (Snapshot (Prim (BigInt (7 + Z.of_nat n))) (Some (Ref 1)))).
Definition demo_validate (h : heap) (_ input : jsval) : heap * res jsval decision :=
  (h, Ok (if bool_decide (input = Prim Null) then NoDecision else Valid)).

Definition demo_publisher_options : CreatePolicyPublisherOptions :=
  {| op_current := Hook demo_current; op_project := Hook (p_project demo_projection);
     op_keys := p_keys demo_projection; op_validate := Hook demo_validate; op_onEvent := Missing |}.
Definition demo_publisher : Publisher :=
  {| current := demo_current; project_policy := p_project demo_projection;
     allowedProjectionKeys := [js "limit"; js "tags"]; validator := demo_validate; onEvent := None |}.

Lemma demo_projection_ok : createPublicProjection 0 demo_call demo_policy (Ref 3) = Ok demo_projection.
Proof. reflexivity. Qed.
Lemma demo_publisher_ok : createPolicyPublisher demo_publisher_options = Ok demo_publisher.
Proof. reflexivity. Qed.
Lemma demo_call_wf l h v h' r : heap_wf h -> demo_call l h v = (h', r) -> heap_wf h'.
Proof. by intros W [= <- _]. Qed.
Lemma demo_current_wf n h h' r : heap_wf h -> demo_current n h = (h', r) -> heap_wf h'.
Proof. by intros W [= <- _]. Qed.
Lemma demo_validate_wf h v i h' r : heap_wf h -> demo_validate h v i = (h', r) -> heap_wf h'.
Proof. by intros W [= <- _]. Qed.
Lemma demo_civil : civil demo_publisher.
Proof.
  apply (projection_civil 0 demo_call demo_call_wf demo_policy (Ref 3) demo_projection demo_publisher_options);
    [exact demo_policy_wf|exact demo_projection_ok|done|exact demo_publisher_ok|exact demo_current_wf|exact demo_validate_wf].
Qed.

Definition demo_world : World := {| objects := demo_policy; reads := 3; events := [] |}.

Definition demo_view : list (jstr * pub) :=
  [(js "limit", PNumber 4607182418800017408); (js "tags", PArray [PText (js "a")])].

Lemma public_json_exact_witness :
  denotes 0 demo_policy (Ref 2) (PArray [PText (js "a")]) /\
  is_ok (freezePublicJson 0 demo_policy (Ref 3)) = false.
Proof.
  split; [|by vm_compute].
  apply (public_json_exact 0 demo_policy (Ref 2) demo_policy_wf); [simpl; lia|]. by vm_compute.
Defined.

(** The client names revision 10, the one the source has at that call; the
    next call would find revision 11. *)
Lemma publisher_one_generation_witness :
  justified 0 demo_publisher demo_world (Prim (Text (js "10"))) (Prim (Boolean true)) (success (js "10")) /\
  (exists v, captured demo_publisher demo_world 10 v /\
     public_view 0 demo_publisher (generation demo_publisher demo_world).1 v demo_view) /\
  reads (validate 0 demo_publisher (Prim (Text (js "10"))) (Prim Null) demo_world).1 = 4%nat.
Proof.
  destruct (publisher_one_generation 0 demo_publisher_options demo_publisher demo_world demo_publisher_ok demo_civil demo_policy_wf)
    as (Hread & _ & _ & Hvalidate).
  split_and!.
  - apply Hvalidate. by vm_compute.
  - apply (Hread {| c_revision := 10; c_config := demo_view |}). by vm_compute.
  - apply (Hvalidate _ _ unavailable).
Defined.

(** The key of the policy is not published. *)
Lemma projection_exact_witness :
  exists sels, sels.*1 = [js "limit"; js "tags"] /\
    selected 0 demo_call (Ref 1) demo_policy sels demo_view.
Proof.
  destruct (projection_exact 0 demo_call demo_policy (Ref 3) demo_projection demo_publisher_options demo_publisher demo_world
    10 (Ref 1) demo_view demo_policy_wf demo_projection_ok eq_refl eq_refl demo_publisher_ok demo_call_wf demo_current_wf
    demo_validate_wf demo_policy_wf (conj eq_refl eq_refl)) as (sels & ps & Hs & _ & _ & Hiff).
  exists sels. assert (sels = [(js "limit", 4%nat); (js "tags", 5%nat)]) as E.
  { vm_compute in Hs. injection Hs as <-. by vm_compute. }
  split; [by rewrite E|]. apply Hiff. by vm_compute.
Defined.

Lemma wire_roundtrip_witness :
  let c := {| w_revision := js "10"; w_config := demo_view |} in
  let r := embed 0 demo_policy (PObject [(js "revision", PText (js "10")); (js "config", PObject demo_view)]) in
  normalizePublicConfigWire 0 r.1 r.2 None = Ok c.
Proof.
  intros c r. destruct (wire_roundtrip 0 demo_policy (Ref 1) None c demo_policy_wf) as [_ H].
  apply (H demo_publisher_options demo_publisher demo_world demo_publisher_ok demo_civil demo_policy_wf). by vm_compute.
Defined.
