(* ===== verification/DefaultsVerify.v ===== *)
(** * DefaultsVerify: [sdk/typescript/src/configstore/verify.ts].

    The comparison of a binding's source-owned defaults with the active
    release: every parameter group is hashed in canonical form, the hashes go
    to the server through [verifyReleaseDefaults] of the client, and the
    verdicts come back as a report. SHA-256 and the client are parameters;
    the properties put [ClientData]'s request checks and [Release]'s checks
    of the answer in the place of the client. *)
From stdpp Require Import prelude gmap strings.
From Stdlib Require Import ZArith Lia.
From S2P Require Import Prelude JsString JsMap Unicode Decimal Errors Refs StrictJson StrictJsonProofs Canonical DefaultsArtifact Contract Release Cache Dispatcher ClientData Client.

(** ** Inputs *)

(** [entry.kind] and [entry.contentType] as they are declared. *)
Record DeclaredEntry := { dc_alias : jstr; dc_kind : jstr; dc_contentType : option jstr }.

(** [None]: no array, no object. A group is [None] when it is no string. *)
Record VerifyInput := {
  vi_schemaSha256 : jstr;
  vi_contract : option (list DeclaredEntry);
  vi_groups : option (list (jstr * option jstr))
}.

Record DefaultsOptions := {
  do_namespace : option jstr;
  do_release : option jstr;
  do_profile : option jstr;
  do_schemaVersion : option bigarg;
  do_call : CallOptions
}.

(** ** The report *)

Record VerifyEntryResult := { vv_alias : jstr; vv_contentType : jstr; vv_verdict : VerifyVerdict }.

(** [class VerifyResult] *)
Record DefaultsReport := {
  vf_namespace : jstr;
  vf_releaseName : jstr;
  vf_releaseVersion : Z;
  vf_schemaVersion : Z;
  vf_activationRevision : Z;
  vf_schemaMatches : bool;
  vf_entries : list VerifyEntryResult;
  vf_unverified : Z
}.

Definition report_passed (r : DefaultsReport) : bool :=
  vf_schemaMatches r && forallb (fun e => bool_decide (vv_verdict e = v_match)) (vf_entries r).

Definition sortByAlias (entries : list VerifyEntryResult) : list VerifyEntryResult :=
  js_sort (fun l r => utf8_compare (vv_alias l) (vv_alias r)) entries.

Definition failures (r : DefaultsReport) : list VerifyEntryResult :=
  sortByAlias (filter (fun e => vv_verdict e <> v_match) (vf_entries r)).

Definition padEnd (width : nat) (s : jstr) : jstr := s ++ replicate (width - length s) 32.

(** [widths[index] = Math.max(widths[index] ?? 0, cell.length + 2)] over the
    cells of a row but its last. *)
Fixpoint widen (widths : list nat) (row : list jstr) : list nat :=
  match row with
  | [] | [_] => widths
  | cell :: row => Nat.max (default 0%nat (head widths)) (length cell + 2) :: widen (tail widths) row
  end.

Fixpoint pad_row (widths : list nat) (row : list jstr) : jstr :=
  match row with
  | [] => []
  | [cell] => cell
  | cell :: row => padEnd (default 0%nat (head widths)) cell ++ pad_row (tail widths) row
  end.

Definition alignColumns (rows : list (list jstr)) : list jstr :=
  let widths := foldl widen [] rows in map (pad_row widths) rows.

Definition count_verdict (r : DefaultsReport) (v : VerifyVerdict) : Z :=
  Z.of_nat (length (filter (fun e => vv_verdict e = v) (vf_entries r))).

Definition report (r : DefaultsReport) : jstr :=
  let same := if vf_schemaMatches r then js "match" else js "differs" in
  let title := vf_namespace r ++ js " " ++ vf_releaseName r ++ js "@" ++ dec (vf_releaseVersion r) ++ js "#"
    ++ dec (vf_activationRevision r) ++ js "  schema_version: " ++ dec (vf_schemaVersion r)
    ++ js "  schema: " ++ same in
  let rows := [js "VERDICT"; js "ALIAS"; js "CONTENT_TYPE"]
    :: map (fun e => [verdict_text (vv_verdict e); vv_alias e; vv_contentType e]) (sortByAlias (vf_entries r)) in
  let count := fun v => dec (count_verdict r v) in
  let summary := js "summary: match=" ++ count v_match ++ js " differs=" ++ count v_differs
    ++ js " missing_in_release=" ++ count v_missing_in_release ++ js " unknown_alias=" ++ count v_unknown_alias
    ++ js " secret_alias=" ++ count v_secret_alias ++ js " unsupported_content_type=" ++ count v_unsupported_content_type
    ++ js " unverified=" ++ dec (vf_unverified r) in
  let verdict := if report_passed r then js "result: active release matches source defaults"
                 else js "result: active release differs from source defaults" in
  flat_map (fun line => line ++ [10]) (title :: alignColumns rows ++ [summary; verdict]).

(** ** [verifyDefaults] *)

Definition Error (message : jstr) (cause : option JsError) : JsError :=
  JError (PValue (js "Error")) message POther POther POther cause.

(** The group of an alias, when it is an own string property. *)
Definition group (groups : list (jstr * option jstr)) (alias : jstr) : option jstr := mjoin (map_get alias groups).

Section verify.
(** [sha256Hex] of [releases/digest.ts]. *)
Context (sha256Hex : list Z -> jstr).

(** The loop over the contract: the entries to send and, in the order of
    their arrival, the content types. *)
Fixpoint hash_groups (groups : list (jstr * option jstr)) (contract : list DeclaredEntry)
  : res JsError (list VerifyEntryArg * list (jstr * jstr)) :=
  match contract with
  | [] => Ok ([], [])
  | entry :: contract =>
      if negb (bool_decide (dc_kind entry = js "parameter")) then hash_groups groups contract
      else match group groups (dc_alias entry) with
      | None => Throw (Error (js "configstore: verify: missing encoded parameter group " ++ dc_alias entry) None)
      | Some document =>
          let contentType := default [] (dc_contentType entry) in
          match parameterHash sha256Hex contentType (PText document) with
          | Throw m => Throw (Error (js "configstore: verify: hash parameter group " ++ dc_alias entry) (Some (Error m None)))
          | Ok sha256 =>
              let* rest := hash_groups groups contract in
              Ok ({| va_alias := Some (dc_alias entry); va_sha256 := Some sha256; va_contentType := Some contentType |} :: rest.1,
                  (dc_alias entry, contentType) :: rest.2)
          end
      end
  end.

(** A [Map] filled with these entries one after the other. *)
Definition map_of {V} (entries : list (jstr * V)) : list (jstr * V) :=
  foldl (fun m e => map_set e.1 e.2 m) [] entries.

(** [...(s ? { field: s } : {})] *)
Definition truthy_text (s : option jstr) : option jstr :=
  match s with Some [] | None => None | Some s => Some s end.

(** What precedes the call of the client. *)
Definition verify_begin (input : option VerifyInput) (options : DefaultsOptions)
  : res JsError (jstr * VerifyOptions * list (jstr * jstr)) :=
  match truthy_text (trim <$> do_namespace options) with
  | None => Throw (TypeError (js "configstore: verify requires options.namespace"))
  | Some namespace =>
      match input with
      | Some {| vi_schemaSha256 := sha; vi_contract := Some contract; vi_groups := Some groups |} =>
          let* hashed := hash_groups groups contract in
          Ok (namespace,
              {| vo_namespace := namespace; vo_entries := Some hashed.1; vo_release := truthy_text (do_release options);
                 vo_profile := truthy_text (do_profile options); vo_schemaVersion := do_schemaVersion options;
                 vo_schemaSha256 := truthy_text (Some sha) |}, map_of hashed.2)
      | Some {| vi_contract := Some _; vi_groups := None |} =>
          Throw (TypeError (js "configstore: verify requires encoded parameter groups"))
      | _ => Throw (TypeError (js "configstore: verify requires a contract array"))
      end
  end.

(** The report on the client's result. *)
Definition verify_end (namespace : jstr) (contentTypes : list (jstr * jstr)) (response : VerifyResult) : DefaultsReport :=
  {| vf_namespace := namespace; vf_releaseName := vd_releaseName response; vf_releaseVersion := vd_releaseVersion response;
     vf_schemaVersion := vd_schemaVersion response; vf_activationRevision := vd_activationRevision response;
     vf_schemaMatches := vd_schemaMatches response;
     vf_entries := map (fun e => {| vv_alias := e.1; vv_contentType := default [] (map_get e.1 contentTypes); vv_verdict := e.2 |})
       (vd_entries response);
     vf_unverified := vd_unverifiedCount response |}.

(** [client] is what [client.verifyReleaseDefaults] settles with, if it is a
    function. *)
Definition verifyDefaults (client : option (VerifyOptions -> CallOptions -> res JsError VerifyResult))
    (input : option VerifyInput) (options : DefaultsOptions) : res JsError DefaultsReport :=
  match client with
  | None => Throw (TypeError (js "configstore: verify requires a KmsClient-compatible client"))
  | Some verifyReleaseDefaults =>
      let* begun := verify_begin input options in
      let* response := verifyReleaseDefaults begun.1.2 (do_call options) in
      Ok (verify_end begun.1.1 begun.2 response)
  end.

(** ** The client in its place *)

(** What [KmsClient.verifyReleaseDefaults] settles with when the server
    replies so to the request. *)
Definition client_answer (reply : VerifyRequest -> res JsError (option VerifyResponse)) (v : VerifyOptions)
  : res JsError VerifyResult :=
  let* q := verify_request v in
  match (let* r := reply q in read_verdicts q r) with
  | Ok x => Ok x
  | Throw e => Throw (throwVerifyMapped e)
  end.

Lemma client_answer_run now cl v o reply :
  closed cl = false ->
  let id := length (tasks cl) in
  let answer q := match reply q with Ok r => Ok (AVerify r) | Throw e => Throw e end in
  let ops := OStart now (CVerifyReleaseDefaults v o) ::
    match verify_request v with Ok q => [OReply now id (answer q)] | Throw _ => [] end in
  exists t, tasks (run cl ops) !! id = Some t /\
    t_phase t = Finished (let* x := client_answer reply v in Ok (RVerified x)).
Proof.
  intros Hc id answer ops. unfold ops, run. cbn [foldl step]. unfold start. cbn [target_of locate].
  set (c := CVerifyReleaseDefaults v o). set (cl1 := push c Located (plaintext c) cl).
  assert (tasks cl1 !! id = Some {| t_call := c; t_place := PNone; t_buffer := None; t_phase := Located |}) as Ht.
  { unfold cl1, id. simpl. by rewrite lookup_app_r, Nat.sub_diag by lia. }
  unfold continue. cbn [t_call t_place c]. unfold verifyReleaseDefaults, assertOpen. simpl closed. rewrite Hc.
  unfold client_answer. destruct (verify_request v) as [q|e] eqn:Hq; cbn [foldl].
  2: { exists {| t_call := c; t_place := PNone; t_buffer := None; t_phase := Finished (Throw e) |}. split; [|done].
       simpl. fold id. rewrite list_lookup_alter_eq, list_lookup_alter_eq. simpl in Ht. by rewrite Ht. }
  unfold unary, callOptions, assertOpen. simpl closed. rewrite Hc. cbn [step]. unfold on_reply.
  set (cl2 := emit _ _).
  assert (tasks cl2 !! id = Some {| t_call := c; t_place := PNone; t_buffer := None; t_phase := Sent (QVerifyReleaseDefaults q) None |}) as Ht2.
  { unfold cl2. simpl. fold id. rewrite list_lookup_alter_eq, list_lookup_alter_eq. simpl in Ht. by rewrite Ht. }
  rewrite Ht2. cbn [t_phase]. unfold answer. destruct (reply q) as [r|e]; cbn [fits t_call t_place c].
  - exists {| t_call := c; t_place := PNone; t_buffer := None;
              t_phase := Finished (settled c (let* v := read_verdicts q r in Ok (RVerified v))) |}.
    split; [simpl; rewrite list_lookup_alter_eq; simpl in Ht2; by rewrite Ht2|]. simpl. by destruct (read_verdicts q r).
  - exists {| t_call := c; t_place := PNone; t_buffer := None; t_phase := Finished (Throw (map_error c e)) |}.
    split; [simpl; rewrite list_lookup_alter_eq; simpl in Ht2; by rewrite Ht2|done].
Qed.
End verify.

(** ** The same value *)

(** Two values of a content type are the same: as JSON documents, up to white
    space, escapes and the order of properties; else as bytes. *)
Definition same_value (contentType : jstr) (v v' : payload) : Prop :=
  if decide (contentType = js "json") then
    exists t t' n n', decodeStrictUtf8 v = Ok t /\ decodeStrictUtf8 v' = Ok t' /\
      parseStrictJson t = Ok n /\ parseStrictJson t' = Ok n' /\ uniqueKeys n = true /\ uniqueKeys n' = true /\
      same_json n n'
  else canonicalParameterValue contentType v = canonicalParameterValue contentType v'.

Lemma canonical_json v b :
  canonicalParameterValue (js "json") v = Ok b <->
  exists t n, decodeStrictUtf8 v = Ok t /\ parseStrictJson t = Ok n /\ uniqueKeys n = true /\ b = utf8_encode (writeCanonical n).
Proof.
  unfold canonicalParameterValue. rewrite bool_decide_true by done. cbn [negb]. split.
  - destruct (decodeStrictUtf8 v) as [t|]; [|done]. destruct (parseStrictJson t) as [n|] eqn:Hn; [|done].
    destruct (uniqueKeys n) eqn:Hu; [|done]. intros [= <-]. by exists t, n.
  - intros (t & n & -> & -> & -> & ->). done.
Qed.

Lemma same_value_canonical contentType v v' b :
  js_payload v -> js_payload v' -> canonicalParameterValue contentType v = Ok b ->
  canonicalParameterValue contentType v' = Ok b <-> same_value contentType v v'.
Proof.
  intros Hv Hv' Hb. unfold same_value. destruct (decide (contentType = js "json")) as [->|Hne]; [|by rewrite Hb].
  apply canonical_json in Hb as Hb'. destruct Hb' as (t & n & Hd & Hp & Hu & ->). split.
  - intros Hb'. apply canonical_json in Hb' as Hj. destruct Hj as (t' & n' & Hd' & Hp' & Hu' & _). exists t, t', n, n'.
    split_and!; try done. apply (canonical_same_json v v' t t' n n'); try done. by rewrite Hb, Hb'.
  - intros (t1 & t' & n1 & n' & Hd1 & Hd' & Hp1 & Hp' & _ & Hu' & Hs). assert (t1 = t) as -> by congruence.
    assert (n1 = n) as -> by congruence. rewrite <- Hb. symmetry. by apply (canonical_same_json v v' t t' n n').
Qed.

(** ** Requests and answers *)

Definition parameters (contract : list DeclaredEntry) : list DeclaredEntry :=
  filter (fun e => dc_kind e = js "parameter") contract.
Definition type_of (e : DeclaredEntry) : jstr := default [] (dc_contentType e).

Section end_to_end.
Context (sha256Hex : list Z -> jstr) (Hhex : forall b, validLowerHex64 (sha256Hex b) = true).
Context (groups : list (jstr * option jstr)).

(** The canonical bytes of the default of a parameter. *)
Definition encoded (e : DeclaredEntry) (b : list Z) : Prop :=
  exists document, group groups (dc_alias e) = Some document /\
    canonicalParameterValue (type_of e) (PText document) = Ok b.

(** What is sent for a parameter: its alias, its content type and a hash. *)
Definition hashed (e : DeclaredEntry) (x : VerifyEntry) : Prop :=
  ve_alias x = dc_alias e /\ ve_contentType x = type_of e /\
  exists b, encoded e b /\ ve_sha256 x = sha256Hex b.

Definition argument_of (x : VerifyEntry) : VerifyEntryArg :=
  {| va_alias := Some (ve_alias x); va_sha256 := Some (ve_sha256 x); va_contentType := Some (ve_contentType x) |}.

Lemma hash_groups_sound contract r :
  hash_groups sha256Hex groups contract = Ok r ->
  exists xs, r.1 = argument_of <$> xs /\ Forall2 hashed (parameters contract) xs /\
    r.2 = (fun e => (dc_alias e, type_of e)) <$> parameters contract.
Proof using.
  revert r. induction contract as [|e contract IH]; intros r; [intros [= <-]; by exists []|]. cbn [hash_groups].
  unfold parameters. destruct (decide (dc_kind e = js "parameter")) as [Hk|Hk].
  - rewrite bool_decide_true by done. rewrite filter_cons_True by done. cbn [negb].
    destruct (group groups (dc_alias e)) as [document|] eqn:Hg; [|done]. unfold parameterHash.
    destruct (canonicalParameterValue _ (PText document)) as [b|m] eqn:Hb; [|done].
    destruct (hash_groups _ groups contract) as [rest|] eqn:Hr; [|done]. intros [= <-].
    destruct (IH rest eq_refl) as (xs & E1 & H2 & E2). rewrite E1, E2.
    exists ({| ve_alias := dc_alias e; ve_contentType := type_of e; ve_sha256 := sha256Hex b |} :: xs).
    split_and!; [done| |done]. constructor; [|done]. split_and!; [done..|]. exists b. split; [|done]. by exists document.
  - rewrite bool_decide_false by done. rewrite filter_cons_False by done. apply IH.
Qed.

Lemma hash_groups_complete contract :
  Forall (fun e => exists b, encoded e b) (parameters contract) -> exists r, hash_groups sha256Hex groups contract = Ok r.
Proof using.
  induction contract as [|e contract IH]; [by eexists|]. unfold parameters. cbn [hash_groups].
  destruct (decide (dc_kind e = js "parameter")) as [Hk|Hk].
  - rewrite filter_cons_True by done. intros [(b & document & Hg & Hb) Hf]%Forall_cons. rewrite bool_decide_true by done. cbn [negb].
    rewrite Hg. unfold parameterHash. fold (type_of e). rewrite Hb. destruct (IH Hf) as [r ->]. by eexists.
  - rewrite filter_cons_False by done. rewrite bool_decide_false by done. exact IH.
Qed.

(** Aliases a validated contract has. *)
Definition neat (alias : jstr) : Prop := trim alias = alias /\ alias <> [].

Lemma verify_entries_complete index seen xs :
  NoDup (seen ++ (ve_alias <$> xs)) -> Forall (fun x => neat (ve_alias x) /\ validLowerHex64 (ve_sha256 x) = true) xs ->
  verify_entries index seen (argument_of <$> xs) = Ok xs.
Proof using.
  revert index seen. induction xs as [|x xs IH]; intros index seen Hn Hf; [done|].
  apply Forall_cons in Hf as [[[Ht Hne] Hx] Hf]. cbn [fmap list_fmap verify_entries argument_of va_alias va_sha256 va_contentType].
  rewrite Ht, bool_decide_false by done.
  rewrite bool_decide_false. 2: { apply NoDup_app in Hn as (_ & Hd & _). intros Hin. apply (Hd _ Hin). by left. }
  rewrite Hx, IH; [by destruct x| |done]. by rewrite <- (assoc_L (++)).
Qed.

(** The schema is named in exactly one way. *)
Definition one_schema (version : option bigarg) (sha : jstr) : Prop :=
  match version with
  | Some (BigInt z) => is_uint64 z = true /\ sha = []
  | Some NotBigInt => False
  | None => validLowerHex64 sha = true
  end.

Lemma assertUint64_Ok z name : is_uint64 z = true -> assertUint64 (BigInt z) name false = Ok z.
Proof using.
  intros Hz. unfold is_uint64 in Hz. unfold assertUint64.
  by replace ((z <? 0) || (UINT64_MAX <? z)) with false by lia.
Qed.

Lemma verify_request_complete o xs ns :
  parseNamespace (vo_namespace o) = Ok ns -> vo_entries o = Some (argument_of <$> xs) ->
  one_schema (vo_schemaVersion o) (default [] (vo_schemaSha256 o)) ->
  NoDup (ve_alias <$> xs) -> Forall (fun x => neat (ve_alias x) /\ validLowerHex64 (ve_sha256 x) = true) xs ->
  exists q, verify_request o = Ok q /\ vq_entries q = xs.
Proof using.
  intros Hns He Hs Hn Hf. unfold verify_request. rewrite Hns, He, (verify_entries_complete 0 [] xs Hn Hf).
  destruct (vo_schemaVersion o) as [[z|]|]; simpl in Hs; [|done|].
  - destruct Hs as [Hz ->]. rewrite (bool_decide_true (is_Some _)) by eauto. rewrite (bool_decide_true ([] = [])) by done. cbn [eqb negb andb].
    rewrite (assertUint64_Ok z _ Hz). cbn. by eexists.
  - rewrite (bool_decide_false (is_Some _)) by (by intros [? ?]).
    rewrite bool_decide_false by (intros E; rewrite E in Hs; by vm_compute in Hs). simpl. rewrite Hs. by eexists.
Qed.

(** ** The server *)

(** The parameter an alias is pinned to: its content type and its value. *)
Context (pins : jstr -> option (jstr * payload)).

(** A server compares the request with its active release: it answers every
    alias once, with a verdict it documents and counts, and the verdict is
    [match] exactly when the pinned parameter has the content type and the
    hash of the request. *)
Definition honest (q : VerifyRequest) (r : VerifyResponse) : Prop :=
  (vr_entries r).*1 ≡ₚ ve_alias <$> vq_entries q /\
  Forall (fun w => is_Some (isVerifyVerdict w.2)) (vr_entries r) /\
  (forall v, vr_count r v = Z.of_nat (length (filter (fun w => isVerifyVerdict w.2 = Some v) (vr_entries r)))) /\
  0 <= vr_unverifiedCount r /\
  (forall x w, x ∈ vq_entries q -> w ∈ vr_entries r -> w.1 = ve_alias x ->
     isVerifyVerdict w.2 = Some v_match <->
     exists document, pins (ve_alias x) = Some (ve_contentType x, document) /\
       parameterHash sha256Hex (ve_contentType x) document = Ok (ve_sha256 x)).

Definition read_as (w : jstr * jstr) (e : jstr * VerifyVerdict) : Prop :=
  e.1 = w.1 /\ isVerifyVerdict w.2 = Some e.2.

Lemma verdict_entries_complete requested seen ws :
  NoDup (seen ++ ws.*1) -> (forall a, a ∈ ws.*1 -> a ∈ requested) -> Forall (fun w => is_Some (isVerifyVerdict w.2)) ws ->
  exists es, verdict_entries requested seen ws = Ok es /\ Forall2 read_as ws es.
Proof using.
  revert seen. induction ws as [|[alias text] ws IH]; intros seen Hn Hr Hf; [by exists []|].
  apply Forall_cons in Hf as [[v Hv] Hf]. cbn [fmap list_fmap fst] in Hn, Hr. cbn [verdict_entries snd] in *.
  assert (alias ∉ seen) as Hs by (apply NoDup_app in Hn as (_ & Hd & _); intros Hin; apply (Hd _ Hin); by left).
  assert (set_add alias seen = seen ++ [alias]) as Ha by (unfold set_add; by rewrite decide_False).
  unfold set_has. rewrite bool_decide_true by (apply Hr; by left). rewrite bool_decide_false by done. cbn [negb orb].
  rewrite Hv, Ha. destruct (IH (seen ++ [alias])) as (es & -> & H2); [by rewrite <- (assoc_L (++))|by intros a ?; apply Hr; right|done|].
  exists ((alias, v) :: es). split; [done|]. by constructor.
Qed.

Lemma tally_read ws es v :
  Forall2 read_as ws es -> tally es v = Z.of_nat (length (filter (fun w => isVerifyVerdict w.2 = Some v) ws)).
Proof using.
  intros H2. unfold tally. f_equal. induction H2 as [|w e ws es [_ He] H2 IH]; [done|].
  destruct (decide (e.2 = v)) as [Hv|Hv].
  - rewrite !filter_cons_True by congruence. cbn [length]. by rewrite IH.
  - rewrite !filter_cons_False by congruence. exact IH.
Qed.

Lemma honest_accepted q r :
  NoDup (ve_alias <$> vq_entries q) -> honest q r ->
  exists d, verifyResultFromWire r (ve_alias <$> vq_entries q) = Ok d /\ Forall2 read_as (vr_entries r) (vd_entries d) /\
    vd_schemaMatches d = vr_schemaMatches r.
Proof using.
  intros Hn (HP & Hf & Hc & Hu & _).
  destruct (verdict_entries_complete (ve_alias <$> vq_entries q) [] (vr_entries r)) as (es & He & H2);
    [by rewrite HP|by intros a; rewrite HP|done|].
  unfold verifyResultFromWire. rewrite bool_decide_true by (by rewrite <- HP, length_fmap). cbn [negb]. rewrite He.
  destruct (list_find _ VERIFY_VERDICTS) as [[i v]|] eqn:Hfind.
  { exfalso. apply list_find_Some in Hfind as (_ & [Hv|Hv] & _).
    - unfold validCount in Hv. rewrite Hc in Hv. apply Z.leb_gt in Hv. lia.
    - apply Hv. by rewrite (tally_read _ _ _ H2). }
  unfold validCount. rewrite (proj2 (Z.leb_le _ _) Hu). by eexists.
Qed.

(** ** End to end *)

(** The default of a parameter is the value the release has. *)
Definition agrees (e : DeclaredEntry) : Prop :=
  exists document document', group groups (dc_alias e) = Some document /\
    pins (dc_alias e) = Some (type_of e, document') /\ same_value (type_of e) (PText document) document'.

Definition js_texts (e : DeclaredEntry) : Prop :=
  (forall document, group groups (dc_alias e) = Some document -> Forall is_unit document) /\
  (forall contentType document, pins (dc_alias e) = Some (contentType, document) -> js_payload document).

(** The hash tells the default of a parameter from the pinned value. *)
Definition told_apart (e : DeclaredEntry) : Prop :=
  forall document b b', encoded e b -> pins (dc_alias e) = Some (type_of e, document) ->
    canonicalParameterValue (type_of e) document = Ok b' -> sha256Hex b = sha256Hex b' -> b = b'.

Lemma match_agrees e x :
  js_texts e -> told_apart e -> hashed e x ->
  (exists document, pins (ve_alias x) = Some (ve_contentType x, document) /\
    parameterHash sha256Hex (ve_contentType x) document = Ok (ve_sha256 x)) <-> agrees e.
Proof using.
  intros [Hu Hp] Ht (Ha & Hc & b & Hb & Hx). rewrite Ha, Hc, Hx. pose proof Hb as (document & Hg & Hd). split.
  - intros (document' & Hpin & Hh). exists document, document'. split_and!; [done..|]. unfold parameterHash in Hh.
    destruct (canonicalParameterValue _ document') as [b'|] eqn:Hb'; [|done]. injection Hh as Hh.
    assert (b = b') as <- by (by apply (Ht document' b b')).
    apply (same_value_canonical _ (PText document) document' b); [by apply Hu|by eapply Hp|done|done].
  - intros (document1 & document' & Hg1 & Hpin & Hs). assert (document1 = document) as -> by congruence. exists document'. split; [done|].
    unfold parameterHash. by rewrite (proj2 (same_value_canonical _ (PText document) document' b (Hu _ Hg) (Hp _ _ Hpin) Hd) Hs).
Qed.

(** A server of this kind, to a request that names an alias once. *)
Definition reference_verdict (x : VerifyEntry) : VerifyVerdict :=
  match pins (ve_alias x) with
  | None => v_missing_in_release
  | Some (contentType, document) =>
      match parameterHash sha256Hex (ve_contentType x) document with
      | Ok h => if bool_decide (contentType = ve_contentType x /\ h = ve_sha256 x) then v_match else v_differs
      | Throw _ => v_unsupported_content_type
      end
  end.

Definition reference_server (schemaMatches : bool) (q : VerifyRequest) : VerifyResponse :=
  let entries := (fun x => (ve_alias x, verdict_text (reference_verdict x))) <$> vq_entries q in
  {| vr_name := vq_name q; vr_version := 3; vr_schemaVersion := 1; vr_activationRevision := 9; vr_entries := entries;
     vr_count := fun v => Z.of_nat (length (filter (fun w => isVerifyVerdict w.2 = Some v) entries));
     vr_unverifiedCount := 0; vr_schemaMatches := schemaMatches |}.

Lemma reference_verdict_match x :
  reference_verdict x = v_match <->
  exists document, pins (ve_alias x) = Some (ve_contentType x, document) /\
    parameterHash sha256Hex (ve_contentType x) document = Ok (ve_sha256 x).
Proof using.
  unfold reference_verdict. destruct (pins (ve_alias x)) as [[contentType document]|]; [|naive_solver].
  destruct (parameterHash _ _ document) as [h|] eqn:Hh; [|naive_solver congruence].
  case_bool_decide as Hd; split; intros H; try done.
  - destruct Hd as [-> ->]. by exists document.
  - exfalso. apply Hd. destruct H as (? & [= -> ->] & Hp). by rewrite Hh in Hp; simplify_eq.
Qed.

Lemma isVerifyVerdict_text v : isVerifyVerdict (verdict_text v) = Some v.
Proof using. by destruct v. Qed.

Lemma reference_server_honest schemaMatches q :
  NoDup (ve_alias <$> vq_entries q) -> honest q (reference_server schemaMatches q).
Proof using.
  intros Hn. split_and!; [|  |done|done|].
  - cbn. rewrite <- list_fmap_compose. reflexivity.
  - apply Forall_fmap, Forall_forall. intros x _. cbn. by destruct (reference_verdict x); eexists.
  - intros x w Hx (y & -> & Hy)%list_elem_of_fmap Hw. cbn in Hw. assert (y = x) as ->.
    { apply list_elem_of_lookup in Hx as [i Hi], Hy as [j Hj]. assert (j = i) as ->; [|congruence].
      apply (NoDup_lookup _ _ _ (ve_alias x) Hn); rewrite list_lookup_fmap; [rewrite Hj; simpl; by f_equal|by rewrite Hi]. }
    rewrite <- reference_verdict_match. cbn [snd]. rewrite isVerifyVerdict_text. split; congruence.
Qed.

(** The aliases of the verdicts, and the verdict of each. *)
Lemma verdict_aliases contract q r es :
  honest q r -> Forall2 read_as (vr_entries r) es -> Forall2 hashed (parameters contract) (vq_entries q) ->
  es.*1 ≡ₚ dc_alias <$> parameters contract.
Proof using.
  intros (HP & _) H2 Hh. trans (ve_alias <$> vq_entries q).
  - rewrite <- HP. clear -H2. induction H2 as [|w e ws es [He _] _ IH]; [done|]. cbn [fmap list_fmap]. by rewrite He, IH.
  - clear -Hh. induction Hh as [|e x es xs [Hx _] _ IH]; [done|]. cbn [fmap list_fmap]. by rewrite Hx, IH.
Qed.

Lemma verdict_of contract q r es e y :
  honest q r -> Forall2 read_as (vr_entries r) es -> Forall2 hashed (parameters contract) (vq_entries q) ->
  e ∈ parameters contract -> js_texts e -> told_apart e -> y ∈ es -> y.1 = dc_alias e ->
  y.2 = v_match <-> agrees e.
Proof using.
  intros (_ & _ & _ & _ & Hv) H2 Hh He Hj Ht Hy Hye. destruct (Forall2_elem_l _ _ _ e Hh He) as (x & Hx & Hex).
  destruct (Forall2_elem_r _ _ _ y H2 Hy) as (w & Hw & Hyw1 & Hyw). rewrite <- (match_agrees e x Hj Ht Hex).
  rewrite <- (Hv x w Hx Hw), Hyw by (destruct Hex as [Ha _]; congruence). split; congruence.
Qed.
End end_to_end.

Lemma failures_spec r a :
  a ∈ vv_alias <$> failures r <-> exists e, e ∈ vf_entries r /\ vv_alias e = a /\ vv_verdict e <> v_match.
Proof.
  unfold failures, sortByAlias. rewrite list_elem_of_fmap. split.
  - intros (e & -> & He). rewrite js_sort_perm, list_elem_of_filter in He. naive_solver.
  - intros (e & He & <- & Hn). exists e. split; [done|]. rewrite js_sort_perm. by apply list_elem_of_filter.
Qed.

Lemma report_passed_spec r :
  report_passed r = true <-> vf_schemaMatches r = true /\ failures r = [].
Proof.
  unfold report_passed. rewrite andb_true_iff, forallb_forall. setoid_rewrite bool_decide_eq_true.
  assert (failures r = [] <-> forall a, a ∉ vv_alias <$> failures r) as ->.
  { split; [intros ->; set_solver|]. intros H. destruct (failures r) as [|e l]; [done|]. exfalso. apply (H (vv_alias e)). by left. }
  setoid_rewrite failures_spec. split; intros [Hs H]; (split; [done|]).
  - intros a (e & He & _ & Hne). apply Hne, H. by apply list_elem_of_In.
  - intros e He. destruct (decide (vv_verdict e = v_match)) as [|Hne]; [done|]. exfalso. apply (H (vv_alias e)). exists e.
    split_and!; [by apply list_elem_of_In|done..].
Qed.

Lemma in_report namespace types d x :
  x ∈ vf_entries (verify_end namespace types d) <->
  exists y, y ∈ vd_entries d /\ x = {| vv_alias := y.1; vv_contentType := default [] (map_get y.1 types); vv_verdict := y.2 |}.
Proof. unfold verify_end. cbn. rewrite list_elem_of_In, in_map_iff. setoid_rewrite list_elem_of_In. naive_solver. Qed.

(** C4: what [verifyDefaults] reports, with the client in its place, is the
    truth about the active release. For a contract whose parameter groups have
    a canonical form, and a server that compares hashes as documented, the
    comparison completes; what is sent for each declared parameter, and for
    nothing else, is its alias, content type and hash, never a value; the
    verdicts name the declared parameters, each once; the failures name exactly
    the parameters whose default is not the same value as the pinned one, JSON
    documents being compared up to white space, escapes and the order of
    properties; and the report passes exactly when the schema matches and no
    default disagrees. *)
Theorem verify_end_to_end sha256Hex groups pins server options namespace ns sha256 contract :
  let input := {| vi_schemaSha256 := sha256; vi_contract := Some contract; vi_groups := Some groups |} in
  let client v (_ : CallOptions) := client_answer (fun q => Ok (Some (server q))) v in
  (forall b, validLowerHex64 (sha256Hex b) = true) ->
  (forall q, NoDup (ve_alias <$> vq_entries q) -> honest sha256Hex pins q (server q)) ->
  truthy_text (trim <$> do_namespace options) = Some namespace -> parseNamespace namespace = Ok ns ->
  one_schema (do_schemaVersion options) sha256 ->
  NoDup (dc_alias <$> parameters contract) ->
  (forall e, e ∈ parameters contract -> neat (dc_alias e) /\ (exists b, encoded groups e b) /\
     js_texts groups pins e /\ told_apart sha256Hex groups pins e) ->
  exists o types q r,
    verify_begin sha256Hex (Some input) options = Ok (namespace, o, types) /\ verify_request o = Ok q /\
    Forall2 (hashed sha256Hex groups) (parameters contract) (vq_entries q) /\
    verifyDefaults sha256Hex (Some client) (Some input) options = Ok r /\
    vv_alias <$> vf_entries r ≡ₚ dc_alias <$> parameters contract /\
    (forall e, e ∈ parameters contract -> dc_alias e ∉ vv_alias <$> failures r <-> agrees groups pins e) /\
    (report_passed r = true <->
       vr_schemaMatches (server q) = true /\ forall e, e ∈ parameters contract -> agrees groups pins e).
Proof.
  intros input client Hhex Hserver Hnamespace Hns Hschema Hnodup Hentries.
  destruct (hash_groups_complete sha256Hex groups contract) as [hashed_ Hh].
  { apply Forall_forall. intros e He. by apply Hentries. }
  destruct (hash_groups_sound sha256Hex groups contract hashed_ Hh) as (xs & Hxs & H2 & _).
  assert (ve_alias <$> xs = dc_alias <$> parameters contract) as Halias.
  { clear -H2. induction H2 as [|e x es xs [Hx _] _ IH]; [done|]. cbn [fmap list_fmap]. by rewrite Hx, IH. }
  set (o := {| vo_namespace := namespace; vo_entries := Some hashed_.1; vo_release := truthy_text (do_release options);
               vo_profile := truthy_text (do_profile options); vo_schemaVersion := do_schemaVersion options;
               vo_schemaSha256 := truthy_text (Some sha256) |}).
  assert (verify_begin sha256Hex (Some input) options = Ok (namespace, o, map_of hashed_.2)) as Hbegin.
  { unfold verify_begin. rewrite Hnamespace. cbn [input]. by rewrite Hh. }
  destruct (verify_request_complete o xs ns) as (q & Hq & Hqx); [done|by cbn; f_equal| | | |].
  { cbn. by destruct sha256. }
  { by rewrite Halias. }
  { apply Forall_forall. intros x Hx. destruct (Forall2_elem_r _ _ _ x H2 Hx) as (e & He & Ha & _ & b & _ & Hb).
    rewrite Ha, Hb. split; [by apply Hentries|apply Hhex]. }
  subst xs. assert (NoDup (ve_alias <$> vq_entries q)) as Hnq by (by rewrite Halias).
  pose proof (Hserver q Hnq) as Hq'.
  destruct (honest_accepted sha256Hex pins q (server q)) as (d & Hd & Hread & Hmatches); [done..|].
  pose proof (verdict_aliases _ _ _ contract q _ _ Hq' Hread H2) as Hnames.
  set (r := verify_end namespace (map_of hashed_.2) d).
  assert (vv_alias <$> vf_entries r = (vd_entries d).*1) as Hvf.
  { unfold r. cbn. rewrite <- list_fmap_compose. by apply list_fmap_ext. }
  assert (forall e, e ∈ parameters contract -> dc_alias e ∉ vv_alias <$> failures r <-> agrees groups pins e) as Hfail.
  { intros e He. rewrite failures_spec. destruct (Hentries e He) as (_ & _ & Hj & Ht).
    pose proof (fun y => verdict_of _ _ _ contract q _ _ e y Hq' Hread H2 He Hj Ht) as Hy. split.
    - intros Hn. assert (dc_alias e ∈ (vd_entries d).*1) as (y & Hey & Hin)%list_elem_of_fmap.
      { rewrite Hnames. apply list_elem_of_fmap. by exists e. }
      apply (Hy y Hin (eq_sym Hey)). destruct (decide (y.2 = v_match)) as [|Hne]; [done|]. exfalso. apply Hn.
      eexists. split_and!; [apply in_report; by exists y|done|done].
    - intros Ha (x & Hx & Hax & Hvx). apply in_report in Hx as (y & Hin & ->). by apply Hvx, (Hy y Hin Hax). }
  exists o, (map_of hashed_.2), q, r. split_and!; [done..| | |done|].
  - unfold verifyDefaults. rewrite Hbegin. cbn. unfold client, client_answer. rewrite Hq. unfold read_verdicts. by rewrite Hd.
  - by rewrite Hvf.
  - rewrite report_passed_spec, <- Hmatches. split; intros [Hs H]; (split; [done|]).
    + intros e He. apply Hfail; [done|]. rewrite H. set_solver.
    + apply (fmap_nil_inv vv_alias), elem_of_nil_inv. intros a Ha.
      assert (a ∈ dc_alias <$> parameters contract) as (e & -> & He)%list_elem_of_fmap.
      { rewrite <- Hnames, <- Hvf. apply failures_spec in Ha as (x & Hx & <- & _). apply list_elem_of_fmap. by exists x. }
      by apply (Hfail e He); [apply H|].
Qed.

(** A contract of two parameters and a secret, compared with a release that
    spells one document differently and has another text. The hash of the
    example keeps the first bytes. *)
Definition with_quotes (s : string) : jstr := (fun c => if c =? 39 then 34 else c) <$> js s.
Definition first_bytes (b : list Z) : jstr := hex_encode ((fun x => x mod 256) <$> take 32 (b ++ replicate 32 0)).

Lemma first_bytes_hex b : validLowerHex64 (first_bytes b) = true.
Proof.
  unfold validLowerHex64, schema_pattern, first_bytes. apply andb_true_iff. split.
  - assert (forall l, length (hex_encode l) = (2 * length l)%nat) as Hl.
    { induction l as [|x l IH]; [done|]. change (S (S (length (hex_encode l))) = (2 * S (length l))%nat). lia. }
    unfold strlen. rewrite Hl, length_fmap, length_take, length_app, length_replicate. apply Z.eqb_eq. lia.
  - apply forallb_forall. intros c Hc%list_elem_of_In. unfold hex_encode in Hc. apply list_elem_of_In, in_flat_map in Hc as (x & Hx & Hc).
    apply list_elem_of_In, list_elem_of_fmap in Hx as (y & -> & _).
    assert (forall d, 0 <= d < 16 -> is_lower_hex (hex_digit d) = true) as Hd.
    { intros d Hd. unfold is_lower_hex, is_digit, hex_digit. destruct (d <? 10) eqn:E; bool_prop; lia. }
    pose proof (Z.mod_pos_bound y 256 ltac:(lia)).
    destruct Hc as [<-|[<-|[]]]; apply Hd; Z.div_mod_to_equations; lia.
Qed.

Definition demo_contract : list DeclaredEntry :=
  [{| dc_alias := js "app"; dc_kind := js "parameter"; dc_contentType := Some (js "json") |};
   {| dc_alias := js "key"; dc_kind := js "secret"; dc_contentType := None |};
   {| dc_alias := js "motd"; dc_kind := js "parameter"; dc_contentType := Some (js "text") |}].
Definition demo_groups : list (jstr * option jstr) :=
  [(js "app", Some (with_quotes "{'b':1, 'a':[true]}")); (js "motd", Some (js "hi"))].
Definition demo_pins (alias : jstr) : option (jstr * payload) :=
  if decide (alias = js "app") then Some (js "json", PText (with_quotes "{'a':[true],'b':1}"))
  else if decide (alias = js "motd") then Some (js "text", PText (js "hello")) else None.
Definition demo_options : DefaultsOptions :=
  {| do_namespace := Some (js " prod/web"); do_release := None; do_profile := None; do_schemaVersion := Some (BigInt 1);
     do_call := {| o_signal := None; o_deadline := None |} |}.

Lemma demo_texts e : js_texts demo_groups demo_pins e.
Proof.
  assert (forall x, x ∈ map snd demo_groups -> from_option (Forall is_unit) True x) as Hg.
  { intros x Hx%list_elem_of_In. destruct Hx as [<-|[<-|[]]]; simpl; refine (bool_decide_unpack (Forall is_unit _) _); vm_compute; exact I. }
  split.
  - intros document Hd. unfold group in Hd. destruct (map_get (dc_alias e) demo_groups) as [[d|]|] eqn:E; [|done..].
    injection Hd as <-. apply map_get_Some_elem in E. apply (Hg (Some d)), list_elem_of_In, in_map_iff. exists (dc_alias e, Some d).
    split; [done|]. by apply list_elem_of_In.
  - intros ct document. unfold demo_pins. repeat case_decide; intros [= <- <-];
      refine (bool_decide_unpack (Forall is_unit _) _); vm_compute; exact I.
Qed.

Lemma verify_end_to_end_witness : exists r,
  verifyDefaults first_bytes (Some (fun v _ => client_answer (fun q => Ok (Some (reference_server first_bytes demo_pins true q))) v))
    (Some {| vi_schemaSha256 := []; vi_contract := Some demo_contract; vi_groups := Some demo_groups |}) demo_options = Ok r /\
  vv_alias <$> failures r = [js "motd"] /\ report_passed r = false.
Proof.
  destruct (verify_end_to_end first_bytes demo_groups demo_pins (reference_server first_bytes demo_pins true) demo_options
    (js "prod/web") {| env := js "prod"; app := js "web" |} [] demo_contract) as (o & types & q & r & _ & _ & _ & Hr & _).
  - apply first_bytes_hex.
  - apply reference_server_honest.
  - vm_compute; reflexivity.
  - vm_compute; reflexivity.
  - split; reflexivity.
  - refine (bool_decide_unpack (NoDup (dc_alias <$> parameters demo_contract)) _). vm_compute. exact I.
  - intros e He. apply list_elem_of_In in He. destruct He as [<-|[<-|[]]].
    + split_and!; [by split|..].
      * eexists _, _. split; [reflexivity|vm_compute; reflexivity].
      * apply demo_texts.
      * intros document b b' (d & [= <-] & Hb) [= <-] Hb' _. vm_compute in Hb, Hb'. congruence.
    + split_and!; [by split|..].
      * eexists _, _. split; [reflexivity|vm_compute; reflexivity].
      * apply demo_texts.
      * intros document b b' (d & [= <-] & Hb) [= <-] Hb' Hh. exfalso. revert Hh.
        vm_compute in Hb. injection Hb as <-. vm_compute in Hb'. injection Hb' as <-. vm_compute. discriminate.
  - exists r. split; [exact Hr|]. vm_compute in Hr. injection Hr as <-. split; vm_compute; reflexivity.
Defined.
