(* ===== verification/Route.v ===== *)
(** * Route: the GET handler of [sdk/typescript/src/next/server.ts].

    The public configuration over HTTP: the wire object of a provider is
    normalised, tagged with its revision and answered as 200, 304 or 503. The
    scanner of [If-None-Match] works on the rest of the header where the
    source moves an offset. Time stamps of the events are left out; the text
    of a number is a parameter. *)
From stdpp Require Import prelude gmap list strings.
From Stdlib Require Import ZArith Lia.
From S2P Require Import Prelude JsString JsMap Unicode Decimal StrictJson Clone Publishing.

(** ** The runtime *)

(** [process.versions?.node], [process.env.NEXT_RUNTIME] and [EdgeRuntime],
    where there is a [process]. *)
Record Runtime := { has_process : bool; has_node : bool; NEXT_RUNTIME : option jstr; has_EdgeRuntime : bool }.

(** It returns, or throws. *)
Definition assertNodeRuntime (r : Runtime) : bool :=
  has_process r && has_node r && bool_decide (NEXT_RUNTIME r <> Some (js "edge")) && negb (has_EdgeRuntime r).

(** ** [Cache-Control] *)

Definition MAX_PRIVATE_PUBLIC_CONFIG_AGE_SECONDS : Z := 300.

(** [PrivateAge None]: an object whose age is no integer. *)
Inductive cache_policy := NoStore | PrivateAge (privateMaxAgeSeconds : option Z) | NoPolicy.

Definition formatCacheControl (cache : cache_policy) : res failure jstr :=
  match cache with
  | NoStore => Ok (js "no-store")
  | NoPolicy => Throw (TypeError (js "public config cache policy is invalid"))
  | PrivateAge seconds =>
      let range := RangeError (js "private public config max age must be between 0 and "
                               ++ dec MAX_PRIVATE_PUBLIC_CONFIG_AGE_SECONDS ++ js " seconds") in
      match seconds with
      | Some s =>
          if (s <? 0) || (MAX_PRIVATE_PUBLIC_CONFIG_AGE_SECONDS <? s) then Throw range
          else Ok (js "private, max-age=" ++ dec s ++ js ", must-revalidate")
      | None => Throw range
      end
  end.

(** ** [If-None-Match] *)

(** [/[\t ]/] and [/[\t ,]/] *)
Definition is_ows (c : Z) : bool := (c =? 9) || (c =? 32).
Definition is_pad (c : Z) : bool := is_ows c || (c =? 44).

Fixpoint skip (p : Z -> bool) (s : jstr) : jstr :=
  match s with [] => [] | c :: t => if p c then skip p t else s end.
Fixpoint span (p : Z -> bool) (s : jstr) : jstr :=
  match s with [] => [] | c :: t => if p c then c :: span p t else [] end.

Fixpoint skipToNextListMember (s : jstr) : jstr :=
  match s with [] => [] | c :: s => if c =? 44 then s else skipToNextListMember s end.

Definition stripWeakPrefix (etag : jstr) : jstr := if startsWith (js "W/") etag then drop 2 etag else etag.

Definition not_quote (c : Z) : bool := negb (c =? 34).

(** The loop, with one unit of fuel a member. *)
Fixpoint match_members (fuel : nat) (target s : jstr) : bool :=
  match fuel with
  | O => false
  | S fuel =>
      match skip is_pad s with
      | [] => false
      | (c :: rest) as s =>
          if c =? 42 then
            match skip is_ows rest with
            | [] => true
            | d :: _ => if d =? 44 then true else match_members fuel target (skipToNextListMember rest)
            end
          else
            let prefix := if startsWith (js "W/") s then js "W/" else [] in
            match drop (length prefix) s with
            | [] => match_members fuel target []
            | q :: opaque =>
                if negb (q =? 34) then match_members fuel target (skipToNextListMember (q :: opaque))
                else match skip not_quote opaque with
                | [] => false
                | _ :: rest =>
                    let token := prefix ++ 34 :: span not_quote opaque ++ [34] in
                    match skip is_ows rest with
                    | [] => bool_decide (stripWeakPrefix token = target) || match_members fuel target []
                    | d :: after =>
                        if negb (d =? 44) then match_members fuel target (skipToNextListMember (d :: after))
                        else bool_decide (stripWeakPrefix token = target) || match_members fuel target after
                    end
                end
            end
      end
  end.

Definition ifNoneMatchMatches (header : option jstr) (current : jstr) : bool :=
  match header with
  | None => false
  | Some header => match_members (S (length header)) (stripWeakPrefix current) header
  end.

(** ** Responses *)

Record Response := { status : Z; body : option jstr; headers : list (jstr * jstr) }.

Inductive route_event :=
| public_config_served (revision : jstr)
| public_config_not_modified (revision : jstr)
| route_unavailable.

Definition unavailableResponse : Response :=
  {| status := 503;
     body := Some ([123; 34] ++ js "status" ++ [34; 58; 34] ++ js "unavailable" ++ [34; 125]);
     headers := [(js "Cache-Control", js "no-store"); (js "Content-Type", js "application/json; charset=utf-8");
                 (js "Retry-After", js "1"); (js "X-Content-Type-Options", js "nosniff")] |}.

Section route.
Context (object_prototype : loc).

(** [Number.prototype.toString] of a finite double, as [JSON.stringify]
    writes it. *)
Context (number_text : Z -> jstr).

(** [JSON.stringify] of a frozen copy: it has no [toJSON] functions. *)
Fixpoint stringify (j : pub) : jstr :=
  match j with
  | PNull => js "null"
  | PBoolean b => if b then js "true" else js "false"
  | PNumber bits => number_text bits
  | PText s => json_quote s
  | PArray l => [91] ++ join [44] (map stringify l) ++ [93]
  | PObject fs => [123] ++ join [44] (map (fun p => json_quote p.1 ++ [58] ++ stringify p.2) fs) ++ [125]
  end.

Definition wire_object (c : PublicConfigWire) : pub :=
  PObject [(js "revision", PText (w_revision c)); (js "config", PObject (w_config c))].

(** The answer of the provider: what [await read()] comes to, and the heap it
    leaves. *)
Definition respond (cacheControl : jstr) (If_None_Match : option jstr) (h : heap) (answer : res jsval jsval)
  : Response * route_event :=
  let unavailable := (unavailableResponse, route_unavailable) in
  match answer with
  | Throw _ | Ok (Prim Undefined) => unavailable
  | Ok candidate =>
      match (let* current := normalizePublicConfigWire object_prototype h candidate None in
             let* etag := formatPublicConfigEtag (Prim (Text (w_revision current))) in Ok (current, etag)) with
      | Throw _ => unavailable
      | Ok (current, etag) =>
          let commonHeaders := [(js "Cache-Control", cacheControl); (js "ETag", etag);
                                (js "X-Content-Type-Options", js "nosniff")] in
          if ifNoneMatchMatches If_None_Match etag then
            ({| status := 304; body := None; headers := commonHeaders |}, public_config_not_modified (w_revision current))
          else
            ({| status := 200; body := Some (stringify (wire_object current));
                headers := map_set (js "Content-Type") (js "application/json; charset=utf-8") commonHeaders |},
             public_config_served (w_revision current))
      end
  end.

(** An [Error], or what the module's helpers throw. *)
Inductive route_failure := RuntimeError (message : jstr) | Refused (f : failure).

(** What a handler closes over. A provider is a function, an adapter, or
    neither; its answer may depend on the heap, and changes it. *)
Record Route := { provider : heap -> heap * res jsval jsval; cacheControl : jstr; route_onEvent : option (heap -> route_event -> heap) }.

Definition createPublicConfigGET (r : Runtime) (p : option (heap -> heap * res jsval jsval)) (cache : option cache_policy)
    (onEvent : hook (heap -> route_event -> heap)) : res route_failure Route :=
  if negb (assertNodeRuntime r) then
    Throw (RuntimeError (js "@suhaibinator/kms/next/server requires the Next.js Node runtime"))
  else match p with
  | None => Throw (Refused (TypeError (js "public config provider must be a function or adapter")))
  | Some read =>
      match formatCacheControl (default NoStore cache), onEvent with
      | Throw f, _ => Throw (Refused f)
      | Ok control, Missing => Ok {| provider := read; cacheControl := control; route_onEvent := None |}
      | Ok control, Hook f => Ok {| provider := read; cacheControl := control; route_onEvent := Some f |}
      | Ok _, NotFunction => Throw (Refused (TypeError (js "public config route onEvent must be a function")))
      end
  end.

(** An observer that throws or rejects is ignored. *)
Definition observe_route (R : Route) (e : route_event) (h : heap) : heap :=
  match route_onEvent R with Some f => f h e | None => h end.

(** The handler on a request with this [If-None-Match]. *)
Definition GET (R : Route) (If_None_Match : option jstr) (h : heap) : heap * Response :=
  let '(h, answer) := provider R h in
  let '(response, e) := respond (cacheControl R) If_None_Match h answer in
  (observe_route R e h, response).
End route.
