(* ===== verification/RouteSpec.v ===== *)
(** * RouteSpec: conditional requests for the public configuration.

    The scanner of [If-None-Match] against the grammar of the field, and the
    answers of a handler whose provider is a policy publisher. *)
From stdpp Require Import prelude gmap list strings.
From Stdlib Require Import ZArith Lia.
From S2P Require Import Prelude JsString JsMap Unicode Decimal StrictJson StrictJsonProofs Clone CloneProofs Publishing PublishingProofs PublishingSpec Route.

#[local] Opaque is_finite.

(** ** The grammar of [If-None-Match] *)

(** [*], or an entity tag; and the field, a list with empty elements. *)
Inductive member := Any | Tag (weak : bool) (opaque : jstr).

Definition member_text (m : member) : jstr :=
  match m with Any => [42] | Tag weak o => (if weak then js "W/" else []) ++ 34 :: o ++ [34] end.

Definition member_ok (m : member) : Prop := match m with Any => True | Tag _ o => Forall (fun c => not_quote c = true) o end.

Definition all (p : Z -> bool) (s : jstr) : Prop := Forall (fun c => p c = true) s.

Inductive field_list : jstr -> list member -> Prop :=
| fl_none pad : all is_pad pad -> field_list pad []
| fl_last pad m ows : all is_pad pad -> member_ok m -> all is_ows ows -> field_list (pad ++ member_text m ++ ows) [m]
| fl_cons pad m ows h ms :
    all is_pad pad -> member_ok m -> all is_ows ows -> field_list h ms ->
    field_list (pad ++ member_text m ++ ows ++ 44 :: h) (m :: ms).

(** Weak comparison with an opaque tag, quotes included. *)
Definition hits (target : jstr) (ms : list member) : Prop :=
  Any ∈ ms \/ exists weak o, Tag weak o ∈ ms /\ 34 :: o ++ [34] = target.

(** ** Scanning *)

Lemma skip_all p s t : all p s -> skip p (s ++ t) = skip p t.
Proof. induction 1 as [|c s Hc _ IH]; [done|]. simpl. by rewrite Hc. Qed.

Lemma skip_stop p c t : p c = false -> skip p (c :: t) = c :: t.
Proof. simpl. by intros ->. Qed.

Lemma span_all p s c t : all p s -> p c = false -> span p (s ++ c :: t) = s.
Proof. induction 1 as [|d s Hd _ IH]; simpl; intros Hc; [by rewrite Hc|]. rewrite Hd. f_equal. by apply IH. Qed.

Lemma span_skip p s : span p s ++ skip p s = s.
Proof. induction s as [|c s IH]; [done|]. simpl. destruct (p c); simpl; [by rewrite IH|done]. Qed.

Lemma skip_head p s c t : skip p s = c :: t -> p c = false.
Proof. induction s as [|d s IH]; simpl; [done|]. destruct (p d) eqn:E; [done|]. by intros [= <- <-]. Qed.

Lemma span_props p s : all p (span p s).
Proof. induction s as [|c s IH]; simpl; [constructor|]. destruct (p c) eqn:E; [by constructor|constructor]. Qed.

Lemma skip_length p s : (length (skip p s) <= length s)%nat.
Proof. induction s as [|c s IH]; simpl; [lia|]. destruct (p c); simpl; lia. Qed.

(** What the scanner does at a member that is followed by the end or by a comma. *)
Lemma match_member fuel target m ows t :
  member_ok m -> all is_ows ows -> t = [] \/ (exists h, t = 44 :: h) ->
  match_members (S fuel) target (member_text m ++ ows ++ t) =
  match m with
  | Any => true
  | Tag _ o => bool_decide (34 :: o ++ [34] = target) || match_members fuel target (tail t)
  end.
Proof.
  intros Hm Ho Ht.
  assert (skip is_ows (ows ++ t) = t) as Hskip.
  { rewrite skip_all by done. by destruct Ht as [->|[h ->]]. }
  destruct m as [|weak o].
  - cbn [match_members member_text app skip is_pad is_ows Z.eqb Pos.eqb orb]. rewrite Hskip. by destruct Ht as [->|[h ->]].
  - assert (forall r, skip not_quote (o ++ 34 :: r) = 34 :: r) as Hq by (intros r; by rewrite skip_all).
    assert (forall r, span not_quote (o ++ 34 :: r) = o) as Hs by (intros r; by apply span_all).
    assert (stripWeakPrefix (34 :: o ++ [34]) = 34 :: o ++ [34]) as Hw by done.
    assert (forall r, startsWith (js "W/") (87 :: 47 :: r) = true) as Hyes by done.
    assert (forall r, startsWith (js "W/") (34 :: r) = false) as Hno by (intros r; by apply bool_decide_false).
    cbn [member_text]. rewrite <- !(assoc_L (++)). cbn [app]. rewrite <- !(assoc_L (++)). cbn [app]. destruct weak.
    + change (js "W/") with [87; 47]. cbn [app match_members skip is_pad is_ows Z.eqb Pos.eqb orb].
      rewrite Hyes. cbn [js length drop]. change (length (js "W/")) with 2%nat. cbn [drop negb Z.eqb Pos.eqb].
      rewrite Hq, Hs, Hskip. destruct Ht as [->|[h ->]]; [done|]. done.
    + cbn [app match_members skip is_pad is_ows Z.eqb Pos.eqb orb]. rewrite Hno. cbn [length drop negb Z.eqb Pos.eqb app].
      rewrite Hq, Hs, Hskip, Hw. by destruct Ht as [->|[h ->]].
Qed.

Lemma skip_pads pad m t : all is_pad pad -> skip is_pad (pad ++ member_text m ++ t) = skip is_pad (member_text m ++ t).
Proof. intros H. by rewrite skip_all. Qed.

Lemma match_pads fuel target pad t :
  all is_pad pad -> match_members (S fuel) target (pad ++ t) = match_members (S fuel) target t.
Proof. intros H. cbn [match_members]. by rewrite skip_all. Qed.

Lemma member_text_length m : (1 <= length (member_text m))%nat.
Proof. destruct m as [|[] o]; cbn [member_text]; rewrite ?length_app; simpl; lia. Qed.

Lemma hits_cons target m ms :
  hits target (m :: ms) <-> match m with Any => True | Tag _ o => 34 :: o ++ [34] = target end \/ hits target ms.
Proof.
  unfold hits. setoid_rewrite elem_of_cons. destruct m as [|weak o]; split.
  - by left.
  - intros _. by left; left.
  - intros [[?|H]|(w & o' & [[= -> ->]|H] & E)]; [done|by right; left|by left|]. right. right. by eauto.
  - intros [E|[H|(w & o' & H & E)]]; [right; eauto|by left; right|right; eauto].
Qed.

Lemma hits_nil target : ~ hits target [].
Proof. intros [H|(w & o & H & _)]; by apply elem_of_nil in H. Qed.

Lemma match_field_list h ms target fuel :
  field_list h ms -> (length h < fuel)%nat -> match_members fuel target h = true <-> hits target ms.
Proof.
  intros H. revert fuel. induction H as [pad Hp|pad m ows Hp Hm Ho|pad m ows h ms Hp Hm Ho _ IH]; intros [|fuel] Hf; try lia.
  - rewrite <- (app_nil_r pad), match_pads by done. simpl. split; [done|]. by intros []%hits_nil.
  - rewrite match_pads by done. rewrite <- (app_nil_r ows), match_member by auto. rewrite hits_cons.
    destruct m as [|weak o]; [split; auto|]. rewrite orb_true_iff, bool_decide_eq_true. cbn [tail].
    destruct fuel as [|fuel]; (split; intros [E|E]; [by left| |by left|by apply hits_nil in E]); [done|done].
  - rewrite match_pads by done. rewrite match_member by eauto. rewrite hits_cons. cbn [tail].
    destruct m as [|weak o]; [split; auto|]. rewrite orb_true_iff, bool_decide_eq_true.
    rewrite IH; [done|]. rewrite !length_app in Hf. cbn [length] in Hf. lia.
Qed.

(** On any header: a match is a member between commas. *)
Definition list_member (h tok : jstr) : Prop :=
  exists a ows b, h = a ++ tok ++ ows ++ b /\ all is_ows ows /\
    (a = [] \/ exists a' c, a = a' ++ [c] /\ is_pad c = true) /\ (b = [] \/ exists b', b = 44 :: b').

Lemma list_member_after a s tok :
  a = [] \/ (exists a' c, a = a' ++ [c] /\ is_pad c = true) -> list_member s tok -> list_member (a ++ s) tok.
Proof.
  intros Ha (a1 & ows & b & -> & Ho & Ha1 & Hb). exists (a ++ a1), ows, b. split_and!; [by rewrite <- (assoc_L (++))|done| |done].
  destruct Ha1 as [->|(a' & c & -> & Hc)]; [by rewrite app_nil_r|]. right. exists (a ++ a'), c. by rewrite (assoc_L (++)).
Qed.

Lemma next_member_suffix s : exists a, s = a ++ skipToNextListMember s /\
  (skipToNextListMember s = [] \/ exists a', a = a' ++ [44]).
Proof.
  induction s as [|c s (a & Hs & Ha)]; [exists []; split; [done|by left]|]. simpl. destruct (Z.eqb_spec c 44) as [->|Hc].
  - exists [44]. split; [done|]. right. by exists [].
  - exists (c :: a). rewrite Hs at 1. split; [done|]. destruct Ha as [Ha|[a' ->]]; [by left|]. right. by exists (c :: a').
Qed.

Lemma match_nil fuel target : match_members fuel target [] = false.
Proof. by destruct fuel. Qed.

Lemma list_member_next fuel target p s tok :
  match_members fuel target (skipToNextListMember s) = true ->
  list_member (skipToNextListMember s) tok -> list_member (p ++ s) tok.
Proof.
  intros Hm H. destruct (next_member_suffix s) as (a & Hs & Ha). rewrite Hs, (assoc_L (++)).
  destruct Ha as [He|[a' ->]]; [by rewrite He, match_nil in Hm|].
  apply list_member_after; [|done]. right. exists (p ++ a'), 44. by rewrite (assoc_L (++)).
Qed.

Definition tag_of (target tok : jstr) : Prop := exists m, tok = member_text m /\ member_ok m /\ hits target [m].

Lemma padded s : exists a, s = a ++ skip is_pad s /\ (a = [] \/ exists a' c, a = a' ++ [c] /\ is_pad c = true).
Proof.
  exists (span is_pad s). split; [by rewrite span_skip|]. pose proof (span_props is_pad s) as Hp.
  destruct (span is_pad s) as [|c l] using rev_ind; [by left|]. right. exists l, c. split; [done|].
  apply Forall_app in Hp as [_ Hp]. by inversion Hp.
Qed.

Lemma startsWith_W s : startsWith (js "W/") s = true -> s = js "W/" ++ drop 2 s.
Proof. unfold startsWith. rewrite bool_decide_eq_true. intros H. rewrite <- (take_drop 2 s) at 1. by f_equal. Qed.

Lemma match_sound fuel target s :
  match_members fuel target s = true -> exists tok, list_member s tok /\ tag_of target tok.
Proof.
  revert s. induction fuel as [|fuel IH]; intros s Hm; [done|]. cbn [match_members] in Hm.
  destruct (padded s) as (a & Hs & Ha). rewrite Hs. destruct (skip is_pad s) as [|c rest] eqn:Hsk; [done|].
  enough (exists tok, list_member (c :: rest) tok /\ tag_of target tok) as (tok & Ht & Hg)
    by (exists tok; split; [by apply list_member_after|done]).
  clear s Hs Hsk a Ha. destruct (Z.eqb_spec c 42) as [->|Hc].
  - assert (forall d after, skip is_ows rest = d :: after -> rest = span is_ows rest ++ d :: after) as Hsp
      by (intros d after <-; by rewrite span_skip).
    assert (tag_of target [42]) as Hstar by (exists Any; split_and!; [done..|left; by left]).
    destruct (skip is_ows rest) as [|d after] eqn:Ho.
    + exists [42]. split; [|done]. exists [], (span is_ows rest), []. split_and!; [|apply span_props|by left|by left].
      pose proof (span_skip is_ows rest) as E. rewrite Ho in E. by rewrite E.
    + destruct (Z.eqb_spec d 44) as [->|Hd].
      * exists [42]. split; [|done]. exists [], (span is_ows rest), (44 :: after).
        split_and!; [by rewrite <- Hsp|apply span_props|by left|right; by eexists].
      * apply IH in Hm as H. destruct H as (tok & Ht & Hg). exists tok. split; [|done].
        by apply (list_member_next fuel target [42] rest tok).
  - set (s := c :: rest) in *. set (prefix := if startsWith (js "W/") s then js "W/" else []) in *.
    assert (s = prefix ++ drop (length prefix) s) as Hpre.
    { unfold prefix. destruct (startsWith (js "W/") s) eqn:E; [by apply startsWith_W|done]. }
    destruct (drop (length prefix) s) as [|q opaque] eqn:Hdrop; [by rewrite match_nil in Hm|].
    destruct (Z.eqb_spec q 34) as [->|Hq]; cbn [negb] in Hm.
    2: { apply IH in Hm as H. destruct H as (tok & Ht & Hg). exists tok. split; [|done].
         rewrite Hpre. by apply (list_member_next fuel target prefix (q :: opaque) tok). }
    destruct (skip not_quote opaque) as [|q' rest'] eqn:Hsk; [done|].
    assert (q' = 34) as ->.
    { apply skip_head in Hsk. unfold not_quote in Hsk. destruct (Z.eqb_spec q' 34); [done|done]. }
    pose proof (span_skip not_quote opaque) as Eo. rewrite Hsk in Eo.
    set (o := span not_quote opaque) in *. set (token := prefix ++ 34 :: o ++ [34]) in *.
    assert (s = token ++ rest') as Hs.
    { rewrite Hpre, <- Eo. unfold token. rewrite <- !(assoc_L (++)). cbn [app]. by rewrite <- !(assoc_L (++)). }
    assert (stripWeakPrefix token = target -> tag_of target token) as Htag.
    { intros E. exists (Tag (startsWith (js "W/") s) o). split_and!; [by unfold token, prefix; destruct (startsWith _ s)|apply span_props|].
      right. exists (startsWith (js "W/") s), o. split; [by left|]. rewrite <- E. unfold token, prefix, stripWeakPrefix.
      destruct (startsWith (js "W/") s); [done|]. cbn [app]. unfold startsWith. by rewrite bool_decide_false. }
    destruct (skip is_ows rest') as [|d after] eqn:Ho.
    + rewrite match_nil, orb_false_r in Hm. apply bool_decide_eq_true in Hm. exists token. split; [|by apply Htag].
      exists [], (span is_ows rest'), []. split_and!; [|apply span_props|by left|by left].
      pose proof (span_skip is_ows rest') as E. rewrite Ho in E. by rewrite E.
    + pose proof (span_skip is_ows rest') as E. rewrite Ho in E. destruct (Z.eqb_spec d 44) as [->|Hd]; cbn [negb] in Hm.
      * apply orb_true_iff in Hm as [Hm|Hm].
        -- apply bool_decide_eq_true in Hm. exists token. split; [|by apply Htag].
           exists [], (span is_ows rest'), (44 :: after). split_and!; [by rewrite E|apply span_props|by left|right; by eexists].
        -- apply IH in Hm as (tok & Ht & Hg). exists tok. split; [|done]. rewrite Hs, <- E.
           replace (token ++ span is_ows rest' ++ 44 :: after) with ((token ++ span is_ows rest' ++ [44]) ++ after)
             by (by rewrite <- !(assoc_L (++))).
           apply list_member_after; [|done]. right. exists (token ++ span is_ows rest'), 44. by rewrite (assoc_L (++)).
      * apply IH in Hm as H. destruct H as (tok & Ht & Hg). exists tok. split; [|done]. rewrite Hs, <- E.
        rewrite (assoc_L (++)). by apply (list_member_next fuel target _ (d :: after) tok).
Qed.

(** [If-None-Match] is understood. On every header of the grammar (tags,
    weak or strong, [*], white space and empty elements, commas inside tags)
    the handler's scanner finds a match exactly when the field has [*] or an
    entity tag that is the current one under weak comparison; and on any
    header at all, however malformed, a match means that the current tag, or
    [*], stands between commas in it. *)
Theorem if_none_match_exact header current :
  (forall ms, field_list header ms ->
     ifNoneMatchMatches (Some header) current = true <-> hits (stripWeakPrefix current) ms) /\
  (ifNoneMatchMatches (Some header) current = true ->
     exists tok, list_member header tok /\ tag_of (stripWeakPrefix current) tok).
Proof.
  split.
  - intros ms H. apply match_field_list; [done|lia].
  - apply match_sound.
Qed.

Lemma if_none_match_exact_witness :
  let header := js ",W/" ++ 34 :: js "a,b" ++ 34 :: js " , " ++ 34 :: js "c" ++ [34] in
  ifNoneMatchMatches (Some header) (34 :: js "a,b" ++ [34]) = true /\
  ifNoneMatchMatches (Some header) (34 :: js "b" ++ [34]) = false.
Proof.
  intros header. assert (field_list header [Tag true (js "a,b"); Tag false (js "c")]) as H.
  { apply (fl_cons [44] (Tag true (js "a,b")) [32] _ [Tag false (js "c")]);
      [repeat constructor|repeat constructor|repeat constructor|].
    apply (fl_last [32] (Tag false (js "c")) []); repeat constructor. }
  split.
  - apply (if_none_match_exact header (34 :: js "a,b" ++ [34])) in H. apply H. right. exists true, (js "a,b"). by split; [left|].
  - apply (if_none_match_exact header (34 :: js "b" ++ [34])) in H. destruct (ifNoneMatchMatches _ _); [|done].
    exfalso. destruct (proj1 H eq_refl) as [Hs|(w & o & Ho & E)].
    + repeat apply elem_of_cons in Hs as [[=]|Hs]. by apply elem_of_nil in Hs.
    + apply elem_of_cons in Ho as [[= -> ->]|Ho]; [by vm_compute in E|].
      apply elem_of_cons in Ho as [[= -> ->]|Ho]; [by vm_compute in E|]. by apply elem_of_nil in Ho.
Defined.

(** ** Bodies *)

Section bodies.
Context (number_text : Z -> jstr).

(** The document a copy is printed as. *)
Fixpoint node_of (j : pub) : JsonNode :=
  match j with
  | PNull => NNull
  | PBoolean b => NBool b
  | PNumber bits => NNumber (number_text bits)
  | PText s => NString s
  | PArray l => NArray (map node_of l)
  | PObject fs => NObject (map (fun p => (p.1, node_of p.2)) fs)
  end.

Lemma stringify_node j : stringify number_text j = stringifyJsonNode (node_of j).
Proof using.
  revert j. fix IH 1. intros [| | | |l|fs]; cbn [stringify node_of stringifyJsonNode]; [done..| |].
  - f_equal. f_equal. f_equal. rewrite map_map. induction l as [|j l IHl]; [done|]. cbn [map]. by rewrite IH, IHl.
  - f_equal. f_equal. f_equal. rewrite map_map. induction fs as [|[k j] fs IHl]; [done|]. cbn [map fst snd]. by rewrite IH, IHl.
Qed.

Lemma body_parses j : node_wf MAX_JSON_DEPTH (node_of j) -> parseStrictJson (stringify number_text j) = Ok (node_of j).
Proof using. rewrite stringify_node. apply parse_of_print. Qed.
End bodies.

(** ** A handler over a publisher *)

Definition revision_tag (z : Z) : jstr := js "kms-public-config-" ++ dec z.
Definition etag_of (z : Z) : jstr := 34 :: revision_tag z ++ [34].

Section handler.
Context (object_prototype : loc) (number_text : Z -> jstr).

(** The provider is [readWire]; its frozen answer is on the heap. *)
Definition provide (w : World) (r : res failure (option PublicConfigWire)) : heap * res jsval jsval :=
  match r with
  | Ok (Some c) => let '(h, v) := embed object_prototype (objects w) (wire_object c) in (h, Ok v)
  | Ok None => (objects w, Ok (Prim Undefined))
  | Throw _ => (objects w, Throw (Prim Undefined))
  end.

Definition serve (P : Publisher) (cacheControl : jstr) (header : option jstr) (w : World) : World * Response :=
  let '(w, r) := readWire object_prototype P w in
  let '(h, answer) := provide w r in
  (with_objects h w, (respond object_prototype number_text cacheControl header h answer).1).

Lemma etag_of_text z : is_uint64 z = true -> formatPublicConfigEtag (Prim (Text (dec z))) = Ok (etag_of z).
Proof using.
  intros Hz. unfold formatPublicConfigEtag. rewrite (proj2 (parseRevision_spec (Prim (Text (dec z))) z)) by done.
  rewrite formatRevision_Ok by done. unfold etag_of, revision_tag. by rewrite <- (assoc_L (++)).
Qed.

Lemma respond_wire cacheControl header h z c :
  heap_wf h -> is_uint64 z = true -> w_revision c = dec z -> pub_ok (PObject (w_config c)) ->
  let r := embed object_prototype h (wire_object c) in
  (respond object_prototype number_text cacheControl header r.1 (Ok r.2)).1 =
  let common := [(js "Cache-Control", cacheControl); (js "ETag", etag_of z); (js "X-Content-Type-Options", js "nosniff")] in
  if ifNoneMatchMatches header (etag_of z) then {| status := 304; body := None; headers := common |}
  else {| status := 200; body := Some (stringify number_text (wire_object c));
          headers := map_set (js "Content-Type") (js "application/json; charset=utf-8") common |}.
Proof using.
  intros W Hz Hr Hok r. pose proof (wire_reads_back object_prototype h z c W Hz Hr Hok) as E.
  change (embed object_prototype h (PObject _)) with r in E. simpl in E. unfold respond. rewrite E, Hr, (etag_of_text z Hz).
  assert (exists l, r.2 = Ref l) as [l ->].
  { unfold r, wire_object. cbn [embed]. destruct (embed_all _ h _) as [h' vs]. by eexists. }
  by destruct (ifNoneMatchMatches _ _).
Qed.

Lemma readWire_heap P w :
  civil P -> (forall f h e, onEvent P = Some f -> heap_wf h -> heap_wf (f h e)) -> heap_wf (objects w) ->
  heap_wf (objects (readWire object_prototype P w).1).
Proof using.
  intros Hc Ho W. pose proof (generation_wf P w Hc W) as Wg.
  assert (forall e u, heap_wf (objects u) -> heap_wf (objects (observe P e u))) as Hobs.
  { intros e u Hu. unfold observe. destruct (onEvent P) as [f|] eqn:E; [by apply Ho|done]. }
  unfold readWire. destruct (readSnapshot P w) as [u [[s|]|e]]; simpl in Wg |- *; [|by apply Hobs|done].
  unfold project_wire, projectSnapshot. destruct (project_policy P (objects u) s.2) as [h r] eqn:Hp.
  assert (heap_wf h) as Wh by (by eapply (cv_project P Hc)).
  destruct (let* c := _ in toWire c) as [c|e]; [by apply Hobs|done].
Qed.
End handler.

Lemma revision_tag_ok z : 0 <= z -> member_ok (Tag false (revision_tag z)).
Proof.
  intros Hz. unfold revision_tag, member_ok. apply Forall_app. split.
  { refine (bool_decide_unpack (Forall (fun c => not_quote c = true) (js "kms-public-config-")) _). by vm_compute. }
  assert (dec z = dec_nat z) as -> by (unfold dec; by rewrite (proj2 (Z.ltb_ge _ _))).
  eapply Forall_impl; [by apply dec_nat_digits|]. unfold is_digit, not_quote. intros c Hc. bool_prop. apply negb_true_iff, Z.eqb_neq. lia.
Qed.

Lemma revision_tag_inj a b : 0 <= a -> 0 <= b -> revision_tag a = revision_tag b -> a = b.
Proof. intros Ha Hb E. apply (app_inv_head (js "kms-public-config-")) in E. by apply dec_inj. Qed.

Lemma hits_revision z ms :
  hits (stripWeakPrefix (etag_of z)) ms <-> Any ∈ ms \/ exists weak, Tag weak (revision_tag z) ∈ ms.
Proof.
  assert (stripWeakPrefix (etag_of z) = etag_of z) as ->.
  { unfold stripWeakPrefix, etag_of, startsWith. by rewrite bool_decide_false. }
  unfold hits, etag_of. split; (intros [H|H]; [by left|right]).
  - destruct H as (weak & o & H & E). exists weak. apply (f_equal (@tail Z)) in E. cbn [tail] in E.
    apply app_inv_tail in E. by rewrite <- E.
  - destruct H as [weak H]. by exists weak, (revision_tag z).
Qed.

(** C15: conditional requests for the published configuration. Whenever the
    policy has a generation with a public view, a handler over the publisher
    answers about that generation: the tag of the answer is that of its
    revision, the caching directive is the configured one, and the status is
    304, without a body, exactly when [If-None-Match] has [*] or that tag,
    weak or strong; so a client that sends the tag of an earlier answer gets
    304 exactly when the revision has not changed. Otherwise the status is
    200 and the body is a JSON document that parses back to the revision and
    the view. Without such a generation the answer is the 503 that nobody may
    store. *)
Theorem conditional_get object_prototype number_text o P w cacheControl header :
  createPolicyPublisher o = Ok P -> civil P -> (forall f h e, onEvent P = Some f -> heap_wf h -> heap_wf (f h e)) ->
  heap_wf (objects w) ->
  let r := (serve object_prototype number_text P cacheControl header w).2 in
  (forall z v fs, captured P w z v -> public_view object_prototype P (generation P w).1 v fs ->
     let node := node_of number_text (wire_object {| w_revision := dec z; w_config := fs |}) in
     map_get (js "ETag") (headers r) = Some (etag_of z) /\ map_get (js "Cache-Control") (headers r) = Some cacheControl /\
     (status r = 304 /\ body r = None \/
      status r = 200 /\ (node_wf MAX_JSON_DEPTH node -> exists b, body r = Some b /\ parseStrictJson b = Ok node)) /\
     (header = None -> status r = 200) /\
     (forall h ms, header = Some h -> field_list h ms ->
        status r = 304 <-> Any ∈ ms \/ exists weak, Tag weak (revision_tag z) ∈ ms) /\
     (forall z', 0 <= z' -> header = Some (etag_of z') -> status r = 304 <-> z' = z)) /\
  ((forall z v fs, captured P w z v -> ~ public_view object_prototype P (generation P w).1 v fs) -> r = unavailableResponse).
Proof.
  intros HP Hc Ho W r. pose proof (publisher_keys _ _ HP) as Hk.
  pose proof (readWire_spec object_prototype P w Hk Hc W) as Hread. pose proof (readWire_heap object_prototype P w Hc Ho W) as W'.
  unfold r, serve. destruct (readWire object_prototype P w) as [w' a]. simpl in Hread, W'. split.
  - intros z v fs Hcap Hv. pose proof Hcap as [_ Hz].
    assert (a = Ok (Some {| w_revision := dec z; w_config := fs |})) as ->.
    { apply (Hread {| w_revision := dec z; w_config := fs |}). by exists z, v. }
    cbn [provide]. set (c := {| w_revision := dec z; w_config := fs |}) in *.
    pose proof (respond_wire object_prototype number_text cacheControl header (objects w') z c W' Hz eq_refl
      (view_ok object_prototype P w z v fs Hc W Hcap Hv)) as E.
    destruct (embed object_prototype (objects w') (wire_object c)) as [h x]. cbn [snd fst] in E |- *. rewrite E. clear E.
    assert (forall h ms, header = Some h -> field_list h ms ->
      ifNoneMatchMatches header (etag_of z) = true <-> Any ∈ ms \/ exists weak, Tag weak (revision_tag z) ∈ ms) as Hm.
    { intros s ms -> Hs. rewrite <- hits_revision. unfold ifNoneMatchMatches. apply match_field_list; [done|lia]. }
    set (hit := ifNoneMatchMatches header (etag_of z)) in *. assert (header = None -> hit = false) as Hnone by (by intros E; unfold hit; rewrite E).
    assert (forall z', 0 <= z' -> header = Some (etag_of z') -> hit = true <-> z' = z) as Htag.
    { intros z' Hz' E. rewrite (Hm (etag_of z') [Tag false (revision_tag z')] E).
      - unfold is_uint64 in Hz. setoid_rewrite list_elem_of_singleton. split; [|intros ->; right; by exists false].
        intros [Ha|[weak Ht]]; [discriminate Ha|]. apply (f_equal (fun m => match m with Any => [] | Tag _ o => o end)) in Ht.
        symmetry. apply revision_tag_inj in Ht; [done|lia|done].
      - rewrite <- (app_nil_r (etag_of z')). apply (fl_last [] (Tag false (revision_tag z')) []); [constructor|by apply revision_tag_ok|constructor]. }
    destruct hit; cbn [status body headers].
    + split_and!; [done|done|by left|by intros E%Hnone|by intros s ms Hs Hf; rewrite <- (Hm s ms Hs Hf)|].
      intros z' Hz' E. by rewrite <- (Htag z' Hz' E).
    + split_and!; [done|done| |done| |].
      * right. split; [done|]. intros Hwf. eexists. split; [done|]. by apply body_parses.
      * intros s ms Hs Hf. rewrite <- (Hm s ms Hs Hf). by split.
      * intros z' Hz' E. rewrite <- (Htag z' Hz' E). by split.
  - intros Hno. destruct a as [[c|]|e]; [|done..].
    exfalso. destruct (proj1 (proj2 (Hread c)) eq_refl) as (z & v & Hcap & _ & Hv). by apply (Hno z v (w_config c)).
Qed.

(** The witness: the view has a number and a list; a client with the tag of
    revision 10 holds the current one, a client without a tag gets the body. *)
Definition demo_number_text (bits : Z) : jstr := js "1".

Lemma conditional_get_witness :
  status (serve 0 demo_number_text demo_publisher (js "no-store") (Some (etag_of 10)) demo_world).2 = 304 /\
  exists b, body (serve 0 demo_number_text demo_publisher (js "no-store") None demo_world).2 = Some b /\
    is_ok (parseStrictJson b) = true.
Proof.
  assert (captured demo_publisher demo_world 10 (Ref 1)) as Hcap by done.
  assert (public_view 0 demo_publisher (generation demo_publisher demo_world).1 (Ref 1) demo_view) as Hv.
  { destruct (read_spec 0 demo_publisher demo_world (publisher_keys _ _ demo_publisher_ok) demo_civil demo_policy_wf
      {| c_revision := 10; c_config := demo_view |}) as (_ & [H _] & _).
    destruct H as (v & Hcap' & Hv); [by vm_compute|]. by destruct (captured_unique _ _ _ _ _ _ Hcap Hcap') as [_ ->]. }
  split.
  - destruct (conditional_get 0 demo_number_text demo_publisher_options demo_publisher demo_world (js "no-store")
      (Some (etag_of 10)) demo_publisher_ok demo_civil ltac:(done) demo_policy_wf) as [H _].
    destruct (H 10 (Ref 1) demo_view Hcap Hv) as (_ & _ & _ & _ & _ & Ht). by apply (Ht 10).
  - destruct (conditional_get 0 demo_number_text demo_publisher_options demo_publisher demo_world (js "no-store")
      None demo_publisher_ok demo_civil ltac:(done) demo_policy_wf) as [H _].
    destruct (H 10 (Ref 1) demo_view Hcap Hv) as (_ & _ & [[Hs _]|[_ Hb]] & Hn & _ & _); [by rewrite Hn in Hs|].
    destruct Hb as (b & Hb & Hp); [|exists b; split; [exact Hb|by rewrite Hp]].
    set (node := node_of _ _). refine (proj1 (strict_json_sound (stringifyJsonNode node) node _ _)).
    + refine (bool_decide_unpack (Forall is_unit _) _). by vm_compute.
    + by vm_compute.
Defined.
