(* ===== verification/NextKms.v ===== *)
(** * NextKms: the process-local lifecycle of [sdk/typescript/src/next/server.ts].

    [createNextKms]: one shared initialization at a time, one permanent close,
    reads that initialize on demand, and shutdown hooks on process signals.
    Each stretch of code between two [await]s is one operation; what the
    application's initializer hands over is numbered, so that its use and its
    release can be told apart. A hook that throws at once is one that rejects
    before anything else happens. *)
From stdpp Require Import prelude gmap list strings.
From Stdlib Require Import ZArith Lia.
From S2P Require Import Prelude JsString JsMap Clone Publishing Route.

(** ** Values of the application *)

(** The [close] of a value: absent or [undefined], a function, or neither;
    [null] counts as absent for the call and as wrong for the check. *)
Inductive close_hook := NoClose | NullClose | CloseFunction | BadClose.

(** What [initialize] resolves with: [undefined], [null], a value whose source
    is no snapshot reader, or one with a source. *)
Inductive given :=
| GivenUndefined
| GivenNull
| Given (source : option (nat -> heap -> heap * res jsval answer)) (hook : close_hook).

Record CreateNextKmsOptions := {
  nx_project : Publishing.hook (heap -> jsval -> heap * res failure jsval);
  nx_keys : option (list jsval);
  nx_validate : Publishing.hook (heap -> jsval -> jsval -> heap * res jsval decision);
  nx_onPublisherEvent : Publishing.hook (heap -> event -> heap)
}.

Inductive kms_error :=
| NextKmsClosedError
| NotNodeRuntime
| InitializeFailed (e : jsval)
| InvalidResource
| PublisherRefused (f : failure)
| CloseFailed (e : jsval)
| NotCallable
| ReadFailed (f : failure).

(** ** State *)

(** An initialization: its microtask is queued; [initialize] is under way; the
    value it gave is being closed, for this error; its function has returned;
    the promise has settled. *)
Inductive attempt :=
| Queued
| Initializing
| Cleaning (hand : nat) (e : kms_error)
| Returned (r : res kms_error unit)
| Settled (r : res kms_error unit).

(** [finish] of [close]: it awaits the start attempt it found, then the
    [close] of the resource it took. *)
Inductive closing := NotClosing | AwaitStart (start : option nat) | AwaitClose | Closed (r : res kms_error unit).

Inductive kind := Start | ReadPolicy | ReadPublicPolicy | ValidateAtRevision (revision input : jsval).
Inductive wait := OnRejection (e : kms_error) | OnNothing | OnAttempt (id : nat).
Inductive value :=
| Done
| Policy (a : answer)
| PublicPolicy (c : option PublicConfigWire)
| Validation (r : PolicyValidationResult).
Inductive caller := Waiting (k : kind) (w : wait) | Answered (k : kind) (r : res kms_error value).

Record install := { i_signals : list jstr; installed : bool; shutdownStarted : bool }.

Inductive effect :=
| Initialize (id : nat)
| AbortInitialization (id : nat)
| CloseResource (hand : nat)
| UseResource (hand : nat)
| CleanupStarted (k : nat) (signal : jstr)
| ReportError (k : nat)
| CleanupComplete (k : nat) (signal : jstr).

Record Adapter := {
  resource : option nat;
  publisher : option (nat * Publisher);
  initializationController : option nat;
  startAttempt : option nat;
  closing_state : closing;
  closed : bool;
  shutdownUninstallers : list nat;
  attempts : list attempt;
  handed : list given;
  callers : list caller;
  installs : list install;
  listeners : list (jstr * nat);
  completions : list (nat * jstr);
  world : World;
  trace : list effect
}.

Definition fresh (w : World) : Adapter :=
  {| resource := None; publisher := None; initializationController := None; startAttempt := None;
     closing_state := NotClosing; closed := false; shutdownUninstallers := []; attempts := []; handed := [];
     callers := []; installs := []; listeners := []; completions := []; world := w; trace := [] |}.

(** [createNextKms] checks, and returns an adapter. *)
Definition createNextKms (r : Runtime) (initialize_is_function : bool) (w : World) : res route_failure Adapter :=
  if negb (assertNodeRuntime r) then
    Throw (RuntimeError (js "@suhaibinator/kms/next/server requires the Next.js Node runtime"))
  else if negb initialize_is_function then Throw (Refused (TypeError (js "Next KMS initialize must be a function")))
  else Ok (fresh w).

(** Field updates. *)
Definition set_resource (r : option nat) (p : option (nat * Publisher)) (a : Adapter) : Adapter :=
  {| resource := r; publisher := p; initializationController := initializationController a; startAttempt := startAttempt a;
     closing_state := closing_state a; closed := closed a; shutdownUninstallers := shutdownUninstallers a;
     attempts := attempts a; handed := handed a; callers := callers a; installs := installs a; listeners := listeners a;
     completions := completions a; world := world a; trace := trace a |}.
Definition set_start (c s : option nat) (l : list attempt) (h : list given) (a : Adapter) : Adapter :=
  {| resource := resource a; publisher := publisher a; initializationController := c; startAttempt := s;
     closing_state := closing_state a; closed := closed a; shutdownUninstallers := shutdownUninstallers a;
     attempts := l; handed := h; callers := callers a; installs := installs a; listeners := listeners a;
     completions := completions a; world := world a; trace := trace a |}.
Definition set_closing (c : closing) (b : bool) (a : Adapter) : Adapter :=
  {| resource := resource a; publisher := publisher a; initializationController := initializationController a;
     startAttempt := startAttempt a; closing_state := c; closed := b; shutdownUninstallers := shutdownUninstallers a;
     attempts := attempts a; handed := handed a; callers := callers a; installs := installs a; listeners := listeners a;
     completions := completions a; world := world a; trace := trace a |}.
Definition set_installs (u : list nat) (i : list install) (l : list (jstr * nat)) (a : Adapter) : Adapter :=
  {| resource := resource a; publisher := publisher a; initializationController := initializationController a;
     startAttempt := startAttempt a; closing_state := closing_state a; closed := closed a; shutdownUninstallers := u;
     attempts := attempts a; handed := handed a; callers := callers a; installs := i; listeners := l;
     completions := completions a; world := world a; trace := trace a |}.
Definition set_callers (l : list caller) (w : World) (a : Adapter) : Adapter :=
  {| resource := resource a; publisher := publisher a; initializationController := initializationController a;
     startAttempt := startAttempt a; closing_state := closing_state a; closed := closed a;
     shutdownUninstallers := shutdownUninstallers a; attempts := attempts a; handed := handed a; callers := l;
     installs := installs a; listeners := listeners a; completions := completions a; world := w; trace := trace a |}.
Definition set_completions (l : list (nat * jstr)) (a : Adapter) : Adapter :=
  {| resource := resource a; publisher := publisher a; initializationController := initializationController a;
     startAttempt := startAttempt a; closing_state := closing_state a; closed := closed a;
     shutdownUninstallers := shutdownUninstallers a; attempts := attempts a; handed := handed a; callers := callers a;
     installs := installs a; listeners := listeners a; completions := l; world := world a; trace := trace a |}.
Definition emit (e : effect) (a : Adapter) : Adapter :=
  {| resource := resource a; publisher := publisher a; initializationController := initializationController a;
     startAttempt := startAttempt a; closing_state := closing_state a; closed := closed a;
     shutdownUninstallers := shutdownUninstallers a; attempts := attempts a; handed := handed a; callers := callers a;
     installs := installs a; listeners := listeners a; completions := completions a; world := world a;
     trace := trace a ++ [e] |}.

Definition set_attempt (id : nat) (p : attempt) (a : Adapter) : Adapter :=
  set_start (initializationController a) (startAttempt a) (<[id := p]> (attempts a)) (handed a) a.

Section adapter.
Context (object_prototype : loc) (options : CreateNextKmsOptions) (os_signals : list jstr).

(** ** [start] *)

(** [Throw]: it throws at once. *)
Definition start (r : Runtime) (a : Adapter) : Adapter * res kms_error wait :=
  if negb (assertNodeRuntime r) then (a, Throw NotNodeRuntime)
  else if closed a then (a, Ok (OnRejection NextKmsClosedError))
  else match resource a, publisher a with
  | Some _, Some _ => (a, Ok OnNothing)
  | _, _ =>
      match startAttempt a with
      | Some id => (a, Ok (OnAttempt id))
      | None =>
          let id := length (attempts a) in
          (set_start (Some id) (Some id) (attempts a ++ [Queued]) (handed a) a, Ok (OnAttempt id))
      end
  end.

(** The [finally] and the end of the attempt's function. *)
Definition return_from (id : nat) (r : res kms_error unit) (a : Adapter) : Adapter :=
  set_start (if bool_decide (initializationController a = Some id) then None else initializationController a)
    (startAttempt a) (<[id := Returned r]> (attempts a)) (handed a) a.

(** The attempt's microtask; [initialize] may throw. *)
Definition begin_attempt (id : nat) (thrown : option jsval) (a : Adapter) : Adapter :=
  match attempts a !! id with
  | Some Queued =>
      let a := emit (Initialize id) a in
      match thrown with
      | Some e => return_from id (Throw (InitializeFailed e)) a
      | None => set_attempt id Initializing a
      end
  | _ => a
  end.

(** What [value.close?.()] comes to. *)
Inductive close_call := Calls | Skips | Fails.
Definition close_of (g : given) : close_call :=
  match g with
  | Given _ CloseFunction => Calls
  | Given _ (NoClose | NullClose) => Skips
  | Given _ BadClose | GivenNull | GivenUndefined => Fails
  end.

(** [await initialized.close?.()] in the [catch] of an attempt. *)
Definition clean (id hand : nat) (g : given) (e : kms_error) (a : Adapter) : Adapter :=
  match close_of g with
  | Calls => set_attempt id (Cleaning hand e) (emit (CloseResource hand) a)
  | Skips => set_attempt id (Cleaning hand e) a
  | Fails => return_from id (Throw NotCallable) a
  end.

Definition publisher_for (source : nat -> heap -> heap * res jsval answer) : res failure Publisher :=
  createPolicyPublisher {| op_current := Hook source; op_project := nx_project options; op_keys := nx_keys options;
                           op_validate := nx_validate options; op_onEvent := nx_onPublisherEvent options |}.

(** [assertResource] *)
Definition snapshot_source (g : given) : option (nat -> heap -> heap * res jsval answer) :=
  match g with Given (Some source) (NoClose | CloseFunction) => Some source | _ => None end.

(** The attempt after [await options.initialize(...)]. *)
Definition on_initialized (id : nat) (r : res jsval given) (a : Adapter) : Adapter :=
  match attempts a !! id with
  | Some Initializing =>
      match r with
      | Throw e => return_from id (Throw (InitializeFailed e)) a
      | Ok GivenUndefined => return_from id (Throw InvalidResource) a
      | Ok g =>
          let hand := length (handed a) in
          let a := set_start (initializationController a) (startAttempt a) (attempts a) (handed a ++ [g]) a in
          match snapshot_source g with
          | None => clean id hand g InvalidResource a
          | Some source =>
              let a := set_resource (Some hand) (publisher a) a in
              match publisher_for source with
              | Throw f =>
                  if closed a then return_from id (Throw (PublisherRefused f)) a
                  else clean id hand g (PublisherRefused f) (set_resource None None a)
              | Ok P =>
                  let a := set_resource (Some hand) (Some (hand, P)) a in
                  return_from id (if closed a then Throw NextKmsClosedError else Ok tt) a
              end
          end
      end
  | _ => a
  end.

(** After the [await] of [clean]: a failed [close] replaces the error. *)
Definition on_cleaned (id : nat) (r : res jsval unit) (a : Adapter) : Adapter :=
  match attempts a !! id with
  | Some (Cleaning hand e) =>
      let failed := match close_of <$> handed a !! hand, r with Some Calls, Throw x => CloseFailed x | _, _ => e end in
      return_from id (Throw failed) a
  | _ => a
  end.

(** The promise of the attempt settles, and [clearAttempt] runs. *)
Definition settle_attempt (id : nat) (a : Adapter) : Adapter :=
  match attempts a !! id with
  | Some (Returned r) =>
      set_start (initializationController a) (if bool_decide (startAttempt a = Some id) then None else startAttempt a)
        (<[id := Settled r]> (attempts a)) (handed a) a
  | _ => a
  end.

(** ** [close] *)

Definition uninstall (k : nat) (a : Adapter) : Adapter :=
  match installs a !! k with
  | Some i =>
      if installed i then
        set_installs (filter (fun j => j <> k) (shutdownUninstallers a))
          (<[k := {| i_signals := i_signals i; installed := false; shutdownStarted := shutdownStarted i |}]> (installs a))
          (filter (fun l => l.2 <> k) (listeners a)) a
      else a
  | None => a
  end.

Definition close (a : Adapter) : Adapter :=
  match closing_state a with
  | NotClosing =>
      let a := set_closing (AwaitStart (startAttempt a)) true a in
      let a := match initializationController a with Some id => emit (AbortInitialization id) a | None => a end in
      foldl (fun a k => uninstall k a) a (shutdownUninstallers a)
  | _ => a
  end.

(** [finish] after [await startAttempt]. *)
Definition attempt_over (a : Adapter) (w : option nat) : bool :=
  match w with
  | None => true
  | Some id => match attempts a !! id with Some (Settled _) => true | _ => false end
  end.

Definition finish (a : Adapter) : Adapter :=
  match closing_state a with
  | AwaitStart w =>
      if attempt_over a w then
        let initialized := resource a in
        let a := set_resource None None a in
        match initialized with
        | None => set_closing (Closed (Ok tt)) (closed a) a
        | Some hand =>
            match close_of <$> handed a !! hand with
            | Some Calls => set_closing AwaitClose (closed a) (emit (CloseResource hand) a)
            | Some Skips | None => set_closing (Closed (Ok tt)) (closed a) a
            | Some Fails => set_closing (Closed (Throw NotCallable)) (closed a) a
            end
        end
      else a
  | _ => a
  end.

Definition on_resource_closed (r : res jsval unit) (a : Adapter) : Adapter :=
  match closing_state a with
  | AwaitClose => set_closing (Closed (match r with Ok u => Ok u | Throw e => Throw (CloseFailed e) end)) (closed a) a
  | _ => a
  end.

(** ** Reads *)

Definition answer_caller (c : nat) (k : kind) (r : res kms_error value) (w : World) (a : Adapter) : Adapter :=
  set_callers (<[c := Answered k r]> (callers a)) w a.

(** A call up to its [await start()]. *)
Definition call (k : kind) (r : Runtime) (a : Adapter) : Adapter :=
  match start r a with
  | (a, Throw e) => set_callers (callers a ++ [Answered k (Throw e)]) (world a) a
  | (a, Ok w) => set_callers (callers a ++ [Waiting k w]) (world a) a
  end.

Definition wait_over (a : Adapter) (w : wait) : option (res kms_error unit) :=
  match w with
  | OnRejection e => Some (Throw e)
  | OnNothing => Some (Ok tt)
  | OnAttempt id => match attempts a !! id with Some (Settled r) => Some r | _ => None end
  end.

Definition read_failed {A} (f : A -> value) (r : res failure A) : res kms_error value :=
  match r with Ok x => Ok (f x) | Throw e => Throw (ReadFailed e) end.

(** [readPolicy] on the active resource. *)
Definition read_policy (c : nat) (a : Adapter) : Adapter :=
  match closed a, resource a with
  | false, Some hand =>
      match handed a !! hand with
      | Some (Given (Some source) _) =>
          let w := world a in
          let '(h, r) := source (reads w) (objects w) in
          answer_caller c ReadPolicy (match r with Ok s => Ok (Policy s) | Throw e => Throw (ReadFailed (Foreign e)) end)
            {| objects := h; reads := S (reads w); events := events w |} (emit (UseResource hand) a)
      | _ => a
      end
  | _, _ => answer_caller c ReadPolicy (Throw NextKmsClosedError) (world a) a
  end.

(** The reads on the active publisher. *)
Definition on_publisher {A} (c : nat) (k : kind) (f : A -> value) (read : Publisher -> World -> World * res failure A)
    (a : Adapter) : Adapter :=
  match closed a, publisher a with
  | false, Some (hand, P) =>
      let '(w, r) := read P (world a) in answer_caller c k (read_failed f r) w (emit (UseResource hand) a)
  | _, _ => answer_caller c k (Throw NextKmsClosedError) (world a) a
  end.

Definition resume (c : nat) (a : Adapter) : Adapter :=
  match callers a !! c with
  | Some (Waiting k w) =>
      match wait_over a w with
      | None => a
      | Some (Throw e) => answer_caller c k (Throw e) (world a) a
      | Some (Ok _) =>
          match k with
          | Start => answer_caller c k (Ok Done) (world a) a
          | ReadPolicy => read_policy c a
          | ReadPublicPolicy => on_publisher c k PublicPolicy (readWire object_prototype) a
          | ValidateAtRevision revision input =>
              on_publisher c k Validation (fun P => validate object_prototype P revision input) a
          end
      end
  | _ => a
  end.

(** ** Shutdown hooks *)

Definition installable (signal : jstr) : bool :=
  bool_decide (signal ∈ os_signals) && bool_decide (signal <> js "SIGKILL") && bool_decide (signal <> js "SIGSTOP").

Inductive install_error := InstallRefused (e : kms_error) | SignalRefused (signal : jstr) | ListenFailed.

(** [fails_at]: where [process.once] throws, if it does. *)
Definition installProcessShutdown (r : Runtime) (signals : option (list jstr)) (fails_at : option nat) (a : Adapter)
  : Adapter * res install_error nat :=
  if negb (assertNodeRuntime r) then (a, Throw (InstallRefused NotNodeRuntime))
  else if closed a then (a, Throw (InstallRefused NextKmsClosedError))
  else
    let uniqueSignals := foldl (fun s x => set_add x s) [] (default [js "SIGINT"; js "SIGTERM"] signals) in
    match list_find (fun s => installable s = false) uniqueSignals with
    | Some (_, s) => (a, Throw (SignalRefused s))
    | None =>
        let k := length (installs a) in
        if match fails_at with Some n => bool_decide (n < length uniqueSignals)%nat | None => false end then
          (set_installs (shutdownUninstallers a)
             (installs a ++ [{| i_signals := uniqueSignals; installed := false; shutdownStarted := false |}]) (listeners a) a,
           Throw ListenFailed)
        else
          (set_installs (shutdownUninstallers a ++ [k])
             (installs a ++ [{| i_signals := uniqueSignals; installed := true; shutdownStarted := false |}])
             (listeners a ++ map (fun s => (s, k)) uniqueSignals) a, Ok k)
    end.

(** The handler of an installation. *)
Definition handler (signal : jstr) (k : nat) (a : Adapter) : Adapter :=
  match installs a !! k with
  | Some i =>
      if shutdownStarted i then a
      else
        let a := set_installs (shutdownUninstallers a)
          (<[k := {| i_signals := i_signals i; installed := installed i; shutdownStarted := true |}]> (installs a)) (listeners a) a in
        let a := emit (CleanupStarted k signal) a in
        let a := close (uninstall k a) in
        set_completions (completions a ++ [(k, signal)]) a
  | None => a
  end.

(** [process] emits a signal: it calls the listeners there are now, and each
    [once] wrapper first removes itself. *)
Definition on_signal (signal : jstr) (a : Adapter) : Adapter :=
  foldl (fun a k =>
      handler signal k (set_installs (shutdownUninstallers a) (installs a) (filter (fun l => l <> (signal, k)) (listeners a)) a))
    a (omap (fun l => if decide (l.1 = signal) then Some l.2 else None) (listeners a)).

(** The continuation of a handler's [close()]. *)
Definition complete (n : nat) (callback_fails : bool) (a : Adapter) : Adapter :=
  match completions a !! n, closing_state a with
  | Some (k, signal), Closed r =>
      let a := set_completions (delete n (completions a)) a in
      let a := match r with Throw _ => emit (ReportError k) a | Ok _ => a end in
      let a := emit (CleanupComplete k signal) a in
      if callback_fails then emit (ReportError k) a else a
  | _, _ => a
  end.

(** ** Runs *)

Inductive op :=
| OCall (k : kind) (r : Runtime)
| OBegin (id : nat) (thrown : option jsval)
| OInitialized (id : nat) (r : res jsval given)
| OCleaned (id : nat) (r : res jsval unit)
| OSettle (id : nat)
| OResume (c : nat)
| OClose
| OFinish
| OResourceClosed (r : res jsval unit)
| OInstall (r : Runtime) (signals : option (list jstr)) (fails_at : option nat)
| OUninstall (k : nat)
| OSignal (signal : jstr)
| OComplete (n : nat) (callback_fails : bool)
| OApplication (h : heap).

Definition step (a : Adapter) (o : op) : Adapter :=
  match o with
  | OCall k r => call k r a
  | OBegin id thrown => begin_attempt id thrown a
  | OInitialized id r => on_initialized id r a
  | OCleaned id r => on_cleaned id r a
  | OSettle id => settle_attempt id a
  | OResume c => resume c a
  | OClose => close a
  | OFinish => finish a
  | OResourceClosed r => on_resource_closed r a
  | OInstall r signals fails_at => (installProcessShutdown r signals fails_at a).1
  | OUninstall k => uninstall k a
  | OSignal signal => on_signal signal a
  | OComplete n callback_fails => complete n callback_fails a
  | OApplication h => set_callers (callers a) (with_objects h (world a)) a
  end.

Definition run (a : Adapter) (ops : list op) : Adapter := foldl step a ops.
End adapter.
