(* ===== verification/NextKmsSpec.v ===== *)
(** * NextKmsSpec: the lifecycle of the server adapter.

    Every resource an initializer hands over is in use or closed exactly once,
    none is used after its close, a close settles once what it waits for has,
    and shutdown hooks run once and leave no listener behind. *)
From stdpp Require Import prelude gmap list strings.
From Stdlib Require Import ZArith Lia.
From S2P Require Import Prelude JsString JsMap Clone Publishing Route NextKms.

#[export] Instance effect_eq_dec : EqDecision effect.
Proof. solve_decision. Defined.
#[export] Instance close_call_eq_dec : EqDecision close_call.
Proof. solve_decision. Defined.

(** ** Resources *)

Definition closes (h : nat) (tr : list effect) : nat := length (filter (fun e => e = CloseResource h) tr).

Lemma closes_snoc h tr e : closes h (tr ++ [e]) = (closes h tr + (if decide (e = CloseResource h) then 1 else 0))%nat.
Proof. unfold closes. rewrite filter_app, length_app. f_equal. by destruct (decide (e = CloseResource h)) as [->|]; [rewrite filter_cons_True|rewrite filter_cons_False]. Qed.

Definition is_use (e : effect) : Prop := match e with UseResource _ => True | _ => False end.
#[export] Instance is_use_dec e : Decision (is_use e).
Proof. destruct e; simpl; apply _. Defined.

Definition unsettled (p : attempt) : Prop := match p with Settled _ => False | _ => True end.
Definition busy (p : attempt) : Prop := match p with Queued | Initializing | Cleaning _ _ => True | _ => False end.

Lemma busy_unsettled p : busy p -> unsettled p.
Proof. by destruct p. Qed.

(** How often the close of a resource has been called, if it is the [r]th
    that is in use. *)
Definition owed (handed : list given) (r : option nat) (h : nat) : nat :=
  match handed !! h with
  | Some g => if decide (close_of g = Calls /\ r <> Some h) then 1 else 0
  | None => 0
  end.

Record res_ok (a : Adapter) : Prop := {
  ro_active : forall h, resource a = Some h -> exists g s, handed a !! h = Some g /\ snapshot_source g = Some s;
  ro_closes : forall h, closes h (trace a) = owed (handed a) (resource a) h;
  ro_publisher : forall h P, publisher a = Some (h, P) -> resource a = Some h;
  ro_both : closed a = false -> resource a <> None -> publisher a <> None;
  ro_start : forall id, startAttempt a = Some id <-> exists p, attempts a !! id = Some p /\ unsettled p;
  ro_busy : forall id p, attempts a !! id = Some p -> busy p -> resource a = None;
  ro_closing : closed a = true <-> closing_state a <> NotClosing;
  ro_await : forall w, closing_state a = AwaitStart w -> startAttempt a = None \/ startAttempt a = w;
  ro_known : forall id, closing_state a = AwaitStart (Some id) -> is_Some (attempts a !! id);
  ro_done : match closing_state a with AwaitClose | Closed _ => startAttempt a = None /\ resource a = None | _ => True end
}.

Lemma idle_publisher a : res_ok a -> resource a = None -> publisher a = None.
Proof. intros H Hr. destruct (publisher a) as [[h P]|] eqn:E; [|done]. apply (ro_publisher _ H) in E. congruence. Qed.

(** Operations that leave all of it alone. *)
Definition same_core (a b : Adapter) : Prop :=
  resource b = resource a /\ publisher b = publisher a /\ startAttempt b = startAttempt a /\ attempts b = attempts a /\
  handed b = handed a /\ closed b = closed a /\ closing_state b = closing_state a /\
  forall h, closes h (trace b) = closes h (trace a).

Lemma same_core_ok a b : same_core a b -> res_ok a -> res_ok b.
Proof.
  intros (E1 & E2 & E3 & E4 & E5 & E6 & E7 & E8) [].
  split; rewrite ?E1, ?E2, ?E3, ?E4, ?E5, ?E6, ?E7; try done. intros h. by rewrite E8.
Qed.

Lemma same_core_refl a : same_core a a.
Proof. by split_and!. Qed.

Lemma same_core_trans a b c : same_core a b -> same_core b c -> same_core a c.
Proof.
  intros (E1 & E2 & E3 & E4 & E5 & E6 & E7 & E8) (F1 & F2 & F3 & F4 & F5 & F6 & F7 & F8).
  split_and!; try congruence.
Qed.

Lemma same_core_emit a e : (forall h, e <> CloseResource h) -> same_core a (emit e a).
Proof. intros He. split_and!; try done. intros h. simpl. rewrite closes_snoc, decide_False by done. lia. Qed.

(** ** The attempts *)

Lemma start_update (l : list attempt) s id p q :
  (forall i, s = Some i <-> exists p, l !! i = Some p /\ unsettled p) -> l !! id = Some p -> unsettled p -> unsettled q ->
  forall i, s = Some i <-> exists p, <[id := q]> l !! i = Some p /\ unsettled p.
Proof.
  intros H Hl Hp Hq i. destruct (decide (id = i)) as [->|Hne].
  - rewrite list_lookup_insert_eq by (by eapply lookup_lt_Some). rewrite H. split; intros _; by eexists.
  - rewrite list_lookup_insert_ne by done. apply H.
Qed.

Lemma only_attempt a id p : res_ok a -> attempts a !! id = Some p -> unsettled p -> startAttempt a = Some id.
Proof. intros H Hl Hp. apply (ro_start _ H). by eexists. Qed.

(** No other attempt is busy. *)
Lemma busy_update a id p q i x :
  res_ok a -> attempts a !! id = Some p -> unsettled p -> <[id := q]> (attempts a) !! i = Some x -> busy x -> i = id /\ x = q.
Proof.
  intros H Hl Hp Hi Hx. destruct (decide (id = i)) as [->|Hne].
  - rewrite list_lookup_insert_eq in Hi by (by eapply lookup_lt_Some). by injection Hi as ->.
  - rewrite list_lookup_insert_ne in Hi by done. pose proof (only_attempt a id p H Hl Hp).
    pose proof (only_attempt a i x H Hi (busy_unsettled _ Hx)). congruence.
Qed.

Lemma insert_known {A} (l : list A) id q i : is_Some (l !! i) -> is_Some (<[id := q]> l !! i).
Proof. rewrite !lookup_lt_is_Some, length_insert. done. Qed.

(** An attempt moves on, and what it holds stays. *)
Lemma set_attempt_ok id p q a :
  res_ok a -> attempts a !! id = Some p -> unsettled p -> unsettled q -> (busy q -> resource a = None) ->
  res_ok (set_attempt id q a).
Proof.
  intros H Hl Hp Hq Hb. split; simpl; try apply H.
  - intros i. eapply start_update; [apply H|done..].
  - intros i x Hi Hx. destruct (busy_update a id p q i x H Hl Hp Hi Hx) as [-> ->]. by apply Hb.
  - intros i E. by apply insert_known, (ro_known _ H).
Qed.

Lemma return_from_ok id r p a :
  res_ok a -> attempts a !! id = Some p -> unsettled p -> res_ok (return_from id r a).
Proof.
  intros H Hl Hp. eapply same_core_ok; [|apply (set_attempt_ok id p (Returned r) a H Hl Hp); done]. by split_and!.
Qed.

(** ** Handing over *)

Lemma owed_snoc l g r h :
  h <> length l -> owed (l ++ [g]) r h = owed l r h.
Proof.
  intros Hh. unfold owed. destruct (decide (h < length l)%nat) as [Hlt|Hge].
  - by rewrite lookup_app_l.
  - by rewrite !lookup_ge_None_2 by (rewrite ?length_app; simpl; lia).
Qed.

Lemma owed_last l g r : owed (l ++ [g]) r (length l) = if decide (close_of g = Calls /\ r <> Some (length l)) then 1%nat else 0%nat.
Proof. unfold owed. by rewrite lookup_app_r, Nat.sub_diag by lia. Qed.

Lemma owed_new l r : owed l r (length l) = 0%nat.
Proof. unfold owed. by rewrite lookup_ge_None_2. Qed.

Definition hand_over (g : given) (a : Adapter) : Adapter :=
  set_start (initializationController a) (startAttempt a) (attempts a) (handed a ++ [g]) a.

Section handing_over.
Context (a b : Adapter) (id : nat) (g : given) (H : res_ok a) (Hl : attempts a !! id = Some Initializing).

Lemma init_idle : resource a = None /\ publisher a = None.
Proof using H Hl. assert (resource a = None) as Hr by (by apply (ro_busy _ H id Initializing)). split; [done|by apply idle_publisher]. Qed.

(** The value is closed, or will be by nobody: it has no [close]. *)
Lemma handed_closed q tr :
  same_core (hand_over g a) b ->
  (forall h, closes h tr = closes h (trace b) + (if decide (close_of g = Calls /\ h = length (handed a)) then 1 else 0))%nat ->
  unsettled q ->
  res_ok {| resource := resource b; publisher := publisher b; initializationController := initializationController b;
    startAttempt := startAttempt b; closing_state := closing_state b; closed := closed b;
    shutdownUninstallers := shutdownUninstallers b; attempts := <[id := q]> (attempts b); handed := handed b;
    callers := callers b; installs := installs b; listeners := listeners b; completions := completions b; world := world b;
    trace := tr |}.
Proof using H Hl.
  intros (E1 & E2 & E3 & E4 & E5 & E6 & E7 & E8) Htr Hq. destruct init_idle as [Hr Hp]. unfold hand_over in *. simpl in *.
  split; simpl; rewrite ?E1, ?E2, ?E3, ?E4, ?E5, ?E6, ?E7; rewrite ?Hr, ?Hp; try done; try apply H.
  - intros h. rewrite Htr, E8, (ro_closes _ H), Hr. destruct (decide (h = length (handed a))) as [->|Hne].
    + rewrite owed_new, owed_last. destruct (decide (close_of g = Calls)) as [Hc|Hc].
      * by rewrite !decide_True.
      * by rewrite !decide_False by tauto.
    + rewrite owed_snoc, decide_False by tauto. lia.
  - intros i. eapply start_update; [apply H|done..].
  - intros i E. by apply insert_known, (ro_known _ H).
  - pose proof (ro_done _ H) as Hd. by rewrite Hr in Hd.
Qed.

Lemma clean_ok e : same_core (hand_over g a) b -> res_ok (clean id (length (handed a)) g e b).
Proof using H Hl.
  intros E. unfold clean. destruct (close_of g) eqn:Hg.
  - apply handed_closed; [done| |done]. intros h. simpl. rewrite closes_snoc, Hg. f_equal.
    destruct (decide (CloseResource (length (handed a)) = CloseResource h)) as [[= ->]|Hne]; [by rewrite decide_True|].
    rewrite decide_False; [done|]. intros [_ ->]. done.
  - apply handed_closed; [done| |done]. intros h. simpl. rewrite Hg, decide_False by (by intros [? _]). lia.
  - eapply same_core_ok; [|apply (handed_closed (Returned (Throw NotCallable)) (trace b) E)]; [by split_and!| |done].
    intros h. rewrite Hg, decide_False by (by intros [? _]). lia.
Qed.
End handing_over.

Lemma owed_taken l g h : owed (l ++ [g]) (Some (length l)) h = owed l None h.
Proof.
  destruct (decide (h = length l)) as [->|Hne].
  - rewrite owed_last, owed_new, decide_False; [done|]. by intros [_ ?].
  - rewrite owed_snoc by done. unfold owed. destruct (l !! h); [|done]. apply decide_ext. naive_solver.
Qed.

(** The value is taken into use. *)
Lemma taken_ok a id g s p r :
  res_ok a -> attempts a !! id = Some Initializing -> snapshot_source g = Some s ->
  (forall h P, p = Some (h, P) -> h = length (handed a)) -> (closed a = false -> p <> None) ->
  res_ok (return_from id r (set_resource (Some (length (handed a))) p (hand_over g a))).
Proof.
  intros H Hl Hs Hp Hc. destruct (init_idle a id H Hl) as [Hr _]. split; simpl; try apply H.
  - intros h [= <-]. exists g, s. split; [|done]. by rewrite lookup_app_r, Nat.sub_diag by lia.
  - intros h. by rewrite owed_taken, (ro_closes _ H), Hr.
  - intros h P E. by rewrite (Hp h P E).
  - intros E _. by apply Hc.
  - intros i. eapply start_update; [apply H|done..].
  - intros i x Hi Hx. destruct (busy_update a id Initializing _ i x H Hl I Hi Hx) as [-> ->]. done.
  - intros i E. by apply insert_known, (ro_known _ H).
  - pose proof (ro_done _ H) as Hd. assert (startAttempt a = Some id) as E by (by apply (only_attempt a id Initializing)).
    destruct (closing_state a); [done|done|..]; destruct Hd as [Hd _]; congruence.
Qed.

Section ops.
Context (object_prototype : loc) (options : CreateNextKmsOptions) (os_signals : list jstr).

Lemma on_initialized_ok id r a : res_ok a -> res_ok (on_initialized options id r a).
Proof using.
  intros H. unfold on_initialized. destruct (attempts a !! id) as [[| | | |]|] eqn:Hl; try done.
  destruct r as [g|e]; [|by eapply return_from_ok]. fold (hand_over g a).
  assert (res_ok (clean id (length (handed a)) g InvalidResource (hand_over g a))) as Hclean
    by (by apply (clean_ok a); [..|apply same_core_refl]).
  destruct g as [| |source hook]; [by eapply return_from_ok|exact Hclean|].
  destruct (snapshot_source _) as [s|] eqn:Hs; [|exact Hclean].
  destruct (publisher_for options s) as [P|f].
  - apply (taken_ok a id (Given source hook) s (Some (length (handed a), P))); [done..| |done]. by intros h P' [= <- _].
  - cbn [closed set_resource hand_over set_start]. destruct (closed a) eqn:Hc.
    + apply (taken_ok a id (Given source hook) s (publisher a)); [done..| |congruence].
      intros h P E. destruct (init_idle a id H Hl) as [_ Hp]. congruence.
    + apply (clean_ok a); [done..|]. destruct (init_idle a id H Hl) as [Hr Hp]. by split_and!.
Qed.

Lemma begin_attempt_ok id thrown a : res_ok a -> res_ok (begin_attempt id thrown a).
Proof using.
  intros H. unfold begin_attempt. destruct (attempts a !! id) as [[| | | |]|] eqn:Hl; try done.
  assert (res_ok (emit (Initialize id) a)) as H' by (by apply (same_core_ok a); [apply same_core_emit|]).
  destruct thrown; [by eapply return_from_ok|]. eapply set_attempt_ok; [done..|].
  intros _. by apply (ro_busy _ H id Queued).
Qed.

Lemma on_cleaned_ok id r a : res_ok a -> res_ok (on_cleaned id r a).
Proof using.
  intros H. unfold on_cleaned. destruct (attempts a !! id) as [[| | | |]|] eqn:Hl; try done. by eapply return_from_ok.
Qed.

Lemma settle_attempt_ok id a : res_ok a -> res_ok (settle_attempt id a).
Proof using.
  intros H. unfold settle_attempt. destruct (attempts a !! id) as [[| | |r|]|] eqn:Hl; try done.
  assert (startAttempt a = Some id) as Hs by (by eapply only_attempt). rewrite bool_decide_true by done.
  assert (forall i x, <[id := Settled r]> (attempts a) !! i = Some x -> ~ unsettled x) as Hnone.
  { intros i x Hi Hx. destruct (decide (id = i)) as [->|Hne].
    - rewrite list_lookup_insert_eq in Hi by (by eapply lookup_lt_Some). by injection Hi as <-.
    - rewrite list_lookup_insert_ne in Hi by done. pose proof (only_attempt a i x H Hi Hx). congruence. }
  split; simpl; try apply H.
  - intros i. split; [done|]. intros (x & Hi & Hx). by apply Hnone in Hi.
  - intros i x Hi Hx. apply Hnone in Hi. by apply busy_unsettled in Hx.
  - intros w _. by left.
  - intros i E. by apply insert_known, (ro_known _ H).
  - pose proof (ro_done _ H) as Hd. destruct (closing_state a); [done|done|..]; by destruct Hd.
Qed.

Lemma uninstall_core k a : same_core a (uninstall k a).
Proof using. unfold uninstall. destruct (installs a !! k) as [i|]; [|done]. by destruct (installed i). Qed.

Lemma uninstall_all_core l a : same_core a (foldl (fun a k => uninstall k a) a l).
Proof using.
  revert a. induction l as [|k l IH]; intros a; [done|]. simpl. eapply same_core_trans; [apply uninstall_core|apply IH].
Qed.

Lemma close_ok a : res_ok a -> res_ok (close a).
Proof using.
  intros H. unfold close. destruct (closing_state a) eqn:Hc; try done.
  eapply same_core_ok; [apply uninstall_all_core|].
  assert (res_ok (set_closing (AwaitStart (startAttempt a)) true a)) as H'.
  { split; simpl; try apply H; try done.
    - intros w [= <-]. by right.
    - intros id [= Hs]. apply (ro_start _ H) in Hs as (p & Hp & _). by eexists. }
  simpl. destruct (initializationController a); [|exact H']. eapply same_core_ok; [by apply same_core_emit|exact H'].
Qed.

Lemma finish_res_ok a : res_ok a -> res_ok (finish a).
Proof using.
  intros H. unfold finish. destruct (closing_state a) as [|w| |] eqn:Hc; try done.
  destruct (attempt_over a w) eqn:Hover; [|done].
  assert (closed a = true) as Hclosed by (apply (ro_closing _ H); by rewrite Hc).
  assert (startAttempt a = None) as Hs.
  { destruct (ro_await _ H w Hc) as [E|E]; [done|]. destruct w as [id|]; [|done]. simpl in Hover.
    apply (ro_start _ H) in E as (p & Hp & Hu). rewrite Hp in Hover. by destruct p. }
  assert (forall c tr, c <> NotClosing -> (forall w, c <> AwaitStart w) -> (forall h, closes h tr = owed (handed a) None h) ->
    res_ok {| resource := None; publisher := None; initializationController := initializationController a;
      startAttempt := startAttempt a; closing_state := c; closed := closed a;
      shutdownUninstallers := shutdownUninstallers a; attempts := attempts a; handed := handed a; callers := callers a;
      installs := installs a; listeners := listeners a; completions := completions a; world := world a; trace := tr |}) as Hall.
  { intros c tr Hn Ha Htr. split; simpl; try done; try apply H.
    - intros w' E. by apply Ha in E.
    - intros id E. by apply Ha in E.
    - by destruct c. }
  assert (resource a = None -> forall h, closes h (trace a) = owed (handed a) None h) as Hnone by (intros E h; by rewrite (ro_closes _ H), E).
  destruct (resource a) as [hand|] eqn:Hr; [|by apply Hall; [..|apply Hnone]].
  destruct (ro_active _ H hand Hr) as (g & s & Hg & Hsrc). cbn [handed set_resource set_closing]. rewrite Hg. cbn [fmap option_fmap option_map].
  assert (forall h, h <> hand -> owed (handed a) None h = owed (handed a) (Some hand) h) as Hother.
  { intros h Hh. unfold owed. destruct (handed a !! h); [|done]. apply decide_ext. naive_solver. }
  assert (owed (handed a) (Some hand) hand = 0%nat) as H0 by (unfold owed; rewrite Hg, decide_False; [done|by intros [_ ?]]).
  destruct (close_of g) eqn:Hcg.
  - apply Hall; [done..|]. intros h. simpl. rewrite closes_snoc, (ro_closes _ H), Hr.
    destruct (decide (h = hand)) as [->|Hh].
    + rewrite H0, decide_True by done. unfold owed. by rewrite Hg, decide_True.
    + rewrite decide_False by (by intros [= ->]). rewrite Hother by done. lia.
  - apply Hall; [done..|]. intros h. simpl. rewrite (ro_closes _ H), Hr. destruct (decide (h = hand)) as [->|Hh]; [|by rewrite Hother].
    rewrite H0. unfold owed. rewrite Hg, decide_False; [done|]. intros [E _]. congruence.
  - destruct g as [| |[]  []]; done.
Qed.

Lemma on_resource_closed_ok r a : res_ok a -> res_ok (on_resource_closed r a).
Proof using.
  intros H. unfold on_resource_closed. destruct (closing_state a) eqn:Hc; try done.
  assert (closed a = true) as Hclosed by (apply (ro_closing _ H); by rewrite Hc).
  pose proof (ro_done _ H) as Hd. rewrite Hc in Hd.
  split; simpl; try apply H; try done.
Qed.

Lemma start_res_ok r a : res_ok a -> res_ok (start r a).1.
Proof using.
  intros H. unfold start. destruct (assertNodeRuntime r); [|done]. cbn [negb].
  destruct (closed a) eqn:Hclosed; [done|].
  assert (resource a = None -> startAttempt a = None ->
    res_ok (set_start (Some (length (attempts a))) (Some (length (attempts a))) (attempts a ++ [Queued]) (handed a) a)) as Hnew.
  { intros Hr Hs. assert (closing_state a = NotClosing) as Hc.
    { destruct (closing_state a) eqn:E; [done|..]; assert (closed a = true) by (apply (ro_closing _ H); by rewrite E); congruence. }
    split; simpl; try apply H; try done.
    - intros id. split.
      + intros [= <-]. exists Queued. split; [|done]. by rewrite lookup_app_r, Nat.sub_diag by lia.
      + intros (p & Hp & Hu). apply lookup_snoc_Some in Hp as [[_ Hp]|[-> _]]; [|done].
        pose proof (only_attempt a id p H Hp Hu). congruence.
    - intros w. by rewrite Hc.
    - intros id. by rewrite Hc.
    - by rewrite Hc. }
  assert (resource a = None \/ exists h hp, resource a = Some h /\ publisher a = Some hp) as [Hr|(h & hp & -> & ->)]; [|rewrite Hr|done].
  - destruct (resource a) as [h|] eqn:Hr; [|by left]. right. pose proof (ro_both _ H Hclosed) as Hb. rewrite Hr in Hb.
    destruct (publisher a) as [hp|]; [by eauto|]. by destruct Hb.
  - destruct (startAttempt a) as [id|] eqn:Hs; [done|]. by apply Hnew.
Qed.

Lemma call_ok k r a : res_ok a -> res_ok (call k r a).
Proof using.
  intros H%(start_res_ok r). unfold call. destruct (start r a) as [b [w|e]]; simpl in H; by apply (same_core_ok b).
Qed.

(** ** What is used *)

Definition uses_ok (tr : list effect) : Prop :=
  forall before h after, tr = before ++ UseResource h :: after -> CloseResource h ∉ before.

(** The trace grows; what a step uses is in use. *)
Definition grows (a b : Adapter) : Prop := exists es, trace b = trace a ++ es /\ forall h, UseResource h ∉ es.

Lemma grows_refl a : grows a a.
Proof using. exists []. rewrite app_nil_r. split; [done|]. intros h. by intros ?%elem_of_nil. Qed.

Lemma grows_trans a b c : grows a b -> grows b c -> grows a c.
Proof using.
  intros (e1 & E1 & H1) (e2 & E2 & H2). exists (e1 ++ e2). rewrite E2, E1, (assoc_L (++)). split; [done|]. intros h. rewrite elem_of_app.
  specialize (H1 h). specialize (H2 h). tauto.
Qed.

Lemma grows_emit a b e : trace b = trace a ++ [e] -> (forall h, e <> UseResource h) -> grows a b.
Proof using. intros E He. exists [e]. split; [done|]. intros h Hh%list_elem_of_singleton. by apply (He h). Qed.

Lemma grows_same a b : trace b = trace a -> grows a b.
Proof using. intros E. exists []. rewrite app_nil_r. split; [done|]. intros h. by intros ?%elem_of_nil. Qed.

Lemma uses_grow a b : grows a b -> uses_ok (trace a) -> uses_ok (trace b).
Proof using.
  intros (es & E & He) H before h after Ht. rewrite E in Ht. apply app_eq_inv in Ht as [(k & Hk1 & Hk2)|(k & Hk1 & Hk2)].
  - destruct k as [|e k]; [|injection Hk2 as <- Hk2; by eapply H].
    simpl in Hk2. exfalso. apply (He h). subst es. by left.
  - exfalso. apply (He h). subst es. apply elem_of_app. right. by left.
Qed.

Definition uses (a b : Adapter) : Prop :=
  grows a b \/ exists h, closed a = false /\ resource a = Some h /\ trace b = trace a ++ [UseResource h].

Lemma uses_keeps a b : res_ok a -> uses a b -> uses_ok (trace a) -> uses_ok (trace b).
Proof using.
  intros H [Hg|(h & _ & Hr & E)] Hu; [by eapply uses_grow|]. intros before h' after Ht. rewrite E in Ht.
  destruct after as [|e after] using rev_ind.
  - apply app_inj_tail in Ht as [<- [= <-]]. intros Hin. pose proof (ro_closes _ H h) as Hc. unfold closes, owed in Hc.
    destruct (ro_active _ H h Hr) as (g & s & Hg & _). rewrite Hg, Hr, decide_False in Hc by (by intros [_ ?]).
    apply nil_length_inv in Hc. assert (CloseResource h ∈ filter (fun e => e = CloseResource h) (trace a)) as Hf
      by (by apply list_elem_of_filter). rewrite Hc in Hf. by apply elem_of_nil in Hf.
  - clear IHafter. rewrite app_comm_cons, (assoc_L (++)) in Ht. apply app_inj_tail in Ht as [Ht _]. by eapply Hu.
Qed.

Lemma begin_grows id thrown a : grows a (begin_attempt id thrown a).
Proof using.
  unfold begin_attempt. destruct (attempts a !! id) as [[| | | |]|]; try apply grows_refl.
  by destruct thrown; eapply grows_emit.
Qed.

Lemma clean_grows id hand g e a : grows a (clean id hand g e a).
Proof using. unfold clean. destruct (close_of g); [by eapply grows_emit|by apply grows_same..]. Qed.

Lemma on_initialized_grows id r a : grows a (on_initialized options id r a).
Proof using.
  unfold on_initialized. destruct (attempts a !! id) as [[| | | |]|]; try apply grows_refl.
  destruct r as [g|e]; [|by apply grows_same]. fold (hand_over g a).
  assert (forall b e, trace b = trace a -> grows a (clean id (length (handed a)) g e b)) as Hclean.
  { intros b e Hb. eapply grows_trans; [by apply (grows_same a b)|apply clean_grows]. }
  destruct g as [| |source hook]; [by apply grows_same|by apply Hclean|].
  destruct (snapshot_source _); [|by apply Hclean]. destruct (publisher_for options _); [by apply grows_same|].
  destruct (closed _); [by apply grows_same|by apply Hclean].
Qed.

Lemma uninstall_grows k a : grows a (uninstall k a).
Proof using. unfold uninstall. destruct (installs a !! k) as [i|]; [|apply grows_refl]. destruct (installed i); by apply grows_same. Qed.

Lemma foldl_grows {A} (f : Adapter -> A -> Adapter) l a : (forall a x, grows a (f a x)) -> grows a (foldl f a l).
Proof using.
  intros Hf. revert a. induction l as [|x l IH]; intros a; [apply grows_refl|]. eapply grows_trans; [apply Hf|apply IH].
Qed.

Lemma close_grows a : grows a (close a).
Proof using.
  unfold close. destruct (closing_state a); try apply grows_refl.
  eapply grows_trans; [|apply foldl_grows; intros b k; apply uninstall_grows].
  simpl. destruct (initializationController a); [by eapply grows_emit|by apply grows_same].
Qed.

Lemma finish_grows a : grows a (finish a).
Proof using.
  unfold finish. destruct (closing_state a) as [|w| |]; try apply grows_refl. destruct (attempt_over a w); [|apply grows_refl].
  destruct (resource a) as [h|]; [|by apply grows_same]. destruct (close_of <$> _) as [[| |]|];
    [by eapply grows_emit|by apply grows_same..].
Qed.

Lemma handler_ok signal k a : res_ok a -> res_ok (handler signal k a).
Proof using.
  intros H. unfold handler. destruct (installs a !! k) as [i|]; [|done]. destruct (shutdownStarted i); [done|].
  set (b := emit _ _). assert (res_ok b) as Hb by (eapply same_core_ok; [by apply same_core_emit|by apply (same_core_ok a)]).
  apply (same_core_ok (close (uninstall k b))); [done|]. apply close_ok. by apply (same_core_ok b); [apply uninstall_core|].
Qed.

Lemma handler_grows signal k a : grows a (handler signal k a).
Proof using.
  unfold handler. destruct (installs a !! k) as [i|]; [|apply grows_refl]. destruct (shutdownStarted i); [apply grows_refl|].
  set (b := emit (CleanupStarted k signal) _). apply (grows_trans a b); [by eapply grows_emit|].
  eapply grows_trans; [apply uninstall_grows|]. eapply grows_trans; [apply close_grows|]. by apply grows_same.
Qed.

Lemma on_signal_ok signal a : res_ok a -> res_ok (on_signal signal a).
Proof using.
  unfold on_signal. generalize (omap (fun l => if decide (l.1 = signal) then Some l.2 else None) (listeners a)).
  intros l. revert a. induction l as [|k l IH]; intros a H; [done|]. simpl. apply IH, handler_ok. by apply (same_core_ok a).
Qed.

Lemma on_signal_grows signal a : grows a (on_signal signal a).
Proof using.
  apply foldl_grows. intros b k. eapply grows_trans; [|apply handler_grows]. by apply grows_same.
Qed.

Lemma complete_core n fails a : same_core a (complete n fails a) /\ grows a (complete n fails a).
Proof using.
  unfold complete. destruct (completions a !! n) as [[k signal]|]; [|split; [apply same_core_refl|apply grows_refl]].
  destruct (closing_state a) as [| | |r]; try (split; [apply same_core_refl|apply grows_refl]).
  set (b := set_completions _ a). assert (same_core a b /\ grows a b) as [Hb1 Hb2] by (split; [by split_and!|by apply grows_same]).
  assert (forall x e, same_core a x /\ grows a x -> (forall h, e <> CloseResource h) -> (forall h, e <> UseResource h) ->
    same_core a (emit e x) /\ grows a (emit e x)) as Hemit.
  { intros x e [Hx1 Hx2] Hc Hu. split; [eapply same_core_trans; [exact Hx1|by apply same_core_emit]|].
    eapply grows_trans; [exact Hx2|by eapply grows_emit]. }
  assert (same_core a (match r with Ok _ => b | Throw _ => emit (ReportError k) b end) /\
          grows a (match r with Ok _ => b | Throw _ => emit (ReportError k) b end)) as Hr by (destruct r; [done|by apply Hemit]).
  destruct fails; repeat (apply Hemit; [|done|done]); exact Hr.
Qed.

Lemma answer_core c k r w a : same_core a (answer_caller c k r w a) /\ trace (answer_caller c k r w a) = trace a.
Proof using. by split; [split_and!|]. Qed.

Lemma used_by c k r w h a :
  closed a = false -> resource a = Some h -> same_core a (answer_caller c k r w (emit (UseResource h) a)) /\
  uses a (answer_caller c k r w (emit (UseResource h) a)).
Proof using.
  intros Hc Hr. split.
  - eapply same_core_trans; [by apply (same_core_emit a (UseResource h))|]. by split_and!.
  - right. by exists h.
Qed.

Lemma on_publisher_core {A} c k (f : A -> value) rd a :
  res_ok a -> same_core a (on_publisher c k f rd a) /\ uses a (on_publisher c k f rd a).
Proof using.
  intros H. unfold on_publisher. destruct (closed a) eqn:Hc; [|destruct (publisher a) as [[h P]|] eqn:Hp].
  2: { destruct (rd P (world a)) as [w r]. by eapply used_by, ro_publisher. }
  all: split; [by split_and!|left; by apply grows_same].
Qed.

Lemma resume_core c a : res_ok a -> same_core a (resume object_prototype c a) /\ uses a (resume object_prototype c a).
Proof using.
  intros H. assert (same_core a a /\ uses a a) as Hid by (split; [apply same_core_refl|left; apply grows_refl]).
  assert (forall k r w, same_core a (answer_caller c k r w a) /\ uses a (answer_caller c k r w a)) as Hans
    by (intros k r w; split; [by split_and!|left; by apply grows_same]).
  unfold resume. destruct (callers a !! c) as [[k w|]|]; try done. destruct (wait_over a w) as [[[]|e]|]; try done.
  destruct k as [| | |revision input]; [done| |by apply on_publisher_core..].
  unfold read_policy. destruct (closed a) eqn:Hc; [done|]. destruct (resource a) as [h|] eqn:Hr; [|done].
  destruct (ro_active _ H h Hr) as (g & s & Hg & Hs). rewrite Hg. destruct g as [| |[source|] hook]; try done.
  destruct (source _ _) as [h' r]. by apply used_by.
Qed.

Lemma start_trace r a : trace (start r a).1 = trace a.
Proof using.
  unfold start. destruct (negb _); [done|]. destruct (closed a); [done|].
  destruct (resource a), (publisher a); try done; by destruct (startAttempt a).
Qed.

Lemma step_spec a o :
  res_ok a -> res_ok (step object_prototype options os_signals a o) /\ uses a (step object_prototype options os_signals a o).
Proof using.
  intros H. assert (forall b, res_ok b -> grows a b -> res_ok b /\ uses a b) as Hg by (intros b Hb ?; split; [done|by left]).
  destruct o; cbn [step].
  - apply Hg; [by apply call_ok|]. unfold call. pose proof (start_trace r a) as Ht.
    destruct (start r a) as [b [w|e]]; simpl in Ht; by apply grows_same.
  - apply Hg; [by apply begin_attempt_ok|apply begin_grows].
  - apply Hg; [by apply on_initialized_ok|apply on_initialized_grows].
  - apply Hg; [by apply on_cleaned_ok|]. unfold on_cleaned. destruct (attempts a !! id) as [[| | | |]|]; by apply grows_same.
  - apply Hg; [by apply settle_attempt_ok|]. unfold settle_attempt. destruct (attempts a !! id) as [[| | | |]|]; by apply grows_same.
  - destruct (resume_core c a H) as [Hc Hu]. split; [by apply (same_core_ok a)|done].
  - apply Hg; [by apply close_ok|apply close_grows].
  - apply Hg; [by apply finish_res_ok|apply finish_grows].
  - apply Hg; [by apply on_resource_closed_ok|]. unfold on_resource_closed. destruct (closing_state a); by apply grows_same.
  - unfold installProcessShutdown. destruct (negb _); [by apply Hg, grows_refl|]. destruct (closed a) eqn:Hc; [by apply Hg, grows_refl|].
    destruct (list_find _ _) as [[? ?]|]; [by apply Hg, grows_refl|].
    destruct (match fails_at with Some _ => _ | None => _ end); (apply Hg; [by apply (same_core_ok a)|by apply grows_same]).
  - apply Hg; [by apply (same_core_ok a); [apply uninstall_core|]|apply uninstall_grows].
  - apply Hg; [by apply on_signal_ok|apply on_signal_grows].
  - destruct (complete_core n callback_fails a) as [Hc Hgr]. apply Hg; [by apply (same_core_ok a)|done].
  - apply Hg; [by apply (same_core_ok a)|by apply grows_same].
Qed.

Definition after (w : World) (ops : list op) : Adapter := run object_prototype options os_signals (fresh w) ops.

Lemma run_ok w ops : res_ok (after w ops) /\ uses_ok (trace (after w ops)).
Proof using.
  unfold after, run. induction ops as [|o ops [IH1 IH2]] using rev_ind.
  - split.
    + split; simpl; try done. intros id. split; [done|]. by intros (p & Hp & _).
    + intros before h rest Ht. by destruct before.
  - rewrite foldl_snoc. destruct (step_spec _ o IH1) as [H1 H2]. split; [done|]. exact (uses_keeps _ _ IH1 H2 IH2).
Qed.

(** ** Closed for good *)

Lemma grows_uses a b : grows a b -> filter is_use (trace b) = filter is_use (trace a).
Proof using.
  intros (es & -> & He). rewrite filter_app. assert (filter is_use es = []) as ->; [|by rewrite app_nil_r].
  induction es as [|e es IH]; [done|]. rewrite filter_cons, decide_False.
  - apply IH. intros h Hh. by apply (He h); right.
  - destruct e; try by intros []. intros _. apply (He hand). by left.
Qed.

Definition stays (a b : Adapter) : Prop := closed a = true -> closed b = true /\ length (attempts b) = length (attempts a).

Lemma stays_same a b : closed b = closed a -> length (attempts b) = length (attempts a) -> stays a b.
Proof using. intros E1 E2 H. by rewrite E1, E2. Qed.

Lemma stays_core a b : same_core a b -> stays a b.
Proof using. intros (_ & _ & _ & E & _ & Ec & _) H. by rewrite E, Ec. Qed.

Lemma return_stays id r a : stays a (return_from id r a).
Proof using. apply stays_same; [done|]. simpl. by rewrite length_insert. Qed.

Lemma stays_trans a b c : stays a b -> stays b c -> stays a c.
Proof using. intros H1 H2 [Hc E]%H1. rewrite <- E. by apply H2. Qed.

Lemma clean_stays id hand g e a b : closed b = closed a -> attempts b = attempts a -> stays a (clean id hand g e b).
Proof using.
  intros Hc Ha. apply (stays_trans a b); [by apply stays_same; [|rewrite Ha]|]. unfold clean.
  destruct (close_of g); [..|apply return_stays]; (apply stays_same; [done|]; simpl; by rewrite length_insert).
Qed.

Lemma on_initialized_stays id r a : stays a (on_initialized options id r a).
Proof using.
  unfold on_initialized. destruct (attempts a !! id) as [[| | | |]|]; try by apply stays_same.
  destruct r as [[| |source hook]|e]; [apply return_stays|by apply clean_stays| |apply return_stays].
  assert (forall b r, closed b = closed a -> attempts b = attempts a -> stays a (return_from id r b)) as Hret.
  { intros b r Hc Ha. apply (stays_trans a b); [by apply stays_same; [|rewrite Ha]|apply return_stays]. }
  destruct (snapshot_source _); [|by apply clean_stays]. destruct (publisher_for options _); [by apply Hret|].
  destruct (closed _) eqn:Hc; [by apply Hret|by apply clean_stays].
Qed.

Lemma close_stays a : stays a (close a).
Proof using.
  unfold close. destruct (closing_state a); try by apply stays_same.
  eapply stays_trans; [|apply stays_core, uninstall_all_core]. intros _. simpl. by destruct (initializationController a).
Qed.

Lemma handler_stays signal k a : stays a (handler signal k a).
Proof using.
  unfold handler. destruct (installs a !! k) as [i|]; [|by apply stays_same]. destruct (shutdownStarted i); [by apply stays_same|].
  set (b := emit _ _). apply (stays_trans a b); [by apply stays_same|].
  apply (stays_trans b (uninstall k b)); [apply stays_core, uninstall_core|].
  eapply stays_trans; [apply close_stays|]. by apply stays_same.
Qed.

Lemma step_stays a o : res_ok a -> stays a (step object_prototype options os_signals a o).
Proof using.
  intros H. destruct o; cbn [step]; try (by apply stays_same).
  - intros Hc. unfold call, start. destruct (negb _); [done|]. by rewrite Hc.
  - unfold begin_attempt. destruct (attempts a !! id) as [[| | | |]|]; try by apply stays_same.
    destruct thrown; apply stays_same; try done; simpl; by rewrite length_insert.
  - apply on_initialized_stays.
  - unfold on_cleaned. destruct (attempts a !! id) as [[| | | |]|]; try by apply stays_same. apply return_stays.
  - unfold settle_attempt. destruct (attempts a !! id) as [[| | | |]|]; apply stays_same; try done. simpl. by rewrite length_insert.
  - by apply stays_core, resume_core.
  - apply close_stays.
  - unfold finish. destruct (closing_state a); try by apply stays_same. destruct (attempt_over _ _); [|by apply stays_same].
    destruct (resource a); [|by apply stays_same]. destruct (close_of <$> _) as [[| |]|]; by apply stays_same.
  - unfold on_resource_closed. destruct (closing_state a); by apply stays_same.
  - unfold installProcessShutdown. destruct (negb _); [by apply stays_same|]. destruct (closed a); [by apply stays_same|].
    destruct (list_find _ _) as [[? ?]|]; [by apply stays_same|]. destruct (match fails_at with Some _ => _ | None => _ end); by apply stays_same.
  - apply stays_core, uninstall_core.
  - unfold on_signal. generalize (omap (fun l => if decide (l.1 = signal) then Some l.2 else None) (listeners a)).
    intros l. revert a H. induction l as [|k l IH]; intros a H; [by apply stays_same|]. simpl.
    eapply stays_trans; [|apply IH]; [|by apply handler_ok, (same_core_ok a)].
    eapply stays_trans; [|apply handler_stays]. by apply stays_same.
  - by apply stays_core, complete_core.
Qed.

Lemma closed_stays a more :
  res_ok a -> closed a = true ->
  let b := run object_prototype options os_signals a more in
  res_ok b /\ closed b = true /\ length (attempts b) = length (attempts a) /\ filter is_use (trace b) = filter is_use (trace a).
Proof using.
  intros H Hc. cbv zeta. unfold run. induction more as [|o more IH] using rev_ind; [done|]. rewrite foldl_snoc.
  destruct IH as (Hb & Hcb & Hl & Hf). destruct (step_spec _ o Hb) as [H' Hu]. destruct (step_stays _ o Hb Hcb) as [-> ->].
  split_and!; [done..|]. destruct Hu as [Hg|(h & E & _)]; [|congruence]. by rewrite (grows_uses _ _ Hg).
Qed.

(** ** Winding down *)

(** How far an attempt has come. *)
Definition stage (p : attempt) : nat :=
  match p with Queued => 0 | Initializing => 1 | Cleaning _ _ => 2 | Returned _ => 3 | Settled _ => 4 end.
Definition reached (n id : nat) (a : Adapter) : Prop := exists p, attempts a !! id = Some p /\ (n <= stage p)%nat.

Lemma reached_insert n id q (l : list attempt) :
  (exists p, l !! id = Some p) -> (n <= stage q)%nat -> exists p, <[id := q]> l !! id = Some p /\ (n <= stage p)%nat.
Proof using. intros [p Hp] Hq. exists q. split; [|done]. apply list_lookup_insert_eq. by eapply lookup_lt_Some. Qed.

Lemma begin_reached id a : reached 0 id a -> reached 1 id (begin_attempt id None a).
Proof using.
  intros (p & Hp & _). unfold begin_attempt, reached. rewrite Hp. destruct p; try (eexists; split; [exact Hp|simpl; lia]).
  apply reached_insert; [by eexists|simpl; lia].
Qed.

Lemma clean_reached id hand g e a : (exists p, attempts a !! id = Some p) -> reached 2 id (clean id hand g e a).
Proof using. intros Hp. unfold clean, reached. destruct (close_of g); (apply reached_insert; [done|simpl; lia]). Qed.

Lemma initialized_reached id r a : reached 1 id a -> reached 2 id (on_initialized options id r a).
Proof using.
  intros (p & Hp & Hs). unfold on_initialized. rewrite Hp.
  destruct p; simpl in Hs; try lia; try (exists (match attempts a !! id with Some p => p | None => Queued end); rewrite Hp; split; [done|simpl; lia]).
  assert (forall r b, attempts b = attempts a -> reached 2 id (return_from id r b)) as Hret.
  { intros r' b E. apply reached_insert; [rewrite E; by eexists|simpl; lia]. }
  assert (forall h g e b, attempts b = attempts a -> reached 2 id (clean id h g e b)) as Hclean.
  { intros h g e b E. apply clean_reached. rewrite E. by eexists. }
  destruct r as [[| |source hook]|e]; [by apply Hret|by apply Hclean| |by apply Hret].
  destruct (snapshot_source _); [|by apply Hclean]. destruct (publisher_for options _); [by apply Hret|].
  destruct (closed _); [by apply Hret|by apply Hclean].
Qed.

Lemma cleaned_reached id r a : reached 2 id a -> reached 3 id (on_cleaned id r a).
Proof using.
  intros (p & Hp & Hs). unfold on_cleaned, reached. rewrite Hp.
  destruct p; simpl in Hs; try lia; try (eexists; split; [exact Hp|simpl; lia]). apply reached_insert; [by eexists|simpl; lia].
Qed.

Lemma settle_reached id a : reached 3 id a -> reached 4 id (settle_attempt id a).
Proof using.
  intros (p & Hp & Hs). unfold settle_attempt, reached. rewrite Hp.
  destruct p; simpl in Hs; try lia; try (eexists; split; [exact Hp|simpl; lia]). apply reached_insert; [by eexists|simpl; lia].
Qed.

(** What [close] waits for, happening with any outcome. *)
Definition awaited (a : Adapter) : nat := match closing_state a with AwaitStart (Some id) => id | _ => 0%nat end.

Definition wind_down (id : nat) (given : res jsval given) (cleaned released : res jsval unit) : list op :=
  [OBegin id None; OInitialized id given; OCleaned id cleaned; OSettle id; OFinish; OResourceClosed released].

Definition settling (id : nat) (given : res jsval given) (cleaned : res jsval unit) (a : Adapter) : Adapter :=
  settle_attempt id (on_cleaned id cleaned (on_initialized options id given (begin_attempt id None a))).

Lemma settling_closing id g c a : closing_state (settling id g c a) = closing_state a.
Proof using.
  assert (forall b, closing_state (begin_attempt id None b) = closing_state b) as H1.
  { intros b. unfold begin_attempt. by destruct (attempts b !! id) as [[| | | |]|]. }
  assert (forall h g e b, closing_state (clean id h g e b) = closing_state b) as Hc.
  { intros h g' e b. unfold clean. by destruct (close_of g'). }
  assert (forall b, closing_state (on_initialized options id g b) = closing_state b) as H2.
  { intros b. unfold on_initialized. destruct (attempts b !! id) as [[| | | |]|]; try done.
    destruct g as [[| |source hook]|e]; [done|by etrans; [apply Hc|]| |done]. destruct (snapshot_source _); [|by etrans; [apply Hc|]].
    destruct (publisher_for options _); [done|]. destruct (closed _); [done|by etrans; [apply Hc|]]. }
  assert (forall b, closing_state (on_cleaned id c b) = closing_state b) as H3.
  { intros b. unfold on_cleaned. by destruct (attempts b !! id) as [[| | | |]|]. }
  unfold settling, settle_attempt. destruct (attempts _ !! id) as [[| | | |]|]; simpl; by rewrite ?H3, ?H2, ?H1.
Qed.

Lemma finish_released a r :
  res_ok a -> closed a = true -> (forall w, closing_state a = AwaitStart w -> attempt_over a w = true) ->
  exists x, closing_state (on_resource_closed r (finish a)) = Closed x.
Proof using.
  intros H Hc Hw. assert (closing_state a <> NotClosing) as Hn by (by apply (ro_closing _ H)).
  unfold finish. destruct (closing_state a) as [|w| |x] eqn:E; [done| | |].
  - rewrite (Hw w eq_refl). destruct (resource a) as [h|]; [|by eexists]. cbn [handed set_resource].
    destruct (close_of <$> _) as [[| |]|]; by eexists.
  - unfold on_resource_closed. rewrite E. by eexists.
  - unfold on_resource_closed. rewrite E. by eexists.
Qed.

Lemma wind_down_closes a g c r :
  res_ok a -> closed a = true ->
  exists x, closing_state (run object_prototype options os_signals a (wind_down (awaited a) g c r)) = Closed x.
Proof using.
  intros H Hc. change (run object_prototype options os_signals a (wind_down (awaited a) g c r))
    with (on_resource_closed r (finish (settling (awaited a) g c a))).
  destruct (closed_stays a [OBegin (awaited a) None; OInitialized (awaited a) g; OCleaned (awaited a) c; OSettle (awaited a)] H Hc)
    as (H' & Hc' & _). change (run _ _ _ a _) with (settling (awaited a) g c a) in H', Hc'.
  apply finish_released; [done..|]. intros [id|]; [|done]. rewrite settling_closing. intros E. unfold awaited. rewrite E.
  assert (reached 4 id (settling id g c a)) as (p & Hp & Hs).
  { apply settle_reached, cleaned_reached, initialized_reached, begin_reached.
    destruct (ro_known _ H id E) as [p Hp]. exists p. split; [done|lia]. }
  simpl. rewrite Hp. destruct p; simpl in Hs; lia.
Qed.
End ops.

(** ** The properties *)

(** C14: no resource leaks and none is used after its release. In every
    interleaving of starts, reads, initializers that answer late, wrongly or
    not at all, closes and signals: initializations run one at a time; each
    value an initializer hands over that has a [close] is either the resource
    in use, not closed, or has been closed exactly once; a resource is used
    only before its close; once the adapter is closed no initialization starts
    and nothing is used any more; and when [close] has settled, nothing is in
    use and every such value has been closed exactly once. *)
Theorem resources_released object_prototype options os_signals w ops more :
  let a := after object_prototype options os_signals w ops in
  let b := run object_prototype options os_signals a more in
  (forall i j p q, attempts a !! i = Some p -> attempts a !! j = Some q -> unsettled p -> unsettled q -> i = j) /\
  (forall h g, handed a !! h = Some g -> close_of g = Calls ->
     (resource a = Some h /\ closes h (trace a) = 0%nat) \/ (resource a <> Some h /\ closes h (trace a) = 1%nat)) /\
  (forall before h rest, trace a = before ++ UseResource h :: rest -> CloseResource h ∉ before) /\
  (closed a = true -> length (attempts b) = length (attempts a) /\ filter is_use (trace b) = filter is_use (trace a)) /\
  (forall r, closing_state a = Closed r -> resource a = None /\
     forall h g, handed a !! h = Some g -> close_of g = Calls -> closes h (trace a) = 1%nat).
Proof.
  intros a b. destruct (run_ok object_prototype options os_signals w ops) as [H Hu]. fold a in H, Hu.
  assert (forall h g, handed a !! h = Some g -> close_of g = Calls ->
     (resource a = Some h /\ closes h (trace a) = 0%nat) \/ (resource a <> Some h /\ closes h (trace a) = 1%nat)) as Hc.
  { intros h g Hg Hcalls. pose proof (ro_closes _ H h) as E. unfold owed in E. rewrite Hg in E.
    destruct (decide (resource a = Some h)) as [Hr|Hr]; [left|right]; (split; [done|]).
    - by rewrite decide_False in E by (by intros [_ ?]).
    - by rewrite decide_True in E. }
  split_and!; [|done|exact Hu| |].
  - intros i j p q Hi Hj Hp Hq. pose proof (only_attempt a i p H Hi Hp). pose proof (only_attempt a j q H Hj Hq). congruence.
  - intros Hcl. destruct (closed_stays object_prototype options os_signals a more H Hcl) as (_ & _ & ? & ?). by split.
  - intros r E. pose proof (ro_done _ H) as Hd. rewrite E in Hd. destruct Hd as [_ Hr]. split; [done|]. intros h g Hg Hcalls.
    destruct (Hc h g Hg Hcalls) as [[E' _]|[_ E']]; [congruence|done].
Qed.

(** C16: [close] settles. From every state of every run in which [close] has
    been called, let what it waits for happen, with any outcome (the pending
    initializer answers anything or fails, the value it gave is closed or
    fails to close, the resource's close fulfils or rejects): then the close
    has settled, nothing is in use and everything handed over has been closed
    exactly once. *)
Theorem close_settles object_prototype options os_signals w ops given cleaned released :
  let a := after object_prototype options os_signals w ops in
  let b := run object_prototype options os_signals a (wind_down (awaited a) given cleaned released) in
  closed a = true ->
  (exists r, closing_state b = Closed r) /\ resource b = None /\
  forall h g, handed b !! h = Some g -> close_of g = Calls -> closes h (trace b) = 1%nat.
Proof.
  intros a b Hc. destruct (run_ok object_prototype options os_signals w ops) as [H _]. fold a in H.
  destruct (wind_down_closes object_prototype options os_signals a given cleaned released H Hc) as [r E]. fold b in E.
  destruct (closed_stays object_prototype options os_signals a (wind_down (awaited a) given cleaned released) H Hc) as (H' & _). fold b in H'.
  pose proof (ro_done _ H') as Hd. rewrite E in Hd. destruct Hd as [_ Hr]. split_and!; [by exists r|done|].
  intros h g Hg Hcalls. rewrite (ro_closes _ H'), Hr. unfold owed. by rewrite Hg, decide_True.
Qed.

(** A run: a reader starts an initialization, [close] comes while it is under
    way, and the initializer answers all the same. *)
Definition demo_node : Runtime := {| has_process := true; has_node := true; NEXT_RUNTIME := None; has_EdgeRuntime := false |}.
Definition demo_world : World := {| objects := []; reads := 0; events := [] |}.
Definition demo_source (n : nat) (h : heap) : heap * res jsval answer := (h, Ok NoSnapshot).
Definition demo_options : CreateNextKmsOptions :=
  {| nx_project := Hook (fun h v => (h, Ok v)); nx_keys := Some [];
     nx_validate := Hook (fun h _ _ => (h, Ok Valid)); nx_onPublisherEvent := Missing |}.
Definition demo_given : given := Given (Some demo_source) CloseFunction.

Lemma close_settles_witness :
  let ops := [OCall ReadPublicPolicy demo_node; OBegin 0 None; OClose] in
  let b := run 0 demo_options [] (after 0 demo_options [] demo_world ops)
             (wind_down 0 (Ok demo_given) (Ok tt) (Ok tt)) in
  closes 0 (trace b) = 1%nat /\ (exists r, closing_state b = Closed r).
Proof.
  intros ops b. destruct (close_settles 0 demo_options [] demo_world ops (Ok demo_given) (Ok tt) (Ok tt)) as (Hr & _ & Hc); [done|].
  split; [|exact Hr]. by apply (Hc 0%nat demo_given).
Defined.

Lemma resources_released_witness :
  let ops := [OCall ReadPublicPolicy demo_node; OBegin 0 None; OInitialized 0 (Ok demo_given); OSettle 0; OResume 0] in
  let a := after 0 demo_options [] demo_world ops in
  UseResource 0 ∈ trace a /\ resource a = Some 0%nat /\ closes 0 (trace a) = 0%nat.
Proof.
  intros ops a. split; [by apply (bool_decide_unpack (UseResource 0 ∈ trace a))|]. split; [done|].
  destruct (resources_released 0 demo_options [] demo_world ops []) as (_ & H & _).
  destruct (H 0%nat demo_given) as [[_ E]|[E _]]; [done|done|exact E|]. by exfalso; apply E.
Defined.
