(* ===== verification/NextKmsHooks.v ===== *)
(** * NextKmsHooks: the shutdown hooks of the server adapter.

    A hook cleans up at most once, whatever signals arrive and however often;
    closing the adapter, for whatever reason, leaves no listener on the
    process; and a cleanup completes only after the close has settled. *)
From stdpp Require Import prelude gmap list strings.
From Stdlib Require Import ZArith Lia.
From S2P Require Import Prelude JsString JsMap Clone Publishing Route NextKms NextKmsSpec.

Definition count {A} `{EqDecision A} (x : A) (l : list A) : nat := length (filter (fun y => y = x) l).

Lemma count_app {A} `{EqDecision A} (x : A) l k : count x (l ++ k) = (count x l + count x k)%nat.
Proof. unfold count. by rewrite filter_app, length_app. Qed.

Lemma count_one {A} `{EqDecision A} (x y : A) : count x [y] = if decide (y = x) then 1%nat else 0%nat.
Proof. unfold count. destruct (decide (y = x)); [by rewrite filter_cons_True|by rewrite filter_cons_False]. Qed.

Lemma count_list_delete {A} `{EqDecision A} (x y : A) l n :
  l !! n = Some y -> count x l = (count x (delete n l) + (if decide (y = x) then 1 else 0))%nat.
Proof.
  intros Hn. rewrite <- (take_drop_middle l n y Hn) at 1. rewrite delete_take_drop, !count_app.
  change (y :: drop (S n) l) with ([y] ++ drop (S n) l). rewrite count_app, count_one. lia.
Qed.

Definition starts_of (k : nat) (e : effect) : Prop := match e with CleanupStarted j _ => j = k | _ => False end.
#[export] Instance starts_of_dec k e : Decision (starts_of k e).
Proof. destruct e; simpl; apply _. Defined.

(** How often a hook's cleanup has started. *)
Definition starts (k : nat) (tr : list effect) : nat := length (filter (starts_of k) tr).

Definition cleanup (e : effect) : Prop := match e with CleanupStarted _ _ | CleanupComplete _ _ => True | _ => False end.

(** ** The invariant *)

Definition off (i : install) : install := {| i_signals := i_signals i; installed := false; shutdownStarted := shutdownStarted i |}.

Record hooks_base (a : Adapter) : Prop := {
  hk_listen : forall s k, (s, k) ∈ listeners a -> exists i, installs a !! k = Some i /\ installed i = true;
  hk_set : forall k i, installs a !! k = Some i -> installed i = true -> k ∈ shutdownUninstallers a;
  hk_count : forall k, starts k (trace a) = match installs a !! k with Some i => if shutdownStarted i then 1%nat else 0%nat | None => 0%nat end;
  hk_pending : forall k s, count (CleanupStarted k s) (trace a) =
    (count (CleanupComplete k s) (trace a) + count (k, s) (completions a))%nat;
  hk_complete : forall k s, CleanupComplete k s ∈ trace a -> exists r, closing_state a = Closed r
}.

Record hooks_ok (a : Adapter) : Prop := {
  hk_base : hooks_base a;
  hk_closed : closed a = true -> forall k i, installs a !! k = Some i -> installed i = false;
  hk_started : forall k s, CleanupStarted k s ∈ trace a -> closed a = true
}.

(** Operations that do not touch the hooks. *)
Definition same_hooks (a b : Adapter) : Prop :=
  listeners b = listeners a /\ installs b = installs a /\ shutdownUninstallers b = shutdownUninstallers a /\
  completions b = completions a /\ closed b = closed a /\ (forall r, closing_state a = Closed r -> closing_state b = Closed r) /\
  exists es, trace b = trace a ++ es /\ forall e, e ∈ es -> ~ cleanup e.

Lemma quiet_starts k es : (forall e, e ∈ es -> ~ cleanup e) -> starts k es = 0%nat.
Proof.
  intros H. unfold starts. induction es as [|e es IH]; [done|]. rewrite filter_cons_False.
  - apply IH. intros e' He. apply H. by right.
  - specialize (H e ltac:(by left)). by destruct e.
Qed.

Lemma quiet_count x es : cleanup x -> (forall e, e ∈ es -> ~ cleanup e) -> count x es = 0%nat.
Proof.
  intros Hx H. unfold count. induction es as [|e es IH]; [done|]. rewrite filter_cons_False.
  - apply IH. intros e' He. apply H. by right.
  - intros ->. by apply (H x); [left|].
Qed.

Lemma starts_app k l m : starts k (l ++ m) = (starts k l + starts k m)%nat.
Proof. unfold starts. by rewrite filter_app, length_app. Qed.

Lemma same_hooks_base a b : same_hooks a b -> hooks_base a -> hooks_base b.
Proof.
  intros (E1 & E2 & E3 & E4 & E5 & E6 & es & E7 & He) H. split; rewrite ?E1, ?E2, ?E3, ?E4; try apply H.
  - intros k. rewrite E7, starts_app, (quiet_starts k es He), (hk_count _ H). lia.
  - intros k s. rewrite E7, !count_app, !(quiet_count _ es) by done. rewrite (hk_pending _ H). lia.
  - intros k s Hs. rewrite E7, elem_of_app in Hs. destruct Hs as [Hs|Hs]; [|by apply He in Hs].
    destruct (hk_complete _ H k s Hs) as [r Hr]. exists r. by apply E6.
Qed.

Lemma same_hooks_ok a b : same_hooks a b -> hooks_ok a -> hooks_ok b.
Proof.
  intros Hs H. pose proof (same_hooks_base a b Hs (hk_base _ H)) as Hb. destruct Hs as (E1 & E2 & E3 & E4 & E5 & E6 & es & E7 & He).
  split; [done|..]; rewrite ?E2, ?E5; [apply H|]. intros k s. rewrite E7, elem_of_app. intros [Hs|Hs]; [by eapply (hk_started _ H)|by apply He in Hs].
Qed.

Lemma same_hooks_trans a b c : same_hooks a b -> same_hooks b c -> same_hooks a c.
Proof.
  intros (E1 & E2 & E3 & E4 & E5 & E6 & es & E7 & He) (F1 & F2 & F3 & F4 & F5 & F6 & fs & F7 & Hf).
  split_and!; try congruence; [by intros r Hr; apply F6, E6|]. exists (es ++ fs). rewrite F7, E7, (assoc_L (++)). split; [done|].
  intros e. rewrite elem_of_app. intros [?|?]; [by apply He|by apply Hf].
Qed.

Lemma same_hooks_silent a b :
  listeners b = listeners a -> installs b = installs a -> shutdownUninstallers b = shutdownUninstallers a ->
  completions b = completions a -> closed b = closed a ->
  (forall r, closing_state a = Closed r -> closing_state b = Closed r) -> trace b = trace a -> same_hooks a b.
Proof. intros. split_and!; try done. exists []. rewrite app_nil_r. split; [done|]. by intros e ?%elem_of_nil. Qed.

Lemma same_hooks_emit a e : ~ cleanup e -> same_hooks a (emit e a).
Proof. intros He. split_and!; try done. exists [e]. split; [done|]. by intros x Hx%list_elem_of_singleton; subst x. Qed.

Ltac silent := by apply same_hooks_silent.

(** ** Uninstalling *)

Lemma uninstall_installs k j a :
  installs (uninstall k a) !! j = if decide (j = k) then off <$> installs a !! j else installs a !! j.
Proof.
  unfold uninstall. destruct (installs a !! k) as [i|] eqn:Hk.
  - destruct (installed i) eqn:Hi.
    + simpl. case_decide as Hj; [subst j|by apply list_lookup_insert_ne].
      rewrite list_lookup_insert_eq by (by eapply lookup_lt_Some). by rewrite Hk.
    + case_decide as Hj; [subst j|done]. rewrite Hk. destruct i. simpl in *. by subst.
  - case_decide as Hj; [subst j|done]. by rewrite Hk.
Qed.

Lemma uninstall_listen k a s j :
  hooks_base a -> (s, j) ∈ listeners (uninstall k a) -> (s, j) ∈ listeners a /\ j <> k.
Proof.
  intros H. unfold uninstall. destruct (installs a !! k) as [i|] eqn:Hk; [destruct (installed i) eqn:Hi|].
  - simpl. rewrite list_elem_of_filter. simpl. by intros [? ?].
  - intros Hin. split; [done|]. intros ->. destruct (hk_listen _ H s k Hin) as (i' & Hi' & E). congruence.
  - intros Hin. split; [done|]. intros ->. destruct (hk_listen _ H s k Hin) as (i' & Hi' & E). congruence.
Qed.

Lemma uninstall_set k a j :
  j ∈ shutdownUninstallers a -> j <> k -> j ∈ shutdownUninstallers (uninstall k a).
Proof.
  intros Hin Hj. unfold uninstall. destruct (installs a !! k) as [i|]; [|done]. destruct (installed i); [|done]. simpl.
  by apply list_elem_of_filter.
Qed.

Lemma uninstall_rest k a :
  completions (uninstall k a) = completions a /\ closed (uninstall k a) = closed a /\
  closing_state (uninstall k a) = closing_state a /\ trace (uninstall k a) = trace a.
Proof. unfold uninstall. destruct (installs a !! k) as [i|]; [|done]. by destruct (installed i). Qed.

Lemma uninstall_ok k a : hooks_base a -> hooks_base (uninstall k a).
Proof.
  intros H. destruct (uninstall_rest k a) as (E1 & E2 & E3 & E4).
  assert (forall j i, installs (uninstall k a) !! j = Some i -> installed i = true -> j <> k /\ installs a !! j = Some i) as Hinst.
  { intros j i. rewrite uninstall_installs. case_decide as Hj; [|done]. subst j. destruct (installs a !! k); [|done].
    by intros [= <-]. }
  split; rewrite ?E1, ?E2, ?E3, ?E4; try apply H.
  - intros s j Hin. apply uninstall_listen in Hin as [Hin Hj]; [|done]. destruct (hk_listen _ H s j Hin) as (i & Hi & E).
    exists i. rewrite uninstall_installs, decide_False by done. done.
  - intros j i Hi E. destruct (Hinst j i Hi E) as [Hj Hi']. apply uninstall_set; [|done]. by eapply (hk_set _ H).
  - intros j. rewrite (hk_count _ H), uninstall_installs. case_decide; [|done]. by destruct (installs a !! j).
Qed.

Lemma uninstall_all_ok l a :
  hooks_base a -> let b := foldl (fun a k => uninstall k a) a l in
  hooks_base b /\ (completions b = completions a /\ closed b = closed a /\ closing_state b = closing_state a /\ trace b = trace a) /\
  forall j i, installs b !! j = Some i -> installed i = true -> j ∉ l /\ installs a !! j = Some i.
Proof.
  intros H. cbv zeta. revert a H. induction l as [|k l IH]; intros a H; simpl.
  - split_and!; try done. intros j i Hi _. split; [|done]. by intros ?%elem_of_nil.
  - destruct (IH (uninstall k a) (uninstall_ok k a H)) as (H' & (E1 & E2 & E3 & E4) & Hall).
    destruct (uninstall_rest k a) as (F1 & F2 & F3 & F4). split_and!; [done|congruence..|].
    intros j i Hi Hin. destruct (Hall j i Hi Hin) as [Hj Hi']. rewrite uninstall_installs in Hi'.
    case_decide as Hk; [|split; [|done]; rewrite not_elem_of_cons; by split].
    subst j. destruct (installs a !! k); [|done]. simpl in Hi'. by simplify_eq.
Qed.

(** ** Closing *)

(** What a close leaves: every hook is off. *)
Lemma close_hooks a :
  res_ok a -> hooks_base a -> (closed a = true -> forall k i, installs a !! k = Some i -> installed i = false) ->
  hooks_base (close a) /\ closed (close a) = true /\ (forall k i, installs (close a) !! k = Some i -> installed i = false) /\
  completions (close a) = completions a /\ (forall e, cleanup e -> e ∈ trace (close a) <-> e ∈ trace a).
Proof.
  intros R H Hoff. unfold close. destruct (closing_state a) eqn:Hc.
  2-4: assert (closed a = true) as Hcl by (apply (ro_closing _ R); congruence); split_and!; [done|done|by apply Hoff|done|done].
  set (b := match initializationController _ with Some id => _ | None => _ end).
  assert (exists es, trace b = trace a ++ es /\ forall e, e ∈ es -> ~ cleanup e) as (es & Et & He).
  { unfold b. simpl. destruct (initializationController a) as [id|].
    - exists [AbortInitialization id]. split; [done|]. intros e E%list_elem_of_singleton. subst e. by intros [].
    - exists []. rewrite app_nil_r. split; [done|]. by intros e ?%elem_of_nil. }
  assert (listeners b = listeners a /\ installs b = installs a /\ shutdownUninstallers b = shutdownUninstallers a /\
    completions b = completions a /\ closed b = true) as (E1 & E2 & E3 & E4 & E5) by (unfold b; simpl; by destruct (initializationController a)).
  assert (hooks_base b) as Hb.
  { split; rewrite ?E1, ?E2, ?E3, ?E4; try apply H.
    - intros k. rewrite Et, starts_app, (quiet_starts k es He), (hk_count _ H). lia.
    - intros k s. rewrite Et, !count_app, !(quiet_count _ es) by done. rewrite (hk_pending _ H). lia.
    - intros k s Hs. rewrite Et, elem_of_app in Hs. destruct Hs as [Hs|Hs]; [|by apply He in Hs].
      destruct (hk_complete _ H k s Hs) as [r Hr]. congruence. }
  destruct (uninstall_all_ok (shutdownUninstallers b) b Hb) as (H' & (F1 & F2 & F3 & F4) & Hall).
  split_and!; [done|congruence| |congruence|].
  - intros k i Hi. destruct (installed i) eqn:Hin; [|done]. exfalso. destruct (Hall k i Hi Hin) as [Hn Hi'].
    by apply Hn, (hk_set _ Hb k i).
  - intros e Hcl. rewrite F4, Et, elem_of_app. split; [intros [?|Hes]; [done|by apply He in Hes]|by left].
Qed.

Lemma close_hooks_ok a : res_ok a -> hooks_ok a -> hooks_ok (close a).
Proof. intros R H. destruct (close_hooks a R (hk_base _ H) (hk_closed _ H)) as (H1 & H2 & H3 & _ & _). by split. Qed.

(** ** Signals *)

(** Closing does not look at the pending completions. *)
Lemma uninstall_pending l k a : uninstall k (set_completions l a) = set_completions l (uninstall k a).
Proof. unfold uninstall. simpl. destruct (installs a !! k) as [i|]; [|done]. by destruct (installed i). Qed.

Lemma close_pending l a : close (set_completions l a) = set_completions l (close a).
Proof.
  unfold close. simpl. destruct (closing_state a); try done.
  assert (forall ks b, foldl (fun a k => uninstall k a) (set_completions l b) ks =
    set_completions l (foldl (fun a k => uninstall k a) b ks)) as Hall.
  { intros ks. induction ks as [|k ks IH]; intros b; [done|]. simpl. by rewrite uninstall_pending. }
  destruct (initializationController a) as [id|].
  - apply (Hall _ (emit (AbortInitialization id) (set_closing (AwaitStart (startAttempt a)) true a))).
  - apply (Hall _ (set_closing (AwaitStart (startAttempt a)) true a)).
Qed.

Lemma close_completions a : completions (close a) = completions a.
Proof.
  assert (a = set_completions (completions a) a) as E by (by destruct a). rewrite E at 1. by rewrite close_pending.
Qed.

Lemma handler_hooks signal k a : res_ok a -> hooks_ok a -> hooks_ok (handler signal k a).
Proof.
  intros R H. unfold handler. destruct (installs a !! k) as [i|] eqn:Hk; [|done]. destruct (shutdownStarted i) eqn:Hs; [done|].
  set (i' := {| i_signals := i_signals i; installed := installed i; shutdownStarted := true |}).
  set (m := set_installs (shutdownUninstallers a) (<[k := i']> (installs a)) (listeners a) a).
  set (b := uninstall k (emit (CleanupStarted k signal) m)).
  assert (res_ok b) as Rb.
  { eapply same_core_ok; [apply uninstall_core|]. eapply same_core_ok; [by apply same_core_emit|]. by apply (same_core_ok a). }
  assert (forall j, installs m !! j = if decide (j = k) then Some i' else installs a !! j) as Hm.
  { intros j. simpl. case_decide as Hj; [subst j|by apply list_lookup_insert_ne]. apply list_lookup_insert_eq. by eapply lookup_lt_Some. }
  assert (hooks_base (set_completions (completions a ++ [(k, signal)]) (emit (CleanupStarted k signal) m))) as Hbase.
  { pose proof (hk_base _ H) as B. split.
    - intros s j Hin. destruct (hk_listen _ B s j Hin) as (x & Hx & E). change (exists i, installs m !! j = Some i /\ installed i = true).
      rewrite Hm. case_decide as Hj; [subst j|by exists x]. exists i'. split; [done|]. simpl. congruence.
    - intros j x Hx E. change (installs m !! j = Some x) in Hx. rewrite Hm in Hx. case_decide as Hj.
      + subst j. injection Hx as <-. by apply (hk_set _ B k i).
      + by apply (hk_set _ B j x).
    - intros j. change (starts j (trace a ++ [CleanupStarted k signal]) = match installs m !! j with Some i => if shutdownStarted i then 1%nat else 0%nat | None => 0%nat end).
      rewrite starts_app, (hk_count _ B), Hm. unfold starts at 1. case_decide as Hj.
      + subst j. rewrite Hk, Hs, filter_cons_True by done. done.
      + rewrite filter_cons_False by (by intros ->). simpl. lia.
    - intros j s. simpl. rewrite !count_app, !count_one, (hk_pending _ B).
      rewrite (decide_False (P := CleanupStarted k signal = CleanupComplete j s)) by done.
      destruct (decide ((k, signal) = (j, s))) as [[= -> ->]|Hne]; [rewrite decide_True by done; lia|].
      rewrite decide_False by (intros [= -> ->]; done). lia.
    - intros j s Hin. simpl in Hin. apply elem_of_app in Hin as [Hin|Hin%list_elem_of_singleton]; [|done]. by apply (hk_complete _ B j s). }
  set (c := set_completions (completions a ++ [(k, signal)]) (emit (CleanupStarted k signal) m)).
  assert (set_completions (completions (close b) ++ [(k, signal)]) (close b) = close (uninstall k c)) as ->.
  { rewrite close_completions. destruct (uninstall_rest k (emit (CleanupStarted k signal) m)) as (E & _). fold b in E. rewrite E.
    rewrite <- close_pending. unfold b, c. by rewrite <- uninstall_pending. }
  assert (res_ok (uninstall k c)) as Rc.
  { eapply same_core_ok; [apply uninstall_core|]. apply (same_core_ok (emit (CleanupStarted k signal) m)); [by split_and!|].
    eapply same_core_ok; [by apply same_core_emit|]. by apply (same_core_ok a). }
  destruct (close_hooks (uninstall k c) Rc (uninstall_ok k c Hbase)) as (H1 & H2 & H3 & _).
  - destruct (uninstall_rest k c) as (_ & -> & _). intros Hc j x. rewrite uninstall_installs.
    change (installs c) with (installs m). rewrite Hm. pose proof (hk_closed _ H Hc) as Hoff.
    case_decide as Hj; [by intros [= <-]|]. apply Hoff.
  - by split.
Qed.

Lemma on_signal_hooks signal a : res_ok a -> hooks_ok a -> hooks_ok (on_signal signal a).
Proof.
  unfold on_signal. generalize (omap (fun l => if decide (l.1 = signal) then Some l.2 else None) (listeners a)).
  intros l. revert a. induction l as [|k l IH]; intros a R H; [done|]. simpl.
  set (b := set_installs _ _ _ a). assert (res_ok b) as Rb by (by apply (same_core_ok a)).
  apply IH; [by apply handler_ok|]. apply handler_hooks; [done|]. pose proof (hk_base _ H) as B. split; [|apply H|apply H].
  split; simpl; try apply B. intros s j [_ Hin]%list_elem_of_filter. by apply (hk_listen _ B s j).
Qed.

Lemma complete_hooks n fails a : hooks_ok a -> hooks_ok (complete n fails a).
Proof.
  intros H. unfold complete. destruct (completions a !! n) as [[k signal]|] eqn:Hn; [|done].
  destruct (closing_state a) as [| | |r] eqn:Hr; try done.
  set (b := set_completions (delete n (completions a)) a). pose proof (hk_base _ H) as B.
  assert (forall x, same_hooks b x -> hooks_ok (emit (CleanupComplete k signal) x)) as Hall.
  { intros x (E1 & E2 & E3 & E4 & E5 & E6 & es & E7 & He). specialize (E6 r Hr). simpl in E1, E2, E3, E4, E5, E7.
    split; [split|..]; simpl; rewrite ?E1, ?E2, ?E3, ?E4, ?E5, ?E7; try apply B.
    - intros j. rewrite !starts_app, (quiet_starts j es He), (hk_count _ B). unfold starts at 1. rewrite filter_cons_False by (by intros []). simpl. lia.
    - intros j s. rewrite !count_app, !(quiet_count _ es), !count_one by done. rewrite (hk_pending _ B), (count_list_delete (j, s) (k, signal) (completions a) n Hn).
      rewrite (decide_False (P := CleanupComplete k signal = CleanupStarted j s)) by done.
      destruct (decide ((k, signal) = (j, s))) as [[= -> ->]|Hne]; [rewrite decide_True by done; lia|].
      rewrite decide_False by (intros [= -> ->]; done). lia.
    - intros j s _. by exists r.
    - apply H.
    - intros j s. rewrite !elem_of_app. intros [[Hs|Hs]|Hs]; [by apply (hk_started _ H j s)|by apply He in Hs|].
      by apply list_elem_of_singleton in Hs. }
  assert (forall x, hooks_ok x -> hooks_ok (emit (ReportError k) x)) as Hrep.
  { intros x. apply same_hooks_ok, same_hooks_emit. by intros []. }
  destruct r, fails; try apply Hrep; apply Hall; try (apply same_hooks_emit; by intros []); by apply same_hooks_silent.
Qed.

Lemma install_hooks os_signals r signals fails_at a :
  hooks_ok a -> hooks_ok (installProcessShutdown os_signals r signals fails_at a).1.
Proof.
  intros H. unfold installProcessShutdown. destruct (negb _); [done|]. destruct (closed a) eqn:Hc; [done|].
  destruct (list_find _ _) as [[? ?]|]; [done|]. set (u := foldl _ [] _).
  pose proof (hk_base _ H) as B.
  assert (starts (length (installs a)) (trace a) = 0%nat) as H0 by (by rewrite (hk_count _ B), lookup_ge_None_2).
  assert (forall k i, (installs a ++ [i]) !! k = if decide (k = length (installs a)) then Some i else installs a !! k) as Hl.
  { intros k i. case_decide as Hk; [subst k; by rewrite lookup_app_r, Nat.sub_diag by lia|].
    destruct (decide (k < length (installs a))%nat); [by rewrite lookup_app_l|].
    rewrite !lookup_ge_None_2 by (rewrite ?length_app; simpl; lia). done. }
  destruct (match fails_at with Some _ => _ | None => _ end).
  - split; [split|..]; simpl; try apply B; try apply H.
    + intros s k Hin. destruct (hk_listen _ B s k Hin) as (i & Hi & E). exists i. split; [|done]. by apply lookup_app_l_Some.
    + intros k i. rewrite Hl. case_decide; [by intros [= <-]|]. apply (hk_set _ B).
    + intros k. rewrite Hl. case_decide as Hk; [by subst k|]. apply (hk_count _ B).
    + intros E. congruence.
  - split; [split|..]; simpl; try apply B; try apply H.
    + intros s k. rewrite elem_of_app. intros [Hin|Hin].
      * destruct (hk_listen _ B s k Hin) as (i & Hi & E). exists i. split; [|done]. by apply lookup_app_l_Some.
      * apply list_elem_of_In, in_map_iff in Hin as (s' & [= <- <-] & _). eexists. rewrite Hl, decide_True by done. done.
    + intros k i. rewrite Hl, elem_of_app. case_decide as Hk; [subst k; intros _ _; right; by left|]. intros Hi E. left. by apply (hk_set _ B k i).
    + intros k. rewrite Hl. case_decide as Hk; [by subst k|]. apply (hk_count _ B).
    + intros E. congruence.
Qed.

(** ** Everything else *)

Section ops.
Context (object_prototype : loc) (options : CreateNextKmsOptions) (os_signals : list jstr).

Lemma same_hooks_refl a : same_hooks a a.
Proof using. silent. Qed.

(** After one effect that is no cleanup, silently. *)
Lemma same_hooks_one a b e : ~ cleanup e -> same_hooks (emit e a) b -> same_hooks a b.
Proof using. intros He. by apply same_hooks_trans, same_hooks_emit. Qed.

Lemma clean_same id hand g e a : same_hooks a (clean id hand g e a).
Proof using.
  unfold clean. destruct (close_of g); [|silent..]. apply (same_hooks_one _ _ (CloseResource hand)); [by intros []|silent].
Qed.

Lemma on_initialized_same id r a : same_hooks a (on_initialized options id r a).
Proof using.
  unfold on_initialized. destruct (attempts a !! id) as [[| | | |]|]; try silent.
  destruct r as [g|e]; [|silent]. fold (hand_over g a).
  assert (forall b e, same_hooks a b -> same_hooks a (clean id (length (handed a)) g e b)) as Hclean.
  { intros b e Hb. eapply same_hooks_trans; [exact Hb|apply clean_same]. }
  destruct g as [| |source hook]; [silent|apply Hclean; silent|].
  destruct (snapshot_source _); [|apply Hclean; silent]. destruct (publisher_for options _); [silent|].
  destruct (closed _); [silent|apply Hclean; silent].
Qed.

Lemma resume_same c a : same_hooks a (resume object_prototype c a).
Proof using.
  assert (forall k r w, same_hooks a (answer_caller c k r w a)) as Hans by (intros; silent).
  assert (forall k r w h, same_hooks a (answer_caller c k r w (emit (UseResource h) a))) as Huse.
  { intros k r w h. apply (same_hooks_one _ _ (UseResource h)); [by intros []|silent]. }
  assert (forall A k (f : A -> value) rd, same_hooks a (on_publisher c k f rd a)) as Hpub.
  { intros A k f rd. unfold on_publisher. destruct (closed a); [done|]. destruct (publisher a) as [[h P]|]; [|done].
    by destruct (rd P (world a)) as [w r]. }
  unfold resume. destruct (callers a !! c) as [[k w|]|]; try apply same_hooks_refl.
  destruct (wait_over a w) as [[[]|e]|]; [|done|apply same_hooks_refl].
  destruct k as [| | |revision input]; [done| |apply Hpub..]. unfold read_policy.
  destruct (closed a); [done|]. destruct (resource a) as [h|]; [|done].
  destruct (handed a !! h) as [[| |[source|] hook]|]; try apply same_hooks_refl. by destruct (source _ _).
Qed.

Lemma finish_same a : same_hooks a (finish a).
Proof using.
  unfold finish. destruct (closing_state a) as [|w| |] eqn:Hc; try apply same_hooks_refl.
  destruct (attempt_over a w); [|apply same_hooks_refl].
  assert (forall b c, closing_state b = closing_state a -> same_hooks a b -> same_hooks a (set_closing c (closed b) b)) as Hset.
  { intros b c Eb (E1 & E2 & E3 & E4 & E5 & E6 & E7). split_and!; try done. intros r. by rewrite Hc. }
  destruct (resource a) as [h|]; [|apply (Hset (set_resource None None a)); [done|silent]].
  destruct (close_of <$> _) as [[| |]|]; [|apply (Hset (set_resource None None a)); [done|silent]..].
  apply (Hset (emit (CloseResource h) (set_resource None None a))); [done|].
  eapply same_hooks_trans; [|apply same_hooks_emit; by intros []]. silent.
Qed.

Lemma step_hooks a o :
  res_ok a -> hooks_ok a -> hooks_ok (step object_prototype options os_signals a o).
Proof using.
  intros R H. destruct o; cbn [step]; try (by apply close_hooks_ok || apply complete_hooks || apply install_hooks || apply on_signal_hooks).
  - apply (same_hooks_ok a); [|done]. unfold call, start. destruct (negb _); [silent|]. destruct (closed a); [silent|].
    destruct (resource a), (publisher a); try silent; destruct (startAttempt a); silent.
  - apply (same_hooks_ok a); [|done]. unfold begin_attempt. destruct (attempts a !! id) as [[| | | |]|]; try apply same_hooks_refl.
    destruct thrown; (apply (same_hooks_one _ _ (Initialize id)); [by intros []|silent]).
  - apply (same_hooks_ok a); [apply on_initialized_same|done].
  - apply (same_hooks_ok a); [|done]. unfold on_cleaned. destruct (attempts a !! id) as [[| | | |]|]; silent.
  - apply (same_hooks_ok a); [|done]. unfold settle_attempt. destruct (attempts a !! id) as [[| | | |]|]; silent.
  - apply (same_hooks_ok a); [apply resume_same|done].
  - apply (same_hooks_ok a); [apply finish_same|done].
  - apply (same_hooks_ok a); [|done]. unfold on_resource_closed. destruct (closing_state a) eqn:Hc; try apply same_hooks_refl.
    apply same_hooks_silent; try done. intros x. by rewrite Hc.
  - split; [by apply uninstall_ok, hk_base|..]; destruct (uninstall_rest k a) as (_ & E & _ & Et); rewrite E, ?Et; [|apply H].
    intros Hc j i. rewrite uninstall_installs. case_decide; [|by apply (hk_closed _ H)].
    destruct (installs a !! j); [|done]. by intros [= <-].
  - by apply (same_hooks_ok a); [silent|].
Qed.

Lemma hooks_run w ops : hooks_ok (after object_prototype options os_signals w ops).
Proof using.
  unfold after, run. induction ops as [|o ops IH] using rev_ind.
  - split; [split|..]; simpl; try done; intros; exfalso; by eapply elem_of_nil.
  - rewrite foldl_snoc. apply step_hooks; [|exact IH]. apply (run_ok object_prototype options os_signals w ops).
Qed.
End ops.

(** C17: shutdown hooks clean up once. In every run, whatever signals arrive,
    however often, and whoever else closes the adapter: each installed hook
    starts its cleanup at most once; a started cleanup has closed the adapter,
    and either it is pending or it has completed, once; none completes before
    the close has settled, and when it has, the pending ones can; and a closed
    adapter has no hook installed and no listener on the process. *)
Theorem shutdown_once object_prototype options os_signals w ops :
  let a := after object_prototype options os_signals w ops in
  (forall k, (starts k (trace a) <= 1)%nat) /\
  (forall k s, CleanupStarted k s ∈ trace a -> closed a = true /\
     (count (CleanupComplete k s) (trace a) + count (k, s) (completions a) = 1)%nat) /\
  (forall k s, CleanupComplete k s ∈ trace a -> exists r, closing_state a = Closed r) /\
  (forall n k s r, closing_state a = Closed r -> completions a !! n = Some (k, s) ->
     CleanupComplete k s ∈ trace (step object_prototype options os_signals a (OComplete n false))) /\
  (closed a = true -> listeners a = [] /\ forall k i, installs a !! k = Some i -> installed i = false).
Proof.
  intros a. pose proof (hooks_run object_prototype options os_signals w ops) as H. fold a in H. pose proof (hk_base _ H) as B.
  assert (forall k, (starts k (trace a) <= 1)%nat) as Hone.
  { intros k. rewrite (hk_count _ B). destruct (installs a !! k) as [i|]; [destruct (shutdownStarted i)|]; lia. }
  split_and!; [done| |by apply (hk_complete _ B)| |].
  - intros k s Hin. split; [by eapply (hk_started _ H)|]. rewrite <- (hk_pending _ B). specialize (Hone k).
    assert (1 <= count (CleanupStarted k s) (trace a) <= starts k (trace a))%nat; [|lia]. split.
    + unfold count. destruct (filter _ (trace a)) eqn:E; [|simpl; lia].
      assert (CleanupStarted k s ∈ filter (fun y => y = CleanupStarted k s) (trace a)) as Hf by (by apply list_elem_of_filter).
      rewrite E in Hf. by apply elem_of_nil in Hf.
    + unfold count, starts. clear. induction (trace a) as [|e l IH]; [done|]. rewrite !filter_cons.
      destruct (decide (e = CleanupStarted k s)) as [->|Hne].
      * rewrite decide_True by done. simpl. lia.
      * destruct (decide (starts_of k e)); simpl; lia.
  - intros n k s r Hr Hn. cbn [step]. unfold complete. rewrite Hn, Hr. destruct r; simpl; apply elem_of_app; right; by left.
  - intros Hc. pose proof (hk_closed _ H Hc) as Hoff. split; [|done]. apply elem_of_nil_inv. intros [s k] Hin.
    destruct (hk_listen _ B s k Hin) as (i & Hi & E). specialize (Hoff k i Hi). congruence.
Qed.

(** Two hooks on the same signal: both complete, after the one close. *)
Lemma shutdown_once_witness :
  let int := js "SIGINT" in
  let ops := [OInstall demo_node None None; OInstall demo_node (Some [int]) None; OSignal int; OSignal int] in
  let a := after 0 demo_options [int; js "SIGTERM"] demo_world ops in
  completions a = [(0%nat, int); (1%nat, int)] /\ listeners a = [].
Proof.
  intros int ops a. split; [reflexivity|]. by apply (shutdown_once 0 demo_options [int; js "SIGTERM"] demo_world ops).
Defined.
